(* ===== verification/_CoqProject ===== *)
-Q . S2P
Prelude.v
SafeMath.v
LinkedHashmap.v
Caches.v
Packer.v
Bimap.v
Codec.v
CodecValues.v
CodecMaps.v
Sets.v
Bits.v
IdBits.v
Ids.v
Sampler.v
SampleableSet.v
DrawLoop.v
IndexedList.v
Heap.v
Bloom.v
VdrManager.v
VdrManagerProps.v
VdrManagerTheorems.v
IpTracker.v
IpTrackerProps.v
IpTrackerTheorems.v
IpGossip.v
PeerSet.v
Float64.v
Benchlist.v
Version.v
SignedIp.v
Peer.v
PeerProps.v
MessageQueue.v
PeerWire.v
Messages.v
Network.v
NetworkPeers.v
NetworkDials.v
NetworkRouter.v
NetworkTheorems.v
NetworkSend.v
Sender.v
PeerTracker.v
AppRequests.v
WarpMessage.v
WarpMessageProps.v
WarpSignature.v
WarpSignatureProps.v
WarpVerify.v
WarpConcrete.v
Database.v
WarpBackend.v
WarpBackendProps.v
WarpBackendConcrete.v
P2p.v
AppHandlers.v
WarpService.v
WarpServiceConcrete.v
Uptime.v
Validators.v
ValidatorsProps.v
ValidatorsTheorems.v
CometBFT.v
Executor.v
Concrete.v
WrappedBlocks.v
VM.v
VMProps.v
WarpVM.v
VMConcrete.v
WarpVMConcrete.v
Rpc.v
