(* ===== verification/Prelude.v ===== *)
(** * Slide SDK: a verification development

    The slide SDK runs a CometBFT application as a virtual machine of an Avalanche
    node: the node's consensus engine asks the VM over gRPC to build, parse, verify,
    accept and reject blocks; the VM executes accepted blocks on the application,
    keeps block caches, and takes part in warp messaging, where validators of a
    subnet sign messages for other chains.  The Go code is under src/; this library
    models what of it computes, and proves what the parts promise to each other.

    ** Parts and files

    - Prelude.v: results, machine integers, bytes and big-endian numbers.
      SafeMath.v: src/utils/math/safe_math.go.
    - Caches: LinkedHashmap.v (src/utils/linkedhashmap), Caches.v (src/utils/cache: the LRU
      and the LRU bounded by size), Bimap.v (src/utils/bimap).
    - Encoding: Packer.v (src/utils/wrappers), Codec.v (src/utils/codec: the
      reflection codec over a universe of Go types and values, the linear registry
      and the manager), CodecValues.v (how byte arrays and slices are encoded),
      CodecMaps.v (maps, over a class that Codec.v's types and maps satisfy).
      Ids.v and IdBits.v (src/utils/ids, src/utils/cb58): identifiers as text and
      as bits.
    - Sampling: Sampler.v (src/utils/sampler: numbers of a range from a random source,
      sampling without replacement), SampleableSet.v (src/utils/set/sampleable_set.go),
      DrawLoop.v (loops over random indices).
    - Shared structures: Sets.v (src/utils/set/set.go, src/utils/sorting.go), IndexedList.v
      (slices with an index), Heap.v
      (src/utils/avalanche/heap), Bloom.v (src/utils/bloom), Float64.v (Go's float64),
      Version.v (src/utils/version), SignedIp.v (src/utils/ips and the signed IPs).
    - Database.v (src/database): the client of the node's database, its batches and
      iterators.
    - The chain: CometBFT.v (the parts of CometBFT the code calls, as a class of
      operations, and the monad of Go code: state, errors, panics and a log of
      calls), Executor.v (src/vm/types/state/executor.go, utils.go, tx_filter.go and
      src/vm/types/commit), WrappedBlocks.v (src/vm/types: block encoding, the block
      storage over a heap of shared objects, configuration), VM.v and VMProps.v
      (src/vm/vm.go: the handlers).  Concrete.v and VMConcrete.v run them.
    - Validators: Uptime.v (src/utils/avalanche/uptime and the pausable manager),
      Validators.v, ValidatorsProps.v and ValidatorsTheorems.v
      (src/utils/evm/validators: the validator state on disk and in memory, the
      manager that synchronises it).  VdrManager.v, VdrManagerProps.v and
      VdrManagerTheorems.v (src/utils/evm/warp/validators: the validator set of each
      subnet over a heap of shared validators, its manager and their listeners).
    - The peer-to-peer network (src/utils/avalanche/network and what it uses):
      IpTracker.v, IpTrackerProps.v, IpTrackerTheorems.v and IpGossip.v (ip_tracker.go, a
      listener of the validator manager), PeerSet.v (peer/set.go), Peer.v and PeerProps.v
      (peer/peer.go: the handshake and the handlers of messages), MessageQueue.v
      (peer/message_queue.go), PeerWire.v (the framing of messages), Messages.v
      (src/utils/avalanche/message and compression), Network.v, NetworkPeers.v,
      NetworkDials.v, NetworkRouter.v and NetworkTheorems.v (network.go and tracked_ip.go as
      steps of goroutines, and the whole with the IP tracker and the validator manager),
      NetworkSend.v (to whom it sends), Benchlist.v and Sender.v
      (src/utils/avalanche/networking: the benchlist, the timeouts and the sender of
      requests, over the network).
    - Requests between VMs: AppRequests.v (src/utils/evm/peer: the requests the VM makes),
      PeerTracker.v (the choice of a peer), P2p.v (src/utils/avalanche/network/p2p and
      acp118), AppHandlers.v (the requests of other nodes, through both protocols, to the
      warp backend).
    - Warp: Bits.v (src/utils/set/bits.go), WarpMessage.v (messages and payloads,
      src/utils/avalanche/warp and src/utils/evm/warp/messages), WarpSignature.v
      (BLS wrappers, the canonical validator set, verification and aggregation),
      WarpBackend.v (src/warp, src/utils/message and the request handlers),
      WarpService.v (the user API, src/vm/warp_service.go), WarpVM.v (the VM as the
      block source of the backend).
    - Rpc.v (src/vm/rpc.go): the handlers of CometBFT's RPC, over the stores.

    The *Props, *Theorems, WarpVerify and *Concrete files hold proofs and concrete runs.

    ** How the code is modelled

    A Go struct is a record, an interface value or enum an inductive type; an
    operation is a function from the old state to the result and the new state.
    Errors are values of [result]; [None] or [EPanic] is a panic.  Integers keep
    their width: wrap-around is written out with [wrapU] and [wrapS].  Byte slices,
    strings and IDs are lists of bytes; a Go map is a [gmap], and where the order
    in which Go visits a map, or messages arrive, can matter, that order is an
    argument.  The clock, random bytes and the growth of slices are arguments too.
    Goroutines that share state (Network.v, MessageQueue.v, AppRequests.v, Benchlist.v)
    are sequences of atomic steps, a step being what one goroutine does while it
    holds the locks, and the theorems are about every interleaving.

    Third-party code is behind classes: [CometBFT] and [Services] (CometBFT, the
    ABCI application, the stores, the mempool, the event bus), [Codecs] (protobuf
    and JSON), [DatabaseClient], [Blst] with [BlstLaws] (BLS signatures), [Base58]
    with [Base58Laws], [Proto] and [Zstd] with their laws (messages of the network);
    SHA-256 and [math.Exp] are parameters.  What a theorem needs of them is an
    explicit hypothesis, and the Concrete files (for Caches.v, Packer.v, Codec.v,
    Ids.v and others the end of the file) have instances that satisfy it.

    ** What is shown

    - VMProps.v: whatever requests the engine sends, the accepted blocks form a chain
      from the initial state, every cache maps an ID to a block with that hash, a
      failed accept leaves the VM as it was, accepted blocks are served as accepted,
      only validated blocks are cached as verified; the first block of a chain.
      Executor.v: [ValidateBlock] is its specification, and [ApplyBlock] makes its calls in the order that is safe on a crash, with their
      effects on the state.
    - ValidatorsTheorems.v: the invariant of validator state and uptime trackers over
      any sequence of operations, bounds of uptimes, what is on disk after a write,
      and synchronisation.  VdrManagerTheorems.v: the manager of validator sets refines
      a map from subnets to validators, errors and sums included, and what a manager
      listener is told is enough to follow every set.
    - WarpVerify.v: [Verify] accepts exactly the messages with a quorum of the weight,
      the numbering of validators is canonical, and what the aggregator returns is
      accepted.  WarpMessageProps.v: messages round trip and parsing is canonical.
      WarpBackendProps.v, WarpService.v and WarpVM.v: stored messages and accepted
      blocks are signed, and the signature reaches the peer or user that asks; when
      a peer's request fails twice the client blocks forever.
    - Codec.v, CodecMaps.v, Packer.v, Ids.v, IdBits.v: round trips, canonical encodings, totality,
      bit operations against a bitwise reference.  Caches.v, LinkedHashmap.v,
      Database.v: refinement of maps and sequences, bounds, termination.  Sampler.v and
      SampleableSet.v: every number of a range is equally likely, samples are distinct
      and follow the shuffle, and the sampleable set refines finite sets.  Sets.v, Heap.v and
      Bloom.v: the sets over Go maps are finite sets, the heap with an index is a map with a minimum, and a filter has no false
      negatives.
    - NetworkTheorems.v: under every interleaving no step panics, the router hears of a
      node's connection, once for each common subnet, then of its messages, then of its
      disconnection, the IP tracker agrees, no two goroutines dial for one tracked IP, and a
      peer that handles no further message leaves within a number of its own steps that its
      pending work bounds.  PeerProps.v: the network hears of a peer only after it handled
      a handshake that passed every check.
      IpTrackerTheorems.v and IpGossip.v: which nodes are tracked follows from the
      validator sets, and the IPs gossiped are a full sample of those allowed.
      MessageQueue.v, PeerWire.v, Messages.v: messages are delivered in order or reported
      as failed, and what is written is what is read and parsed.  NetworkSend.v and
      Sender.v: who gets a message, and what a request to nodes does with each of them,
      also when the timeout manager is not set up and the call panics.
      Benchlist.v: who is benched, and that a benched node returns.
    - AppRequests.v: each request gets at most one answer, none is lost, and the bound on
      active requests holds.
      AppHandlers.v: a request of another node gets the signature the backend gives, or an
      error.  PeerTracker.v: the peer chosen for a request is connected.
    - Rpc.v: the pages of a search are together all its results, and a broadcast leaves no
      subscription behind.

    Theorems about behaviour that differs from what the code means to do say so in
    their comments (a block parsed twice, iterators, retries, text forms of IDs, gossip
    messages, failures of requests that were sent).

    ** Fuel

    The codec's decoder recurses on the type of the destination, with fuel for the
    types behind interfaces: the number of registered types, which
    [unmarshal_enough_fuel] shows is enough as no type may be nested in itself.  The
    loops that shrink caches have the number of entries as fuel ([lru_shrink_spec],
    [shrink_exits]), [genesis_chunks] the number of bytes ([chunk_loop_spec]) and
    the words of a bit set its number of bits ([Bits_Len_words]).  A loop over random
    indices has one round more than there are indices ([draw_loop_total]); the random
    numbers are a list, and the theorems say that a long enough one gives a result.  The
    heap moves an entry at most the length of the slice ([up_spec], [down_loop_spec]), the
    benchlist removes at most the nodes in its heap ([expire_loop_spec]), a stream holds
    at most as many messages as bytes ([read_loop_fuel]), an answer of [BlockchainInfo]
    spans at most 20 heights ([metas_loop_spec]), and 64 bits have 20 digits
    ([digits_spec]) and 10 groups of seven bits ([Uvarint_append]).  Other recursion is
    structural.

    ** What is not modelled

    The gRPC and HTTP plumbing and generated protobuf code, which move values between
    processes; sockets, TLS and certificates, over the standard library; the router of the
    node, which only logs; configuration that only names values; counters, metrics and
    logs, which nothing reads back; mocks and generators for tests.  Locks are modelled
    where goroutines interleave, and left out where an operation runs under one lock from
    its beginning to its end.  Memory limits and the scheduling of goroutines beyond their
    interleaving are not modelled. *)

From stdpp Require Export base tactics numbers option list list_numbers gmap fin_maps fin_map_dom strings sorting.
From Stdlib Require Export ZArith Lia.

Declare Scope go_scope.
Delimit Scope go_scope with go.

(** ** Results

    Go functions that return [(T, error)] return a [result E T] here: [Ok v]
    is the pair [(v, nil)] and [Err e] a non-nil error. *)

Inductive result (E A : Type) : Type :=
| Ok (a : A)
| Err (e : E).
Arguments Ok {E A} a.
Arguments Err {E A} e.

#[export] Instance result_ret {E} : MRet (result E) := λ _ a, Ok a.
#[export] Instance result_bind {E} : MBind (result E) := λ _ _ f m,
  match m with Ok a => f a | Err e => Err e end.
#[export] Instance result_fmap {E} : FMap (result E) := λ _ _ f m,
  match m with Ok a => Ok (f a) | Err e => Err e end.

#[export] Instance result_eq_dec {E A} `{EqDecision E, EqDecision A} :
  EqDecision (result E A).
Proof. solve_decision. Defined.

Definition is_ok {E A} (r : result E A) : bool :=
  match r with Ok _ => true | Err _ => false end.

Definition of_option {E A} (e : E) (o : option A) : result E A :=
  match o with Some a => Ok a | None => Err e end.

Lemma bind_Ok_inv {E A B} (m : result E A) (f : A → result E B) b :
  m ≫= f = Ok b → ∃ a, m = Ok a ∧ f a = Ok b.
Proof. destruct m; naive_solver. Qed.

Lemma is_ok_true {E A} (r : result E A) : is_ok r = true ↔ ∃ a, r = Ok a.
Proof. destruct r; naive_solver. Qed.

(** ** Machine integers

    A [w]-bit unsigned integer is a [Z] in [0, 2^w); arithmetic in Go wraps
    modulo [2^w], which is written out with [wrapU] and, for the signed types,
    [wrapS]. *)

Definition wrapU (w z : Z) : Z := z `mod` 2 ^ w.
Definition wrapS (w z : Z) : Z :=
  let u := wrapU w z in if bool_decide (u < 2 ^ (w - 1))%Z then u else (u - 2 ^ w)%Z.

Definition inU (w z : Z) : Prop := (0 ≤ z < 2 ^ w)%Z.
Definition inS (w z : Z) : Prop := (- 2 ^ (w - 1) ≤ z < 2 ^ (w - 1))%Z.

#[export] Instance inU_dec w z : Decision (inU w z).
Proof. unfold inU. apply _. Defined.
#[export] Instance inS_dec w z : Decision (inS w z).
Proof. unfold inS. apply _. Defined.

Lemma wrapU_id w z : inU w z → wrapU w z = z.
Proof. intros. by apply Z.mod_small. Qed.

Lemma wrapU_range w z : (0 ≤ w)%Z → inU w (wrapU w z).
Proof. intros. apply Z.mod_pos_bound. lia. Qed.

Lemma wrapS_id w z : (0 < w)%Z → inS w z → wrapS w z = z.
Proof.
  intros Hw [Hl Hu]. unfold wrapS, wrapU.
  assert (2 ^ w = 2 * 2 ^ (w - 1))%Z as Hp.
  { rewrite <-Z.pow_succ_r by lia. f_equal. lia. }
  destruct (decide (0 ≤ z)%Z).
  - rewrite Z.mod_small by lia. rewrite bool_decide_eq_true_2; lia.
  - rewrite <-(Z.mod_add z 1) by lia. rewrite Z.mod_small by lia.
    rewrite bool_decide_eq_false_2; lia.
Qed.

Create HintDb go discriminated.
#[export] Hint Resolve wrapU_range : go.
Create Rewrite HintDb go_rw.
#[export] Hint Rewrite @wrapU_id @wrapS_id using (assumption || lia) : go_rw.

(** ** Bytes

    A byte is a [Z] in [0, 256); byte slices and arrays are lists of them. *)

Abbreviation byte := Z (only parsing).
Abbreviation bytes := (list Z) (only parsing).

Definition byte_ok (b : Z) : Prop := inU 8 b.
Definition bytes_ok (bs : list Z) : Prop := Forall byte_ok bs.

(** [bytes.Compare]: lexicographic order of byte slices. *)
Fixpoint bytes_compare (a b : list Z) : comparison :=
  match a, b with
  | [], [] => Eq
  | [], _ => Lt
  | _, [] => Gt
  | x :: a', y :: b' =>
      match (x ?= y)%Z with Eq => bytes_compare a' b' | c => c end
  end.

Lemma bytes_compare_refl a : bytes_compare a a = Eq.
Proof. induction a; simpl; [done|]. by rewrite Z.compare_refl. Qed.

Lemma bytes_compare_eq a b : bytes_compare a b = Eq → a = b.
Proof.
  revert b. induction a as [|x a IH]; intros [|y b]; simpl; try done.
  destruct (Z.compare_spec x y); try done. intros. f_equal; auto.
Qed.

(** [bytes.Compare(a, b) <= 0] *)
Definition bytes_le (a b : list Z) : Prop := bytes_compare a b ≠ Gt.

#[export] Instance bytes_le_dec : RelDecision bytes_le.
Proof. intros a b. unfold bytes_le. destruct (bytes_compare a b); [left|left|right]; congruence. Defined.

Lemma bytes_compare_opp a b : bytes_compare b a = CompOpp (bytes_compare a b).
Proof.
  revert b. induction a as [|x a IH]; intros [|y b]; simpl; try done.
  rewrite (Z.compare_antisym x y). destruct (x ?= y)%Z; simpl; auto.
Qed.

#[export] Instance bytes_le_total : Total bytes_le.
Proof.
  intros a b. unfold bytes_le. rewrite (bytes_compare_opp a b).
  destruct (bytes_compare a b); simpl; [left|left|right]; congruence.
Qed.

#[export] Instance bytes_le_antisymm : AntiSymm (=) bytes_le.
Proof.
  intros a b. unfold bytes_le. rewrite (bytes_compare_opp a b).
  destruct (bytes_compare a b) eqn:E; simpl; try done. intros _ _. by apply bytes_compare_eq.
Qed.

#[export] Instance bytes_le_trans : Transitive bytes_le.
Proof.
  intros a. induction a as [|x a IH]; intros [|y b] [|z c]; unfold bytes_le in *; simpl; try done.
  destruct (Z.compare_spec x y), (Z.compare_spec y z), (Z.compare_spec x z); try done; try lia.
  intros. subst. by eapply IH.
Qed.

(** [slices.SortFunc]: some order of the elements that [cmp] allows. *)
Class SortFunc := {
  slices_SortFunc : ∀ {A}, (A → A → comparison) → list A → list A;
  SortFunc_perm : ∀ {A} (cmp : A → A → comparison) l, slices_SortFunc cmp l ≡ₚ l;
  SortFunc_sorted : ∀ {A} (cmp : A → A → comparison) l,
    (∀ x y, cmp y x = CompOpp (cmp x y)) → (∀ x y z, cmp x y ≠ Gt → cmp y z ≠ Gt → cmp x z ≠ Gt) →
    StronglySorted (λ x y, cmp x y ≠ Gt) (slices_SortFunc cmp l);
}.

(** Sorting by merging is one. *)
Definition merge_SortFunc : SortFunc.
Proof.
  refine {| slices_SortFunc A cmp l := merge_sort (λ x y, cmp x y ≠ Gt) l |}.
  - intros A cmp l. apply merge_sort_Permutation.
  - intros A cmp l Hopp Htr. apply StronglySorted_merge_sort; [exact Htr|].
    intros x y. rewrite (Hopp x y). destruct (cmp x y); cbn; [left|left|right]; done.
Defined.

(** Big-endian encoding of the low [8 * n] bits of [z], most significant byte
    first ([binary.BigEndian.PutUintX]), and its inverse
    ([binary.BigEndian.UintX]). *)
Fixpoint be_encode (n : nat) (z : Z) : list Z :=
  match n with
  | O => []
  | S n' => (z / 2 ^ (8 * Z.of_nat n')) `mod` 256 :: be_encode n' z
  end%Z.

Definition be_decode (bs : list Z) : Z :=
  foldl (λ acc b, acc * 256 + b)%Z 0%Z bs.

Lemma be_encode_length n z : length (be_encode n z) = n.
Proof. induction n; simpl; auto. Qed.

Lemma be_encode_ok n z : bytes_ok (be_encode n z).
Proof.
  induction n; constructor; auto. unfold byte_ok, inU.
  apply Z.mod_pos_bound. lia.
Qed.

Lemma be_decode_acc bs acc :
  foldl (λ acc b, acc * 256 + b)%Z acc bs =
  (acc * 2 ^ (8 * Z.of_nat (length bs)) + be_decode bs)%Z.
Proof.
  unfold be_decode. revert acc. induction bs as [|b bs IH]; intros acc; simpl.
  - lia.
  - rewrite (IH (acc * 256 + b)%Z), (IH (0 * 256 + b)%Z).
    replace (8 * Z.of_nat (S (length bs)))%Z
      with (8 + 8 * Z.of_nat (length bs))%Z by lia.
    rewrite Z.pow_add_r by lia. change (2 ^ 8)%Z with 256%Z. lia.
Qed.

Lemma be_decode_cons b bs :
  be_decode (b :: bs) = (b * 2 ^ (8 * Z.of_nat (length bs)) + be_decode bs)%Z.
Proof. unfold be_decode at 1. simpl. by rewrite be_decode_acc. Qed.

Lemma be_decode_encode_mod n z :
  be_decode (be_encode n z) = (z `mod` 2 ^ (8 * Z.of_nat n))%Z.
Proof.
  induction n as [|n IH].
  - simpl. rewrite Z.mod_1_r. done.
  - simpl be_encode. rewrite be_decode_cons, be_encode_length, IH.
    replace (8 * Z.of_nat (S n))%Z with (8 * Z.of_nat n + 8)%Z by lia.
    rewrite Z.pow_add_r by lia. change (2 ^ 8)%Z with 256%Z.
    rewrite Z.rem_mul_r by lia. lia.
Qed.

(** Decoding what was encoded gives the number back when it fits. *)
Lemma be_decode_encode n z :
  inU (8 * Z.of_nat n) z → be_decode (be_encode n z) = z.
Proof. intros. rewrite be_decode_encode_mod. by apply Z.mod_small. Qed.

Lemma be_decode_range bs :
  bytes_ok bs → inU (8 * Z.of_nat (length bs)) (be_decode bs).
Proof.
  induction 1 as [|b bs Hb Hbs IH]; [done|]. unfold inU in *.
  rewrite be_decode_cons. simpl length.
  replace (8 * Z.of_nat (S (length bs)))%Z
    with (8 + 8 * Z.of_nat (length bs))%Z by lia.
  rewrite Z.pow_add_r by lia. destruct Hb. change (2 ^ 8)%Z with 256%Z in *. nia.
Qed.

Lemma be_encode_mod_add n b z :
  be_encode n (b * 2 ^ (8 * Z.of_nat n) + z) = be_encode n z.
Proof.
  enough (∀ m, (m ≤ n)%nat →
    be_encode m (b * 2 ^ (8 * Z.of_nat n) + z) = be_encode m z) by auto.
  intros m. induction m as [|m IH]; intros Hm; [done|]. simpl.
  rewrite IH by lia. f_equal.
  replace (8 * Z.of_nat n)%Z
    with (8 * Z.of_nat m + (8 + 8 * Z.of_nat (n - m - 1)))%Z by lia.
  rewrite !Z.pow_add_r by lia. change (2 ^ 8)%Z with 256%Z.
  set (k := (8 * Z.of_nat m)%Z). set (j := (2 ^ (8 * Z.of_nat (n - m - 1)))%Z).
  replace (b * (2 ^ k * (256 * j)) + z)%Z with (z + (b * (256 * j)) * 2 ^ k)%Z by lia.
  rewrite Z.div_add by (subst k; lia).
  replace (z / 2 ^ k + b * (256 * j))%Z with (z / 2 ^ k + (b * j) * 256)%Z by lia.
  by rewrite Z.mod_add by lia.
Qed.

(** Encoding what was decoded gives the bytes back. *)
Lemma be_encode_decode bs :
  bytes_ok bs → be_encode (length bs) (be_decode bs) = bs.
Proof.
  induction 1 as [|b bs Hb Hbs IH]; [done|]. simpl length. simpl be_encode.
  rewrite be_decode_cons.
  pose proof (be_decode_range bs Hbs) as Hr. unfold inU in Hr.
  rewrite be_encode_mod_add, IH. f_equal.
  rewrite Z.add_comm, Z.div_add by lia.
  rewrite Z.div_small by lia. apply Z.mod_small. exact Hb.
Qed.

(** ** Lists *)

Lemma elem_of_drop {A} (l : list A) n x : x ∈ drop n l → x ∈ l.
Proof. intros. rewrite <-(take_drop n l). apply elem_of_app. by right. Qed.

Lemma elem_of_take_1 {A} (l : list A) n x : x ∈ take n l → x ∈ l.
Proof. intros. rewrite <-(take_drop n l). apply elem_of_app. by left. Qed.

Lemma NoDup_drop {A} (l : list A) n : NoDup l → NoDup (drop n l).
Proof. rewrite <-(take_drop n l) at 1. rewrite NoDup_app. naive_solver. Qed.

#[export] Hint Resolve elem_of_drop elem_of_take_1 NoDup_drop : go.

Lemma length_filter_fmap {A B} (P : B → Prop) `{!∀ x, Decision (P x)} (f : A → B) l :
  length (filter P (f <$> l)) = length (filter (λ x, P (f x)) l).
Proof.
  induction l as [|x l IH]; [done|]. csimpl. rewrite !filter_cons.
  destruct (decide (P (f x))); simpl; auto.
Qed.

Lemma length_filter_ext {A} (P Q : A → Prop) `{!∀ x, Decision (P x), !∀ x, Decision (Q x)} l :
  Forall (λ x, P x ↔ Q x) l → length (filter P l) = length (filter Q l).
Proof.
  induction 1 as [|x l Hx _ IH]; [done|]. rewrite !filter_cons.
  destruct (decide (P x)), (decide (Q x)); simpl; naive_solver.
Qed.
