(* ===== verification/SafeMath.v ===== *)
(** * Overflow-checked unsigned arithmetic (src/utils/math/safe_math.go)

    The Go functions are generic over the unsigned types; the width [w] of the
    type is an argument here. *)

From S2P Require Import Prelude.
Local Open Scope Z_scope.

Inductive math_err := ErrOverflow | ErrUnderflow.

#[export] Instance math_err_eq_dec : EqDecision math_err.
Proof. solve_decision. Defined.

(** [^T(0)]. *)
Definition MaxUint (w : Z) : Z := 2 ^ w - 1.

Definition Add (w a b : Z) : result math_err Z :=
  if bool_decide (wrapU w (MaxUint w - b) < a) then Err ErrOverflow
  else Ok (wrapU w (a + b)).

Definition Sub (w a b : Z) : result math_err Z :=
  if bool_decide (a < b) then Err ErrUnderflow else Ok (wrapU w (a - b)).

Definition Mul (w a b : Z) : result math_err Z :=
  if bool_decide (b ≠ 0) && bool_decide (MaxUint w / b < a) then Err ErrOverflow
  else Ok (wrapU w (a * b)).

Definition AbsDiff (w a b : Z) : Z := wrapU w (Z.max a b - Z.min a b).

(** [Add] returns the mathematical sum exactly when it fits. *)
Lemma Add_spec w a b :
  0 <= w → inU w a → inU w b →
  Add w a b = if bool_decide (inU w (a + b)) then Ok (a + b) else Err ErrOverflow.
Proof.
  intros Hw [Ha1 Ha2] [Hb1 Hb2]. unfold Add, MaxUint.
  rewrite wrapU_id by (unfold inU; lia).
  repeat case_bool_decide; unfold inU in *; try lia; try done.
  by rewrite wrapU_id by (unfold inU; lia).
Qed.

Lemma Sub_spec w a b :
  0 <= w → inU w a → inU w b →
  Sub w a b = if bool_decide (b <= a) then Ok (a - b) else Err ErrUnderflow.
Proof.
  intros Hw [Ha1 Ha2] [Hb1 Hb2]. unfold Sub.
  repeat case_bool_decide; unfold inU in *; try lia; try done.
  by rewrite wrapU_id by (unfold inU; lia).
Qed.

Lemma Mul_spec w a b :
  0 <= w → inU w a → inU w b →
  Mul w a b = if bool_decide (inU w (a * b)) then Ok (a * b) else Err ErrOverflow.
Proof.
  intros Hw [Ha1 Ha2] [Hb1 Hb2]. unfold Mul, MaxUint.
  destruct (decide (b = 0)) as [->|Hb].
  - simpl. rewrite Z.mul_0_r, bool_decide_eq_true_2 by (unfold inU; lia).
    by rewrite wrapU_id by (unfold inU; lia).
  - rewrite (bool_decide_eq_true_2 (b ≠ 0)) by done. simpl.
    assert (MaxUint w / b < a ↔ 2 ^ w <= a * b) as Hiff.
    { unfold MaxUint. split; intros H.
      - apply Z.div_lt_upper_bound in H || idtac.
        destruct (Z.le_gt_cases (2 ^ w) (a * b)); [done|].
        assert (a <= (2 ^ w - 1) / b) by (apply Z.div_le_lower_bound; lia). lia.
      - apply Z.div_lt_upper_bound; lia. }
    unfold MaxUint in Hiff.
    repeat case_bool_decide; unfold inU in *; try nia; try done.
    by rewrite wrapU_id by (unfold inU; nia).
Qed.

Lemma AbsDiff_spec w a b :
  0 <= w → inU w a → inU w b → AbsDiff w a b = Z.abs (a - b).
Proof.
  intros Hw [Ha1 Ha2] [Hb1 Hb2]. unfold AbsDiff.
  rewrite wrapU_id by (unfold inU; lia). lia.
Qed.

(** ** Sums *)

Definition sumZ (l : list Z) : Z := foldr Z.add 0 l.

Lemma sumZ_app l1 l2 : sumZ (l1 ++ l2) = sumZ l1 + sumZ l2.
Proof. induction l1 as [|x l1 IH]; simpl; [done|]. rewrite IH. lia. Qed.

Lemma sumZ_nonneg l : Forall (λ x, 0 <= x) l → 0 <= sumZ l.
Proof. induction 1; simpl; lia. Qed.

#[export] Instance sumZ_perm : Proper ((≡ₚ) ==> (=)) sumZ.
Proof. intros l1 l2. induction 1; simpl; lia. Qed.

(** Replacing and removing an element. *)
Lemma sumZ_insert l i x y : l !! i = Some x → sumZ (<[i := y]> l) = (sumZ l + y - x)%Z.
Proof.
  revert i. induction l as [|a l IH]; intros [|i] H; simplify_eq/=; [lia|].
  rewrite (IH i H). lia.
Qed.

Lemma sumZ_delete l i x : l !! i = Some x → sumZ (delete i l) = (sumZ l - x)%Z.
Proof.
  revert i. induction l as [|a l IH]; intros [|i] H; simplify_eq/=; [lia|].
  rewrite (IH i H). lia.
Qed.

Lemma sumZ_fmap_set {A} (f : A → Z) l i t t' : l !! i = Some t →
  sumZ (f <$> <[i := t']> l) = sumZ (f <$> l) + f t' - f t.
Proof. intros Hi. rewrite list_fmap_insert. apply sumZ_insert. by rewrite list_lookup_fmap, Hi. Qed.

Lemma sumZ_fmap_snoc {A} (f : A → Z) l t : sumZ (f <$> l ++ [t]) = sumZ (f <$> l) + f t.
Proof. rewrite fmap_app, sumZ_app. simpl. lia. Qed.

(** Summing some of the elements. *)
Lemma sumZ_filter {A} (f : A → Z) (P : A → Prop) `{!∀ x, Decision (P x)} l :
  Forall (λ x, 0 <= f x) l → sumZ (f <$> filter P l) <= sumZ (f <$> l).
Proof.
  induction 1 as [|x l Hx _ IH]; [done|]. rewrite filter_cons. csimpl. case_decide; csimpl; lia.
Qed.

(** A running sum with [Add], the pattern of the weight computations: it is the
    sum when that fits, and an error otherwise. *)
Definition sum_checked (w : Z) (l : list Z) : result math_err Z :=
  foldl (λ acc x, acc ≫= λ s, Add w s x) (Ok 0) l.

Lemma sum_checked_from w l a :
  0 <= w → inU w a → Forall (inU w) l →
  foldl (λ acc x, acc ≫= λ s, Add w s x) (Ok a) l =
  if bool_decide (a + sumZ l < 2 ^ w) then Ok (a + sumZ l) else Err ErrOverflow.
Proof.
  intros Hw Ha Hl. revert a Ha. induction Hl as [|x l Hx Hl IH]; intros a Ha; simpl.
  - rewrite Z.add_0_r, bool_decide_eq_true_2; [done|apply Ha].
  - assert (0 <= sumZ l) by (apply sumZ_nonneg; eapply Forall_impl; [exact Hl|]; unfold inU; lia).
    rewrite Add_spec by done. case_bool_decide as Hs.
    + rewrite IH by done. by rewrite Z.add_assoc.
    + rewrite bool_decide_eq_false_2 by (unfold inU in *; lia). clear. by induction l as [|y l IH].
Qed.

Lemma sum_checked_spec w l :
  0 <= w → Forall (inU w) l →
  sum_checked w l = if bool_decide (sumZ l < 2 ^ w) then Ok (sumZ l) else Err ErrOverflow.
Proof.
  intros Hw Hl. unfold sum_checked. rewrite sum_checked_from; [done|done| |done].
  split; [lia|]. apply Z.pow_pos_nonneg; lia.
Qed.
