(* ===== verification/LinkedHashmap.v ===== *)
(** * Insertion-ordered hash maps (src/utils/linkedhashmap)

    [linkedHashmap] keeps a Go map from keys to elements of a
    [container/list] and that list.  Elements are heap objects: an iterator
    holds a pointer to one, and the pointer stays valid (with the value it
    had) after the element left the list.  The model therefore has a store
    [elems] of elements, the order [entryList] of the ones in the list, and
    the map [entryMap] from keys to element pointers.

    The abstract view is an association list without duplicate keys, oldest
    first ([Spec]); [linkedHashmap_refines] shows that every operation
    implements it.  Clients (the caches) are verified against the class
    [LinkedHashmap], which states just that view. *)

From S2P Require Import Prelude.

(** ** The interface other components rely on *)

Class LinkedHashmapOps (K V H : Type) := {
  lh_New : H;
  lh_Put : K → V → H → H;
  lh_Get : K → H → option V;
  lh_Delete : K → H → bool * H;
  lh_Len : H → nat;
  lh_Oldest : H → option (K * V);
  lh_Newest : H → option (K * V);
}.

(** The abstract specification: an association list, oldest entry first. *)
Module Spec.
Section spec.
Context {K V : Type} `{EqDecision K}.

Definition delete (k : K) (l : list (K * V)) : list (K * V) :=
  filter (λ p, p.1 ≠ k) l.
Definition put (k : K) (v : V) (l : list (K * V)) : list (K * V) :=
  delete k l ++ [(k, v)].
Definition get (k : K) (l : list (K * V)) : option V :=
  snd <$> list_find (λ p, p.1 = k) l ≫= λ r, Some r.2.
Definition has (k : K) (l : list (K * V)) : bool := bool_decide (k ∈ l.*1).

Lemma get_nil k : get k [] = None.
Proof. done. Qed.

Lemma get_cons k k' v l :
  get k ((k', v) :: l) = if decide (k' = k) then Some v else get k l.
Proof.
  unfold get. simpl. destruct (decide (k' = k)); [done|].
  by destruct (list_find _ l) as [[? ?]|].
Qed.

Lemma get_app k l1 l2 :
  get k (l1 ++ l2) = match get k l1 with Some v => Some v | None => get k l2 end.
Proof.
  induction l1 as [|[k' v] l1 IH]; [done|]. simpl app.
  rewrite !get_cons. by case_decide.
Qed.

Lemma get_Some k v l : NoDup l.*1 → get k l = Some v ↔ (k, v) ∈ l.
Proof.
  induction l as [|[k' v'] l IH]; simpl.
  - intros _. split; [done|]. by intros ?%elem_of_nil.
  - intros [Hni Hnd]%NoDup_cons. rewrite get_cons, elem_of_cons.
    case_decide as E; [subst k'|]; [|naive_solver].
    split; [naive_solver|]. intros [?|Hin]; [naive_solver|].
    destruct Hni. apply list_elem_of_fmap. by exists (k, v).
Qed.

Lemma get_None k l : get k l = None ↔ k ∉ l.*1.
Proof.
  induction l as [|[k' v'] l IH]; simpl; [split; [by intros _ ?%elem_of_nil|done]|].
  rewrite get_cons, not_elem_of_cons. case_decide; naive_solver.
Qed.

Lemma get_delete k k' l :
  get k (delete k' l) = if decide (k = k') then None else get k l.
Proof.
  unfold delete. induction l as [|[k1 v1] l IH]; simpl; [by case_decide|].
  rewrite filter_cons. simpl. rewrite get_cons.
  repeat case_decide; subst; rewrite ?get_cons; repeat case_decide; naive_solver.
Qed.

Lemma get_put k k' v l :
  get k (put k' v l) = if decide (k = k') then Some v else get k l.
Proof.
  unfold put. rewrite get_app, get_delete, get_cons, get_nil.
  repeat case_decide; try congruence. by destruct (get k l).
Qed.

Lemma delete_fst_elem k k' l :
  k ∈ (delete k' l).*1 ↔ k ∈ l.*1 ∧ k ≠ k'.
Proof.
  rewrite !list_elem_of_fmap. unfold delete.
  split.
  - intros ([k1 v1] & -> & Hin). apply list_elem_of_filter in Hin as [??]. eauto.
  - intros [([k1 v1] & -> & Hin) Hne]. exists (k1, v1). split; [done|].
    by apply list_elem_of_filter.
Qed.

Lemma delete_NoDup k l : NoDup l.*1 → NoDup (delete k l).*1.
Proof.
  unfold delete. induction l as [|[k' v] l IH]; simpl; [done|].
  intros [Hni Hnd]%NoDup_cons. rewrite filter_cons. simpl. case_decide; [|auto].
  simpl. apply NoDup_cons. split; [|auto].
  intros Hin. apply (delete_fst_elem k' k l) in Hin. naive_solver.
Qed.

Lemma put_NoDup k v l : NoDup l.*1 → NoDup (put k v l).*1.
Proof.
  intros Hnd. unfold put. rewrite fmap_app. apply NoDup_app.
  split; [by apply delete_NoDup|]. split; [|apply NoDup_singleton].
  intros k' Hin. apply delete_fst_elem in Hin. simpl.
  rewrite list_elem_of_singleton. naive_solver.
Qed.

Lemma delete_not_in k l : k ∉ l.*1 → delete k l = l.
Proof.
  intros Hni. unfold delete. induction l as [|[k' v] l IH]; [done|].
  simpl in Hni. apply not_elem_of_cons in Hni as [??].
  rewrite filter_cons. simpl. rewrite decide_True by done. f_equal. auto.
Qed.

Lemma delete_head k v l : NoDup ((k, v) :: l).*1 → delete k ((k, v) :: l) = l.
Proof.
  simpl. intros [Hni Hnd]%NoDup_cons. unfold delete. rewrite filter_cons. simpl.
  rewrite decide_False by auto. by apply delete_not_in.
Qed.

Lemma delete_length k l :
  NoDup l.*1 →
  length (delete k l) = (length l - if decide (k ∈ l.*1) then 1 else 0)%nat.
Proof.
  induction l as [|[k' v] l IH]; simpl; [done|].
  intros [Hni Hnd]%NoDup_cons. unfold delete in *. rewrite filter_cons. simpl.
  destruct (decide (k' = k)) as [->|Hne].
  - rewrite (decide_False (P := k ≠ k)) by auto. rewrite (IH Hnd).
    repeat case_decide; try done; try lia; set_solver.
  - rewrite (decide_True (P := k' ≠ k)) by done. simpl. rewrite (IH Hnd).
    assert (k ∈ l.*1 → length l ≠ 0%nat) as Hlen.
    { destruct l; [by intros ?%elem_of_nil|done]. }
    assert (k ∈ k' :: l.*1 ↔ k ∈ l.*1) by (rewrite elem_of_cons; naive_solver).
    repeat case_decide; try tauto; try lia.
    assert (length l ≠ 0%nat) by tauto. lia.
Qed.

Lemma put_length k v l :
  NoDup l.*1 →
  length (put k v l) = if decide (k ∈ l.*1) then length l else S (length l).
Proof.
  intros Hnd. unfold put. rewrite length_app, delete_length by done. simpl.
  case_decide as Hin; [|lia].
  destruct l; [by apply elem_of_nil in Hin|]. simpl. lia.
Qed.

Lemma delete_sublist k l : delete k l `sublist_of` l.
Proof. apply sublist_filter. Qed.
End spec.
End Spec.

Class LinkedHashmap (K V H : Type) `{EqDecision K} `{!LinkedHashmapOps K V H} := {
  lh_inv : H → Prop;
  lh_abs : H → list (K * V);
  lh_abs_NoDup h : lh_inv h → NoDup (lh_abs h).*1;
  lh_New_spec : lh_inv lh_New ∧ lh_abs lh_New = [];
  lh_Put_spec k v h : lh_inv h →
    lh_inv (lh_Put k v h) ∧ lh_abs (lh_Put k v h) = Spec.put k v (lh_abs h);
  lh_Get_spec k h : lh_inv h → lh_Get k h = Spec.get k (lh_abs h);
  lh_Delete_spec k h : lh_inv h →
    lh_inv (lh_Delete k h).2 ∧
    lh_abs (lh_Delete k h).2 = Spec.delete k (lh_abs h) ∧
    (lh_Delete k h).1 = Spec.has k (lh_abs h);
  lh_Len_spec h : lh_inv h → lh_Len h = length (lh_abs h);
  lh_Oldest_spec h : lh_inv h → lh_Oldest h = head (lh_abs h);
  lh_Newest_spec h : lh_inv h → lh_Newest h = last (lh_abs h);
}.

(** ** The implementation *)

Module linkedHashmap.
Section lh.
Context {K V : Type} `{Countable K}.

Record t := mk {
  entryMap : gmap K nat;
  entryList : list nat;
  elems : gmap nat (K * V);
  fresh : nat;
}.

(** [container/list] operations on the order of the element pointers. *)
Definition list_Remove (e : nat) (l : list nat) : list nat := filter (λ x, x ≠ e) l.
Definition list_MoveToBack (e : nat) (l : list nat) : list nat := list_Remove e l ++ [e].
(** [e.Next()]: the element after [e], nil when [e] is last or not in the list. *)
Fixpoint list_Next (e : nat) (l : list nat) : option nat :=
  match l with
  | [] => None
  | x :: l' => if decide (x = e) then head l' else list_Next e l'
  end.

Definition New : t := mk ∅ [] ∅ 0.

Definition put (key : K) (value : V) (lh : t) : t :=
  match entryMap lh !! key with
  | Some e => mk (entryMap lh) (list_MoveToBack e (entryList lh))
                 (<[e := (key, value)]> (elems lh)) (fresh lh)
  | None => let e := fresh lh in
            mk (<[key := e]> (entryMap lh)) (entryList lh ++ [e])
               (<[e := (key, value)]> (elems lh)) (S e)
  end.

Definition get (key : K) (lh : t) : option V :=
  match entryMap lh !! key with
  | Some e => snd <$> elems lh !! e
  | None => None
  end.

Definition delete (key : K) (lh : t) : bool * t :=
  match entryMap lh !! key with
  | Some e => (true, mk (base.delete key (entryMap lh)) (list_Remove e (entryList lh))
                        (elems lh) (fresh lh))
  | None => (false, lh)
  end.

Definition len (lh : t) : nat := size (entryMap lh).
Definition oldest (lh : t) : option (K * V) :=
  head (entryList lh) ≫= λ e, elems lh !! e.
Definition newest (lh : t) : option (K * V) :=
  last (entryList lh) ≫= λ e, elems lh !! e.

(** The exported methods take the lock around the corresponding operation. *)
Definition Put := put.
Definition Get := get.
Definition Delete := delete.
Definition Len := len.
Definition Oldest := oldest.
Definition Newest := newest.

(** *** Iterators *)

Record iterator := mkIter {
  it_key : option K;       (* None is the zero value *)
  it_value : option V;
  it_next : option nat;
  it_initialized : bool;
  it_exhausted : bool;
}.

Definition NewIterator : iterator := mkIter None None None false false.

Definition Next (lh : t) (it : iterator) : bool * iterator :=
  if it_exhausted it then (false, mkIter None None None (it_initialized it) true)
  else
    let start := if it_initialized it then it_next it else head (entryList lh) in
    match start with
    | None => (false, mkIter None None None true true)
    | Some e =>
        match elems lh !! e with
        | None => (false, mkIter None None None true true)
        | Some (k, v) =>
            let n := list_Next e (entryList lh) in
            (true, mkIter (Some k) (Some v) n true (bool_decide (n = None)))
        end
    end.

Definition Key (it : iterator) : option K := it_key it.
Definition Value (it : iterator) : option V := it_value it.

(** Run an iterator to the end, collecting the pairs; [fuel] bounds the calls
    of [Next]. *)
Fixpoint collect (fuel : nat) (lh : t) (it : iterator) : list (K * V) :=
  match fuel with
  | O => []
  | S fuel' =>
      match Next lh it with
      | (true, it') =>
          match Key it', Value it' with
          | Some k, Some v => (k, v) :: collect fuel' lh it'
          | _, _ => []
          end
      | (false, _) => []
      end
  end.

(** Iterate and delete each entry after it was visited, the one modification
    the iterator's contract allows. *)
Fixpoint drain (fuel : nat) (lh : t) (it : iterator) : list (K * V) * t :=
  match fuel with
  | O => ([], lh)
  | S fuel' =>
      match Next lh it with
      | (true, it') =>
          match Key it', Value it' with
          | Some k, Some v =>
              let '(l, lh') := drain fuel' (delete k lh).2 it' in ((k, v) :: l, lh')
          | _, _ => ([], lh)
          end
      | (false, _) => ([], lh)
      end
  end.

(** *** Invariant and abstraction *)

Definition abs (lh : t) : list (K * V) := omap (λ e, elems lh !! e) (entryList lh).

Record wf (lh : t) : Prop := {
  wf_nodup : NoDup (entryList lh);
  wf_map k e : entryMap lh !! k = Some e ↔
               e ∈ entryList lh ∧ ∃ v, elems lh !! e = Some (k, v);
  wf_elems e : e ∈ entryList lh → is_Some (elems lh !! e);
  wf_fresh e : e ∈ entryList lh → (e < fresh lh)%nat;
}.

Lemma wf_New : wf New.
Proof.
  split; simpl; [constructor| |by intros ? ?%elem_of_nil|by intros ? ?%elem_of_nil].
  intros k e. rewrite lookup_empty, elem_of_nil. naive_solver.
Qed.

Lemma list_Remove_elem e e' l : e' ∈ list_Remove e l ↔ e' ∈ l ∧ e' ≠ e.
Proof. unfold list_Remove. rewrite list_elem_of_filter. naive_solver. Qed.

Lemma list_Remove_NoDup e l : NoDup l → NoDup (list_Remove e l).
Proof. apply NoDup_filter. Qed.

Lemma list_Remove_notin e l : e ∉ l → list_Remove e l = l.
Proof.
  unfold list_Remove. induction l as [|x l IH]; [done|].
  intros [??]%not_elem_of_cons. rewrite filter_cons_True by auto. f_equal. auto.
Qed.

Lemma list_MoveToBack_elem e e' l : e ∈ l → e' ∈ list_MoveToBack e l ↔ e' ∈ l.
Proof.
  intros. unfold list_MoveToBack. rewrite elem_of_app, list_Remove_elem.
  rewrite list_elem_of_singleton. destruct (decide (e' = e)); naive_solver.
Qed.

(** Dropping one element pointer drops the entry of its key. *)
Lemma omap_Remove (f : nat → option (K * V)) k e l :
  (∀ e', e' ∈ l → ∃ kv, f e' = Some kv ∧ (kv.1 = k ↔ e' = e)) →
  omap f (list_Remove e l) = Spec.delete k (omap f l).
Proof.
  unfold list_Remove, Spec.delete. induction l as [|x l IH]; intros Hl; [done|].
  destruct (Hl x) as (kv & Hx & Hiff); [left|].
  rewrite filter_cons. csimpl. rewrite Hx. rewrite filter_cons.
  assert (∀ e', e' ∈ l → ∃ kv, f e' = Some kv ∧ (kv.1 = k ↔ e' = e)) as Hl'.
  { intros. apply Hl. by right. }
  rewrite <-IH by done.
  destruct (decide (x ≠ e)), (decide (kv.1 ≠ k)); try tauto. csimpl. by rewrite Hx.
Qed.

Lemma omap_insert_fresh (m : gmap nat (K * V)) e kv (l : list nat) :
  e ∉ l → omap (λ x, <[e := kv]> m !! x) l = omap (λ x, m !! x) l.
Proof.
  induction l as [|x l IH]; [done|]. intros [? ?]%not_elem_of_cons. csimpl.
  rewrite lookup_insert_ne by done. rewrite IH by done. done.
Qed.

Lemma wf_entry_key lh k e e' :
  wf lh → entryMap lh !! k = Some e → e' ∈ entryList lh →
  ∃ kv, elems lh !! e' = Some kv ∧ (kv.1 = k ↔ e' = e).
Proof.
  intros [Hnd Hmap Hel Hfr] Hk Hin. destruct (Hel e' Hin) as [[k' v'] He'].
  exists (k', v'). split; [done|]. simpl. split.
  - intros ->. assert (entryMap lh !! k = Some e') by (apply Hmap; eauto). congruence.
  - intros ->. apply Hmap in Hk as (_ & v & ?). congruence.
Qed.

Lemma abs_elem lh k v :
  wf lh → (k, v) ∈ abs lh ↔ ∃ e, entryMap lh !! k = Some e ∧ elems lh !! e = Some (k, v).
Proof.
  intros [Hnd Hmap Hel Hfr]. unfold abs. rewrite list_elem_of_omap. split.
  - intros (e & Hin & He). exists e. split; [|done]. apply Hmap. eauto.
  - intros (e & Hk & He). exists e. apply Hmap in Hk. naive_solver.
Qed.

Lemma abs_keys lh k : wf lh → k ∈ (abs lh).*1 ↔ is_Some (entryMap lh !! k).
Proof.
  intros Hwf. rewrite list_elem_of_fmap. split.
  - intros ([k' v] & -> & Hin). simpl. apply abs_elem in Hin as (e & -> & _); eauto.
  - intros [e He]. destruct (proj1 (wf_map _ Hwf k e) He) as (_ & v & Hv).
    exists (k, v). split; [done|]. apply abs_elem; eauto.
Qed.

(** If pointers determine distinct keys, the listed entries have distinct keys. *)
Lemma omap_fst_NoDup (f : nat → option (K * V)) (l : list nat) :
  NoDup l →
  (∀ e1 e2 k v1 v2, e1 ∈ l → e2 ∈ l → f e1 = Some (k, v1) → f e2 = Some (k, v2) → e1 = e2) →
  NoDup (omap f l).*1.
Proof.
  induction l as [|e l IH]; intros Hnd Hinj; [constructor|].
  apply NoDup_cons in Hnd as [Hni Hnd]. csimpl.
  assert (NoDup (omap f l).*1) as Hl.
  { apply IH; [done|]. intros e1 e2 k v1 v2 ? ?. apply Hinj; by right. }
  destruct (f e) as [[k v]|] eqn:He; [|done]. csimpl.
  apply NoDup_cons. split; [|done].
  intros ([k' v'] & Hk & (e' & Hin & He')%list_elem_of_omap)%list_elem_of_fmap.
  simpl in Hk. subst k'. destruct Hni.
  rewrite (Hinj e e' k v v'); [done|left|by right|done|done].
Qed.

Lemma linked_abs_NoDup lh : wf lh → NoDup (abs lh).*1.
Proof.
  intros Hwf. pose proof Hwf as [Hnd Hmap Hel Hfr]. apply omap_fst_NoDup; [done|].
  intros e1 e2 k v1 v2 H1 H2 Hv1 Hv2.
  assert (entryMap lh !! k = Some e1) by (apply Hmap; eauto).
  assert (entryMap lh !! k = Some e2) by (apply Hmap; eauto). congruence.
Qed.

Lemma linked_put_spec k v lh :
  wf lh → wf (put k v lh) ∧ abs (put k v lh) = Spec.put k v (abs lh).
Proof.
  intros Hwf. pose proof Hwf as [Hnd Hmap Hel Hfr]. unfold put.
  destruct (entryMap lh !! k) as [e|] eqn:Hk.
  - apply Hmap in Hk as Hk'. destruct Hk' as (Hin & v0 & Hv0). split.
    + split; simpl.
      * unfold list_MoveToBack. apply NoDup_app. split; [by apply list_Remove_NoDup|].
        split; [|apply NoDup_singleton].
        intros x Hx. apply list_Remove_elem in Hx. rewrite list_elem_of_singleton.
        naive_solver.
      * intros k' e'. rewrite list_MoveToBack_elem by done.
        rewrite Hmap. destruct (decide (e = e')) as [<-|Hne].
        -- rewrite lookup_insert_eq. naive_solver.
        -- by rewrite lookup_insert_ne.
      * intros e' Hin'. apply list_MoveToBack_elem in Hin'; [|done].
        rewrite lookup_insert. case_decide; eauto.
      * intros e' Hin'. apply list_MoveToBack_elem in Hin'; [|done]. auto.
    + unfold abs, Spec.put, list_MoveToBack. simpl. rewrite omap_app. f_equal.
      * rewrite omap_insert_fresh by (rewrite list_Remove_elem; naive_solver).
        apply omap_Remove. intros e' He'. by eapply wf_entry_key.
      * simpl. by rewrite lookup_insert_eq.
  - assert (fresh lh ∉ entryList lh) as Hfresh.
    { intros ?%Hfr. lia. }
    split.
    + split; simpl.
      * apply NoDup_app. split; [done|]. split; [|apply NoDup_singleton].
        intros x Hx. rewrite list_elem_of_singleton. naive_solver.
      * intros k' e'. rewrite elem_of_app, list_elem_of_singleton.
        rewrite !lookup_insert. repeat case_decide; subst.
        -- naive_solver.
        -- split; [congruence|]. intros ([Hin|?] & v' & Hv'); [|congruence].
           assert (entryMap lh !! k' = Some e') by (apply Hmap; eauto). congruence.
        -- rewrite Hmap. naive_solver.
        -- rewrite Hmap. naive_solver.
      * intros e'. rewrite elem_of_app, list_elem_of_singleton, lookup_insert.
        case_decide; naive_solver.
      * intros e'. rewrite elem_of_app, list_elem_of_singleton.
        intros [?%Hfr| ->]; lia.
    + unfold abs, Spec.put. simpl. rewrite omap_app. f_equal.
      * rewrite omap_insert_fresh by done. fold (abs lh).
        rewrite Spec.delete_not_in; [done|].
        rewrite abs_keys by done. rewrite Hk. by intros [??].
      * simpl. by rewrite lookup_insert_eq.
Qed.

Lemma linked_get_spec k lh : wf lh → get k lh = Spec.get k (abs lh).
Proof.
  intros Hwf. unfold get. destruct (entryMap lh !! k) as [e|] eqn:Hk.
  - destruct (proj1 (wf_map _ Hwf k e) Hk) as (_ & v & Hv). rewrite Hv. simpl.
    symmetry. apply Spec.get_Some; [by apply linked_abs_NoDup|].
    apply abs_elem; eauto.
  - symmetry. apply Spec.get_None. rewrite abs_keys by done. rewrite Hk. by intros [??].
Qed.

Lemma delete_spec k lh :
  wf lh → wf (delete k lh).2 ∧ abs (delete k lh).2 = Spec.delete k (abs lh) ∧
          (delete k lh).1 = Spec.has k (abs lh).
Proof.
  intros Hwf. pose proof Hwf as [Hnd Hmap Hel Hfr]. unfold delete, Spec.has.
  destruct (entryMap lh !! k) as [e|] eqn:Hk; simpl.
  - split_and!.
    + split; simpl.
      * by apply list_Remove_NoDup.
      * intros k' e'. rewrite list_Remove_elem, lookup_delete.
        case_decide as Hkk; [subst k'|].
        -- split; [done|]. intros ([Hin Hne] & v & Hv).
           assert (entryMap lh !! k = Some e') by (apply Hmap; eauto). congruence.
        -- rewrite Hmap. split; [|naive_solver]. intros (Hin & v & Hv).
           split; [|eauto]. split; [done|]. intros ->.
           apply Hmap in Hk as (_ & v' & ?). congruence.
      * intros e' [? ?]%list_Remove_elem. auto.
      * intros e' [? ?]%list_Remove_elem. auto.
    + unfold abs. simpl. apply omap_Remove. intros e' He'. by eapply wf_entry_key.
    + symmetry. apply bool_decide_eq_true_2. rewrite abs_keys, Hk by done. eauto.
  - split_and!; [done| |].
    + rewrite Spec.delete_not_in; [done|]. rewrite abs_keys, Hk by done. by intros [??].
    + symmetry. apply bool_decide_eq_false_2. rewrite abs_keys, Hk by done.
      by intros [??].
Qed.

Lemma abs_length lh : wf lh → length (abs lh) = length (entryList lh).
Proof.
  intros [_ _ Hel _]. unfold abs.
  induction (entryList lh) as [|e l IH]; [done|]. csimpl.
  destruct (Hel e) as [kv ->]; [left|]. simpl. f_equal. apply IH.
  intros. apply Hel. by right.
Qed.

Lemma linked_len_spec lh : wf lh → len lh = length (abs lh).
Proof.
  intros Hwf. unfold len. rewrite <-size_dom, <-(length_fmap fst).
  rewrite <-(size_list_to_set (C := gset K)) by (by apply linked_abs_NoDup).
  f_equal. apply set_eq. intros k.
  rewrite elem_of_dom, elem_of_list_to_set. by rewrite abs_keys.
Qed.

Lemma oldest_spec lh : wf lh → oldest lh = head (abs lh).
Proof.
  intros [_ _ Hel _]. unfold oldest, abs. destruct (entryList lh) as [|e l]; [done|].
  csimpl. destruct (Hel e) as [kv ->]; [left|done].
Qed.

Lemma newest_spec lh : wf lh → newest lh = last (abs lh).
Proof.
  intros [_ _ Hel _]. unfold newest, abs.
  destruct (entryList lh) as [|e l] using rev_ind; [done|].
  rewrite last_snoc, omap_app. simpl.
  destruct (Hel e) as [kv ->]; [apply elem_of_app; right; by left|].
  by rewrite last_snoc.
Qed.

(** *** Iteration *)

Lemma list_Next_split e pre suf :
  NoDup (pre ++ e :: suf) → list_Next e (pre ++ e :: suf) = head suf.
Proof.
  induction pre as [|x pre IH]; simpl.
  - intros _. by rewrite decide_True.
  - intros [Hni Hnd]%NoDup_cons. rewrite decide_False; [by apply IH|].
    intros ->. apply Hni. apply elem_of_app. right. left.
Qed.

(** The step of an iterator that points at [e]. *)
Lemma Next_at lh it e pre suf k v :
  NoDup (entryList lh) → entryList lh = pre ++ e :: suf → elems lh !! e = Some (k, v) →
  it_exhausted it = false →
  (if it_initialized it then it_next it else head (entryList lh)) = Some e →
  Next lh it = (true, mkIter (Some k) (Some v) (head suf) true
                        (bool_decide (head suf = None))).
Proof.
  intros Hnd Hl He Hex Hst. unfold Next. rewrite Hex, Hst, He, Hl.
  rewrite list_Next_split; [done|]. by rewrite <-Hl.
Qed.

Lemma Next_exhausted lh it : it_exhausted it = true → (Next lh it).1 = false.
Proof. intros H'. unfold Next. by rewrite H'. Qed.

Lemma collect_from lh it pre l fuel :
  wf lh → entryList lh = pre ++ l → (length l < fuel)%nat →
  (it_exhausted it = true ∧ l = []) ∨
  (it_exhausted it = false ∧
   (if it_initialized it then it_next it else head (entryList lh)) = head l ∧
   (l = [] → it_initialized it = false)) →
  collect fuel lh it = omap (λ e, elems lh !! e) l.
Proof.
  intros Hwf. revert it pre l.
  induction fuel as [|fuel IH]; intros it pre l Hl Hlen Hit; [lia|].
  destruct l as [|e l].
  - simpl. destruct Hit as [[Hex _]|(Hex & Hst & Hini)].
    + pose proof (Next_exhausted lh it Hex). by destruct (Next lh it) as [[] ?].
    + unfold Next. rewrite Hex, Hst. done.
  - destruct Hit as [[_ ?]|(Hex & Hst & _)]; [done|].
    destruct (wf_elems _ Hwf e) as [[k v] He].
    { rewrite Hl. apply elem_of_app. right. left. }
    csimpl. rewrite He. simpl.
    erewrite Next_at by (try apply wf_nodup; eauto). simpl. f_equal.
    apply (IH _ (pre ++ [e]) l); [by rewrite <-app_assoc|simpl in *; lia|].
    destruct l as [|e' l]; simpl; [by left|right]. done.
Qed.

Lemma drain_from lh it l fuel :
  wf lh → entryList lh = l → (length l < fuel)%nat →
  (it_exhausted it = true ∧ l = []) ∨
  (it_exhausted it = false ∧
   (if it_initialized it then it_next it else head (entryList lh)) = head l) →
  ∃ lh', drain fuel lh it = (abs lh, lh') ∧ wf lh' ∧ abs lh' = [].
Proof.
  revert lh it l. induction fuel as [|fuel IH]; intros lh it l Hwf Hl Hlen Hit; [lia|].
  destruct l as [|e l].
  - exists lh. unfold abs. rewrite Hl. split_and!; [|done|done].
    simpl. destruct Hit as [[Hex _]|(Hex & Hst)].
    + pose proof (Next_exhausted lh it Hex). by destruct (Next lh it) as [[] ?].
    + unfold Next. by rewrite Hex, Hst.
  - destruct Hit as [[_ ?]|(Hex & Hst)]; [done|].
    destruct (wf_elems _ Hwf e) as [[k v] He]; [rewrite Hl; left|].
    assert (entryMap lh !! k = Some e) as Hk.
    { apply (wf_map _ Hwf). split; [rewrite Hl; left|eauto]. }
    pose proof (wf_nodup _ Hwf) as Hnd. rewrite Hl in Hnd.
    apply NoDup_cons in Hnd as [Hni Hnd].
    assert (entryList (delete k lh).2 = l) as Hl'.
    { unfold delete. rewrite Hk. simpl. rewrite Hl. unfold list_Remove.
      rewrite filter_cons_False by auto. by apply list_Remove_notin. }
    destruct (delete_spec k lh Hwf) as (Hwf' & Habs & _).
    simpl. erewrite (Next_at lh it e [] l)
      by (try apply wf_nodup; eauto). simpl.
    destruct (IH (delete k lh).2
      (mkIter (Some k) (Some v) (head l) true (bool_decide (head l = None))) l)
      as (lh' & -> & Hlh' & Hemp); [done|done|simpl in *; lia| |].
    { destruct l as [|e' l]; simpl; [by left|right]. done. }
    exists lh'. split_and!; [|done|done]. f_equal. rewrite Habs.
    unfold abs. rewrite Hl. csimpl. rewrite He. simpl.
    rewrite Spec.delete_head; [done|].
    pose proof (linked_abs_NoDup lh Hwf) as Hn. unfold abs in Hn. rewrite Hl in Hn.
    csimpl in Hn. by rewrite He in Hn.
Qed.

End lh.
Arguments t : clear implicits.
Arguments t K V {_ _}.
Arguments iterator : clear implicits.
End linkedHashmap.

#[export] Instance linkedHashmap_ops {K V} `{Countable K} :
    LinkedHashmapOps K V (linkedHashmap.t K V) := {
  lh_New := linkedHashmap.New;
  lh_Put := linkedHashmap.Put;
  lh_Get := linkedHashmap.Get;
  lh_Delete := linkedHashmap.Delete;
  lh_Len := linkedHashmap.Len;
  lh_Oldest := linkedHashmap.Oldest;
  lh_Newest := linkedHashmap.Newest;
}.

(** The implementation meets the interface. *)
#[export] Instance linkedHashmap_spec {K V} `{Countable K} :
    LinkedHashmap K V (linkedHashmap.t K V).
Proof.
  refine {| lh_inv := linkedHashmap.wf; lh_abs := linkedHashmap.abs |}.
  - apply linkedHashmap.linked_abs_NoDup.
  - split; [apply linkedHashmap.wf_New|done].
  - intros. by apply linkedHashmap.linked_put_spec.
  - intros. by apply linkedHashmap.linked_get_spec.
  - intros. by apply linkedHashmap.delete_spec.
  - intros. by apply linkedHashmap.linked_len_spec.
  - intros. by apply linkedHashmap.oldest_spec.
  - intros. by apply linkedHashmap.newest_spec.
Defined.

(** ** Trace refinement *)

Module LHTrace.
Section trace.
Context {K V : Type} `{Countable K}.

Inductive op :=
| OpPut (k : K) (v : V)
| OpGet (k : K)
| OpDelete (k : K)
| OpLen
| OpOldest
| OpNewest.

Inductive out :=
| OutUnit
| OutValue (v : option V)
| OutBool (b : bool)
| OutLen (n : nat)
| OutEntry (e : option (K * V)).

Definition step_impl (o : op) (h : linkedHashmap.t K V) : out * linkedHashmap.t K V :=
  match o with
  | OpPut k v => (OutUnit, linkedHashmap.Put k v h)
  | OpGet k => (OutValue (linkedHashmap.Get k h), h)
  | OpDelete k => let '(b, h') := linkedHashmap.Delete k h in (OutBool b, h')
  | OpLen => (OutLen (linkedHashmap.Len h), h)
  | OpOldest => (OutEntry (linkedHashmap.Oldest h), h)
  | OpNewest => (OutEntry (linkedHashmap.Newest h), h)
  end.

Definition step_spec (o : op) (l : list (K * V)) : out * list (K * V) :=
  match o with
  | OpPut k v => (OutUnit, Spec.put k v l)
  | OpGet k => (OutValue (Spec.get k l), l)
  | OpDelete k => (OutBool (Spec.has k l), Spec.delete k l)
  | OpLen => (OutLen (length l), l)
  | OpOldest => (OutEntry (head l), l)
  | OpNewest => (OutEntry (last l), l)
  end.

Fixpoint run {S} (step : op → S → out * S) (ops : list op) (s : S) : list out * S :=
  match ops with
  | [] => ([], s)
  | o :: ops' =>
      let '(r, s') := step o s in
      let '(rs, s'') := run step ops' s' in (r :: rs, s'')
  end.

Lemma step_simulation o h :
  linkedHashmap.wf h →
  linkedHashmap.wf (step_impl o h).2 ∧
  (step_impl o h).1 = (step_spec o (linkedHashmap.abs h)).1 ∧
  linkedHashmap.abs (step_impl o h).2 = (step_spec o (linkedHashmap.abs h)).2.
Proof.
  intros Hwf. destruct o; simpl.
  - pose proof (linkedHashmap.linked_put_spec k v h Hwf). naive_solver.
  - unfold linkedHashmap.Get. by rewrite linkedHashmap.linked_get_spec.
  - pose proof (linkedHashmap.delete_spec k h Hwf) as (? & ? & Hb).
    unfold linkedHashmap.Delete in *.
    destruct (linkedHashmap.delete k h) as [b h']; simpl in *. by rewrite Hb.
  - unfold linkedHashmap.Len. by rewrite linkedHashmap.linked_len_spec.
  - unfold linkedHashmap.Oldest. by rewrite linkedHashmap.oldest_spec.
  - unfold linkedHashmap.Newest. by rewrite linkedHashmap.newest_spec.
Qed.

Lemma run_simulation ops h :
  linkedHashmap.wf h →
  linkedHashmap.wf (run step_impl ops h).2 ∧
  (run step_impl ops h).1 = (run step_spec ops (linkedHashmap.abs h)).1 ∧
  linkedHashmap.abs (run step_impl ops h).2 = (run step_spec ops (linkedHashmap.abs h)).2.
Proof.
  revert h. induction ops as [|o ops IH]; intros h Hwf; [done|]. simpl.
  pose proof (step_simulation o h Hwf) as (Hwf' & Ho & Ha).
  destruct (step_impl o h) as [r h'] eqn:E1, (step_spec o _) as [r' l'] eqn:E2.
  simpl in *. subst. destruct (IH h' Hwf') as (? & ? & ?).
  destruct (run step_impl ops h'), (run step_spec ops _). simpl in *. naive_solver.
Qed.

(** Every sequence of [Put], [Get], [Delete], [Len], [Oldest] and [Newest]
    calls on a new linked hash map returns what the same calls on an
    association list ordered by last insertion return, and leaves the
    corresponding contents: the map/list pair implements its abstract
    specification. *)
Theorem linkedHashmap_refines (ops : list op) :
  let impl := run step_impl ops linkedHashmap.New in
  let spec := run step_spec ops [] in
  impl.1 = spec.1 ∧ linkedHashmap.abs impl.2 = spec.2.
Proof.
  pose proof (run_simulation ops linkedHashmap.New linkedHashmap.wf_New).
  naive_solver.
Qed.

(** On any map built by such calls, an iterator run to the end yields
    exactly the entries, oldest first, and when each entry is deleted right
    after it was visited (the modification the contract of [Iter] allows) the
    iteration still visits every entry and empties the map. *)
Theorem iterator_visits_every_entry (ops : list op) :
  let h := (run step_impl ops linkedHashmap.New).2 in
  let l := (run step_spec ops []).2 in
  linkedHashmap.collect (S (length l)) h linkedHashmap.NewIterator = l ∧
  ∃ h', linkedHashmap.drain (S (length l)) h linkedHashmap.NewIterator = (l, h') ∧
        linkedHashmap.abs h' = [].
Proof.
  intros h l. subst h l.
  pose proof (run_simulation ops linkedHashmap.New linkedHashmap.wf_New)
    as (Hwf & _ & Habs).
  simpl in Habs. change (linkedHashmap.abs linkedHashmap.New) with (@nil (K * V)) in Habs.
  rewrite <-Habs. rewrite linkedHashmap.abs_length by done. split.
  - apply (linkedHashmap.collect_from _ _ []); [done|done|lia|]. right. done.
  - destruct (linkedHashmap.drain_from (run step_impl ops linkedHashmap.New).2
      linkedHashmap.NewIterator _ _ Hwf eq_refl (Nat.lt_succ_diag_r _)) as (h' & ? & ? & ?).
    { right. done. }
    eauto.
Qed.
End trace.
End LHTrace.
