(* ===== verification/Caches.v ===== *)
(** * Bounded caches (src/utils/cache)

    [LRU] (lru_cache.go) bounds the number of entries, [sizedLRU]
    (lru_sized_cache.go) the sum of the entries' sizes.  Both are built on the
    interface [LinkedHashmap], as in the source, and both implement the
    interface [Cacher] (cache.go): a best-effort key-value store, which never
    returns anything but the last value put for a key. *)

From S2P Require Import Prelude LinkedHashmap.

(** ** The [Cacher] interface *)

Class CacherOps (K V C : Type) := {
  c_Put : K → V → C → C;
  c_Get : K → C → option V * C;
  c_Evict : K → C → C;
  c_Flush : C → C;
  c_Len : C → nat;
}.

(** What a client may rely on.  [c_contents] are the entries currently held:
    [Put] may drop entries, but adds nothing except the new one. *)
Class Cacher (K V C : Type) `{Countable K} `{!CacherOps K V C} := {
  c_inv : C → Prop;
  c_contents : C → gmap K V;
  c_Put_spec k v c : c_inv c →
    c_inv (c_Put k v c) ∧ c_contents (c_Put k v c) ⊆ <[k := v]> (c_contents c);
  c_Get_spec k c : c_inv c →
    c_inv (c_Get k c).2 ∧ (c_Get k c).1 = c_contents c !! k ∧
    c_contents (c_Get k c).2 = c_contents c;
  c_Evict_spec k c : c_inv c →
    c_inv (c_Evict k c) ∧ c_contents (c_Evict k c) = delete k (c_contents c);
  c_Flush_spec c : c_inv c → c_inv (c_Flush c) ∧ c_contents (c_Flush c) = ∅;
  c_Len_spec c : c_inv c → c_Len c = size (c_contents c);
}.

(** ** Association lists as finite maps *)

Section assoc.
Context {K V : Type} `{Countable K}.
Implicit Types l : list (K * V).

Lemma Spec_get_map k l : Spec.get k l = (list_to_map l : gmap K V) !! k.
Proof.
  induction l as [|[k' v'] l IH]; [simpl; by rewrite lookup_empty|].
  rewrite Spec.get_cons. simpl. rewrite lookup_insert. by case_decide.
Qed.

Lemma map_delete k l :
  (list_to_map (Spec.delete k l) : gmap K V) = delete k (list_to_map l).
Proof.
  apply map_eq. intros k'. rewrite <-Spec_get_map, Spec.get_delete, lookup_delete.
  rewrite Spec_get_map. repeat case_decide; congruence.
Qed.

Lemma map_put k v l :
  (list_to_map (Spec.put k v l) : gmap K V) = <[k := v]> (list_to_map l).
Proof.
  apply map_eq. intros k'. rewrite <-Spec_get_map, Spec.get_put, lookup_insert.
  rewrite Spec_get_map. repeat case_decide; congruence.
Qed.

Lemma map_tail l : NoDup l.*1 → (list_to_map (tail l) : gmap K V) ⊆ list_to_map l.
Proof.
  destruct l as [|[k v] l]; [done|]. simpl. intros [Hni Hnd]%NoDup_cons.
  apply insert_subseteq. apply not_elem_of_list_to_map_1. done.
Qed.

Lemma map_size l : NoDup l.*1 → size (list_to_map l : gmap K V) = length l.
Proof.
  intros. rewrite <-size_dom, dom_list_to_map_L, size_list_to_set by done.
  by rewrite length_fmap.
Qed.
End assoc.

(** Deleting the entry that [Oldest] returns.  On an empty map [Oldest] returns
    the zero key, and deleting it changes nothing. *)
Definition delete_oldest {K V H} `{LinkedHashmapOps K V H} (h : H) : H :=
  match lh_Oldest h with
  | Some (k, _) => (lh_Delete k h).2
  | None => h
  end.

Lemma delete_oldest_spec {K V H} `{LinkedHashmap K V H} (h : H) :
  lh_inv h → lh_inv (delete_oldest h) ∧ lh_abs (delete_oldest h) = tail (lh_abs h).
Proof.
  intros Hi. unfold delete_oldest. rewrite lh_Oldest_spec by done.
  pose proof (lh_abs_NoDup h Hi) as Hnd.
  destruct (lh_abs h) as [|[k v] l] eqn:E; simpl; [by rewrite E|].
  destruct (lh_Delete_spec k h Hi) as (Hi' & Ha & _).
  split; [done|]. rewrite Ha, E. by apply Spec.delete_head.
Qed.

(** ** LRU *)

Module LRU.
Section lru.
Context {K V H : Type} `{Countable K} `{!LinkedHashmapOps K V H}.

Record t := mk {
  elements : option H;     (* None is the nil interface *)
  Size : Z;
}.

(** The loop of [resize]; it runs at most [Len] times. *)
Fixpoint shrink (fuel : nat) (size : Z) (h : H) : H :=
  match fuel with
  | O => h
  | S fuel' =>
      if bool_decide (size < Z.of_nat (lh_Len h))%Z
      then shrink fuel' size (delete_oldest h) else h
  end.

Definition resize (c : t) : H * Z :=
  let h := match elements c with Some h => h | None => lh_New end in
  let size := if bool_decide (Size c ≤ 0)%Z then 1%Z else Size c in
  (shrink (lh_Len h) size h, size).

Definition put (key : K) (value : V) (c : t) : t :=
  let '(h, size) := resize c in
  let h1 := if bool_decide (Z.of_nat (lh_Len h) = size) then delete_oldest h else h in
  mk (Some (lh_Put key value h1)) size.

Definition get (key : K) (c : t) : option V * t :=
  let '(h, size) := resize c in
  match lh_Get key h with
  | None => (None, mk (Some h) size)
  | Some val => (Some val, mk (Some (lh_Put key val h)) size)
  end.

Definition evict (key : K) (c : t) : t :=
  let '(h, size) := resize c in mk (Some (lh_Delete key h).2) size.

Definition flush (c : t) : t := mk (Some lh_New) (Size c).

Definition len (c : t) : nat :=
  match elements c with None => 0 | Some h => lh_Len h end.

Definition Put := put.
Definition Get := get.
Definition Evict := evict.
Definition Flush := flush.
Definition Len := len.

(** *** Properties *)

Context `{!LinkedHashmap K V H}.

Definition abs (c : t) : list (K * V) :=
  match elements c with None => [] | Some h => lh_abs h end.

(** A cache in use: its map is well-formed and within its (normalized) size. *)
Definition inv (c : t) : Prop :=
  match elements c with
  | None => True
  | Some h => lh_inv h ∧ (Z.of_nat (length (lh_abs h)) ≤ Z.max 1 (Size c))%Z
  end.

Lemma lru_shrink_spec fuel size h :
  lh_inv h → (length (lh_abs h) ≤ fuel)%nat → (1 ≤ size)%Z →
  lh_inv (shrink fuel size h) ∧
  (Z.of_nat (length (lh_abs (shrink fuel size h))) ≤ size)%Z ∧
  ((Z.of_nat (length (lh_abs h)) ≤ size)%Z → shrink fuel size h = h).
Proof.
  revert h. induction fuel as [|fuel IH]; intros h Hi Hlen Hs; simpl; [naive_solver lia|].
  rewrite lh_Len_spec by done. case_bool_decide; [|naive_solver lia].
  destruct (delete_oldest_spec h Hi) as [Hi' Ha'].
  destruct (IH (delete_oldest h)) as (? & ? & ?); [done| |done|].
  { rewrite Ha'. destruct (lh_abs h); simpl in *; lia. }
  naive_solver lia.
Qed.

(** On a cache in use [resize] only normalizes the fields. *)
Lemma resize_spec c :
  inv c →
  lh_inv (resize c).1 ∧ lh_abs (resize c).1 = abs c ∧ (resize c).2 = Z.max 1 (Size c) ∧
  (Z.of_nat (length (abs c)) ≤ Z.max 1 (Size c))%Z.
Proof.
  unfold inv, resize, abs. intros Hc.
  assert ((if bool_decide (Size c ≤ 0)%Z then 1%Z else Size c) = Z.max 1 (Size c)) as ->.
  { case_bool_decide; lia. }
  destruct (elements c) as [h|].
  - destruct Hc as [Hi Hl]. simpl.
    destruct (lru_shrink_spec (lh_Len h) (Z.max 1 (Size c)) h) as (? & ? & E);
      [done|rewrite lh_Len_spec by done; lia|lia|]. by rewrite E.
  - simpl. destruct (lh_New_spec (K:=K) (V:=V) (H:=H)) as [Hi He].
    destruct (lru_shrink_spec (lh_Len lh_New) (Z.max 1 (Size c)) lh_New) as (? & ? & E);
      [done|rewrite lh_Len_spec by done; lia|lia|].
    rewrite E by (rewrite He; simpl; lia). rewrite He. simpl. naive_solver lia.
Qed.

(** What [put] leaves in the cache: the entry count is compared with the bound
    before the key is looked up. *)
Definition put_room (size : Z) (l : list (K * V)) : list (K * V) :=
  if bool_decide (Z.of_nat (length l) = size) then tail l else l.

Lemma put_room_NoDup size l : NoDup l.*1 → NoDup (put_room size l).*1.
Proof.
  intros Hnd. unfold put_room. case_bool_decide; [|done].
  destruct l; [done|]. simpl in *. by apply NoDup_cons in Hnd as [_ ?].
Qed.

Lemma lru_abs_NoDup c : inv c → NoDup (abs c).*1.
Proof.
  unfold inv, abs. destruct (elements c); [|constructor].
  intros [? _]. by apply lh_abs_NoDup.
Qed.

Lemma lru_put_spec k v c :
  inv c →
  inv (put k v c) ∧
  abs (put k v c) = Spec.put k v (put_room (Z.max 1 (Size c)) (abs c)) ∧
  Size (put k v c) = Z.max 1 (Size c).
Proof.
  intros Hc. pose proof (lru_abs_NoDup c Hc) as Hnd.
  destruct (resize_spec c Hc) as (Hi & Ha & Hs & Hl).
  unfold put. destruct (resize c) as [h size]. simpl in *. subst size.
  rewrite lh_Len_spec by done. rewrite Ha.
  set (h1 := if bool_decide _ then _ else _).
  assert (lh_inv h1 ∧ lh_abs h1 = put_room (Z.max 1 (Size c)) (abs c)) as [Hi1 Ha1].
  { subst h1. unfold put_room. case_bool_decide; [|done].
    destruct (delete_oldest_spec h Hi) as [? E]. by rewrite E, Ha. }
  destruct (lh_Put_spec k v h1 Hi1) as [Hi2 Ha2].
  unfold inv, abs at 1. simpl. split_and!; [done| |by rewrite Ha2, Ha1|done].
  rewrite Ha2, Ha1, Spec.put_length by (by apply put_room_NoDup).
  unfold put_room. case_bool_decide; [destruct (abs c); simpl in *|];
    try case_decide; lia.
Qed.

Lemma lru_get_spec k c :
  inv c →
  inv (get k c).2 ∧ (get k c).1 = Spec.get k (abs c) ∧
  abs (get k c).2 = match Spec.get k (abs c) with
                    | Some v => Spec.put k v (abs c) | None => abs c end.
Proof.
  intros Hc. pose proof (lru_abs_NoDup c Hc) as Hnd.
  destruct (resize_spec c Hc) as (Hi & Ha & Hs & Hl).
  unfold get. destruct (resize c) as [h size]. simpl in *. subst size.
  rewrite lh_Get_spec, Ha by done. destruct (Spec.get k (abs c)) as [v|] eqn:Hg; simpl.
  - destruct (lh_Put_spec k v h Hi) as [Hi2 Ha2].
    unfold inv, abs at 1. simpl. rewrite Ha2, Ha. split_and!; [done| |done|done].
    rewrite Spec.put_length by done.
    apply Spec.get_Some in Hg; [|done]. case_decide as Hin; [lia|].
    destruct Hin. apply list_elem_of_fmap. by exists (k, v).
  - unfold inv, abs at 1. simpl. rewrite Ha. naive_solver lia.
Qed.

Lemma lru_evict_spec k c :
  inv c → inv (evict k c) ∧ abs (evict k c) = Spec.delete k (abs c).
Proof.
  intros Hc. pose proof (lru_abs_NoDup c Hc) as Hnd.
  destruct (resize_spec c Hc) as (Hi & Ha & Hs & Hl).
  unfold evict. destruct (resize c) as [h size]. simpl in *. subst size.
  destruct (lh_Delete_spec k h Hi) as (Hi2 & Ha2 & _).
  unfold inv, abs at 1. simpl. rewrite Ha2, Ha. split_and!; [done| |done].
  rewrite Spec.delete_length by done. lia.
Qed.

Lemma Size_spec k c :
  Size (get k c).2 = Z.max 1 (Size c) ∧ Size (evict k c) = Z.max 1 (Size c).
Proof.
  assert ((resize c).2 = Z.max 1 (Size c)) as Hs.
  { unfold resize. simpl. case_bool_decide; lia. }
  unfold get, evict. destruct (resize c) as [h s]. simpl in *.
  by destruct (lh_Get k h).
Qed.

Lemma lru_flush_spec c : inv c → inv (flush c) ∧ abs (flush c) = [].
Proof.
  intros _. unfold inv, abs, flush. simpl.
  destruct (lh_New_spec (K:=K) (V:=V) (H:=H)) as [Hi ->]. simpl. naive_solver lia.
Qed.

Lemma lru_len_spec c : inv c → len c = length (abs c).
Proof.
  unfold inv, len, abs. destruct (elements c); [|done]. intros [? _].
  by apply lh_Len_spec.
Qed.

#[export] Instance ops : CacherOps K V t := {
  c_Put := Put; c_Get := Get; c_Evict := Evict; c_Flush := Flush; c_Len := Len;
}.

#[export] Instance cacher : Cacher K V t.
Proof.
  refine {| c_inv := inv; c_contents c := list_to_map (abs c) |}.
  - intros k v c Hc. destruct (lru_put_spec k v c Hc) as (? & Ha & _). split; [done|].
    simpl. unfold Put. rewrite Ha, map_put. apply insert_mono.
    unfold put_room. case_bool_decide; [|done]. apply map_tail. by apply lru_abs_NoDup.
  - intros k c Hc. destruct (lru_get_spec k c Hc) as (? & Hg & Ha). simpl. unfold Get.
    rewrite Hg, Ha. split_and!; [done|by rewrite Spec_get_map|].
    destruct (Spec.get k (abs c)) eqn:E; [|done].
    rewrite map_put. apply insert_id. by rewrite <-Spec_get_map.
  - intros k c Hc. destruct (lru_evict_spec k c Hc) as (? & Ha). simpl. unfold Evict.
    by rewrite Ha, map_delete.
  - intros c Hc. destruct (lru_flush_spec c Hc) as (? & Ha). simpl. unfold Flush.
    by rewrite Ha.
  - intros c Hc. simpl. unfold Len. rewrite lru_len_spec by done.
    symmetry. apply map_size. by apply lru_abs_NoDup.
Defined.
End lru.
Arguments t : clear implicits.
End LRU.

(** ** Size-bounded LRU *)

Module sizedLRU.

Record t (H : Type) := mk {
  elements : H;
  maxSize : Z;
  currentSize : Z;
}.
Arguments mk {H}.
Arguments elements {H}.
Arguments maxSize {H}.
Arguments currentSize {H}.

Section sized.
Context {K V H : Type} `{Countable K} `{!LinkedHashmapOps K V H}.

Definition NewSizedLRU (max : Z) : t H := mk lh_New max 0.

(** The field [size], a function of the constructor's caller. *)
Variable size : K → V → Z.

Definition flush (c : t H) : t H := mk lh_New (maxSize c) 0.

(** The eviction loop of [put], until [currentSize <= limit].  When the map is
    empty nothing is left to evict; [shrink_exits] shows that the loop has
    ended by then. *)
Fixpoint shrink (fuel : nat) (limit : Z) (h : H) (cur : Z) : H * Z :=
  match fuel with
  | O => (h, cur)
  | S fuel' =>
      if bool_decide (limit < cur)%Z then
        match lh_Oldest h with
        | Some (k, v) => shrink fuel' limit (lh_Delete k h).2 (cur - size k v)%Z
        | None => (h, cur)
        end
      else (h, cur)
  end.

Definition put (key : K) (value : V) (c : t H) : t H :=
  let newEntrySize := size key value in
  if bool_decide (maxSize c < newEntrySize)%Z then flush c
  else
    let cur := match lh_Get key (elements c) with
               | Some oldValue => (currentSize c - size key oldValue)%Z
               | None => currentSize c
               end in
    let '(h, cur') := shrink (lh_Len (elements c)) (maxSize c - newEntrySize)%Z
                        (elements c) cur in
    mk (lh_Put key value h) (maxSize c) (cur' + newEntrySize)%Z.

Definition get (key : K) (c : t H) : option V * t H :=
  match lh_Get key (elements c) with
  | None => (None, c)
  | Some value => (Some value, mk (lh_Put key value (elements c)) (maxSize c) (currentSize c))
  end.

Definition evict (key : K) (c : t H) : t H :=
  match lh_Get key (elements c) with
  | Some value => mk (lh_Delete key (elements c)).2 (maxSize c)
                     (currentSize c - size key value)%Z
  | None => c
  end.

Definition len (c : t H) : nat := lh_Len (elements c).

Definition Put := put.
Definition Get := get.
Definition Evict := evict.
Definition Flush := flush.
Definition Len := len.

(** *** Properties *)

Context `{!LinkedHashmap K V H}.

Definition abs (c : t H) : list (K * V) := lh_abs (elements c).

(** The sum of the sizes of the entries held. *)
Definition total (l : list (K * V)) : Z := foldr (λ p s, size p.1 p.2 + s)%Z 0%Z l.

Definition inv (c : t H) : Prop := lh_inv (elements c).

(** Exact accounting within the bound. *)
Definition accounted (c : t H) : Prop :=
  inv c ∧ currentSize c = total (abs c) ∧ (currentSize c ≤ maxSize c)%Z ∧ (0 ≤ maxSize c)%Z.

Lemma sized_abs_NoDup c : inv c → NoDup (abs c).*1.
Proof. apply lh_abs_NoDup. Qed.

Lemma total_app l1 l2 : total (l1 ++ l2) = (total l1 + total l2)%Z.
Proof. unfold total. induction l1; simpl; lia. Qed.

Lemma total_delete k l :
  NoDup l.*1 →
  total (Spec.delete k l) =
  (total l - match Spec.get k l with Some v => size k v | None => 0 end)%Z.
Proof.
  induction l as [|[k' v] l IH]; [done|]. intros Hnd. pose proof Hnd as Hnd'.
  simpl in Hnd. apply NoDup_cons in Hnd as [Hni Hnd].
  rewrite Spec.get_cons. case_decide as E.
  - subst. rewrite Spec.delete_head by done. simpl. lia.
  - unfold Spec.delete in *. rewrite filter_cons_True by done. simpl. rewrite IH by done.
    lia.
Qed.

Lemma total_put k v l :
  NoDup l.*1 →
  total (Spec.put k v l) =
  (total l - match Spec.get k l with Some v => size k v | None => 0 end + size k v)%Z.
Proof.
  intros. unfold Spec.put. rewrite total_app, total_delete by done. simpl. lia.
Qed.

Lemma total_nonneg l : (∀ k v, 0 ≤ size k v)%Z → (0 ≤ total l)%Z.
Proof. intros Hs. induction l as [|[k v] l IH]; simpl; [done|]. specialize (Hs k v). lia. Qed.

(** Evicting drops a prefix of the entries and subtracts its total. *)
Lemma sized_shrink_spec fuel limit h cur :
  lh_inv h →
  ∃ n, let r := shrink fuel limit h cur in
    lh_inv r.1 ∧ lh_abs r.1 = drop n (lh_abs h) ∧
    r.2 = (cur - total (take n (lh_abs h)))%Z ∧
    ((cur ≤ limit)%Z → n = 0%nat).
Proof.
  revert h cur. induction fuel as [|fuel IH]; intros h cur Hi; simpl.
  - exists 0%nat. simpl. rewrite drop_0. naive_solver lia.
  - case_bool_decide; [|exists 0%nat; simpl; rewrite drop_0; naive_solver lia].
    pose proof (lh_Oldest_spec h Hi) as Ho. pose proof (lh_abs_NoDup h Hi) as Hnd.
    destruct (lh_Oldest h) as [[k v]|] eqn:Ek.
    + destruct (lh_abs h) as [|p l] eqn:El; [done|]. simpl in Ho. simplify_eq.
      destruct (lh_Delete_spec k h Hi) as (Hi' & Ha' & _).
      rewrite El, Spec.delete_head in Ha' by done.
      destruct (IH (lh_Delete k h).2 (cur - size k v)%Z Hi') as (n & Hr1 & Hr2 & Hr3 & _).
      exists (S n). rewrite Ha' in Hr2, Hr3. simpl. split_and!; [done|done| |lia].
      rewrite Hr3. unfold total. simpl. lia.
    + exists 0%nat. simpl. rewrite drop_0. naive_solver lia.
Qed.

(** The loop has reached its exit condition when it stops, for every cache
    whose recorded size does not exceed the total: the fuel is enough. *)
Lemma shrink_exits fuel limit h cur :
  lh_inv h → (length (lh_abs h) ≤ fuel)%nat → (0 ≤ limit)%Z →
  (cur ≤ total (lh_abs h))%Z →
  ((shrink fuel limit h cur).2 ≤ limit)%Z.
Proof.
  revert h cur. induction fuel as [|fuel IH]; intros h cur Hi Hlen Hlim Hcur; simpl.
  - destruct (lh_abs h); simpl in *; lia.
  - case_bool_decide; [|simpl; lia].
    pose proof (lh_Oldest_spec h Hi) as Ho. pose proof (lh_abs_NoDup h Hi) as Hnd.
    destruct (lh_abs h) as [|[k v] l] eqn:El; [simpl in *; lia|].
    simpl in Ho. rewrite Ho.
    destruct (lh_Delete_spec k h Hi) as (Hi' & Ha' & _).
    rewrite El, Spec.delete_head in Ha' by done.
    apply IH; [done|rewrite Ha'; simpl in *; lia|done|].
    rewrite Ha'. unfold total in *. simpl in Hcur. lia.
Qed.

Lemma put_contents k v c :
  inv c →
  inv (put k v c) ∧
  (abs (put k v c) = [] ∨ ∃ n, abs (put k v c) = Spec.put k v (drop n (abs c))) ∧
  maxSize (put k v c) = maxSize c.
Proof.
  intros Hi. unfold put, inv, abs. case_bool_decide; simpl.
  - destruct (lh_New_spec (K:=K) (V:=V) (H:=H)). naive_solver.
  - set (cur := match lh_Get _ _ with Some _ => _ | None => _ end).
    destruct (sized_shrink_spec (lh_Len (elements c)) (maxSize c - size k v) (elements c) cur Hi)
      as (n & Hi1 & Ha1 & Hc1 & _).
    destruct (shrink _ _ _ _) as [h cur']. simpl in *.
    destruct (lh_Put_spec k v h Hi1) as [Hi2 Ha2].
    split_and!; [done| |done]. right. exists n. by rewrite Ha2, Ha1.
Qed.

(** An entry that fits is held after it was put; one that does not empties the
    cache. *)
Lemma put_fits k v c :
  inv c → (size k v ≤ maxSize c)%Z → Spec.get k (abs (put k v c)) = Some v.
Proof.
  intros Hi Hfit. unfold put, abs. rewrite bool_decide_eq_false_2 by lia.
  set (cur := match lh_Get _ _ with Some _ => _ | None => _ end).
  destruct (sized_shrink_spec (lh_Len (elements c)) (maxSize c - size k v) (elements c) cur Hi)
    as (n & Hi1 & Ha1 & Hc1 & _).
  destruct (shrink _ _ _ _) as [h cur']. simpl in *.
  destruct (lh_Put_spec k v h Hi1) as [Hi2 ->]. rewrite Spec.get_put. by case_decide.
Qed.

Lemma put_too_big k v c : (maxSize c < size k v)%Z → abs (put k v c) = [].
Proof.
  intros Hbig. unfold put, abs. rewrite bool_decide_eq_true_2 by lia. simpl.
  by destruct (lh_New_spec (K:=K) (V:=V) (H:=H)).
Qed.

Lemma sized_get_spec k c :
  inv c →
  inv (get k c).2 ∧ (get k c).1 = Spec.get k (abs c) ∧
  abs (get k c).2 = match Spec.get k (abs c) with
                    | Some v => Spec.put k v (abs c) | None => abs c end ∧
  currentSize (get k c).2 = currentSize c ∧ maxSize (get k c).2 = maxSize c.
Proof.
  intros Hi. unfold get, inv, abs in *. rewrite lh_Get_spec by done.
  destruct (Spec.get k (lh_abs (elements c))) as [v|] eqn:E; simpl; [|done].
  destruct (lh_Put_spec k v _ Hi) as [? Ha]. by rewrite Ha.
Qed.

Lemma sized_evict_spec k c :
  inv c → inv (evict k c) ∧ abs (evict k c) = Spec.delete k (abs c) ∧
          maxSize (evict k c) = maxSize c.
Proof.
  intros Hi. unfold evict, inv, abs in *. rewrite lh_Get_spec by done.
  destruct (Spec.get k (lh_abs (elements c))) as [v|] eqn:E; simpl.
  - destruct (lh_Delete_spec k _ Hi) as (? & Ha & _). by rewrite Ha.
  - rewrite Spec.delete_not_in; [done|]. by apply Spec.get_None.
Qed.

Lemma sized_flush_spec c : inv (flush c) ∧ abs (flush c) = [].
Proof. unfold inv, abs. simpl. apply (lh_New_spec (K:=K) (V:=V)). Qed.

Lemma total_drop_take n l : total l = (total (take n l) + total (drop n l))%Z.
Proof. by rewrite <-total_app, take_drop. Qed.

(** Exact accounting is preserved by [put] whenever the new value is not larger
    than the one it replaces: then the key itself is not evicted by the loop. *)
Lemma put_accounted k v c :
  accounted c →
  (∀ old, Spec.get k (abs c) = Some old → (size k v ≤ size k old)%Z) →
  accounted (put k v c).
Proof.
  intros (Hi & Hcur & Hmax & Hpos) Hgrow. pose proof (sized_abs_NoDup c Hi) as Hnd.
  unfold put. case_bool_decide as Hbig.
  { destruct (lh_New_spec (K:=K) (V:=V) (H:=H)) as [? E].
    unfold accounted, inv, abs. simpl. rewrite E. simpl. naive_solver lia. }
  rewrite lh_Get_spec by done. fold (abs c).
  destruct (Spec.get k (abs c)) as [old|] eqn:Hg.
  - specialize (Hgrow old eq_refl).
    destruct (sized_shrink_spec (lh_Len (elements c)) (maxSize c - size k v) (elements c)
      (currentSize c - size k old) Hi) as (n & Hi1 & Ha1 & Hc1 & Hn).
    destruct (shrink _ _ _ _) as [h cur']. simpl in *.
    rewrite Hn in * by lia. simpl in *. rewrite drop_0 in Ha1.
    destruct (lh_Put_spec k v h Hi1) as [Hi2 Ha2].
    unfold accounted, inv, abs. simpl. rewrite Ha2, Ha1. fold (abs c).
    rewrite total_put, Hg by done. split_and!; [done|lia|lia|lia].
  - pose proof (shrink_exits (lh_Len (elements c)) (maxSize c - size k v) (elements c)
      (currentSize c) Hi) as Hexit.
    rewrite lh_Len_spec in Hexit |- * by done. fold (abs c) in Hexit.
    specialize (Hexit ltac:(unfold abs; lia) ltac:(lia) ltac:(lia)).
    destruct (sized_shrink_spec (length (lh_abs (elements c))) (maxSize c - size k v) (elements c)
      (currentSize c) Hi) as (n & Hi1 & Ha1 & Hc1 & _).
    unfold abs in Hexit.
    destruct (shrink _ _ _ _) as [h cur']. simpl in *.
    destruct (lh_Put_spec k v h Hi1) as [Hi2 Ha2].
    fold (abs c) in Ha1, Hc1. pose proof (total_drop_take n (abs c)).
    unfold accounted, inv. unfold abs at 1. simpl. rewrite Ha2, Ha1.
    rewrite total_put.
    + assert (Spec.get k (drop n (abs c)) = None) as ->.
      { apply Spec.get_None. apply Spec.get_None in Hg. intros Hin. apply Hg.
        rewrite fmap_drop in Hin. by apply elem_of_drop in Hin. }
      split_and!; [done|lia|lia|lia].
    + rewrite fmap_drop. by apply NoDup_drop.
Qed.

Lemma get_accounted k c : accounted c → accounted (get k c).2.
Proof.
  intros (Hi & Hcur & Hmax & Hpos). pose proof (sized_abs_NoDup c Hi) as Hnd.
  destruct (sized_get_spec k c Hi) as (Hi' & _ & Ha & Hc' & Hm').
  unfold accounted. rewrite Hc', Hm', Ha. split_and!; [done| |done|done].
  destruct (Spec.get k (abs c)) eqn:E; [|done]. rewrite total_put, E by done. lia.
Qed.

Lemma evict_accounted k c :
  (∀ k v, 0 ≤ size k v)%Z → accounted c → accounted (evict k c).
Proof.
  intros Hs (Hi & Hcur & Hmax & Hpos). pose proof (sized_abs_NoDup c Hi) as Hnd.
  destruct (sized_evict_spec k c Hi) as (Hi' & Ha & Hm).
  unfold accounted. rewrite Ha, Hm, total_delete by done.
  unfold evict. rewrite lh_Get_spec by done. fold (abs c).
  destruct (Spec.get k (abs c)) as [v|] eqn:E; simpl; [|naive_solver lia].
  specialize (Hs k v). unfold evict in *. rewrite lh_Get_spec in Hi' by done.
  fold (abs c) in Hi'. rewrite E in Hi'. naive_solver lia.
Qed.

Lemma flush_accounted c : (0 ≤ maxSize c)%Z → accounted (flush c).
Proof.
  intros. destruct (sized_flush_spec c) as [? Ha]. unfold accounted. rewrite Ha.
  simpl. naive_solver lia.
Qed.

(** The recorded size never exceeds the real total: this holds of every cache
    in use, and is what makes the eviction loop of [put] end. *)
Definition under (c : t H) : Prop :=
  inv c ∧ (currentSize c ≤ total (abs c))%Z.

Lemma get_take_drop k n (l : list (K * V)) old :
  NoDup l.*1 → Spec.get k (take n l) = Some old → Spec.get k (drop n l) = None.
Proof.
  intros Hnd Hg. apply Spec.get_None. intros Hin.
  rewrite <-(take_drop n l), fmap_app in Hnd. apply NoDup_app in Hnd as (Hnd & Hd & _).
  apply (Hd k); [|done]. apply Spec.get_Some in Hg; [|done].
  apply list_elem_of_fmap. by exists (k, old).
Qed.

Lemma put_under k v c :
  (∀ k v, 0 ≤ size k v)%Z → under c → under (put k v c).
Proof.
  intros Hs [Hi Hle]. pose proof (sized_abs_NoDup c Hi) as Hnd.
  unfold put. case_bool_decide.
  { destruct (sized_flush_spec c) as [? Ha]. split; [done|]. by rewrite Ha. }
  rewrite lh_Get_spec by done. fold (abs c).
  set (cur := match Spec.get k _ with Some _ => _ | None => _ end).
  destruct (sized_shrink_spec (lh_Len (elements c)) (maxSize c - size k v) (elements c) cur Hi)
    as (n & Hi1 & Ha1 & Hc1 & _).
  destruct (shrink _ _ _ _) as [h cur']. simpl in *. fold (abs c) in Ha1, Hc1.
  destruct (lh_Put_spec k v h Hi1) as [Hi2 Ha2]. split; [done|].
  unfold abs at 1. simpl. rewrite Ha2, Ha1, total_put
    by (rewrite fmap_drop; by apply NoDup_drop).
  pose proof (total_drop_take n (abs c)) as Hsplit.
  assert (Spec.get k (abs c) = match Spec.get k (take n (abs c)) with
    | Some v => Some v | None => Spec.get k (drop n (abs c)) end) as Hg.
  { by rewrite <-Spec.get_app, take_drop. }
  subst cur. rewrite Hg in Hc1.
  destruct (Spec.get k (take n (abs c))) as [old|] eqn:E1.
  - rewrite (get_take_drop k n (abs c) old) by done. specialize (Hs k old). lia.
  - destruct (Spec.get k (drop n (abs c))); lia.
Qed.

Lemma get_under k c : under c → under (get k c).2.
Proof.
  intros [Hi Hle]. pose proof (sized_abs_NoDup c Hi) as Hnd.
  destruct (sized_get_spec k c Hi) as (Hi' & _ & Ha & Hc & Hm). split; [done|].
  rewrite Ha, Hc. destruct (Spec.get k (abs c)) eqn:E; [|done].
  rewrite total_put, E by done. lia.
Qed.

Lemma evict_under k c : under c → under (evict k c).
Proof.
  intros [Hi Hle]. pose proof (sized_abs_NoDup c Hi) as Hnd.
  destruct (sized_evict_spec k c Hi) as (Hi' & Ha & Hm). split; [done|].
  rewrite Ha, total_delete by done. unfold evict. rewrite lh_Get_spec by done.
  fold (abs c). destruct (Spec.get k (abs c)); simpl; lia.
Qed.

Lemma flush_under c : under (flush c).
Proof. destruct (sized_flush_spec c) as [? Ha]. split; [done|]. by rewrite Ha. Qed.

#[export] Instance ops : CacherOps K V (t H) := {
  c_Put := Put; c_Get := Get; c_Evict := Evict; c_Flush := Flush; c_Len := Len;
}.

Lemma map_drop n (l : list (K * V)) :
  NoDup l.*1 → (list_to_map (drop n l) : gmap K V) ⊆ list_to_map l.
Proof.
  revert l. induction n as [|n IH]; intros l Hnd; [by rewrite drop_0|].
  destruct l as [|p l]; [done|]. simpl. simpl in Hnd. pose proof Hnd as Hnd'.
  apply NoDup_cons in Hnd as [Hni Hnd].
  etrans; [by apply IH|]. apply (map_tail (p :: l)). done.
Qed.

#[export] Instance cacher : Cacher K V (t H).
Proof.
  refine {| c_inv := inv; c_contents c := list_to_map (abs c) |}.
  - intros k v c Hc. destruct (put_contents k v c Hc) as (? & Ha & _). split; [done|].
    simpl. unfold Put. destruct Ha as [->|[n ->]]; [apply map_empty_subseteq|].
    rewrite map_put. apply insert_mono, map_drop. by apply sized_abs_NoDup.
  - intros k c Hc. destruct (sized_get_spec k c Hc) as (? & Hg & Ha & _). simpl. unfold Get.
    rewrite Hg, Ha. split_and!; [done|by rewrite Spec_get_map|].
    destruct (Spec.get k (abs c)) eqn:E; [|done].
    rewrite map_put. apply insert_id. by rewrite <-Spec_get_map.
  - intros k c Hc. destruct (sized_evict_spec k c Hc) as (? & Ha & _). simpl. unfold Evict.
    by rewrite Ha, map_delete.
  - intros c Hc. destruct (sized_flush_spec c) as (? & Ha). simpl. unfold Flush.
    by rewrite Ha.
  - intros c Hc. simpl. unfold Len, len. rewrite lh_Len_spec by done.
    symmetry. apply map_size. by apply sized_abs_NoDup.
Defined.
End sized.
Arguments t : clear implicits.
End sizedLRU.

#[export] Existing Instances LRU.ops LRU.cacher.

(** ** Traces of cache operations *)

Inductive cop (K V : Type) :=
| CPut (k : K) (v : V)
| CGet (k : K)
| CEvict (k : K)
| CFlush.
Arguments CPut {K V}.
Arguments CGet {K V}.
Arguments CEvict {K V}.
Arguments CFlush {K V}.

Definition cstep {K V C} `{CacherOps K V C} (o : cop K V) (c : C) : C :=
  match o with
  | CPut k v => c_Put k v c
  | CGet k => (c_Get k c).2
  | CEvict k => c_Evict k c
  | CFlush => c_Flush c
  end.

Definition crun {K V C} `{CacherOps K V C} (ops : list (cop K V)) (c : C) : C :=
  foldl (λ c o, cstep o c) c ops.

(** The unbounded store the cache approximates. *)
Definition ref_step {K V} `{Countable K} (o : cop K V) (m : gmap K V) : gmap K V :=
  match o with
  | CPut k v => <[k := v]> m
  | CGet _ => m
  | CEvict k => delete k m
  | CFlush => ∅
  end.

Definition ref_run {K V} `{Countable K} (ops : list (cop K V)) (m : gmap K V) : gmap K V :=
  foldl (λ m o, ref_step o m) m ops.

Section traces.
Context {K V C : Type} `{Cacher K V C}.

Lemma cstep_spec o (c : C) m :
  c_inv c → c_contents c ⊆ m →
  c_inv (cstep o c) ∧ c_contents (cstep o c) ⊆ ref_step o m.
Proof.
  intros Hi Hsub. destruct o as [k v|k|k|]; simpl.
  - destruct (c_Put_spec k v c Hi) as [? Hp]. split; [done|].
    etrans; [done|]. by apply insert_mono.
  - destruct (c_Get_spec k c Hi) as (? & _ & ->). done.
  - destruct (c_Evict_spec k c Hi) as [? ->]. split; [done|]. by apply delete_mono.
  - destruct (c_Flush_spec c Hi) as [? ->]. done.
Qed.

Lemma crun_spec ops (c : C) m :
  c_inv c → c_contents c ⊆ m →
  c_inv (crun ops c) ∧ c_contents (crun ops c) ⊆ ref_run ops m.
Proof.
  unfold crun, ref_run. revert c m.
  induction ops as [|o ops IH]; intros c m Hi Hsub; [done|]. simpl.
  destruct (cstep_spec o c m Hi Hsub). by apply IH.
Qed.

(** A hit after any operations is the value of the reference store. *)
Lemma crun_get_sound ops (c : C) k v :
  c_inv c → c_contents c = ∅ → (c_Get k (crun ops c)).1 = Some v →
  ref_run ops ∅ !! k = Some v.
Proof.
  intros Hi He Hg. destruct (crun_spec ops c ∅ Hi) as [Hi' Hsub]; [by rewrite He|].
  destruct (c_Get_spec k _ Hi') as (_ & Hg' & _). rewrite Hg' in Hg.
  by eapply lookup_weaken.
Qed.
End traces.

Section properties.
Context {K V : Type} `{Countable K}.
#[local] Notation lru := (LRU.t (linkedHashmap.t K V)).
#[local] Notation lru_inv := (LRU.inv (K := K) (V := V) (H := linkedHashmap.t K V)).
#[local] Notation lru_abs := (LRU.abs (K := K) (V := V) (H := linkedHashmap.t K V)).
#[local] Notation sized := (sizedLRU.t (linkedHashmap.t K V)).
#[local] Notation sized_inv := (sizedLRU.inv (K := K) (V := V) (H := linkedHashmap.t K V)).
#[local] Notation sized_abs := (sizedLRU.abs (K := K) (V := V) (H := linkedHashmap.t K V)).

Definition lru_new (n : Z) : lru := LRU.mk None n.

Lemma lru_run_inv (ops : list (cop K V)) (c : lru) :
  lru_inv c → lru_inv (crun ops c) ∧ Z.max 1 (LRU.Size (crun ops c)) = Z.max 1 (LRU.Size c).
Proof.
  unfold crun. revert c. induction ops as [|o ops IH]; intros c Hc; [done|]. simpl.
  assert (lru_inv (cstep o c) ∧ Z.max 1 (LRU.Size (cstep o c)) = Z.max 1 (LRU.Size c))
    as [Hc' <-].
  { destruct o as [k v|k|k|]; simpl.
    - destruct (LRU.lru_put_spec k v c Hc) as (? & _ & Hs). split; [done|].
      etrans; [exact (f_equal (Z.max 1) Hs)|]. lia.
    - destruct (LRU.lru_get_spec k c Hc) as (? & _). split; [done|].
      etrans; [exact (f_equal (Z.max 1) (proj1 (LRU.Size_spec k c)))|]. lia.
    - destruct (LRU.lru_evict_spec k c Hc) as (? & _). split; [done|].
      etrans; [exact (f_equal (Z.max 1) (proj2 (LRU.Size_spec k c)))|]. lia.
    - destruct (LRU.lru_flush_spec c Hc). done. }
  by apply IH.
Qed.

(** After any sequence of [Put], [Get], [Evict] and [Flush] calls, an [LRU]
    of size [n] holds at most [max 1 n] entries, and a value just put is
    found by the next [Get]. *)
Theorem lru_bounded (n : Z) (ops : list (cop K V)) (k : K) (v : V) :
  (Z.of_nat (LRU.Len (crun ops (lru_new n))) ≤ Z.max 1 n)%Z ∧
  (LRU.Get k (LRU.Put k v (crun ops (lru_new n)))).1 = Some v.
Proof.
  destruct (lru_run_inv ops (lru_new n)) as [Hi Hs]; [done|]. split.
  - unfold LRU.Len. rewrite LRU.lru_len_spec by done. simpl in Hs. rewrite <-Hs.
    by apply LRU.resize_spec.
  - destruct (LRU.lru_put_spec k v _ Hi) as (Hi' & Ha & _). unfold LRU.Get, LRU.Put.
    destruct (LRU.lru_get_spec k _ Hi') as (_ & -> & _).
    rewrite Ha, Spec.get_put. by case_decide.
Qed.

(** Both caches are sound best-effort stores.  Whatever sequence of
    operations ran on a new [LRU] or a new [sizedLRU], a [Get] that hits
    returns the value an unbounded map would hold for that key, i.e. the last
    one put and not evicted or flushed since. *)
Theorem caches_return_last_put (n m : Z) (size : K → V → Z) (ops : list (cop K V)) (k : K) (v : V) :
  ((LRU.Get k (crun ops (lru_new n))).1 = Some v → ref_run ops ∅ !! k = Some v) ∧
  ((sizedLRU.Get k (crun (H := sizedLRU.ops size) ops (sizedLRU.NewSizedLRU m : sized))).1
     = Some v →
   ref_run ops ∅ !! k = Some v).
Proof.
  split; intros Hg.
  - eapply (crun_get_sound (C := lru)); [| |exact Hg]; done.
  - eapply (@crun_get_sound _ _ sized _ _ _ (sizedLRU.cacher size));
      [| |exact Hg]; [apply linkedHashmap.wf_New|done].
Qed.

(** In a full [LRU], putting a key that is already present (and is not the
    oldest) evicts the oldest entry although no space is needed: the cache
    shrinks by one entry and the oldest key is lost.  The interface says
    that elements are evicted if space is required. *)
Theorem lru_overwrite_evicts (c : lru) (k k0 : K) (v v0 : V) (l : list (K * V))
    (Hc : lru_inv c) (Habs : lru_abs c = (k0, v0) :: l)
    (Hfull : Z.of_nat (length (lru_abs c)) = LRU.Size c) (Hin : k ∈ l.*1) :
  LRU.Len (LRU.Put k v c) = pred (LRU.Len c) ∧
  (LRU.Get k0 (LRU.Put k v c)).1 = None.
Proof.
  pose proof (LRU.lru_abs_NoDup c Hc) as Hnd. rewrite Habs in Hnd. simpl in Hnd.
  apply NoDup_cons in Hnd as [Hni Hnd].
  destruct (LRU.lru_put_spec k v c Hc) as (Hi' & Ha & _).
  unfold LRU.Len, LRU.Get, LRU.Put. rewrite !LRU.lru_len_spec by done.
  destruct (LRU.lru_get_spec k0 _ Hi') as (_ & -> & _). rewrite Ha.
  unfold LRU.put_room. rewrite bool_decide_eq_true_2.
  2: { rewrite Hfull. rewrite Habs in Hfull. simpl in Hfull. lia. }
  rewrite Habs. simpl. rewrite Spec.put_length, decide_True by done.
  split; [done|]. rewrite Spec.get_put. rewrite decide_False by (intros ->; done).
  by apply Spec.get_None.
Qed.

(** *** Sized caches *)

Context (size : K → V → Z).

Definition srun (ops : list (cop K V)) (c : sized) : sized :=
  crun (H := sizedLRU.ops size) ops c.

(** No [Put] of the trace replaces a value by a larger one. *)
Fixpoint non_growing (ops : list (cop K V)) (c : sized) : Prop :=
  match ops with
  | [] => True
  | o :: ops' =>
      match o with
      | CPut k v => ∀ old, Spec.get k (sized_abs c) = Some old → (size k v ≤ size k old)%Z
      | _ => True
      end ∧ non_growing ops' (cstep (H := sizedLRU.ops size) o c)
  end.

Lemma srun_accounted (ops : list (cop K V)) (c : sized) :
  (∀ k v, 0 ≤ size k v)%Z → sizedLRU.accounted size c → non_growing ops c →
  sizedLRU.accounted size (srun ops c) ∧ sizedLRU.maxSize (srun ops c) = sizedLRU.maxSize c.
Proof.
  intros Hs. unfold srun, crun. revert c.
  induction ops as [|o ops IH]; intros c Hc Hng; [done|]. simpl in Hng |- *.
  destruct Hng as [Ho Hng].
  assert (sizedLRU.accounted size (cstep (H := sizedLRU.ops size) o c) ∧
          sizedLRU.maxSize (cstep (H := sizedLRU.ops size) o c) = sizedLRU.maxSize c)
    as [Hc' <-]; [|by apply IH].
  pose proof (proj1 Hc) as Hi. destruct o as [k v|k|k|]; simpl.
  - split; [by apply sizedLRU.put_accounted|].
    by destruct (sizedLRU.put_contents size k v c Hi) as (_ & _ & ?).
  - split; [by apply sizedLRU.get_accounted|].
    by destruct (sizedLRU.sized_get_spec k c Hi) as (_ & _ & _ & _ & ?).
  - split; [by apply sizedLRU.evict_accounted|].
    by destruct (sizedLRU.sized_evict_spec size k c Hi) as (_ & _ & ?).
  - split; [|done]. apply sizedLRU.flush_accounted. by apply Hc.
Qed.

Lemma srun_under (ops : list (cop K V)) (c : sized) :
  (∀ k v, 0 ≤ size k v)%Z → sizedLRU.under size c →
  sizedLRU.under size (srun ops c) ∧
  sizedLRU.maxSize (srun ops c) = sizedLRU.maxSize c.
Proof.
  intros Hs. unfold srun, crun. revert c.
  induction ops as [|o ops IH]; intros c Hc; [done|]. simpl.
  assert (sizedLRU.under size (cstep (H := sizedLRU.ops size) o c) ∧
          sizedLRU.maxSize (cstep (H := sizedLRU.ops size) o c) = sizedLRU.maxSize c)
    as [Hc' <-]; [|by apply IH].
  pose proof (proj1 Hc) as Hi. destruct o as [k v|k|k|]; simpl.
  - split; [by apply sizedLRU.put_under|].
    by destruct (sizedLRU.put_contents size k v c Hi) as (_ & _ & ?).
  - split; [by apply sizedLRU.get_under|].
    by destruct (sizedLRU.sized_get_spec k c Hi) as (_ & _ & _ & _ & ?).
  - split; [by apply sizedLRU.evict_under|].
    by destruct (sizedLRU.sized_evict_spec size k c Hi) as (_ & _ & ?).
  - split; [|done]. apply sizedLRU.flush_under.
Qed.

(** As long as no [Put] replaces a value by a larger one, a [sizedLRU]
    keeps its promise after any sequence of operations: [currentSize] is
    exactly the sum of the sizes of the entries held, and it never exceeds
    [maxSize]. *)
Theorem sizedLRU_bounded (m : Z) (ops : list (cop K V))
    (Hsize : ∀ k v, (0 ≤ size k v)%Z) (Hm : (0 ≤ m)%Z)
    (Hng : non_growing ops (sizedLRU.NewSizedLRU m)) :
  let c := srun ops (sizedLRU.NewSizedLRU m) in
  sizedLRU.currentSize c = sizedLRU.total size (sized_abs c) ∧
  (sizedLRU.total size (sized_abs c) ≤ m)%Z.
Proof.
  destruct (srun_accounted ops (sizedLRU.NewSizedLRU m) Hsize) as [(_ & Hc & Hle & _) Hmx];
    [|done|].
  - split_and!; [apply linkedHashmap.wf_New|done|done|done].
  - simpl in *. rewrite Hmx in Hle. split; [done|]. rewrite <-Hc. exact Hle.
Qed.

(** C40: the eviction loop of [sizedLRU.put] always ends.  After any sequence of
    operations whatsoever, for a new entry no larger than [maxSize], the loop
    has brought [currentSize] below [maxSize - newEntrySize] after at most
    [Len] evictions, so it never asks an empty map for its oldest entry. *)
Theorem sizedLRU_put_terminates (m : Z) (ops : list (cop K V)) (k : K) (v : V)
    (Hsize : ∀ k v, (0 ≤ size k v)%Z) (Hfit : (size k v ≤ m)%Z) :
  let c := srun ops (sizedLRU.NewSizedLRU m) in
  let cur := match linkedHashmap.Get k (sizedLRU.elements c) with
             | Some old => (sizedLRU.currentSize c - size k old)%Z
             | None => sizedLRU.currentSize c
             end in
  ((sizedLRU.shrink size (sizedLRU.Len c) (m - size k v)%Z (sizedLRU.elements c) cur).2
     ≤ m - size k v)%Z.
Proof.
  intros c cur.
  destruct (srun_under ops (sizedLRU.NewSizedLRU m) Hsize) as [[Hi Hle] _].
  { split; [apply linkedHashmap.wf_New|done]. }
  apply (sizedLRU.shrink_exits (H := linkedHashmap.t K V) size); [exact Hi| |lia|].
  - unfold sizedLRU.Len, sizedLRU.len. by rewrite lh_Len_spec.
  - fold c in Hle. subst cur.
    destruct (linkedHashmap.Get k (sizedLRU.elements c)) as [old|]; [|done].
    specialize (Hsize k old). unfold sizedLRU.abs in Hle. lia.
Qed.
End properties.

(** Witnesses, at natural-number keys and sizes. *)

Definition demo_size (_ : nat) (v : Z) : Z := Z.abs v.
Definition demo_lru : LRU.t (linkedHashmap.t nat Z) :=
  crun [CPut 1%nat 10%Z; CPut 2%nat 20%Z] (lru_new 2).

Lemma lru_overwrite_evicts_witness :
  LRU.Len (LRU.Put 2%nat 21%Z demo_lru) = 1%nat ∧
  (LRU.Get 1%nat (LRU.Put 2%nat 21%Z demo_lru)).1 = None.
Proof.
  apply (lru_overwrite_evicts demo_lru 2%nat 1%nat 21%Z 10%Z [(2%nat, 20%Z)]).
  - apply (lru_run_inv [CPut 1%nat 10%Z; CPut 2%nat 20%Z] (lru_new 2)). done.
  - vm_compute. reflexivity.
  - vm_compute. reflexivity.
  - simpl. set_solver.
Defined.

Lemma sizedLRU_bounded_witness :
  let c := srun demo_size [CPut 1%nat 4%Z; CPut 2%nat 6%Z; CPut 1%nat 3%Z]
             (sizedLRU.NewSizedLRU 10) in
  sizedLRU.currentSize c = sizedLRU.total demo_size (sizedLRU.abs (K := nat) c) ∧
  (sizedLRU.total demo_size (sizedLRU.abs (K := nat) c) ≤ 10)%Z.
Proof.
  apply (sizedLRU_bounded demo_size 10).
  - intros. unfold demo_size. lia.
  - lia.
  - vm_compute. split_and!; try done; intros ? [= <-]; done.
Defined.

Lemma sizedLRU_put_terminates_witness :
  let c := srun demo_size [CPut 1%nat 4%Z; CPut 2%nat 6%Z] (sizedLRU.NewSizedLRU 10) in
  ((sizedLRU.shrink demo_size (sizedLRU.Len (K := nat) (V := Z) c) (10 - 5)%Z
      (sizedLRU.elements c) 6%Z).2 ≤ 10 - 5)%Z.
Proof.
  assert (Hs : ∀ k v, (0 ≤ demo_size k v)%Z) by (intros; unfold demo_size; lia).
  assert (Hf : (demo_size 1 5 ≤ 10)%Z) by (vm_compute; done).
  pose proof (sizedLRU_put_terminates demo_size 10
    [CPut 1%nat 4%Z; CPut 2%nat 6%Z] 1%nat 5%Z Hs Hf) as Hw.
  vm_compute in Hw |- *. exact Hw.
Defined.

(** Without that restriction the bound does not hold.  Replacing a value by
    a larger one subtracts its old size first, and the eviction loop may then
    evict the same entry and subtract the size again: a cache of [maxSize] 10
    ends up holding entries of total size 11 while recording 7. *)
Theorem sizedLRU_overwrite_exceeds_bound :
  ∃ (size : nat → Z → Z) (ops : list (cop nat Z)),
    (∀ k v, (0 ≤ size k v)%Z) ∧
    let c := srun size ops (sizedLRU.NewSizedLRU 10) in
    sizedLRU.total size (sizedLRU.abs (K := nat) c) = 11%Z ∧
    sizedLRU.currentSize c = 7%Z ∧ sizedLRU.maxSize c = 10%Z.
Proof.
  exists demo_size, [CPut 1%nat 4%Z; CPut 2%nat 6%Z; CPut 1%nat 5%Z].
  split; [intros; unfold demo_size; lia|]. vm_compute. done.
Qed.
