(* ===== verification/Packer.v ===== *)
(** * Packer (src/utils/wrappers)

    [Packer] writes and reads big-endian values, byte strings and strings to
    and from a byte slice, with a sticky error ([Errs]).  A Go slice is a
    window on an array: [spare] is what the array holds beyond the slice's
    length, up to its capacity.  When [append] has to allocate, the runtime
    chooses the new capacity: [grow] is that choice, a parameter.

    Sizes and offsets are Go [int]s (64 bits); slices are far shorter, so
    they are unbounded integers here.  [None] is a panic. *)

From S2P Require Import Prelude.

Inductive packer_err :=
| ErrInsufficientLength | errNegativeOffset | errInvalidInput | errBadBool | errOversized.

#[export] Instance packer_err_eq : EqDecision packer_err.
Proof. solve_decision. Defined.

Record Packer := mkPacker {
  Err : option packer_err;
  MaxSize : Z;
  Bytes : list Z;
  spare : list Z;
  Offset : Z;
}.

Definition MaxStringLen : Z := 65535.
Definition ByteLen : Z := 1.
Definition ShortLen : Z := 2.
Definition IntLen : Z := 4.
Definition LongLen : Z := 8.
Definition StringLen (str : list Z) : Z := ShortLen + Z.of_nat (length str).

Definition Errored (p : Packer) : bool := bool_decide (is_Some (Err p)).

(** [Errs.Add] keeps the first error. *)
Definition Add_err (e : packer_err) (p : Packer) : Packer :=
  match Err p with
  | Some _ => p
  | None => mkPacker (Some e) (MaxSize p) (Bytes p) (spare p) (Offset p)
  end.

Definition lenB (p : Packer) : Z := Z.of_nat (length (Bytes p)).
Definition capB (p : Packer) : Z := Z.of_nat (length (Bytes p) + length (spare p)).

Definition checkSpace (bytes : Z) (p : Packer) : Packer :=
  if bool_decide (Offset p < 0)%Z then Add_err errNegativeOffset p
  else if bool_decide (bytes < 0)%Z then Add_err errInvalidInput p
  else if bool_decide (lenB p - Offset p < bytes)%Z then Add_err ErrInsufficientLength p
  else p.

Section packer.
(** The spare capacity of a newly allocated array of a given length. *)
Context (grow : nat → nat).

Definition expand (bytes : Z) (p : Packer) : Packer :=
  let neededSize := (bytes + Offset p)%Z in
  if bool_decide (neededSize ≤ lenB p)%Z then p
  else if bool_decide (MaxSize p < neededSize)%Z then
    mkPacker (Some ErrInsufficientLength) (MaxSize p) (Bytes p) (spare p) (Offset p)
  else if bool_decide (neededSize ≤ capB p)%Z then
    let n := Z.to_nat (neededSize - lenB p) in
    mkPacker (Err p) (MaxSize p) (Bytes p ++ take n (spare p)) (drop n (spare p)) (Offset p)
  else
    mkPacker (Err p) (MaxSize p)
      (Bytes p ++ spare p ++ replicate (Z.to_nat (neededSize - capB p)) 0%Z)
      (replicate (grow (Z.to_nat neededSize)) 0%Z) (Offset p).

(** Writing [bs] at the offset and moving past it; the slice expression panics
    on an offset outside the slice. *)
Definition write (bs : list Z) (p : Packer) : option Packer :=
  if Errored p then Some p
  else if bool_decide (0 ≤ Offset p ≤ lenB p)%Z then
    let o := Z.to_nat (Offset p) in
    Some (mkPacker (Err p) (MaxSize p)
            (take o (Bytes p) ++ take (length (Bytes p) - o) bs ++ drop (o + length bs) (Bytes p))
            (spare p) (Offset p + Z.of_nat (length bs))%Z)
  else None.

Definition PackByte (val : Z) (p : Packer) : option Packer := write [val] (expand ByteLen p).
Definition PackShort (val : Z) (p : Packer) : option Packer :=
  write (be_encode 2 val) (expand ShortLen p).
Definition PackInt (val : Z) (p : Packer) : option Packer :=
  write (be_encode 4 val) (expand IntLen p).
Definition PackLong (val : Z) (p : Packer) : option Packer :=
  write (be_encode 8 val) (expand LongLen p).
Definition PackBool (b : bool) (p : Packer) : option Packer :=
  if b then PackByte 1 p else PackByte 0 p.
Definition PackFixedBytes (bytes : list Z) (p : Packer) : option Packer :=
  write bytes (expand (Z.of_nat (length bytes)) p).
Definition PackBytes (bytes : list Z) (p : Packer) : option Packer :=
  PackInt (wrapU 32 (Z.of_nat (length bytes))) p ≫= PackFixedBytes bytes.
Definition PackStr (str : list Z) (p : Packer) : option Packer :=
  let strSize := Z.of_nat (length str) in
  if bool_decide (MaxStringLen < strSize)%Z then Some (Add_err errInvalidInput p)
  else PackShort (wrapU 16 strSize) p ≫= PackFixedBytes str.
End packer.

(** Reading [n] bytes and moving past them. *)
Definition read (n : Z) (p : Packer) : list Z * Packer :=
  let p := checkSpace n p in
  if Errored p then ([], p)
  else (take (Z.to_nat n) (drop (Z.to_nat (Offset p)) (Bytes p)),
        mkPacker (Err p) (MaxSize p) (Bytes p) (spare p) (Offset p + n)%Z).

(** [be_decode [] = 0], the value returned on an error. *)
Definition UnpackByte (p : Packer) : Z * Packer :=
  let '(bs, p) := read ByteLen p in (be_decode bs, p).
Definition UnpackShort (p : Packer) : Z * Packer :=
  let '(bs, p) := read ShortLen p in (be_decode bs, p).
Definition UnpackInt (p : Packer) : Z * Packer :=
  let '(bs, p) := read IntLen p in (be_decode bs, p).
Definition UnpackLong (p : Packer) : Z * Packer :=
  let '(bs, p) := read LongLen p in (be_decode bs, p).
Definition UnpackBool (p : Packer) : bool * Packer :=
  let '(b, p) := UnpackByte p in
  if bool_decide (b = 0)%Z then (false, p)
  else if bool_decide (b = 1)%Z then (true, p)
  else (false, Add_err errBadBool p).
Definition UnpackFixedBytes (size : Z) (p : Packer) : list Z * Packer := read size p.
Definition UnpackBytes (p : Packer) : list Z * Packer :=
  let '(size, p) := UnpackInt p in UnpackFixedBytes size p.
Definition UnpackLimitedBytes (limit : Z) (p : Packer) : list Z * Packer :=
  let '(size, p) := UnpackInt p in
  if bool_decide (limit < size)%Z then ([], Add_err errOversized p)
  else UnpackFixedBytes size p.
Definition UnpackStr (p : Packer) : list Z * Packer :=
  let '(strSize, p) := UnpackShort p in UnpackFixedBytes strSize p.
Definition UnpackLimitedStr (limit : Z) (p : Packer) : list Z * Packer :=
  let '(strSize, p) := UnpackShort p in
  if bool_decide (limit < strSize)%Z then ([], Add_err errOversized p)
  else UnpackFixedBytes strSize p.

(** ** Sequences of values *)

Inductive item :=
| IByte (v : Z) | IShort (v : Z) | IInt (v : Z) | ILong (v : Z) | IBool (b : bool)
| IFixed (bs : list Z) | IBytes (bs : list Z) | IStr (s : list Z).

Definition pack_item (grow : nat → nat) (i : item) (p : Packer) : option Packer :=
  match i with
  | IByte v => PackByte grow v p
  | IShort v => PackShort grow v p
  | IInt v => PackInt grow v p
  | ILong v => PackLong grow v p
  | IBool b => PackBool grow b p
  | IFixed bs => PackFixedBytes grow bs p
  | IBytes bs => PackBytes grow bs p
  | IStr s => PackStr grow s p
  end.

Fixpoint pack_items (grow : nat → nat) (l : list item) (p : Packer) : option Packer :=
  match l with
  | [] => Some p
  | i :: l' => pack_item grow i p ≫= pack_items grow l'
  end.

(** Reads a value of the kind of [i] (of its length, for fixed bytes). *)
Definition unpack_item (i : item) (p : Packer) : item * Packer :=
  match i with
  | IByte _ => let '(v, p) := UnpackByte p in (IByte v, p)
  | IShort _ => let '(v, p) := UnpackShort p in (IShort v, p)
  | IInt _ => let '(v, p) := UnpackInt p in (IInt v, p)
  | ILong _ => let '(v, p) := UnpackLong p in (ILong v, p)
  | IBool _ => let '(b, p) := UnpackBool p in (IBool b, p)
  | IFixed bs => let '(r, p) := UnpackFixedBytes (Z.of_nat (length bs)) p in (IFixed r, p)
  | IBytes _ => let '(r, p) := UnpackBytes p in (IBytes r, p)
  | IStr _ => let '(r, p) := UnpackStr p in (IStr r, p)
  end.

Fixpoint unpack_items (l : list item) (p : Packer) : list item * Packer :=
  match l with
  | [] => ([], p)
  | i :: l' => let '(v, p) := unpack_item i p in
               let '(vs, p) := unpack_items l' p in (v :: vs, p)
  end.

(** Values that fit their type. *)
Definition item_ok (i : item) : Prop :=
  match i with
  | IByte v => inU 8 v
  | IShort v => inU 16 v
  | IInt v => inU 32 v
  | ILong v => inU 64 v
  | IBool _ => True
  | IFixed bs => bytes_ok bs
  | IBytes bs => bytes_ok bs ∧ (Z.of_nat (length bs) < 2 ^ 32)%Z
  | IStr s => bytes_ok s
  end.

(** The bytes a value is packed as. *)
Definition item_bytes (i : item) : list Z :=
  match i with
  | IByte v => [v]
  | IShort v => be_encode 2 v
  | IInt v => be_encode 4 v
  | ILong v => be_encode 8 v
  | IBool b => [if b then 1%Z else 0%Z]
  | IFixed bs => bs
  | IBytes bs => be_encode 4 (Z.of_nat (length bs)) ++ bs
  | IStr s => be_encode 2 (Z.of_nat (length s)) ++ s
  end.

(** A packer in use, without an error. *)
Definition packer_wf (p : Packer) : Prop :=
  Err p = None ∧ (0 ≤ Offset p ≤ lenB p)%Z.

(** [p'] has [bs] written at the offset of [p], and nothing before it changed. *)
Definition wrote (p p' : Packer) (bs : list Z) : Prop :=
  packer_wf p' ∧ MaxSize p' = MaxSize p ∧
  Offset p' = (Offset p + Z.of_nat (length bs))%Z ∧
  take (Z.to_nat (Offset p')) (Bytes p') = take (Z.to_nat (Offset p)) (Bytes p) ++ bs ∧
  lenB p' = Z.max (lenB p) (Offset p') ∧ (lenB p' ≤ Z.max (lenB p) (MaxSize p))%Z.

(** ** Writing *)

Lemma take_drop_middle_app {A} (l bs : list A) o :
  (o + length bs ≤ length l)%nat →
  take (o + length bs) (take o l ++ take (length l - o) bs ++ drop (o + length bs) l)
    = take o l ++ bs ∧
  length (take o l ++ take (length l - o) bs ++ drop (o + length bs) l) = length l.
Proof.
  intros Hlen. rewrite (take_ge bs) by lia. split.
  - rewrite app_assoc, take_app_le by (rewrite length_app, length_take; lia).
    apply take_ge. rewrite length_app, length_take. lia.
  - rewrite !length_app, length_take, length_drop. lia.
Qed.

Section proofs.
Context (grow : nat → nat).

(** [expand] makes room for [n] bytes, or sets the error when the limit does
    not allow it; the bytes up to the offset are kept. *)
Lemma expand_spec n p :
  packer_wf p → (0 ≤ n)%Z →
  let p' := expand grow n p in
  Offset p' = Offset p ∧ MaxSize p' = MaxSize p ∧
  (if bool_decide (Offset p + n ≤ Z.max (lenB p) (MaxSize p))%Z then
     Err p' = None ∧ (Offset p + n ≤ lenB p')%Z ∧
     take (Z.to_nat (Offset p)) (Bytes p') = take (Z.to_nat (Offset p)) (Bytes p) ∧
     lenB p' = Z.max (lenB p) (Offset p + n) ∧ (lenB p' ≤ Z.max (lenB p) (MaxSize p))%Z
   else Err p' = Some ErrInsufficientLength ∧ Bytes p' = Bytes p).
Proof.
  intros [He Ho] Hn. unfold expand, lenB, capB in *.
  repeat (case_bool_decide; simpl in *); try lia; split_and!; try done; try lia.
  all: first [by rewrite take_app_le by lia
             |rewrite !length_app, ?length_take, ?length_replicate in *; lia].
Qed.

(** The limit of a packer. *)
Definition limit (p : Packer) : Z := Z.max (lenB p) (MaxSize p).

Lemma pack_raw bs p :
  packer_wf p →
  ∃ p', write bs (expand grow (Z.of_nat (length bs)) p) = Some p' ∧
    if bool_decide (Offset p + Z.of_nat (length bs) ≤ limit p)%Z then wrote p p' bs
    else Err p' = Some ErrInsufficientLength ∧ Bytes p' = Bytes p.
Proof.
  intros Hwf. pose proof Hwf as [He Ho]. unfold limit.
  destruct (expand_spec (Z.of_nat (length bs)) p Hwf) as (Hoff & Hmax & Hcase); [lia|].
  unfold write, Errored. revert Hcase. case_bool_decide.
  - intros (He' & Hlen & Htake & Hexact & Hbound). rewrite He', bool_decide_eq_false_2 by (by intros []).
    rewrite Hoff, bool_decide_eq_true_2 by lia. eexists. split; [done|].
    unfold lenB in *.
    destruct (take_drop_middle_app (Bytes (expand grow (Z.of_nat (length bs)) p)) bs
      (Z.to_nat (Offset p))) as [Ht Hl]; [lia|].
    unfold wrote, packer_wf, lenB. cbn [Err Offset Bytes MaxSize]. rewrite Hl.
    split_and!; [done|lia|lia|done|done| |lia|lia].
    rewrite <-Htake, <-Ht. f_equal. lia.
  - intros [He' Hb]. rewrite He', bool_decide_eq_true_2 by done. eauto.
Qed.

Lemma wrote_nil p : packer_wf p → wrote p p [].
Proof.
  intros Hwf. pose proof (proj2 Hwf). unfold wrote. rewrite Z.add_0_r, app_nil_r.
  split_and!; done || lia.
Qed.

Lemma wrote_limit p p1 bs : wrote p p1 bs → limit p1 = limit p.
Proof. intros (_ & Hm & _ & _ & He & Hb). unfold limit. rewrite Hm. lia. Qed.

Lemma wrote_trans p p1 p2 bs1 bs2 :
  wrote p p1 bs1 → wrote p1 p2 bs2 → wrote p p2 (bs1 ++ bs2).
Proof.
  intros (H1 & H2 & H3 & H4 & H5 & H6) (G1 & G2 & G3 & G4 & G5 & G6). unfold wrote.
  rewrite length_app, G4, H4, <-app_assoc. rewrite H2 in G6.
  split_and!; [done|congruence|lia|done|lia|lia].
Qed.

(** An error stays. *)
Lemma pack_raw_errored bs n p :
  is_Some (Err p) → ∃ p', write bs (expand grow n p) = Some p' ∧ is_Some (Err p').
Proof.
  intros He. assert (is_Some (Err (expand grow n p))) as He'.
  { unfold expand. repeat (case_bool_decide; simpl in *); eauto. }
  unfold write, Errored. rewrite bool_decide_eq_true_2 by done. eauto.
Qed.

Lemma Add_err_errored e p : is_Some (Err (Add_err e p)).
Proof. unfold Add_err. destruct (Err p) eqn:E; simpl; [by rewrite E|eauto]. Qed.

(** What one [Pack] call does: it writes the bytes of the value when they fit
    the limit, and leaves an error otherwise. *)
Definition pack_result (p : Packer) (bs : list Z) (fits : bool) (p' : Packer) : Prop :=
  if fits && bool_decide (Offset p + Z.of_nat (length bs) ≤ limit p)%Z
  then wrote p p' bs else is_Some (Err p').

Lemma pack_one bs p :
  packer_wf p →
  ∃ p', write bs (expand grow (Z.of_nat (length bs)) p) = Some p' ∧ pack_result p bs true p'.
Proof.
  intros Hwf. destruct (pack_raw bs p Hwf) as (p' & Hp & Hr). exists p'. split; [done|].
  unfold pack_result. simpl. revert Hr. case_bool_decide; [done|]. intros [-> _]. eauto.
Qed.

Lemma pack_two bs1 bs2 p :
  packer_wf p →
  ∃ p', (write bs1 (expand grow (Z.of_nat (length bs1)) p)
           ≫= λ p1, write bs2 (expand grow (Z.of_nat (length bs2)) p1)) = Some p' ∧
        pack_result p (bs1 ++ bs2) true p'.
Proof.
  intros Hwf. destruct (pack_raw bs1 p Hwf) as (p1 & Hp1 & Hr1). rewrite Hp1. simpl.
  unfold pack_result. rewrite length_app. simpl. revert Hr1. case_bool_decide as Hfit1.
  - intros Hw. pose proof Hw as (Hwf1 & _ & Ho1 & _).
    destruct (pack_raw bs2 p1 Hwf1) as (p2 & Hp2 & Hr2). exists p2. split; [done|].
    rewrite (wrote_limit _ _ _ Hw), Ho1 in Hr2. revert Hr2.
    rewrite Nat2Z.inj_add, Z.add_assoc. case_bool_decide.
    + intros. by eapply wrote_trans.
    + intros [-> _]. eauto.
  - intros [He _]. rewrite bool_decide_eq_false_2 by lia.
    apply pack_raw_errored. eauto.
Qed.

Definition item_fits (i : item) : bool :=
  match i with IStr s => bool_decide (Z.of_nat (length s) ≤ MaxStringLen)%Z | _ => true end.

Lemma pack_item_spec i p :
  packer_wf p → item_ok i →
  ∃ p', pack_item grow i p = Some p' ∧ pack_result p (item_bytes i) (item_fits i) p'.
Proof.
  intros Hwf Hok. destruct i as [v|v|v|v|[|]|bs|bs|s]; cbn [item_ok pack_item item_bytes item_fits] in Hok |- *.
  - exact (pack_one [v] p Hwf).
  - exact (pack_one (be_encode 2 v) p Hwf).
  - exact (pack_one (be_encode 4 v) p Hwf).
  - exact (pack_one (be_encode 8 v) p Hwf).
  - exact (pack_one [1%Z] p Hwf).
  - exact (pack_one [0%Z] p Hwf).
  - exact (pack_one bs p Hwf).
  - unfold PackBytes. destruct Hok as [_ Hlen]. rewrite wrapU_id by (unfold inU; lia).
    exact (pack_two (be_encode 4 (Z.of_nat (length bs))) bs p Hwf).
  - unfold PackStr, MaxStringLen. case_bool_decide.
    + eexists. split; [done|]. unfold pack_result. rewrite bool_decide_eq_false_2 by lia.
      apply Add_err_errored.
    + rewrite bool_decide_eq_true_2 by lia. rewrite wrapU_id by (unfold inU; lia).
      exact (pack_two (be_encode 2 (Z.of_nat (length s))) s p Hwf).
Qed.

Lemma pack_item_errored i p :
  is_Some (Err p) → ∃ p', pack_item grow i p = Some p' ∧ is_Some (Err p').
Proof.
  intros He. destruct i as [v|v|v|v|[|]|bs|bs|s]; simpl;
    try (by apply pack_raw_errored).
  - unfold PackBytes, PackInt.
    destruct (pack_raw_errored (be_encode 4 (wrapU 32 (Z.of_nat (length bs)))) IntLen p He)
      as (p1 & -> & He1). by apply pack_raw_errored.
  - unfold PackStr, PackShort. case_bool_decide; [eexists; split; [done|apply Add_err_errored]|].
    destruct (pack_raw_errored (be_encode 2 (wrapU 16 (Z.of_nat (length s)))) ShortLen p He)
      as (p1 & -> & He1). by apply pack_raw_errored.
Qed.

Lemma pack_items_errored l p :
  is_Some (Err p) → ∃ p', pack_items grow l p = Some p' ∧ is_Some (Err p').
Proof.
  revert p. induction l as [|i l IH]; intros p He; simpl; [eauto|].
  destruct (pack_item_errored i p He) as (p1 & -> & He1). by apply IH.
Qed.

Definition items_bytes (l : list item) : list Z := concat (item_bytes <$> l).

Lemma pack_items_spec l p :
  packer_wf p → Forall item_ok l →
  ∃ p', pack_items grow l p = Some p' ∧ pack_result p (items_bytes l) (forallb item_fits l) p'.
Proof.
  intros Hwf Hl. revert p Hwf. induction Hl as [|i l Hi Hl IH]; intros p Hwf; simpl.
  - exists p. split; [done|]. unfold pack_result, limit. simpl. destruct Hwf as [? Ho].
    rewrite bool_decide_eq_true_2 by lia. by apply wrote_nil.
  - destruct (pack_item_spec i p Hwf Hi) as (p1 & -> & Hr1). simpl.
    unfold pack_result in Hr1 |- *. unfold items_bytes. csimpl. rewrite length_app.
    destruct (item_fits i); simpl in *.
    2: { destruct (pack_items_errored l p1 Hr1) as (p2 & -> & ?). eauto. }
    revert Hr1. case_bool_decide as Hfit.
    + intros Hw. pose proof Hw as (Hwf1 & _ & Ho1 & _).
      destruct (IH p1 Hwf1) as (p2 & -> & Hr2). exists p2. split; [done|].
      unfold pack_result in Hr2. rewrite (wrote_limit _ _ _ Hw), Ho1 in Hr2.
      rewrite Nat2Z.inj_add, Z.add_assoc. fold (items_bytes l).
      destruct (forallb item_fits l && _); [by eapply wrote_trans|done].
    + intros He. destruct (pack_items_errored l p1 He) as (p2 & -> & ?).
      exists p2. split; [done|]. rewrite (bool_decide_eq_false_2 (_ ≤ _)%Z) by lia.
      by rewrite andb_false_r.
Qed.
End proofs.

(** ** Reading *)

Definition seek (o : Z) (p : Packer) : Packer :=
  mkPacker (Err p) (MaxSize p) (Bytes p) (spare p) o.

(** The bytes from the offset on start with [bs]. *)
Definition reads (p : Packer) (bs : list Z) : Prop :=
  take (length bs) (drop (Z.to_nat (Offset p)) (Bytes p)) = bs.

Lemma read_spec bs p :
  packer_wf p → reads p bs →
  read (Z.of_nat (length bs)) p = (bs, seek (Offset p + Z.of_nat (length bs)) p).
Proof.
  intros [He Ho] Hr. unfold reads in Hr. pose proof (f_equal length Hr) as Hl.
  rewrite length_take, length_drop in Hl. unfold read, checkSpace, lenB in *.
  rewrite !bool_decide_eq_false_2 by lia. unfold Errored.
  rewrite He, bool_decide_eq_false_2 by (by intros []). rewrite Nat2Z.id, Hr.
  unfold seek. by rewrite He.
Qed.

Lemma reads_app_1 p bs1 bs2 : reads p (bs1 ++ bs2) → reads p bs1.
Proof.
  unfold reads. rewrite length_app. intros Hr.
  apply (f_equal (take (length bs1))) in Hr. rewrite take_take, take_app_length in Hr.
  by rewrite Nat.min_l in Hr by lia.
Qed.

Lemma reads_app_2 p bs1 bs2 :
  packer_wf p → reads p (bs1 ++ bs2) →
  reads (seek (Offset p + Z.of_nat (length bs1)) p) bs2 ∧
  packer_wf (seek (Offset p + Z.of_nat (length bs1)) p).
Proof.
  intros [He Ho] Hr. pose proof (f_equal length Hr) as Hl. unfold reads, packer_wf, lenB in *.
  rewrite length_take, length_drop, length_app in *. cbn [seek Offset Bytes Err].
  split; [|split; [done|lia]].
  replace (Z.to_nat (Offset p + Z.of_nat (length bs1)))
    with (Z.to_nat (Offset p) + length bs1)%nat by lia.
  rewrite <-drop_drop. apply (f_equal (drop (length bs1))) in Hr.
  rewrite drop_app_length in Hr. rewrite <-Hr at 2. rewrite skipn_firstn_comm.
  f_equal. lia.
Qed.

Lemma seek_seek a b p : seek a (seek b p) = seek a p.
Proof. done. Qed.

Lemma read_be n z p :
  packer_wf p → reads p (be_encode n z) →
  read (Z.of_nat n) p = (be_encode n z, seek (Offset p + Z.of_nat n) p).
Proof.
  intros Hwf Hr. pose proof (read_spec _ p Hwf Hr) as Hs.
  by rewrite be_encode_length in Hs.
Qed.

Lemma unpack_item_spec i p :
  packer_wf p → item_ok i → item_fits i = true → reads p (item_bytes i) →
  unpack_item i p = (i, seek (Offset p + Z.of_nat (length (item_bytes i))) p).
Proof.
  intros Hwf Hok Hfit Hr.
  destruct i as [v|v|v|v|b|bs|bs|s]; cbn [item_ok item_bytes item_fits] in *.
  - cbn [unpack_item]. unfold UnpackByte, ByteLen.
    rewrite (read_spec [v] p Hwf Hr : read 1 p = _). unfold be_decode. simpl. done.
  - cbn [unpack_item]. unfold UnpackShort, ShortLen. rewrite (read_be 2 v p Hwf Hr : read 2 p = _).
    rewrite be_decode_encode, be_encode_length by done. done.
  - cbn [unpack_item]. unfold UnpackInt, IntLen. rewrite (read_be 4 v p Hwf Hr : read 4 p = _).
    rewrite be_decode_encode, be_encode_length by done. done.
  - cbn [unpack_item]. unfold UnpackLong, LongLen. rewrite (read_be 8 v p Hwf Hr : read 8 p = _).
    rewrite be_decode_encode, be_encode_length by done. done.
  - cbn [unpack_item]. unfold UnpackBool, UnpackByte, ByteLen.
    rewrite (read_spec _ p Hwf Hr : read 1 p = _). by destruct b.
  - cbn [unpack_item]. unfold UnpackFixedBytes. by rewrite read_spec.
  - cbn [unpack_item]. unfold UnpackBytes, UnpackInt, IntLen, UnpackFixedBytes.
    destruct (reads_app_2 _ _ _ Hwf Hr) as [Hr2 Hwf2]. apply reads_app_1 in Hr.
    rewrite (read_be 4 _ p Hwf Hr : read 4 p = _).
    rewrite be_decode_encode by (unfold inU; destruct Hok; lia).
    rewrite be_encode_length in Hr2, Hwf2. rewrite (read_spec bs _ Hwf2 Hr2).
    rewrite seek_seek, length_app, be_encode_length, Nat2Z.inj_add, Z.add_assoc. done.
  - cbn [unpack_item]. unfold UnpackStr, UnpackShort, ShortLen, UnpackFixedBytes.
    apply bool_decide_eq_true in Hfit. unfold MaxStringLen in Hfit.
    destruct (reads_app_2 _ _ _ Hwf Hr) as [Hr2 Hwf2]. apply reads_app_1 in Hr.
    rewrite (read_be 2 _ p Hwf Hr : read 2 p = _).
    rewrite be_decode_encode by (unfold inU; lia).
    rewrite be_encode_length in Hr2, Hwf2. rewrite (read_spec s _ Hwf2 Hr2).
    rewrite seek_seek, length_app, be_encode_length, Nat2Z.inj_add, Z.add_assoc. done.
Qed.

Lemma unpack_items_spec l p :
  packer_wf p → Forall item_ok l → forallb item_fits l = true → reads p (items_bytes l) →
  unpack_items l p = (l, seek (Offset p + Z.of_nat (length (items_bytes l))) p).
Proof.
  intros Hwf Hl. revert p Hwf. induction Hl as [|i l Hi Hl IH]; intros p Hwf Hfit Hr; simpl.
  - unfold seek. rewrite Z.add_0_r. by destruct p.
  - simpl in Hfit. apply andb_true_iff in Hfit as [Hfi Hfl].
    unfold items_bytes in Hr |- *. csimpl in Hr. csimpl.
    destruct (reads_app_2 _ _ _ Hwf Hr) as [Hr2 Hwf2]. apply reads_app_1 in Hr.
    rewrite unpack_item_spec by done. rewrite (IH _ Hwf2 Hfl Hr2).
    rewrite seek_seek, length_app, Nat2Z.inj_add, Z.add_assoc. done.
Qed.

(** What a packer packs it unpacks.  Packing any sequence of bytes, shorts,
    ints, longs, bools, byte strings and strings into a packer in use
    never panics; it succeeds exactly when the total size stays within
    [max(len(Bytes), MaxSize)] and no string is longer than 65535, and then
    unpacking the same kinds of values from the old offset gives the same values
    back without an error and ends where packing ended. *)
Theorem pack_unpack_roundtrip (grow : nat → nat) (l : list item) (p : Packer)
    (Hwf : packer_wf p) (Hl : Forall item_ok l) :
  ∃ p', pack_items grow l p = Some p' ∧
    (Err p' = None ↔ forallb item_fits l = true ∧
       (Offset p + Z.of_nat (length (items_bytes l)) ≤ Z.max (lenB p) (MaxSize p))%Z) ∧
    (Err p' = None → unpack_items l (seek (Offset p) p') = (l, p')).
Proof.
  destruct (pack_items_spec grow l p Hwf Hl) as (p' & Hp & Hr). exists p'. split; [done|].
  unfold pack_result, limit in Hr.
  destruct (forallb item_fits l) eqn:Hfit; simpl in Hr.
  2: { assert (Err p' ≠ None) by (intros E; rewrite E in Hr; by destruct Hr).
       split; [split; [done|by intros []]|done]. }
  revert Hr. case_bool_decide as Hb.
  - intros ([He Ho'] & Hm & Ho & Ht & _ & Hlen). split; [by split|]. intros _.
    rewrite unpack_items_spec; [| |done|done|].
    + unfold seek. cbn [Offset Err MaxSize Bytes spare]. rewrite <-Ho. by destruct p'.
    + split; [done|]. unfold lenB in *. cbn [seek Offset Bytes]. destruct Hwf as [_ Hwf].
      unfold lenB in *. lia.
    + unfold reads. cbn [seek Offset Bytes].
      destruct Hwf as [_ Hwf]. unfold lenB in Hwf.
      apply (f_equal (drop (Z.to_nat (Offset p)))) in Ht.
      rewrite (drop_app_length' (take _ _)) in Ht by (rewrite length_take; lia).
      rewrite skipn_firstn_comm in Ht. rewrite <-Ht at 2. f_equal. lia.
  - intros Hr. assert (Err p' ≠ None) by (intros E; rewrite E in Hr; by destruct Hr).
    split; [split; [done|intros []; lia]|done].
Qed.

(** Reading is safe on any packer, whatever its offset, bytes and the size
    asked for: the bytes returned are those at the offset, exactly as many
    as asked, or an error is set, the offset is unchanged and nothing is
    returned; a negative offset or size and a size beyond the end are errors,
    and an error set before stays. *)
Theorem unpack_fixed_bytes_safe (size : Z) (p : Packer) :
  let '(bs, p') := UnpackFixedBytes size p in
  Bytes p' = Bytes p ∧
  match Err p' with
  | None =>
      Err p = None ∧ (0 ≤ Offset p)%Z ∧ (0 ≤ size ≤ lenB p - Offset p)%Z ∧
      Z.of_nat (length bs) = size ∧ Offset p' = (Offset p + size)%Z ∧
      ∃ pre post, Bytes p = pre ++ bs ++ post ∧ Z.of_nat (length pre) = Offset p
  | Some e =>
      bs = [] ∧ Offset p' = Offset p ∧
      (Err p = Some e ∨
       Err p = None ∧ ((Offset p < 0)%Z ∨ (size < 0)%Z ∨ (lenB p - Offset p < size)%Z))
  end.
Proof.
  unfold UnpackFixedBytes, read, checkSpace, Errored.
  destruct (Err p) as [e|] eqn:He.
  - assert (∀ q, (q = Add_err errNegativeOffset p ∨ q = Add_err errInvalidInput p ∨
      q = Add_err ErrInsufficientLength p ∨ q = p) → q = p) as Hq.
    { intros q. unfold Add_err. rewrite He. naive_solver. }
    match goal with |- context [Err ?q] => assert (q = p) as -> by
      (apply Hq; repeat case_bool_decide; auto) end.
    rewrite He, bool_decide_eq_true_2 by done. rewrite He. auto.
  - unfold Add_err. rewrite He.
    destruct (decide (Offset p < 0)%Z) as [Ho|Ho];
      [rewrite (bool_decide_eq_true_2 _ Ho); cbn; auto 10
      |rewrite (bool_decide_eq_false_2 _ Ho)].
    destruct (decide (size < 0)%Z) as [Hs|Hs];
      [rewrite (bool_decide_eq_true_2 _ Hs); cbn; auto 10
      |rewrite (bool_decide_eq_false_2 _ Hs)].
    destruct (decide (lenB p - Offset p < size)%Z) as [Hl|Hl];
      [rewrite (bool_decide_eq_true_2 _ Hl); cbn; auto 10
      |rewrite (bool_decide_eq_false_2 _ Hl)].
    rewrite He, bool_decide_eq_false_2 by (by intros []). cbn [Err Bytes Offset].
    unfold lenB in *. split_and!; try done; try lia.
    + rewrite length_take, length_drop. lia.
    + exists (take (Z.to_nat (Offset p)) (Bytes p)),
        (drop (Z.to_nat size) (drop (Z.to_nat (Offset p)) (Bytes p))).
      rewrite take_drop, take_drop, length_take. split; [done|lia].
Qed.

Definition demo_packer : Packer := mkPacker None 64 [] [] 0.
Definition demo_items : list item :=
  [IByte 7; IShort 300; IInt 70000; ILong 5; IBool true; IBytes [1; 2]%Z; IStr [65%Z]].

Lemma pack_unpack_roundtrip_witness :
  ∃ p', pack_items (λ n, n) demo_items demo_packer = Some p' ∧
    unpack_items demo_items (seek 0 p') = (demo_items, p').
Proof.
  destruct (pack_unpack_roundtrip (λ n, n) demo_items demo_packer) as (p' & Hp & [_ Hok] & Hu).
  - split; [done|]. vm_compute. split; discriminate.
  - unfold demo_items. repeat constructor; unfold inU; vm_compute; done.
  - exists p'. split; [exact Hp|]. apply Hu. apply Hok. vm_compute. split; [reflexivity|discriminate].
Defined.
