(* ===== verification/Bimap.v ===== *)
(** * Bidirectional maps (src/utils/bimap)

    [BiMap] keeps two Go maps that are inverse to each other.  The codec's
    registry of types (Codec.v) is one. *)

From S2P Require Import Prelude.

Section bimap.
Context {K V : Type} `{Countable K, Countable V}.

Record BiMap := mkBiMap { keyToValue : gmap K V; valueToKey : gmap V K }.

Definition BiMap_New : BiMap := mkBiMap ∅ ∅.

Definition GetKey (val : V) (m : BiMap) : option K := valueToKey m !! val.
Definition GetValue (key : K) (m : BiMap) : option V := keyToValue m !! key.
Definition HasKey (key : K) (m : BiMap) : bool := bool_decide (is_Some (keyToValue m !! key)).
Definition HasValue (val : V) (m : BiMap) : bool := bool_decide (is_Some (valueToKey m !! val)).

Definition DeleteKey (key : K) (m : BiMap) : option V * BiMap :=
  match keyToValue m !! key with
  | None => (None, m)
  | Some val => (Some val, mkBiMap (delete key (keyToValue m)) (delete val (valueToKey m)))
  end.

Definition DeleteValue (val : V) (m : BiMap) : option K * BiMap :=
  match valueToKey m !! val with
  | None => (None, m)
  | Some key => (Some key, mkBiMap (delete key (keyToValue m)) (delete val (valueToKey m)))
  end.

(** The entries removed come with the new map. *)
Definition BiMap_Put (key : K) (val : V) (m : BiMap) : list (K * V) * BiMap :=
  let '(oldVal, m) := DeleteKey key m in
  let removed := match oldVal with Some v => [(key, v)] | None => [] end in
  let '(oldKey, m) := DeleteValue val m in
  let removed := removed ++ match oldKey with Some k => [(k, val)] | None => [] end in
  (removed, mkBiMap (<[key := val]> (keyToValue m)) (<[val := key]> (valueToKey m))).

Definition BiMap_Len (m : BiMap) : nat := size (keyToValue m).

(** [UnmarshalJSON] after the JSON library has decoded the object: [entries] is
    the decoded map in the order the loop visits it. *)
Definition UnmarshalJSON (entries : list (K * V)) (m : BiMap) : result string () * BiMap :=
  let keyToValue := list_to_map entries : gmap K V in
  let valueToKey := foldl (λ acc e, <[e.2 := e.1]> acc) ∅ entries : gmap V K in
  if bool_decide (size keyToValue ≠ size valueToKey) then (Err "map not bijective"%string, m)
  else (Ok (), mkBiMap keyToValue valueToKey).

(** The two maps are inverse. *)
Definition bimap_wf (m : BiMap) : Prop :=
  ∀ k v, keyToValue m !! k = Some v ↔ valueToKey m !! v = Some k.

Lemma bimap_wf_New : bimap_wf BiMap_New.
Proof. intros k v. simpl. by rewrite !lookup_empty. Qed.

Lemma bimap_wf_delete m key val :
  bimap_wf m → keyToValue m !! key = Some val →
  bimap_wf (mkBiMap (delete key (keyToValue m)) (delete val (valueToKey m))).
Proof.
  intros Hwf Hk k v. pose proof (proj1 (Hwf _ _) Hk) as Hv. simpl.
  rewrite !lookup_delete_Some, (Hwf k v).
  split; intros [Hne Hl]; (split; [|done]); intros <-; apply Hne; try congruence.
  apply Hwf in Hl. congruence.
Qed.

(** The state of a map after both deletions of [Put]. *)
Lemma DeleteKey_spec key m :
  bimap_wf m →
  let '(o, m') := DeleteKey key m in
  bimap_wf m' ∧ o = keyToValue m !! key ∧ keyToValue m' = delete key (keyToValue m).
Proof.
  intros Hwf. unfold DeleteKey. destruct (keyToValue m !! key) as [v|] eqn:E; split_and!; try done.
  - by apply bimap_wf_delete.
  - by rewrite delete_id.
Qed.

Lemma DeleteValue_spec val m :
  bimap_wf m →
  let '(o, m') := DeleteValue val m in
  bimap_wf m' ∧ o = valueToKey m !! val ∧ valueToKey m' !! val = None ∧
  (∀ k v, keyToValue m' !! k = Some v ↔ keyToValue m !! k = Some v ∧ v ≠ val).
Proof.
  intros Hwf. unfold DeleteValue. destruct (valueToKey m !! val) as [key|] eqn:E; split_and!; try done.
  - apply Hwf in E. by apply bimap_wf_delete.
  - simpl. apply lookup_delete_eq.
  - intros k v. simpl. rewrite lookup_delete_Some. split.
    + intros [Hne Hk]. split; [done|]. intros ->. apply Hwf in Hk. congruence.
    + intros [Hk Hne]. split; [|done]. intros ->. apply Hwf in E. congruence.
  - intros k v. split; [|naive_solver]. intros Hk. split; [done|]. intros ->.
    apply Hwf in Hk. congruence.
Qed.

Lemma bimap_wf_insert m key val :
  bimap_wf m → keyToValue m !! key = None → valueToKey m !! val = None →
  bimap_wf (mkBiMap (<[key := val]> (keyToValue m)) (<[val := key]> (valueToKey m))).
Proof.
  intros Hwf Hk Hv k v. simpl. rewrite !lookup_insert. specialize (Hwf k v).
  repeat case_decide; subst; split; intros Heq; simplify_eq; try done.
  - apply Hwf in Heq. congruence.
  - apply Hwf in Heq. congruence.
  - by apply Hwf.
  - by apply Hwf.
Qed.

(** A bidirectional map stays one-to-one.  If its two maps are inverse to each
    other, so they are after [Put], [DeleteKey] and [DeleteValue]; after [Put] the
    pair is found in both directions, the entries kept are those that share
    neither key nor value with it, and the entries returned are those removed. *)
Theorem bimap_put_one_to_one (key : K) (val : V) (m : BiMap) (Hwf : bimap_wf m) :
  let '(removed, m') := BiMap_Put key val m in
  bimap_wf m' ∧ bimap_wf (DeleteKey key m).2 ∧ bimap_wf (DeleteValue val m).2 ∧
  GetValue key m' = Some val ∧ GetKey val m' = Some key ∧
  (∀ k v, k ≠ key → GetValue k m' = Some v ↔ GetValue k m = Some v ∧ v ≠ val) ∧
  (∀ k v, (k, v) ∈ removed ↔ GetValue k m = Some v ∧ (k = key ∨ v = val)).
Proof.
  unfold BiMap_Put, GetValue, GetKey.
  pose proof (DeleteKey_spec key m Hwf) as H1. destruct (DeleteKey key m) as [oldVal m1].
  destruct H1 as (Hwf1 & -> & Hk1).
  pose proof (DeleteValue_spec val m1 Hwf1) as H2.
  pose proof (DeleteValue_spec val m Hwf) as H3. destruct (DeleteValue val m) as [? m3].
  destruct (DeleteValue val m1) as [oldKey m2].
  destruct H2 as (Hwf2 & -> & Hv2 & Hk2). destruct H3 as [Hwf3 _]. simpl.
  assert (keyToValue m2 !! key = None) as Hn.
  { apply eq_None_not_Some. intros [v Hv]. apply Hk2 in Hv as [Hv _].
    rewrite Hk1, lookup_delete_eq in Hv. done. }
  split_and!; try done; [by apply bimap_wf_insert|apply lookup_insert_eq|apply lookup_insert_eq| |].
  - intros k v Hne. rewrite lookup_insert_ne, Hk2, Hk1, lookup_delete_ne by done. done.
  - intros k v. rewrite elem_of_app.
    assert ((k, v) ∈ match keyToValue m !! key with Some v => [(key, v)] | None => [] end
      ↔ k = key ∧ keyToValue m !! key = Some v) as ->.
    { destruct (keyToValue m !! key); rewrite ?list_elem_of_singleton, ?elem_of_nil; naive_solver. }
    assert ((k, v) ∈ match valueToKey m1 !! val with Some k => [(k, val)] | None => [] end
      ↔ v = val ∧ valueToKey m1 !! val = Some k) as ->.
    { destruct (valueToKey m1 !! val); rewrite ?list_elem_of_singleton, ?elem_of_nil; naive_solver. }
    rewrite <-(Hwf1 k val), Hk1, lookup_delete_Some.
    destruct (decide (k = key)), (decide (v = val)); naive_solver.
Qed.
End bimap.
Arguments BiMap K V {_ _ _ _}.

(** For instance, a put that removes two entries. *)
Lemma bimap_put_one_to_one_example :
  let m := mkBiMap (K:=nat) (V:=nat) {[1 := 10; 2 := 20]} {[10 := 1; 20 := 2]} in
  (BiMap_Put 1 20 m).1 = [(1, 10); (2, 20)] ∧ bimap_wf (BiMap_Put 1 20 m).2.
Proof.
  intros m. assert (bimap_wf m) as Hwf.
  { intros k v. unfold m. simpl.
    rewrite !lookup_insert_Some, !lookup_singleton_Some.
    destruct (decide (k = 1)), (decide (v = 10)); subst; naive_solver. }
  pose proof (bimap_put_one_to_one 1 20 m Hwf) as H.
  assert ((BiMap_Put 1 20 m).1 = [(1, 10); (2, 20)]) as Hr by (vm_compute; reflexivity).
  split; [exact Hr|]. destruct (BiMap_Put 1 20 m) as [removed m']. exact (proj1 H).
Defined.
