(* ===== verification/Codec.v ===== *)
(** * The codec (src/utils/codec)

    [genericCodec] walks a Go value by reflection and writes it with a
    [Packer]; [linearCodec] numbers the types that may stand in an interface;
    [manager] adds the version and the size limits.

    A [reflect.Value] is a [val]: a tree with its type.  Named types of the
    program that may be held by an interface are numbers, with [type_of] their
    structure and [implements] Go's relation between them and the interface
    types.  Pointers point to a value of their own (no sharing, no cycles).
    Maps, which no type encoded in this repository contains, are in CodecMaps.v.  The
    cache of [structFielder] holds results of a pure function and is left out
    too.  A [typeStack] is the list of the interface values' types around the
    current value; on an error it is dropped with the call.

    The computations are in the monad [PM]: a packer is threaded through, [None]
    is a panic. *)

From S2P Require Import Prelude Packer Bimap.

(** ** Types and values *)

Inductive width := W8 | W16 | W32 | W64.

#[export] Instance width_eq : EqDecision width.
Proof. solve_decision. Defined.

Definition wlen (w : width) : nat :=
  match w with W8 => 1 | W16 => 2 | W32 => 4 | W64 => 8 end.
Definition wbits (w : width) : Z := 8 * Z.of_nat (wlen w).

Record field := mkField {
  f_Name : string;
  f_Tag : list (string * string);
  f_Exported : bool;
}.

(** An exported field with the tag that codecs look for, and one without. *)
Definition tagged (name : string) : field := mkField name [("serialize", "true")%string] true.
Definition untagged (name : string) : field := mkField name [] false.

Inductive typ :=
| TUint (w : width)
| TInt (w : width)
| TBool
| TString
| TPtr (t : typ)
| TInterface (i : nat)
| TSlice (t : typ)
| TArray (n : nat) (t : typ)
| TStruct (l : list (field * typ))
| TOther (kind : nat).

Inductive val :=
| VUint (w : width) (n : Z)
| VInt (w : width) (n : Z)
| VBool (b : bool)
| VString (s : list Z)
| VNilPtr (t : typ)
| VPtr (v : val)
| VNilInterface (i : nat)
| VInterface (i : nat) (rt : nat) (v : val)
| VSlice (t : typ) (l : list val)
| VArray (t : typ) (l : list val)
| VStruct (l : list (field * val))
| VOther (kind : nat).

Fixpoint typeof (v : val) : typ :=
  match v with
  | VUint w _ => TUint w
  | VInt w _ => TInt w
  | VBool _ => TBool
  | VString _ => TString
  | VNilPtr t => TPtr t
  | VPtr v => TPtr (typeof v)
  | VNilInterface i => TInterface i
  | VInterface i _ _ => TInterface i
  | VSlice t _ => TSlice t
  | VArray t l => TArray (length l) t
  | VStruct l => TStruct (map (λ '(f, x), (f, typeof x)) l)
  | VOther k => TOther k
  end.

(** [reflect.Zero] *)
Fixpoint zero (t : typ) : val :=
  match t with
  | TUint w => VUint w 0
  | TInt w => VInt w 0
  | TBool => VBool false
  | TString => VString []
  | TPtr t => VNilPtr t
  | TInterface i => VNilInterface i
  | TSlice t => VSlice t []
  | TArray n t => VArray t (replicate n (zero t))
  | TStruct l => VStruct (map (λ '(f, t), (f, zero t)) l)
  | TOther k => VOther k
  end.

(** [Kind() == reflect.Uint8] *)
Definition is_byte (t : typ) : bool := match t with TUint W8 => true | _ => false end.
(** [value.Bytes()] *)
Definition bytes_of (l : list val) : list Z :=
  omap (λ x, match x with VUint _ n => Some n | _ => None end) l.

(** ** Errors and the monad *)

Inductive cerr :=
| ErrMarshalNil | ErrUnmarshalNil | errNeedPointer | errRecursiveInterfaceTypes
| ErrMarshalZeroLength | ErrUnmarshalZeroLength | ErrMaxSliceLenExceeded
| ErrUnsupportedType | ErrUnexportedField | ErrDuplicateType
| ErrUnregisteredType | ErrUnknownTypeID | ErrDoesNotImplementInterface
| ErrCantPackVersion | ErrCantUnpackVersion | ErrUnmarshalTooBig | ErrExtraSpace
| errKeysNotSorted
| EPack (e : packer_err)
| EOutOfFuel.

Definition PM (A : Type) : Type := Packer → option (result cerr A * Packer).

#[export] Instance PM_ret : MRet PM := λ _ a p, Some (Ok a, p).
#[export] Instance PM_bind : MBind PM := λ _ _ f m p,
  match m p with
  | None => None
  | Some (Prelude.Err e, p) => Some (Prelude.Err e, p)
  | Some (Ok a, p) => f a p
  end.

Definition fail {A} (e : cerr) : PM A := λ p, Some (Prelude.Err e, p).

(** [p.PackX(...); return p.Err] *)
Definition pack (f : Packer → option Packer) : PM () := λ p,
  match f p with
  | None => None
  | Some p => Some (match Err p with Some e => Prelude.Err (EPack e) | None => Ok () end, p)
  end.

(** [x := p.UnpackX(); if p.Err != nil { return ... }] *)
Definition unpack {A} (f : Packer → A * Packer) : PM A := λ p,
  let '(a, p) := f p in
  Some (match Err p with Some e => Prelude.Err (EPack e) | None => Ok a end, p).

Definition offset : PM Z := λ p, Some (Ok (Offset p), p).

Definition MaxInt32 : Z := 2147483647.

(** ** The registry of linearCodec *)

Record linearCodec := mkLinearCodec {
  nextTypeID : Z;
  registeredTypes : BiMap Z nat;
}.

Definition NewCodec : linearCodec := mkLinearCodec 0 BiMap_New.

Definition SkipRegistrations (num : Z) (c : linearCodec) : linearCodec :=
  mkLinearCodec (wrapU 32 (nextTypeID c + wrapU 32 num)) (registeredTypes c).

Definition RegisterType (valType : nat) (c : linearCodec) : result cerr () * linearCodec :=
  if HasValue valType (registeredTypes c) then (Prelude.Err ErrDuplicateType, c)
  else (Ok (), mkLinearCodec (wrapU 32 (nextTypeID c + 1))
                 (BiMap_Put (nextTypeID c) valType (registeredTypes c)).2).

(** The registry is one-to-one and its numbers are 32-bit. *)
Definition registry_ok (c : linearCodec) : Prop :=
  bimap_wf (registeredTypes c) ∧ inU 32 (nextTypeID c) ∧
  ∀ k t, GetValue k (registeredTypes c) = Some t → inU 32 k.

Section codec.
Context (grow : nat → nat) (type_of : nat → typ) (implements : nat → nat → bool).
Context (tags : list string) (lc : linearCodec).

Definition PrefixSize (rt : nat) : Z := IntLen.

Definition PackPrefix (valueType : nat) : PM () :=
  match GetKey valueType (registeredTypes lc) with
  | None => fail ErrUnregisteredType
  | Some typeID => pack (PackInt grow typeID)
  end.

Definition UnpackPrefix (valueType : nat) : PM nat :=
  typeID ← unpack UnpackInt;
  match GetValue typeID (registeredTypes lc) with
  | None => fail ErrUnknownTypeID
  | Some implementingType =>
      if implements implementingType valueType then mret implementingType
      else fail ErrDoesNotImplementInterface
  end.

(** ** structFielder *)

Definition Tag_Get (tag : string) (f : field) : string :=
  default EmptyString ((λ r, r.2.2) <$> list_find (λ e, e.1 = tag) (f_Tag f)).

Definition captureField (f : field) : bool :=
  existsb (λ tag, bool_decide (Tag_Get tag f = "true"%string)) tags.

(** The indices of the serialized fields, as a mask. *)
Fixpoint GetSerializedFields (fs : list field) : result cerr (list bool) :=
  match fs with
  | [] => Ok []
  | f :: fs' =>
      if captureField f then
        if f_Exported f then cons true <$> GetSerializedFields fs'
        else Prelude.Err ErrUnexportedField
      else cons false <$> GetSerializedFields fs'
  end.

(** ** The loops

    over the elements of a slice or an array and the fields of a struct, with
    the recursive call as an argument. *)

Section loops.
Context (size_rec : val → result cerr (Z * bool)) (marshal_rec : val → PM ()).

Fixpoint size_elems (l : list val) (acc : Z) : result cerr Z :=
  match l with
  | [] => Ok acc
  | x :: l' => r ← size_rec x; size_elems l' (acc + r.1)%Z
  end.

Fixpoint size_fields (l : list (field * val)) (mask : list bool) (acc : Z) (constSize : bool)
    : result cerr (Z * bool) :=
  match l, mask with
  | (_, x) :: l', true :: mask' =>
      r ← size_rec x; size_fields l' mask' (acc + r.1)%Z (constSize && r.2)
  | _ :: l', _ :: mask' => size_fields l' mask' acc constSize
  | _, _ => Ok (acc, constSize)
  end.

Fixpoint marshal_slice (l : list val) : PM () :=
  match l with
  | [] => mret ()
  | x :: l' =>
      startOffset ← offset;
      marshal_rec x;;
      o ← offset;
      if bool_decide (startOffset = o) then fail ErrMarshalZeroLength else marshal_slice l'
  end.

Fixpoint marshal_array (l : list val) : PM () :=
  match l with
  | [] => mret ()
  | x :: l' => marshal_rec x;; marshal_array l'
  end.

Fixpoint marshal_fields (l : list (field * val)) (mask : list bool) : PM () :=
  match l, mask with
  | (_, x) :: l', true :: mask' => marshal_rec x;; marshal_fields l' mask'
  | _ :: l', _ :: mask' => marshal_fields l' mask'
  | _, _ => mret ()
  end.
End loops.

(** ** size

    With the size goes whether it is the same for all values of the type; in
    [Slice] and [Array] the first element's size is then multiplied. *)

Fixpoint size (v : val) (typeStack : list nat) : result cerr (Z * bool) :=
  match v with
  | VUint W8 _ | VInt W8 _ => Ok (ByteLen, true)
  | VUint W16 _ | VInt W16 _ => Ok (ShortLen, true)
  | VUint W32 _ | VInt W32 _ => Ok (IntLen, true)
  | VUint W64 _ | VInt W64 _ => Ok (LongLen, true)
  | VBool _ => Ok (ByteLen, true)
  | VString s => Ok (StringLen s, false)
  | VNilPtr _ => Prelude.Err ErrMarshalNil
  | VPtr v => size v typeStack
  | VNilInterface _ => Prelude.Err ErrMarshalNil
  | VInterface _ rt v =>
      if bool_decide (rt ∈ typeStack) then Prelude.Err errRecursiveInterfaceTypes
      else r ← size v (rt :: typeStack); Ok (PrefixSize rt + r.1, false)%Z
  | VSlice _ l =>
      match l with
      | [] => Ok (IntLen, false)
      | x :: l' =>
          r ← size x typeStack;
          if bool_decide (r.1 = 0)%Z then Prelude.Err ErrMarshalZeroLength
          else if r.2 : bool then Ok (IntLen + Z.of_nat (length l) * r.1, false)%Z
          else
            total ← size_elems (λ x, size x typeStack) l' r.1;
            Ok (IntLen + total, false)%Z
      end
  | VArray _ l =>
      match l with
      | [] => Ok (0%Z, true)
      | x :: l' =>
          r ← size x typeStack;
          if r.2 : bool then Ok (Z.of_nat (length l) * r.1, true)%Z
          else
            total ← size_elems (λ x, size x typeStack) l' r.1;
            Ok (total, false)
      end
  | VStruct l =>
      serializedFields ← GetSerializedFields (map fst l);
      size_fields (λ x, size x typeStack) l serializedFields 0%Z true
  | VOther _ => Prelude.Err ErrUnsupportedType
  end.

Definition Size (value : option val) : result cerr Z :=
  match value with
  | None => Prelude.Err ErrMarshalNil
  | Some v => fst <$> size v []
  end.

(** ** marshal *)

Definition marshal_uint (w : width) (n : Z) : PM () :=
  match w with
  | W8 => pack (PackByte grow n)
  | W16 => pack (PackShort grow n)
  | W32 => pack (PackInt grow n)
  | W64 => pack (PackLong grow n)
  end.

Fixpoint marshal (v : val) (typeStack : list nat) : PM () :=
  match v with
  | VUint w n => marshal_uint w n
  | VInt w n => marshal_uint w (wrapU (wbits w) n)
  | VString s => pack (PackStr grow s)
  | VBool b => pack (PackBool grow b)
  | VNilPtr _ => fail ErrMarshalNil
  | VPtr v => marshal v typeStack
  | VNilInterface _ => fail ErrMarshalNil
  | VInterface _ rt v =>
      if bool_decide (rt ∈ typeStack) then fail errRecursiveInterfaceTypes
      else
        PackPrefix rt;;
        marshal v (rt :: typeStack);;
        pack Some
  | VSlice t l =>
      let numElts := Z.of_nat (length l) in
      if bool_decide (MaxInt32 < numElts)%Z then fail ErrMaxSliceLenExceeded
      else
        pack (PackInt grow (wrapU 32 numElts));;
        if bool_decide (numElts = 0)%Z then mret ()
        else if is_byte t then pack (PackFixedBytes grow (bytes_of l))
        else marshal_slice (λ x, marshal x typeStack) l
  | VArray t l =>
      (* the test for a byte array asks for the kind of the array type itself,
         which is never Uint8 *)
      marshal_array (λ x, marshal x typeStack) l
  | VStruct l =>
      match GetSerializedFields (map fst l) with
      | Prelude.Err e => fail e
      | Ok serializedFields => marshal_fields (λ x, marshal x typeStack) l serializedFields
      end
  | VOther _ => fail ErrUnsupportedType
  end.

Definition MarshalInto (value : option val) : PM () :=
  match value with
  | None => fail ErrMarshalNil
  | Some v => marshal v []
  end.

(** ** unmarshal

    into [dest], a value of type [t]; the result is the new value.  [fuel]
    bounds the nesting of interface values, the only recursion that does not
    follow the type; [UnmarshalFrom] starts with the number of registered
    types, which [unmarshal_enough_fuel] shows is enough. *)

Section unmarshal_loops.
Context (unmarshal_elem : PM val) (unmarshal_rec : val → PM val).

Fixpoint unmarshal_slice (numElts : nat) : PM (list val) :=
  match numElts with
  | O => mret []
  | S n =>
      startOffset ← offset;
      x ← unmarshal_elem;
      o ← offset;
      if bool_decide (startOffset = o) then fail ErrUnmarshalZeroLength
      else xs ← unmarshal_slice n; mret (x :: xs)
  end.

Fixpoint unmarshal_array (dests : list val) : PM (list val) :=
  match dests with
  | [] => mret []
  | d :: ds => x ← unmarshal_rec d; xs ← unmarshal_array ds; mret (x :: xs)
  end.
End unmarshal_loops.

Section unmarshal_fields.
Context (unmarshal_rec : typ → val → PM val).

Fixpoint unmarshal_fields (l : list (field * typ)) (dests : list (field * val))
    (mask : list bool) : PM (list (field * val)) :=
  match l, dests, mask with
  | (_, t) :: l', (f, d) :: ds, b :: mask' =>
      x ← (if b : bool then unmarshal_rec t d else mret d);
      xs ← unmarshal_fields l' ds mask';
      mret ((f, x) :: xs)
  | _, _, _ => mret []
  end.
End unmarshal_fields.

Definition unmarshal_uint (w : width) : PM Z :=
  match w with
  | W8 => unpack UnpackByte
  | W16 => unpack UnpackShort
  | W32 => unpack UnpackInt
  | W64 => unpack UnpackLong
  end.

Definition elems_of (v : val) : list val := match v with VArray _ l => l | _ => [] end.
Definition fields_of (v : val) : list (field * val) :=
  match v with VStruct l => l | _ => [] end.

Fixpoint unmarshal (fuel : nat) : typ → val → list nat → PM val :=
  fix go (t : typ) (dest : val) (typeStack : list nat) {struct t} : PM val :=
    match t with
    | TUint w => n ← unmarshal_uint w; mret (VUint w n)
    | TInt w => n ← unmarshal_uint w; mret (VInt w (wrapS (wbits w) n))
    | TBool => b ← unpack UnpackBool; mret (VBool b)
    | TSlice t =>
        numElts ← unpack UnpackInt;
        if bool_decide (MaxInt32 < numElts)%Z then fail ErrMaxSliceLenExceeded
        else if is_byte t then
          bs ← unpack (UnpackFixedBytes numElts); mret (VSlice t (VUint W8 <$> bs))
        else
          l ← unmarshal_slice (go t (zero t) typeStack) (Z.to_nat numElts);
          mret (VSlice t l)
    | TArray n t =>
        if is_byte t then
          bs ← unpack (UnpackFixedBytes (Z.of_nat n)); mret (VArray t (VUint W8 <$> bs))
        else
          l ← unmarshal_array (λ d, go t d typeStack) (elems_of dest);
          mret (VArray t l)
    | TString => s ← unpack UnpackStr; mret (VString s)
    | TInterface i =>
        rt ← UnpackPrefix i;
        if bool_decide (rt ∈ typeStack) then fail errRecursiveInterfaceTypes
        else
          match fuel with
          | O => fail EOutOfFuel
          | S fuel' =>
              v ← unmarshal fuel' (type_of rt) (zero (type_of rt)) (rt :: typeStack);
              mret (VInterface i rt v)
          end
    | TStruct l =>
        match GetSerializedFields (map fst l) with
        | Prelude.Err e => fail e
        | Ok mask =>
            xs ← unmarshal_fields (λ t d, go t d typeStack) l (fields_of dest) mask;
            mret (VStruct xs)
        end
    | TPtr t => v ← go t (zero t) typeStack; mret (VPtr v)
    | TOther _ => fail ErrUnsupportedType
    end.

(** The value [dest] points to, after the call. *)
Definition UnmarshalFrom (dest : option val) : PM val :=
  match dest with
  | None => fail ErrUnmarshalNil
  | Some (VPtr v) => unmarshal (BiMap_Len (registeredTypes lc)) (typeof v) v []
  | Some (VNilPtr _) => fail ErrUnsupportedType
  | Some _ => fail errNeedPointer
  end.

(** ** manager *)

Definition initialSliceCap : nat := 128.

Definition manager_Size (value : option val) : result cerr Z :=
  match value with
  | None => Prelude.Err ErrMarshalNil
  | Some _ => (λ res, ShortLen + res)%Z <$> Size value
  end.

(** [return p.Bytes, m.codec.MarshalInto(value, &p)]: [p.Bytes] is read after the
    call. *)
Definition Marshal (maxSize : Z) (value : option val) : option (result cerr (list Z)) :=
  match value with
  | None => Some (Prelude.Err ErrMarshalNil)
  | Some _ =>
      match PackShort grow 0 (mkPacker None maxSize [] (replicate initialSliceCap 0%Z) 0) with
      | None => None
      | Some p =>
          if Errored p then Some (Prelude.Err ErrCantPackVersion)
          else
            match MarshalInto value p with
            | None => None
            | Some (Ok _, p) => Some (Ok (Bytes p))
            | Some (Prelude.Err e, _) => Some (Prelude.Err e)
            end
      end
  end.

Definition Unmarshal (maxSize : Z) (bytes : list Z) (dest : option val)
    : option (result cerr val) :=
  match dest with
  | None => Some (Prelude.Err ErrUnmarshalNil)
  | Some _ =>
      if bool_decide (maxSize < Z.of_nat (length bytes))%Z
      then Some (Prelude.Err ErrUnmarshalTooBig)
      else
        let '(_, p) := UnpackShort (mkPacker None 0 bytes [] 0) in
        if Errored p then Some (Prelude.Err ErrCantUnpackVersion)
        else
          match UnmarshalFrom dest p with
          | None => None
          | Some (Prelude.Err e, _) => Some (Prelude.Err e)
          | Some (Ok v, p) =>
              if bool_decide (Offset p ≠ Z.of_nat (length bytes))
              then Some (Prelude.Err ErrExtraSpace)
              else Some (Ok v)
          end
  end.

(** ** Specification

    The bytes of a value, the values that can be encoded, and the value that
    decoding gives back. *)

Definition typeID (rt : nat) : Z := default 0%Z (GetKey rt (registeredTypes lc)).

Fixpoint enc (v : val) : list Z :=
  match v with
  | VUint w n => be_encode (wlen w) n
  | VInt w n => be_encode (wlen w) (wrapU (wbits w) n)
  | VBool b => [if b then 1%Z else 0%Z]
  | VString s => be_encode 2 (Z.of_nat (length s)) ++ s
  | VPtr v => enc v
  | VInterface _ rt v => be_encode 4 (typeID rt) ++ enc v
  | VSlice _ l => be_encode 4 (Z.of_nat (length l)) ++ concat (map enc l)
  | VArray _ l => concat (map enc l)
  | VStruct l => concat (map (λ '(f, x), if captureField f then enc x else []) l)
  | VNilPtr _ | VNilInterface _ | VOther _ => []
  end.

(** A captured field that is not exported makes the whole struct fail. *)
Definition fields_ok (fs : list field) : bool :=
  forallb (λ f, implb (captureField f) (f_Exported f)) fs.

Fixpoint encodable (st : list nat) (v : val) : bool :=
  match v with
  | VUint _ _ | VInt _ _ | VBool _ => true
  | VString s => bool_decide (Z.of_nat (length s) ≤ MaxStringLen)%Z
  | VNilPtr _ | VNilInterface _ | VOther _ => false
  | VPtr v => encodable st v
  | VInterface _ rt v =>
      bool_decide (rt ∉ st) && HasValue rt (registeredTypes lc) && encodable (rt :: st) v
  | VSlice t l =>
      bool_decide (Z.of_nat (length l) ≤ MaxInt32)%Z &&
      forallb (λ x, encodable st x && bool_decide (enc x ≠ [])) l
  | VArray t l => forallb (encodable st) l
  | VStruct l =>
      fields_ok (map fst l) &&
      forallb (λ '(f, x), implb (captureField f) (encodable st x)) l
  end.

(** Decoding [v]'s bytes into [dest]: fields that are not serialized stay as they
    are in [dest]. *)
Section refill_loops.
Context (refill_rec : val → val → val).

Fixpoint refill_elems (l ds : list val) : list val :=
  match l, ds with
  | x :: l', d :: ds' => refill_rec x d :: refill_elems l' ds'
  | _, _ => []
  end.

Fixpoint refill_fields (l ds : list (field * val)) : list (field * val) :=
  match l, ds with
  | (_, x) :: l', (f, d) :: ds' =>
      (f, if captureField f then refill_rec x d else d) :: refill_fields l' ds'
  | _, _ => []
  end.
End refill_loops.

Fixpoint refill (v dest : val) : val :=
  match v with
  | VPtr v => VPtr (refill v (zero (typeof v)))
  | VInterface i rt v => VInterface i rt (refill v (zero (type_of rt)))
  | VSlice t l => VSlice t (map (λ x, refill x (zero t)) l)
  | VArray t l => VArray t (refill_elems (λ x d, refill x d) l (elems_of dest))
  | VStruct l => VStruct (refill_fields (λ x d, refill x d) l (fields_of dest))
  | _ => v
  end.

(** Values Go's types allow; the type of an interface's value implements it. *)
Inductive val_ok : val → Prop :=
| ok_uint w n : inU (wbits w) n → val_ok (VUint w n)
| ok_int w n : inS (wbits w) n → val_ok (VInt w n)
| ok_bool b : val_ok (VBool b)
| ok_string s : bytes_ok s → val_ok (VString s)
| ok_nilptr t : val_ok (VNilPtr t)
| ok_ptr v : val_ok v → val_ok (VPtr v)
| ok_niliface i : val_ok (VNilInterface i)
| ok_iface i rt v :
    typeof v = type_of rt → implements rt i = true → val_ok v → val_ok (VInterface i rt v)
| ok_slice t l : Forall (λ x, typeof x = t) l → Forall val_ok l → val_ok (VSlice t l)
| ok_array t l : Forall (λ x, typeof x = t) l → Forall val_ok l → val_ok (VArray t l)
| ok_struct l : Forall (λ e, val_ok e.2) l → val_ok (VStruct l)
| ok_other k : val_ok (VOther k).

(** The nesting of interface values. *)
Fixpoint depth (v : val) : nat :=
  match v with
  | VPtr v => depth v
  | VInterface _ _ v => S (depth v)
  | VSlice _ l | VArray _ l => foldr Nat.max 0 (map depth l)
  | VStruct l => foldr Nat.max 0 (map (λ '(f, x), if captureField f then depth x else 0) l)
  | _ => 0
  end.

(** Induction over types and values, through their lists. *)
Lemma typ_ind' (P : typ → Prop) :
  (∀ w, P (TUint w)) → (∀ w, P (TInt w)) → P TBool → P TString →
  (∀ t, P t → P (TPtr t)) → (∀ i, P (TInterface i)) → (∀ t, P t → P (TSlice t)) →
  (∀ n t, P t → P (TArray n t)) → (∀ l, Forall (λ e, P e.2) l → P (TStruct l)) →
  (∀ k, P (TOther k)) → ∀ t, P t.
Proof.
  intros H1 H2 H3 H4 H5 H6 H7 H8 H9 H10. fix IH 1.
  intros [w|w| | |t|i|t|n t|l|k];
    [apply H1|apply H2|apply H3|apply H4|apply H5, IH|apply H6|apply H7, IH|apply H8, IH| |apply H10].
  apply H9. induction l as [|[f t] l IHl]; constructor; [apply IH|apply IHl].
Qed.

Lemma val_ind' (P : val → Prop) :
  (∀ w n, P (VUint w n)) → (∀ w n, P (VInt w n)) → (∀ b, P (VBool b)) →
  (∀ s, P (VString s)) → (∀ t, P (VNilPtr t)) → (∀ v, P v → P (VPtr v)) →
  (∀ i, P (VNilInterface i)) → (∀ i rt v, P v → P (VInterface i rt v)) →
  (∀ t l, Forall P l → P (VSlice t l)) → (∀ t l, Forall P l → P (VArray t l)) →
  (∀ l, Forall (λ e, P e.2) l → P (VStruct l)) → (∀ k, P (VOther k)) → ∀ v, P v.
Proof.
  intros H1 H2 H3 H4 H5 H6 H7 H8 H9 H10 H11 H12. fix IH 1.
  intros [w n|w n|b|s|t|v|i|i rt v|t l|t l|l|k];
    [apply H1|apply H2|apply H3|apply H4|apply H5|apply H6, IH|apply H7|apply H8, IH| | | |apply H12].
  - apply H9. induction l as [|x l IHl]; constructor; [apply IH|apply IHl].
  - apply H10. induction l as [|x l IHl]; constructor; [apply IH|apply IHl].
  - apply H11. induction l as [|[f x] l IHl]; constructor; [apply IH|apply IHl].
Qed.

Lemma typeof_zero t : typeof (zero t) = t.
Proof.
  induction t as [| | | | | | |n t IH|l IH|] using typ_ind'; simpl; try done.
  - by rewrite length_replicate.
  - f_equal. induction IH as [|[f t] l Ht _ IHl]; simpl in *; congruence.
Qed.

Lemma val_ok_zero t : val_ok (zero t).
Proof.
  induction t as [w|w| | | | | |n t IH|l IH|] using typ_ind'; simpl;
    try (constructor; by repeat constructor).
  - constructor. by destruct w.
  - constructor. by destruct w.
  - constructor; apply Forall_forall; intros x ->%elem_of_replicate_inv;
      [apply typeof_zero|done].
  - constructor. induction IH as [|[f t] l Ht _ IHl]; constructor; auto.
Qed.

Lemma GetSerializedFields_spec fs :
  GetSerializedFields fs = if fields_ok fs then Ok (map captureField fs)
                           else Prelude.Err ErrUnexportedField.
Proof.
  induction fs as [|f fs IH]; simpl; [done|]. rewrite IH.
  destruct (captureField f), (f_Exported f), (fields_ok fs); done.
Qed.

(** ** Writing *)

(** [m] writes [bs] when [good] holds and they fit the packer, and fails
    otherwise. *)
Definition marshals (m : PM ()) (bs : list Z) (good : bool) : Prop :=
  ∀ p, packer_wf p → ∃ r p', m p = Some (r, p') ∧
    if good && bool_decide (Offset p + Z.of_nat (length bs) ≤ limit p)%Z
    then r = Ok () ∧ wrote p p' bs else ∃ e, r = Prelude.Err e.

Lemma marshals_item i :
  item_ok i → marshals (pack (pack_item grow i)) (item_bytes i) (item_fits i).
Proof.
  intros Hok p Hwf. destruct (pack_item_spec grow i p Hwf Hok) as (p' & Hp & Hr).
  unfold pack. rewrite Hp. do 2 eexists. split; [done|]. unfold pack_result in Hr.
  destruct (item_fits i && _).
  - pose proof Hr as ([He _] & _). by rewrite He.
  - destruct Hr as [e ->]. eauto.
Qed.

Lemma marshals_ret : marshals (mret ()) [] true.
Proof.
  intros p Hwf. do 2 eexists. split; [done|]. simpl. pose proof Hwf as [_ Ho].
  rewrite bool_decide_eq_true_2 by (unfold limit; lia). split; [done|by apply wrote_nil].
Qed.

Lemma marshals_fail e bs : marshals (fail e) bs false.
Proof. intros p _. do 2 eexists. split; [done|]. simpl. eauto. Qed.

Lemma marshals_bind m1 (m2 : () → PM ()) bs1 bs2 g1 g2 :
  marshals m1 bs1 g1 → marshals (m2 ()) bs2 g2 → marshals (m1 ≫= m2) (bs1 ++ bs2) (g1 && g2).
Proof.
  intros H1 H2 p Hwf. destruct (H1 p Hwf) as (r1 & p1 & Hm1 & Hr1).
  unfold mbind, PM_bind. rewrite Hm1, length_app, Nat2Z.inj_add, Z.add_assoc.
  destruct (decide (Offset p + Z.of_nat (length bs1) ≤ limit p)%Z) as [Hf|Hf].
  - rewrite (bool_decide_eq_true_2 _ Hf), andb_true_r in Hr1. destruct g1; simpl.
    + destruct Hr1 as [-> Hw]. pose proof Hw as (Hwf1 & _ & Ho1 & _).
      destruct (H2 p1 Hwf1) as (r2 & p2 & Hm2 & Hr2). rewrite Hm2.
      rewrite (wrote_limit _ _ _ Hw), Ho1 in Hr2. do 2 eexists. split; [done|].
      destruct (g2 && _); [|done]. destruct Hr2 as [-> Hw2].
      split; [done|]. by eapply wrote_trans.
    + destruct Hr1 as [e ->]. do 2 eexists. split; [done|]. eauto.
  - rewrite (bool_decide_eq_false_2 _ Hf), andb_false_r in Hr1. destruct Hr1 as [e ->].
    do 2 eexists. split; [done|]. rewrite (bool_decide_eq_false_2 (_ ≤ _)%Z) by lia.
    rewrite andb_false_r. eauto.
Qed.

(** An element of a slice must not be empty. *)
Lemma marshals_nonempty m1 m2 bs1 bs2 g1 g2 :
  marshals m1 bs1 g1 → marshals m2 bs2 g2 →
  marshals (startOffset ← offset; m1;; o ← offset;
            if bool_decide (startOffset = o) then fail ErrMarshalZeroLength else m2)
    (bs1 ++ bs2) ((g1 && bool_decide (bs1 ≠ [])) && g2).
Proof.
  intros H1 H2 p Hwf.
  assert (marshals (m1;; if bool_decide (bs1 ≠ []) then m2 else fail ErrMarshalZeroLength)
    (bs1 ++ bs2) ((g1 && bool_decide (bs1 ≠ [])) && g2)) as H.
  { rewrite <-andb_assoc. apply marshals_bind; [done|].
    case_bool_decide; [done|apply marshals_fail]. }
  destruct (H p Hwf) as (r & p' & Hm & Hr). exists r, p'. split; [|done].
  destruct (H1 p Hwf) as (r1 & p1 & Hm1 & Hr1).
  unfold mbind, PM_bind, offset in *. rewrite Hm1 in *.
  destruct r1 as [[]|]; [|done].
  destruct (g1 && bool_decide (Offset p + Z.of_nat (length bs1) ≤ limit p)%Z);
    [|by destruct Hr1]. destruct Hr1 as [_ (_ & _ & Ho & _)].
  rewrite <-Hm. rewrite Ho. destruct bs1; simpl.
  - rewrite bool_decide_eq_true_2 by lia. done.
  - rewrite bool_decide_eq_false_2 by lia. done.
Qed.

Lemma marshals_PackPrefix rt :
  registry_ok lc →
  marshals (PackPrefix rt) (be_encode 4 (typeID rt)) (HasValue rt (registeredTypes lc)).
Proof.
  intros (Hwf & _ & Hr). unfold PackPrefix, HasValue, typeID, GetKey.
  destruct (valueToKey (registeredTypes lc) !! rt) as [k|] eqn:E; simpl.
  - apply (marshals_item (IInt k)). eapply Hr. by apply Hwf.
  - apply marshals_fail.
Qed.

Lemma marshals_uint w n :
  inU (wbits w) n → marshals (marshal_uint w n) (be_encode (wlen w) n) true.
Proof.
  intros Hn. destruct w; cbn [wlen marshal_uint].
  - assert (be_encode 1 n = [n]) as ->
      by (simpl; rewrite Z.div_1_r, Z.mod_small by exact Hn; done).
    by apply (marshals_item (IByte n)).
  - by apply (marshals_item (IShort n)).
  - by apply (marshals_item (IInt n)).
  - by apply (marshals_item (ILong n)).
Qed.

Lemma marshals_array f g l :
  Forall (λ x, marshals (f x) (enc x) (g x)) l →
  marshals (marshal_array f l) (concat (map enc l)) (forallb g l).
Proof. induction 1; simpl; [apply marshals_ret|]. by apply marshals_bind. Qed.

Lemma marshals_slice f g l :
  Forall (λ x, marshals (f x) (enc x) (g x)) l →
  marshals (marshal_slice f l) (concat (map enc l))
    (forallb (λ x, g x && bool_decide (enc x ≠ [])) l).
Proof. induction 1; simpl; [apply marshals_ret|]. by apply marshals_nonempty. Qed.

Lemma marshals_fields f g l :
  Forall (λ e, marshals (f e.2) (enc e.2) (g e.2)) l →
  marshals (marshal_fields f l (map captureField (map fst l)))
    (concat (map (λ '(f, x), if captureField f then enc x else []) l))
    (forallb (λ '(f, x), implb (captureField f) (g x)) l).
Proof.
  induction 1 as [|[fd x] l Hx _ IH]; simpl; [apply marshals_ret|].
  destruct (captureField fd); simpl in *; [|done]. by apply marshals_bind.
Qed.

(** The elements of a byte slice. *)
Lemma byte_elems l :
  Forall (λ x, typeof x = TUint W8) l → Forall val_ok l →
  l = VUint W8 <$> bytes_of l ∧ bytes_ok (bytes_of l).
Proof.
  induction l as [|x l IH]; intros Ht Hv; [by repeat constructor|].
  apply Forall_cons in Ht as [Ht Hts]. apply Forall_cons in Hv as [Hv Hvs].
  destruct (IH Hts Hvs) as [He Hb]. destruct x; try done. simpl in Ht. injection Ht as ->.
  inversion Hv; subst. unfold bytes_of in *. csimpl. split; [by f_equal|by constructor].
Qed.

Lemma enc_bytes bs : bytes_ok bs → concat (map enc (VUint W8 <$> bs)) = bs.
Proof.
  induction 1 as [|b bs Hb _ IH]; [done|]. csimpl. rewrite IH. simpl.
  by rewrite Z.div_1_r, Z.mod_small by exact Hb.
Qed.

Lemma is_byte_inv t : is_byte t = true → t = TUint W8.
Proof. by destruct t as [[]| | | | | | | | |]. Qed.

Lemma encodable_bytes st bs :
  forallb (λ x, encodable st x && bool_decide (enc x ≠ [])) (VUint W8 <$> bs) = true.
Proof. induction bs; csimpl; [done|]. by rewrite IHbs. Qed.

(** What [marshal] does: it writes the value's bytes when it can be encoded and
    the bytes fit, and returns an error otherwise. *)
Lemma marshal_spec v :
  registry_ok lc → val_ok v →
  ∀ st, marshals (marshal v st) (enc v) (encodable st v).
Proof.
  intros Hreg. induction v as [w n|w n|b|s|t|v IH|i|i rt v IH|t l IH|t l IH|l IH|k] using val_ind';
    intros Hok st; inversion Hok; subst; cbn [marshal enc encodable];
    try apply marshals_fail; auto.
  - by apply marshals_uint.
  - apply marshals_uint. apply wrapU_range. by destruct w.
  - by apply (marshals_item (IBool b)).
  - by apply (marshals_item (IStr s)).
  - case_bool_decide as Hin;
      [rewrite bool_decide_eq_false_2 by naive_solver; apply marshals_fail|].
    rewrite bool_decide_eq_true_2 by done. rewrite andb_true_l.
    rewrite <-(app_nil_r (enc v)), <-(andb_true_r (encodable (rt :: st) v)).
    apply marshals_bind; [by apply marshals_PackPrefix|]. apply marshals_bind; [by apply IH|].
    intros p Hwf. destruct (marshals_ret p Hwf) as (r & p' & [= <- <-] & Hr).
    unfold pack. rewrite (proj1 Hwf). eauto.
  - case_bool_decide as Hn; [rewrite bool_decide_eq_false_2 by lia; apply marshals_fail|].
    rewrite (bool_decide_eq_true_2 (_ ≤ _)%Z) by lia.
    rewrite wrapU_id by (unfold inU, MaxInt32 in *; lia).
    apply (marshals_bind _ _ _ _ true); [apply (marshals_item (IInt _))|].
    { cbn [item_ok]. unfold inU, MaxInt32 in *. lia. }
    destruct l as [|x l0] eqn:El; [apply marshals_ret|]. rewrite <-El in *.
    rewrite bool_decide_eq_false_2 by (subst l; simpl; lia). clear El.
    destruct (is_byte t) eqn:Eb.
    + apply is_byte_inv in Eb as ->. destruct (byte_elems l) as [He Hb]; [done..|].
      rewrite He at 2 3. rewrite enc_bytes, encodable_bytes by done.
      by apply (marshals_item (IFixed _)).
    + apply marshals_slice. eapply Forall_impl; [apply Forall_and; split; [exact IH|eassumption]|].
      naive_solver.
  - apply marshals_array. eapply Forall_impl; [apply Forall_and; split; [exact IH|eassumption]|].
    naive_solver.
  - rewrite GetSerializedFields_spec. destruct (fields_ok (map fst l)); [|apply marshals_fail].
    apply marshals_fields. eapply Forall_impl; [apply Forall_and; split; [exact IH|eassumption]|].
    naive_solver.
Qed.

(** ** Reading what was written *)

Definition unmarshals {A} (m : PM A) (bs : list Z) (a : A) : Prop :=
  ∀ p, packer_wf p → reads p bs → m p = Some (Ok a, seek (Offset p + Z.of_nat (length bs)) p).

Lemma unmarshals_ret {A} (a : A) : unmarshals (mret a) [] a.
Proof.
  intros p _ _. unfold mret, PM_ret, seek. simpl. rewrite Z.add_0_r. by destruct p.
Qed.

Lemma unmarshals_bind {A B} (m : PM A) (f : A → PM B) bs1 bs2 a b :
  unmarshals m bs1 a → unmarshals (f a) bs2 b → unmarshals (m ≫= f) (bs1 ++ bs2) b.
Proof.
  intros H1 H2 p Hwf Hr. destruct (reads_app_2 _ _ _ Hwf Hr) as [Hr2 Hwf2].
  apply reads_app_1 in Hr. unfold mbind, PM_bind. rewrite (H1 p Hwf Hr), (H2 _ Hwf2 Hr2).
  by rewrite seek_seek, length_app, Nat2Z.inj_add, Z.add_assoc.
Qed.

Lemma unmarshals_map {A B} (m : PM A) (f : A → B) bs a :
  unmarshals m bs a → unmarshals (m ≫= λ x, mret (f x)) bs (f a).
Proof.
  intros H. rewrite <-(app_nil_r bs). eapply unmarshals_bind; [done|apply unmarshals_ret].
Qed.

Lemma unmarshals_unpack {A} (f : Packer → A * Packer) (wrap : A → item) i a :
  (∀ p, unpack_item i p = (wrap (f p).1, (f p).2)) → (∀ x, wrap x = i → x = a) →
  item_ok i → item_fits i = true → unmarshals (unpack f) (item_bytes i) a.
Proof.
  intros Hf Hwrap Hok Hfit p Hwf Hr.
  pose proof (unpack_item_spec i p Hwf Hok Hfit Hr) as Hu. rewrite Hf in Hu.
  unfold unpack. destruct (f p) as [x p']. simpl in Hu. injection Hu as Hi ->.
  apply Hwrap in Hi as ->. simpl. by rewrite (proj1 Hwf).
Qed.

Lemma unmarshals_uint w n :
  inU (wbits w) n → unmarshals (unmarshal_uint w) (be_encode (wlen w) n) n.
Proof.
  intros Hn. destruct w; cbn [unmarshal_uint wlen].
  - assert (be_encode 1 n = [n]) as ->
      by (simpl; rewrite Z.div_1_r, Z.mod_small by exact Hn; done).
    apply (unmarshals_unpack _ IByte (IByte n)); try done; [|by intros x [= ->]].
    intros p. simpl. by destruct (UnpackByte p).
  - apply (unmarshals_unpack _ IShort (IShort n)); try done; [|by intros x [= ->]].
    intros p. simpl. by destruct (UnpackShort p).
  - apply (unmarshals_unpack _ IInt (IInt n)); try done; [|by intros x [= ->]].
    intros p. simpl. by destruct (UnpackInt p).
  - apply (unmarshals_unpack _ ILong (ILong n)); try done; [|by intros x [= ->]].
    intros p. simpl. by destruct (UnpackLong p).
Qed.

Lemma unmarshals_int n : inU 32 n → unmarshals (unpack UnpackInt) (be_encode 4 n) n.
Proof. apply (unmarshals_uint W32). Qed.

Lemma unmarshals_fixed bs :
  bytes_ok bs → unmarshals (unpack (UnpackFixedBytes (Z.of_nat (length bs)))) bs bs.
Proof.
  intros Hb. apply (unmarshals_unpack _ IFixed (IFixed bs)); try done; [|by intros x [= ->]].
  intros p. simpl. by destruct (UnpackFixedBytes (Z.of_nat (length bs)) p).
Qed.

Lemma unmarshals_str s :
  bytes_ok s → (Z.of_nat (length s) ≤ MaxStringLen)%Z →
  unmarshals (unpack UnpackStr) (be_encode 2 (Z.of_nat (length s)) ++ s) s.
Proof.
  intros Hb Hl. apply (unmarshals_unpack _ IStr (IStr s)); try done.
  - intros p. simpl. by destruct (UnpackStr p).
  - by intros x [= ->].
  - simpl. by rewrite bool_decide_eq_true_2.
Qed.

Lemma unmarshals_bool (b : bool) : unmarshals (unpack UnpackBool) [if b then 1%Z else 0%Z] b.
Proof.
  apply (unmarshals_unpack _ IBool (IBool b)); try done; [|by intros x [= ->]].
  intros p. simpl. by destruct (UnpackBool p).
Qed.

Lemma unmarshals_UnpackPrefix i rt :
  registry_ok lc → HasValue rt (registeredTypes lc) = true → implements rt i = true →
  unmarshals (UnpackPrefix i) (be_encode 4 (typeID rt)) rt.
Proof.
  intros (Hwf & _ & Hr) [k Hk]%bool_decide_eq_true Hi. unfold typeID, GetKey. rewrite Hk.
  apply Hwf in Hk. change (default 0%Z (Some k)) with k. rewrite <-(app_nil_r (be_encode 4 k)).
  eapply unmarshals_bind; [apply unmarshals_int; by eapply Hr|].
  unfold GetValue. rewrite Hk, Hi. apply unmarshals_ret.
Qed.

(** The equation of [unmarshal], whatever the fuel. *)
Lemma unmarshal_eq fuel t dest st :
  unmarshal fuel t dest st =
    match t with
    | TUint w => n ← unmarshal_uint w; mret (VUint w n)
    | TInt w => n ← unmarshal_uint w; mret (VInt w (wrapS (wbits w) n))
    | TBool => b ← unpack UnpackBool; mret (VBool b)
    | TSlice t =>
        numElts ← unpack UnpackInt;
        if bool_decide (MaxInt32 < numElts)%Z then fail ErrMaxSliceLenExceeded
        else if is_byte t then
          bs ← unpack (UnpackFixedBytes numElts); mret (VSlice t (VUint W8 <$> bs))
        else
          l ← unmarshal_slice (unmarshal fuel t (zero t) st) (Z.to_nat numElts);
          mret (VSlice t l)
    | TArray n t =>
        if is_byte t then
          bs ← unpack (UnpackFixedBytes (Z.of_nat n)); mret (VArray t (VUint W8 <$> bs))
        else
          l ← unmarshal_array (λ d, unmarshal fuel t d st) (elems_of dest);
          mret (VArray t l)
    | TString => s ← unpack UnpackStr; mret (VString s)
    | TInterface i =>
        rt ← UnpackPrefix i;
        if bool_decide (rt ∈ st) then fail errRecursiveInterfaceTypes
        else
          match fuel with
          | O => fail EOutOfFuel
          | S fuel' =>
              v ← unmarshal fuel' (type_of rt) (zero (type_of rt)) (rt :: st);
              mret (VInterface i rt v)
          end
    | TStruct l =>
        match GetSerializedFields (map fst l) with
        | Prelude.Err e => fail e
        | Ok mask =>
            xs ← unmarshal_fields (λ t d, unmarshal fuel t d st) l (fields_of dest) mask;
            mret (VStruct xs)
        end
    | TPtr t => v ← unmarshal fuel t (zero t) st; mret (VPtr v)
    | TOther _ => fail ErrUnsupportedType
    end.
Proof. by destruct fuel, t. Qed.

Lemma unmarshals_nonempty {A} (m : PM val) (k : val → PM A) bs1 bs2 a b :
  unmarshals m bs1 a → bs1 ≠ [] → unmarshals (k a) bs2 b →
  unmarshals (s ← offset; x ← m; o ← offset;
              if bool_decide (s = o) then fail ErrUnmarshalZeroLength else k x) (bs1 ++ bs2) b.
Proof.
  intros H1 Hne H2 p Hwf Hr. rewrite <-(unmarshals_bind m k bs1 bs2 a b H1 H2 p Hwf Hr).
  apply reads_app_1 in Hr. unfold mbind, PM_bind, offset. rewrite (H1 p Hwf Hr).
  rewrite bool_decide_eq_false_2; [done|]. simpl. destruct bs1; [done|]. simpl. lia.
Qed.

Lemma unmarshals_slice m (g : val → val) l :
  Forall (λ x, unmarshals m (enc x) (g x) ∧ enc x ≠ []) l →
  unmarshals (unmarshal_slice m (length l)) (concat (map enc l)) (map g l).
Proof.
  induction 1 as [|x l [Hx Hne] _ IH]; simpl; [apply unmarshals_ret|].
  eapply (unmarshals_nonempty m (λ x, xs ← unmarshal_slice m (length l); mret (x :: xs)));
    [done..|]. by apply (unmarshals_map _ (cons (g x))).
Qed.

Lemma unmarshals_array f g l ds :
  Forall2 (λ x d, unmarshals (f d) (enc x) (g x d)) l ds →
  unmarshals (unmarshal_array f ds) (concat (map enc l)) (refill_elems g l ds).
Proof.
  induction 1 as [|x d l ds Hx _ IH]; simpl; [apply unmarshals_ret|].
  eapply unmarshals_bind; [done|]. by apply (unmarshals_map _ (cons (g x d))).
Qed.

Lemma unmarshals_fields f g l ds :
  Forall2 (λ a b, a.1 = b.1 ∧ (captureField a.1 = true →
    unmarshals (f (typeof a.2) b.2) (enc a.2) (g a.2 b.2))) l ds →
  unmarshals (unmarshal_fields f (map (λ '(f, x), (f, typeof x)) l) ds
                (map captureField (map fst l)))
    (concat (map (λ '(f, x), if captureField f then enc x else []) l))
    (refill_fields g l ds).
Proof.
  induction 1 as [|[fd x] [fd' d] l ds [Hf Hx] _ IH]; simpl in *; [apply unmarshals_ret|].
  subst fd'. destruct (captureField fd) eqn:E.
  - eapply unmarshals_bind; [by apply Hx|]. by apply (unmarshals_map _ (cons (fd, g x d))).
  - apply (unmarshals_bind _ _ [] _ d); [apply unmarshals_ret|].
    by apply (unmarshals_map _ (cons (fd, d))).
Qed.

Lemma depth_le {A} (f : A → nat) l n :
  foldr Nat.max 0 (map f l) ≤ n ↔ Forall (λ x, f x ≤ n) l.
Proof.
  induction l as [|x l IH]; simpl; [split; [constructor|lia]|].
  rewrite Nat.max_lub_iff, Forall_cons, IH. done.
Qed.

(** The parts of a destination of the type of an array or a struct. *)
Lemma array_dest dest n t :
  val_ok dest → typeof dest = TArray n t →
  length (elems_of dest) = n ∧ Forall (λ d, val_ok d ∧ typeof d = t) (elems_of dest).
Proof.
  intros Hok. destruct dest; simpl; try done. intros [= <- <-]. inversion Hok; subst.
  split; [done|]. apply Forall_and. done.
Qed.

Lemma struct_dest dest l :
  val_ok dest → typeof dest = TStruct (map (λ '(f, x), (f, typeof x)) l) →
  Forall2 (λ a b, a.1 = b.1 ∧ val_ok b.2 ∧ typeof b.2 = typeof a.2) l (fields_of dest).
Proof.
  intros Hok. destruct dest as [| | | | | | | | | |ds|]; simpl; try done.
  inversion Hok as [| | | | | | | | | |? Hds|]; subst. clear Hok. intros [= Heq].
  revert l Heq. induction Hds as [|[f d] ds Hd _ IH]; intros [|[f' x] l]; simpl;
    try done. intros [= -> Ht Heq]. constructor; auto.
Qed.

Lemma wrapS_wrapU w z : (0 < w)%Z → inS w z → wrapS w (wrapU w z) = z.
Proof.
  intros Hw Hz. rewrite <-(wrapS_id w z Hw Hz) at 2. unfold wrapS, wrapU.
  by rewrite Z.mod_mod by lia.
Qed.

Lemma wbits_pos w : (0 < wbits w)%Z.
Proof. by destruct w. Qed.

Lemma forallb_Forall' {A} (f : A → bool) l : forallb f l = true → Forall (λ x, f x = true) l.
Proof. rewrite forallb_forall, Forall_forall. intros H x Hx. apply H. by apply list_elem_of_In. Qed.

Lemma refill_bytes t bs : map (λ x, refill x (zero t)) (VUint W8 <$> bs) = VUint W8 <$> bs.
Proof. induction bs as [|b bs IH]; [done|]. rewrite fmap_cons. simpl. by rewrite IH. Qed.

Lemma refill_elems_bytes bs ds :
  length ds = length bs → refill_elems refill (VUint W8 <$> bs) ds = VUint W8 <$> bs.
Proof.
  revert ds. induction bs as [|b bs IH]; intros [|d ds]; try done. intros [= Hl].
  rewrite fmap_cons. simpl. by rewrite IH.
Qed.

(** Reading the bytes of a value gives it back. *)
Lemma unmarshal_spec v :
  registry_ok lc → val_ok v → ∀ st dest fuel,
  encodable st v = true → depth v ≤ fuel → val_ok dest → typeof dest = typeof v →
  unmarshals (unmarshal fuel (typeof v) dest st) (enc v) (refill v dest).
Proof.
  intros Hreg. induction v as [w n|w n|b|s|t|v IH|i|i rt v IH|t l IH|t l IH|l IH|k] using val_ind';
    intros Hok st dest fuel He Hd Hdo Hdt; inversion Hok; subst;
    cbn [typeof enc refill encodable depth] in *; try done; rewrite unmarshal_eq.
  - by apply (unmarshals_map _ (VUint w)), unmarshals_uint.
  - rewrite <-(wrapS_wrapU (wbits w) n) at 2 by (done || apply wbits_pos).
    apply (unmarshals_map _ (λ n, VInt w (wrapS (wbits w) n))), unmarshals_uint.
    apply wrapU_range. pose proof (wbits_pos w). lia.
  - by apply (unmarshals_map _ VBool), unmarshals_bool.
  - apply bool_decide_eq_true in He. by apply (unmarshals_map _ VString), unmarshals_str.
  - apply (unmarshals_map _ VPtr), IH; auto using val_ok_zero, typeof_zero.
  - apply andb_true_iff in He as [[Hst%bool_decide_eq_true Hv]%andb_true_iff He].
    eapply unmarshals_bind; [by apply unmarshals_UnpackPrefix|].
    rewrite bool_decide_eq_false_2 by done. destruct fuel as [|fuel]; [lia|].
    rename select (typeof v = _) into Ht.
    apply (unmarshals_map _ (VInterface i rt)). rewrite <-Ht.
    apply IH; auto using val_ok_zero, typeof_zero. lia.
  - apply andb_true_iff in He as [Hn%bool_decide_eq_true He%forallb_Forall'].
    eapply unmarshals_bind; [apply unmarshals_int; unfold inU, MaxInt32 in *; lia|].
    rewrite bool_decide_eq_false_2 by lia. destruct (is_byte t) eqn:Eb.
    + apply is_byte_inv in Eb as ->. destruct (byte_elems l) as [Hl Hb]; [done..|].
      set (bs := bytes_of l) in *. clearbody bs. subst l.
      rewrite enc_bytes, length_fmap by done.
      rewrite refill_bytes.
      by apply (unmarshals_map _ (λ bs, VSlice (TUint W8) (VUint W8 <$> bs))), unmarshals_fixed.
    + rename select (Forall (λ x, typeof x = t) l) into Ht.
      apply (unmarshals_map _ (VSlice t)). rewrite Nat2Z.id.
      apply unmarshals_slice. rewrite depth_le in Hd.
      rewrite !Forall_forall in *. intros x Hx.
      specialize (He x Hx). apply andb_true_iff in He as [He Hne%bool_decide_eq_true].
      split; [|done]. rewrite <-(Ht x Hx).
      apply IH; auto using val_ok_zero, typeof_zero.
  - destruct (array_dest dest (length l) t Hdo Hdt) as [Hlen Hds].
    rename select (Forall (λ x, typeof x = t) l) into Ht. apply forallb_Forall' in He.
    rewrite depth_le in Hd. destruct (is_byte t) eqn:Eb.
    + apply is_byte_inv in Eb as ->. destruct (byte_elems l) as [Hl Hb]; [done..|].
      set (bs := bytes_of l) in *. clearbody bs. subst l.
      rewrite enc_bytes by done. rewrite length_fmap in *.
      rewrite refill_elems_bytes by done.
      by apply (unmarshals_map _ (λ bs, VArray (TUint W8) (VUint W8 <$> bs))), unmarshals_fixed.
    + apply (unmarshals_map _ (VArray t)), unmarshals_array.
      apply Forall2_same_length_lookup. split; [done|]. intros j x d Hx Hj.
      rewrite !Forall_lookup in *. destruct (Hds j d Hj) as [Hdv Hdty].
      rewrite <-(Ht j x Hx). eapply IH; eauto. rewrite (Ht j x Hx). done.
  - apply andb_true_iff in He as [Hf He%forallb_Forall'].
    assert (map fst (map (λ '(f, x), (f, typeof x)) l) = map fst l) as ->
      by (clear; induction l as [|[] l IHl]; simpl; congruence).
    rewrite GetSerializedFields_spec, Hf. apply (unmarshals_map _ VStruct), unmarshals_fields.
    pose proof (struct_dest dest l Hdo Hdt) as Hds. rewrite depth_le in Hd.
    apply Forall2_same_length_lookup. split; [by eapply Forall2_length|].
    intros j [f x] [f' d] Hx Hj. pose proof (Forall2_lookup_lr _ _ _ _ _ _ Hds Hx Hj) as Hb.
    simpl in *. destruct Hb as (<- & Hdv & Hdty). split; [done|]. intros Hc.
    rewrite !Forall_lookup in *. specialize (He j _ Hx). specialize (Hd j _ Hx). simpl in He, Hd.
    rewrite Hc in He, Hd. simpl in He. eapply (IH j (f, x) Hx); eauto.
Qed.

(** ** Reading any bytes *)

(** Whatever [m] returns, the bytes it consumed are [bs] with [Q]. *)
Definition decodes {A} (m : PM A) (Q : A → list Z → Prop) : Prop :=
  ∀ p a p', packer_wf p → bytes_ok (Bytes p) → m p = Some (Ok a, p') →
  ∃ bs, Q a bs ∧ reads p bs ∧ p' = seek (Offset p + Z.of_nat (length bs)) p.

Lemma decodes_ret {A} (a : A) (Q : A → list Z → Prop) : Q a [] → decodes (mret a) Q.
Proof.
  intros HQ p x p' Hwf _ [= <- <-]. exists []. split; [done|]. split; [done|].
  unfold seek. simpl. rewrite Z.add_0_r. by destruct p.
Qed.

Lemma decodes_fail {A} e (Q : A → list Z → Prop) : decodes (fail e) Q.
Proof. by intros p x p' _ _. Qed.

Lemma reads_app p bs1 bs2 :
  packer_wf p → reads p bs1 → reads (seek (Offset p + Z.of_nat (length bs1)) p) bs2 →
  reads p (bs1 ++ bs2).
Proof.
  unfold reads. intros [_ Ho] H1 H2. cbn [seek Offset Bytes] in H2.
  replace (Z.to_nat (Offset p + Z.of_nat (length bs1)))
    with (Z.to_nat (Offset p) + length bs1)%nat in H2 by lia.
  rewrite <-drop_drop in H2. set (l := drop (Z.to_nat (Offset p)) (Bytes p)) in *.
  by rewrite length_app, <-take_take_drop, H1, H2.
Qed.

Lemma reads_wf p bs :
  packer_wf p → reads p bs → packer_wf (seek (Offset p + Z.of_nat (length bs)) p).
Proof.
  intros Hwf Hr. rewrite <-(app_nil_r bs) in Hr. by destruct (reads_app_2 _ _ _ Hwf Hr).
Qed.

Lemma decodes_bind {A B} (m : PM A) (f : A → PM B) (Q1 : A → list Z → Prop) Q :
  decodes m Q1 → (∀ a bs1, Q1 a bs1 → decodes (f a) (λ b bs2, Q b (bs1 ++ bs2))) →
  decodes (m ≫= f) Q.
Proof.
  intros H1 H2 p b p' Hwf Hb. unfold mbind, PM_bind.
  destruct (m p) as [[[a|e] p1]|] eqn:Em; [|done|done]. intros Hf.
  destruct (H1 p a p1 Hwf Hb Em) as (bs1 & HQ1 & Hr1 & ->).
  destruct (H2 a bs1 HQ1 _ b p' (reads_wf _ _ Hwf Hr1) Hb Hf) as (bs2 & HQ & Hr2 & ->).
  exists (bs1 ++ bs2). split; [done|]. split; [by apply reads_app|].
  rewrite seek_seek, length_app, Nat2Z.inj_add, Z.add_assoc. done.
Qed.

Lemma decodes_map {A B} (m : PM A) (f : A → B) (Q1 : A → list Z → Prop) (Q : B → list Z → Prop) :
  decodes m Q1 → (∀ a bs, Q1 a bs → Q (f a) bs) → decodes (m ≫= λ a, mret (f a)) Q.
Proof.
  intros H1 H2. eapply decodes_bind; [done|]. intros a bs Ha. apply decodes_ret.
  rewrite app_nil_r. auto.
Qed.

Lemma decodes_conseq {A} (m : PM A) (Q Q' : A → list Z → Prop) :
  decodes m Q → (∀ a bs, Q a bs → Q' a bs) → decodes m Q'.
Proof. intros H HQ p a p' Hwf Hb Hm. destruct (H p a p' Hwf Hb Hm) as (bs & ? & ?). eauto. Qed.

Lemma decodes_sim {A} (m m' : PM A) (Q : A → list Z → Prop) :
  decodes m Q →
  (∀ p a p', packer_wf p → bytes_ok (Bytes p) → m' p = Some (Ok a, p') → m p = Some (Ok a, p')) →
  decodes m' Q.
Proof. intros H Hsim p a p' Hwf Hb Hm. by apply H, Hsim. Qed.

(** The bytes a successful [read] returns. *)
Lemma read_inv n p bs p' :
  packer_wf p → read n p = (bs, p') → Err p' = None →
  Z.of_nat (length bs) = n ∧ reads p bs ∧ p' = seek (Offset p + Z.of_nat (length bs)) p.
Proof.
  intros [He Ho]. unfold read, checkSpace, Errored, Add_err, lenB in *. rewrite He.
  rewrite (bool_decide_eq_false_2 (Offset p < 0)%Z) by lia.
  destruct (decide (n < 0)%Z) as [Hn|Hn];
    [rewrite (bool_decide_eq_true_2 _ Hn)|rewrite (bool_decide_eq_false_2 _ Hn)].
  { cbn. by intros [= <- <-]. }
  destruct (decide (Z.of_nat (length (Bytes p)) - Offset p < n)%Z) as [Hl|Hl];
    [rewrite (bool_decide_eq_true_2 _ Hl)|rewrite (bool_decide_eq_false_2 _ Hl)].
  { cbn. by intros [= <- <-]. }
  rewrite He, bool_decide_eq_false_2 by (by intros []). intros [= <- <-] _.
  assert (Z.of_nat (length (take (Z.to_nat n) (drop (Z.to_nat (Offset p)) (Bytes p)))) = n) as Hlen
    by (rewrite length_take, length_drop; lia).
  split_and!; [done| |by rewrite Hlen; unfold seek; rewrite He].
  unfold reads. f_equal. lia.
Qed.

Lemma reads_bytes_ok p bs : bytes_ok (Bytes p) → reads p bs → bytes_ok bs.
Proof. intros Hb <-. by apply Forall_take, Forall_drop. Qed.

Lemma decodes_read {A} n (g : list Z → A) (f : Packer → A * Packer) :
  (∀ p, f p = (g (read n p).1, (read n p).2)) →
  decodes (unpack f) (λ a bs, a = g bs ∧ Z.of_nat (length bs) = n ∧ bytes_ok bs).
Proof.
  intros Hf p a p' Hwf Hb. unfold unpack. rewrite Hf. destruct (read n p) as [bs q] eqn:E. simpl.
  destruct (Err q) eqn:He; [done|]. intros [= <- <-].
  destruct (read_inv n p bs q Hwf E He) as (Hlen & Hr & ->).
  exists bs. split_and!; try done. by eapply reads_bytes_ok.
Qed.

Lemma decodes_be n (f : Packer → Z * Packer) :
  (∀ p, f p = (be_decode (read (Z.of_nat n) p).1, (read (Z.of_nat n) p).2)) →
  decodes (unpack f) (λ z bs, inU (8 * Z.of_nat n) z ∧ bs = be_encode n z).
Proof.
  intros Hf. eapply decodes_conseq; [by apply decodes_read|].
  intros z bs (-> & Hlen & Hb). apply Nat2Z.inj in Hlen as <-.
  split; [by apply be_decode_range|by rewrite be_encode_decode].
Qed.

Lemma decodes_uint w :
  decodes (unmarshal_uint w) (λ n bs, inU (wbits w) n ∧ bs = be_encode (wlen w) n).
Proof.
  destruct w; [apply (decodes_be 1)|apply (decodes_be 2)|apply (decodes_be 4)|apply (decodes_be 8)];
    intros p; [unfold UnpackByte|unfold UnpackShort|unfold UnpackInt|unfold UnpackLong];
    by destruct (read _ p).
Qed.

Lemma decodes_bool : decodes (unpack UnpackBool) (λ (b : bool) bs, bs = [if b then 1%Z else 0%Z]).
Proof.
  intros p b p' Hwf Hb Hm.
  destruct (decodes_uint W8 p (if b then 1%Z else 0%Z) p' Hwf Hb) as (bs & [_ ->] & Hr & ->).
  - cbn [unmarshal_uint]. unfold unpack, UnpackBool in *. destruct (UnpackByte p) as [z q].
    destruct (decide (z = 0)%Z) as [->|H0];
      [simpl in Hm; destruct (Err q); [done|]; by injection Hm as <- <-|].
    destruct (decide (z = 1)%Z) as [->|H1];
      [simpl in Hm; destruct (Err q); [done|]; by injection Hm as <- <-|].
    rewrite !bool_decide_eq_false_2 in Hm by done. unfold Add_err in Hm.
    destruct (Err q) eqn:Eq; simpl in Hm; [rewrite Eq in Hm|]; done.
  - exists (be_encode 1 (if b then 1%Z else 0%Z)). by destruct b.
Qed.

Lemma decodes_fixed n :
  decodes (unpack (UnpackFixedBytes n)) (λ x bs, x = bs ∧ Z.of_nat (length bs) = n ∧ bytes_ok bs).
Proof.
  apply (decodes_read n (λ bs, bs)). intros p. unfold UnpackFixedBytes. by destruct (read n p).
Qed.

(** An error stays through a read. *)
Lemma read_errored n p e : Err p = Some e → Err (read n p).2 = Some e.
Proof.
  intros He. unfold read, checkSpace, Add_err. rewrite He.
  repeat case_bool_decide; unfold Errored; by rewrite He.
Qed.

Lemma decodes_str :
  decodes (unpack UnpackStr) (λ s bs, bytes_ok s ∧ (Z.of_nat (length s) ≤ MaxStringLen)%Z ∧
                                      bs = be_encode 2 (Z.of_nat (length s)) ++ s).
Proof.
  apply (decodes_sim (n ← unmarshal_uint W16; unpack (UnpackFixedBytes n))).
  - eapply decodes_bind; [apply decodes_uint|]. intros n bs1 [Hn ->]. eapply decodes_conseq; [apply decodes_fixed|].
    intros x bs (-> & <- & Hbs). split_and!; [done| |done].
    unfold inU in Hn. change (2 ^ wbits W16)%Z with 65536%Z in Hn. unfold MaxStringLen. lia.
  - intros p s p' _ _ Hm. unfold mbind, PM_bind. cbn [unmarshal_uint].
    unfold unpack, UnpackStr in *. destruct (UnpackShort p) as [n q]. destruct (Err q) as [e|] eqn:Eq; [|done].
    pose proof (read_errored n q e Eq) as He. unfold UnpackFixedBytes in Hm.
    destruct (read n q) as [x q']. simpl in He. by rewrite He in Hm.
Qed.

Lemma decodes_UnpackPrefix i :
  registry_ok lc →
  decodes (UnpackPrefix i) (λ rt bs, HasValue rt (registeredTypes lc) = true ∧
                                     implements rt i = true ∧ bs = be_encode 4 (typeID rt)).
Proof.
  intros (Hwf & _ & Hr). eapply decodes_bind; [apply (decodes_uint W32)|].
  intros k bs1 [_ ->]. unfold GetValue.
  destruct (keyToValue (registeredTypes lc) !! k) as [rt|] eqn:E; [|apply decodes_fail].
  destruct (implements rt i) eqn:Ei; [|apply decodes_fail]. apply decodes_ret.
  apply Hwf in E. unfold HasValue, typeID, GetKey. rewrite E, app_nil_r.
  split_and!; [by apply bool_decide_eq_true|done|done].
Qed.

Lemma decodes_slice m (R : val → Prop) n :
  decodes m (λ x bs, R x ∧ bs = enc x) →
  decodes (unmarshal_slice m n) (λ l bs, length l = n ∧ Forall (λ x, R x ∧ enc x ≠ []) l ∧
                                         bs = concat (map enc l)).
Proof.
  intros Hm. induction n as [|n IH]; simpl; [by apply decodes_ret|].
  apply (decodes_sim (x ← m; if bool_decide (enc x = []) then fail ErrUnmarshalZeroLength
    else xs ← unmarshal_slice m n; mret (x :: xs))).
  - eapply decodes_bind; [done|]. intros x bs1 [HR ->]. case_bool_decide; [apply decodes_fail|].
    eapply (decodes_map _ (cons x)); [done|]. intros xs bs (<- & Hall & ->).
    split_and!; [done| |done]. by constructor.
  - intros p l p' Hwf Hb <-. unfold mbind, PM_bind, offset. destruct (m p) as [[[x|e] q]|] eqn:Em; [|done|done].
    destruct (Hm p x q Hwf Hb Em) as (? & [_ ->] & _ & ->). simpl. destruct (enc x); simpl.
    + by rewrite (bool_decide_eq_true_2 (_ = _)) by lia.
    + by rewrite (bool_decide_eq_false_2 (_ = _)) by lia.
Qed.

Lemma decodes_array (f : val → PM val) (R : val → Prop) ds :
  Forall (λ d, decodes (f d) (λ x bs, R x ∧ bs = enc x)) ds →
  decodes (unmarshal_array f ds) (λ l bs, length l = length ds ∧ Forall R l ∧
                                          bs = concat (map enc l)).
Proof.
  induction 1 as [|d ds Hd _ IH]; simpl; [by apply decodes_ret|].
  eapply decodes_bind; [done|]. intros x bs1 [HR ->].
  eapply (decodes_map _ (cons x)); [done|]. intros xs bs (<- & Hall & ->).
  split_and!; [done|by constructor|done].
Qed.

(** A value of type [t] that can be encoded. *)
Definition good (st : list nat) (t : typ) (v : val) : Prop :=
  val_ok v ∧ typeof v = t ∧ encodable st v = true.

Lemma decodes_fields f st l ds :
  Forall2 (λ a b, a.1 = b.1 ∧ val_ok b.2 ∧ typeof b.2 = a.2 ∧
                  decodes (f a.2 b.2) (λ x bs, good st a.2 x ∧ bs = enc x)) l ds →
  decodes (unmarshal_fields f l ds (map captureField (map fst l)))
    (λ xs bs, Forall (λ e, val_ok e.2) xs ∧ map (λ '(f, x), (f, typeof x)) xs = l ∧
              forallb (λ '(f, x), implb (captureField f) (encodable st x)) xs = true ∧
              bs = concat (map (λ '(f, x), if captureField f then enc x else []) xs)).
Proof.
  induction 1 as [|[fd t] [fd' d] l ds (Hf & Hv & Ht & Hd) _ IH]; simpl in *;
    [by apply decodes_ret|]. subst fd'.
  destruct (captureField fd) eqn:E; simpl in *.
  - eapply decodes_bind; [done|]. intros x bs1 [(Hok & Hty & He) ->].
    eapply (decodes_map _ (cons (fd, x))); [done|]. intros xs bs (Hall & <- & Hen & ->).
    simpl. rewrite E, He, Hty. split_and!; [by constructor|done|done|done].
  - eapply decodes_bind; [apply (decodes_ret d (λ x bs, x = d ∧ bs = [])); done|].
    intros x bs1 [-> ->].
    eapply (decodes_map _ (cons (fd, d))); [done|]. intros xs bs (Hall & <- & Hen & ->).
    simpl. rewrite E, Ht. split_and!; [by constructor|done|done|done].
Qed.

Lemma fields_dest dest l :
  val_ok dest → typeof dest = TStruct l →
  Forall2 (λ a b, a.1 = b.1 ∧ val_ok b.2 ∧ typeof b.2 = a.2) l (fields_of dest).
Proof.
  intros Hok. destruct dest as [| | | | | | | | | |ds|]; simpl; try done.
  inversion Hok as [| | | | | | | | | |? Hds|]; subst. intros [= <-].
  clear Hok. induction Hds as [|[f d] ds Hd _ IH]; simpl; constructor; auto.
Qed.

Lemma wrapU_wrapS w z : (0 < w)%Z → inU w z → wrapU w (wrapS w z) = z ∧ inS w (wrapS w z).
Proof.
  intros Hw Hz. unfold wrapS. rewrite (wrapU_id w z Hz). unfold inU, inS, wrapU in *.
  assert (2 ^ w = 2 * 2 ^ (w - 1))%Z as Hp by (rewrite <-Z.pow_succ_r by lia; f_equal; lia).
  case_bool_decide.
  - split; [by apply Z.mod_small|lia].
  - split; [|lia]. rewrite <-(Z.mod_add _ 1) by lia. rewrite Z.mul_1_l.
    rewrite Z.sub_add. by apply Z.mod_small.
Qed.

Lemma good_slice st t l :
  (Z.of_nat (length l) ≤ MaxInt32)%Z → Forall (λ x, good st t x ∧ enc x ≠ []) l →
  good st (TSlice t) (VSlice t l).
Proof.
  intros Hn Hl. split_and!; [|done|].
  - constructor; eapply Forall_impl; try exact Hl; unfold good; naive_solver.
  - cbn [encodable]. rewrite bool_decide_eq_true_2 by lia. simpl.
    apply forallb_forall. intros x Hx%list_elem_of_In. rewrite Forall_forall in Hl.
    destruct (Hl x Hx) as [(_ & _ & ->) Hne]. by rewrite bool_decide_eq_true_2.
Qed.

Lemma good_array st t l : Forall (good st t) l → good st (TArray (length l) t) (VArray t l).
Proof.
  intros Hl. split_and!; [|done|].
  - constructor; eapply Forall_impl; try exact Hl; unfold good; naive_solver.
  - cbn [encodable]. apply forallb_forall. intros x Hx%list_elem_of_In.
    rewrite Forall_forall in Hl. by destruct (Hl x Hx) as (_ & _ & ->).
Qed.

Lemma good_bytes st bs :
  bytes_ok bs → Forall (λ x, good st (TUint W8) x ∧ enc x ≠ []) (VUint W8 <$> bs).
Proof.
  intros Hb. apply Forall_fmap. eapply Forall_impl; [exact Hb|]. intros z Hz.
  split; [|done]. by split_and!; [constructor| |].
Qed.

Lemma good_struct st l xs :
  fields_ok (map fst l) = true → Forall (λ e, val_ok e.2) xs →
  map (λ '(f, x), (f, typeof x)) xs = l →
  forallb (λ '(f, x), implb (captureField f) (encodable st x)) xs = true →
  good st (TStruct l) (VStruct xs).
Proof.
  intros Hf Hall <- Hen. split_and!; [by constructor|done|]. cbn [encodable].
  rewrite Hen. revert Hf.
  assert (map fst (map (λ '(f, x), (f, typeof x)) xs) = map fst xs) as ->
    by (clear; induction xs as [|[] xs IHl]; simpl; congruence). by intros ->.
Qed.

(** What [unmarshal] returns for any bytes: a value of the type that can be encoded,
    and the bytes read are its encoding. *)
Lemma unmarshal_sound fuel t st dest :
  registry_ok lc → val_ok dest → typeof dest = t →
  decodes (unmarshal fuel t dest st) (λ v bs, good st t v ∧ bs = enc v).
Proof.
  intros Hreg. revert t st dest.
  induction fuel as [fuel IHf] using lt_wf_ind. intros t.
  induction t as [w|w| | |t IH|i|t IH|n t IH|l IH|k] using typ_ind';
    intros st dest Hdo Hdt; rewrite unmarshal_eq.
  - eapply (decodes_map _ (VUint w)); [apply decodes_uint|]. intros n bs [Hn ->].
    split; [|done]. by split_and!; [constructor| |].
  - eapply (decodes_map _ (λ n, VInt w (wrapS (wbits w) n))); [apply decodes_uint|].
    intros n bs [Hn ->]. destruct (wrapU_wrapS (wbits w) n (wbits_pos w) Hn) as [He Hs].
    cbn [enc]. rewrite He. split; [|done]. by split_and!; [constructor| |].
  - eapply (decodes_map _ VBool); [apply decodes_bool|]. intros b bs ->.
    split; [|done]. by split_and!; [constructor| |].
  - eapply (decodes_map _ VString); [apply decodes_str|]. intros s' bs (Hb & Hl & ->).
    split; [|done]. split_and!; [by constructor|done|]. by apply bool_decide_eq_true.
  - eapply (decodes_map _ VPtr); [apply IH; auto using val_ok_zero, typeof_zero|].
    intros v bs [(Hv & <- & He) ->]. split; [|done]. by split_and!; [constructor| |].
  - eapply decodes_bind; [by apply decodes_UnpackPrefix|]. intros rt bs1 (Hh & Hi & ->).
    case_bool_decide as Hst; [apply decodes_fail|]. destruct fuel as [|fuel]; [apply decodes_fail|].
    eapply (decodes_map _ (VInterface i rt));
      [apply IHf; auto using val_ok_zero, typeof_zero; lia|].
    intros v bs [(Hv & Ht & He) ->]. split; [|done]. split_and!; [by constructor|done|].
    cbn [encodable]. rewrite Hh, He, bool_decide_eq_true_2 by done. done.
  - eapply decodes_bind; [apply (decodes_uint W32)|]. intros n bs1 [Hn ->].
    case_bool_decide as Hmax; [apply decodes_fail|]. cbn [wlen]. unfold inU in Hn.
    destruct (is_byte t) eqn:Eb.
    + apply is_byte_inv in Eb as ->.
      eapply (decodes_map _ (λ bs, VSlice (TUint W8) (VUint W8 <$> bs))); [apply decodes_fixed|].
      intros x bs (-> & <- & Hb). cbn [enc]. rewrite enc_bytes, length_fmap by done.
      split; [|done]. apply good_slice; [rewrite length_fmap; lia|by apply good_bytes].
    + eapply (decodes_map _ (VSlice t));
        [apply (decodes_slice _ (good st t)); apply IH; auto using val_ok_zero, typeof_zero|].
      intros xs bs (Hlen & Hall & ->). cbn [enc]. rewrite Hlen, Z2Nat.id by lia.
      split; [|done]. apply good_slice; [lia|done].
  - destruct (array_dest dest n t Hdo Hdt) as [Hlen Hds]. destruct (is_byte t) eqn:Eb.
    + apply is_byte_inv in Eb as ->.
      eapply (decodes_map _ (λ bs, VArray (TUint W8) (VUint W8 <$> bs))); [apply decodes_fixed|].
      intros x bs (-> & Hbl & Hb). cbn [enc]. rewrite enc_bytes by done. split; [|done].
      apply Nat2Z.inj in Hbl as <-. rewrite <-(length_fmap (VUint W8) bs). apply good_array.
      eapply Forall_impl; [by apply good_bytes|naive_solver].
    + eapply (decodes_map _ (VArray t)); [apply (decodes_array _ (good st t))|].
      { eapply Forall_impl; [exact Hds|]. intros d [? ?]. by apply IH. }
      intros xs bs (Hxl & Hall & ->). split; [|done]. rewrite <-Hlen, <-Hxl. by apply good_array.
  - rewrite GetSerializedFields_spec. destruct (fields_ok (map fst l)) eqn:Hf; [|apply decodes_fail].
    eapply (decodes_map _ VStruct); [apply (decodes_fields _ st)|].
    { pose proof (fields_dest dest l Hdo Hdt) as Hds. apply Forall2_same_length_lookup.
      split; [by eapply Forall2_length|]. intros j a b Ha Hb'.
      pose proof (Forall2_lookup_lr _ _ _ _ _ _ Hds Ha Hb') as (? & ? & ?).
      rewrite Forall_lookup in IH. split_and!; try done. by eapply IH. }
    intros xs bs (Hall & Ht & Hen & ->). split; [by apply good_struct|done].
  - apply decodes_fail.
Qed.

(** ** Fuel *)

Definition never {A} (e : cerr) (m : PM A) : Prop := ∀ p p', m p ≠ Some (Prelude.Err e, p').

Lemma never_ret {A} e (a : A) : never e (mret a).
Proof. by intros p p'. Qed.
Lemma never_fail {A} e e' : e' ≠ e → never e (fail (A:=A) e').
Proof. intros Hne p p' [= ?]. done. Qed.
Lemma never_bind {A B} e (m : PM A) (f : A → PM B) :
  never e m → (∀ a, never e (f a)) → never e (m ≫= f).
Proof.
  intros Hm Hf p p'. unfold mbind, PM_bind. specialize (Hm p).
  destruct (m p) as [[[a|e'] q]|]; [apply Hf| |done]. intros [= -> ->]. by eapply Hm.
Qed.
Lemma never_unpack {A} (f : Packer → A * Packer) : never EOutOfFuel (unpack f).
Proof. intros p p'. unfold unpack. destruct (f p) as [a q]. by destruct (Err q). Qed.
Lemma never_uint w : never EOutOfFuel (unmarshal_uint w).
Proof. destruct w; apply never_unpack. Qed.
Lemma never_slice e m n :
  never e m → e ≠ ErrUnmarshalZeroLength → never e (unmarshal_slice m n).
Proof.
  intros Hm He. induction n as [|n IH]; simpl; [apply never_ret|].
  apply never_bind; [by intros p p'|]. intros o. apply never_bind; [done|]. intros x.
  apply never_bind; [by intros p p'|]. intros o'. case_bool_decide; [by apply never_fail|].
  apply never_bind; [done|]. intros. apply never_ret.
Qed.
Lemma never_array e f ds : (∀ d, never e (f d)) → never e (unmarshal_array f ds).
Proof.
  intros Hf. induction ds; simpl; [apply never_ret|].
  apply never_bind; [done|]. intros. apply never_bind; [done|]. intros. apply never_ret.
Qed.
Lemma never_fields e f l ds mask :
  Forall (λ a, ∀ d, never e (f a.2 d)) l → never e (unmarshal_fields f l ds mask).
Proof.
  intros Hl. revert ds mask. induction Hl as [|[fd t] l Ht _ IH];
    intros [|[fd' d] ds] [|b mask]; simpl; try apply never_ret.
  apply never_bind; [destruct b; [apply Ht|apply never_ret]|]. intros.
  apply never_bind; [apply IH|]. intros. apply never_ret.
Qed.

(** No operation of [unmarshal] panics. *)
Lemma total_bind {A B} (m : PM A) (f : A → PM B) :
  (∀ p, m p ≠ None) → (∀ a p, f a p ≠ None) → ∀ p, (m ≫= f) p ≠ None.
Proof.
  intros Hm Hf p. unfold mbind, PM_bind. specialize (Hm p).
  destruct (m p) as [[[a|e] q]|]; [apply Hf|done|done].
Qed.
Lemma total_unpack {A} (f : Packer → A * Packer) p : unpack f p ≠ None.
Proof. unfold unpack. by destruct (f p). Qed.
Lemma total_uint w p : unmarshal_uint w p ≠ None.
Proof. destruct w; apply total_unpack. Qed.
Lemma total_UnpackPrefix i p : UnpackPrefix i p ≠ None.
Proof.
  revert p. apply total_bind; [intros; apply total_unpack|]. intros k p.
  destruct (GetValue k _) as [x|]; [by destruct (implements x i)|done].
Qed.
Lemma total_slice m n : (∀ p, m p ≠ None) → ∀ p, unmarshal_slice m n p ≠ None.
Proof.
  intros Hm. induction n as [|n IH]; simpl; [done|].
  apply total_bind; [done|]. intros o. apply total_bind; [done|]. intros x.
  apply total_bind; [done|]. intros o'. case_bool_decide; [done|]. by apply total_bind.
Qed.
Lemma total_array f ds : (∀ d p, f d p ≠ None) → ∀ p, unmarshal_array f ds p ≠ None.
Proof.
  intros Hf. induction ds; simpl; [done|]. apply total_bind; [done|]. intros x.
  by apply total_bind.
Qed.
Lemma total_fields f l ds mask :
  Forall (λ a, ∀ d p, f a.2 d p ≠ None) l → ∀ p, unmarshal_fields f l ds mask p ≠ None.
Proof.
  intros Hl. revert ds mask. induction Hl as [|[fd t] l Ht _ IH];
    intros [|[fd' d] ds] [|b mask]; simpl; try done.
  apply total_bind; [destruct b; [apply Ht|done]|]. intros. by apply total_bind.
Qed.

Lemma unmarshal_total fuel t st dest p : unmarshal fuel t dest st p ≠ None.
Proof.
  revert t st dest p. induction fuel as [fuel IHf] using lt_wf_ind. intros t.
  induction t as [w|w| | |t IH|i|t IH|n t IH|l IH|k] using typ_ind';
    intros st dest; rewrite unmarshal_eq;
    try (apply total_bind; [intros; apply total_unpack || apply total_uint|done]).
  - apply total_bind; [|done]. intros. apply IH.
  - apply total_bind; [intros; apply total_UnpackPrefix|]. intros rt. case_bool_decide; [done|].
    destruct fuel; [done|]. apply total_bind; [|done]. intros. apply IHf. lia.
  - apply total_bind; [intros; apply total_unpack|]. intros n. case_bool_decide; [done|].
    destruct (is_byte t); (apply total_bind; [|done]); [intros; apply total_unpack|].
    apply total_slice. apply IH.
  - destruct (is_byte t); (apply total_bind; [|done]); [intros; apply total_unpack|].
    apply total_array. intros. apply IH.
  - rewrite GetSerializedFields_spec. destruct (fields_ok _); [|done].
    apply total_bind; [|done]. apply total_fields.
    eapply Forall_impl; [exact IH|]. intros a Ha d q. apply Ha.
  - done.
Qed.

(** The types around a value are registered and pairwise distinct. *)
Definition stack_ok (st : list nat) : Prop :=
  NoDup st ∧ Forall (λ rt, HasValue rt (registeredTypes lc) = true) st.

Lemma stack_bound st : registry_ok lc → stack_ok st → length st ≤ BiMap_Len (registeredTypes lc).
Proof.
  intros (Hwf & _) [Hnd Hall].
  assert (∀ rt, rt ∈ st → keyToValue (registeredTypes lc) !! typeID rt = Some rt) as Hk.
  { intros rt Hrt. rewrite Forall_forall in Hall. specialize (Hall rt Hrt).
    apply bool_decide_eq_true in Hall as [k E]. unfold typeID, GetKey. rewrite E. by apply Hwf. }
  assert (NoDup (typeID <$> st)) as Hnd'.
  { apply NoDup_fmap_2_strong; [|done]. intros x y Hx Hy Heq.
    apply Hk in Hx, Hy. rewrite Heq in Hx. congruence. }
  rewrite <-(length_fmap typeID st). unfold BiMap_Len. rewrite <-size_dom.
  rewrite <-(size_list_to_set (C:=gset Z)) by done. apply subseteq_size.
  intros k [rt [-> Hrt]]%elem_of_list_to_set%list_elem_of_fmap.
  apply elem_of_dom. eauto.
Qed.

Lemma stack_cons rt st :
  stack_ok st → rt ∉ st → HasValue rt (registeredTypes lc) = true → stack_ok (rt :: st).
Proof. intros [? ?] ? ?. by split; constructor. Qed.

Lemma UnpackPrefix_registered i p rt p' :
  registry_ok lc → UnpackPrefix i p = Some (Ok rt, p') → HasValue rt (registeredTypes lc) = true.
Proof.
  intros (Hwf & _). unfold UnpackPrefix, mbind, PM_bind, unpack.
  destruct (UnpackInt p) as [k q]. destruct (Err q); [done|]. unfold GetValue.
  destruct (keyToValue (registeredTypes lc) !! k) as [x|] eqn:E; [|done].
  destruct (implements x i); [|done]. intros [= -> _]. apply Hwf in E. by apply bool_decide_eq_true.
Qed.

(** Enough fuel: every nested interface value adds a registered type that is not
    around it yet, so the nesting is at most the number of registered types. *)
Lemma unmarshal_enough_fuel fuel t st dest :
  registry_ok lc → stack_ok st → BiMap_Len (registeredTypes lc) ≤ fuel + length st →
  never EOutOfFuel (unmarshal fuel t dest st).
Proof.
  intros Hreg. revert t st dest.
  induction fuel as [fuel IHf] using lt_wf_ind. intros t.
  induction t as [w|w| | |t IH|i|t IH|n t IH|l IH|k] using typ_ind';
    intros st dest Hst Hfuel; rewrite unmarshal_eq;
    try (apply never_bind; [apply never_unpack || apply never_uint|intros; apply never_ret]).
  - apply never_bind; [by apply IH|]. intros. apply never_ret.
  - intros p p'. unfold mbind at 1, PM_bind at 1.
    destruct (UnpackPrefix i p) as [[[rt|e] q]|] eqn:E; [| |done].
    + apply (UnpackPrefix_registered i p rt q Hreg) in E.
      case_bool_decide as Hin; [done|]. pose proof (stack_cons _ _ Hst Hin E) as Hst'.
      pose proof (stack_bound _ Hreg Hst') as Hb. simpl in Hb. destruct fuel as [|fuel]; [lia|].
      revert p'. apply never_bind; [apply IHf; [lia|done|simpl; lia]|]. intros. apply never_ret.
    + intros [= -> ->]. revert E.
      apply never_bind; [apply never_unpack|]. intros k. destruct (GetValue k _); [|by apply never_fail].
      destruct (implements _ _); [apply never_ret|by apply never_fail].
  - apply never_bind; [apply never_unpack|]. intros n. case_bool_decide; [by apply never_fail|].
    destruct (is_byte t); (apply never_bind; [|intros; apply never_ret]); [apply never_unpack|].
    apply never_slice; [by apply IH|done].
  - destruct (is_byte t); (apply never_bind; [|intros; apply never_ret]); [apply never_unpack|].
    apply never_array. intros. by apply IH.
  - rewrite GetSerializedFields_spec. destruct (fields_ok _); [|by apply never_fail].
    apply never_bind; [|intros; apply never_ret]. apply never_fields.
    eapply Forall_impl; [exact IH|]. intros a Ha d. by apply Ha.
  - by apply never_fail.
Qed.

Lemma depth_bound v st :
  registry_ok lc → stack_ok st → encodable st v = true →
  depth v + length st ≤ BiMap_Len (registeredTypes lc).
Proof.
  intros Hreg. revert st. induction v as [| | | | |v IH| |i rt v IH|t l IH|t l IH|l IH|] using val_ind';
    intros st Hst He; cbn [depth encodable] in *; try (by apply stack_bound); auto.
  - apply andb_true_iff in He as [[Hin%bool_decide_eq_true Hh]%andb_true_iff He].
    pose proof (IH _ (stack_cons _ _ Hst Hin Hh) He). simpl in *. lia.
  - apply andb_true_iff in He as [_ He%forallb_Forall'].
    pose proof (stack_bound _ Hreg Hst).
    enough (foldr Nat.max 0 (map depth l) ≤ BiMap_Len (registeredTypes lc) - length st) by lia.
    apply depth_le. rewrite Forall_forall in *. intros x Hx. specialize (He x Hx).
    apply andb_true_iff in He as [He _]. specialize (IH x Hx st Hst He). lia.
  - apply forallb_Forall' in He. pose proof (stack_bound _ Hreg Hst).
    enough (foldr Nat.max 0 (map depth l) ≤ BiMap_Len (registeredTypes lc) - length st) by lia.
    apply depth_le. rewrite Forall_forall in *. intros x Hx.
    specialize (IH x Hx st Hst (He x Hx)). lia.
  - apply andb_true_iff in He as [_ He%forallb_Forall']. pose proof (stack_bound _ Hreg Hst).
    enough (foldr Nat.max 0 (map (λ '(f, x), if captureField f then depth x else 0) l)
      ≤ BiMap_Len (registeredTypes lc) - length st) by lia.
    apply depth_le. rewrite Forall_forall in *. intros [f x] Hx.
    specialize (He _ Hx). simpl in He. destruct (captureField f); [|lia].
    specialize (IH _ Hx st Hst He). simpl in IH. lia.
Qed.

(** ** Sizes *)

(** The size of the types whose values all have the same. *)
Fixpoint tsize (t : typ) : option Z :=
  match t with
  | TUint w | TInt w => Some (Z.of_nat (wlen w))
  | TBool => Some 1%Z
  | TPtr t => tsize t
  | TArray n t => if bool_decide (n = 0) then Some 0%Z else (Z.mul (Z.of_nat n)) <$> tsize t
  | TStruct l =>
      foldr (λ o acc, a ← acc; b ← o; Some (b + a)%Z) (Some 0%Z)
        (map (λ '(f, t), if captureField f then tsize t else Some 0%Z) l)
  | TString | TInterface _ | TSlice _ | TOther _ => None
  end.

Lemma concat_const_length {A} (f : A → list Z) l n :
  Forall (λ x, Z.of_nat (length (f x)) = n) l →
  Z.of_nat (length (concat (map f l))) = (Z.of_nat (length l) * n)%Z.
Proof.
  induction 1 as [|x l Hx _ IH]; [done|]. simpl. rewrite length_app, Nat2Z.inj_add, IH, Hx. lia.
Qed.

Lemma tsize_enc v n st :
  val_ok v → encodable st v = true → tsize (typeof v) = Some n →
  Z.of_nat (length (enc v)) = n.
Proof.
  revert n. induction v as [w z|w z|b|s|t|v IH|i|i rt v IH|t l IH|t l IH|l IH|k] using val_ind';
    intros n Hok He Ht; inversion Hok; subst; cbn [typeof tsize enc encodable] in *; try done;
    rewrite ?be_encode_length; try (by injection Ht as <-).
  - by apply IH.
  - apply forallb_Forall' in He. revert Ht. case_bool_decide as H0.
    + intros [= <-]. by apply nil_length_inv in H0 as ->.
    + intros (m & Hm & ->)%fmap_Some. apply concat_const_length.
      rewrite Forall_forall in *. intros x Hx. apply IH; auto.
      rename select (∀ x, x ∈ l → typeof x = t) into Hty. by rewrite (Hty x Hx).
  - apply andb_true_iff in He as [_ He%forallb_Forall'].
    rename select (Forall (λ e, val_ok e.2) l) into Hv. clear Hok. revert n Ht.
    induction l as [|[f x] l IHl]; intros n; simpl; [by intros [= <-]|].
    apply Forall_cons in IH as [IHx IH]. apply Forall_cons in He as [Hex He].
    apply Forall_cons in Hv as [Hvx Hv]. simpl in *.
    intros (a & Ha & (b & Hb & [= <-])%bind_Some)%bind_Some.
    rewrite length_app, Nat2Z.inj_add, (IHl IH He Hv a Ha). f_equal.
    destruct (captureField f); [by apply IHx|by injection Hb as <-].
Qed.

Lemma size_fields_const g l acc c n :
  size_fields g l (map captureField (map fst l)) acc c = Ok (n, true) →
  Forall (λ e, ∀ m, g e.2 = Ok (m, true) → tsize (typeof e.2) = Some m) l →
  c = true ∧ ∃ m, tsize (TStruct (map (λ '(f, x), (f, typeof x)) l)) = Some m ∧ n = (acc + m)%Z.
Proof.
  intros Hs Hl. revert acc c Hs. induction Hl as [|[f x] l Hx _ IH]; intros acc c; simpl.
  - intros [= -> ->]. split; [done|]. exists 0%Z. split; [done|lia].
  - destruct (captureField f); simpl.
    + intros ([m cm] & Hg & Hs)%bind_Ok_inv. simpl in *.
      destruct (IH _ _ Hs) as [[-> ->]%andb_true_iff (k & Hk & ->)]. split; [done|].
      cbn [tsize] in Hk. rewrite Hk. simpl. rewrite (Hx m Hg). eexists. split; [done|lia].
    + intros Hs. destruct (IH _ _ Hs) as [-> (k & Hk & ->)]. split; [done|].
      cbn [tsize] in Hk. rewrite Hk. simpl. eexists. split; [done|lia].
Qed.

Lemma size_const v n st :
  val_ok v → size v st = Ok (n, true) → tsize (typeof v) = Some n.
Proof.
  revert n st. induction v as [w z|w z|b|s|t|v IH|i|i rt v IH|t l IH|t l IH|l IH|k] using val_ind';
    intros n st Hok; inversion Hok; subst; cbn [typeof tsize size]; try done;
    try (destruct w; by intros [= <-]); try (by intros [= <-]).
  - by apply IH.
  - case_bool_decide; [done|]. by intros (? & _ & [=])%bind_Ok_inv.
  - destruct l as [|x l]; [done|]. intros ([m c] & _ & Hs)%bind_Ok_inv. simpl in Hs.
    case_bool_decide; [done|]. destruct c; [done|]. by apply bind_Ok_inv in Hs as (? & _ & [=]).
  - destruct l as [|x l]; [by intros [= <-]|]. intros ([m c] & Hx & Hs)%bind_Ok_inv. simpl in Hs.
    destruct c; [|by apply bind_Ok_inv in Hs as (? & _ & [=])]. injection Hs as <-.
    rewrite bool_decide_eq_false_2 by done. apply Forall_cons in IH as [IHx _].
    rename select (Forall (λ x, typeof x = t) _) into Ht. apply Forall_cons in Ht as [<- _].
    rename select (Forall val_ok _) into Hv. apply Forall_cons in Hv as [Hv _].
    by rewrite (IHx _ _ Hv Hx).
  - rewrite GetSerializedFields_spec. destruct (fields_ok _); [|done]. simpl. intros Hs.
    apply size_fields_const in Hs as [_ (m & Hm & ->)]; [exact Hm|].
    rewrite Forall_forall in *. intros e He m. apply IH; auto.
Qed.

Lemma size_elems_spec g l acc :
  Forall (λ x, ∃ c, g x = Ok (Z.of_nat (length (enc x)), c)) l →
  size_elems g l acc = Ok (acc + Z.of_nat (length (concat (map enc l))))%Z.
Proof.
  intros Hl. revert acc. induction Hl as [|x l [c Hx] _ IH]; intros acc; simpl.
  - f_equal. lia.
  - rewrite Hx. simpl. rewrite IH, length_app. f_equal. lia.
Qed.

Lemma size_fields_spec g l acc c :
  Forall (λ e, captureField e.1 = true → ∃ c, g e.2 = Ok (Z.of_nat (length (enc e.2)), c)) l →
  ∃ c', size_fields g l (map captureField (map fst l)) acc c =
    Ok (acc + Z.of_nat (length
      (concat (map (λ '(f, x), if captureField f then enc x else []) l))), c')%Z.
Proof.
  intros Hl. revert acc c. induction Hl as [|[f x] l Hx _ IH]; intros acc c; simpl.
  - exists c. do 2 f_equal. lia.
  - simpl in Hx. destruct (captureField f).
    + destruct Hx as [c' ->]; [done|]. simpl. destruct (IH (acc + Z.of_nat (length (enc x)))%Z (c && c'))
        as [c'' ->]. exists c''. rewrite length_app. do 2 f_equal. lia.
    + destruct (IH acc c) as [c'' ->]. exists c''. done.
Qed.

(** The elements of a slice or array, when the first one's size is constant. *)
Lemma const_elems st t x l m :
  Forall (λ x, typeof x = t) (x :: l) → Forall val_ok (x :: l) →
  Forall (λ x, encodable st x = true) (x :: l) → size x st = Ok (m, true) →
  Z.of_nat (length (concat (map enc (x :: l)))) = (Z.of_nat (length (x :: l)) * m)%Z.
Proof.
  intros Ht Hv He Hx. apply concat_const_length. rewrite Forall_forall in *. intros y Hy.
  eapply tsize_enc; [by apply Hv|by apply He|]. rewrite (Ht y Hy), <-(Ht x) by (by left).
  eapply size_const; [|done]. apply Hv. by left.
Qed.

Lemma size_elems_all st l :
  Forall (λ v, ∀ st, val_ok v → encodable st v = true →
    ∃ c, size v st = Ok (Z.of_nat (length (enc v)), c)) l →
  Forall val_ok l → Forall (λ x, encodable st x = true) l →
  Forall (λ x, ∃ c, size x st = Ok (Z.of_nat (length (enc x)), c)) l.
Proof. rewrite !Forall_forall. auto. Qed.
(** [Size] is the number of bytes [marshal] writes. *)
Lemma size_spec v st :
  val_ok v → encodable st v = true → ∃ c, size v st = Ok (Z.of_nat (length (enc v)), c).
Proof.
  revert st. induction v as [w z|w z|b|s|t|v IH|i|i rt v IH|t l IH|t l IH|l IH|k] using val_ind';
    intros st Hok He; inversion Hok; subst; cbn [size enc encodable] in *; try done;
    rewrite ?length_app, ?be_encode_length; try (destruct w; by eexists); try (by eexists).
  - eexists. do 2 f_equal. unfold StringLen, ShortLen. lia.
  - by apply IH.
  - apply andb_true_iff in He as [[Hin%bool_decide_eq_true _]%andb_true_iff He].
    rewrite bool_decide_eq_false_2 by done. destruct (IH (rt :: st)) as [c ->]; [done..|].
    eexists. simpl. do 2 f_equal. unfold PrefixSize, IntLen. lia.
  - apply andb_true_iff in He as [_ He%forallb_Forall'].
    destruct l as [|x l]; [by eexists|].
    assert (Forall (λ x, encodable st x = true ∧ enc x ≠ []) (x :: l)) as Hen.
    { eapply Forall_impl; [exact He|]. intros y [? ?%bool_decide_eq_true]%andb_true_iff. done. }
    clear He. apply Forall_and in Hen as [Hen Hne].
    rename select (Forall val_ok _) into Hv.
    pose proof (size_elems_all st _ IH Hv Hen) as [[c Hx] Hs']%Forall_cons. rewrite Hx. simpl.
    apply Forall_cons in Hne as [Hne _]. rewrite bool_decide_eq_false_2
      by (destruct (enc x); [done|simpl; lia]).
    rename select (Forall (λ x, typeof x = t) _) into Ht. destruct c.
    + pose proof (const_elems st t x l _ Ht Hv Hen Hx) as Hc. exists false. do 2 f_equal.
      cbn [map concat length] in Hc. unfold IntLen. lia.
    + rewrite size_elems_spec by done. eexists. simpl. do 2 f_equal.
      rewrite length_app. unfold IntLen. lia.
  - apply forallb_Forall' in He. destruct l as [|x l]; [by eexists|].
    rename select (Forall val_ok _) into Hv.
    pose proof (size_elems_all st _ IH Hv He) as [[c Hx] Hs']%Forall_cons. rewrite Hx. simpl.
    rename select (Forall (λ x, typeof x = t) _) into Ht. destruct c.
    + eexists. do 2 f_equal. pose proof (const_elems st t x l _ Ht Hv He Hx) as Hc.
      simpl in Hc. rewrite Hc. done.
    + rewrite size_elems_spec by done. eexists. simpl. do 2 f_equal. rewrite length_app. lia.
  - apply andb_true_iff in He as [Hf He%forallb_Forall'].
    rewrite GetSerializedFields_spec, Hf. simpl. eapply size_fields_spec.
    rewrite Forall_forall in *. intros [f x] Hx Hc. specialize (He _ Hx). simpl in *.
    rewrite Hc in He. apply (IH _ Hx); [|done]. rename select (∀ x, x ∈ l → val_ok x.2) into Hv.
    apply (Hv _ Hx).
Qed.


(** ** manager *)

Lemma Marshal_spec maxSize v :
  registry_ok lc → val_ok v →
  ∃ r, Marshal maxSize (Some v) = Some r ∧
    if encodable [] v && bool_decide (2 + Z.of_nat (length (enc v)) ≤ maxSize)%Z
    then r = Ok (0%Z :: 0%Z :: enc v) else ∃ e, r = Prelude.Err e.
Proof.
  intros Hreg Hv. unfold Marshal.
  set (p0 := mkPacker None maxSize [] (replicate initialSliceCap 0%Z) 0).
  assert (packer_wf p0) as Hwf0 by (split; [done|]; unfold lenB; simpl; lia).
  destruct (marshals_uint W16 0 ltac:(done) p0 Hwf0) as (r0 & p1 & Hm0 & Hr0).
  cbn [marshal_uint] in Hm0. unfold pack in Hm0.
  destruct (PackShort grow 0 p0) as [q|]; [|done]. injection Hm0 as <- <-.
  unfold Errored. destruct (Err q) as [e|] eqn:Eq.
  { rewrite bool_decide_eq_true_2 by done. eexists. split; [done|]. revert Hr0.
    unfold limit. simpl. case_bool_decide; [by intros []|]. intros _.
    rewrite (bool_decide_eq_false_2 (_ ≤ _)%Z) by (unfold lenB in *; simpl in *; lia).
    rewrite andb_false_r. eauto. }
  rewrite bool_decide_eq_false_2 by (by intros []). revert Hr0. unfold limit. simpl.
  case_bool_decide as Hmax; [|by intros []]. intros [_ Hw]. pose proof Hw as (Hwf1 & _ & Ho1 & _).
  destruct (marshal_spec v Hreg Hv [] q Hwf1) as (r & p' & Hm & Hr). rewrite Hm.
  rewrite (wrote_limit _ _ _ Hw), Ho1 in Hr. unfold limit, lenB in *. simpl in *.
  destruct (encodable [] v); simpl in *.
  - rewrite (bool_decide_ext (2 + Z.of_nat (length (enc v)) ≤ maxSize)%Z
      (2 + Z.of_nat (length (enc v)) ≤ 0 `max` maxSize)%Z) by lia.
    destruct (bool_decide _).
    + destruct Hr as [-> Hw2]. pose proof (wrote_trans _ _ _ _ _ Hw Hw2) as (_ & _ & Ho & Ht & Hl & _).
      eexists. split; [done|]. f_equal. simpl in Ht. unfold lenB in Hl. simpl in *.
      rewrite take_ge in Ht by lia. rewrite Ht. done.
    + destruct Hr as [e ->]. eauto.
  - destruct Hr as [e ->]. eauto.
Qed.

(** After the version, [Unmarshal] reads the rest. *)
Lemma Unmarshal_unfold maxSize bytes dest :
  Unmarshal maxSize bytes (Some (VPtr dest)) =
  if bool_decide (maxSize < Z.of_nat (length bytes))%Z then Some (Prelude.Err ErrUnmarshalTooBig)
  else if bool_decide (Z.of_nat (length bytes) < 2)%Z then Some (Prelude.Err ErrCantUnpackVersion)
  else match unmarshal (BiMap_Len (registeredTypes lc)) (typeof dest) dest []
               (mkPacker None 0 bytes [] 2) with
       | None => None
       | Some (Prelude.Err e, _) => Some (Prelude.Err e)
       | Some (Ok v, p) =>
           if bool_decide (Offset p ≠ Z.of_nat (length bytes)) then Some (Prelude.Err ErrExtraSpace)
           else Some (Ok v)
       end.
Proof.
  unfold Unmarshal. case_bool_decide; [done|]. unfold UnpackShort, read, checkSpace, lenB, ShortLen.
  cbn [Offset Bytes Err MaxSize spare]. rewrite !(bool_decide_eq_false_2 (_ < 0)%Z) by lia.
  rewrite Z.sub_0_r. case_bool_decide; [done|]. unfold Errored. cbn [Err].
  rewrite bool_decide_eq_false_2 by (by intros []). done.
Qed.

Lemma Unmarshal_enc maxSize a b v dest :
  registry_ok lc → val_ok v → val_ok dest → typeof dest = typeof v → encodable [] v = true →
  (2 + Z.of_nat (length (enc v)) ≤ maxSize)%Z →
  Unmarshal maxSize (a :: b :: enc v) (Some (VPtr dest)) = Some (Ok (refill v dest)).
Proof.
  intros Hreg Hv Hd Ht He Hmax. rewrite Unmarshal_unfold, Ht. simpl length.
  rewrite !bool_decide_eq_false_2 by lia.
  rewrite (unmarshal_spec v Hreg Hv [] dest); try done.
  - cbn [Offset seek]. rewrite bool_decide_eq_false_2; [done|]. intros Hne. apply Hne. lia.
  - pose proof (depth_bound v [] Hreg (conj (NoDup_nil_2) (Forall_nil_2 _)) He). simpl in *. lia.
  - split; [done|]. unfold lenB. simpl. lia.
  - unfold reads. cbn [Offset Bytes]. change (Z.to_nat 2) with 2. simpl drop. by apply take_ge.
Qed.

(** [Unmarshal] of any bytes returns; the fuel is never used up. *)
Lemma Unmarshal_total maxSize bs dest :
  registry_ok lc → bytes_ok bs → val_ok dest →
  ∃ r, Unmarshal maxSize bs (Some (VPtr dest)) = Some r ∧ r ≠ Prelude.Err EOutOfFuel.
Proof.
  intros Hreg Hbs Hdest. rewrite Unmarshal_unfold. repeat (case_bool_decide; [by eauto|]).
  set (p := mkPacker None 0 bs [] 2).
  pose proof (unmarshal_total (BiMap_Len (registeredTypes lc)) (typeof dest) [] dest p) as Htot.
  pose proof (unmarshal_enough_fuel (BiMap_Len (registeredTypes lc)) (typeof dest) [] dest Hreg
    (conj NoDup_nil_2 (Forall_nil_2 _)) ltac:(simpl; lia) p) as Hfuel.
  destruct (unmarshal _ _ _ _ p) as [[[v|e] p']|]; [| |done].
  - case_bool_decide; eauto.
  - eexists. split; [done|]. intros [= ->]. by eapply Hfuel.
Qed.

(** What it accepts is a version and the encoding of the value it returns. *)
Lemma Unmarshal_sound maxSize bs dest v :
  registry_ok lc → bytes_ok bs → val_ok dest →
  Unmarshal maxSize bs (Some (VPtr dest)) = Some (Ok v) →
  val_ok v ∧ typeof v = typeof dest ∧ encodable [] v = true ∧
  (Z.of_nat (length bs) ≤ maxSize)%Z ∧ ∃ a b, bs = a :: b :: enc v.
Proof.
  intros Hreg Hbs Hdest. rewrite Unmarshal_unfold. case_bool_decide as Hmax; [done|].
  case_bool_decide as Hlen; [done|]. set (p := mkPacker None 0 bs [] 2).
  assert (packer_wf p) as Hwf by (split; [done|]; unfold lenB; simpl; lia).
  pose proof (unmarshal_sound (BiMap_Len (registeredTypes lc)) (typeof dest) [] dest
    Hreg Hdest eq_refl p) as Hsound.
  destruct (unmarshal _ _ _ _ p) as [[[v'|e] p']|]; [|done..].
  destruct (Hsound v' p' Hwf Hbs eq_refl) as (b & [(Hv & Ht & He) ->] & Hr & ->).
  cbn [seek Offset]. case_bool_decide as Hend; [done|]. intros [= <-].
  split_and!; [done..|lia|]. unfold reads in Hr. cbn [Offset Bytes p] in Hr.
  change (Z.to_nat 2) with 2 in Hr. rewrite take_ge in Hr by (rewrite length_drop; simpl in Hend; lia).
  destruct bs as [|x [|y bs]]; simpl in *; [lia..|]. exists x, y. by rewrite <-Hr.
Qed.

(** So the fields that are not serialized are those of the destination. *)
Lemma Unmarshal_refill maxSize bs dest v :
  registry_ok lc → bytes_ok bs → val_ok dest →
  Unmarshal maxSize bs (Some (VPtr dest)) = Some (Ok v) → refill v dest = v.
Proof.
  intros Hreg Hbs Hdest Hu.
  destruct (Unmarshal_sound maxSize bs dest v Hreg Hbs Hdest Hu) as (Hv & Ht & He & Hl & a & b & ->).
  rewrite Unmarshal_enc in Hu; simpl in *; [by injection Hu|done..|lia].
Qed.
End codec.

(** ** The registry keeps its invariant *)

Lemma registry_ok_New : registry_ok NewCodec.
Proof. split_and!; [apply bimap_wf_New|done|]. intros k t. unfold GetValue. simpl. by rewrite lookup_empty. Qed.

Lemma registry_ok_Register rt c : registry_ok c → registry_ok (RegisterType rt c).2.
Proof.
  intros Hreg. unfold RegisterType. destruct (HasValue rt _); [done|].
  destruct Hreg as (Hwf & Hn & Hr). simpl.
  pose proof (bimap_put_one_to_one (nextTypeID c) rt _ Hwf) as Hp.
  destruct (BiMap_Put _ _ _) as [removed m]. destruct Hp as (Hwf' & _ & _ & Hg & _ & Hk & _).
  split_and!; [done|by apply wrapU_range|]. simpl. intros k t Ht.
  destruct (decide (k = nextTypeID c)) as [->|Hne]; [done|]. apply Hk in Ht as [Ht _]; [|done].
  by eapply Hr.
Qed.

Lemma registry_ok_Skip n c : registry_ok c → registry_ok (SkipRegistrations n c).
Proof. intros (? & ? & ?). split_and!; [done|by apply wrapU_range|done]. Qed.

(** C39: the codec's round trip.  For every value a Go type allows, [Marshal] returns
    bytes exactly when the value can be encoded (no nil pointer or interface,
    interface types registered and not nested in themselves, lengths within
    their limits, no empty slice elements, only exported fields tagged) and the
    bytes with the two of the version fit [maxSize]; [Size] is then their number, and
    [Unmarshal] into a destination of the same type gives the value back,
    fields that are not tagged keeping what the destination had.  The two version
    bytes are not looked at: with any others in their place the result is the same. *)
Theorem codec_roundtrip (grow : nat → nat) (type_of : nat → typ) (implements : nat → nat → bool)
    (tags : list string) (lc : linearCodec) (maxSize : Z) (v dest : val)
    (Hreg : registry_ok lc) (Hv : val_ok type_of implements v)
    (Hdest : val_ok type_of implements dest) (Htype : typeof dest = typeof v) :
  ∃ r, Marshal grow tags lc maxSize (Some (VPtr v)) = Some r ∧
    ((∃ bs, r = Ok bs) ↔
       encodable tags lc [] v = true ∧ (2 + Z.of_nat (length (enc tags lc v)) ≤ maxSize)%Z) ∧
    ∀ bs, r = Ok bs →
      manager_Size tags (Some (VPtr v)) = Ok (Z.of_nat (length bs)) ∧
      Unmarshal type_of implements tags lc maxSize bs (Some (VPtr dest))
        = Some (Ok (refill type_of tags v dest)) ∧
      ∀ a b, Unmarshal type_of implements tags lc maxSize (a :: b :: drop 2 bs) (Some (VPtr dest))
        = Some (Ok (refill type_of tags v dest)).
Proof.
  destruct (Marshal_spec grow type_of implements tags lc maxSize (VPtr v) Hreg (ok_ptr _ _ _ Hv))
    as (r & Hm & Hr). exists r. split; [done|]. cbn [encodable enc] in Hr.
  destruct (encodable tags lc [] v) eqn:He; simpl in Hr; [revert Hr; case_bool_decide as Hf|].
  - intros ->. split; [naive_solver|]. intros bs [= <-]. cbn [drop]. split_and!.
    + unfold manager_Size, Size. cbn [size].
      destruct (size_spec type_of implements tags lc v [] Hv He) as [c ->]. simpl.
      f_equal. unfold ShortLen. lia.
    + by apply Unmarshal_enc.
    + intros a b. by apply Unmarshal_enc.
  - intros [e ->]. split; [naive_solver|naive_solver].
  - destruct Hr as [e ->]. split; [naive_solver|naive_solver].
Qed.

(** Decoding is canonical and always ends.  [Unmarshal] of any bytes returns (the
    fuel of the model, the number of registered types, is never used up); and if it
    returns a value, that value has the destination's type and [Marshal] of it gives
    back the very bytes, up to the two of the version: apart from those, no two
    byte strings decode to the same value. *)
Theorem codec_canonical (grow : nat → nat) (type_of : nat → typ) (implements : nat → nat → bool)
    (tags : list string) (lc : linearCodec) (maxSize : Z) (bs : list Z) (dest : val)
    (Hreg : registry_ok lc) (Hbs : bytes_ok bs) (Hdest : val_ok type_of implements dest) :
  ∃ r, Unmarshal type_of implements tags lc maxSize bs (Some (VPtr dest)) = Some r ∧
    r ≠ Prelude.Err EOutOfFuel ∧
    ∀ v, r = Ok v → typeof v = typeof dest ∧
      Marshal grow tags lc maxSize (Some (VPtr v)) = Some (Ok (0%Z :: 0%Z :: drop 2 bs)).
Proof.
  destruct (Unmarshal_total type_of implements tags lc maxSize bs dest Hreg Hbs Hdest)
    as (r & Hu & Hfuel). exists r. split; [done|]. split; [done|]. intros v ->.
  destruct (Unmarshal_sound type_of implements tags lc maxSize bs dest v Hreg Hbs Hdest Hu)
    as (Hv & Ht & He & Hlen & a & b & ->). split; [done|].
  destruct (Marshal_spec grow type_of implements tags lc maxSize (VPtr v) Hreg (ok_ptr _ _ _ Hv))
    as (r & -> & Hm). cbn [encodable enc] in Hm. rewrite He in Hm. simpl in *.
  rewrite bool_decide_eq_true_2 in Hm by lia. by rewrite Hm.
Qed.

(** ** An example

    A struct with a field that is not tagged, an array, a slice of strings and an
    interface holding a registered struct. *)

Definition demo_types (rt : nat) : typ := TStruct [(tagged "X", TInt W16)].
Definition demo_registry : linearCodec := (RegisterType 7 NewCodec).2.
Definition demo_value : val :=
  VStruct [(tagged "ID", VArray (TUint W8) [VUint W8 1; VUint W8 2]);
           (untagged "key", VBool true);
           (tagged "Names", VSlice TString [VString [65]; VString []]);
           (tagged "Body", VInterface 0 7 (VStruct [(tagged "X", VInt W16 (-2))]))]%Z.
Definition demo_dest : val :=
  VStruct [(tagged "ID", VArray (TUint W8) [VUint W8 0; VUint W8 0]);
           (untagged "key", VBool false);
           (tagged "Names", VSlice TString []);
           (tagged "Body", VNilInterface 0)]%Z.
Definition demo_bytes : list Z :=
  [0; 0; 1; 2; 0; 0; 0; 2; 0; 1; 65; 0; 0; 0; 0; 0; 0; 255; 254]%Z.

Lemma demo_registry_ok : registry_ok demo_registry.
Proof. apply registry_ok_Register, registry_ok_New. Qed.
Lemma demo_value_ok : val_ok demo_types (λ _ _, true) demo_value.
Proof. repeat constructor; unfold inU, inS; vm_compute; done. Qed.
Lemma demo_dest_ok : val_ok demo_types (λ _ _, true) demo_dest.
Proof. repeat constructor; unfold inU, inS; vm_compute; done. Qed.

Lemma codec_roundtrip_witness :
  Marshal (λ n, n) ["serialize"%string] demo_registry 100 (Some (VPtr demo_value))
    = Some (Ok demo_bytes) ∧
  Unmarshal demo_types (λ _ _, true) ["serialize"%string] demo_registry 100 demo_bytes
    (Some (VPtr demo_dest)) = Some (Ok (refill demo_types ["serialize"%string] demo_value demo_dest)).
Proof.
  assert (Marshal (λ n, n) ["serialize"%string] demo_registry 100 (Some (VPtr demo_value))
    = Some (Ok demo_bytes)) as Hm by (vm_compute; reflexivity).
  split; [exact Hm|].
  destruct (codec_roundtrip (λ n, n) demo_types (λ _ _, true) ["serialize"%string] demo_registry 100
    demo_value demo_dest demo_registry_ok demo_value_ok demo_dest_ok eq_refl)
    as (r & Hr & _ & Hok).
  rewrite Hm in Hr. injection Hr as Hr. exact (proj1 (proj2 (Hok demo_bytes (eq_sym Hr)))).
Defined.

Lemma codec_canonical_witness :
  ∃ v, Unmarshal demo_types (λ _ _, true) ["serialize"%string] demo_registry 100 demo_bytes
         (Some (VPtr demo_dest)) = Some (Ok v) ∧
       Marshal (λ n, n) ["serialize"%string] demo_registry 100 (Some (VPtr v)) = Some (Ok demo_bytes).
Proof.
  assert (bytes_ok demo_bytes) as Hb by (repeat constructor; unfold inU; vm_compute; done).
  destruct (codec_canonical (λ n, n) demo_types (λ _ _, true) ["serialize"%string] demo_registry 100
    demo_bytes demo_dest demo_registry_ok Hb demo_dest_ok) as (r & Hr & _ & Hok).
  assert (r = Ok (refill demo_types ["serialize"%string] demo_value demo_dest)) as ->.
  { assert (Some r = Some (Ok (refill demo_types ["serialize"%string] demo_value demo_dest))) as H
      by (rewrite <-Hr; vm_compute; reflexivity). by injection H. }
  eexists. split; [exact Hr|]. exact (proj2 (Hok _ eq_refl)).
Defined.
