(* ===== verification/CodecValues.v ===== *)
(** * Byte arrays and slices as codec values

    What the types encoded in this repository are made of: fields tagged for the
    default codec ([linearcodec.NewDefault]), byte arrays ([ids.ID], [ids.NodeID],
    signatures) and byte slices. *)

From S2P Require Import Prelude Packer Bimap Codec.

(** The tag names of [NewDefault]. *)
Definition DefaultTags : list string := ["serialize"%string].

Definition bytes_val (bs : list Z) : val := VArray (TUint W8) (VUint W8 <$> bs).
Definition slice_val (bs : list Z) : val := VSlice (TUint W8) (VUint W8 <$> bs).

Lemma captureField_tagged n : captureField DefaultTags (tagged n) = true.
Proof. done. Qed.
Lemma captureField_untagged n : captureField DefaultTags (untagged n) = false.
Proof. done. Qed.

Lemma bytes_of_fmap bs : bytes_of (VUint W8 <$> bs) = bs.
Proof. unfold bytes_of. induction bs; csimpl; congruence. Qed.

Section values.
Context (type_of : nat → typ) (implements : nat → nat → bool) (tags : list string) (lc : linearCodec).

Lemma byte_vals_ok bs :
  bytes_ok bs →
  Forall (λ x, typeof x = TUint W8) (VUint W8 <$> bs) ∧
  Forall (val_ok type_of implements) (VUint W8 <$> bs).
Proof.
  intros Hb. split; apply Forall_fmap.
  - by apply Forall_true.
  - eapply Forall_impl; [exact Hb|]. intros z Hz. by constructor.
Qed.

Lemma bytes_val_ok bs : bytes_ok bs → val_ok type_of implements (bytes_val bs).
Proof. intros [??]%byte_vals_ok. by constructor. Qed.

Lemma slice_val_ok bs : bytes_ok bs → val_ok type_of implements (slice_val bs).
Proof. intros [??]%byte_vals_ok. by constructor. Qed.

Lemma encodable_bytes_val st bs : encodable tags lc st (bytes_val bs) = true.
Proof. simpl. induction bs; csimpl; auto. Qed.

Lemma encodable_slice_val st bs :
  encodable tags lc st (slice_val bs) = bool_decide (Z.of_nat (length bs) ≤ MaxInt32)%Z.
Proof.
  cbn [slice_val encodable]. rewrite length_fmap.
  replace (forallb _ _) with true; [apply andb_true_r|].
  induction bs; csimpl; auto.
Qed.

Lemma enc_bytes_val bs : bytes_ok bs → enc tags lc (bytes_val bs) = bs.
Proof. intros. by apply enc_bytes. Qed.

Lemma enc_slice_val bs :
  bytes_ok bs → enc tags lc (slice_val bs) = be_encode 4 (Z.of_nat (length bs)) ++ bs.
Proof. intros. cbn [slice_val enc]. by rewrite length_fmap, enc_bytes. Qed.

Lemma refill_bytes_val bs ds :
  length ds = length bs → refill type_of tags (bytes_val bs) (bytes_val ds) = bytes_val bs.
Proof.
  intros Hl. unfold bytes_val. cbn [refill elems_of].
  rewrite refill_elems_bytes by (rewrite length_fmap; done). done.
Qed.

Lemma refill_slice_val bs d : refill type_of tags (slice_val bs) d = slice_val bs.
Proof. unfold slice_val. cbn [refill]. by rewrite refill_bytes. Qed.

Lemma typeof_bytes_val bs : typeof (bytes_val bs) = TArray (length bs) (TUint W8).
Proof. unfold bytes_val. cbn [typeof]. by rewrite length_fmap. Qed.

Context (grow : nat → nat).

Lemma Marshal_ok maxSize v :
  registry_ok lc → val_ok type_of implements v → encodable tags lc [] v = true →
  (2 + Z.of_nat (length (enc tags lc v)) ≤ maxSize)%Z →
  Marshal grow tags lc maxSize (Some (VPtr v)) = Some (Ok (0%Z :: 0%Z :: enc tags lc v)).
Proof.
  intros Hreg Hv He Hl.
  destruct (Marshal_spec grow type_of implements tags lc maxSize (VPtr v) Hreg (ok_ptr _ _ _ Hv))
    as (r & -> & Hr). cbn [encodable enc] in Hr.
  rewrite He, bool_decide_eq_true_2 in Hr by done. by rewrite Hr.
Qed.

(** *** Shapes of well-typed values *)

Lemma bytes_val_inv n v :
  val_ok type_of implements v → typeof v = TArray n (TUint W8) →
  ∃ bs, v = bytes_val bs ∧ bytes_ok bs ∧ length bs = n.
Proof.
  intros Hv Ht. destruct v; try done. injection Ht as Hn ->. inversion Hv; subst.
  destruct (byte_elems type_of implements l) as [He Hb]; [done..|]. exists (bytes_of l).
  split_and!; [unfold bytes_val; by rewrite <-He|done|]. by rewrite <-(length_fmap (VUint W8)), <-He.
Qed.

Lemma slice_val_inv v :
  val_ok type_of implements v → typeof v = TSlice (TUint W8) →
  ∃ bs, v = slice_val bs ∧ bytes_ok bs.
Proof.
  intros Hv Ht. destruct v; try done. injection Ht as ->. inversion Hv; subst.
  destruct (byte_elems type_of implements l) as [He Hb]; [done..|]. exists (bytes_of l).
  split; [unfold slice_val; by rewrite <-He|done].
Qed.
End values.
