(* ===== verification/CodecMaps.v ===== *)
(** * Maps in the codec

    The [reflect.Map] cases of [size], [marshal] and [unmarshal]
    (src/utils/codec/reflectcodec/type_codec.go).  The recursive calls of the codec on keys
    and elements are the operations of a class, [Elem]: what the map cases rely on are its
    laws, which Codec.v's lemmas give for every type without maps, and which maps have
    again, so that maps may be nested in maps.

    A map is the list of its entries in the order in which Go visits them.  Encoding does
    not depend on that order. *)



From S2P Require Import Prelude Packer Bimap Codec.

(** ** The codec on keys and elements *)

Class Elem (V : Type) := {
  e_size : V → result cerr (Z * bool);
  e_marshal : V → PM ();
  (** into a new value *)
  e_unmarshal : PM V;
}.

(** Go's equality of a key with one just decoded, and whether the key can be hashed. *)
Class Key (K : Type) := {
  go_eq : K → K → bool;
  hashable : K → bool;
}.

(** [bs[a:b]] *)
Definition sub (a b : Z) (bs : list Z) : list Z := drop (Z.to_nat a) (take (Z.to_nat b) bs).

Definition get_packer : PM Packer := λ p, Some (Ok p, p).
Definition set_offset (o : Z) : PM () := λ p, Some (Ok (), seek o p).
Definition or_panic {A} (o : option A) : PM A := λ p, (λ a, (Ok a, p)) <$> o.

Section map.
Context {K V : Type} `{!Elem K, !Key K, !Elem V} `{!SortFunc} (grow : nat → nat).

(** ** size *)

Fixpoint size_values {X} `{!Elem X} (l : list X) (total : Z) : result cerr Z :=
  match l with
  | [] => Ok total
  | x :: l' => r ← e_size x; size_values l' (total + r.1)%Z
  end.

Fixpoint size_entries (l : list (K * V)) (total : Z) : result cerr Z :=
  match l with
  | [] => Ok total
  | (k, v) :: l' => rk ← e_size k; rv ← e_size v; size_entries l' (total + (rk.1 + rv.1))%Z
  end.

Definition size_map (l : list (K * V)) : result cerr (Z * bool) :=
  match l with
  | [] => Ok (IntLen, false)
  | (k, v) :: rest =>
      let numElts := Z.of_nat (length l) in
      rk ← e_size k;
      rv ← e_size v;
      if bool_decide (rk.1 = 0 ∧ rv.1 = 0)%Z then Prelude.Err ErrMarshalZeroLength
      else if rk.2 && rv.2 then Ok (IntLen + numElts * (rk.1 + rv.1), false)%Z
      else if rk.2 : bool then
        totalValueSize ← size_values rest.*2 rv.1;
        Ok (IntLen + numElts * rk.1 + totalValueSize, false)%Z
      else if rv.2 : bool then
        totalKeySize ← size_values rest.*1 rk.1;
        Ok (IntLen + totalKeySize + numElts * rv.1, false)%Z
      else
        totalSize ← size_entries rest (IntLen + rk.1 + rv.1)%Z;
        Ok (totalSize, false)
  end.

(** ** marshal *)

Record keyTuple := mkTuple { kt_entry : K * V; startIndex : Z; endIndex : Z }.

Fixpoint marshal_keys (l : list (K * V)) (endOffset : Z) : PM (list keyTuple) :=
  match l with
  | [] => mret []
  | e :: l' =>
      e_marshal e.1;;
      pack Some;;
      o ← offset;
      rest ← marshal_keys l' o;
      mret (mkTuple e endOffset o :: rest)
  end.

Definition key_bytes (p : Packer) (t : keyTuple) : list Z := sub (startIndex t) (endIndex t) (Bytes p).

Fixpoint marshal_entries (allKeyBytes : list Z) (startOffset : Z) (l : list keyTuple) : PM () :=
  match l with
  | [] => mret ()
  | key :: l' =>
      keyStartOffset ← offset;
      (pack (PackFixedBytes grow (sub (startIndex key - startOffset) (endIndex key - startOffset) allKeyBytes));;
       e_marshal (kt_entry key).2);;
      o ← offset;
      if bool_decide (keyStartOffset = o) then fail ErrMarshalZeroLength
      else marshal_entries allKeyBytes startOffset l'
  end.

(** The keys are written first, to sort them by their bytes; then the entries are written
    over them. *)
Definition marshal_map (l : list (K * V)) : PM () :=
  let numElts := Z.of_nat (length l) in
  if bool_decide (MaxInt32 < numElts)%Z then fail ErrMaxSliceLenExceeded
  else
    pack (PackInt grow (wrapU 32 numElts));;
    startOffset ← offset;
    keys ← marshal_keys l startOffset;
    p ← get_packer;
    let sortedKeys := slices_SortFunc (λ a b, bytes_compare (key_bytes p a) (key_bytes p b)) keys in
    let allKeyBytes := sub startOffset (Offset p) (Bytes p) in
    set_offset startOffset;;
    marshal_entries allKeyBytes startOffset sortedKeys.

(** ** unmarshal *)

(** An entry with an equal key is replaced; a key that cannot be hashed panics. *)
Definition SetMapIndex (k : K) (v : V) (m : list (K * V)) : option (list (K * V)) :=
  if hashable k then Some (filter (λ e, go_eq e.1 k = false) m ++ [(k, v)]) else None.

Fixpoint unmarshal_entries (numElts : nat) (prevKey : option (list Z)) (m : list (K * V)) : PM (list (K * V)) :=
  match numElts with
  | O => mret m
  | S n =>
      keyStartOffset ← offset;
      mapKey ← e_unmarshal;
      p ← get_packer;
      let keyBytes := sub keyStartOffset (Offset p) (Bytes p) in
      if (match prevKey with Some prev => bool_decide (bytes_le keyBytes prev) | None => false end) then fail errKeysNotSorted
      else
        mapValue ← e_unmarshal;
        o ← offset;
        if bool_decide (keyStartOffset = o) then fail ErrUnmarshalZeroLength
        else
          m' ← or_panic (SetMapIndex mapKey mapValue m);
          unmarshal_entries n (Some keyBytes) m'
  end.

Definition unmarshal_map : PM (list (K * V)) :=
  numElts ← unpack UnpackInt;
  if bool_decide (MaxInt32 < numElts)%Z then fail ErrMaxSliceLenExceeded
  else unmarshal_entries (Z.to_nat numElts) None [].
End map.
Arguments keyTuple : clear implicits.
Arguments unmarshal_map {K V _ _ _}.

Definition map_Elem {K V} `{!Elem K, !Key K, !Elem V, !SortFunc} (grow : nat → nat) : Elem (list (K * V)) :=
  {| e_size := size_map; e_marshal := marshal_map grow; e_unmarshal := unmarshal_map |}.

(** ** What the map cases rely on

    The values the codec is for, their bytes, those that can be encoded, and what decoding
    gives back. *)

Class ElemLaws (V : Type) `{!Elem V} := {
  e_ok : V → Prop;
  e_enc : V → list Z;
  e_good : V → bool;
  e_back : V → V;
  e_bytes v : e_ok v → bytes_ok (e_enc v);
  e_sized v : e_ok v → e_good v = true →
    ∃ c, e_size v = Ok (Z.of_nat (length (e_enc v)), c) ∧
      (c = true → ∀ v', e_ok v' → e_good v' = true → length (e_enc v') = length (e_enc v));
  e_marshals v : e_ok v → marshals (e_marshal v) (e_enc v) (e_good v);
  e_unmarshals v : e_ok v → e_good v = true → unmarshals e_unmarshal (e_enc v) (e_back v);
  e_decodes : decodes e_unmarshal (λ v bs, e_ok v ∧ e_good v = true ∧ bs = e_enc v);
  e_total p : packer_wf p → bytes_ok (Bytes p) → e_unmarshal p ≠ None;
}.

Class KeyLaws (K : Type) `{!Elem K, !Key K, !ElemLaws K} : Prop := {
  go_eq_eq (k k' : K) : e_ok k → e_ok k' → go_eq k k' = true → k = k';
  ok_hashable (k : K) : e_ok k → e_good k = true → hashable k = true;
}.

(** Decoding gives back a value with the same bytes. *)
Lemma e_back_spec {V} `{!Elem V, !ElemLaws V} (v : V) : e_ok v → e_good v = true →
  e_ok (e_back v) ∧ e_good (e_back v) = true ∧ e_enc (e_back v) = e_enc v.
Proof.
  intros Hv Hg. set (p := mkPacker None 0 (e_enc v) [] 0).
  assert (packer_wf p) as Hwf by (split; [done|]; unfold lenB; cbn; lia).
  assert (reads p (e_enc v)) as Hr by (unfold reads; cbn; by rewrite take_ge).
  destruct (e_decodes p (e_back v) _ Hwf (e_bytes v Hv) (e_unmarshals v Hv Hg p Hwf Hr)) as (bs & (H1 & H2 & ->) & Hb & Hs).
  split; [done|]. split; [done|]. apply (f_equal Offset) in Hs. unfold reads in Hb. cbn in Hs, Hb.
  rewrite drop_0, take_ge in Hb by lia. done.
Qed.

(** ** Lists *)

Lemma sub_sub so off a b bs : (0 ≤ so ≤ a)%Z → (a ≤ b ≤ off)%Z → sub (a - so) (b - so) (sub so off bs) = sub a b bs.
Proof.
  intros H1 H2. unfold sub. rewrite firstn_skipn_comm, drop_drop, take_take. f_equal; [lia|]. f_equal. lia.
Qed.

Lemma sub_app o l bs : (0 ≤ o)%Z → take (Z.to_nat (o + Z.of_nat (length bs))) l = take (Z.to_nat o) l ++ bs →
  Z.to_nat o ≤ length l → sub o (o + Z.of_nat (length bs)) l = bs.
Proof.
  intros Ho Ht Hl. unfold sub. rewrite Ht, drop_app_length'; [done|]. rewrite length_take. lia.
Qed.

Lemma sub_reads p bs : packer_wf p → reads p bs → sub (Offset p) (Offset p + Z.of_nat (length bs)) (Bytes p) = bs.
Proof.
  intros [_ Ho] Hr. unfold reads in Hr. unfold sub. rewrite <-Hr at 2. rewrite firstn_skipn_comm. f_equal. f_equal. lia.
Qed.

Lemma forallb_perm {A} (f : A → bool) l l' : l ≡ₚ l' → forallb f l = forallb f l'.
Proof. induction 1; cbn; [done|congruence| |congruence]. by rewrite !andb_assoc, (andb_comm (f y)). Qed.

Lemma concat_perm_length {A} (f : A → list Z) l l' : l ≡ₚ l' → length (concat (map f l)) = length (concat (map f l')).
Proof. induction 1; cbn; rewrite ?length_app; lia. Qed.

Section proofs.
Context {K V : Type} `{!Elem K, !Key K, !Elem V, !SortFunc} `{!ElemLaws K, !ElemLaws V} (grow : nat → nat).

(** ** Specification *)

Definition entry_enc (e : K * V) : list Z := e_enc e.1 ++ e_enc e.2.
Definition entry_good (e : K * V) : bool := e_good e.1 && (e_good e.2 && bool_decide (entry_enc e ≠ [])).
Definition entry_ok (e : K * V) : Prop := e_ok e.1 ∧ e_ok e.2.
Definition key_le (e e' : K * V) : Prop := bytes_le (e_enc e.1) (e_enc e'.1).
#[local] Instance key_le_dec : RelDecision key_le.
Proof. intros e e'. apply bytes_le_dec. Defined.
#[local] Instance key_le_total : Total key_le.
Proof. intros e e'. apply bytes_le_total. Qed.
#[local] Instance key_le_trans : Transitive key_le.
Proof. intros e e' e''. apply bytes_le_trans. Qed.

(** The entries in the order of the bytes of their keys. *)
Definition sorted (l : list (K * V)) : list (K * V) := merge_sort key_le l.

Definition map_ok (l : list (K * V)) : Prop := Forall entry_ok l ∧ NoDup ((λ e, e_enc e.1) <$> l).
Definition map_enc (l : list (K * V)) : list Z := be_encode 4 (Z.of_nat (length l)) ++ concat (map entry_enc (sorted l)).
Definition map_good (l : list (K * V)) : bool := bool_decide (Z.of_nat (length l) ≤ MaxInt32)%Z && forallb entry_good l.
Definition map_back (l : list (K * V)) : list (K * V) := (λ e, (e_back e.1, e_back e.2)) <$> sorted l.

Lemma sorted_perm l : sorted l ≡ₚ l.
Proof. apply merge_sort_Permutation. Qed.
Lemma sorted_sorted l : StronglySorted key_le (sorted l).
Proof. apply StronglySorted_merge_sort; apply _. Qed.

Lemma sorted_unique l l' : map_ok l → l' ≡ₚ l → StronglySorted key_le l' → l' = sorted l.
Proof.
  intros [_ Hnd] Hp Hs. eapply (StronglySorted_unique_strong key_le); [|done|apply sorted_sorted|by rewrite sorted_perm].
  intros e e' He He' H1 H2. rewrite Hp in He. rewrite sorted_perm in He'.
  pose proof (anti_symm bytes_le _ _ H1 H2) as E.
  apply list_elem_of_lookup in He as [i Hi]. apply list_elem_of_lookup in He' as [j Hj].
  assert (i = j) as ->; [|congruence].
  eapply (NoDup_lookup _ i j); [done| |]; rewrite list_lookup_fmap, ?Hi, ?Hj; cbn; [done|]. by rewrite E.
Qed.

(** ** Writing *)

Lemma wrote_sub p p' bs a b : packer_wf p → wrote p p' bs → (b ≤ Offset p)%Z → sub a b (Bytes p') = sub a b (Bytes p).
Proof.
  intros [_ Hp] (_ & _ & Ho & Ht & _) Hb. unfold sub. f_equal. unfold lenB in Hp.
  apply (f_equal (take (Z.to_nat b))) in Ht. rewrite take_take, take_app_le, take_take in Ht by (rewrite length_take; lia).
  by rewrite !Nat.min_l in Ht by lia.
Qed.

Lemma wrote_sub_new p p' bs : packer_wf p → wrote p p' bs → sub (Offset p) (Offset p') (Bytes p') = bs.
Proof.
  intros [_ Hp] (_ & _ & Ho & Ht & _). unfold sub, lenB in *. rewrite Ht, drop_app_length'; [done|]. rewrite length_take. lia.
Qed.

(** A key's bytes in the packer. *)
Definition tuple_ok (p0 p : Packer) (t : keyTuple K V) : Prop :=
  (Offset p0 ≤ startIndex t ≤ endIndex t)%Z ∧ (endIndex t ≤ Offset p)%Z ∧ key_bytes p t = e_enc (kt_entry t).1.

Lemma pack_Some_ok p : Err p = None → pack Some p = Some (Ok (), p).
Proof. intros E. unfold pack. by rewrite E. Qed.

Lemma marshal_keys_spec l p : packer_wf p → Forall entry_ok l →
  let bs := concat (map (λ e, e_enc e.1) l) in
  ∃ r p', marshal_keys l (Offset p) p = Some (r, p') ∧
    if forallb (λ e, e_good e.1) l && bool_decide (Offset p + Z.of_nat (length bs) ≤ limit p)%Z
    then ∃ ts, r = Ok ts ∧ wrote p p' bs ∧ kt_entry <$> ts = l ∧ Forall (tuple_ok p p') ts
    else ∃ e, r = Prelude.Err e.
Proof.
  intros Hwf Hl. revert p Hwf. induction Hl as [|e l [Hk _] _ IH]; intros p Hwf bs; cbn [marshal_keys].
  { eexists _, p. split; [done|]. cbn. pose proof Hwf as [_ Ho]. rewrite bool_decide_eq_true_2 by (unfold limit; lia).
    exists []. split_and!; [done|by apply wrote_nil|done|constructor]. }
  destruct (e_marshals e.1 Hk p Hwf) as (r1 & p1 & E1 & Hr1). unfold mbind, PM_bind. rewrite E1.
  subst bs. cbn [map concat forallb]. rewrite length_app, Nat2Z.inj_add, Z.add_assoc.
  destruct (decide (Offset p + Z.of_nat (length (e_enc e.1)) ≤ limit p)%Z) as [Hf|Hf].
  2: { rewrite (bool_decide_eq_false_2 _ Hf), andb_false_r in Hr1. destruct Hr1 as [e' ->]. do 2 eexists. split; [done|].
       rewrite (bool_decide_eq_false_2 (_ ≤ _)%Z) by lia. rewrite andb_false_r. eauto. }
  rewrite (bool_decide_eq_true_2 _ Hf), andb_true_r in Hr1. destruct (e_good e.1); cbn [andb].
  2: { destruct Hr1 as [e' ->]. do 2 eexists. split; [done|]. eauto. }
  destruct Hr1 as [-> Hw]. pose proof Hw as (Hwf1 & _ & Ho1 & _). rewrite (pack_Some_ok _ (proj1 Hwf1)). unfold offset.
  destruct (IH p1 Hwf1) as (r2 & p2 & E2 & Hr2). rewrite E2, (wrote_limit _ _ _ Hw), Ho1 in *.
  destruct (_ && _).
  - destruct Hr2 as (ts & -> & Hw2 & Hts & Hall). do 2 eexists. split; [done|]. eexists. split; [done|].
    split_and!; [by eapply wrote_trans|cbn; by rewrite Hts|]. pose proof Hw2 as (_ & _ & Ho2 & _). constructor.
    + split_and!; cbn; [lia|lia|lia|]. unfold key_bytes. cbn.
      rewrite (wrote_sub p1 p2 _ _ _ Hwf1 Hw2) by lia. rewrite <-Ho1. by apply wrote_sub_new.
    + eapply Forall_impl; [done|]. intros t (? & ? & ?). split_and!; [lia|lia|done|done].
  - destruct Hr2 as [e' ->]. do 2 eexists. split; [done|]. eauto.
Qed.

Lemma marshal_entries_spec p0 p ts : packer_wf p0 → Forall entry_ok (kt_entry <$> ts) → Forall (tuple_ok p0 p) ts →
  marshals (marshal_entries grow (sub (Offset p0) (Offset p) (Bytes p)) (Offset p0) ts)
    (concat (map entry_enc (kt_entry <$> ts))) (forallb (λ e, e_good e.2 && bool_decide (entry_enc e ≠ [])) (kt_entry <$> ts)).
Proof.
  intros [_ H0] Hok. induction 1 as [|t ts (Hse & He & Hb) _ IH]; [apply marshals_ret|].
  cbn [fmap list_fmap] in Hok. apply Forall_cons in Hok as [[Hk Hv] Hok]. cbn [marshal_entries fmap list_fmap map concat forallb].
  apply marshals_nonempty; [|by apply IH]. rewrite sub_sub by lia. fold (key_bytes p t). rewrite Hb.
  change (e_good (kt_entry t).2) with (true && e_good (kt_entry t).2). apply marshals_bind.
  - apply (marshals_item grow (IFixed (e_enc (kt_entry t).1))). by apply e_bytes.
  - by apply e_marshals.
Qed.

Lemma sort_tuples p l ts : map_ok l → kt_entry <$> ts = l → Forall (λ t, key_bytes p t = e_enc (kt_entry t).1) ts →
  let s := slices_SortFunc (λ a b, bytes_compare (key_bytes p a) (key_bytes p b)) ts in
  s ≡ₚ ts ∧ kt_entry <$> s = sorted l.
Proof.
  intros Hl Hts Hall s. assert (s ≡ₚ ts) as Hp by apply SortFunc_perm. split; [done|].
  apply sorted_unique; [done|by rewrite Hp, Hts|].
  assert (StronglySorted (λ a b, bytes_compare (key_bytes p a) (key_bytes p b) ≠ Gt) s) as Hs.
  { apply SortFunc_sorted; [intros; apply bytes_compare_opp|intros x y z; apply bytes_le_trans]. }
  rewrite <-Hp in Hall. clear Hp. induction Hs as [|t s Hs IH Ht]; cbn; [constructor|].
  apply Forall_cons in Hall as [Ht' Hall]. constructor; [by apply IH|]. apply Forall_fmap.
  rewrite Forall_forall in *. intros t' Hin. cbn. unfold key_le, bytes_le. rewrite <-Ht', <-Hall by done. by apply Ht.
Qed.

(** Writing over what was written before. *)
Lemma wrote_over p p1 p2 ks bs : packer_wf p → wrote p p1 ks → length ks ≤ length bs → wrote (seek (Offset p) p1) p2 bs → wrote p p2 bs.
Proof.
  intros [_ Hp] (H1 & H2 & H3 & H4 & H5 & H6) Hle (G1 & G2 & G3 & G4 & G5 & G6). cbn in *. unfold wrote, lenB in *. cbn in *.
  split_and!; [done|congruence|lia| |lia|lia]. rewrite G4. f_equal.
  apply (f_equal (take (Z.to_nat (Offset p)))) in H4. rewrite take_take, take_app_le, take_take in H4 by (rewrite length_take; lia).
  by rewrite !Nat.min_l in H4 by lia.
Qed.

Lemma keys_shorter l : length (concat (map (λ e : K * V, e_enc e.1) l)) ≤ length (concat (map entry_enc l)).
Proof. induction l as [|e l IH]; cbn; [done|]. unfold entry_enc at 1. rewrite !length_app. lia. Qed.

Lemma entries_good l : forallb entry_good l =
  forallb (λ e, e_good e.1) l && forallb (λ e, e_good e.2 && bool_decide (entry_enc e ≠ [])) l.
Proof.
  induction l as [|e l IH]; cbn [forallb]; [done|]. rewrite IH. unfold entry_good.
  destruct (e_good e.1), (e_good e.2 && bool_decide (entry_enc e ≠ [])), (forallb (λ e, e_good e.1) l); done.
Qed.

Lemma marshals_map l : map_ok l → marshals (marshal_map grow l) (map_enc l) (map_good l).
Proof.
  intros Hl. unfold marshal_map, map_good.
  destruct (decide (Z.of_nat (length l) ≤ MaxInt32)%Z) as [Hmax|Hmax].
  2: { rewrite (bool_decide_eq_true_2 (_ < _)%Z), (bool_decide_eq_false_2 (_ ≤ _)%Z) by lia. apply marshals_fail. }
  rewrite (bool_decide_eq_false_2 (_ < _)%Z), (bool_decide_eq_true_2 (_ ≤ _)%Z) by lia. cbn [andb].
  rewrite wrapU_id by (unfold inU, MaxInt32 in *; lia). unfold map_enc. change (forallb entry_good l) with (true && forallb entry_good l).
  apply marshals_bind; [apply (marshals_item grow (IInt (Z.of_nat (length l)))); cbn; unfold inU, MaxInt32 in *; lia|].
  intros p Hwf. pose proof Hl as [Hok _].
  destruct (marshal_keys_spec l p Hwf Hok) as (r & p1 & E & Hr). unfold mbind, PM_bind, offset. rewrite E.
  pose proof (keys_shorter l) as Hks. pose proof (concat_perm_length entry_enc _ _ (sorted_perm l)) as Hlen.
  rewrite entries_good. destruct (forallb (λ e, e_good e.1) l); cbn [andb] in *.
  2: { destruct Hr as [e ->]. eauto. }
  destruct (decide (Offset p + Z.of_nat (length (concat (map (λ e : K * V, e_enc e.1) l))) ≤ limit p)%Z) as [Hf|Hf].
  2: { rewrite (bool_decide_eq_false_2 _ Hf) in Hr. destruct Hr as [e ->]. do 2 eexists. split; [done|].
       rewrite (bool_decide_eq_false_2 (_ ≤ _)%Z) by lia. rewrite andb_false_r. eauto. }
  rewrite (bool_decide_eq_true_2 _ Hf) in Hr. destruct Hr as (ts & -> & Hw & Hts & Hall). cbn [get_packer set_offset].
  destruct (sort_tuples p1 l ts Hl Hts) as [Hp Hs]; [eapply Forall_impl; [done|]; by intros t (_ & _ & ?)|].
  set (s := slices_SortFunc _ ts) in *.
  assert (packer_wf (seek (Offset p) p1)) as Hwf2.
  { destruct Hw as ([He ?] & _ & _ & _ & ? & _), Hwf as [_ ?]. split; [done|]. unfold lenB in *. cbn. lia. }
  destruct (marshal_entries_spec p p1 s Hwf) with (p := seek (Offset p) p1) as (r2 & p2 & E2 & Hr2); [| |done|].
  { rewrite Hs, sorted_perm. done. }
  { by rewrite Hp. }
  rewrite E2, Hs, (forallb_perm _ _ _ (sorted_perm l)) in *. replace (limit (seek (Offset p) p1)) with (limit p1) in Hr2 by done.
  rewrite (wrote_limit _ _ _ Hw) in Hr2. cbn [seek Offset] in Hr2. do 2 eexists. split; [done|].
  destruct (_ && _); [|done]. destruct Hr2 as [-> Hw2]. split; [done|]. eapply wrote_over; [done|done| |done]. lia.
Qed.

(** ** Reading *)

Context `{!KeyLaws K}.

Definition above (prev : option (list Z)) (bs : list Z) : Prop := match prev with Some q => ¬ bytes_le bs q | None => True end.
Definition below (prev : option (list Z)) (m : list (K * V)) : Prop :=
  Forall (λ e, e_ok e.1 ∧ match prev with Some q => bytes_le (e_enc e.1) q | None => False end) m.

(** The bytes of the keys increase. *)
Fixpoint ascending (prev : option (list Z)) (s : list (K * V)) : Prop :=
  match s with
  | [] => True
  | e :: s' => above prev (e_enc e.1) ∧ ascending (Some (e_enc e.1)) s'
  end.

Lemma above_le q bs : above (Some q) bs → bytes_le q bs.
Proof. intros Hn. by destruct (total bytes_le q bs). Qed.

Lemma below_next prev m k v : e_ok k → below prev m → above prev (e_enc k) → below (Some (e_enc k)) (m ++ [(k, v)]).
Proof.
  intros Hok Hm Hk. apply Forall_app. split; [|constructor; [|constructor]; cbn; split; [done|]; by destruct (total bytes_le (e_enc k) (e_enc k))].
  eapply Forall_impl; [done|]. cbn. destruct prev as [q|]; [|by intros e []]. intros e [He1 He]. split; [done|]. etrans; [done|]. by apply above_le.
Qed.

Lemma SetMapIndex_new prev m k v : below prev m → above prev (e_enc k) → e_ok k → e_good k = true →
  SetMapIndex k v m = Some (m ++ [(k, v)]).
Proof.
  intros Hm Hk Hok Hg. unfold SetMapIndex. rewrite ok_hashable by done. do 2 f_equal.
  induction Hm as [|e m [He1 He] _ IH]; [done|]. rewrite filter_cons, decide_True; [by rewrite IH|].
  destruct (go_eq e.1 k) eqn:E; [|done]. apply go_eq_eq in E as <-; [|done|done]. by destruct prev.
Qed.

Lemma ascending_sorted s prev : ascending prev s → StronglySorted key_le s ∧ Forall (λ e, above prev (e_enc e.1)) s ∧ NoDup ((λ e, e_enc e.1) <$> s).
Proof.
  revert prev. induction s as [|e s IH]; intros prev; cbn; [intros _; split; [constructor|]; split; constructor|].
  intros [Ha Hs]. destruct (IH _ Hs) as (H1 & H2 & H3). split_and!.
  - constructor; [done|]. eapply Forall_impl; [done|]. intros e'. apply above_le.
  - constructor; [done|]. eapply Forall_impl; [done|]. intros e' He'. destruct prev as [q|]; [|done]. cbn in *. intros Hq.
    apply Ha. etrans; [|done]. by apply above_le.
  - constructor; [|done]. intros (e' & E & He')%list_elem_of_fmap. rewrite Forall_forall in H2. apply (H2 _ He'). cbn. rewrite E. by destruct (total bytes_le (e_enc e'.1) (e_enc e'.1)).
Qed.

Lemma sorted_ascending s prev : StronglySorted key_le s → NoDup ((λ e, e_enc e.1) <$> s) → Forall (λ e, above prev (e_enc e.1)) s → ascending prev s.
Proof.
  intros Hs. revert prev. induction Hs as [|e s Hs IH He]; intros prev Hnd Ha; cbn; [done|].
  cbn in Hnd. apply NoDup_cons in Hnd as [Hn Hnd]. apply Forall_cons in Ha as [Ha _]. split; [done|]. apply IH; [done|].
  rewrite Forall_forall in *. intros e' He' Hle. apply Hn, list_elem_of_fmap. exists e'. split; [|done].
  apply (anti_symm bytes_le); [|done]. by apply He.
Qed.

Lemma unmarshal_entries_spec s prev m : Forall entry_ok s → forallb entry_good s = true → ascending prev s → below prev m →
  unmarshals (unmarshal_entries (length s) prev m) (concat (map entry_enc s)) (m ++ ((λ e, (e_back e.1, e_back e.2)) <$> s)).
Proof.
  intros Hok. revert prev m. induction Hok as [|e s [Hk Hv] _ IH]; intros prev m Hg Ha Hb; cbn [length unmarshal_entries].
  { rewrite app_nil_r. apply unmarshals_ret. }
  cbn [forallb] in Hg. apply andb_true_iff in Hg as [(Hgk & (Hgv & Hne%bool_decide_eq_true)%andb_true_iff)%andb_true_iff Hg].
  destruct Ha as [Hak Ha]. destruct (e_back_spec e.1 Hk Hgk) as (Bk & Gk & Ek).
  assert (SetMapIndex (e_back e.1) (e_back e.2) m = Some (m ++ [(e_back e.1, e_back e.2)])) as Hset
    by (apply (SetMapIndex_new prev); [done|by rewrite Ek|done|done]).
  assert (below (Some (e_enc e.1)) (m ++ [(e_back e.1, e_back e.2)])) as Hb'
    by (rewrite <-Ek; eapply below_next; [done|done|by rewrite Ek]).
  pose proof (IH _ _ Hg Ha Hb') as Hrest. rewrite <-app_assoc in Hrest.
  intros p Hwf Hr. cbn [map concat] in Hr. unfold entry_enc at 1 in Hr. rewrite <-app_assoc in Hr.
  destruct (reads_app_2 _ _ _ Hwf Hr) as [Hr2 Hwf2]. destruct (reads_app_2 _ _ _ Hwf2 Hr2) as [Hr3 Hwf3].
  apply reads_app_1 in Hr, Hr2. unfold mbind, PM_bind, offset, get_packer.
  rewrite (e_unmarshals e.1 Hk Hgk p Hwf Hr). cbn [seek Offset Bytes]. rewrite (sub_reads p _ Hwf Hr).
  replace (match prev with Some q => bool_decide (bytes_le (e_enc e.1) q) | None => false end) with false
    by (destruct prev; [by rewrite bool_decide_eq_false_2|done]).
  rewrite (e_unmarshals e.2 Hv Hgv _ Hwf2 Hr2). cbn [seek Offset].
  rewrite bool_decide_eq_false_2 by (unfold entry_enc in Hne; intros E; apply Hne, nil_length_inv; rewrite length_app; lia).
  unfold or_panic. rewrite Hset. cbn [fmap option_fmap option_map]. pose proof (Hrest _ Hwf3 Hr3) as Hx.
  unfold seek in Hx |- *. cbn [Err MaxSize Bytes spare Offset] in Hx |- *. rewrite Hx. cbn [map concat].
  unfold entry_enc at 2. rewrite !length_app. do 3 f_equal. lia.
Qed.

Lemma unmarshals_mapping l : map_ok l → map_good l = true → unmarshals unmarshal_map (map_enc l) (map_back l).
Proof.
  intros [Hok Hnd] [Hmax%bool_decide_eq_true Hg]%andb_true_iff. unfold unmarshal_map, map_enc, map_back.
  eapply unmarshals_bind; [apply (unmarshals_int (Z.of_nat (length l))); unfold inU, MaxInt32 in *; lia|].
  rewrite bool_decide_eq_false_2 by lia. rewrite Nat2Z.id, <-(Permutation_length (sorted_perm l)).
  apply (unmarshal_entries_spec (sorted l) None []); [by rewrite sorted_perm|by rewrite (forallb_perm _ _ _ (sorted_perm l))| |constructor].
  apply sorted_ascending; [apply sorted_sorted|by rewrite sorted_perm|by apply Forall_true].
Qed.

Lemma decodes_entries n prev m : below prev m →
  decodes (unmarshal_entries n prev m) (λ m' bs, ∃ s, m' = m ++ s ∧ length s = n ∧ Forall entry_ok s ∧ forallb entry_good s = true ∧
    ascending prev s ∧ bs = concat (map entry_enc s)).
Proof.
  revert prev m. induction n as [|n IH]; intros prev m Hb; cbn [unmarshal_entries].
  { apply decodes_ret. exists []. rewrite app_nil_r. by split_and!. }
  intros p m' p' Hwf Hbs. unfold mbind at 1, PM_bind at 1, offset at 1, mbind at 1, PM_bind at 1.
  destruct (e_unmarshal p) as [[[k|e] p1]|] eqn:E1; [|done|done].
  destruct (e_decodes p k p1 Hwf Hbs E1) as (bk & (Hk & Hgk & ->) & Rk & ->).
  unfold mbind at 1, PM_bind at 1, get_packer. cbn [seek Offset Bytes]. rewrite (sub_reads p _ Hwf Rk).
  destruct (match prev with Some q => _ | None => _ end) eqn:Hprev; [done|].
  assert (above prev (e_enc k)) as Ha by (destruct prev; [by apply bool_decide_eq_false in Hprev|done]).
  pose proof (reads_wf _ _ Hwf Rk) as Hwf1. unfold mbind at 1, PM_bind at 1.
  destruct (e_unmarshal (seek _ p)) as [[[v|e] p2]|] eqn:E2; [|done|done].
  destruct (e_decodes _ v p2 Hwf1 Hbs E2) as (bv & (Hv & Hgv & ->) & Rv & ->).
  unfold mbind at 1, PM_bind at 1, offset. cbn [seek Offset]. case_bool_decide as Hne; [done|].
  unfold mbind at 1, PM_bind at 1, or_panic. rewrite (SetMapIndex_new prev) by done. cbn [fmap option_fmap option_map]. intros Hm.
  pose proof (reads_wf _ _ Hwf1 Rv) as Hwf2.
  destruct (IH _ _ (below_next _ _ k v Hk Hb Ha) _ m' p' Hwf2 Hbs Hm) as (bs & (s & -> & Hn & Hs & Hg & Has & ->) & Rs & ->).
  exists (concat (map entry_enc ((k, v) :: s))). split; [|split].
  - exists ((k, v) :: s). rewrite <-app_assoc. split_and!; [done|by rewrite <-Hn|by constructor| |done|done].
    cbn [forallb]. rewrite Hg. unfold entry_good. cbn [fst snd]. rewrite Hgk, Hgv, bool_decide_eq_true_2; [done|].
    intros E. apply Hne. unfold entry_enc in E. apply app_nil in E as [E1' E2']. cbn in *. rewrite E1', E2'. cbn. lia.
  - cbn [map concat]. unfold entry_enc at 1. rewrite <-app_assoc. cbn. apply reads_app; [done|done|]. by apply reads_app.
  - cbn [map concat]. unfold entry_enc at 2, seek. cbn. rewrite !length_app. f_equal. lia.
Qed.

Lemma ascending_ok l : Forall entry_ok l → ascending None l → map_ok l ∧ sorted l = l.
Proof.
  intros Hok (Hs & _ & Hnd)%ascending_sorted. assert (map_ok l) as Hl by done. split; [done|]. symmetry. by apply sorted_unique.
Qed.

Lemma decodes_mapping : decodes unmarshal_map (λ l bs, map_ok l ∧ map_good l = true ∧ sorted l = l ∧ bs = map_enc l).
Proof.
  unfold unmarshal_map. eapply decodes_bind; [apply (decodes_uint W32)|]. intros n bs1 [Hn ->]. unfold wbits, inU in Hn. cbn in Hn.
  case_bool_decide as Hmax; [apply decodes_fail|]. eapply decodes_conseq; [apply decodes_entries; constructor|].
  intros l bs (s & -> & Hlen & Hok & Hg & Ha & ->). cbn [app]. destruct (ascending_ok s Hok Ha) as [Hl Hs].
  assert (n = Z.of_nat (length s)) as -> by lia. split_and!; [done| |done|unfold map_enc; by rewrite Hs].
  unfold map_good. rewrite Hg, bool_decide_eq_true_2 by lia. done.
Qed.

Lemma unmarshal_entries_total n prev m p : below prev m → packer_wf p → bytes_ok (Bytes p) → unmarshal_entries n prev m p ≠ None.
Proof.
  revert prev m p. induction n as [|n IH]; intros prev m p Hb Hwf Hbs; cbn [unmarshal_entries]; [done|].
  unfold mbind at 1, PM_bind at 1, offset at 1, mbind at 1, PM_bind at 1. pose proof (e_total (V := K) p Hwf Hbs) as Ht1.
  destruct (e_unmarshal p) as [[[k|e] p1]|] eqn:E1; [|done|done].
  destruct (e_decodes p k p1 Hwf Hbs E1) as (bk & (Hk & Hgk & ->) & Rk & ->).
  unfold mbind at 1, PM_bind at 1, get_packer. cbn [seek Offset Bytes]. rewrite (sub_reads p _ Hwf Rk).
  destruct (match prev with Some q => _ | None => _ end) eqn:Hprev; [done|].
  assert (above prev (e_enc k)) as Ha by (destruct prev; [by apply bool_decide_eq_false in Hprev|done]).
  pose proof (reads_wf _ _ Hwf Rk) as Hwf1. unfold mbind at 1, PM_bind at 1. pose proof (e_total (V := V) _ Hwf1 Hbs) as Ht2.
  destruct (e_unmarshal (seek _ p)) as [[[v|e] p2]|] eqn:E2; [|done|done].
  destruct (e_decodes _ v p2 Hwf1 Hbs E2) as (bv & _ & Rv & ->).
  unfold mbind at 1, PM_bind at 1, offset. cbn [seek Offset]. case_bool_decide as Hne; [done|].
  unfold mbind at 1, PM_bind at 1, or_panic. rewrite (SetMapIndex_new prev) by done. cbn [fmap option_fmap option_map].
  apply IH; [by eapply below_next|by apply reads_wf|done].
Qed.

Lemma unmarshal_map_total p : packer_wf p → bytes_ok (Bytes p) → unmarshal_map p ≠ None.
Proof.
  intros Hwf Hbs. unfold unmarshal_map, mbind, PM_bind. pose proof (total_unpack UnpackInt p) as Ht.
  destruct (unpack UnpackInt p) as [[[n|e] p1]|] eqn:E; [|done|done].
  destruct (decodes_uint W32 p n p1 Hwf Hbs E) as (bs & _ & R & ->). case_bool_decide; [done|].
  apply unmarshal_entries_total; [constructor|by apply reads_wf|done].
Qed.

(** ** Sizes *)

Definition sizes {X} `{!Elem X, !ElemLaws X} (x : X) : Prop := e_ok x ∧ e_good x = true.

Lemma size_values_spec {X} `{!Elem X, !ElemLaws X} (l : list X) total : Forall sizes l →
  size_values l total = Ok (total + Z.of_nat (length (concat (map e_enc l))))%Z.
Proof.
  intros Hl. revert total. induction Hl as [|x l [Hx Hg] _ IH]; intros total; cbn; [f_equal; lia|].
  destruct (e_sized x Hx Hg) as (c & -> & _). cbn. rewrite IH, length_app. f_equal. lia.
Qed.

Lemma size_entries_spec (l : list (K * V)) total : Forall (λ e, sizes e.1 ∧ sizes e.2) l →
  size_entries l total = Ok (total + Z.of_nat (length (concat (map entry_enc l))))%Z.
Proof.
  intros Hl. revert total. induction Hl as [|[k v] l [[Hk Gk] [Hv Gv]] _ IH]; intros total; cbn; [f_equal; lia|].
  destruct (e_sized k Hk Gk) as (c & -> & _). cbn. destruct (e_sized v Hv Gv) as (c' & -> & _). cbn.
  rewrite IH, length_app. unfold entry_enc at 2. cbn. rewrite length_app. f_equal. lia.
Qed.

Lemma entries_length (l : list (K * V)) :
  length (concat (map entry_enc l)) = length (concat (map e_enc l.*1)) + length (concat (map e_enc l.*2)).
Proof. induction l as [|e l IH]; cbn; [done|]. unfold entry_enc at 1. rewrite !length_app, IH. lia. Qed.

(** When the first size is that of all, it is multiplied. *)
Lemma const_length {X} `{!Elem X, !ElemLaws X} (x : X) l : Forall sizes (x :: l) → e_size x = Ok (Z.of_nat (length (e_enc x)), true) →
  Z.of_nat (length (concat (map e_enc (x :: l)))) = (Z.of_nat (length (x :: l)) * Z.of_nat (length (e_enc x)))%Z.
Proof.
  intros Hl Hx. apply concat_const_length. pose proof Hl as [[Hox Hgx] _]%Forall_cons.
  destruct (e_sized x Hox Hgx) as (c & E & Hc). rewrite Hx in E. injection E as <-.
  eapply Forall_impl; [done|]. intros y [Hy Gy]. by rewrite (Hc eq_refl y Hy Gy).
Qed.

Lemma good_sizes l : Forall entry_ok l → forallb entry_good l = true → Forall sizes l.*1 ∧ Forall sizes l.*2 ∧ Forall (λ e, entry_enc e ≠ []) l.
Proof.
  induction 1 as [|e l [Hk Hv] _ IH]; cbn [forallb]; [by intros _; split_and!; constructor|].
  intros [(Hgk & (Hgv & Hne%bool_decide_eq_true)%andb_true_iff)%andb_true_iff Hg]%andb_true_iff.
  destruct (IH Hg) as (? & ? & ?). split; [|split]; constructor; done.
Qed.

Lemma size_map_spec l : map_ok l → map_good l = true → size_map l = Ok (Z.of_nat (length (map_enc l)), false).
Proof.
  intros [Hok _] [_ Hg]%andb_true_iff. destruct (good_sizes l Hok Hg) as (Hks & Hvs & Hne).
  unfold map_enc. rewrite length_app, be_encode_length, (concat_perm_length _ _ _ (sorted_perm l)), entries_length.
  destruct l as [|[k v] l]; [done|]. unfold size_map.
  change (((k, v) :: l).*1) with (k :: l.*1) in *. change (((k, v) :: l).*2) with (v :: l.*2) in *.
  pose proof Hks as [[Hk Gk] Hks']%Forall_cons. pose proof Hvs as [[Hv Gv] Hvs']%Forall_cons. apply Forall_cons in Hne as [Hne _].
  destruct (e_sized k Hk Gk) as (ck & Ek & _). destruct (e_sized v Hv Gv) as (cv & Ev & _). rewrite Ek. cbn [mbind result_bind]. rewrite Ev.
  cbn [mbind result_bind fst snd]. rewrite bool_decide_eq_false_2.
  2: { intros [E1 E2]. apply Hne. unfold entry_enc. cbn. apply nil_length_inv. rewrite length_app. lia. }
  assert (Z.of_nat (length (k :: l.*1)) = Z.of_nat (length ((k, v) :: l)) ∧ Z.of_nat (length (v :: l.*2)) = Z.of_nat (length ((k, v) :: l))) as [N1 N2]
    by (cbn [length]; rewrite !length_fmap; done).
  assert (∀ X (f : X → list Z) x xs, Z.of_nat (length (concat (map f (x :: xs)))) = (Z.of_nat (length (f x)) + Z.of_nat (length (concat (map f xs))))%Z) as Hcons
    by (intros; cbn; rewrite length_app; lia).
  destruct ck, cv; cbn [andb].
  - pose proof (const_length _ _ Hks Ek) as L1. pose proof (const_length _ _ Hvs Ev) as L2. rewrite N1 in L1. rewrite N2 in L2.
    do 2 f_equal. unfold IntLen. lia.
  - pose proof (const_length _ _ Hks Ek) as L1. rewrite N1 in L1. rewrite (size_values_spec _ _ Hvs'). cbn [mbind result_bind].
    do 2 f_equal. unfold IntLen. pose proof (Hcons _ e_enc v l.*2). lia.
  - pose proof (const_length _ _ Hvs Ev) as L2. rewrite N2 in L2. rewrite (size_values_spec _ _ Hks'). cbn [mbind result_bind].
    do 2 f_equal. unfold IntLen. pose proof (Hcons _ e_enc k l.*1). lia.
  - rewrite size_entries_spec.
    2: { rewrite Forall_fmap in Hks'. rewrite Forall_fmap in Hvs'. rewrite Forall_forall in *. intros e He. split; [by apply Hks'|by apply Hvs']. }
    cbn [mbind result_bind]. rewrite entries_length. do 2 f_equal. unfold IntLen. pose proof (Hcons _ e_enc k l.*1). pose proof (Hcons _ e_enc v l.*2). lia.
Qed.
End proofs.

(** Maps are elements again. *)
#[local] Instance map_ElemLaws {K V} `{!Elem K, !Key K, !Elem V, !SortFunc} `{!ElemLaws K, !ElemLaws V, !KeyLaws K} (grow : nat → nat) :
  @ElemLaws (list (K * V)) (map_Elem grow).
Proof.
  refine {| e_ok := map_ok : list (K * V) → Prop; e_enc := map_enc; e_good := map_good; e_back := map_back |}.
  - intros l [Hok _]. unfold map_enc. apply Forall_app. split; [apply be_encode_ok|]. rewrite <-sorted_perm in Hok.
    induction Hok as [|e s [Hk Hv] _ IH]; cbn; [constructor|]. apply Forall_app. split; [|done]. apply Forall_app. split; by apply e_bytes.
  - intros l Hl Hg. exists false. split; [by apply size_map_spec|done].
  - apply marshals_map.
  - apply unmarshals_mapping.
  - eapply decodes_conseq; [apply decodes_mapping|]. by intros l bs (? & ? & _ & ?).
  - apply unmarshal_map_total.
Defined.

(** ** Keys and elements without maps *)

(** Go's equality of values of one type.  The pointers in a key just decoded are new. *)
Fixpoint val_eq (x y : val) : bool :=
  match x, y with
  | VUint w n, VUint w' n' | VInt w n, VInt w' n' => bool_decide (w = w' ∧ n = n')
  | VBool b, VBool b' => bool_decide (b = b')
  | VString s, VString s' => bool_decide (s = s')
  | VNilPtr _, VNilPtr _ => true
  | VNilInterface _, VNilInterface _ => true
  | VInterface _ rt v, VInterface _ rt' v' => bool_decide (rt = rt') && val_eq v v'
  | VArray _ l, VArray _ l' =>
      (fix go l l' := match l, l' with [], [] => true | x :: l, y :: l' => val_eq x y && go l l' | _, _ => false end) l l'
  | VStruct l, VStruct l' =>
      (fix go (l l' : list (field * val)) :=
         match l, l' with [], [] => true | (_, x) :: l, (_, y) :: l' => val_eq x y && go l l' | _, _ => false end) l l'
  | VOther _, VOther _ => true
  | _, _ => false
  end.

(** [other] tells the kinds the codec does not know whose values can be hashed. *)
Fixpoint val_hashable (other : nat → bool) (v : val) : bool :=
  match v with
  | VSlice _ _ => false
  | VInterface _ _ v => val_hashable other v
  | VArray _ l => forallb (val_hashable other) l
  | VStruct l => forallb (λ '(_, x), val_hashable other x) l
  | VOther k => other k
  | _ => true
  end.

(** Types whose values can be hashed, whatever they are; a value of an interface type may not. *)
Fixpoint key_type (other : nat → bool) (t : typ) : bool :=
  match t with
  | TSlice _ | TInterface _ => false
  | TArray _ t => key_type other t
  | TStruct l => forallb (λ '(_, t), key_type other t) l
  | TOther k => other k
  | _ => true
  end.

Lemma key_type_hashable other type_of implements v : val_ok type_of implements v → key_type other (typeof v) = true → val_hashable other v = true.
Proof.
  induction v as [w z|w z|b|s|t|v IH|i|i rt v IH|t l IH|t l IH|l IH|k] using val_ind'; intros Hok; inversion Hok; subst; cbn; try done.
  - intros Ht. apply forallb_forall. intros x Hx%list_elem_of_In. rewrite Forall_forall in *. apply IH; [done|auto|].
    rename select (∀ x, x ∈ l → typeof x = t) into Hty. by rewrite Hty.
  - intros Ht. rename select (Forall (λ e, val_ok _ _ e.2) l) into Hv. clear Hok. induction l as [|[f x] l IHl]; [done|]. cbn in *.
    apply andb_true_iff in Ht as [Htx Ht]. apply Forall_cons in IH as [IHx IH], Hv as [Hvx Hv]. cbn in *.
    rewrite IHx by done. by apply IHl.
Qed.

Lemma val_eq_eq type_of implements x y : val_ok type_of implements x → val_ok type_of implements y → typeof x = typeof y →
  val_eq x y = true → x = y.
Proof.
  revert y. induction x as [w z|w z|b|s|t|v IH|i|i rt v IH|t l IH|t l IH|l IH|k] using val_ind';
    intros y Hx Hy; destruct y; cbn [typeof val_eq]; try done; intros Ht; try (by intros [-> ->]%bool_decide_eq_true);
    try (by intros ->%bool_decide_eq_true); try congruence.
  - intros [->%bool_decide_eq_true E]%andb_true_iff. inversion Hx; inversion Hy; subst. injection Ht as ->. f_equal. apply IH; [done|done|congruence|done].
  - injection Ht as Hlen ->. inversion Hx as [| | | | | | | | |? ? Ht1 Hv1| |]; inversion Hy as [| | | | | | | | |? ? Ht2 Hv2| |]; subst. clear Hx Hy. intros E. f_equal.
    revert l0 Hlen Ht2 Hv2 E. induction l as [|x l IHl]; intros [|y l'] Hlen Ht2 Hv2 E; try done.
    apply andb_true_iff in E as [E1 E2]. apply Forall_cons in IH as [IHx IH], Ht1 as [Htx Ht1], Hv1 as [Hvx Hv1], Ht2 as [Hty Ht2], Hv2 as [Hvy Hv2].
    f_equal; [apply IHx; [done|done|congruence|done]|]. apply IHl; try done. cbn in Hlen. lia.
  - injection Ht as Ht. inversion Hx as [| | | | | | | | | |? Hv1|]; inversion Hy as [| | | | | | | | | |? Hv2|]; subst. clear Hx Hy. intros E. f_equal.
    revert l0 Ht Hv2 E. induction l as [|[f x] l IHl]; intros [|[g y] l'] Ht Hv2 E; try done.
    apply andb_true_iff in E as [E1 E2]. apply Forall_cons in IH as [IHx IH], Hv1 as [Hvx Hv1], Hv2 as [Hvy Hv2]. cbn in Ht, Hvx, Hvy, IHx.
    injection Ht as -> Htx Ht. f_equal; [f_equal; by apply IHx|]. by apply IHl.
Qed.

Section values.
Context (grow : nat → nat) (type_of : nat → typ) (implements : nat → nat → bool) (tags : list string) (lc : linearCodec).
Context (other : nat → bool) (st : list nat) (fuel : nat) (t : typ).

(** The codec on values of type [t], inside interface values of the types [st]. *)
Definition val_Elem : Elem val :=
  {| e_size := λ v, size tags v st;
     e_marshal := λ v, marshal grow tags lc v st;
     e_unmarshal := unmarshal type_of implements tags lc fuel t (zero t) st |}.
Definition val_Key : Key val := {| go_eq := val_eq; hashable := val_hashable other |}.

Lemma enc_ok v : val_ok type_of implements v → bytes_ok (enc tags lc v).
Proof.
  induction v as [w z|w z|b|s|t'|v IH|i|i rt v IH|t' l IH|t' l IH|l IH|k] using val_ind'; intros Hok; inversion Hok; subst; cbn [enc];
    try apply be_encode_ok; try (by constructor); auto.
  - constructor; [|constructor]. by destruct b.
  - apply Forall_app. split; [apply be_encode_ok|done].
  - apply Forall_app. split; [apply be_encode_ok|by apply IH].
  - apply Forall_app. split; [apply be_encode_ok|]. apply Forall_concat, Forall_fmap. rewrite Forall_forall in *. intros x Hx. by apply IH; auto.
  - apply Forall_concat, Forall_fmap. rewrite Forall_forall in *. intros x Hx. by apply IH; auto.
  - apply Forall_concat, Forall_fmap. rewrite Forall_forall in *. intros [f x] Hx. cbn. destruct (captureField tags f); [|constructor].
    by apply (IH _ Hx), (H0 _ Hx).
Qed.

Hypothesis Hreg : registry_ok lc.
Hypothesis Hst : stack_ok lc st.
Hypothesis Hfuel : BiMap_Len (registeredTypes lc) ≤ fuel + length st.

(** What Codec.v shows of the codec is what maps rely on. *)
Definition val_ElemLaws : @ElemLaws val val_Elem.
Proof.
  refine {| e_ok := (λ v, val_ok type_of implements v ∧ typeof v = t); e_enc := enc tags lc; e_good := encodable tags lc st;
            e_back := (λ v, refill type_of tags v (zero t)) : val → val |}.
  - intros v [Hv _]. by apply enc_ok.
  - intros v [Hv Ht] Hg. destruct (size_spec type_of implements tags lc v st Hv Hg) as [c E]. exists c. split; [done|].
    intros -> v' [Hv' Ht'] Hg'. pose proof (size_const _ _ _ _ _ _ Hv E) as Hs.
    pose proof (tsize_enc type_of implements tags lc v' (Z.of_nat (length (enc tags lc v))) st Hv' Hg'). rewrite Ht', <-Ht in H. specialize (H Hs). lia.
  - intros v [Hv _]. by apply (marshal_spec grow type_of implements).
  - intros v [Hv Ht] Hg. cbn. rewrite <-Ht. apply unmarshal_spec; [done|done|done| |apply val_ok_zero|apply typeof_zero].
    pose proof (depth_bound tags lc v st Hreg Hst Hg). lia.
  - eapply decodes_conseq; [apply unmarshal_sound; [done|apply val_ok_zero|apply typeof_zero]|]. by intros v bs [(? & ? & ?) ?].
  - intros p _ _. apply unmarshal_total.
Defined.

Lemma val_KeyLaws : key_type other t = true → @KeyLaws val val_Elem val_Key val_ElemLaws.
Proof.
  intros Hk. split; cbn.
  - intros k k' [H1 T1] [H2 T2]. apply (val_eq_eq type_of implements); [done|done|congruence].
  - intros k [H1 T1] _. apply (key_type_hashable other type_of implements); [done|congruence].
Qed.
End values.

Section theorem.
Context {K V : Type} `{!Elem K, !Key K, !Elem V, !SortFunc} {LK : ElemLaws K} {LV : ElemLaws V} `{!KeyLaws K} (grow : nat → nat).

Lemma map_enc_perm l l' : map_ok (K := K) (V := V) l → l' ≡ₚ l → map_ok l' ∧ map_enc l' = map_enc l ∧ map_good l' = map_good l.
Proof.
  intros Hl Hp. assert (map_ok l') as Hl' by (destruct Hl; by rewrite <-Hp in *). split; [done|].
  unfold map_enc, map_good. rewrite (forallb_perm _ _ _ Hp), (Permutation_length Hp). split; [|done].
  rewrite <-(sorted_unique l (sorted l')); [done|done|by rewrite sorted_perm|apply sorted_sorted].
Qed.

(** C38: maps in the codec.  For keys and elements the codec works on, and a map whose keys have
    different bytes: whatever the order in which Go visits the map and whatever order the
    sort gives equal elements, [marshal] writes the same bytes, the number of entries and
    the entries sorted by the bytes of their keys, or fails when an entry cannot be encoded, is empty,
    or the bytes do not fit the packer; [size] is the number of these bytes; and
    [unmarshal] of the bytes gives the entries back.  Of any bytes, [unmarshal] returns, and
    if it returns a map then its keys have different bytes and the bytes it read are those that
    [marshal] writes of the map.  Keys and elements may be values of all types of Codec.v,
    with hashable keys, and elements may again be maps. *)
Theorem map_codec_correct (l : list (K * V)) : map_ok l →
  (∀ l' p, l' ≡ₚ l → packer_wf p → ∃ r p', marshal_map grow l' p = Some (r, p') ∧
     if map_good l && bool_decide (Offset p + Z.of_nat (length (map_enc l)) ≤ limit p)%Z
     then r = Ok () ∧ wrote p p' (map_enc l) else ∃ e, r = Prelude.Err e) ∧
  (map_good l = true →
     (∀ l', l' ≡ₚ l → size_map l' = Ok (Z.of_nat (length (map_enc l)), false)) ∧
     ∀ p, packer_wf p → reads p (map_enc l) →
       unmarshal_map p = Some (Ok (map_back l), seek (Offset p + Z.of_nat (length (map_enc l))) p)) ∧
  ∀ p, packer_wf p → bytes_ok (Bytes p) → ∃ r p', unmarshal_map p = Some (r, p') ∧
    ∀ m : list (K * V), r = Ok m → map_ok m ∧ map_good m = true ∧ sorted m = m ∧
      reads p (map_enc m) ∧ p' = seek (Offset p + Z.of_nat (length (map_enc m))) p.
Proof.
  intros Hl. split_and!.
  - intros l' p Hp Hwf. destruct (map_enc_perm l l' Hl Hp) as (Hl' & <- & <-). by apply marshals_map.
  - intros Hg. split; [|by apply unmarshals_mapping]. intros l' Hp.
    destruct (map_enc_perm l l' Hl Hp) as (Hl' & <- & Hg'). apply size_map_spec; [done|congruence].
  - intros p Hwf Hb. pose proof (unmarshal_map_total (K := K) (V := V) p Hwf Hb) as Ht.
    destruct (unmarshal_map p) as [[r p']|] eqn:E; [|done]. exists r, p'. split; [done|]. intros m ->.
    destruct (decodes_mapping p m p' Hwf Hb E) as (bs & (H1 & H2 & H3 & ->) & H4 & H5). done.
Qed.
End theorem.

(** ** An example: a map from bytes to maps from 16-bit numbers to booleans *)

Definition ex_type (_ : nat) : typ := TBool.
Definition ex_elem (t : typ) : Elem val := val_Elem S ex_type (λ _ _, true) [] NewCodec [] 0 t.
Definition ex_laws (t : typ) : @ElemLaws val (ex_elem t).
Proof. apply val_ElemLaws; [apply registry_ok_New|split; [apply NoDup_nil_2|apply List.Forall_nil]|vm_compute; constructor]. Defined.
Definition ex_key : Key val := val_Key (λ _, true).

Lemma ex_key_laws t : key_type (λ _, true) t = true → @KeyLaws val (ex_elem t) ex_key (ex_laws t).
Proof. intros Ht. by apply val_KeyLaws. Qed.

Definition ex_inner : Elem (list (val * val)) :=
  @map_Elem val val (ex_elem (TUint W16)) ex_key (ex_elem TBool) merge_SortFunc S.
Definition ex_inner_laws : @ElemLaws (list (val * val)) ex_inner :=
  @map_ElemLaws val val (ex_elem (TUint W16)) ex_key (ex_elem TBool) merge_SortFunc (ex_laws (TUint W16)) (ex_laws TBool)
    (ex_key_laws (TUint W16) eq_refl) S.
Definition ex_map : list (val * list (val * val)) :=
  [(VUint W8 9, []); (VUint W8 3, [(VUint W16 5, VBool true); (VUint W16 2, VBool false)])].
Definition ex_bytes : list Z := [0; 0; 0; 2; 3; 0; 0; 0; 2; 0; 2; 0; 0; 5; 1; 9; 0; 0; 0; 0]%Z.

Lemma ex_uint_ok w n : inU (wbits w) n → @e_ok val _ (ex_laws (TUint w)) (VUint w n).
Proof. intros Hn. split; [by constructor|done]. Qed.

Lemma ex_map_ok : @map_ok val _ (ex_elem (TUint W8)) ex_inner (ex_laws (TUint W8)) ex_inner_laws ex_map.
Proof.
  split; [|eapply bool_decide_unpack; vm_compute; exact I].
  constructor; [split; [by apply ex_uint_ok|]|constructor; [split; [by apply ex_uint_ok|]|constructor]].
  - split; constructor.
  - split; [|eapply bool_decide_unpack; vm_compute; exact I].
    constructor; [|constructor; [|constructor]]; (split; [by apply ex_uint_ok|]); (split; [constructor|done]).
Qed.

Lemma map_codec_correct_witness :
  let enc := @map_enc val _ (ex_elem (TUint W8)) ex_inner (ex_laws (TUint W8)) ex_inner_laws ex_map in
  enc = ex_bytes ∧
  ∃ r p', @marshal_map val _ (ex_elem (TUint W8)) ex_inner merge_SortFunc S (reverse ex_map) (mkPacker None 64 [] [] 0) = Some (r, p') ∧
    r = Ok () ∧ wrote (mkPacker None 64 [] [] 0) p' ex_bytes.
Proof.
  assert (@map_enc val _ (ex_elem (TUint W8)) ex_inner (ex_laws (TUint W8)) ex_inner_laws ex_map = ex_bytes) as He by (vm_compute; reflexivity).
  split; [exact He|].
  destruct (@map_codec_correct val _ (ex_elem (TUint W8)) ex_key ex_inner merge_SortFunc (ex_laws (TUint W8)) ex_inner_laws
    (ex_key_laws (TUint W8) eq_refl) S ex_map ex_map_ok) as [Hm _].
  destruct (Hm (reverse ex_map) (mkPacker None 64 [] [] 0)) as (r & p' & E & Hr).
  - apply reverse_Permutation.
  - split; [reflexivity|]. vm_compute. split; discriminate.
  - exists r, p'. split; [exact E|]. rewrite He in Hr. exact Hr.
Defined.
