(* ===== verification/Sets.v ===== *)
(** * Sets (src/utils/set/set.go) and sorted slices (src/utils/sorting.go)

    A [Set] is a Go map, which may be nil.  Elsewhere in this development a set of the
    program is a [gset]; here its operations are shown to be those of finite sets.  The order in which
    a map is visited and the JSON encoding of the elements are arguments. *)

From S2P Require Import Prelude.

Section sets.
Context {T : Type} `{Countable T}.

(** [None] is the nil map, which can be read but not written. *)
Definition Set_ : Type := option (gset T).
Definition elems (s : Set_) : gset T := default ∅ s.

(** The write of an element, which panics on a nil map. *)
Definition put (elt : T) (s : Set_) : option Set_ := (λ m, Some ({[elt]} ∪ m)) <$> s.
(** [delete] *)
Definition del (elt : T) (s : Set_) : Set_ := (λ m, m ∖ {[elt]}) <$> s.

Fixpoint put_all (elts : list T) (s : Set_) : option Set_ :=
  match elts with
  | [] => Some s
  | elt :: rest => s' ← put elt s; put_all rest s'
  end.

(** The capacity is only a hint. *)
Definition NewSet (size : Z) : Set_ := Some ∅.
Definition resize (size : Z) (s : Set_) : Set_ := match s with None => Some ∅ | Some _ => s end.

Definition Add (elts : list T) (s : Set_) : option Set_ := put_all elts (resize (2 * Z.of_nat (length elts)) s).
Definition Of (elts : list T) : option Set_ := Add elts (NewSet (Z.of_nat (length elts))).
Definition Len (s : Set_) : nat := size (elems s).

(** [order] enumerates the other set. *)
Definition Union (order : list T) (set : Set_) (s : Set_) : option Set_ := put_all order (resize (2 * Z.of_nat (Len set)) s).
Definition Difference (order : list T) (s : Set_) : Set_ := foldl (λ s elt, del elt s) s order.
Definition Contains (elt : T) (s : Set_) : bool := bool_decide (elt ∈ elems s).

(** [order] gives the order of the set that is visited, the smaller one. *)
Definition Overlaps (order : gset T → list T) (big s : Set_) : bool :=
  let '(small, big) := if bool_decide (Len big < Len s) then (big, s) else (s, big) in
  existsb (λ elt, Contains elt big) (order (elems small)).

Definition Remove (elts : list T) (s : Set_) : Set_ := foldl (λ s elt, del elt s) s elts.
Definition Clear (s : Set_) : Set_ := (λ _, ∅) <$> s.
Definition List (order : gset T → list T) (s : Set_) : list T := order (elems s).
Definition Equals (other s : Set_) : bool := bool_decide (elems s = elems other).
Definition Pop (order : gset T → list T) (s : Set_) : option T * Set_ :=
  match order (elems s) with [] => (None, s) | elt :: _ => (Some elt, del elt s) end.
Definition set_Peek (order : gset T → list T) (s : Set_) : option T := head (order (elems s)).

(** ** JSON *)

Section json.
Context {E : Type} `{!SortFunc} (json_Marshal : T → result E (list Z)) (json_Unmarshal : list Z → result E (list T)).

Fixpoint marshal_all (l : list T) : result E (list (list Z)) :=
  match l with
  | [] => Ok []
  | elt :: rest => b ← json_Marshal elt; bs ← marshal_all rest; Ok (b :: bs)
  end.

(** The elements with a comma after each but the last. *)
Fixpoint join (l : list (list Z)) : list Z :=
  match l with
  | [] => []
  | [b] => b
  | b :: rest => b ++ [44%Z] ++ join rest
  end.

Definition set_MarshalJSON (order : gset T → list T) (s : Set_) : result E (list Z) :=
  eltBytes ← marshal_all (order (elems s));
  Ok ([91%Z] ++ join (slices_SortFunc bytes_compare eltBytes) ++ [93%Z]).

(** [null] *)
Definition Null : list Z := [110; 117; 108; 108]%Z.

(** [None] is a panic. *)
Definition set_UnmarshalJSON (b : list Z) (s : Set_) : option (result E () * Set_) :=
  if bool_decide (b = Null) then Some (Ok (), s)
  else
    match json_Unmarshal b with
    | Err e => Some (Err e, s)
    | Ok elts => s' ← Add elts (Clear s); Some (Ok (), s')
    end.
End json.

End sets.
Arguments Set_ T {_ _}.

(** ** Sorted slices *)

(** The loops over neighbours: [bad] of two of them ends with [false]. *)
Fixpoint neighbours {T} (bad : T → T → bool) (s : list T) : bool :=
  match s with
  | x :: rest =>
      match rest with
      | y :: _ => if bad x y then false else neighbours bad rest
      | [] => true
      end
  | [] => true
  end.

Definition IsSortedBytes (s : list (list Z)) : bool := neighbours (λ x y, bool_decide (bytes_compare x y = Gt)) s.
Definition IsSortedAndUnique {T} (compare : T → T → Z) (s : list T) : bool := neighbours (λ x y, bool_decide (0 ≤ compare x y)%Z) s.
Definition IsSortedAndUniqueByHash (sha256 : list Z → list Z) (s : list (list Z)) : bool :=
  neighbours (λ x y, bool_decide (bytes_compare (sha256 x) (sha256 y) ≠ Lt)) s.
Definition SortByHash `{!SortFunc} (sha256 : list Z → list Z) (s : list (list Z)) : list (list Z) :=
  slices_SortFunc (λ i j, bytes_compare (sha256 i) (sha256 j)) s.

(** ** Refinement of finite sets *)

Section proofs.
Context {T : Type} `{Countable T}.
Implicit Type s : Set_ T.

Lemma put_all_spec (elts : list T) (m : gset T) : put_all elts (Some m) = Some (Some (list_to_set elts ∪ m)).
Proof. revert m. induction elts as [|x l IH]; intros m; cbn; [do 2 f_equal; set_solver|]. rewrite IH. do 2 f_equal. set_solver. Qed.

Lemma del_all (elts : list T) s : elems (foldl (λ s elt, del elt s) s elts) = elems s ∖ list_to_set elts.
Proof. revert s. induction elts as [|x l IH]; intros s; cbn [foldl]; [set_solver|]. rewrite IH. destruct s; cbn; set_solver. Qed.

Lemma setAdd_spec (elts : list T) s : ∃ s', Add elts s = Some s' ∧ elems s' = list_to_set elts ∪ elems s.
Proof. unfold Add. destruct s as [m|]; cbn; rewrite put_all_spec; eauto. Qed.

Definition enumerates (order : gset T → list T) : Prop := ∀ X, order X ≡ₚ elements X.

Lemma order_elem order X x : enumerates order → x ∈ order X ↔ x ∈ X.
Proof. intros Ho. rewrite (Ho X). apply elem_of_elements. Qed.

Lemma setOverlaps_spec order s big : enumerates order → Overlaps order big s = bool_decide (elems s ∩ elems big ≠ ∅).
Proof.
  intros Ho. unfold Overlaps. assert (∀ a b : Set_ T, existsb (λ elt, Contains elt b) (order (elems a)) = bool_decide (elems a ∩ elems b ≠ ∅)) as He.
  { intros a b. apply eq_bool_prop_intro. rewrite bool_decide_spec, Is_true_true, existsb_exists. setoid_rewrite <-list_elem_of_In. split.
    - intros (x & Hx & Hb%bool_decide_eq_true). apply order_elem in Hx; [|done]. set_solver.
    - intros Hne. apply set_choose_L in Hne as [x Hx]. exists x. rewrite order_elem by done. split; [set_solver|]. apply bool_decide_eq_true. set_solver. }
  case_bool_decide; rewrite He; [|done]. apply bool_decide_ext. by rewrite (comm_L (∩)).
Qed.

Lemma head_spec order X : enumerates order → match head (order X) with Some x => x ∈ X | None => X = ∅ end.
Proof.
  intros Ho. pose proof (Ho X) as Hp. destruct (order X) as [|x l] eqn:E; cbn.
  - apply leibniz_equiv, elements_empty_iff. by apply Permutation_nil_l in Hp.
  - apply (order_elem order); [done|]. rewrite E. by left.
Qed.

(** The operations of a [Set] are those of finite sets, also when it is nil: none panics,
    and what they return does not depend on the order in which a map is visited, except for
    [List], [Pop] and [Peek], which return the elements or one of them. *)
Theorem set_refines (order : gset T → list T) elts x s set : enumerates order →
  (∃ s', Of elts = Some s' ∧ elems s' = list_to_set elts) ∧
  (∃ s', Add elts s = Some s' ∧ elems s' = list_to_set elts ∪ elems s) ∧
  (∃ s', Union (order (elems set)) set s = Some s' ∧ elems s' = elems set ∪ elems s) ∧
  elems (Difference (order (elems set)) s) = elems s ∖ elems set ∧
  elems (Remove elts s) = elems s ∖ list_to_set elts ∧ elems (Clear s) = ∅ ∧
  Contains x s = bool_decide (x ∈ elems s) ∧ Len s = size (elems s) ∧
  Overlaps order set s = bool_decide (elems s ∩ elems set ≠ ∅) ∧ Equals set s = bool_decide (elems s = elems set) ∧
  List order s ≡ₚ elements (elems s) ∧
  match Pop order s with
  | (Some y, s') => y ∈ elems s ∧ elems s' = elems s ∖ {[y]}
  | (None, s') => elems s = ∅ ∧ s' = s
  end ∧
  match set_Peek order s with Some y => y ∈ elems s | None => elems s = ∅ end.
Proof.
  intros Ho. assert (list_to_set (order (elems set)) = elems set) as Hset.
  { apply set_eq. intros y. by rewrite elem_of_list_to_set, order_elem. }
  split_and!; try done.
  - destruct (setAdd_spec elts (Some ∅)) as (s' & E & Hs). exists s'. split; [done|]. rewrite Hs. cbn. set_solver.
  - apply setAdd_spec.
  - unfold Union. destruct s as [m|]; cbn [resize]; rewrite put_all_spec, Hset; eauto.
  - unfold Difference. by rewrite del_all, Hset.
  - apply del_all.
  - by destruct s.
  - by apply setOverlaps_spec.
  - apply Ho.
  - pose proof (head_spec order (elems s) Ho) as Hh. unfold Pop. destruct (order (elems s)) as [|y l]; cbn in Hh; [by split|]. split; [done|]. destruct s; cbn; set_solver.
  - by apply head_spec.
Qed.

(** ** JSON *)

Lemma Forall2_perm {X Y} (R : X → Y → Prop) l k k' : Forall2 R l k → k ≡ₚ k' → ∃ l', l ≡ₚ l' ∧ Forall2 R l' k'.
Proof.
  intros Hf Hp. revert l Hf. induction Hp as [|y k k' _ IH|y y' k|k1 k2 k3 _ IH1 _ IH2]; intros l Hf.
  - exists l. done.
  - apply Forall2_cons_inv_r in Hf as (x & l0 & Hx & Hl & ->). destruct (IH _ Hl) as (l' & Hp' & Hf'). exists (x :: l'). by split; constructor.
  - apply Forall2_cons_inv_r in Hf as (x & l0 & Hx & (x' & l1 & Hx' & Hl & ->)%Forall2_cons_inv_r & ->). exists (x' :: x :: l1). split; [constructor|by repeat constructor].
  - destruct (IH1 _ Hf) as (l2 & P2 & F2). destruct (IH2 _ F2) as (l3 & P3 & F3). exists l3. split; [by trans l2|done].
Qed.

Section json.
Context {E : Type} `{!SortFunc} (json_Marshal : T → result E (list Z)) (json_Unmarshal : list Z → result E (list T)).

Lemma marshal_all_Forall2 l bs : marshal_all json_Marshal l = Ok bs ↔ Forall2 (λ x b, json_Marshal x = Ok b) l bs.
Proof.
  split.
  - revert bs. induction l as [|x l IH]; intros bs; cbn; [by intros [= <-]|].
    intros (b & Hb & (bs' & Hbs & [= <-])%bind_Ok_inv)%bind_Ok_inv. constructor; auto.
  - induction 1 as [|x b l bs Hb _ IH]; cbn; [done|]. by rewrite Hb, IH.
Qed.

Lemma marshal_all_perm_l l l' bs : l ≡ₚ l' → marshal_all json_Marshal l = Ok bs → ∃ bs', marshal_all json_Marshal l' = Ok bs' ∧ bs ≡ₚ bs'.
Proof.
  intros Hp Hbs%marshal_all_Forall2. apply Forall2_flip in Hbs. destruct (Forall2_perm _ _ _ _ Hbs Hp) as (bs' & Hp' & Hf).
  exists bs'. split; [|done]. by apply marshal_all_Forall2, Forall2_flip.
Qed.

Lemma marshal_all_perm_r l bs bs' : bs ≡ₚ bs' → marshal_all json_Marshal l = Ok bs → ∃ l', marshal_all json_Marshal l' = Ok bs' ∧ l ≡ₚ l'.
Proof.
  intros Hp Hbs%marshal_all_Forall2. destruct (Forall2_perm _ _ _ _ Hbs Hp) as (l' & Hp' & Hf). exists l'. split; [|done]. by apply marshal_all_Forall2.
Qed.

Lemma sort_bytes_perm bs bs' : bs ≡ₚ bs' → slices_SortFunc bytes_compare bs = slices_SortFunc bytes_compare bs'.
Proof.
  intros Hp. assert (∀ l, StronglySorted bytes_le (slices_SortFunc bytes_compare l)) as Hs.
  { intros l. apply (SortFunc_sorted bytes_compare); [intros; apply bytes_compare_opp|intros ? ? ?; apply bytes_le_trans]. }
  apply (StronglySorted_unique bytes_le); [done|done|]. by rewrite !SortFunc_perm.
Qed.

(** The JSON of a set does not depend on the order in which it is visited, and is read back
    as the same set, when the JSON of a list is the elements' in brackets, separated by commas. *)
Theorem set_json (order order' : gset T → list T) s b : enumerates order → enumerates order' →
  (∀ l bs, marshal_all json_Marshal l = Ok bs → json_Unmarshal ([91%Z] ++ join bs ++ [93%Z]) = Ok l) →
  set_MarshalJSON json_Marshal order s = Ok b →
  set_MarshalJSON json_Marshal order' s = Ok b ∧
  ∀ s0, ∃ s', set_UnmarshalJSON json_Unmarshal b s0 = Some (Ok (), s') ∧ elems s' = elems s.
Proof.
  intros Ho Ho' Hjson (bs & Hbs & [= <-])%bind_Ok_inv. split.
  - destruct (marshal_all_perm_l _ (order' (elems s)) _ (Permutation_trans (Ho _) (Permutation_sym (Ho' _))) Hbs) as (bs' & E' & Hp).
    unfold set_MarshalJSON. rewrite E'. cbn. by rewrite (sort_bytes_perm _ _ Hp).
  - intros s0. destruct (marshal_all_perm_r _ _ (slices_SortFunc bytes_compare bs) (Permutation_sym (SortFunc_perm _ _)) Hbs) as (l & Hl & Hp).
    unfold set_UnmarshalJSON. rewrite bool_decide_eq_false_2 by done. pose proof (Hjson _ _ Hl) as Hj. cbn [app] in Hj |- *. rewrite Hj.
    destruct (setAdd_spec l (Clear s0)) as (s' & -> & Hs). exists s'. split; [done|]. rewrite Hs.
    apply set_eq. intros y. rewrite elem_of_union, elem_of_list_to_set, <-Hp, order_elem by done. destruct s0; cbn; set_solver.
Qed.
End json.
End proofs.

(** ** Sorted slices *)

Lemma neighbours_sorted {T} (R : T → T → Prop) (bad : T → T → bool) s : StronglySorted R s → (∀ x y, R x y → bad x y = false) → neighbours bad s = true.
Proof.
  intros Hs Hb. induction Hs as [|x s Hs IH Hx]; [done|]. destruct s as [|y s]; [done|]. cbn in *.
  apply Forall_cons in Hx as [Hx _]. by rewrite (Hb _ _ Hx).
Qed.

(** A slice sorted by its hashes is found sorted by them, and unique when the hashes are
    different. *)
Theorem sort_by_hash_sorted `{!SortFunc} sha256 s :
  IsSortedBytes (sha256 <$> SortByHash sha256 s) = true ∧
  (NoDup (sha256 <$> s) → IsSortedAndUniqueByHash sha256 (SortByHash sha256 s) = true).
Proof.
  assert (StronglySorted (λ x y, bytes_compare (sha256 x) (sha256 y) ≠ Gt) (SortByHash sha256 s)) as Hs.
  { apply SortFunc_sorted; [intros; apply bytes_compare_opp|intros x y z; apply bytes_le_trans]. }
  assert (SortByHash sha256 s ≡ₚ s) as Hp by apply SortFunc_perm. split.
  - apply (neighbours_sorted bytes_le); [|intros x y Hle; by apply bool_decide_eq_false].
    clear Hp. induction Hs as [|x l Hs IH Hx]; cbn; constructor; [done|]. by apply Forall_fmap.
  - intros Hnd. rewrite <-Hp in Hnd. clear Hp. apply (neighbours_sorted (λ x y, bytes_compare (sha256 x) (sha256 y) = Lt)).
    2: { intros x y E. apply bool_decide_eq_false. intros Hn. by apply Hn. }
    induction Hs as [|x l Hs IH Hx]; cbn in Hnd; [constructor|]. apply NoDup_cons in Hnd as [Hn Hnd]. constructor; [by apply IH|].
    rewrite Forall_forall in *. intros y Hy. specialize (Hx y Hy). destruct (bytes_compare (sha256 x) (sha256 y)) eqn:E; [|done|done].
    apply bytes_compare_eq in E. destruct Hn. rewrite E. by apply list_elem_of_fmap_2.
Qed.
