(* ===== verification/Bits.v ===== *)
(** * Bit sets (src/utils/set/bits.go)

    [Bits] is a set of non-negative integers backed by a [big.Int].  A [big.Int]
    that is never negative is a [Z] here.  An index is a Go [int]; the operations
    on a negative one panic, which is [None].  The signers of a warp message
    (Warp.v) are such a set, and travel as [Bytes]. *)

From S2P Require Import Prelude.
Local Open Scope Z_scope.

Abbreviation Bits := Z (only parsing).

(** [big.Int.SetBit] *)
Definition SetBit (b : Bits) (i : Z) (v : bool) : option Bits :=
  if bool_decide (i < 0) then None else Some (if v then Z.setbit b i else Z.clearbit b i).

Definition Bits_Add (i : Z) (b : Bits) : option Bits := SetBit b i true.

Definition NewBits (bits : list Z) : option Bits :=
  foldl (λ acc i, acc ≫= Bits_Add i) (Some 0) bits.

Definition Union (other b : Bits) : Bits := Z.lor b other.
Definition Intersection (other b : Bits) : Bits := Z.land b other.
Definition Difference (other b : Bits) : Bits := Z.ldiff b other.
Definition Bits_Remove (i : Z) (b : Bits) : option Bits := SetBit b i false.
Definition Clear (b : Bits) : Bits := 0.

Definition Contains (i : Z) (b : Bits) : option bool :=
  if bool_decide (i < 0) then None else Some (Z.testbit b i).

Definition BitLen (b : Bits) : Z := if bool_decide (b = 0) then 0 else Z.log2 b + 1.

(** [big.Int.Bits]: the 64-bit words, least significant first, without a zero word
    at the end; [fuel] bounds their number. *)
Fixpoint words (fuel : nat) (b : Z) : list Z :=
  match fuel with
  | O => []
  | S n => if bool_decide (b = 0) then [] else b `mod` 2 ^ 64 :: words n (b / 2 ^ 64)
  end.

Definition OnesCount (word : Z) : Z :=
  Z.of_nat (length (filter (λ i : Z, Z.testbit word i = true) (seqZ 0 64))).

Definition Bits_Len (b : Bits) : Z :=
  foldl (λ result word, result + OnesCount word) 0 (words (Z.to_nat (BitLen b)) b).

(** [big.Int.Bytes]: big-endian, without leading zeros. *)
Definition Bits_Bytes (b : Bits) : list Z := be_encode (Z.to_nat ((BitLen b + 7) / 8)) b.

(** [big.Int.SetBytes] *)
Definition BitsFromBytes (bs : list Z) : Bits := be_decode bs.

(** ** The set a [Bits] stands for *)

Definition members (b : Bits) : list Z := filter (λ i : Z, Z.testbit b i = true) (seqZ 0 (BitLen b)).

Lemma BitLen_nonneg b : 0 ≤ BitLen b.
Proof. unfold BitLen. case_bool_decide; [lia|]. pose proof (Z.log2_nonneg b). lia. Qed.

Lemma BitLen_bound b : 0 ≤ b → b < 2 ^ BitLen b.
Proof.
  intros Hb. unfold BitLen. case_bool_decide; [subst; simpl; lia|].
  pose proof (Z.log2_spec b). lia.
Qed.

Lemma BitLen_least b n : 0 ≤ b → 0 ≤ n → BitLen b ≤ n ↔ b < 2 ^ n.
Proof.
  intros Hb Hn. unfold BitLen. case_bool_decide as H0.
  - subst. split; [intros _|lia]. apply Z.pow_pos_nonneg; lia.
  - pose proof (Z.log2_lt_pow2 b n). lia.
Qed.

Lemma testbit_BitLen b i : 0 ≤ b → Z.testbit b i = true → 0 ≤ i < BitLen b.
Proof.
  intros Hb Ht. destruct (decide (i < 0)) as [Hi|Hi]; [by rewrite Z.testbit_neg_r in Ht|].
  split; [lia|]. destruct (decide (i < BitLen b)) as [|Hn]; [done|].
  assert (b < 2 ^ i) as Hlt by (apply BitLen_least; lia).
  rewrite <-(Z.mod_small b (2 ^ i)), Z.mod_pow2_bits_high in Ht by lia. done.
Qed.

Lemma elem_of_members b i : 0 ≤ b → i ∈ members b ↔ Z.testbit b i = true.
Proof.
  intros Hb. unfold members. rewrite list_elem_of_filter, elem_of_seqZ.
  split; [tauto|]. intros Ht. split; [done|]. pose proof (testbit_BitLen b i Hb Ht). lia.
Qed.

Lemma members_NoDup b : NoDup (members b).
Proof. apply NoDup_filter, NoDup_seqZ. Qed.

(** *** Operations *)

Lemma Bits_Add_spec i b :
  0 ≤ i → 0 ≤ b → ∃ b', Bits_Add i b = Some b' ∧ 0 ≤ b' ∧
    ∀ j, Z.testbit b' j = bool_decide (j = i) || Z.testbit b j.
Proof.
  intros Hi Hb. unfold Bits_Add, SetBit. rewrite bool_decide_eq_false_2 by lia.
  eexists. split; [done|]. split.
  - unfold Z.setbit. rewrite Z.lor_nonneg, Z.shiftl_nonneg. lia.
  - intros j. rewrite Z.setbit_eqb by done. f_equal.
    destruct (Z.eqb_spec i j); case_bool_decide; congruence.
Qed.

(** *** [Len] counts the members *)

(** The number of bits set among the lowest [n]. *)
Definition ones (n b : Z) : Z :=
  Z.of_nat (length (filter (λ i : Z, Z.testbit b i = true) (seqZ 0 n))).

Lemma ones_split b n m :
  0 ≤ n → 0 ≤ m → ones (n + m) b = ones n (b `mod` 2 ^ n) + ones m (b / 2 ^ n).
Proof.
  intros Hn Hm. unfold ones. rewrite seqZ_app by lia.
  rewrite filter_app, length_app, Nat2Z.inj_add. f_equal; f_equal.
  - apply length_filter_ext, Forall_seqZ. intros i Hi. by rewrite Z.mod_pow2_bits_low by lia.
  - replace (0 + n) with (n + 0) by lia. rewrite <-(fmap_add_seqZ n 0 m), length_filter_fmap.
    apply length_filter_ext, Forall_seqZ. intros i Hi.
    rewrite Z.div_pow2_bits by lia. by rewrite Z.add_comm.
Qed.

Lemma ones_0 n : ones n 0 = 0.
Proof.
  unfold ones. induction (seqZ 0 n) as [|i l IH]; [done|].
  rewrite filter_cons_False; [done|]. by rewrite Z.bits_0.
Qed.

Lemma ones_more b n m : 0 ≤ b < 2 ^ n → 0 ≤ n ≤ m → ones m b = ones n b.
Proof.
  intros Hb Hn. replace m with (n + (m - n)) by lia. rewrite ones_split by lia.
  rewrite Z.mod_small, Z.div_small, ones_0 by lia. lia.
Qed.

Lemma Bits_Len_words fuel b acc :
  0 ≤ b < 2 ^ (64 * Z.of_nat fuel) →
  foldl (λ result word, result + OnesCount word) acc (words fuel b) =
  acc + ones (64 * Z.of_nat fuel) b.
Proof.
  revert b acc. induction fuel as [|fuel IH]; intros b acc Hb; simpl.
  - replace b with 0 by (simpl in Hb; lia). rewrite ones_0. lia.
  - case_bool_decide; [subst; rewrite ones_0; simpl; lia|].
    replace (64 * Z.of_nat (S fuel)) with (64 + 64 * Z.of_nat fuel) in * by lia.
    rewrite Z.pow_add_r in Hb by lia. cbn [foldl]. rewrite IH, ones_split by (try split;
      [apply Z.div_pos; lia|apply Z.div_lt_upper_bound; lia] || lia).
    unfold OnesCount. fold (ones 64 (b `mod` 2 ^ 64)). lia.
Qed.

(** [Len] is the number of members: the popcounts of the words add up. *)
Lemma Bits_Len_members b : 0 ≤ b → Bits_Len b = Z.of_nat (length (members b)).
Proof.
  intros Hb. pose proof (BitLen_nonneg b) as Hl. pose proof (BitLen_bound b Hb) as Hlt.
  assert (b < 2 ^ (64 * BitLen b)).
  { eapply Z.lt_le_trans; [done|]. apply Z.pow_le_mono_r; lia. }
  unfold Bits_Len. rewrite Bits_Len_words by (rewrite Z2Nat.id; lia).
  rewrite Z2Nat.id, (ones_more b (BitLen b)) by lia. done.
Qed.

(** *** Bytes *)

Lemma Bits_Bytes_ok b : bytes_ok (Bits_Bytes b).
Proof. apply be_encode_ok. Qed.

Lemma BitsFromBytes_nonneg bs : bytes_ok bs → 0 ≤ BitsFromBytes bs.
Proof. intros H. apply (be_decode_range bs H). Qed.

Lemma BitsFromBytes_Bytes b : 0 ≤ b → BitsFromBytes (Bits_Bytes b) = b.
Proof.
  intros Hb. apply be_decode_encode. split; [done|].
  pose proof (BitLen_nonneg b). pose proof (BitLen_bound b Hb).
  rewrite Z2Nat.id by (apply Z.div_pos; lia).
  eapply Z.lt_le_trans; [done|]. apply Z.pow_le_mono_r; [lia|].
  pose proof (Z.div_mod (BitLen b + 7) 8). pose proof (Z.mod_pos_bound (BitLen b + 7) 8). lia.
Qed.

(** The length test of the signature check: bytes that are as long as [Bytes] of
    the set they stand for are these [Bytes] (there are no leading zeros). *)
Lemma Bytes_BitsFromBytes bs :
  bytes_ok bs → length (Bits_Bytes (BitsFromBytes bs)) = length bs →
  Bits_Bytes (BitsFromBytes bs) = bs.
Proof.
  intros Hok. unfold Bits_Bytes at 1. rewrite be_encode_length. intros Hl.
  unfold Bits_Bytes. rewrite Hl. by apply be_encode_decode.
Qed.
