(* ===== verification/IdBits.v ===== *)
(** * Bits of identifiers (src/utils/ids/bits.go, id.go)

    [EqualSubset] and [FirstDifferenceSubset] compare a range of the 256 bits of
    two IDs a byte at a time, with masks for the first and last byte.  The theorem
    shows that they do what a comparison bit by bit would.

    Bit [i] of an ID is bit [i mod 8] of byte [i / 8].  Arguments are Go [int]s;
    [None] is a panic (an index out of range). *)

From S2P Require Import Prelude.

#[local] Open Scope Z_scope.

Definition NumBits : Z := 256.
Definition BitsPerByte : Z := 8.

(** [id[i]] of an array. *)
Definition byte_at (id : list Z) (i : Z) : option Z :=
  if bool_decide (0 ≤ i) then id !! Z.to_nat i else None.

(** [id[i:j]] with [i <= j]. *)
Definition subslice (id : list Z) (i j : Z) : option (list Z) :=
  if bool_decide (0 ≤ i ∧ j ≤ Z.of_nat (length id))
  then Some (take (Z.to_nat (j - i)) (drop (Z.to_nat i) id)) else None.

(** Shifts of an [int] by an unsigned count. *)
Definition shl (x n : Z) : Z := if bool_decide (n < 64) then wrapS 64 (Z.shiftl x n) else 0.

(** [ID.Bit] *)
Definition Bit (id : list Z) (i : Z) : option Z :=
  let byteIndex := i / BitsPerByte in
  let bitIndex := i `mod` BitsPerByte in
  b ← byte_at id byteIndex;
  Some (Z.land (Z.shiftr b bitIndex) 1).

(** [ID.XOR] *)
Definition XOR (id other : list Z) : list Z := zip_with Z.lxor id other.

Definition startMask_of (start : Z) : Z := shl (-1) (wrapU 64 (Z.rem start BitsPerByte)).
Definition stopMask_of (stop : Z) : Z := shl 1 (wrapU 64 (Z.rem stop BitsPerByte) + 1) - 1.

Definition EqualSubset (start stop : Z) (id1 id2 : list Z) : option bool :=
  let stop := wrapS 64 (stop - 1) in
  if bool_decide (stop < start ∨ stop < 0) then Some true
  else if bool_decide (NumBits ≤ stop) then Some false
  else
    let startIndex := Z.quot start BitsPerByte in
    let stopIndex := Z.quot stop BitsPerByte in
    interior ← (if bool_decide (startIndex + 1 < stopIndex) then
                  m1 ← subslice id1 (startIndex + 1) stopIndex;
                  m2 ← subslice id2 (startIndex + 1) stopIndex;
                  Some (bool_decide (m1 = m2))
                else Some true);
    if negb interior then Some false
    else
      let startMask := startMask_of start in
      let stopMask := stopMask_of stop in
      first1 ← byte_at id1 startIndex;
      first2 ← byte_at id2 startIndex;
      if bool_decide (startIndex = stopIndex) then
        let mask := Z.land startMask stopMask in
        Some (bool_decide (Z.land mask first1 = Z.land mask first2))
      else
        last1 ← byte_at id1 stopIndex;
        last2 ← byte_at id2 stopIndex;
        Some (bool_decide (Z.land startMask first1 = Z.land startMask first2) &&
              bool_decide (Z.land stopMask last1 = Z.land stopMask last2)).

(** [bits.TrailingZeros8] *)
Definition TrailingZeros8 (x : Z) : Z :=
  default 8 (snd <$> list_find (λ j, Z.testbit x j = true) (seqZ 0 8)).

(** The comparison of one byte under a mask. *)
Definition byteDifference (mask index b1 b2 : Z) : option Z :=
  let b1 := Z.land mask b1 in
  let b2 := Z.land mask b2 in
  if bool_decide (b1 = b2) then None
  else Some (TrailingZeros8 (wrapU 8 (Z.lxor b1 b2)) + index * BitsPerByte).

(** The loop over the bytes between the first and the last one, of which there are
    [n]. *)
Fixpoint interiorDifference (n : nat) (i : Z) (id1 id2 : list Z) : option (option Z) :=
  match n with
  | O => Some None
  | S n' =>
      b1 ← byte_at id1 i;
      b2 ← byte_at id2 i;
      match byteDifference (-1) i b1 b2 with
      | Some d => Some (Some d)
      | None => interiorDifference n' (i + 1) id1 id2
      end
  end.

(** [None] in the result stands for the source's [(0, false)]. *)
Definition FirstDifferenceSubset (start stop : Z) (id1 id2 : list Z) : option (option Z) :=
  let stop := wrapS 64 (stop - 1) in
  if bool_decide (stop < start ∨ stop < 0 ∨ NumBits ≤ stop) then Some None
  else
    let startIndex := Z.quot start BitsPerByte in
    let stopIndex := Z.quot stop BitsPerByte in
    let startMask := startMask_of start in
    let stopMask := stopMask_of stop in
    first1 ← byte_at id1 startIndex;
    first2 ← byte_at id2 startIndex;
    if bool_decide (startIndex = stopIndex) then
      Some (byteDifference (Z.land startMask stopMask) startIndex first1 first2)
    else
      match byteDifference startMask startIndex first1 first2 with
      | Some d => Some (Some d)
      | None =>
          interior ← interiorDifference (Z.to_nat (stopIndex - (startIndex + 1))) (startIndex + 1) id1 id2;
          match interior with
          | Some d => Some (Some d)
          | None =>
              last1 ← byte_at id1 stopIndex;
              last2 ← byte_at id2 stopIndex;
              Some (byteDifference stopMask stopIndex last1 last2)
          end
      end.

(** ** Bit by bit *)

Definition idbit (id : list Z) (i : Z) : bool :=
  Z.testbit (default 0 (id !! Z.to_nat (i / 8))) (i `mod` 8).

Lemma Bit_idbit id i : length id = 32%nat → 0 ≤ i < 256 → Bit id i = Some (Z.b2z (idbit id i)).
Proof.
  intros Hl Hi. unfold Bit, byte_at, idbit, BitsPerByte.
  assert (0 ≤ i / 8 < 32) by (split; [apply Z.div_pos|apply Z.div_lt_upper_bound]; lia).
  rewrite bool_decide_eq_true_2 by lia.
  destruct (id !! Z.to_nat (i / 8)) as [b|] eqn:E; [|apply lookup_ge_None in E; lia]. simpl. f_equal.
  rewrite (Z.land_ones _ 1) by lia. change (2 ^ 1) with 2. rewrite <-Z.bit0_mod.
  rewrite Z.shiftr_spec by lia. f_equal.
Qed.

(** [r] is the first bit of [start, stop) where the IDs differ. *)
Definition scan (id1 id2 : list Z) (start stop : Z) (r : option Z) : Prop :=
  match r with
  | None => ∀ i, start ≤ i < stop → idbit id1 i = idbit id2 i
  | Some d => start ≤ d < stop ∧ idbit id1 d ≠ idbit id2 d ∧
              ∀ i, start ≤ i < d → idbit id1 i = idbit id2 i
  end.

Lemma scan_more id1 id2 a b c d : scan id1 id2 a b (Some d) → b ≤ c → scan id1 id2 a c (Some d).
Proof. intros (Hd & Hne & He) ?. split; [lia|done]. Qed.

Lemma scan_app id1 id2 a b c r :
  a ≤ b → scan id1 id2 a b None → scan id1 id2 b c r → scan id1 id2 a c r.
Proof.
  intros Hab H1. destruct r as [d|]; simpl in *.
  - intros (Hd & Hne & He). split; [lia|]. split; [done|]. intros i Hi.
    destruct (decide (i < b)); [apply H1|apply He]; lia.
  - intros H2 i Hi. destruct (decide (i < b)); [apply H1|apply H2]; lia.
Qed.

Lemma scan_list_find id1 id2 start stop r :
  scan id1 id2 start stop r →
  r = snd <$> list_find (λ i, idbit id1 i ≠ idbit id2 i) (seqZ start (stop - start)).
Proof.
  destruct (list_find _ _) as [[n x]|] eqn:E; simpl.
  - apply list_find_Some in E as (Hx & Hne & Hbefore). apply lookup_seqZ in Hx as [-> Hn].
    destruct r as [d|]; simpl; [|intros He; exfalso; apply Hne, He; lia].
    intros (Hd & Hdne & He). f_equal. destruct (Z.lt_trichotomy d (start + Z.of_nat n)) as [Hlt|[Heq|Hgt]].
    + exfalso. eapply (Hbefore (Z.to_nat (d - start)) d); [apply lookup_seqZ; lia|lia|done].
    + lia.
    + exfalso. apply Hne, He. lia.
  - apply list_find_None in E. destruct r as [d|]; simpl; [|done]. intros (Hd & Hdne & _).
    rewrite Forall_forall in E. exfalso. apply (E d); [|done]. apply elem_of_seqZ. lia.
Qed.

(** ** Bytes under masks *)

Lemma byte_high b j : byte_ok b → 8 ≤ j → Z.testbit b j = false.
Proof.
  intros [Hl Hu] Hj. destruct (decide (b = 0)) as [->|]; [apply Z.bits_0|].
  apply Z.bits_above_log2; [done|]. assert (Z.log2 b < 8); [|lia]. by apply Z.log2_lt_pow2; lia.
Qed.

Lemma land_eq_iff m a b :
  byte_ok a → byte_ok b →
  Z.land m a = Z.land m b ↔
  ∀ j, 0 ≤ j < 8 → Z.testbit m j = true → Z.testbit a j = Z.testbit b j.
Proof.
  intros Ha Hb. rewrite <-Z.bits_inj_iff'. split.
  - intros He j Hj Hm. specialize (He j). rewrite !Z.land_spec, Hm in He. apply He. lia.
  - intros He j Hj. rewrite !Z.land_spec. destruct (Z.testbit m j) eqn:Hm; [|done]. simpl.
    destruct (decide (j < 8)); [by apply He|]. by rewrite !byte_high by (done || lia).
Qed.

Lemma TrailingZeros8_spec x :
  byte_ok x → x ≠ 0 →
  0 ≤ TrailingZeros8 x < 8 ∧ Z.testbit x (TrailingZeros8 x) = true ∧
  ∀ j, 0 ≤ j < TrailingZeros8 x → Z.testbit x j = false.
Proof.
  intros Hx Hne. unfold TrailingZeros8. destruct (list_find _ _) as [[n t]|] eqn:E; simpl.
  - apply list_find_Some in E as (Ht & Hb & Hbefore). apply lookup_seqZ in Ht as [-> Hn].
    split; [lia|]. split; [done|]. intros j Hj. apply not_true_is_false.
    apply (Hbefore (Z.to_nat j)); [apply lookup_seqZ|]; lia.
  - exfalso. apply Hne, Z.bits_inj_iff'. intros j Hj. rewrite Z.bits_0.
    destruct (decide (8 ≤ j)); [by apply byte_high|]. apply list_find_None in E.
    rewrite Forall_forall in E. apply not_true_is_false, E, elem_of_seqZ. lia.
Qed.

Lemma byte_at_idbit id k b j :
  byte_at id k = Some b → 0 ≤ j < 8 → idbit id (8 * k + j) = Z.testbit b j.
Proof.
  unfold byte_at, idbit. case_bool_decide; [|done]. intros Hb Hj.
  replace ((8 * k + j) / 8) with k by (rewrite Z.mul_comm, Z.div_add_l, Z.div_small; lia).
  replace ((8 * k + j) `mod` 8) with j by (rewrite Z.add_comm, Z.mul_comm, Z.mod_add, Z.mod_small; lia).
  by rewrite Hb.
Qed.

Lemma byte_at_ok id k :
  bytes_ok id → 0 ≤ k < Z.of_nat (length id) → ∃ b, byte_at id k = Some b ∧ byte_ok b.
Proof.
  intros Hok Hk. unfold byte_at. rewrite bool_decide_eq_true_2 by lia.
  destruct (lookup_lt_is_Some_2 id (Z.to_nat k)) as [b Hb]; [lia|]. exists b. split; [done|].
  by eapply Forall_lookup in Hb.
Qed.

(** The bits [lo, hi) of a byte are those of a mask. *)
Definition mask_for (m lo hi : Z) : Prop :=
  0 ≤ lo ∧ lo ≤ hi ≤ 8 ∧ ∀ j, 0 ≤ j < 8 → Z.testbit m j = bool_decide (lo ≤ j < hi).

Lemma byte_ok_bits x : 0 ≤ x → (∀ j, 8 ≤ j → Z.testbit x j = false) → byte_ok x.
Proof.
  intros Hx Hb. split; [done|]. destruct (decide (x = 0)) as [->|]; [done|].
  apply Z.log2_lt_cancel. rewrite Z.log2_pow2 by lia. apply Z.nle_gt. intros Hlog%Hb.
  rewrite Z.bit_log2 in Hlog; [done|lia].
Qed.

Lemma byteDifference_scan id1 id2 k b1 b2 m lo hi :
  byte_at id1 k = Some b1 → byte_at id2 k = Some b2 → byte_ok b1 → byte_ok b2 → mask_for m lo hi →
  scan id1 id2 (8 * k + lo) (8 * k + hi) (byteDifference m k b1 b2).
Proof.
  intros H1 H2 Hb1 Hb2 (Hlo & Hhi & Hm). unfold byteDifference.
  assert (∀ i, 8 * k + lo ≤ i < 8 * k + hi → ∃ j, i = 8 * k + j ∧ 0 ≤ j < 8 ∧ lo ≤ j < hi) as Hj.
  { intros i Hi. exists (i - 8 * k). lia. }
  case_bool_decide as He.
  - intros i (j & -> & Hj8 & Hjr)%Hj. rewrite (byte_at_idbit id1 k b1), (byte_at_idbit id2 k b2) by done.
    apply (proj1 (land_eq_iff m b1 b2 Hb1 Hb2) He); [done|]. rewrite Hm by done. by apply bool_decide_eq_true_2.
  - set (x := Z.lxor (Z.land m b1) (Z.land m b2)).
    assert (∀ j, 0 ≤ j < 8 → Z.testbit x j = bool_decide (lo ≤ j < hi) && xorb (Z.testbit b1 j) (Z.testbit b2 j)) as Hx.
    { intros j Hj8. unfold x. rewrite Z.lxor_spec, !Z.land_spec, Hm by done. by case_bool_decide; simpl. }
    assert (byte_ok x) as Hok.
    { apply byte_ok_bits.
      - apply Z.lxor_nonneg. destruct Hb1, Hb2. rewrite !Z.land_nonneg. tauto.
      - intros j Hj8. unfold x. rewrite Z.lxor_spec, !Z.land_spec, (byte_high b1), (byte_high b2) by done.
        by rewrite !andb_false_r. }
    assert (x ≠ 0) as Hne by (intros Hz%Z.lxor_eq; done). rewrite wrapU_id by exact Hok.
    destruct (TrailingZeros8_spec x Hok Hne) as (Ht & Hbit & Hbefore). set (t := TrailingZeros8 x) in *.
    rewrite Hx in Hbit by done. apply andb_prop in Hbit as [Hr Hb]. apply bool_decide_eq_true_1 in Hr.
    unfold BitsPerByte. replace (t + k * 8) with (8 * k + t) by lia. split; [lia|].
    rewrite (byte_at_idbit id1 k b1), (byte_at_idbit id2 k b2) by done. split.
    { intros He'. rewrite He', xorb_nilpotent in Hb. done. }
    intros i Hi. destruct (Hj i) as (j & -> & Hj8 & Hjr); [lia|].
    rewrite (byte_at_idbit id1 k b1), (byte_at_idbit id2 k b2) by done.
    specialize (Hbefore j). rewrite Hx, bool_decide_eq_true_2 in Hbefore by done. apply xorb_eq, Hbefore. lia.
Qed.

Lemma shl_masks r j :
  0 ≤ r < 8 → 0 ≤ j < 8 →
  Z.testbit (shl (-1) r) j = bool_decide (r ≤ j) ∧
  Z.testbit (shl 1 (r + 1) - 1) j = bool_decide (j < r + 1).
Proof.
  intros Hr Hj. assert (∀ z, 0 ≤ z < 8 → z = 0 ∨ z = 1 ∨ z = 2 ∨ z = 3 ∨ z = 4 ∨ z = 5 ∨ z = 6 ∨ z = 7)
    as H8 by lia.
  pose proof (H8 r Hr) as Hr'. pose proof (H8 j Hj) as Hj'. clear H8 Hr Hj.
  by repeat destruct Hr' as [->|Hr']; try subst; repeat destruct Hj' as [->|Hj']; try subst.
Qed.

Section masks.
Context (start stop : Z) (Hstart : 0 ≤ start) (Hstop : 0 ≤ stop).

Lemma rem_index z : 0 ≤ z → wrapU 64 (Z.rem z BitsPerByte) = z `mod` 8.
Proof.
  intros. unfold BitsPerByte. rewrite Z.rem_mod_nonneg by lia. apply Z.mod_small.
  assert (0 ≤ z `mod` 8 < 8) by (apply Z.mod_pos_bound; lia). lia.
Qed.

Lemma startMask_for : mask_for (startMask_of start) (start `mod` 8) 8.
Proof.
  pose proof (Z.mod_pos_bound start 8 ltac:(lia)). split; [lia|]. split; [lia|]. intros j Hj.
  unfold startMask_of. rewrite rem_index by done.
  rewrite (proj1 (shl_masks (start `mod` 8) j ltac:(lia) Hj)). apply bool_decide_ext. lia.
Qed.

Lemma stopMask_for : mask_for (stopMask_of stop) 0 (stop `mod` 8 + 1).
Proof.
  pose proof (Z.mod_pos_bound stop 8 ltac:(lia)). split; [lia|]. split; [lia|]. intros j Hj.
  unfold stopMask_of. rewrite rem_index by done.
  rewrite (proj2 (shl_masks (stop `mod` 8) j ltac:(lia) Hj)). apply bool_decide_ext. lia.
Qed.

Lemma bothMask_for :
  start ≤ stop → start / 8 = stop / 8 →
  mask_for (Z.land (startMask_of start) (stopMask_of stop)) (start `mod` 8) (stop `mod` 8 + 1).
Proof.
  intros Hle Hsame. destruct startMask_for as (? & ? & Hs), stopMask_for as (? & ? & He).
  pose proof (Z.div_mod start 8). pose proof (Z.div_mod stop 8).
  split; [lia|]. split; [lia|]. intros j Hj. rewrite Z.land_spec, Hs, He by done.
  rewrite <-bool_decide_and. apply bool_decide_ext. lia.
Qed.
End masks.

(** ** The functions *)

Section subsets.
Context (id1 id2 : list Z) (Hid1 : bytes_ok id1) (Hid2 : bytes_ok id2).
Context (Hl1 : length id1 = 32%nat) (Hl2 : length id2 = 32%nat).

Lemma bytes_at k :
  0 ≤ k < 32 → ∃ b1 b2, byte_at id1 k = Some b1 ∧ byte_at id2 k = Some b2 ∧ byte_ok b1 ∧ byte_ok b2.
Proof.
  intros Hk. destruct (byte_at_ok id1 k Hid1) as (b1 & ? & ?); [lia|].
  destruct (byte_at_ok id2 k Hid2) as (b2 & ? & ?); [lia|]. eauto 10.
Qed.

Lemma fullMask_for : mask_for (-1) 0 8.
Proof. split; [lia|]. split; [lia|]. intros j Hj. rewrite Z.bits_m1 by lia. by rewrite bool_decide_eq_true_2. Qed.

Lemma interior_scan n k :
  0 ≤ k → k + Z.of_nat n ≤ 32 →
  ∃ r, interiorDifference n k id1 id2 = Some r ∧ scan id1 id2 (8 * k) (8 * (k + Z.of_nat n)) r.
Proof.
  revert k. induction n as [|n IH]; intros k Hk Hn; simpl.
  { exists None. split; [done|]. intros i Hi. lia. }
  destruct (bytes_at k) as (b1 & b2 & E1 & E2 & Hb1 & Hb2); [lia|]. rewrite E1, E2. simpl.
  pose proof (byteDifference_scan id1 id2 k b1 b2 (-1) 0 8 E1 E2 Hb1 Hb2 fullMask_for) as Hs.
  rewrite Z.add_0_r in Hs. destruct (byteDifference (-1) k b1 b2) as [d|].
  - eexists. split; [done|]. eapply scan_more; [exact Hs|lia].
  - destruct (IH (k + 1)) as (r & -> & Hr); [lia..|]. exists r. split; [done|].
    eapply scan_app; [|exact Hs|]; [lia|]. replace (8 * k + 8) with (8 * (k + 1)) by lia.
    by replace (k + Z.of_nat (S n)) with (k + 1 + Z.of_nat n) by lia.
Qed.

(** The interior bytes are equal exactly if the slices are. *)
Lemma interior_slices n k :
  0 ≤ k → k + Z.of_nat n ≤ 32 →
  interiorDifference n k id1 id2 = Some None ↔
  take n (drop (Z.to_nat k) id1) = take n (drop (Z.to_nat k) id2).
Proof.
  revert k. induction n as [|n IH]; intros k Hk Hn; [done|]. cbn [interiorDifference].
  destruct (bytes_at k) as (b1 & b2 & E1 & E2 & _); [lia|]. rewrite E1, E2. simpl mbind.
  unfold byte_at in E1, E2. rewrite bool_decide_eq_true_2 in E1, E2 by lia.
  rewrite (drop_S _ _ _ E1), (drop_S _ _ _ E2). cbn [take].
  unfold byteDifference. rewrite !Z.land_m1_l. specialize (IH (k + 1)).
  replace (Z.to_nat (k + 1)) with (S (Z.to_nat k)) in IH by lia.
  case_bool_decide as Hb; [rewrite IH by lia|]; [|naive_solver]. subst. split; [by intros ->|by intros [= ->]].
Qed.

Context (start stop : Z) (Hstart : 0 ≤ start) (Hrange : - 2 ^ 63 < stop < 2 ^ 63).

Lemma stop_wrap : wrapS 64 (stop - 1) = stop - 1.
Proof. clear - Hrange. apply wrapS_id; [lia|]. unfold inS. lia. Qed.

Lemma indices :
  start < stop ≤ 256 →
  Z.quot start BitsPerByte = start / 8 ∧ Z.quot (stop - 1) BitsPerByte = (stop - 1) / 8 ∧
  0 ≤ start / 8 ≤ (stop - 1) / 8 ∧ (stop - 1) / 8 < 32 ∧
  start = 8 * (start / 8) + start `mod` 8 ∧ stop = 8 * ((stop - 1) / 8) + ((stop - 1) `mod` 8 + 1) ∧
  0 ≤ start `mod` 8 < 8 ∧ 0 ≤ (stop - 1) `mod` 8 < 8.
Proof.
  intros Hs. unfold BitsPerByte. rewrite !Z.quot_div_nonneg by lia.
  pose proof (Z.div_mod start 8). pose proof (Z.div_mod (stop - 1) 8).
  pose proof (Z.mod_pos_bound start 8). pose proof (Z.mod_pos_bound (stop - 1) 8).
  pose proof (Z.div_le_mono start (stop - 1) 8). lia.
Qed.

Lemma byteDifference_None m k b1 b2 :
  bool_decide (Z.land m b1 = Z.land m b2) = bool_decide (byteDifference m k b1 b2 = None).
Proof. unfold byteDifference. by case_bool_decide. Qed.

(** The first byte from its bit on, and the last one up to its bit. *)
Lemma first_scan b1 b2 :
  start < stop ≤ 256 → byte_at id1 (start / 8) = Some b1 → byte_at id2 (start / 8) = Some b2 →
  byte_ok b1 → byte_ok b2 →
  scan id1 id2 start (8 * (start / 8 + 1)) (byteDifference (startMask_of start) (start / 8) b1 b2).
Proof.
  intros Hs E1 E2 Hb1 Hb2. destruct (indices Hs) as (_ & _ & _ & _ & Hds & _).
  rewrite Hds at 1. replace (8 * (start / 8 + 1)) with (8 * (start / 8) + 8) by lia.
  by apply byteDifference_scan, startMask_for.
Qed.

Lemma last_scan b1 b2 :
  start < stop ≤ 256 → byte_at id1 ((stop - 1) / 8) = Some b1 → byte_at id2 ((stop - 1) / 8) = Some b2 →
  byte_ok b1 → byte_ok b2 →
  scan id1 id2 (8 * ((stop - 1) / 8)) stop
    (byteDifference (stopMask_of (stop - 1)) ((stop - 1) / 8) b1 b2).
Proof.
  intros Hs E1 E2 Hb1 Hb2. destruct (indices Hs) as (_ & _ & _ & _ & _ & Hde & _).
  rewrite Hde at 2. rewrite <-(Z.add_0_r (8 * _)) at 1. apply byteDifference_scan, stopMask_for; [done..|lia].
Qed.

Lemma slices_interior :
  start < stop ≤ 256 → start / 8 ≠ (stop - 1) / 8 →
  ∃ r, interiorDifference (Z.to_nat ((stop - 1) / 8 - (start / 8 + 1))) (start / 8 + 1) id1 id2 = Some r ∧
    scan id1 id2 (8 * (start / 8 + 1)) (8 * ((stop - 1) / 8)) r ∧
    (if bool_decide (start / 8 + 1 < (stop - 1) / 8) then
       m1 ← subslice id1 (start / 8 + 1) ((stop - 1) / 8);
       m2 ← subslice id2 (start / 8 + 1) ((stop - 1) / 8);
       Some (bool_decide (m1 = m2))
     else Some true) = Some (bool_decide (r = None)).
Proof.
  intros Hs Hne. destruct (indices Hs) as (_ & _ & Hle & Hlt & _).
  set (n := Z.to_nat ((stop - 1) / 8 - (start / 8 + 1))).
  destruct (interior_scan n (start / 8 + 1)) as (r & Hr & Hscan); [lia..|].
  exists r. split; [done|]. split.
  { by replace (start / 8 + 1 + Z.of_nat n) with ((stop - 1) / 8) in Hscan by lia. }
  case_bool_decide as Hi.
  - unfold subslice. rewrite Hl1, Hl2, !bool_decide_eq_true_2 by lia. simpl. f_equal. fold n.
    apply bool_decide_ext. rewrite <-(interior_slices n (start / 8 + 1)) by lia. rewrite Hr. naive_solver.
  - assert (n = 0%nat) as Hn by lia. rewrite Hn in Hr. simpl in Hr. by simplify_eq.
Qed.

Lemma FirstDifferenceSubset_scan :
  start < stop ≤ 256 →
  ∃ r, FirstDifferenceSubset start stop id1 id2 = Some r ∧ scan id1 id2 start stop r ∧
    EqualSubset start stop id1 id2 = Some (bool_decide (r = None)).
Proof.
  intros Hs. destruct (indices Hs) as (Hqs & Hqe & Hle & Hlt & Hds & Hde & Hms & Hme).
  unfold FirstDifferenceSubset, EqualSubset. rewrite stop_wrap, Hqs, Hqe. unfold NumBits.
  rewrite (bool_decide_eq_false_2 (_ ∨ _ ∨ _)), (bool_decide_eq_false_2 (_ ∨ _)),
    (bool_decide_eq_false_2 (256 ≤ _)) by lia.
  destruct (bytes_at (start / 8)) as (a1 & a2 & A1 & A2 & Ha1 & Ha2); [lia|].
  destruct (bytes_at ((stop - 1) / 8)) as (c1 & c2 & C1 & C2 & Hc1 & Hc2); [lia|].
  rewrite A1, A2. simpl mbind. case_bool_decide as Hsame.
  - eexists. split; [done|]. rewrite (bool_decide_eq_false_2 (_ + 1 < _)) by lia. simpl.
    split; [|by rewrite <-byteDifference_None].
    pose proof (byteDifference_scan id1 id2 _ a1 a2 _ _ _ A1 A2 Ha1 Ha2
      (bothMask_for start (stop - 1) Hstart ltac:(lia) ltac:(lia) Hsame)) as Hb.
    replace (8 * (start / 8) + ((stop - 1) `mod` 8 + 1)) with stop in Hb by lia. by rewrite <-Hds in Hb.
  - destruct (slices_interior Hs Hsame) as (ri & Hi & Hsi & ->). rewrite Hi, C1, C2. simpl mbind.
    pose proof (first_scan a1 a2 Hs A1 A2 Ha1 Ha2) as Hf.
    pose proof (last_scan c1 c2 Hs C1 C2 Hc1 Hc2) as Hl.
    rewrite (byteDifference_None _ (start / 8)), (byteDifference_None _ ((stop - 1) / 8) c1 c2).
    destruct (byteDifference (startMask_of start) _ a1 a2) as [d|].
    { eexists. split; [done|]. split; [eapply scan_more; [exact Hf|lia]|]. by case_bool_decide. }
    assert (scan id1 id2 start (8 * ((stop - 1) / 8)) ri) as Hsf by (eapply scan_app; [|exact Hf|exact Hsi]; lia).
    destruct ri as [d|]; [eexists; split; [done|]; split; [eapply scan_more; [exact Hsf|lia]|done]|].
    eexists. split; [done|]. split; [eapply scan_app; [|exact Hsf|exact Hl]; lia|]. done.
Qed.
End subsets.

Lemma Bit_list_find id1 id2 start stop :
  length id1 = 32%nat → length id2 = 32%nat → 0 ≤ start → stop ≤ 256 →
  list_find (λ i, idbit id1 i ≠ idbit id2 i) (seqZ start (stop - start)) =
  list_find (λ i, Bit id1 i ≠ Bit id2 i) (seqZ start (stop - start)).
Proof.
  intros Hl1 Hl2 Hs He.
  assert (Forall (λ i, 0 ≤ i < 256) (seqZ start (stop - start))) as Hall.
  { apply Forall_forall. intros i Hi%elem_of_seqZ. lia. }
  induction Hall as [|i l Hi _ IH]; [done|]. simpl. rewrite IH.
  rewrite (Bit_idbit id1), (Bit_idbit id2) by done.
  by destruct (idbit id1 i), (idbit id2 i).
Qed.

(** The bytewise comparisons do what a comparison bit by bit does.  On IDs of 32
    bytes and a non-negative start, [FirstDifferenceSubset] is the first bit of the
    range where the IDs differ, and [EqualSubset] tells whether there is none; a range
    that ends after bit 256 is never equal and has no difference, an empty one is
    equal.  Neither panics. *)
Theorem subsets_are_bitwise (id1 id2 : list Z) (start stop : Z)
    (Hid1 : bytes_ok id1) (Hid2 : bytes_ok id2) (Hl1 : length id1 = 32%nat) (Hl2 : length id2 = 32%nat)
    (Hstart : 0 ≤ start) (Hrange : - 2 ^ 63 < stop < 2 ^ 63) :
  let range := seqZ start (stop - start) in
  EqualSubset start stop id1 id2 =
    Some (bool_decide (stop ≤ start ∨ stop ≤ 256 ∧ Forall (λ i, Bit id1 i = Bit id2 i) range)) ∧
  FirstDifferenceSubset start stop id1 id2 =
    Some (if bool_decide (stop ≤ 256)
          then snd <$> list_find (λ i, Bit id1 i ≠ Bit id2 i) range else None).
Proof.
  intros range. destruct (decide (start < stop ≤ 256)) as [Hs|Hs].
  - destruct (FirstDifferenceSubset_scan id1 id2 Hid1 Hid2 Hl1 Hl2 start stop Hstart Hrange Hs)
      as (r & -> & Hr%scan_list_find & ->).
    rewrite (bool_decide_eq_true_2 (stop ≤ 256)) by lia.
    rewrite (Bit_list_find id1 id2 start stop Hl1 Hl2 Hstart ltac:(lia)) in Hr. fold range in Hr.
    rewrite <-Hr. split; [|done]. f_equal. apply bool_decide_ext. rewrite Hr.
    destruct (list_find _ range) as [[n x]|] eqn:E; simpl.
    + apply list_find_Some in E as (Hx & Hne & _). split; [done|]. intros [?|[_ Hall]]; [lia|].
      rewrite Forall_forall in Hall. destruct Hne. by eapply Hall, list_elem_of_lookup_2.
    + apply list_find_None in E. split; [|done]. intros _. right. split; [lia|].
      eapply Forall_impl; [exact E|]. intros i. by apply dec_stable.
  - unfold EqualSubset, FirstDifferenceSubset, NumBits. rewrite stop_wrap by done.
    rewrite (bool_decide_eq_true_2 (_ ∨ _ ∨ _)) by lia. split.
    + case_bool_decide; [by rewrite bool_decide_eq_true_2 by lia|].
      rewrite bool_decide_eq_true_2, bool_decide_eq_false_2 by lia. done.
    + case_bool_decide; [|done]. unfold range. by rewrite seqZ_nil by lia.
Qed.

Definition demo_id1 : list Z := replicate 32 170.
Definition demo_id2 : list Z := replicate 16 170 ++ [174] ++ replicate 15 170.

Lemma subsets_are_bitwise_witness :
  EqualSubset 5 200 demo_id1 demo_id2 = Some false ∧
  FirstDifferenceSubset 5 200 demo_id1 demo_id2 = Some (Some 130).
Proof.
  assert (bytes_ok demo_id1) as H1 by (by repeat constructor).
  assert (bytes_ok demo_id2) as H2 by (by repeat constructor).
  destruct (subsets_are_bitwise demo_id1 demo_id2 5 200 H1 H2 eq_refl eq_refl ltac:(lia) ltac:(lia)) as [E F].
  split; [rewrite E|rewrite F]; vm_compute; reflexivity.
Defined.
