(* ===== verification/Ids.v ===== *)
(** * Identifiers as text (src/utils/ids/id.go, short.go, node_id.go, src/utils/cb58,
      src/utils/hashing)

    IDs of 32 bytes, short IDs of 20 and node IDs (a short ID with a prefix) are
    written as cb58: the base58 encoding of the bytes and a checksum.  A string is
    the list of its bytes.  Base58 and SHA-256 are third-party and standard library
    code: [Base58] has the operations and its laws, the hash is a parameter. *)

From S2P Require Import Packer Prelude.

Inductive iderr :=
| ErrBase58Decoding (e : string) | ErrMissingChecksum | ErrBadChecksum | errEncodingOverFlow
| ErrInvalidHashLen | errMissingQuotes | errShortNodeID | errMissingPrefix.

#[export] Instance iderr_eq : EqDecision iderr.
Proof. solve_decision. Defined.

(** github.com/mr-tron/base58 *)
Class Base58 := {
  base58_Encode : list Z → list Z;
  base58_Decode : list Z → result string (list Z);
}.

(** What its documentation says: the alphabet (the digits and letters without [0], [O],
    [I] and [l]), that decoding inverts encoding, and no bytes but none are encoded as
    the empty string. *)
Definition alphabet : list Z :=
  seqZ 49 9 ++ seqZ 65 8 ++ seqZ 74 5 ++ seqZ 80 11 ++ seqZ 97 11 ++ seqZ 109 14.

Class Base58Laws `{!Base58} : Prop := {
  base58_Decode_Encode : ∀ bs, bytes_ok bs → bs ≠ [] → base58_Decode (base58_Encode bs) = Ok bs;
  base58_Encode_nonempty : ∀ bs, bs ≠ [] → base58_Encode bs ≠ [];
  base58_Encode_alphabet : ∀ bs, bytes_ok bs → Forall (λ c, c ∈ alphabet) (base58_Encode bs);
}.

Definition IDLen : nat := 32.
Definition ShortIDLen : nat := 20.
Definition nullStr : list Z := [110; 117; 108; 108]%Z.
Definition quote : Z := 34.
Definition NodeIDPrefix : list Z := [78; 111; 100; 101; 73; 68; 45]%Z.
Definition checksumLen : nat := 4.

Section ids.
Context `{!Base58} (sha256 : list Z → list Z).

(** ** hashing.go *)

Definition Checksum (bytes : list Z) (length_ : nat) : list Z :=
  drop (length (sha256 bytes) - length_) (sha256 bytes).

(** On an error the hash is all zeros. *)
Definition ToHash (n : nat) (bytes : list Z) : option iderr * list Z :=
  if bool_decide (length bytes ≠ n) then (Some ErrInvalidHashLen, replicate n 0%Z)
  else (None, bytes).
Definition ToHash256 (bytes : list Z) : option iderr * list Z := ToHash IDLen bytes.
Definition ToHash160 (bytes : list Z) : option iderr * list Z := ToHash ShortIDLen bytes.

(** ** cb58.go *)

Definition cb58_Encode (bytes : list Z) : result iderr (list Z) :=
  if bool_decide (2 ^ 31 - 1 - Z.of_nat checksumLen < Z.of_nat (length bytes))%Z
  then Err errEncodingOverFlow
  else Ok (base58_Encode (bytes ++ Checksum bytes checksumLen)).

Definition cb58_Decode (str : list Z) : result iderr (list Z) :=
  match base58_Decode str with
  | Err e => Err (ErrBase58Decoding e)
  | Ok decodedBytes =>
      if bool_decide (length decodedBytes < checksumLen) then Err ErrMissingChecksum
      else
        let rawBytes := take (length decodedBytes - checksumLen) decodedBytes in
        let checksum := drop (length decodedBytes - checksumLen) decodedBytes in
        if bool_decide (checksum ≠ Checksum rawBytes checksumLen) then Err ErrBadChecksum
        else Ok rawBytes
  end.

(** ** id.go and short.go

    The two types have the same methods, for their lengths [n]. *)

Definition fromBytes (n : nat) (r : result iderr (list Z)) : option iderr * list Z :=
  match r with
  | Err e => (Some e, replicate n 0%Z)
  | Ok bytes => ToHash n bytes
  end.

Definition FromString (idStr : list Z) : option iderr * list Z := fromBytes IDLen (cb58_Decode idStr).
Definition ShortFromString (idStr : list Z) : option iderr * list Z :=
  fromBytes ShortIDLen (cb58_Decode idStr).

(** [String] ignores the error of the encoder. *)
Definition String_ (id : list Z) : list Z :=
  match cb58_Encode id with Ok s => s | Err _ => [] end.
Definition MarshalText (id : list Z) : list Z := String_ id.
Definition MarshalJSON (id : list Z) : result iderr (list Z) :=
  match cb58_Encode id with Err e => Err e | Ok str => Ok (quote :: str ++ [quote]) end.

(** The string between the quotes. *)
Definition unquote (str : list Z) : result iderr (list Z) :=
  let lastIndex := length str - 1 in
  if bool_decide (str !! 0 ≠ Some quote ∨ str !! lastIndex ≠ Some quote) then Err errMissingQuotes
  else Ok (take (lastIndex - 1) (drop 1 str)).

(** The receiver [id] keeps its value on the errors before the assignment. *)
Definition UnmarshalJSON (n : nat) (b id : list Z) : option iderr * list Z :=
  if bool_decide (b = nullStr) then (None, id)
  else if bool_decide (length b < 2) then (Some errMissingQuotes, id)
  else match unquote b with
       | Err e => (Some e, id)
       | Ok str => match cb58_Decode str with
                   | Err e => (Some e, id)
                   | Ok bytes => ToHash n bytes
                   end
       end.
Definition UnmarshalText (n : nat) (text id : list Z) : option iderr * list Z := UnmarshalJSON n text id.

(** [Prefix]: the hash of the prefixes, as 64-bit numbers, and the ID.  The packer
    has all the space it needs. *)
Definition Prefix (grow : nat → nat) (prefixes : list Z) (id : list Z) : option (list Z) :=
  let packer := mkPacker None 0 (replicate (length prefixes * 8 + IDLen) 0%Z) [] 0 in
  packer ← foldl (λ p prefix, p ≫= PackLong grow prefix) (Some packer) prefixes;
  packer ← PackFixedBytes grow id packer;
  Some (sha256 (Bytes packer)).

(** ** short.go and node_id.go: prefixes *)

Definition PrefixedString (prefix id : list Z) : list Z := prefix ++ String_ id.
Definition ShortFromPrefixedString (idStr prefix : list Z) : option iderr * list Z :=
  if bool_decide (take (length prefix) idStr ≠ prefix)
  then (Some errMissingPrefix, replicate ShortIDLen 0%Z)
  else ShortFromString (drop (length prefix) idStr).

Definition NodeID_String (id : list Z) : list Z := PrefixedString NodeIDPrefix id.
Definition NodeIDFromString (nodeIDStr : list Z) : option iderr * list Z :=
  match ShortFromPrefixedString nodeIDStr NodeIDPrefix with
  | (Some e, _) => (Some e, replicate ShortIDLen 0%Z)
  | r => r
  end.
Definition NodeID_MarshalJSON (id : list Z) : list Z := quote :: NodeID_String id ++ [quote].
Definition NodeID_UnmarshalJSON (b id : list Z) : option iderr * list Z :=
  if bool_decide (b = nullStr) then (None, id)
  else if bool_decide (length b ≤ 2 + length NodeIDPrefix) then (Some errShortNodeID, id)
  else match unquote b with
       | Err e => (Some e, id)
       | Ok str => NodeIDFromString str
       end.
Definition NodeID_MarshalText (id : list Z) : list Z := NodeID_String id.
Definition NodeID_UnmarshalText (text id : list Z) : option iderr * list Z := NodeID_UnmarshalJSON text id.
End ids.

(** ** Proofs *)

Section id_proofs.
Context `{!Base58, !Base58Laws} (sha256 : list Z → list Z).
Context (Hsha : ∀ b, bytes_ok (sha256 b) ∧ length (sha256 b) = 32).

Lemma Checksum_ok bs : bytes_ok (Checksum sha256 bs checksumLen) ∧ length (Checksum sha256 bs checksumLen) = 4.
Proof.
  destruct (Hsha bs) as [Hb Hl]. unfold Checksum. split; [by apply Forall_drop|].
  rewrite length_drop, Hl. done.
Qed.

Lemma cb58_Encode_ok bs :
  length bs ≤ 32 → cb58_Encode sha256 bs = Ok (base58_Encode (bs ++ Checksum sha256 bs checksumLen)).
Proof. intros Hl. unfold cb58_Encode. rewrite bool_decide_eq_false_2; [done|]. unfold checksumLen. lia. Qed.

Lemma checked_nonempty bs : bs ++ Checksum sha256 bs checksumLen ≠ [].
Proof. destruct (Checksum_ok bs) as [_ Hl]. intros [_ Hn]%app_nil. by rewrite Hn in Hl. Qed.

Lemma cb58_roundtrip bs :
  bytes_ok bs → cb58_Decode sha256 (base58_Encode (bs ++ Checksum sha256 bs checksumLen)) = Ok bs.
Proof.
  intros Hb. destruct (Checksum_ok bs) as [Hc Hl]. unfold cb58_Decode.
  rewrite base58_Decode_Encode; [|by apply Forall_app|apply checked_nonempty].
  rewrite length_app, Hl, bool_decide_eq_false_2 by (unfold checksumLen; lia).
  replace (length bs + 4 - checksumLen) with (length bs) by (unfold checksumLen; lia).
  rewrite take_app_length, drop_app_length. by rewrite bool_decide_eq_false_2 by tauto.
Qed.

Lemma cb58_Decode_sound s bs :
  cb58_Decode sha256 s = Ok bs → base58_Decode s = Ok (bs ++ Checksum sha256 bs checksumLen).
Proof.
  unfold cb58_Decode. destruct (base58_Decode s) as [d|]; [|done].
  case_bool_decide; [done|]. case_bool_decide as Hc; [done|]. intros [= <-].
  rewrite <-Hc at 1. by rewrite take_drop.
Qed.

Lemma ToHash_ok n bs : length bs = n → ToHash n bs = (None, bs).
Proof. intros <-. unfold ToHash. by rewrite bool_decide_eq_false_2 by tauto. Qed.

Lemma fromBytes_sound n s id :
  fromBytes n (cb58_Decode sha256 s) = (None, id) →
  length id = n ∧ base58_Decode s = Ok (id ++ Checksum sha256 id checksumLen).
Proof.
  unfold fromBytes. destruct (cb58_Decode sha256 s) as [bs|] eqn:E; [|done].
  unfold ToHash. case_bool_decide as Hl; [done|]. intros [= ->]. split; [done|]. by apply cb58_Decode_sound.
Qed.

Lemma unquote_quoted str : unquote (quote :: str ++ [quote]) = Ok str.
Proof.
  unfold unquote. simpl length. rewrite length_app. simpl length.
  rewrite bool_decide_eq_false_2.
  - f_equal. simpl. rewrite drop_0. by rewrite take_app_length' by lia.
  - intros [?|Hn]; [done|]. apply Hn. replace (S (length str + 1) - 1) with (S (length str)) by lia.
    simpl. by rewrite lookup_app_r, Nat.sub_diag by lia.
Qed.

Lemma UnmarshalJSON_quoted n id old :
  bytes_ok id → length id = n →
  UnmarshalJSON sha256 n (quote :: base58_Encode (id ++ Checksum sha256 id checksumLen) ++ [quote]) old = (None, id).
Proof.
  intros Hb Hl. unfold UnmarshalJSON. rewrite bool_decide_eq_false_2 by done.
  rewrite bool_decide_eq_false_2 by (simpl; rewrite length_app; simpl; lia).
  by rewrite unquote_quoted, cb58_roundtrip, ToHash_ok.
Qed.

(** Text without quotes is refused. *)
Lemma unquote_refused c str : c ≠ quote → unquote (c :: str) = Err errMissingQuotes.
Proof. intros Hc. unfold unquote. rewrite bool_decide_eq_true_2; [done|]. left. simpl. congruence. Qed.

Lemma UnmarshalText_refused n id old :
  bytes_ok id → UnmarshalText sha256 n (base58_Encode (id ++ Checksum sha256 id checksumLen)) old
    = (Some errMissingQuotes, old).
Proof.
  intros Hb. assert (bytes_ok (id ++ Checksum sha256 id checksumLen)) as Hok
    by (apply Forall_app; split; [done|apply Checksum_ok]).
  pose proof (base58_Encode_alphabet _ Hok) as Ha.
  pose proof (base58_Encode_nonempty _ (checked_nonempty id)) as Hne.
  destruct (base58_Encode _) as [|c str]; [done|]. apply Forall_cons in Ha as [Hc Ha].
  unfold UnmarshalText, UnmarshalJSON. rewrite bool_decide_eq_false_2.
  - case_bool_decide; [done|]. rewrite unquote_refused; [done|]. intros ->.
    apply (bool_decide_eq_true_2 (quote ∈ alphabet)) in Hc. vm_compute in Hc. done.
  - intros [= -> ->]. do 2 apply Forall_cons in Ha as [_ Ha]. apply Forall_cons in Ha as [Hl _].
    apply (bool_decide_eq_true_2 (108%Z ∈ alphabet)) in Hl. vm_compute in Hl. done.
Qed.
End id_proofs.

(** ** [Prefix] *)

Lemma Prefix_loop grow prefixes p :
  packer_wf p → (Offset p + 8 * Z.of_nat (length prefixes) ≤ lenB p)%Z →
  ∃ p', foldl (λ p prefix, p ≫= PackLong grow prefix) (Some p) prefixes = Some p' ∧
    wrote p p' (concat (be_encode 8 <$> prefixes)).
Proof.
  revert p. induction prefixes as [|x l IH]; intros p Hp Hl; cbn [foldl mbind option_bind].
  { exists p. split; [done|]. by apply wrote_nil. }
  destruct (pack_raw grow (be_encode 8 x) p Hp) as (p1 & E1 & Hcase).
  rewrite be_encode_length in E1, Hcase. simpl length in Hl.
  rewrite bool_decide_eq_true_2 in Hcase by (unfold limit; lia).
  pose proof Hcase as (Hp1 & _ & Ho & _ & Hlen & _). rewrite be_encode_length in Ho.
  assert (PackLong grow x p = Some p1) as -> by exact E1.
  destruct (IH p1 Hp1) as (p' & -> & Hw); [lia|]. exists p'. split; [done|]. exact (wrote_trans _ _ _ _ _ Hcase Hw).
Qed.

Lemma Prefix_ok sha256 grow prefixes id :
  length id = 32 →
  Prefix sha256 grow prefixes id = Some (sha256 (concat (be_encode 8 <$> prefixes) ++ id)).
Proof.
  intros Hid. unfold Prefix. set (p := mkPacker _ _ _ _ _).
  assert (lenB p = Z.of_nat (length prefixes * 8 + 32)) as Hlen by (unfold lenB; simpl; by rewrite length_replicate).
  assert (packer_wf p) as Hp by (split; [done|]; rewrite Hlen; simpl; lia).
  destruct (Prefix_loop grow prefixes p Hp) as (p1 & -> & Hw1); [rewrite Hlen; simpl; lia|]. cbn [mbind option_bind].
  pose proof Hw1 as (Hp1 & _ & Ho1 & _ & Hl1 & _).
  assert (length (concat (be_encode 8 <$> prefixes)) = length prefixes * 8) as Hc.
  { clear. induction prefixes as [|x l IH]; [done|]. rewrite fmap_cons. cbn [concat length].
    rewrite length_app, be_encode_length. lia. }
  change (Offset p) with 0%Z in Ho1. rewrite Hc in Ho1.
  destruct (pack_raw grow id p1 Hp1) as (p2 & E2 & Hcase). unfold PackFixedBytes. rewrite E2. cbn [mbind option_bind].
  rewrite bool_decide_eq_true_2 in Hcase by (unfold limit; lia).
  destruct (wrote_trans _ _ _ _ _ Hw1 Hcase) as (_ & _ & Ho & Ht & Hl2 & _). change (Offset p) with 0%Z in Ho, Ht.
  rewrite Z2Nat.inj_0, take_0 in Ht. cbn [app] in Ht.
  rewrite length_app, Hc in Ho. do 2 f_equal. rewrite <-Ht, take_ge; [done|]. unfold lenB in *. lia.
Qed.

(** Text forms of identifiers.  IDs, short IDs and node IDs are read back from
    the string and from the JSON that is written for them; a string that is
    accepted is the base58 encoding of an ID of the right length with its checksum.
    The text form is not: [UnmarshalText] expects quotes that [MarshalText] does not
    write, and refuses it, leaving the receiver as it was. *)
Theorem id_text_forms `{!Base58, !Base58Laws} (sha256 : list Z → list Z) (id s : list Z)
    (Hsha : ∀ b, bytes_ok (sha256 b) ∧ length (sha256 b) = 32) (Hid : bytes_ok id) :
  (length id = 32 →
    FromString sha256 (String_ sha256 id) = (None, id) ∧
    (∃ j, MarshalJSON sha256 id = Ok j ∧ ∀ old, UnmarshalJSON sha256 IDLen j old = (None, id)) ∧
    ∀ old, UnmarshalText sha256 IDLen (MarshalText sha256 id) old = (Some errMissingQuotes, old)) ∧
  (length id = 20 →
    ShortFromString sha256 (String_ sha256 id) = (None, id) ∧
    NodeIDFromString sha256 (NodeID_String sha256 id) = (None, id) ∧
    (∀ old, NodeID_UnmarshalJSON sha256 (NodeID_MarshalJSON sha256 id) old = (None, id)) ∧
    ∀ old, ∃ e, NodeID_UnmarshalText sha256 (NodeID_MarshalText sha256 id) old = (Some e, old)) ∧
  ∀ id', FromString sha256 s = (None, id') →
    length id' = 32 ∧ base58_Decode s = Ok (id' ++ Checksum sha256 id' 4).
Proof.
  split; [|split]; [intros Hl..|].
  - unfold FromString, MarshalText, String_, MarshalJSON. rewrite cb58_Encode_ok by lia.
    rewrite cb58_roundtrip by done. split; [by apply ToHash_ok|]. split.
    + eexists. split; [done|]. intros old. by apply UnmarshalJSON_quoted.
    + intros old. by apply UnmarshalText_refused.
  - unfold NodeID_UnmarshalText, NodeID_MarshalText, NodeID_UnmarshalJSON, NodeID_MarshalJSON,
      NodeIDFromString, NodeID_String, PrefixedString, ShortFromPrefixedString, ShortFromString, String_.
    rewrite cb58_Encode_ok by lia. set (t := base58_Encode _).
    assert (t ≠ []) as Hne by (apply base58_Encode_nonempty, checked_nonempty, Hsha).
    assert (fromBytes ShortIDLen (cb58_Decode sha256 t) = (None, id)) as Hfrom.
    { unfold t. rewrite cb58_roundtrip by done. by apply ToHash_ok. }
    assert (length t ≠ 0) by (by destruct t).
    rewrite take_app_length, drop_app_length, (bool_decide_eq_false_2 (NodeIDPrefix ≠ _)) by tauto.
    split; [done|]. rewrite Hfrom. split; [done|]. split; intros old.
    + rewrite bool_decide_eq_false_2 by done.
      rewrite bool_decide_eq_false_2 by (simpl; rewrite !length_app; simpl; lia).
      rewrite unquote_quoted, take_app_length, drop_app_length.
      rewrite (bool_decide_eq_false_2 (NodeIDPrefix ≠ _)) by tauto. by rewrite Hfrom.
    + rewrite bool_decide_eq_false_2 by done. case_bool_decide as Hle; [by eexists|].
      eexists. cbn [NodeIDPrefix app]. by rewrite unquote_refused.
  - intros id'. apply fromBytes_sound.
Qed.

(** ** A toy base58: two letters per byte *)

Definition toy_letter (n : Z) : Z := if bool_decide (n < 8)%Z then 65 + n else 89 + n.
Definition toy_value (c : Z) : Z := if bool_decide (c < 97)%Z then c - 65 else c - 89.
Fixpoint toy_decode (s : list Z) : result string (list Z) :=
  match s with
  | [] => Ok []
  | c :: d :: s' =>
      match toy_decode s' with
      | Ok bs => Ok (16 * toy_value c + toy_value d :: bs)%Z
      | Err e => Err e
      end
  | _ => Err "odd length"%string
  end.

Fixpoint toy_encode (bs : list Z) : list Z :=
  match bs with
  | [] => []
  | b :: bs' => toy_letter (b / 16) :: toy_letter (b `mod` 16) :: toy_encode bs'
  end.

#[export] Instance toy_Base58 : Base58 := {|
  base58_Encode := toy_encode;
  base58_Decode := toy_decode;
|}.

Lemma toy_letter_ok n :
  (0 ≤ n < 16)%Z → toy_letter n ∈ alphabet ∧ toy_value (toy_letter n) = n.
Proof.
  intros Hn. assert (n ∈ seqZ 0 16) as Hin by (apply elem_of_seqZ; lia).
  clear Hn. revert n Hin. apply Forall_forall. apply (bool_decide_eq_true_1 _). vm_compute. reflexivity.
Qed.

Lemma byte_nibbles b : byte_ok b → (0 ≤ b / 16 < 16)%Z ∧ (0 ≤ b `mod` 16 < 16)%Z ∧ (16 * (b / 16) + b `mod` 16 = b)%Z.
Proof.
  intros [Hl Hu]. pose proof (Z.div_mod b 16). pose proof (Z.mod_pos_bound b 16).
  change (2 ^ 8)%Z with 256%Z in Hu. lia.
Qed.

#[export] Instance toy_Base58Laws : Base58Laws.
Proof.
  split.
  - intros bs Hb _. induction Hb as [|b bs Hb _ IH]; [done|].
    cbn [base58_Encode base58_Decode toy_Base58 toy_encode toy_decode] in *. rewrite IH.
    destruct (byte_nibbles b Hb) as (H1 & H2 & H3).
    destruct (toy_letter_ok _ H1) as [_ ->], (toy_letter_ok _ H2) as [_ ->]. by rewrite H3.
  - by intros [|b bs].
  - intros bs Hb. induction Hb as [|b bs Hb _ IH]; [constructor|]. cbn [base58_Encode toy_Base58 toy_encode].
    destruct (byte_nibbles b Hb) as (H1 & H2 & _).
    constructor; [by apply toy_letter_ok|]. constructor; [by apply toy_letter_ok|done].
Qed.

Definition toy_sha256 (bs : list Z) : list Z := replicate 32 (foldr Z.add 0 bs `mod` 256)%Z.

Lemma toy_sha256_ok bs : bytes_ok (toy_sha256 bs) ∧ length (toy_sha256 bs) = 32.
Proof. split; [|done]. apply Forall_replicate. apply Z.mod_pos_bound. lia. Qed.

Lemma id_text_forms_witness :
  let id := replicate 32 9%Z in
  FromString toy_sha256 (String_ toy_sha256 id) = (None, id) ∧
  ∀ old, UnmarshalText toy_sha256 IDLen (MarshalText toy_sha256 id) old = (Some errMissingQuotes, old).
Proof.
  intros id. assert (bytes_ok id) as Hid by (by apply Forall_replicate).
  destruct (id_text_forms toy_sha256 id [] toy_sha256_ok Hid) as [H _].
  destruct (H eq_refl) as (H1 & _ & H2). split; [exact H1|exact H2].
Defined.
