(* ===== verification/Sampler.v ===== *)
(** * Uniform sampling (src/utils/sampler)

    [rng.Uint64Inclusive] turns a source of random 64-bit numbers into numbers of a
    range, and [uniformReplacer] samples without replacement: a Fisher-Yates shuffle
    whose array is a map that holds only the cells that changed.

    The source is the list of the numbers it will produce; [None] means that more
    numbers were needed (a source goes on forever, the list is a part of it). *)

From S2P Require Import Prelude.

#[local] Open Scope Z_scope.

(** ** rand.go *)

Definition MaxInt64 : Z := 2 ^ 63 - 1.

Definition uint64 (src : list Z) : option (Z * list Z) :=
  match src with [] => None | v :: src => Some (v, src) end.

(** Draws until [f] of a number is at most [bound]. *)
Fixpoint draw_until (f : Z → Z) (bound : Z) (src : list Z) : option (Z * list Z) :=
  match src with
  | [] => None
  | v :: src => if bool_decide (bound < f v) then draw_until f bound src else Some (f v, src)
  end.

Definition uint63 (v : Z) : Z := Z.land v MaxInt64.

Definition Uint64Inclusive (n : Z) (src : list Z) : option (Z * list Z) :=
  if bool_decide (Z.land n (wrapU 64 (n + 1)) = 0) then
    '(v, src) ← uint64 src; Some (Z.land v n, src)
  else if bool_decide (MaxInt64 < n) then draw_until id n src
  else
    let max := wrapU 64 (2 ^ 63 - 1 - 2 ^ 63 `mod` (n + 1)) in
    '(v, src) ← draw_until uint63 max src;
    Some (v `mod` (n + 1), src).

(** ** uniform_replacer.go *)

Record uniformReplacer := mkUniform {
  un_length : Z;
  drawn : gmap Z Z;
  drawsCount : Z;
}.

Definition map_get (m : gmap Z Z) (key defaultVal : Z) : Z := default defaultVal (m !! key).

Definition Initialize (length : Z) : uniformReplacer := mkUniform length ∅ 0.
Definition Reset (s : uniformReplacer) : uniformReplacer := mkUniform (un_length s) ∅ 0.

(** The boolean of the source is whether a number is returned. *)
Definition Next (s : uniformReplacer) (src : list Z) : option (option Z * uniformReplacer * list Z) :=
  if bool_decide (un_length s ≤ drawsCount s) then Some (None, s, src)
  else
    '(r, src) ← Uint64Inclusive (un_length s - 1 - drawsCount s) src;
    let draw := wrapU 64 (r + drawsCount s) in
    let ret := map_get (drawn s) draw draw in
    let drawn := <[draw := map_get (drawn s) (drawsCount s) (drawsCount s)]> (drawn s) in
    Some (Some ret, mkUniform (un_length s) drawn (wrapU 64 (drawsCount s + 1)), src).

Fixpoint Sample_loop (count : nat) (results : list Z) (s : uniformReplacer) (src : list Z)
    : option (option (list Z) * uniformReplacer * list Z) :=
  match count with
  | O => Some (Some results, s, src)
  | S count' =>
      '(ret, s, src) ← Next s src;
      match ret with
      | None => Some (None, s, src)
      | Some ret => Sample_loop count' (results ++ [ret]) s src
      end
  end.

(** [Sample count] with [count >= 0]. *)
Definition Sample (count : nat) (s : uniformReplacer) (src : list Z)
    : option (option (list Z) * uniformReplacer * list Z) :=
  Sample_loop count [] (Reset s) src.

(** ** The numbers of a range are equally likely

    What a number of the source gives: [None] if another one is drawn. *)
Definition pick (n v : Z) : option Z :=
  if bool_decide (Z.land n (wrapU 64 (n + 1)) = 0) then Some (Z.land v n)
  else if bool_decide (MaxInt64 < n) then if bool_decide (n < v) then None else Some v
  else
    let max := wrapU 64 (2 ^ 63 - 1 - 2 ^ 63 `mod` (n + 1)) in
    if bool_decide (max < uint63 v) then None else Some (uint63 v `mod` (n + 1)).

Fixpoint first_pick (n : Z) (src : list Z) : option (Z * list Z) :=
  match src with
  | [] => None
  | v :: src => match pick n v with Some r => Some (r, src) | None => first_pick n src end
  end.

Lemma Uint64Inclusive_pick n src : Uint64Inclusive n src = first_pick n src.
Proof.
  unfold Uint64Inclusive. case_bool_decide as H1.
  { destruct src as [|v src]; [done|]. simpl. unfold pick. by rewrite bool_decide_eq_true_2. }
  case_bool_decide as H2; (induction src as [|v src IH]; [done|]); simpl; unfold pick.
  all: rewrite (bool_decide_eq_false_2 (Z.land _ _ = 0)) by done.
  - rewrite (bool_decide_eq_true_2 (MaxInt64 < n)) by done. unfold id in *. by case_bool_decide.
  - rewrite (bool_decide_eq_false_2 (MaxInt64 < n)) by done. by case_bool_decide.
Qed.

(** A mask: [n & (n+1) = 0] means that [n + 1] is a power of two. *)
Lemma mask_pow n :
  0 ≤ n < 2 ^ 64 → Z.land n (wrapU 64 (n + 1)) = 0 → ∃ k, 0 ≤ k ≤ 64 ∧ n = Z.ones k.
Proof.
  intros Hn Hl. destruct (decide (n = 2 ^ 64 - 1)) as [->|Hne]; [by exists 64|].
  rewrite wrapU_id in Hl by (unfold inU; lia). set (k := Z.log2 (n + 1)).
  destruct (Z.log2_spec (n + 1)) as [Hlo Hhi]; [lia|]. fold k in Hlo, Hhi.
  assert (0 ≤ k) as Hk by apply Z.log2_nonneg.
  assert (k < 64) by (apply (Z.pow_lt_mono_r_iff 2); lia).
  destruct (decide (n + 1 = 2 ^ k)) as [He|Hk'].
  - exists k. rewrite Z.ones_equiv. lia.
  - exfalso. assert (Z.log2 n = k) as Hln by (apply Z.log2_unique; lia).
    assert (Z.testbit (Z.land n (n + 1)) k = true) as Hb.
    { rewrite Z.land_spec. rewrite <-Hln at 1. unfold k. rewrite !Z.bit_log2 by lia. done. }
    by rewrite Hl, Z.bits_0 in Hb.
Qed.

(** *** Counting *)

Definition count (P : Z → bool) (a n : Z) : Z := Z.of_nat (length (filter (λ v, P v = true) (seqZ a n))).

Lemma count_app P a n m : 0 ≤ n → 0 ≤ m → count P a (n + m) = count P a n + count P (a + n) m.
Proof. intros. unfold count. rewrite seqZ_app by lia. rewrite filter_app, length_app. lia. Qed.

Lemma count_ext P Q a n : (∀ v, a ≤ v < a + n → P v = Q v) → count P a n = count Q a n.
Proof.
  intros He. unfold count. f_equal. apply length_filter_ext, Forall_seqZ.
  intros v Hv. by rewrite He by lia.
Qed.

Lemma count_none P a n : (∀ v, a ≤ v < a + n → P v = false) → count P a n = 0.
Proof.
  intros He. rewrite (count_ext P (λ _, false)) by done. unfold count.
  by induction (seqZ a n).
Qed.

Lemma count_one P a n r :
  a ≤ r < a + n → (∀ v, a ≤ v < a + n → P v = bool_decide (v = r)) → count P a n = 1.
Proof.
  intros Hr HP. replace n with ((r - a) + (1 + (a + n - r - 1))) by lia. rewrite !count_app by lia.
  rewrite (count_none P a), (count_none P (a + (r - a) + 1)).
  - replace (a + (r - a)) with r by lia. unfold count. rewrite seqZ_cons by lia. rewrite seqZ_nil by lia.
    rewrite filter_cons_True; [done|]. rewrite HP by lia. by apply bool_decide_eq_true_2.
  - intros v Hv. rewrite HP by lia. apply bool_decide_eq_false_2. lia.
  - intros v Hv. rewrite HP by lia. apply bool_decide_eq_false_2. lia.
Qed.

Lemma count_shift P a n d : count P (a + d) n = count (λ v, P (v + d)) a n.
Proof.
  unfold count. rewrite (Z.add_comm a d), <-fmap_add_seqZ, length_filter_fmap.
  f_equal. apply length_filter_ext, Forall_seqZ. intros v _. by rewrite Z.add_comm.
Qed.

(** Every residue occurs once per period. *)
Lemma count_mod d r k :
  0 ≤ r < d → 0 ≤ k → count (λ v, bool_decide (v `mod` d = r)) 0 (k * d) = k.
Proof.
  intros Hr. revert k. apply natlike_ind; [done|]. intros k Hk IH. assert (0 ≤ k * d) by nia.
  rewrite Z.mul_succ_l, count_app by lia. rewrite IH, (count_one _ _ _ (k * d + r)); [lia|lia|].
  intros v Hv. apply bool_decide_ext. replace v with ((v - k * d) + k * d) by lia.
  rewrite Z.mod_add, Z.mod_small by lia. lia.
Qed.

Lemma uint63_mod v : 0 ≤ v → uint63 v = v `mod` 2 ^ 63.
Proof. intros. unfold uint63, MaxInt64. change (2 ^ 63 - 1) with (Z.ones 63). by rewrite Z.land_ones. Qed.

Lemma max_spec n :
  0 ≤ n ≤ MaxInt64 →
  let max := wrapU 64 (2 ^ 63 - 1 - 2 ^ 63 `mod` (n + 1)) in
  max + 1 = (2 ^ 63 / (n + 1)) * (n + 1) ∧ 0 ≤ max < 2 ^ 63 ∧ 0 < 2 ^ 63 / (n + 1).
Proof.
  intros Hn max. unfold MaxInt64 in Hn. pose proof (Z.mod_pos_bound (2 ^ 63) (n + 1)).
  pose proof (Z.div_mod (2 ^ 63) (n + 1)). assert (1 ≤ 2 ^ 63 / (n + 1)) by (apply Z.div_le_lower_bound; lia).
  unfold max. rewrite wrapU_id by (unfold inU; nia). nia.
Qed.

(** How many of the numbers of the source give [r]. *)
Definition weight_of (n : Z) : Z :=
  if bool_decide (Z.land n (wrapU 64 (n + 1)) = 0) then 2 ^ 64 / (n + 1)
  else if bool_decide (MaxInt64 < n) then 1 else 2 * (2 ^ 63 / (n + 1)).

Lemma pick_uniform n r :
  0 ≤ n < 2 ^ 64 → 0 ≤ r ≤ n →
  count (λ v, bool_decide (pick n v = Some r)) 0 (2 ^ 64) = weight_of n ∧ 0 < weight_of n.
Proof.
  intros Hn Hr. unfold weight_of. unfold pick. case_bool_decide as H1; [|case_bool_decide as H2].
  - destruct (mask_pow n Hn H1) as (k & Hk & ->). rewrite Z.ones_equiv in *.
    replace (Z.pred (2 ^ k) + 1) with (2 ^ k) by lia.
    assert (2 ^ 64 = 2 ^ (64 - k) * 2 ^ k) as Hp by (rewrite <-Z.pow_add_r by lia; f_equal; lia).
    rewrite Hp, Z.div_mul by lia. split; [|lia].
    rewrite <-(count_mod (2 ^ k) r (2 ^ (64 - k))) at 2 by lia. apply count_ext. intros v Hv.
    rewrite <-Z.ones_equiv, Z.land_ones by lia. apply bool_decide_ext. naive_solver.
  - split; [|lia]. apply (count_one _ _ _ r); [lia|]. intros v Hv. apply bool_decide_ext.
    case_bool_decide; [|naive_solver]. split; [done|lia].
  - destruct (max_spec n) as (Hmax & Hmr & Hq); [lia|].
    set (max := wrapU 64 (2 ^ 63 - 1 - 2 ^ 63 `mod` (n + 1))) in *. split; [|lia].
    set (P := λ v, bool_decide ((if bool_decide (max < uint63 v) then None
                                 else Some (uint63 v `mod` (n + 1))) = Some r)).
    assert (∀ u v, 0 ≤ v < 2 ^ 63 → 0 ≤ u → u `mod` 2 ^ 63 = v →
      P u = bool_decide (v ≤ max ∧ v `mod` (n + 1) = r)) as HP.
    { intros u v Hv Hu Huv. unfold P. rewrite uint63_mod, Huv by done. apply bool_decide_ext.
      destruct (decide (max < v)).
      - rewrite bool_decide_eq_true_2 by done. split; [done|lia].
      - rewrite bool_decide_eq_false_2 by done. split; [intros [= <-]; lia|by intros [_ ->]]. }
    assert (count (λ v, bool_decide (v ≤ max ∧ v `mod` (n + 1) = r)) 0 (2 ^ 63) = 2 ^ 63 / (n + 1)) as Hc.
    { replace (2 ^ 63) with ((max + 1) + (2 ^ 63 - max - 1)) at 1 by lia. rewrite count_app by lia.
      rewrite (count_none _ (0 + (max + 1))).
      - rewrite Hmax, Z.add_0_r. rewrite <-(count_mod (n + 1) r (2 ^ 63 / (n + 1))) at 2 by lia.
        apply count_ext. intros v Hv. apply bool_decide_ext. lia.
      - intros v Hv. apply bool_decide_eq_false_2. lia. }
    replace (2 ^ 64) with (2 ^ 63 + 2 ^ 63) by lia. rewrite count_app, (count_shift P 0) by lia.
    rewrite (count_ext P (λ v, bool_decide (v ≤ max ∧ v `mod` (n + 1) = r))).
    + rewrite (count_ext (λ v, P (v + 2 ^ 63)) (λ v, bool_decide (v ≤ max ∧ v `mod` (n + 1) = r))); [lia|].
      intros v Hv. apply HP; [lia|lia|]. rewrite <-(Z.mul_1_l (2 ^ 63)) at 1. by rewrite Z.mod_add, Z.mod_small by lia.
    + intros v Hv. apply HP; [lia|lia|]. by apply Z.mod_small.
Qed.

Lemma pick_range n v r : 0 ≤ n < 2 ^ 64 → 0 ≤ v → pick n v = Some r → 0 ≤ r ≤ n.
Proof.
  intros Hn Hv. unfold pick. case_bool_decide as H1; [|case_bool_decide as H2].
  - intros [= <-]. destruct (mask_pow n Hn H1) as (k & Hk & ->). rewrite Z.land_ones by lia.
    rewrite Z.ones_equiv. pose proof (Z.mod_pos_bound v (2 ^ k)). lia.
  - case_bool_decide; [done|]. intros [= <-]. lia.
  - case_bool_decide; [done|]. intros [= <-]. pose proof (Z.mod_pos_bound (uint63 v) (n + 1)). lia.
Qed.

Lemma first_pick_range n src r src' :
  0 ≤ n < 2 ^ 64 → Forall (inU 64) src → first_pick n src = Some (r, src') →
  0 ≤ r ≤ n ∧ Forall (inU 64) src'.
Proof.
  intros Hn. induction 1 as [|v src Hv Hsrc IH]; [done|]. simpl.
  destruct (pick n v) as [x|] eqn:E; [|exact IH]. intros [= -> ->].
  split; [|done]. eapply pick_range; [done| |exact E]. apply Hv.
Qed.

Lemma accepted_weight n : 0 ≤ n < 2 ^ 64 → 2 ^ 63 < (n + 1) * weight_of n ≤ 2 ^ 64.
Proof.
  intros Hn. unfold weight_of. case_bool_decide as H1; [|case_bool_decide as H2].
  - destruct (mask_pow n Hn H1) as (k & Hk & ->). rewrite Z.ones_equiv in *.
    replace (Z.pred (2 ^ k) + 1) with (2 ^ k) by lia.
    assert (2 ^ 64 = 2 ^ (64 - k) * 2 ^ k) as Hp by (rewrite <-Z.pow_add_r by lia; f_equal; lia).
    rewrite Hp at 1 2. rewrite Z.div_mul by lia. lia.
  - unfold MaxInt64 in *. lia.
  - destruct (max_spec n) as (_ & _ & Hq); [lia|].
    pose proof (Z.mod_pos_bound (2 ^ 63) (n + 1)). pose proof (Z.div_mod (2 ^ 63) (n + 1)). nia.
Qed.

(** Random numbers of a range are unbiased.  For every [n] of 64 bits,
    [Uint64Inclusive n] returns the first number of the source that it accepts,
    reduced to the range; every number of [0, n] stands for equally many of the
    2^64 numbers of the source, and more than half of them are accepted, so the
    loop ends with probability one. *)
Theorem rng_unbiased (n r v : Z) (src : list Z)
    (Hn : 0 ≤ n < 2 ^ 64) (Hr : 0 ≤ r ≤ n) (Hsrc : Forall (inU 64) src) (Hv : inU 64 v) :
  Uint64Inclusive n (v :: src) =
    match pick n v with Some x => Some (x, src) | None => Uint64Inclusive n src end ∧
  (∀ x src', Uint64Inclusive n src = Some (x, src') → 0 ≤ x ≤ n) ∧
  count (λ u, bool_decide (pick n u = Some r)) 0 (2 ^ 64) = weight_of n ∧
  2 ^ 63 < (n + 1) * weight_of n ≤ 2 ^ 64.
Proof.
  rewrite !Uint64Inclusive_pick. split; [done|]. split.
  - intros x src' Hx. by eapply first_pick_range.
  - split; [by apply pick_uniform|by apply accepted_weight].
Qed.

(** ** Sampling without replacement

    The array of the shuffle. *)
Definition cell (s : uniformReplacer) (i : Z) : Z := map_get (drawn s) i i.
Definition remaining (s : uniformReplacer) : list Z :=
  cell s <$> seqZ (drawsCount s) (un_length s - drawsCount s).

(** What [Next] does with a number of the range. *)
Definition step (s : uniformReplacer) (r : Z) : Z * uniformReplacer :=
  let draw := r + drawsCount s in
  (cell s draw, mkUniform (un_length s) (<[draw := cell s (drawsCount s)]> (drawn s)) (drawsCount s + 1)).

Definition room (s : uniformReplacer) : Prop := 0 ≤ drawsCount s ≤ un_length s ∧ un_length s < 2 ^ 64.

Lemma cell_step s r i :
  cell (step s r).2 i = if bool_decide (i = r + drawsCount s) then cell s (drawsCount s) else cell s i.
Proof.
  unfold step, cell, map_get. simpl. case_bool_decide as He.
  - subst. by rewrite lookup_insert_eq.
  - by rewrite lookup_insert_ne.
Qed.

Lemma remaining_step s r :
  room s → 0 ≤ r < un_length s - drawsCount s →
  room (step s r).2 ∧ (step s r).1 :: remaining (step s r).2 ≡ₚ remaining s.
Proof.
  intros [Hd Hl] Hr. split; [split; simpl; lia|]. unfold remaining.
  change (fst (step s r)) with (cell s (r + drawsCount s)).
  change (un_length (step s r).2) with (un_length s). change (drawsCount (step s r).2) with (drawsCount s + 1).
  pose proof (cell_step s r) as Hcell. set (s' := (step s r).2) in *. clearbody s'.
  set (c := drawsCount s) in *. set (m := un_length s - c) in *.
  replace (un_length s - (c + 1)) with (m - 1) by lia.
  rewrite (seqZ_cons c m) by lia. rewrite fmap_cons.
  assert (∀ l, Forall (λ i, i ≠ r + c) l → cell s' <$> l = cell s <$> l) as Hsame.
  { intros l Hall. apply list_fmap_ext. intros i x Hx. rewrite Hcell.
    rewrite bool_decide_eq_false_2; [done|]. by eapply Forall_lookup in Hx; [|exact Hall]. }
  replace (Z.succ c) with (c + 1) by lia. replace (Z.pred m) with (m - 1) by lia.
  destruct (decide (r = 0)) as [->|Hr0].
  - rewrite Hsame; [done|]. apply Forall_seqZ. lia.
  - replace (m - 1) with ((r - 1) + (1 + (m - 1 - r))) by lia.
    rewrite !seqZ_app by lia. rewrite (seqZ_cons _ 1) by lia. rewrite (seqZ_nil _ (Z.pred 1)) by lia.
    rewrite !fmap_app, !fmap_cons. replace (c + 1 + (r - 1)) with (r + c) by lia.
    rewrite !Hsame by (apply Forall_nil_2 || (apply Forall_seqZ; lia)). rewrite Hcell, bool_decide_eq_true_2 by done.
    simpl. rewrite <-!Permutation_middle. apply Permutation_swap.
Qed.

Lemma Next_step s src :
  room s → Forall (inU 64) src → drawsCount s < un_length s →
  Next s src = '(r, src') ← first_pick (un_length s - 1 - drawsCount s) src;
               Some (Some (step s r).1, (step s r).2, src').
Proof.
  intros [Hd Hl] Hsrc Hlt. unfold Next. rewrite bool_decide_eq_false_2 by lia.
  rewrite Uint64Inclusive_pick. destruct (first_pick _ src) as [[r src']|] eqn:E; [|done].
  apply first_pick_range in E as [Hr _]; [|lia|done]. simpl.
  rewrite !wrapU_id by (unfold inU; lia). done.
Qed.

(** The numbers sampled for a sequence of offsets. *)
Fixpoint shuffle (offsets : list Z) (s : uniformReplacer) : list Z :=
  match offsets with
  | [] => []
  | r :: offsets' => (step s r).1 :: shuffle offsets' (step s r).2
  end.

Fixpoint offsets_ok (offsets : list Z) (s : uniformReplacer) : Prop :=
  match offsets with
  | [] => True
  | r :: offsets' => 0 ≤ r < un_length s - drawsCount s ∧ offsets_ok offsets' (step s r).2
  end.

Lemma shuffle_sublist offsets s :
  room s → offsets_ok offsets s → ∃ rest, shuffle offsets s ++ rest ≡ₚ remaining s.
Proof.
  revert s. induction offsets as [|r offsets IH]; intros s Hs Hok; [by exists (remaining s)|].
  destruct Hok as [Hr Hok]. destruct (remaining_step s r Hs Hr) as [Hs' Hp].
  destruct (IH _ Hs' Hok) as [rest Hrest]. exists rest. simpl. by rewrite <-Hp, <-Hrest.
Qed.

Lemma cell_inj s i j :
  NoDup (remaining s) → drawsCount s ≤ i < un_length s → drawsCount s ≤ j < un_length s →
  cell s i = cell s j → i = j.
Proof.
  intros Hnd Hi Hj He. unfold remaining in Hnd.
  set (c := drawsCount s) in *. set (l := seqZ c (un_length s - c)) in *.
  assert (∀ k, c ≤ k < un_length s → (cell s <$> l) !! Z.to_nat (k - c) = Some (cell s k)) as Hk.
  { intros k Hk. rewrite list_lookup_fmap. unfold l.
    rewrite (proj2 (lookup_seqZ _ _ _ k)) by lia. done. }
  pose proof (Hk i Hi) as Hi'. pose proof (Hk j Hj) as Hj'. rewrite <-He in Hj'.
  pose proof (NoDup_lookup _ _ _ _ Hnd Hi' Hj'). lia.
Qed.

(** Different offsets give different samples. *)
Lemma shuffle_inj o1 o2 s :
  room s → NoDup (remaining s) → offsets_ok o1 s → offsets_ok o2 s →
  shuffle o1 s = shuffle o2 s → o1 = o2.
Proof.
  revert o2 s. induction o1 as [|r o1 IH]; intros [|r' o2] s Hs Hnd H1 H2 He; try done.
  destruct H1 as [Hr H1], H2 as [Hr' H2]. simpl in He. injection He as Hx He.
  assert (r = r') as <-.
  { destruct Hs. cut (r + drawsCount s = r' + drawsCount s); [lia|].
    apply (cell_inj s); [done|lia|lia|exact Hx]. }
  f_equal. destruct (remaining_step s r Hs Hr) as [Hs' Hp]. apply (IH o2 (step s r).2); try done.
  rewrite <-Hp in Hnd. by apply NoDup_cons in Hnd as [_ ?].
Qed.

Lemma Sample_loop_spec k results s src r s' src' :
  room s → Forall (inU 64) src → Sample_loop k results s src = Some (r, s', src') →
  if bool_decide (Z.of_nat k ≤ un_length s - drawsCount s)
  then ∃ offsets, length offsets = k ∧ offsets_ok offsets s ∧ r = Some (results ++ shuffle offsets s)
  else r = None.
Proof.
  revert results s src. induction k as [|k IH]; intros results s src Hs Hsrc; simpl.
  { intros [= <- <- <-]. destruct Hs. rewrite bool_decide_eq_true_2 by lia. exists []. by rewrite app_nil_r. }
  destruct (decide (drawsCount s < un_length s)) as [Hlt|Hge].
  2: { unfold Next. rewrite bool_decide_eq_true_2 by lia. simpl. intros [= <- <- <-].
       by rewrite bool_decide_eq_false_2 by lia. }
  rewrite Next_step by done. destruct (first_pick _ src) as [[x src1]|] eqn:E; [|done]. simpl.
  destruct Hs as [Hd Hl]. apply first_pick_range in E as [Hx Hsrc1]; [|lia|done].
  destruct (remaining_step s x) as [Hs' _]; [done|lia|]. intros Hrun.
  specialize (IH _ _ _ Hs' Hsrc1 Hrun). cbn [step snd un_length drawsCount] in IH.
  case_bool_decide as H1; case_bool_decide as H2; try lia; [|done].
  destruct IH as (offsets & Hlen & Hok & ->). exists (x :: offsets). simpl. split; [lia|].
  split; [split; [lia|exact Hok]|]. by rewrite <-app_assoc.
Qed.

(** Zero is always accepted, so a source with enough zeros is enough. *)
Lemma pick_zero n : 0 ≤ n → pick n 0 = Some 0.
Proof.
  intros Hn. unfold pick. rewrite Z.land_0_l. case_bool_decide; [done|].
  case_bool_decide; [by rewrite bool_decide_eq_false_2 by lia|].
  pose proof (wrapU_range 64 (2 ^ 63 - 1 - 2 ^ 63 `mod` (n + 1)) ltac:(lia)) as [? _].
  change (uint63 0) with 0. rewrite bool_decide_eq_false_2 by lia. by rewrite Z.mod_0_l by lia.
Qed.

Lemma first_pick_zeros n src k :
  0 ≤ n → ∃ r src', first_pick n (src ++ replicate (S k) 0) = Some (r, src' ++ replicate k 0).
Proof.
  intros Hn. induction src as [|v src [r [src' IH]]].
  - simpl. rewrite pick_zero by done. by exists 0, [].
  - cbn [app first_pick]. destruct (pick n v) as [r'|]; [|eauto].
    exists r', (src ++ [0]). rewrite <-app_assoc. done.
Qed.

Lemma Sample_loop_zeros k results s src :
  room s → Forall (inU 64) src → is_Some (Sample_loop k results s (src ++ replicate k 0)).
Proof.
  revert results s src. induction k as [|k IH]; intros results s src Hs Hsrc; [done|]. cbn [Sample_loop].
  destruct (decide (drawsCount s < un_length s)) as [Hlt|Hge].
  2: { unfold Next. by rewrite bool_decide_eq_true_2 by lia. }
  assert (Forall (inU 64) (src ++ replicate (S k) 0)) as Hall
    by (apply Forall_app; split; [done|by apply Forall_replicate]).
  rewrite Next_step by done. pose proof Hs as [Hd Hl].
  destruct (first_pick_zeros (un_length s - 1 - drawsCount s) src k) as (r & src' & E); [lia|].
  rewrite E. simpl. apply first_pick_range in E as [Hr Hsrc']; [|lia|done].
  apply IH; [apply remaining_step; [done|lia]|]. by apply Forall_app in Hsrc' as [? _].
Qed.

Lemma remaining_Initialize n : remaining (Initialize n) = seqZ 0 n.
Proof.
  unfold remaining. simpl. rewrite Z.sub_0_r. rewrite <-list_fmap_id. apply list_fmap_ext. done.
Qed.

Lemma Sample_spec count s src r s' src' :
  0 ≤ un_length s < 2 ^ 64 → Forall (inU 64) src → Sample count s src = Some (r, s', src') →
  let s0 := Initialize (un_length s) in
  if bool_decide (Z.of_nat count ≤ un_length s)
  then ∃ l offsets, r = Some l ∧ length l = count ∧ NoDup l ∧ Forall (λ x, 0 ≤ x < un_length s) l ∧
         length offsets = count ∧ offsets_ok offsets s0 ∧ l = shuffle offsets s0
  else r = None.
Proof.
  intros Hs Hsrc Hrun s0. assert (room s0) as Hroom by (split; simpl; lia).
  assert (NoDup (remaining s0)) as Hnd by (unfold s0; rewrite remaining_Initialize; apply NoDup_seqZ).
  pose proof (Sample_loop_spec count [] s0 src r s' src' Hroom Hsrc Hrun) as Hspec.
  cbn [s0 Initialize un_length drawsCount] in Hspec. rewrite Z.sub_0_r in Hspec.
  case_bool_decide; [|done]. destruct Hspec as (offsets & Hlen & Hok & ->).
  destruct (shuffle_sublist offsets s0 Hroom Hok) as [rest Hp].
  exists (shuffle offsets s0), offsets. split; [done|]. split.
  { rewrite <-Hlen. clear. generalize s0. induction offsets as [|x l IH]; intros t; simpl; [done|by rewrite IH]. }
  rewrite <-Hp in Hnd. apply NoDup_app in Hnd as [Hnd _]. split; [done|]. split; [|done].
  apply Forall_forall. intros x Hx. assert (x ∈ remaining s0) as Hin by (rewrite <-Hp; apply elem_of_app; by left).
  unfold s0 in Hin. rewrite remaining_Initialize in Hin. apply elem_of_seqZ in Hin. lia.
Qed.

(** Sampling is without replacement and every sample is equally likely.
    [Sample count] returns [count] different numbers of the range when it has that
    many, and false otherwise, whatever the random numbers; it returns as soon as the
    source has given enough numbers that are accepted (zero always is).  The
    sample is the one its offsets give ([Next] draws offset [i] from the
    [length - i] numbers left), and different offsets give different samples. *)
Theorem sample_without_replacement (count : nat) (s : uniformReplacer) (src : list Z)
    (Hs : 0 ≤ un_length s < 2 ^ 64) (Hsrc : Forall (inU 64) src) :
  let s0 := Initialize (un_length s) in
  is_Some (Sample count s (src ++ replicate count 0)) ∧
  (∀ r s' src', Sample count s src = Some (r, s', src') →
    if bool_decide (Z.of_nat count ≤ un_length s)
    then ∃ l offsets, r = Some l ∧ length l = count ∧ NoDup l ∧ Forall (λ x, 0 ≤ x < un_length s) l ∧
           length offsets = count ∧ offsets_ok offsets s0 ∧ l = shuffle offsets s0
    else r = None) ∧
  ∀ o1 o2, offsets_ok o1 s0 → offsets_ok o2 s0 → shuffle o1 s0 = shuffle o2 s0 → o1 = o2.
Proof.
  intros s0. assert (room s0) as Hroom by (split; simpl; lia).
  split; [by apply Sample_loop_zeros|]. split.
  - intros r s' src' Hrun. by eapply Sample_spec.
  - intros o1 o2. apply shuffle_inj; [done|]. unfold s0. rewrite remaining_Initialize. apply NoDup_seqZ.
Qed.

Lemma rng_unbiased_witness :
  Uint64Inclusive 5 [2 ^ 64 - 1; 13] = Some (1, []) ∧
  count (λ u, bool_decide (pick 5 u = Some 2)) 0 (2 ^ 64) = weight_of 5 ∧
  2 ^ 63 < 6 * weight_of 5 ≤ 2 ^ 64.
Proof.
  assert (Forall (inU 64) [13]) as Hsrc by (by repeat constructor).
  destruct (rng_unbiased 5 2 (2 ^ 64 - 1) [13] ltac:(lia) ltac:(lia) Hsrc ltac:(done)) as (H1 & _ & H2 & H3).
  split; [rewrite H1; vm_compute; reflexivity|]. split; [exact H2|exact H3].
Defined.

Lemma sample_without_replacement_witness :
  Sample 3 (Initialize 5) [4; 7; 2] = Some (Some [4; 0; 1], mkUniform 5 {[4 := 2]} 3, []) ∧
  ∃ l offsets, Some [4; 0; 1] = Some l ∧ NoDup l ∧ offsets_ok offsets (Initialize 5).
Proof.
  assert (Forall (inU 64) [4; 7; 2]) as Hsrc by (by repeat constructor).
  destruct (sample_without_replacement 3 (Initialize 5) [4; 7; 2] ltac:(simpl; lia) Hsrc) as (_ & H & _).
  assert (Sample 3 (Initialize 5) [4; 7; 2] = Some (Some [4; 0; 1], mkUniform 5 {[4 := 2]} 3, []))
    as Hr by (vm_compute; reflexivity).
  split; [exact Hr|]. specialize (H _ _ _ Hr). rewrite bool_decide_eq_true_2 in H by (simpl; lia).
  destruct H as (l & offsets & H1 & _ & H2 & _ & _ & H3 & _). exists l, offsets.
  split; [exact H1|]. split; [exact H2|exact H3].
Defined.
