(* ===== verification/SampleableSet.v ===== *)
(** * Sets with sampling (src/utils/set/sampleable_set.go)

    [SampleableSet] keeps its elements in a slice, with a map from elements to their
    indices; removing an element moves the last one into its place.  The theorem
    relates it to finite sets, and its samples to those of Sampler.v.

    A slice is a window on an array: [arr] is the array, [len] the length of the
    slice, so that what an operation writes is seen through other slices of the same
    array ([Difference] of a set and itself).  A nil map reads as the empty one; the
    code allocates it before it writes ([resize]).  [None] is a panic. *)

From S2P Require Import Prelude Sampler.

Section sampleable.
Context {T : Type} `{Countable T} (zero : T).

Record SampleableSet := mkSampleable {
  indices : gmap T nat;
  arr : list T;
  len : nat;
}.

Definition elements_of (s : SampleableSet) : list T := take (len s) (arr s).

Definition NewSampleableSet : SampleableSet := mkSampleable ∅ [] 0.

Definition add (e : T) (s : SampleableSet) : SampleableSet :=
  match indices s !! e with
  | Some _ => s
  | None => mkSampleable (<[e := len s]> (indices s))
              (take (len s) (arr s) ++ e :: drop (S (len s)) (arr s)) (S (len s))
  end.

Definition remove (e : T) (s : SampleableSet) : option SampleableSet :=
  match indices s !! e with
  | None => Some s
  | Some indexToRemove =>
      let lastIndex := len s - 1 in
      '(ind, a) ← (if bool_decide (indexToRemove ≠ lastIndex) then
                     lastElement ← elements_of s !! lastIndex;
                     if bool_decide (indexToRemove < len s)
                     then Some (<[lastElement := indexToRemove]> (indices s),
                                <[indexToRemove := lastElement]> (arr s))
                     else None
                   else Some (indices s, arr s));
      if bool_decide (lastIndex < len s)
      then Some (mkSampleable (delete e ind) (<[lastIndex := zero]> a) lastIndex) else None
  end.

Definition Sampleable_Add (elements : list T) (s : SampleableSet) : SampleableSet :=
  foldl (λ s e, add e s) s elements.
Definition OfSampleable (elts : list T) : SampleableSet := Sampleable_Add elts NewSampleableSet.

Definition Sampleable_Remove (elements : list T) (s : SampleableSet) : option SampleableSet :=
  foldl (λ s e, s ≫= remove e) (Some s) elements.

(** [Union] and [Difference] with a set that has an array of its own. *)
Definition Sampleable_Union (set s : SampleableSet) : SampleableSet := Sampleable_Add (elements_of set) s.
Definition Sampleable_Difference (set s : SampleableSet) : option SampleableSet :=
  Sampleable_Remove (elements_of set) s.

(** [s.Difference(s)]: the loop reads the array that [remove] writes. *)
Fixpoint difference_self_loop (n i : nat) (s : SampleableSet) : option SampleableSet :=
  match n with
  | O => Some s
  | S n' => e ← arr s !! i; s ← remove e s; difference_self_loop n' (S i) s
  end.
Definition Difference_self (s : SampleableSet) : option SampleableSet :=
  difference_self_loop (len s) 0 s.

Definition Sampleable_Contains (e : T) (s : SampleableSet) : bool := bool_decide (is_Some (indices s !! e)).
Definition Sampleable_Len (s : SampleableSet) : nat := len s.

Definition Sampleable_Overlaps (big s : SampleableSet) : bool :=
  let '(small, big) := if bool_decide (Sampleable_Len big < Sampleable_Len s) then (big, s) else (s, big) in
  existsb (λ e, Sampleable_Contains e big) (elements_of small).

Definition Sampleable_Clear (s : SampleableSet) : SampleableSet :=
  mkSampleable ∅ (replicate (len s) zero ++ drop (len s) (arr s)) 0.
Definition List_ (s : SampleableSet) : list T := elements_of s.

(** The order in which the map is visited does not matter: a conjunction. *)
Definition Sampleable_Equals (other s : SampleableSet) : bool :=
  if bool_decide (size (indices s) ≠ size (indices other)) then false
  else forallb (λ k, Sampleable_Contains k other) (map_to_list (indices s)).*1.

(** [numToSample] is an [int]; [src] is the source of random numbers (Sampler.v). *)
Definition Sampleable_Sample (numToSample : Z) (s : SampleableSet) (src : list Z)
    : option (option (list T) * list Z) :=
  if bool_decide (numToSample ≤ 0)%Z then Some (Some [], src)
  else
    '(ind, _, src) ← Sample (Nat.min (length (elements_of s)) (Z.to_nat numToSample))
                       (Initialize (Z.of_nat (length (elements_of s)))) src;
    match ind with
    | None => Some (Some [], src)
    | Some ind => Some (mapM (λ i, elements_of s !! Z.to_nat i) ind, src)
    end.

(** ** Invariant *)

Record sampleable_wf (s : SampleableSet) : Prop := {
  sw_len : len s ≤ length (arr s);
  sw_index : ∀ e i, indices s !! e = Some i ↔ elements_of s !! i = Some e;
}.

(** The set that it stands for. *)
Definition contents (s : SampleableSet) : gset T := dom (indices s).

Lemma elements_length s : sampleable_wf s → length (elements_of s) = len s.
Proof. intros Hs. unfold elements_of. rewrite length_take. pose proof (sw_len s Hs). lia. Qed.

Lemma elements_NoDup s : sampleable_wf s → NoDup (elements_of s).
Proof.
  intros Hs. apply NoDup_alt. intros i j x Hi%(sw_index s Hs) Hj%(sw_index s Hs). congruence.
Qed.

Lemma elem_of_contents s e : sampleable_wf s → e ∈ contents s ↔ e ∈ elements_of s.
Proof.
  intros Hs. unfold contents. rewrite elem_of_dom, list_elem_of_lookup.
  split; intros [i Hi]; exists i; by apply (sw_index s Hs).
Qed.

Lemma contents_elements s : sampleable_wf s → contents s = list_to_set (elements_of s).
Proof.
  intros Hs. apply set_eq. intros e. rewrite elem_of_list_to_set. by apply elem_of_contents.
Qed.

Lemma contents_size s : sampleable_wf s → size (contents s) = len s.
Proof.
  intros Hs. rewrite contents_elements, size_list_to_set by (done || by apply elements_NoDup).
  by apply elements_length.
Qed.

Lemma New_wf : sampleable_wf NewSampleableSet ∧ contents NewSampleableSet = ∅.
Proof. split; [split; [done|]|apply dom_empty_L]. by intros e [|i]. Qed.

Lemma add_elements e s :
  sampleable_wf s → indices s !! e = None → elements_of (add e s) = elements_of s ++ [e].
Proof.
  intros Hs He. unfold add. rewrite He. unfold elements_of at 1. cbn [len arr]. fold (elements_of s).
  rewrite <-(elements_length s Hs) at 1. replace (S (length (elements_of s))) with (length (elements_of s) + 1) by lia.
  by rewrite take_app_add.
Qed.

Lemma add_wf e s : sampleable_wf s → sampleable_wf (add e s) ∧ contents (add e s) = {[e]} ∪ contents s.
Proof.
  intros Hs. destruct (indices s !! e) as [i|] eqn:He.
  { unfold add. rewrite He. split; [done|]. assert (e ∈ contents s) by (by apply elem_of_dom_2 in He). set_solver. }
  pose proof (add_elements e s Hs He) as Hel. pose proof (elements_length s Hs) as Hl.
  assert (indices (add e s) = <[e := len s]> (indices s)) as Hi by (unfold add; by rewrite He).
  assert (len (add e s) = S (len s)) as Hlen by (unfold add; by rewrite He).
  split; [split|].
  - rewrite Hlen. unfold add. rewrite He. cbn [arr]. rewrite length_app. simpl. fold (elements_of s). lia.
  - intros x i. rewrite Hi, Hel. destruct (decide (x = e)) as [->|Hx].
    + rewrite lookup_insert_eq, lookup_app_Some. split.
      * intros [= <-]. right. by rewrite Hl, Nat.sub_diag.
      * intros [Hx%(sw_index s Hs)|[Hle Hx]]; [congruence|].
        apply list_lookup_singleton_Some in Hx as [Hx _]. f_equal. lia.
    + rewrite lookup_insert_ne by done. rewrite (sw_index s Hs), lookup_app_Some. split; [by left|].
      intros [?|[_ Hx']]; [done|]. apply list_lookup_singleton_Some in Hx' as [_ ?]. congruence.
  - unfold contents. by rewrite Hi, dom_insert_L.
Qed.

(** The indices after a removal are those of the elements left. *)
Lemma remove_lookup (s : SampleableSet) e x y i j (l : list T) :
  sampleable_wf s → elements_of s !! i = Some e → elements_of s !! (len s - 1) = Some y → i < len s →
  (∀ k, l !! k = if decide (k < len s - 1) then if decide (k = i) then Some y else elements_of s !! k else None) →
  delete e (if decide (i = len s - 1) then indices s else <[y := i]> (indices s)) !! x = Some j ↔
  l !! j = Some x.
Proof.
  intros Hs Hei Hy Hi Hl. rewrite Hl. pose proof (elements_NoDup s Hs) as Hnd.
  assert (∀ k z, elements_of s !! k = Some z → k < len s) as Hlt.
  { intros k z Hk%lookup_lt_Some. by rewrite (elements_length s Hs) in Hk. }
  assert (∀ k k' z, elements_of s !! k = Some z → elements_of s !! k' = Some z → k = k') as Hinj
    by (intros; by eapply NoDup_lookup).
  rewrite lookup_delete_Some. destruct (decide (i = len s - 1)) as [Hlast|Hne].
  - rewrite (sw_index s Hs). split.
    + intros [Hxe Hx]. pose proof (Hlt _ _ Hx). assert (j ≠ i) by congruence.
      rewrite decide_True, decide_False by lia. done.
    + destruct (decide (j < len s - 1)); [|done]. rewrite decide_False by lia. intros Hx. split; [|done].
      intros <-. assert (j = i) by eauto. lia.
  - assert (y ≠ e) by (intros ->; assert (i = len s - 1) by eauto; lia).
    rewrite lookup_insert_Some, (sw_index s Hs). split.
    + intros [Hxe [[<- <-]|[Hyx Hx]]]; [by rewrite decide_True, decide_True by lia|].
      pose proof (Hlt _ _ Hx). assert (j ≠ len s - 1) by congruence. assert (j ≠ i) by congruence.
      by rewrite decide_True, decide_False by lia.
    + destruct (decide (j < len s - 1)); [|done]. destruct (decide (j = i)) as [->|Hji].
      * intros [= <-]. eauto.
      * intros Hx. split; [intros <-; by assert (j = i) by eauto|]. right. split; [|done].
        intros <-. assert (j = len s - 1) by eauto. lia.
Qed.

Lemma remove_wf e s :
  sampleable_wf s → ∃ s', remove e s = Some s' ∧ sampleable_wf s' ∧ contents s' = contents s ∖ {[e]}.
Proof.
  intros Hs. unfold remove. destruct (indices s !! e) as [i|] eqn:He.
  2: { exists s. split; [done|]. split; [done|]. apply not_elem_of_dom in He. unfold contents. set_solver. }
  pose proof (elements_length s Hs) as Hl. pose proof (sw_len s Hs) as Hcap.
  pose proof (proj1 (sw_index s Hs e i) He) as Hei. pose proof (lookup_lt_Some _ _ _ Hei) as Hi. rewrite Hl in Hi.
  destruct (lookup_lt_is_Some_2 (elements_of s) (len s - 1)) as [y Hy]; [lia|].
  pose proof (elements_NoDup s Hs) as Hnd.
  set (ind := if decide (i = len s - 1) then indices s else <[y := i]> (indices s)).
  set (a := if decide (i = len s - 1) then arr s else <[i := y]> (arr s)).
  exists (mkSampleable (delete e ind) (<[len s - 1 := zero]> a) (len s - 1)). split; [|split; [split|]].
  - unfold ind, a. destruct (decide (i = len s - 1)) as [->|Hne].
    + rewrite (bool_decide_eq_false_2 (_ ≠ _)) by (intros Hn; by apply Hn). simpl. by rewrite bool_decide_eq_true_2 by lia.
    + rewrite (bool_decide_eq_true_2 (_ ≠ _)), Hy by done. simpl. rewrite bool_decide_eq_true_2 by lia. simpl.
      by rewrite bool_decide_eq_true_2 by lia.
  - cbn [len arr]. rewrite length_insert. unfold a. destruct (decide _); rewrite ?length_insert; lia.
  - cbn [indices]. intros x j.
    assert (elements_of (mkSampleable (delete e ind) (<[len s - 1 := zero]> a) (len s - 1))
      = take (len s - 1) a) as ->.
    { unfold elements_of. cbn [len arr]. by rewrite take_insert_ge by lia. }
    assert (∀ k, k < len s - 1 → take (len s - 1) a !! k = if decide (k = i) then Some y else elements_of s !! k) as Ha.
    { intros k Hk. rewrite lookup_take_lt by lia. unfold a, elements_of.
      destruct (decide (i = len s - 1)); [rewrite decide_False by lia|destruct (decide (k = i)) as [->|]].
      - by rewrite lookup_take_lt by lia.
      - apply list_lookup_insert_eq. lia.
      - rewrite list_lookup_insert_ne by done. by rewrite lookup_take_lt by lia. }
    apply (remove_lookup s e x y i j); try done. intros k. destruct (decide (k < len s - 1)); [by rewrite Ha|].
    rewrite lookup_take_ge by lia. done.
  - unfold contents. cbn [indices]. rewrite dom_delete_L. unfold ind. destruct (decide _); [done|].
    rewrite dom_insert_L. assert (y ∈ dom (indices s)) by (eapply elem_of_dom_2, (sw_index s Hs), Hy). set_solver.
Qed.

Lemma Add_wf l s :
  sampleable_wf s → sampleable_wf (Sampleable_Add l s) ∧ contents (Sampleable_Add l s) = contents s ∪ list_to_set l.
Proof.
  revert s. induction l as [|e l IH]; intros s Hs; simpl; [split; [done|set_solver]|].
  destruct (add_wf e s Hs) as [Hs' Hc]. destruct (IH _ Hs') as [Hs'' Hc'].
  unfold Sampleable_Add in *. split; [done|]. rewrite Hc', Hc. set_solver.
Qed.

Lemma Remove_wf l s :
  sampleable_wf s → ∃ s', Sampleable_Remove l s = Some s' ∧ sampleable_wf s' ∧
    contents s' = contents s ∖ list_to_set l.
Proof.
  revert s. induction l as [|e l IH]; intros s Hs; simpl.
  { exists s. split; [done|]. split; [done|]. set_solver. }
  destruct (remove_wf e s Hs) as (s1 & E & Hs1 & Hc1). unfold Sampleable_Remove in *. simpl. rewrite E.
  destruct (IH s1 Hs1) as (s2 & -> & Hs2 & Hc2). exists s2. split; [done|]. split; [done|]. set_solver.
Qed.

Lemma Clear_wf s : sampleable_wf (Sampleable_Clear s) ∧ contents (Sampleable_Clear s) = ∅.
Proof. split; [split; [simpl; lia|]|apply dom_empty_L]. by intros e [|i]. Qed.

Lemma Contains_spec e s : sampleable_wf s → Sampleable_Contains e s = bool_decide (e ∈ contents s).
Proof. intros Hs. apply bool_decide_ext. unfold contents. by rewrite elem_of_dom. Qed.

Lemma existsb_contains l s :
  sampleable_wf s → existsb (λ e, Sampleable_Contains e s) l = bool_decide (¬ (list_to_set l ## contents s)).
Proof.
  intros Hs. apply eq_true_iff_eq. rewrite existsb_exists, bool_decide_eq_true. split.
  - intros (e & He & Hc). rewrite Contains_spec, bool_decide_eq_true in Hc by done.
    apply list_elem_of_In in He. set_solver.
  - intros Hd. destruct (set_choose_or_empty (list_to_set l ∩ contents s : gset T)) as [[e He]|He].
    + exists e. rewrite Contains_spec, bool_decide_eq_true, <-list_elem_of_In by done. set_solver.
    + destruct Hd. set_solver.
Qed.

Lemma Overlaps_spec big s :
  sampleable_wf s → sampleable_wf big →
  Sampleable_Overlaps big s = bool_decide (¬ (contents s ## contents big)).
Proof.
  intros Hs Hb. unfold Sampleable_Overlaps. destruct (bool_decide (_ < _)); cbn [fst snd];
    rewrite existsb_contains by done; rewrite <-contents_elements by done; apply bool_decide_ext; set_solver.
Qed.

Lemma Equals_spec other s :
  sampleable_wf s → sampleable_wf other →
  Sampleable_Equals other s = bool_decide (contents s = contents other).
Proof.
  intros Hs Ho. unfold Sampleable_Equals. rewrite <-!size_dom. fold (contents s) (contents other).
  case_bool_decide as Hn; [symmetry; apply bool_decide_eq_false_2; congruence|].
  apply eq_true_iff_eq. rewrite forallb_forall, bool_decide_eq_true. split.
  - intros Hall. apply set_subseteq_size_eq; [|lia]. intros e He.
    apply (elem_of_dom (indices s)) in He as [i Hi]. specialize (Hall e).
    rewrite Contains_spec, bool_decide_eq_true in Hall by done. apply Hall, list_elem_of_In, list_elem_of_fmap.
    exists (e, i). split; [done|]. by apply elem_of_map_to_list.
  - intros He e Hin%list_elem_of_In%list_elem_of_fmap. destruct Hin as ([e' i] & -> & Hi%elem_of_map_to_list).
    rewrite Contains_spec, bool_decide_eq_true, <-He by done. unfold contents. by eapply elem_of_dom_2.
Qed.

Lemma mapM_lookup (l : list T) ind :
  Forall (λ i, (0 ≤ i < Z.of_nat (length l))%Z) ind → NoDup l → NoDup ind →
  ∃ xs, mapM (λ i, l !! Z.to_nat i) ind = Some xs ∧ NoDup xs ∧ xs ⊆ l ∧ length xs = length ind.
Proof.
  intros Hr Hl Hind. destruct (mapM_is_Some_2 (λ i, l !! Z.to_nat i) ind) as [xs Hxs].
  { eapply Forall_impl; [exact Hr|]. simpl. intros i Hi. apply lookup_lt_is_Some_2. lia. }
  exists xs. split; [done|]. apply mapM_Some_1 in Hxs. split_and!.
  - apply NoDup_alt. intros a b x Ha Hb.
    destruct (Forall2_lookup_r _ _ _ _ _ Hxs Ha) as (i & Hi & Hix), (Forall2_lookup_r _ _ _ _ _ Hxs Hb) as (j & Hj & Hjx).
    pose proof (NoDup_lookup _ _ _ _ Hl Hix Hjx).
    pose proof (Forall_lookup_1 _ _ _ _ Hr Hi) as Hri. pose proof (Forall_lookup_1 _ _ _ _ Hr Hj) as Hrj.
    simpl in Hri, Hrj. assert (i = j) as <- by lia. by eapply NoDup_lookup.
  - intros x [a Ha]%list_elem_of_lookup. destruct (Forall2_lookup_r _ _ _ _ _ Hxs Ha) as (i & _ & Hix).
    by eapply list_elem_of_lookup_2.
  - symmetry. by eapply Forall2_length.
Qed.

Lemma Sample_members num s src r src' :
  sampleable_wf s → (Z.of_nat (len s) < 2 ^ 64)%Z → Forall (inU 64) src →
  Sampleable_Sample num s src = Some (r, src') →
  ∃ l, r = Some l ∧ NoDup l ∧ list_to_set l ⊆ contents s ∧ length l = Nat.min (len s) (Z.to_nat num).
Proof.
  intros Hs Hl Hsrc. unfold Sampleable_Sample. pose proof (elements_length s Hs) as Hlen.
  case_bool_decide as Hn.
  { intros [= <- <-]. exists []. split; [done|]. split; [constructor|]. split; [set_solver|]. simpl. lia. }
  set (n := Nat.min _ _). destruct (Sample n _ src) as [[[ind s'] src1]|] eqn:E; [|done].
  apply Sample_spec in E; [|simpl; lia|done]. simpl un_length in E.
  rewrite bool_decide_eq_true_2 in E by lia. destruct E as (l & offsets & -> & Hll & Hnd & Hrange & _).
  destruct (mapM_lookup (elements_of s) l Hrange (elements_NoDup s Hs) Hnd) as (xs & Hxs & Hndx & Hsub & Hlx).
  simpl. rewrite Hxs. intros [= <- <-]. exists xs. split; [done|]. split; [done|]. split; [|lia].
  rewrite contents_elements by done. set_solver.
Qed.

(** ** Traces *)

(** Changes of a set; the other set of a union or difference is made of elements. *)
Inductive sop :=
| SAdd (l : list T) | SRemove (l : list T) | SUnion (l : list T) | SDifference (l : list T) | SClear.

Definition sop_exec (o : sop) (s : SampleableSet) : option SampleableSet :=
  match o with
  | SAdd l => Some (Sampleable_Add l s)
  | SRemove l => Sampleable_Remove l s
  | SUnion l => Some (Sampleable_Union (OfSampleable l) s)
  | SDifference l => Sampleable_Difference (OfSampleable l) s
  | SClear => Some (Sampleable_Clear s)
  end.

(** The same on finite sets. *)
Definition sop_ref (o : sop) (X : gset T) : gset T :=
  match o with
  | SAdd l | SUnion l => X ∪ list_to_set l
  | SRemove l | SDifference l => X ∖ list_to_set l
  | SClear => ∅
  end.

Lemma sop_exec_wf o s :
  sampleable_wf s → ∃ s', sop_exec o s = Some s' ∧ sampleable_wf s' ∧ contents s' = sop_ref o (contents s).
Proof.
  intros Hs. assert (∀ l, (list_to_set (elements_of (OfSampleable l)) : gset T) = list_to_set l) as Hof.
  { intros l. destruct New_wf as [Hn Hc]. destruct (Add_wf l _ Hn) as [Hw Hl].
    unfold OfSampleable. rewrite <-contents_elements, Hl, Hc by done. set_solver. }
  destruct o as [l|l|l|l|]; simpl.
  - eexists. split; [done|]. by apply Add_wf.
  - by apply Remove_wf.
  - eexists. split; [done|]. rewrite <-(Hof l). by apply Add_wf.
  - rewrite <-(Hof l). by apply Remove_wf.
  - eexists. split; [done|]. apply Clear_wf.
Qed.

Lemma sop_run_wf ops s :
  sampleable_wf s → ∃ s', foldl (λ s o, s ≫= sop_exec o) (Some s) ops = Some s' ∧ sampleable_wf s' ∧
    contents s' = foldl (λ X o, sop_ref o X) (contents s) ops.
Proof.
  revert s. induction ops as [|o ops IH]; intros s Hs; simpl; [by exists s|].
  destruct (sop_exec_wf o s Hs) as (s1 & -> & Hs1 & <-). by apply IH.
Qed.
End sampleable.

(** A sampleable set is a finite set.  After any sequence of changes nothing panicked,
    and the set holds what the same changes make of a finite set: [Contains], [Len],
    [List], [Overlaps] and [Equals] agree with it, and [Sample] returns that many
    different members, or all of them. *)
Theorem sampleable_set_refines {T : Type} `{Countable T} (zero : T) (ops : list sop) :
  let X : gset T := foldl (λ X o, sop_ref o X) ∅ ops in
  ∃ s, foldl (λ s o, s ≫= sop_exec zero o) (Some NewSampleableSet) ops = Some s ∧
    (∀ e, Sampleable_Contains e s = bool_decide (e ∈ X)) ∧ Sampleable_Len s = size X ∧
    NoDup (List_ s) ∧ list_to_set (List_ s) = X ∧
    (∀ l, let o := OfSampleable l in
       Sampleable_Overlaps o s = bool_decide (¬ (X ## list_to_set l)) ∧
       Sampleable_Equals o s = bool_decide (X = list_to_set l)) ∧
    ∀ num src r src', (Z.of_nat (size X) < 2 ^ 64)%Z → Forall (inU 64) src →
      Sampleable_Sample num s src = Some (r, src') →
      ∃ l, r = Some l ∧ NoDup l ∧ list_to_set l ⊆ X ∧ length l = Nat.min (size X) (Z.to_nat num).
Proof.
  intros X. destruct (New_wf (T := T)) as [Hn Hc].
  destruct (sop_run_wf zero ops _ Hn) as (s & Hrun & Hs & HX). rewrite Hc in HX. fold X in HX.
  exists s. rewrite <-HX. split; [done|]. split; [intros e; by apply Contains_spec|].
  rewrite contents_size by done. split; [done|]. split; [by apply elements_NoDup|].
  split; [symmetry; by apply contents_elements|]. split.
  - intros l o. destruct (Add_wf l _ Hn) as [Ho Hl]. rewrite Hc, (left_id_L ∅ (∪)) in Hl. rewrite <-Hl.
    split; [by apply Overlaps_spec|by apply Equals_spec].
  - intros num src r src' Hlt Hsrc. by apply Sample_members.
Qed.

(** A set is not empty after [s.Difference(s)]: removing an element moves the last one
    to an index that the loop has passed. *)
Lemma difference_self_keeps :
  elements_of <$> Difference_self 0%Z (OfSampleable [1; 2; 3]%Z) = Some [3%Z].
Proof. vm_compute. reflexivity. Qed.
