(* ===== verification/DrawLoop.v ===== *)
(** * Loops over random indices

    [peerSet.Sample] and [gossipableSubnet.getGossipableIPs] draw indices without
    replacement from a [uniformReplacer] (Sampler.v) until they have what they look for or
    run out of indices.  [draw_loop] is that loop over the state of its body; the lemmas
    say that it ends, and that it ran its body on distinct indices, on all of them unless
    its condition ended it. *)

From S2P Require Import Prelude Sampler.

(** ** A longer source *)

Lemma first_pick_app n src ex r src' :
  first_pick n src = Some (r, src') → first_pick n (src ++ ex) = Some (r, src' ++ ex).
Proof.
  induction src as [|v src IH]; [done|]. cbn. destruct (pick n v); [by intros [= <- <-]|done].
Qed.

Lemma Next_app u src ex r u' src' : Next u src = Some (r, u', src') → Next u (src ++ ex) = Some (r, u', src' ++ ex).
Proof.
  unfold Next. case_bool_decide; [by intros [= <- <- <-]|]. rewrite !Uint64Inclusive_pick.
  destruct (first_pick _ src) as [[x src1]|] eqn:E; [|done]. rewrite (first_pick_app _ _ ex _ _ E). cbn.
  by intros [= <- <- <-].
Qed.

Section loop.
Context {St : Type} (cont : St → bool) (body : Z → St → option St).

(** [for cont { index, hasNext := uniform.Next(); if !hasNext { break }; body }] *)
Fixpoint draw_loop (fuel : nat) (u : uniformReplacer) (src : list Z) (st : St) : option (St * list Z) :=
  match fuel with
  | O => None
  | S fuel =>
      if cont st then
        '(r, u, src) ← Next u src;
        match r with
        | None => Some (st, src)
        | Some i => st ← body i st; draw_loop fuel u src st
        end
      else Some (st, src)
  end.

(** Enough for every index and the last test. *)
Definition draw_fuel (u : uniformReplacer) : nat := S (Z.to_nat (un_length u)).

(** The body on the indices of a list, the condition holding before each. *)
Fixpoint run_order (order : list Z) (st : St) : option St :=
  match order with
  | [] => Some st
  | i :: order => if cont st then st ← body i st; run_order order st else None
  end.

Lemma draw_loop_sound fuel u src st st' src' :
  room u → Forall (inU 64) src → draw_loop fuel u src st = Some (st', src') →
  ∃ order rest, order ++ rest ≡ₚ remaining u ∧ run_order order st = Some st' ∧ (cont st' = false ∨ rest = []).
Proof.
  revert u src st. induction fuel as [|fuel IH]; intros u src st Hu Hsrc; [done|]. cbn [draw_loop].
  destruct (cont st) eqn:Hc; [|intros [= <- <-]; exists [], (remaining u); split_and!; auto].
  destruct (decide (drawsCount u < un_length u)%Z) as [Hlt|Hge].
  2: { unfold Next. rewrite bool_decide_eq_true_2 by lia. intros [= <- <-]. exists [], [].
       unfold remaining. rewrite seqZ_nil by lia. auto. }
  rewrite Next_step by done. destruct (first_pick _ src) as [[x src1]|] eqn:E; [|done]. cbn [mbind option_bind].
  pose proof Hu as [Hd _]. apply first_pick_range in E as [Hx Hsrc1]; [|destruct Hu; lia|done].
  destruct (remaining_step u x Hu ltac:(lia)) as [Hu' Hp].
  destruct (body (step u x).1 st) as [st1|] eqn:Hb; [|done]. cbn [mbind option_bind]. intros Hrun.
  destruct (IH _ _ _ Hu' Hsrc1 Hrun) as (order & rest & Hor & Hro & Hend).
  exists ((step u x).1 :: order), rest. split_and!; [by rewrite <-Hp, <-Hor| |done].
  cbn [run_order]. by rewrite Hc, Hb.
Qed.

(** The loop ends when its body does not panic and the source goes on. *)
Lemma draw_loop_total (P : St → Prop) fuel u src st :
  room u → Forall (inU 64) src → (Z.to_nat (un_length u - drawsCount u) < fuel)%nat → P st →
  (∀ i st, i ∈ remaining u → P st → cont st = true → ∃ st', body i st = Some st' ∧ P st') →
  is_Some (draw_loop fuel u (src ++ replicate fuel 0%Z) st).
Proof.
  revert u src st. induction fuel as [|fuel IH]; intros u src st Hu Hsrc Hf HP Hbody; [lia|]. cbn [draw_loop].
  destruct (cont st) eqn:Hc; [|done]. assert (Forall (inU 64) (src ++ replicate (S fuel) 0%Z)) as Hall.
  { apply Forall_app. split; [done|]. by apply Forall_replicate. }
  destruct (decide (drawsCount u < un_length u)%Z) as [Hlt|Hge].
  2: { unfold Next. by rewrite bool_decide_eq_true_2 by lia. }
  rewrite Next_step by done.
  destruct (first_pick_zeros (un_length u - 1 - drawsCount u) src fuel) as (x & src1 & E); [lia|].
  rewrite E. cbn [mbind option_bind]. apply first_pick_range in E as [Hx Hsrc1]; [|destruct Hu; lia|done].
  destruct (remaining_step u x Hu ltac:(lia)) as [Hu' Hp].
  destruct (Hbody (step u x).1 st) as (st1 & -> & HP1); [rewrite <-Hp; by left|done..|]. cbn [mbind option_bind].
  apply Forall_app in Hsrc1 as [Hsrc1 _]. apply IH; [done|done|cbn; lia|done|].
  intros i st2 Hi. apply Hbody. rewrite <-Hp. by right.
Qed.

(** What is left of the source is that of the shorter source, and what follows it. *)
Lemma draw_loop_app fuel u src ex st st' src' :
  draw_loop fuel u src st = Some (st', src') → draw_loop fuel u (src ++ ex) st = Some (st', src' ++ ex).
Proof.
  revert u src st. induction fuel as [|fuel IH]; intros u src st; [done|]. cbn [draw_loop].
  destruct (cont st); [|by intros [= <- <-]]. destruct (Next u src) as [[[r u'] src1]|] eqn:E; [|done].
  rewrite (Next_app _ _ ex _ _ _ E). cbn [mbind option_bind]. destruct r as [j|]; [|by intros [= <- <-]].
  destruct (body j st); [|done]. cbn. apply IH.
Qed.

Lemma draw_loop_src fuel u src st st' src' :
  room u → Forall (inU 64) src → draw_loop fuel u src st = Some (st', src') → Forall (inU 64) src'.
Proof.
  revert u src st. induction fuel as [|fuel IH]; intros u src st Hu Hsrc; [done|]. cbn [draw_loop].
  destruct (cont st); [|by intros [= <- <-]]. destruct (decide (drawsCount u < un_length u)%Z) as [Hlt|Hge].
  2: { unfold Next. rewrite bool_decide_eq_true_2 by lia. by intros [= <- <-]. }
  rewrite Next_step by done. destruct (first_pick _ src) as [[x src1]|] eqn:E; [|done]. cbn [mbind option_bind].
  pose proof Hu as [Hd _]. apply first_pick_range in E as [Hx Hsrc1]; [|destruct Hu; lia|done].
  destruct (remaining_step u x Hu ltac:(lia)) as [Hu' _]. destruct (body _ st); [|done]. cbn. by apply IH.
Qed.
End loop.

Lemma room_Initialize n : (0 ≤ n < 2 ^ 64)%Z → room (Initialize n).
Proof. intros Hn. split; cbn; lia. Qed.
