(* ===== verification/IndexedList.v ===== *)
(** * Slices with an index

    Several structures of the code keep their items in a slice and, in a map, the place of
    each item by its key, and remove an item by moving the last one into its place
    (peer sets, the gossipable IPs of a subnet).  [indexed] is the invariant of such a
    pair; the lemmas say what appending, replacing and removing do to it and to
    [ix_get], the map from keys to items that the pair stands for. *)

From S2P Require Import Prelude.

Section indexed.
Context {K V : Type} `{Countable K} (key : V → K).
Implicit Types (idx : gmap K nat) (l : list V).

Definition indexed idx l : Prop := ∀ k i, idx !! k = Some i ↔ ∃ v, l !! i = Some v ∧ key v = k.

Definition ix_get idx l (k : K) : option V := idx !! k ≫= (l !!.).

Lemma indexed_lookup idx l k i : indexed idx l → idx !! k = Some i → ∃ v, l !! i = Some v ∧ key v = k.
Proof. intros Hx Hk. by apply Hx. Qed.

Lemma indexed_item idx l i v : indexed idx l → l !! i = Some v → idx !! key v = Some i.
Proof. intros Hx Hv. apply Hx. eauto. Qed.

Lemma indexed_get idx l k v : indexed idx l → ix_get idx l k = Some v ↔ v ∈ l ∧ key v = k.
Proof.
  intros Hx. unfold ix_get. rewrite bind_Some. split.
  - intros (i & Hk & Hv). split; [by eapply list_elem_of_lookup_2|].
    apply Hx in Hk as (v' & Hv' & <-). congruence.
  - intros [[i Hi]%list_elem_of_lookup <-]. exists i. split; [by eapply indexed_item|done].
Qed.

Lemma indexed_None idx l k : indexed idx l → ix_get idx l k = None ↔ idx !! k = None.
Proof.
  intros Hx. unfold ix_get. destruct (idx !! k) as [i|] eqn:E; [|done].
  destruct (indexed_lookup _ _ _ _ Hx E) as (v & Hv & _). cbn. by rewrite Hv.
Qed.

Lemma indexed_NoDup idx l : indexed idx l → NoDup (key <$> l).
Proof.
  intros Hx. apply NoDup_alt. intros i j k Hi Hj.
  apply list_lookup_fmap_Some in Hi as (v & -> & Hi). apply list_lookup_fmap_Some in Hj as (v' & E & Hj).
  pose proof (indexed_item _ _ _ _ Hx Hi). pose proof (indexed_item _ _ _ _ Hx Hj). congruence.
Qed.

Lemma indexed_empty : indexed ∅ [].
Proof. intros k i. rewrite lookup_empty. naive_solver. Qed.

(** The pair after [idx[key v] = len(l); l = append(l, v)]. *)
Lemma indexed_snoc idx l v : indexed idx l → idx !! key v = None → indexed (<[key v := length l]> idx) (l ++ [v]).
Proof.
  intros Hx Hn k i. rewrite lookup_insert_Some, (Hx k i). split.
  - intros [[<- <-]|[Hne (v' & Hv & Hk)]].
    + exists v. by rewrite list_lookup_middle.
    + exists v'. split; [by apply lookup_app_l_Some|done].
  - intros (v' & [Hv|[Hi Hv]]%lookup_app_Some & Hk).
    + right. split; [|eauto]. intros E. pose proof (indexed_item _ _ _ _ Hx Hv). congruence.
    + left. destruct (i - length l) eqn:E; simplify_eq/=. split; [done|lia].
Qed.

Lemma get_snoc idx l v k : indexed idx l → idx !! key v = None →
  ix_get (<[key v := length l]> idx) (l ++ [v]) k = if bool_decide (key v = k) then Some v else ix_get idx l k.
Proof.
  intros Hx Hn. unfold ix_get. case_bool_decide as E.
  - subst. rewrite lookup_insert_eq. cbn. by rewrite list_lookup_middle.
  - rewrite lookup_insert_ne by done. destruct (idx !! k) as [i|] eqn:Hi; [|done]. cbn.
    destruct (indexed_lookup _ _ _ _ Hx Hi) as (v' & Hv & _). apply lookup_app_l. by eapply lookup_lt_Some.
Qed.

(** The pair after [l[i] = v], where [i] is the place of [key v]. *)
Lemma indexed_set idx l i v : indexed idx l → idx !! key v = Some i → indexed idx (<[i := v]> l).
Proof.
  intros Hx Hi k j. rewrite (Hx k j). destruct (indexed_lookup _ _ _ _ Hx Hi) as (v0 & Hv0 & Hk0). split.
  - intros (v' & Hv & Hk). destruct (decide (i = j)) as [<-|Hne].
    + exists v. rewrite list_lookup_insert_eq by (by eapply lookup_lt_Some). split; [done|congruence].
    + exists v'. by rewrite list_lookup_insert_ne.
  - intros (v' & [(<- & <- & _)|[_ Hv]]%list_lookup_insert_Some & Hk); [exists v0|exists v']; split; congruence.
Qed.

Lemma get_set idx l i v k : indexed idx l → idx !! key v = Some i →
  ix_get idx (<[i := v]> l) k = if bool_decide (key v = k) then Some v else ix_get idx l k.
Proof.
  intros Hx Hi. destruct (indexed_lookup _ _ _ _ Hx Hi) as (v0 & Hv0 & _). unfold ix_get.
  case_bool_decide as E.
  - subst. rewrite Hi. cbn. apply list_lookup_insert_eq. by eapply lookup_lt_Some.
  - destruct (idx !! k) as [j|] eqn:Hj; [|done]. cbn. apply list_lookup_insert_ne. intros <-.
    destruct (indexed_lookup _ _ _ _ Hx Hj) as (v' & Hv' & Hk').
    destruct (indexed_lookup _ _ _ _ Hx Hi) as (v'' & Hv'' & Hk''). congruence.
Qed.

(** The pair after the last item took the place of the item with key [k]. *)
Lemma indexed_remove idx l k i z :
  indexed idx l → idx !! k = Some i → l !! (length l - 1) = Some z →
  indexed (delete k (<[key z := i]> idx)) (take (length l - 1) (<[i := z]> l)).
Proof.
  intros Hx Hi Hz k' j. destruct (indexed_lookup _ _ _ _ Hx Hi) as (v & Hv & Hk).
  assert (Hl : i < length l) by by eapply lookup_lt_Some. pose proof (indexed_item _ _ _ _ Hx Hz) as Hlast.
  rewrite lookup_delete_Some, lookup_insert_Some, (Hx k' j).
  setoid_rewrite lookup_take_Some. setoid_rewrite list_lookup_insert_Some. split.
  - intros [Hne [[<- <-]|[Hnz (v' & Hv' & Hk')]]].
    + exists z. split; [|done]. split; [by left|]. assert (i ≠ length l - 1); [|lia]. intros ->. congruence.
    + exists v'. split; [|done]. assert (j < length l) by by eapply lookup_lt_Some.
      split; [|assert (j ≠ length l - 1); [intros ->; congruence|lia]].
      right. split; [|done]. intros ->. congruence.
  - intros (v' & [[(<- & <- & _)|[Hij Hv']] Hlt] & Hk').
    + split; [|by left]. intros ->. rewrite Hk' in Hlast. assert (i = length l - 1) by congruence. lia.
    + pose proof (indexed_item _ _ _ _ Hx Hv') as Hj. rewrite Hk' in Hj. split; [congruence|].
      right. split; [|eauto]. intros <-. assert (j = length l - 1) by congruence. lia.
Qed.

Lemma get_remove idx l k i z k' :
  indexed idx l → idx !! k = Some i → l !! (length l - 1) = Some z →
  ix_get (delete k (<[key z := i]> idx)) (take (length l - 1) (<[i := z]> l)) k' =
  if bool_decide (k' = k) then None else ix_get idx l k'.
Proof.
  intros Hx Hi Hz. pose proof (indexed_remove _ _ _ _ _ Hx Hi Hz) as Hx'.
  destruct (indexed_lookup _ _ _ _ Hx Hi) as (v & Hv & Hk).
  assert (Hl : i < length l) by by eapply lookup_lt_Some.
  case_bool_decide as E; [subst k'; apply (indexed_None _ _ _ Hx'), lookup_delete_eq|].
  apply option_eq. intros u. rewrite (indexed_get _ _ _ _ Hx'), (indexed_get _ _ _ _ Hx).
  split; intros [Hu Hku]; split; try done.
  - apply elem_of_take in Hu as (j & [(_ & <- & _)|[_ Hj]]%list_lookup_insert_Some & _);
      by eapply list_elem_of_lookup_2.
  - apply list_elem_of_lookup in Hu as [j Hj]. assert (j < length l) by by eapply lookup_lt_Some.
    assert (j ≠ i) by (intros ->; congruence).
    destruct (decide (j = length l - 1)) as [->|Hne].
    + apply elem_of_take. exists i. split; [|lia]. apply list_lookup_insert_Some. left. naive_solver.
    + apply elem_of_take. exists j. split; [|lia]. by rewrite list_lookup_insert_ne.
Qed.
End indexed.
