(* ===== verification/Heap.v ===== *)
(** * Heaps (src/utils/avalanche/heap/queue.go and map.go)

    [Map]: a binary heap in a slice with an index from keys to positions.  The operations
    of the standard library's container/heap it is built on are written out.  [None] is a panic.  The loops are given a fuel that the length of the
    slice bounds. *)

From S2P Require Import Prelude IndexedList.

(** ** container/heap, over the slice and the index of a [Map] *)

Definition parent (j : nat) : nat := (j - 1) / 2.

Section heap.
Context `{!EqDecision K, !Countable K} {V : Type} (less : V → V → bool).

Abbreviation entry := (K * V)%type.

(** [indexedQueue] *)
Record hstate := mkHeap { entries : list entry; hindex : gmap K nat }.

Definition h_Less (i j : nat) (h : hstate) : option bool :=
  x ← entries h !! i; y ← entries h !! j; Some (less x.2 y.2).

Definition h_Swap (i j : nat) (h : hstate) : option hstate :=
  x ← entries h !! i; y ← entries h !! j;
  let l := <[j := x]> (<[i := y]> (entries h)) in
  x ← l !! i; y ← l !! j;
  Some (mkHeap l (<[y.1 := j]> (<[x.1 := i]> (hindex h)))).

Definition h_Push (e : entry) (h : hstate) : hstate :=
  mkHeap (entries h ++ [e]) (<[e.1 := size (hindex h)]> (hindex h)).

Definition h_Pop (h : hstate) : option (entry * hstate) :=
  popped ← last (entries h);
  Some (popped, mkHeap (take (length (entries h) - 1) (entries h)) (delete popped.1 (hindex h))).

(** [up]: [(j-1)/2] is 0 for 0. *)
Fixpoint up (fuel : nat) (j : nat) (h : hstate) : option hstate :=
  match fuel with
  | O => None
  | S fuel =>
      let i := parent j in
      if bool_decide (i = j) then Some h
      else
        lt ← h_Less j i h;
        if lt : bool then h ← h_Swap i j h; up fuel i h else Some h
  end.

(** [down], with whether the element moved. *)
Fixpoint down_loop (fuel : nat) (i n : nat) (h : hstate) : option (nat * hstate) :=
  match fuel with
  | O => None
  | S fuel =>
      let j1 := 2 * i + 1 in
      if bool_decide (n ≤ j1) then Some (i, h)
      else
        let j2 := j1 + 1 in
        right ← (if bool_decide (j2 < n) then h_Less j2 j1 h else Some false);
        let j := if right : bool then j2 else j1 in
        lt ← h_Less j i h;
        if lt : bool then h ← h_Swap i j h; down_loop fuel j n h else Some (i, h)
  end.
Definition down (i0 n : nat) (h : hstate) : option (bool * hstate) :=
  '(i, h) ← down_loop (S n) i0 n h; Some (bool_decide (i0 < i), h).

Definition heap_Push (e : entry) (h : hstate) : option hstate :=
  let h := h_Push e h in up (length (entries h)) (length (entries h) - 1) h.

Definition heap_Pop (h : hstate) : option (entry * hstate) :=
  let n := length (entries h) - 1 in
  h ← h_Swap 0 n h;
  '(_, h) ← down 0 n h;
  h_Pop h.

Definition heap_Fix (i : nat) (h : hstate) : option hstate :=
  '(moved, h) ← down i (length (entries h)) h;
  if moved : bool then Some h else up (S i) i h.

Definition heap_Remove (i : nat) (h : hstate) : option (entry * hstate) :=
  let n := length (entries h) - 1 in
  h ← (if bool_decide (n ≠ i) then
         h ← h_Swap i n h;
         '(moved, h) ← down i n h;
         if moved : bool then Some h else up (S i) i h
       else Some h);
  h_Pop h.

(** ** map.go *)

Definition NewMap : hstate := mkHeap [] ∅.

Definition Map_Len (h : hstate) : nat := length (entries h).

(** The previous value, if any. *)
Definition Map_Push (k : K) (v : V) (h : hstate) : option (option V * hstate) :=
  match hindex h !! k with
  | Some i =>
      prev ← entries h !! i;
      h ← heap_Fix i (mkHeap (<[i := (prev.1, v)]> (entries h)) (hindex h));
      Some (Some prev.2, h)
  | None => h ← heap_Push (k, v) h; Some (None, h)
  end.

Definition Map_Pop (h : hstate) : option (option entry * hstate) :=
  if bool_decide (Map_Len h = 0) then Some (None, h)
  else '(e, h) ← heap_Pop h; Some (Some e, h).

Definition Map_Peek (h : hstate) : option (option entry) :=
  if bool_decide (Map_Len h = 0) then Some None else e ← entries h !! 0; Some (Some e).

Definition Map_Remove (k : K) (h : hstate) : option (option V * hstate) :=
  match hindex h !! k with
  | Some i => '(e, h) ← heap_Remove i h; Some (Some e.2, h)
  | None => Some (None, h)
  end.

Definition Map_Contains (k : K) (h : hstate) : bool := bool_decide (is_Some (hindex h !! k)).

Definition Map_Get (k : K) (h : hstate) : option (option V) :=
  match hindex h !! k with Some i => e ← entries h !! i; Some (Some e.2) | None => Some None end.

Definition Map_Fix (k : K) (h : hstate) : option hstate :=
  match hindex h !! k with Some i => heap_Fix i h | None => Some h end.

Definition MapValues (h : hstate) : list V := snd <$> entries h.

(** ** Positions *)

Lemma parent_lt j : 0 < j → parent j < j.
Proof. intros H. unfold parent. apply Nat.Div0.div_lt_upper_bound. lia. Qed.

Lemma parent_children j i : 0 < j → parent j = i ↔ j = 2 * i + 1 ∨ j = 2 * i + 2.
Proof.
  intros H. unfold parent. pose proof (Nat.div_mod_eq (j - 1) 2) as E. pose proof (Nat.mod_upper_bound (j - 1) 2 ltac:(lia)). lia.
Qed.

(** ** The order of the heap *)

Hypothesis less_asym : ∀ x y, less x y = true → less y x = false.
Hypothesis less_trans : ∀ x y z, less y x = false → less z y = false → less z x = false.

Definition le (x y : entry) : Prop := less y.2 x.2 = false.

(** The element at [k] is not less than the one above it. *)
Definition edge (l : list entry) (k : nat) : Prop := ∀ x y, l !! parent k = Some x → l !! k = Some y → le x y.
Definition heap_upto (n : nat) (l : list entry) : Prop := ∀ k, 0 < k < n → edge l k.
(** The children of [i] are not less than what is above [i]. *)
Definition grand (n : nat) (l : list entry) (i : nat) : Prop :=
  ∀ c x y, 0 < i → 0 < c < n → parent c = i → l !! parent i = Some x → l !! c = Some y → le x y.

Lemma le_trans x y z : le x y → le y z → le x z.
Proof. intros H1 H2. unfold le in *. by eapply less_trans. Qed.

Lemma heap_root n l x k y : heap_upto n l → k < n → n ≤ length l → l !! 0 = Some x → l !! k = Some y → k = 0 ∨ le x y.
Proof.
  intros Hh Hk Hn Hx. revert y Hk. induction (lt_wf k) as [k _ IH]. intros y Hk Hy. destruct (decide (k = 0)) as [|Hne]; [by left|right].
  pose proof (parent_lt k ltac:(lia)) as Hp. destruct (lookup_lt_is_Some_2 l (parent k)) as [p Hpk]; [lia|].
  pose proof (Hh k ltac:(lia) p y Hpk Hy) as Hpy. destruct (IH _ Hp p ltac:(lia) Hpk) as [E|]; [|by eapply le_trans].
  rewrite E in Hpk. congruence.
Qed.

(** ** The index *)

Definition h_ok (h : hstate) : Prop := indexed fst (hindex h) (entries h).

Definition swapped (i j : nat) (x y : entry) (l : list entry) : list entry := <[j := x]> (<[i := y]> l).

Lemma swapped_lookup i j x y l k : i < length l → j < length l → l !! i = Some x → l !! j = Some y →
  swapped i j x y l !! k = if decide (k = j) then Some x else if decide (k = i) then Some y else l !! k.
Proof.
  intros Hi Hj Hx Hy. unfold swapped. destruct (decide (k = j)) as [->|]; [by rewrite list_lookup_insert_eq by (by rewrite length_insert)|].
  rewrite list_lookup_insert_ne by done. destruct (decide (k = i)) as [->|]; [by rewrite list_lookup_insert_eq|by rewrite list_lookup_insert_ne].
Qed.

Lemma list_set_perm (l : list entry) i x y : l !! i = Some x → x :: <[i := y]> l ≡ₚ y :: l.
Proof.
  intros Hx. rewrite insert_take_drop by (by eapply lookup_lt_Some). rewrite <-(take_drop_middle l i x Hx) at 3. solve_Permutation.
Qed.

Lemma swapped_perm i j x y l : l !! i = Some x → l !! j = Some y → swapped i j x y l ≡ₚ l.
Proof.
  intros Hx Hy. unfold swapped. destruct (decide (i = j)) as [->|Hne].
  { assert (x = y) as -> by congruence. by rewrite list_insert_insert_eq, list_insert_id. }
  assert (<[i := y]> l !! j = Some y) as Hy' by by rewrite list_lookup_insert_ne.
  pose proof (lookup_lt_Some _ _ _ Hx) as Hi.
  apply (Permutation_cons_inv (a := y)). rewrite (list_set_perm _ j y x Hy'). by apply list_set_perm.
Qed.

Lemma h_Swap_spec i j h x y : h_ok h → entries h !! i = Some x → entries h !! j = Some y →
  ∃ h', h_Swap i j h = Some h' ∧ h_ok h' ∧ entries h' = swapped i j x y (entries h).
Proof.
  intros Hok Hx Hy. pose proof (lookup_lt_Some _ _ _ Hx) as Hi. pose proof (lookup_lt_Some _ _ _ Hy) as Hj.
  unfold h_Swap. rewrite Hx, Hy. cbn [mbind option_bind]. fold (swapped i j x y (entries h)).
  pose proof (swapped_lookup i j x y (entries h)) as Hl.
  rewrite !Hl by done. rewrite (decide_True (P := j = j)) by done.
  assert ((if decide (i = j) then Some x else if decide (i = i) then Some y else entries h !! i) = Some y) as ->.
  { destruct (decide (i = j)); [congruence|]. by rewrite decide_True. }
  cbn [mbind option_bind]. eexists. split; [done|]. split; [|done]. intros k p. cbn.
  destruct (decide (k = x.1)) as [->|Hkx].
  { rewrite lookup_insert_eq. split.
    - intros [= <-]. exists x. rewrite Hl by done. by rewrite decide_True.
    - intros (v & Hv & Ek). rewrite Hl in Hv by done. destruct (decide (p = j)) as [->|]; [done|exfalso].
      destruct (decide (p = i)) as [->|].
      + assert (y = v) as -> by congruence. pose proof (indexed_item _ _ _ _ _ Hok Hx). pose proof (indexed_item _ _ _ _ _ Hok Hy). congruence.
      + pose proof (indexed_item _ _ _ _ _ Hok Hx). pose proof (indexed_item _ _ _ _ _ Hok Hv). congruence. }
  rewrite lookup_insert_ne by done. destruct (decide (k = y.1)) as [->|Hky].
  { rewrite lookup_insert_eq. split.
    - intros [= <-]. exists y. rewrite Hl by done. destruct (decide (i = j)); [|by rewrite decide_True]. split; [congruence|done].
    - intros (v & Hv & Ek). rewrite Hl in Hv by done. destruct (decide (p = j)) as [->|]; [congruence|].
      destruct (decide (p = i)) as [->|]; [done|exfalso].
      pose proof (indexed_item _ _ _ _ _ Hok Hy). pose proof (indexed_item _ _ _ _ _ Hok Hv). congruence. }
  rewrite lookup_insert_ne by done. rewrite (Hok k p). split; intros (v & Hv & Ek); exists v; (split; [|done]).
  - rewrite Hl by done. destruct (decide (p = j)) as [->|]; [congruence|]. destruct (decide (p = i)) as [->|]; congruence.
  - rewrite Hl in Hv by done. destruct (decide (p = j)); [congruence|]. destruct (decide (p = i)); congruence.
Qed.

(** [h'] has the entries of [h], those from position [n] on where they were. *)
Record rearranged (n : nat) (h h' : hstate) : Prop := {
  re_ok : h_ok h';
  re_perm : entries h' ≡ₚ entries h;
  re_tail : ∀ p, n ≤ p → entries h' !! p = entries h !! p;
}.

Lemma rearranged_refl n h : h_ok h → rearranged n h h.
Proof. by split. Qed.

Lemma rearranged_trans n h1 h2 h3 : rearranged n h1 h2 → rearranged n h2 h3 → rearranged n h1 h3.
Proof.
  intros [_ P1 T1] [O2 P2 T2]. split; [done|by rewrite P2|]. intros p Hp. by rewrite T2, T1.
Qed.

Lemma rearranged_length n h h' : rearranged n h h' → length (entries h') = length (entries h).
Proof. intros [_ P _]. by apply Permutation_length. Qed.

Lemma h_Swap_rearranged n i j h x y : h_ok h → entries h !! i = Some x → entries h !! j = Some y → i < n → j < n →
  ∃ h', h_Swap i j h = Some h' ∧ rearranged n h h' ∧
    ∀ k, entries h' !! k = if decide (k = j) then Some x else if decide (k = i) then Some y else entries h !! k.
Proof.
  intros Hok Hx Hy Hi Hj. destruct (h_Swap_spec i j h x y Hok Hx Hy) as (h' & E & Hok' & El). exists h'.
  pose proof (lookup_lt_Some _ _ _ Hx). pose proof (lookup_lt_Some _ _ _ Hy).
  assert (∀ k, entries h' !! k = if decide (k = j) then Some x else if decide (k = i) then Some y else entries h !! k) as Hl.
  { intros k. rewrite El. by apply swapped_lookup. }
  split_and!; [done| |done]. split; [done|rewrite El; by apply swapped_perm|].
  intros p Hp. rewrite Hl. by rewrite !decide_False by lia.
Qed.

Lemma h_Less_Some i j h x y : entries h !! i = Some x → entries h !! j = Some y → h_Less i j h = Some (less x.2 y.2).
Proof. intros Hx Hy. unfold h_Less. by rewrite Hx, Hy. Qed.

Lemma up_spec fuel j n h : j < fuel → j < n → n ≤ length (entries h) → h_ok h →
  (∀ k, 0 < k < n → k ≠ j → edge (entries h) k) → grand n (entries h) j →
  ∃ h', up fuel j h = Some h' ∧ rearranged n h h' ∧ heap_upto n (entries h').
Proof.
  revert j h. induction fuel as [|fuel IH]; intros j h Hf Hj Hn Hok Hedge Hgrand; [lia|]. cbn [up].
  case_bool_decide as E0.
  { exists h. split_and!; [done|by apply rearranged_refl|]. intros k Hk. destruct (decide (k = j)) as [->|]; [|by apply Hedge].
    pose proof (parent_lt j ltac:(lia)). lia. }
  assert (0 < j) as Hj0 by (destruct j; [done|lia]). pose proof (parent_lt j Hj0) as Hp.
  destruct (lookup_lt_is_Some_2 (entries h) j) as [x Hx]; [lia|]. destruct (lookup_lt_is_Some_2 (entries h) (parent j)) as [y Hy]; [lia|].
  rewrite (h_Less_Some _ _ _ _ _ Hx Hy). cbn [mbind option_bind]. destruct (less x.2 y.2) eqn:El.
  2: { exists h. split_and!; [done|by apply rearranged_refl|]. intros k Hk. destruct (decide (k = j)) as [->|]; [|by apply Hedge].
       intros y' x' Hy' Hx'. unfold le. congruence. }
  destruct (h_Swap_rearranged n _ _ h y x Hok Hy Hx) as (h1 & -> & Hr & Hl); [lia|lia|]. cbn [mbind option_bind].
  assert (le x y) as Hxy by by apply less_asym.
  destruct (IH (parent j) h1) as (h' & -> & Hr' & Hh'); [lia|lia|by rewrite (rearranged_length _ _ _ Hr)|by apply Hr| | |].
  - intros k Hk Hne a b Ha Hb. rewrite Hl in Ha, Hb. destruct (decide (k = j)) as [->|Hkj].
    { rewrite decide_False, decide_True in Ha by lia. congruence. }
    rewrite decide_False in Hb by done. destruct (decide (parent k = j)) as [Ekj|].
    { injection Ha as <-. by eapply (Hgrand k). }
    destruct (decide (parent k = parent j)) as [Ekp|].
    { injection Ha as <-. eapply le_trans; [exact Hxy|]. eapply (Hedge k); [done|done|by rewrite Ekp|done]. }
    by eapply (Hedge k).
  - intros c a b Hi Hc Epc Ha Hb. rewrite Hl in Ha, Hb. pose proof (parent_lt (parent j) Hi).
    rewrite !decide_False in Ha by lia. destruct (decide (c = j)) as [->|].
    { injection Hb as <-. eapply (Hedge (parent j)); [lia|lia|done|done]. }
    rewrite decide_False in Hb by (pose proof (parent_lt c ltac:(lia)); lia). eapply le_trans.
    + eapply (Hedge (parent j)); [lia|lia|done|exact Hy].
    + eapply (Hedge c); [done|done|by rewrite Epc|done].
  - exists h'. split_and!; [done|by eapply rearranged_trans|done].
Qed.

(** The child [down] goes to: one that is not greater than the other. *)
Lemma down_child i n h x : 2 * i + 1 < n → n ≤ length (entries h) → entries h !! i = Some x →
  ∃ j y, (if bool_decide (2 * i + 1 + 1 < n) then h_Less (2 * i + 1 + 1) (2 * i + 1) h else Some false) = Some (bool_decide (j = 2 * i + 2)) ∧
    j = (if bool_decide (j = 2 * i + 2) then 2 * i + 1 + 1 else 2 * i + 1) ∧ j < n ∧ 0 < j ∧ parent j = i ∧ entries h !! j = Some y ∧
    ∀ c z, 0 < c < n → parent c = i → c ≠ j → entries h !! c = Some z → le y z.
Proof.
  intros Hn Hlen Hx. destruct (lookup_lt_is_Some_2 (entries h) (2 * i + 1)) as [y1 Hy1]; [lia|].
  assert (∀ c, 0 < c → parent c = i ↔ c = 2 * i + 1 ∨ c = 2 * i + 2) as Hpar by (intros c Hc; by apply parent_children).
  case_bool_decide as H2.
  - destruct (lookup_lt_is_Some_2 (entries h) (2 * i + 1 + 1)) as [y2 Hy2]; [lia|]. rewrite (h_Less_Some _ _ _ _ _ Hy2 Hy1).
    destruct (less y2.2 y1.2) eqn:El.
    + exists (2 * i + 2), y2. rewrite bool_decide_eq_true_2 by done. replace (2 * i + 1 + 1) with (2 * i + 2) in * by lia.
      split_and!; try done; [lia|by apply Hpar; lia|]. intros c z Hc Ec Hne Hz. apply Hpar in Ec as [->|]; [|lia|lia].
      assert (z = y1) as -> by congruence. by apply less_asym.
    + exists (2 * i + 1), y1. rewrite bool_decide_eq_false_2 by lia. split_and!; try done; [lia|apply Hpar; lia|].
      intros c z Hc Ec Hne Hz. apply Hpar in Ec as [|Ec]; [lia| |lia]. replace (2 * i + 1 + 1) with c in * by lia.
      assert (z = y2) as -> by congruence. done.
  - exists (2 * i + 1), y1. rewrite bool_decide_eq_false_2 by lia. split_and!; try done; [lia|apply Hpar; lia|].
    intros c z Hc Ec Hne Hz. apply Hpar in Ec; lia.
Qed.

Lemma down_loop_spec fuel i n h : n < fuel + i → i ≤ n → n ≤ length (entries h) → h_ok h →
  (∀ k, 0 < k < n → k ≠ i → parent k ≠ i → edge (entries h) k) → grand n (entries h) i →
  ∃ i' h', down_loop fuel i n h = Some (i', h') ∧ rearranged n h h' ∧
    ((i' = i ∧ h' = h ∧ ∀ k, 0 < k < n → k ≠ i → edge (entries h) k) ∨ (i < i' ∧ heap_upto n (entries h'))).
Proof.
  revert i h. induction fuel as [|fuel IH]; intros i h Hf Hin Hn Hok Hedge Hgrand; [lia|cbn [down_loop]].
  case_bool_decide as Hj1.
  { exists i, h. split_and!; [done|by apply rearranged_refl|left]. split_and!; try done. intros k Hk Hne.
    apply Hedge; [done|done|]. rewrite parent_children by lia. lia. }
  destruct (lookup_lt_is_Some_2 (entries h) i) as [x Hx]; [lia|].
  destruct (down_child i n h x ltac:(lia) Hn Hx) as (j & y & -> & Ej & Hjn & Hj0 & Epj & Hy & Hmin). cbn [mbind option_bind].
  rewrite <-Ej. rewrite (h_Less_Some _ _ _ _ _ Hy Hx). cbn [mbind option_bind].
  assert (i < j) as Hij by (rewrite <-Epj; by apply parent_lt). destruct (less y.2 x.2) eqn:El.
  2: { exists i, h. split_and!; [done|by apply rearranged_refl|left]. split_and!; try done. intros k Hk Hne a b Ha Hb.
       destruct (decide (parent k = i)) as [Ek|]; [|by eapply (Hedge k)]. rewrite Ek in Ha. assert (a = x) as -> by congruence.
       destruct (decide (k = j)) as [->|]; [unfold le; congruence|]. eapply le_trans; [exact El|by eapply Hmin]. }
  assert (le y x) as Hyx by by apply less_asym.
  destruct (h_Swap_rearranged n i j h x y Hok Hx Hy) as (h1 & -> & Hr & Hl); [lia|lia|]. cbn [mbind option_bind].
  destruct (IH j h1) as (i' & h' & -> & Hr' & Hres); [lia|lia|by rewrite (rearranged_length _ _ _ Hr)|by apply Hr| | |].
  - intros k Hk Hkj Hpk a b Ha Hb. rewrite Hl in Ha, Hb. rewrite decide_False in Ha by done. rewrite decide_False in Hb by done.
    destruct (decide (k = i)) as [->|Hki].
    { injection Hb as <-. rewrite decide_False in Ha by (pose proof (parent_lt i ltac:(lia)); lia). by eapply (Hgrand j); [lia|lia|..]. }
    destruct (decide (parent k = i)) as [Epk|]; [|by eapply (Hedge k)]. injection Ha as <-. by eapply Hmin.
  - intros c a b _ Hc Epc Ha Hb. rewrite Hl in Ha, Hb. pose proof (parent_lt c ltac:(lia)).
    rewrite Epj, decide_False, decide_True in Ha by lia. rewrite !decide_False in Hb by lia. injection Ha as <-.
    eapply (Hedge c); [done|lia|lia|by rewrite Epc|done].
  - exists i', h'. split_and!; [done|by eapply rearranged_trans|right]. destruct Hres as [(-> & -> & Hall)|[Hlt Hheap]]; [|split; [lia|done]].
    split; [done|]. intros k Hk. destruct (decide (k = j)) as [->|]; [|by apply Hall].
    intros a b Ha Hb. rewrite Hl in Ha, Hb. rewrite decide_True in Hb by done. rewrite Epj, decide_False, decide_True in Ha by lia. congruence.
Qed.

Lemma down_spec i n h : i ≤ n → n ≤ length (entries h) → h_ok h →
  (∀ k, 0 < k < n → k ≠ i → parent k ≠ i → edge (entries h) k) → grand n (entries h) i →
  ∃ moved h', down i n h = Some (moved, h') ∧ rearranged n h h' ∧
    if moved : bool then heap_upto n (entries h') else h' = h ∧ ∀ k, 0 < k < n → k ≠ i → edge (entries h) k.
Proof.
  intros Hin Hn Hok Hedge Hgrand. unfold down.
  destruct (down_loop_spec (S n) i n h) as (i' & h' & -> & Hr & Hres); [lia|done..|]. cbn [mbind option_bind].
  eexists _, h'. split_and!; [done|done|]. destruct Hres as [(-> & -> & Hall)|[Hlt Hheap]]; [by rewrite bool_decide_eq_false_2 by lia|].
  by rewrite bool_decide_eq_true_2.
Qed.

(** Sifting an element that was put at [i], up or down. *)
Definition sift (i n : nat) (h : hstate) : option hstate :=
  '(moved, h) ← down i n h; if moved : bool then Some h else up (S i) i h.

(** [l'] is a heap but for the element at [i]. *)
Lemma holed n l l' i : heap_upto n l → n ≤ length l → (∀ p, p < n → p ≠ i → l' !! p = l !! p) →
  (∀ k, 0 < k < n → k ≠ i → parent k ≠ i → edge l' k) ∧ grand n l' i.
Proof.
  intros Hh Hn Hl. split.
  - intros k Hk Hki Hpk a b Ha Hb. pose proof (parent_lt k ltac:(lia)). rewrite Hl in Ha, Hb by lia. by eapply (Hh k).
  - intros c a b Hi Hc Epc Ha Hb. pose proof (parent_lt c ltac:(lia)). pose proof (parent_lt i Hi).
    rewrite Hl in Ha, Hb by lia. destruct (lookup_lt_is_Some_2 l i) as [m Hm]; [lia|].
    eapply le_trans; [eapply (Hh i); [lia|done|exact Hm]|]. eapply (Hh c); [done|by rewrite Epc|done].
Qed.

Lemma sift_spec i n h l : i < n → n ≤ length (entries h) → h_ok h → heap_upto n l → n ≤ length l →
  (∀ p, p < n → p ≠ i → entries h !! p = l !! p) →
  ∃ h', sift i n h = Some h' ∧ rearranged n h h' ∧ heap_upto n (entries h').
Proof.
  intros Hi Hn Hok Hh Hnl Hl. destruct (holed n l (entries h) i Hh Hnl Hl) as [Hedge Hgrand]. unfold sift.
  destruct (down_spec i n h) as (moved & h1 & -> & Hr & Hres); [lia|done..|]. cbn [mbind option_bind].
  destruct moved; [by exists h1|]. destruct Hres as [-> Hall]. apply up_spec; [lia|done..].
Qed.

(** ** The heap as a map *)

Definition h_get (h : hstate) (k : K) : option entry := ix_get (hindex h) (entries h) k.

Record hrep (h : hstate) (M : gmap K V) : Prop := {
  hr_ok : h_ok h;
  hr_heap : heap_upto (length (entries h)) (entries h);
  hr_get : ∀ k, M !! k = snd <$> h_get h k;
}.

Lemma h_get_elem h k e : h_ok h → h_get h k = Some e ↔ e ∈ entries h ∧ e.1 = k.
Proof. intros Hok. by apply (indexed_get fst). Qed.

Lemma rearranged_get n h h' k : h_ok h → rearranged n h h' → h_get h' k = h_get h k.
Proof.
  intros Hok [Hok' Hp _]. apply option_eq. intros e. rewrite !h_get_elem by done. by rewrite Hp.
Qed.

Lemma hrep_elem h M k v : hrep h M → M !! k = Some v ↔ (k, v) ∈ entries h.
Proof.
  intros [Hok _ Hget]. rewrite Hget, fmap_Some. split.
  - intros ([k' v'] & Hg & ->). by apply h_get_elem in Hg as [Hin [= ->]].
  - intros Hin. exists (k, v). split; [|done]. by apply h_get_elem.
Qed.

Lemma hrep_None h M k : hrep h M → hindex h !! k = None ↔ M !! k = None.
Proof. intros [Hok _ Hget]. rewrite Hget, fmap_None. symmetry. by apply (indexed_None fst). Qed.

Lemma hrep_index h M k i : hrep h M → hindex h !! k = Some i → ∃ v, entries h !! i = Some (k, v) ∧ M !! k = Some v.
Proof.
  intros Hr Hi. destruct (indexed_lookup _ _ _ _ _ (hr_ok _ _ Hr) Hi) as ([k' v] & Hv & [= ->]). exists v. split; [done|].
  apply (hrep_elem h M k v Hr). by eapply list_elem_of_lookup_2.
Qed.

Lemma h_ok_size h : h_ok h → size (hindex h) = length (entries h).
Proof.
  intros Hok. rewrite <-size_dom, <-(length_fmap fst (entries h)). rewrite <-(size_list_to_set (C := gset K)) by (by eapply indexed_NoDup).
  f_equal. apply set_eq. intros k. rewrite elem_of_dom, elem_of_list_to_set, list_elem_of_fmap. split.
  - intros [i Hi]. destruct (indexed_lookup _ _ _ _ _ Hok Hi) as (e & He & Ek). exists e. split; [done|]. by eapply list_elem_of_lookup_2.
  - intros (e & -> & [i He]%list_elem_of_lookup). exists i. by apply (indexed_item _ _ _ _ _ Hok).
Qed.

Lemma hrep_size h M : hrep h M → size M = length (entries h).
Proof.
  intros Hr. rewrite <-h_ok_size by apply Hr. rewrite <-!size_dom. f_equal. apply set_eq. intros k. rewrite !elem_of_dom.
  rewrite <-!not_eq_None_Some. by rewrite (hrep_None h M k Hr).
Qed.

Lemma rearranged_rep n h h' M : hrep h M → rearranged n h h' → heap_upto (length (entries h)) (entries h') → hrep h' M.
Proof.
  intros [Hok _ Hget] Hr Hh. split; [apply Hr|by rewrite (rearranged_length _ _ _ Hr)|].
  intros k. by rewrite (rearranged_get _ _ _ _ Hok Hr).
Qed.

Lemma Push_spec h M k v : hrep h M → ∃ h', Map_Push k v h = Some (M !! k, h') ∧ hrep h' (<[k := v]> M).
Proof.
  intros Hr. unfold Map_Push. destruct (hindex h !! k) as [i|] eqn:Ei.
  - destruct (hrep_index h M k i Hr Ei) as (v0 & Hv0 & HM). rewrite Hv0. cbn [mbind option_bind fst snd].
    pose proof (lookup_lt_Some _ _ _ Hv0) as Hi. destruct Hr as [Hok Hh Hget]. set (h1 := mkHeap (<[i := (k, v)]> (entries h)) (hindex h)).
    assert (h_ok h1) as Hok1 by by apply (indexed_set fst).
    assert (length (entries h1) = length (entries h)) as Hl1 by apply length_insert.
    destruct (sift_spec i (length (entries h1)) h1 (entries h)) as (h' & E & Hr' & Hh'); [lia|lia|done|by rewrite Hl1|lia| |].
    { intros p _ Hp. cbn. by rewrite list_lookup_insert_ne. }
    change (heap_Fix i h1) with (sift i (length (entries h1)) h1). rewrite E. cbn [mbind option_bind]. exists h'. split; [by rewrite HM|].
    pose proof (rearranged_length _ _ _ Hr') as Hl.
    split; [apply Hr'|by rewrite Hl|]. intros k'. rewrite (rearranged_get _ _ _ _ Hok1 Hr'). unfold h_get. cbn.
    rewrite (get_set fst _ _ _ (k, v) _ Hok Ei). cbn. case_bool_decide as Ek; [subst; by rewrite lookup_insert_eq|].
    rewrite lookup_insert_ne by done. apply Hget.
  - pose proof (proj1 (hrep_None h M k Hr) Ei) as HM. destruct Hr as [Hok Hh Hget]. unfold heap_Push.
    assert (h_Push (k, v) h = mkHeap (entries h ++ [(k, v)]) (<[k := length (entries h)]> (hindex h))) as -> by (unfold h_Push; by rewrite h_ok_size).
    set (h1 := mkHeap _ _). assert (h_ok h1) as Hok1 by exact (indexed_snoc fst _ _ (k, v) Hok Ei).
    assert (length (entries h1) = S (length (entries h))) as Hl1 by (cbn; rewrite length_app; cbn; lia).
    destruct (up_spec (length (entries h1)) (length (entries h1) - 1) (length (entries h1)) h1) as (h' & -> & Hr' & Hh'); try lia; [done| | |].
    { intros p Hp Hne a b Ha Hb. rewrite Hl1 in Hp, Hne. pose proof (parent_lt p ltac:(lia)). unfold h1 in Ha, Hb. cbn [entries] in Ha, Hb. rewrite lookup_app_l in Ha by lia. rewrite lookup_app_l in Hb by lia. eapply (Hh p); [lia|done|done]. }
    { intros c a b _ Hc Epc. pose proof (parent_lt c ltac:(lia)). lia. }
    cbn [mbind option_bind]. exists h'. split; [by rewrite HM|]. pose proof (rearranged_length _ _ _ Hr') as Hl.
    split; [apply Hr'|by rewrite Hl|]. intros k'. rewrite (rearranged_get _ _ _ _ Hok1 Hr'). unfold h_get. cbn.
    rewrite (get_snoc fst _ _ (k, v) _ Hok Ei). cbn. case_bool_decide as Ek; [subst; by rewrite lookup_insert_eq|].
    rewrite lookup_insert_ne by done. apply Hget.
Qed.

(** [h.Pop] takes the last entry off. *)
Lemma h_Pop_spec h e : h_ok h → entries h !! (length (entries h) - 1) = Some e →
  ∃ h', h_Pop h = Some (e, h') ∧ h_ok h' ∧ entries h' = take (length (entries h) - 1) (entries h) ∧
    ∀ k, h_get h' k = if bool_decide (k = e.1) then None else h_get h k.
Proof.
  intros Hok He. unfold h_Pop. rewrite last_lookup. replace (pred (length (entries h))) with (length (entries h) - 1) by lia. rewrite He.
  cbn [mbind option_bind]. eexists. split; [done|]. pose proof (indexed_item _ _ _ _ _ Hok He) as Hi.
  pose proof (indexed_remove fst _ _ _ _ _ Hok Hi He) as Hrem. rewrite (list_insert_id _ _ _ He), insert_id in Hrem by done.
  split_and!; [exact Hrem|done|]. intros k. pose proof (get_remove fst _ _ _ _ _ k Hok Hi He) as Hg.
  rewrite (list_insert_id _ _ _ He), insert_id in Hg by done. exact Hg.
Qed.

(** The entry at [i] moved to the end, and the rest sifted into a heap, is taken off. *)
Lemma pop_rep h M h1 i k v : hrep h M → entries h !! i = Some (k, v) →
  (∃ n, rearranged n h h1) → heap_upto (length (entries h) - 1) (entries h1) → entries h1 !! (length (entries h) - 1) = Some (k, v) →
  ∃ h', h_Pop h1 = Some ((k, v), h') ∧ hrep h' (delete k M).
Proof.
  intros [Hok Hh Hget] Hi [n Hr] Hh1 He. pose proof (rearranged_length _ _ _ Hr) as Hl. rewrite <-Hl in He, Hh1.
  destruct (h_Pop_spec h1 (k, v) (re_ok _ _ _ Hr) He) as (h' & -> & Hok' & El & Hg). exists h'. split; [done|]. split; [done| |].
  - rewrite El, length_take. intros p Hp a b Ha Hb. pose proof (parent_lt p ltac:(lia)).
    rewrite lookup_take_lt in Ha by lia. rewrite lookup_take_lt in Hb by lia. eapply (Hh1 p); [lia|done|done].
  - intros k'. rewrite Hg. cbn. case_bool_decide as Ek; [subst; by rewrite lookup_delete_eq|].
    rewrite lookup_delete_ne by done. by rewrite (rearranged_get _ _ _ _ Hok Hr).
Qed.

Lemma Remove_spec h M k : hrep h M → ∃ h', Map_Remove k h = Some (M !! k, h') ∧ hrep h' (delete k M).
Proof.
  intros Hr. unfold Map_Remove. destruct (hindex h !! k) as [i|] eqn:Ei.
  2: { pose proof (proj1 (hrep_None h M k Hr) Ei) as HM. exists h. rewrite HM. split; [done|]. by rewrite delete_id. }
  destruct (hrep_index h M k i Hr Ei) as (v & Hv & HM). rewrite HM. unfold heap_Remove.
  pose proof (lookup_lt_Some _ _ _ Hv) as Hi. pose proof (hr_ok _ _ Hr) as Hok. pose proof (hr_heap _ _ Hr) as Hh.
  case_bool_decide as Hni.
  - destruct (lookup_lt_is_Some_2 (entries h) (length (entries h) - 1)) as [z Hz]; [lia|].
    destruct (h_Swap_rearranged (length (entries h)) i (length (entries h) - 1) h _ _ Hok Hv Hz) as (h1 & -> & Hr1 & Hl1); [lia|lia|].
    cbn [mbind option_bind]. pose proof (rearranged_length _ _ _ Hr1) as El1.
    destruct (sift_spec i (length (entries h) - 1) h1 (entries h)) as (h2 & E & Hr2 & Hh2); [lia|lia|by apply Hr1| |lia| |].
    { intros p Hp. apply Hh. lia. }
    { intros p Hp Hne. rewrite Hl1. by rewrite !decide_False by lia. }
    unfold sift in E. rewrite E. cbn [mbind option_bind].
    destruct (pop_rep h M h2 i k v Hr Hv) as (h' & -> & Hr'); [|done| |by exists h'].
    + exists (length (entries h)). eapply rearranged_trans; [done|]. destruct Hr2 as [? ? Ht]. split; [done|done|]. intros p Hp. apply Ht. lia.
    + rewrite (re_tail _ _ _ Hr2), Hl1 by lia. by rewrite decide_True.
  - cbn [mbind option_bind]. destruct (pop_rep h M h i k v Hr Hv) as (h' & -> & Hr'); [exists 0; by apply rearranged_refl| | |by exists h'].
    + intros p Hp. apply Hh. lia.
    + by replace (length (entries h) - 1) with i by lia.
Qed.

(** An entry that no other is less than. *)
Definition least (M : gmap K V) (e : entry) : Prop := M !! e.1 = Some e.2 ∧ ∀ k v, M !! k = Some v → less v e.2 = false.

Lemma less_irrefl x : less x x = false.
Proof. destruct (less x x) eqn:E; [|done]. pose proof (less_asym _ _ E). congruence. Qed.

Lemma root_least h M e : hrep h M → entries h !! 0 = Some e → least M e.
Proof.
  intros Hr He. split.
  - apply (hrep_elem h M _ _ Hr). rewrite <-surjective_pairing. by eapply list_elem_of_lookup_2.
  - intros k v [i Hi]%(hrep_elem h M _ _ Hr)%list_elem_of_lookup. pose proof (lookup_lt_Some _ _ _ Hi).
    destruct (heap_root _ _ _ i _ (hr_heap _ _ Hr) ltac:(done) (le_n _) He Hi) as [->|Hle]; [|exact Hle].
    assert (e = (k, v)) as -> by congruence. apply less_irrefl.
Qed.

Lemma Pop_spec h M : hrep h M → ∃ r h', Map_Pop h = Some (r, h') ∧
  match r with None => M = ∅ ∧ h' = h | Some e => least M e ∧ hrep h' (delete e.1 M) end.
Proof.
  intros Hr. unfold Map_Pop, Map_Len. case_bool_decide as H0.
  { exists None, h. split_and!; try done. apply map_size_empty_inv. by rewrite (hrep_size h M Hr). }
  destruct (lookup_lt_is_Some_2 (entries h) 0) as [e He]; [lia|].
  destruct (lookup_lt_is_Some_2 (entries h) (length (entries h) - 1)) as [z Hz]; [lia|]. unfold heap_Pop.
  pose proof (hr_ok _ _ Hr) as Hok. pose proof (hr_heap _ _ Hr) as Hh.
  destruct (h_Swap_rearranged (length (entries h)) 0 (length (entries h) - 1) h _ _ Hok He Hz) as (h1 & -> & Hr1 & Hl1); [lia|lia|].
  cbn [mbind option_bind]. pose proof (rearranged_length _ _ _ Hr1) as El1.
  destruct (holed (length (entries h) - 1) (entries h) (entries h1) 0) as [Hedge Hgrand]; [intros p Hp; apply Hh; lia|lia| |].
  { intros p Hp Hne. rewrite Hl1. by rewrite !decide_False by lia. }
  destruct (down_spec 0 (length (entries h) - 1) h1) as (moved & h2 & -> & Hr2 & Hres); [lia|lia|by apply Hr1|done|done|]. cbn [mbind option_bind].
  assert (heap_upto (length (entries h) - 1) (entries h2)) as Hh2 by (destruct moved; [done|destruct Hres as [-> Hall]; intros p Hp; apply Hall; lia]).
  rewrite (surjective_pairing e) in *. destruct (pop_rep h M h2 0 e.1 e.2 Hr He) as (h' & -> & Hr'); [|done| |].
  - exists (length (entries h)). eapply rearranged_trans; [done|]. destruct Hr2 as [? ? Ht]. split; [done|done|]. intros p Hp. apply Ht. lia.
  - rewrite (re_tail _ _ _ Hr2), Hl1 by lia. by rewrite decide_True.
  - exists (Some (e.1, e.2)), h'. split_and!; [done|by eapply root_least|done].
Qed.

Lemma Fix_spec h M k : hrep h M → ∃ h', Map_Fix k h = Some h' ∧ hrep h' M.
Proof.
  intros Hr. unfold Map_Fix. destruct (hindex h !! k) as [i|] eqn:Ei; [|by exists h].
  destruct (hrep_index h M k i Hr Ei) as (v & Hv & _). pose proof (lookup_lt_Some _ _ _ Hv).
  destruct (sift_spec i (length (entries h)) h (entries h)) as (h' & E & Hr' & Hh'); [done|done|by apply Hr|by apply Hr|done|done|].
  change (heap_Fix i h) with (sift i (length (entries h)) h). rewrite E. exists h'. split; [done|]. by eapply rearranged_rep.
Qed.

Lemma Get_spec h M k : hrep h M → Map_Get k h = Some (M !! k) ∧ Map_Contains k h = bool_decide (is_Some (M !! k)).
Proof.
  intros Hr. unfold Map_Get, Map_Contains. pose proof (hrep_None h M k Hr) as Hn. destruct (hindex h !! k) as [i|] eqn:Ei.
  - destruct (hrep_index h M k i Hr Ei) as (v & -> & ->). done.
  - by rewrite (proj1 Hn eq_refl).
Qed.

Lemma Peek_spec h M : hrep h M → ∃ r, Map_Peek h = Some r ∧ match r with None => M = ∅ | Some e => least M e end.
Proof.
  intros Hr. unfold Map_Peek, Map_Len. case_bool_decide as H0.
  { exists None. split; [done|]. apply map_size_empty_inv. by rewrite (hrep_size h M Hr). }
  destruct (lookup_lt_is_Some_2 (entries h) 0) as [e He]; [lia|]. rewrite He. exists (Some e). split; [done|]. by eapply root_least.
Qed.

(** ** Any sequence of calls *)

Inductive hop := HPush (k : K) (v : V) | HPop | HRemove (k : K) | HFix (k : K).
Inductive hret := RPrev (v : option V) | REntry (e : option entry) | RFixed.

Definition hexec (o : hop) (h : hstate) : option (hret * hstate) :=
  match o with
  | HPush k v => '(r, h) ← Map_Push k v h; Some (RPrev r, h)
  | HPop => '(r, h) ← Map_Pop h; Some (REntry r, h)
  | HRemove k => '(r, h) ← Map_Remove k h; Some (RPrev r, h)
  | HFix k => h ← Map_Fix k h; Some (RFixed, h)
  end.

(** What a call may return on a map and the map after it. *)
Definition mstep (o : hop) (M : gmap K V) (r : hret) (M' : gmap K V) : Prop :=
  match o, r with
  | HPush k v, RPrev p => p = M !! k ∧ M' = <[k := v]> M
  | HPop, REntry None => M = ∅ ∧ M' = M
  | HPop, REntry (Some e) => least M e ∧ M' = delete e.1 M
  | HRemove k, RPrev p => p = M !! k ∧ M' = delete k M
  | HFix _, RFixed => M' = M
  | _, _ => False
  end.

Lemma hexec_spec o h M : hrep h M → ∃ r h' M', hexec o h = Some (r, h') ∧ mstep o M r M' ∧ hrep h' M'.
Proof.
  intros Hr. destruct o as [k v| |k|k]; cbn [hexec].
  - destruct (Push_spec h M k v Hr) as (h' & -> & Hr'). by eexists _, _, _.
  - destruct (Pop_spec h M Hr) as (r & h' & -> & Hres). eexists _, h'. cbn. destruct r as [e|].
    + destruct Hres. by eexists.
    + destruct Hres as [-> ->]. by eexists.
  - destruct (Remove_spec h M k Hr) as (h' & -> & Hr'). by eexists _, _, _.
  - destruct (Fix_spec h M k Hr) as (h' & -> & Hr'). by eexists _, _, _.
Qed.

Inductive hreach : hstate → gmap K V → Prop :=
| hreach_new : hreach NewMap ∅
| hreach_step o h M r h' M' : hreach h M → hexec o h = Some (r, h') → mstep o M r M' → hreach h' M'.

(** The map after a call that returned [r]. *)
Definition mnext (o : hop) (r : hret) (M : gmap K V) : gmap K V :=
  match o, r with
  | HPush k v, _ => <[k := v]> M
  | HPop, REntry (Some e) => delete e.1 M
  | HRemove k, _ => delete k M
  | _, _ => M
  end.

Lemma mstep_next o M r M' : mstep o M r M' → M' = mnext o r M.
Proof. destruct o, r as [| []|]; cbn; try done; by intros [_ ->]. Qed.

Lemma hreach_rep h M : hreach h M → hrep h M.
Proof.
  induction 1 as [|o h M r h' M' _ IH Hx Hm].
  - split; [apply indexed_empty|intros k Hk; cbn in Hk; lia|]. intros k. done.
  - destruct (hexec_spec o h M IH) as (r1 & h1 & M1 & E & Hm1 & Hr1). rewrite E in Hx. injection Hx as -> ->.
    by rewrite (mstep_next _ _ _ _ Hm), <-(mstep_next _ _ _ _ Hm1).
Qed.

(** The heap with an index is a map with a minimum.  After any sequence of calls,
    starting with the empty heap, no call panics, and each returns what it returns on a
    finite map: [Push] and [Remove] the previous value, [Pop] and [Peek] an entry no value
    of the map is less than, or nothing exactly when the map is empty; the queries read the
    map; so nothing is lost, duplicated or found under another key, whatever the entries'
    order in the slice. *)
Theorem heapMap_refines h M : hreach h M →
  (∀ o, ∃ r h' M', hexec o h = Some (r, h') ∧ mstep o M r M' ∧ hreach h' M') ∧
  (∀ k, Map_Get k h = Some (M !! k) ∧ Map_Contains k h = bool_decide (is_Some (M !! k))) ∧
  (∃ r, Map_Peek h = Some r ∧ match r with None => M = ∅ | Some e => least M e end) ∧
  Map_Len h = size M ∧ (∀ v, v ∈ MapValues h ↔ ∃ k, M !! k = Some v).
Proof.
  intros Hreach. pose proof (hreach_rep h M Hreach) as Hr. split_and!.
  - intros o. destruct (hexec_spec o h M Hr) as (r & h' & M' & E & Hm & _). exists r, h', M'. split_and!; [done|done|]. by eapply hreach_step.
  - intros k. by apply Get_spec.
  - by apply Peek_spec.
  - unfold Map_Len. by rewrite (hrep_size h M Hr).
  - intros v. unfold MapValues. rewrite list_elem_of_fmap. split.
    + intros ([k v'] & -> & Hin). exists k. by apply (hrep_elem h M _ _ Hr).
    + intros (k & Hk%(hrep_elem h M _ _ Hr)). by exists (k, v).
Qed.

Fixpoint hrun (ops : list hop) (h : hstate) (M : gmap K V) : option (hstate * gmap K V) :=
  match ops with
  | [] => Some (h, M)
  | o :: ops => '(r, h) ← hexec o h; hrun ops h (mnext o r M)
  end.

Lemma hrun_reach ops h M h' M' : hreach h M → hrun ops h M = Some (h', M') → hreach h' M'.
Proof.
  revert h M. induction ops as [|o ops IH]; intros h M Hr; cbn; [by intros [= <- <-]|].
  destruct (hexec_spec o h M (hreach_rep _ _ Hr)) as (r & h1 & M1 & E & Hm & _). rewrite E. cbn. rewrite <-(mstep_next _ _ _ _ Hm).
  apply IH. by eapply hreach_step.
Qed.
End heap.

(** Three keys, the second overwritten by a smaller value. *)
Definition ex_less (x y : Z) : bool := bool_decide (x < y)%Z.
Definition ex_hops : list (hop (K := Z) (V := Z)) := [HPush 1 50; HPush 2 70; HPush 3 60; HPush 2 10]%Z.
Definition ex_heap : hstate * gmap Z Z := default (NewMap, ∅) (hrun ex_less ex_hops NewMap ∅).

Lemma heapMap_refines_witness :
  fst <$> hexec ex_less HPop ex_heap.1 = Some (REntry (Some (2, 10)))%Z ∧ ex_heap.2 !! 2%Z = Some 10%Z ∧
  ∃ r, Map_Peek ex_heap.1 = Some r ∧ match r with None => ex_heap.2 = ∅ | Some e => least ex_less ex_heap.2 e end.
Proof.
  split_and!; [vm_compute; reflexivity..|].
  assert (∀ x y, ex_less x y = true → ex_less y x = false) as Ha by (unfold ex_less; intros x y; rewrite bool_decide_eq_true, bool_decide_eq_false; lia).
  assert (∀ x y z, ex_less y x = false → ex_less z y = false → ex_less z x = false) as Ht
    by (unfold ex_less; intros x y z; rewrite !bool_decide_eq_false; lia).
  refine (proj1 (proj2 (proj2 (heapMap_refines ex_less Ha Ht ex_heap.1 ex_heap.2 _)))).
  apply (hrun_reach ex_less Ha Ht ex_hops NewMap ∅); [constructor|vm_compute; reflexivity].
Defined.
