(* ===== verification/Bloom.v ===== *)
(** * Bloom filters (src/utils/bloom: filter.go, read_filter.go, hasher.go)

    A filter is a list of hash seeds and a list of bytes.  Adding a 64-bit hash sets one
    bit for every seed; the set contains a hash when all its bits are set.  [None] is a
    panic (an index out of range, or a modulus of zero).  SHA-256 and the bytes read from
    the random source are arguments.  Locks and metrics are left out; the choice of sizes
    (optimal.go) computes with floating-point logarithms and is an argument where used. *)

From S2P Require Import Prelude.

#[local] Open Scope Z_scope.

(** ** filter.go *)

Definition minHashes : Z := 1.
Definition maxHashes : Z := 16.
Definition minEntries : Z := 1.
Definition bitsPerByte : Z := 8.
Definition bytesPerUint64 : Z := 8.
Definition hashRotation : Z := 17.

Inductive bloom_err :=
| errInvalidNumHashes | errTooFewHashes | errTooManyHashes | errTooFewEntries
| errRandom.

Record Filter := mkFilter {
  numBits : Z;
  hashSeeds : list Z;
  entries : list Z;
  f_count : Z;
}.

(** [make([]uint64, n)] filled with the big-endian numbers at [1 + 8 * i] or [8 * i]. *)
Fixpoint read_seeds (n : nat) (bytes : list Z) : list Z :=
  match n with
  | O => []
  | S n => be_decode (take 8 bytes) :: read_seeds n (drop 8 bytes)
  end.

(** [rnd] is what the random source gives for a number of bytes; [None] is an error. *)
Definition newHashSeeds (rnd : Z → option (list Z)) (count : Z) : result bloom_err (list Z) :=
  if bool_decide (count < minHashes) then Err errTooFewHashes
  else if bool_decide (maxHashes < count) then Err errTooManyHashes
  else match rnd (count * bytesPerUint64) with
       | None => Err errRandom
       | Some bytes => Ok (read_seeds (Z.to_nat count) bytes)
       end.

Definition New (rnd : Z → option (list Z)) (numHashes numEntries : Z) : result bloom_err Filter :=
  if bool_decide (numEntries < minEntries) then Err errTooFewEntries
  else
    hashSeeds ← newHashSeeds rnd numHashes;
    Ok (mkFilter (wrapU 64 (numEntries * bitsPerByte)) hashSeeds
          (replicate (Z.to_nat numEntries) 0) 0).

(** [bits.RotateLeft64] *)
Definition RotateLeft64 (x k : Z) : Z := Z.lor (wrapU 64 (Z.shiftl x k)) (Z.shiftr x (64 - k)).

Definition next_hash (hash seed : Z) : Z := Z.lxor (RotateLeft64 hash hashRotation) seed.

(** [entries[byteIndex] |= 1 << bitIndex] *)
Definition set_bit (index : Z) (entries : list Z) : option (list Z) :=
  let byteIndex := Z.to_nat (index / bitsPerByte) in
  let bitIndex := index `mod` bitsPerByte in
  b ← entries !! byteIndex;
  Some (<[byteIndex := Z.lor b (wrapU 8 (Z.shiftl 1 bitIndex))]> entries).

Fixpoint Add_loop (numBits : Z) (seeds : list Z) (hash : Z) (entries : list Z) : option (list Z) :=
  match seeds with
  | [] => Some entries
  | seed :: seeds =>
      let hash := next_hash hash seed in
      entries ← set_bit (hash `mod` numBits) entries;
      Add_loop numBits seeds hash entries
  end.

Definition Filter_Add (hash : Z) (f : Filter) : option Filter :=
  if bool_decide (numBits f = 0) then None
  else
    es ← Add_loop (numBits f) (hashSeeds f) hash (entries f);
    Some (mkFilter (numBits f) (hashSeeds f) es (wrapS 64 (f_count f + 1))).

Definition Count (f : Filter) : Z := f_count f.

Fixpoint contains_loop (numBits : Z) (seeds : list Z) (hash accumulator : Z) (entries : list Z) : option Z :=
  match seeds with
  | [] => Some accumulator
  | seed :: seeds =>
      if bool_decide (accumulator = 0) then Some accumulator
      else
        let hash := next_hash hash seed in
        let index := hash `mod` numBits in
        b ← entries !! Z.to_nat (index / bitsPerByte);
        contains_loop numBits seeds hash (Z.land accumulator (Z.shiftr b (index `mod` bitsPerByte))) entries
  end.

Definition contains (hashSeeds entries : list Z) (hash : Z) : option bool :=
  let numBits := wrapU 64 (bitsPerByte * Z.of_nat (length entries)) in
  if bool_decide (numBits = 0) then None
  else
    accumulator ← contains_loop numBits hashSeeds hash 1 entries;
    Some (negb (bool_decide (accumulator = 0))).

Definition Filter_Contains (hash : Z) (f : Filter) : option bool := contains (hashSeeds f) (entries f) hash.

Definition marshal (hashSeeds entries : list Z) : list Z :=
  wrapU 8 (Z.of_nat (length hashSeeds)) :: (hashSeeds ≫= be_encode 8) ++ entries.

Definition Filter_Marshal (f : Filter) : list Z := marshal (hashSeeds f) (entries f).

(** ** read_filter.go *)

Record ReadFilter := mkReadFilter { rf_hashSeeds : list Z; rf_entries : list Z }.

Definition EmptyFilter : ReadFilter := mkReadFilter [0] [0].
Definition FullFilter : ReadFilter := mkReadFilter [0] [255].

Definition Parse (bytes : list Z) : result bloom_err ReadFilter :=
  match bytes with
  | [] => Err errInvalidNumHashes
  | numHashes :: rest =>
      let entriesOffset := 1 + numHashes * bytesPerUint64 in
      if bool_decide (numHashes < minHashes) then Err errTooFewHashes
      else if bool_decide (maxHashes < numHashes) then Err errTooManyHashes
      else if bool_decide (Z.of_nat (length bytes) < entriesOffset + minEntries) then Err errTooFewEntries
      else Ok (mkReadFilter (read_seeds (Z.to_nat numHashes) rest) (drop (Z.to_nat entriesOffset) bytes))
  end.

Definition ReadFilter_Contains (hash : Z) (f : ReadFilter) : option bool :=
  contains (rf_hashSeeds f) (rf_entries f) hash.
Definition ReadFilter_Marshal (f : ReadFilter) : list Z := marshal (rf_hashSeeds f) (rf_entries f).

(** ** hasher.go *)

Section hasher.
Variable sha256 : list Z → list Z.

Definition Hash (key salt : list Z) : Z := be_decode (take 8 (sha256 (key ++ salt))).
Definition bloom_Add (f : Filter) (key salt : list Z) : option Filter := Filter_Add (Hash key salt) f.
Definition bloom_Contains (f : ReadFilter) (key salt : list Z) : option bool :=
  ReadFilter_Contains (Hash key salt) f.
End hasher.

(** ** Which bits an operation looks at *)

Definition bitAt (es : list Z) (i : Z) : bool :=
  match es !! Z.to_nat (i / 8) with Some b => Z.testbit b (i `mod` 8) | None => false end.

Fixpoint positions (numBits : Z) (seeds : list Z) (hash : Z) : list Z :=
  match seeds with
  | [] => []
  | seed :: seeds =>
      let hash := next_hash hash seed in hash `mod` numBits :: positions numBits seeds hash
  end.

Lemma positions_range n seeds h : 0 < n → Forall (λ i, 0 ≤ i < n) (positions n seeds h).
Proof.
  intros Hn. revert h. induction seeds as [|seed seeds IH]; intros h; simpl; constructor; auto.
  by apply Z.mod_pos_bound.
Qed.

Lemma byte_index (es : list Z) i : 0 ≤ i < 8 * Z.of_nat (length es) → ∃ b, es !! Z.to_nat (i / 8) = Some b.
Proof. intros Hi. apply lookup_lt_is_Some_2. pose proof (Z.div_lt_upper_bound i 8 (Z.of_nat (length es))). lia. Qed.

Lemma set_bit_spec (es : list Z) i : 0 ≤ i < 8 * Z.of_nat (length es) → bytes_ok es →
  ∃ es', set_bit i es = Some es' ∧ length es' = length es ∧ bytes_ok es' ∧
    ∀ j, 0 ≤ j → bitAt es' j = bool_decide (j = i) || bitAt es j.
Proof.
  intros Hi Hok. destruct (byte_index es i Hi) as [b Hb]. unfold set_bit, bitsPerByte. rewrite Hb.
  eexists. split; [done|]. rewrite length_insert. split; [done|].
  pose proof (Z.mod_pos_bound i 8 ltac:(lia)) as Hm.
  assert (0 ≤ Z.shiftl 1 (i `mod` 8) < 2 ^ 8) as Hs.
  { rewrite Z.shiftl_1_l. split; [lia|]. apply Z.pow_lt_mono_r; lia. }
  rewrite wrapU_id by exact Hs. split.
  - apply Forall_insert; [done|]. pose proof (Forall_lookup_1 _ _ _ _ Hok Hb) as [Hb1 Hb2].
    unfold byte_ok. split; [apply Z.lor_nonneg; lia|].
    change 256 with (2 ^ 8). apply Z.bounded_iff_bits_nonneg; [lia|apply Z.lor_nonneg; lia|].
    intros l Hl. rewrite Z.lor_spec. apply orb_false_intro.
    + apply (Z.bounded_iff_bits_nonneg 8 b); lia.
    + apply (Z.bounded_iff_bits_nonneg 8 (Z.shiftl 1 (i `mod` 8))); lia.
  - intros j Hj. unfold bitAt. destruct (decide (Z.to_nat (j / 8) = Z.to_nat (i / 8))) as [E|E].
    + rewrite E, list_lookup_insert_eq, Hb by (by eapply lookup_lt_Some).
      rewrite Z.lor_spec, Z.shiftl_1_l, Z.pow2_bits_eqb by lia. rewrite orb_comm. f_equal.
      assert (j / 8 = i / 8) as Hd by (apply Z2Nat.inj; [apply Z.div_pos; lia..|done]).
      pose proof (Z.div_mod j 8). pose proof (Z.div_mod i 8).
      destruct (Z.eqb_spec (i `mod` 8) (j `mod` 8)); case_bool_decide; try done; [lia|congruence].
    + rewrite list_lookup_insert_ne by congruence. by rewrite bool_decide_eq_false_2 by (intros ->; done).
Qed.

Lemma Add_loop_spec n seeds h (es : list Z) :
  n = 8 * Z.of_nat (length es) → 0 < n → bytes_ok es →
  ∃ es', Add_loop n seeds h es = Some es' ∧ length es' = length es ∧ bytes_ok es' ∧
    ∀ j, 0 ≤ j → bitAt es' j = bool_decide (j ∈ positions n seeds h) || bitAt es j.
Proof.
  intros Hn Hpos. revert h es Hn. induction seeds as [|seed seeds IH]; intros h es Hn Hok; simpl.
  { exists es. split_and!; done. }
  pose proof (Z.mod_pos_bound (next_hash h seed) n Hpos) as Hm.
  destruct (set_bit_spec es (next_hash h seed `mod` n)) as (es1 & -> & Hl1 & Hok1 & Hb1); [lia|done|].
  destruct (IH (next_hash h seed) es1) as (es2 & E & Hl2 & Hok2 & Hb2); [lia|done|].
  simpl. exists es2. split_and!; [done|congruence|done|]. intros j Hj. rewrite Hb2, Hb1 by done.
  rewrite orb_assoc. f_equal. repeat case_bool_decide; set_solver.
Qed.

Lemma land_1_shift b k : 0 ≤ k → Z.land 1 (Z.shiftr b k) = Z.b2z (Z.testbit b k).
Proof.
  intros Hk. apply Z.bits_inj'. intros i Hi. rewrite Z.land_spec, Z.shiftr_spec by done.
  destruct (decide (i = 0)) as [->|Hne].
  - rewrite Z.b2z_bit0, Z.add_0_l. done.
  - rewrite (Z.bits_above_log2 1) by (simpl; lia). symmetry. simpl.
    destruct (Z.testbit b k); simpl; [apply Z.bits_above_log2; simpl; lia|apply Z.bits_0].
Qed.

Lemma contains_loop_spec n seeds h acc (es : list Z) :
  n = 8 * Z.of_nat (length es) → 0 < n →
  contains_loop n seeds h (Z.b2z acc) es = Some (Z.b2z (acc && forallb (bitAt es) (positions n seeds h))).
Proof.
  intros Hn Hpos. revert h acc. induction seeds as [|seed seeds IH]; intros h acc.
  { cbn. by rewrite andb_true_r. }
  cbn [contains_loop positions forallb]. destruct acc; [|done]. change (Z.b2z true) with 1.
  rewrite bool_decide_eq_false_2 by done. unfold bitsPerByte.
  pose proof (Z.mod_pos_bound (next_hash h seed) n Hpos) as Hm. set (i := next_hash h seed `mod` n) in *.
  destruct (byte_index es i ltac:(lia)) as [b Hb]. rewrite Hb. cbn [mbind option_bind].
  rewrite land_1_shift by (apply Z.mod_pos_bound; lia). rewrite IH, andb_true_l. unfold bitAt at 2. by rewrite Hb.
Qed.

Lemma contains_spec seeds (es : list Z) h : 0 < 8 * Z.of_nat (length es) < 2 ^ 64 →
  contains seeds es h = Some (forallb (bitAt es) (positions (8 * Z.of_nat (length es)) seeds h)).
Proof.
  intros Hl. unfold contains, bitsPerByte. rewrite wrapU_id by (unfold inU; lia).
  rewrite bool_decide_eq_false_2 by lia. change 1 with (Z.b2z true) at 1.
  rewrite contains_loop_spec by lia. simpl. by destruct (forallb _ _).
Qed.

(** ** Invariant, marshalling and what a filter contains *)

Record filter_wf (f : Filter) : Prop := {
  fw_bits : numBits f = 8 * Z.of_nat (length (entries f));
  fw_range : 0 < numBits f < 2 ^ 64;
  fw_bytes : bytes_ok (entries f);
  fw_seeds : Forall (inU 64) (hashSeeds f);
  fw_hashes : (1 ≤ length (hashSeeds f) ≤ 16)%nat;
}.

Definition covers (f : Filter) (hs : list Z) (h : Z) : Prop :=
  Forall (λ i, Exists (λ h', i ∈ positions (numBits f) (hashSeeds f) h') hs)
         (positions (numBits f) (hashSeeds f) h).
#[export] Instance covers_dec f hs h : Decision (covers f hs h).
Proof. unfold covers. apply _. Defined.

Lemma read_seeds_spec n bytes : bytes_ok bytes → (8 * n ≤ length bytes)%nat →
  length (read_seeds n bytes) = n ∧ Forall (inU 64) (read_seeds n bytes) ∧
  (read_seeds n bytes ≫= be_encode 8) = take (8 * n) bytes.
Proof.
  revert bytes. induction n as [|n IH]; intros bytes Hok Hl; [done|].
  destruct (IH (drop 8 bytes)) as (IHl & IHr & IHe); [by apply Forall_drop|rewrite length_drop; lia|].
  assert (length (take 8 bytes) = 8%nat) as H8 by (rewrite length_take; lia).
  assert (bytes_ok (take 8 bytes)) as Hok8 by by apply Forall_take.
  cbn [read_seeds length]. split_and!; [by rewrite IHl|constructor; [|done]|].
  - pose proof (be_decode_range _ Hok8) as Hr. by rewrite H8 in Hr.
  - rewrite bind_cons, IHe. pose proof (be_encode_decode _ Hok8) as He. rewrite H8 in He. rewrite He.
    replace (8 * S n)%nat with (8 + 8 * n)%nat by lia. by rewrite take_take_drop.
Qed.

Lemma read_seeds_encode seeds rest : Forall (inU 64) seeds →
  read_seeds (length seeds) ((seeds ≫= be_encode 8) ++ rest) = seeds.
Proof.
  induction 1 as [|seed seeds Hs _ IH]; [done|]. rewrite bind_cons, <-app_assoc. cbn [length read_seeds].
  rewrite take_app_length', drop_app_length' by (by rewrite be_encode_length). rewrite IH. f_equal.
  by apply be_decode_encode.
Qed.

Lemma seeds_length (seeds : list Z) : length (seeds ≫= be_encode 8) = (8 * length seeds)%nat.
Proof.
  induction seeds as [|seed seeds IH]; [done|]. rewrite bind_cons, length_app, be_encode_length, IH. simpl. lia.
Qed.

Lemma Filter_New_wf rnd numHashes numEntries f :
  (∀ n bs, 0 ≤ n → rnd n = Some bs → bytes_ok bs ∧ Z.of_nat (length bs) = n) → numEntries < 2 ^ 60 →
  New rnd numHashes numEntries = Ok f →
  filter_wf f ∧ f_count f = 0 ∧ entries f = replicate (Z.to_nat numEntries) 0.
Proof.
  intros Hrnd Hlt. unfold New, newHashSeeds, minEntries, minHashes, maxHashes, bytesPerUint64, bitsPerByte.
  case_bool_decide as H1; [done|]. case_bool_decide as H2; [done|]. case_bool_decide as H3; [done|].
  destruct (rnd (numHashes * 8)) as [bs|] eqn:E; [|done]. intros [= <-].
  destruct (Hrnd (numHashes * 8) bs ltac:(lia) E) as [Hok Hl].
  destruct (read_seeds_spec (Z.to_nat numHashes) bs Hok) as (Hs1 & Hs2 & _); [lia|].
  assert (wrapU 64 (numEntries * 8) = numEntries * 8) as Hw by (apply wrapU_id; unfold inU; lia).
  split_and!; [|done|done]. split; cbn; rewrite ?length_replicate, ?Hw, ?Hs1; try done; try lia.
  apply Forall_replicate. by unfold byte_ok.
Qed.

Lemma Filter_Add_spec f h : filter_wf f →
  ∃ f', Filter_Add h f = Some f' ∧ filter_wf f' ∧ numBits f' = numBits f ∧ hashSeeds f' = hashSeeds f ∧
    f_count f' = wrapS 64 (f_count f + 1) ∧
    ∀ j, 0 ≤ j → bitAt (entries f') j =
                 bool_decide (j ∈ positions (numBits f) (hashSeeds f) h) || bitAt (entries f) j.
Proof.
  intros [Hb Hr Hok Hs Hh]. unfold Filter_Add. rewrite bool_decide_eq_false_2 by lia.
  destruct (Add_loop_spec (numBits f) (hashSeeds f) h (entries f)) as (es & -> & Hl & Hok' & Hbits); [done|lia|done|].
  eexists. split; [done|]. split_and!; try done. split; cbn; try done. by rewrite Hl.
Qed.

(** Adding hashes one after the other. *)
Definition add_all (hs : list Z) (f : Filter) : option Filter := foldl (λ f h, f ≫= Filter_Add h) (Some f) hs.

Lemma add_all_spec hs f : filter_wf f →
  ∃ f', add_all hs f = Some f' ∧ filter_wf f' ∧ numBits f' = numBits f ∧ hashSeeds f' = hashSeeds f ∧
    (f_count f + Z.of_nat (length hs) < 2 ^ 63 → 0 ≤ f_count f → f_count f' = f_count f + Z.of_nat (length hs)) ∧
    ∀ j, 0 ≤ j → bitAt (entries f') j =
      bool_decide (Exists (λ h, j ∈ positions (numBits f) (hashSeeds f) h) hs) || bitAt (entries f) j.
Proof.
  revert f. induction hs as [|h hs IH]; intros f Hf.
  { exists f. split_and!; try done. simpl. lia. }
  destruct (Filter_Add_spec f h Hf) as (f1 & E1 & Hf1 & Hn1 & Hs1 & Hc1 & Hb1).
  destruct (IH f1 Hf1) as (f2 & E2 & Hf2 & Hn2 & Hs2 & Hc2 & Hb2).
  exists f2. unfold add_all in *. cbn [foldl]. cbn [mbind option_bind]. rewrite E1.
  split_and!; [done|done|congruence|congruence| |].
  - intros Hlt H0. cbn [length] in *. rewrite wrapS_id in Hc1 by (unfold inS; lia). lia.
  - intros j Hj. rewrite Hb2, Hb1, Hn1, Hs1 by done. rewrite orb_assoc. f_equal.
    rewrite (bool_decide_ext (Exists _ (h :: hs)) (Exists (λ h0, j ∈ positions (numBits f) (hashSeeds f) h0) hs ∨
      j ∈ positions (numBits f) (hashSeeds f) h)) by (rewrite Exists_cons; tauto).
    by rewrite bool_decide_or.
Qed.

Lemma contains_covers f0 f hs h :
  filter_wf f → numBits f = numBits f0 → hashSeeds f = hashSeeds f0 →
  (∀ j, 0 ≤ j → bitAt (entries f) j =
     bool_decide (Exists (λ h, j ∈ positions (numBits f0) (hashSeeds f0) h) hs)) →
  Filter_Contains h f = Some (bool_decide (covers f0 hs h)).
Proof.
  intros Hf Hn Hs Hb. unfold Filter_Contains. rewrite contains_spec by (rewrite <-(fw_bits f Hf); apply Hf).
  rewrite <-(fw_bits f Hf), Hs, Hn. f_equal. unfold covers.
  pose proof (positions_range (numBits f0) (hashSeeds f0) h) as Hr. rewrite <-Hn in Hr at 1. specialize (Hr ltac:(apply Hf)).
  apply Bool.eq_iff_eq_true. rewrite bool_decide_eq_true, List.forallb_forall, Forall_forall.
  rewrite Forall_forall in Hr. setoid_rewrite <-list_elem_of_In.
  split; intros H i Hi; specialize (H i Hi); rewrite (Hb i ltac:(apply (Hr i Hi))) in *.
  - by apply bool_decide_eq_true_1 in H.
  - by apply bool_decide_eq_true_2.
Qed.

(** Received bytes that parse are those that marshalling the result gives, and looking up a
    hash in it does not panic. *)
Lemma Parse_sound bytes rf : bytes_ok bytes → Z.of_nat (length bytes) < 2 ^ 60 → Parse bytes = Ok rf →
  ReadFilter_Marshal rf = bytes ∧ ∀ h, is_Some (ReadFilter_Contains h rf).
Proof.
  intros Hok Hlt. unfold Parse, minHashes, maxHashes, minEntries, bytesPerUint64.
  destruct bytes as [|n rest]; [done|]. apply Forall_cons in Hok as [Hn Hok].
  repeat (case_bool_decide; [done|]). intros [= <-]. cbn [length] in *.
  destruct (read_seeds_spec (Z.to_nat n) rest Hok) as (Hl & _ & He); [lia|].
  replace (Z.to_nat (1 + n * 8)) with (S (8 * Z.to_nat n)) by lia. cbn [drop]. split.
  - unfold ReadFilter_Marshal, marshal. cbn [rf_hashSeeds rf_entries]. rewrite Hl, He, take_drop.
    rewrite Z2Nat.id by lia. rewrite wrapU_id by (unfold byte_ok, inU in *; lia). done.
  - intros h. unfold ReadFilter_Contains. cbn. rewrite contains_spec; [done|]. rewrite length_drop. lia.
Qed.

Lemma Parse_Marshal f : filter_wf f → Parse (Filter_Marshal f) = Ok (mkReadFilter (hashSeeds f) (entries f)).
Proof.
  intros [Hb Hr Hok Hs Hh]. unfold Parse, Filter_Marshal, marshal, minHashes, maxHashes, minEntries, bytesPerUint64.
  rewrite wrapU_id by (unfold inU; lia). cbn [length]. rewrite length_app, seeds_length.
  rewrite !bool_decide_eq_false_2 by lia. rewrite Nat2Z.id, read_seeds_encode by done. do 2 f_equal.
  replace (Z.to_nat (1 + Z.of_nat (length (hashSeeds f)) * 8)) with (S (8 * length (hashSeeds f))) by lia.
  cbn [drop]. by rewrite drop_app_length' by (by rewrite seeds_length).
Qed.

(** A Bloom filter has no false negatives and no others than shared bits explain.  In a
    filter that [New] returned, adding hashes never panics and counts them; looking up a
    hash answers true exactly when each of its bits is a bit of an added hash, so always
    for an added one; and the peer that parses the marshalled bytes gets a filter that
    gives the same answers. *)
Theorem bloom_filter_correct rnd numHashes numEntries f hs :
  (∀ n bs, 0 ≤ n → rnd n = Some bs → bytes_ok bs ∧ Z.of_nat (length bs) = n) → numEntries < 2 ^ 60 →
  New rnd numHashes numEntries = Ok f → Z.of_nat (length hs) < 2 ^ 63 →
  ∃ f' rf, add_all hs f = Some f' ∧ Count f' = Z.of_nat (length hs) ∧
    (∀ h, Filter_Contains h f' = Some (bool_decide (covers f hs h))) ∧
    (∀ h, h ∈ hs → Filter_Contains h f' = Some true) ∧
    Parse (Filter_Marshal f') = Ok rf ∧ (∀ h, ReadFilter_Contains h rf = Filter_Contains h f').
Proof.
  intros Hrnd Hlt HN Hlen. destruct (Filter_New_wf _ _ _ _ Hrnd Hlt HN) as (Hf & Hc & He).
  destruct (add_all_spec hs f Hf) as (f' & E & Hf' & Hn & Hs & Hcount & Hbits).
  assert (∀ h, Filter_Contains h f' = Some (bool_decide (covers f hs h))) as Hcov.
  { intros h. apply contains_covers; [done..|]. intros j Hj. rewrite Hbits by done.
    replace (bitAt (entries f) j) with false; [by rewrite orb_false_r|].
    unfold bitAt. rewrite He. destruct (replicate _ _ !! _) eqn:El; [|done].
    apply lookup_replicate in El as [-> _]. by rewrite Z.bits_0. }
  exists f', (mkReadFilter (hashSeeds f') (entries f')).
  split_and!; [done|unfold Count; lia|done| |by apply Parse_Marshal|done].
  intros h Hh. rewrite Hcov. rewrite bool_decide_eq_true_2; [done|].
  apply Forall_forall. intros i Hi. apply Exists_exists. by exists h.
Qed.

Lemma bloom_filter_correct_witness :
  ∃ f, New (λ n, Some (replicate (Z.to_nat n) 7)) 2 4 = Ok f ∧
  ∃ f' rf, add_all [5; 9] f = Some f' ∧ Count f' = 2 ∧
    (∀ h, Filter_Contains h f' = Some (bool_decide (covers f [5; 9] h))) ∧
    (∀ h, h ∈ [5; 9] → Filter_Contains h f' = Some true) ∧
    Parse (Filter_Marshal f') = Ok rf ∧ (∀ h, ReadFilter_Contains h rf = Filter_Contains h f').
Proof.
  eexists. split; [vm_compute; reflexivity|].
  apply (bloom_filter_correct (λ n, Some (replicate (Z.to_nat n) 7)) 2 4 _ [5; 9]); [|lia|vm_compute; reflexivity|cbn; lia].
  intros n bs Hn [= <-]. split; [by apply Forall_replicate|]. rewrite length_replicate. lia.
Defined.
