(* ===== verification/VdrManager.v ===== *)
(** * Validator sets by subnet (src/utils/evm/warp/validators/{set,manager,validator}.go)

    [vdrSet] holds the validators of a subnet in a map by node and in a slice, with a
    slice of their weights beside it; [manager] holds the sets of all subnets.
    Listeners are told of every change.

    The map and the slice hold pointers to shared [Validator] objects, which the code
    changes in place: [vs_objs] is the heap of these objects, the map and slice hold
    addresses.  Listeners are names; the calls they get are returned, in order.  Public
    keys are opaque.  [None] is a panic.  Each operation runs under its lock and is one
    step here; the printing methods are left out. *)

From S2P Require Import Prelude SafeMath.

Section vdrs.
Context {PK : Type}.

Record Validator := mkValidator {
  v_NodeID : list Z;
  v_PublicKey : PK;
  v_TxID : list Z;
  v_Weight : Z;
  v_index : nat;
}.

Definition set_Weight (w : Z) (v : Validator) : Validator :=
  mkValidator (v_NodeID v) (v_PublicKey v) (v_TxID v) w (v_index v).
Definition set_index (i : nat) (v : Validator) : Validator :=
  mkValidator (v_NodeID v) (v_PublicKey v) (v_TxID v) (v_Weight v) i.

Inductive verr :=
| errDuplicateValidator | errMissingValidator | errTotalWeightNotUint64
| VMath (e : math_err) | ErrZeroWeight | ErrMissingValidators.

(** What a listener is told; manager listeners also get the subnet. *)
Inductive vevent :=
| OnValidatorAdded (nodeID : list Z) (pk : PK) (txID : list Z) (weight : Z)
| OnValidatorRemoved (nodeID : list Z) (weight : Z)
| OnValidatorWeightChanged (nodeID : list Z) (oldWeight newWeight : Z).

Record vcall := mkCall { vc_listener : nat; vc_subnet : option (list Z); vc_event : vevent }.

(** ** set.go *)

Record vdrSet := mkVdrSet {
  subnetID : list Z;
  vs_objs : gmap nat Validator;
  vs_vdrs : gmap (list Z) nat;
  vdrSlice : list nat;
  weights : list Z;
  totalWeight : Z;
  samplerInitialized : bool;
  managerCallbackListeners : list nat;
  setCallbackListeners : list nat;
}.

Definition newSet (subnetID : list Z) (callbackListeners : list nat) : vdrSet :=
  mkVdrSet subnetID ∅ ∅ [] [] 0 false callbackListeners [].

(** The three functions that call the listeners. *)
Definition callCallbacks (e : vevent) (s : vdrSet) : list vcall :=
  ((λ l, mkCall l (Some (subnetID s)) e) <$> managerCallbackListeners s) ++
  ((λ l, mkCall l None e) <$> setCallbackListeners s).

(** A set operation: its error, the set and the calls of listeners. *)
Abbreviation vres A := (option (result verr A * vdrSet * list vcall)).

Definition set_Add (nodeID : list Z) (pk : PK) (txID : list Z) (weight : Z) (s : vdrSet) : vres () :=
  match vs_vdrs s !! nodeID with
  | Some _ => Some (Err errDuplicateValidator, s, [])
  | None =>
      let p := fresh (dom (vs_objs s)) in
      let vdr := mkValidator nodeID pk txID weight (length (vdrSlice s)) in
      let s := mkVdrSet (subnetID s) (<[p := vdr]> (vs_objs s)) (<[nodeID := p]> (vs_vdrs s))
                 (vdrSlice s ++ [p]) (weights s ++ [weight]) (totalWeight s + weight) false
                 (managerCallbackListeners s) (setCallbackListeners s) in
      Some (Ok (), s, callCallbacks (OnValidatorAdded nodeID pk txID weight) s)
  end.

(** [s.weights[i] = w] *)
Definition set_weights (i : nat) (w : Z) (l : list Z) : option (list Z) :=
  if bool_decide (i < length l) then Some (<[i := w]> l) else None.

Definition set_AddWeight (nodeID : list Z) (weight : Z) (s : vdrSet) : vres () :=
  match vs_vdrs s !! nodeID with
  | None => Some (Err errMissingValidator, s, [])
  | Some p =>
      vdr ← vs_objs s !! p;
      let oldWeight := v_Weight vdr in
      match Add 64 oldWeight weight with
      | Err e => Some (Err (VMath e), s, [])
      | Ok newWeight =>
          ws ← set_weights (v_index vdr) newWeight (weights s);
          let s := mkVdrSet (subnetID s) (<[p := set_Weight newWeight vdr]> (vs_objs s)) (vs_vdrs s)
                     (vdrSlice s) ws (totalWeight s + weight) false
                     (managerCallbackListeners s) (setCallbackListeners s) in
          Some (Ok (), s, callCallbacks (OnValidatorWeightChanged nodeID oldWeight newWeight) s)
      end
  end.

(** A validator behind a pointer of the map. *)
Definition set_Get (nodeID : list Z) (s : vdrSet) : option (option Validator) :=
  match vs_vdrs s !! nodeID with
  | None => Some None
  | Some p => vdr ← vs_objs s !! p; Some (Some vdr)
  end.

Definition set_GetWeight (nodeID : list Z) (s : vdrSet) : option Z :=
  vdr ← set_Get nodeID s; Some (match vdr with Some vdr => v_Weight vdr | None => 0%Z end).

(** [subset] in the order in which the set is visited. *)
Fixpoint SubsetWeight_loop (subset : list (list Z)) (total : Z) (s : vdrSet) : option (result verr Z) :=
  match subset with
  | [] => Some (Ok total)
  | nodeID :: rest =>
      w ← set_GetWeight nodeID s;
      match Add 64 total w with
      | Err e => Some (Err (VMath e))
      | Ok total => SubsetWeight_loop rest total s
      end
  end.
Definition set_SubsetWeight (subset : list (list Z)) (s : vdrSet) : option (result verr Z) :=
  SubsetWeight_loop subset 0 s.

Definition set_RemoveWeight (nodeID : list Z) (weight : Z) (s : vdrSet) : vres () :=
  match vs_vdrs s !! nodeID with
  | None => Some (Err errMissingValidator, s, [])
  | Some p =>
      vdr ← vs_objs s !! p;
      let oldWeight := v_Weight vdr in
      match Sub 64 oldWeight weight with
      | Err e => Some (Err (VMath e), s, [])
      | Ok newWeight =>
          if bool_decide (newWeight = 0%Z) then
            let lastIndex := length (vdrSlice s) - 1 in
            q ← vdrSlice s !! lastIndex;
            vdrToSwap ← vs_objs s !! q;
            let objs := <[q := set_index (v_index vdr) vdrToSwap]> (vs_objs s) in
            ws ← set_weights (v_index vdr) (v_Weight vdrToSwap) (weights s);
            (* reslicing is bounded by the capacity, which is at least the length *)
            if bool_decide (v_index vdr < length (vdrSlice s) ∧ lastIndex ≤ length ws) then
              let s' := mkVdrSet (subnetID s) objs (delete nodeID (vs_vdrs s))
                          (take lastIndex (<[v_index vdr := q]> (vdrSlice s))) (take lastIndex ws)
                          (totalWeight s - weight) false
                          (managerCallbackListeners s) (setCallbackListeners s) in
              Some (Ok (), s', callCallbacks (OnValidatorRemoved nodeID oldWeight) s')
            else None
          else
            ws ← set_weights (v_index vdr) newWeight (weights s);
            let s' := mkVdrSet (subnetID s) (<[p := set_Weight newWeight vdr]> (vs_objs s)) (vs_vdrs s)
                        (vdrSlice s) ws (totalWeight s - weight) false
                        (managerCallbackListeners s) (setCallbackListeners s) in
            Some (Ok (), s', callCallbacks (OnValidatorWeightChanged nodeID oldWeight newWeight) s')
      end
  end.

Definition set_Len (s : vdrSet) : nat := length (vdrSlice s).
Definition HasCallbackRegistered (s : vdrSet) : bool := bool_decide (0 < length (setCallbackListeners s)).

(** The validators of the slice. *)
Definition slice_vdrs (s : vdrSet) : option (list Validator) := mapM (λ p, vs_objs s !! p) (vdrSlice s).

Record GetValidatorOutput := mkOutput { o_NodeID : list Z; o_PublicKey : PK; o_Weight : Z }.
Definition output_of (v : Validator) : GetValidatorOutput :=
  mkOutput (v_NodeID v) (v_PublicKey v) (v_Weight v).

Definition set_Map (s : vdrSet) : option (gmap (list Z) GetValidatorOutput) :=
  vs ← slice_vdrs s;
  Some (foldl (λ m v, <[v_NodeID v := output_of v]> m) ∅ vs).
Definition set_GetValidatorIDs (s : vdrSet) : option (list (list Z)) :=
  vs ← slice_vdrs s; Some (map v_NodeID vs).

(** [sample] is marked as not implemented in the source: it returns [size] zero node IDs,
    and [make] panics on a negative size. *)
Definition set_Sample (size : Z) : option (list (list Z)) :=
  if bool_decide (size < 0)%Z then None else Some (replicate (Z.to_nat size) (replicate 20 0%Z)).

Definition set_TotalWeight (s : vdrSet) : result verr Z :=
  if bool_decide (0 ≤ totalWeight s < 2 ^ 64)%Z then Ok (totalWeight s) else Err errTotalWeightNotUint64.

Definition added_events (vs : list Validator) : list vevent :=
  (λ v, OnValidatorAdded (v_NodeID v) (v_PublicKey v) (v_TxID v) (v_Weight v)) <$> vs.

Definition RegisterManagerCallbackListener (l : nat) (s : vdrSet) : option (vdrSet * list vcall) :=
  vs ← slice_vdrs s;
  Some (mkVdrSet (subnetID s) (vs_objs s) (vs_vdrs s) (vdrSlice s) (weights s) (totalWeight s)
          (samplerInitialized s) (managerCallbackListeners s ++ [l]) (setCallbackListeners s),
        mkCall l (Some (subnetID s)) <$> added_events vs).
Definition set_RegisterCallbackListener (l : nat) (s : vdrSet) : option (vdrSet * list vcall) :=
  vs ← slice_vdrs s;
  Some (mkVdrSet (subnetID s) (vs_objs s) (vs_vdrs s) (vdrSlice s) (weights s) (totalWeight s)
          (samplerInitialized s) (managerCallbackListeners s) (setCallbackListeners s ++ [l]),
        mkCall l None <$> added_events vs).

(** ** manager.go *)

Record manager := mkManager {
  subnetToVdrs : gmap (list Z) vdrSet;
  callbackListeners : list nat;
}.

Definition NewManager : manager := mkManager ∅ [].

Abbreviation mres A := (option (result verr A * manager * list vcall)).

Definition put_set (subnet : list Z) (s : vdrSet) (m : manager) : manager :=
  mkManager (<[subnet := s]> (subnetToVdrs m)) (callbackListeners m).

Definition set_or_new (subnet : list Z) (m : manager) : vdrSet :=
  default (newSet subnet (callbackListeners m)) (subnetToVdrs m !! subnet).

Definition AddStaker (subnet nodeID : list Z) (pk : PK) (txID : list Z) (weight : Z) (m : manager) : mres () :=
  if bool_decide (weight = 0%Z) then Some (Err ErrZeroWeight, m, [])
  else
    '(r, s, calls) ← set_Add nodeID pk txID weight (set_or_new subnet m);
    Some (r, put_set subnet s m, calls).

Definition AddWeight (subnet nodeID : list Z) (weight : Z) (m : manager) : mres () :=
  if bool_decide (weight = 0%Z) then Some (Err ErrZeroWeight, m, [])
  else match subnetToVdrs m !! subnet with
  | None => Some (Err errMissingValidator, m, [])
  | Some s =>
      '(r, s, calls) ← set_AddWeight nodeID weight s;
      Some (r, put_set subnet s m, calls)
  end.

Definition RemoveWeight (subnet nodeID : list Z) (weight : Z) (m : manager) : mres () :=
  if bool_decide (weight = 0%Z) then Some (Err ErrZeroWeight, m, [])
  else match subnetToVdrs m !! subnet with
  | None => Some (Err errMissingValidator, m, [])
  | Some s =>
      '(r, s, calls) ← set_RemoveWeight nodeID weight s;
      match r with
      | Err e => Some (Err e, put_set subnet s m, calls)
      | Ok _ =>
          if bool_decide (set_Len s = 0) && negb (HasCallbackRegistered s)
          then Some (Ok (), mkManager (delete subnet (subnetToVdrs m)) (callbackListeners m), calls)
          else Some (Ok (), put_set subnet s m, calls)
      end
  end.

(** The queries give a fixed answer for a subnet without a set. *)
Definition with_set {A} (subnet : list Z) (dflt : A) (f : vdrSet → option A) (m : manager) : option A :=
  match subnetToVdrs m !! subnet with None => Some dflt | Some s => f s end.

Definition GetWeight (subnet nodeID : list Z) : manager → option Z :=
  with_set subnet 0%Z (set_GetWeight nodeID).
Definition GetValidator (subnet nodeID : list Z) : manager → option (option Validator) :=
  with_set subnet None (set_Get nodeID).
Definition SubsetWeight (subnet : list Z) (validatorIDs : list (list Z)) : manager → option (result verr Z) :=
  with_set subnet (Ok 0%Z) (set_SubsetWeight validatorIDs).
Definition NumValidators (subnet : list Z) : manager → option nat :=
  with_set subnet 0 (λ s, Some (set_Len s)).
Definition TotalWeight (subnet : list Z) : manager → option (result verr Z) :=
  with_set subnet (Ok 0%Z) (λ s, Some (set_TotalWeight s)).
Definition GetMap (subnet : list Z) : manager → option (gmap (list Z) GetValidatorOutput) :=
  with_set subnet ∅ set_Map.
Definition GetValidatorIDs (subnet : list Z) : manager → option (list (list Z)) :=
  with_set subnet [] set_GetValidatorIDs.
Definition NumSubnets (m : manager) : nat := size (subnetToVdrs m).

Definition Manager_Sample (subnet : list Z) (size : Z) (m : manager) : option (result verr (list (list Z))) :=
  if bool_decide (size = 0%Z) then Some (Ok [])
  else with_set subnet (Err ErrMissingValidators) (λ _, Ok <$> set_Sample size) m.

(** [order]: the subnets as the map iteration visits them. *)
Fixpoint register_loop (l : nat) (order : list (list Z)) (sets : gmap (list Z) vdrSet) :
    option (gmap (list Z) vdrSet * list vcall) :=
  match order with
  | [] => Some (sets, [])
  | subnet :: rest =>
      s ← sets !! subnet;
      '(s, calls) ← RegisterManagerCallbackListener l s;
      '(sets, calls') ← register_loop l rest (<[subnet := s]> sets);
      Some (sets, calls ++ calls')
  end.
Definition RegisterCallbackListener (l : nat) (order : list (list Z)) (m : manager) : option (manager * list vcall) :=
  '(sets, calls) ← register_loop l order (subnetToVdrs m);
  Some (mkManager sets (callbackListeners m ++ [l]), calls).

Definition RegisterSetCallbackListener (subnet : list Z) (l : nat) (m : manager) : option (manager * list vcall) :=
  '(s, calls) ← set_RegisterCallbackListener l (set_or_new subnet m);
  Some (put_set subnet s m, calls).
End vdrs.
Arguments Validator : clear implicits.
Arguments vdrSet : clear implicits.
Arguments manager : clear implicits.
Arguments vevent : clear implicits.
Arguments vcall : clear implicits.
Arguments GetValidatorOutput : clear implicits.
