(* ===== verification/VdrManagerProps.v ===== *)
(** * Correctness of the validator sets and their manager

    A well-formed set ([set_wf]) keeps its heap objects, map, slice, weights and total in
    step.  Its contents are a map from nodes to key, transaction and weight; the
    operations act on that map as a plain reference does. *)

From S2P Require Import Prelude SafeMath VdrManager.

(** ** Removal by swapping with the last element *)

Lemma swap_delete {A} (l : list A) i z :
  i < length l → l !! (length l - 1) = Some z →
  take (length l - 1) (<[i := z]> l) ≡ₚ delete i l.
Proof.
  destruct l as [|y l _] using rev_ind; [simpl; lia|].
  rewrite length_app. simpl. intros Hi Hz.
  replace (length l + 1 - 1) with (length l) in * by lia.
  rewrite lookup_app_r, Nat.sub_diag in Hz by lia. simplify_eq/=.
  destruct (decide (i = length l)) as [->|Hne].
  - rewrite insert_app_r_alt, Nat.sub_diag by lia. simpl.
    rewrite take_app_length, delete_take_drop, take_app_length.
    rewrite drop_ge by (rewrite length_app; simpl; lia). by rewrite app_nil_r.
  - rewrite insert_app_l by lia.
    rewrite take_app_le, take_ge by (rewrite length_insert; lia).
    rewrite insert_take_drop by lia.
    rewrite delete_take_drop, take_app_le, drop_app_le by lia.
    rewrite <-Permutation_middle, app_assoc. by rewrite <-Permutation_cons_append.
Qed.

(** ** Reading a slice of pointers after a change of the heap *)

Lemma mapM_frame {A B} (f g : A → option B) l k :
  mapM f l = Some k → (∀ x, x ∈ l → g x = f x) → mapM g l = Some k.
Proof.
  rewrite !mapM_Some. induction 1 as [|x y l k Hxy _ IH]; intros Hfg; constructor.
  - rewrite Hfg; [done|by left].
  - apply IH. intros z Hz. apply Hfg. by right.
Qed.

Lemma mapM_store {B} (h : gmap nat B) l k i p b :
  NoDup l → mapM (λ p, h !! p) l = Some k → l !! i = Some p →
  mapM (λ q, <[p := b]> h !! q) l = Some (<[i := b]> k).
Proof.
  rewrite !mapM_Some. intros Hnd Hk. revert i.
  induction Hk as [|q y l k Hqy Hk IH]; intros [|i] Hi; simplify_eq/=.
  - constructor; [by rewrite lookup_insert_eq|]. apply NoDup_cons in Hnd as [Hp _].
    apply mapM_Some. apply (mapM_frame (λ q, h !! q)); [by apply mapM_Some|].
    intros z Hz. apply lookup_insert_ne. by intros ->.
  - apply NoDup_cons in Hnd as [Hq Hnd]. constructor; [|by apply IH].
    rewrite lookup_insert_ne; [done|]. intros ->. apply Hq. by eapply list_elem_of_lookup_2.
Qed.

Section props.
Context {PK : Type}.
Implicit Types (s : vdrSet PK) (v : Validator PK) (vs : list (Validator PK)).

(** ** The contents of a set *)

Abbreviation entry := (PK * list Z * Z)%type.
Abbreviation rset := (gmap (list Z) entry).

Definition strip v : list Z * entry := (v_NodeID v, (v_PublicKey v, v_TxID v, v_Weight v)).
Definition contents vs : rset := list_to_map (strip <$> vs).

Record set_wf s vs : Prop := {
  wf_slice : slice_vdrs s = Some vs;
  wf_weights : weights s = v_Weight <$> vs;
  wf_index : ∀ i v, vs !! i = Some v → v_index v = i;
  wf_map : ∀ n p, vs_vdrs s !! n = Some p ↔
             ∃ i v, vdrSlice s !! i = Some p ∧ vs !! i = Some v ∧ v_NodeID v = n;
  wf_nodes : NoDup (v_NodeID <$> vs);
  wf_ptrs : NoDup (vdrSlice s);
  wf_total : totalWeight s = sumZ (weights s);
  wf_range : Forall (λ v, 0 < v_Weight v < 2 ^ 64)%Z vs;
}.

Lemma wf_lookup s vs i v : set_wf s vs → vs !! i = Some v →
  ∃ p, vdrSlice s !! i = Some p ∧ vs_objs s !! p = Some v ∧ vs_vdrs s !! v_NodeID v = Some p.
Proof.
  intros H Hv. pose proof (wf_slice _ _ H) as Hs.
  apply mapM_Some in Hs. destruct (Forall2_lookup_r _ _ _ _ _ Hs Hv) as (p & Hp & Ho).
  exists p. split_and!; [done..|]. apply (wf_map _ _ H). eauto.
Qed.

Lemma wf_find s vs n p : set_wf s vs → vs_vdrs s !! n = Some p →
  ∃ i v, vdrSlice s !! i = Some p ∧ vs !! i = Some v ∧ v_NodeID v = n ∧
         vs_objs s !! p = Some v ∧ v_index v = i.
Proof.
  intros H Hn. destruct (proj1 (wf_map _ _ H n p) Hn) as (i & v & Hp & Hv & E).
  destruct (wf_lookup _ _ _ _ H Hv) as (p' & Hp' & Ho & _). simplify_eq.
  exists i, v. split_and!; eauto using wf_index.
Qed.

Lemma wf_length s vs : set_wf s vs → length (vdrSlice s) = length vs.
Proof. intros H. eapply Forall2_length, mapM_Some, (wf_slice _ _ H). Qed.

Lemma contents_lookup vs n e : NoDup (v_NodeID <$> vs) →
  contents vs !! n = Some e ↔ ∃ i v, vs !! i = Some v ∧ strip v = (n, e).
Proof.
  intros Hnd. unfold contents.
  assert (Hnd' : NoDup (strip <$> vs).*1) by by rewrite <-list_fmap_compose.
  rewrite <-(elem_of_list_to_map (M := gmap (list Z)) _ _ _ Hnd').
  rewrite list_elem_of_fmap. setoid_rewrite list_elem_of_lookup. naive_solver.
Qed.

Lemma contents_wf s vs n : set_wf s vs →
  contents vs !! n = None ↔ vs_vdrs s !! n = None.
Proof.
  intros H. rewrite !eq_None_not_Some. apply not_iff_compat. split.
  - intros [e He]. apply contents_lookup in He as (i & v & Hv & E); [|apply H].
    destruct (wf_lookup _ _ _ _ H Hv) as (p & _ & _ & Hp). unfold strip in E. simplify_eq. eauto.
  - intros [p Hp]. destruct (wf_find _ _ _ _ H Hp) as (i & v & _ & Hv & E & _).
    eexists. apply contents_lookup; [apply H|]. exists i, v. unfold strip. by rewrite E.
Qed.

Lemma wf_newSet subnet ls : set_wf (newSet subnet ls) [].
Proof.
  split; try done; try constructor; cbn.
  - intros Hp. by rewrite lookup_empty in Hp.
  - intros (i & v & ? & ?). done.
Qed.

(** ** The reference: operations on the contents

    Each gives its result, the new contents and what listeners are told. *)

Definition r_Add (n : list Z) (pk : PK) (tx : list Z) (w : Z) (r : rset) :
    result verr () * rset * list (vevent PK) :=
  match r !! n with
  | Some _ => (Err errDuplicateValidator, r, [])
  | None => (Ok (), <[n := (pk, tx, w)]> r, [OnValidatorAdded n pk tx w])
  end.

Definition r_AddWeight (n : list Z) (w : Z) (r : rset) : result verr () * rset * list (vevent PK) :=
  match r !! n with
  | None => (Err errMissingValidator, r, [])
  | Some (pk, tx, old) =>
      if bool_decide (old + w < 2 ^ 64)%Z
      then (Ok (), <[n := (pk, tx, old + w)%Z]> r, [OnValidatorWeightChanged n old (old + w)])
      else (Err (VMath ErrOverflow), r, [])
  end.

Definition r_RemoveWeight (n : list Z) (w : Z) (r : rset) : result verr () * rset * list (vevent PK) :=
  match r !! n with
  | None => (Err errMissingValidator, r, [])
  | Some (pk, tx, old) =>
      if bool_decide (w < old)%Z
      then (Ok (), <[n := (pk, tx, old - w)%Z]> r, [OnValidatorWeightChanged n old (old - w)])
      else if bool_decide (w = old) then (Ok (), delete n r, [OnValidatorRemoved n old])
      else (Err (VMath ErrUnderflow), r, [])
  end.

Definition same_frame s s' : Prop :=
  subnetID s' = subnetID s ∧ managerCallbackListeners s' = managerCallbackListeners s ∧
  setCallbackListeners s' = setCallbackListeners s.

(** A set operation does what the reference does, without a panic. *)
Definition simulates s (out : option (result verr () * vdrSet PK * list (vcall PK)))
    (rout : result verr () * rset * list (vevent PK)) : Prop :=
  ∃ s' vs', out = Some (rout.1.1, s', rout.2 ≫= λ e, callCallbacks e s) ∧
    set_wf s' vs' ∧ contents vs' = rout.1.2 ∧ same_frame s s'.

Lemma contents_node s vs n p : set_wf s vs → vs_vdrs s !! n = Some p →
  ∃ i v, vdrSlice s !! i = Some p ∧ vs !! i = Some v ∧ v_NodeID v = n ∧ vs_objs s !! p = Some v ∧
    v_index v = i ∧ contents vs !! n = Some (v_PublicKey v, v_TxID v, v_Weight v) ∧
    (0 < v_Weight v < 2 ^ 64)%Z.
Proof.
  intros H Hn. destruct (wf_find _ _ _ _ H Hn) as (i & v & ? & Hv & <- & ? & ?).
  exists i, v. split_and!; try done.
  - apply contents_lookup; [apply H|]. by exists i, v.
  - apply (Forall_lookup_1 _ _ _ _ (wf_range _ _ H) Hv).
  - apply (Forall_lookup_1 _ _ _ _ (wf_range _ _ H) Hv).
Qed.

Lemma wf_not_in s vs n : set_wf s vs → vs_vdrs s !! n = None → n ∉ v_NodeID <$> vs.
Proof.
  intros H Hn (v & -> & [i Hv]%list_elem_of_lookup)%list_elem_of_fmap.
  destruct (wf_lookup _ _ _ _ H Hv) as (p & _ & _ & Hp). by rewrite Hn in Hp.
Qed.

Lemma wf_map_snoc s vs n p v n' p' : set_wf s vs → vs_vdrs s !! n = None → v_NodeID v = n →
  <[n := p]> (vs_vdrs s) !! n' = Some p' ↔
  ∃ i v', (vdrSlice s ++ [p]) !! i = Some p' ∧ (vs ++ [v]) !! i = Some v' ∧ v_NodeID v' = n'.
Proof.
  intros H Hn E. pose proof (wf_length _ _ H) as Hlen. rewrite lookup_insert_Some, (wf_map _ _ H). split.
  - intros [[<- <-]|[Hne (i & v' & Hp & Hv & En)]].
    + exists (length vs), v. rewrite <-Hlen at 1. by rewrite !list_lookup_middle.
    + exists i, v'. split_and!; [by apply lookup_app_l_Some..|done].
  - intros (i & v' & Hp & Hv & En). destruct (decide (i < length vs)) as [Hi|Hi].
    + rewrite lookup_app_l in Hp by lia. rewrite lookup_app_l in Hv by lia. right. split; [|eauto].
      intros ->. apply (wf_not_in _ _ _ H Hn). apply list_elem_of_fmap. exists v'.
      split; [done|]. by eapply list_elem_of_lookup_2.
    + rewrite lookup_app_r in Hp by lia. rewrite lookup_app_r in Hv by lia. rewrite Hlen in Hp.
      destruct (i - length vs); simplify_eq/=. by left.
Qed.

Lemma set_Add_simulates s vs n pk tx w : set_wf s vs → (0 < w < 2 ^ 64)%Z →
  simulates s (set_Add n pk tx w s) (r_Add n pk tx w (contents vs)).
Proof.
  intros H Hw. unfold simulates, set_Add, r_Add.
  destruct (vs_vdrs s !! n) as [p|] eqn:Hn.
  { destruct (contents_node _ _ _ _ H Hn) as (i & v & _ & _ & _ & _ & _ & -> & _).
    by exists s, vs. }
  rewrite (proj2 (contents_wf _ _ n H) Hn). cbn.
  set (p := fresh _). assert (Hp : p ∉ dom (vs_objs s)) by apply is_fresh.
  set (v := mkValidator n pk tx w _). rewrite app_nil_r.
  pose proof (wf_length _ _ H) as Hlen.
  assert (Hfresh : p ∉ vdrSlice s).
  { intros [i Hi]%list_elem_of_lookup. apply Hp.
    destruct (lookup_lt_is_Some_2 vs i) as [v' Hv']; [rewrite <-Hlen; by eapply lookup_lt_Some|].
    destruct (wf_lookup _ _ _ _ H Hv') as (p' & ? & Ho & _). simplify_eq. by apply elem_of_dom_2 in Ho. }
  eexists _, (vs ++ [v]). split; [reflexivity|]. split; [|split; [|done]].
  - split; cbn.
    + unfold slice_vdrs. cbn. apply mapM_Some, Forall2_app; [|by repeat constructor; rewrite lookup_insert_eq].
      apply mapM_Some. eapply mapM_frame; [apply (wf_slice _ _ H)|].
      intros q Hq. apply lookup_insert_ne. by intros <-.
    + by rewrite (wf_weights _ _ H), fmap_app.
    + intros i v' [Hv'|[Hi Hv']]%lookup_app_Some; [by eapply wf_index|].
      destruct (i - length vs) eqn:E; simplify_eq/=. lia.
    + intros n' p'. by apply wf_map_snoc.
    + rewrite fmap_app. apply NoDup_app. split_and!; [apply H| |apply NoDup_singleton].
      intros x Hx ->%list_elem_of_singleton. by apply (wf_not_in _ _ _ H Hn).
    + apply NoDup_app. split_and!; [apply H| |apply NoDup_singleton].
      by intros x Hx ->%list_elem_of_singleton.
    + rewrite sumZ_app, (wf_total _ _ H). simpl. lia.
    + apply Forall_app. split; [apply H|]. by apply Forall_singleton.
  - unfold contents. rewrite fmap_app. change (strip <$> [v]) with [(n, (pk, tx, w))].
    rewrite list_to_map_snoc; [done|].
    rewrite <-list_fmap_compose. by apply (wf_not_in _ _ _ H Hn).
Qed.

(** A new weight [w] for the validator at [i], as both weight changes write it. *)
Definition reweigh i p v w total s : vdrSet PK :=
  mkVdrSet (subnetID s) (<[p := set_Weight w v]> (vs_objs s)) (vs_vdrs s) (vdrSlice s)
    (<[i := w]> (weights s)) total false (managerCallbackListeners s) (setCallbackListeners s).

Lemma reweigh_wf s vs i p v w total :
  set_wf s vs → vdrSlice s !! i = Some p → vs !! i = Some v → (0 < w < 2 ^ 64)%Z →
  total = (totalWeight s + w - v_Weight v)%Z →
  set_wf (reweigh i p v w total s) (<[i := set_Weight w v]> vs).
Proof.
  intros H Hp Hv Hw ->. split; cbn.
  - by apply mapM_store; [apply H|apply H|].
  - by rewrite list_fmap_insert, (wf_weights _ _ H).
  - intros j u [(<- & <- & _)|[_ Hu]]%list_lookup_insert_Some; [|by eapply wf_index].
    by apply (wf_index _ _ H _ _ Hv).
  - intros n q. rewrite (wf_map _ _ H). split; intros (j & u & Hq & Hu & En).
    + destruct (decide (i = j)) as [<-|Hne]; simplify_eq.
      * exists i, (set_Weight w v). rewrite list_lookup_insert_eq by (by eapply lookup_lt_Some). done.
      * exists j, u. by rewrite list_lookup_insert_ne.
    + apply list_lookup_insert_Some in Hu as [(<- & <- & _)|[_ Hu]]; eauto.
  - rewrite list_fmap_insert. cbn. rewrite list_insert_id; [apply H|]. by rewrite list_lookup_fmap, Hv.
  - apply H.
  - rewrite (sumZ_insert _ _ (v_Weight v)), (wf_total _ _ H); [lia|].
    by rewrite (wf_weights _ _ H), list_lookup_fmap, Hv.
  - apply Forall_insert; [apply H|done].
Qed.

Lemma reweigh_contents vs i v w : NoDup (v_NodeID <$> vs) → vs !! i = Some v →
  contents (<[i := set_Weight w v]> vs) = <[v_NodeID v := (v_PublicKey v, v_TxID v, w)]> (contents vs).
Proof.
  intros Hnd Hv. unfold contents. rewrite list_fmap_insert.
  assert (Hs : (strip <$> vs) !! i = Some (strip v)) by by rewrite list_lookup_fmap, Hv.
  rewrite <-(take_drop_middle _ _ _ Hs) at 2.
  rewrite insert_take_drop by (by eapply lookup_lt_Some).
  assert (Hnd' : NoDup (strip <$> vs).*1) by by rewrite <-list_fmap_compose.
  rewrite <-(take_drop_middle _ _ _ Hs), fmap_app in Hnd'. cbn in Hnd'.
  apply NoDup_app in Hnd' as (_ & Hdis & _).
  rewrite !list_to_map_app. cbn. rewrite <-insert_union_r.
  - rewrite <-insert_union_r; [by rewrite insert_insert_eq|].
    apply not_elem_of_list_to_map_1. intros Hin. apply (Hdis _ Hin). by left.
  - apply not_elem_of_list_to_map_1. intros Hin. apply (Hdis _ Hin). by left.
Qed.

(** The validator at [i] replaced by the last one, [vl] behind [q]. *)
Definition unlink i q vl n total s : vdrSet PK :=
  mkVdrSet (subnetID s) (<[q := set_index i vl]> (vs_objs s)) (delete n (vs_vdrs s))
    (take (length (vdrSlice s) - 1) (<[i := q]> (vdrSlice s)))
    (take (length (vdrSlice s) - 1) (<[i := v_Weight vl]> (weights s)))
    total false (managerCallbackListeners s) (setCallbackListeners s).
Definition unlinked i vl vs : list (Validator PK) := take (length vs - 1) (<[i := set_index i vl]> vs).

Lemma unlinked_lookup i vl vs j u : vs !! (length vs - 1) = Some vl → i < length vs →
  unlinked i vl vs !! j = Some u ↔
  j < length vs - 1 ∧ (j = i ∧ u = set_index i vl ∨ j ≠ i ∧ vs !! j = Some u).
Proof.
  intros Hl Hi. unfold unlinked. rewrite lookup_take_Some, list_lookup_insert_Some. naive_solver.
Qed.

Lemma unlinked_fmap {B} (f : Validator PK → B) i vl vs :
  (∀ k u, f (set_index k u) = f u) → vs !! (length vs - 1) = Some vl → i < length vs →
  f <$> unlinked i vl vs ≡ₚ delete i (f <$> vs).
Proof.
  intros Hf Hl Hi. unfold unlinked. rewrite fmap_take, list_fmap_insert, Hf.
  rewrite <-(length_fmap f vs). apply swap_delete; rewrite !length_fmap; [done|].
  by rewrite list_lookup_fmap, Hl.
Qed.

Lemma unlink_slice s vs i q vl n total :
  set_wf s vs → vdrSlice s !! (length vs - 1) = Some q → vs !! (length vs - 1) = Some vl →
  i < length vs → slice_vdrs (unlink i q vl n total s) = Some (unlinked i vl vs).
Proof.
  intros H Hq Hl Hi. unfold slice_vdrs, unlinked. cbn. rewrite (wf_length _ _ H).
  pose proof (mapM_store _ _ _ _ _ (set_index i vl) (wf_ptrs _ _ H) (wf_slice _ _ H) Hq) as Hm.
  apply mapM_Some in Hm. apply mapM_Some.
  replace (take _ (<[i := set_index i vl]> vs))
    with (take (length vs - 1) (<[i := set_index i vl]> (<[length vs - 1 := set_index i vl]> vs))).
  - apply Forall2_take, Forall2_insert; [done|]. by rewrite lookup_insert_eq.
  - destruct (decide (i = length vs - 1)) as [->|Hne]; [by rewrite list_insert_insert_eq|].
    rewrite list_insert_insert_ne by done. by rewrite take_insert_ge by lia.
Qed.

Lemma unlink_map s vs i p q v vl n' p' :
  set_wf s vs → vdrSlice s !! i = Some p → vs !! i = Some v →
  vdrSlice s !! (length vs - 1) = Some q → vs !! (length vs - 1) = Some vl →
  delete (v_NodeID v) (vs_vdrs s) !! n' = Some p' ↔
  ∃ j u, take (length vs - 1) (<[i := q]> (vdrSlice s)) !! j = Some p' ∧
         unlinked i vl vs !! j = Some u ∧ v_NodeID u = n'.
Proof.
  intros H Hp Hv Hq Hl. pose proof (wf_length _ _ H) as Hlen.
  assert (Hi : i < length vs) by by eapply lookup_lt_Some.
  assert (Huniq : ∀ j u, vs !! j = Some u → v_NodeID u = v_NodeID v → j = i).
  { intros j u Hu E. eapply (NoDup_lookup _ _ _ (v_NodeID v) (wf_nodes _ _ H)).
    - by rewrite list_lookup_fmap, Hu, <-E.
    - by rewrite list_lookup_fmap, Hv. }
  rewrite lookup_delete_Some, (wf_map _ _ H).
  setoid_rewrite (unlinked_lookup _ _ _ _ _ Hl Hi).
  setoid_rewrite lookup_take_Some. setoid_rewrite list_lookup_insert_Some. split.
  - intros [Hne (j & u & Hj & Hu & <-)]. assert (j < length vs) by by eapply lookup_lt_Some.
    assert (j ≠ i) by (intros ->; simplify_eq).
    destruct (decide (j = length vs - 1)) as [->|?]; simplify_eq.
    + exists i, (set_index i vl). split_and!; [left|lia|lia|left|]; auto with lia.
    + exists j, u. split_and!; [right|lia|lia|right|]; auto.
  - intros (j & u & [Hj Hlt] & [_ [[-> ->]|[Hji Hu]]] & <-).
    + destruct Hj as [(_ & <- & _)|[? _]]; [|done]. split; [|by exists (length vs - 1), vl].
      intros E. apply eq_sym, (Huniq _ _ Hl) in E. lia.
    + destruct Hj as [(? & _)|[_ Hj]]; [done|]. split; [|by exists j, u].
      intros E. by apply eq_sym, (Huniq _ _ Hu) in E.
Qed.

Lemma unlink_wf s vs i p q v vl :
  set_wf s vs → vdrSlice s !! i = Some p → vs !! i = Some v →
  vdrSlice s !! (length vs - 1) = Some q → vs !! (length vs - 1) = Some vl →
  set_wf (unlink i q vl (v_NodeID v) (totalWeight s - v_Weight v) s) (unlinked i vl vs).
Proof.
  intros H Hp Hv Hq Hl. pose proof (wf_length _ _ H) as Hlen.
  assert (Hi : i < length vs) by by eapply lookup_lt_Some.
  assert (Hw : take (length (vdrSlice s) - 1) (<[i := v_Weight vl]> (weights s)) =
               v_Weight <$> unlinked i vl vs).
  { unfold unlinked. by rewrite fmap_take, list_fmap_insert, Hlen, (wf_weights _ _ H). }
  split; cbn [unlink weights vs_vdrs vdrSlice totalWeight].
  - by apply unlink_slice.
  - done.
  - intros j u Hu. apply (unlinked_lookup _ _ _ _ _ Hl Hi) in Hu as [_ [[-> ->]|[_ Hu]]]; [done|].
    by eapply wf_index.
  - intros n' p'. rewrite Hlen. by eapply unlink_map.
  - rewrite unlinked_fmap by done. eapply sublist_NoDup; [apply H|apply sublist_delete].
  - rewrite swap_delete by (rewrite ?Hlen; done). eapply sublist_NoDup; [apply H|apply sublist_delete].
  - rewrite Hw, (sumZ_perm _ _ (unlinked_fmap v_Weight _ _ _ (λ _ _, eq_refl) Hl Hi)).
    rewrite (sumZ_delete _ _ (v_Weight v)) by by rewrite list_lookup_fmap, Hv.
    by rewrite (wf_total _ _ H), (wf_weights _ _ H).
  - apply Forall_take, Forall_insert; [apply H|]. apply (Forall_lookup_1 _ _ _ _ (wf_range _ _ H) Hl).
Qed.

Lemma unlinked_contents i v vl vs :
  NoDup (v_NodeID <$> vs) → vs !! i = Some v → vs !! (length vs - 1) = Some vl →
  contents (unlinked i vl vs) = delete (v_NodeID v) (contents vs).
Proof.
  intros Hnd Hv Hl. assert (Hi : i < length vs) by by eapply lookup_lt_Some.
  assert (Hs : (strip <$> vs) !! i = Some (strip v)) by by rewrite list_lookup_fmap, Hv.
  assert (Hnd' : NoDup (strip <$> vs).*1) by by rewrite <-list_fmap_compose.
  pose proof (delete_Permutation _ _ _ Hs) as Hperm.
  pose proof Hnd' as Hcons. rewrite Hperm in Hcons. cbn in Hcons. apply NoDup_cons in Hcons as [Hn Hd].
  unfold contents. rewrite (list_to_map_proper (strip <$> vs) (strip v :: delete i (strip <$> vs))) by done.
  rewrite (list_to_map_proper (strip <$> unlinked i vl vs) (delete i (strip <$> vs))).
  - cbn. rewrite delete_insert_id; [done|]. by apply not_elem_of_list_to_map_1.
  - by rewrite unlinked_fmap.
  - by apply unlinked_fmap.
Qed.

Lemma set_AddWeight_simulates s vs n w : set_wf s vs → (0 < w < 2 ^ 64)%Z →
  simulates s (set_AddWeight n w s) (r_AddWeight n w (contents vs)).
Proof.
  intros H Hw. unfold simulates, set_AddWeight, r_AddWeight.
  destruct (vs_vdrs s !! n) as [p|] eqn:Hn.
  2: { rewrite (proj2 (contents_wf _ _ n H) Hn). by exists s, vs. }
  destruct (contents_node _ _ _ _ H Hn) as (i & v & Hp & Hv & <- & Ho & Hix & Hc & Hr).
  rewrite Hc, Ho. cbn [mbind option_bind]. rewrite Add_spec by (unfold inU; lia).
  destruct (decide (v_Weight v + w < 2 ^ 64)%Z) as [Hlt|Hge].
  - rewrite !bool_decide_eq_true_2 by (unfold inU; lia). unfold set_weights. rewrite Hix.
    rewrite bool_decide_eq_true_2 by (rewrite (wf_weights _ _ H), length_fmap; by eapply lookup_lt_Some).
    eexists (reweigh i p v (v_Weight v + w) (totalWeight s + w) s), _.
    split; [cbn; by rewrite app_nil_r|]. split; [by apply (reweigh_wf s vs); auto with lia|].
    split; [by apply reweigh_contents; [apply H|]|done].
  - rewrite !bool_decide_eq_false_2 by (unfold inU; lia). by exists s, vs.
Qed.

Lemma set_RemoveWeight_simulates s vs n w : set_wf s vs → (0 < w < 2 ^ 64)%Z →
  simulates s (set_RemoveWeight n w s) (r_RemoveWeight n w (contents vs)).
Proof.
  intros H Hw. unfold simulates, set_RemoveWeight, r_RemoveWeight.
  destruct (vs_vdrs s !! n) as [p|] eqn:Hn.
  2: { rewrite (proj2 (contents_wf _ _ n H) Hn). by exists s, vs. }
  destruct (contents_node _ _ _ _ H Hn) as (i & v & Hp & Hv & <- & Ho & Hix & Hc & Hr).
  pose proof (wf_length _ _ H) as Hlen. assert (Hi : i < length vs) by by eapply lookup_lt_Some.
  assert (Hwl : length (weights s) = length vs) by by rewrite (wf_weights _ _ H), length_fmap.
  rewrite Hc, Ho. cbn [mbind option_bind]. rewrite Sub_spec by (unfold inU; lia).
  unfold set_weights. rewrite Hix, Hwl, (bool_decide_eq_true_2 (i < length vs)) by done.
  destruct (Z.lt_trichotomy w (v_Weight v)) as [Hlt|[->|Hgt]].
  - rewrite (bool_decide_eq_true_2 (w <= v_Weight v)%Z) by lia.
    rewrite (bool_decide_eq_false_2 (_ = 0)%Z), (bool_decide_eq_true_2 (w < _)%Z) by lia.
    eexists (reweigh i p v (v_Weight v - w) (totalWeight s - w) s), _.
    split; [cbn; by rewrite app_nil_r|]. split; [by apply (reweigh_wf s vs); auto with lia|].
    split; [by apply reweigh_contents; [apply H|]|done].
  - destruct (lookup_lt_is_Some_2 vs (length vs - 1)) as [vl Hl]; [lia|].
    destruct (wf_lookup _ _ _ _ H Hl) as (q & Hq & Hoq & _).
    rewrite (bool_decide_eq_true_2 (v_Weight v <= v_Weight v)%Z) by lia.
    rewrite (bool_decide_eq_false_2 (v_Weight v < v_Weight v)%Z) by lia.
    rewrite (bool_decide_eq_true_2 (_ - _ = 0)%Z), (bool_decide_eq_true_2 (v_Weight v = v_Weight v)) by lia.
    rewrite Hlen, Hq. cbn [mbind option_bind]. rewrite Hoq. cbn [mbind option_bind].
    rewrite bool_decide_eq_true_2 by (rewrite length_insert; lia).
    eexists (unlink i q vl (v_NodeID v) (totalWeight s - v_Weight v) s), _.
    split; [unfold unlink; rewrite Hlen; cbn; by rewrite app_nil_r|].
    split; [by eapply unlink_wf|]. split; [by apply unlinked_contents; [apply H|..]|done].
  - rewrite (bool_decide_eq_false_2 (w <= v_Weight v)%Z), (bool_decide_eq_false_2 (w < _)%Z) by lia.
    rewrite (bool_decide_eq_false_2 (w = _)) by lia. by exists s, vs.
Qed.
End props.
