(* ===== verification/VdrManagerTheorems.v ===== *)
(** * The manager of validator sets against its reference

    The reference of a manager is a map from subnets to contents.  [vreach] runs the
    manager and the reference side by side and collects the calls of listeners. *)

From S2P Require Import Prelude SafeMath VdrManager VdrManagerProps.

Section manager.
Context {PK : Type}.
Abbreviation rset := (gmap (list Z) (PK * list Z * Z)).
Abbreviation rmgr := (gmap (list Z) rset).
Implicit Types (m : manager PK) (r : rmgr) (log : list (vcall PK)).

Inductive vop :=
| OpAddStaker (subnet nodeID : list Z) (pk : PK) (txID : list Z) (weight : Z)
| OpAddWeight (subnet nodeID : list Z) (weight : Z)
| OpRemoveWeight (subnet nodeID : list Z) (weight : Z)
| OpRegister (l : nat) (order : list (list Z))
| OpRegisterSet (subnet : list Z) (l : nat).

Definition exec (op : vop) m : option (result verr () * manager PK * list (vcall PK)) :=
  match op with
  | OpAddStaker subnet n pk tx w => AddStaker subnet n pk tx w m
  | OpAddWeight subnet n w => AddWeight subnet n w m
  | OpRemoveWeight subnet n w => RemoveWeight subnet n w m
  | OpRegister l order => '(m', calls) ← RegisterCallbackListener l order m; Some (Ok (), m', calls)
  | OpRegisterSet subnet l => '(m', calls) ← RegisterSetCallbackListener subnet l m; Some (Ok (), m', calls)
  end.

(** Weights are uint64; a map iteration visits every subnet once. *)
Definition op_ok (op : vop) m : Prop :=
  match op with
  | OpAddStaker _ _ _ _ w | OpAddWeight _ _ w | OpRemoveWeight _ _ w => (0 ≤ w < 2 ^ 64)%Z
  | OpRegister _ order => order ≡ₚ (map_to_list (subnetToVdrs m)).*1
  | OpRegisterSet _ _ => True
  end.

Definition rget (subnet : list Z) r : rset := default ∅ (r !! subnet).

Definition r_on (subnet : list Z) (w : Z) (f : rset → result verr () * rset * list (vevent PK)) r :
    result verr () * rmgr :=
  if bool_decide (w = 0%Z) then (Err ErrZeroWeight, r)
  else let out := f (rget subnet r) in (out.1.1, <[subnet := out.1.2]> r).

Definition rexec (op : vop) r : result verr () * rmgr :=
  match op with
  | OpAddStaker subnet n pk tx w => r_on subnet w (r_Add n pk tx w) r
  | OpAddWeight subnet n w => r_on subnet w (r_AddWeight n w) r
  | OpRemoveWeight subnet n w => r_on subnet w (r_RemoveWeight n w) r
  | OpRegister _ _ | OpRegisterSet _ _ => (Ok (), r)
  end.

Inductive vreach : manager PK → rmgr → list (vcall PK) → Prop :=
| vreach_new : vreach NewManager ∅ []
| vreach_step op m r log res m' calls :
    vreach m r log → op_ok op m → exec op m = Some (res, m', calls) →
    vreach m' (rexec op r).2 (log ++ calls).

(** What a listener that keeps a copy of the subnet's validators holds after its calls. *)
Definition replay1 (c : rset) (e : vevent PK) : rset :=
  match e with
  | OnValidatorAdded n pk tx w => <[n := (pk, tx, w)]> c
  | OnValidatorRemoved n _ => delete n c
  | OnValidatorWeightChanged n _ w => alter (λ e, (e.1, w)) n c
  end.
Definition told (l : nat) (subnet : option (list Z)) log : list (vevent PK) :=
  vc_event <$> filter (λ c, vc_listener c = l ∧ vc_subnet c = subnet) log.
Definition replay (l : nat) (subnet : option (list Z)) log : rset := foldl replay1 ∅ (told l subnet log).

(** ** The invariant of a run *)

Record set_ok m r (subnet : list Z) (s : vdrSet PK) : Prop := {
  ok_id : subnetID s = subnet;
  ok_listeners : managerCallbackListeners s = callbackListeners m;
  ok_wf : ∃ vs, set_wf s vs ∧ contents vs = rget subnet r;
  ok_kept : rget subnet r ≠ ∅ ∨ setCallbackListeners s ≠ [];
}.

Definition mgr_ok m r : Prop :=
  (∀ subnet s, subnetToVdrs m !! subnet = Some s → set_ok m r subnet s) ∧
  (∀ subnet, subnetToVdrs m !! subnet = None → rget subnet r = ∅).

Definition log_ok m r log : Prop :=
  ∀ l subnet, replay l (Some subnet) log = if bool_decide (l ∈ callbackListeners m) then rget subnet r else ∅.

(** ** What listeners hold after a call *)

Lemma replay1_idem c e : replay1 (replay1 c e) e = replay1 c e.
Proof.
  destruct e as [| |n old w]; cbn; [by rewrite insert_insert_eq|by rewrite delete_delete_eq|].
  apply map_eq. intros k. destruct (decide (k = n)) as [->|Hk].
  - rewrite !lookup_alter_eq. by destruct (c !! n).
  - by rewrite !lookup_alter_ne.
Qed.

Lemma told_app l subnet log log' : told l subnet (log ++ log') = told l subnet log ++ told l subnet log'.
Proof. unfold told. by rewrite filter_app, fmap_app. Qed.

Lemma told_callbacks l subnet e (s : vdrSet PK) c : subnetID s = subnet →
  foldl replay1 c (told l (Some subnet) (callCallbacks e s)) =
  if bool_decide (l ∈ managerCallbackListeners s) then replay1 c e else c.
Proof.
  intros <-. unfold callCallbacks. rewrite told_app.
  assert (Hset : told l (Some (subnetID s)) ((λ l, mkCall l None e) <$> setCallbackListeners s) = []).
  { unfold told. induction (setCallbackListeners s) as [|k ks IH]; [done|].
    rewrite fmap_cons, filter_cons_False; [done|]. by intros [_ ?]. }
  rewrite Hset, app_nil_r. clear Hset. revert c.
  induction (managerCallbackListeners s) as [|k ks IH]; intros c; [done|].
  unfold told in *. rewrite fmap_cons. destruct (decide (k = l)) as [->|Hne].
  - rewrite filter_cons_True, fmap_cons by done. cbn [foldl vc_event]. rewrite IH, replay1_idem.
    rewrite (bool_decide_eq_true_2 (l ∈ l :: ks)) by by left. by case_bool_decide.
  - rewrite filter_cons_False by (cbn; naive_solver). rewrite IH.
    erewrite bool_decide_ext; [done|]. rewrite elem_of_cons. naive_solver.
Qed.

Lemma told_other l subnet e (s : vdrSet PK) : subnetID s ≠ subnet →
  told l (Some subnet) (callCallbacks e s) = [].
Proof.
  intros Hne. unfold told, callCallbacks. rewrite filter_app, fmap_app.
  induction (managerCallbackListeners s) as [|k ks IH].
  - rewrite fmap_nil, filter_nil, fmap_nil, app_nil_l. induction (setCallbackListeners s) as [|k ks IH]; [done|].
    rewrite fmap_cons, filter_cons_False; [done|]. by intros [_ ?].
  - rewrite fmap_cons, filter_cons_False; [done|]. cbn. naive_solver.
Qed.

Lemma told_events l subnet es (s : vdrSet PK) c :
  foldl replay1 c (told l (Some subnet) (es ≫= λ e, callCallbacks e s)) =
  if bool_decide (subnetID s = subnet ∧ l ∈ managerCallbackListeners s) then foldl replay1 c es else c.
Proof.
  revert c. induction es as [|e es IH]; intros c; [by cbn; case_bool_decide|].
  rewrite bind_cons, told_app, foldl_app, IH. destruct (decide (subnetID s = subnet)) as [E|E].
  - rewrite told_callbacks by done. repeat case_bool_decide; naive_solver.
  - rewrite told_other by done. cbn [foldl]. by rewrite !bool_decide_eq_false_2 by naive_solver.
Qed.

Lemma replay_reference (c : rset) n w :
  (∀ pk tx, foldl replay1 c (r_Add n pk tx w c).2 = (r_Add n pk tx w c).1.2) ∧
  foldl replay1 c (r_AddWeight n w c).2 = (r_AddWeight n w c).1.2 ∧
  foldl replay1 c (r_RemoveWeight n w c).2 = (r_RemoveWeight n w c).1.2.
Proof.
  unfold r_Add, r_AddWeight, r_RemoveWeight.
  destruct (c !! n) as [[[pk' tx'] old]|] eqn:E; [|done].
  assert (Ha : ∀ w', alter (λ e, (e.1, w')) n c = <[n := (pk', tx', w')]> c).
  { intros w'. apply map_eq. intros k. destruct (decide (k = n)) as [->|Hk].
    - by rewrite lookup_alter_eq, lookup_insert_eq, E.
    - by rewrite lookup_alter_ne, lookup_insert_ne. }
  split_and!; [done| |]; repeat case_bool_decide; cbn; by rewrite ?Ha.
Qed.

(** ** The invariant across one changed set *)

Lemma rget_insert (subnet subnet' : list Z) (c : rset) r :
  rget subnet' (<[subnet := c]> r) = if bool_decide (subnet = subnet') then c else rget subnet' r.
Proof.
  unfold rget. case_bool_decide as E; [subst; by rewrite lookup_insert_eq|].
  by rewrite lookup_insert_ne.
Qed.

Lemma contents_empty (vs : list (Validator PK)) : contents vs = ∅ ↔ vs = [].
Proof. split; [|by intros ->]. destruct vs; [done|]. intros H. by destruct (insert_non_empty _ _ _ H). Qed.

Lemma mgr_put m r subnet s' vs c :
  mgr_ok m r → subnetID s' = subnet → managerCallbackListeners s' = callbackListeners m →
  set_wf s' vs → contents vs = c → c ≠ ∅ ∨ setCallbackListeners s' ≠ [] →
  mgr_ok (put_set subnet s' m) (<[subnet := c]> r).
Proof.
  intros [Hs Hn] Hid Hl Hwf Hc Hk. split; cbn; intros subnet' s.
  - rewrite lookup_insert_Some. intros [[<- <-]|[Hne H]].
    + split; [done..| |]; rewrite rget_insert, bool_decide_eq_true_2 by done; eauto.
    + destruct (Hs _ _ H) as [? ? ? ?].
      split; [done..| |]; rewrite rget_insert, bool_decide_eq_false_2 by done; eauto.
  - apply lookup_insert_None in s as [H Hne]. rewrite rget_insert, bool_decide_eq_false_2 by done. auto.
Qed.

Lemma mgr_drop m r subnet :
  mgr_ok m r → mgr_ok (mkManager (delete subnet (subnetToVdrs m)) (callbackListeners m)) (<[subnet := ∅]> r).
Proof.
  intros [Hs Hn]. split; cbn; [intros subnet' s [Hne H]%lookup_delete_Some|intros subnet' s].
  - destruct (Hs _ _ H) as [? ? ? ?].
    split; [done..| |]; rewrite rget_insert, bool_decide_eq_false_2 by done; eauto.
  - rewrite rget_insert. case_bool_decide; [done|]. apply Hn.
    apply lookup_delete_None in s as [?|?]; done.
Qed.

Lemma log_put m m' r log subnet es (s : vdrSet PK) c :
  log_ok m r log → callbackListeners m' = callbackListeners m →
  subnetID s = subnet → managerCallbackListeners s = callbackListeners m →
  foldl replay1 (rget subnet r) es = c →
  log_ok m' (<[subnet := c]> r) (log ++ (es ≫= λ e, callCallbacks e s)).
Proof.
  intros Hlog Hm Hid Hl Hc l subnet'. unfold replay. rewrite told_app, foldl_app, told_events.
  specialize (Hlog l subnet'). unfold replay in Hlog. rewrite Hlog, Hm, Hl, Hid, rget_insert.
  repeat case_bool_decide; naive_solver.
Qed.

(** ** One operation *)

Definition step_ok (op : vop) m r : Prop :=
  ∃ m' calls, exec op m = Some ((rexec op r).1, m', calls) ∧ mgr_ok m' (rexec op r).2 ∧
    ∀ log, log_ok m r log → log_ok m' (rexec op r).2 (log ++ calls).

Lemma mgr_ok_ext m r r' : (∀ subnet, rget subnet r' = rget subnet r) → mgr_ok m r → mgr_ok m r'.
Proof.
  intros E [Hs Hn]. split; intros subnet; [intros s H|intros H; rewrite E; auto].
  destruct (Hs _ _ H) as [? ? ? ?]. split; try rewrite E; done.
Qed.

Lemma step_unchanged op m r res :
  exec op m = Some (res, m, []) → (rexec op r).1 = res →
  (∀ subnet, rget subnet (rexec op r).2 = rget subnet r) → mgr_ok m r → step_ok op m r.
Proof.
  intros He Hr E Hm. exists m, []. rewrite Hr. split_and!; [done|by eapply mgr_ok_ext|].
  intros log Hlog l subnet. by rewrite app_nil_r, Hlog, E.
Qed.

Lemma rget_same r (subnet subnet' : list Z) :
  rget subnet' (<[subnet := rget subnet r]> r) = rget subnet' r.
Proof. rewrite rget_insert. case_bool_decide; by subst. Qed.

Lemma set_or_new_ok m r subnet : mgr_ok m r →
  ∃ vs, set_wf (set_or_new subnet m) vs ∧ contents vs = rget subnet r ∧
    subnetID (set_or_new subnet m) = subnet ∧
    managerCallbackListeners (set_or_new subnet m) = callbackListeners m.
Proof.
  intros [Hs Hn]. unfold set_or_new. destruct (subnetToVdrs m !! subnet) as [s|] eqn:E; cbn.
  - destruct (Hs _ _ E) as [? ? (vs & ? & ?) _]. by exists vs.
  - exists []. rewrite (Hn _ E). split_and!; [apply wf_newSet|done..].
Qed.

Lemma AddStaker_step subnet n pk tx w m r : mgr_ok m r → (0 ≤ w < 2 ^ 64)%Z →
  step_ok (OpAddStaker subnet n pk tx w) m r.
Proof.
  intros Hm Hw. destruct (decide (w = 0%Z)) as [->|Hz].
  { by eapply step_unchanged. }
  destruct (set_or_new_ok m r subnet Hm) as (vs & Hwf & Hc & Hid & Hl).
  destruct (set_Add_simulates _ _ n pk tx w Hwf) as (s' & vs' & E & Hwf' & Hc' & ? & Hf & ?); [lia|].
  rewrite Hc in E, Hc'. unfold step_ok, rexec, r_on. cbn [exec]. unfold AddStaker.
  rewrite !(bool_decide_eq_false_2 (w = 0%Z)) by done. rewrite E. cbn [mbind option_bind fst snd].
  eexists _, _. split; [done|]. split.
  - eapply mgr_put; [done|congruence|congruence|done|done|]. left.
    unfold r_Add. destruct (rget subnet r !! n) eqn:En; cbn; [|apply insert_non_empty].
    intros He. by rewrite He, lookup_empty in En.
  - intros log Hlog. eapply log_put; [done|done|done|done|]. apply replay_reference.
Qed.

Lemma AddWeight_step subnet n w m r : mgr_ok m r → (0 ≤ w < 2 ^ 64)%Z → step_ok (OpAddWeight subnet n w) m r.
Proof.
  intros Hm Hw. destruct (decide (w = 0%Z)) as [->|Hz]; [by eapply step_unchanged|].
  destruct (subnetToVdrs m !! subnet) as [s|] eqn:Es.
  2: { eapply step_unchanged; [|..|done]; cbn [exec rexec]; unfold AddWeight, r_on, r_AddWeight;
       rewrite (bool_decide_eq_false_2 (w = 0%Z)), ?Es, ?(proj2 Hm _ Es), ?lookup_empty by done; [done..|].
       intros subnet'. cbn [fst snd]. rewrite <-(proj2 Hm _ Es). apply rget_same. }
  destruct (proj1 Hm _ _ Es) as [Hid Hl (vs & Hwf & Hc) Hk].
  destruct (set_AddWeight_simulates _ _ n w Hwf) as (s' & vs' & E & Hwf' & Hc' & ? & ? & Hsl); [lia|].
  rewrite Hc in E, Hc'. unfold step_ok, rexec, r_on. cbn [exec]. unfold AddWeight.
  rewrite !(bool_decide_eq_false_2 (w = 0%Z)) by done. rewrite Es, E. cbn [mbind option_bind fst snd].
  eexists _, _. split; [done|]. split.
  - eapply mgr_put; [done|congruence|congruence|done|done|]. rewrite Hsl. unfold r_AddWeight.
    destruct (_ !! n) as [[[] ?]|]; [case_bool_decide|]; cbn; first [exact Hk|left; apply insert_non_empty].
  - intros log Hlog. eapply log_put; [done|done|done|done|]. by apply (replay_reference _ n).
Qed.

Lemma RemoveWeight_step subnet n w m r : mgr_ok m r → (0 ≤ w < 2 ^ 64)%Z → step_ok (OpRemoveWeight subnet n w) m r.
Proof.
  intros Hm Hw. destruct (decide (w = 0%Z)) as [->|Hz]; [by eapply step_unchanged|].
  destruct (subnetToVdrs m !! subnet) as [s|] eqn:Es.
  2: { eapply step_unchanged; [|..|done]; cbn [exec rexec]; unfold RemoveWeight, r_on, r_RemoveWeight;
       rewrite (bool_decide_eq_false_2 (w = 0%Z)), ?Es, ?(proj2 Hm _ Es), ?lookup_empty by done; [done..|].
       intros subnet'. cbn [fst snd]. rewrite <-(proj2 Hm _ Es). apply rget_same. }
  destruct (proj1 Hm _ _ Es) as [Hid Hl (vs & Hwf & Hc) Hk].
  destruct (set_RemoveWeight_simulates _ _ n w Hwf) as (s' & vs' & E & Hwf' & Hc' & ? & ? & Hsl); [lia|].
  rewrite Hc in E, Hc'. unfold step_ok, rexec, r_on. cbn [exec]. unfold RemoveWeight.
  rewrite !(bool_decide_eq_false_2 (w = 0%Z)) by done. rewrite Es, E. cbn [mbind option_bind fst snd].
  assert (Hlog : ∀ m' log, callbackListeners m' = callbackListeners m → log_ok m r log →
    log_ok m' (<[subnet := (r_RemoveWeight n w (rget subnet r)).1.2]> r)
      (log ++ ((r_RemoveWeight n w (rget subnet r)).2 ≫= λ e, callCallbacks e s))).
  { intros m' log Hml Hlog. eapply log_put; [done..|]. by apply (replay_reference _ n). }
  destruct (r_RemoveWeight n w (rget subnet r)).1.1 as [[]|e] eqn:Er.
  - unfold set_Len, HasCallbackRegistered. rewrite (wf_length _ _ Hwf').
    destruct (decide (length vs' = 0 ∧ setCallbackListeners s' = [])) as [[Hv Hs]|Hkeep].
    + rewrite Hv, Hs. cbn. eexists _, _. split; [done|]. split; [|by intros; apply Hlog].
      rewrite <-Hc', (proj2 (contents_empty vs')) by by apply nil_length_inv. by apply mgr_drop.
    + exists (put_set subnet s' m). eexists. split; [|split; [|by intros; apply Hlog]].
      * destruct (bool_decide (length vs' = 0)) eqn:E0; [|done]. apply bool_decide_eq_true in E0.
        destruct (setCallbackListeners s'); [naive_solver|done].
      * eapply mgr_put; [done|congruence|congruence|done|done|]. rewrite <-Hc', contents_empty.
        destruct vs'; [right|by left]. naive_solver.
  - eexists _, _. split; [done|]. split; [|by intros; apply Hlog].
    eapply mgr_put; [done|congruence|congruence|done|done|]. rewrite Hsl. revert Er. unfold r_RemoveWeight.
    destruct (_ !! n) as [[[] ?]|]; [repeat case_bool_decide|]; cbn; first [done|by intros _; exact Hk].
Qed.

(** ** Registration *)

Definition add_manager_listener (l : nat) (s : vdrSet PK) : vdrSet PK :=
  mkVdrSet (subnetID s) (vs_objs s) (vs_vdrs s) (vdrSlice s) (weights s) (totalWeight s)
    (samplerInitialized s) (managerCallbackListeners s ++ [l]) (setCallbackListeners s).

Lemma told_registered l l' subnet subnet' (es : list (vevent PK)) :
  told l' (Some subnet') (mkCall l (Some subnet) <$> es) =
  if bool_decide (l' = l ∧ subnet' = subnet) then es else [].
Proof.
  unfold told. induction es as [|e es IH]; [by case_bool_decide|]. rewrite fmap_cons.
  case_bool_decide as Hd.
  - destruct Hd as [-> ->]. rewrite filter_cons_True, fmap_cons by done. by rewrite IH.
  - rewrite filter_cons_False by (cbn; naive_solver). done.
Qed.

Lemma register_loop_spec l order sets :
  NoDup order → (∀ subnet, subnet ∈ order → is_Some (sets !! subnet)) →
  (∀ subnet s, sets !! subnet = Some s → subnetID s = subnet ∧ ∃ vs, slice_vdrs s = Some vs) →
  ∃ sets' calls, register_loop l order sets = Some (sets', calls) ∧
    (∀ subnet, sets' !! subnet =
       if bool_decide (subnet ∈ order) then add_manager_listener l <$> (sets !! subnet) else sets !! subnet) ∧
    (∀ l' subnet, told l' (Some subnet) calls =
       if bool_decide (l' = l ∧ subnet ∈ order)
       then added_events (default [] (sets !! subnet ≫= slice_vdrs)) else []).
Proof.
  intros Hnd. revert sets. induction Hnd as [|subnet order Hni Hnd IH]; intros sets Hin Hok.
  { exists sets, []. split_and!; [done|done|]. intros. by case_bool_decide; [set_solver|]. }
  destruct (Hin subnet) as [s Hs]; [by left|]. destruct (Hok _ _ Hs) as [Hid [vs Hvs]].
  destruct (IH (<[subnet := add_manager_listener l s]> sets)) as (sets' & calls & E & Hl & Ht).
  - intros k Hk. rewrite lookup_insert_is_Some. destruct (decide (subnet = k)); [by left|right].
    split; [done|]. apply Hin. by right.
  - intros k s'. rewrite lookup_insert_Some. intros [[<- <-]|[_ Hk]]; [|by apply Hok].
    split; [done|]. by exists vs.
  - cbn. rewrite Hs. cbn. unfold RegisterManagerCallbackListener. rewrite Hvs.
    cbn [mbind option_bind]. fold (add_manager_listener l s). rewrite E. cbn [mbind option_bind].
    eexists _, _. split; [done|]. split.
    + intros k. rewrite Hl. destruct (decide (k = subnet)) as [->|Hne].
      * rewrite bool_decide_eq_false_2, bool_decide_eq_true_2, lookup_insert_eq, Hs by (done || by left). done.
      * rewrite lookup_insert_ne by done. erewrite bool_decide_ext; [done|]. set_solver.
    + intros l' k. rewrite told_app, told_registered, Ht, Hid. destruct (decide (k = subnet)) as [->|Hne].
      * rewrite (bool_decide_eq_false_2 (_ ∧ subnet ∈ order)), app_nil_r, Hs by naive_solver. cbn. rewrite Hvs.
        erewrite bool_decide_ext; [done|]. set_solver.
      * rewrite bool_decide_eq_false_2, app_nil_l, lookup_insert_ne by naive_solver.
        erewrite bool_decide_ext; [done|]. set_solver.
Qed.

Lemma replay_added (vs : list (Validator PK)) c : NoDup (v_NodeID <$> vs) →
  foldl replay1 c (added_events vs) = contents vs ∪ c.
Proof.
  revert c. induction vs as [|v vs IH]; intros c.
  { intros _. unfold contents. cbn. by rewrite (left_id_L ∅ (∪)). }
  rewrite fmap_cons. intros [Hni Hnd]%NoDup_cons. unfold contents. cbn.
  fold (added_events vs). rewrite IH by done. unfold contents.
  rewrite <-insert_union_l. symmetry. apply insert_union_r, not_elem_of_list_to_map_1.
  by rewrite <-list_fmap_compose.
Qed.

Lemma same_data_wf (s s' : vdrSet PK) vs :
  vs_objs s' = vs_objs s → vs_vdrs s' = vs_vdrs s → vdrSlice s' = vdrSlice s →
  weights s' = weights s → totalWeight s' = totalWeight s → set_wf s vs → set_wf s' vs.
Proof.
  intros Ho Hv Hs Hw Ht [? ? ? ? ? ? ? ?]. unfold slice_vdrs in *.
  split; unfold slice_vdrs; rewrite ?Ho, ?Hv, ?Hs, ?Ht, ?Hw; done.
Qed.

Lemma Register_step l order m r : mgr_ok m r → order ≡ₚ (map_to_list (subnetToVdrs m)).*1 →
  step_ok (OpRegister l order) m r.
Proof.
  intros [Hs Hn] Hord.
  assert (Hdom : ∀ subnet, subnet ∈ order ↔ is_Some (subnetToVdrs m !! subnet)).
  { intros subnet. rewrite Hord. split.
    - intros ([k s'] & -> & Hk%elem_of_map_to_list)%list_elem_of_fmap. by eexists.
    - intros [s' Hk]. apply list_elem_of_fmap. exists (subnet, s'). by rewrite elem_of_map_to_list. }
  destruct (register_loop_spec l order (subnetToVdrs m)) as (sets' & calls & E & Hl & Ht).
  { rewrite Hord. apply NoDup_fst_map_to_list. }
  { intros subnet. apply Hdom. }
  { intros subnet s H. destruct (Hs _ _ H) as [? _ (vs & Hwf & _) _]. split; [done|]. exists vs. apply Hwf. }
  unfold step_ok. cbn [exec rexec]. unfold RegisterCallbackListener. rewrite E. cbn [mbind option_bind fst snd].
  eexists _, _. split; [done|]. split.
  - split; cbn; intros subnet; rewrite Hl.
    + intros s'. case_bool_decide as Hin; [|by intros H; destruct Hin; apply Hdom; exists s'].
      intros (s & H & ->)%fmap_Some. destruct (Hs _ _ H) as [? Hls (vs & Hwf & ?) ?].
      split; cbn; [done|by rewrite Hls| |done]. exists vs. split; [by apply (same_data_wf s)|done].
    + case_bool_decide as Hin; [intros H%fmap_None; by apply Hn|by apply Hn].
  - intros log Hlog l' subnet. unfold replay. rewrite told_app, foldl_app, Ht.
    specialize (Hlog l' subnet). unfold replay in Hlog. rewrite Hlog. clear Hlog. cbn [callbackListeners].
    rewrite (bool_decide_ext (l' ∈ callbackListeners m ++ [l]) (l' ∈ callbackListeners m ∨ l' = l)) by set_solver.
    destruct (subnetToVdrs m !! subnet) as [s|] eqn:Es.
    + destruct (Hs _ _ Es) as [_ _ (vs & Hwf & <-) _]. cbn [mbind option_bind].
      rewrite (wf_slice _ _ Hwf). cbn [default from_option id].
      destruct (decide (l' = l)) as [->|Hne].
      * rewrite (bool_decide_eq_true_2 (l = l ∧ _)) by (split; [done|]; apply Hdom; by eexists).
        rewrite replay_added by apply Hwf. rewrite (bool_decide_eq_true_2 (_ ∨ _)) by by right.
        case_bool_decide; [by rewrite (idemp_L (∪))|by rewrite (right_id_L ∅ (∪))].
      * rewrite (bool_decide_eq_false_2 (l' = l ∧ _)) by naive_solver.
        repeat case_bool_decide; naive_solver.
    + rewrite (Hn _ Es). repeat case_bool_decide; naive_solver.
Qed.

Lemma RegisterSet_step subnet l m r : mgr_ok m r → step_ok (OpRegisterSet subnet l) m r.
Proof.
  intros Hm. destruct (set_or_new_ok m r subnet Hm) as (vs & Hwf & Hc & Hid & Hl).
  unfold step_ok. cbn [exec rexec]. unfold RegisterSetCallbackListener, set_RegisterCallbackListener.
  rewrite (wf_slice _ _ Hwf). cbn [mbind option_bind fst snd]. eexists _, _. split; [done|]. split.
  - eapply mgr_ok_ext; [|eapply (mgr_put m r subnet _ vs (rget subnet r))]; cbn; try done.
    + intros k. by rewrite rget_same.
    + by apply (same_data_wf (set_or_new subnet m)).
    + right. by destruct (setCallbackListeners _).
  - intros log Hlog l' k. unfold replay. rewrite told_app, foldl_app.
    replace (told l' (Some k) (mkCall l None <$> added_events vs)) with (@nil (vevent PK)); [by apply Hlog|].
    unfold told. induction (added_events vs) as [|e es IH]; [done|].
    rewrite fmap_cons, filter_cons_False; [done|]. cbn. naive_solver.
Qed.

Lemma exec_step op m r : mgr_ok m r → op_ok op m → step_ok op m r.
Proof.
  destruct op; cbn; eauto using AddStaker_step, AddWeight_step, RemoveWeight_step, Register_step, RegisterSet_step.
Qed.

Lemma vreach_ok m r log : vreach m r log → mgr_ok m r ∧ log_ok m r log.
Proof.
  induction 1 as [|op m r log res m' calls _ [Hm Hlog] Hop He].
  - split; [split; cbn; intros subnet|].
    + intros s H. by rewrite lookup_empty in H.
    + done.
    + intros l subnet. cbn. by case_bool_decide.
  - destruct (exec_step _ _ _ Hm Hop) as (m2 & calls2 & He2 & Hm2 & Hl2). rewrite He in He2. simplify_eq.
    auto.
Qed.

(** ** The queries *)

Definition weight_in (c : rset) (n : list Z) : Z := match c !! n with Some e => e.2 | None => 0%Z end.
Definition rtotal (c : rset) : Z := sumZ ((λ p, p.2.2) <$> map_to_list c).
Definition u64_or (e : verr) (z : Z) : result verr Z := if bool_decide (z < 2 ^ 64)%Z then Ok z else Err e.

Lemma contents_list (vs : list (Validator PK)) : NoDup (v_NodeID <$> vs) →
  map_to_list (contents vs) ≡ₚ strip <$> vs.
Proof. intros Hnd. apply map_to_list_to_map. by rewrite <-list_fmap_compose. Qed.

Lemma rtotal_contents (vs : list (Validator PK)) : NoDup (v_NodeID <$> vs) →
  rtotal (contents vs) = sumZ (v_Weight <$> vs).
Proof.
  intros Hnd. unfold rtotal. rewrite (sumZ_perm _ ((λ p, p.2.2) <$> (strip <$> vs))).
  - by rewrite <-list_fmap_compose.
  - by rewrite contents_list.
Qed.

Lemma set_Get_contents (s : vdrSet PK) vs n : set_wf s vs →
  ∃ ov, set_Get n s = Some ov ∧ strip <$> ov = pair n <$> contents vs !! n.
Proof.
  intros H. unfold set_Get. destruct (vs_vdrs s !! n) as [p|] eqn:Hn.
  - destruct (contents_node _ _ _ _ H Hn) as (i & v & _ & _ & <- & -> & _ & -> & _). by exists (Some v).
  - rewrite (proj2 (contents_wf _ _ n H) Hn). by exists None.
Qed.

Lemma set_GetWeight_contents (s : vdrSet PK) vs n : set_wf s vs →
  set_GetWeight n s = Some (weight_in (contents vs) n) ∧ (0 ≤ weight_in (contents vs) n < 2 ^ 64)%Z.
Proof.
  intros H. unfold set_GetWeight, set_Get, weight_in. destruct (vs_vdrs s !! n) as [p|] eqn:Hn.
  - destruct (contents_node _ _ _ _ H Hn) as (i & v & _ & _ & _ & -> & _ & -> & ?). cbn. split; [done|lia].
  - rewrite (proj2 (contents_wf _ _ n H) Hn). cbn. split; [done|lia].
Qed.

Lemma SubsetWeight_contents (s : vdrSet PK) vs ids total : set_wf s vs → (0 ≤ total < 2 ^ 64)%Z →
  SubsetWeight_loop ids total s =
  Some (u64_or (VMath ErrOverflow) (total + sumZ (weight_in (contents vs) <$> ids))).
Proof.
  intros H. revert total. induction ids as [|n ids IH]; intros total Ht.
  - cbn. unfold u64_or. rewrite bool_decide_eq_true_2 by lia. do 2 f_equal. lia.
  - destruct (set_GetWeight_contents s vs n H) as [E Hr]. cbn [SubsetWeight_loop]. rewrite E.
    cbn [mbind option_bind]. rewrite Add_spec by (unfold inU; lia). rewrite fmap_cons. cbn [sumZ foldr].
    assert (Hnn : (0 ≤ sumZ (weight_in (contents vs) <$> ids))%Z).
    { apply sumZ_nonneg, Forall_fmap, Forall_true. intros k. apply (set_GetWeight_contents s vs k H). }
    case_bool_decide as Hd; unfold inU in Hd.
    + rewrite IH by lia. do 2 f_equal. unfold sumZ. lia.
    + unfold u64_or. rewrite bool_decide_eq_false_2; [done|]. unfold sumZ in *. cbn. lia.
Qed.

Lemma set_Map_contents (s : vdrSet PK) vs : set_wf s vs →
  set_Map s = Some (map_imap (λ n e, Some (mkOutput n e.1.1 e.2)) (contents vs)).
Proof.
  intros H. unfold set_Map. rewrite (wf_slice _ _ H). cbn [mbind option_bind]. f_equal.
  pose proof (wf_nodes _ _ H) as Hnd. clear H. induction vs as [|v vs IH] using rev_ind; [done|].
  rewrite fmap_app in Hnd. apply NoDup_app in Hnd as (Hnd & Hdis & _).
  rewrite foldl_app. cbn [foldl]. rewrite IH by done. unfold contents. rewrite fmap_app.
  change (strip <$> [v]) with [(v_NodeID v, (v_PublicKey v, v_TxID v, v_Weight v))].
  rewrite list_to_map_snoc, map_imap_insert; [done|].
  rewrite <-list_fmap_compose. intros Hin. apply (Hdis _ Hin). by left.
Qed.

Lemma with_set_ok {A} m r (subnet : list Z) (dflt : A) (f : vdrSet PK → option A) (P : option A → rset → Prop) :
  mgr_ok m r → P (Some dflt) ∅ → (∀ s vs, set_wf s vs → P (f s) (contents vs)) →
  P (with_set subnet dflt f m) (rget subnet r).
Proof.
  intros [Hs Hn] Hd Hf. unfold with_set. destruct (subnetToVdrs m !! subnet) as [s|] eqn:E.
  - destruct (Hs _ _ E) as [_ _ (vs & Hwf & <-) _]. by apply Hf.
  - by rewrite (Hn _ E).
Qed.

Lemma queries_ok m r subnet : mgr_ok m r → let c := rget subnet r in
  (∀ n, GetWeight subnet n m = Some (weight_in c n)) ∧
  (∀ n, ∃ ov, GetValidator subnet n m = Some ov ∧ strip <$> ov = pair n <$> c !! n) ∧
  (∀ ids, SubsetWeight subnet ids m = Some (u64_or (VMath ErrOverflow) (sumZ (weight_in c <$> ids)))) ∧
  NumValidators subnet m = Some (size c) ∧
  TotalWeight subnet m = Some (u64_or errTotalWeightNotUint64 (rtotal c)) ∧
  GetMap subnet m = Some (map_imap (λ n e, Some (mkOutput n e.1.1 e.2)) c) ∧
  ∃ ids, GetValidatorIDs subnet m = Some ids ∧ ids ≡ₚ (map_to_list c).*1.
Proof.
  intros Hm c. subst c. split_and!.
  - intros n. apply (with_set_ok _ _ _ _ _ (λ o c, o = Some (weight_in c n))); [done..|].
    intros. by apply set_GetWeight_contents.
  - intros n. apply (with_set_ok _ _ _ _ _ (λ o c, ∃ ov, o = Some ov ∧ strip <$> ov = pair n <$> c !! n));
      [done|by exists None|]. intros. by apply set_Get_contents.
  - intros ids. apply (with_set_ok _ _ _ _ _
      (λ o c, o = Some (u64_or (VMath ErrOverflow) (sumZ (weight_in c <$> ids))))); [done| |].
    + replace (sumZ _) with 0%Z; [done|]. induction ids as [|n ids IH]; [done|]. cbn. unfold sumZ in IH. by rewrite <-IH.
    + intros s vs Hwf. by apply (SubsetWeight_contents s vs ids 0).
  - apply (with_set_ok _ _ _ _ _ (λ o c, o = Some (size c))); [done..|]. intros s vs Hwf.
    unfold set_Len. rewrite (wf_length _ _ Hwf). rewrite <-length_map_to_list, contents_list by apply Hwf.
    by rewrite length_fmap.
  - apply (with_set_ok _ _ _ _ _ (λ o c, o = Some (u64_or errTotalWeightNotUint64 (rtotal c)))); [done..|].
    intros s vs Hwf. rewrite rtotal_contents by apply Hwf. unfold set_TotalWeight, u64_or.
    rewrite (wf_total _ _ Hwf), (wf_weights _ _ Hwf).
    assert (0 ≤ sumZ (v_Weight <$> vs))%Z.
    { apply sumZ_nonneg, Forall_fmap. eapply Forall_impl; [apply Hwf|]. cbn. lia. }
    repeat case_bool_decide; (done || lia).
  - apply (with_set_ok _ _ _ _ _ (λ o c, o = Some (map_imap (λ n e, Some (mkOutput n e.1.1 e.2)) c))); [done..|].
    intros. by apply set_Map_contents.
  - apply (with_set_ok _ _ _ _ _ (λ o c, ∃ ids, o = Some ids ∧ ids ≡ₚ (map_to_list c).*1));
      [done|by exists []|]. intros s vs Hwf. unfold set_GetValidatorIDs. rewrite (wf_slice _ _ Hwf).
    eexists. split; [done|]. by rewrite contents_list, <-list_fmap_compose by apply Hwf.
Qed.

(** C15: a manager of validator sets behaves as a map from subnets to validators.  After any
    sequence of operations from a new manager: every further operation returns, without a
    panic, exactly the reference's result, errors included; the weight and validator of a
    node, the weight of a subset, the number, total weight, map and IDs of the validators of
    every subnet are those of the reference, where the two sums give an error exactly when
    they do not fit in a uint64; and a subnet has a set only when it has a validator or a
    listener of its own. *)
Theorem vdr_manager_refines m r log :
  vreach m r log →
  (∀ op, op_ok op m → ∃ m' calls, exec op m = Some ((rexec op r).1, m', calls)) ∧
  (∀ subnet, let c := rget subnet r in
    (∀ n, GetWeight subnet n m = Some (weight_in c n)) ∧
    (∀ n, ∃ ov, GetValidator subnet n m = Some ov ∧ strip <$> ov = pair n <$> c !! n) ∧
    (∀ ids, SubsetWeight subnet ids m = Some (u64_or (VMath ErrOverflow) (sumZ (weight_in c <$> ids)))) ∧
    NumValidators subnet m = Some (size c) ∧
    TotalWeight subnet m = Some (u64_or errTotalWeightNotUint64 (rtotal c)) ∧
    GetMap subnet m = Some (map_imap (λ n e, Some (mkOutput n e.1.1 e.2)) c) ∧
    ∃ ids, GetValidatorIDs subnet m = Some ids ∧ ids ≡ₚ (map_to_list c).*1) ∧
  (∀ subnet s, subnetToVdrs m !! subnet = Some s → rget subnet r ≠ ∅ ∨ setCallbackListeners s ≠ []).
Proof.
  intros [Hm _]%vreach_ok. split_and!.
  - intros op Hop. destruct (exec_step _ _ _ Hm Hop) as (m' & calls & E & _). eauto.
  - intros subnet. by apply queries_ok.
  - intros subnet s E. apply (proj1 Hm _ _ E).
Qed.

(** C16: what a registered manager listener is told is enough to follow every validator set.
    After any sequence of operations, a listener that applies the calls it got for a subnet,
    in order, holds for every node the key, transaction and weight that [GetValidator]
    returns, and nothing else, also when it was registered late or more than once. *)
Theorem listeners_mirror_sets m r log l subnet n :
  vreach m r log → l ∈ callbackListeners m →
  ∃ ov, GetValidator subnet n m = Some ov ∧
        pair n <$> replay l (Some subnet) log !! n = strip <$> ov.
Proof.
  intros [Hm Hlog]%vreach_ok Hl. destruct (queries_ok m r subnet Hm) as (_ & Hg & _).
  destruct (Hg n) as (ov & E & Ho). exists ov. split; [done|].
  by rewrite Hlog, bool_decide_eq_true_2, Ho.
Qed.
End manager.

(** ** A concrete run

    Two validators are added to subnet [1]; listener 7 is registered; the first validator
    is removed, so that the second takes its place, and then gains weight. *)

Definition example_ops : list (vop (PK := Z)) :=
  [OpAddStaker [1] [2] 100 [9] 5; OpAddStaker [1] [3] 101 [9] 6; OpRegister 7 [[1]];
   OpRemoveWeight [1] [2] 5; OpAddWeight [1] [3] 4]%Z.

Fixpoint run (ops : list (vop (PK := Z))) (m : manager Z) (r : gmap (list Z) (gmap (list Z) (Z * list Z * Z)))
    (log : list (vcall Z)) :=
  match ops with
  | [] => Some (m, r, log)
  | op :: ops => '(_, m', calls) ← exec op m; run ops m' (rexec op r).2 (log ++ calls)
  end.

Fixpoint ops_ok (ops : list (vop (PK := Z))) (m : manager Z) : Prop :=
  match ops with
  | [] => True
  | op :: ops => op_ok op m ∧ match exec op m with Some (_, m', _) => ops_ok ops m' | None => True end
  end.

Lemma run_reach ops m r log st : vreach m r log → ops_ok ops m → run ops m r log = Some st →
  vreach st.1.1 st.1.2 st.2.
Proof.
  revert m r log. induction ops as [|op ops IH]; intros m r log Hr Hok Hrun; cbn in *; [by simplify_eq|].
  destruct (exec op m) as [[[res m'] calls]|] eqn:E; [|done]. destruct Hok as [Hop Hok].
  eapply IH; [by eapply vreach_step|done|done].
Qed.

Definition example_state := default (NewManager, ∅, []) (run example_ops NewManager ∅ []).

Lemma example_reach : vreach example_state.1.1 example_state.1.2 example_state.2.
Proof.
  apply (run_reach example_ops NewManager ∅ []); [constructor| |vm_compute; reflexivity].
  vm_compute. repeat split; (discriminate || reflexivity).
Qed.

Lemma vdr_manager_refines_witness :
  vreach example_state.1.1 example_state.1.2 example_state.2 ∧
  TotalWeight [1%Z] example_state.1.1 = Some (Ok 10%Z) ∧
  TotalWeight [1%Z] example_state.1.1 =
    Some (u64_or errTotalWeightNotUint64 (rtotal (rget [1%Z] example_state.1.2))).
Proof.
  split; [apply example_reach|]. split; [vm_compute; reflexivity|].
  apply (vdr_manager_refines _ _ _ example_reach).
Defined.

Lemma listeners_mirror_sets_witness :
  7 ∈ callbackListeners example_state.1.1 ∧
  replay 7 (Some [1%Z]) example_state.2 !! [3%Z] = Some (101, [9], 10)%Z ∧
  ∃ ov, GetValidator [1%Z] [3%Z] example_state.1.1 = Some ov ∧
        pair [3%Z] <$> replay 7 (Some [1%Z]) example_state.2 !! [3%Z] = strip <$> ov.
Proof.
  assert (Hl : 7 ∈ callbackListeners example_state.1.1) by (vm_compute; left).
  split; [exact Hl|]. split; [vm_compute; reflexivity|].
  exact (listeners_mirror_sets _ _ _ 7 [1%Z] [3%Z] example_reach Hl).
Defined.
