(* ===== verification/IpTracker.v ===== *)
(** * The IP tracker (src/utils/avalanche/network/ip_tracker.go)

    The tracker decides which nodes are worth a connection, keeps the latest claimed IP of
    each of them, and which of these IPs may be gossiped on each subnet.  A Bloom filter of
    the known IPs (Bloom.v) tells peers what need not be sent.

    Objects behind pointers of the maps ([trackedNode], [connectedNode],
    [gossipableSubnet]) are reachable through the maps only, so the maps hold them;
    [ClaimedIPPort] values are never changed.  [None] is a panic: a nil IP that is
    dereferenced, or an index out of range.  The parameters of a new Bloom filter
    (floating-point logarithms of optimal.go) are the functions [optimal] and [estimate];
    [rnd] gives the outcome of the random source at its [n]-th use.  Locks, logs and
    metrics are left out.  Where the order of a map iteration cannot be seen in the
    result (steps on distinct keys, bits that are or-ed) the order of [elements] or
    [map_to_list] is used. *)

From S2P Require Import Prelude Sampler DrawLoop IndexedList Bloom.

(** ** src/utils/ips/claimed_ip_port.go *)

Record ClaimedIPPort := mkClaimed {
  ip_Cert : list Z;
  ip_AddrPort : list Z * Z;
  ip_Timestamp : Z;
  ip_Signature : list Z;
  ip_NodeID : list Z;
  ip_GossipID : list Z;
}.

#[export] Instance ClaimedIPPort_eq_dec : EqDecision ClaimedIPPort.
Proof. solve_decision. Defined.

(** [constants.PrimaryNetworkID = ids.Empty] *)
Definition PrimaryNetworkID : list Z := replicate 32 0%Z.

(** ** Tracked and connected nodes *)

Record trackedNode := mkTracked {
  manuallyTracked : bool;
  validatedSubnets : gset (list Z);
  tn_trackedSubnets : gset (list Z);
  tn_ip : option ClaimedIPPort;
}.

Definition node_wantsConnection (n : trackedNode) : bool :=
  manuallyTracked n || bool_decide (0 < size (tn_trackedSubnets n)).
Definition node_canDelete (n : trackedNode) : bool :=
  negb (manuallyTracked n) && bool_decide (size (validatedSubnets n) = 0).

Record connectedNode := mkConnected {
  cn_trackedSubnets : gset (list Z);
  cn_ip : ClaimedIPPort;
}.

(** ** gossipableSubnet *)

Record gossipableSubnet := mkSubnet {
  manuallyGossipable : gset (list Z);
  gossipableIDs : gset (list Z);
  gossipableIndices : gmap (list Z) nat;
  gossipableIPs : list ClaimedIPPort;
}.

Definition emptySubnet : gossipableSubnet := mkSubnet ∅ ∅ ∅ [].

Definition subnet_setGossipableIP (ip : ClaimedIPPort) (s : gossipableSubnet) : option gossipableSubnet :=
  match gossipableIndices s !! ip_NodeID ip with
  | Some index =>
      if bool_decide (index < length (gossipableIPs s))
      then Some (mkSubnet (manuallyGossipable s) (gossipableIDs s) (gossipableIndices s)
                   (<[index := ip]> (gossipableIPs s)))
      else None
  | None =>
      Some (mkSubnet (manuallyGossipable s) (gossipableIDs s)
              (<[ip_NodeID ip := length (gossipableIPs s)]> (gossipableIndices s)) (gossipableIPs s ++ [ip]))
  end.

Definition removeGossipableIP (nodeID : list Z) (s : gossipableSubnet) : option gossipableSubnet :=
  match gossipableIndices s !! nodeID with
  | None => Some s
  | Some indexToRemove =>
      let newNumGossipable := length (gossipableIPs s) - 1 in
      '(indices, ips) ← (if bool_decide (newNumGossipable ≠ indexToRemove) then
                           replacementIP ← gossipableIPs s !! newNumGossipable;
                           if bool_decide (indexToRemove < length (gossipableIPs s))
                           then Some (<[ip_NodeID replacementIP := indexToRemove]> (gossipableIndices s),
                                      <[indexToRemove := replacementIP]> (gossipableIPs s))
                           else None
                         else Some (gossipableIndices s, gossipableIPs s));
      if bool_decide (newNumGossipable < length ips)
      then Some (mkSubnet (manuallyGossipable s) (gossipableIDs s) (delete nodeID indices)
                   (take newNumGossipable ips))
      else None
  end.

Section gossip.
Variable sha256 : list Z → list Z.

(** What the loop of [getGossipableIPs] changes: [ips] and [nodeIDs]. *)
Definition gossip_body (exceptNodeID : list Z) (exceptIPs : ReadFilter) (salt : list Z) (s : gossipableSubnet)
    (index : Z) (st : list ClaimedIPPort * gset (list Z)) : option (list ClaimedIPPort * gset (list Z)) :=
  let '(ips, nodeIDs) := st in
  ip ← gossipableIPs s !! Z.to_nat index;
  if bool_decide (ip_NodeID ip = exceptNodeID) || bool_decide (ip_NodeID ip ∈ nodeIDs) then Some st
  else
    known ← bloom_Contains sha256 exceptIPs (ip_GossipID ip) salt;
    if known : bool then Some st else Some (ips ++ [ip], nodeIDs ∪ {[ip_NodeID ip]}).

Definition subnet_getGossipableIPs (exceptNodeID : list Z) (exceptIPs : ReadFilter) (salt : list Z)
    (maxNumIPs : Z) (st : list ClaimedIPPort * gset (list Z)) (src : list Z) (s : gossipableSubnet)
    : option (list ClaimedIPPort * gset (list Z) * list Z) :=
  let uniform := Initialize (Z.of_nat (length (gossipableIPs s))) in
  draw_loop (λ st, bool_decide (Z.of_nat (length st.1) < maxNumIPs)%Z)
    (gossip_body exceptNodeID exceptIPs salt s) (draw_fuel uniform) uniform src st.
End gossip.

Definition subnet_canDelete (s : gossipableSubnet) : bool := bool_decide (size (gossipableIDs s) = 0).

(** ** ipTracker *)

Record ipTracker := mkTracker {
  it_trackedSubnets : gset (list Z);
  tracked : gmap (list Z) trackedNode;
  it_bloom : Filter;
  bloomAdditions : gmap (list Z) Z;
  bloomSalt : list Z;
  maxBloomCount : Z;
  connected : gmap (list Z) connectedNode;
  subnets : gmap (list Z) gossipableSubnet;
  draws : nat;
}.

Definition set_tracked (t : gmap (list Z) trackedNode) (i : ipTracker) : ipTracker :=
  mkTracker (it_trackedSubnets i) t (it_bloom i) (bloomAdditions i) (bloomSalt i) (maxBloomCount i)
    (connected i) (subnets i) (draws i).
Definition set_connected (c : gmap (list Z) connectedNode) (i : ipTracker) : ipTracker :=
  mkTracker (it_trackedSubnets i) (tracked i) (it_bloom i) (bloomAdditions i) (bloomSalt i) (maxBloomCount i)
    c (subnets i) (draws i).
Definition set_subnets (s : gmap (list Z) gossipableSubnet) (i : ipTracker) : ipTracker :=
  mkTracker (it_trackedSubnets i) (tracked i) (it_bloom i) (bloomAdditions i) (bloomSalt i) (maxBloomCount i)
    (connected i) s (draws i).
Definition set_bloom (b : Filter) (additions : gmap (list Z) Z) (salt : list Z) (max : Z) (i : ipTracker) : ipTracker :=
  mkTracker (it_trackedSubnets i) (tracked i) b additions salt max (connected i) (subnets i) (draws i).
Definition next_draw (i : ipTracker) : ipTracker :=
  mkTracker (it_trackedSubnets i) (tracked i) (it_bloom i) (bloomAdditions i) (bloomSalt i) (maxBloomCount i)
    (connected i) (subnets i) (S (draws i)).

Definition saltSize : Z := 32.
Definition minCountEstimate : Z := 128.
Definition maxIPEntriesPerNode : Z := 2.
Definition untrackedTimestamp : Z := -2.
Definition olderTimestamp : Z := -1.
Definition sameTimestamp : Z := 0.
Definition newerTimestamp : Z := 1.
Definition newTimestamp : Z := 2.

Section tracker.
Variable sha256 : list Z → list Z.
Variable rnd : nat → Z → option (list Z).
Variable optimal : Z → Z * Z.
Variable estimate : Z → Z → Z.

Abbreviation TM A := (ipTracker → option (A * ipTracker)).

(** The loop over the tracked nodes. *)
Fixpoint fill_bloom (nodes : list (list Z * trackedNode)) (salt : list Z) (f : Filter)
    (additions : gmap (list Z) Z) : option (Filter * gmap (list Z) Z) :=
  match nodes with
  | [] => Some (f, additions)
  | (nodeID, node) :: rest =>
      match tn_ip node with
      | None => fill_bloom rest salt f additions
      | Some ip =>
          f ← bloom_Add sha256 f (ip_GossipID ip) salt;
          fill_bloom rest salt f (<[nodeID := 1%Z]> additions)
      end
  end.

(** The salt and the seeds are the uses [2n] and [2n+1] of the random source. *)
Definition resetBloom : (TM (result bloom_err ())) := λ i,
  match rnd (2 * draws i) saltSize with
  | None => Some (Err errRandom, next_draw i)
  | Some newSalt =>
      let count := Z.max (maxIPEntriesPerNode * Z.of_nat (size (tracked i))) minCountEstimate in
      let '(numHashes, numEntries) := optimal count in
      match New (rnd (2 * draws i + 1)) numHashes numEntries with
      | Err e => Some (Err e, next_draw i)
      | Ok newFilter =>
          '(f, additions) ← fill_bloom (map_to_list (tracked i)) newSalt newFilter ∅;
          Some (Ok (), next_draw (set_bloom f additions newSalt (estimate numHashes numEntries) i))
      end
  end.

Definition newIPTracker (trackedSubnets : gset (list Z)) : option (result bloom_err () * ipTracker) :=
  resetBloom (mkTracker trackedSubnets ∅ (mkFilter 0 [] [] 0) ∅ [] 0 ∅ ∅ 0).

(** [node] is the object of the map at [nodeID]. *)
Definition updateMostRecentTrackedIP (nodeID : list Z) (ip : ClaimedIPPort) : ipTracker → option ipTracker := λ i,
  node ← tracked i !! nodeID;
  let i := set_tracked (<[nodeID := mkTracked (manuallyTracked node) (validatedSubnets node)
                                      (tn_trackedSubnets node) (Some ip)]> (tracked i)) i in
  let oldCount := default 0%Z (bloomAdditions i !! ip_NodeID ip) in
  if bool_decide (maxIPEntriesPerNode ≤ oldCount)%Z then Some i
  else if bool_decide (maxBloomCount i ≤ Count (it_bloom i))%Z then
    '(_, i) ← resetBloom i; Some i
  else
    f ← bloom_Add sha256 (it_bloom i) (ip_GossipID ip) (bloomSalt i);
    Some (set_bloom f (<[ip_NodeID ip := (oldCount + 1)%Z]> (bloomAdditions i)) (bloomSalt i) (maxBloomCount i) i).

Definition ResetBloom : (TM (result bloom_err ())) := resetBloom.
Definition Bloom (i : ipTracker) : list Z * list Z := (Filter_Marshal (it_bloom i), bloomSalt i).

(** [subnetID] is [None] for a node that is tracked manually. *)
Definition addTrackableID (nodeID : list Z) (subnetID : option (list Z)) (i : ipTracker) : option ipTracker :=
  let previouslyTracked := bool_decide (is_Some (tracked i !! nodeID)) in
  let nodeTracker := default (mkTracked false ∅ ∅ None) (tracked i !! nodeID) in
  let nodeTracker :=
    match subnetID with
    | None => mkTracked true (validatedSubnets nodeTracker) (tn_trackedSubnets nodeTracker) (tn_ip nodeTracker)
    | Some subnet =>
        mkTracked (manuallyTracked nodeTracker) (validatedSubnets nodeTracker ∪ {[subnet]})
          (if bool_decide (subnet = PrimaryNetworkID) || bool_decide (subnet ∈ it_trackedSubnets i)
           then tn_trackedSubnets nodeTracker ∪ {[subnet]} else tn_trackedSubnets nodeTracker)
          (tn_ip nodeTracker)
    end in
  let i := set_tracked (<[nodeID := nodeTracker]> (tracked i)) i in
  if previouslyTracked : bool then Some i
  else match connected i !! nodeID with
       | None => Some i
       | Some node => updateMostRecentTrackedIP nodeID (cn_ip node) i
       end.

(** [subnets.setGossipableIP(ip)] on the subnet of the map, with a pointer [ip]. *)
Definition set_in_subnet (subnetID : list Z) (ip : option ClaimedIPPort) (i : ipTracker) : option ipTracker :=
  s ← subnets i !! subnetID;
  ip ← ip;
  s ← subnet_setGossipableIP ip s;
  Some (set_subnets (<[subnetID := s]> (subnets i)) i).

Definition addGossipableID (nodeID subnetID : list Z) (manuallyGossiped : bool) (i : ipTracker) : option ipTracker :=
  let s := default emptySubnet (subnets i !! subnetID) in
  let s := if manuallyGossiped
           then mkSubnet (manuallyGossipable s ∪ {[nodeID]}) (gossipableIDs s) (gossipableIndices s) (gossipableIPs s)
           else s in
  if bool_decide (nodeID ∈ gossipableIDs s) then Some (set_subnets (<[subnetID := s]> (subnets i)) i)
  else
    let s := mkSubnet (manuallyGossipable s) (gossipableIDs s ∪ {[nodeID]}) (gossipableIndices s) (gossipableIPs s) in
    let i := set_subnets (<[subnetID := s]> (subnets i)) i in
    match connected i !! nodeID with
    | None => Some i
    | Some node =>
        if bool_decide (subnetID ∈ cn_trackedSubnets node) then
          match tracked i !! nodeID with
          | Some trackedNode => set_in_subnet subnetID (tn_ip trackedNode) i
          | None => Some i
          end
        else Some i
    end.

Definition ManuallyTrack (nodeID : list Z) (i : ipTracker) : option ipTracker := addTrackableID nodeID None i.

Definition ManuallyGossip (subnetID nodeID : list Z) (i : ipTracker) : option ipTracker :=
  i ← (if bool_decide (subnetID = PrimaryNetworkID) || bool_decide (subnetID ∈ it_trackedSubnets i)
       then addTrackableID nodeID None i else Some i);
  i ← addTrackableID nodeID (Some subnetID) i;
  addGossipableID nodeID subnetID true i.

Definition WantsConnection (nodeID : list Z) (i : ipTracker) : bool :=
  match tracked i !! nodeID with Some node => node_wantsConnection node | None => false end.

Definition ShouldVerifyIP (ip : ClaimedIPPort) (trackAllSubnets : bool) (i : ipTracker) : bool :=
  match tracked i !! ip_NodeID ip with
  | None => false
  | Some node =>
      if negb trackAllSubnets && negb (node_wantsConnection node) then false
      else match tn_ip node with
           | None => true
           | Some old => bool_decide (ip_Timestamp old < ip_Timestamp ip)%Z
           end
  end.

Definition addIP (ip : ClaimedIPPort) : TM Z := λ i,
  match tracked i !! ip_NodeID ip with
  | None => Some (untrackedTimestamp, i)
  | Some node =>
      match tn_ip node with
      | None => i ← updateMostRecentTrackedIP (ip_NodeID ip) ip i; Some (newTimestamp, i)
      | Some old =>
          if bool_decide (ip_Timestamp ip < ip_Timestamp old)%Z then Some (olderTimestamp, i)
          else if bool_decide (ip_Timestamp old = ip_Timestamp ip) then Some (sameTimestamp, i)
          else i ← updateMostRecentTrackedIP (ip_NodeID ip) ip i; Some (newerTimestamp, i)
      end
  end.

(** One subnet of the loop of [setGossipableIP]; [ip.NodeID] of a nil [ip] panics. *)
Definition setGossipableIP_step (ip : option ClaimedIPPort) (subnetID : list Z) (i : ipTracker) : option ipTracker :=
  match subnets i !! subnetID with
  | None => Some i
  | Some s =>
      p ← ip;
      if bool_decide (ip_NodeID p ∈ gossipableIDs s) then set_in_subnet subnetID ip i else Some i
  end.
Definition setGossipableIP (ip : option ClaimedIPPort) (trackedSubnets : gset (list Z)) (i : ipTracker) : option ipTracker :=
  foldl (λ i subnetID, i ≫= setGossipableIP_step ip subnetID) (Some i) (elements trackedSubnets).

(** The IP of the object that [addIP] returned. *)
Definition tracked_ip (nodeID : list Z) (i : ipTracker) : option (option ClaimedIPPort) :=
  tn_ip <$> tracked i !! nodeID.

Definition AddIP (ip : ClaimedIPPort) : TM bool := λ i,
  '(timestampComparison, i) ← addIP ip i;
  if bool_decide (timestampComparison ≤ sameTimestamp)%Z then Some (false, i)
  else
    i ← match connected i !! ip_NodeID ip with
        | Some connectedNode =>
            p ← tracked_ip (ip_NodeID ip) i; setGossipableIP p (cn_trackedSubnets connectedNode) i
        | None => Some i
        end;
    node ← tracked i !! ip_NodeID ip;
    Some (node_wantsConnection node, i).

Definition GetIP (nodeID : list Z) (i : ipTracker) : option ClaimedIPPort * bool :=
  match tracked i !! nodeID with
  | None => (None, false)
  | Some node => match tn_ip node with
                 | None => (None, false)
                 | Some ip => (Some ip, node_wantsConnection node)
                 end
  end.

(** The code calls [addIP] twice. *)
Definition Connected (ip : ClaimedIPPort) (trackedSubnets : gset (list Z)) (i : ipTracker) : option ipTracker :=
  let i := set_connected (<[ip_NodeID ip := mkConnected trackedSubnets ip]> (connected i)) i in
  '(timestampComparison, i) ← addIP ip i;
  '(_, i) ← addIP ip i;
  if bool_decide (timestampComparison ≠ untrackedTimestamp)
  then p ← tracked_ip (ip_NodeID ip) i; setGossipableIP p trackedSubnets i
  else Some i.

Definition Disconnected_step (nodeID subnetID : list Z) (i : ipTracker) : option ipTracker :=
  match subnets i !! subnetID with
  | None => Some i
  | Some s => s ← removeGossipableIP nodeID s; Some (set_subnets (<[subnetID := s]> (subnets i)) i)
  end.
Definition Disconnected (nodeID : list Z) (i : ipTracker) : option ipTracker :=
  match connected i !! nodeID with
  | None => Some i
  | Some connectedNode =>
      let i := set_connected (delete nodeID (connected i)) i in
      foldl (λ i subnetID, i ≫= Disconnected_step nodeID subnetID) (Some i) (elements (cn_trackedSubnets connectedNode))
  end.

Definition OnValidatorAdded (subnetID nodeID : list Z) (i : ipTracker) : option ipTracker :=
  i ← addTrackableID nodeID (Some subnetID) i;
  addGossipableID nodeID subnetID false i.

Definition OnValidatorRemoved (subnetID nodeID : list Z) (i : ipTracker) : option ipTracker :=
  match subnets i !! subnetID with
  | None => Some i
  | Some s =>
      if bool_decide (nodeID ∈ manuallyGossipable s) then Some i
      else
        let s := mkSubnet (manuallyGossipable s) (gossipableIDs s ∖ {[nodeID]}) (gossipableIndices s) (gossipableIPs s) in
        s ← removeGossipableIP nodeID s;
        let i := set_subnets (if subnet_canDelete s then delete subnetID (subnets i)
                              else <[subnetID := s]> (subnets i)) i in
        match tracked i !! nodeID with
        | None => Some i
        | Some node =>
            let node := mkTracked (manuallyTracked node) (validatedSubnets node ∖ {[subnetID]})
                          (tn_trackedSubnets node ∖ {[subnetID]}) (tn_ip node) in
            Some (set_tracked (if node_canDelete node then delete nodeID (tracked i)
                               else <[nodeID := node]> (tracked i)) i)
        end
  end.

(** [order]: the subnets of [iter] as the map iteration visits them. *)
Fixpoint getGossipableIPs_loop (order : list (list Z)) (allowed : list Z → bool) (exceptNodeID : list Z)
    (exceptIPs : ReadFilter) (salt : list Z) (maxNumIPs : Z) (st : list ClaimedIPPort * gset (list Z))
    (src : list Z) (i : ipTracker) : option (list ClaimedIPPort * list Z) :=
  match order with
  | [] => Some (st.1, src)
  | subnetID :: rest =>
      if negb (allowed subnetID) then
        getGossipableIPs_loop rest allowed exceptNodeID exceptIPs salt maxNumIPs st src i
      else match subnets i !! subnetID with
      | None => getGossipableIPs_loop rest allowed exceptNodeID exceptIPs salt maxNumIPs st src i
      | Some s =>
          '(st, src) ← subnet_getGossipableIPs sha256 exceptNodeID exceptIPs salt maxNumIPs st src s;
          if bool_decide (maxNumIPs ≤ Z.of_nat (length st.1))%Z then Some (st.1, src)
          else getGossipableIPs_loop rest allowed exceptNodeID exceptIPs salt maxNumIPs st src i
      end
  end.

(** [make] panics on a negative capacity. *)
Definition getGossipableIPs (order : list (list Z)) (allowed : list Z → bool) (exceptNodeID : list Z)
    (exceptIPs : ReadFilter) (salt : list Z) (maxNumIPs : Z) (src : list Z) (i : ipTracker)
    : option (list ClaimedIPPort * list Z) :=
  if bool_decide (maxNumIPs < 0)%Z then None
  else getGossipableIPs_loop order allowed exceptNodeID exceptIPs salt maxNumIPs ([], ∅) src i.
End tracker.
