(* ===== verification/IpTrackerProps.v ===== *)
(** * The invariant of the IP tracker

    Which nodes are tracked, and for which subnets, is a function of what the tracker was
    told: the nodes tracked by hand, those gossiped by hand on a subnet, and the validators
    of each subnet ([trace_ref]).  The IPs gossiped on a subnet are the latest known IPs of
    its members that are connected and follow it. *)

From S2P Require Import Prelude Sampler DrawLoop IndexedList Bloom IpTracker.

(** ** Gossipable IPs of one subnet *)

Definition gip (s : gossipableSubnet) (n : list Z) : option ClaimedIPPort :=
  ix_get (gossipableIndices s) (gossipableIPs s) n.
Definition sub_indexed (s : gossipableSubnet) : Prop := indexed ip_NodeID (gossipableIndices s) (gossipableIPs s).

Definition same_sets (s s' : gossipableSubnet) : Prop :=
  manuallyGossipable s' = manuallyGossipable s ∧ gossipableIDs s' = gossipableIDs s.

Lemma subnet_set_spec ip s : sub_indexed s →
  ∃ s', subnet_setGossipableIP ip s = Some s' ∧ sub_indexed s' ∧ same_sets s s' ∧
    ∀ n, gip s' n = if bool_decide (ip_NodeID ip = n) then Some ip else gip s n.
Proof.
  intros Hx. unfold subnet_setGossipableIP. destruct (gossipableIndices s !! ip_NodeID ip) as [i|] eqn:E.
  - destruct (indexed_lookup _ _ _ _ _ Hx E) as (v & Hv & _).
    rewrite bool_decide_eq_true_2 by (by eapply lookup_lt_Some). eexists. split; [done|].
    split_and!; [by apply indexed_set|done|]. intros n. by apply get_set.
  - eexists. split; [done|]. split_and!; [by apply indexed_snoc|done|]. intros n. by apply get_snoc.
Qed.

Lemma subnet_remove_spec n s : sub_indexed s →
  ∃ s', removeGossipableIP n s = Some s' ∧ sub_indexed s' ∧ same_sets s s' ∧
    ∀ n', gip s' n' = if bool_decide (n' = n) then None else gip s n'.
Proof.
  intros Hx. unfold removeGossipableIP. destruct (gossipableIndices s !! n) as [i|] eqn:E.
  2: { exists s. split_and!; try done. intros n'. case_bool_decide; [|done]. subst. by apply (indexed_None ip_NodeID). }
  destruct (indexed_lookup _ _ _ _ _ Hx E) as (v & Hv & Hk).
  assert (i < length (gossipableIPs s)) as Hi by by eapply lookup_lt_Some.
  destruct (lookup_lt_is_Some_2 (gossipableIPs s) (length (gossipableIPs s) - 1)) as [z Hz]; [lia|].
  assert (∃ indices ips, (if bool_decide (length (gossipableIPs s) - 1 ≠ i) then
     replacementIP ← gossipableIPs s !! (length (gossipableIPs s) - 1);
     if bool_decide (i < length (gossipableIPs s))
     then Some (<[ip_NodeID replacementIP := i]> (gossipableIndices s), <[i := replacementIP]> (gossipableIPs s))
     else None else Some (gossipableIndices s, gossipableIPs s)) = Some (indices, ips) ∧
     indices = <[ip_NodeID z := i]> (gossipableIndices s) ∧ ips = <[i := z]> (gossipableIPs s)) as (indices & ips & -> & -> & ->).
  { case_bool_decide as Hd.
    - rewrite Hz. cbn. rewrite bool_decide_eq_true_2 by done. eauto.
    - assert (i = length (gossipableIPs s) - 1) as -> by lia. assert (v = z) as -> by congruence.
      eexists _, _. split; [done|]. rewrite list_insert_id by done. split; [|done].
      symmetry. apply insert_id. congruence. }
  cbn [mbind option_bind]. rewrite bool_decide_eq_true_2 by (rewrite length_insert; lia).
  eexists. split; [done|]. split_and!; [by apply (indexed_remove ip_NodeID)|done|].
  intros n'. by apply (get_remove ip_NodeID).
Qed.

(** ** What the tracker was told *)

Record trace_ref := mkRef {
  rf_manual : gset (list Z);
  rf_tracked : gset (list Z * list Z);
  rf_gossip : gset (list Z * list Z);
  rf_mgossip : gset (list Z * list Z);
}.

Definition tracks (i : ipTracker) (s : list Z) : Prop := s = PrimaryNetworkID ∨ s ∈ it_trackedSubnets i.

Record node_ok (i : ipTracker) (r : trace_ref) (n : list Z) (node : trackedNode) : Prop := {
  no_reason : n ∈ rf_manual r ∨ ∃ s, (s, n) ∈ rf_tracked r;
  no_manual : manuallyTracked node = bool_decide (n ∈ rf_manual r);
  no_validated : ∀ s, s ∈ validatedSubnets node ↔ (s, n) ∈ rf_tracked r;
  no_tracked : ∀ s, s ∈ tn_trackedSubnets node ↔ (s, n) ∈ rf_tracked r ∧ tracks i s;
  no_ip : ∀ ip, tn_ip node = Some ip → ip_NodeID ip = n;
  no_connected : is_Some (connected i !! n) → is_Some (tn_ip node);
}.

(** The IP of [n] that should be gossiped on [s], if [n] is a member of [s]. *)
Definition known_ip (i : ipTracker) (n : list Z) : option ClaimedIPPort := node ← tracked i !! n; tn_ip node.
Definition latest (i : ipTracker) (s n : list Z) : option ClaimedIPPort :=
  cn ← connected i !! n;
  if bool_decide (s ∈ cn_trackedSubnets cn) then known_ip i n else None.

Record sub_ok (i : ipTracker) (r : trace_ref) (s : list Z) (sub : gossipableSubnet) : Prop := {
  so_some : ∃ n, (s, n) ∈ rf_gossip r;
  so_ids : ∀ n, n ∈ gossipableIDs sub ↔ (s, n) ∈ rf_gossip r;
  so_manual : ∀ n, n ∈ manuallyGossipable sub ↔ (s, n) ∈ rf_mgossip r;
  so_indexed : sub_indexed sub;
  so_gip : ∀ n, gip sub n = if bool_decide (n ∈ gossipableIDs sub) then latest i s n else None;
}.

Record tr_ok (i : ipTracker) (r : trace_ref) : Prop := {
  to_tracked : ∀ n, match tracked i !! n with
                    | None => n ∉ rf_manual r ∧ ∀ s, (s, n) ∉ rf_tracked r
                    | Some node => node_ok i r n node
                    end;
  to_subnets : ∀ s, match subnets i !! s with
                    | None => ∀ n, (s, n) ∉ rf_gossip r
                    | Some sub => sub_ok i r s sub
                    end;
  to_connected : ∀ n cn, connected i !! n = Some cn → ip_NodeID (cn_ip cn) = n;
  to_incl : rf_gossip r ⊆ rf_tracked r;
  to_mincl : rf_mgossip r ⊆ rf_gossip r;
}.

Lemma to_node i r n node : tr_ok i r → tracked i !! n = Some node → node_ok i r n node.
Proof. intros H E. pose proof (to_tracked _ _ H n) as Hn. by rewrite E in Hn. Qed.
Lemma to_sub i r s sub : tr_ok i r → subnets i !! s = Some sub → sub_ok i r s sub.
Proof. intros H E. pose proof (to_subnets _ _ H s) as Hs. by rewrite E in Hs. Qed.

(** The invariant does not look at the Bloom filter. *)
Definition same_view (i i' : ipTracker) : Prop :=
  it_trackedSubnets i' = it_trackedSubnets i ∧ tracked i' = tracked i ∧
  connected i' = connected i ∧ subnets i' = subnets i.

Lemma tr_ok_view i i' r : same_view i i' → tr_ok i r → tr_ok i' r.
Proof.
  intros (E1 & E2 & E3 & E4) [H1 H2 H3 H4 H5].
  split; try done; [intros n; rewrite E2|intros s; rewrite E4|by rewrite E3].
  - specialize (H1 n). destruct (tracked i !! n); [|done]. destruct H1. split; try done.
    + unfold tracks. by rewrite E1.
    + by rewrite E3.
  - specialize (H2 s). destruct (subnets i !! s); [|done]. destruct H2. split; try done.
    unfold latest, known_ip. by rewrite E2, E3.
Qed.

(** ** The Bloom filter is always usable *)

Definition bloom_wf (i : ipTracker) : Prop := filter_wf (it_bloom i).

Definition with_ip (node : trackedNode) (ip : ClaimedIPPort) : trackedNode :=
  mkTracked (manuallyTracked node) (validatedSubnets node) (tn_trackedSubnets node) (Some ip).

(** ** Tracking a node *)

Definition r_track (n : list Z) (s : option (list Z)) (r : trace_ref) : trace_ref :=
  match s with
  | None => mkRef (rf_manual r ∪ {[n]}) (rf_tracked r) (rf_gossip r) (rf_mgossip r)
  | Some s => mkRef (rf_manual r) (rf_tracked r ∪ {[(s, n)]}) (rf_gossip r) (rf_mgossip r)
  end.

(** What [addTrackableID] makes of the node before it looks for an IP. *)
Definition marked (i : ipTracker) (s : option (list Z)) (node : trackedNode) : trackedNode :=
  match s with
  | None => mkTracked true (validatedSubnets node) (tn_trackedSubnets node) (tn_ip node)
  | Some s => mkTracked (manuallyTracked node) (validatedSubnets node ∪ {[s]})
                (if bool_decide (s = PrimaryNetworkID) || bool_decide (s ∈ it_trackedSubnets i)
                 then tn_trackedSubnets node ∪ {[s]} else tn_trackedSubnets node) (tn_ip node)
  end.

Lemma tracks_bool i s :
  (bool_decide (s = PrimaryNetworkID) || bool_decide (s ∈ it_trackedSubnets i)) = bool_decide (tracks i s).
Proof. unfold tracks. by rewrite bool_decide_or. Qed.

Lemma latest_ext i i' s n :
  connected i' !! n = connected i !! n → known_ip i' n = known_ip i n → latest i' s n = latest i s n.
Proof. intros Hc Ht. unfold latest. by rewrite Hc, Ht. Qed.

(** A subnet keeps its meaning when the latest IPs of its members do not change. *)
Lemma sub_ok_ext i i' r r' s sub :
  sub_ok i r s sub → rf_gossip r' = rf_gossip r → rf_mgossip r' = rf_mgossip r →
  (∀ n, (s, n) ∈ rf_gossip r → latest i' s n = latest i s n) → sub_ok i' r' s sub.
Proof.
  intros [H1 H2 H3 H4 H5] Hg Hm Hl. split; rewrite ?Hg, ?Hm; try done. intros n. rewrite H5.
  case_bool_decide as Hn; [|done]. symmetry. by apply Hl, H2.
Qed.

Lemma member_tracked i r s n : tr_ok i r → (s, n) ∈ rf_gossip r → is_Some (tracked i !! n).
Proof.
  intros H Hs. pose proof (to_tracked _ _ H n) as Ht. destruct (tracked i !! n); [done|].
  destruct Ht as [_ Ht]. by destruct (Ht s (to_incl _ _ H _ Hs)).
Qed.

(** The subnets and the manual mark of a node, without its IP. *)
Definition reasons (i : ipTracker) (r : trace_ref) (n : list Z) (node : trackedNode) : Prop :=
  manuallyTracked node = bool_decide (n ∈ rf_manual r) ∧
  (∀ s, s ∈ validatedSubnets node ↔ (s, n) ∈ rf_tracked r) ∧
  (∀ s, s ∈ tn_trackedSubnets node ↔ (s, n) ∈ rf_tracked r ∧ tracks i s).

Lemma reasons_default i r n : tr_ok i r → reasons i r n (default (mkTracked false ∅ ∅ None) (tracked i !! n)).
Proof.
  intros H. pose proof (to_tracked _ _ H n) as Hn. destruct (tracked i !! n); [by destruct Hn|].
  destruct Hn as [Hm Ht]. split_and!; cbn; [by rewrite bool_decide_eq_false_2|set_solver..].
Qed.

Lemma marked_ok i i' r n s node :
  reasons i r n node → it_trackedSubnets i' = it_trackedSubnets i →
  (∀ ip, tn_ip node = Some ip → ip_NodeID ip = n) → (is_Some (connected i' !! n) → is_Some (tn_ip node)) →
  node_ok i' (r_track n s r) n (marked i s node).
Proof.
  intros (H1 & H2 & H3) Hts Hip Hc.
  assert (∀ s, tracks i' s ↔ tracks i s) as Htr by (intros; unfold tracks; by rewrite Hts).
  destruct s as [s|]; cbn [marked r_track].
  - split; cbn; try done.
    + right. exists s. set_solver.
    + intros s'. rewrite !elem_of_union, !elem_of_singleton, H2. clear. naive_solver.
    + intros s'. rewrite tracks_bool, Htr. specialize (H3 s'). clear -H3.
      case_bool_decide as Hd; rewrite !elem_of_union, !elem_of_singleton, H3; naive_solver.
  - split; cbn; try done.
    + left. set_solver.
    + by rewrite bool_decide_eq_true_2 by set_solver.
    + intros s'. by rewrite H3, Htr.
Qed.

Lemma r_track_other n s r n' : n' ≠ n →
  (n' ∈ rf_manual (r_track n s r) ↔ n' ∈ rf_manual r) ∧
  ∀ s', (s', n') ∈ rf_tracked (r_track n s r) ↔ (s', n') ∈ rf_tracked r.
Proof. intros Hne. destruct s; cbn; set_solver. Qed.

Lemma node_ok_ext i i' r r' n node :
  node_ok i r n node → it_trackedSubnets i' = it_trackedSubnets i →
  (n ∈ rf_manual r' ↔ n ∈ rf_manual r) → (∀ s, (s, n) ∈ rf_tracked r' ↔ (s, n) ∈ rf_tracked r) →
  (is_Some (connected i' !! n) → is_Some (connected i !! n)) → node_ok i' r' n node.
Proof.
  intros [H1 H2 H3 H4 H5 H6] Hts Hm Ht Hc. unfold tracks in *. split; try done.
  - rewrite Hm. by setoid_rewrite Ht.
  - rewrite H2. by apply bool_decide_ext.
  - intros s. by rewrite Ht.
  - intros s. unfold tracks. by rewrite Ht, Hts.
  - auto.
Qed.

(** ** Making a node gossipable *)

Definition r_gossip (n s : list Z) (manual : bool) (r : trace_ref) : trace_ref :=
  mkRef (rf_manual r) (rf_tracked r) (rf_gossip r ∪ {[(s, n)]})
    (if manual then rf_mgossip r ∪ {[(s, n)]} else rf_mgossip r).

(** The nodes and the other subnets do not change. *)
Lemma tr_ok_one_subnet i i' r r' s sub :
  tr_ok i r → it_trackedSubnets i' = it_trackedSubnets i → tracked i' = tracked i → connected i' = connected i →
  subnets i' = <[s := sub]> (subnets i) → rf_manual r' = rf_manual r → rf_tracked r' = rf_tracked r →
  (∀ s' n, s' ≠ s → (s', n) ∈ rf_gossip r' ↔ (s', n) ∈ rf_gossip r) →
  (∀ s' n, s' ≠ s → (s', n) ∈ rf_mgossip r' ↔ (s', n) ∈ rf_mgossip r) →
  sub_ok i' r' s sub → rf_gossip r' ⊆ rf_tracked r' → rf_mgossip r' ⊆ rf_gossip r' → tr_ok i' r'.
Proof.
  intros H Hts Ht Hc Hs Hm Htr Hg Hmg Hsub Hi1 Hi2. split; try done.
  - intros n. rewrite Ht. pose proof (to_tracked _ _ H n) as Hn. destruct (tracked i !! n).
    + eapply node_ok_ext; [done|done|by rewrite Hm|by rewrite Htr|by rewrite Hc].
    + by rewrite Hm, Htr.
  - intros s'. rewrite Hs. destruct (decide (s = s')) as [<-|Hne]; [by rewrite lookup_insert_eq|].
    rewrite lookup_insert_ne by done. pose proof (to_subnets _ _ H s') as Hs'. destruct (subnets i !! s') as [sub'|].
    + destruct Hs' as [H1 H2 H3 H4 H5]. split; try done.
      * destruct H1 as [n Hn]. exists n. by apply Hg.
      * intros n. by rewrite Hg.
      * intros n. by rewrite Hmg.
      * intros n. rewrite H5. unfold latest, known_ip. by rewrite Hc, Ht.
    + intros n. by rewrite Hg.
  - rewrite Hc. apply H.
Qed.

Lemma sub_default i r s : tr_ok i r → let sub := default emptySubnet (subnets i !! s) in
  (∀ n, n ∈ gossipableIDs sub ↔ (s, n) ∈ rf_gossip r) ∧ (∀ n, n ∈ manuallyGossipable sub ↔ (s, n) ∈ rf_mgossip r) ∧
  sub_indexed sub ∧ (∀ n, gip sub n = if bool_decide (n ∈ gossipableIDs sub) then latest i s n else None).
Proof.
  intros H sub. pose proof (to_subnets _ _ H s) as Hs. subst sub.
  destruct (subnets i !! s) as [sub|]; [by destruct Hs|]. cbn. split_and!.
  - intros n. specialize (Hs n). set_solver.
  - intros n. pose proof (to_mincl _ _ H). specialize (Hs n). set_solver.
  - apply indexed_empty.
  - done.
Qed.

(** The tracker after [s] became [sub], which has [n] as a new member. *)
Lemma gossip_final n s manual i i' r sub :
  tr_ok i r → (s, n) ∈ rf_tracked r → it_trackedSubnets i' = it_trackedSubnets i → tracked i' = tracked i →
  connected i' = connected i → subnets i' = <[s := sub]> (subnets i) →
  (∀ n', n' ∈ manuallyGossipable sub ↔ (s, n') ∈ rf_mgossip (r_gossip n s manual r)) →
  gossipableIDs sub = gossipableIDs (default emptySubnet (subnets i !! s)) ∪ {[n]} → sub_indexed sub →
  (∀ n', gip sub n' = if bool_decide (n' ∈ gossipableIDs sub) then latest i s n' else None) →
  tr_ok i' (r_gossip n s manual r).
Proof.
  intros H Hin Hts Ht Hc Hs Em Ei Hx Hg. pose proof (to_incl _ _ H) as Hi1. pose proof (to_mincl _ _ H) as Hi2.
  destruct (sub_default i r s H) as (H1 & _).
  eapply tr_ok_one_subnet; try done; [cbn; set_solver|destruct manual; cbn; set_solver| |cbn; set_solver|destruct manual; cbn; set_solver].
  split; try done.
  - exists n. cbn. set_solver.
  - intros n'. rewrite Ei. cbn. specialize (H1 n'). set_solver.
  - intros n'. rewrite Hg. unfold latest, known_ip. by rewrite Hc, Ht.
Qed.

Lemma addGossipableID_ok n s manual i r : tr_ok i r → bloom_wf i → (s, n) ∈ rf_tracked r →
  ∃ i', addGossipableID n s manual i = Some i' ∧ bloom_wf i' ∧ tr_ok i' (r_gossip n s manual r) ∧
    it_trackedSubnets i' = it_trackedSubnets i ∧ connected i' = connected i ∧ tracked i' = tracked i.
Proof.
  intros H Hw Hin. unfold addGossipableID. destruct (sub_default i r s H) as (H1 & H2 & H3 & H4).
  set (sub1 := if manual then _ else _).
  assert (gossipableIDs sub1 = gossipableIDs (default emptySubnet (subnets i !! s)) ∧ gip sub1 = gip (default emptySubnet (subnets i !! s)) ∧
          sub_indexed sub1) as (Eid & Eg & Hx) by (by destruct manual).
  assert (∀ n', n' ∈ manuallyGossipable sub1 ↔ (s, n') ∈ rf_mgossip (r_gossip n s manual r)) as Hmg.
  { intros n'. unfold sub1. destruct manual; cbn; specialize (H2 n'); set_solver. }
  rewrite <-Eid, <-Eg in H4. clearbody sub1. case_bool_decide as Hd.
  { eexists. split; [done|]. split_and!; try done. apply (gossip_final n s manual i _ r sub1); try done. set_solver. }
  set (sub2 := mkSubnet _ _ _ _). cbn [set_subnets connected tracked].
  assert (gip sub2 = gip sub1 ∧ sub_indexed sub2) as [Eg2 Hx2] by done.
  assert (∀ n', n' ≠ n → bool_decide (n' ∈ gossipableIDs sub2) = bool_decide (n' ∈ gossipableIDs sub1)) as Hids.
  { intros n' Hne. apply bool_decide_ext. cbn. set_solver. }
  assert (latest i s n = None → tr_ok (set_subnets (<[s := sub2]> (subnets i)) i) (r_gossip n s manual r)) as Hleave.
  { intros Hl. apply (gossip_final n s manual i _ r sub2); try done; [cbn; by rewrite Eid|].
    intros n'. rewrite Eg2, H4. destruct (decide (n' = n)) as [->|Hne]; [|by rewrite Hids].
    rewrite bool_decide_eq_false_2 by done. by case_bool_decide. }
  destruct (connected i !! n) as [cn|] eqn:Ec; [|eexists; split; [done|]; split_and!; try done; apply Hleave; unfold latest; by rewrite Ec].
  case_bool_decide as Hst.
  2: { eexists; split; [done|]; split_and!; try done; apply Hleave; unfold latest; rewrite Ec; cbn; by rewrite bool_decide_eq_false_2. }
  pose proof (to_tracked _ _ H n) as Hn. destruct (tracked i !! n) as [node|] eqn:En; [|destruct Hn as [_ Hn]; by destruct (Hn s)].
  destruct (no_connected _ _ _ _ Hn) as [ip Eip]; [by rewrite Ec|].
  unfold set_in_subnet. cbn [set_subnets subnets]. rewrite lookup_insert_eq, Eip. cbn [mbind option_bind].
  destruct (subnet_set_spec ip sub2 Hx2) as (sub3 & -> & Hx3 & [Em3 Ei3] & Hg3). cbn [mbind option_bind].
  eexists. split; [done|]. split_and!; try done. apply (gossip_final n s manual i _ r sub3); try done.
  - cbn. by rewrite insert_insert_eq.
  - by rewrite Em3.
  - rewrite Ei3. cbn. by rewrite Eid.
  - intros n'. rewrite Hg3, Ei3, (no_ip _ _ _ _ Hn _ Eip). case_bool_decide as Hn'.
    + subst n'. rewrite bool_decide_eq_true_2 by (cbn; set_solver). unfold latest, known_ip. rewrite Ec. cbn.
      by rewrite bool_decide_eq_true_2, En.
    + rewrite Hids, Eg2 by congruence. apply H4.
Qed.

(** ** Loops over subnets *)

Definition all_indexed (i : ipTracker) : Prop := ∀ s sub, subnets i !! s = Some sub → sub_indexed sub.
Definition frame (i i' : ipTracker) : Prop :=
  it_trackedSubnets i' = it_trackedSubnets i ∧ tracked i' = tracked i ∧ connected i' = connected i ∧
  it_bloom i' = it_bloom i ∧ bloomAdditions i' = bloomAdditions i ∧ bloomSalt i' = bloomSalt i ∧
  maxBloomCount i' = maxBloomCount i ∧ draws i' = draws i.

(** The subnets of [T] change by [C], the others do not. *)
Definition subs_changed (C : gossipableSubnet → gossipableSubnet → Prop) (T : gset (list Z)) (i i' : ipTracker) : Prop :=
  ∀ s, match subnets i !! s, subnets i' !! s with
       | None, None => True
       | Some a, Some b => if bool_decide (s ∈ T) then sub_indexed b ∧ same_sets a b ∧ C a b else b = a
       | _, _ => False
       end.

Lemma subs_changed_indexed C T i i' : all_indexed i → subs_changed C T i i' → all_indexed i'.
Proof.
  intros Hi Hc s b Hb. specialize (Hc s). rewrite Hb in Hc. destruct (subnets i !! s) as [a|] eqn:Ea; [|done].
  case_bool_decide; [apply Hc|]. subst. by eapply Hi.
Qed.

Lemma subnet_loop (C : gossipableSubnet → gossipableSubnet → Prop) (step : list Z → ipTracker → option ipTracker) (T : gset (list Z)) i :
  all_indexed i →
  (∀ s i, all_indexed i → ∃ i', step s i = Some i' ∧ frame i i' ∧ subs_changed C {[s]} i i') →
  ∃ i', foldl (λ i s, i ≫= step s) (Some i) (elements T) = Some i' ∧ frame i i' ∧ subs_changed C T i i'.
Proof.
  intros Hi Hstep.
  assert (∀ l i, NoDup l → all_indexed i → ∃ i', foldl (λ i s, i ≫= step s) (Some i) l = Some i' ∧
            frame i i' ∧ subs_changed C (list_to_set l) i i') as Hl.
  { clear i Hi. induction l as [|s l IH]; intros i Hnd Hi.
    - exists i. split_and!; try done. intros s. destruct (subnets i !! s); [|done]. by rewrite bool_decide_eq_false_2 by set_solver.
    - apply NoDup_cons in Hnd as [Hs Hnd]. cbn [foldl mbind option_bind].
      destruct (Hstep s i Hi) as (i1 & -> & Hf1 & Hc1).
      destruct (IH i1 Hnd (subs_changed_indexed _ _ _ _ Hi Hc1)) as (i2 & E2 & Hf2 & Hc2).
      exists i2. split_and!; [done|unfold frame in *; naive_solver congruence|].
      intros s'. specialize (Hc1 s'). specialize (Hc2 s').
      destruct (subnets i !! s') as [a|], (subnets i1 !! s') as [b|], (subnets i2 !! s') as [c|]; try done.
      destruct (decide (s' = s)) as [->|Hne].
      + rewrite bool_decide_eq_true_2 in Hc1 by set_solver. rewrite bool_decide_eq_false_2 in Hc2 by set_solver.
        subst. by rewrite bool_decide_eq_true_2 by set_solver.
      + rewrite bool_decide_eq_false_2 in Hc1 by set_solver. subst.
        rewrite (bool_decide_ext (s' ∈ (list_to_set (s :: l) : gset (list Z))) (s' ∈ (list_to_set l : gset (list Z)))) by set_solver.
        done. }
  destruct (Hl (elements T) i) as (i' & E & Hf & Hc); [apply NoDup_elements|done|].
  exists i'. by rewrite list_to_set_elements_L in Hc.
Qed.

(** One subnet of a loop, replaced or not. *)
Lemma subs_changed_one (C : gossipableSubnet → gossipableSubnet → Prop) i s a b :
  subnets i !! s = Some a → sub_indexed b → same_sets a b → C a b →
  subs_changed C {[s]} i (set_subnets (<[s := b]> (subnets i)) i).
Proof.
  intros Ha Hx Hs HC s'. cbn. destruct (decide (s = s')) as [<-|Hne].
  - rewrite Ha, lookup_insert_eq. by rewrite bool_decide_eq_true_2 by set_solver.
  - rewrite lookup_insert_ne by done. destruct (subnets i !! s'); [|done]. by rewrite bool_decide_eq_false_2 by set_solver.
Qed.
Lemma subs_changed_refl (C : gossipableSubnet → gossipableSubnet → Prop) i s :
  all_indexed i → (∀ a, subnets i !! s = Some a → C a a) → subs_changed C {[s]} i i.
Proof.
  intros Hi HC s'. destruct (subnets i !! s') as [a|] eqn:E; [|done].
  case_bool_decide as Hs; [|done]. apply elem_of_singleton in Hs as ->. split_and!; [by eapply Hi|done|auto].
Qed.

Definition gossip_set (ip : ClaimedIPPort) (a b : gossipableSubnet) : Prop :=
  ∀ n, gip b n = if bool_decide (n = ip_NodeID ip ∧ n ∈ gossipableIDs a) then Some ip else gip a n.
Definition gossip_removed (n0 : list Z) (a b : gossipableSubnet) : Prop :=
  ∀ n, gip b n = if bool_decide (n = n0) then None else gip a n.

Lemma setGossipableIP_spec ip T i : all_indexed i →
  ∃ i', setGossipableIP (Some ip) T i = Some i' ∧ frame i i' ∧ subs_changed (gossip_set ip) T i i'.
Proof.
  intros Hi. apply subnet_loop; [done|]. clear i Hi. intros s i Hi. unfold setGossipableIP_step.
  assert (∀ a, subnets i !! s = Some a → ip_NodeID ip ∉ gossipableIDs a → gossip_set ip a a) as Hno.
  { intros a _ Hn n. rewrite bool_decide_eq_false_2; [done|]. intros [-> ?]. done. }
  destruct (subnets i !! s) as [a|] eqn:Ea.
  2: { exists i. split_and!; [done..|]. apply subs_changed_refl; [done|]. intros a Ha. congruence. }
  cbn [mbind option_bind]. case_bool_decide as Hin.
  - unfold set_in_subnet. rewrite Ea. cbn [mbind option_bind].
    destruct (subnet_set_spec ip a (Hi _ _ Ea)) as (b & -> & Hx & Hs & Hg). cbn [mbind option_bind].
    eexists. split; [done|]. split; [done|]. apply (subs_changed_one _ _ _ a); try done.
    intros n. rewrite Hg. repeat case_bool_decide; naive_solver.
  - exists i. split_and!; [done..|]. apply subs_changed_refl; [done|]. intros a' Ha'. apply Hno; congruence.
Qed.

Lemma Disconnected_spec n T i : all_indexed i →
  ∃ i', foldl (λ i s, i ≫= Disconnected_step n s) (Some i) (elements T) = Some i' ∧
    frame i i' ∧ subs_changed (gossip_removed n) T i i'.
Proof.
  intros Hi. apply subnet_loop; [done|]. clear i Hi. intros s i Hi. unfold Disconnected_step.
  destruct (subnets i !! s) as [a|] eqn:Ea.
  - destruct (subnet_remove_spec n a (Hi _ _ Ea)) as (b & -> & Hx & Hs & Hg). cbn [mbind option_bind].
    eexists. split; [done|]. split; [done|]. by apply (subs_changed_one _ _ _ a).
  - exists i. split_and!; [done..|]. apply subs_changed_refl; [done|]. intros a Ha. congruence.
Qed.

(** ** A new IP of a node *)

(** The newest of the IP of a node and another. *)
Definition newest (node : trackedNode) (ip : ClaimedIPPort) : ClaimedIPPort :=
  match tn_ip node with
  | Some old => if bool_decide (ip_Timestamp old < ip_Timestamp ip)%Z then ip else old
  | None => ip
  end.

Definition conn_subnets (i : ipTracker) (n : list Z) : gset (list Z) := from_option cn_trackedSubnets ∅ (connected i !! n).

Lemma latest_unfold i s n : latest i s n = if bool_decide (s ∈ conn_subnets i n) then known_ip i n else None.
Proof. unfold latest, conn_subnets. destruct (connected i !! n); cbn; [done|]. by rewrite bool_decide_eq_false_2 by set_solver. Qed.

Lemma tr_ok_new_ip i i' r n node ip :
  tr_ok i r → tracked i !! n = Some node → ip_NodeID ip = n → it_trackedSubnets i' = it_trackedSubnets i →
  tracked i' = <[n := with_ip node ip]> (tracked i) →
  (∀ n', n' ≠ n → connected i' !! n' = connected i !! n') →
  (∀ cn, connected i' !! n = Some cn → ip_NodeID (cn_ip cn) = n) → conn_subnets i n ⊆ conn_subnets i' n →
  subs_changed (gossip_set ip) (conn_subnets i' n) i i' → tr_ok i' r.
Proof.
  intros H En Hip Hts Ht Hc Hcn Hsub Hs. split; try apply H.
  - intros n'. rewrite Ht. destruct (decide (n = n')) as [<-|Hne].
    + rewrite lookup_insert_eq. destruct (to_node _ _ _ _ H En) as [H1 H2 H3 H4 H5 H6].
      split; cbn; try done; [intros s; rewrite H4; unfold tracks; by rewrite Hts|by intros ? [= <-]].
    + rewrite lookup_insert_ne by done. pose proof (to_tracked _ _ H n') as Hn'. destruct (tracked i !! n'); [|done].
      eapply node_ok_ext; try done. by rewrite Hc.
  - intros s. specialize (Hs s). pose proof (to_subnets _ _ H s) as Ha.
    destruct (subnets i !! s) as [a|], (subnets i' !! s) as [b|]; try done.
    assert (∀ n', latest i' s n' = if bool_decide (n' = n ∧ s ∈ conn_subnets i' n) then Some ip else
              if bool_decide (n' = n) then None else latest i s n') as Hl.
    { intros n'. destruct (decide (n' = n)) as [->|Hne].
      - rewrite latest_unfold. unfold known_ip. rewrite Ht, lookup_insert_eq. cbn. repeat case_bool_decide; naive_solver.
      - rewrite !bool_decide_eq_false_2 by naive_solver. apply latest_ext; [by apply Hc|].
        unfold known_ip. by rewrite Ht, lookup_insert_ne. }
    destruct Ha as [H1 H2 H3 H4 H5]. case_bool_decide as Hin.
    + destruct Hs as (Hx & [Em Ei] & Hg). split; rewrite ?Em, ?Ei; try done.
      intros n'. rewrite Hg, H5, Hl, Hip. destruct (decide (n' = n)) as [->|Hne].
      * rewrite !(bool_decide_ext (n = n ∧ _) _ (conj (λ H, proj2 H) (conj eq_refl))). 
        rewrite (bool_decide_eq_true_2 (s ∈ _)) by done. by case_bool_decide.
      * rewrite !(bool_decide_eq_false_2 (n' = n ∧ _)), (bool_decide_eq_false_2 (n' = n)) by naive_solver. done.
    + subst b. split; try done. intros n'. rewrite H5, Hl. destruct (decide (n' = n)) as [->|Hne].
      * rewrite (bool_decide_eq_false_2 (n = n ∧ _)), (bool_decide_eq_true_2 (n = n)) by naive_solver.
        rewrite latest_unfold, (bool_decide_eq_false_2 (s ∈ conn_subnets i n)) by set_solver. done.
      * by rewrite !(bool_decide_eq_false_2 (n' = n ∧ _)), (bool_decide_eq_false_2 (n' = n)) by naive_solver.
  - intros n' cn. destruct (decide (n' = n)) as [->|Hne]; [apply Hcn|]. rewrite Hc by done. apply H.
Qed.

Lemma tr_all_indexed i r : tr_ok i r → all_indexed i.
Proof. intros H s sub E. apply (so_indexed _ _ _ _ (to_sub _ _ _ _ H E)). Qed.

Lemma subs_changed_none C i i' : subnets i' = subnets i → subs_changed C ∅ i i'.
Proof. intros E s. rewrite E. destruct (subnets i !! s); [|done]. by rewrite bool_decide_eq_false_2 by set_solver. Qed.

Lemma subs_changed_same C T i i1 i' : subnets i1 = subnets i → subs_changed C T i1 i' → subs_changed C T i i'.
Proof. intros E Hc s. specialize (Hc s). by rewrite E in Hc. Qed.

(** ** The operations *)

(** A node that is not tracked may connect: no subnet has it. *)
Lemma tr_ok_untracked i i' r n :
  tr_ok i r → tracked i !! n = None → it_trackedSubnets i' = it_trackedSubnets i → tracked i' = tracked i →
  subnets i' = subnets i → (∀ n', n' ≠ n → connected i' !! n' = connected i !! n') →
  (∀ cn, connected i' !! n = Some cn → ip_NodeID (cn_ip cn) = n) → tr_ok i' r.
Proof.
  intros H En Hts Ht Hs Hc Hcn. split; try apply H.
  - intros n'. rewrite Ht. pose proof (to_tracked _ _ H n') as Hn'. destruct (tracked i !! n') eqn:E; [|done].
    eapply node_ok_ext; try done. rewrite Hc; [done|]. congruence.
  - intros s. rewrite Hs. pose proof (to_subnets _ _ H s) as Ha. destruct (subnets i !! s); [|done].
    eapply sub_ok_ext; [done..|]. intros n' Hn'. apply latest_ext; [|unfold known_ip; by rewrite Ht].
    apply Hc. intros ->. destruct (member_tracked _ _ _ _ H Hn') as [? ?]. congruence.
  - intros n' cn. destruct (decide (n' = n)) as [->|Hne]; [apply Hcn|]. rewrite Hc by done. apply H.
Qed.

Lemma newest_node node ip n : (∀ old, tn_ip node = Some old → ip_NodeID old = n) → ip_NodeID ip = n →
  ip_NodeID (newest node ip) = n.
Proof. intros Ho Hi. unfold newest. destruct (tn_ip node); [case_bool_decide|]; auto. Qed.

Lemma Disconnected_ok n i r : tr_ok i r → bloom_wf i →
  ∃ i', Disconnected n i = Some i' ∧ bloom_wf i' ∧ tr_ok i' r ∧ it_trackedSubnets i' = it_trackedSubnets i ∧
    connected i' = delete n (connected i) ∧ tracked i' = tracked i.
Proof.
  intros H Hw. unfold Disconnected. destruct (connected i !! n) as [cn|] eqn:Ec.
  2: { exists i. split_and!; try done. by rewrite delete_id. }
  set (i1 := set_connected _ i).
  destruct (Disconnected_spec n (cn_trackedSubnets cn) i1 (tr_all_indexed _ _ H)) as (i2 & E & (F1 & F2 & F3 & F4 & _) & Hsub).
  exists i2. split_and!; try done; [unfold bloom_wf; by rewrite F4|]. split; try apply H.
  - intros n'. rewrite F2. cbn. pose proof (to_tracked _ _ H n') as Hn'. destruct (tracked i !! n'); [|done].
    eapply node_ok_ext; try done. rewrite F3. cbn. intros [? [_ ?]%lookup_delete_Some]. eauto.
  - intros s. specialize (Hsub s). cbn in Hsub. pose proof (to_subnets _ _ H s) as Ha.
    destruct (subnets i !! s) as [a|], (subnets i2 !! s) as [b|]; try done.
    assert (∀ n', latest i2 s n' = if bool_decide (n' = n) then None else latest i s n') as Hl.
    { intros n'. unfold latest. rewrite F3. change (connected i1) with (delete n (connected i)).
      destruct (decide (n' = n)) as [->|Hd].
      - by rewrite bool_decide_eq_true_2, lookup_delete_eq.
      - rewrite (bool_decide_eq_false_2 (n' = n)), lookup_delete_ne by done. unfold known_ip. by rewrite F2. }
    destruct Ha as [H1 H2 H3 H4 H5]. case_bool_decide as Hin.
    + destruct Hsub as (Hx & [Em Ei] & Hg). split; rewrite ?Em, ?Ei; try done.
      intros n'. rewrite Hg, H5, Hl. repeat case_bool_decide; done.
    + subst b. split; try done. intros n'. rewrite H5, Hl. destruct (decide (n' = n)) as [->|Hne].
      * rewrite latest_unfold. unfold conn_subnets. rewrite Ec. cbn [from_option].
        by rewrite (bool_decide_eq_false_2 (s ∈ cn_trackedSubnets cn)), (bool_decide_eq_true_2 (n = n)).
      * by rewrite (bool_decide_eq_false_2 (n' = n)).
  - rewrite F3. cbn. intros n' cn' [_ Hn']%lookup_delete_Some. by apply (to_connected _ _ H).
Qed.

(** ** Validators *)

Definition r_remove (s n : list Z) (r : trace_ref) : trace_ref :=
  if bool_decide ((s, n) ∈ rf_mgossip r) then r
  else mkRef (rf_manual r) (rf_tracked r ∖ {[(s, n)]}) (rf_gossip r ∖ {[(s, n)]}) (rf_mgossip r).

(** The tracker without the member [n] of [s]. *)
Definition without (s n : list Z) (sub' : gossipableSubnet) (node : trackedNode) (i : ipTracker) : ipTracker :=
  let node' := mkTracked (manuallyTracked node) (validatedSubnets node ∖ {[s]}) (tn_trackedSubnets node ∖ {[s]}) (tn_ip node) in
  set_tracked (if node_canDelete node' then delete n (tracked i) else <[n := node']> (tracked i))
    (set_subnets (if subnet_canDelete sub' then delete s (subnets i) else <[s := sub']> (subnets i)) i).

Lemma without_nodes s n sub' node i r n' :
  tr_ok i r → (s, n) ∉ rf_mgossip r → tracked i !! n = Some node →
  let i' := without s n sub' node i in
  match tracked i' !! n' with
  | None => n' ∉ rf_manual r ∧ ∀ s', (s', n') ∉ rf_tracked r ∖ {[(s, n)]}
  | Some node => node_ok i' (r_remove s n r) n' node
  end.
Proof.
  intros H Hm En i'. unfold i', without. cbn [tracked set_tracked set_subnets].
  set (node' := mkTracked _ _ _ _). destruct (to_node _ _ _ _ H En) as [H1 H2 H3 H4 H5 H6].
  assert (node_canDelete node' = true ↔ n ∉ rf_manual r ∧ ∀ s', (s', n) ∉ rf_tracked r ∖ {[(s, n)]}) as Hdel.
  { unfold node_canDelete. cbn. rewrite andb_true_iff, negb_true_iff, H2, bool_decide_eq_false, bool_decide_eq_true.
    rewrite size_empty_iff. apply and_iff_compat_l. split.
    - intros He s' Hs'. specialize (He s'). specialize (H3 s'). set_solver.
    - intros Ha s'. specialize (Ha s'). specialize (H3 s'). set_solver. }
  destruct (decide (n = n')) as [<-|Hne].
  - destruct (node_canDelete node') eqn:Ed; [rewrite lookup_delete_eq; by apply Hdel|].
    rewrite lookup_insert_eq. unfold r_remove. rewrite bool_decide_eq_false_2 by done. split; cbn; try done.
    + destruct (decide (n ∈ rf_manual r)) as [|Hnm]; [by left|right].
      destruct (decide (validatedSubnets node ∖ {[s]} = ∅)) as [He|He].
      * exfalso. assert (node_canDelete node' = true) as Hd; [|congruence].
        unfold node_canDelete. cbn. rewrite H2, He, size_empty. by rewrite bool_decide_eq_false_2.
      * apply set_choose_L in He as [s' Hs']. exists s'. specialize (H3 s'). set_solver.
    + intros s'. specialize (H3 s'). set_solver.
    + intros s'. specialize (H4 s'). unfold tracks in *. cbn. set_solver.
  - assert ((if node_canDelete node' then delete n (tracked i) else <[n := node']> (tracked i)) !! n' = tracked i !! n') as ->
      by (destruct (node_canDelete node'); [by apply lookup_delete_ne|by apply lookup_insert_ne]).
    pose proof (to_tracked _ _ H n') as Hn'. destruct (tracked i !! n'); [|set_solver].
    unfold r_remove. rewrite bool_decide_eq_false_2 by done. eapply node_ok_ext; try done. cbn. set_solver.
Qed.

Lemma without_subnets s n sub sub' node i r s' :
  tr_ok i r → (s, n) ∉ rf_mgossip r → tracked i !! n = Some node → subnets i !! s = Some sub →
  sub_indexed sub' → manuallyGossipable sub' = manuallyGossipable sub → gossipableIDs sub' = gossipableIDs sub ∖ {[n]} →
  gossip_removed n sub sub' →
  let i' := without s n sub' node i in
  match subnets i' !! s' with
  | None => ∀ n', (s', n') ∉ rf_gossip r ∖ {[(s, n)]}
  | Some sub => sub_ok i' (r_remove s n r) s' sub
  end.
Proof.
  intros H Hm En Es Hx Em Ei Hg i'.
  assert (∀ s0 n', (s0, n') ∈ rf_gossip r → (s0, n') ≠ (s, n) → latest i' s0 n' = latest i s0 n') as Hl.
  { intros s0 n' Hn' Hne. apply latest_ext; [done|]. unfold i', without, known_ip. cbn.
    destruct (decide (n' = n)) as [->|Hnn].
    - destruct (node_canDelete _) eqn:Ed; [|by rewrite lookup_insert_eq, En].
      exfalso. unfold node_canDelete in Ed. cbn in Ed. apply andb_true_iff in Ed as [_ Ed%bool_decide_eq_true].
      apply size_empty_iff in Ed. destruct (to_node _ _ _ _ H En) as [_ _ H3 _ _ _].
      specialize (Ed s0). specialize (H3 s0). pose proof (to_incl _ _ H). set_solver.
    - destruct (node_canDelete _); [by rewrite lookup_delete_ne|by rewrite lookup_insert_ne]. }
  destruct (to_sub _ _ _ _ H Es) as [H1 H2 H3 H4 H5].
  unfold r_remove. rewrite bool_decide_eq_false_2 by done.
  assert (subnets i' = if subnet_canDelete sub' then delete s (subnets i) else <[s := sub']> (subnets i)) as -> by done.
  destruct (decide (s = s')) as [<-|Hne].
  - assert (subnet_canDelete sub' = true ↔ ∀ n', (s, n') ∉ rf_gossip r ∖ {[(s, n)]}) as Hdel.
    { unfold subnet_canDelete. rewrite bool_decide_eq_true, size_empty_iff, Ei. split.
      - intros He n' Hn'. specialize (He n'). specialize (H2 n'). set_solver.
      - intros Ha n'. specialize (Ha n'). specialize (H2 n'). set_solver. }
    destruct (subnet_canDelete sub') eqn:Ed; [rewrite lookup_delete_eq; by apply Hdel|]. rewrite lookup_insert_eq.
    assert (gossipableIDs sub' ≠ ∅) as Hne by (intros He; unfold subnet_canDelete in Ed; by rewrite He, size_empty in Ed).
    split; cbn; try done.
    + apply set_choose_L in Hne as [n' Hn']. exists n'. specialize (H2 n'). set_solver.
    + intros n'. rewrite Ei. specialize (H2 n'). set_solver.
    + intros n'. by rewrite Em.
    + intros n'. rewrite Hg, H5, Ei. destruct (decide (n' = n)) as [->|Hnn].
      * rewrite (bool_decide_eq_true_2 (n = n)), bool_decide_eq_false_2 by set_solver. done.
      * rewrite (bool_decide_eq_false_2 (n' = n)) by done.
        rewrite (bool_decide_ext (n' ∈ gossipableIDs sub ∖ {[n]}) (n' ∈ gossipableIDs sub)) by set_solver.
        case_bool_decide as Hin; [|done]. symmetry. apply Hl; [by apply H2|congruence].
  - assert ((if subnet_canDelete sub' then delete s (subnets i) else <[s := sub']> (subnets i)) !! s' = subnets i !! s') as ->
      by (destruct (subnet_canDelete sub'); [by apply lookup_delete_ne|by apply lookup_insert_ne]).
    pose proof (to_subnets _ _ H s') as Hs'. destruct (subnets i !! s'); [|set_solver].
    destruct Hs' as [K1 K2 K3 K4 K5]. split; cbn; try done.
    + destruct K1 as [n' Hn']. exists n'. set_solver.
    + intros n'. specialize (K2 n'). set_solver.
    + intros n'. rewrite K5. case_bool_decide as Hin; [|done]. symmetry. apply Hl; [by apply K2|congruence].
Qed.

Lemma OnValidatorRemoved_ok s n i r : tr_ok i r → bloom_wf i → rf_tracked r = rf_gossip r →
  ∃ i', OnValidatorRemoved s n i = Some i' ∧ bloom_wf i' ∧ tr_ok i' (r_remove s n r) ∧
    it_trackedSubnets i' = it_trackedSubnets i ∧ connected i' = connected i.
Proof.
  intros H Hw Heq. unfold OnValidatorRemoved. pose proof (to_incl _ _ H) as Hi1. pose proof (to_mincl _ _ H) as Hi2.
  assert (∀ i', tr_ok i' r → (s, n) ∉ rf_gossip r → tr_ok i' (r_remove s n r)) as Hsame.
  { intros i' Hi' Hn. unfold r_remove. rewrite bool_decide_eq_false_2 by set_solver.
    rewrite !difference_disjoint_L by set_solver. by destruct r. }
  destruct (subnets i !! s) as [sub|] eqn:Es.
  2: { exists i. split_and!; try done. apply Hsame; [done|]. pose proof (to_subnets _ _ H s) as Hs. rewrite Es in Hs. apply Hs. }
  destruct (to_sub _ _ _ _ H Es) as [H1 H2 H3 H4 H5]. case_bool_decide as Hm.
  { exists i. split_and!; try done. unfold r_remove. rewrite bool_decide_eq_true_2; [done|]. by apply H3. }
  assert ((s, n) ∉ rf_mgossip r) as Hmg by (by rewrite <-H3).
  set (sub1 := mkSubnet _ _ _ _). destruct (subnet_remove_spec n sub1) as (sub2 & -> & Hx & [Em Ei] & Hg); [done|].
  cbn [mbind option_bind]. cbn [tracked set_subnets].
  assert (gossip_removed n sub sub2) as Hrem by exact Hg.
  destruct (tracked i !! n) as [node|] eqn:En.
  - exists (without s n sub2 node i). split_and!; try done.
    assert (r_remove s n r = mkRef (rf_manual r) (rf_tracked r ∖ {[(s, n)]}) (rf_gossip r ∖ {[(s, n)]}) (rf_mgossip r)) as Er
      by (unfold r_remove; by rewrite bool_decide_eq_false_2).
    split.
    + intros n'. pose proof (without_nodes s n sub2 node i r n' H Hmg En) as Hn'. cbv zeta in Hn'.
      destruct (tracked _ !! n'); [done|]. by rewrite Er.
    + intros s'. pose proof (without_subnets s n sub sub2 node i r s' H Hmg En Es Hx Em Ei Hrem) as Hs'. cbv zeta in Hs'.
      destruct (subnets _ !! s'); [done|]. by rewrite Er.
    + apply H.
    + rewrite Er. cbn. clear -Hi1. set_solver.
    + rewrite Er. cbn. clear -Hi2 Hmg. set_solver.
  - pose proof (to_tracked _ _ H n) as Hn. rewrite En in Hn. destruct Hn as [_ Hn]. rewrite Heq in Hn.
    eexists. split; [done|]. split_and!; try done. apply Hsame; [|done].
    assert (gossipableIDs sub2 = gossipableIDs sub) as Eids.
    { rewrite Ei. cbn. apply difference_disjoint_L. rewrite disjoint_singleton_r, H2. apply Hn. }
    assert (subnet_canDelete sub2 = false) as ->.
    { unfold subnet_canDelete. rewrite Eids. apply bool_decide_eq_false. rewrite size_empty_iff.
      destruct H1 as [n' Hn'%H2]. intros He. rewrite He in Hn'. by apply not_elem_of_empty in Hn'. }
    eapply (tr_ok_one_subnet i _ r r s sub2); try done. split; try done.
    + intros n'. by rewrite Eids.
    + intros n'. by rewrite Em.
    + intros n'. rewrite Hrem, Eids, H5. case_bool_decide as Hd; [|done]. subst.
      by rewrite bool_decide_eq_false_2 by (rewrite H2; apply Hn).
Qed.

(** ** What the invariant says *)

Lemma tr_wants i r n : tr_ok i r →
  WantsConnection n i = true ↔ n ∈ rf_manual r ∨ ∃ s, tracks i s ∧ (s, n) ∈ rf_tracked r.
Proof.
  intros H. unfold WantsConnection. pose proof (to_tracked _ _ H n) as Hn. destruct (tracked i !! n) as [node|].
  2: { destruct Hn as [Hn Hs]. split; [done|]. intros [?|(s & _ & Hs')]; [done|]. by apply Hs in Hs'. }
  unfold node_wantsConnection. destruct Hn as [_ Hm _ Ht _ _]. rewrite orb_true_iff, Hm, !bool_decide_eq_true.
  assert (0 < size (tn_trackedSubnets node) ↔ ∃ s, s ∈ tn_trackedSubnets node) as ->.
  { destruct (set_choose_or_empty (tn_trackedSubnets node)) as [[s Hs]|He].
    - split; [eauto|]. intros _. assert (size (tn_trackedSubnets node) ≠ 0); [|lia].
      rewrite size_non_empty_iff. set_solver.
    - apply leibniz_equiv in He. rewrite He, size_empty. split; [lia|]. intros [s Hs]. by apply not_elem_of_empty in Hs. }
  setoid_rewrite Ht. naive_solver.
Qed.

(** The IPs gossiped on a subnet. *)
Definition gossiped (s : list Z) (i : ipTracker) : list ClaimedIPPort :=
  default [] (gossipableIPs <$> subnets i !! s).

Lemma GetIP_known n i : (GetIP n i).1 = known_ip i n.
Proof. unfold GetIP, known_ip. destruct (tracked i !! n) as [node|]; [|done]. cbn. by destruct (tn_ip node). Qed.

Lemma known_NodeID i r n ip : tr_ok i r → known_ip i n = Some ip → ip_NodeID ip = n.
Proof.
  intros H. unfold known_ip. destruct (tracked i !! n) as [node|] eqn:E; [|done]. cbn. apply (to_node _ _ _ _ H E).
Qed.

Lemma tr_gossiped i r s : tr_ok i r →
  NoDup (ip_NodeID <$> gossiped s i) ∧
  ∀ ip, ip ∈ gossiped s i ↔ (s, ip_NodeID ip) ∈ rf_gossip r ∧ (GetIP (ip_NodeID ip) i).1 = Some ip ∧
    ∃ cn, connected i !! ip_NodeID ip = Some cn ∧ s ∈ cn_trackedSubnets cn.
Proof.
  intros H. unfold gossiped. pose proof (to_subnets _ _ H s) as Hs. destruct (subnets i !! s) as [sub|]; cbn.
  2: { split; [constructor|]. intros ip. split; [by intros ?%not_elem_of_nil|]. intros [Hg _]. by apply Hs in Hg. }
  destruct Hs as [_ Hids _ Hx Hg]. split; [by apply (indexed_NoDup _ _ _ Hx)|]. intros ip.
  assert (ip ∈ gossipableIPs sub ↔ gip sub (ip_NodeID ip) = Some ip) as ->.
  { unfold gip. rewrite (indexed_get _ _ _ _ _ Hx). naive_solver. }
  rewrite Hg, GetIP_known, <-Hids. unfold latest. case_bool_decide as Hd; [|naive_solver].
  destruct (connected i !! ip_NodeID ip) as [cn|]; [|naive_solver]. cbn. case_bool_decide; naive_solver.
Qed.

Section props.
Variable sha256 : list Z → list Z.
Variable rnd : nat → Z → option (list Z).
Variable optimal : Z → Z * Z.
Variable estimate : Z → Z → Z.
Hypothesis Hrnd : ∀ k n bs, (0 ≤ n)%Z → rnd k n = Some bs → bytes_ok bs ∧ Z.of_nat (length bs) = n.
Hypothesis Hopt : ∀ c, ((optimal c).2 < 2 ^ 60)%Z.

Local Abbreviation resetBloom := (resetBloom sha256 rnd optimal estimate).
Local Abbreviation update := (updateMostRecentTrackedIP sha256 rnd optimal estimate).
Local Abbreviation addTrackableID := (addTrackableID sha256 rnd optimal estimate).
Local Abbreviation addIP := (addIP sha256 rnd optimal estimate).

Lemma fill_bloom_wf nodes salt f additions : filter_wf f →
  ∃ f' additions', fill_bloom sha256 nodes salt f additions = Some (f', additions') ∧ filter_wf f'.
Proof.
  revert f additions. induction nodes as [|[n node] nodes IH]; intros f additions Hf; cbn; [eauto|].
  destruct (tn_ip node) as [ip|]; [|by apply IH]. unfold bloom_Add.
  destruct (Filter_Add_spec f (Hash sha256 (ip_GossipID ip) salt) Hf) as (f' & -> & Hf' & _). cbn. by apply IH.
Qed.

Lemma resetBloom_wf i : bloom_wf i → ∃ res i', resetBloom i = Some (res, i') ∧ same_view i i' ∧ bloom_wf i'.
Proof.
  intros Hi. unfold IpTracker.resetBloom. destruct (rnd _ saltSize) as [salt|]; [|by eexists _, _].
  destruct (optimal _) as [numHashes numEntries] eqn:Eo.
  pose proof (Hopt (Z.max (maxIPEntriesPerNode * Z.of_nat (size (tracked i))) minCountEstimate)) as Hlt.
  rewrite Eo in Hlt. destruct (New _ numHashes numEntries) as [f|e] eqn:EN; [|by eexists _, _].
  apply Filter_New_wf in EN as (Hf & _); [|by intros; eapply Hrnd|exact Hlt].
  destruct (fill_bloom_wf (map_to_list (tracked i)) salt f ∅ Hf) as (f' & adds & -> & Hf'). cbn.
  by eexists _, _.
Qed.

Lemma update_spec n ip i node : bloom_wf i → tracked i !! n = Some node →
  ∃ i', update n ip i = Some i' ∧ same_view (set_tracked (<[n := with_ip node ip]> (tracked i)) i) i' ∧ bloom_wf i'.
Proof.
  intros Hi Hn. unfold updateMostRecentTrackedIP. rewrite Hn. cbn [mbind option_bind].
  set (i1 := set_tracked _ i). assert (bloom_wf i1) as Hi1 by exact Hi.
  case_bool_decide; [by exists i1|]. case_bool_decide.
  - destruct (resetBloom_wf i1 Hi1) as (res & i' & -> & Hv & Hw). by exists i'.
  - unfold bloom_Add. destruct (Filter_Add_spec (it_bloom i1) (Hash sha256 (ip_GossipID ip) (bloomSalt i1)) Hi1) as (f' & -> & Hf' & _).
    by eexists.
Qed.

Lemma addTrackableID_view n s i : bloom_wf i →
  let node0 := default (mkTracked false ∅ ∅ None) (tracked i !! n) in
  let node := marked i s node0 in
  ∃ i', addTrackableID n s i = Some i' ∧ bloom_wf i' ∧
    it_trackedSubnets i' = it_trackedSubnets i ∧ connected i' = connected i ∧ subnets i' = subnets i ∧
    tracked i' = <[n := match tracked i !! n, connected i !! n with
                        | None, Some cn => with_ip node (cn_ip cn)
                        | _, _ => node end]> (tracked i).
Proof.
  intros Hi node0 node. unfold IpTracker.addTrackableID.
  fold node0. change (match s with None => _ | Some _ => _ end) with node. cbn [set_tracked connected].
  destruct (tracked i !! n) as [node1|] eqn:En.
  { rewrite bool_decide_eq_true_2 by done. by eexists. }
  rewrite bool_decide_eq_false_2 by (by intros []). destruct (connected i !! n) as [cn|] eqn:Ec; [|by eexists].
  destruct (update_spec n (cn_ip cn) (set_tracked (<[n := node]> (tracked i)) i) node)
    as (i' & -> & (Hv1 & Hv2 & Hv3 & Hv4) & Hw); [done|by cbn; rewrite lookup_insert_eq|].
  exists i'. split_and!; try done. rewrite Hv2. cbn. by rewrite insert_insert_eq.
Qed.

Lemma addTrackableID_ok n s i r : tr_ok i r → bloom_wf i →
  ∃ i', addTrackableID n s i = Some i' ∧ bloom_wf i' ∧ tr_ok i' (r_track n s r) ∧
    it_trackedSubnets i' = it_trackedSubnets i ∧ connected i' = connected i ∧ subnets i' = subnets i.
Proof.
  intros H Hw. destruct (addTrackableID_view n s i Hw) as (i' & E & Hw' & Hts & Hc & Hs & Ht).
  exists i'. split_and!; try done. split.
  - intros n'. rewrite Ht. destruct (decide (n = n')) as [<-|Hne].
    + rewrite lookup_insert_eq. pose proof (to_tracked _ _ H n) as Hn. pose proof (reasons_default i r n H) as Hr.
      destruct (tracked i !! n) as [node|] eqn:En; cbn [default from_option id] in *.
      { apply marked_ok; try done; [apply Hn|rewrite Hc; apply Hn]. }
      destruct (connected i !! n) as [cn|] eqn:Ec.
      * replace (with_ip _ _) with (marked i s (with_ip (mkTracked false ∅ ∅ None) (cn_ip cn))) by (by destruct s).
        apply marked_ok; try done. intros ip [= <-]. by apply (to_connected _ _ H).
      * apply marked_ok; try done. rewrite Hc, Ec. by intros [].
    + rewrite lookup_insert_ne by done. pose proof (to_tracked _ _ H n') as Hn.
      destruct (r_track_other n s r n') as [Hm Htr]; [done|]. destruct (tracked i !! n').
      * eapply node_ok_ext; try done. by rewrite Hc.
      * rewrite Hm. by setoid_rewrite Htr.
  - intros s'. rewrite Hs. pose proof (to_subnets _ _ H s') as Hsub.
    destruct (subnets i !! s') as [sub|]; [|by destruct s].
    eapply sub_ok_ext; [done|by destruct s..|]. intros n' Hn'. apply latest_ext; [by rewrite Hc|].
    unfold known_ip. rewrite Ht. destruct (decide (n = n')) as [<-|Hne]; [|by rewrite lookup_insert_ne].
    rewrite lookup_insert_eq. destruct (member_tracked _ _ _ _ H Hn') as [node ->]. by destruct s.
  - rewrite Hc. apply H.
  - destruct s; cbn; [|apply H]. pose proof (to_incl _ _ H). set_solver.
  - destruct s; cbn; apply H.
Qed.

Lemma addIP_stale ip i node old :
  tracked i !! ip_NodeID ip = Some node → tn_ip node = Some old → (ip_Timestamp ip ≤ ip_Timestamp old)%Z →
  ∃ c, addIP ip i = Some (c, i) ∧ c ≠ untrackedTimestamp ∧ (c ≤ sameTimestamp)%Z.
Proof.
  intros En Eip Hle. unfold IpTracker.addIP. rewrite En, Eip. case_bool_decide; [by eexists|].
  rewrite bool_decide_eq_true_2 by lia. by eexists.
Qed.

Lemma addIP_fresh ip i node : bloom_wf i → tracked i !! ip_NodeID ip = Some node →
  (∀ old, tn_ip node = Some old → (ip_Timestamp old < ip_Timestamp ip)%Z) →
  ∃ c i', addIP ip i = Some (c, i') ∧ (sameTimestamp < c)%Z ∧ bloom_wf i' ∧
    same_view (set_tracked (<[ip_NodeID ip := with_ip node ip]> (tracked i)) i) i'.
Proof.
  intros Hw En Hold. destruct (update_spec (ip_NodeID ip) ip i node Hw En) as (i' & E & Hv & Hw').
  unfold IpTracker.addIP. rewrite En. destruct (tn_ip node) as [old|] eqn:Eip.
  - specialize (Hold _ eq_refl). rewrite !bool_decide_eq_false_2 by lia. rewrite E. by eexists _, i'.
  - rewrite E. by eexists _, i'.
Qed.

Lemma addIP_spec ip i : bloom_wf i →
  ∃ c c' i', addIP ip i = Some (c, i') ∧ bloom_wf i' ∧ addIP ip i' = Some (c', i') ∧
    it_trackedSubnets i' = it_trackedSubnets i ∧ connected i' = connected i ∧ subnets i' = subnets i ∧
    match tracked i !! ip_NodeID ip with
    | None => c = untrackedTimestamp ∧ i' = i
    | Some node => c ≠ untrackedTimestamp ∧ tracked i' = <[ip_NodeID ip := with_ip node (newest node ip)]> (tracked i) ∧
        ((c ≤ sameTimestamp)%Z → i' = i) ∧
        ((sameTimestamp < c)%Z ↔ ∀ old, tn_ip node = Some old → (ip_Timestamp old < ip_Timestamp ip)%Z)
    end.
Proof.
  intros Hw. destruct (tracked i !! ip_NodeID ip) as [node|] eqn:En.
  2: { exists untrackedTimestamp, untrackedTimestamp, i. unfold IpTracker.addIP. rewrite En. by split_and!. }
  assert ((∃ old, tn_ip node = Some old ∧ (ip_Timestamp ip ≤ ip_Timestamp old)%Z) ∨
          ∀ old, tn_ip node = Some old → (ip_Timestamp old < ip_Timestamp ip)%Z) as [(old & Eip & Hle)|Hold].
  { destruct (tn_ip node) as [old|]; [|by right].
    destruct (decide (ip_Timestamp ip ≤ ip_Timestamp old)%Z); [left; eauto|right; intros ? [= <-]; lia]. }
  - destruct (addIP_stale ip i node old En Eip Hle) as (c & E & Hc & Hsame). exists c, c, i.
    assert (newest node ip = old) as -> by (unfold newest; rewrite Eip, bool_decide_eq_false_2 by lia; done).
    assert (with_ip node old = node) as -> by (destruct node; unfold with_ip; cbn in *; congruence).
    split_and!; try done; [by rewrite insert_id|].
    split; [lia|]. intros Hold. specialize (Hold _ Eip). lia.
  - destruct (addIP_fresh ip i node Hw En Hold) as (c & i' & E & Hc & Hw' & Hv1 & Hv2 & Hv3 & Hv4).
    assert (newest node ip = ip) as ->.
    { unfold newest. destruct (tn_ip node); [|done]. by rewrite bool_decide_eq_true_2 by auto. }
    destruct (addIP_stale ip i' (with_ip node ip) ip) as (c' & E' & _); [by rewrite Hv2; cbn; rewrite lookup_insert_eq|done|lia|].
    exists c, c', i'. split_and!; try done; [|lia]. unfold sameTimestamp, untrackedTimestamp in *. lia.
Qed.

Local Abbreviation Connected := (Connected sha256 rnd optimal estimate).
Local Abbreviation AddIP := (AddIP sha256 rnd optimal estimate).

Lemma Connected_ok ip T i r : tr_ok i r → bloom_wf i → connected i !! ip_NodeID ip = None →
  ∃ i', Connected ip T i = Some i' ∧ bloom_wf i' ∧ tr_ok i' r ∧ it_trackedSubnets i' = it_trackedSubnets i ∧
    connected i' = <[ip_NodeID ip := mkConnected T ip]> (connected i).
Proof.
  intros H Hw Hnc. unfold IpTracker.Connected. set (i1 := set_connected _ i). set (n := ip_NodeID ip) in *.
  destruct (addIP_spec ip i1 Hw) as (c & c' & i2 & -> & Hw2 & Hagain & Hts & Hc & Hs & Hcase).
  cbn [mbind option_bind]. rewrite Hagain. cbn [mbind option_bind]. clear Hagain. change (tracked i1) with (tracked i) in *.
  fold n in Hcase. destruct (tracked i !! n) as [node|] eqn:En.
  - destruct Hcase as (Hcu & Ht & _). rewrite bool_decide_eq_true_2 by done.
    unfold tracked_ip. fold n. rewrite Ht, lookup_insert_eq. cbn [fmap option_fmap option_map mbind option_bind with_ip tn_ip].
    assert (all_indexed i2) as Hx by (unfold all_indexed; rewrite Hs; apply (tr_all_indexed _ _ H)).
    destruct (setGossipableIP_spec (newest node ip) T i2 Hx) as (i3 & E & (F1 & F2 & F3 & F4 & _) & Hsub).
    exists i3. split_and!; try (rewrite ?F1, ?F3, ?Hc, ?Hts; done).
    + unfold bloom_wf. by rewrite F4.
    + assert (conn_subnets i3 n = T) as HT by (unfold conn_subnets; rewrite F3, Hc; cbn; by rewrite lookup_insert_eq).
      eapply (tr_ok_new_ip i i3 r n node (newest node ip)); try done.
      * apply newest_node; [|done]. apply (to_node _ _ _ _ H En).
      * by rewrite F1, Hts.
      * by rewrite F2, Ht.
      * intros n' Hne. rewrite F3, Hc. cbn. by rewrite lookup_insert_ne.
      * intros cn. rewrite F3, Hc. cbn. rewrite lookup_insert_eq. by intros [= <-].
      * unfold conn_subnets at 1. rewrite Hnc. set_solver.
      * rewrite HT. by eapply subs_changed_same.
  - destruct Hcase as [-> ->]. rewrite bool_decide_eq_false_2 by (by intros []).
    exists i1. split_and!; try done. eapply (tr_ok_untracked i _ r n); try done; cbn.
    + intros n' Hne. by rewrite lookup_insert_ne.
    + rewrite lookup_insert_eq. by intros cn [= <-].
Qed.

Lemma AddIP_ok ip i r : tr_ok i r → bloom_wf i →
  ∃ b i', AddIP ip i = Some (b, i') ∧ bloom_wf i' ∧ tr_ok i' r ∧ it_trackedSubnets i' = it_trackedSubnets i ∧
    connected i' = connected i ∧
    (b = true ↔ ∃ node, tracked i !! ip_NodeID ip = Some node ∧ node_wantsConnection node = true ∧
                  ∀ old, tn_ip node = Some old → (ip_Timestamp old < ip_Timestamp ip)%Z).
Proof.
  intros H Hw. unfold IpTracker.AddIP. set (n := ip_NodeID ip) in *.
  destruct (addIP_spec ip i Hw) as (c & c' & i2 & -> & Hw2 & _ & Hts & Hc & Hs & Hcase). cbn [mbind option_bind].
  fold n in Hcase |- *. destruct (tracked i !! n) as [node|] eqn:En.
  2: { destruct Hcase as [-> ->]. exists false, i. split_and!; try done. split; [done|]. naive_solver. }
  destruct Hcase as (Hcu & Ht & Hsame & Hnewer). case_bool_decide as Hle.
  { rewrite (Hsame Hle). exists false, i. split_and!; try done. split; [done|].
    intros (node' & [= <-] & _ & Hold). apply Hnewer in Hold. lia. }
  assert (∀ old, tn_ip node = Some old → (ip_Timestamp old < ip_Timestamp ip)%Z) as Hold by (apply Hnewer; lia).
  assert (newest node ip = ip) as Hnew.
  { unfold newest. destruct (tn_ip node); [|done]. by rewrite bool_decide_eq_true_2 by auto. }
  rewrite Hnew in Ht. clear Hsame Hnewer Hle.
  assert (∃ i3, match connected i2 !! n with
      | Some cn => p ← tracked_ip n i2; setGossipableIP p (cn_trackedSubnets cn) i2 | None => Some i2 end = Some i3 ∧
      frame i2 i3 ∧ subs_changed (gossip_set ip) (conn_subnets i2 n) i2 i3) as (i3 & -> & Hf & Hsub).
  { unfold conn_subnets. destruct (connected i2 !! n) as [cn|] eqn:Ec; cbn.
    - unfold tracked_ip. rewrite Ht, lookup_insert_eq. cbn. apply setGossipableIP_spec.
      unfold all_indexed. rewrite Hs. apply (tr_all_indexed _ _ H).
    - exists i2. split_and!; [done..|]. by apply subs_changed_none. }
  destruct Hf as (F1 & F2 & F3 & F4 & _). cbn [mbind option_bind]. rewrite F2, Ht, lookup_insert_eq. cbn [mbind option_bind].
  eexists _, i3. split; [done|]. split_and!; try (rewrite ?F1, ?F3, ?Hc, ?Hts; done).
  - unfold bloom_wf. by rewrite F4.
  - assert (conn_subnets i3 n = conn_subnets i2 n ∧ conn_subnets i2 n = conn_subnets i n) as [H1 H2]
      by (unfold conn_subnets; by rewrite F3, Hc).
    eapply (tr_ok_new_ip i i3 r n node ip); try done.
    + by rewrite F1, Hts.
    + by rewrite F2, Ht.
    + intros n' _. by rewrite F3, Hc.
    + intros cn. rewrite F3, Hc. apply H.
    + by rewrite H1, H2.
    + rewrite H1. by eapply subs_changed_same.
  - cbn. unfold node_wantsConnection. cbn. naive_solver.
Qed.

Lemma track_then_gossip n s manual i r : tr_ok i r → bloom_wf i →
  ∃ i', (i ← addTrackableID n (Some s) i; addGossipableID n s manual i) = Some i' ∧ bloom_wf i' ∧
    tr_ok i' (r_gossip n s manual (r_track n (Some s) r)) ∧
    it_trackedSubnets i' = it_trackedSubnets i ∧ connected i' = connected i.
Proof.
  intros H Hw. destruct (addTrackableID_ok n (Some s) i r H Hw) as (i1 & -> & Hw1 & H1 & Hts & Hc & _). cbn [mbind option_bind].
  destruct (addGossipableID_ok n s manual i1 _ H1 Hw1) as (i2 & E & Hw2 & H2 & Hts2 & Hc2 & _); [cbn; set_solver|].
  exists i2. split_and!; [done|done|done|congruence..].
Qed.
End props.
