(* ===== verification/IpTrackerTheorems.v ===== *)
(** * The IP tracker as a listener of the validator manager

    The network registers its tracker as a listener of the validator manager
    (VdrManager.v).  The system here is both: operations of the manager, whose calls are
    delivered to the tracker, and operations of the tracker itself.  Whatever happens, the
    nodes the tracker wants to connect to and the IPs it gossips are a function of the
    validators of the manager, of what was tracked by hand, and of the connections. *)

From S2P Require Import Prelude SafeMath Sampler DrawLoop IndexedList Bloom VdrManager VdrManagerProps VdrManagerTheorems IpTracker IpTrackerProps.

Section system.
Context {PK : Type}.
Variable sha256 : list Z → list Z.
Variable rnd : nat → Z → option (list Z).
Variable optimal : Z → Z * Z.
Variable estimate : Z → Z → Z.

(** The name under which the tracker is registered. *)
Variable self : nat.

Definition deliver1 (c : vcall PK) (i : ipTracker) : option ipTracker :=
  match vc_subnet c with
  | Some s =>
      if bool_decide (vc_listener c = self) then
        match vc_event c with
        | VdrManager.OnValidatorAdded n _ _ _ => OnValidatorAdded sha256 rnd optimal estimate s n i
        | VdrManager.OnValidatorRemoved n _ => OnValidatorRemoved s n i
        | VdrManager.OnValidatorWeightChanged _ _ _ => Some i
        end
      else Some i
  | None => Some i
  end.
Definition deliver (calls : list (vcall PK)) (i : ipTracker) : option ipTracker :=
  foldl (λ i c, i ≫= deliver1 c) (Some i) calls.

Inductive iop :=
| OManuallyTrack (n : list Z)
| OManuallyGossip (s n : list Z)
| OAddIP (ip : ClaimedIPPort)
| OConnected (ip : ClaimedIPPort) (T : gset (list Z))
| ODisconnected (n : list Z)
| OResetBloom.

Definition iexec (o : iop) (i : ipTracker) : option ipTracker :=
  match o with
  | OManuallyTrack n => ManuallyTrack sha256 rnd optimal estimate n i
  | OManuallyGossip s n => ManuallyGossip sha256 rnd optimal estimate s n i
  | OAddIP ip => '(_, i) ← AddIP sha256 rnd optimal estimate ip i; Some i
  | OConnected ip T => Connected sha256 rnd optimal estimate ip T i
  | ODisconnected n => Disconnected n i
  | OResetBloom => '(_, i) ← ResetBloom sha256 rnd optimal estimate i; Some i
  end.

(** A node connects when it is not connected (Network.v shows that the network does so). *)
Definition iop_ok (o : iop) (i : ipTracker) : Prop :=
  match o with OConnected ip _ => connected i !! ip_NodeID ip = None | _ => True end.

(** What was done by hand. *)
Record byhand := mkByhand { h_manual : gset (list Z); h_gossip : gset (list Z * list Z) }.

Definition iref (o : iop) (i : ipTracker) (h : byhand) : byhand :=
  match o with
  | OManuallyTrack n => mkByhand (h_manual h ∪ {[n]}) (h_gossip h)
  | OManuallyGossip s n =>
      mkByhand (if bool_decide (s = PrimaryNetworkID) || bool_decide (s ∈ it_trackedSubnets i)
                then h_manual h ∪ {[n]} else h_manual h) (h_gossip h ∪ {[(s, n)]})
  | _ => h
  end.

Inductive sreach (ts : gset (list Z)) :
    manager PK → gmap (list Z) (gmap (list Z) (PK * list Z * Z)) → list (vcall PK) → ipTracker → byhand → Prop :=
| sreach_new i :
    newIPTracker sha256 rnd optimal estimate ts = Some (Ok (), i) →
    sreach ts NewManager ∅ [] i (mkByhand ∅ ∅)
| sreach_manager m r log i h op res m' calls i' :
    sreach ts m r log i h → op_ok op m → exec op m = Some (res, m', calls) → deliver calls i = Some i' →
    sreach ts m' (rexec op r).2 (log ++ calls) i' h
| sreach_tracker m r log i h o i' :
    sreach ts m r log i h → iop_ok o i → iexec o i = Some i' → sreach ts m r log i' (iref o i h).

(** ** The invariant *)

Definition ref_of (h : byhand) (vd : gset (list Z * list Z)) : trace_ref :=
  mkRef (h_manual h) (h_gossip h ∪ vd) (h_gossip h ∪ vd) (h_gossip h).

Hypothesis Hrnd : ∀ k n bs, (0 ≤ n)%Z → rnd k n = Some bs → bytes_ok bs ∧ Z.of_nat (length bs) = n.
Hypothesis Hopt : ∀ c, ((optimal c).2 < 2 ^ 60)%Z.

Definition it_ok (i : ipTracker) (h : byhand) (vd : gset (list Z * list Z)) : Prop :=
  tr_ok i (ref_of h vd) ∧ bloom_wf i.

Lemma trace_ref_eq (r r' : trace_ref) :
  rf_manual r = rf_manual r' → rf_tracked r = rf_tracked r' → rf_gossip r = rf_gossip r' →
  rf_mgossip r = rf_mgossip r' → r = r'.
Proof. destruct r, r'. cbn. by intros -> -> -> ->. Qed.

Lemma ref_step i (r r' : trace_ref) : tr_ok i r →
  rf_manual r = rf_manual r' → rf_tracked r = rf_tracked r' → rf_gossip r = rf_gossip r' →
  rf_mgossip r = rf_mgossip r' → tr_ok i r'.
Proof. intros H H1 H2 H3 H4. by rewrite <-(trace_ref_eq r r' H1 H2 H3 H4). Qed.

Lemma OnValidatorAdded_it s n i h vd : it_ok i h vd →
  ∃ i', OnValidatorAdded sha256 rnd optimal estimate s n i = Some i' ∧ it_ok i' h (vd ∪ {[(s, n)]}) ∧
    it_trackedSubnets i' = it_trackedSubnets i ∧ connected i' = connected i.
Proof.
  intros [H Hw]. destruct (track_then_gossip sha256 rnd optimal estimate Hrnd Hopt n s false i _ H Hw) as (i' & E & Hw' & H' & Hts & Hc).
  exists i'. split_and!; try done. split; [|done]. eapply ref_step; [exact H'|..]; cbn; set_solver.
Qed.

Lemma OnValidatorRemoved_it s n i h vd : it_ok i h vd →
  ∃ i', OnValidatorRemoved s n i = Some i' ∧ it_ok i' h (vd ∖ {[(s, n)]}) ∧
    it_trackedSubnets i' = it_trackedSubnets i ∧ connected i' = connected i.
Proof.
  intros [H Hw]. destruct (OnValidatorRemoved_ok s n i _ H Hw) as (i' & E & Hw' & H' & Hts & Hc); [done|].
  exists i'. split_and!; try done. split; [|done]. unfold r_remove in H'. cbn in H'.
  case_bool_decide as Hd; (eapply ref_step; [exact H'|..]); cbn; clear -Hd; try done; apply set_eq; intros x;
    destruct (decide (x = (s, n))) as [->|]; set_solver.
Qed.

(** The nodes that are connected after an operation. *)
Definition iconn (o : iop) (c : gmap (list Z) connectedNode) : gmap (list Z) connectedNode :=
  match o with
  | OConnected ip T => <[ip_NodeID ip := mkConnected T ip]> c
  | ODisconnected n => delete n c
  | _ => c
  end.

Lemma iexec_it o i h vd : it_ok i h vd → iop_ok o i →
  ∃ i', iexec o i = Some i' ∧ it_ok i' (iref o i h) vd ∧ it_trackedSubnets i' = it_trackedSubnets i ∧
    connected i' = iconn o (connected i).
Proof.
  intros [H Hw] Hop. destruct o as [n|s n|ip|ip T|n|]; cbn [iexec iref].
  - destruct (addTrackableID_ok sha256 rnd optimal estimate Hrnd Hopt n None i _ H Hw) as (i' & E & Hw' & H' & Hts & Hc & _).
    exists i'. split_and!; done.
  - unfold ManuallyGossip.
    assert (∃ i1, (if bool_decide (s = PrimaryNetworkID) || bool_decide (s ∈ it_trackedSubnets i)
       then addTrackableID sha256 rnd optimal estimate n None i else Some i) = Some i1 ∧ bloom_wf i1 ∧
       it_trackedSubnets i1 = it_trackedSubnets i ∧ connected i1 = connected i ∧
       tr_ok i1 (ref_of (mkByhand (if bool_decide (s = PrimaryNetworkID) || bool_decide (s ∈ it_trackedSubnets i)
                then h_manual h ∪ {[n]} else h_manual h) (h_gossip h)) vd)) as (i1 & -> & Hw1 & Hts1 & Hc1 & H1).
    { destruct (_ || _); [|by exists i].
      destruct (addTrackableID_ok sha256 rnd optimal estimate Hrnd Hopt n None i _ H Hw) as (i' & E & Hw' & H' & Hts & Hc & _). by exists i'. }
    cbn [mbind option_bind].
    destruct (track_then_gossip sha256 rnd optimal estimate Hrnd Hopt n s true i1 _ H1 Hw1) as (i' & E & Hw' & H' & Hts & Hc).
    exists i'. split_and!; [done| |congruence|cbn; congruence]. split; [|done].
    eapply ref_step; [exact H'|..]; cbn; set_solver.
  - destruct (AddIP_ok sha256 rnd optimal estimate Hrnd Hopt ip i _ H Hw) as (b & i' & -> & Hw' & H' & Hts & Hc & _). by exists i'.
  - destruct (Connected_ok sha256 rnd optimal estimate Hrnd Hopt ip T i _ H Hw Hop) as (i' & -> & Hw' & H' & Hts & Hc). by exists i'.
  - destruct (Disconnected_ok n i _ H Hw) as (i' & -> & Hw' & H' & Hts & Hc & _). by exists i'.
  - destruct (resetBloom_wf sha256 rnd optimal estimate Hrnd Hopt i Hw) as (res & i' & E & (Hv1 & Hv2 & Hv3 & Hv4) & Hw').
    unfold ResetBloom. rewrite E. exists i'. split_and!; try done. split; [by eapply tr_ok_view|done].
Qed.

(** ** Calls of the manager *)

(** The validators the tracker was told about. *)
Definition followed1 (vd : gset (list Z * list Z)) (c : vcall PK) : gset (list Z * list Z) :=
  match vc_subnet c with
  | Some s =>
      if bool_decide (vc_listener c = self) then
        match vc_event c with
        | VdrManager.OnValidatorAdded n _ _ _ => vd ∪ {[(s, n)]}
        | VdrManager.OnValidatorRemoved n _ => vd ∖ {[(s, n)]}
        | VdrManager.OnValidatorWeightChanged _ _ _ => vd
        end
      else vd
  | None => vd
  end.
Definition followed (log : list (vcall PK)) : gset (list Z * list Z) := foldl followed1 ∅ log.

Lemma deliver1_it c i h vd : it_ok i h vd →
  ∃ i', deliver1 c i = Some i' ∧ it_ok i' h (followed1 vd c) ∧
    it_trackedSubnets i' = it_trackedSubnets i ∧ connected i' = connected i.
Proof.
  intros H. unfold deliver1, followed1. destruct (vc_subnet c) as [s|]; [|by exists i].
  case_bool_decide; [|by exists i]. destruct (vc_event c); [by apply OnValidatorAdded_it|by apply OnValidatorRemoved_it|by exists i].
Qed.

Lemma deliver_it calls i h vd : it_ok i h vd →
  ∃ i', deliver calls i = Some i' ∧ it_ok i' h (foldl followed1 vd calls) ∧
    it_trackedSubnets i' = it_trackedSubnets i ∧ connected i' = connected i.
Proof.
  revert i vd. induction calls as [|c calls IH]; intros i vd H; [by exists i|].
  destruct (deliver1_it c i h vd H) as (i1 & E1 & H1 & Hts1 & Hc1).
  destruct (IH i1 _ H1) as (i2 & E2 & H2 & Hts2 & Hc2). exists i2.
  unfold deliver. cbn [foldl mbind option_bind]. rewrite E1. split_and!; [done|done|congruence..].
Qed.

Lemma followed_replay log s n : (s, n) ∈ followed log ↔ is_Some (replay self (Some s) log !! n).
Proof.
  induction log as [|c log IH] using rev_ind.
  { split; [by intros ?%not_elem_of_empty|]. by intros [x Hx]. }
  unfold followed, replay in *. rewrite foldl_app, told_app, foldl_app. cbn [foldl].
  set (vd := foldl followed1 ∅ log) in *. set (cs := foldl replay1 ∅ (told self (Some s) log)) in *. clearbody vd cs.
  unfold told, followed1. rewrite filter_cons. case_decide as Hd.
  - destruct Hd as [Hd1 Hd2]. rewrite Hd2, bool_decide_eq_true_2 by done. cbn.
    destruct (vc_event c) as [n' pk tx w|n' w|n' w w']; cbn [replay1].
    + destruct (decide (n = n')) as [->|Hn]; [rewrite lookup_insert_eq|rewrite lookup_insert_ne by done]; set_solver.
    + destruct (decide (n = n')) as [->|Hn]; [rewrite lookup_delete_eq|rewrite lookup_delete_ne by done].
      * split; [set_solver|by intros []].
      * rewrite <-IH. set_solver.
    + rewrite IH. destruct (decide (n = n')) as [->|Hn]; [rewrite lookup_alter_eq|by rewrite lookup_alter_ne].
      by rewrite fmap_is_Some.
  - cbn. rewrite <-IH. destruct (vc_subnet c) as [s'|] eqn:E; [|done]. case_bool_decide as Hl; [|done].
    assert (s ≠ s') by (intros ->; by apply Hd). destruct (vc_event c); set_solver.
Qed.

(** ** Reachable states *)

Lemma newIPTracker_it ts i : newIPTracker sha256 rnd optimal estimate ts = Some (Ok (), i) →
  it_ok i (mkByhand ∅ ∅) ∅ ∧ it_trackedSubnets i = ts ∧ connected i = ∅.
Proof.
  unfold newIPTracker, resetBloom. cbn [draws tracked]. destruct (rnd _ saltSize) as [salt|]; [|done].
  destruct (optimal _) as [numHashes numEntries] eqn:Eo.
  destruct (New _ numHashes numEntries) as [f|e] eqn:EN; [|done].
  apply Filter_New_wf in EN as (Hf & _); [|by intros; eapply Hrnd|].
  2: { pose proof (Hopt (Z.max (maxIPEntriesPerNode * Z.of_nat (size (∅ : gmap (list Z) trackedNode))) minCountEstimate)) as Hlt.
       by rewrite Eo in Hlt. }
  rewrite map_to_list_empty. cbn. intros [= <-]. split_and!; [|done..]. split; [|done].
  split; [intros n; change (_ !! n) with (@None trackedNode)|intros s; change (_ !! s) with (@None gossipableSubnet)|done|done|]; cbn; set_solver.
Qed.

Lemma sreach_ok ts m r log i h : sreach ts m r log i h →
  vreach m r log ∧ it_ok i h (followed log) ∧ it_trackedSubnets i = ts.
Proof.
  induction 1 as [i E|m r log i h op res m' calls i' _ (Hv & Hi & Hts) Hop He Hd|m r log i h o i' _ (Hv & Hi & Hts) Hop He].
  - apply newIPTracker_it in E as (? & ? & ?). split_and!; [constructor|done..].
  - destruct (deliver_it calls i h _ Hi) as (i2 & E2 & Hi2 & Hts2 & _). rewrite Hd in E2. simplify_eq.
    split_and!; [by eapply vreach_step| |done]. unfold followed. by rewrite foldl_app.
  - destruct (iexec_it o i h _ Hi Hop) as (i2 & E2 & Hi2 & Hts2 & _). rewrite He in E2. simplify_eq. done.
Qed.

(** The nodes of a subnet as the tracker should see them. *)
Definition member (m : manager PK) (h : byhand) (s n : list Z) : Prop :=
  (s, n) ∈ h_gossip h ∨ ∃ v, GetValidator s n m = Some (Some v).

Lemma sreach_member ts m r log i h s n : sreach ts m r log i h → self ∈ callbackListeners m →
  (s, n) ∈ h_gossip h ∪ followed log ↔ member m h s n.
Proof.
  intros (Hv & _)%sreach_ok Hl. apply vreach_ok in Hv as [Hm Hlog]. unfold member.
  rewrite elem_of_union, followed_replay, Hlog, bool_decide_eq_true_2 by done.
  destruct (queries_ok m r s Hm) as (_ & Hg & _). destruct (Hg n) as (ov & -> & Ho).
  destruct ov as [v|], (rget s r !! n) as [e|]; cbn in Ho; try done; split; intros [H|H]; eauto;
    destruct H as [x Hx]; simplify_eq; eauto.
Qed.

(** C31: the IP tracker follows the validator manager it listens to.  In every state reached
    by operations of the manager, whose calls are delivered to the tracker, and of the
    tracker itself: no further operation of either panics; the tracker wants a connection to
    a node exactly when it was tracked by hand, or is a validator or a node gossiped by hand
    of the primary network or of a subnet this node follows; and the IPs it gossips on a
    subnet are, without repetition, exactly the latest IPs of the validators and of the nodes
    gossiped by hand of that subnet that are connected and follow it. *)
Theorem ip_tracker_follows_validators ts m r log i h :
  sreach ts m r log i h → self ∈ callbackListeners m →
  (∀ op, op_ok op m → ∃ res m' calls i', exec op m = Some (res, m', calls) ∧ deliver calls i = Some i') ∧
  (∀ o, iop_ok o i → is_Some (iexec o i)) ∧
  (∀ n, WantsConnection n i = true ↔
     n ∈ h_manual h ∨ ∃ s, (s = PrimaryNetworkID ∨ s ∈ ts) ∧ member m h s n) ∧
  ∀ s, NoDup (ip_NodeID <$> gossiped s i) ∧
    ∀ ip, ip ∈ gossiped s i ↔
      member m h s (ip_NodeID ip) ∧ (GetIP (ip_NodeID ip) i).1 = Some ip ∧
      ∃ cn, connected i !! ip_NodeID ip = Some cn ∧ s ∈ cn_trackedSubnets cn.
Proof.
  intros Hr Hl. pose proof (sreach_ok _ _ _ _ _ _ Hr) as (Hv & Hi & Hts). split_and!.
  - intros op Hop. apply vreach_ok in Hv as [Hm _]. destruct (exec_step _ _ _ Hm Hop) as (m' & calls & E & _).
    destruct (deliver_it calls i h _ Hi) as (i' & E' & _). eauto 10.
  - intros o Hop. destruct (iexec_it o i h _ Hi Hop) as (i' & -> & _). done.
  - intros n. rewrite (tr_wants i _ n (proj1 Hi)). unfold tracks. rewrite Hts. cbn [ref_of rf_manual rf_tracked].
    by setoid_rewrite (sreach_member ts m r log i h _ n Hr Hl).
  - intros s. destruct (tr_gossiped i _ s (proj1 Hi)) as [Hnd Hg]. split; [done|]. intros ip. rewrite Hg.
    cbn [ref_of rf_gossip]. by rewrite (sreach_member ts m r log i h _ _ Hr Hl).
Qed.

End system.

(** ** A concrete run

    The tracker is registered under the name 7 and follows subnet [5].  Node [2] is a
    validator of it, connected with an IP of time 3 and known to have one of time 4; node
    [3] was gossiped by hand on the primary network and is not connected; node [4] was
    connected, is a validator of subnet [6], which is not followed, and stops being one. *)

Definition ex_sha (l : list Z) : list Z := take 32 (l ++ replicate 32 0%Z).
Definition ex_rnd (k : nat) (n : Z) : option (list Z) := Some (replicate (Z.to_nat n) (Z.of_nat k `mod` 256)%Z).
Definition ex_optimal (_ : Z) : Z * Z := (2, 16)%Z.
Definition ex_estimate (_ _ : Z) : Z := 10%Z.
Definition ex_ip (n t : Z) : ClaimedIPPort := mkClaimed [] ([n], t) t [] [n] [n; t].

Definition ex_sops : list (vop (PK := Z) + iop) :=
  [inl (OpRegister 7 []); inl (OpAddStaker [5] [2] 100 [9] 5); inr (OConnected (ex_ip 2 3) {[ [5] ]});
   inr (OAddIP (ex_ip 2 4)); inr (OManuallyGossip PrimaryNetworkID [3]); inl (OpAddStaker [6] [4] 100 [9] 5);
   inr (OConnected (ex_ip 4 1) {[ [6] ]}); inl (OpRemoveWeight [6] [4] 5)]%Z.

Section run.
Variable self : nat.
Local Abbreviation state :=
  (manager Z * gmap (list Z) (gmap (list Z) (Z * list Z * Z)) * list (vcall Z) * ipTracker * byhand)%type.

Definition sstep (o : vop + iop) (st : state) : option state :=
  let '(m, r, log, i, h) := st in
  match o with
  | inl op => '(_, m', calls) ← exec op m;
              i' ← deliver ex_sha ex_rnd ex_optimal ex_estimate self calls i;
              Some (m', (rexec op r).2, log ++ calls, i', h)
  | inr o => i' ← iexec ex_sha ex_rnd ex_optimal ex_estimate o i; Some (m, r, log, i', iref o i h)
  end.
Definition sstep_ok (o : vop + iop) (st : state) : Prop :=
  let '(m, r, log, i, h) := st in match o with inl op => op_ok op m | inr o => iop_ok o i end.

Fixpoint srun (ops : list (vop + iop)) (st : state) : option state :=
  match ops with [] => Some st | o :: ops => sstep o st ≫= srun ops end.
Fixpoint srun_ok (ops : list (vop + iop)) (st : state) : Prop :=
  match ops with
  | [] => True
  | o :: ops => sstep_ok o st ∧ match sstep o st with Some st => srun_ok ops st | None => True end
  end.

Definition sreached (ts : gset (list Z)) (st : state) : Prop :=
  let '(m, r, log, i, h) := st in sreach ex_sha ex_rnd ex_optimal ex_estimate self ts m r log i h.

Lemma srun_reach ts ops st st' : sreached ts st → srun_ok ops st → srun ops st = Some st' → sreached ts st'.
Proof.
  revert st. induction ops as [|o ops IH]; intros st Hr Hok Hrun; cbn in *; [by simplify_eq|].
  destruct Hok as [Hop Hok]. destruct (sstep o st) as [st1|] eqn:E; [|done]. apply (IH st1); [|done..].
  destruct st as [[[[m r] log] i] h]. cbn in Hr, Hop, E. destruct o as [op|o].
  - destruct (exec op m) as [[[res m'] calls]|] eqn:E1; [|done]. cbn in E.
    destruct (deliver _ _ _ _ _ _ _) as [i'|] eqn:E2; [|done]. cbn in E. simplify_eq. by eapply sreach_manager.
  - destruct (iexec _ _ _ _ o i) as [i'|] eqn:E1; [|done]. cbn in E. simplify_eq. by eapply sreach_tracker.
Qed.
End run.

Definition ex_tracker : ipTracker :=
  match newIPTracker ex_sha ex_rnd ex_optimal ex_estimate {[ [5%Z] ]} with
  | Some (_, i) => i
  | None => mkTracker ∅ ∅ (mkFilter 0 [] [] 0) ∅ [] 0 ∅ ∅ 0
  end.
Definition ex_sstart := (NewManager (PK := Z), ∅ : gmap (list Z) (gmap (list Z) (Z * list Z * Z)), @nil (vcall Z), ex_tracker, mkByhand ∅ ∅).
Definition ex_sstate := default ex_sstart (srun 7 ex_sops ex_sstart).

Lemma ex_sreached : sreached 7 {[ [5%Z] ]} ex_sstate.
Proof.
  apply (srun_reach 7 {[ [5%Z] ]} ex_sops ex_sstart); [|vm_compute; repeat split; (discriminate || reflexivity)|vm_compute; reflexivity].
  apply sreach_new. vm_compute. reflexivity.
Qed.

Lemma ex_rnd_ok k n bs : (0 ≤ n)%Z → ex_rnd k n = Some bs → bytes_ok bs ∧ Z.of_nat (length bs) = n.
Proof.
  intros Hn [= <-]. rewrite length_replicate. split; [|lia]. apply Forall_replicate. unfold byte_ok, inU.
  pose proof (Z.mod_pos_bound (Z.of_nat k) 256). lia.
Qed.

Lemma ip_tracker_follows_validators_witness :
  let '(m, r, log, i, h) := ex_sstate in
  gossiped [5%Z] i = [ex_ip 2 4] ∧
  (WantsConnection [4%Z] i = true ↔
     [4%Z] ∈ h_manual h ∨ ∃ s, (s = PrimaryNetworkID ∨ s ∈ ({[ [5%Z] ]} : gset (list Z))) ∧ member m h s [4%Z]) ∧
  WantsConnection [3%Z] i = true ∧ WantsConnection [4%Z] i = false.
Proof.
  pose proof ex_sreached as Hr. destruct ex_sstate as [[[[m r] log] i] h] eqn:E.
  assert (7 ∈ callbackListeners m) as Hl by (change m with (m, r, log, i, h).1.1.1.1; rewrite <-E; vm_compute; left).
  apply (f_equal (λ st, st.1.2)) in E. cbn in E. split; [rewrite <-E; vm_compute; reflexivity|].
  split; [|rewrite <-E; vm_compute; auto].
  apply (ip_tracker_follows_validators ex_sha ex_rnd ex_optimal ex_estimate 7 ex_rnd_ok ltac:(done) _ _ _ _ _ _ Hr Hl).
Defined.
