(* ===== verification/IpGossip.v ===== *)
(** * Which IPs the tracker gossips

    [getGossipableIPs] samples the gossipable IPs of some subnets, leaving out those the
    peer already knows: it returns a sample without repetition of the IPs it may return,
    and leaves one out only when it has returned as many as it may. *)

From S2P Require Import Prelude Sampler DrawLoop IndexedList Bloom VdrManager VdrManagerProps VdrManagerTheorems IpTracker IpTrackerProps IpTrackerTheorems.

(** The IPs gossiped on the subnets of [order] that are allowed. *)
Definition allowed_in (order : list (list Z)) (allowed : list Z → bool) (i : ipTracker) : list ClaimedIPPort :=
  filter (λ s, allowed s = true) order ≫= λ s, gossiped s i.

Lemma elem_of_allowed order allowed i ip :
  ip ∈ allowed_in order allowed i ↔ ∃ s, s ∈ order ∧ allowed s = true ∧ ip ∈ gossiped s i.
Proof.
  unfold allowed_in. rewrite list_elem_of_bind. setoid_rewrite list_elem_of_filter. naive_solver.
Qed.

Section gossip.
Variable sha256 : list Z → list Z.
Variable (exceptNodeID : list Z) (exceptIPs : ReadFilter) (salt : list Z) (maxNumIPs : Z).

(** The IPs the peer does not know. *)
Definition unknown (ip : ClaimedIPPort) : Prop :=
  ip_NodeID ip ≠ exceptNodeID ∧ bloom_Contains sha256 exceptIPs (ip_GossipID ip) salt = Some false.

Definition gst_ok (st : list ClaimedIPPort * gset (list Z)) : Prop :=
  st.2 = list_to_set (ip_NodeID <$> st.1) ∧ NoDup (ip_NodeID <$> st.1) ∧ (Z.of_nat (length st.1) ≤ maxNumIPs)%Z.

(** [st'] has grown from [st] by unknown IPs of [from], and has an IP of every node of [all]. *)
Record grown (from all : list ClaimedIPPort) (st st' : list ClaimedIPPort * gset (list Z)) : Prop := {
  gr_ok : gst_ok st';
  gr_prefix : st.1 `prefix_of` st'.1;
  gr_from : ∀ ip, ip ∈ st'.1 → ip ∈ st.1 ∨ ip ∈ from ∧ unknown ip;
  gr_all : ∀ ip, ip ∈ all → unknown ip → ip_NodeID ip ∈ ip_NodeID <$> st'.1;
}.

Lemma grown_trans from1 all1 from2 all2 st st1 st2 :
  grown from1 all1 st st1 → grown from2 all2 st1 st2 → grown (from1 ++ from2) (all1 ++ all2) st st2.
Proof.
  intros [_ Hp1 Hf1 Ha1] [Ho2 Hp2 Hf2 Ha2]. split; [done|by etrans| |].
  - intros ip [Hi|[Hi Hu]]%Hf2; [apply Hf1 in Hi|]; rewrite elem_of_app; naive_solver.
  - intros ip [Hi|Hi]%elem_of_app Hu; [|by apply Ha2]. specialize (Ha1 ip Hi Hu). destruct Hp2 as [t ->].
    rewrite fmap_app, elem_of_app. by left.
Qed.

Lemma grown_refl from st : gst_ok st → grown from [] st st.
Proof. intros H. split; [done|done|auto|]. intros ip Hi. by apply not_elem_of_nil in Hi. Qed.

Section subnet.
Variable s : gossipableSubnet.
Local Abbreviation body := (gossip_body sha256 exceptNodeID exceptIPs salt s).
Local Abbreviation cont := (λ st : list ClaimedIPPort * gset (list Z), bool_decide (Z.of_nat (length st.1) < maxNumIPs)%Z).

Lemma body_grown j st st' ip : gossipableIPs s !! Z.to_nat j = Some ip → gst_ok st → cont st = true →
  body j st = Some st' → grown [ip] [ip] st st'.
Proof.
  destruct st as [ips nodeIDs]. intros Hj (Hn & Hd & Hl) Hc%bool_decide_eq_true. cbn in Hn, Hd, Hl, Hc.
  unfold gossip_body. rewrite Hj. cbn [mbind option_bind].
  destruct (_ || _) eqn:E.
  - intros [= <-]. split; [done|done|auto|]. intros ip' ->%list_elem_of_singleton [Hu _]. subst nodeIDs.
    apply orb_true_iff in E as [E%bool_decide_eq_true|E%bool_decide_eq_true]; [done|]. by rewrite elem_of_list_to_set in E.
  - apply orb_false_iff in E as [E1%bool_decide_eq_false E2%bool_decide_eq_false].
    destruct (bloom_Contains _ _ _ _) as [b|] eqn:Eb; [|done]. cbn. destruct b.
    + intros [= <-]. split; [done|done|auto|]. intros ip' ->%list_elem_of_singleton [_ Hu]. congruence.
    + intros [= <-]. subst nodeIDs. rewrite elem_of_list_to_set in E2. split.
      * split_and!; cbn; rewrite ?fmap_app; cbn.
        -- by rewrite list_to_set_app_L, list_to_set_cons, list_to_set_nil, union_empty_r_L.
        -- apply NoDup_app. split_and!; [done| |apply NoDup_singleton]. by intros x Hx ->%list_elem_of_singleton.
        -- rewrite length_app. cbn. lia.
      * by eexists.
      * cbn. intros ip' [?| ->%list_elem_of_singleton]%elem_of_app; [by left|]. right. split; [by left|done].
      * cbn. intros ip' ->%list_elem_of_singleton _. rewrite fmap_app, elem_of_app. right. by left.
Qed.

Lemma order_grown order st st' : Forall (λ j, 0 ≤ j < Z.of_nat (length (gossipableIPs s)))%Z order → gst_ok st →
  run_order cont body order st = Some st' →
  ∃ all, grown (gossipableIPs s) all st st' ∧
    ∀ j ip, j ∈ order → gossipableIPs s !! Z.to_nat j = Some ip → ip ∈ all.
Proof.
  revert st. induction order as [|j order IH]; intros st Hr Hst.
  { cbn. intros [= <-]. exists []. split; [by apply grown_refl|]. intros j ip Hj. by apply not_elem_of_nil in Hj. }
  apply Forall_cons in Hr as [Hj Hr]. cbn [run_order].
  destruct (bool_decide (Z.of_nat (length st.1) < maxNumIPs)%Z) eqn:Hc; [|done].
  destruct (body j st) as [st1|] eqn:Hb; [|done]. cbn [mbind option_bind]. intros Hrun.
  destruct (lookup_lt_is_Some_2 (gossipableIPs s) (Z.to_nat j)) as [ip Hip]; [lia|].
  pose proof (body_grown _ _ _ _ Hip Hst Hc Hb) as Hg.
  destruct (IH st1 Hr (gr_ok _ _ _ _ Hg) Hrun) as (all & Hg2 & Hall).
  exists ([ip] ++ all). split.
  - destruct (grown_trans _ _ _ _ _ _ _ Hg Hg2) as [Ho Hp Hf Ha]. split; [done|done| |done].
    intros ip' Hi. destruct (Hf ip' Hi) as [|[[?%list_elem_of_singleton|?]%elem_of_app ?]]; [by left| |by right].
    subst. right. split; [by eapply list_elem_of_lookup_2|done].
  - intros j' ip' [<-|Hin]%elem_of_cons Hl; rewrite elem_of_app; [left; apply list_elem_of_singleton; congruence|eauto].
Qed.

Hypothesis Hlen : (Z.of_nat (length (gossipableIPs s)) < 2 ^ 63)%Z.

Lemma subnet_sound st src st' src' : gst_ok st → Forall (inU 64) src →
  subnet_getGossipableIPs sha256 exceptNodeID exceptIPs salt maxNumIPs st src s = Some (st', src') →
  Forall (inU 64) src' ∧
  ∃ all, grown (gossipableIPs s) all st st' ∧
    (Z.of_nat (length st'.1) = maxNumIPs ∨ ∀ ip, ip ∈ gossipableIPs s → ip ∈ all).
Proof.
  intros Hst Hsrc Hrun. unfold subnet_getGossipableIPs in Hrun.
  assert (room (Initialize (Z.of_nat (length (gossipableIPs s))))) as Hroom by (apply room_Initialize; lia).
  split; [by eapply draw_loop_src|]. apply draw_loop_sound in Hrun as (order & rest & Hp & Ho & Hend); [|done..].
  rewrite remaining_Initialize in Hp. apply order_grown in Ho as (all & Hg & Hall); [| |done].
  2: { apply Forall_forall. intros j Hj.
       assert (j ∈ seqZ 0 (Z.of_nat (length (gossipableIPs s)))) as Hin%elem_of_seqZ by (rewrite <-Hp, elem_of_app; by left). lia. }
  exists all. split; [done|]. destruct Hend as [Hc%bool_decide_eq_false| ->].
  - left. destruct (gr_ok _ _ _ _ Hg) as (_ & _ & ?). lia.
  - right. intros ip [j Hj]%list_elem_of_lookup. apply (Hall (Z.of_nat j)); [|by rewrite Nat2Z.id].
    rewrite app_nil_r in Hp. rewrite Hp, elem_of_seqZ. apply lookup_lt_Some in Hj. lia.
Qed.

Hypothesis Hfilter : ∀ h, is_Some (ReadFilter_Contains h exceptIPs).

Lemma subnet_total st src : Forall (inU 64) src →
  ∃ k, is_Some (subnet_getGossipableIPs sha256 exceptNodeID exceptIPs salt maxNumIPs st (src ++ replicate k 0%Z) s).
Proof.
  intros Hsrc. eexists. apply (draw_loop_total _ _ (λ _, True)); [apply room_Initialize; lia|done| |done|].
  { unfold draw_fuel. cbn. lia. }
  intros j [ips nodeIDs] Hj _ _. rewrite remaining_Initialize in Hj. apply elem_of_seqZ in Hj.
  destruct (lookup_lt_is_Some_2 (gossipableIPs s) (Z.to_nat j)) as [ip Hip]; [lia|].
  unfold gossip_body. rewrite Hip. cbn [mbind option_bind]. destruct (_ || _); [eauto|].
  unfold bloom_Contains. destruct (Hfilter (Hash sha256 (ip_GossipID ip) salt)) as [[] ->]; cbn; eauto.
Qed.
End subnet.

(** ** Several subnets *)

Lemma loop_sound order allowed i st src ips src' :
  (∀ s, Z.of_nat (length (gossiped s i)) < 2 ^ 63)%Z → gst_ok st → Forall (inU 64) src →
  getGossipableIPs_loop sha256 order allowed exceptNodeID exceptIPs salt maxNumIPs st src i = Some (ips, src') →
  ∃ all nodeIDs, grown (allowed_in order allowed i) all st (ips, nodeIDs) ∧
    (Z.of_nat (length ips) = maxNumIPs ∨ ∀ ip, ip ∈ allowed_in order allowed i → ip ∈ all).
Proof.
  intros Hlen. revert st src. induction order as [|s order IH]; intros st src Hst Hsrc.
  { cbn. intros [= <- <-]. exists [], st.2. rewrite <-surjective_pairing. split; [by apply grown_refl|by right]. }
  cbn [getGossipableIPs_loop]. unfold allowed_in. rewrite filter_cons. destruct (allowed s) eqn:Ea; cbn [negb].
  2: { rewrite decide_False by done. by apply IH. }
  rewrite decide_True by done. rewrite bind_cons. specialize (Hlen s) as Hls. unfold gossiped at 1 in Hls. unfold gossiped at 1 3.
  destruct (subnets i !! s) as [sub|]; [|by apply IH]. cbn [fmap option_fmap option_map default] in *.
  destruct (subnet_getGossipableIPs _ _ _ _ _ st src sub) as [[st1 src1]|] eqn:E; [|done]. cbn [mbind option_bind].
  apply subnet_sound in E as (Hsrc1 & all & Hg & Hall); [|done..].
  case_bool_decide as Hm.
  - intros [= <- <-]. exists all, st1.2. rewrite <-surjective_pairing. split.
    + destruct Hg as [Ho Hp Hf Ha]. split; try done. intros ip [|[]]%Hf; [by left|]. right. rewrite elem_of_app. auto.
    + left. destruct (gr_ok _ _ _ _ Hg) as (_ & _ & ?). cbn. lia.
  - intros Hrun. destruct (IH st1 src1 (gr_ok _ _ _ _ Hg) Hsrc1 Hrun) as (all2 & nodeIDs & Hg2 & Hall2).
    exists (all ++ all2), nodeIDs. split; [by eapply grown_trans|]. destruct Hall2 as [|Hall2]; [by left|].
    destruct Hall as [?|Hall]; [lia|]. right. intros ip. rewrite !elem_of_app. intros [?|?]; auto.
Qed.

Lemma loop_app order allowed i st src ex ips src' :
  getGossipableIPs_loop sha256 order allowed exceptNodeID exceptIPs salt maxNumIPs st src i = Some (ips, src') →
  getGossipableIPs_loop sha256 order allowed exceptNodeID exceptIPs salt maxNumIPs st (src ++ ex) i = Some (ips, src' ++ ex).
Proof.
  revert st src. induction order as [|s order IH]; intros st src; cbn [getGossipableIPs_loop]; [by intros [= <- <-]|].
  destruct (negb _); [apply IH|]. destruct (subnets i !! s) as [sub|]; [|apply IH].
  unfold subnet_getGossipableIPs. destruct (draw_loop _ _ _ _ src st) as [[st1 src1]|] eqn:E; [|done].
  rewrite (draw_loop_app _ _ _ _ _ ex _ _ _ E). cbn [mbind option_bind]. case_bool_decide; [by intros [= <- <-]|apply IH].
Qed.

Lemma loop_total order allowed i st src : (∀ h, is_Some (ReadFilter_Contains h exceptIPs)) →
  (∀ s, Z.of_nat (length (gossiped s i)) < 2 ^ 63)%Z → Forall (inU 64) src →
  ∃ k, is_Some (getGossipableIPs_loop sha256 order allowed exceptNodeID exceptIPs salt maxNumIPs st (src ++ replicate k 0%Z) i).
Proof.
  intros Hf Hlen. revert st src. induction order as [|s order IH]; intros st src Hsrc; cbn [getGossipableIPs_loop].
  { by exists 0. }
  destruct (negb _); [by apply IH|]. specialize (Hlen s). unfold gossiped in Hlen.
  destruct (subnets i !! s) as [sub|]; [|by apply IH].
  destruct (subnet_total sub Hlen Hf st src Hsrc) as (k1 & [st1 src1] & E1).
  assert (Forall (inU 64) src1) as Hsrc1.
  { eapply draw_loop_src; [| |exact E1]; [apply room_Initialize; cbn in Hlen; lia|].
    apply Forall_app. split; [done|]. by apply Forall_replicate. }
  destruct (IH st1 src1 Hsrc1) as (k2 & [[ips src2] E2]). exists (k1 + k2).
  rewrite replicate_add, app_assoc. unfold subnet_getGossipableIPs in *.
  rewrite (draw_loop_app _ _ _ _ _ (replicate k2 0%Z) _ _ _ E1). cbn [mbind option_bind].
  case_bool_decide; [done|]. by rewrite E2.
Qed.
End gossip.

Section theorem.
Variable sha256 : list Z → list Z.
Variable rnd : nat → Z → option (list Z).
Variable optimal : Z → Z * Z.
Variable estimate : Z → Z → Z.
Hypothesis Hrnd : ∀ k n bs, (0 ≤ n)%Z → rnd k n = Some bs → bytes_ok bs ∧ Z.of_nat (length bs) = n.
Hypothesis Hopt : ∀ c, ((optimal c).2 < 2 ^ 60)%Z.

(** C32: what is gossiped to a peer.  In a reachable state, for a Bloom filter the peer sent
    and any random numbers, [getGossipableIPs] returns as soon as the source has given
    enough numbers; it returns at most [maxNumIPs] IPs of different nodes, each gossiped on
    one of the subnets asked for, not the peer's own and not in its filter; and when it
    returns fewer than [maxNumIPs], it returns all such IPs. *)
Theorem gossip_sample_complete {PK} self ts m r log i h order allowed exceptNodeID bytes exceptIPs salt maxNumIPs src :
  sreach (PK := PK) sha256 rnd optimal estimate self ts m r log i h →
  bytes_ok bytes → (Z.of_nat (length bytes) < 2 ^ 60)%Z → Parse bytes = Ok exceptIPs →
  (0 ≤ maxNumIPs)%Z → Forall (inU 64) src → (∀ s, Z.of_nat (length (gossiped s i)) < 2 ^ 63)%Z →
  let run src := getGossipableIPs sha256 order allowed exceptNodeID exceptIPs salt maxNumIPs src i in
  let wanted ip := (∃ s, s ∈ order ∧ allowed s = true ∧ ip ∈ gossiped s i) ∧
                   ip_NodeID ip ≠ exceptNodeID ∧ bloom_Contains sha256 exceptIPs (ip_GossipID ip) salt = Some false in
  (∃ k, is_Some (run (src ++ replicate k 0%Z))) ∧
  ∀ ips src', run src = Some (ips, src') →
    NoDup (ip_NodeID <$> ips) ∧ (Z.of_nat (length ips) ≤ maxNumIPs)%Z ∧ (∀ ip, ip ∈ ips → wanted ip) ∧
    (Z.of_nat (length ips) = maxNumIPs ∨ ∀ ip, wanted ip → ip ∈ ips).
Proof.
  intros Hr Hb Hl HP Hmax Hsrc Hlen run wanted. subst run wanted. unfold getGossipableIPs. cbv beta.
  rewrite bool_decide_eq_false_2 by lia.
  destruct (Parse_sound bytes exceptIPs Hb Hl HP) as [_ Hf]. split; [by apply loop_total|]. intros ips src' Hrun.
  apply loop_sound in Hrun as (all & nodeIDs & [(_ & Hnd & Hle) _ Hfrom Hall] & Hend); [|done|by split_and!; [|constructor|cbn; lia]|done].
  setoid_rewrite <-elem_of_allowed. split_and!; [done|done| |].
  - intros ip [Hi|Hi]%Hfrom; [by apply not_elem_of_nil in Hi|done].
  - destruct Hend as [|Hend]; [by left|]. right. intros ip [Ha Hu].
    destruct (sreach_ok _ _ _ _ _ Hrnd Hopt _ _ _ _ _ _ Hr) as (_ & [Hi _] & _).
    assert (∀ ip, ip ∈ allowed_in order allowed i → (GetIP (ip_NodeID ip) i).1 = Some ip) as Hget.
    { intros ip' (s & _ & _ & Hs)%elem_of_allowed. apply (proj2 (tr_gossiped i _ s Hi) ip') in Hs. apply Hs. }
    pose proof (Hall ip (Hend ip Ha) Hu) as (ip' & Hid & Hin)%list_elem_of_fmap.
    replace ip with ip'; [done|]. apply Hget in Ha. cbn in Hfrom.
    destruct (Hfrom ip' Hin) as [Hn|[Ha' _]]; [by apply not_elem_of_nil in Hn|]. apply Hget in Ha'. congruence.
Qed.
End theorem.

Lemma gossip_sample_complete_witness :
  let i := ex_sstate.1.2 in
  let run src := getGossipableIPs ex_sha [PrimaryNetworkID; [5%Z]] (λ _, true) [9%Z] (mkReadFilter [1%Z] [0%Z]) [] 3 src i in
  run [6%Z] = Some ([ex_ip 2 4], []) ∧ ∃ k, is_Some (run ([] ++ replicate k 0%Z)).
Proof.
  split; [vm_compute; reflexivity|]. pose proof ex_sreached as Hr. unfold sreached in Hr.
  destruct ex_sstate as [[[[m r] log] i] h] eqn:E. cbn [fst snd].
  refine (proj1 (gossip_sample_complete ex_sha ex_rnd ex_optimal ex_estimate ex_rnd_ok ltac:(done) 7 _ _ _ _ _ _
    [PrimaryNetworkID; [5%Z]] (λ _, true) [9%Z] (1 :: [0;0;0;0;0;0;0;1;0])%Z _ [] 3 [] Hr _ _ _ _ _ _));
    [repeat constructor; vm_compute; try discriminate|done|vm_compute; reflexivity|lia|constructor|].
  intros s. change i with (m, r, log, i, h).1.2. rewrite <-E. unfold gossiped.
  destruct (subnets ex_sstate.1.2 !! s) as [sub|] eqn:Es; [|done].
  assert (Forall (λ p, length (gossipableIPs p.2) ≤ 1) (map_to_list (subnets ex_sstate.1.2))) as HF by (vm_compute; repeat constructor).
  rewrite Forall_forall in HF. apply elem_of_map_to_list, HF in Es. cbn in *. lia.
Defined.
