(* ===== verification/PeerSet.v ===== *)
(** * Sets of peers

    [peerSet] (src/utils/avalanche/network/peer/set.go): a list of peers and a map from node
    IDs to their index in it.  A peer is of any type with a node ID and a description; the
    network's peers are those of Network.v.  [None] is a panic; [Sample] takes the random
    numbers of its sampler (Sampler.v) as an argument. *)

From S2P Require Import Prelude Sampler DrawLoop IndexedList.

Section set.
Context {Peer Info : Type} (ID : Peer → list Z) (info : Peer → Info).

Record peerSet := mkPeerSet {
  peersMap : gmap (list Z) nat;
  peersSlice : list Peer;
}.

Definition NoPrecondition (_ : Peer) : bool := true.

Definition NewSet : peerSet := mkPeerSet ∅ [].

Definition peerSet_Add (peer : Peer) (s : peerSet) : option peerSet :=
  match peersMap s !! ID peer with
  | None => Some (mkPeerSet (<[ID peer := length (peersSlice s)]> (peersMap s)) (peersSlice s ++ [peer]))
  | Some index =>
      if bool_decide (index < length (peersSlice s))
      then Some (mkPeerSet (peersMap s) (<[index := peer]> (peersSlice s)))
      else None
  end.

Definition GetByID (nodeID : list Z) (s : peerSet) : option (option Peer) :=
  match peersMap s !! nodeID with
  | None => Some None
  | Some index => Some <$> peersSlice s !! index
  end.

Definition GetByIndex (index : Z) (s : peerSet) : option Peer :=
  if bool_decide (index < 0)%Z then None else peersSlice s !! Z.to_nat index.

Definition peerSet_Remove (nodeID : list Z) (s : peerSet) : option peerSet :=
  match peersMap s !! nodeID with
  | None => Some s
  | Some index =>
      let lastIndex := length (peersSlice s) - 1 in
      lastPeer ← peersSlice s !! lastIndex;
      if bool_decide (index < length (peersSlice s))
      then Some (mkPeerSet (delete nodeID (<[ID lastPeer := index]> (peersMap s)))
                   (take lastIndex (<[index := lastPeer]> (peersSlice s))))
      else None
  end.

Definition peerSet_Len (s : peerSet) : Z := Z.of_nat (length (peersSlice s)).

(** The state [St] is what the precondition reads and changes. *)
Section sample.
Context {St : Type} (precondition : Peer → St → bool * St).

Definition sample_body (s : peerSet) (index : Z) (st : list Peer * St) : option (list Peer * St) :=
  let '(peers, v) := st in
  peer ← peersSlice s !! Z.to_nat index;
  let '(ok, v) := precondition peer v in
  Some (if ok : bool then peers ++ [peer] else peers, v).

(** [make] with the capacity [n] panics when [n] is too large for the memory; the callers pass
    small configured numbers, and this panic is left out. *)
Definition peerSet_Sample (n : Z) (v : St) (src : list Z) (s : peerSet) : option (list Peer * St * list Z) :=
  if bool_decide (n ≤ 0)%Z then Some ([], v, src)
  else
    let sampler := Initialize (Z.of_nat (length (peersSlice s))) in
    draw_loop (λ st, bool_decide (Z.of_nat (length st.1) < n)%Z) (sample_body s) (draw_fuel sampler) sampler src ([], v).
End sample.

Definition AllInfo (s : peerSet) : list Info := info <$> peersSlice s.

Fixpoint peerSet_Info (nodeIDs : list (list Z)) (s : peerSet) : option (list Info) :=
  match nodeIDs with
  | [] => Some []
  | nodeID :: rest =>
      p ← GetByID nodeID s;
      infos ← peerSet_Info rest s;
      Some (match p with Some peer => info peer :: infos | None => infos end)
  end.

(** ** The set as a map from node IDs to peers *)

Definition ps_ok (s : peerSet) : Prop := indexed ID (peersMap s) (peersSlice s).
Definition ps_get (s : peerSet) (n : list Z) : option Peer := ix_get (peersMap s) (peersSlice s) n.

Lemma ps_empty : ps_ok NewSet ∧ ∀ n, ps_get NewSet n = None.
Proof. split; [apply indexed_empty|done]. Qed.

Lemma ps_Add p s : ps_ok s →
  ∃ s', peerSet_Add p s = Some s' ∧ ps_ok s' ∧ ∀ n, ps_get s' n = if bool_decide (ID p = n) then Some p else ps_get s n.
Proof.
  intros Hx. unfold peerSet_Add. destruct (peersMap s !! ID p) as [i|] eqn:E.
  - destruct (indexed_lookup _ _ _ _ _ Hx E) as (v & Hv & _).
    rewrite bool_decide_eq_true_2 by (by eapply lookup_lt_Some). eexists. split; [done|].
    split; [by apply indexed_set|]. intros n. by apply get_set.
  - eexists. split; [done|]. split; [by apply indexed_snoc|]. intros n. by apply get_snoc.
Qed.

Lemma ps_GetByID n s : ps_ok s → GetByID n s = Some (ps_get s n).
Proof.
  intros Hx. unfold GetByID, ps_get, ix_get. destruct (peersMap s !! n) as [i|] eqn:E; [|done].
  destruct (indexed_lookup _ _ _ _ _ Hx E) as (v & Hv & _). cbn. by rewrite Hv.
Qed.

Lemma ps_Remove n s : ps_ok s →
  ∃ s', peerSet_Remove n s = Some s' ∧ ps_ok s' ∧ ∀ k, ps_get s' k = if bool_decide (k = n) then None else ps_get s k.
Proof.
  intros Hx. unfold peerSet_Remove. destruct (peersMap s !! n) as [i|] eqn:E.
  2: { exists s. split_and!; try done. intros k. case_bool_decide; [|done]. subst. by apply (indexed_None ID). }
  destruct (indexed_lookup _ _ _ _ _ Hx E) as (v & Hv & Hk).
  assert (i < length (peersSlice s)) as Hi by by eapply lookup_lt_Some.
  destruct (lookup_lt_is_Some_2 (peersSlice s) (length (peersSlice s) - 1)) as [z Hz]; [lia|].
  rewrite Hz. cbn [mbind option_bind]. rewrite bool_decide_eq_true_2 by done. eexists. split; [done|].
  split; [by apply (indexed_remove ID)|]. intros k. by apply (get_remove ID).
Qed.

Lemma ps_get_elem s p : ps_ok s → p ∈ peersSlice s ↔ ps_get s (ID p) = Some p.
Proof. clear info. intros Hx. unfold ps_get. rewrite (indexed_get _ _ _ _ _ Hx). naive_solver. Qed.

Lemma ps_get_ID s n p : ps_ok s → ps_get s n = Some p → ID p = n.
Proof. intros Hx. unfold ps_get. rewrite (indexed_get _ _ _ _ _ Hx). naive_solver. Qed.
End set.
