(* ===== verification/Float64.v ===== *)
(** * Go's float64

    The operations on [float64] that the code uses, as the Standard Library's executable
    specification of IEEE 754 arithmetic (SpecFloat) with the format's 53 digits and
    exponents up to 1024.  The lemmas are on integers that fit in 53 bits: the conversion
    is exact, so are differences, and comparisons are those of the integers. *)

From Stdlib Require Import SpecFloat.
From S2P Require Import Prelude.
#[local] Open Scope Z_scope.

Definition float64 : Type := spec_float.
Definition f64_of_Z (z : Z) : float64 := binary_normalize 53 1024 z 0 false.
Definition f64_add : float64 → float64 → float64 := SFadd 53 1024.
Definition f64_sub : float64 → float64 → float64 := SFsub 53 1024.
Definition f64_mul : float64 → float64 → float64 := SFmul 53 1024.
Definition f64_div : float64 → float64 → float64 := SFdiv 53 1024.
Definition f64_abs : float64 → float64 := SFabs.
Definition f64_lt (x y : float64) : bool := SFltb x y.
Definition f64_le (x y : float64) : bool := SFleb x y.

(** The integer part of a finite number; converting other numbers to an integer is not
    specified by the language. *)
Definition f64_trunc (x : float64) : option Z :=
  match x with
  | S754_zero _ => Some 0
  | S754_finite s m e =>
      let a := if bool_decide (0 ≤ e) then Zpos m * 2 ^ e else Zpos m / 2 ^ (- e) in
      Some (if s then - a else a)
  | _ => None
  end.

(** [time.Duration.Seconds] *)
Definition Seconds (d : Z) : float64 :=
  let sec := Z.quot d (10 ^ 9) in
  let nsec := Z.rem d (10 ^ 9) in
  f64_add (f64_of_Z sec) (f64_div (f64_of_Z nsec) (f64_of_Z (10 ^ 9))).

(** ** Integers of 53 bits *)

Lemma digits2_log2 p : Zpos (digits2_pos p) = Z.log2 (Zpos p) + 1.
Proof.
  induction p as [p IH|p IH|]; cbn [digits2_pos]; [..|done]; rewrite Pos2Z.inj_succ, IH.
  - rewrite (Pos2Z.inj_xI p), Z.log2_succ_double by lia. lia.
  - rewrite (Pos2Z.inj_xO p), Z.log2_double by lia. lia.
Qed.

Lemma iter_xO m d : Zpos (Pos.iter xO m d) = Zpos m * 2 ^ Zpos d.
Proof. rewrite (Zpower.shift_pos_correct d m : Zpos (Pos.iter xO m d) = _). rewrite Z.pow_pos_fold. lia. Qed.

Lemma shr_exact p m : 0 < m →
  SpecFloat.iter_pos shr_1 p {| shr_m := m * 2 ^ Zpos p; shr_r := false; shr_s := false |} =
    {| shr_m := m; shr_r := false; shr_s := false |}.
Proof.
  assert (∀ z, 0 < z → shr_1 {| shr_m := z * 2; shr_r := false; shr_s := false |} =
                       {| shr_m := z; shr_r := false; shr_s := false |}) as H1.
  { intros z Hz. destruct z as [|z|z]; [lia| |lia]. rewrite Z.mul_comm. done. }
  assert (∀ q, 0 < 2 ^ Zpos q) as Hpos by (intros; apply Z.pow_pos_nonneg; lia).
  revert m. induction p as [p IH|p IH|]; intros m Hm; cbn [SpecFloat.iter_pos].
  - rewrite Pos2Z.inj_xI, Z.pow_add_r, Z.pow_1_r, Z.mul_assoc by lia.
    replace (2 ^ (2 * Zpos p)) with (2 ^ Zpos p * 2 ^ Zpos p) by (rewrite <-Z.pow_add_r by lia; f_equal; lia).
    rewrite H1 by (specialize (Hpos p); nia). rewrite Z.mul_assoc, IH by (specialize (Hpos p); nia). by apply IH.
  - replace (2 ^ Zpos p~0) with (2 ^ Zpos p * 2 ^ Zpos p) by (rewrite <-Z.pow_add_r by lia; f_equal; lia).
    rewrite Z.mul_assoc, IH by (specialize (Hpos p); nia). by apply IH.
  - by apply H1.
Qed.

(** The float of an integer of 53 bits: its mantissa has 53 digits. *)
Definition canon (s : bool) (z : Z) : float64 :=
  S754_finite s (Z.to_pos (z * 2 ^ (52 - Z.log2 z))) (Z.log2 z - 52).

Lemma log2_small z : 0 < z < 2 ^ 53 → 0 ≤ Z.log2 z ≤ 52.
Proof. intros Hz. pose proof (Z.log2_nonneg z). assert (Z.log2 z < 53); [|lia]. apply Z.log2_lt_pow2; lia. Qed.

(** Bringing a mantissa to 53 digits, when the digits dropped are zeros. *)
Lemma shr_fexp_exact m d e : 2 ^ 52 ≤ m < 2 ^ 53 → 0 ≤ d → -1000 ≤ e + d ≤ 900 →
  shr_fexp 53 1024 (m * 2 ^ d) e loc_Exact = ({| shr_m := m; shr_r := false; shr_s := false |}, e + d).
Proof.
  intros Hm Hd He. assert (Z.log2 m = 52) as Hl by (apply Z.log2_unique; lia).
  assert (0 < 2 ^ d) by (apply Z.pow_pos_nonneg; lia). unfold shr_fexp, fexp, emin. cbn [shr_record_of_loc].
  assert (Zdigits2 (m * 2 ^ d) = 53 + d) as ->.
  { assert (Z.log2 (m * 2 ^ d) = 52 + d) as Hlog by (rewrite Z.log2_mul_pow2; lia).
    destruct (m * 2 ^ d) as [|q|q] eqn:Eq; [nia| |nia]. cbn [Zdigits2]. rewrite digits2_log2. lia. }
  replace (Z.max (53 + d + e - 53) (3 - 1024 - 53) - e) with d by lia.
  destruct d as [|d|d]; [|unfold shr; by rewrite shr_exact by lia|lia]. cbn [shr]. by rewrite Z.mul_1_r, Z.add_0_r.
Qed.

Lemma round_aux_exact s m d e : 2 ^ 52 ≤ m < 2 ^ 53 → 0 ≤ d → -1000 ≤ e + d ≤ 900 →
  binary_round_aux 53 1024 s (m * 2 ^ d) e loc_Exact = S754_finite s (Z.to_pos m) (e + d).
Proof.
  intros Hm Hd He. unfold binary_round_aux. rewrite shr_fexp_exact by done.
  cbn [shr_m loc_of_shr_record round_nearest_even].
  pose proof (shr_fexp_exact m 0 (e + d) Hm) as Hs. rewrite Z.mul_1_r, Z.add_0_r in Hs. rewrite Hs by lia. cbn [shr_m].
  destruct m as [|m|m]; [lia| |lia]. by rewrite (proj2 (Z.leb_le (e + d) (1024 - 53))) by lia.
Qed.

Lemma mantissa_range z : 0 < z < 2 ^ 53 → 2 ^ 52 ≤ z * 2 ^ (52 - Z.log2 z) < 2 ^ 53.
Proof.
  intros Hz. pose proof (log2_small z Hz). pose proof (Z.log2_spec z) as [H1 H2]; [lia|].
  assert (0 < 2 ^ (52 - Z.log2 z)) by (apply Z.pow_pos_nonneg; lia).
  replace (2 ^ 52) with (2 ^ Z.log2 z * 2 ^ (52 - Z.log2 z)) by (rewrite <-Z.pow_add_r by lia; f_equal; lia).
  replace (2 ^ 53) with (2 ^ Z.succ (Z.log2 z) * 2 ^ (52 - Z.log2 z)) by (rewrite <-Z.pow_add_r by lia; f_equal; lia).
  nia.
Qed.

Lemma round_exact s (m : positive) z k : 0 < z < 2 ^ 53 → 0 ≤ k ≤ 900 → Zpos m = z * 2 ^ k →
  binary_round 53 1024 s m (- k) = canon s z.
Proof.
  intros Hz Hk Em. pose proof (log2_small z Hz) as Hl. pose proof (mantissa_range z Hz) as Hmant.
  assert (Z.log2 (Zpos m) = Z.log2 z + k) as Elog by (rewrite Em, Z.log2_mul_pow2; lia).
  unfold binary_round, fexp, emin. rewrite digits2_log2, Elog.
  replace (Z.max (Z.log2 z + k + 1 + - k - 53) (3 - 1024 - 53)) with (Z.log2 z - 52) by lia.
  unfold shl_align. replace (Z.log2 z - 52 - - k) with (k - (52 - Z.log2 z)) by lia.
  assert (∀ d, 0 ≤ d → k = 52 - Z.log2 z + d →
    binary_round_aux 53 1024 s (Zpos m) (- k) loc_Exact = canon s z) as Hdown.
  { intros d Hd ->. rewrite Em, Z.pow_add_r, Z.mul_assoc by lia. rewrite round_aux_exact by lia.
    unfold canon. f_equal. lia. }
  destruct (k - (52 - Z.log2 z)) as [|d|d] eqn:Ed; [apply (Hdown 0); lia|apply (Hdown (Zpos d)); lia|].
  rewrite iter_xO, Em, <-Z.mul_assoc, <-Z.pow_add_r by lia. replace (k + Zpos d) with (52 - Z.log2 z) by lia.
  pose proof (round_aux_exact s (z * 2 ^ (52 - Z.log2 z)) 0 (Z.log2 z - 52) Hmant) as Hr.
  rewrite Z.mul_1_r, Z.add_0_r in Hr. by apply Hr; lia.
Qed.

(** Integers of 53 bits are their own floats, and a scaled one is rescaled. *)
Definition of_int (z : Z) : float64 :=
  if bool_decide (z = 0) then S754_zero false else canon (bool_decide (z < 0)) (Z.abs z).

Lemma normalize_int z k : Z.abs z < 2 ^ 53 → 0 ≤ k ≤ 900 → binary_normalize 53 1024 (z * 2 ^ k) (- k) false = of_int z.
Proof.
  intros Hz Hk. assert (0 < 2 ^ k) by (apply Z.pow_pos_nonneg; lia). unfold of_int. case_bool_decide as H0.
  { subst z. done. }
  unfold binary_normalize. destruct (z * 2 ^ k) as [|m|m] eqn:E; [nia|..].
  - rewrite bool_decide_eq_false_2 by nia. apply (round_exact _ _ _ k); [nia|lia|]. rewrite Z.abs_eq by nia. lia.
  - rewrite bool_decide_eq_true_2 by nia. apply (round_exact _ _ _ k); [nia|lia|]. rewrite Z.abs_neq by nia. lia.
Qed.

Lemma f64_of_Z_int z : Z.abs z < 2 ^ 53 → f64_of_Z z = of_int z.
Proof. intros Hz. pose proof (normalize_int z 0 Hz) as H. rewrite Z.mul_1_r in H. by apply H. Qed.

(** Aligning the mantissa of an integer. *)
Lemma align_int z e : 0 < z < 2 ^ 53 → e ≤ Z.log2 z - 52 →
  Zpos (shl_align (Z.to_pos (z * 2 ^ (52 - Z.log2 z))) (Z.log2 z - 52) e).1 = z * 2 ^ (- e).
Proof.
  intros Hz He. pose proof (log2_small z Hz). pose proof (mantissa_range z Hz). unfold shl_align.
  destruct (e - (Z.log2 z - 52)) as [|d|d] eqn:Ed; [|lia|]; cbn [fst].
  - rewrite Z2Pos.id by lia. do 2 f_equal. lia.
  - rewrite iter_xO, Z2Pos.id, <-Z.mul_assoc, <-Z.pow_add_r by lia. do 2 f_equal. lia.
Qed.

(** Differences of such numbers are exact, *)
Lemma f64_sub_int a b : 0 ≤ a < 2 ^ 53 → 0 ≤ b < 2 ^ 53 → f64_sub (of_int a) (of_int b) = of_int (a - b).
Proof.
  intros Ha Hb. unfold f64_sub, of_int at 1 2. repeat case_bool_decide; try lia; subst.
  - done.
  - rewrite Z.sub_0_l. unfold of_int. rewrite bool_decide_eq_false_2, bool_decide_eq_true_2 by lia.
    rewrite Z.abs_opp. done.
  - rewrite Z.sub_0_r. unfold of_int. rewrite bool_decide_eq_false_2, bool_decide_eq_false_2 by lia. done.
  - unfold canon, SFsub. rewrite !Z.abs_eq by lia. cbn [cond_Zopp].
    pose proof (log2_small a ltac:(lia)). pose proof (log2_small b ltac:(lia)).
    rewrite !align_int by lia. rewrite <-Z.mul_sub_distr_r.
    pose proof (normalize_int (a - b) (- Z.min (Z.log2 a - 52) (Z.log2 b - 52))) as Hn.
    rewrite Z.opp_involutive in Hn. apply Hn; lia.
Qed.

Lemma f64_abs_int z : f64_abs (of_int z) = of_int (Z.abs z).
Proof.
  unfold of_int. repeat case_bool_decide; try lia; [done|..]; unfold canon; cbn; by rewrite Z.abs_involutive.
Qed.

(** and so are comparisons. *)
Lemma compare_canon a b : 0 < a < 2 ^ 53 → 0 < b < 2 ^ 53 → SFcompare (canon false a) (canon false b) = Some (a ?= b).
Proof.
  intros Ha Hb. unfold canon. cbn [SFcompare]. f_equal.
  pose proof (mantissa_range a Ha). pose proof (mantissa_range b Hb).
  destruct (Z.compare_spec (Z.log2 a - 52) (Z.log2 b - 52)) as [He|He|He].
  - assert (Z.log2 b = Z.log2 a) as E by lia. rewrite E in *.
    change (Pos.compare_cont Eq ?x ?y) with (Zpos x ?= Zpos y). rewrite !Z2Pos.id by lia.
    pose proof (log2_small a Ha). rewrite <-Zmult_compare_compat_r; [done|]. apply Z.lt_gt, Z.pow_pos_nonneg; lia.
  - symmetry. apply Z.compare_lt_iff, Z.log2_lt_cancel. lia.
  - symmetry. apply Z.compare_gt_iff, Z.log2_lt_cancel. lia.
Qed.

Lemma f64_lt_int a b : 0 ≤ a < 2 ^ 53 → 0 ≤ b < 2 ^ 53 → f64_lt (of_int a) (of_int b) = bool_decide (a < b).
Proof.
  intros Ha Hb. unfold f64_lt, SFltb.
  assert (SFcompare (of_int a) (of_int b) = Some (a ?= b)) as ->.
  { unfold of_int. rewrite !(bool_decide_eq_false_2 (_ < 0)), !Z.abs_eq by lia.
    destruct (bool_decide_reflect (a = 0)) as [->|], (bool_decide_reflect (b = 0)) as [->|]; [done|..].
    - destruct b; [done..|lia].
    - destruct a; [done..|lia].
    - apply compare_canon; lia. }
  case_bool_decide as Hlt; [by rewrite (proj2 (Z.compare_lt_iff a b) Hlt)|].
  destruct (Z.compare_spec a b); (done || lia).
Qed.

(** A duration of whole seconds. *)
Lemma Seconds_int s : 0 ≤ s < 2 ^ 53 → Seconds (s * 10 ^ 9) = of_int s.
Proof.
  intros Hs. unfold Seconds. rewrite Z.quot_mul, Z.rem_mul by lia. rewrite f64_of_Z_int by lia.
  change (f64_div (f64_of_Z 0) (f64_of_Z (10 ^ 9))) with (S754_zero false).
  unfold of_int, f64_add, canon. case_bool_decide; done.
Qed.
