(* ===== verification/Benchlist.v ===== *)
(** * The benchlist (src/utils/avalanche/networking/benchlist/benchlist.go)

    Nodes that consistently fail to answer are benched for a while.  The calls
    [RegisterFailure] and [RegisterResponse], each under its locks, and the goroutine [run],
    from one wait or locked section to the next, are the steps of [bexec].  Times and
    durations are nanoseconds; the zero time is [None].  What the functions ask of the
    validator manager (VdrManager.v) is the record [stakes]; the clock and the random number
    are arguments.  [RegisterFailure] is one step: a response registered between its two locked
    sections has the effect of one registered after it.  The log and the registration of metrics are left out. *)

From S2P Require Import Prelude SafeMath IndexedList Heap Float64.

Record stakes {E : Type} := mkStakes {
  st_GetWeight : list Z → Z;
  st_SubsetWeight : gset (list Z) → result E Z;
  st_TotalWeight : result E Z;
}.
#[global] Arguments stakes : clear implicits.

Record failureStreak := mkStreak { firstFailure : option Z; consecutive : Z }.

(** Where the goroutine is: in the [select], its timer set to fire at a time; in
    [waitForBenchedNodes]; before [removedExpiredNodes]; before [durationToSleep]. *)
Inductive run_phase := RSelect (deadline : Z) | RWait | RExpire | RSleep.

Inductive bevent := Benched (nodeID : list Z) | Unbenched (nodeID : list Z).

Record benchlist := mkBenchlist {
  failureStreaks : gmap (list Z) failureStreak;
  benchlistSet : gset (list Z);
  benchedHeap : hstate (K := list Z) (V := Z);
  resetTimer : bool;                   (* a message is pending *)
  b_phase : run_phase;
  b_events : list bevent;              (* what [benchable] was told *)
  numBenched : Z;
  weightBenched : Z;
}.

Record bench_config := mkBenchConfig {
  threshold : Z;
  minimumFailingDuration : Z;
  bench_duration : Z;
  maxPortion : float64;
}.

Definition before (x y : Z) : bool := bool_decide (x < y)%Z.

(** The timer of [run] is created to fire at once. *)
Definition NewBenchlist (cfg : bench_config) (now : Z) : option benchlist :=
  if f64_lt (maxPortion cfg) (f64_of_Z 0) || f64_le (f64_of_Z 1) (maxPortion cfg) then None
  else Some (mkBenchlist ∅ ∅ NewMap false (RSelect now) [] 0 0).

Definition set_streaks (s : gmap (list Z) failureStreak) (b : benchlist) : benchlist :=
  mkBenchlist s (benchlistSet b) (benchedHeap b) (resetTimer b) (b_phase b) (b_events b) (numBenched b) (weightBenched b).
Definition set_phase (p : run_phase) (b : benchlist) : benchlist :=
  mkBenchlist (failureStreaks b) (benchlistSet b) (benchedHeap b) (resetTimer b) p (b_events b) (numBenched b) (weightBenched b).
Definition set_reset (r : bool) (b : benchlist) : benchlist :=
  mkBenchlist (failureStreaks b) (benchlistSet b) (benchedHeap b) r (b_phase b) (b_events b) (numBenched b) (weightBenched b).

(** [time.Time.Sub] saturates. *)
Definition time_Sub (t u : Z) : Z := Z.max (- 2 ^ 63) (Z.min (2 ^ 63 - 1) (t - u)).

Section ops.
Context {E : Type} (cfg : bench_config).

Definition IsBenched (nodeID : list Z) (b : benchlist) : bool := bool_decide (nodeID ∈ benchlistSet b).

Definition RegisterResponse (nodeID : list Z) (b : benchlist) : benchlist :=
  set_streaks (delete nodeID (failureStreaks b)) b.

(** When the node may be unbenched: between half the duration and the duration from now. *)
Definition benchedUntil (now : Z) (rnd : float64) : option Z :=
  let minBenchDuration := Z.quot (bench_duration cfg) 2 in
  let minBenchedUntil := (now + minBenchDuration)%Z in
  let maxBenchedUntil := (now + bench_duration cfg)%Z in
  let diff := time_Sub maxBenchedUntil minBenchedUntil in
  delay ← f64_trunc (f64_mul rnd (f64_of_Z diff));
  Some (minBenchedUntil + delay)%Z.

(** The stake benched with the node, when the node may be benched. *)
Definition may_bench (v : stakes E) (nodeID : list Z) (b : benchlist) : option Z :=
  let validatorStake := st_GetWeight v nodeID in
  if bool_decide (validatorStake = 0)%Z then None
  else
    match st_SubsetWeight v (benchlistSet b) with
    | Err _ => None
    | Ok benchedStake =>
        match Add 64 benchedStake validatorStake with
        | Err _ => None
        | Ok newBenchedStake =>
            match st_TotalWeight v with
            | Err _ => None
            | Ok totalStake =>
                let maxBenchedStake := f64_mul (f64_of_Z totalStake) (maxPortion cfg) in
                if f64_lt maxBenchedStake (f64_of_Z newBenchedStake) then None else Some newBenchedStake
            end
        end
    end.

Definition bench (v : stakes E) (nodeID : list Z) (now : Z) (rnd : float64) (b : benchlist) : option benchlist :=
  match may_bench v nodeID b with
  | None => Some b
  | Some newBenchedStake =>
      until ← benchedUntil now rnd;
      '(_, h) ← Map_Push before nodeID until (benchedHeap b);
      Some (mkBenchlist (delete nodeID (failureStreaks b)) (benchlistSet b ∪ {[nodeID]}) h true (b_phase b)
              (b_events b ++ [Benched nodeID]) (Z.of_nat (Map_Len h)) newBenchedStake)
  end.

(** [now] and [now'] are the times read by [RegisterFailure] and by [bench]. *)
Definition RegisterFailure (v : stakes E) (nodeID : list Z) (now now' : Z) (rnd : float64) (b : benchlist) : option benchlist :=
  if bool_decide (nodeID ∈ benchlistSet b) then Some b
  else
    let streak := default (mkStreak None 0) (failureStreaks b !! nodeID) in
    let first := default now (firstFailure streak) in
    let streak := mkStreak (Some first) (wrapS 64 (consecutive streak + 1)) in
    let b := set_streaks (<[nodeID := streak]> (failureStreaks b)) b in
    if bool_decide (threshold cfg ≤ consecutive streak)%Z && bool_decide (first + minimumFailingDuration cfg < now)%Z
    then bench v nodeID now' rnd b else Some b.

(** The loop of [removedExpiredNodes]; every turn takes a node off the heap. *)
Fixpoint expire_loop (fuel : nat) (now : Z) (b : benchlist) : option benchlist :=
  match fuel with
  | O => None
  | S fuel =>
      next ← Map_Peek (benchedHeap b);
      match next with
      | None => Some b
      | Some (_, next) =>
          if before now next then Some b
          else
            '(popped, h) ← Map_Pop before (benchedHeap b);
            '(nodeID, _) ← popped;
            expire_loop fuel now
              (mkBenchlist (failureStreaks b) (benchlistSet b ∖ {[nodeID]}) h (resetTimer b) (b_phase b)
                 (b_events b ++ [Unbenched nodeID]) (numBenched b) (weightBenched b))
      end
  end.

Definition removedExpiredNodes (v : stakes E) (now : Z) (b : benchlist) : option benchlist :=
  b ← expire_loop (S (Map_Len (benchedHeap b))) now b;
  let weight := match st_SubsetWeight v (benchlistSet b) with Ok w => w | Err _ => weightBenched b end in
  Some (mkBenchlist (failureStreaks b) (benchlistSet b) (benchedHeap b) (resetTimer b) (b_phase b) (b_events b)
          (Z.of_nat (Map_Len (benchedHeap b))) weight).

Definition durationToSleep (now : Z) (b : benchlist) : option Z :=
  next ← Map_Peek (benchedHeap b);
  Some (match next with None => 0 | Some (_, next) => time_Sub next now end)%Z.

(** One step of [run] at the time [now]; [None] when it waits.  In the [select] it takes the
    timer or the message.  The timer is set for the duration from the time that was read for
    it; the instants between the read and the [Reset] of the timer are left out. *)
Definition run_step (v : stakes E) (now : Z) (timer : bool) (b : benchlist) : option benchlist :=
  match b_phase b with
  | RSelect deadline =>
      if timer then (if bool_decide (deadline ≤ now)%Z then Some (set_phase RWait b) else None)
      else if resetTimer b then Some (set_phase RWait (set_reset false b)) else None
  | RWait =>
      next ← Map_Peek (benchedHeap b);
      match next with
      | Some _ => Some (set_phase RExpire b)
      | None => if resetTimer b then Some (set_reset false b) else None
      end
  | RExpire => set_phase RSleep <$> removedExpiredNodes v now b
  | RSleep => d ← durationToSleep now b; Some (set_phase (RSelect (now + Z.max d 0)) b)
  end.

Inductive bop :=
| BFailure (v : stakes E) (nodeID : list Z) (now now' : Z) (rnd : float64)
| BResponse (nodeID : list Z)
| BRun (v : stakes E) (now : Z) (timer : bool).

Definition bexec (o : bop) (b : benchlist) : option benchlist :=
  match o with
  | BFailure v nodeID now now' rnd => RegisterFailure v nodeID now now' rnd b
  | BResponse nodeID => Some (RegisterResponse nodeID b)
  | BRun v now timer => run_step v now timer b
  end.

Definition op_time (o : bop) (T : Z) : Z :=
  match o with BFailure _ _ _ now' _ => now' | BResponse _ => T | BRun _ now _ => now end.

(** [breach T b]: [b] is reached, [T] the last time that was read; the clock does not go back. *)
Inductive breach : Z → benchlist → Prop :=
| breach_new now b : NewBenchlist cfg now = Some b → breach now b
| breach_step o T b b' : breach T b → (T ≤ op_time o T)%Z → bexec o b = Some b' → breach (op_time o T) b'.
End ops.

(** ** Replaying what [benchable] was told *)

(** A node is benched only when it is not, and unbenched only when it is. *)
Fixpoint replay (l : list bevent) (s : gset (list Z)) : option (gset (list Z)) :=
  match l with
  | [] => Some s
  | Benched n :: l => if bool_decide (n ∈ s) then None else replay l (s ∪ {[n]})
  | Unbenched n :: l => if bool_decide (n ∈ s) then replay l (s ∖ {[n]}) else None
  end.

Lemma replay_app l1 l2 s : replay (l1 ++ l2) s = replay l1 s ≫= replay l2.
Proof.
  revert s. induction l1 as [|[n|n] l1 IH]; intros s; cbn; [done| |]; case_bool_decide; done.
Qed.

Lemma before_asym x y : before x y = true → before y x = false.
Proof. unfold before. rewrite bool_decide_eq_true, bool_decide_eq_false. lia. Qed.
Lemma before_trans x y z : before y x = false → before z y = false → before z x = false.
Proof. unfold before. rewrite !bool_decide_eq_false. lia. Qed.

Local Abbreviation rep := (hrep before).
Local Abbreviation Push_ok := (Push_spec before before_asym before_trans).
Local Abbreviation Pop_ok := (Pop_spec before before_asym before_trans).
Local Abbreviation Peek_ok := (Peek_spec before before_asym before_trans).

Section props.
Context {E : Type} (cfg : bench_config).

(** [M] has the times until which the nodes are benched; [T] is the last time that was read. *)
Record binv (T : Z) (b : benchlist) (M : gmap (list Z) Z) : Prop := {
  bi_heap : rep (benchedHeap b) M;
  bi_set : dom M = benchlistSet b;
  bi_events : replay (b_events b) ∅ = Some (benchlistSet b);
  bi_timer : ∀ d, b_phase b = RSelect d → resetTimer b = true ∨ ∀ n t, M !! n = Some t → (d ≤ Z.max t T)%Z;
}.

Lemma binv_later T T' b M : (T ≤ T')%Z → binv T b M → binv T' b M.
Proof.
  intros HT [H1 H2 H3 H4]. split; try done. intros d Hd. destruct (H4 d Hd) as [|H]; [by left|right]. intros n t Hn. specialize (H n t Hn). lia.
Qed.

Lemma NewBenchlist_inv now b : NewBenchlist cfg now = Some b → binv now b ∅.
Proof.
  unfold NewBenchlist. destruct (_ || _); [done|]. intros [= <-]. split; cbn; try done.
  - apply (hreach_rep before before_asym before_trans). constructor.
  - right. intros n t. by rewrite lookup_empty.
Qed.

Lemma bench_inv (v : stakes E) n now rnd T b b' M : binv T b M → n ∉ benchlistSet b → bench cfg v n now rnd b = Some b' → ∃ M', binv T b' M'.
Proof.
  intros [Hh Hs He Ht] Hn. unfold bench. destruct (may_bench cfg v n b) as [w|]; [|intros [= <-]; by exists M].
  destruct (benchedUntil cfg now rnd) as [until|]; [|done]. cbn [mbind option_bind].
  destruct (Push_ok _ _ n until Hh) as (h' & -> & Hr'). cbn [mbind option_bind]. intros [= <-]. exists (<[n := until]> M). split; cbn.
  - done.
  - rewrite dom_insert_L, Hs. set_solver.
  - rewrite replay_app, He. cbn. by rewrite bool_decide_eq_false_2.
  - by left.
Qed.

Lemma set_streaks_inv T b M s : binv T b M → binv T (set_streaks s b) M.
Proof. by intros [H1 H2 H3 H4]. Qed.

Lemma RegisterFailure_inv (v : stakes E) n now now' rnd T b b' M : binv T b M → RegisterFailure cfg v n now now' rnd b = Some b' → ∃ M', binv T b' M'.
Proof.
  intros Hi. unfold RegisterFailure. case_bool_decide as Hn; [intros [= <-]; by exists M|].
  destruct (_ && _); [|intros [= <-]; exists M; by apply set_streaks_inv]. eapply bench_inv; [|done]. by apply set_streaks_inv.
Qed.

(** The nodes whose time has come are unbenched, in the order of their times, and no others. *)
Lemma expire_loop_spec fuel now T b M : binv T b M → size M < fuel →
  ∃ b' M', expire_loop fuel now b = Some b' ∧ binv T b' M' ∧ b_phase b' = b_phase b ∧ resetTimer b' = resetTimer b ∧
    ∀ n, M' !! n = match M !! n with Some t => if before now t then Some t else None | None => None end.
Proof.
  revert b M. induction fuel as [|fuel IH]; intros b M Hi Hf; [lia|]. cbn [expire_loop]. destruct Hi as [Hh Hs He Ht].
  destruct (Peek_ok _ _ Hh) as (r & -> & Hpk). cbn [mbind option_bind]. destruct r as [[k next]|].
  2: { exists b, M. split_and!; try done. intros n. rewrite Hpk, lookup_empty. done. }
  destruct Hpk as [HMk Hleast]. cbn in HMk. destruct (before now next) eqn:Eb.
  { exists b, M. split_and!; try done. intros n. destruct (M !! n) as [t|] eqn:En; [|done]. specialize (Hleast n t En). cbn in Hleast.
    destruct (before now t) eqn:Et; [done|]. pose proof (before_trans _ _ _ Hleast Et). congruence. }
  destruct (Pop_ok _ _ Hh) as (r & h' & -> & Hpop). cbn [mbind option_bind]. destruct r as [[k' t']|]; [|by destruct Hpop as [-> _]].
  cbn [mbind option_bind].
  destruct Hpop as [[HMk' Hleast'] Hr']. cbn in HMk', Hr', Hleast'.
  assert (before now t' = false) as Eb' by (eapply before_trans; [apply (Hleast' _ _ HMk)|done]).
  destruct (IH (mkBenchlist (failureStreaks b) (benchlistSet b ∖ {[k']}) h' (resetTimer b) (b_phase b)
    (b_events b ++ [Unbenched k']) (numBenched b) (weightBenched b)) (delete k' M)) as (b' & M' & -> & Hi' & Hp' & Hrt' & HM').
  - split; cbn; [done|by rewrite dom_delete_L, Hs| |].
    + rewrite replay_app, He. cbn. rewrite bool_decide_eq_true_2; [done|]. rewrite <-Hs. by apply elem_of_dom_2 in HMk'.
    + intros d Hd. destruct (Ht d Hd) as [|H]; [by left|right]. intros n t [_ Hn]%lookup_delete_Some. by apply (H n).
  - rewrite map_size_delete, HMk'. assert (size M ≠ 0) by (apply map_size_non_empty_iff; intros ->; by rewrite lookup_empty in HMk'). lia.
  - exists b', M'. split_and!; try done. intros n. rewrite HM'. destruct (decide (n = k')) as [->|]; [|by rewrite lookup_delete_ne].
    by rewrite lookup_delete_eq, HMk', Eb'.
Qed.

Lemma removedExpiredNodes_spec (v : stakes E) now T b M : binv T b M →
  ∃ b' M', removedExpiredNodes v now b = Some b' ∧ binv T b' M' ∧ b_phase b' = b_phase b ∧ resetTimer b' = resetTimer b ∧
    ∀ n, M' !! n = match M !! n with Some t => if before now t then Some t else None | None => None end.
Proof.
  intros Hi. unfold removedExpiredNodes. destruct (expire_loop_spec (S (Map_Len (benchedHeap b))) now T b M Hi) as (b' & M' & -> & Hi' & Hp & Hr & HM).
  { unfold Map_Len. rewrite (hrep_size _ _ _ (bi_heap _ _ _ Hi)). lia. }
  cbn [mbind option_bind]. eexists _, M'. split; [done|]. split_and!; try done. by destruct Hi' as [H1 H2 H3 H4].
Qed.

Lemma run_step_inv (v : stakes E) now timer T b b' M : binv T b M → (T ≤ now)%Z → run_step v now timer b = Some b' → ∃ M', binv now b' M'.
Proof.
  intros Hi HT. pose proof (binv_later _ _ _ _ HT Hi) as [Hh Hs He Ht]. unfold run_step. destruct (b_phase b) as [d| | |] eqn:Ep.
  - destruct timer; [case_bool_decide; [|done]|destruct (resetTimer b); [|done]]; intros [= <-]; exists M; by split.
  - destruct (Map_Peek _) as [[e|]|]; [| |done]; cbn [mbind option_bind]; [intros [= <-]; exists M; by split|].
    destruct (resetTimer b); [|done]. intros [= <-]. exists M. split; cbn; try done. by rewrite Ep.
  - destruct (removedExpiredNodes_spec v now T b M Hi) as (b1 & M' & -> & Hi' & _). intros [= <-]. exists M'.
    apply (binv_later _ _ _ _ HT) in Hi' as [? ? ? ?]. by split.
  - unfold durationToSleep. destruct (Peek_ok _ _ Hh) as (r & -> & Hpk). cbn [mbind option_bind]. intros [= <-]. exists M. split; cbn; try done.
    intros d [= <-]. right. intros n t Hn. destruct r as [[k next]|]; [|by rewrite Hpk, lookup_empty in Hn].
    destruct Hpk as [_ Hleast]. specialize (Hleast n t Hn). unfold before in Hleast. cbn in Hleast. apply bool_decide_eq_false in Hleast.
    unfold time_Sub. lia.
Qed.

Lemma breach_inv T b : breach (E := E) cfg T b → ∃ M, binv T b M.
Proof.
  induction 1 as [now b H|o T b b' _ [M Hi] HT Hx]; [exists ∅; by apply NewBenchlist_inv|].
  destruct o as [v n now now' rnd|n|v now timer]; cbn in *.
  - destruct (RegisterFailure_inv _ _ _ _ _ _ _ _ _ Hi Hx) as [M' Hi']. exists M'. by eapply binv_later.
  - injection Hx as <-. exists M. by apply set_streaks_inv.
  - by eapply run_step_inv.
Qed.

(** The goroutine only ever takes nodes off. *)
Lemma run_step_subset (v : stakes E) now timer T b b' M : binv T b M → run_step v now timer b = Some b' → benchlistSet b' ⊆ benchlistSet b.
Proof.
  intros Hi. unfold run_step. destruct (b_phase b) as [d| | |].
  - destruct timer; [case_bool_decide; [|done]|destruct (resetTimer b); [|done]]; by intros [= <-].
  - destruct (Map_Peek _) as [[e|]|]; [| |done]; cbn [mbind option_bind]; [by intros [= <-]|]. destruct (resetTimer b); [|done]. by intros [= <-].
  - destruct (removedExpiredNodes_spec v now T b M Hi) as (b1 & M' & -> & Hi' & _ & _ & HM). intros [= <-]. cbn.
    rewrite <-(bi_set _ _ _ Hi), <-(bi_set _ _ _ Hi'). intros n. rewrite !elem_of_dom, HM. destruct (M !! n); [eauto|by intros [? ?]].
  - destruct (durationToSleep now b); [|done]. by intros [= <-].
Qed.

(** Where a step goes while a node is benched until a time that has come. *)
Definition due (now : Z) (n : list Z) (M : gmap (list Z) Z) : Prop := ∃ t, M !! n = Some t ∧ (t ≤ now)%Z.

Lemma run_step_due (v : stakes E) now timer T b b' M n : binv T b M → due now n M → run_step v now timer b = Some b' →
  match b_phase b with
  | RSelect _ => b_phase b' = RWait ∧ ∃ M', binv T b' M' ∧ due now n M'
  | RWait => b_phase b' = RExpire ∧ ∃ M', binv T b' M' ∧ due now n M'
  | RExpire => n ∉ benchlistSet b'
  | RSleep => (∃ d, b_phase b' = RSelect d) ∧ benchlistSet b' = benchlistSet b ∧ benchedHeap b' = benchedHeap b
  end.
Proof.
  intros Hi (t & Hn & Ht). pose proof Hi as [Hh Hs He Htm]. unfold run_step. destruct (b_phase b) as [d| | |] eqn:Ep.
  - destruct timer; [case_bool_decide; [|done]|destruct (resetTimer b); [|done]]; intros [= <-]; (split; [done|]); exists M; (split; [by split|by exists t]).
  - destruct (Peek_ok _ _ Hh) as (r & -> & Hpk). cbn [mbind option_bind]. destruct r as [e|]; [|by rewrite Hpk, lookup_empty in Hn].
    intros [= <-]. split; [done|]. exists M. split; [by split|by exists t].
  - destruct (removedExpiredNodes_spec v now T b M Hi) as (b1 & M' & -> & Hi' & _ & _ & HM). intros [= <-]. cbn.
    rewrite <-(bi_set _ _ _ Hi'), not_elem_of_dom, HM, Hn. unfold before. by rewrite bool_decide_eq_false_2 by lia.
  - destruct (durationToSleep now b); [|done]. intros [= <-]. by split_and!; [eexists|..].
Qed.

Definition rank (p : run_phase) : nat := match p with RExpire => 0 | RWait => 1 | RSelect _ => 2 | RSleep => 3 end.

Lemma run_step_rank (v : stakes E) now timer T b b' M n : binv T b M → (T ≤ now)%Z → due now n M → run_step v now timer b = Some b' →
  n ∉ benchlistSet b' ∨ rank (b_phase b') < rank (b_phase b) ∧ ∃ M', binv now b' M' ∧ due now n M'.
Proof.
  intros Hi HT Hd Hx. pose proof (run_step_due _ _ _ _ _ _ _ _ Hi Hd Hx) as H. destruct (b_phase b) as [d| | |] eqn:Ep.
  - destruct H as (-> & M' & Hi' & Hd'). right. split; [cbn; lia|]. exists M'. split; [by eapply binv_later|done].
  - destruct H as (-> & M' & Hi' & Hd'). right. split; [cbn; lia|]. exists M'. split; [by eapply binv_later|done].
  - by left.
  - destruct H as ([d ->] & Hs & Hh). right. split; [cbn; lia|]. destruct (run_step_inv _ _ _ _ _ _ _ Hi HT Hx) as [M' Hi'].
    exists M'. split; [done|]. destruct Hd as (t & Hn & Ht). exists t. split; [|done].
    pose proof (bi_heap _ _ _ Hi') as Hr'. rewrite Hh in Hr'. apply (hrep_elem _ _ _ _ _ Hr'). by apply (hrep_elem _ _ _ _ _ (bi_heap _ _ _ Hi)).
Qed.

Fixpoint runs (v : stakes E) (now : Z) (timers : list bool) (b : benchlist) : option benchlist :=
  match timers with [] => Some b | timer :: timers => b ← run_step v now timer b; runs v now timers b end.

Lemma runs_subset (v : stakes E) now timers T b b' M : binv T b M → (T ≤ now)%Z → runs v now timers b = Some b' → benchlistSet b' ⊆ benchlistSet b.
Proof.
  revert T b M. induction timers as [|timer timers IH]; intros T b M Hi HT; cbn; [by intros [= <-]|].
  destruct (run_step v now timer b) as [b1|] eqn:Hx; [|done]. cbn. intros Hrun. etrans; [|by eapply run_step_subset].
  destruct (run_step_inv _ _ _ _ _ _ _ Hi HT Hx) as [M' Hi']. by eapply (IH now).
Qed.

Lemma runs_due (v : stakes E) now timers T b b' M n : binv T b M → (T ≤ now)%Z → due now n M → rank (b_phase b) < length timers →
  runs v now timers b = Some b' → n ∉ benchlistSet b'.
Proof.
  revert T b M. induction timers as [|timer timers IH]; intros T b M Hi HT Hd Hl; cbn in *; [lia|].
  destruct (run_step v now timer b) as [b1|] eqn:Hx; [|done]. cbn. intros Hrun.
  destruct (run_step_inv _ _ _ _ _ _ _ Hi HT Hx) as [M1 Hi1].
  destruct (run_step_rank _ _ _ _ _ _ _ _ Hi HT Hd Hx) as [Hn|(Hr & M' & Hi' & Hd')].
  - pose proof (runs_subset _ _ _ _ _ _ _ Hi1 (Z.le_refl _) Hrun) as Hsub. set_solver.
  - eapply (IH now b1 M'); [done|lia|done|lia|done].
Qed.

Lemma get_M b M T n t : binv T b M → Map_Get n (benchedHeap b) = Some (Some t) → M !! n = Some t.
Proof. intros Hi Hg. pose proof (proj1 (Get_spec _ _ _ n (bi_heap _ _ _ Hi))) as E'. congruence. Qed.

Lemma contains_M b M T n : binv T b M → Map_Contains n (benchedHeap b) = IsBenched n b.
Proof.
  intros Hi. rewrite (proj2 (Get_spec _ _ _ n (bi_heap _ _ _ Hi))). unfold IsBenched. apply bool_decide_ext.
  by rewrite <-(bi_set _ _ _ Hi), elem_of_dom.
Qed.

(** Which nodes are benched, and who is told.  In every state that calls from any
    goroutines lead to: [benchable] was told of each node benched and unbenched in turn,
    and the nodes benched are those it was last told were benched, which are those in the
    heap.  A failure benches a node only if it is not benched, has weight, failed as often
    and for as long as is configured, and only if the weight benched with it is not above
    the configured portion of the total; and no step of the goroutine unbenches a node
    before its time. *)
Theorem benchlist_consistent T b : breach (E := E) cfg T b →
  replay (b_events b) ∅ = Some (benchlistSet b) ∧
  (∀ n, Map_Contains n (benchedHeap b) = IsBenched n b) ∧
  (∀ (v : stakes E) n now now' rnd b', RegisterFailure cfg v n now now' rnd b = Some b' → benchlistSet b' ≠ benchlistSet b →
     let streak := default (mkStreak None 0) (failureStreaks b !! n) in
     IsBenched n b = false ∧ benchlistSet b' = benchlistSet b ∪ {[n]} ∧ st_GetWeight v n ≠ 0%Z ∧
     (threshold cfg ≤ wrapS 64 (consecutive streak + 1))%Z ∧ (default now (firstFailure streak) + minimumFailingDuration cfg < now)%Z ∧
     ∃ benched new total, st_SubsetWeight v (benchlistSet b) = Ok benched ∧ Add 64 benched (st_GetWeight v n) = Ok new ∧
       st_TotalWeight v = Ok total ∧ f64_lt (f64_mul (f64_of_Z total) (maxPortion cfg)) (f64_of_Z new) = false) ∧
  (∀ (v : stakes E) now timer b' n t, run_step v now timer b = Some b' → Map_Get n (benchedHeap b) = Some (Some t) → (now < t)%Z →
     IsBenched n b' = true).
Proof.
  intros [M Hi]%breach_inv. split_and!.
  - apply Hi.
  - intros n. by eapply contains_M.
  - intros v n now now' rnd b'. unfold RegisterFailure, IsBenched. case_bool_decide as Hn; [by intros [= <-]|].
    destruct (_ && _) eqn:Ec; [|by intros [= <-]]. apply andb_true_iff in Ec as [Hth%bool_decide_eq_true Hdur%bool_decide_eq_true].
    unfold bench. destruct (may_bench _ _ _ _) as [new|] eqn:Em; [|by intros [= <-]].
    destruct (benchedUntil _ _ _); [|done]. cbn [mbind option_bind]. destruct (Map_Push _ _ _ _) as [[? h]|]; [|done]. intros [= <-] _.
    revert Em. unfold may_bench. cbn. case_bool_decide; [done|]. destruct (st_SubsetWeight v _) as [w|] eqn:E1; [|done].
    destruct (Add _ _ _) as [new'|] eqn:E2; [|done]. destruct (st_TotalWeight v) as [total|] eqn:E3; [|done].
    destruct (f64_lt _ _) eqn:E4; [done|]. intros _. split_and!; try done. by exists w, new', total.
  - intros v now timer b' n t Hx Hg Hlt. pose proof (get_M _ _ _ _ _ Hi Hg) as HM. unfold IsBenched. apply bool_decide_eq_true.
    assert (n ∈ benchlistSet b) as Hin by (rewrite <-(bi_set _ _ _ Hi); by apply elem_of_dom_2 in HM). revert Hx.
    unfold run_step. destruct (b_phase b) as [d| | |].
    + destruct timer; [case_bool_decide; [|done]|destruct (resetTimer b); [|done]]; by intros [= <-].
    + destruct (Map_Peek _) as [[e|]|]; [| |done]; cbn [mbind option_bind]; [by intros [= <-]|]. destruct (resetTimer b); [|done]. by intros [= <-].
    + destruct (removedExpiredNodes_spec v now T b M Hi) as (b1 & M' & -> & Hi' & _ & _ & HM'). intros [= <-]. cbn.
      rewrite <-(bi_set _ _ _ Hi'), elem_of_dom, HM', HM. unfold before. by rewrite bool_decide_eq_true_2.
    + destruct (durationToSleep now b); [|done]. by intros [= <-].
Qed.

(** C37: a benched node is unbenched.  In every state that is reached, for a node benched
    until a time that has come, the goroutine [run] is never left waiting: its timer is set
    early enough or it is being woken up; and once it has taken four steps the node is no
    longer benched. *)
Theorem benched_node_returns T b n t (v : stakes E) now :
  breach (E := E) cfg T b → Map_Get n (benchedHeap b) = Some (Some t) → (T ≤ now)%Z → (t ≤ now)%Z →
  (∃ timer b', run_step v now timer b = Some b') ∧
  ∀ timers b', 4 ≤ length timers → runs v now timers b = Some b' → IsBenched n b' = false.
Proof.
  intros [M Hi]%breach_inv Hg HT Ht. pose proof (get_M _ _ _ _ _ Hi Hg) as HM. split.
  - unfold run_step. destruct (b_phase b) as [d| | |] eqn:Ep.
    + destruct (bi_timer _ _ _ Hi d Ep) as [Hr|Hd]; [exists false; rewrite Hr; eauto|]. specialize (Hd n t HM). exists true.
      rewrite bool_decide_eq_true_2 by lia. eauto.
    + destruct (Peek_ok _ _ (bi_heap _ _ _ Hi)) as (r & -> & Hpk). exists true. destruct r as [e|]; [cbn; eauto|].
      by rewrite Hpk, lookup_empty in HM.
    + destruct (removedExpiredNodes_spec v now T b M Hi) as (b1 & M' & -> & _). exists true. cbn. eauto.
    + unfold durationToSleep. destruct (Peek_ok _ _ (bi_heap _ _ _ Hi)) as (r & -> & _). exists true. cbn. eauto.
  - intros timers b' Hl Hrun. unfold IsBenched. apply bool_decide_eq_false. eapply (runs_due v now timers T b); [done|done|by exists t| |done].
    destruct (b_phase b); cbn; lia.
Qed.

(** A sequence of steps at times that do not go back. *)
Fixpoint brun (ops : list (bop (E := E))) (T : Z) (b : benchlist) : option (Z * benchlist) :=
  match ops with
  | [] => Some (T, b)
  | o :: ops => if bool_decide (T ≤ op_time o T)%Z then b ← bexec cfg o b; brun ops (op_time o T) b else None
  end.

Lemma brun_reach ops T b T' b' : breach (E := E) cfg T b → brun ops T b = Some (T', b') → breach (E := E) cfg T' b'.
Proof.
  revert T b. induction ops as [|o ops IH]; intros T b Hr; cbn; [by intros [= <- <-]|]. case_bool_decide; [|done].
  destruct (bexec cfg o b) as [b1|] eqn:Hx; [|done]. cbn. apply IH. by eapply breach_step.
Qed.
End props.

(** Two failures bench a node of weight 10 of 100; the goroutine then sleeps. *)
Definition ex_half : float64 := f64_div (f64_of_Z 1) (f64_of_Z 2).
Definition ex_cfg : bench_config := mkBenchConfig 2 5 40 ex_half.
Definition ex_stakes : stakes () := mkStakes _ (λ _, 10%Z) (λ s, Ok (10 * Z.of_nat (size s))%Z) (Ok 100%Z).
Definition ex_bops : list (bop (E := ())) :=
  [BFailure ex_stakes [1] 100 100 ex_half; BFailure ex_stakes [1] 106 106 ex_half; BRun ex_stakes 107 false; BRun ex_stakes 107 true;
   BRun ex_stakes 108 true; BRun ex_stakes 108 true]%Z.
Definition ex_new : benchlist := mkBenchlist ∅ ∅ NewMap false (RSelect 100) [] 0 0.
Definition ex_bench : Z * benchlist := default (0%Z, ex_new) (brun ex_cfg ex_bops 100 ex_new).

Lemma ex_bench_reach : breach (E := ()) ex_cfg ex_bench.1 ex_bench.2.
Proof. apply (brun_reach ex_cfg ex_bops 100 ex_new); [constructor; vm_compute; reflexivity|vm_compute; reflexivity]. Qed.

Lemma benchlist_consistent_witness :
  b_events ex_bench.2 = [Benched [1%Z]] ∧ b_phase ex_bench.2 = RSelect 136 ∧
  replay (b_events ex_bench.2) ∅ = Some (benchlistSet ex_bench.2).
Proof. split_and!; [vm_compute; reflexivity..|]. exact (proj1 (benchlist_consistent (E := ()) ex_cfg _ _ ex_bench_reach)). Defined.

Lemma benched_node_returns_witness :
  IsBenched [1%Z] ex_bench.2 = true ∧
  b_events <$> runs ex_stakes 136 [true; true; true; true] ex_bench.2 = Some [Benched [1%Z]; Unbenched [1%Z]] ∧
  ∃ timer b', run_step ex_stakes 136 timer ex_bench.2 = Some b'.
Proof.
  split_and!; [vm_compute; reflexivity..|].
  refine (proj1 (benched_node_returns (E := ()) ex_cfg ex_bench.1 ex_bench.2 [1%Z] 136 ex_stakes 136 ex_bench_reach _ _ _));
    [vm_compute; reflexivity|vm_compute; discriminate|lia].
Defined.
