(* ===== verification/Version.v ===== *)
(** * Versions

    src/utils/version: [Application] (application.go), [Semantic] (version.go), the parser
    of semantic versions (parser.go) and the compatibility of a peer's version with ours
    (compatibility.go, constants.go).  Strings are their bytes; an [int] has 64 bits.  The
    two errors of [strconv.Atoi] are one value, since both are returned wrapped. *)

From S2P Require Import Prelude.
#[local] Open Scope Z_scope.

Record Application := mkApplication { app_Name : list Z; app_Major : Z; app_Minor : Z; app_Patch : Z }.
Record Semantic := mkSemantic { sem_Major : Z; sem_Minor : Z; sem_Patch : Z }.

Inductive version_err := errDifferentMajor | errIncompatible | errMissingVersionPrefix | errMissingVersions | errAtoi.

(** ** Comparison *)

Definition Application_Compare (a o : Application) : Z :=
  if bool_decide (app_Major a ≠ app_Major o) then wrapS 64 (app_Major a - app_Major o)
  else if bool_decide (app_Minor a ≠ app_Minor o) then wrapS 64 (app_Minor a - app_Minor o)
  else wrapS 64 (app_Patch a - app_Patch o).
Definition Before (a o : Application) : bool := bool_decide (Application_Compare a o < 0).
Definition Application_Compatible (a o : Application) : result version_err () :=
  if bool_decide (app_Major o < app_Major a) then Err errDifferentMajor else Ok ().

Definition Semantic_Compare (s o : Semantic) : Z :=
  if bool_decide (sem_Major s ≠ sem_Major o) then wrapS 64 (sem_Major s - sem_Major o)
  else if bool_decide (sem_Minor s ≠ sem_Minor o) then wrapS 64 (sem_Minor s - sem_Minor o)
  else wrapS 64 (sem_Patch s - sem_Patch o).

(** ** Compatibility: the time of its clock is an argument *)

Record compatibility := mkCompatibility {
  version : Application;
  minCompatible : Application;
  minCompatibleTime : Z;
  prevMinCompatible : Application;
}.

Definition Compatible (c : compatibility) (now : Z) (peer : Application) : result version_err () :=
  match Application_Compatible (version c) peer with
  | Err e => Err e
  | Ok _ =>
      if negb (Before peer (minCompatible c)) then Ok ()
      else if negb (bool_decide (now < minCompatibleTime c)) then Err errIncompatible
      else if negb (Before peer (prevMinCompatible c)) then Ok () else Err errIncompatible
  end.

Definition Client : list Z := [97; 118; 97; 108; 97; 110; 99; 104; 101; 103; 111].
Definition Current : Semantic := mkSemantic 1 12 1.
Definition CurrentApp : Application := mkApplication Client (sem_Major Current) (sem_Minor Current) (sem_Patch Current).
Definition MinimumCompatibleVersion : Application := mkApplication Client 1 12 0.
Definition PrevMinimumCompatibleVersion : Application := mkApplication Client 1 11 0.
Definition GetCompatibility (minCompatibleTime : Z) : compatibility :=
  mkCompatibility CurrentApp MinimumCompatibleVersion minCompatibleTime PrevMinimumCompatibleVersion.

(** ** Decimal numbers *)

(** The digits of a number below [10 ^ fuel]. *)
Fixpoint digits (fuel : nat) (n : Z) : list Z :=
  match fuel with
  | O => []
  | S fuel => if bool_decide (n < 10) then [48 + n] else digits fuel (n / 10) ++ [48 + n `mod` 10]
  end.
(** [%d] of an [int]: its absolute value is below [10 ^ 20]. *)
Definition itoa (z : Z) : list Z := if bool_decide (z < 0) then 45 :: digits 20 (- z) else digits 20 z.

Definition digits_value (s : list Z) : Z := foldl (λ acc c, acc * 10 + (c - 48)) 0 s.
Definition is_digits (s : list Z) : bool :=
  bool_decide (s ≠ []) && forallb (λ c, bool_decide (48 ≤ c ≤ 57)) s.

Definition Atoi (s : list Z) : result version_err Z :=
  let '(neg, ds) := match s with
                    | 45 :: ds => (true, ds)
                    | 43 :: ds => (false, ds)
                    | _ => (false, s)
                    end in
  let v := if neg : bool then - digits_value ds else digits_value ds in
  if is_digits ds && bool_decide (- 2 ^ 63 ≤ v < 2 ^ 63) then Ok v else Err errAtoi.

(** ** Text of semantic versions *)

Definition dot : Z := 46.

Definition Semantic_String (s : Semantic) : list Z :=
  118 :: itoa (sem_Major s) ++ dot :: itoa (sem_Minor s) ++ dot :: itoa (sem_Patch s).
Definition Application_String (a : Application) : list Z :=
  app_Name a ++ 47 :: itoa (app_Major a) ++ dot :: itoa (app_Minor a) ++ dot :: itoa (app_Patch a).

(** The bytes before the first dot and those after it. *)
Fixpoint cut_dot (s : list Z) : option (list Z * list Z) :=
  match s with
  | [] => None
  | c :: s => if bool_decide (c = dot) then Some ([], s)
              else '(a, b) ← cut_dot s; Some (c :: a, b)
  end.
(** [strings.SplitN(s, ".", n)] for a positive [n]. *)
Fixpoint SplitN (n : nat) (s : list Z) : list (list Z) :=
  match n with
  | O | 1%nat => [s]
  | S n => match cut_dot s with Some (a, b) => a :: SplitN n b | None => [s] end
  end.

Definition parseVersions (s : list Z) : result version_err (Z * Z * Z) :=
  match SplitN 3 s with
  | [a; b; c] =>
      match Atoi a with
      | Err e => Err e
      | Ok major => match Atoi b with
                    | Err e => Err e
                    | Ok minor => match Atoi c with Err e => Err e | Ok patch => Ok (major, minor, patch) end
                    end
      end
  | _ => Err errMissingVersions
  end.

Definition Semantic_Parse (s : list Z) : result version_err Semantic :=
  match s with
  | 118 :: s => match parseVersions s with
                | Err e => Err e
                | Ok (major, minor, patch) => Ok (mkSemantic major minor patch)
                end
  | _ => Err errMissingVersionPrefix
  end.

(** ** Lemmas *)

Lemma digits_spec fuel n : 0 ≤ n < 10 ^ Z.of_nat fuel → (0 < fuel)%nat →
  digits fuel n ≠ [] ∧ Forall (λ c, 48 ≤ c ≤ 57) (digits fuel n) ∧ digits_value (digits fuel n) = n.
Proof.
  revert n. induction fuel as [|fuel IH]; intros n Hn Hf; [lia|]. cbn [digits]. case_bool_decide as Hlt.
  { split_and!; [done|repeat constructor; lia|]. cbn. lia. }
  rewrite Nat2Z.inj_succ, Z.pow_succ_r in Hn by lia.
  destruct fuel as [|fuel]; [change (10 ^ Z.of_nat 0) with 1 in Hn; lia|].
  destruct (IH (n / 10)) as (Hne & Hall & Hv); [|lia|].
  { split; [apply Z.div_pos; lia|]. apply Z.div_lt_upper_bound; lia. }
  pose proof (Z.mod_pos_bound n 10). pose proof (Z.div_mod n 10). split_and!.
  - by destruct (digits (S fuel) (n / 10)).
  - apply Forall_app. split; [done|]. repeat constructor; lia.
  - unfold digits_value in *. rewrite foldl_app, Hv. cbn. lia.
Qed.

Lemma is_digits_true s : s ≠ [] → Forall (λ c, 48 ≤ c ≤ 57) s → is_digits s = true.
Proof.
  intros Hne Hall. unfold is_digits. rewrite bool_decide_eq_true_2 by done. cbn.
  apply forallb_forall. intros c Hc. apply bool_decide_eq_true. by eapply Forall_forall in Hall; [|by apply list_elem_of_In].
Qed.

Lemma Atoi_itoa z : - 2 ^ 63 ≤ z < 2 ^ 63 → Atoi (itoa z) = Ok z ∧ dot ∉ itoa z.
Proof.
  intros Hz. unfold itoa. case_bool_decide as Hn.
  - destruct (digits_spec 20 (- z)) as (Hne & Hall & Hv); [|lia|].
    { change (Z.of_nat 20) with 20. lia. }
    split.
    + unfold Atoi. rewrite is_digits_true, Hv by done. cbn. rewrite bool_decide_eq_true_2 by lia. f_equal. lia.
    + apply not_elem_of_cons. split; [done|]. intros Hd. eapply Forall_forall in Hall; [|done]. unfold dot in Hall. lia.
  - destruct (digits_spec 20 z) as (Hne & Hall & Hv); [|lia|].
    { change (Z.of_nat 20) with 20. lia. }
    split; [|intros Hd; eapply Forall_forall in Hall; [|done]; unfold dot in Hall; lia].
    assert (∃ c ds, digits 20 z = c :: ds ∧ 48 ≤ c ≤ 57) as (c & ds & E & Hc).
    { destruct (digits 20 z) as [|c ds]; [done|]. apply Forall_cons in Hall as [? _]. eauto. }
    unfold Atoi.
    assert (match digits 20 z with 45 :: ds => (true, ds) | 43 :: ds => (false, ds) | _ => (false, digits 20 z) end
            = (false, digits 20 z)) as ->.
    { rewrite E. assert (c = 48 ∨ c = 49 ∨ c = 50 ∨ c = 51 ∨ c = 52 ∨ c = 53 ∨ c = 54 ∨ c = 55 ∨ c = 56 ∨ c = 57) as Hcs by lia.
      clear -Hcs. repeat destruct Hcs as [->|Hcs]; [done..|]. by subst. }
    rewrite is_digits_true, Hv by done. cbn. by rewrite bool_decide_eq_true_2 by lia.
Qed.

Lemma cut_dot_app a b : dot ∉ a → cut_dot (a ++ dot :: b) = Some (a, b).
Proof.
  induction a as [|c a IH]; intros Ha; [done|]. apply not_elem_of_cons in Ha as [Hc Ha]. cbn.
  rewrite bool_decide_eq_false_2 by done. by rewrite IH.
Qed.

Lemma Semantic_roundtrip s :
  Forall (λ z, - 2 ^ 63 ≤ z < 2 ^ 63) [sem_Major s; sem_Minor s; sem_Patch s] →
  Semantic_Parse (Semantic_String s) = Ok s.
Proof.
  destruct s as [a b c]. cbn [sem_Major sem_Minor sem_Patch]. rewrite !Forall_cons. intros (Ha & Hb & Hc & _).
  destruct (Atoi_itoa a Ha) as [Ea Da], (Atoi_itoa b Hb) as [Eb Db], (Atoi_itoa c Hc) as [Ec _].
  unfold Semantic_Parse, Semantic_String, parseVersions. cbn [sem_Major sem_Minor sem_Patch SplitN].
  rewrite cut_dot_app by done. cbn [SplitN]. rewrite cut_dot_app by done. by rewrite Ea, Eb, Ec.
Qed.

(** The order of versions. *)
Definition ver_le (a o : Application) : Prop :=
  app_Major a < app_Major o ∨ app_Major a = app_Major o ∧
    (app_Minor a < app_Minor o ∨ app_Minor a = app_Minor o ∧ app_Patch a ≤ app_Patch o).

(** The numbers of a handshake are of type [uint32]. *)
Definition ver_ok (a : Application) : Prop :=
  Forall (inU 32) [app_Major a; app_Minor a; app_Patch a].

Lemma Before_spec a o : ver_ok a → ver_ok o → Before a o = false ↔ ver_le o a.
Proof.
  unfold ver_ok, inU. rewrite !Forall_cons. intros (Ha1 & Ha2 & Ha3 & _) (Ho1 & Ho2 & Ho3 & _).
  unfold Before, Application_Compare, ver_le. rewrite bool_decide_eq_false.
  repeat case_bool_decide; rewrite wrapS_id by (unfold inS; lia); lia.
Qed.

(** Which versions a peer may have. *)
Lemma Compatible_spec c now peer :
  ver_ok peer → ver_ok (minCompatible c) → ver_ok (prevMinCompatible c) →
  Compatible c now peer = Ok () ↔
    app_Major (version c) ≤ app_Major peer ∧
    (ver_le (minCompatible c) peer ∨ now < minCompatibleTime c ∧ ver_le (prevMinCompatible c) peer).
Proof.
  intros Hp Hm Hv. unfold Compatible, Application_Compatible. case_bool_decide as Hmaj; [split; [done|lia]|].
  rewrite <-!Before_spec by done. destruct (Before peer (minCompatible c)); cbn; [|split; [|done]; intros _; split; [lia|by left]].
  case_bool_decide as Hnow; cbn; [|split; [done|intros [_ [?|[? _]]]; [done|lia]]].
  destruct (Before peer (prevMinCompatible c)); cbn; naive_solver lia.
Qed.
