(* ===== verification/SignedIp.v ===== *)
(** * Addresses and signed IPs

    src/utils/ips (ip.go, claimed_ip_port.go), and of src/utils/avalanche/network/peer the
    files ip.go and ip_signer.go.  A [netip.Addr] is its 4 or 16 bytes, an [AddrPort] an
    address and a port; the functions of package netip that the code uses come first.  A
    certificate is its DER bytes.  Times are in nanoseconds.  The hashes, the check of a
    certificate's signature and the signers are parameters. *)

From S2P Require Import Prelude Packer Ids IpTracker.
#[local] Open Scope Z_scope.

(** ** net/netip *)

Definition netip_AddrFromSlice (b : list Z) : option (list Z) :=
  if bool_decide (length b = 4%nat) || bool_decide (length b = 16%nat) then Some b else None.
Definition Is4 (a : list Z) : bool := bool_decide (length a = 4%nat).
Definition mapped_prefix : list Z := [0; 0; 0; 0; 0; 0; 0; 0; 0; 0; 255; 255].
Definition Is4In6 (a : list Z) : bool := bool_decide (length a = 16%nat) && bool_decide (take 12 a = mapped_prefix).
Definition Unmap (a : list Z) : list Z := if Is4In6 a then drop 12 a else a.
Definition As16 (a : list Z) : list Z := if Is4 a then mapped_prefix ++ a else a.

Definition IsLoopback (a : list Z) : bool :=
  if Is4 a then bool_decide (a !! 0%nat = Some 127) else bool_decide (a = replicate 15 0 ++ [1]).
Definition IsMulticast (a : list Z) : bool :=
  match a with
  | [] => false
  | b :: _ => if Is4 a then bool_decide (Z.land b 240 = 224) else bool_decide (b = 255)
  end.
Definition IsLinkLocalUnicast (a : list Z) : bool :=
  match a with
  | b :: c :: _ => if Is4 a then bool_decide (b = 169) && bool_decide (c = 254)
                   else bool_decide (b = 254) && bool_decide (Z.land c 192 = 128)
  | _ => false
  end.
Definition IsGlobalUnicast (a : list Z) : bool :=
  if Is4 a && (bool_decide (a = [0; 0; 0; 0]) || bool_decide (a = [255; 255; 255; 255])) then false
  else negb (bool_decide (a = replicate 16 0)) && negb (IsLoopback a) && negb (IsMulticast a)
       && negb (IsLinkLocalUnicast a).
Definition IsPrivate (a : list Z) : bool :=
  match a with
  | b :: c :: _ =>
      if Is4 a then bool_decide (b = 10) || (bool_decide (b = 172) && bool_decide (Z.land c 240 = 16))
                    || (bool_decide (b = 192) && bool_decide (c = 168))
      else bool_decide (Z.land b 254 = 252)
  | _ => false
  end.

(** ** ips/ip.go *)

Definition IsPublic (addr : list Z) : bool := IsGlobalUnicast addr && negb (IsPrivate addr).

Definition AddrFromSlice (b : list Z) : option (list Z) :=
  addr ← netip_AddrFromSlice b; Some (if Is4In6 addr then Unmap addr else addr).

(** ** ips/claimed_ip_port.go *)

Definition baseIPCertDescLen : Z := 2 * IntLen + 16 + ShortLen + LongLen + Z.of_nat IDLen.
Definition preimageLen : nat := 40.

Section claimed.
Variable sha256 ripemd160 : list Z → list Z.
Variable grow : nat → nat.

Definition NodeIDFromCert (cert : list Z) : list Z := ripemd160 (sha256 cert).

Definition NewClaimedIPPort (cert : list Z) (ipPort : list Z * Z) (timestamp : Z) (signature : list Z)
    : option ClaimedIPPort :=
  let nodeID := NodeIDFromCert cert in
  let packer := mkPacker None 0 (replicate preimageLen 0) [] 0 in
  packer ← PackFixedBytes grow nodeID packer;
  packer ← PackLong grow timestamp packer;
  Some (mkClaimed cert ipPort timestamp signature nodeID (sha256 (Bytes packer))).
End claimed.

Definition ClaimedIPPort_Size (i : ClaimedIPPort) : Z :=
  baseIPCertDescLen + Z.of_nat (length (ip_Cert i)) + Z.of_nat (length (ip_Signature i)).

(** ** peer/ip.go *)

Record UnsignedIP := mkUnsignedIP { un_AddrPort : list Z * Z; un_Timestamp : Z }.

Inductive ip_err := errTimestampTooFarInFuture | errInvalidTLSSignature | errSign.

Definition Unix (t : Z) : Z := t / 10 ^ 9.

Section signed.
Context {Sig : Type}.

Record SignedIP := mkSignedIP {
  si_UnsignedIP : UnsignedIP;
  TLSSignature : list Z;
  BLSSignature : option Sig;
  BLSSignatureBytes : list Z;
}.

Variable sha256 : list Z → list Z.
Variable grow : nat → nat.

Definition UnsignedIP_bytes (ip : UnsignedIP) : option (list Z) :=
  let p := mkPacker None 0 (replicate 26 0) [] 0 in
  p ← PackFixedBytes grow (As16 (un_AddrPort ip).1) p;
  p ← PackShort grow (un_AddrPort ip).2 p;
  p ← PackLong grow (un_Timestamp ip) p;
  Some (Bytes p).

(** The TLS signer may fail. *)
Variable tlsSign : list Z → option (list Z).
Variable SignProofOfPossession : list Z → Sig.
Variable SignatureToBytes : Sig → list Z.

Definition UnsignedIP_Sign (ip : UnsignedIP) : option (result ip_err SignedIP) :=
  ipBytes ← UnsignedIP_bytes ip;
  Some (match tlsSign (sha256 ipBytes) with
        | Some tlsSignature =>
            let blsSignature := SignProofOfPossession ipBytes in
            Ok (mkSignedIP ip tlsSignature (Some blsSignature) (SignatureToBytes blsSignature))
        | None => Prelude.Err errSign
        end).

(** [CheckSignature cert msg sig] of package staking. *)
Variable CheckSignature : list Z → list Z → list Z → bool.

Definition SignedIP_Verify (ip : SignedIP) (cert : list Z) (maxTimestamp : Z) : option (result ip_err ()) :=
  let maxUnixTimestamp := wrapU 64 (Unix maxTimestamp) in
  if bool_decide (maxUnixTimestamp < un_Timestamp (si_UnsignedIP ip))
  then Some (Prelude.Err errTimestampTooFarInFuture)
  else
    bytes ← UnsignedIP_bytes (si_UnsignedIP ip);
    Some (if CheckSignature cert bytes (TLSSignature ip) then Ok () else Prelude.Err errInvalidTLSSignature).

(** ** peer/ip_signer.go: [ip] and [now] are the current address and the clock *)

Definition GetSignedIP (ip : list Z * Z) (now : Z) (signedIP : option SignedIP)
    : option (result ip_err SignedIP * option SignedIP) :=
  match signedIP with
  | Some signed =>
      if bool_decide (un_AddrPort (si_UnsignedIP signed) = ip) then Some (Ok signed, signedIP)
      else r ← UnsignedIP_Sign (mkUnsignedIP ip (Z.max 0 (Unix now)));
           Some (match r with Ok s => (Ok s, Some s) | Prelude.Err e => (Prelude.Err e, signedIP) end)
  | None => r ← UnsignedIP_Sign (mkUnsignedIP ip (Z.max 0 (Unix now)));
            Some (match r with Ok s => (Ok s, Some s) | Prelude.Err e => (Prelude.Err e, signedIP) end)
  end.
End signed.
Arguments SignedIP : clear implicits.

(** ** Lemmas *)

(** The addresses the code keeps: IPv4, or IPv6 that is not a mapped IPv4. *)
Definition addr_ok (a : list Z) : Prop := bytes_ok a ∧ (length a = 4%nat ∨ length a = 16%nat ∧ Is4In6 a = false).
Definition unsigned_ok (ip : UnsignedIP) : Prop :=
  addr_ok (un_AddrPort ip).1 ∧ inU 16 (un_AddrPort ip).2 ∧ inU 64 (un_Timestamp ip).

Lemma AddrFromSlice_ok b a : bytes_ok b → AddrFromSlice b = Some a → addr_ok a.
Proof.
  intros Hb. unfold AddrFromSlice, netip_AddrFromSlice. destruct (_ || _) eqn:E; [|done]. cbn. intros [= <-].
  unfold addr_ok, Unmap. destruct (Is4In6 b) eqn:E4.
  - split; [by apply Forall_drop|]. left. unfold Is4In6 in E4.
    apply andb_true_iff in E4 as [E4%bool_decide_eq_true _]. rewrite length_drop. lia.
  - split; [done|]. rewrite orb_true_iff, !bool_decide_eq_true in E. naive_solver.
Qed.

Lemma As16_length a : addr_ok a → length (As16 a) = 16%nat.
Proof.
  intros [_ H]. unfold As16, Is4. case_bool_decide; [rewrite length_app; cbn; lia|naive_solver].
Qed.

Lemma As16_inj a b : addr_ok a → addr_ok b → As16 a = As16 b → a = b.
Proof.
  assert (∀ a b, addr_ok b → length a = 4%nat → length b = 16%nat → mapped_prefix ++ a = b → False) as Hmix.
  { intros x y Hy Hx Hl E. destruct Hy as [_ [?|[_ H4]]]; [lia|]. unfold Is4In6 in H4. subst y.
    by rewrite bool_decide_eq_true_2 in H4. }
  intros Ha Hb. pose proof Ha as [_ Ha']. pose proof Hb as [_ Hb']. unfold As16, Is4.
  repeat case_bool_decide; intros E; [by simplify_eq/=|exfalso|exfalso|done].
  - eapply (Hmix a b); eauto. naive_solver.
  - eapply (Hmix b a); eauto. naive_solver.
Qed.

Lemma pack_exact grow l n : Forall item_ok l → forallb item_fits l = true → length (items_bytes l) = n →
  ∃ p, pack_items grow l (mkPacker None 0 (replicate n 0) [] 0) = Some p ∧ Bytes p = items_bytes l.
Proof.
  intros Hok Hfit Hn. set (p0 := mkPacker _ _ _ _ _).
  assert (lenB p0 = Z.of_nat n) as Hl by (unfold lenB; cbn; by rewrite length_replicate).
  assert (packer_wf p0) as Hwf by (split; [done|]; rewrite Hl; cbn; lia).
  destruct (pack_items_spec grow l p0 Hwf Hok) as (p & E & Hr). exists p. split; [done|].
  unfold pack_result in Hr. rewrite Hfit, bool_decide_eq_true_2 in Hr by (unfold limit; rewrite Hl; cbn; lia).
  destruct Hr as (_ & _ & Ho & Ht & Hlen & _). rewrite Hl in Hlen. cbn in Ho, Ht. rewrite Ho in *.
  unfold lenB in Hlen. rewrite take_ge in Ht by lia. by rewrite Ht.
Qed.

Lemma UnsignedIP_bytes_spec grow ip : unsigned_ok ip →
  UnsignedIP_bytes grow ip =
    Some (As16 (un_AddrPort ip).1 ++ be_encode 2 (un_AddrPort ip).2 ++ be_encode 8 (un_Timestamp ip)).
Proof.
  intros (Ha & Hp & Ht). unfold UnsignedIP_bytes.
  destruct (pack_exact grow [IFixed (As16 (un_AddrPort ip).1); IShort (un_AddrPort ip).2; ILong (un_Timestamp ip)] 26)
    as (p & E & Hb).
  - rewrite !Forall_cons. split_and!; [|exact Hp|exact Ht|constructor]. destruct Ha as [Ha _]. cbn. unfold As16.
    case_match; [|done]. apply Forall_app. split; [|done]. repeat constructor; unfold byte_ok, inU; lia.
  - done.
  - cbn. by rewrite length_app, As16_length by done.
  - change (Bytes p = As16 (un_AddrPort ip).1 ++ be_encode 2 (un_AddrPort ip).2 ++ be_encode 8 (un_Timestamp ip) ++ []) in Hb.
    rewrite app_nil_r in Hb. cbn [pack_items pack_item] in E.
    destruct (PackFixedBytes _ _ _) as [p1|]; [|done]. cbn in E |- *.
    destruct (PackShort _ _ p1) as [p2|]; [|done]. cbn in E |- *.
    destruct (PackLong _ _ p2) as [p3|]; [|done]. cbn in E |- *. simplify_eq. by rewrite Hb.
Qed.

(** Different claims have different bytes, so a signature is for one claim. *)
Lemma UnsignedIP_bytes_inj grow ip ip' : unsigned_ok ip → unsigned_ok ip' →
  UnsignedIP_bytes grow ip = UnsignedIP_bytes grow ip' → ip = ip'.
Proof.
  intros H H'. rewrite !UnsignedIP_bytes_spec by done. intros E%(inj Some).
  destruct ip as [[a p] t], ip' as [[a' p'] t'], H as (Ha & Hp & Ht), H' as (Ha' & Hp' & Ht').
  cbn [un_AddrPort un_Timestamp fst snd] in *.
  apply app_inj_1 in E as [Ea E]; [|by rewrite !As16_length].
  apply app_inj_1 in E as [Ep Et]; [|done].
  apply As16_inj in Ea; [|done..]. subst a'.
  apply (f_equal be_decode) in Ep, Et. rewrite !be_decode_encode in Ep, Et by (unfold inU in *; lia). by subst.
Qed.

(** Writing in the bytes a packer has. *)
Lemma pack_in_place grow bs max bytes o : (o + length bs ≤ length bytes)%nat →
  write bs (expand grow (Z.of_nat (length bs)) (mkPacker None max bytes [] (Z.of_nat o))) =
    Some (mkPacker None max (take o bytes ++ bs ++ drop (o + length bs) bytes) [] (Z.of_nat (o + length bs))).
Proof.
  intros Hl. unfold expand, lenB. cbn [Offset Bytes]. rewrite bool_decide_eq_true_2 by lia.
  unfold write, lenB. change (Errored _) with false. cbn [Err Offset Bytes MaxSize spare].
  rewrite bool_decide_eq_true_2 by lia. rewrite Nat2Z.id, (take_ge bs) by lia. by rewrite Nat2Z.inj_add.
Qed.

Lemma NewClaimedIPPort_spec sha256 ripemd160 grow cert ipPort ts sig :
  (∀ bs, length (ripemd160 bs) = 20%nat) →
  NewClaimedIPPort sha256 ripemd160 grow cert ipPort ts sig =
    Some (mkClaimed cert ipPort ts sig (NodeIDFromCert sha256 ripemd160 cert)
            (sha256 (NodeIDFromCert sha256 ripemd160 cert ++ be_encode 8 ts ++ replicate 12 0))).
Proof.
  intros Hr. unfold NewClaimedIPPort. set (n := NodeIDFromCert _ _ _). assert (length n = 20%nat) as Hl by apply Hr.
  pose proof (pack_in_place grow n 0 (replicate preimageLen 0) 0) as E0.
  change (Z.of_nat 0) with 0 in E0.
  unfold PackFixedBytes. rewrite E0 by (rewrite Hl; cbn; lia).
  cbn [mbind option_bind]. rewrite Hl. unfold PackLong. change LongLen with (Z.of_nat (length (be_encode 8 ts))).
  rewrite pack_in_place by (rewrite !length_app, Hl; cbn; lia). cbn [mbind option_bind Bytes]. do 3 f_equal.
  change (take 0 (replicate preimageLen 0)) with (@nil Z). cbn [app]. rewrite be_encode_length.
  change (drop (0 + 20) (replicate preimageLen 0)) with (replicate 20 0). change (0 + 20)%nat with 20%nat.
  rewrite take_app_le, take_ge by lia. rewrite drop_app_ge by lia. by rewrite Hl.
Qed.
