(* ===== verification/Peer.v ===== *)
(** * Peers: the handshake and the messages of the network

    src/utils/avalanche/network/peer/peer.go: what the reader of a peer does with each
    message, and what its sender does on a tick.  A handler returns the peer it leaves and
    what it does, in order, with the rest of the node ([action]): calls of the network and
    of the router, messages it sends, and [StartClose].  What it reads from the node (the
    clock, the validator with the peer's ID, the IPs to gossip, whether a message can be
    made and queued) is the argument [penv].  After [StartClose] the connection is closed,
    so the reader handles no more messages.  [None] is a panic.

    Keys and signatures of BLS, the check of certificates, hashes and the messages of
    package message are parameters. *)

From S2P Require Import Prelude Packer Bloom Ids IpTracker SignedIp Version Float64.
#[local] Open Scope Z_scope.

Definition maxBloomSaltLen : Z := 32.
Definition maxNumTrackedSubnets : Z := 16.

(** ** Messages (package p2p) *)

Record BloomFilterMsg := mkBloomFilterMsg { bf_Filter : list Z; bf_Salt : list Z }.
Record ClientMsg := mkClientMsg { cl_Name : list Z; cl_Major : Z; cl_Minor : Z; cl_Patch : Z }.

Record HandshakeMsg := mkHandshake {
  hs_NetworkId : Z;
  hs_MyTime : Z;
  hs_IpAddr : list Z;
  hs_IpPort : Z;
  hs_IpSigningTime : Z;
  hs_IpNodeIdSig : list Z;
  hs_TrackedSubnets : list (list Z);
  hs_Client : option ClientMsg;
  hs_KnownPeers : option BloomFilterMsg;
  hs_IpBlsSig : list Z;
  hs_AllSubnets : bool;
}.

Record ClaimedIpPortMsg := mkClaimedMsg {
  cm_X509Certificate : list Z;
  cm_IpAddr : list Z;
  cm_IpPort : Z;
  cm_Timestamp : Z;
  cm_Signature : list Z;
}.

Section peer.
Context {K Sig Out App : Type}.
Variable sha256 ripemd160 : list Z → list Z.
Variable grow : nat → nat.
(** Whether a certificate can be parsed, and the check of its signatures. *)
Variable ParseCertificate : list Z → bool.
Variable CheckSignature : list Z → list Z → list Z → bool.
Variable SignatureFromBytes : list Z → option Sig.
Variable VerifyProofOfPossession : K → Sig → list Z → bool.

Inductive inbound :=
| Ping (uptime : Z)
| Pong
| Handshake (m : HandshakeMsg)
| GetPeerList (known : option BloomFilterMsg) (allSubnets : bool)
| PeerList (l : list ClaimedIpPortMsg)
| AppMessage (m : App).

Inductive action :=
| AClose                                (** [p.StartClose()] *)
| ASend (m : Out)                       (** [p.Send(ctx, m)] *)
| AConnected                            (** [p.Network.Connected(p.id)] *)
| AFinish                               (** [close(p.onFinishHandshake)] *)
| ATrack (l : list ClaimedIPPort)       (** [p.Network.Track(l)] *)
| AInbound (m : App).                   (** [p.Router.HandleInbound(ctx, m)] *)

Record peer := mkPeer {
  p_id : list Z;
  p_cert : list Z;
  p_ip : option (SignedIP Sig);
  p_version : option Application;
  p_trackedSubnets : gset (list Z);
  txIDOfVerifiedBLSKey : list Z;
  observedUptime : Z;
  gotHandshake : bool;
  finishedHandshake : bool;
}.

(** [Start] *)
Definition new_peer (id cert : list Z) : peer :=
  mkPeer id cert None None ∅ (replicate 32 0) 0 false false.

Definition set_ip (ip : SignedIP Sig) (p : peer) : peer :=
  mkPeer (p_id p) (p_cert p) (Some ip) (p_version p) (p_trackedSubnets p) (txIDOfVerifiedBLSKey p)
    (observedUptime p) (gotHandshake p) (finishedHandshake p).
Definition set_version (v : Application) (p : peer) : peer :=
  mkPeer (p_id p) (p_cert p) (p_ip p) (Some v) (p_trackedSubnets p) (txIDOfVerifiedBLSKey p)
    (observedUptime p) (gotHandshake p) (finishedHandshake p).
Definition add_subnet (s : list Z) (p : peer) : peer :=
  mkPeer (p_id p) (p_cert p) (p_ip p) (p_version p) (p_trackedSubnets p ∪ {[s]}) (txIDOfVerifiedBLSKey p)
    (observedUptime p) (gotHandshake p) (finishedHandshake p).
Definition set_txID (t : list Z) (p : peer) : peer :=
  mkPeer (p_id p) (p_cert p) (p_ip p) (p_version p) (p_trackedSubnets p) t
    (observedUptime p) (gotHandshake p) (finishedHandshake p).
Definition set_uptime (u : Z) (p : peer) : peer :=
  mkPeer (p_id p) (p_cert p) (p_ip p) (p_version p) (p_trackedSubnets p) (txIDOfVerifiedBLSKey p)
    u (gotHandshake p) (finishedHandshake p).
Definition set_got (p : peer) : peer :=
  mkPeer (p_id p) (p_cert p) (p_ip p) (p_version p) (p_trackedSubnets p) (txIDOfVerifiedBLSKey p)
    (observedUptime p) true (finishedHandshake p).
Definition set_finished (p : peer) : peer :=
  mkPeer (p_id p) (p_cert p) (p_ip p) (p_version p) (p_trackedSubnets p) (txIDOfVerifiedBLSKey p)
    (observedUptime p) (gotHandshake p) true.

(** What a handler reads from the node. *)
Record penv := mkPenv {
  e_now : Z;
  e_NetworkID : Z;
  e_MaxClockDifference : Z;
  e_compatibility : compatibility;
  e_compatibilityNow : Z;
  (** The public key, if any, and the transaction of the validator. *)
  e_validator : option (option K * list Z);
  (** [p.Network.Peers] *)
  e_Peers : gset (list Z) → bool → ReadFilter → list Z → option (list ClaimedIPPort);
  (** The messages, when they can be made, and whether they are queued. *)
  e_PongMsg : option Out;
  e_PeerListMsg : list ClaimedIPPort → bool → option Out;
  e_Send : Out → bool;
}.

Definition close (p : peer) : option (peer * list action) := Some (p, [AClose]).

(** ** shouldDisconnect *)

Definition shouldDisconnect (e : penv) (p : peer) : option (bool * peer) :=
  version ← p_version p;
  match Compatible (e_compatibility e) (e_compatibilityNow e) version with
  | Prelude.Err _ => Some (true, p)
  | Ok _ =>
      match e_validator e with
      | None => Some (false, p)
      | Some (None, _) => Some (false, p)
      | Some (Some key, txID) =>
          if bool_decide (txID = txIDOfVerifiedBLSKey p) then Some (false, p)
          else
            ip ← p_ip p;
            bytes ← UnsignedIP_bytes grow (si_UnsignedIP ip);
            sig ← BLSSignature ip;
            if VerifyProofOfPossession key sig bytes then Some (false, set_txID txID p) else Some (true, p)
      end
  end.

(** ** The handlers *)

Definition handlePing (e : penv) (uptime : Z) (p : peer) : option (peer * list action) :=
  if bool_decide (100 < uptime) then close p
  else
    let p := set_uptime uptime p in
    match e_PongMsg e with
    | None => close p
    | Some m => Some (p, [ASend m])
    end.

(** The loop over [msg.TrackedSubnets]. *)
Fixpoint addSubnets (l : list (list Z)) (p : peer) : bool * peer :=
  match l with
  | [] => (true, p)
  | bytes :: l =>
      match ToHash256 bytes with
      | (Some _, _) => (false, p)
      | (None, subnetID) => addSubnets l (add_subnet subnetID p)
      end
  end.

(** The filter and the salt of a message; [None] when they are refused. *)
Definition readKnownPeers (known : option BloomFilterMsg) : option (ReadFilter * list Z) :=
  match known with
  | None => Some (EmptyFilter, [])
  | Some k =>
      match Bloom.Parse (bf_Filter k) with
      | Prelude.Err _ => None
      | Ok filter => if bool_decide (maxBloomSaltLen < Z.of_nat (length (bf_Salt k))) then None else Some (filter, bf_Salt k)
      end
  end.

Definition clockTooFar (e : penv) (msg : HandshakeMsg) : bool :=
  let localUnixTime := wrapU 64 (Unix (e_now e)) in
  let clockDifference := f64_abs (f64_sub (f64_of_Z (hs_MyTime msg)) (f64_of_Z localUnixTime)) in
  f64_lt (Seconds (e_MaxClockDifference e)) clockDifference.

Definition clientVersion (msg : HandshakeMsg) : Application :=
  match hs_Client msg with
  | Some c => mkApplication (cl_Name c) (cl_Major c) (cl_Minor c) (cl_Patch c)
  | None => mkApplication [] 0 0 0
  end.

Definition handleHandshake (e : penv) (msg : HandshakeMsg) (p : peer) : option (peer * list action) :=
  if gotHandshake p then close p
  else if bool_decide (hs_NetworkId msg ≠ e_NetworkID e) then close p
  else if clockTooFar e msg then close p
  else
    let p := set_version (clientVersion msg) p in
    if bool_decide (maxNumTrackedSubnets < Z.of_nat (length (hs_TrackedSubnets msg))) then close p
    else
      let '(ok, p) := addSubnets (hs_TrackedSubnets msg) (add_subnet PrimaryNetworkID p) in
      if negb ok then close p
      else match readKnownPeers (hs_KnownPeers msg) with
      | None => close p
      | Some (knownPeers, salt) =>
          match AddrFromSlice (hs_IpAddr msg) with
          | None => close p
          | Some addr =>
              let port := wrapU 16 (hs_IpPort msg) in
              if bool_decide (hs_IpPort msg = 0) then close p
              else
                let unsigned := mkUnsignedIP (addr, port) (hs_IpSigningTime msg) in
                let ip := mkSignedIP (Sig := Sig) unsigned (hs_IpNodeIdSig msg) None [] in
                let p := set_ip ip p in
                r ← SignedIP_Verify grow CheckSignature ip (p_cert p) (e_now e + e_MaxClockDifference e);
                match r with
                | Prelude.Err _ => close p
                | Ok _ =>
                    match SignatureFromBytes (hs_IpBlsSig msg) with
                    | None => close p
                    | Some signature =>
                        let p := set_ip (mkSignedIP unsigned (hs_IpNodeIdSig msg) (Some signature) (hs_IpBlsSig msg)) p in
                        '(disconnect, p) ← shouldDisconnect e p;
                        if disconnect : bool then close p
                        else
                          let p := set_got p in
                          peerIPs ← e_Peers e (p_trackedSubnets p) (hs_AllSubnets msg) knownPeers salt;
                          match e_PeerListMsg e peerIPs true with
                          | None => close p
                          | Some m => Some (p, ASend m :: if e_Send e m then [] else [AClose])
                          end
                    end
                end
          end
      end.

Definition handleGetPeerList (e : penv) (known : option BloomFilterMsg) (allSubnets : bool) (p : peer)
    : option (peer * list action) :=
  if negb (finishedHandshake p) then Some (p, [])
  else
    let known := default (mkBloomFilterMsg [] []) known in
    match readKnownPeers (Some known) with
    | None => close p
    | Some (filter, salt) =>
        peerIPs ← e_Peers e (p_trackedSubnets p) allSubnets filter salt;
        if bool_decide (length peerIPs = 0%nat) then Some (p, [])
        else match e_PeerListMsg e peerIPs false with
             | None => Some (p, [])
             | Some m => Some (p, [ASend m])
             end
    end.

(** The loop over [msg.ClaimedIpPorts]: [None] is a panic, [Some None] a message that is
    refused. *)
Fixpoint discover (l : list ClaimedIpPortMsg) : option (option (list ClaimedIPPort)) :=
  match l with
  | [] => Some (Some [])
  | m :: l =>
      if negb (ParseCertificate (cm_X509Certificate m)) then Some None
      else match AddrFromSlice (cm_IpAddr m) with
      | None => Some None
      | Some addr =>
          let port := wrapU 16 (cm_IpPort m) in
          if bool_decide (port = 0) then Some None
          else
            ip ← NewClaimedIPPort sha256 ripemd160 grow (cm_X509Certificate m) (addr, port) (cm_Timestamp m) (cm_Signature m);
            rest ← discover l;
            Some (rest ← rest; Some (ip :: rest))
      end
  end.

Definition handlePeerList (l : list ClaimedIpPortMsg) (p : peer) : option (peer * list action) :=
  if negb (finishedHandshake p) && negb (gotHandshake p) then Some (p, [])
  else
    let '(p, before) := if negb (finishedHandshake p) then (set_finished p, [AConnected; AFinish]) else (p, []) in
    discovered ← discover l;
    match discovered with
    | None => Some (p, before ++ [AClose])
    | Some discoveredIPs => Some (p, before ++ [ATrack discoveredIPs])
    end.

Definition handle (e : penv) (m : inbound) (p : peer) : option (peer * list action) :=
  match m with
  | Ping uptime => handlePing e uptime p
  | Pong => Some (p, [])
  | Handshake msg => handleHandshake e msg p
  | GetPeerList known allSubnets => handleGetPeerList e known allSubnets p
  | PeerList l => handlePeerList l p
  | AppMessage m => Some (p, if finishedHandshake p then [AInbound m] else [])
  end.

(** ** The sender, on a tick of its timer *)

Definition getUptime (primaryUptime : option float64) : option Z :=
  let primaryUptime := default (f64_of_Z 0) primaryUptime in
  wrapU 32 <$> f64_trunc (f64_mul primaryUptime (f64_of_Z 100)).

(** [pingMessage]: the message, when it can be made; false when the sender returns. *)
Definition sendPing (e : penv) (allowConnection : bool) (pingMessage : option Out) (p : peer)
    : option (bool * peer * list action) :=
  if negb allowConnection then Some (false, p, [AClose])
  else
    '(disconnect, p) ← (if finishedHandshake p then shouldDisconnect e p else Some (false, p));
    if disconnect : bool then Some (false, p, [AClose])
    else match pingMessage with
         | None => Some (false, p, [AClose])
         | Some m => Some (true, p, [ASend m])
         end.
End peer.
