(* ===== verification/PeerProps.v ===== *)
(** * What a peer's messages can do

    A run of a peer: messages its reader handles and ticks of its sender, until
    [StartClose].  The network is told of a peer once, and only when the peer has sent a
    handshake that passed every check. *)

From S2P Require Import Prelude Packer Bloom Ids IpTracker SignedIp Version Float64 Peer.
#[local] Open Scope Z_scope.

(** The clock of a handshake, in whole seconds: the floats of the check are exact. *)
Lemma clockTooFar_spec {K Out} (e : penv (K := K) (Out := Out)) msg local max :
  e_now e = local * 10 ^ 9 → e_MaxClockDifference e = max * 10 ^ 9 →
  0 ≤ local < 2 ^ 53 → 0 ≤ hs_MyTime msg < 2 ^ 53 → 0 ≤ max < 2 ^ 53 →
  clockTooFar e msg = bool_decide (max < Z.abs (hs_MyTime msg - local)).
Proof.
  intros Hn Hm Hl Ht Hx. unfold clockTooFar, Unix. rewrite Hn, Hm, Z.div_mul, Seconds_int by lia.
  rewrite wrapU_id by (unfold inU; lia). rewrite !f64_of_Z_int by lia.
  rewrite f64_sub_int, f64_abs_int, f64_lt_int by lia. done.
Qed.

Section props.
Context {K Sig Out App : Type}.
Variable sha256 ripemd160 : list Z → list Z.
Variable grow : nat → nat.
Variable ParseCertificate : list Z → bool.
Variable CheckSignature : list Z → list Z → list Z → bool.
Variable SignatureFromBytes : list Z → option Sig.
Variable VerifyProofOfPossession : K → Sig → list Z → bool.

Local Abbreviation penv := (penv (K := K) (Out := Out)).
Local Abbreviation peer := (peer (Sig := Sig)).
Local Abbreviation action := (action (Out := Out) (App := App)).
Local Abbreviation shouldDisconnect := (shouldDisconnect (Out := Out) grow VerifyProofOfPossession).
Local Abbreviation handleHandshake :=
  (handleHandshake (App := App) grow CheckSignature SignatureFromBytes VerifyProofOfPossession).
Local Abbreviation handle :=
  (handle sha256 ripemd160 grow ParseCertificate CheckSignature SignatureFromBytes VerifyProofOfPossession).
Local Abbreviation sendPing := (sendPing (App := App) grow VerifyProofOfPossession).

(** The types of a message. *)
Definition handshake_ok (m : HandshakeMsg) : Prop :=
  bytes_ok (hs_IpAddr m) ∧ inU 32 (hs_IpPort m) ∧ inU 64 (hs_IpSigningTime m) ∧ inU 64 (hs_MyTime m).
Definition inbound_ok (m : inbound (App := App)) : Prop :=
  match m with Handshake m => handshake_ok m | _ => True end.

(** What an accepted handshake was checked for, and what the peer keeps of it. *)
Record accepted (e : penv) (m : HandshakeMsg) (p : peer) : Prop := {
  ac_network : hs_NetworkId m = e_NetworkID e;
  ac_clock : clockTooFar e m = false;
  ac_count : (length (hs_TrackedSubnets m) ≤ 16)%nat;
  ac_lengths : Forall (λ s, length s = 32%nat) (hs_TrackedSubnets m);
  ac_subnets : p_trackedSubnets p = {[PrimaryNetworkID]} ∪ list_to_set (hs_TrackedSubnets m);
  ac_known : is_Some (readKnownPeers (hs_KnownPeers m));
  ac_version : p_version p = Some (clientVersion m);
  ac_compatible : Compatible (e_compatibility e) (e_compatibilityNow e) (clientVersion m) = Ok ();
  ac_port : hs_IpPort m ≠ 0;
  ac_ip : ∃ addr sig bytes, let unsigned := mkUnsignedIP (addr, wrapU 16 (hs_IpPort m)) (hs_IpSigningTime m) in
    AddrFromSlice (hs_IpAddr m) = Some addr ∧ SignatureFromBytes (hs_IpBlsSig m) = Some sig ∧
    p_ip p = Some (mkSignedIP unsigned (hs_IpNodeIdSig m) (Some sig) (hs_IpBlsSig m)) ∧
    UnsignedIP_bytes grow unsigned = Some bytes ∧
    hs_IpSigningTime m ≤ wrapU 64 (Unix (e_now e + e_MaxClockDifference e)) ∧
    CheckSignature (p_cert p) bytes (hs_IpNodeIdSig m) = true ∧
    ∀ key txID, e_validator e = Some (Some key, txID) →
      txID = replicate 32 0 ∨ VerifyProofOfPossession key sig bytes = true;
}.

(** The runs of a peer: [hist] lists the messages handled so far, each with the
    configuration, clock and validator it was handled with. *)
Inductive preach (id cert : list Z) : list (penv * inbound (App := App)) → peer → list action → Prop :=
| preach_start : preach id cert [] (new_peer id cert) []
| preach_message hist p acts e m p' new :
    preach id cert hist p acts → AClose ∉ acts → inbound_ok m → handle e m p = Some (p', new) →
    preach id cert (hist ++ [(e, m)]) p' (acts ++ new)
| preach_tick hist p acts e allow ping more p' new :
    preach id cert hist p acts → AClose ∉ acts → sendPing e allow ping p = Some (more, p', new) →
    preach id cert hist p' (acts ++ new).

(** ** Lemmas on the handlers *)

Lemma addSubnets_spec l (p : peer) ok p' : addSubnets l p = (ok, p') →
  (ok = true → Forall (λ s, length s = 32%nat) l ∧
     p' = mkPeer (p_id p) (p_cert p) (p_ip p) (p_version p) (p_trackedSubnets p ∪ list_to_set l)
            (txIDOfVerifiedBLSKey p) (observedUptime p) (gotHandshake p) (finishedHandshake p)) ∧
  p_id p' = p_id p ∧ p_cert p' = p_cert p ∧ p_version p' = p_version p ∧ p_ip p' = p_ip p ∧
  txIDOfVerifiedBLSKey p' = txIDOfVerifiedBLSKey p ∧
  gotHandshake p' = gotHandshake p ∧ finishedHandshake p' = finishedHandshake p.
Proof.
  revert p. induction l as [|s l IH]; intros p; cbn [addSubnets].
  { intros [= <- <-]. split; [|done]. intros _. split; [constructor|]. rewrite list_to_set_nil, union_empty_r_L. by destruct p. }
  unfold ToHash256, ToHash. case_bool_decide as Hs; [by intros [= <- <-]|]. intros E.
  apply IH in E as (Hok & Hrest). split; [|done]. intros Ht. destruct (Hok Ht) as [Hl ->]. split.
  - constructor; [|done]. unfold IDLen in Hs. lia.
  - cbn. f_equal. by rewrite (assoc_L (∪)).
Qed.

Lemma shouldDisconnect_spec (e : penv) (p : peer) d p' : shouldDisconnect e p = Some (d, p') →
  (p' = p ∨ ∃ t, p' = set_txID t p) ∧
  (d = false → ∃ v, p_version p = Some v ∧ Compatible (e_compatibility e) (e_compatibilityNow e) v = Ok () ∧
     ∀ key txID, e_validator e = Some (Some key, txID) → txID = txIDOfVerifiedBLSKey p ∨
       ∃ ip bytes sig, p_ip p = Some ip ∧ UnsignedIP_bytes grow (si_UnsignedIP ip) = Some bytes ∧
         BLSSignature ip = Some sig ∧ VerifyProofOfPossession key sig bytes = true).
Proof.
  unfold Peer.shouldDisconnect. destruct (p_version p) as [v|]; [|done]. cbn [mbind option_bind].
  destruct (Compatible _ _ v) as [[]|] eqn:Ec; [|intros [= <- <-]; split; [by left|done]].
  destruct (e_validator e) as [[[key|] txID]|]; try (intros [= <- <-]; split; [by left|]; intros _; exists v; naive_solver).
  case_bool_decide as Ht; [intros [= <- <-]; split; [by left|]; intros _; exists v; naive_solver|].
  destruct (p_ip p) as [ip|] eqn:Ei; [|done]. cbn [mbind option_bind].
  destruct (UnsignedIP_bytes grow (si_UnsignedIP ip)) as [bytes|] eqn:Eb; [|done]. cbn [mbind option_bind].
  destruct (BLSSignature ip) as [sig|] eqn:Es; [|done]. cbn [mbind option_bind].
  destruct (VerifyProofOfPossession key sig bytes) eqn:Ev; intros [= <- <-]; (split; [eauto|]); [|done].
  intros _. exists v. split_and!; [done..|]. intros key' txID' [= <- <-]. right. eauto 10.
Qed.

Lemma Verify_spec (ip : SignedIP Sig) cert maxT : SignedIP_Verify grow CheckSignature ip cert maxT = Some (Ok ()) →
  un_Timestamp (si_UnsignedIP ip) ≤ wrapU 64 (Unix maxT) ∧
  ∃ bytes, UnsignedIP_bytes grow (si_UnsignedIP ip) = Some bytes ∧ CheckSignature cert bytes (TLSSignature ip) = true.
Proof.
  unfold SignedIP_Verify. case_bool_decide; [done|]. destruct (UnsignedIP_bytes _ _) as [bytes|]; [|done]. cbn.
  destruct (CheckSignature _ _ _) eqn:E; [|done]. intros _. split; [lia|]. eauto.
Qed.

(** What a handshake does: either the peer is closed without having been marked, or the
    handshake was accepted. *)
Lemma handleHandshake_spec e m (p p' : peer) new : handleHandshake e m p = Some (p', new) →
  p_trackedSubnets p = ∅ → txIDOfVerifiedBLSKey p = replicate 32 0 →
  p_id p' = p_id p ∧ p_cert p' = p_cert p ∧ finishedHandshake p' = finishedHandshake p ∧
  Forall (λ a, a = AClose ∨ ∃ o, a = ASend o) new ∧
  (p' = p ∧ new = [AClose] ∨ gotHandshake p = false ∧
    (gotHandshake p' = false ∧ new = [AClose] ∨ gotHandshake p' = true ∧ accepted e m p')).
Proof.
  intros E Hsub Htx. unfold Peer.handleHandshake, Peer.close in E.
  assert (Forall (λ a : action, a = AClose ∨ ∃ o, a = ASend o) [AClose]) as HF by (repeat constructor; by left).
  destruct (gotHandshake p) eqn:Eg; [by simplify_eq; naive_solver|].
  case_bool_decide as Hn; [by simplify_eq; naive_solver|].
  destruct (clockTooFar e m) eqn:Ec; [by simplify_eq; naive_solver|].
  case_bool_decide as Hl; [by simplify_eq; naive_solver|].
  destruct (addSubnets _ _) as [ok p1] eqn:Es. apply addSubnets_spec in Es as (Hok & Hid & Hcert & Hver & Hip & Htx1 & Hg & Hf).
  cbn in Hid, Hcert, Hver, Hip, Htx1, Hg, Hf. rewrite Eg in Hg.
  destruct ok; cbn [negb] in E; [|by simplify_eq; naive_solver].
  destruct (readKnownPeers _) as [[known salt]|] eqn:Ek; [|by simplify_eq; naive_solver].
  destruct (AddrFromSlice _) as [addr|] eqn:Ea; [|by simplify_eq; naive_solver].
  case_bool_decide as Hp; [by simplify_eq; naive_solver|].
  destruct (SignedIP_Verify _ _ _ _ _) as [[[]|]|] eqn:Ev; [|by simplify_eq; naive_solver|done]. cbn [mbind option_bind] in E.
  apply Verify_spec in Ev as (Hts & bytes & Eb & Hsig). cbn in Hts, Eb, Hsig.
  destruct (SignatureFromBytes _) as [sig|] eqn:Esig; [|by simplify_eq; naive_solver].
  destruct (Peer.shouldDisconnect _ _ _ _) as [[d p3]|] eqn:Ed; [|done]. cbn [mbind option_bind] in E.
  apply shouldDisconnect_spec in Ed as (Hp3 & Hd). cbn in Hd.
  assert (p_id p3 = p_id p ∧ p_cert p3 = p_cert p ∧ finishedHandshake p3 = finishedHandshake p ∧ gotHandshake p3 = false ∧
    p_trackedSubnets p3 = p_trackedSubnets p1 ∧ p_version p3 = p_version p1 ∧
    p_ip p3 = Some (mkSignedIP (mkUnsignedIP (addr, wrapU 16 (hs_IpPort m)) (hs_IpSigningTime m)) (hs_IpNodeIdSig m) (Some sig) (hs_IpBlsSig m)))
    as (Hid3 & Hc3 & Hf3 & Hg3 & Hs3 & Hv3 & Hi3).
  { destruct Hp3 as [->|[t ->]]; cbn; naive_solver. }
  destruct d; [by simplify_eq; naive_solver|].
  destruct (Hd eq_refl) as (v & Evs & Hcomp & Hval).
  assert (v = clientVersion m) as -> by congruence. destruct (Hok eq_refl) as [Hlen Hp1].
  destruct (e_Peers _ _ _ _ _) as [ips|]; [|done]. cbn [mbind option_bind] in E.
  assert (accepted e m (set_got p3)) as Hacc.
  { split; try done.
    - unfold maxNumTrackedSubnets in Hl. lia.
    - cbn. rewrite Hs3, Hp1. cbn. by rewrite Hsub, (left_id_L ∅ (∪)).
    - cbn. congruence.
    - exists addr, sig, bytes. cbn. split_and!; try done; [congruence|].
      intros key txID Hvd. destruct (Hval key txID Hvd) as [->|(ip & bs & sg & [= <-] & Eb2 & [= <-] & Hpop)].
      + left. by rewrite Htx1, Htx.
      + right. cbn in Eb2. congruence. }
  destruct (e_PeerListMsg _ _ _) as [msg|]; simplify_eq; cbn; split_and!; try done; eauto.
  constructor; [by right; eexists|]. destruct (e_Send _ _); repeat constructor.
Qed.

(** ** The invariant of a run *)

(** The calls of the network's [Connected] and of the router, in order. *)
Definition is_call (a : action) : bool := match a with AConnected | AInbound _ => true | _ => false end.
Definition calls_out (acts : list action) : list action := filter (λ a, is_call a = true) acts.

Record pinv (id cert : list Z) (hist : list (penv * inbound (App := App))) (p : peer) (acts : list action) : Prop := {
  pi_id : p_id p = id;
  pi_cert : p_cert p = cert;
  pi_got : if gotHandshake p then ∃ e m, (e, Handshake m) ∈ hist ∧ handshake_ok m ∧ accepted e m p
           else finishedHandshake p = false ∧
                (AClose ∉ acts → p_trackedSubnets p = ∅ ∧ txIDOfVerifiedBLSKey p = replicate 32 0);
  pi_calls : if finishedHandshake p then ∃ ms, calls_out acts = AConnected :: (AInbound <$> ms)
             else calls_out acts = [];
}.

Lemma accepted_same e m (p p' : peer) : accepted e m p → p_trackedSubnets p' = p_trackedSubnets p →
  p_version p' = p_version p → p_ip p' = p_ip p → p_cert p' = p_cert p → accepted e m p'.
Proof. intros [] Hs Hv Hi Hc. split; try done; [by rewrite Hs|by rewrite Hv|]. by rewrite Hi, Hc. Qed.

(** Steps that do not finish the handshake and change nothing of it. *)
Lemma pinv_quiet id cert hist hist' p p' acts new : pinv id cert hist p acts → hist ⊆ hist' →
  p_id p' = p_id p → p_cert p' = p_cert p → p_trackedSubnets p' = p_trackedSubnets p →
  p_version p' = p_version p → p_ip p' = p_ip p → gotHandshake p' = gotHandshake p →
  finishedHandshake p' = finishedHandshake p → (gotHandshake p = false → txIDOfVerifiedBLSKey p' = txIDOfVerifiedBLSKey p) →
  calls_out new = [] → pinv id cert hist' p' (acts ++ new).
Proof.
  intros [Hid Hc Hg Hcalls] Hh E1 E2 E3 E4 E5 E6 E7 E8 E9.
  split; rewrite ?E1, ?E2, ?E6, ?E7; try done.
  - destruct (gotHandshake p).
    + destruct Hg as (e & m & Hin & Hm & Ha). exists e, m. split_and!; [by apply Hh|done|]. by eapply accepted_same.
    + destruct Hg as [Hf Hs]. split; [done|]. rewrite E3, E8 by done. intros Hn. apply Hs. set_solver.
  - unfold calls_out in *. by rewrite filter_app, E9, app_nil_r.
Qed.

Lemma calls_out_quiet (new : list action) : Forall (λ a, a = AClose ∨ ∃ o, a = ASend o) new → calls_out new = [].
Proof. induction 1 as [|a new [->|[o ->]] _ IH]; [done|by rewrite <-IH..]. Qed.

Lemma handlePeerList_inv id cert hist hist' p acts l p' new : pinv id cert hist p acts → hist ⊆ hist' →
  handlePeerList sha256 ripemd160 grow ParseCertificate l p = Some (p', new) → pinv id cert hist' p' (acts ++ new).
Proof.
  intros Hp Hh. unfold handlePeerList. destruct (finishedHandshake p) eqn:Ef; cbn [negb andb].
  - destruct (discover _ _ _ _ l) as [[ips|]|]; [..|done]; intros [= <- <-]; by eapply pinv_quiet.
  - destruct Hp as [Hid Hc Hg Hcalls]. rewrite Ef in Hcalls. destruct (gotHandshake p) eqn:Eg; cbn [negb].
    + intros E. destruct (discover _ _ _ _ l) as [[ips|]|]; [..|done]; simplify_eq/=; (split; cbn; [done..| |]);
        try (rewrite Eg; destruct Hg as (e & m & Hin & Hm & Ha); exists e, m; split_and!; [by apply Hh|done|]; by eapply accepted_same);
        exists []; unfold calls_out in *; by rewrite filter_app, Hcalls.
    + intros [= <- <-]. rewrite app_nil_r. split; try done; [by rewrite Eg|by rewrite Ef].
Qed.

Lemma peer_handle_inv id cert hist e m p acts p' new : pinv id cert hist p acts → AClose ∉ acts → inbound_ok m →
  handle e m p = Some (p', new) → pinv id cert (hist ++ [(e, m)]) p' (acts ++ new).
Proof.
  intros Hp Hn Hm. assert (hist ⊆ hist ++ [(e, m)]) as Hh by set_solver. destruct m as [u| |m|known all|l|m]; cbn [Peer.handle].
  - unfold handlePing, Peer.close. case_bool_decide; [|destruct (e_PongMsg e)]; intros [= <- <-]; by eapply pinv_quiet.
  - intros [= <- <-]. by eapply pinv_quiet.
  - intros E. destruct (gotHandshake p) eqn:Eg.
    { unfold Peer.handleHandshake in E. rewrite Eg in E. injection E as <- <-. by eapply (pinv_quiet _ _ _ _ p). }
    pose proof (pi_got _ _ _ _ _ Hp) as Hg. rewrite Eg in Hg. destruct Hg as [Hf Hs]. destruct (Hs Hn) as [Hsub Htx].
    apply handleHandshake_spec in E as (E1 & E2 & E3 & HF & Hcase); [|done..].
    assert (calls_out new = []) as Hq by by apply calls_out_quiet.
    destruct Hp as [Hid Hc _ Hcalls]. split; [by rewrite E1|by rewrite E2| |].
    + destruct Hcase as [[-> ->]|[_ [[Hg ->]|[Hg Ha]]]]; rewrite ?Eg, ?Hg;
        [..|exists e, m; split_and!; [set_solver|done..]]; (split; [congruence|]); set_solver.
    + rewrite E3, Hf in *. unfold calls_out in *. by rewrite filter_app, Hcalls.
  - unfold handleGetPeerList, Peer.close. destruct (negb _); [intros [= <- <-]; by eapply pinv_quiet|].
    destruct (readKnownPeers _) as [[f salt]|]; [|intros [= <- <-]; by eapply pinv_quiet].
    destruct (e_Peers _ _ _ _ _) as [ips|]; [|done]. cbn [mbind option_bind].
    case_bool_decide; [|destruct (e_PeerListMsg _ _ _)]; intros [= <- <-]; by eapply pinv_quiet.
  - intros E. by eapply handlePeerList_inv.
  - intros [= <- <-]. destruct (finishedHandshake p) eqn:Ef; [|by eapply pinv_quiet].
    destruct Hp as [Hid Hc Hg Hcalls]. rewrite Ef in Hcalls. destruct Hcalls as [ms Hcalls]. split; try done.
    + destruct (gotHandshake p); [|destruct Hg; congruence].
      destruct Hg as (e' & m' & Hin & Hg). exists e', m'. split; [by apply Hh|done].
    + rewrite Ef. exists (ms ++ [m]). unfold calls_out in *. by rewrite filter_app, Hcalls, fmap_app.
Qed.

Lemma sendPing_inv id cert hist e allow ping more p acts p' new : pinv id cert hist p acts →
  sendPing e allow ping p = Some (more, p', new) → pinv id cert hist p' (acts ++ new).
Proof.
  intros Hp. unfold Peer.sendPing. destruct (negb allow); [intros [= <- <- <-]; by eapply pinv_quiet|].
  destruct (finishedHandshake p) eqn:Ef.
  2: { cbn [mbind option_bind]. destruct ping; intros [= <- <- <-]; by eapply pinv_quiet. }
  destruct (Peer.shouldDisconnect _ _ _ _) as [[d p1]|] eqn:Ed; [|done]. cbn [mbind option_bind]. intros E.
  assert (calls_out new = [] ∧ p' = p1) as [Hq ->] by (destruct d, ping; by simplify_eq).
  assert (gotHandshake p = true) as Hg.
  { pose proof (pi_got _ _ _ _ _ Hp) as H. destruct (gotHandshake p); [done|]. destruct H. congruence. }
  apply shouldDisconnect_spec in Ed as [[->|[t ->]] _]; eapply (pinv_quiet _ _ _ _ p); try done; intros; congruence.
Qed.

Lemma preach_inv id cert hist p acts : preach id cert hist p acts → pinv id cert hist p acts.
Proof.
  induction 1; [|by eapply peer_handle_inv|by eapply sendPing_inv]. split; try done.
Qed.

(** ** No panic *)

Lemma handshake_bytes m addr : bytes_ok (hs_IpAddr m) → inU 64 (hs_IpSigningTime m) → AddrFromSlice (hs_IpAddr m) = Some addr →
  is_Some (UnsignedIP_bytes grow (mkUnsignedIP (addr, wrapU 16 (hs_IpPort m)) (hs_IpSigningTime m))).
Proof.
  intros Ha Ht E. rewrite UnsignedIP_bytes_spec; [done|].
  split_and!; [by eapply AddrFromSlice_ok|by apply wrapU_range|done].
Qed.

Lemma shouldDisconnect_total (e : penv) (p : peer) ip : is_Some (p_version p) → p_ip p = Some ip →
  is_Some (UnsignedIP_bytes grow (si_UnsignedIP ip)) → is_Some (BLSSignature ip) → is_Some (shouldDisconnect e p).
Proof.
  intros [v Hv] Hi [bytes Hb] [sig Hs]. unfold Peer.shouldDisconnect. rewrite Hv. cbn [mbind option_bind].
  destruct (Compatible _ _ _); [|done]. destruct (e_validator e) as [[[key|] txID]|]; [|done..].
  case_bool_decide; [done|]. rewrite Hi. cbn [mbind option_bind]. rewrite Hb, Hs. cbn. by case_match.
Qed.

Lemma discover_total l : (∀ bs, length (ripemd160 bs) = 20%nat) → is_Some (discover sha256 ripemd160 grow ParseCertificate l).
Proof.
  intros Hr. induction l as [|m l [r IH]]; cbn [discover]; [done|]. destruct (negb _); [done|].
  destruct (AddrFromSlice _); [|done]. case_bool_decide; [done|].
  rewrite NewClaimedIPPort_spec by done. cbn [mbind option_bind]. by rewrite IH.
Qed.

Lemma handleHandshake_total (e : penv) m (p : peer) : bytes_ok (hs_IpAddr m) → inU 64 (hs_IpSigningTime m) → (∀ s b f salt, is_Some (e_Peers e s b f salt)) →
  is_Some (handleHandshake e m p).
Proof.
  intros Hma Hmt He. unfold Peer.handleHandshake, Peer.close. destruct (gotHandshake p); [done|]. case_bool_decide; [done|].
  destruct (clockTooFar e m); [done|]. case_bool_decide; [done|].
  destruct (addSubnets _ _) as [ok p1] eqn:Es. apply addSubnets_spec in Es as (_ & _ & _ & Hv & _). destruct ok; [|done]. cbn [negb].
  destruct (readKnownPeers _) as [[f salt]|]; [|done]. destruct (AddrFromSlice _) as [addr|] eqn:Ea; [|done].
  case_bool_decide; [done|]. destruct (handshake_bytes m addr Hma Hmt Ea) as [bytes Hb].
  unfold SignedIP_Verify. cbn [si_UnsignedIP un_Timestamp TLSSignature].
  case_bool_decide; cbn [mbind option_bind]; [done|]. rewrite Hb. cbn [mbind option_bind].
  destruct (CheckSignature _ _ _); cbn [mbind option_bind]; [|done]. destruct (SignatureFromBytes _) as [sig|]; [|done].
  edestruct (shouldDisconnect_total e) as [[d p2] ->]; [|done|..]; cbn; [by rewrite Hv|by rewrite Hb|done|].
  destruct d; [done|]. edestruct He as [ips ->]. cbn.
  by destruct (e_PeerListMsg _ _ _).
Qed.

Lemma handle_total (e : penv) (m : inbound (App := App)) (p : peer) : (∀ bs, length (ripemd160 bs) = 20%nat) →
  (∀ h, m = Handshake h → bytes_ok (hs_IpAddr h) ∧ inU 64 (hs_IpSigningTime h)) → (∀ s b f salt, is_Some (e_Peers e s b f salt)) → is_Some (handle e m p).
Proof.
  intros Hr Hm He. destruct m as [u| |m|known all|l|m]; cbn [Peer.handle]; [|done|..|done].
  - unfold handlePing, Peer.close. case_bool_decide; [done|]. by destruct (e_PongMsg e).
  - destruct (Hm m eq_refl). by apply handleHandshake_total.
  - unfold handleGetPeerList, Peer.close. destruct (negb _); [done|]. destruct (readKnownPeers _) as [[f salt]|]; [|done].
    destruct (He (p_trackedSubnets p) all f salt) as [ips ->]. cbn. case_bool_decide; [done|]. by destruct (e_PeerListMsg _ _ _).
  - unfold handlePeerList. destruct (discover_total l Hr) as [r Hd]. rewrite Hd. destruct (_ && _); [done|].
    destruct (negb _); cbn; by destruct r.
Qed.

Lemma sendPing_total id cert hist p acts (e : penv) allow ping : pinv id cert hist p acts → is_Some (sendPing e allow ping p).
Proof.
  intros Hp. unfold Peer.sendPing. destruct (negb allow); [done|]. destruct (finishedHandshake p) eqn:Ef.
  2: { cbn. by destruct ping. }
  pose proof (pi_got _ _ _ _ _ Hp) as Hg. destruct (gotHandshake p); [|destruct Hg; congruence].
  destruct Hg as (e' & m & _ & Hm & Ha). destruct (ac_ip _ _ _ Ha) as (addr & sig & bytes & Eaddr & _ & Eip & Eb & _).
  edestruct (shouldDisconnect_total e p) as [[d p2] ->]; [by rewrite (ac_version _ _ _ Ha)|exact Eip|by cbn; rewrite Eb|done|].
  cbn. by destruct d, ping.
Qed.

Hypothesis Hripe : ∀ bs, length (ripemd160 bs) = 20%nat.

(** C30: the network is told of a peer once, after a handshake that passed every check.  For
    any messages a peer's reader handles and any ticks of its sender: the peer is marked as
    having sent its handshake only when one of the messages handled is a handshake that passed,
    with the configuration and clock it was handled with, the checks on the network, the clock, the
    subnets, the Bloom filter and its salt, the address, the TLS signature of the IP by the
    peer's own certificate and its time, the version, and, for a validator with a key, the
    BLS signature; the IP, version and subnets of the peer are then those of that handshake,
    the primary network included.  [Network.Connected] is called at most once, only for such
    a peer, and before any message is given to the router.  No handler panics. *)
Theorem peer_connected_after_handshake id cert hist p acts :
  preach id cert hist p acts →
  p_id p = id ∧ p_cert p = cert ∧
  (gotHandshake p = true → ∃ e m, (e, Handshake m) ∈ hist ∧ accepted e m p) ∧
  (if finishedHandshake p then gotHandshake p = true ∧ ∃ ms, calls_out acts = AConnected :: (AInbound <$> ms)
   else calls_out acts = []) ∧
  (∀ (e : penv) m, inbound_ok m → (∀ s b f salt, is_Some (e_Peers e s b f salt)) → is_Some (handle e m p)) ∧
  (∀ (e : penv) allow ping, is_Some (sendPing e allow ping p)).
Proof.
  intros Hp%preach_inv. pose proof Hp as [Hid Hc Hg Hcalls]. split_and!; try done.
  - intros E. rewrite E in Hg. destruct Hg as (e & m & Hin & _ & Ha). eauto.
  - destruct (finishedHandshake p); [|done]. split; [|done]. destruct (gotHandshake p); [done|]. by destruct Hg.
  - intros e m Hm He. apply handle_total; [done| |done]. intros h' ->. by destruct Hm as (? & _ & ? & _).
  - intros e allow ping. by eapply sendPing_total.
Qed.
End props.

(** ** A handshake

    The peer's port is 65536, which is 0 in 16 bits: only the 32-bit value is checked. *)

Definition ex_env : penv (K := Z) (Out := Z) :=
  mkPenv 1700000000000000000 1 60000000000 (GetCompatibility 0) 1 (Some (Some 7, [5]))
    (λ _ _ _ _, Some []) (Some 1) (λ _ _, Some 2) (λ _, true).
Definition ex_handshake : HandshakeMsg :=
  mkHandshake 1 1700000030 [10; 0; 0; 1] 65536 1700000000 [9] [replicate 32 3] (Some (mkClientMsg [] 1 12 1)) None [4] false.
Definition ex_handle := handle (Sig := Z) (Out := Z) (App := Z) (λ bs, bs) (λ _, replicate 20 0) (λ n, n) (λ _, true) (λ _ _ sig, bool_decide (sig = [9]))
  head (λ key sig _, bool_decide (key = 7 ∧ sig = 4)).
Definition ex_peer0 := new_peer (Sig := Z) [1] [2].
Definition ex_peer1 := default (ex_peer0, []) (ex_handle ex_env (Handshake ex_handshake) ex_peer0).
Definition ex_peer2 := default (ex_peer0, []) (ex_handle ex_env (PeerList []) ex_peer1.1).
Definition ex_peer3 := default (ex_peer0, []) (ex_handle ex_env (AppMessage 8) ex_peer2.1).

Definition ex_hist : list (penv (K := Z) (Out := Z) * inbound (App := Z)) :=
  [(ex_env, Handshake ex_handshake); (ex_env, PeerList []); (ex_env, AppMessage 8)].

Lemma peer_connected_after_handshake_witness :
  let p := ex_peer3.1 in let acts := ex_peer1.2 ++ ex_peer2.2 ++ ex_peer3.2 in
  finishedHandshake p = true ∧ calls_out acts = [AConnected; AInbound 8] ∧
  (un_AddrPort ∘ si_UnsignedIP <$> p_ip p) = Some ([10; 0; 0; 1], 0) ∧
  ∃ e m, (e, Handshake m) ∈ ex_hist ∧
    accepted (λ n, n) (λ _ _ sig, bool_decide (sig = [9])) head (λ key sig _, bool_decide (key = 7 ∧ sig = 4)) e m p.
Proof.
  split; [vm_compute; reflexivity|]. split; [vm_compute; reflexivity|]. split; [vm_compute; reflexivity|].
  assert (preach (Out := Z) (App := Z) (λ bs, bs) (λ _, replicate 20 0) (λ n, n) (λ _, true) (λ _ _ sig, bool_decide (sig = [9]))
    head (λ key sig _, bool_decide (key = 7 ∧ sig = 4)) [1] [2] ex_hist ex_peer3.1 (ex_peer1.2 ++ ex_peer2.2 ++ ex_peer3.2)) as Hp.
  { rewrite app_assoc. change ex_hist with ((([] ++ [(ex_env, Handshake ex_handshake)]) ++ [(ex_env, PeerList [])]) ++ [(ex_env, AppMessage 8)]).
    apply (preach_message _ _ _ _ _ _ _ _ _ _ ex_peer2.1 (ex_peer1.2 ++ ex_peer2.2));
      [|vm_compute; set_solver|done|vm_compute; reflexivity].
    apply (preach_message _ _ _ _ _ _ _ _ _ _ ex_peer1.1 ex_peer1.2);
      [|vm_compute; set_solver|done|vm_compute; reflexivity].
    apply (preach_message _ _ _ _ _ _ _ _ _ _ ex_peer0 []);
      [constructor|set_solver| |vm_compute; reflexivity].
    repeat split; vm_compute; try done; repeat constructor; done. }
  pose proof (peer_connected_after_handshake _ (λ _, replicate 20 0) _ _ _ _ _ (λ _, eq_refl) _ _ _ _ _ Hp) as (_ & _ & H & _).
  apply H. vm_compute. reflexivity.
Defined.
