(* ===== verification/MessageQueue.v ===== *)
(** * The queue of messages to a peer (src/utils/avalanche/network/peer/message_queue.go)

    [blockingMessageQueue] under every interleaving of the goroutines that push, pop and
    close.  A goroutine's call is a sequence of atomic steps: taking a lock, or one [select]
    with the case it takes.  [qstep] is one step of one goroutine, [None] when it cannot be
    taken: a lock is held, no case of the [select] is ready, or a case is chosen that is
    not.  A [select] takes its [default] only when no other case is ready.  Messages are of
    any type; the buffer has room for at least one message (the network's has 1024). *)

From S2P Require Import Prelude.

Section queue.
Context {Msg : Type}.

(** A goroutine in [Push]: it holds [closingLock] for reading, before the first [select] or
    blocked in the second. *)
Inductive pusher := PFirst (msg : Msg) | PSecond (msg : Msg).

(** The goroutine inside [closeOnce.Do]: [closing] is closed and it waits for the lock, or
    it holds the lock and empties the queue, or it has returned. *)
Inductive closer := CNone | CWaiting | CDraining | CDone.

Inductive qcase := SelQueue | SelCtx | SelClosing | SelDefault.

Record qstate := mkQueue {
  q_buf : list Msg;                  (* the channel [queue] *)
  q_cap : nat;
  q_closing : bool;                  (* the channel [closing] is closed *)
  q_closer : closer;
  q_pushers : gmap nat pusher;
  q_pushed : list Msg;               (* the messages of the calls of [Push] so far *)
  q_sent : list Msg;                 (* those put in the queue, [Push] returning true *)
  q_left : list (Msg * bool);        (* those that left it: popped, or failed by [Close] *)
  q_refused : list Msg;              (* those failed by [Push], which returns false *)
}.

Definition NewBlockingMessageQueue (bufferSize : nat) : qstate := mkQueue [] bufferSize false CNone ∅ [] [] [] [].

Inductive qop :=
| QPush (t : nat) (msg : Msg)
| QSelect (t : nat) (c : qcase) (ctxDone : bool)
| QPop | QPopClosed | QPopNow
| QClose | QLock | QDrain.

Definition set_pushers (m : gmap nat pusher) (q : qstate) : qstate :=
  mkQueue (q_buf q) (q_cap q) (q_closing q) (q_closer q) m (q_pushed q) (q_sent q) (q_left q) (q_refused q).
Definition set_closer (closing : bool) (c : closer) (q : qstate) : qstate :=
  mkQueue (q_buf q) (q_cap q) closing c (q_pushers q) (q_pushed q) (q_sent q) (q_left q) (q_refused q).

(** [SendFailed] and [return false]. *)
Definition push_refused (t : nat) (msg : Msg) (q : qstate) : qstate :=
  mkQueue (q_buf q) (q_cap q) (q_closing q) (q_closer q) (delete t (q_pushers q)) (q_pushed q) (q_sent q) (q_left q) (q_refused q ++ [msg]).

(** [RLock]: no writer holds the lock. *)
Definition push_start (t : nat) (msg : Msg) (q : qstate) : option qstate :=
  match q_pushers q !! t, q_closer q with
  | None, (CNone | CWaiting | CDone) =>
      Some (mkQueue (q_buf q) (q_cap q) (q_closing q) (q_closer q) (<[t := PFirst msg]> (q_pushers q))
              (q_pushed q ++ [msg]) (q_sent q) (q_left q) (q_refused q))
  | _, _ => None
  end.

Definition push_select (t : nat) (c : qcase) (ctxDone : bool) (q : qstate) : option qstate :=
  match q_pushers q !! t, c with
  | Some (PFirst msg), SelClosing => if q_closing q then Some (push_refused t msg q) else None
  | Some (PFirst msg), SelCtx => if ctxDone then Some (push_refused t msg q) else None
  | Some (PFirst msg), SelDefault =>
      if q_closing q || ctxDone then None else Some (set_pushers (<[t := PSecond msg]> (q_pushers q)) q)
  | Some (PSecond msg), SelQueue =>
      if bool_decide (length (q_buf q) < q_cap q)
      then Some (mkQueue (q_buf q ++ [msg]) (q_cap q) (q_closing q) (q_closer q) (delete t (q_pushers q))
                   (q_pushed q) (q_sent q ++ [msg]) (q_left q) (q_refused q))
      else None
  | Some (PSecond msg), SelCtx => if ctxDone then Some (push_refused t msg q) else None
  | Some (PSecond msg), SelClosing => if q_closing q then Some (push_refused t msg q) else None
  | _, _ => None
  end.

(** A message taken from the channel. *)
Definition receive (popped : bool) (q : qstate) : option (Msg * qstate) :=
  match q_buf q with
  | [] => None
  | msg :: buf => Some (msg, mkQueue buf (q_cap q) (q_closing q) (q_closer q) (q_pushers q) (q_pushed q) (q_sent q)
                               (q_left q ++ [(msg, popped)]) (q_refused q))
  end.

(** [Pop] returns what it receives, or nothing once the queue is closing; [PopNow] returns
    nothing when the queue is empty. *)
Definition PopNow (q : qstate) : option Msg * qstate :=
  match receive true q with Some (msg, q) => (Some msg, q) | None => (None, q) end.

Definition Close_step (q : qstate) : qstate :=
  match q_closer q with CNone => set_closer true CWaiting q | _ => q end.

(** [Lock]: no goroutine holds the lock for reading. *)
Definition Close_lock (q : qstate) : option qstate :=
  match q_closer q with
  | CWaiting => if bool_decide (q_pushers q = ∅) then Some (set_closer (q_closing q) CDraining q) else None
  | _ => None
  end.

(** One turn of the loop: a message fails, or the loop and the call end. *)
Definition Close_drain (q : qstate) : option qstate :=
  match q_closer q with
  | CDraining => match receive false q with Some (_, q) => Some q | None => Some (set_closer (q_closing q) CDone q) end
  | _ => None
  end.

Definition qstep (o : qop) (q : qstate) : option qstate :=
  match o with
  | QPush t msg => push_start t msg q
  | QSelect t c ctxDone => push_select t c ctxDone q
  | QPop => snd <$> receive true q
  | QPopClosed => if q_closing q then Some q else None
  | QPopNow => Some (PopNow q).2
  | QClose => Some (Close_step q)
  | QLock => Close_lock q
  | QDrain => Close_drain q
  end.

Inductive qreach (bufferSize : nat) : qstate → Prop :=
| qreach_new : qreach bufferSize (NewBlockingMessageQueue bufferSize)
| qreach_step o q q' : qreach bufferSize q → qstep o q = Some q' → qreach bufferSize q'.

(** ** Accounting *)

Definition pusher_msg (p : pusher) : Msg := match p with PFirst m | PSecond m => m end.
Definition msgs_of (m : gmap nat pusher) : list Msg := (pusher_msg ∘ snd) <$> map_to_list m.
Definition pushing (q : qstate) : list Msg := msgs_of (q_pushers q).

Record qinv (bufferSize : nat) (q : qstate) : Prop := {
  qi_cap : q_cap q = bufferSize;
  qi_fifo : q_sent q = (fst <$> q_left q) ++ q_buf q;
  qi_all : q_pushed q ≡ₚ q_sent q ++ q_refused q ++ pushing q;
  qi_room : length (q_buf q) ≤ q_cap q;
  qi_closing : q_closing q = true ↔ q_closer q ≠ CNone;
  qi_open : q_closing q = false → Forall (λ e, e.2 = true) (q_left q);
  qi_drain : q_closer q = CDraining → q_pushers q = ∅;
  qi_done : q_closer q = CDone → q_buf q = [] ∧ ∀ t m, q_pushers q !! t ≠ Some (PSecond m);
}.

Lemma msgs_insert t p m : m !! t = None → msgs_of (<[t := p]> m) ≡ₚ pusher_msg p :: msgs_of m.
Proof. intros Ht. unfold msgs_of. by rewrite map_to_list_insert. Qed.

Lemma msgs_delete t p m : m !! t = Some p → msgs_of m ≡ₚ pusher_msg p :: msgs_of (delete t m).
Proof. intros Ht. unfold msgs_of. by rewrite <-(map_to_list_delete _ _ _ Ht). Qed.

Lemma msgs_set t p p' m : m !! t = Some p → pusher_msg p' = pusher_msg p → msgs_of (<[t := p']> m) ≡ₚ msgs_of m.
Proof.
  intros Ht E. rewrite <-(insert_delete_eq m t p'), msgs_insert, (msgs_delete t p m) by (done || apply lookup_delete_eq). by rewrite E.
Qed.

Section steps.
Variable bufferSize : nat.
Local Abbreviation inv := (qinv bufferSize).

Lemma push_start_inv t msg q q' : inv q → push_start t msg q = Some q' → inv q'.
Proof.
  intros [Hcap Hf Ha Hr Hc Ho Hd Hdone]. unfold push_start. destruct (q_pushers q !! t) eqn:Ht; [by destruct (q_closer q)|].
  destruct (q_closer q) eqn:Ecl; try done; intros [= <-]; split; cbn; try done; rewrite ?Ecl; try done.
  1, 2, 3: unfold pushing in *; cbn; rewrite Ha, msgs_insert by done; cbn; solve_Permutation.
  intros _. split; [by apply Hdone|]. intros t' m. rewrite lookup_insert_Some.
  intros [[_ [=]]|[_ H]]. destruct (Hdone eq_refl) as [_ Hn]. by apply (Hn t' m).
Qed.

Lemma push_refused_inv t p q : inv q → q_pushers q !! t = Some p → inv (push_refused t (pusher_msg p) q).
Proof.
  intros [Hcap Hf Ha Hr Hc Ho Hd Hdone] Ht. split; cbn; try done.
  - unfold pushing in *. cbn. rewrite Ha, (msgs_delete t p) by done. solve_Permutation.
  - intros E. by rewrite (Hd E), delete_empty.
  - intros E. destruct (Hdone E) as [? Hn]. split; [done|]. intros t' m. rewrite lookup_delete_Some. intros [_ ?]. by apply (Hn t' m).
Qed.

Lemma push_select_inv t c ctxDone q q' : inv q → push_select t c ctxDone q = Some q' → inv q'.
Proof.
  intros Hi. unfold push_select. destruct (q_pushers q !! t) as [[msg|msg]|] eqn:Ht; [| |done];
    pose proof (push_refused_inv t _ q Hi Ht) as Href; cbn [pusher_msg] in Href; destruct c; try done.
  - destruct ctxDone; [by intros [= <-]|done].
  - destruct (q_closing q); [by intros [= <-]|done].
  - destruct (q_closing q || ctxDone) eqn:E; [done|]. apply orb_false_iff in E as [E _]. intros [= <-].
    destruct Hi as [Hcap Hf Ha Hr Hc Ho Hd Hdone]. assert (q_closer q = CNone) as Ecl by (destruct (q_closer q) eqn:Ec; [done|..]; rewrite E in Hc; by destruct Hc as [_ Hc]; discriminate Hc).
    split; cbn; try done; rewrite ?Ecl; try done. unfold pushing in *. cbn.
    by rewrite Ha, (msgs_set t (PFirst msg) (PSecond msg)).
  - case_bool_decide as Hroom; [|done]. intros [= <-]. destruct Hi as [Hcap Hf Ha Hr Hc Ho Hd Hdone]. split; cbn; try done.
    + by rewrite Hf, app_assoc.
    + unfold pushing in *. cbn. rewrite Ha, (msgs_delete t _ _ Ht). cbn. solve_Permutation.
    + rewrite length_app. cbn. lia.
    + intros E. by rewrite (Hd E), lookup_empty in Ht.
    + intros E. destruct (Hdone E) as [_ Hn]. by destruct (Hn t msg).
  - destruct ctxDone; [by intros [= <-]|done].
  - destruct (q_closing q); [by intros [= <-]|done].
Qed.

Lemma receive_inv popped q msg q' : inv q → (popped = false → q_closing q = true) → receive popped q = Some (msg, q') → inv q'.
Proof.
  intros [Hcap Hf Ha Hr Hc Ho Hd Hdone] Hp. unfold receive. destruct (q_buf q) as [|m buf] eqn:Eb; [done|]. intros [= -> <-].
  split; cbn in *; try done.
  - by rewrite Hf, fmap_app, <-app_assoc.
  - lia.
  - intros E. apply Forall_app. split; [by apply Ho|]. repeat constructor. cbn. destruct popped; [done|]. rewrite Hp in E; done.
  - intros E. by destruct (Hdone E).
Qed.

Lemma qstep_inv o q q' : inv q → qstep o q = Some q' → inv q'.
Proof.
  intros Hi. destruct o as [t msg|t c ctxDone| | | | | |]; cbn [qstep].
  - by apply push_start_inv.
  - by apply push_select_inv.
  - destruct (receive true q) as [[msg q1]|] eqn:E; [|done]. cbn. intros [= <-]. by eapply (receive_inv true).
  - destruct (q_closing q); [by intros [= <-]|done].
  - unfold PopNow. destruct (receive true q) as [[msg q1]|] eqn:E; cbn; intros [= <-]; [by eapply (receive_inv true)|done].
  - unfold Close_step. destruct (q_closer q) eqn:Ec; intros [= <-]; try done.
    destruct Hi as [Hcap Hf Ha Hr Hc Ho Hd Hdone]. by split.
  - unfold Close_lock. destruct (q_closer q) eqn:Ec; try done. case_bool_decide; [|done]. intros [= <-].
    destruct Hi as [Hcap Hf Ha Hr Hc Ho Hd Hdone]. split; cbn; try done. rewrite Hc, Ec. done.
  - unfold Close_drain. destruct (q_closer q) eqn:Ec; try done.
    assert (q_closing q = true) as Ecl by (apply (qi_closing _ _ Hi); by rewrite Ec).
    destruct (receive false q) as [[msg q1]|] eqn:E; intros [= <-]; [by eapply (receive_inv false)|].
    destruct Hi as [Hcap Hf Ha Hr Hc Ho Hd Hdone]. split; cbn; try done.
    intros _. split; [|by rewrite (Hd Ec)]. unfold receive in E. by destruct (q_buf q).
Qed.

Lemma qreach_inv q : qreach bufferSize q → inv q.
Proof.
  induction 1 as [|o q q' _ IH Hs]; [|by eapply qstep_inv]. split; cbn; try done. lia.
Qed.
End steps.

(** What is finished stays so: a queue that is closed stays closed. *)
Lemma qstep_done o q q' : q_closer q = CDone → qstep o q = Some q' → q_closer q' = CDone.
Proof.
  intros Hd. destruct o as [t msg|t c ctxDone| | | | | |]; cbn [qstep].
  - unfold push_start. destruct (q_pushers q !! t); [done|]. rewrite Hd. intros [= <-]. done.
  - unfold push_select. destruct (q_pushers q !! t) as [[msg|msg]|]; [| |done]; destruct c; try done;
      repeat (case_match; try done); by intros [= <-].
  - unfold receive. destruct (q_buf q); [done|]. by intros [= <-].
  - destruct (q_closing q); [by intros [= <-]|done].
  - unfold PopNow, receive. by destruct (q_buf q); intros [= <-].
  - unfold Close_step. rewrite Hd. by intros [= <-].
  - unfold Close_lock. by rewrite Hd.
  - unfold Close_drain. by rewrite Hd.
Qed.

(** C23: no message to a peer is lost or sent twice.  Under every interleaving of the
    goroutines that push, pop and close, the messages given to [Push] are those it put in
    the queue, those it refused (reported as failed, once) and those it still holds; the
    messages in the queue leave it in the order in which they entered; as long as [Close]
    is not called they leave it by being popped, and once [Close] has returned the queue is
    empty, was emptied by pops and reported failures only, and no later step puts a message
    in it. *)
Theorem queue_loses_nothing bufferSize q :
  qreach bufferSize q →
  q_pushed q ≡ₚ q_sent q ++ q_refused q ++ pushing q ∧
  q_sent q = (fst <$> q_left q) ++ q_buf q ∧ length (q_buf q) ≤ bufferSize ∧
  (q_closing q = false → Forall (λ e, e.2 = true) (q_left q)) ∧
  (q_closer q = CDone → q_buf q = [] ∧ ∀ o q', qstep o q = Some q' → q_closer q' = CDone ∧ q_sent q' = q_sent q).
Proof.
  intros Hr. pose proof (qreach_inv _ _ Hr) as [Hcap Hf Ha Hroom Hc Ho Hd Hdone]. split_and!; try done; [by rewrite <-Hcap|].
  intros E. destruct (Hdone E) as [Hb _]. split; [done|]. intros o q' Hs. pose proof (qstep_done _ _ _ E Hs) as E'. split; [done|].
  pose proof (qreach_inv _ _ (qreach_step _ _ _ _ Hr Hs)) as [_ Hf' _ _ _ _ _ Hdone']. destruct (Hdone' E') as [Hb' _].
  rewrite Hf, Hf', Hb, Hb', !app_nil_r. destruct (Hdone E) as [_ Hn]. f_equal.
  destruct o as [t msg|t c ctxDone| | | | | |]; cbn [qstep] in Hs.
  - unfold push_start in Hs. destruct (q_pushers q !! t); [done|]. rewrite E in Hs. by injection Hs as <-.
  - unfold push_select in Hs. destruct (q_pushers q !! t) as [[msg|msg]|] eqn:Ht; [| |done]; [|by destruct (Hn t msg)].
    destruct c; try done; repeat (case_match; try done); by injection Hs as <-.
  - unfold receive in Hs. by rewrite Hb in Hs.
  - destruct (q_closing q); [by injection Hs as <-|done].
  - unfold PopNow, receive in Hs. rewrite Hb in Hs. by injection Hs as <-.
  - unfold Close_step in Hs. rewrite E in Hs. by injection Hs as <-.
  - unfold Close_lock in Hs. by rewrite E in Hs.
  - unfold Close_drain in Hs. by rewrite E in Hs.
Qed.
End queue.

Definition qrun {Msg} (ops : list (qop (Msg := Msg))) (q : qstate) : option qstate :=
  foldl (λ q o, q ≫= qstep o) (Some q) ops.

(** Two goroutines push while the queue is closed: the first passes its first [select]
    before, and its message is put in the queue and failed by [Close]. *)
Definition ex_qops : list (qop (Msg := Z)) :=
  [QPush 1 10; QSelect 1 SelDefault false; QPush 2 20; QSelect 2 SelDefault false; QSelect 2 SelQueue false; QPop;
   QPush 3 30; QClose; QSelect 1 SelQueue false; QSelect 3 SelClosing false; QLock; QDrain; QDrain]%Z.
Definition ex_qstate : qstate := default (NewBlockingMessageQueue 2) (qrun ex_qops (NewBlockingMessageQueue 2)).

Lemma qrun_reach {Msg} bufferSize ops (q q' : qstate (Msg := Msg)) : qreach bufferSize q → qrun ops q = Some q' → qreach bufferSize q'.
Proof.
  revert q. induction ops as [|o ops IH]; intros q Hr; cbn; [by intros [= <-]|]. unfold qrun. cbn.
  destruct (qstep o q) as [q1|] eqn:E; [|].
  - apply IH. by eapply qreach_step.
  - intros H. exfalso. clear -H. induction ops; [done|]. by apply IHops.
Qed.

Lemma queue_loses_nothing_witness :
  q_left ex_qstate = [(20, true); (10, false)]%Z ∧ q_refused ex_qstate = [30]%Z ∧ q_closer ex_qstate = CDone ∧
  q_pushed ex_qstate ≡ₚ q_sent ex_qstate ++ q_refused ex_qstate ++ pushing ex_qstate.
Proof.
  split_and!; [vm_compute; reflexivity..|].
  refine (proj1 (queue_loses_nothing 2 ex_qstate _)).
  apply (qrun_reach 2 ex_qops (NewBlockingMessageQueue 2)); [constructor|vm_compute; reflexivity].
Defined.
