(* ===== verification/PeerWire.v ===== *)
(** * Messages on a connection

    The framing of messages between peers: src/utils/avalanche/network/peer/msg_length.go
    and the loops [writeMessages], [writeMessage] and [readMessages] of peer.go.  A stream is
    the bytes written to, or read from, the connection until it is closed, times out or
    fails.  The loops' deadlines, and what is done with a message once it is parsed (Peer.v),
    are not part of this file. *)

From S2P Require Import Prelude MessageQueue.

Inductive len_err := errInvalidMessageLength | errMaxMessageLengthExceeded.

Definition IntLen : nat := 4.
Definition DefaultMaxMessageSize : Z := 2 * 1024 * 1024.

Definition writeMsgLen (msgLen maxMsgLen : Z) : result len_err (list Z) :=
  if bool_decide (maxMsgLen < msgLen)%Z then Err errMaxMessageLengthExceeded else Ok (be_encode 4 msgLen).

Definition readMsgLen (b : list Z) (maxMsgLen : Z) : result len_err Z :=
  if bool_decide (length b ≠ IntLen) then Err errInvalidMessageLength
  else
    let msgLen := be_decode b in
    if bool_decide (maxMsgLen < msgLen)%Z then Err errMaxMessageLengthExceeded else Ok msgLen.

(** The bytes written for a message: [io.CopyN] copies as many as the length says.  The
    connection is open: [SetWriteDeadline], whose failure skips the message, succeeds. *)
Definition writeMessage (msgBytes : list Z) : list Z :=
  let msgLen := wrapU 32 (Z.of_nat (length msgBytes)) in
  match writeMsgLen msgLen DefaultMaxMessageSize with
  | Err _ => []
  | Ok msgLenBytes => take (Z.to_nat (wrapU 32 (Z.of_nat IntLen + msgLen))) (msgLenBytes ++ msgBytes)
  end.

(** The port of the signed IP and the handshake, when they can be had, and the messages the
    queue hands over before it is closed. *)
Definition writeMessages (signedIPPort : option Z) (handshake : option (list Z)) (popped : list (list Z)) : list Z :=
  match signedIPPort with
  | None => []
  | Some port =>
      if bool_decide (port = 0)%Z then []
      else
        match handshake with
        | None => []
        | Some msg => writeMessage msg ++ (popped ≫= writeMessage)
        end
  end.

(** The messages read: [io.ReadFull] fails when the stream ends before the bytes it wants. *)
Fixpoint read_loop (fuel : nat) (stream : list Z) : list (list Z) :=
  match fuel with
  | O => []
  | S fuel =>
      if bool_decide (length stream < IntLen) then []
      else
        match readMsgLen (take IntLen stream) DefaultMaxMessageSize with
        | Err _ => []
        | Ok msgLen =>
            let stream := drop IntLen stream in
            if bool_decide (length stream < Z.to_nat msgLen) then []
            else take (Z.to_nat msgLen) stream :: read_loop fuel (drop (Z.to_nat msgLen) stream)
        end
  end.

(** Every turn takes at least four bytes.  A message that is not parsed is skipped. *)
Definition readMessages {M} (Parse : list Z → option M) (stream : list Z) : list M :=
  omap Parse (read_loop (S (length stream)) stream).

(** ** Round trip *)

Definition fits (msg : list Z) : Prop := (Z.of_nat (length msg) ≤ DefaultMaxMessageSize)%Z.
#[export] Instance fits_dec msg : Decision (fits msg) := Z_le_dec _ _.

Lemma writeMessage_spec msg : (Z.of_nat (length msg) < 2 ^ 32)%Z →
  writeMessage msg = if bool_decide (fits msg) then be_encode 4 (Z.of_nat (length msg)) ++ msg else [].
Proof.
  intros Hl. unfold writeMessage, writeMsgLen, fits, DefaultMaxMessageSize.
  rewrite (wrapU_id 32 (Z.of_nat (length msg))) by (unfold inU; lia).
  destruct (bool_decide_reflect (2 * 1024 * 1024 < Z.of_nat (length msg))%Z); [by rewrite bool_decide_eq_false_2 by lia|].
  rewrite bool_decide_eq_true_2 by lia. unfold IntLen. rewrite (wrapU_id 32) by (unfold inU; lia).
  apply take_ge. rewrite length_app, be_encode_length. lia.
Qed.

Lemma read_loop_fuel fuel fuel' stream : length stream < fuel → length stream < fuel' → read_loop fuel stream = read_loop fuel' stream.
Proof.
  revert fuel' stream. induction fuel as [|fuel IH]; intros [|fuel'] stream H H'; try lia. cbn [read_loop].
  case_bool_decide as Hs; [done|]. destruct (readMsgLen _ _) as [n|]; [|done]. case_bool_decide; [done|]. f_equal.
  unfold IntLen in *. apply IH; rewrite !length_drop; lia.
Qed.

Definition frames (stream : list Z) : list (list Z) := read_loop (S (length stream)) stream.

Lemma frames_cons msg stream : fits msg → frames (be_encode 4 (Z.of_nat (length msg)) ++ msg ++ stream) = msg :: frames stream.
Proof.
  intros Hf. unfold fits, DefaultMaxMessageSize in Hf. unfold frames at 1. cbn [read_loop].
  pose proof (be_encode_length 4 (Z.of_nat (length msg))) as Hl. unfold IntLen.
  rewrite bool_decide_eq_false_2 by (rewrite length_app, Hl; lia).
  rewrite (take_app_length' _ _ 4), (drop_app_length' _ _ 4) by done. unfold readMsgLen, IntLen. rewrite bool_decide_eq_false_2 by lia.
  rewrite be_decode_encode by (unfold inU; cbn; lia). rewrite bool_decide_eq_false_2 by (unfold DefaultMaxMessageSize; lia).
  rewrite bool_decide_eq_false_2 by (rewrite length_app; lia). rewrite Nat2Z.id, take_app_length, drop_app_length. f_equal.
  apply read_loop_fuel; rewrite ?length_app; lia.
Qed.

Lemma frames_short stream : length stream < 4 → frames stream = [].
Proof. intros H. unfold frames. cbn [read_loop]. by rewrite bool_decide_eq_true_2. Qed.

(** What is written, and any part of it that arrives. *)
Definition stream_of (msgs : list (list Z)) : list Z := msgs ≫= writeMessage.
Definition small (msgs : list (list Z)) : Prop := Forall (λ m, Z.of_nat (length m) < 2 ^ 32)%Z msgs.

Lemma frames_stream msgs : small msgs → frames (stream_of msgs) = filter fits msgs.
Proof.
  unfold stream_of. induction 1 as [|m msgs Hm _ IH]; [done|]. rewrite bind_cons, writeMessage_spec, filter_cons by done.
  case_bool_decide as Hf; [|by rewrite decide_False by done]. rewrite decide_True by done. by rewrite <-app_assoc, frames_cons, IH.
Qed.

Lemma frames_cut msg n : fits msg → n < 4 + length msg → frames (take n (be_encode 4 (Z.of_nat (length msg)) ++ msg)) = [].
Proof.
  intros Hf Hn. pose proof (be_encode_length 4 (Z.of_nat (length msg))) as Hl.
  destruct (decide (n < 4)) as [|H4]; [apply frames_short; rewrite length_take; lia|].
  rewrite take_app_ge by lia. rewrite Hl. unfold frames. cbn [read_loop]. unfold IntLen. rewrite length_app, Hl.
  rewrite bool_decide_eq_false_2 by lia. rewrite (take_app_length' _ _ 4), (drop_app_length' _ _ 4) by done.
  unfold fits, DefaultMaxMessageSize in Hf. unfold readMsgLen, IntLen. rewrite bool_decide_eq_false_2 by lia.
  rewrite be_decode_encode by (unfold inU; cbn; lia). rewrite bool_decide_eq_false_2 by (unfold DefaultMaxMessageSize; lia).
  rewrite bool_decide_eq_true_2; [done|]. rewrite length_take. lia.
Qed.

Lemma frames_prefix msgs n : small msgs → frames (take n (stream_of msgs)) `prefix_of` filter fits msgs.
Proof.
  intros Hs. revert n. induction Hs as [|m msgs Hm _ IH]; intros n.
  { unfold stream_of. cbn. by rewrite take_nil. }
  unfold stream_of. rewrite bind_cons, writeMessage_spec, filter_cons by done. case_bool_decide as Hf.
  2: { rewrite decide_False by done. apply IH. }
  rewrite decide_True by done. pose proof (be_encode_length 4 (Z.of_nat (length m))) as Hl.
  destruct (decide (n < 4 + length m)) as [Hn|Hn].
  - rewrite take_app_le by (rewrite length_app; lia). rewrite frames_cut by done. apply prefix_nil.
  - rewrite take_app_ge by (rewrite length_app; lia). rewrite <-app_assoc, frames_cons by done. apply prefix_cons, IH.
Qed.

Lemma read_loop_bound fuel stream : Forall fits (read_loop fuel stream) ∧ sum_list_with (λ m, 4 + length m) (read_loop fuel stream) ≤ length stream.
Proof.
  revert stream. induction fuel as [|fuel IH]; intros stream; cbn [read_loop]; [split; [constructor|cbn; lia]|].
  case_bool_decide as Hs; [split; [constructor|cbn; lia]|].
  destruct (readMsgLen _ _) as [n|] eqn:E; [|split; [constructor|cbn; lia]].
  case_bool_decide as Hn; [split; [constructor|cbn; lia]|]. destruct (IH (drop (Z.to_nat n) (drop IntLen stream))) as [H1 H2].
  unfold IntLen in *. rewrite !length_drop in H2. rewrite length_drop in Hn. split.
  - constructor; [|done]. unfold fits. rewrite length_take, length_drop. revert E. unfold readMsgLen, DefaultMaxMessageSize.
    case_bool_decide; [done|]. case_bool_decide; [done|]. intros [= <-]. lia.
  - cbn [sum_list_with]. rewrite length_take, length_drop. lia.
Qed.

(** The messages popped from a queue. *)
Definition popped {Msg} (q : qstate (Msg := Msg)) : list Msg := fst <$> filter (λ e, e.2 = true) (q_left q).

Lemma popped_sublist {Msg} (l : list (Msg * bool)) : fst <$> filter (λ e, e.2 = true) l `sublist_of` fst <$> l.
Proof.
  induction l as [|e l IH]; [done|]. rewrite filter_cons. destruct (decide _); cbn; by constructor.
Qed.

(** C24: what is sent arrives, whole and in order.  The handshake and the messages popped from
    a peer's queue, written to the connection, are read on the other side as the same
    messages in the same order, those longer than the limit left out; when the connection
    is cut after any byte, what is read is the messages before the cut; and whatever the
    bytes of a stream are, reading ends, reads no message longer than the limit, and reads
    no more than the bytes that came. *)
Theorem stream_roundtrip bufferSize (q : qstate (Msg := list Z)) {M} (Parse : list Z → option M) port handshake :
  qreach bufferSize q → small (handshake :: popped q) → port ≠ 0%Z →
  let stream := writeMessages (Some port) (Some handshake) (popped q) in
  let arrived := omap Parse (filter fits (handshake :: popped q)) in
  readMessages Parse stream = arrived ∧
  (∀ n, readMessages Parse (take n stream) `prefix_of` arrived) ∧
  popped q `sublist_of` q_sent q ∧
  (∀ bytes, ∃ msgs, readMessages Some bytes = msgs ∧ Forall fits msgs ∧ sum_list_with (λ m, 4 + length m) msgs ≤ length bytes).
Proof.
  intros Hq Hs Hport stream arrived. unfold stream, writeMessages. rewrite bool_decide_eq_false_2 by done.
  change (writeMessage handshake ++ (popped q ≫= writeMessage)) with (stream_of (handshake :: popped q)). split_and!.
  - unfold readMessages. fold (frames (stream_of (handshake :: popped q))). by rewrite frames_stream.
  - intros n. unfold readMessages. fold (frames (take n (stream_of (handshake :: popped q)))).
    destruct (frames_prefix _ n Hs) as [rest E]. exists (omap Parse rest). unfold arrived. by rewrite E, omap_app.
  - pose proof (qi_fifo _ _ (qreach_inv _ _ Hq)) as ->. unfold popped. etrans; [|apply sublist_inserts_r; reflexivity].
    apply popped_sublist.
  - intros bytes. exists (frames bytes). pose proof (read_loop_bound (S (length bytes)) bytes) as [? ?]. split_and!; [|done..].
    unfold readMessages. fold (frames bytes). generalize (frames bytes) as l. induction l as [|x l IH]; [done|]. cbn. by rewrite IH.
Qed.

(** A queue from which two messages are popped; the third stays in it. *)
Definition ex_pops : list (qop (Msg := list Z)) :=
  [QPush 1 [7; 8]; QSelect 1 SelDefault false; QSelect 1 SelQueue false; QPush 1 []; QSelect 1 SelDefault false;
   QSelect 1 SelQueue false; QPush 1 [9]; QSelect 1 SelDefault false; QSelect 1 SelQueue false; QPop; QPopNow]%Z.
Definition ex_popped : qstate := default (NewBlockingMessageQueue 3) (qrun ex_pops (NewBlockingMessageQueue 3)).

Lemma stream_roundtrip_witness :
  let stream := writeMessages (Some 9651%Z) (Some [5%Z]) (popped ex_popped) in
  stream = [0; 0; 0; 1; 5; 0; 0; 0; 2; 7; 8; 0; 0; 0; 0]%Z ∧
  readMessages Some (take 9 stream) = [[5]]%Z ∧
  readMessages Some stream = omap Some (filter fits ([5%Z] :: popped ex_popped)).
Proof.
  split_and!; [vm_compute; reflexivity..|].
  refine (proj1 (stream_roundtrip 3 ex_popped Some 9651 [5%Z] _ _ _)).
  - apply (qrun_reach 3 ex_pops (NewBlockingMessageQueue 3)); [constructor|vm_compute; reflexivity].
  - change (popped ex_popped) with [[7; 8]; []]%Z. repeat constructor; cbn; lia.
  - done.
Defined.
