(* ===== verification/Messages.v ===== *)
(** * Messages between nodes (src/utils/avalanche/message, src/utils/avalanche/compression)

    The opcodes, the builders of outbound messages, and the parser of inbound ones.  The
    generated protobuf code and the zstd library are parameters, with what their
    documentation says as laws.  A message is what the generated type [p2p.Message] holds;
    the metrics are left out. *)

From S2P Require Import Prelude Packer IpTracker SignedIp Peer.

(** ** ops.go *)

Inductive Op :=
| PingOp | PongOp | HandshakeOp | GetPeerListOp | PeerListOp
| GetStateSummaryFrontierOp | GetStateSummaryFrontierFailedOp | StateSummaryFrontierOp
| GetAcceptedStateSummaryOp | GetAcceptedStateSummaryFailedOp | AcceptedStateSummaryOp
| GetAcceptedFrontierOp | GetAcceptedFrontierFailedOp | AcceptedFrontierOp
| GetAcceptedOp | GetAcceptedFailedOp | AcceptedOp
| GetAncestorsOp | GetAncestorsFailedOp | AncestorsOp
| GetOp | GetFailedOp | PutOp | PushQueryOp | PullQueryOp | QueryFailedOp | ChitsOp
| AppRequestOp | AppErrorOp | AppResponseOp | AppGossipOp
| ConnectedOp | DisconnectedOp | NotifyOp | GossipRequestOp.

#[export] Instance Op_eq : EqDecision Op.
Proof. solve_decision. Defined.

Definition HandshakeOps : list Op := [PingOp; PongOp; HandshakeOp; GetPeerListOp; PeerListOp].
Definition ConsensusRequestOps : list Op :=
  [GetStateSummaryFrontierOp; GetAcceptedStateSummaryOp; GetAcceptedFrontierOp; GetAcceptedOp; GetAncestorsOp; GetOp;
   PushQueryOp; PullQueryOp; AppRequestOp].
Definition ConsensusResponseOps : list Op :=
  [StateSummaryFrontierOp; AcceptedStateSummaryOp; AcceptedFrontierOp; AcceptedOp; AncestorsOp; PutOp; ChitsOp;
   AppResponseOp; AppErrorOp].
Definition ConsensusExternalOps : list Op := ConsensusRequestOps ++ ConsensusResponseOps ++ [AppGossipOp].
Definition ConsensusInternalOps : list Op :=
  [GetStateSummaryFrontierFailedOp; GetAcceptedStateSummaryFailedOp; GetAcceptedFrontierFailedOp; GetAcceptedFailedOp;
   GetAncestorsFailedOp; GetFailedOp; QueryFailedOp; ConnectedOp; DisconnectedOp; NotifyOp; GossipRequestOp].
Definition ConsensusOps : list Op := ConsensusExternalOps ++ ConsensusInternalOps.
Definition ExternalOps : list Op := ConsensusExternalOps ++ HandshakeOps.
Definition SynchronousOps : list Op :=
  [GetStateSummaryFrontierOp; GetStateSummaryFrontierFailedOp; StateSummaryFrontierOp; GetAcceptedStateSummaryOp;
   GetAcceptedStateSummaryFailedOp; AcceptedStateSummaryOp; GetAcceptedFrontierOp; GetAcceptedFrontierFailedOp; AcceptedFrontierOp;
   GetAcceptedOp; GetAcceptedFailedOp; AcceptedOp; GetAncestorsOp; GetAncestorsFailedOp; AncestorsOp; GetOp; GetFailedOp; PutOp;
   PushQueryOp; PullQueryOp; QueryFailedOp; ChitsOp; ConnectedOp; DisconnectedOp].
Definition AsynchronousOps : list Op := [AppRequestOp; AppErrorOp; AppGossipOp; AppResponseOp].

Definition FailedToResponseOps (op : Op) : option Op :=
  match op with
  | GetStateSummaryFrontierFailedOp => Some StateSummaryFrontierOp
  | GetAcceptedStateSummaryFailedOp => Some AcceptedStateSummaryOp
  | GetAcceptedFrontierFailedOp => Some AcceptedFrontierOp
  | GetAcceptedFailedOp => Some AcceptedOp
  | GetAncestorsFailedOp => Some AncestorsOp
  | GetFailedOp => Some PutOp
  | QueryFailedOp => Some ChitsOp
  | AppErrorOp => Some AppResponseOp
  | _ => None
  end.

Definition op_String (op : Op) : string :=
  match op with
  | PingOp => "ping"
  | PongOp => "pong"
  | HandshakeOp => "handshake"
  | GetPeerListOp => "get_peerlist"
  | PeerListOp => "peerlist"
  | GetStateSummaryFrontierOp => "get_state_summary_frontier"
  | GetStateSummaryFrontierFailedOp => "get_state_summary_frontier_failed"
  | StateSummaryFrontierOp => "state_summary_frontier"
  | GetAcceptedStateSummaryOp => "get_accepted_state_summary"
  | GetAcceptedStateSummaryFailedOp => "get_accepted_state_summary_failed"
  | AcceptedStateSummaryOp => "accepted_state_summary"
  | GetAcceptedFrontierOp => "get_accepted_frontier"
  | GetAcceptedFrontierFailedOp => "get_accepted_frontier_failed"
  | AcceptedFrontierOp => "accepted_frontier"
  | GetAcceptedOp => "get_accepted"
  | GetAcceptedFailedOp => "get_accepted_failed"
  | AcceptedOp => "accepted"
  | GetAncestorsOp => "get_ancestors"
  | GetAncestorsFailedOp => "get_ancestors_failed"
  | AncestorsOp => "ancestors"
  | GetOp => "get"
  | GetFailedOp => "get_failed"
  | PutOp => "put"
  | PushQueryOp => "push_query"
  | PullQueryOp => "pull_query"
  | QueryFailedOp => "query_failed"
  | ChitsOp => "chits"
  | AppRequestOp => "app_request"
  | AppErrorOp => "app_error"
  | AppResponseOp => "app_response"
  | AppGossipOp => "app_gossip"
  | ConnectedOp => "connected"
  | DisconnectedOp => "disconnected"
  | NotifyOp => "notify"
  | GossipRequestOp => "gossip_request"
  end.

(** Every opcode is in one of the lists, once, and has a name of its own. *)
Lemma ops_listed : NoDup (ConsensusOps ++ HandshakeOps) ∧ ∀ op, op ∈ ConsensusOps ++ HandshakeOps.
Proof.
  split; [apply (bool_decide_unpack _); vm_compute; done|]. intros op. apply (bool_decide_unpack _). by destruct op.
Qed.

Lemma op_String_inj op op' : op_String op = op_String op' → op = op'.
Proof. destruct op, op'; done. Qed.

(** ** The generated types (package p2p) *)

Record AppRequestMsg := mkAppRequest { ar_ChainId : list Z; ar_RequestId : Z; ar_Deadline : Z; ar_AppBytes : list Z }.
Record AppResponseMsg := mkAppResponse { ap_ChainId : list Z; ap_RequestId : Z; ap_AppBytes : list Z }.
Record AppErrorMsg := mkAppError { ae_ChainId : list Z; ae_RequestId : Z; ae_ErrorCode : Z; ae_ErrorMessage : list Z }.
Record AppGossipMsg := mkAppGossip { ag_ChainId : list Z; ag_AppBytes : list Z }.

(** The messages [Unwrap] returns; a handshake has two lists of ACPs besides the fields the
    peer reads, a claimed IP a transaction ID. *)
Inductive unwrapped :=
| UPing (uptime : Z)
| UPong
| UHandshake (m : HandshakeMsg) (supportedACPs objectedACPs : list Z)
| UGetPeerList (known : option BloomFilterMsg) (allSubnets : bool)
| UPeerList (l : list (ClaimedIpPortMsg * list Z))
| UAppRequest (m : AppRequestMsg)
| UAppResponse (m : AppResponseMsg)
| UAppError (m : AppErrorMsg).

(** [p2p.Message]: the consensus messages, which are not built here, are [MConsensus]. *)
Inductive Message :=
| MUnwrapped (m : unwrapped)
| MAppGossip (m : AppGossipMsg)
| MCompressedZstd (b : list Z)
| MConsensus (field : Z) (b : list Z)
| MNone.

Inductive msg_err := errUnknownMessageType | errUnknownCompressionType | ErrMsgTooLarge | ErrDecompressedMsgTooLarge | MLib (e : string).

Definition Unwrap (m : Message) : result msg_err unwrapped :=
  match m with MUnwrapped u => Ok u | _ => Prelude.Err errUnknownMessageType end.

Definition unwrapped_op (u : unwrapped) : Op :=
  match u with
  | UPing _ => PingOp
  | UPong => PongOp
  | UHandshake _ _ _ => HandshakeOp
  | UGetPeerList _ _ => GetPeerListOp
  | UPeerList _ => PeerListOp
  | UAppRequest _ => AppRequestOp
  | UAppResponse _ => AppResponseOp
  | UAppError _ => AppErrorOp
  end.

Definition ToOp (m : Message) : result msg_err Op :=
  match m with
  | MUnwrapped u => Ok (unwrapped_op u)
  | MAppGossip _ => Ok AppGossipOp
  | _ => Prelude.Err errUnknownMessageType
  end.

(** ** compression *)

Inductive compressionType := TypeNone | TypeZstd | TypeOther (t : Z).

Definition type_String (t : compressionType) : string :=
  match t with TypeNone => "none" | TypeZstd => "zstd" | TypeOther _ => "unknown" end.

(** The type and whether there is an error. *)
Definition TypeFromString (s : string) : compressionType * bool :=
  if bool_decide (s = type_String TypeNone) then (TypeNone, false)
  else if bool_decide (s = type_String TypeZstd) then (TypeZstd, false)
  else (TypeNone, true).

(** github.com/DataDog/zstd: what [Compress] returns, and what [io.ReadAll] returns for the
    first bytes, as many as the limit, of the decompressed stream. *)
Class Zstd := {
  zstd_Compress : list Z → result string (list Z);
  zstd_ReadAll : list Z → Z → result string (list Z);
}.
Class ZstdLaws `{!Zstd} : Prop := {
  zstd_frame : ∀ b c, zstd_Compress b = Ok c → c ≠ [];
  zstd_roundtrip : ∀ b c n, zstd_Compress b = Ok c → (Z.of_nat (length b) ≤ n)%Z → zstd_ReadAll c n = Ok b;
  zstd_limit : ∀ c n d, (0 ≤ n)%Z → zstd_ReadAll c n = Ok d → (Z.of_nat (length d) ≤ n)%Z;
}.

(** google.golang.org/protobuf over the generated types. *)
Class Proto := {
  proto_Marshal : Message → result string (list Z);
  proto_Unmarshal : list Z → result string Message;
}.
Class ProtoLaws `{!Proto} : Prop := {
  proto_roundtrip : ∀ m b, proto_Marshal m = Ok b → proto_Unmarshal b = Ok m;
}.

Definition MaxMessageSize : Z := 2 * 1024 * 1024.

Definition lib {A} (r : result string A) : result msg_err A :=
  match r with Ok a => Ok a | Prelude.Err e => Prelude.Err (MLib e) end.

(** [None] is [ErrInvalidMaxSizeCompressor]. *)
Definition NewZstdCompressor (maxSize : Z) : option Z := if bool_decide (maxSize = 2 ^ 63 - 1)%Z then None else Some maxSize.

Definition Compress `{!Zstd} (maxSize : Z) (msg : list Z) : result msg_err (list Z) :=
  if bool_decide (maxSize < Z.of_nat (length msg))%Z then Prelude.Err ErrMsgTooLarge else lib (zstd_Compress msg).

Definition Decompress `{!Zstd} (maxSize : Z) (msg : list Z) : result msg_err (list Z) :=
  decompressed ← lib (zstd_ReadAll msg (wrapS 64 (maxSize + 1)));
  if bool_decide (maxSize < Z.of_nat (length decompressed))%Z then Prelude.Err ErrDecompressedMsgTooLarge else Ok decompressed.

(** ** messages.go *)

Record outboundMessage := mkOutbound { om_bypassThrottling : bool; om_op : Op; om_bytes : list Z; om_bytesSaved : Z }.

(** The expiration [None] is [mockable.MaxTime]. *)
Record inboundMessage := mkInbound { im_nodeID : list Z; im_op : Op; im_message : unwrapped; im_expiration : option Z; im_bytesSaved : Z }.

Section builder.
Context `{!Proto, !Zstd}.

Definition marshal (m : Message) (t : compressionType) : result msg_err (list Z * Z * Op) :=
  uncompressedMsgBytes ← lib (proto_Marshal m);
  op ← ToOp m;
  match t with
  | TypeNone => Ok (uncompressedMsgBytes, 0%Z, op)
  | TypeZstd =>
      compressedBytes ← Compress MaxMessageSize uncompressedMsgBytes;
      compressedMsgBytes ← lib (proto_Marshal (MCompressedZstd compressedBytes));
      Ok (compressedMsgBytes, Z.of_nat (length uncompressedMsgBytes) - Z.of_nat (length compressedMsgBytes), op)%Z
  | TypeOther _ => Prelude.Err errUnknownCompressionType
  end.

Definition GetCompressedZstd (m : Message) : list Z := match m with MCompressedZstd b => b | _ => [] end.

Definition unmarshal (b : list Z) : result msg_err (Message * Z * Op) :=
  m ← lib (proto_Unmarshal b);
  let zstdCompressed := GetCompressedZstd m in
  if bool_decide (0 < length zstdCompressed) then
    decompressed ← Decompress MaxMessageSize zstdCompressed;
    m ← lib (proto_Unmarshal decompressed);
    op ← ToOp m;
    Ok (m, Z.of_nat (length decompressed) - Z.of_nat (length zstdCompressed), op)%Z
  else op ← ToOp m; Ok (m, 0%Z, op).

Definition createOutbound (m : Message) (t : compressionType) (bypassThrottling : bool) : result msg_err outboundMessage :=
  '(b, saved, op) ← marshal m t; Ok (mkOutbound bypassThrottling op b saved).

(** fields.go: of the messages that are unwrapped only requests have a deadline. *)
Definition GetDeadline (u : unwrapped) : option Z :=
  match u with UAppRequest m => Some (wrapS 64 (ar_Deadline m)) | _ => None end.

Definition parseInbound (maxMessageTimeout : Z) (bytes nodeID : list Z) (now : Z) : result msg_err inboundMessage :=
  '(m, bytesSaved, op) ← unmarshal bytes;
  msg ← Unwrap m;
  Ok (mkInbound nodeID op msg ((λ deadline, now + Z.min deadline maxMessageTimeout)%Z <$> GetDeadline msg) bytesSaved).

(** ** outbound_msg_builder.go; [t] is the builder's compression *)

Variable t : compressionType.

Definition build_Ping (primaryUptime : Z) : result msg_err outboundMessage :=
  createOutbound (MUnwrapped (UPing primaryUptime)) TypeNone false.
Definition build_Pong : result msg_err outboundMessage := createOutbound (MUnwrapped UPong) TypeNone false.

Definition build_Handshake (networkID myTime : Z) (ip : list Z * Z) (client : list Z) (major minor patch ipSigningTime : Z)
    (ipNodeIDSig ipBLSSig : list Z) (trackedSubnets : list (list Z)) (supportedACPs objectedACPs : list Z)
    (knownPeersFilter knownPeersSalt : list Z) (requestAllSubnetIPs : bool) : result msg_err outboundMessage :=
  createOutbound
    (MUnwrapped (UHandshake
      (mkHandshake networkID myTime (As16 ip.1) ip.2 ipSigningTime ipNodeIDSig trackedSubnets
         (Some (mkClientMsg client major minor patch)) (Some (mkBloomFilterMsg knownPeersFilter knownPeersSalt)) ipBLSSig
         requestAllSubnetIPs)
      supportedACPs objectedACPs))
    TypeNone true.

Definition build_GetPeerList (knownPeersFilter knownPeersSalt : list Z) (requestAllSubnetIPs : bool) : result msg_err outboundMessage :=
  createOutbound (MUnwrapped (UGetPeerList (Some (mkBloomFilterMsg knownPeersFilter knownPeersSalt)) requestAllSubnetIPs)) t false.

Definition claimedIpPort (p : ClaimedIPPort) : ClaimedIpPortMsg * list Z :=
  (mkClaimedMsg (ip_Cert p) (As16 (ip_AddrPort p).1) (ip_AddrPort p).2 (ip_Timestamp p) (ip_Signature p), replicate 32 0%Z).
Definition build_PeerList (peers : list ClaimedIPPort) (bypassThrottling : bool) : result msg_err outboundMessage :=
  createOutbound (MUnwrapped (UPeerList (claimedIpPort <$> peers))) t bypassThrottling.

Definition build_AppRequest (chainID : list Z) (requestID deadline : Z) (msg : list Z) : result msg_err outboundMessage :=
  createOutbound (MUnwrapped (UAppRequest (mkAppRequest chainID requestID (wrapU 64 deadline) msg))) t false.
Definition build_AppResponse (chainID : list Z) (requestID : Z) (msg : list Z) : result msg_err outboundMessage :=
  createOutbound (MUnwrapped (UAppResponse (mkAppResponse chainID requestID msg))) t false.
Definition build_AppError (chainID : list Z) (requestID errorCode : Z) (errorMessage : list Z) : result msg_err outboundMessage :=
  createOutbound (MUnwrapped (UAppError (mkAppError chainID requestID errorCode errorMessage))) t false.
Definition build_AppGossip (chainID msg : list Z) : result msg_err outboundMessage :=
  createOutbound (MAppGossip (mkAppGossip chainID msg)) t false.

(** ** inbound_msg_builder.go: messages the node makes for itself *)

Definition InboundAppRequest (chainID : list Z) (requestID deadline : Z) (msg nodeID : list Z) (now : Z) : inboundMessage :=
  mkInbound nodeID AppRequestOp (UAppRequest (mkAppRequest chainID requestID (wrapU 64 deadline) msg)) (Some (now + deadline)%Z) 0.
Definition InboundAppError (nodeID chainID : list Z) (requestID errorCode : Z) (errorMessage : list Z) : inboundMessage :=
  mkInbound nodeID AppErrorOp (UAppError (mkAppError chainID requestID errorCode errorMessage)) None 0.
Definition InboundAppResponse (chainID : list Z) (requestID : Z) (msg nodeID : list Z) : inboundMessage :=
  mkInbound nodeID AppResponseOp (UAppResponse (mkAppResponse chainID requestID msg)) None 0.
End builder.

(** ** What is sent is what is received *)

Section roundtrip.
Context `{!Proto, !Zstd, !ProtoLaws, !ZstdLaws}.

Lemma lib_Ok {A} (r : result string A) a : lib r = Ok a → r = Ok a.
Proof. destruct r; [by intros [= ->]|done]. Qed.

Lemma ToOp_compressed b : ToOp (MCompressedZstd b) = Prelude.Err errUnknownMessageType.
Proof. done. Qed.

Lemma Decompress_Compress maxSize b c : (0 ≤ maxSize < 2 ^ 62)%Z → Compress maxSize b = Ok c → c ≠ [] ∧ Decompress maxSize c = Ok b.
Proof.
  intros Hm. unfold Compress, Decompress. case_bool_decide as Hl; [done|]. intros Hc%lib_Ok. split; [by eapply zstd_frame|].
  rewrite (wrapS_id 64) by (unfold inS; lia). rewrite (zstd_roundtrip b c) by (done || lia). cbn. by rewrite bool_decide_eq_false_2.
Qed.

(** What [marshal] makes of a message with an opcode, [unmarshal] reads as that message. *)
Lemma unmarshal_marshal m t b saved op : marshal m t = Ok (b, saved, op) →
  ToOp m = Ok op ∧ ∃ saved', unmarshal b = Ok (m, saved', op).
Proof.
  unfold marshal. destruct (proto_Marshal m) as [u|] eqn:Em; [|done]. cbn. destruct (ToOp m) as [op'|] eqn:Eo; [|done]. cbn.
  pose proof (proto_roundtrip _ _ Em) as Hu. destruct t as [| |x]; [| |done].
  - intros [= <- <- <-]. split; [done|]. exists 0%Z. unfold unmarshal. rewrite Hu. cbn.
    rewrite bool_decide_eq_false_2; [by rewrite Eo|]. destruct m; cbn; try lia. by rewrite ToOp_compressed in Eo.
  - destruct (Compress MaxMessageSize u) as [c|] eqn:Ec; [|done]. cbn. destruct (proto_Marshal (MCompressedZstd c)) as [cb|] eqn:Ecm; [|done].
    cbn. intros [= <- <- <-]. split; [done|]. destruct (Decompress_Compress MaxMessageSize _ _ ltac:(done) Ec) as [Hne Hd].
    unfold unmarshal. rewrite (proto_roundtrip _ _ Ecm). cbn. rewrite bool_decide_eq_true_2 by (destruct c; [done|cbn; lia]).
    rewrite Hd. cbn. rewrite Hu. cbn. rewrite Eo. cbn. eauto.
Qed.

(** C25: what one node builds another one reads.  Whatever the compression, the bytes of an
    outbound message are parsed as the same message, from the node it came from, with the
    opcode it was built with and, for a request, the deadline of the sender or the node's
    own limit; nothing that is built is read as something else, and no message makes the
    reader decompress more than the limit.  The exception is gossip: a gossip message that
    is built has an opcode, but is refused by the parser as of unknown type. *)
Theorem messages_roundtrip m t bypass out : createOutbound m t bypass = Ok out →
  om_bypassThrottling out = bypass ∧ ToOp m = Ok (om_op out) ∧
  (∀ maxTimeout nodeID now, match m with
   | MUnwrapped u => ∃ saved, parseInbound maxTimeout (om_bytes out) nodeID now =
       Ok (mkInbound nodeID (om_op out) u ((λ d, now + Z.min d maxTimeout)%Z <$> GetDeadline u) saved)
   | MAppGossip _ => parseInbound maxTimeout (om_bytes out) nodeID now = Prelude.Err errUnknownMessageType
   | _ => False
   end) ∧
  (∀ c d, Decompress MaxMessageSize c = Ok d → (Z.of_nat (length d) ≤ MaxMessageSize)%Z).
Proof.
  unfold createOutbound. destruct (marshal m t) as [[[b saved] op]|] eqn:Em; [|done]. cbn. intros [= <-].
  destruct (unmarshal_marshal _ _ _ _ _ Em) as [Ho [saved' Hu]]. cbn. split_and!; [done|done| |].
  - intros maxTimeout nodeID now. unfold parseInbound. rewrite Hu. cbn. destruct m; cbn; try done. eauto.
  - intros c d. unfold Decompress. destruct (lib _) as [d'|]; [|done]. cbn. case_bool_decide; [done|]. intros [= <-]. lia.
Qed.

(** The deadline a request is built with is the one the receiver reads. *)
Lemma request_deadline t chainID requestID deadline msg out maxTimeout nodeID now : inS 64 deadline →
  build_AppRequest t chainID requestID deadline msg = Ok out →
  ∃ im, parseInbound maxTimeout (om_bytes out) nodeID now = Ok im ∧ im_expiration im = Some (now + Z.min deadline maxTimeout)%Z.
Proof.
  intros Hd. unfold build_AppRequest, createOutbound.
  destruct (marshal _ t) as [[[b saved] op]|] eqn:Em; [|done]. cbn. intros [= <-]. cbn.
  destruct (unmarshal_marshal _ _ _ _ _ Em) as [Ho [saved' Hu]]. unfold parseInbound. rewrite Hu. cbn. eexists. split; [done|]. cbn.
  do 3 f_equal. unfold inS in Hd. unfold wrapS, wrapU. rewrite Z.mod_mod by lia. pose proof (wrapS_id 64 deadline ltac:(lia) Hd) as E. exact E.
Qed.
End roundtrip.

(** ** Gossiped IPs *)

Section peerlist.
Context `{!Proto, !Zstd, !ProtoLaws, !ZstdLaws}.
Variable sha256 ripemd160 : list Z → list Z.
Variable grow : nat → nat.
Variable ParseCertificate : list Z → bool.

(** A claimed IP that a node made from a certificate, an address and a port. *)
Definition claimed_ok (p : ClaimedIPPort) : Prop :=
  ParseCertificate (ip_Cert p) = true ∧ addr_ok (ip_AddrPort p).1 ∧ (0 < (ip_AddrPort p).2 < 2 ^ 16)%Z ∧
  NewClaimedIPPort sha256 ripemd160 grow (ip_Cert p) (ip_AddrPort p) (ip_Timestamp p) (ip_Signature p) = Some p.

Lemma AddrFromSlice_As16 a : addr_ok a → AddrFromSlice (As16 a) = Some a.
Proof.
  intros Ha. pose proof (As16_length a Ha) as Hl. unfold AddrFromSlice, netip_AddrFromSlice. rewrite Hl.
  rewrite (bool_decide_eq_true_2 (16 = 16)%nat), orb_true_r by done. cbn [mbind option_bind]. destruct Ha as [_ Ha]. unfold As16, Is4 in *.
  case_bool_decide as H4.
  - assert (Is4In6 (mapped_prefix ++ a) = true) as E.
    { unfold Is4In6. rewrite bool_decide_eq_true_2 by (rewrite length_app, H4; done). by rewrite bool_decide_eq_true_2. }
    unfold Unmap. by rewrite E.
  - destruct Ha as [|[_ E]]; [done|]. by rewrite E.
Qed.

Lemma discover_claimed peers : Forall claimed_ok peers →
  discover sha256 ripemd160 grow ParseCertificate (fst <$> (claimedIpPort <$> peers)) = Some (Some peers).
Proof.
  induction 1 as [|p peers (Hc & Ha & Hp & Hn) _ IH]; [done|]. cbn. rewrite Hc. cbn. rewrite AddrFromSlice_As16 by done.
  rewrite (wrapU_id 16) by (unfold inU; lia). rewrite bool_decide_eq_false_2 by lia. rewrite <-surjective_pairing, Hn. cbn. by rewrite IH.
Qed.

(** C27: the IPs a node gossips are the IPs its peer tracks.  A peer list built from claimed
    IPs, sent with any compression, is parsed by the peer and, once the handshake is
    finished, its handler hands exactly these IPs, in order, to the network to be tracked. *)
Theorem gossiped_ips_arrive {Sig Out App} (p : peer (Sig := Sig)) t bypass peers out maxTimeout nodeID now :
  Forall claimed_ok peers → finishedHandshake p = true → build_PeerList t peers bypass = Ok out →
  ∃ im l, parseInbound maxTimeout (om_bytes out) nodeID now = Ok im ∧ im_message im = UPeerList l ∧
    handlePeerList (Out := Out) (App := App) sha256 ripemd160 grow ParseCertificate (fst <$> l) p = Some (p, [ATrack peers]).
Proof.
  intros Hp Hf. unfold build_PeerList, createOutbound.
  destruct (marshal _ t) as [[[b saved] op]|] eqn:Em; [|done]. cbn. intros [= <-]. cbn.
  destruct (unmarshal_marshal _ _ _ _ _ Em) as [Ho [saved' Hu]]. unfold parseInbound. rewrite Hu. cbn. eexists _, _. split; [done|]. split; [done|].
  unfold handlePeerList. rewrite Hf. cbn [negb andb]. rewrite discover_claimed by done. done.
Qed.
End peerlist.

(** ** Examples *)

#[local] Instance ClaimedIpPortMsg_eq : EqDecision ClaimedIpPortMsg.
Proof. solve_decision. Defined.

Definition ex_hash (n : nat) (l : list Z) : list Z := replicate n (Z.of_nat (length l)).
Definition ex_claimed : ClaimedIPPort :=
  default (mkClaimed [] ([], 0%Z) 0 [] [] [])
    (NewClaimedIPPort (ex_hash 32) (ex_hash 20) (λ n, 2 * n) [7; 7]%Z ([1; 2; 3; 4], 9651)%Z 5 [8]%Z).

(** A protobuf that knows a few messages, and a compression that adds a byte. *)
#[local] Instance ex_proto : Proto := {|
  proto_Marshal m :=
    match m with
    | MUnwrapped UPong => Ok [0%Z]
    | MUnwrapped (UPeerList l) => if bool_decide (l = [claimedIpPort ex_claimed]) then Ok [1%Z] else Prelude.Err "unknown"
    | MCompressedZstd c => Ok (2%Z :: c)
    | MAppGossip (mkAppGossip [] b) => Ok (3%Z :: b)
    | _ => Prelude.Err "unknown"
    end;
  proto_Unmarshal b :=
    match b with
    | [0%Z] => Ok (MUnwrapped UPong)
    | [1%Z] => Ok (MUnwrapped (UPeerList [claimedIpPort ex_claimed]))
    | 2%Z :: c => Ok (MCompressedZstd c)
    | 3%Z :: b => Ok (MAppGossip (mkAppGossip [] b))
    | _ => Prelude.Err "malformed"
    end;
|}.

#[local] Instance ex_proto_laws : ProtoLaws.
Proof.
  split. intros m b. destruct m as [u|[chain gb]|c|f fb|]; cbn; try done.
  - destruct u; try done; [by intros [= <-]|]. case_bool_decide; [|done]. intros [= <-]. by subst.
  - destruct chain; [|done]. by intros [= <-].
  - by intros [= <-].
Qed.

#[local] Instance ex_zstd : Zstd := {|
  zstd_Compress b := Ok (40%Z :: b);
  zstd_ReadAll c n := match c with 40%Z :: b => Ok (take (Z.to_nat n) b) | _ => Prelude.Err "malformed" end;
|}.

#[local] Instance ex_zstd_laws : ZstdLaws.
Proof.
  split; cbn.
  - by intros b c [= <-].
  - intros b c n [= <-] Hn. by rewrite take_ge by lia.
  - intros c n d Hn. destruct c as [|z c]; [done|]. destruct (decide (z = 40%Z)) as [->|].
    + intros [= <-]. rewrite length_take. lia.
    + do 7 (destruct z as [|z|z]; try done).
Qed.

Lemma messages_roundtrip_witness :
  let gossip := createOutbound (MAppGossip (mkAppGossip [] [5%Z])) TypeZstd false in
  gossip = Ok (mkOutbound false AppGossipOp [2; 40; 3; 5]%Z (-2)) ∧
  parseInbound 10 [2; 40; 3; 5]%Z [9]%Z 100 = Prelude.Err errUnknownMessageType ∧
  ∃ saved, parseInbound 10 [2; 40; 0]%Z [9]%Z 100 = Ok (mkInbound [9]%Z PongOp UPong None saved).
Proof.
  split_and!; [vm_compute; reflexivity..|].
  exact (proj1 (proj2 (proj2 (messages_roundtrip (MUnwrapped UPong) TypeZstd false (mkOutbound false PongOp [2; 40; 0]%Z (-2)) eq_refl))) 10%Z [9]%Z 100%Z).
Defined.

Lemma gossiped_ips_arrive_witness :
  ∃ im l, parseInbound 10 [2; 40; 1]%Z [9]%Z 100 = Ok im ∧ im_message im = UPeerList l ∧
    handlePeerList (Out := ()) (App := ()) (ex_hash 32) (ex_hash 20) (λ n, 2 * n) (λ _, true) (fst <$> l)
      (set_finished (new_peer (Sig := ()) [9]%Z [])) =
    Some (set_finished (new_peer [9]%Z []), [ATrack [ex_claimed]]).
Proof.
  apply (gossiped_ips_arrive (ex_hash 32) (ex_hash 20) (λ n, 2 * n) (λ _, true) (set_finished (new_peer [9]%Z []))
    TypeZstd false [ex_claimed] (mkOutbound false PeerListOp [2; 40; 1]%Z (-2)));
    [|reflexivity|vm_compute; reflexivity].
  constructor; [|constructor]. split_and!; [reflexivity| | | |vm_compute; reflexivity].
  - split; [repeat constructor; vm_compute; try discriminate|by left].
  - vm_compute. reflexivity.
  - vm_compute. reflexivity.
Defined.
