(* ===== verification/Network.v ===== *)
(** * The peer-to-peer network

    [network] (src/utils/avalanche/network/network.go) and [trackedIP] (tracked_ip.go): which
    nodes are being dialed, connecting or connected, and what the router and the IP tracker
    are told of them.

    The system runs concurrently: a goroutine per dial, per upgrade of a connection and per
    peer.  A step is a region under [peersLock], a call of the IP tracker (which has its own
    lock) or a call of the router.  The IP tracker is that of IpTracker.v; it also changes
    between the steps, by the calls of the validator manager.  Peers handle their messages as
    in Peer.v: a handler gives a list of actions, which the reader of the peer then takes one
    by one, between the steps of the others.  Any of its goroutines can call [StartClose] of
    the peer at any time (the sender does when [sendPing] says so); its reader stops between
    two messages, and the last of the goroutines then calls [Disconnected].

    [None] is a panic.  What the clock, the validator manager and the connections give is an
    argument of the steps. *)

From S2P Require Import Prelude SafeMath Sampler DrawLoop IndexedList Bloom IpTracker PeerSet Float64 Version SignedIp Peer.

(** ** Tracked IPs: objects with a delay and a channel that is closed once *)

Record trackedIP := mkTrackedIP {
  delay : Z;
  tip_ip : list Z * Z;
  stopped : bool;          (** [onStopTracking] is closed *)
}.
Definition newTrackedIP (ip : list Z * Z) : trackedIP := mkTrackedIP 0 ip false.
Definition stopTracking (t : trackedIP) : trackedIP := mkTrackedIP (delay t) (tip_ip t) true.
Definition set_delay (d : Z) (t : trackedIP) : trackedIP := mkTrackedIP d (tip_ip t) (stopped t).

(** [r1] and [r2] are the results of the two calls of [random.Float64]; [None] when the
    conversion of the float to an integer is not defined. *)
Definition increaseDelay (initialDelay maxDelay : Z) (r1 r2 : float64) (d : Z) : option Z :=
  let d := if bool_decide (d ≤ 0)%Z then initialDelay else d in
  d ← f64_trunc (f64_mul (f64_of_Z d) (f64_add (f64_of_Z 1) r1));
  if bool_decide (maxDelay < d)%Z
  then f64_trunc (f64_div (f64_mul (f64_of_Z maxDelay) (f64_add (f64_of_Z 3) r2)) (f64_of_Z 4))
  else Some d.

(** A reference to a peer, as the sets of peers keep them. *)
Record pref := mkPref { pr_ref : nat; pr_id : list Z }.

(** Whose step it is: a peer goes on with what it has to do or ends; its reader takes the next
    message; anything else. *)
Inductive actor := ByPeer (j : nat) | ByReader (j : nat) | ByOther.
#[export] Instance actor_eq_dec : EqDecision actor.
Proof. solve_decision. Defined.

(** Where a peer is, for the proofs: no step depends on it. *)
Inductive phase := Connecting | Moved | Known | Up | Leaving | Left | Gone.
#[export] Instance phase_eq_dec : EqDecision phase.
Proof. solve_decision. Defined.

Section network.
Context {K Sig Out App : Type}.
Variable sha256 ripemd160 : list Z → list Z.
Variable grow : nat → nat.
Variable ParseCertificate : list Z → bool.
Variable CheckSignature : list Z → list Z → list Z → bool.
Variable SignatureFromBytes : list Z → option Sig.
Variable VerifyProofOfPossession : K → Sig → list Z → bool.
(** Of the IP tracker. *)
Variable rnd : nat → Z → option (list Z).
Variable optimal : Z → Z * Z.
Variable estimate : Z → Z → Z.

(** ** The state *)

(** What a peer has to do before it reads its next message; the last five are the parts of
    [network.Disconnected]. *)
Inductive micro :=
| MConnected                                        (** [Connected], under [peersLock] *)
| MTracker (q : nat)                                (** [ipTracker.Connected], with the peer of the set *)
| MRouter (v : option Application) (s : list Z)     (** [router.Connected] *)
| MTrack (all : bool) (l : list ClaimedIPPort)      (** the rest of the loop of [Track] *)
| MTrackLocked (ip : ClaimedIPPort) (all : bool) (l : list ClaimedIPPort)
| MInbound (m : App)
| MClose
| MRead
| MFromConnecting
| MDTracker
| MDRouter
| MDRemove.

Record pobj := mkPobj {
  po_peer : peer (Sig := Sig);
  po_closing : bool;
  po_left : bool;              (** its goroutines have ended *)
  po_todo : list micro;
  po_phase : phase;
}.

Inductive revent :=
| RConnected (n : list Z) (v : option Application) (s : list Z)
| RDisconnected (n : list Z)
| RInbound (n : list Z) (m : App).

Inductive nthread :=
| DSelect (n : list Z) (r : nat)        (** [dial], before the select *)
| DDelay (n : list Z) (r : nat)         (** before [increaseDelay] *)
| DDial (n : list Z) (r : nat)          (** before [Dial] *)
| ULock (n cert : list Z) (dialed : option (list Z * nat))   (** [upgrade], before [peersLock] *)
| MTLock (n : list Z) (ip : list Z * Z) (** [ManuallyTrack], before [peersLock] *)
| Exited.

Abbreviation pset := (peerSet (Peer := pref)).

Record netst := mkNet {
  trackedIPs : gmap (list Z) nat;
  ips : list trackedIP;
  connectingPeers : pset;
  connectedPeers : pset;
  closing : bool;
  objs : list pobj;
  nthreads : list nthread;
  trace : list revent;
  (** The tracked IPs whose goroutine ended with a connection that was not used. *)
  halted : gset nat;
}.

Definition new_netst : netst := mkNet ∅ [] NewSet NewSet false [] [] [] ∅.

Definition set_trackedIPs (t : gmap (list Z) nat) (s : netst) : netst :=
  mkNet t (ips s) (connectingPeers s) (connectedPeers s) (closing s) (objs s) (nthreads s) (trace s) (halted s).
Definition set_ips (l : list trackedIP) (s : netst) : netst :=
  mkNet (trackedIPs s) l (connectingPeers s) (connectedPeers s) (closing s) (objs s) (nthreads s) (trace s) (halted s).
Definition set_sets (a b : pset) (s : netst) : netst :=
  mkNet (trackedIPs s) (ips s) a b (closing s) (objs s) (nthreads s) (trace s) (halted s).
Definition set_obj (j : nat) (o : pobj) (s : netst) : netst :=
  mkNet (trackedIPs s) (ips s) (connectingPeers s) (connectedPeers s) (closing s) (<[j := o]> (objs s)) (nthreads s) (trace s) (halted s).
Definition add_obj (o : pobj) (s : netst) : netst :=
  mkNet (trackedIPs s) (ips s) (connectingPeers s) (connectedPeers s) (closing s) (objs s ++ [o]) (nthreads s) (trace s) (halted s).
Definition set_nthread (k : nat) (t : nthread) (s : netst) : netst :=
  mkNet (trackedIPs s) (ips s) (connectingPeers s) (connectedPeers s) (closing s) (objs s) (<[k := t]> (nthreads s)) (trace s) (halted s).
Definition add_nthread (t : nthread) (s : netst) : netst :=
  mkNet (trackedIPs s) (ips s) (connectingPeers s) (connectedPeers s) (closing s) (objs s) (nthreads s ++ [t]) (trace s) (halted s).
Definition notify (e : revent) (s : netst) : netst :=
  mkNet (trackedIPs s) (ips s) (connectingPeers s) (connectedPeers s) (closing s) (objs s) (nthreads s) (trace s ++ [e]) (halted s).
Definition halt (r : nat) (s : netst) : netst :=
  mkNet (trackedIPs s) (ips s) (connectingPeers s) (connectedPeers s) (closing s) (objs s) (nthreads s) (trace s) (halted s ∪ {[r]}).

(** ** Regions under [peersLock] *)

Definition stop (r : nat) (s : netst) : netst := set_ips (alter stopTracking r (ips s)) s.
(** Stop tracking [n], if it is tracked. *)
Definition untrack (n : list Z) (s : netst) : netst :=
  match trackedIPs s !! n with
  | Some r => set_trackedIPs (delete n (trackedIPs s)) (stop r s)
  | None => s
  end.
(** A new object, entered for [n], and a goroutine that dials it. *)
Definition track_dial (n : list Z) (t : trackedIP) (s : netst) : netst :=
  let r := length (ips s) in
  add_nthread (DSelect n r) (set_trackedIPs (<[n := r]> (trackedIPs s)) (set_ips (ips s ++ [t]) s)).
(** [tracked.trackNewIP(newIP)] for the object [r] of [n], then as above. *)
Definition trackNewIP_dial (n : list Z) (r : nat) (newIP : trackedIP → list Z * Z) (s : netst) : option netst :=
  t ← ips s !! r;
  Some (track_dial n (mkTrackedIP (delay t) (newIP t) false) (stop r s)).

Definition in_set (n : list Z) (ps : pset) : option bool :=
  p ← GetByID n ps; Some (if p is Some _ then true else false).

Definition net_Connected (n : list Z) (s : netst) : option (option pref * netst) :=
  p ← GetByID n (connectingPeers s);
  match p with
  | None => Some (None, s)
  | Some p =>
      let s := untrack n s in
      a ← peerSet_Remove pr_id n (connectingPeers s);
      b ← peerSet_Add pr_id p (connectedPeers s);
      Some (Some p, set_sets a b s)
  end.

Definition track_locked (ip : ClaimedIPPort) (s : netst) (i : ipTracker) : option (netst * ipTracker) :=
  '(wants, i) ← AddIP sha256 rnd optimal estimate ip i;
  if negb wants then Some (s, i)
  else
    connected ← in_set (ip_NodeID ip) (connectedPeers s);
    if connected : bool then Some (s, i)
    else
      s ← match trackedIPs s !! ip_NodeID ip with
          | Some r => trackNewIP_dial (ip_NodeID ip) r (λ _, ip_AddrPort ip) s
          | None => Some (track_dial (ip_NodeID ip) (newTrackedIP (ip_AddrPort ip)) s)
          end;
      Some (s, i).

Definition ManuallyTrack_locked (n : list Z) (ip : list Z * Z) (s : netst) : option netst :=
  connected ← in_set n (connectedPeers s);
  if connected : bool then Some s
  else match trackedIPs s !! n with
       | Some _ => Some s
       | None => Some (track_dial n (newTrackedIP ip) s)
       end.

Definition disconnectedFromConnecting (n : list Z) (s : netst) (i : ipTracker) : option netst :=
  a ← peerSet_Remove pr_id n (connectingPeers s);
  let s := set_sets a (connectedPeers s) s in
  match trackedIPs s !! n with
  | None => Some s
  | Some r => if WantsConnection n i then trackNewIP_dial n r tip_ip s else Some (untrack n s)
  end.

(** The part of [disconnectedFromConnected] under [peersLock]. *)
Definition disconnectedFromConnected_locked (n : list Z) (s : netst) (i : ipTracker) : option netst :=
  b ← peerSet_Remove pr_id n (connectedPeers s);
  let s := set_sets (connectingPeers s) b s in
  match GetIP n i with
  | (Some ip, true) => Some (track_dial n (newTrackedIP (ip_AddrPort ip)) s)
  | _ => Some s
  end.

(** The check of [dial]; true when the attempt goes on. *)
Definition dial_locked (n : list Z) (s : netst) (i : ipTracker) : option (bool * netst) :=
  if negb (WantsConnection n i) then Some (false, untrack n s)
  else
    connecting ← in_set n (connectingPeers s);
    connected ← in_set n (connectedPeers s);
    Some (negb (connecting || connected), s).

(** The end of [upgrade]. *)
Definition upgrade_locked (n cert : list Z) (s : netst) : option netst :=
  if closing s then Some s
  else
    connecting ← in_set n (connectingPeers s);
    if connecting : bool then Some s
    else
      connected ← in_set n (connectedPeers s);
      if connected : bool then Some s
      else
        a ← peerSet_Add pr_id (mkPref (length (objs s)) n) (connectingPeers s);
        Some (add_obj (mkPobj (new_peer n cert) false false [] Connecting) (set_sets a (connectedPeers s) s)).

Definition close_obj (o : pobj) : pobj := mkPobj (po_peer o) true (po_left o) (po_todo o) (po_phase o).
Definition close_all (l : list pref) (os : list pobj) : list pobj := foldl (λ os p, alter close_obj (pr_ref p) os) os l.

(** [StartClose] under [closeOnce]: a second call does nothing. *)
Definition StartClose (s : netst) : netst :=
  if closing s then s
  else
    mkNet ∅ (foldl (λ l r, alter stopTracking r l) (ips s) (map_to_list (trackedIPs s)).*2)
      (connectingPeers s) (connectedPeers s) true
      (close_all (peersSlice (connectedPeers s)) (close_all (peersSlice (connectingPeers s)) (objs s)))
      (nthreads s) (trace s) (halted s).

(** ** Peers *)

Variable MySubnets : list (list Z).

Definition go (todo : list micro) (o : pobj) : pobj := mkPobj (po_peer o) (po_closing o) (po_left o) todo (po_phase o).
Definition at_phase (ph : phase) (o : pobj) : pobj := mkPobj (po_peer o) (po_closing o) (po_left o) (po_todo o) ph.

(** The next thing of the peer [j], [o], which has [rest] to do afterwards; [maxTimestamp] is
    the clock plus [MaxClockDifference]. *)
Definition exec_micro (maxTimestamp : Z) (j : nat) (o : pobj) (m : micro) (rest : list micro) (s : netst) (i : ipTracker)
    : option (netst * ipTracker) :=
  let n := p_id (po_peer o) in
  match m with
  | MConnected =>
      '(q, s) ← net_Connected n s;
      match q with
      | None => Some (set_obj j (go rest o) s, i)
      | Some q => Some (set_obj j (at_phase Moved (go (MTracker (pr_ref q) :: rest) o)) s, i)
      end
  | MTracker q =>
      o' ← objs s !! q;
      let p := po_peer o' in
      peerIP ← p_ip p;
      newIP ← NewClaimedIPPort sha256 ripemd160 grow (p_cert p) (un_AddrPort (si_UnsignedIP peerIP))
                (un_Timestamp (si_UnsignedIP peerIP)) (TLSSignature peerIP);
      i ← Connected sha256 rnd optimal estimate newIP (p_trackedSubnets p) i;
      let mine := filter (λ s, s ∈ p_trackedSubnets p) MySubnets in
      Some (set_obj j (at_phase Known (go (MRouter (p_version p) PrimaryNetworkID :: (MRouter (p_version p) <$> mine) ++ rest) o)) s, i)
  | MRouter v sub => Some (set_obj j (at_phase Up (go rest o)) (notify (RConnected n v sub) s), i)
  | MTrack all [] => Some (set_obj j (go rest o) s, i)
  | MTrack all (ip :: l) =>
      if negb (ShouldVerifyIP ip all i) then Some (set_obj j (go (MTrack all l :: rest) o) s, i)
      else
        let signedIP := mkSignedIP (Sig := Sig) (mkUnsignedIP (ip_AddrPort ip) (ip_Timestamp ip)) (ip_Signature ip) None [] in
        r ← SignedIP_Verify grow CheckSignature signedIP (ip_Cert ip) maxTimestamp;
        match r with
        | Err _ => Some (set_obj j (go (MClose :: rest) o) s, i)
        | Ok _ => Some (set_obj j (go (MTrackLocked ip all l :: rest) o) s, i)
        end
  | MTrackLocked ip all l =>
      '(s, i) ← track_locked ip s i;
      Some (set_obj j (go (MTrack all l :: rest) o) s, i)
  | MInbound msg => Some (set_obj j (go rest o) (notify (RInbound n msg) s), i)
  | MClose => Some (set_obj j (close_obj (go rest o)) s, i)
  | MRead =>
      connecting ← in_set n (connectingPeers s);
      connected ← in_set n (connectedPeers s);
      Some (set_obj j (go ((if connecting : bool then [MFromConnecting] else []) ++
                           (if connected : bool then [MDTracker; MDRouter; MDRemove] else []) ++ rest) o) s, i)
  | MFromConnecting => s ← disconnectedFromConnecting n s i; Some (set_obj j (at_phase Gone (go rest o)) s, i)
  | MDTracker => i ← Disconnected n i; Some (set_obj j (at_phase Leaving (go rest o)) s, i)
  | MDRouter => Some (set_obj j (at_phase Left (go rest o)) (notify (RDisconnected n) s), i)
  | MDRemove => s ← disconnectedFromConnected_locked n s i; Some (set_obj j (at_phase Gone (go rest o)) s, i)
  end.

(** The actions of a handler; [all]: this node is a validator of the primary network.
    Messages to the peer do not concern the network. *)
Definition micro_of (all : bool) (a : action (Out := Out) (App := App)) : list micro :=
  match a with
  | AClose => [MClose]
  | AConnected => [MConnected]
  | ATrack l => [MTrack all l]
  | AInbound m => [MInbound m]
  | ASend _ | AFinish => []
  end.

(** ** Steps *)

Variable initialDelay maxDelay : Z.
Variable AllowPrivateIPs RequireValidatorToConnect : bool.
Variable MyNodeID : list Z.

(** [amValidator]: this node is a validator of the primary network. *)
Definition AllowConnection (amValidator : bool) (n : list Z) (i : ipTracker) : bool :=
  if negb RequireValidatorToConnect then true else amValidator || WantsConnection n i.

(** [upgrade] of a connection with the certificate [cert], until [peersLock]. *)
Definition upgrade_start (cert : list Z) (amValidator : bool) (dialed : option (list Z * nat)) (i : ipTracker) : nthread :=
  let n := NodeIDFromCert sha256 ripemd160 cert in
  if bool_decide (n = MyNodeID) then Exited
  else if AllowConnection amValidator n i then ULock n cert dialed
  else Exited.

(** The goroutine of a dial ends with a connection to [cert]: when the node is another one, or
    the connection is refused, [r] is no longer served. *)
Definition end_dial (n : list Z) (r : nat) (t : nthread) (s : netst) : netst :=
  match t with
  | ULock n' _ _ => if bool_decide (n' = n) then s else halt r s
  | _ => halt r s
  end.

(** What is read of the messages is in range. *)
Definition msg_ok (m : inbound (App := App)) : Prop :=
  match m with
  | Handshake m => bytes_ok (hs_IpAddr m) ∧ inU 64 (hs_IpSigningTime m)
  | PeerList l => Forall (λ c, bytes_ok (cm_IpAddr c) ∧ inU 64 (cm_Timestamp c)) l
  | _ => True
  end.

(** The steps; [ManuallyTrack] and [ResetBloom] start with a call of the tracker (see
    NetworkTheorems.v).  When the conversion of the new delay to an integer is not defined the
    delay can be any. *)
Inductive netstep : actor → netst → ipTracker → netst → ipTracker → Prop :=
| step_handle j o e m all p acts s i :
    objs s !! j = Some o → po_todo o = [] → po_left o = false → msg_ok m →
    handle sha256 ripemd160 grow ParseCertificate CheckSignature SignatureFromBytes VerifyProofOfPossession e m (po_peer o) = Some (p, acts) →
    netstep (ByReader j) s i (set_obj j (mkPobj p (po_closing o) false (acts ≫= micro_of all) (po_phase o)) s) i
| step_start_close j o s i :
    objs s !! j = Some o → po_left o = false → netstep ByOther s i (set_obj j (close_obj o) s) i
| step_micro j o m rest maxTimestamp s i s' i' :
    objs s !! j = Some o → po_todo o = m :: rest → exec_micro maxTimestamp j o m rest s i = Some (s', i') →
    netstep (ByPeer j) s i s' i'
| step_exit j o s i :
    objs s !! j = Some o → po_todo o = [] → po_left o = false →
    netstep (ByPeer j) s i (set_obj j (mkPobj (po_peer o) true true [MRead] (po_phase o)) s) i
| step_manual_locked k n ip s i s' :
    nthreads s !! k = Some (MTLock n ip) → ManuallyTrack_locked n ip s = Some s' →
    netstep ByOther s i (set_nthread k Exited s') i
| step_dial_end k n r t s i :
    nthreads s !! k = Some (DSelect n r) → ips s !! r = Some t → stopped t = true ∨ closing s = true →
    netstep ByOther s i (set_nthread k Exited s) i
| step_dial_check k n r more s i s' :
    nthreads s !! k = Some (DSelect n r) → dial_locked n s i = Some (more, s') →
    netstep ByOther s i (set_nthread k (if more : bool then DDelay n r else Exited) s') i
| step_dial_delay k n r t r1 r2 d s i :
    nthreads s !! k = Some (DDelay n r) → ips s !! r = Some t → (∀ d', increaseDelay initialDelay maxDelay r1 r2 (delay t) = Some d' → d = d') →
    netstep ByOther s i (set_nthread k (if negb AllowPrivateIPs && negb (IsPublic (tip_ip t).1) then DSelect n r else DDial n r)
                   (set_ips (<[r := set_delay d t]> (ips s)) s)) i
| step_dial_failed k n r s i :
    nthreads s !! k = Some (DDial n r) → netstep ByOther s i (set_nthread k (DSelect n r) s) i
| step_dialed k n r cert amValidator s i :
    nthreads s !! k = Some (DDial n r) →
    netstep ByOther s i (let t := upgrade_start cert amValidator (Some (n, r)) i in set_nthread k t (end_dial n r t s)) i
| step_accept cert amValidator s i :
    netstep ByOther s i (add_nthread (upgrade_start cert amValidator None i) s) i
| step_upgrade k n cert dialed s i s' :
    nthreads s !! k = Some (ULock n cert dialed) → upgrade_locked n cert s = Some s' →
    netstep ByOther s i (set_nthread k Exited s') i
| step_close s i : netstep ByOther s i (StartClose s) i.

(** The states in which a goroutine can take a step that panics: for every region of code
    above that can return [None], the conditions of its step.  The peers that a handler
    gossips are those of IpGossip.v, which are drawn without a panic. *)
Inductive netpanic : netst → ipTracker → Prop :=
| panic_handle j o e m s i :
    objs s !! j = Some o → po_todo o = [] → po_left o = false → msg_ok m →
    (∀ subnets all f salt, is_Some (e_Peers e subnets all f salt)) →
    handle (Out := Out) sha256 ripemd160 grow ParseCertificate CheckSignature SignatureFromBytes VerifyProofOfPossession e m (po_peer o) = None →
    netpanic s i
| panic_micro j o m rest maxTimestamp s i :
    objs s !! j = Some o → po_todo o = m :: rest → exec_micro maxTimestamp j o m rest s i = None → netpanic s i
| panic_manual k n ip s i :
    nthreads s !! k = Some (MTLock n ip) → ManuallyTrack_locked n ip s = None → netpanic s i
| panic_dial_check k n r s i :
    nthreads s !! k = Some (DSelect n r) → dial_locked n s i = None → netpanic s i
| panic_dial_ref k n r s i :
    nthreads s !! k = Some (DSelect n r) ∨ nthreads s !! k = Some (DDelay n r) → ips s !! r = None → netpanic s i
| panic_upgrade k n cert dialed s i :
    nthreads s !! k = Some (ULock n cert dialed) → upgrade_locked n cert s = None → netpanic s i.
End network.
