(* ===== verification/NetworkPeers.v ===== *)
(** * Peers, the router and the IP tracker

    The part of the invariant of Network.v that concerns the peers: each node has at most one
    peer at a time, and the place of that peer in its life says whether the node is among the
    connecting or the connected peers, known to the IP tracker as connected, and connected for
    the router. *)

From S2P Require Import Prelude SafeMath Sampler DrawLoop IndexedList Bloom IpTracker PeerSet Float64 Version SignedIp Peer PeerProps Network.

Section handlers.
Context {K Sig Out App : Type}.
Variable sha256 ripemd160 : list Z → list Z.
Variable grow : nat → nat.
Variable ParseCertificate : list Z → bool.
Variable CheckSignature : list Z → list Z → list Z → bool.
Variable SignatureFromBytes : list Z → option Sig.
Variable VerifyProofOfPossession : K → Sig → list Z → bool.

Local Abbreviation handle :=
  (handle (Out := Out) (App := App) sha256 ripemd160 grow ParseCertificate CheckSignature SignatureFromBytes VerifyProofOfPossession).

Definition claim_ok (ip : ClaimedIPPort) : Prop := unsigned_ok (mkUnsignedIP (ip_AddrPort ip) (ip_Timestamp ip)).

Record peer_ok (p : peer (Sig := Sig)) : Prop := {
  pk_id : p_id p = NodeIDFromCert sha256 ripemd160 (p_cert p);
  pk_finished : finishedHandshake p = true → gotHandshake p = true;
  pk_ip : gotHandshake p = true → is_Some (p_ip p);
}.

Definition quiet_act (a : action (Out := Out) (App := App)) : Prop := match a with AClose | ASend _ => True | _ => False end.
Definition post_act (a : action (Out := Out) (App := App)) : Prop :=
  match a with AClose | ASend _ | AInbound _ => True | ATrack l => Forall claim_ok l | _ => False end.

Lemma handshake_frame e m (p p' : peer) new :
  handleHandshake grow CheckSignature SignatureFromBytes VerifyProofOfPossession e m p = Some (p', new) →
  Forall quiet_act new ∧ p_id p' = p_id p ∧ p_cert p' = p_cert p ∧ finishedHandshake p' = finishedHandshake p ∧
  (p' = p ∨ gotHandshake p = false ∧ (gotHandshake p' = true → is_Some (p_ip p'))).
Proof.
  intros E. unfold handleHandshake, Peer.close in E.
  assert (Forall quiet_act [AClose]) as HF by by repeat constructor.
  destruct (gotHandshake p) eqn:Eg; [by simplify_eq; naive_solver|].
  case_bool_decide; [by simplify_eq; naive_solver|]. destruct (clockTooFar e m); [by simplify_eq; naive_solver|].
  case_bool_decide; [simplify_eq; split_and!; try done; right; split; [done|cbn; by rewrite Eg]|].
  destruct (addSubnets _ _) as [ok p1] eqn:Es. apply addSubnets_spec in Es as (_ & Hid & Hcert & _ & _ & _ & Hg & Hf).
  cbn in Hid, Hcert, Hg, Hf. rewrite Eg in Hg.
  destruct ok; cbn [negb] in E; [|simplify_eq; split_and!; try done; right; split; [done|cbn; by rewrite Hg]].
  destruct (readKnownPeers _) as [[known salt]|]; [|simplify_eq; split_and!; try done; right; split; [done|cbn; by rewrite Hg]].
  destruct (AddrFromSlice _) as [addr|]; [|simplify_eq; split_and!; try done; right; split; [done|cbn; by rewrite Hg]].
  case_bool_decide; [simplify_eq; split_and!; try done; right; split; [done|cbn; by rewrite Hg]|].
  destruct (SignedIP_Verify _ _ _ _ _) as [[[]|]|]; cbn [mbind option_bind] in E;
    [|simplify_eq; split_and!; try done; right; split; [done|cbn; by rewrite Hg]|done]. destruct (SignatureFromBytes _); [|simplify_eq; split_and!; try done; right; split; [done|cbn; by rewrite Hg]].
  destruct (shouldDisconnect _ _ _ _) as [[d p3]|] eqn:Ed; [|done]. cbn [mbind option_bind] in E.
  apply (shouldDisconnect_spec sha256 ripemd160 grow ParseCertificate CheckSignature SignatureFromBytes) in Ed as (Hp3 & _).
  assert (p_id p3 = p_id p ∧ p_cert p3 = p_cert p ∧ finishedHandshake p3 = finishedHandshake p ∧ gotHandshake p3 = false ∧ is_Some (p_ip p3))
    as (Hid3 & Hc3 & Hf3 & Hg3 & Hi3) by (destruct Hp3 as [->|[t ->]]; cbn; naive_solver).
  destruct d; [simplify_eq; split_and!; try done; right; split; [done|by rewrite Hg3]|].
  destruct (e_Peers _ _ _ _ _) as [ips|]; [|done]. cbn [mbind option_bind] in E.
  destruct (e_PeerListMsg _ _ _); simplify_eq; cbn; split_and!; try done; try (by right; split).
  constructor; [done|]. destruct (e_Send _ _); by repeat constructor.
Qed.

Lemma discover_claims l ips : (∀ bs, length (ripemd160 bs) = 20%nat) →
  Forall (λ c, bytes_ok (cm_IpAddr c) ∧ inU 64 (cm_Timestamp c)) l →
  discover sha256 ripemd160 grow ParseCertificate l = Some (Some ips) → Forall claim_ok ips.
Proof.
  intros Hr. revert ips. induction l as [|c l IH]; intros ips Hl; cbn [discover]; [intros [= <-]; constructor|].
  apply Forall_cons in Hl as [[Ha Ht] Hl]. destruct (negb _); [done|].
  destruct (AddrFromSlice _) as [addr|] eqn:Ea; [|done]. case_bool_decide; [done|].
  rewrite NewClaimedIPPort_spec by done. cbn [mbind option_bind].
  destruct (discover _ _ _ _ l) as [[r|]|]; [|done..]. cbn. intros [= <-]. constructor; [|by apply IH].
  split_and!; cbn; [by eapply AddrFromSlice_ok|by apply wrapU_range|done].
Qed.

(** What a handler does, by whether the handshake was finished. *)
Lemma handle_acts e m (p p' : peer) acts : (∀ bs, length (ripemd160 bs) = 20%nat) → msg_ok m → peer_ok p →
  handle e m p = Some (p', acts) →
  peer_ok p' ∧ p_id p' = p_id p ∧
  if finishedHandshake p then finishedHandshake p' = true ∧ Forall post_act acts
  else finishedHandshake p' = false ∧ Forall quiet_act acts ∨
       finishedHandshake p' = true ∧ ∃ rest, acts = AConnected :: AFinish :: rest ∧ Forall post_act rest.
Proof.
  intros Hr Hm Hp. pose proof Hp as [Hid Hfin Hip].
  assert (∀ acts, Forall quiet_act acts → Forall post_act acts) as Hqp by (intros ? H; eapply Forall_impl; [exact H|by intros []]).
  assert (∀ new, Forall quiet_act new → peer_ok p ∧ p_id p = p_id p ∧
    if finishedHandshake p then finishedHandshake p = true ∧ Forall post_act new else finishedHandshake p = false ∧ Forall quiet_act new ∨
      finishedHandshake p = true ∧ ∃ rest, new = AConnected :: AFinish :: rest ∧ Forall post_act rest) as Hsame.
  { intros new Hn. split_and!; [done..|]. destruct (finishedHandshake p); auto. }
  assert (Forall quiet_act [AClose]) as HF by by repeat constructor.
  destruct m as [u| |m|known all|l|m]; cbn [Peer.handle].
  - unfold handlePing, Peer.close. case_bool_decide; [intros [= <- <-]; by apply Hsame|].
    destruct (e_PongMsg e); intros [= <- <-]; (split_and!; [by split|done|]); cbn;
      destruct (finishedHandshake p); [split; [done|]|left; split; [done|]|split; [done|]|left; split; [done|]]; by repeat constructor.
  - intros [= <- <-]. apply Hsame. constructor.
  - intros (Hn & Hid' & Hc & Hf & H)%handshake_frame. rewrite Hid'. split_and!; [|done|].
    + split; [congruence|rewrite Hf; destruct H as [->|[Eg _]]; [done|]; intros ?%Hfin; congruence|].
      destruct H as [->|[_ ?]]; auto.
    + rewrite Hf. destruct (finishedHandshake p); auto.
  - unfold handleGetPeerList, Peer.close. destruct (finishedHandshake p) eqn:Ef; cbn [negb].
    2: { intros [= <- <-]. rewrite Ef. split_and!; try done. left. by split. }
    intros E. assert (p' = p ∧ Forall quiet_act acts) as [-> Hq].
    { destruct (readKnownPeers _) as [[f salt]|]; [|by simplify_eq]. destruct (e_Peers _ _ _ _ _); [|done]. cbn in E.
      case_bool_decide; [by simplify_eq|]. destruct (e_PeerListMsg _ _ _); simplify_eq; split; by repeat constructor. }
    rewrite Ef. split_and!; auto.
  - unfold handlePeerList. destruct (finishedHandshake p) eqn:Ef; cbn [negb andb].
    + destruct (discover _ _ _ _ l) as [[ips|]|] eqn:Ed; [..|done]; intros [= <- <-]; rewrite Ef; split_and!; try done;
        repeat constructor. by eapply discover_claims.
    + destruct (gotHandshake p) eqn:Eg; cbn [negb]; [|intros [= <- <-]; rewrite Ef; split_and!; try done; left; by split].
      destruct (discover _ _ _ _ l) as [[ips|]|] eqn:Ed; [..|done]; intros [= <- <-]; (split_and!; [split; cbn; auto|done|]);
        right; (split; [done|]); eexists; (split; [done|]); repeat constructor. by eapply discover_claims.
  - intros [= <- <-]. destruct (finishedHandshake p) eqn:Ef; split_and!; try done; [by repeat constructor|left; by split].
Qed.
End handlers.

(** ** The invariant *)

Definition in_connecting (ph : phase) : bool := match ph with Connecting => true | _ => false end.
Definition in_connected (ph : phase) : bool := match ph with Moved | Known | Up | Leaving | Left => true | _ => false end.
Definition in_tracker (ph : phase) : bool := match ph with Known | Up => true | _ => false end.
Definition in_router (ph : phase) : bool := match ph with Up | Leaving => true | _ => false end.

(** What the router may be told of the node [n]: it connects to the primary network first,
    then to other subnets, sends messages while it is connected, and disconnects. *)
Definition rstep {App} (n : list Z) (st : option bool) (e : revent (App := App)) : option bool :=
  match st with
  | None => None
  | Some up =>
      match e with
      | RConnected n' _ s => if bool_decide (n' ≠ n) then Some up
                             else if up || bool_decide (s = PrimaryNetworkID) then Some true else None
      | RDisconnected n' => if bool_decide (n' ≠ n) then Some up else if up then Some false else None
      | RInbound n' _ => if bool_decide (n' ≠ n) then Some up else if up then Some true else None
      end
  end.
Definition rstate {App} (n : list Z) (tr : list (revent (App := App))) : option bool := foldl (rstep n) (Some false) tr.

Section peers.
Context {K Sig Out App : Type}.
Variable sha256 ripemd160 : list Z → list Z.

Local Abbreviation netst := (netst (Sig := Sig) (App := App)).
Local Abbreviation pobj := (pobj (Sig := Sig) (App := App)).
Local Abbreviation micro := (micro (App := App)).

Definition po_id (o : pobj) : list Z := p_id (po_peer o).

Definition post (m : micro) : Prop :=
  match m with
  | MRouter _ _ | MInbound _ | MClose => True
  | MTrack _ l => Forall claim_ok l
  | MTrackLocked ip _ l => claim_ok ip ∧ Forall claim_ok l
  | _ => False
  end.

(** What a peer has to do, by where it is. *)
Definition todo_ok (j : nat) (o : pobj) : Prop :=
  let fin := finishedHandshake (po_peer o) in
  match po_phase o with
  | Connecting =>
      if po_left o then po_todo o = [MRead] ∨ po_todo o = [MFromConnecting]
      else fin = false ∧ Forall (λ m, m = MClose) (po_todo o) ∨
           fin = true ∧ ∃ rest, po_todo o = MConnected :: rest ∧ Forall post rest
  | Moved => po_left o = false ∧ fin = true ∧ ∃ rest, po_todo o = MTracker j :: rest ∧ Forall post rest
  | Known => po_left o = false ∧ fin = true ∧ ∃ v rest, po_todo o = MRouter v PrimaryNetworkID :: rest ∧ Forall post rest
  | Up => fin = true ∧ if po_left o then po_todo o = [MRead] ∨ po_todo o = [MDTracker; MDRouter; MDRemove]
                       else Forall post (po_todo o)
  | Leaving => po_left o = true ∧ po_todo o = [MDRouter; MDRemove]
  | Left => po_left o = true ∧ po_todo o = [MDRemove]
  | Gone => po_left o = true ∧ po_todo o = []
  end.

Record obj_ok (j : nat) (o : pobj) : Prop := {
  ok_peer : peer_ok sha256 ripemd160 (po_peer o);
  ok_todo : todo_ok j o;
}.

(** What is known of a node whose peer [j] is at [ph]. *)
Definition view (s : netst) (i : ipTracker) (n : list Z) (j : nat) (ph : phase) : Prop :=
  ps_get (connectingPeers s) n = (if in_connecting ph then Some (mkPref j n) else None) ∧
  ps_get (connectedPeers s) n = (if in_connected ph then Some (mkPref j n) else None) ∧
  (if in_tracker ph then is_Some (connected i !! n) else connected i !! n = None) ∧
  rstate n (trace s) = Some (in_router ph).

Record ainv (s : netst) (i : ipTracker) : Prop := {
  a_connecting : ps_ok pr_id (connectingPeers s);
  a_connected : ps_ok pr_id (connectedPeers s);
  a_live : ∀ j o, objs s !! j = Some o → po_phase o ≠ Gone → view s i (po_id o) j (po_phase o);
  a_none : ∀ n, (∀ j o, objs s !! j = Some o → po_id o = n → po_phase o = Gone) → view s i n 0 Gone;
  a_uniq : ∀ j k o o', objs s !! j = Some o → objs s !! k = Some o' → po_id o = po_id o' →
    po_phase o ≠ Gone → po_phase o' ≠ Gone → j = k;
  a_objs : ∀ j o, objs s !! j = Some o → obj_ok j o;
  a_closing : closing s = true → ∀ j o, objs s !! j = Some o → po_phase o ≠ Gone → po_closing o = true;
}.

(** ** Steps that leave the peers alone *)

Definition same_peers (s s' : netst) : Prop :=
  connectingPeers s' = connectingPeers s ∧ connectedPeers s' = connectedPeers s ∧ objs s' = objs s ∧
  trace s' = trace s ∧ closing s' = closing s.

Lemma ainv_same s s' i i' : same_peers s s' → connected i' = connected i → ainv s i → ainv s' i'.
Proof.
  intros (E1 & E2 & E3 & E4 & E5) Ec [H1 H2 H3 H4 H5 H6 H7].
  split; unfold view in *; rewrite ?E1, ?E2, ?E3, ?E4, ?E5, ?Ec; auto.
Qed.

Lemma same_refl s : same_peers s s.
Proof. done. Qed.
Lemma same_trans s s' s'' : same_peers s s' → same_peers s' s'' → same_peers s s''.
Proof. unfold same_peers. intuition congruence. Qed.

Lemma untrack_same n s : same_peers s (untrack n s).
Proof. unfold untrack. by destruct (trackedIPs s !! n). Qed.
Lemma trackNewIP_same n r f s s' : trackNewIP_dial n r f s = Some s' → same_peers s s'.
Proof. unfold trackNewIP_dial. destruct (ips s !! r); [|done]. by intros [= <-]. Qed.

(** ** Steps of one peer *)

(** Nothing changes for [n]. *)
Definition agree (s : netst) (i : ipTracker) (s' : netst) (i' : ipTracker) (n : list Z) : Prop :=
  ps_get (connectingPeers s') n = ps_get (connectingPeers s) n ∧ ps_get (connectedPeers s') n = ps_get (connectedPeers s) n ∧
  connected i' !! n = connected i !! n ∧ rstate n (trace s') = rstate n (trace s).

Lemma view_agree s i s' i' n j ph : agree s i s' i' n → view s i n j ph → view s' i' n j ph.
Proof. intros (E1 & E2 & E3 & E4). unfold view. by rewrite E1, E2, E3, E4. Qed.

Lemma ainv_obj s i s' i' j o o' : ainv s i → objs s !! j = Some o → objs s' = <[j := o']> (objs s) →
  po_id o' = po_id o → po_phase o ≠ Gone → ps_ok pr_id (connectingPeers s') → ps_ok pr_id (connectedPeers s') →
  (∀ n, n ≠ po_id o → agree s i s' i' n) → view s' i' (po_id o) j (po_phase o') → obj_ok j o' →
  closing s' = closing s → (po_closing o = true → po_closing o' = true) → ainv s' i'.
Proof.
  intros [H1 H2 H3 H4 H5 H6 H7] Hj Eo Eid Hng Ha Hb Hag Hv Hok Ecl Hcl.
  assert (∀ k x, objs s' !! k = Some x → k = j ∧ x = o' ∨ k ≠ j ∧ objs s !! k = Some x) as Hlk.
  { intros k x. rewrite Eo. intros [(-> & -> & _)|(? & ?)]%list_lookup_insert_Some; auto. }
  assert (j < length (objs s))%nat as Hlt by (by eapply lookup_lt_Some).
  assert (objs s' !! j = Some o') as Hj' by (rewrite Eo; by apply list_lookup_insert_eq).
  split; try done.
  - intros k x [[-> ->]|[Hk Hx]]%Hlk Hg; [by rewrite Eid|]. eapply view_agree; [|by apply H3]. apply Hag.
    intros E. apply Hk. by eapply H5.
  - intros n Hn. destruct (decide (n = po_id o)) as [->|Hne].
    + assert (po_phase o' = Gone) as Eg by by eapply Hn. rewrite Eg in Hv. exact Hv.
    + eapply view_agree; [by apply Hag|]. apply H4. intros k x Hx E. destruct (decide (k = j)) as [->|Hk]; [naive_solver|].
      eapply (Hn k); [|done]. rewrite Eo, list_lookup_insert_ne by done. done.
  - intros k l x y [[-> ->]|[Hk Hx]]%Hlk [[-> ->]|[Hl Hy]]%Hlk E Hgx Hgy; [done| | |by eapply H5].
    + eapply H5; [done..| |done|done]. congruence.
    + symmetry. eapply H5; [done..| |done|done]. congruence.
  - intros k x [[-> ->]|[_ ?]]%Hlk; auto.
  - rewrite Ecl. intros Hc k x [[-> ->]|[_ ?]]%Hlk Hg; [|eauto]. apply Hcl. by eapply H7.
Qed.

Lemma agree_refl s i n : agree s i s i n.
Proof. done. Qed.

Lemma ainv_quiet s i j o o' : ainv s i → objs s !! j = Some o → po_id o' = po_id o → po_phase o' = po_phase o →
  po_phase o ≠ Gone → obj_ok j o' → (po_closing o = true → po_closing o' = true) → ainv (set_obj j o' s) i.
Proof.
  intros H Hj Eid Eph Hng Hok Hcl. eapply ainv_obj; try done; [apply H|apply H|].
  rewrite Eph. apply (a_live _ _ H j o Hj Hng).
Qed.

(** The same with a call of the router. *)
Definition ev_node (e : revent (App := App)) : list Z :=
  match e with RConnected n _ _ | RDisconnected n | RInbound n _ => n end.

Lemma rstate_snoc n tr e : rstate (App := App) n (tr ++ [e]) = rstep n (rstate n tr) e.
Proof. unfold rstate. by rewrite foldl_app. Qed.

Lemma rstate_other n tr e : n ≠ ev_node e → rstate (App := App) n (tr ++ [e]) = rstate n tr.
Proof.
  intros Hn. rewrite rstate_snoc. destruct (rstate n tr) as [up|]; [|done].
  destruct e; cbn in *; by rewrite bool_decide_eq_true_2.
Qed.

Lemma ainv_notify s i j o o' e : ainv s i → objs s !! j = Some o → po_id o' = po_id o → ev_node e = po_id o →
  po_phase o ≠ Gone → in_connecting (po_phase o') = in_connecting (po_phase o) →
  in_connected (po_phase o') = in_connected (po_phase o) → in_tracker (po_phase o') = in_tracker (po_phase o) →
  rstep (po_id o) (Some (in_router (po_phase o))) e = Some (in_router (po_phase o')) →
  obj_ok j o' → (po_closing o = true → po_closing o' = true) → ainv (set_obj j o' (notify e s)) i.
Proof.
  intros H Hj Eid Ee Hng E1 E2 E3 Er Hok Hcl. destruct (a_live _ _ H j o Hj Hng) as (V1 & V2 & V3 & V4).
  eapply ainv_obj; try done; [apply H|apply H|..].
  - intros n Hn. split_and!; [done..|]. apply rstate_other. congruence.
  - split_and!; cbn [connectingPeers connectedPeers trace notify set_obj].
    + by rewrite E1.
    + by rewrite E2.
    + by rewrite E3.
    + by rewrite rstate_snoc, V4.
Qed.

Lemma in_set_get n ps : ps_ok pr_id ps → in_set n ps = Some (bool_decide (is_Some (ps_get ps n))).
Proof.
  intros H. unfold in_set. rewrite (ps_GetByID pr_id n ps H). cbn. destruct (ps_get ps n); [by rewrite bool_decide_eq_true_2|].
  rewrite bool_decide_eq_false_2; [done|by intros []].
Qed.

(** ** The calls of a peer *)

Variable grow : nat → nat.
Variable CheckSignature : list Z → list Z → list Z → bool.
Variable rnd : nat → Z → option (list Z).
Variable optimal : Z → Z * Z.
Variable estimate : Z → Z → Z.
Variable MySubnets : list (list Z).
Hypothesis Hrip : ∀ bs, length (ripemd160 bs) = 20%nat.

Local Abbreviation exec_micro :=
  (exec_micro sha256 ripemd160 grow CheckSignature rnd optimal estimate MySubnets).

(** What is used of the IP tracker. *)
Record tframe (i : ipTracker) : Prop := {
  tf_Connected ip T : connected i !! ip_NodeID ip = None →
    ∃ i', Connected sha256 rnd optimal estimate ip T i = Some i' ∧ connected i' = <[ip_NodeID ip := mkConnected T ip]> (connected i);
  tf_Disconnected n : ∃ i', Disconnected n i = Some i' ∧ connected i' = delete n (connected i);
  tf_AddIP ip : ∃ b i', AddIP sha256 rnd optimal estimate ip i = Some (b, i') ∧ connected i' = connected i;
}.

Definition ips_known (s : netst) : Prop := ∀ n r, trackedIPs s !! n = Some r → is_Some (ips s !! r).

Lemma trackNewIP_total n r f s : is_Some (ips s !! r) → ∃ s', trackNewIP_dial n r f s = Some s' ∧ same_peers s s'.
Proof.
  intros [t Ht]. destruct (trackNewIP_dial n r f s) as [s'|] eqn:E; [|unfold trackNewIP_dial in E; by rewrite Ht in E].
  exists s'. split; [done|]. by eapply trackNewIP_same.
Qed.

Lemma track_locked_ok ip s i : ainv s i → tframe i → ips_known s →
  ∃ s' i', track_locked sha256 rnd optimal estimate ip s i = Some (s', i') ∧ same_peers s s' ∧ connected i' = connected i.
Proof.
  intros H Ht Hk. unfold track_locked. destruct (tf_AddIP _ Ht ip) as (b & i' & -> & Ec). cbn [mbind option_bind].
  destruct b; cbn [negb]; [|by exists s, i']. rewrite in_set_get by apply H. cbn [mbind option_bind].
  case_bool_decide; [by exists s, i'|]. destruct (trackedIPs s !! ip_NodeID ip) as [r|] eqn:E.
  - destruct (trackNewIP_total (ip_NodeID ip) r (λ _, ip_AddrPort ip) s (Hk _ _ E)) as (s' & -> & Hs). by exists s', i'.
  - by eexists _, i'.
Qed.

Lemma post_micros (v : option Application) (l : list (list Z)) (rest : list micro) :
  Forall post rest → Forall post ((MRouter v <$> l) ++ rest).
Proof. intros H. apply Forall_app. split; [|done]. apply Forall_fmap, Forall_forall. by intros. Qed.

(** One lemma per part of a peer's life.  [mok]: the step is taken without a panic, and the
    invariant holds after it. *)
Definition mok (maxT : Z) (j : nat) (o : pobj) (m : micro) (rest : list micro) (s : netst) (i : ipTracker) : Prop :=
  ∃ s' i', exec_micro maxT j o m rest s i = Some (s', i') ∧ ainv s' i'.

Section micros.
Context (maxT : Z) (j : nat) (o : pobj) (s : netst) (i : ipTracker).
Hypothesis H : ainv s i.
Hypothesis Ht : tframe i.
Hypothesis Hk : ips_known s.
Hypothesis Hj : objs s !! j = Some o.

Lemma micro_close rest : po_phase o ≠ Gone → todo_ok j (close_obj (go rest o)) → mok maxT j o MClose rest s i.
Proof.
  intros Hg Hto. eexists _, _. split; [done|]. apply (ainv_quiet s i j o); try done. split; [|done]. apply (a_objs _ _ H j o Hj).
Qed.

Lemma micro_connected rest : po_phase o = Connecting → po_left o = false → finishedHandshake (po_peer o) = true →
  Forall post rest → mok maxT j o MConnected rest s i.
Proof.
  intros Ep El Ef Hr. assert (po_phase o ≠ Gone) as Hg by congruence.
  destruct (a_live _ _ H j o Hj Hg) as (V1 & V2 & V3 & V4). rewrite Ep in V1, V2, V3, V4. cbn in V1, V2, V3, V4.
  unfold mok. cbn [Network.exec_micro]. unfold net_Connected. fold (po_id o). rewrite (ps_GetByID pr_id) by apply H. rewrite V1. cbn [mbind option_bind].
  destruct (untrack_same (po_id o) s) as (U1 & U2 & U3 & U4 & U5). rewrite U1, U2.
  destruct (ps_Remove pr_id (po_id o) (connectingPeers s) (a_connecting _ _ H)) as (a & -> & Ha & Hga).
  destruct (ps_Add pr_id (mkPref j (po_id o)) (connectedPeers s) (a_connected _ _ H)) as (b & -> & Hb & Hgb).
  eexists _, _. split; [done|]. cbn [pr_id] in Hgb.
  apply (ainv_obj s i _ i j o (at_phase Moved (go (MTracker j :: rest) o))); try done.
  - cbn [set_sets set_obj objs]. by rewrite U3.
  - intros n Hn. split_and!; cbn [connectingPeers connectedPeers trace set_sets set_obj]; [| |done|by rewrite U4].
    + by rewrite Hga, bool_decide_eq_false_2.
    + by rewrite Hgb, bool_decide_eq_false_2.
  - split_and!; cbn [connectingPeers connectedPeers trace set_sets set_obj po_phase at_phase in_connecting in_connected in_tracker in_router].
    + by rewrite Hga, bool_decide_eq_true_2.
    + by rewrite Hgb, bool_decide_eq_true_2.
    + done.
    + by rewrite U4.
  - split; [apply (a_objs _ _ H j o Hj)|]. cbn. split_and!; [done..|]. by exists rest.
Qed.

Lemma micro_tracker rest : po_phase o = Moved → po_left o = false → finishedHandshake (po_peer o) = true →
  Forall post rest → mok maxT j o (MTracker j) rest s i.
Proof.
  intros Ep El Ef Hr. assert (po_phase o ≠ Gone) as Hg by congruence.
  destruct (a_live _ _ H j o Hj Hg) as (V1 & V2 & V3 & V4). rewrite Ep in V1, V2, V3, V4. cbn in V1, V2, V3, V4.
  pose proof (ok_peer _ _ (a_objs _ _ H j o Hj)) as [Pid Pfin Pip]. destruct (Pip (Pfin Ef)) as [ip Hip].
  unfold mok. cbn [Network.exec_micro]. rewrite Hj. cbn [mbind option_bind]. rewrite Hip. cbn [mbind option_bind].
  rewrite NewClaimedIPPort_spec by done. cbn [mbind option_bind]. set (new := mkClaimed _ _ _ _ _ _).
  assert (ip_NodeID new = po_id o) as En by (unfold po_id; rewrite Pid; done).
  destruct (tf_Connected _ Ht new (p_trackedSubnets (po_peer o))) as (i' & -> & Ec); [by rewrite En|]. cbn [mbind option_bind].
  eexists _, _. split; [done|]. rewrite En in Ec.
  eapply (ainv_obj s i _ i' j o); try done; [apply H|apply H|..].
  - intros n Hn. split_and!; [done..| |done]. by rewrite Ec, lookup_insert_ne.
  - split_and!; [done..| |done]. cbn. by rewrite Ec, lookup_insert_eq.
  - split; [done|]. cbn. split_and!; [done..|]. eexists _, _. split; [done|]. by apply post_micros.
Qed.

Lemma micro_router v sub rest : po_phase o = Known ∧ sub = PrimaryNetworkID ∨ po_phase o = Up →
  po_left o = false → finishedHandshake (po_peer o) = true → Forall post rest → mok maxT j o (MRouter v sub) rest s i.
Proof.
  intros Ep El Ef Hr. assert (po_phase o ≠ Gone) as Hg by (destruct Ep as [[]|]; congruence).
  eexists _, _. split; [done|]. apply (ainv_notify s i j o); try done.
  1-3: cbn; by destruct Ep as [[-> _]| ->].
  - cbn. rewrite bool_decide_eq_false_2 by (by intros []).
    destruct Ep as [[-> ->]| ->]; cbn; [by rewrite bool_decide_eq_true_2|done].
  - split; [apply (a_objs _ _ H j o Hj)|]. cbn. by rewrite El.
Qed.

Lemma micro_up m rest : po_phase o = Up → po_left o = false → finishedHandshake (po_peer o) = true →
  post m → Forall post rest → mok maxT j o m rest s i.
Proof.
  intros Ep El Ef Hm Hr. assert (po_phase o ≠ Gone) as Hg by congruence.
  assert (∀ todo, Forall post todo → obj_ok j (go todo o)) as Hgo.
  { intros todo Hto. split; [apply (a_objs _ _ H j o Hj)|]. unfold todo_ok. cbn. by rewrite Ep, El. }
  assert (∀ todo, Forall post todo → ainv (set_obj j (go todo o) s) i) as Hq.
  { intros todo Hto. apply (ainv_quiet s i j o); try done. by apply Hgo. }
  destruct m as [| |v sub|all [|ip l]|ip all l|msg| | | | | |]; try done.
  - apply micro_router; auto.
  - eexists _, _. split; [done|]. by apply Hq.
  - cbn in Hm. apply Forall_cons in Hm as [Hip Hl]. unfold mok. cbn [Network.exec_micro].
    destruct (negb _); [eexists _, _; split; [done|]; apply Hq; by constructor|].
    destruct (SignedIP_Verify _ _ _ _ _) as [[u|e]|] eqn:Ev; cbn [mbind option_bind].
    + eexists _, _. split; [done|]. apply Hq. by constructor.
    + eexists _, _. split; [done|]. apply Hq. by constructor.
    + unfold SignedIP_Verify in Ev. case_bool_decide; [done|]. cbn [si_UnsignedIP] in Ev. rewrite UnsignedIP_bytes_spec in Ev by done.
      cbn [mbind option_bind] in Ev. by case_match.
  - destruct Hm as [Hip Hl]. destruct (track_locked_ok ip s i H Ht Hk) as (s' & i' & E & Hs & Ec).
    unfold mok. cbn [Network.exec_micro]. rewrite E. cbn [mbind option_bind]. eexists _, _. split; [done|].
    pose proof (ainv_same s s' i i' Hs Ec H) as H'. apply (ainv_quiet s' i' j o); try done; [by destruct Hs as (_ & _ & -> & _)|].
    apply Hgo. by constructor.
  - eexists _, _. split; [done|]. apply (ainv_notify s i j o); try done; [|by apply Hgo].
    cbn. rewrite bool_decide_eq_false_2 by (by intros []). by rewrite Ep.
  - apply micro_close; [done|]. unfold todo_ok. cbn. by rewrite Ep, El.
Qed.

Lemma micro_read : po_left o = true → po_phase o = Connecting ∨ po_phase o = Up ∧ finishedHandshake (po_peer o) = true →
  mok maxT j o MRead [] s i.
Proof.
  intros El Ep. assert (po_phase o ≠ Gone) as Hg by (destruct Ep as [|[]]; congruence).
  destruct (a_live _ _ H j o Hj Hg) as (V1 & V2 & _ & _).
  unfold mok. cbn [Network.exec_micro]. fold (po_id o). rewrite !in_set_get by apply H. rewrite V1, V2. cbn [mbind option_bind].
  eexists _, _. split; [done|]. apply (ainv_quiet s i j o); try done. split; [apply (a_objs _ _ H j o Hj)|].
  unfold todo_ok. cbn [po_phase go po_left po_todo po_peer]. destruct Ep as [->|[-> Ef]]; rewrite El; cbn [in_connecting in_connected].
  - right. rewrite bool_decide_eq_true_2, bool_decide_eq_false_2; [done|by intros []|done].
  - split; [done|]. right. rewrite bool_decide_eq_false_2, bool_decide_eq_true_2; [done|done|by intros []].
Qed.

Lemma micro_from_connecting : po_phase o = Connecting → po_left o = true → mok maxT j o MFromConnecting [] s i.
Proof.
  intros Ep El. assert (po_phase o ≠ Gone) as Hg by congruence.
  destruct (a_live _ _ H j o Hj Hg) as (V1 & V2 & V3 & V4). rewrite Ep in V1, V2, V3, V4. cbn in V1, V2, V3, V4.
  destruct (ps_Remove pr_id (po_id o) (connectingPeers s) (a_connecting _ _ H)) as (a & Ea & Ha & Hga).
  set (s1 := set_sets a (connectedPeers s) s).
  assert (∃ s', disconnectedFromConnecting (po_id o) s i = Some s' ∧ same_peers s1 s') as (s' & E & U1 & U2 & U3 & U4 & U5).
  { unfold disconnectedFromConnecting. rewrite Ea. cbn [mbind option_bind]. fold s1.
    destruct (trackedIPs s1 !! po_id o) as [r|] eqn:Er; [|by exists s1]. destruct (WantsConnection _ _).
    - apply trackNewIP_total. by apply (Hk (po_id o)).
    - eexists. split; [done|]. apply untrack_same. }
  unfold mok. cbn [Network.exec_micro]. fold (po_id o). rewrite E. cbn [mbind option_bind]. eexists _, _. split; [done|].
  apply (ainv_obj s i _ i j o (at_phase Gone (go [] o))); try done; cbn [set_obj objs connectingPeers connectedPeers closing];
    [by rewrite U3|by rewrite U1|rewrite U2; apply H| | |].
  - intros n Hn. split_and!; cbn [set_obj connectingPeers connectedPeers trace]; [|by rewrite U2|done|by rewrite U4].
    rewrite U1. cbn. by rewrite Hga, bool_decide_eq_false_2.
  - split_and!; cbn [set_obj connectingPeers connectedPeers trace po_phase at_phase in_connecting in_connected in_tracker in_router];
      [|by rewrite U2|done|by rewrite U4]. rewrite U1. cbn. by rewrite Hga, bool_decide_eq_true_2.
  - split; [apply (a_objs _ _ H j o Hj)|]. by cbn.
Qed.

Lemma micro_dtracker : po_phase o = Up → po_left o = true → mok maxT j o MDTracker [MDRouter; MDRemove] s i.
Proof.
  intros Ep El. assert (po_phase o ≠ Gone) as Hg by congruence.
  destruct (a_live _ _ H j o Hj Hg) as (V1 & V2 & V3 & V4). rewrite Ep in V1, V2, V3, V4. cbn in V1, V2, V3, V4.
  destruct (tf_Disconnected _ Ht (po_id o)) as (i' & E & Ec).
  unfold mok. cbn [Network.exec_micro]. fold (po_id o). rewrite E. cbn [mbind option_bind]. eexists _, _. split; [done|].
  eapply (ainv_obj s i _ i' j o); try done; [apply H|apply H|..].
  - intros n Hn. split_and!; [done..| |done]. by rewrite Ec, lookup_delete_ne.
  - split_and!; [done..| |done]. cbn. by rewrite Ec, lookup_delete_eq.
  - split; [apply (a_objs _ _ H j o Hj)|]. by cbn.
Qed.

Lemma micro_drouter : po_phase o = Leaving → po_left o = true → mok maxT j o MDRouter [MDRemove] s i.
Proof.
  intros Ep El. assert (po_phase o ≠ Gone) as Hg by congruence.
  eexists _, _. split; [done|]. apply (ainv_notify s i j o); try done; [by rewrite Ep..| |].
  - rewrite Ep. cbn. by rewrite bool_decide_eq_false_2 by (by intros []).
  - split; [apply (a_objs _ _ H j o Hj)|]. by cbn.
Qed.

Lemma micro_dremove : po_phase o = Left → po_left o = true → mok maxT j o MDRemove [] s i.
Proof.
  intros Ep El. assert (po_phase o ≠ Gone) as Hg by congruence.
  destruct (a_live _ _ H j o Hj Hg) as (V1 & V2 & V3 & V4). rewrite Ep in V1, V2, V3, V4. cbn in V1, V2, V3, V4.
  destruct (ps_Remove pr_id (po_id o) (connectedPeers s) (a_connected _ _ H)) as (b & Eb & Hb & Hgb).
  set (s1 := set_sets (connectingPeers s) b s).
  assert (∃ s', disconnectedFromConnected_locked (po_id o) s i = Some s' ∧ same_peers s1 s') as (s' & E & U1 & U2 & U3 & U4 & U5).
  { unfold disconnectedFromConnected_locked. rewrite Eb. cbn [mbind option_bind]. fold s1.
    destruct (GetIP (po_id o) i) as [[ip|] []]; by eexists. }
  unfold mok. cbn [Network.exec_micro]. fold (po_id o). rewrite E. cbn [mbind option_bind]. eexists _, _. split; [done|].
  apply (ainv_obj s i _ i j o (at_phase Gone (go [] o))); try done; cbn [set_obj objs connectingPeers connectedPeers closing];
    [by rewrite U3|rewrite U1; apply H|by rewrite U2| | |].
  - intros n Hn. split_and!; cbn [set_obj connectingPeers connectedPeers trace]; [by rewrite U1| |done|by rewrite U4].
    rewrite U2. cbn. by rewrite Hgb, bool_decide_eq_false_2.
  - split_and!; cbn [set_obj connectingPeers connectedPeers trace po_phase at_phase in_connecting in_connected in_tracker in_router];
      [by rewrite U1| |done|by rewrite U4]. rewrite U2. cbn. by rewrite Hgb, bool_decide_eq_true_2.
  - split; [apply (a_objs _ _ H j o Hj)|]. by cbn.
Qed.

Lemma micro_ok m rest : po_todo o = m :: rest → mok maxT j o m rest s i.
Proof.
  intros Em. pose proof (ok_todo _ _ (a_objs _ _ H j o Hj)) as Hto. unfold todo_ok in Hto. rewrite Em in Hto.
  destruct (po_phase o) eqn:Ep.
  - destruct (po_left o) eqn:El.
    + destruct Hto as [[= -> ->]|[= -> ->]]; [by apply micro_read; auto|by apply micro_from_connecting].
    + destruct Hto as [[Ef Hc]|(Ef & rest' & [= -> ->] & Hr)]; [|by apply micro_connected].
      apply Forall_cons in Hc as [-> Hc]. apply micro_close; [congruence|]. unfold todo_ok. cbn. rewrite Ep, El. auto.
  - destruct Hto as (El & Ef & rest' & [= -> ->] & Hr). by apply micro_tracker.
  - destruct Hto as (El & Ef & v & rest' & [= -> ->] & Hr). apply micro_router; auto.
  - destruct Hto as (Ef & Hto). destruct (po_left o) eqn:El.
    + destruct Hto as [[= -> ->]|[= -> ->]]; [by apply micro_read; auto|by apply micro_dtracker].
    + apply Forall_cons in Hto as [Hm Hr]. by apply micro_up.
  - destruct Hto as (El & [= -> ->]). by apply micro_drouter.
  - destruct Hto as (El & [= -> ->]). by apply micro_dremove.
  - by destruct Hto as (_ & ?).
Qed.
End micros.

(** ** The other steps *)

Lemma quiet_micros (Out' : Type) all (acts : list (action (Out := Out') (App := App))) :
  Forall quiet_act acts → Forall (λ m, m = MClose) (acts ≫= micro_of all).
Proof. induction 1 as [|a acts Ha _ IH]; [constructor|]. destruct a; cbn; try done. by constructor. Qed.

Lemma post_act_micros (Out' : Type) all (acts : list (action (Out := Out') (App := App))) :
  Forall post_act acts → Forall post (acts ≫= micro_of all).
Proof. induction 1 as [|a acts Ha _ IH]; [constructor|]. destruct a; cbn; try done; by constructor. Qed.

(** Some calls come at one place only. *)
Lemma micro_phase j (o : pobj) m rest : todo_ok j o → po_todo o = m :: rest →
  match m with
  | MTracker q => po_phase o = Moved ∧ q = j
  | MFromConnecting => po_phase o = Connecting
  | MDRemove => po_phase o = Left
  | _ => True
  end.
Proof.
  unfold todo_ok. intros Hto Em. rewrite Em in Hto. destruct (po_phase o).
  - destruct (po_left o); [by destruct Hto as [[= -> ->]|[= -> ->]]|].
    destruct Hto as [[_ Hc]|(_ & ? & [= -> ->] & _)]; [|done]. by apply Forall_cons in Hc as [-> _].
  - by destruct Hto as (_ & _ & ? & [= -> ->] & _).
  - by destruct Hto as (_ & _ & ? & ? & [= -> ->] & _).
  - destruct Hto as [_ Hto]. destruct (po_left o); [by destruct Hto as [[= -> ->]|[= -> ->]]|]. apply Forall_cons in Hto as [Hm _]. by destruct m.
  - by destruct Hto as [_ [= -> ->]].
  - by destruct Hto as [_ [= -> ->]].
  - by destruct Hto.
Qed.

(** Between two messages. *)
Lemma idle_phase j (o : pobj) : todo_ok j o → po_todo o = [] → po_left o = false →
  po_phase o = Connecting ∧ finishedHandshake (po_peer o) = false ∨ po_phase o = Up ∧ finishedHandshake (po_peer o) = true.
Proof.
  unfold todo_ok. intros Hto Et El. rewrite Et, El in Hto. destruct (po_phase o).
  - left. by destruct Hto as [[Ef _]|(_ & ? & ? & _)].
  - by destruct Hto as (_ & _ & ? & ? & _).
  - by destruct Hto as (_ & _ & ? & ? & ? & _).
  - right. by destruct Hto.
  - by destruct Hto.
  - by destruct Hto.
  - by destruct Hto.
Qed.

Lemma ainv_handle s i j o p all (acts : list (action (Out := Out) (App := App))) : ainv s i → objs s !! j = Some o →
  po_todo o = [] → po_left o = false → peer_ok sha256 ripemd160 p → p_id p = p_id (po_peer o) →
  (if finishedHandshake (po_peer o) then finishedHandshake p = true ∧ Forall post_act acts
   else finishedHandshake p = false ∧ Forall quiet_act acts ∨
        finishedHandshake p = true ∧ ∃ rest, acts = AConnected :: AFinish :: rest ∧ Forall post_act rest) →
  ainv (set_obj j (mkPobj p (po_closing o) false (acts ≫= micro_of all) (po_phase o)) s) i.
Proof.
  intros H Hj Et El Hp Eid Hacts. pose proof (idle_phase j o (ok_todo _ _ (a_objs _ _ H j o Hj)) Et El) as Hid.
  assert (po_phase o ≠ Gone) as Hg by (destruct Hid as [[]|[]]; congruence).
  apply (ainv_quiet s i j o); try done. split; [done|]. unfold todo_ok. cbn [po_phase po_left po_todo po_peer].
  destruct Hid as [[-> Ef]|[-> Ef]]; rewrite Ef in Hacts.
  - destruct Hacts as [[Ef' Ha]|(Ef' & rest & -> & Ha)]; [left; split; [done|by apply quiet_micros]|].
    right. split; [done|]. eexists. cbn. split; [done|]. by apply post_act_micros.
  - destruct Hacts as [Ef' Ha]. split; [done|]. by apply post_act_micros.
Qed.

Lemma ainv_exit s i j o : ainv s i → objs s !! j = Some o → po_todo o = [] → po_left o = false →
  ainv (set_obj j (mkPobj (po_peer o) true true [MRead] (po_phase o)) s) i.
Proof.
  intros H Hj Et El. pose proof (idle_phase j o (ok_todo _ _ (a_objs _ _ H j o Hj)) Et El) as Hid.
  assert (po_phase o ≠ Gone) as Hg by (destruct Hid as [[]|[]]; congruence).
  apply (ainv_quiet s i j o); try done. split; [apply (a_objs _ _ H j o Hj)|]. unfold todo_ok. cbn [po_phase po_left po_todo po_peer].
  destruct Hid as [[-> Ef]|[-> Ef]]; auto.
Qed.

Lemma live_in_sets s i j o : ainv s i → objs s !! j = Some o → po_phase o ≠ Gone →
  mkPref j (po_id o) ∈ peersSlice (connectingPeers s) ++ peersSlice (connectedPeers s).
Proof.
  intros H Hj Hg. destruct (a_live _ _ H j o Hj Hg) as (V1 & V2 & _). apply elem_of_app.
  rewrite (ps_get_elem pr_id _ _ (a_connecting _ _ H)), (ps_get_elem pr_id _ _ (a_connected _ _ H)). cbn [pr_id].
  rewrite V1, V2. destruct (po_phase o); cbn; auto; done.
Qed.

Lemma ainv_upgrade s i n cert : ainv s i → n = NodeIDFromCert sha256 ripemd160 cert →
  ∃ s', upgrade_locked n cert s = Some s' ∧ ainv s' i.
Proof.
  intros H En. unfold upgrade_locked. destruct (closing s) eqn:Ecl; [by exists s|].
  rewrite !in_set_get by apply H. cbn [mbind option_bind].
  case_bool_decide as H1; [by exists s|]. case_bool_decide as H2; [by exists s|].
  apply eq_None_not_Some in H1, H2.
  destruct (ps_Add pr_id (mkPref (length (objs s)) n) (connectingPeers s) (a_connecting _ _ H)) as (a & -> & Ha & Hga). cbn [pr_id] in Hga.
  cbn [mbind option_bind]. eexists. split; [done|]. set (o' := mkPobj _ _ _ _ _).
  assert (∀ j o, objs s !! j = Some o → po_id o = n → po_phase o = Gone) as Hgone.
  { intros j o Hj Ei. destruct (decide (po_phase o = Gone)) as [|Hg]; [done|exfalso].
    destruct (a_live _ _ H j o Hj Hg) as (V1 & V2 & _). rewrite Ei, H1 in V1. rewrite Ei, H2 in V2.
    by destruct (po_phase o). }
  assert (∀ k x, (objs s ++ [o']) !! k = Some x → objs s !! k = Some x ∨ k = length (objs s) ∧ x = o') as Hlk.
  { intros k x [?|[? ?%list_lookup_singleton_Some]]%lookup_app_Some; [by left|right]. split; [lia|naive_solver]. }
  destruct (a_none _ _ H n Hgone) as (_ & V2 & V3 & V4).
  assert (∀ m, m ≠ n → ps_get a m = ps_get (connectingPeers s) m) as Hother by (intros; by rewrite Hga, bool_decide_eq_false_2).
  split; cbn [add_obj set_sets connectingPeers connectedPeers objs closing]; [done|apply H|..].
  - intros j o [Hj|[-> ->]]%Hlk Hg.
    + destruct (a_live _ _ H j o Hj Hg) as (W1 & W2 & W3 & W4). split_and!; try done. cbn.
      rewrite Hother; [done|]. intros E. by apply Hg, (Hgone j).
    + split_and!; try done. cbn. by rewrite Hga, bool_decide_eq_true_2.
  - intros m Hm. assert (m ≠ n) as Hne by (intros ->; by specialize (Hm _ o' ltac:(by apply list_lookup_middle) eq_refl)).
    destruct (a_none _ _ H m) as (W1 & W2 & W3 & W4).
    { intros j o Hj. apply (Hm j). by apply lookup_app_l_Some. }
    split_and!; try done. cbn. by rewrite Hother.
  - intros j k x y [Hx|[-> ->]]%Hlk [Hy|[-> ->]]%Hlk E Hgx Hgy; [by eapply (a_uniq _ _ H)| | |done].
    + by destruct Hgx; apply (Hgone j).
    + by destruct Hgy; apply (Hgone k).
  - intros j x [Hx|[-> ->]]%Hlk; [by apply (a_objs _ _ H)|]. split; [by split|]. cbn. auto.
  - congruence.
Qed.

Lemma close_all_lookup l (os : list pobj) j :
  close_all l os !! j = (if bool_decide (j ∈ pr_ref <$> l) then close_obj else id) <$> os !! j.
Proof.
  revert os. induction l as [|p l IH]; intros os; cbn [close_all foldl fmap list_fmap].
  { by destruct (os !! j). }
  unfold close_all in IH. rewrite IH. destruct (decide (j = pr_ref p)) as [->|Hne].
  - rewrite list_lookup_alter_eq, (bool_decide_eq_true_2 (pr_ref p ∈ pr_ref p :: _)) by by constructor.
    destruct (os !! pr_ref p); [|done]. cbn. by case_bool_decide.
  - rewrite list_lookup_alter_ne by done. rewrite (bool_decide_ext (j ∈ pr_ref p :: _) (j ∈ pr_ref <$> l)); [done|].
    rewrite elem_of_cons. split; [by intros [?|?]|by right].
Qed.

Lemma ainv_close s i : ainv s i → ainv (StartClose s) i.
Proof.
  intros H. unfold StartClose. destruct (closing s) eqn:Ecl; [done|].
  set (os := close_all _ _).
  assert (∀ j o', os !! j = Some o' → ∃ o, objs s !! j = Some o ∧ po_id o' = po_id o ∧ po_phase o' = po_phase o ∧
    po_peer o' = po_peer o ∧ po_left o' = po_left o ∧ po_todo o' = po_todo o ∧
    (j ∈ pr_ref <$> (peersSlice (connectingPeers s) ++ peersSlice (connectedPeers s)) → po_closing o' = true)) as Hos.
  { intros j o'. unfold os. rewrite !close_all_lookup. destruct (objs s !! j) as [o|]; [|done].
    intros E. exists o. rewrite fmap_app, elem_of_app. split; [done|]. do 2 case_bool_decide; cbn in E; injection E as <-; naive_solver. }
  assert (∀ j o, objs s !! j = Some o → ∃ o', os !! j = Some o' ∧ po_id o' = po_id o ∧ po_phase o' = po_phase o) as Hos'.
  { intros j o Hj. destruct (os !! j) as [o'|] eqn:E; [|unfold os in E; by rewrite !close_all_lookup, Hj in E].
    exists o'. destruct (Hos j o' E) as (o2 & E2 & ? & ? & _). split_and!; congruence. }
  split; cbn [connectingPeers connectedPeers objs closing]; [apply H|apply H|..].
  - intros j o' (o & Hj & -> & -> & _)%Hos Hg. by apply (a_live _ _ H j o).
  - intros n Hn. apply (a_none _ _ H). intros j o Hj Ei. destruct (Hos' j o Hj) as (o' & Ho' & E1 & E2). rewrite <-E2.
    apply (Hn j); [done|congruence].
  - intros j k x y (o & Hj & E1 & E2 & _)%Hos (o2 & Hk & E3 & E4 & _)%Hos E Hg1 Hg2.
    apply (a_uniq _ _ H j k o o2); congruence.
  - intros j x (o & Hj & E1 & E2 & E3 & E4 & E5 & _)%Hos. destruct (a_objs _ _ H j o Hj) as [Hp Ht].
    split; [by rewrite E3|]. unfold todo_ok in *. by rewrite E2, E3, E4, E5.
  - intros _ j x (o & Hj & E1 & E2 & _ & _ & _ & Hc)%Hos Hg. apply Hc.
    rewrite E2 in Hg. pose proof (live_in_sets s i j o H Hj Hg) as Hin. by apply (list_elem_of_fmap_2 pr_ref) in Hin.
Qed.

Lemma ainv_new i : connected i = ∅ → ainv new_netst i.
Proof.
  intros Ei. destruct (ps_empty pr_id) as [He Hn]. split; cbn; try done.
  intros n _. split_and!; [done..| |done]. cbn. by rewrite Ei.
Qed.

(** ** Every step *)

Variable ParseCertificate : list Z → bool.
Variable SignatureFromBytes : list Z → option Sig.
Variable VerifyProofOfPossession : K → Sig → list Z → bool.
Variable initialDelay maxDelay : Z.
Variable AllowPrivateIPs RequireValidatorToConnect : bool.
Variable MyNodeID : list Z.

Local Abbreviation netstep :=
  (netstep (Out := Out) sha256 ripemd160 grow ParseCertificate CheckSignature SignatureFromBytes VerifyProofOfPossession
     rnd optimal estimate MySubnets initialDelay maxDelay AllowPrivateIPs RequireValidatorToConnect MyNodeID).

(** The node ID of an upgraded connection is that of its certificate. *)
Definition upgrades_ok (s : netst) : Prop :=
  ∀ n cert d, ULock n cert d ∈ nthreads s → n = NodeIDFromCert sha256 ripemd160 cert.

Lemma ManuallyTrack_ok n ip s i : ainv s i → ∃ s', ManuallyTrack_locked n ip s = Some s' ∧ same_peers s s'.
Proof.
  intros H. unfold ManuallyTrack_locked. rewrite in_set_get by apply H. cbn [mbind option_bind].
  case_bool_decide; [by exists s|]. destruct (trackedIPs s !! n); by eexists.
Qed.

Lemma dial_locked_ok n s i : ainv s i → ∃ more s', dial_locked n s i = Some (more, s') ∧ same_peers s s'.
Proof.
  intros H. unfold dial_locked. destruct (negb _); [eexists _, _; split; [done|]; apply untrack_same|].
  rewrite !in_set_get by apply H. cbn. by eexists _, _.
Qed.

Lemma end_dial_same n r t s : same_peers s (end_dial n r t s).
Proof. unfold end_dial. destruct t; try done. by case_bool_decide. Qed.

Lemma netstep_ainv a s i s' i' : netstep a s i s' i' → ainv s i → tframe i → ips_known s → upgrades_ok s → ainv s' i'.
Proof.
  intros Hst H Ht Hk Hu. destruct Hst as [j o e m all p acts s i Hj Et El Hm Hh|j o s i Hj El|j o m rest maxT s i s' i' Hj Em He|
    j o s i Hj Et El|k n ip s i s' Hn Hl|k n r t s i Hn|k n r more s i s' Hn Hl|k n r t r1 r2 d s i Hn|k n r s i Hn|k n r cert am s i Hn|
    cert am s i|k n cert d s i s' Hn Hl|s i].
  - apply handle_acts in Hh as (Hp & Eid & Ha); [|done..|apply (a_objs _ _ H j o Hj)]. by eapply ainv_handle.
  - pose proof (a_objs _ _ H j o Hj) as [Hp Hto]. apply (ainv_quiet s i j o); try done.
    intros Eg. unfold todo_ok in Hto. rewrite Eg in Hto. destruct Hto. congruence.
  - destruct (micro_ok maxT j o s i H Ht Hk Hj m rest Em) as (s2 & i2 & E & H2). rewrite He in E. by simplify_eq.
  - by apply ainv_exit.
  - destruct (ManuallyTrack_ok n ip s i H) as (s2 & E & Hs). rewrite Hl in E. simplify_eq. by apply (ainv_same s _ i i).
  - by apply (ainv_same s _ i i).
  - destruct (dial_locked_ok n s i H) as (b & s2 & E & Hs). rewrite Hl in E. simplify_eq. by apply (ainv_same s _ i i).
  - by apply (ainv_same s _ i i).
  - by apply (ainv_same s _ i i).
  - apply (ainv_same s _ i i); [|done..]. apply (end_dial_same n r (upgrade_start _ _ _ _ _ _ _ _) s).
  - by apply (ainv_same s _ i i).
  - destruct (ainv_upgrade s i n cert H) as (s2 & E & H2); [by eapply Hu, list_elem_of_lookup_2|]. rewrite Hl in E. simplify_eq.
    by apply (ainv_same s2 _ i i).
  - by apply ainv_close.
Qed.
End peers.
