(* ===== verification/NetworkDials.v ===== *)
(** * Dials

    The part of the invariant of Network.v that concerns the tracked IPs and the goroutines
    that dial them: a node is tracked by at most one object, which is not stopped, a goroutine
    whose object is not stopped dials the object its node is tracked by, no object is dialed
    twice, and a tracked node is being dialed, upgraded or connecting, unless its goroutine
    ended with a connection to another node, or one that was refused. *)

From S2P Require Import Prelude SafeMath Sampler DrawLoop IndexedList Bloom IpTracker PeerSet Float64 Version SignedIp Peer PeerProps Network NetworkPeers.

Definition dial_of (t : nthread) : option (list Z * nat) :=
  match t with DSelect n r | DDelay n r | DDial n r => Some (n, r) | _ => None end.
Definition dial_ref (t : nthread) : option nat := snd <$> dial_of t.
(** The goroutine dials [n] at [r], or upgrades a connection to [n] that it got so. *)
Definition serves (n : list Z) (r : nat) (t : nthread) : Prop :=
  dial_of t = Some (n, r) ∨ ∃ cert, t = ULock n cert (Some (n, r)).

Section dials.
Context {Sig App : Type}.
Variable sha256 ripemd160 : list Z → list Z.

Local Abbreviation netst := (netst (Sig := Sig) (App := App)).
Local Abbreviation upgrades_ok := (upgrades_ok (Sig := Sig) (App := App) sha256 ripemd160).

Definition served (s : netst) (n : list Z) (r : nat) : Prop :=
  Exists (serves n r) (nthreads s) ∨ is_Some (ps_get (connectingPeers s) n) ∨ r ∈ halted s.

(** [ex]: a node whose service is being changed. *)
Record binv (ex : option (list Z)) (s : netst) : Prop := {
  b_ref : ∀ n r, trackedIPs s !! n = Some r → ∃ t, ips s !! r = Some t ∧ stopped t = false;
  b_inj : ∀ n n' r, trackedIPs s !! n = Some r → trackedIPs s !! n' = Some r → n = n';
  b_conn : ∀ n, is_Some (trackedIPs s !! n) → ps_get (connectedPeers s) n = None;
  b_thread : ∀ th n r, th ∈ nthreads s → dial_of th = Some (n, r) →
    ∃ t, ips s !! r = Some t ∧ (stopped t = false → trackedIPs s !! n = Some r);
  b_one : NoDup (omap dial_ref (nthreads s));
  b_served : closing s = false → ∀ n r, trackedIPs s !! n = Some r → ex ≠ Some n → served s n r;
  b_upgrades : upgrades_ok s;
}.

Lemma binv_weaken ex s : binv None s → binv ex s.
Proof. intros [H1 H2 H3 H4 H5 H6 H7]. split; auto. Qed.

Lemma binv_untracked n s : binv (Some n) s → trackedIPs s !! n = None → binv None s.
Proof.
  intros [H1 H2 H3 H4 H5 H6 H7] Hn. split; auto. intros Hc m r Hm _. apply H6; [done..|]. intros [= ->]. congruence.
Qed.

(** Steps on the rest of the state. *)
Definition same_dials (s s' : netst) : Prop :=
  trackedIPs s' = trackedIPs s ∧ ips s' = ips s ∧ connectingPeers s' = connectingPeers s ∧
  connectedPeers s' = connectedPeers s ∧ closing s' = closing s ∧ nthreads s' = nthreads s ∧ halted s' = halted s.

Lemma binv_same ex s s' : same_dials s s' → binv ex s → binv ex s'.
Proof.
  intros (E1 & E2 & E3 & E4 & E5 & E6 & E7) [H1 H2 H3 H4 H5 H6 H7].
  split; unfold served, NetworkPeers.upgrades_ok in *; rewrite ?E1, ?E2, ?E3, ?E4, ?E5, ?E6, ?E7; auto.
Qed.

(** ** The tracked IPs *)

Lemma binv_untrack n s : binv (Some n) s → binv None (untrack n s) ∧ trackedIPs (untrack n s) !! n = None.
Proof.
  intros H. unfold untrack. destruct (trackedIPs s !! n) as [r|] eqn:E; [|split; [by eapply binv_untracked|done]].
  split; [|cbn; by rewrite lookup_delete_eq]. destruct H as [H1 H2 H3 H4 H5 H6 H7].
  assert (∀ m r', delete n (trackedIPs s) !! m = Some r' → m ≠ n ∧ r' ≠ r ∧ trackedIPs s !! m = Some r') as Hd.
  { intros m r' [Hm Hr]%lookup_delete_Some. split_and!; [done| |done]. intros ->. by apply Hm, (H2 n m r). }
  split; cbn [set_trackedIPs stop set_ips trackedIPs ips connectedPeers connectingPeers nthreads halted closing]; try done.
  - intros m r' (_ & Hne & Hm)%Hd. rewrite list_lookup_alter_ne by done. by apply H1 in Hm.
  - intros m m' r' (_ & _ & Hm)%Hd (_ & _ & Hm')%Hd. by eapply H2.
  - intros m [r' (_ & _ & Hm)%Hd]. by apply H3.
  - intros th m r' Hth Hd'. destruct (H4 th m r' Hth Hd') as (t & Ht & Hs). destruct (decide (r' = r)) as [->|Hne].
    + exists (stopTracking t). rewrite list_lookup_alter_eq, Ht. done.
    + exists t. rewrite list_lookup_alter_ne by done. split; [done|]. intros Hst.
      rewrite lookup_delete_ne; [by apply Hs|]. intros <-. apply Hne. apply Hs in Hst. congruence.
  - intros Hc m r' (Hne & _ & Hm)%Hd _. apply H6; [done..|congruence].
Qed.

Lemma binv_track_dial n t s : binv None s → trackedIPs s !! n = None → ps_get (connectedPeers s) n = None → stopped t = false →
  binv None (track_dial n t s).
Proof.
  intros [H1 H2 H3 H4 H5 H6 H7] Hn Hc Hst.
  assert (∀ m r, <[n := length (ips s)]> (trackedIPs s) !! m = Some r →
    m = n ∧ r = length (ips s) ∨ m ≠ n ∧ trackedIPs s !! m = Some r ∧ (r < length (ips s))%nat) as Hd.
  { intros m r [[-> <-]|[Hm Hr]]%lookup_insert_Some; [by left|right]. split_and!; [done..|].
    destruct (H1 m r Hr) as (x & Hx & _). by eapply lookup_lt_Some. }
  split; cbn [track_dial set_trackedIPs set_ips add_nthread trackedIPs ips connectedPeers connectingPeers nthreads halted closing]; try done.
  - intros m r [[-> ->]|(Hm & Hr & _)]%Hd; [exists t; split; [by apply list_lookup_middle|done]|].
    destruct (H1 m r Hr) as (x & Hx & Hs). exists x. split; [by apply lookup_app_l_Some|done].
  - intros m m' r [[-> ->]|(Hm & Hr & Hlt)]%Hd [[-> E]|(Hm' & Hr' & Hlt')]%Hd; [done|lia|lia|by eapply H2].
  - intros m [r [[-> _]|(Hm & Hr & _)]%Hd]; [done|]. by apply H3.
  - intros th m r [Hth| ->%list_elem_of_singleton]%elem_of_app Hdo.
    + destruct (H4 th m r Hth Hdo) as (x & Hx & Hs). exists x. split; [by apply lookup_app_l_Some|]. intros Hx'.
      apply Hs in Hx'. rewrite lookup_insert_ne; [done|]. intros <-. congruence.
    + injection Hdo as <- <-. exists t. split; [by apply list_lookup_middle|]. intros _. by rewrite lookup_insert_eq.
  - rewrite omap_app. apply NoDup_app. split_and!; [done| |cbn; apply NoDup_singleton].
    intros r Hin Hr%list_elem_of_singleton. subst r. apply list_elem_of_omap in Hin as (th & Hth & Hdr). unfold dial_ref in Hdr.
    destruct (dial_of th) as [[m r]|] eqn:Edo; [|done]. cbn in Hdr. injection Hdr as ->.
    destruct (H4 th m _ Hth Edo) as (x & Hx & _). apply lookup_lt_Some in Hx. lia.
  - intros Hcl m r [[-> ->]|(Hm & Hr & _)]%Hd _.
    + left. apply Exists_app. right. constructor. by left.
    + destruct (H6 Hcl m r Hr) as [Hs|[Hs|Hs]]; [done|left; apply Exists_app; by left|by right; left|by right; right].
  - intros m cert d [Hin|Hin%list_elem_of_singleton]%elem_of_app; [by eapply H7|done].
Qed.

Lemma binv_trackNewIP n r f s s' : binv (Some n) s → trackedIPs s !! n = Some r → ps_get (connectedPeers s) n = None →
  trackNewIP_dial n r f s = Some s' → binv None s'.
Proof.
  intros H Hr Hc. unfold trackNewIP_dial. destruct (ips s !! r) as [t|]; [|done]. intros [= <-].
  destruct (binv_untrack n s H) as [H' Hn]. set (t' := mkTrackedIP _ _ _).
  assert (track_dial n t' (stop r s) = track_dial n t' (untrack n s)) as ->.
  { unfold untrack. rewrite Hr. unfold track_dial. cbn. by rewrite insert_delete_eq. }
  apply binv_track_dial; try done. unfold untrack. by rewrite Hr.
Qed.

(** ** The sets of peers *)

Lemma binv_sets ex ex' a b s : binv ex s →
  (∀ n, is_Some (trackedIPs s !! n) → ps_get b n = None) →
  (∀ n, ex' ≠ Some n → ex ≠ Some n ∧ (is_Some (trackedIPs s !! n) → is_Some (ps_get (connectingPeers s) n) → is_Some (ps_get a n))) →
  binv ex' (set_sets a b s).
Proof.
  intros [H1 H2 H3 H4 H5 H6 H7] Hb Ha. split; cbn; try done. intros Hc n r Hn Hex. destruct (Ha n Hex) as [Hex' Hin].
  destruct (H6 Hc n r Hn Hex') as [?|[?|?]]; [by left|right; left; by apply Hin|by right; right].
Qed.

(** ** Goroutines *)

Lemma omap_alter {A B} (f : A → option B) l k x y : l !! k = Some x → f y = f x ∨ f y = None →
  NoDup (omap f l) → NoDup (omap f (<[k := y]> l)).
Proof.
  intros Hk Hf Hn. rewrite insert_take_drop by (by eapply lookup_lt_Some). rewrite <-(take_drop_middle l k x Hk) in Hn.
  rewrite omap_app in Hn |- *. cbn in *. destruct Hf as [->| ->]; [done|]. destruct (f x); [|done].
  by rewrite <-Permutation_middle, NoDup_cons in Hn; destruct Hn.
Qed.

Lemma binv_thread ex s k th th' : binv ex s → nthreads s !! k = Some th → dial_of th' = dial_of th ∨ dial_of th' = None →
  (closing s = false → ∀ n r, trackedIPs s !! n = Some r → serves n r th →
     serves n r th' ∨ is_Some (ps_get (connectingPeers s) n) ∨ r ∈ halted s) →
  (∀ n cert d, th' = ULock n cert d → n = NodeIDFromCert sha256 ripemd160 cert) →
  binv ex (set_nthread k th' s).
Proof.
  intros [H1 H2 H3 H4 H5 H6 H7] Hk Hdo Hs Hu.
  assert (∀ x, x ∈ <[k := th']> (nthreads s) → x = th' ∨ x ∈ nthreads s) as Hel.
  { intros x [l Hl]%list_elem_of_lookup. apply list_lookup_insert_Some in Hl as [(_ & -> & _)|(_ & Hl)]; [by left|right].
    by eapply list_elem_of_lookup_2. }
  split; cbn; try done.
  - intros x n r [->|Hx]%Hel Hd; [|by eapply H4]. destruct Hdo as [E|E]; [|congruence]. eapply (H4 th); [|congruence].
    by eapply list_elem_of_lookup_2.
  - eapply omap_alter; [done| |done]. unfold dial_ref. destruct Hdo as [->| ->]; auto.
  - intros Hc n r Hn Hex. destruct (H6 Hc n r Hn Hex) as [Hx|[?|?]]; [|by right; left|by right; right].
    apply list.Exists_exists in Hx as (x & [l Hl]%list_elem_of_lookup & Hx). destruct (decide (l = k)) as [->|Hne].
    + simplify_eq. destruct (Hs Hc n r Hn Hx) as [?|[?|?]]; [|by right; left|by right; right].
      left. apply list.Exists_exists. exists th'. split; [|done]. apply (list_elem_of_lookup_2 _ k), list_lookup_insert_eq. by eapply lookup_lt_Some.
    + left. apply list.Exists_exists. exists x. split; [|done]. apply (list_elem_of_lookup_2 _ l). cbn. by rewrite list_lookup_insert_ne.
  - intros n cert d [E|Hx]%Hel; [by eapply Hu|by eapply H7].
Qed.

Lemma binv_add ex s th : binv ex s → dial_of th = None →
  (∀ n cert d, th = ULock n cert d → n = NodeIDFromCert sha256 ripemd160 cert) → binv ex (add_nthread th s).
Proof.
  intros [H1 H2 H3 H4 H5 H6 H7] Hd Hu. split; cbn; try done.
  - intros x n r [Hx| ->%list_elem_of_singleton]%elem_of_app E; [by eapply H4|congruence].
  - rewrite omap_app. cbn. unfold dial_ref at 2. rewrite Hd. cbn. by rewrite app_nil_r.
  - intros Hc n r Hn Hex. destruct (H6 Hc n r Hn Hex) as [?|[?|?]]; [left; apply Exists_app; by left|by right; left|by right; right].
  - intros n cert d [Hx|Hx%list_elem_of_singleton]%elem_of_app; [by eapply H7|by eapply Hu].
Qed.

Lemma binv_halt ex r s : binv ex s → binv ex (halt r s).
Proof.
  intros [H1 H2 H3 H4 H5 H6 H7]. split; cbn; try done. intros Hc n r' Hn Hex.
  destruct (H6 Hc n r' Hn Hex) as [?|[?|?]]; [by left|by right; left|right; right; cbn; set_solver].
Qed.

Lemma binv_delay ex r t d s : binv ex s → ips s !! r = Some t → binv ex (set_ips (<[r := set_delay d t]> (ips s)) s).
Proof.
  intros [H1 H2 H3 H4 H5 H6 H7] Hr. assert (r < length (ips s))%nat as Hlt by (by eapply lookup_lt_Some).
  assert (∀ r' x, ips s !! r' = Some x → ∃ y, <[r := set_delay d t]> (ips s) !! r' = Some y ∧ stopped y = stopped x) as Hx.
  { intros r' x Hx. destruct (decide (r' = r)) as [->|Hne].
    - exists (set_delay d t). rewrite list_lookup_insert_eq by done. simplify_eq. done.
    - exists x. by rewrite list_lookup_insert_ne. }
  split; cbn; try done.
  - intros n r' Hn. destruct (H1 n r' Hn) as (x & E & Es). destruct (Hx r' x E) as (y & Ey & Eys). exists y. split; [done|congruence].
  - intros th n r' Hth Hd. destruct (H4 th n r' Hth Hd) as (x & E & Es). destruct (Hx r' x E) as (y & Ey & Eys).
    exists y. split; [done|]. by rewrite Eys.
Qed.

Lemma stop_all_lookup l (ts : list trackedIP) r t : foldl (λ l r, alter stopTracking r l) ts l !! r = Some t →
  ∃ t0, ts !! r = Some t0 ∧ (stopped t = false → r ∉ l ∧ stopped t0 = false).
Proof.
  revert ts. induction l as [|x l IH]; intros ts; cbn [foldl]; [intros H; exists t; split; [done|]; intros; split; [apply not_elem_of_nil|done]|].
  intros (t0 & H0 & Hs)%IH. destruct (decide (x = r)) as [->|Hne].
  - rewrite list_lookup_alter_eq in H0. destruct (ts !! r) as [t1|]; [|done]. cbn in H0. injection H0 as <-.
    exists t1. split; [done|]. by intros [_ ?]%Hs.
  - rewrite list_lookup_alter_ne in H0 by done. exists t0. split; [done|]. intros [Hn ?]%Hs. split; [|done].
    rewrite not_elem_of_cons. auto.
Qed.

Lemma binv_close s : binv None s → binv None (StartClose s).
Proof.
  intros H. unfold StartClose. destruct (closing s) eqn:Ecl; [done|]. destruct H as [H1 H2 H3 H4 H5 H6 H7].
  split; cbn [trackedIPs ips connectedPeers connectingPeers nthreads halted closing]; try done.
  - intros n [r Hr]. by rewrite lookup_empty in Hr.
  - intros th n r Hth Hd. destruct (H4 th n r Hth Hd) as (t & Ht & Hs).
    destruct (foldl _ (ips s) _ !! r) as [t'|] eqn:E.
    + exists t'. split; [done|]. intros Hst. destruct (stop_all_lookup _ _ _ _ E) as (t0 & E0 & Hn). simplify_eq.
      destruct (Hn Hst) as [Hnin Hs0]. exfalso. apply Hnin, list_elem_of_fmap. exists (n, r). split; [done|].
      apply elem_of_map_to_list. auto.
    + exfalso. apply lookup_ge_None in E. apply lookup_lt_Some in Ht.
      assert (∀ l ts, length (foldl (λ l r, alter stopTracking r l) ts l) = length ts) as El.
      { induction l as [|x l IH]; intros ts; [done|]. cbn [foldl]. by rewrite IH, length_alter. }
      rewrite El in E. lia.
Qed.

Lemma binv_new : binv None new_netst.
Proof.
  split; cbn; try done.
  - by intros th n r Hth%not_elem_of_nil.
  - constructor.
  - by intros n cert d Hth%not_elem_of_nil.
Qed.

(** ** Steps *)

Context {K Out : Type}.
Variable grow : nat → nat.
Variable ParseCertificate : list Z → bool.
Variable CheckSignature : list Z → list Z → list Z → bool.
Variable SignatureFromBytes : list Z → option Sig.
Variable VerifyProofOfPossession : K → Sig → list Z → bool.
Variable rnd : nat → Z → option (list Z).
Variable optimal : Z → Z * Z.
Variable estimate : Z → Z → Z.
Variable MySubnets : list (list Z).
Variable initialDelay maxDelay : Z.
Variable AllowPrivateIPs RequireValidatorToConnect : bool.
Variable MyNodeID : list Z.

Local Abbreviation ainv := (ainv (Sig := Sig) (App := App) sha256 ripemd160).
Local Abbreviation exec_micro :=
  (exec_micro sha256 ripemd160 grow CheckSignature rnd optimal estimate MySubnets).
Local Abbreviation netstep :=
  (netstep (Out := Out) sha256 ripemd160 grow ParseCertificate CheckSignature SignatureFromBytes VerifyProofOfPossession
     rnd optimal estimate MySubnets initialDelay maxDelay AllowPrivateIPs RequireValidatorToConnect MyNodeID).

Lemma net_Connected_binv n s i q s' : ainv s i → binv None s → net_Connected n s = Some (q, s') → binv None s'.
Proof.
  intros Ha Hb. unfold net_Connected. rewrite (ps_GetByID pr_id) by apply Ha. cbn [mbind option_bind].
  destruct (ps_get (connectingPeers s) n) as [p|] eqn:Ep; [|by intros [= _ <-]].
  pose proof (ps_get_ID pr_id _ _ _ (a_connecting _ _ _ _ Ha) Ep) as Eid.
  destruct (untrack_same n s) as (U1 & U2 & _). destruct (binv_untrack n s (binv_weaken _ _ Hb)) as [Hu Hn].
  rewrite U1, U2. destruct (ps_Remove pr_id n (connectingPeers s) (a_connecting _ _ _ _ Ha)) as (a & -> & _ & Hga).
  destruct (ps_Add pr_id p (connectedPeers s) (a_connected _ _ _ _ Ha)) as (b & -> & _ & Hgb). cbn. intros [= _ <-].
  apply (binv_sets None); [done|..].
  - intros m Hm. rewrite Hgb, Eid. case_bool_decide; [subst m; rewrite Hn in Hm; by destruct Hm|]. rewrite <-U2. by apply (b_conn _ _ Hu).
  - intros m _. split; [done|]. intros Hm Hc. rewrite Hga. case_bool_decide; [subst m; rewrite Hn in Hm; by destruct Hm|]. by rewrite <-U1.
Qed.

Lemma track_locked_binv ip s i s' i' : ainv s i → binv None s →
  track_locked sha256 rnd optimal estimate ip s i = Some (s', i') → binv None s'.
Proof.
  intros Ha Hb. unfold track_locked. destruct (AddIP _ _ _ _ _ _) as [[wants i1]|]; [|done]. cbn [mbind option_bind].
  destruct (negb wants); [by intros [= <- _]|]. rewrite in_set_get by apply Ha. cbn [mbind option_bind].
  case_bool_decide as Hc; [by intros [= <- _]|]. apply eq_None_not_Some in Hc.
  destruct (trackedIPs s !! ip_NodeID ip) as [r|] eqn:Er.
  - destruct (trackNewIP_dial _ _ _ _) as [s1|] eqn:E; [|done]. cbn. intros [= <- _].
    by eapply binv_trackNewIP; [apply binv_weaken|..].
  - cbn. intros [= <- _]. by apply binv_track_dial.
Qed.

Lemma from_connecting_binv n s i s' : ainv s i → binv None s → ps_get (connectedPeers s) n = None →
  disconnectedFromConnecting n s i = Some s' → binv None s'.
Proof.
  intros Ha Hb Hc. unfold disconnectedFromConnecting.
  destruct (ps_Remove pr_id n (connectingPeers s) (a_connecting _ _ _ _ Ha)) as (a & -> & _ & Hga). cbn [mbind option_bind].
  assert (binv (Some n) (set_sets a (connectedPeers s) s)) as H1.
  { apply (binv_sets None); [done|apply Hb|]. intros m Hm. split; [done|]. intros _ Hs. by rewrite Hga, bool_decide_eq_false_2 by congruence. }
  cbn [set_sets trackedIPs]. destruct (trackedIPs s !! n) as [r|] eqn:Er; [|intros [= <-]; by eapply binv_untracked].
  destruct (WantsConnection n i); [intros E; by eapply binv_trackNewIP|]. intros [= <-]. by apply binv_untrack.
Qed.

Lemma from_connected_binv n s i s' : ainv s i → binv None s → is_Some (ps_get (connectedPeers s) n) →
  disconnectedFromConnected_locked n s i = Some s' → binv None s'.
Proof.
  intros Ha Hb [p Hp]. unfold disconnectedFromConnected_locked.
  destruct (ps_Remove pr_id n (connectedPeers s) (a_connected _ _ _ _ Ha)) as (b & -> & _ & Hgb). cbn [mbind option_bind].
  assert (trackedIPs s !! n = None) as Hn.
  { apply eq_None_not_Some. intros Hs. apply (b_conn _ _ Hb) in Hs. congruence. }
  assert (binv None (set_sets (connectingPeers s) b s)) as H1.
  { apply (binv_sets None); [done| |done]. intros m Hm. rewrite Hgb. case_bool_decide; [done|]. by apply (b_conn _ _ Hb). }
  destruct (GetIP n i) as [[ip|] []]; intros [= <-]; try done. apply binv_track_dial; try done. cbn. by rewrite Hgb, bool_decide_eq_true_2.
Qed.

Lemma micro_binv maxT j o m rest s i s' i' : ainv s i → binv None s → objs s !! j = Some o → po_todo o = m :: rest →
  exec_micro maxT j o m rest s i = Some (s', i') → binv None s'.
Proof.
  intros Ha Hb Hj Em He. pose proof (micro_phase _ _ _ _ (ok_todo _ _ _ _ (a_objs _ _ _ _ Ha j o Hj)) Em) as Hph.
  pose proof (a_live _ _ _ _ Ha j o Hj) as Hv.
  assert (∀ o' s1, binv None s1 → binv None (set_obj j o' s1)) as Hso by (intros; by apply (binv_same None s1)).
  assert (∀ o' e, binv None (set_obj j o' (notify e s))) as Hno by (intros; by apply (binv_same None s)).
  destruct m as [|q|v sub|all [|ip l]|ip all l|msg| | | | | |]; cbn [Network.exec_micro] in He.
  - destruct (net_Connected _ _) as [[[q|] s1]|] eqn:E; [..|done]; cbn in He; injection He as <- <-; apply Hso; exact (net_Connected_binv _ _ _ _ _ Ha Hb E).
  - destruct (objs s !! q); [|done]. cbn [mbind option_bind] in He. destruct (p_ip _); [|done]. cbn [mbind option_bind] in He.
    destruct (NewClaimedIPPort _ _ _ _ _ _ _); [|done]. cbn [mbind option_bind] in He.
    destruct (Connected _ _ _ _ _ _ _); [|done]. injection He as <- <-. by apply Hso.
  - injection He as <- <-. apply Hno.
  - injection He as <- <-. by apply Hso.
  - destruct (negb _); [injection He as <- <-; by apply Hso|].
    destruct (SignedIP_Verify _ _ _ _ _) as [[]|]; [..|done]; injection He as <- <-; by apply Hso.
  - destruct (track_locked _ _ _ _ _ _ _) as [[s1 i1]|] eqn:E; [|done]. injection He as <- <-. apply Hso. by eapply track_locked_binv.
  - injection He as <- <-. apply Hno.
  - injection He as <- <-. by apply Hso.
  - rewrite !in_set_get in He by apply Ha. injection He as <- <-. by apply Hso.
  - destruct (disconnectedFromConnecting _ _ _) as [s1|] eqn:E; [|done]. injection He as <- <-. apply Hso.
    rewrite Hph in Hv. destruct (Hv ltac:(done)) as (_ & V2 & _). by eapply from_connecting_binv.
  - destruct (Disconnected _ _); [|done]. injection He as <- <-. by apply Hso.
  - injection He as <- <-. apply Hno.
  - destruct (disconnectedFromConnected_locked _ _ _) as [s1|] eqn:E; [|done]. injection He as <- <-. apply Hso.
    rewrite Hph in Hv. destruct (Hv ltac:(done)) as (_ & V2 & _). eapply from_connected_binv; [done..|exact (mk_is_Some _ _ V2)|done].
Qed.

Lemma upgrade_binv n cert s i s' : ainv s i → binv None s → upgrade_locked n cert s = Some s' →
  binv None s' ∧ nthreads s' = nthreads s ∧ trackedIPs s' = trackedIPs s ∧
  (closing s' = false → is_Some (trackedIPs s' !! n) → is_Some (ps_get (connectingPeers s') n)).
Proof.
  intros Ha Hb. unfold upgrade_locked. destruct (closing s) eqn:Ec; [intros [= <-]; split_and!; try done; congruence|].
  rewrite !in_set_get by apply Ha. cbn [mbind option_bind]. case_bool_decide; [by intros [= <-]|].
  case_bool_decide as Hc; [intros [= <-]; split_and!; try done; intros _ Hs%(b_conn _ _ Hb); rewrite Hs in Hc; by destruct Hc|].
  destruct (ps_Add pr_id (mkPref (length (objs s)) n) (connectingPeers s) (a_connecting _ _ _ _ Ha)) as (a & -> & _ & Hga). cbn [pr_id] in Hga.
  cbn. intros [= <-]. split_and!; try done; [|intros _ _; cbn; by rewrite Hga, bool_decide_eq_true_2].
  apply (binv_same None (set_sets a (connectedPeers s) s)); [done|]. apply (binv_sets None); [done|apply Hb|].
  intros m _. split; [done|]. intros _ Hs. rewrite Hga. by case_bool_decide.
Qed.

Lemma dial_locked_binv n s i more s' : ainv s i → binv None s → dial_locked n s i = Some (more, s') →
  binv None s' ∧ nthreads s' = nthreads s ∧
  (more = false → is_Some (trackedIPs s' !! n) → is_Some (ps_get (connectingPeers s') n)).
Proof.
  intros Ha Hb. unfold dial_locked. destruct (negb (WantsConnection n i)).
  - intros [= <- <-]. destruct (binv_untrack n s (binv_weaken _ _ Hb)) as [H Hn]. split_and!; [done| |].
    + unfold untrack. by destruct (trackedIPs s !! n).
    + rewrite Hn. by intros _ [].
  - rewrite !in_set_get by apply Ha. cbn. intros [= <- <-]. split_and!; [done..|]. intros E Hs.
    apply (b_conn _ _ Hb) in Hs. rewrite Hs in E. apply negb_false_iff, orb_true_iff in E as [E|E]; apply bool_decide_eq_true in E; [done|].
    by destruct E.
Qed.

Lemma manual_binv n ip s i s' k th : ainv s i → binv None s → ManuallyTrack_locked n ip s = Some s' →
  nthreads s !! k = Some th → binv None s' ∧ nthreads s' !! k = Some th.
Proof.
  intros Ha Hb. unfold ManuallyTrack_locked. rewrite in_set_get by apply Ha. cbn [mbind option_bind].
  case_bool_decide as Hc; [by intros [= <-]|]. apply eq_None_not_Some in Hc.
  destruct (trackedIPs s !! n) eqn:E; [by intros [= <-]|]. intros [= <-] Hk. split; [by apply binv_track_dial|].
  cbn. by apply lookup_app_l_Some.
Qed.

Lemma upgrade_start_ok cert am d i :
  let t := upgrade_start sha256 ripemd160 RequireValidatorToConnect MyNodeID cert am d i in
  t = Exited ∨ ∃ n, t = ULock n cert d ∧ n = NodeIDFromCert sha256 ripemd160 cert.
Proof. unfold upgrade_start. case_bool_decide; [by left|]. destruct (AllowConnection _ _ _ _); [right; eauto|by left]. Qed.

Lemma dialed_binv s k n r cert am i : binv None s → nthreads s !! k = Some (DDial n r) →
  let t := upgrade_start sha256 ripemd160 RequireValidatorToConnect MyNodeID cert am (Some (n, r)) i in
  binv None (set_nthread k t (end_dial n r t s)).
Proof.
  intros Hb Hk t. pose proof (upgrade_start_ok cert am (Some (n, r)) i) as Ht. cbv zeta in Ht. fold t in Ht. clearbody t.
  assert (∀ (s1 : netst) n' r', r ∈ halted s1 → serves n' r' (DDial n r) → serves n' r' t ∨ is_Some (ps_get (connectingPeers s1) n') ∨ r' ∈ halted s1) as Hh.
  { intros s1 n' r' Hr [[= <- <-]|[c [=]]]. by right; right. }
  destruct Ht as [->|(n' & -> & En)]; cbn [end_dial].
  - eapply binv_thread; [by apply binv_halt|exact Hk|by right| |done]. intros _ n' r' _. apply Hh. cbn. set_solver.
  - case_bool_decide as Hn.
    + rewrite Hn in En |- *. eapply binv_thread; [done|exact Hk|by right| |by intros ? ? ? [= <- <- _]].
      intros _ n2 r2 _ [[= <- <-]|[c [=]]]. left. right. by exists cert.
    + eapply binv_thread; [by apply binv_halt|exact Hk|by right| |by intros ? ? ? [= <- <- _]].
      intros _ n2 r2 _. apply Hh. cbn. set_solver.
Qed.

Lemma netstep_binv a s i s' i' : netstep a s i s' i' → ainv s i → binv None s → binv None s'.
Proof.
  intros Hst Ha Hb. destruct Hst as [j o e m all p acts s i Hj Et El Hm Hh|j o s i Hj El|j o m rest maxT s i s' i' Hj Em He|
    j o s i Hj Et El|k n ip s i s' Hk Hl|k n r t s i Hk Ht Hend|k n r more s i s' Hk Hl|k n r t r1 r2 d s i Hk Ht|k n r s i Hk|k n r cert am s i Hk|
    cert am s i|k n cert d s i s' Hk Hl|s i].
  - by apply (binv_same None s).
  - by apply (binv_same None s).
  - by eapply micro_binv.
  - by apply (binv_same None s).
  - destruct (manual_binv _ _ _ _ _ _ _ Ha Hb Hl Hk) as [Hb' Hk']. eapply binv_thread; [done|exact Hk'|by left| |done].
    by intros _ n' r' _ [[=]|[c [=]]].
  - eapply binv_thread; [done|exact Hk|by right| |done]. intros Hc n' r' Hn [[= <- <-]|[c [=]]].
    destruct (b_ref _ _ Hb n r Hn) as (t' & Ht' & Hs). destruct Hend; congruence.
  - destruct (dial_locked_binv _ _ _ _ _ Ha Hb Hl) as (Hb' & En & Hm). rewrite <-En in Hk. destruct more.
    + eapply binv_thread; [done|exact Hk|by left| |done]. intros _ n' r' _ [[= <- <-]|[c [=]]]. left. by left.
    + eapply binv_thread; [done|exact Hk|by right| |done]. intros _ n' r' Hn [[= <- <-]|[c [=]]]. right. left. apply Hm; [done|by eexists].
  - pose proof (binv_delay None r t d s Hb Ht) as Hb'. destruct (_ && _).
    + eapply binv_thread; [done|exact Hk|by left| |done]. intros _ n' r' _ [[= <- <-]|[c [=]]]. left. by left.
    + eapply binv_thread; [done|exact Hk|by left| |done]. intros _ n' r' _ [[= <- <-]|[c [=]]]. left. by left.
  - eapply binv_thread; [done|exact Hk|by left| |done]. intros _ n' r' _ [[= <- <-]|[c [=]]]. left. by left.
  - by apply dialed_binv.
  - pose proof (upgrade_start_ok cert am None i) as Ht. cbv zeta in Ht. destruct Ht as [->|(n & -> & En)]; (apply binv_add; [done..|]).
    + done.
    + by intros ? ? ? [= <- <- _].
  - destruct (upgrade_binv _ _ _ _ _ Ha Hb Hl) as (Hb' & En & _ & Hs). rewrite <-En in Hk.
    eapply binv_thread; [done|exact Hk|by left| |done]. intros Hc n' r' Hn [[=]|[c [= -> -> ->]]]. right. left. apply Hs; [done|by eexists].
  - by apply binv_close.
Qed.
End dials.
