(* ===== verification/NetworkRouter.v ===== *)
(** * What the router hears of a connection

    The router is told of a node once for the primary network and once for each subnet that
    both nodes track, after every connection.  [heard] is what the router was told of a node
    since its last disconnection; while the peer is announcing itself, the rest is in what the
    peer has to do. *)

From S2P Require Import Prelude SafeMath Sampler DrawLoop IndexedList Bloom IpTracker PeerSet Float64 Version SignedIp Peer PeerProps Network NetworkPeers.

Definition heard_step {App} (n : list Z) (l : list (list Z)) (e : revent (App := App)) : list (list Z) :=
  match e with
  | RConnected n' _ s => if bool_decide (n' = n) then l ++ [s] else l
  | RDisconnected n' => if bool_decide (n' = n) then [] else l
  | RInbound _ _ => l
  end.
Definition heard {App} (n : list Z) (tr : list (revent (App := App))) : list (list Z) := foldl (heard_step n) [] tr.

Lemma heard_snoc {App} n (tr : list (revent (App := App))) e : heard n (tr ++ [e]) = heard_step n (heard n tr) e.
Proof. unfold heard. by rewrite foldl_app. Qed.

Lemma heard_other {App} n (tr : list (revent (App := App))) e : n ≠ ev_node e → heard n (tr ++ [e]) = heard n tr.
Proof. intros Hn. rewrite heard_snoc. destruct e; cbn in *; try done; by rewrite bool_decide_eq_false_2. Qed.

(** A node that is not connected for the router is not announced. *)
Lemma heard_down {App} n (tr : list (revent (App := App))) : rstate n tr = Some false → heard n tr = [].
Proof.
  induction tr as [|e tr IH] using rev_ind; [done|]. rewrite rstate_snoc, heard_snoc.
  destruct (rstate n tr) as [up|]; [|done]. destruct e as [n' v s|n'|n' m]; cbn.
  - destruct (decide (n' = n)) as [->|Hn].
    + rewrite bool_decide_eq_false_2 by (by intros []). by destruct (up || _).
    + rewrite bool_decide_eq_true_2, bool_decide_eq_false_2 by done. intros [= ->]. auto.
  - destruct (decide (n' = n)) as [->|Hn]; [by rewrite (bool_decide_eq_true_2 (n = n)) by done|].
    rewrite bool_decide_eq_true_2, bool_decide_eq_false_2 by done. intros [= ->]. auto.
  - destruct (decide (n' = n)) as [->|Hn].
    + rewrite bool_decide_eq_false_2 by (by intros []). by destruct up.
    + rewrite bool_decide_eq_true_2 by done. intros [= ->]. auto.
Qed.

Section router.
Context {K Sig Out App : Type}.
Variable sha256 ripemd160 : list Z → list Z.
Variable grow : nat → nat.
Variable ParseCertificate : list Z → bool.
Variable CheckSignature : list Z → list Z → list Z → bool.
Variable SignatureFromBytes : list Z → option Sig.
Variable VerifyProofOfPossession : K → Sig → list Z → bool.
Variable rnd : nat → Z → option (list Z).
Variable optimal : Z → Z * Z.
Variable estimate : Z → Z → Z.
Variable MySubnets : list (list Z).
Variable initialDelay maxDelay : Z.
Variable AllowPrivateIPs RequireValidatorToConnect : bool.
Variable MyNodeID : list Z.

Local Abbreviation netst := (netst (Sig := Sig) (App := App)).
Local Abbreviation pobj := (pobj (Sig := Sig) (App := App)).
Local Abbreviation micro := (micro (App := App)).
Local Abbreviation exec_micro :=
  (exec_micro (Sig := Sig) (App := App) sha256 ripemd160 grow CheckSignature rnd optimal estimate MySubnets).
Local Abbreviation netstep :=
  (netstep (Sig := Sig) (App := App) (Out := Out) sha256 ripemd160 grow ParseCertificate CheckSignature SignatureFromBytes VerifyProofOfPossession
     rnd optimal estimate MySubnets initialDelay maxDelay AllowPrivateIPs RequireValidatorToConnect MyNodeID).
Local Abbreviation ainv := (ainv (Sig := Sig) (App := App) sha256 ripemd160).

(** The subnets a peer has still to announce. *)
Definition announces (m : micro) : option (list Z) := match m with MRouter _ s => Some s | _ => None end.
Definition to_announce (l : list micro) : list (list Z) := omap announces l.

(** All that is announced of a peer. *)
Definition announced_as (p : peer (Sig := Sig)) : list (list Z) :=
  PrimaryNetworkID :: filter (λ s, s ∈ p_trackedSubnets p) MySubnets.

(** The part of a peer's announcements that is done, by where it is. *)
Definition announcing (tr : list (revent (App := App))) (o : pobj) : Prop :=
  match po_phase o with
  | Connecting | Moved => to_announce (po_todo o) = []
  | Known | Up | Leaving => heard (po_id o) tr ++ to_announce (po_todo o) = announced_as (po_peer o)
  | Left | Gone => True
  end.
Definition hinv (s : netst) : Prop := ∀ j o, objs s !! j = Some o → announcing (trace s) o.

Lemma hinv_same s s' : same_peers s s' → hinv s → hinv s'.
Proof. intros (_ & _ & E1 & E2 & _) H j o. rewrite E1, E2. apply H. Qed.

Lemma hinv_obj s j o' s' : hinv s → objs s' = <[j := o']> (objs s) → announcing (trace s') o' →
  (∀ k x, k ≠ j → objs s !! k = Some x → po_phase x ≠ Gone → heard (po_id x) (trace s') = heard (po_id x) (trace s)) → hinv s'.
Proof.
  intros H Eo Hj Hne k x. rewrite Eo. intros [(-> & -> & _)|(Hk & Hx)]%list_lookup_insert_Some; [done|].
  pose proof (H k x Hx) as Hx'. unfold announcing in *. destruct (po_phase x) eqn:Ep; try done; rewrite (Hne k x (not_eq_sym Hk) Hx); congruence.
Qed.

(** Between two messages the handlers do not change what is announced. *)
Lemma quiet_announces all (acts : list (action (Out := Out) (App := App))) : to_announce (acts ≫= micro_of all) = [].
Proof.
  induction acts as [|a acts IH]; [done|]. cbn. unfold to_announce in *. rewrite omap_app, IH, app_nil_r. by destruct a.
Qed.

Lemma handle_subnets e m (p p' : peer (Sig := Sig)) (acts : list (action (Out := Out) (App := App))) : gotHandshake p = true →
  handle sha256 ripemd160 grow ParseCertificate CheckSignature SignatureFromBytes VerifyProofOfPossession e m p = Some (p', acts) →
  p_trackedSubnets p' = p_trackedSubnets p.
Proof.
  intros Hg. destruct m as [u| |m|known all|l|m]; cbn [Peer.handle].
  - unfold handlePing, Peer.close. case_bool_decide; [|destruct (e_PongMsg e)]; by intros [= <- _].
  - by intros [= <- _].
  - unfold handleHandshake, Peer.close. rewrite Hg. by intros [= <- _].
  - unfold handleGetPeerList, Peer.close. destruct (negb _); [by intros [= <- _]|].
    destruct (readKnownPeers _) as [[f salt]|]; [|by intros [= <- _]]. destruct (e_Peers _ _ _ _ _); [|done]. cbn.
    case_bool_decide; [|destruct (e_PeerListMsg _ _ _)]; by intros [= <- _].
  - unfold handlePeerList. destruct (negb _ && _); [by intros [= <- _]|].
    destruct (negb _); (destruct (discover _ _ _ _ _) as [[ips|]|]; [..|done]); by intros [= <- _].
  - by intros [= <- _].
Qed.

(** ** The regions under the lock leave the peers and the router alone *)

Definition same_objs (s s' : netst) : Prop := objs s' = objs s ∧ trace s' = trace s.

Lemma same_peers_objs s s' : same_peers s s' → same_objs s s'.
Proof. by intros (_ & _ & E1 & E2 & _). Qed.

Lemma net_Connected_objs n s q s' : net_Connected n s = Some (q, s') → same_objs s s'.
Proof.
  unfold net_Connected. destruct (GetByID _ _) as [[p|]|]; [..|done]; cbn [mbind option_bind]; [|by intros [= _ <-]].
  destruct (peerSet_Remove _ _ _); [|done]. cbn [mbind option_bind]. destruct (peerSet_Add _ _ _); [|done]. intros [= _ <-].
  apply (same_peers_objs s (untrack n s)), untrack_same.
Qed.

Lemma track_locked_objs ip s i s' i' : track_locked sha256 rnd optimal estimate ip s i = Some (s', i') → same_objs s s'.
Proof.
  unfold track_locked. destruct (AddIP _ _ _ _ _ _) as [[w i2]|]; [|done]. cbn [mbind option_bind].
  destruct (negb w); [by intros [= <- _]|]. destruct (in_set _ _) as [[]|]; cbn; [by intros [= <- _]| |done].
  destruct (trackedIPs s !! _); [destruct (trackNewIP_dial _ _ _ _) eqn:E2; [|done]|]; cbn; intros [= <- _]; [|done].
  by eapply same_peers_objs, trackNewIP_same.
Qed.

Lemma from_connecting_objs n s i s' : disconnectedFromConnecting n s i = Some s' → same_objs s s'.
Proof.
  unfold disconnectedFromConnecting. destruct (peerSet_Remove _ _ _) as [a|]; [|done]. cbn [mbind option_bind].
  destruct (trackedIPs _ !! _); [|by intros [= <-]]. destruct (WantsConnection _ _).
  - intros E%trackNewIP_same. apply (same_peers_objs _ _ E).
  - intros [= <-]. apply (same_peers_objs (set_sets a (connectedPeers s) s)), untrack_same.
Qed.

Lemma from_connected_objs n s i s' : disconnectedFromConnected_locked n s i = Some s' → same_objs s s'.
Proof.
  unfold disconnectedFromConnected_locked. destruct (peerSet_Remove _ _ _); [|done]. cbn [mbind option_bind].
  by destruct (GetIP _ _) as [[] []]; intros [= <-].
Qed.

(** ** Every step keeps the announcements *)

Lemma announcing_keep tr tr' (o o' : pobj) : announcing tr o → po_phase o' = po_phase o → po_peer o' = po_peer o →
  to_announce (po_todo o') = to_announce (po_todo o) → heard (po_id o) tr' = heard (po_id o) tr → announcing tr' o'.
Proof. unfold announcing, po_id. intros H -> -> -> ->. done. Qed.

(** Where the calls of a peer come. *)
Lemma micro_place j (o : pobj) m rest : todo_ok j o → po_todo o = m :: rest →
  match m with
  | MConnected => po_phase o = Connecting
  | MRouter _ _ => po_phase o = Known ∨ po_phase o = Up
  | MDTracker => po_phase o = Up
  | _ => True
  end.
Proof.
  unfold todo_ok. intros Hto Em. rewrite Em in Hto. destruct (po_phase o).
  - destruct (po_left o); [by destruct Hto as [[= -> ->]|[= -> ->]]|].
    destruct Hto as [[_ Hc]|(_ & ? & [= -> ->] & _)]; [|done]. by apply Forall_cons in Hc as [-> _].
  - by destruct Hto as (_ & _ & ? & [= -> ->] & _).
  - destruct Hto as (_ & _ & ? & ? & [= -> ->] & _). by left.
  - destruct Hto as [_ Hto]. destruct (po_left o); [by destruct Hto as [[= -> ->]|[= -> ->]]|].
    apply Forall_cons in Hto as [Hm _]. destruct m; try done. by right.
  - by destruct Hto as [_ [= -> ->]].
  - by destruct Hto as [_ [= -> ->]].
  - by destruct Hto.
Qed.

Section micro.
Context (maxT : Z) (j : nat) (o : pobj) (s : netst) (i : ipTracker).
Hypothesis Ha : ainv s i.
Hypothesis Hh : hinv s.
Hypothesis Hj : objs s !! j = Some o.

(** The calls that do not concern the router. *)
Lemma hinv_quiet s1 o' : same_objs s s1 → announcing (trace s) o' → hinv (set_obj j o' s1).
Proof.
  intros [E1 E2] Ho. apply (hinv_obj s j o'); cbn; [done|by rewrite E1|by rewrite E2|]. intros. by rewrite E2.
Qed.

Lemma hinv_go s1 todo : same_objs s s1 → to_announce todo = to_announce (po_todo o) → hinv (set_obj j (go todo o) s1).
Proof. intros Hs Et. apply hinv_quiet; [done|]. by eapply (announcing_keep (trace s)); [apply (Hh j o Hj)|..]. Qed.

Lemma hinv_notify o' e : ev_node e = po_id o → po_phase o ≠ Gone → announcing (trace s ++ [e]) o' → hinv (set_obj j o' (notify e s)).
Proof.
  intros Ee Hg Ho. apply (hinv_obj s j o'); [done..|]. intros k x Hk Hx Hgx. cbn [set_obj notify trace]. apply heard_other.
  rewrite Ee. intros E. apply Hk. by eapply (a_uniq _ _ _ _ Ha).
Qed.

Lemma hinv_micro m rest s' i' : po_todo o = m :: rest → exec_micro maxT j o m rest s i = Some (s', i') → hinv s'.
Proof.
  intros Em He. pose proof (ok_todo _ _ _ _ (a_objs _ _ _ _ Ha j o Hj)) as Hto.
  pose proof (micro_phase _ _ _ _ Hto Em) as Hph. pose proof (micro_place _ _ _ _ Hto Em) as Hpl.
  assert (po_phase o ≠ Gone) as Hg by (intros Eg; unfold todo_ok in Hto; rewrite Eg, Em in Hto; by destruct Hto). clear Hto.
  pose proof (Hh j o Hj) as Ho.
  destruct m as [|q|v sub|all [|ip l]|ip all l|msg| | | | | |]; cbn [Network.exec_micro] in He.
  - destruct (net_Connected _ _) as [[q s1]|] eqn:E; [|done]. apply net_Connected_objs in E.
    cbn [mbind option_bind] in He. destruct q; injection He as <- <-; [|apply hinv_go; by rewrite ?Em]. apply hinv_quiet; [done|].
    unfold announcing in *. rewrite Hpl, Em in Ho. exact Ho.
  - destruct Hph as [Ep ->]. rewrite Hj in He. cbn [mbind option_bind] in He. destruct (p_ip _); [|done]. cbn [mbind option_bind] in He.
    destruct (NewClaimedIPPort _ _ _ _ _ _ _); [|done]. cbn [mbind option_bind] in He. destruct (Connected _ _ _ _ _ _ _); [|done].
    injection He as <- <-. apply hinv_quiet; [done|]. unfold announcing in *. rewrite Ep, Em in Ho. cbn in Ho |- *.
    destruct (a_live _ _ _ _ Ha j o Hj) as (_ & _ & _ & V4); [congruence|]. rewrite Ep in V4.
    change (po_id (at_phase _ _)) with (po_id o). rewrite (heard_down _ _ V4). cbn. unfold announced_as. f_equal.
    unfold to_announce in *. rewrite omap_app, Ho, app_nil_r. generalize (filter (λ s, s ∈ p_trackedSubnets (po_peer o)) MySubnets).
    intros l. induction l as [|x l IH]; [done|]. cbn. by f_equal.
  - injection He as <- <-. apply hinv_notify; [done|done|]. unfold announcing in *. cbn [po_phase at_phase po_peer po_todo go].
    change (po_id (at_phase _ _)) with (po_id o). rewrite heard_snoc. cbn [heard_step]. fold (po_id o). rewrite bool_decide_eq_true_2 by done.
    rewrite Em in Ho. cbn in Ho. rewrite <-app_assoc. by destruct Hpl as [E|E]; rewrite E in Ho.
  - injection He as <- <-. apply hinv_go; [done|by rewrite Em].
  - destruct (negb _); [injection He as <- <-; apply hinv_go; [done|by rewrite Em]|].
    destruct (SignedIP_Verify _ _ _ _ _) as [[]|]; [..|done]; injection He as <- <-; apply hinv_go; [done|by rewrite Em|done|by rewrite Em].
  - destruct (track_locked _ _ _ _ _ _ _) as [[s1 i1]|] eqn:E; [|done]. apply track_locked_objs in E. injection He as <- <-.
    apply hinv_go; [done|by rewrite Em].
  - injection He as <- <-. apply hinv_notify; [done|done|]. eapply announcing_keep; [exact Ho|done|done|by rewrite Em|]. by rewrite heard_snoc.
  - injection He as <- <-. apply hinv_quiet; [done|]. eapply announcing_keep; [exact Ho|done|done|by rewrite Em|done].
  - rewrite !in_set_get in He by apply Ha. injection He as <- <-. apply hinv_go; [done|]. rewrite Em. by do 2 case_bool_decide.
  - destruct (disconnectedFromConnecting _ _ _) as [s1|] eqn:E; [|done]. apply from_connecting_objs in E. injection He as <- <-.
    by apply hinv_quiet.
  - destruct (Disconnected _ _); [|done]. injection He as <- <-. apply hinv_quiet; [done|]. unfold announcing in *. rewrite Hpl, Em in Ho. exact Ho.
  - injection He as <- <-. apply hinv_notify; done.
  - destruct (disconnectedFromConnected_locked _ _ _) as [s1|] eqn:E; [|done]. apply from_connected_objs in E. injection He as <- <-.
    by apply hinv_quiet.
Qed.
End micro.

Lemma hinv_new : hinv new_netst.
Proof. by intros j o Hj. Qed.

Hypothesis Hrip : ∀ bs, length (ripemd160 bs) = 20%nat.

Lemma upgrade_hinv n cert s s' : upgrade_locked n cert s = Some s' → hinv s → hinv s'.
Proof.
  intros E Hh. unfold upgrade_locked in E. destruct (closing s); [by simplify_eq|].
  destruct (in_set n (connectingPeers s)) as [[]|]; cbn [mbind option_bind] in E; [by simplify_eq| |done].
  destruct (in_set n (connectedPeers s)) as [[]|]; cbn [mbind option_bind] in E; [by simplify_eq| |done].
  destruct (peerSet_Add _ _ _); [|done]. injection E as <-. intros j o. cbn [add_obj set_sets objs trace].
  intros [Hj|[_ [_ <-]%list_lookup_singleton_Some]]%lookup_app_Some; [by apply (Hh j)|done].
Qed.

Lemma close_hinv s : hinv s → hinv (StartClose s).
Proof.
  intros Hh. unfold StartClose. destruct (closing s); [done|]. intros j o'. cbn [objs trace]. rewrite !close_all_lookup.
  destruct (objs s !! j) as [o|] eqn:Hj; [|done]. cbn. intros [= <-]. pose proof (Hh j o Hj) as Ho.
  by do 2 case_bool_decide; cbn; (eapply announcing_keep; [exact Ho|..]).
Qed.

Lemma netstep_hinv a s i s' i' : netstep a s i s' i' → ainv s i → hinv s → hinv s'.
Proof.
  intros Hst Ha Hh. destruct Hst as [j o e m all p acts s i Hj Et El Hm Hp|j o s i Hj El|j o m rest maxT s i s' i' Hj Em He|
    j o s i Hj Et El|k n ip s i s' Hn Hl|k n r t s i Hn|k n r more s i s' Hn Hl|k n r t r1 r2 d s i Hn|k n r s i Hn|k n r cert am s i Hn|
    cert am s i|k n cert d s i s' Hn Hl|s i].
  - pose proof (a_objs _ _ _ _ Ha j o Hj) as [Hok Hto]. destruct (idle_phase j o Hto Et El) as [[Ep Ef]|[Ep Ef]];
      (apply (hinv_quiet j s Hh s); [done|]); unfold announcing; cbn [po_phase po_todo]; rewrite Ep, quiet_announces; [done|].
    pose proof (Hh j o Hj) as Ho. unfold announcing in Ho. rewrite Ep, Et in Ho. unfold announced_as, po_id in *. cbn [po_peer] in *.
    rewrite (handle_subnets e m (po_peer o) p acts); [|by apply Hok; auto|done].
    by apply handle_acts in Hp as (_ & -> & _).
  - apply (hinv_quiet j s Hh s); [done|]. by eapply announcing_keep; [apply (Hh j o Hj)|..].
  - by eapply hinv_micro.
  - apply (hinv_quiet j s Hh s); [done|]. eapply announcing_keep; [apply (Hh j o Hj)|done|done|by rewrite Et|done].
  - destruct (ManuallyTrack_ok _ _ n ip s i Ha) as (s2 & E & Hs). rewrite Hl in E. simplify_eq. by apply (hinv_same s).
  - by apply (hinv_same s).
  - destruct (dial_locked_ok _ _ n s i Ha) as (b & s2 & E & Hs). rewrite Hl in E. simplify_eq. by apply (hinv_same s).
  - by apply (hinv_same s).
  - by apply (hinv_same s).
  - apply (hinv_same s); [|done]. apply (end_dial_same n r (upgrade_start _ _ _ _ _ _ _ _) s).
  - by apply (hinv_same s).
  - apply (hinv_same s'); [done|]. by eapply upgrade_hinv.
  - by apply close_hinv.
Qed.
End router.
