(* ===== verification/NetworkTheorems.v ===== *)
(** * The network, its IP tracker and the validator manager

    The network of Network.v with the IP tracker it owns, which listens to the validator
    manager.  The system is all three: operations of the manager, whose calls are delivered to
    the tracker, calls that track or gossip a node by hand and reset the bloom filter, and the
    steps of the network. *)

From S2P Require Import Prelude SafeMath Sampler DrawLoop IndexedList Bloom VdrManager VdrManagerProps VdrManagerTheorems IpTracker IpTrackerProps IpTrackerTheorems PeerSet Float64 Version SignedIp Peer PeerProps Network NetworkPeers NetworkDials NetworkRouter.

Section system.
Context {PK K Sig Out App : Type}.
Variable sha256 ripemd160 : list Z → list Z.
Variable grow : nat → nat.
Variable ParseCertificate : list Z → bool.
Variable CheckSignature : list Z → list Z → list Z → bool.
Variable SignatureFromBytes : list Z → option Sig.
Variable VerifyProofOfPossession : K → Sig → list Z → bool.
Variable rnd : nat → Z → option (list Z).
Variable optimal : Z → Z * Z.
Variable estimate : Z → Z → Z.
Variable self : nat.
Variable MySubnets : list (list Z).
Variable initialDelay maxDelay : Z.
Variable AllowPrivateIPs RequireValidatorToConnect : bool.
Variable MyNodeID : list Z.

Local Abbreviation netst := (netst (Sig := Sig) (App := App)).
Local Abbreviation iexec := (iexec sha256 rnd optimal estimate).
Local Abbreviation exec_micro :=
  (exec_micro (Sig := Sig) (App := App) sha256 ripemd160 grow CheckSignature rnd optimal estimate MySubnets).
Local Abbreviation netstep :=
  (netstep (Sig := Sig) (App := App) (Out := Out) sha256 ripemd160 grow ParseCertificate CheckSignature SignatureFromBytes VerifyProofOfPossession
     rnd optimal estimate MySubnets initialDelay maxDelay AllowPrivateIPs RequireValidatorToConnect MyNodeID).
Local Abbreviation netpanic :=
  (netpanic (Sig := Sig) (App := App) (Out := Out) sha256 ripemd160 grow ParseCertificate CheckSignature SignatureFromBytes VerifyProofOfPossession
     rnd optimal estimate MySubnets).
Local Abbreviation ainv := (ainv (Sig := Sig) (App := App) sha256 ripemd160).
Local Abbreviation binv := (binv (Sig := Sig) (App := App) sha256 ripemd160 None).

(** Calls of the tracker that are not part of a step of the network. *)
Definition by_hand (o : iop) : Prop :=
  match o with OManuallyGossip _ _ | OResetBloom => True | _ => False end.

(** The system: the manager with its reference and the calls it made, the tracker, what was
    tracked by hand, and the network. *)
Record gst := mkGst {
  gs_manager : manager PK;
  gs_ref : gmap (list Z) (gmap (list Z) (PK * list Z * Z));
  gs_log : list (vcall PK);
  gs_tracker : ipTracker;
  gs_hand : byhand;
  gs_net : netst;
}.

Inductive gstep : actor → gst → gst → Prop :=
| gstep_manager m r log i h s op res m' calls i' :
    op_ok op m → exec op m = Some (res, m', calls) → deliver sha256 rnd optimal estimate self calls i = Some i' →
    gstep ByOther (mkGst m r log i h s) (mkGst m' (rexec op r).2 (log ++ calls) i' h s)
| gstep_by_hand m r log i h s o i' :
    by_hand o → iexec o i = Some i' → gstep ByOther (mkGst m r log i h s) (mkGst m r log i' (iref o i h) s)
| gstep_manual m r log i h s n ip i' :
    iexec (OManuallyTrack n) i = Some i' →
    gstep ByOther (mkGst m r log i h s) (mkGst m r log i' (iref (OManuallyTrack n) i h) (add_nthread (MTLock n ip) s))
| gstep_net a m r log i h s i' s' :
    netstep a s i s' i' → gstep a (mkGst m r log i h s) (mkGst m r log i' h s').

(** The states in which a step can panic. *)
Inductive gpanic : gst → Prop :=
| gpanic_manager m r log i h s op : op_ok op m → exec op m = None → gpanic (mkGst m r log i h s)
| gpanic_deliver m r log i h s op res m' calls :
    op_ok op m → exec op m = Some (res, m', calls) → deliver sha256 rnd optimal estimate self calls i = None →
    gpanic (mkGst m r log i h s)
| gpanic_hand m r log i h s o : by_hand o ∨ (∃ n, o = OManuallyTrack n) → iexec o i = None → gpanic (mkGst m r log i h s)
| gpanic_net m r log i h s : netpanic s i → gpanic (mkGst m r log i h s).

Inductive greach (ts : gset (list Z)) : gst → Prop :=
| greach_new i :
    newIPTracker sha256 rnd optimal estimate ts = Some (Ok (), i) →
    greach ts (mkGst NewManager ∅ [] i (mkByhand ∅ ∅) new_netst)
| greach_step a g g' : greach ts g → gstep a g g' → greach ts g'.

Hypothesis Hrip : ∀ bs, length (ripemd160 bs) = 20%nat.
Hypothesis Hrnd : ∀ k n bs, (0 ≤ n)%Z → rnd k n = Some bs → bytes_ok bs ∧ Z.of_nat (length bs) = n.
Hypothesis Hopt : ∀ c, ((optimal c).2 < 2 ^ 60)%Z.

Lemma it_ok_tframe i h vd : it_ok i h vd → tframe sha256 rnd optimal estimate i.
Proof.
  intros [H Hw]. split.
  - intros ip T Hn. destruct (Connected_ok sha256 rnd optimal estimate Hrnd Hopt ip T i _ H Hw Hn) as (i' & E & _ & _ & _ & Hc). eauto.
  - intros n. destruct (Disconnected_ok n i _ H Hw) as (i' & E & _ & _ & _ & Hc & _). eauto.
  - intros ip. destruct (AddIP_ok sha256 rnd optimal estimate Hrnd Hopt ip i _ H Hw) as (b & i' & E & _ & _ & _ & Hc & _). eauto.
Qed.

(** What a step of the network does to the tracker is an operation it allows. *)
Lemma netstep_op a s i s' i' : netstep a s i s' i' → ainv s i →
  i' = i ∨ ∃ o, iop_ok o i ∧ iexec o i = Some i' ∧ ∀ h, iref o i h = h.
Proof.
  intros Hst Ha. destruct Hst as [| |j o m rest maxT s i s' i' Hj Em He| | | | | | | | | |]; try by left.
  pose proof (micro_phase _ _ _ _ (ok_todo _ _ _ _ (a_objs _ _ _ _ Ha j o Hj)) Em) as Hph.
  destruct m as [|q|v sub|all [|ip l]|ip all l|msg| | | | | |]; cbn [Network.exec_micro] in He.
  - destruct (net_Connected _ _) as [[[]]|]; [..|done]; injection He as <- <-; by left.
  - destruct Hph as [Ep ->]. rewrite Hj in He. cbn [mbind option_bind] in He.
    destruct (p_ip (po_peer o)) as [ip|]; [|done]. cbn [mbind option_bind] in He. rewrite NewClaimedIPPort_spec in He by done.
    cbn [mbind option_bind] in He. destruct (Connected _ _ _ _ _ _ _) as [i1|] eqn:E; [|done]. injection He as <- <-.
    right. eexists (OConnected _ _). split_and!; [|exact E|done]. cbn.
    destruct (a_live _ _ _ _ Ha j o Hj) as (_ & _ & V3 & _); [congruence|]. rewrite Ep in V3. cbn in V3.
    unfold po_id in V3. by rewrite (pk_id _ _ _ (ok_peer _ _ _ _ (a_objs _ _ _ _ Ha j o Hj))) in V3.
  - injection He as <- <-. by left.
  - injection He as <- <-. by left.
  - destruct (negb _); [injection He as <- <-; by left|].
    destruct (SignedIP_Verify _ _ _ _ _) as [[]|]; [..|done]; injection He as <- <-; by left.
  - destruct (track_locked _ _ _ _ _ _ _) as [[s1 i1]|] eqn:E; [|done]. injection He as <- <-. right. exists (OAddIP ip).
    split_and!; [done| |done]. unfold track_locked in E. cbn. destruct (AddIP _ _ _ _ _ _) as [[w i2]|]; [|done]. cbn [mbind option_bind] in *.
    destruct (negb w); [by simplify_eq|]. destruct (in_set _ _) as [[]|]; cbn in E; [by simplify_eq| |done].
    destruct (trackedIPs s !! _); [destruct (trackNewIP_dial _ _ _ _); [|done]|]; cbn in E; by simplify_eq.
  - injection He as <- <-. by left.
  - injection He as <- <-. by left.
  - rewrite !in_set_get in He by apply Ha. injection He as <- <-. by left.
  - destruct (disconnectedFromConnecting _ _ _); [|done]. injection He as <- <-. by left.
  - destruct (Disconnected _ _) as [i1|] eqn:E; [|done]. injection He as <- <-. right. by exists (ODisconnected (p_id (po_peer o))).
  - injection He as <- <-. by left.
  - destruct (disconnectedFromConnected_locked _ _ _); [|done]. injection He as <- <-. by left.
Qed.

Record ginv (ts : gset (list Z)) (g : gst) : Prop := {
  g_system : sreach sha256 rnd optimal estimate self ts (gs_manager g) (gs_ref g) (gs_log g) (gs_tracker g) (gs_hand g);
  g_tracker : it_ok (gs_tracker g) (gs_hand g) (followed (PK := PK) self (gs_log g));
  g_peers : ainv (gs_net g) (gs_tracker g);
  g_dials : binv (gs_net g);
  g_router : hinv MySubnets (gs_net g);
}.

Lemma binv_ips s : binv s → ips_known s.
Proof. intros H n r Hn. destruct (b_ref _ _ _ _ H n r Hn) as (t & Ht & _). eauto. Qed.

Lemma gstep_ok ts a g g' : gstep a g g' → ginv ts g → ginv ts g'.
Proof.
  intros Hst Hg. destruct Hst as [m r log i h s op res m' calls i' Hop He Hd|m r log i h s o i' Ho He|
    m r log i h s n ip i' He|a m r log i h s i' s' Hst]; destruct Hg as [Hs Hi Ha Hb Hh];
    cbn [gs_manager gs_ref gs_log gs_tracker gs_hand gs_net] in *.
  - destruct (deliver_it sha256 rnd optimal estimate self Hrnd Hopt calls i h _ Hi) as (i2 & E2 & Hi2 & _ & Hc). rewrite Hd in E2. simplify_eq.
    split; [by eapply sreach_manager| |by apply (ainv_same _ _ s s i i2)|done..]. cbn. unfold followed. by rewrite foldl_app.
  - assert (iop_ok o i) as Hop by by destruct o.
    destruct (iexec_it sha256 rnd optimal estimate Hrnd Hopt o i h _ Hi Hop) as (i2 & E2 & Hi2 & _ & Hc). rewrite He in E2. simplify_eq.
    split; [by eapply sreach_tracker|done| |done..]. apply (ainv_same _ _ s s i i2); [done| |done]. by destruct o.
  - destruct (iexec_it sha256 rnd optimal estimate Hrnd Hopt (OManuallyTrack n) i h _ Hi I) as (i2 & E2 & Hi2 & _ & Hc). rewrite He in E2. simplify_eq.
    split; [by eapply sreach_tracker|done|by apply (ainv_same _ _ s _ i i2)|by apply binv_add|by apply (hinv_same MySubnets s)].
  - assert (ainv s' i' ∧ binv s' ∧ hinv MySubnets s') as (Ha' & Hb' & Hh').
    { split_and!; [|by eapply netstep_binv|by eapply netstep_hinv].
      eapply netstep_ainv; [done|exact Hst|done|by eapply it_ok_tframe|by apply binv_ips|apply Hb]. }
    destruct (netstep_op _ _ _ _ _ Hst Ha) as [->|(o & Hop & He & Hhd)]; [by split|].
    assert (sreach sha256 rnd optimal estimate self ts m r log i' (iref o i h)) as Hs' by by eapply sreach_tracker.
    rewrite Hhd in Hs'. split; [done| |done..]. by apply (sreach_ok sha256 rnd optimal estimate self Hrnd Hopt) in Hs' as (_ & ? & _).
Qed.

Lemma greach_ok ts g : greach ts g → ginv ts g.
Proof.
  induction 1 as [i E|a g g' _ Hg Hst]; [|by eapply gstep_ok].
  assert (sreach (PK := PK) sha256 rnd optimal estimate self ts NewManager ∅ [] i (mkByhand ∅ ∅)) as Hs by by apply sreach_new.
  destruct (sreach_ok sha256 rnd optimal estimate self Hrnd Hopt _ _ _ _ _ _ Hs) as (_ & Hi & _).
  split; [done..| |apply binv_new|apply hinv_new]. apply ainv_new. by apply (newIPTracker_it sha256 rnd optimal estimate Hrnd Hopt) in E as (_ & _ & ?).
Qed.

(** ** What is shown *)

(** A peer whose goroutines have ended and which the network has forgotten. *)
Definition ended (o : pobj (Sig := Sig) (App := App)) : Prop := po_left o = true ∧ po_todo o = [].

Lemma ended_gone s i j o : ainv s i → objs s !! j = Some o → ¬ ended o → po_phase o ≠ Gone.
Proof.
  intros Ha Hj He Eg. apply He. pose proof (ok_todo _ _ _ _ (a_objs _ _ _ _ Ha j o Hj)) as Hto. unfold todo_ok in Hto. by rewrite Eg in Hto.
Qed.

Lemma view_of s i n : ainv s i → ∃ j ph, view s i n j ph.
Proof.
  intros Ha. destruct (decide (Exists (λ o, po_id o = n ∧ po_phase o ≠ Gone) (objs s))) as [He|He].
  - apply list.Exists_exists in He as (o & [j Hj]%list_elem_of_lookup & <- & Hg). exists j, (po_phase o). by apply Ha.
  - exists 0%nat, Gone. apply Ha. intros j o Hj En. destruct (decide (po_phase o = Gone)); [done|]. exfalso. apply He.
    apply list.Exists_exists. exists o. split; [by eapply list_elem_of_lookup_2|done].
Qed.

(** ** No panic *)

Lemma netpanic_never s i h vd : it_ok i h vd → ainv s i → binv s → ¬ netpanic s i.
Proof.
  intros Hi Ha Hb Hp. destruct Hp as [j o e m s i Hj Et El Hm He Hn|j o m rest maxT s i Hj Em Hn|k n ip s i Hk Hn|k n r s i Hk Hn|
    k n r s i Hk Hn|k n cert d s i Hk Hn].
  - destruct (handle_total sha256 ripemd160 grow ParseCertificate CheckSignature SignatureFromBytes VerifyProofOfPossession e m (po_peer o) Hrip)
      as [x Hx]; [|done|congruence]. by intros x ->.
  - destruct (micro_ok sha256 ripemd160 grow CheckSignature rnd optimal estimate MySubnets Hrip maxT j o s i Ha (it_ok_tframe _ _ _ Hi) (binv_ips _ Hb) Hj m rest Em)
      as (s' & i' & E & _). congruence.
  - destruct (ManuallyTrack_ok _ _ n ip s i Ha) as (s' & E & _). congruence.
  - destruct (dial_locked_ok _ _ n s i Ha) as (b & s' & E & _). congruence.
  - destruct Hk as [Hk|Hk]; (destruct (b_thread _ _ _ _ Hb _ n r (list_elem_of_lookup_2 _ _ _ Hk) eq_refl) as (t & Ht & _)); congruence.
  - destruct (ainv_upgrade sha256 ripemd160 s i n cert Ha) as (s' & E & _); [|congruence].
    eapply (b_upgrades _ _ _ _ Hb). by eapply list_elem_of_lookup_2.
Qed.

Lemma gpanic_never ts g : greach ts g → ¬ gpanic g.
Proof.
  intros [Hs Hi Ha Hb _]%greach_ok Hp. destruct Hp as [m r log i h s op Hop He|m r log i h s op res m' calls Hop He Hd|m r log i h s o Ho He|m r log i h s Hp];
    cbn [gs_manager gs_ref gs_log gs_tracker gs_hand gs_net] in *.
  - destruct (sreach_ok sha256 rnd optimal estimate self Hrnd Hopt _ _ _ _ _ _ Hs) as ([Hm _]%vreach_ok & _).
    destruct (exec_step _ _ _ Hm Hop) as (m' & calls & E & _). congruence.
  - destruct (deliver_it sha256 rnd optimal estimate self Hrnd Hopt calls i h _ Hi) as (i' & E & _). congruence.
  - destruct (iexec_it sha256 rnd optimal estimate Hrnd Hopt o i h _ Hi) as (i' & E & _); [|congruence].
    destruct Ho as [Ho|[n ->]]; [by destruct o|done].
  - by eapply netpanic_never.
Qed.

(** ** What the router heard *)

Lemma heard_of s i j o : ainv s i → hinv MySubnets s → objs s !! j = Some o → po_phase o ≠ Gone →
  rstate (po_id o) (trace s) = Some true →
  heard (po_id o) (trace s) ++ to_announce (po_todo o) = announced_as MySubnets (po_peer o).
Proof.
  intros Ha Hh Hj Hg Hr. destruct (a_live _ _ _ _ Ha j o Hj Hg) as (_ & _ & _ & V4). rewrite Hr in V4.
  pose proof (Hh j o Hj) as Ho. unfold announcing in Ho. by destruct (po_phase o).
Qed.

Lemma heard_NoDup s i n : ainv s i → hinv MySubnets s → NoDup (PrimaryNetworkID :: MySubnets) → NoDup (heard n (trace s)).
Proof.
  intros Ha Hh [Hn Hd]%NoDup_cons.
  destruct (decide (Exists (λ o, po_id o = n ∧ po_phase o ≠ Gone) (objs s))) as [He|He].
  - apply list.Exists_exists in He as (o & [j Hj]%list_elem_of_lookup & <- & Hg).
    destruct (a_live _ _ _ _ Ha j o Hj Hg) as (_ & _ & _ & V4). destruct (in_router (po_phase o)); [|rewrite heard_down; [constructor|done]].
    pose proof (heard_of s i j o Ha Hh Hj Hg V4) as E. eapply (NoDup_app _ (to_announce (po_todo o))). rewrite E. unfold announced_as.
    constructor; [rewrite list_elem_of_filter; by intros [_ ?]|by apply NoDup_filter].
  - rewrite heard_down; [constructor|]. apply (a_none _ _ _ _ Ha n). intros j o Hj En. destruct (decide (po_phase o = Gone)); [done|]. exfalso. apply He.
    apply list.Exists_exists. exists o. split; [by eapply list_elem_of_lookup_2|done].
Qed.

(** C18: the network tells its router and its IP tracker about the nodes in a consistent way.
    In every state the network, its tracker and the validator manager reach, whatever the
    interleaving of the dials, the upgrades, the peers, the manager and the closing of the
    network: no step any of them can take panics; the state of the tracker is one that
    [ip_tracker_follows_validators] is about, since a node is never marked as connected twice;
    for each node the router hears of a connection to the primary network first, then of other
    subnets and of messages, then of the disconnection, and so on; of a connected node it
    hears, between the connection and the disconnection, the primary network and then the
    subnets that both nodes track, no subnet twice, what is still to come being what the peer
    has to do; a node that is connected for the router or for the tracker is among the
    connected peers, and one among the connecting peers is none of these; a node has at most
    one peer that has not ended; and once the network is closing, all of its peers are. *)
Theorem network_calls_consistent ts g : greach ts g →
  let s := gs_net g in let i := gs_tracker g in
  ¬ gpanic g ∧
  sreach sha256 rnd optimal estimate self ts (gs_manager g) (gs_ref g) (gs_log g) i (gs_hand g) ∧
  (∀ n, is_Some (rstate n (trace s)) ∧ (rstate n (trace s) = Some false → heard n (trace s) = []) ∧
     (NoDup (PrimaryNetworkID :: MySubnets) → NoDup (heard n (trace s))) ∧
     (rstate n (trace s) = Some true ∨ is_Some (connected i !! n) → is_Some (ps_get (connectedPeers s) n)) ∧
     (is_Some (ps_get (connectingPeers s) n) →
        ps_get (connectedPeers s) n = None ∧ rstate n (trace s) = Some false ∧ connected i !! n = None)) ∧
  (∀ j o, objs s !! j = Some o → ¬ ended o → rstate (po_id o) (trace s) = Some true →
     heard (po_id o) (trace s) ++ to_announce (po_todo o) = announced_as MySubnets (po_peer o)) ∧
  (∀ j k o o', objs s !! j = Some o → objs s !! k = Some o' → po_id o = po_id o' → ¬ ended o → ¬ ended o' → j = k) ∧
  (closing s = true → ∀ j o, objs s !! j = Some o → ¬ ended o → po_closing o = true).
Proof.
  intros Hg s i. pose proof (gpanic_never ts g Hg) as Hp. destruct (greach_ok _ _ Hg) as [Hs Hi Ha Hb Hh].
  fold s in Ha, Hb, Hh. fold i in Hs, Hi, Ha. split; [done|]. split; [done|]. split_and!.
  - intros n. split_and!; [|apply heard_down|by eapply heard_NoDup|..];
      (destruct (view_of s i n Ha) as (j & ph & V1 & V2 & V3 & V4)); rewrite ?V1, ?V2, ?V4; [done|..];
      destruct ph; cbn in *; intros H; try done; try (by destruct H as [?|[]]);
      try (rewrite V3 in H); try (by destruct H as [?|[]]); by destruct H.
  - intros j o Hj He. eapply heard_of; [done..|]. by eapply ended_gone.
  - intros j k o o' Hj Hk E He He'. eapply (a_uniq _ _ _ _ Ha); [done..| |]; by eapply ended_gone.
  - intros Hc j o Hj He. eapply (a_closing _ _ _ _ Ha); [done..|]. by eapply ended_gone.
Qed.

(** C20: dials are kept in order.  In every state the system reaches: a node is tracked by one
    object, which is not shared with another node and was not told to stop, and is not among
    the connected peers; a goroutine that dials is for an object that exists, and unless that
    object was told to stop it is the one its node is tracked by; no two goroutines dial for
    the same object, so none leaks; and while the network is not closing, every tracked node is
    being dialed, being upgraded or connecting, unless its goroutine ended with a connection
    to another node or one that was refused. *)
Theorem network_dials_tracked ts g : greach ts g →
  let s := gs_net g in
  (∀ n x, trackedIPs s !! n = Some x →
     (∃ t, ips s !! x = Some t ∧ stopped t = false) ∧ ps_get (connectedPeers s) n = None ∧
     ∀ n', trackedIPs s !! n' = Some x → n' = n) ∧
  (∀ th n x, th ∈ nthreads s → dial_of th = Some (n, x) →
     ∃ t, ips s !! x = Some t ∧ (stopped t = false → trackedIPs s !! n = Some x)) ∧
  NoDup (omap dial_ref (nthreads s)) ∧
  (closing s = false → ∀ n x, trackedIPs s !! n = Some x →
     Exists (serves n x) (nthreads s) ∨ is_Some (ps_get (connectingPeers s) n) ∨ x ∈ halted s).
Proof.
  intros [_ _ _ Hb _]%greach_ok s. fold s in Hb. split_and!.
  - intros n x Hn. split; [by eapply Hb|]. split; [by apply Hb|]. intros n' Hn'. by eapply (b_inj _ _ _ _ Hb).
  - apply Hb.
  - apply Hb.
  - intros Hc n x Hn. by apply (b_served _ _ _ _ Hb).
Qed.

(** ** Peers can always leave *)

Local Abbreviation micro := (micro (App := App)).

Definition weight (m : micro) : nat :=
  match m with
  | MConnected => 4 + length MySubnets
  | MTracker _ => 3 + length MySubnets
  | MTrack _ l => 1 + 2 * length l
  | MTrackLocked _ _ l => 2 + 2 * length l
  | MRead => 5
  | _ => 1
  end.
Definition todo_weight (l : list micro) : nat := sum_list_with weight l.

Lemma todo_weight_app l l' : todo_weight (l ++ l') = todo_weight l + todo_weight l'.
Proof. apply sum_list_with_app. Qed.

Lemma todo_weight_routers v l : todo_weight (MRouter v <$> l) = length l.
Proof. induction l as [|x l IH]; [done|]. cbn in *. unfold todo_weight in IH. lia. Qed.

Lemma micro_decreases maxT j o m rest s i s' i' : ainv s i → exec_micro maxT j o m rest s i = Some (s', i') →
  ∃ o', objs s' = <[j := o']> (objs s) ∧ po_left o' = po_left o ∧ po_id o' = po_id o ∧
    (todo_weight (po_todo o') < todo_weight (m :: rest))%nat.
Proof.
  intros Ha He.
  assert (∀ o', objs s' = <[j := o']> (objs s) → po_left o' = po_left o → po_id o' = po_id o →
    (todo_weight (po_todo o') < todo_weight (m :: rest))%nat → ∃ o', objs s' = <[j := o']> (objs s) ∧ po_left o' = po_left o ∧ po_id o' = po_id o ∧
    (todo_weight (po_todo o') < todo_weight (m :: rest))%nat) as Hex by (intros o' ????; by exists o').
  destruct m as [|q|v sub|all [|ip l]|ip all l|msg| | | | | |]; cbn [Network.exec_micro] in He.
  - destruct (net_Connected _ _) as [[q s1]|] eqn:E; [|done]. apply net_Connected_objs in E as [E _].
    destruct q; simplify_eq/=; (eapply Hex; [cbn; by f_equal|done|done|unfold todo_weight; cbn; lia]).
  - destruct (objs s !! q) as [o'|]; [|done]. cbn [mbind option_bind] in He. destruct (p_ip _); [|done]. cbn [mbind option_bind] in He.
    destruct (NewClaimedIPPort _ _ _ _ _ _ _); [|done]. cbn [mbind option_bind] in He. destruct (Connected _ _ _ _ _ _ _); [|done].
    simplify_eq/=. eapply Hex; [done|done|done|]. cbn [po_todo at_phase go].
    pose proof (length_filter (λ s, s ∈ p_trackedSubnets (po_peer o')) MySubnets) as Hl.
    change (todo_weight (MRouter ?v ?x :: ?l)) with (S (todo_weight l)). rewrite todo_weight_app, todo_weight_routers. unfold todo_weight. cbn. lia.
  - simplify_eq/=. eapply Hex; [done|done|done|unfold todo_weight; cbn; lia].
  - simplify_eq/=. eapply Hex; [done|done|done|unfold todo_weight; cbn; lia].
  - destruct (negb _); [simplify_eq/=; (eapply Hex; [done|done|done|unfold todo_weight; cbn; lia])|].
    destruct (SignedIP_Verify _ _ _ _ _) as [[]|]; [..|done]; simplify_eq/=; (eapply Hex; [done|done|done|unfold todo_weight; cbn; lia]).
  - destruct (track_locked _ _ _ _ _ _ _) as [[s1 i1]|] eqn:E; [|done]. apply track_locked_objs in E as [E _]. simplify_eq/=.
    eapply Hex; [cbn; by f_equal|done|done|unfold todo_weight; cbn; lia].
  - simplify_eq/=. eapply Hex; [done|done|done|unfold todo_weight; cbn; lia].
  - simplify_eq/=. eapply Hex; [done|done|done|unfold todo_weight; cbn; lia].
  - rewrite !in_set_get in He by apply Ha. simplify_eq/=. eapply Hex; [done|done|done|]. do 2 case_bool_decide; unfold todo_weight; cbn; lia.
  - destruct (disconnectedFromConnecting _ _ _) as [s1|] eqn:E; [|done]. apply from_connecting_objs in E as [E _]. simplify_eq/=.
    eapply Hex; [cbn; by f_equal|done|done|unfold todo_weight; cbn; lia].
  - destruct (Disconnected _ _); [|done]. simplify_eq/=. eapply Hex; [done|done|done|unfold todo_weight; cbn; lia].
  - simplify_eq/=. eapply Hex; [done|done|done|unfold todo_weight; cbn; lia].
  - destruct (disconnectedFromConnected_locked _ _ _) as [s1|] eqn:E; [|done]. apply from_connected_objs in E as [E _]. simplify_eq/=.
    eapply Hex; [cbn; by f_equal|done|done|unfold todo_weight; cbn; lia].
Qed.

(** A bound on the steps a peer has left when it handles no further message. *)
Definition remaining (o : pobj (Sig := Sig) (App := App)) : nat := (if po_left o then 0 else 6) + todo_weight (po_todo o).

Lemma remaining_ended o : remaining o = 0 ↔ ended o.
Proof.
  unfold remaining, ended. split.
  - destruct (po_left o); [|lia]. destruct (po_todo o) as [|m l]; [done|]. unfold todo_weight. destruct m; cbn; lia.
  - by intros [-> ->].
Qed.

(** Runs of the whole system in which the peer [j] handles no further message; the number
    counts its own steps, which the steps of the others interleave in any way. *)
Inductive gruns (j : nat) : nat → gst → gst → Prop :=
| gruns_refl g : gruns j 0 g g
| gruns_own k g g' g'' : gruns j k g g' → gstep (ByPeer j) g' g'' → gruns j (S k) g g''
| gruns_other k a g g' g'' : gruns j k g g' → gstep a g' g'' → a ≠ ByPeer j → a ≠ ByReader j → gruns j k g g''.

Lemma gruns_reach ts j k g g' : gruns j k g g' → greach ts g → greach ts g'.
Proof.
  intros Hrun Hr. induction Hrun as [|k g g' g'' _ IH Hst|k a g g' g'' _ IH Hst _ _]; [done|..]; (eapply greach_step; [by apply IH|exact Hst]).
Qed.

Lemma own_step ts j g g' : gstep (ByPeer j) g g' → ginv ts g →
  ∃ o o', objs (gs_net g) !! j = Some o ∧ objs (gs_net g') = <[j := o']> (objs (gs_net g)) ∧ po_id o' = po_id o ∧
    (remaining o' < remaining o)%nat.
Proof.
  intros Hst [_ _ Ha _ _]. inversion Hst as [| | |a m r log i h s i' s' Hn]; subst. cbn [gs_net gs_tracker] in *. clear Hst.
  inversion Hn as [| |j' o mi rest maxT s1 i1 s2 i2 Hj Em He|j' o s1 i1 Hj Et El| | | | | | | | |]; subst.
  - destruct (micro_decreases _ _ _ _ _ _ _ _ _ Ha He) as (o' & Eo & El & Ei & Hlt). exists o, o'. split_and!; [done..|].
    unfold remaining. rewrite El, Em. lia.
  - eexists o, _. split_and!; [done..|]. unfold remaining. rewrite El, Et. cbn. lia.
Qed.

Lemma other_step ts a j g g' o : gstep a g g' → ginv ts g → a ≠ ByPeer j → a ≠ ByReader j → objs (gs_net g) !! j = Some o →
  ∃ o', objs (gs_net g') !! j = Some o' ∧ po_id o' = po_id o ∧ remaining o' = remaining o.
Proof.
  intros Hst [_ _ Ha _ _] H1 H2 Hj. destruct Hst as [m r log i h s op res m' calls i' Hop He Hd|m r log i h s x i' Ho He|
    m r log i h s n ip i' He|a m r log i h s i' s' Hst]; cbn [gs_net gs_tracker] in *; [by exists o..|].
  assert (same_peers s s' → ∃ o', objs s' !! j = Some o' ∧ po_id o' = po_id o ∧ remaining o' = remaining o) as Hsame.
  { intros (_ & _ & E & _). exists o. by rewrite E. }
  destruct Hst as [j' x e mi all p acts s i Hx Et El Hm Hp|j' x s i Hx El|j' x mi rest maxT s i s' i' Hx Em He|
    j' x s i Hx Et El|k n ip s i s' Hn Hl|k n q t s i Hn|k n q more s i s' Hn Hl|k n q t r1 r2 d s i Hn|k n q s i Hn|k n q cert am s i Hn|
    cert am s i|k n cert d s i s' Hn Hl|s i]; try (by apply Hsame).
  - exists o. cbn. by rewrite list_lookup_insert_ne by congruence.
  - destruct (decide (j' = j)) as [->|Hne]; [|exists o; cbn; by rewrite list_lookup_insert_ne].
    exists (close_obj x). cbn. rewrite list_lookup_insert_eq by (by eapply lookup_lt_Some). by simplify_eq.
  - destruct (micro_decreases _ _ _ _ _ _ _ _ _ Ha He) as (o' & Eo & _). exists o. rewrite Eo.
    by rewrite list_lookup_insert_ne by congruence.
  - exists o. cbn. by rewrite list_lookup_insert_ne by congruence.
  - destruct (ManuallyTrack_ok _ _ n ip s i Ha) as (s2 & E & Hs). rewrite Hl in E. simplify_eq. by apply Hsame.
  - destruct (dial_locked_ok _ _ n s i Ha) as (b & s2 & E & Hs). rewrite Hl in E. simplify_eq. by apply Hsame.
  - apply Hsame, (end_dial_same n q (upgrade_start _ _ _ _ _ _ _ _) s).
  - exists o. split; [|done]. cbn. unfold upgrade_locked in Hl. destruct (closing s); [by simplify_eq|].
    destruct (in_set n (connectingPeers s)) as [[]|]; cbn [mbind option_bind] in Hl; [by simplify_eq| |done].
    destruct (in_set n (connectedPeers s)) as [[]|]; cbn [mbind option_bind] in Hl; [by simplify_eq| |done].
    destruct (peerSet_Add _ _ _); [|done]. injection Hl as <-. cbn. by apply lookup_app_l_Some.
  - unfold StartClose. destruct (closing s); [by exists o|]. cbn [objs]. rewrite !close_all_lookup, Hj. cbn. eexists. split; [done|].
    by do 2 case_bool_decide.
Qed.

Lemma gruns_bound ts j k g g' o : gruns j k g g' → greach ts g → objs (gs_net g) !! j = Some o →
  ∃ o', objs (gs_net g') !! j = Some o' ∧ po_id o' = po_id o ∧ (k + remaining o' ≤ remaining o)%nat.
Proof.
  intros Hrun Hr Hj. induction Hrun as [g|k g g' g'' Hrun IH Hst|k a g g' g'' Hrun IH Hst H1 H2]; [by exists o|..];
    (destruct (IH Hr Hj) as (o1 & Hj1 & Ei & Hk)); pose proof (greach_ok _ _ (gruns_reach ts _ _ _ _ Hrun Hr)) as Hg.
  - destruct (own_step ts j g' g'' Hst Hg) as (o2 & o3 & Hj2 & E3 & Ei3 & Hlt). simplify_eq. exists o3. rewrite E3.
    rewrite list_lookup_insert_eq by (by eapply lookup_lt_Some). split_and!; [done|congruence|lia].
  - destruct (other_step ts a j g' g'' o1 Hst Hg H1 H2 Hj1) as (o3 & Hj3 & Ei3 & E3). exists o3. split_and!; [done|congruence|lia].
Qed.

Lemma own_step_enabled ts j g o : greach ts g → objs (gs_net g) !! j = Some o → ¬ ended o → ∃ g', gstep (ByPeer j) g g'.
Proof.
  intros [_ Hi Ha Hb _]%greach_ok Hj He. destruct g as [m r log i h s]. cbn [gs_net gs_tracker] in *.
  destruct (po_todo o) as [|mi rest] eqn:Et.
  - destruct (po_left o) eqn:El; [by destruct He|]. eexists. by eapply gstep_net, step_exit.
  - destruct (micro_ok sha256 ripemd160 grow CheckSignature rnd optimal estimate MySubnets Hrip 0 j o s i Ha (it_ok_tframe _ _ _ Hi) (binv_ips _ Hb) Hj mi rest Et)
      as (s1 & i1 & E & _). eexists. by eapply gstep_net, step_micro.
Qed.

(** A node none of the network, the router and the tracker has as connected. *)
Definition forgotten (n : list Z) (g : gst) : Prop :=
  ps_get (connectingPeers (gs_net g)) n = None ∧ ps_get (connectedPeers (gs_net g)) n = None ∧
  connected (gs_tracker g) !! n = None ∧ rstate n (trace (gs_net g)) = Some false.

Lemma ended_phase s i j o : ainv s i → objs s !! j = Some o → ended o → po_phase o = Gone.
Proof.
  intros Ha Hj [El Et]. pose proof (ok_todo _ _ _ _ (a_objs _ _ _ _ Ha j o Hj)) as Hto. unfold todo_ok in Hto.
  rewrite El, Et in Hto. destruct (po_phase o); naive_solver.
Qed.

Lemma last_step_forgets ts j g g' o o' : greach ts g → gstep (ByPeer j) g g' → objs (gs_net g) !! j = Some o →
  objs (gs_net g') !! j = Some o' → ended o' → forgotten (po_id o) g'.
Proof.
  intros Hr Hst Hj Hj' He. pose proof (greach_ok _ _ Hr) as Hg. pose proof (gstep_ok _ _ _ _ Hst Hg) as [_ _ Ha' _ _].
  destruct (own_step ts j g g' Hst Hg) as (o1 & o2 & Hj1 & Eo & Ei & Hlt). destruct Hg as [_ _ Ha _ _].
  assert (o1 = o) as -> by congruence. assert (o2 = o') as ->.
  { rewrite Eo, list_lookup_insert_eq in Hj' by (by eapply lookup_lt_Some). congruence. }
  apply (a_none _ _ _ _ Ha' (po_id o)). intros k x Hk Ex. destruct (decide (k = j)) as [->|Hne].
  { assert (x = o') as -> by congruence. by eapply ended_phase. }
  destruct (decide (po_phase x = Gone)) as [|Hg]; [done|exfalso]. rewrite Eo, list_lookup_insert_ne in Hk by done.
  apply Hne, (a_uniq _ _ _ _ Ha k j x o); try done. apply (ended_gone _ _ j o Ha Hj). rewrite <-remaining_ended. apply remaining_ended in He. lia.
Qed.

Lemma ended_no_ref s i j o p : ainv s i → objs s !! j = Some o → ended o →
  p ∈ peersSlice (connectingPeers s) ++ peersSlice (connectedPeers s) → pr_ref p ≠ j.
Proof.
  intros Ha Hj He Hp <-. rewrite elem_of_app, (ps_get_elem pr_id _ _ (a_connecting _ _ _ _ Ha)), (ps_get_elem pr_id _ _ (a_connected _ _ _ _ Ha)) in Hp.
  destruct (decide (Exists (λ x, po_id x = pr_id p ∧ po_phase x ≠ Gone) (objs s))) as [Hx|Hx].
  - apply list.Exists_exists in Hx as (x & [k Hk]%list_elem_of_lookup & Ei & Hg).
    destruct (a_live _ _ _ _ Ha k x Hk Hg) as (V1 & V2 & _). rewrite Ei in V1, V2. rewrite V1, V2 in Hp.
    assert (pr_ref p = k) as E by (destruct (po_phase x), Hp as [Hp|Hp]; cbn in Hp; try done; injection Hp as <-; done).
    rewrite E in Hj. simplify_eq. apply Hg. by eapply ended_phase.
  - destruct (a_none _ _ _ _ Ha (pr_id p)) as (V1 & V2 & _); [|rewrite V1, V2 in Hp; by destruct Hp].
    intros k x Hk Ex. destruct (decide (po_phase x = Gone)); [done|]. exfalso. apply Hx.
    apply list.Exists_exists. exists x. split; [by eapply list_elem_of_lookup_2|done].
Qed.

(** C22: no peer is stuck.  From every state the system reaches, in every run in which a peer
    handles no further message, whatever the others do meanwhile: the peer takes at most
    [remaining] steps of its own, a number fixed by what it has to do when the run starts;
    until it has ended, its next step can always be taken; with its last step its node is
    neither among the connecting nor among the connected peers, and the router and the tracker
    know it as disconnected; and no set of peers refers to a peer that has ended. *)
Theorem network_peer_leaves ts g j o k g' : greach ts g → objs (gs_net g) !! j = Some o → gruns j k g g' →
  ∃ o', objs (gs_net g') !! j = Some o' ∧ po_id o' = po_id o ∧
    (k + remaining o' ≤ remaining o)%nat ∧ (remaining o' = 0 ↔ ended o') ∧
    (¬ ended o' → ∃ g'', gstep (ByPeer j) g' g'') ∧
    (∀ g'' o'', gstep (ByPeer j) g' g'' → objs (gs_net g'') !! j = Some o'' → ended o'' → forgotten (po_id o) g'') ∧
    (ended o' → ∀ p, p ∈ peersSlice (connectingPeers (gs_net g')) ++ peersSlice (connectedPeers (gs_net g')) → pr_ref p ≠ j).
Proof.
  intros Hr Hj Hrun. pose proof (gruns_reach ts _ _ _ _ Hrun Hr) as Hr'.
  destruct (gruns_bound ts j k g g' o Hrun Hr Hj) as (o' & Hj' & Ei & Hk). exists o'.
  split; [done|]. split; [done|]. split; [done|]. split; [apply remaining_ended|]. split_and!.
  - by eapply own_step_enabled.
  - intros g'' o'' Hst Hj'' He. rewrite <-Ei. by eapply last_step_forgets.
  - intros He p Hp. destruct (greach_ok _ _ Hr') as [_ _ Ha _ _]. by eapply ended_no_ref.
Qed.
End system.

(** ** A concrete run

    Node 3 is tracked by hand and waits to be dialed; node 2 connects, finishes its handshake
    and is announced to the tracker and to the router. *)

Definition ex_ripemd (l : list Z) : list Z := take 20 (l ++ replicate 20 0%Z).
Lemma ex_ripemd_length l : length (ex_ripemd l) = 20%nat.
Proof. unfold ex_ripemd. rewrite length_take, length_app, length_replicate. lia. Qed.

Definition ex_node (z : Z) : list Z := z :: replicate 19 0%Z.
Definition ex_check (_ _ sig : list Z) : bool := bool_decide (sig = [9%Z]).
Definition ex_pop (key sig : Z) (_ : list Z) : bool := bool_decide (key = 7%Z ∧ sig = 4%Z).

Local Abbreviation ex_st := (netst (Sig := Z) (App := Z)).
Local Abbreviation ex_netstep :=
  (netstep (Sig := Z) (App := Z) (Out := Z) ex_sha ex_ripemd (λ n, n) (λ _, true) ex_check head ex_pop
     ex_rnd ex_optimal ex_estimate [] 1 10 true false (ex_node 1)).
Local Abbreviation ex_gst := (gst (PK := Z) (Sig := Z) (App := Z)).
Local Abbreviation ex_gstep :=
  (gstep (PK := Z) (K := Z) (Sig := Z) (App := Z) (Out := Z) ex_sha ex_ripemd (λ n, n) (λ _, true) ex_check head ex_pop
     ex_rnd ex_optimal ex_estimate 7 [] 1 10 true false (ex_node 1)).
Local Abbreviation ex_gruns :=
  (gruns (PK := Z) (K := Z) (Sig := Z) (App := Z) (Out := Z) ex_sha ex_ripemd (λ n, n) (λ _, true) ex_check head ex_pop
     ex_rnd ex_optimal ex_estimate 7 [] 1 10 true false (ex_node 1)).
Local Abbreviation ex_greach :=
  (greach (PK := Z) (K := Z) (Sig := Z) (App := Z) (Out := Z) ex_sha ex_ripemd (λ n, n) (λ _, true) ex_check head ex_pop
     ex_rnd ex_optimal ex_estimate 7 [] 1 10 true false (ex_node 1)).

Definition ex_micro_step (st : ex_st * ipTracker) : ex_st * ipTracker :=
  match objs st.1 !! 0%nat with
  | Some o => match po_todo o with
              | m :: rest => default st (exec_micro ex_sha ex_ripemd (λ n, n) ex_check ex_rnd ex_optimal ex_estimate [] 0 0 o m rest st.1 st.2)
              | [] => st
              end
  | None => st
  end.
Definition ex_message (m : inbound (App := Z)) (st : ex_st * ipTracker) : ex_st * ipTracker :=
  match objs st.1 !! 0%nat with
  | Some o => match handle ex_sha ex_ripemd (λ n, n) (λ _, true) ex_check head ex_pop ex_env m (po_peer o) with
              | Some (p, acts) => (set_obj 0 (mkPobj p (po_closing o) false (acts ≫= micro_of false) (po_phase o)) st.1, st.2)
              | None => st
              end
  | None => st
  end.

Definition ex_g1 : ex_st * ipTracker :=
  (add_nthread (MTLock (ex_node 3) ([10; 0; 0; 3]%Z, 9651%Z)) new_netst,
   default ex_tracker (iexec ex_sha ex_rnd ex_optimal ex_estimate (OManuallyTrack (ex_node 3)) ex_tracker)).
Definition ex_g2 : ex_st * ipTracker :=
  (set_nthread 0 Exited (default ex_g1.1 (ManuallyTrack_locked (ex_node 3) ([10; 0; 0; 3]%Z, 9651%Z) ex_g1.1)), ex_g1.2).
Definition ex_g3 : ex_st * ipTracker := (add_nthread (ULock (ex_node 2) [2%Z] None) ex_g2.1, ex_g2.2).
Definition ex_g4 : ex_st * ipTracker := (set_nthread 2 Exited (default ex_g3.1 (upgrade_locked (ex_node 2) [2%Z] ex_g3.1)), ex_g3.2).
Definition ex_g5 : ex_st * ipTracker := ex_message (Handshake ex_handshake) ex_g4.
Definition ex_g6 : ex_st * ipTracker := ex_message (PeerList []) ex_g5.
Definition ex_g7 : ex_st * ipTracker := ex_micro_step ex_g6.
Definition ex_g8 : ex_st * ipTracker := ex_micro_step ex_g7.
Definition ex_g9 : ex_st * ipTracker := ex_micro_step ex_g8.

Definition ex_state (st : ex_st * ipTracker) : ex_gst :=
  mkGst NewManager ∅ [] st.2 (iref (OManuallyTrack (ex_node 3)) ex_tracker (mkByhand ∅ ∅)) st.1.
Definition ex_reached (st : ex_st * ipTracker) : Prop := ex_greach {[ [5%Z] ]} (ex_state st).

Lemma ex_reached_net a st st' : ex_reached st → ex_netstep a st.1 st.2 st'.1 st'.2 → ex_reached st'.
Proof. intros Hr Hst. eapply greach_step; [exact Hr|]. by eapply gstep_net. Qed.

Lemma ex_reached_micro st o m rest : ex_reached st → objs st.1 !! 0%nat = Some o → po_todo o = m :: rest →
  exec_micro ex_sha ex_ripemd (λ n, n) ex_check ex_rnd ex_optimal ex_estimate [] 0 0 o m rest st.1 st.2 = Some (ex_micro_step st) →
  ex_reached (ex_micro_step st).
Proof.
  intros Hr Ho Et E. apply (ex_reached_net (ByPeer 0) st); [done|]. destruct (ex_micro_step st) as [s' i']. by eapply step_micro.
Qed.

Lemma ex_reached_message st o m p acts : ex_reached st → objs st.1 !! 0%nat = Some o → po_todo o = [] → po_left o = false → msg_ok m →
  handle ex_sha ex_ripemd (λ n, n) (λ _, true) ex_check head ex_pop ex_env m (po_peer o) = Some (p, acts) → ex_reached (ex_message m st).
Proof.
  intros Hr Ho Et El Hm E. apply (ex_reached_net (ByReader 0) st); [done|]. unfold ex_message. rewrite Ho, E. cbn [fst snd]. by eapply step_handle.
Qed.

Lemma ex_reached9 : ex_reached ex_g9.
Proof.
  assert (ex_reached ex_g1) as H1.
  { eapply greach_step; [apply greach_new; vm_compute; reflexivity|]. apply gstep_manual. vm_compute. reflexivity. }
  assert (ex_reached ex_g2) as H2.
  { apply (ex_reached_net ByOther ex_g1); [done|]. eapply (step_manual_locked _ _ _ _ _ _ _ _ _ _ _ _ _ _ _ _ 0 (ex_node 3)); vm_compute; reflexivity. }
  assert (ex_reached ex_g3) as H3.
  { apply (ex_reached_net ByOther ex_g2); [done|]. exact (step_accept _ _ _ _ _ _ _ _ _ _ _ _ _ _ _ _ [2%Z] false ex_g2.1 ex_g2.2). }
  assert (ex_reached ex_g4) as H4.
  { apply (ex_reached_net ByOther ex_g3); [done|]. eapply (step_upgrade _ _ _ _ _ _ _ _ _ _ _ _ _ _ _ _ 2 (ex_node 2) [2%Z] None); vm_compute; reflexivity. }
  assert (ex_reached ex_g5) as H5.
  { eapply ex_reached_message; [exact H4|vm_compute; reflexivity..| |vm_compute; reflexivity].
    repeat split; vm_compute; try done; repeat constructor; done. }
  assert (ex_reached ex_g6) as H6.
  { eapply ex_reached_message; [exact H5|vm_compute; reflexivity..|constructor|vm_compute; reflexivity]. }
  assert (ex_reached ex_g7) as H7 by (eapply ex_reached_micro; [exact H6|vm_compute; reflexivity..]).
  assert (ex_reached ex_g8) as H8 by (eapply ex_reached_micro; [exact H7|vm_compute; reflexivity..]).
  eapply ex_reached_micro; [exact H8|vm_compute; reflexivity..].
Qed.

Definition ex_o : pobj (Sig := Z) (App := Z) := default (mkPobj (new_peer [] []) false false [] Gone) (objs ex_g9.1 !! 0%nat).

Lemma network_calls_consistent_witness :
  trace ex_g9.1 = [RConnected (ex_node 2) (Some (mkApplication [] 1 12 1)) PrimaryNetworkID] ∧
  heard (ex_node 2) (trace ex_g9.1) = announced_as [] (po_peer ex_o) ∧
  is_Some (ps_get (connectedPeers ex_g9.1) (ex_node 2)) ∧ is_Some (connected ex_g9.2 !! ex_node 2).
Proof.
  pose proof (network_calls_consistent ex_sha ex_ripemd (λ n, n) (λ _, true) ex_check head ex_pop ex_rnd ex_optimal ex_estimate 7 [] 1 10 true false
    (ex_node 1) ex_ripemd_length ex_rnd_ok ltac:(done) _ _ ex_reached9) as (_ & _ & Hn & Ho & _).
  split; [vm_compute; reflexivity|]. split; [|split; [|vm_compute; eexists; reflexivity]].
  - rewrite <-(Ho 0%nat ex_o); [vm_compute; reflexivity..| |vm_compute; reflexivity].
    intros [_ Et]. vm_compute in Et. discriminate Et.
  - destruct (Hn (ex_node 2)) as (_ & _ & _ & Hc & _). apply Hc. left. vm_compute. reflexivity.
Defined.

Lemma network_dials_tracked_witness :
  trackedIPs ex_g9.1 !! ex_node 3 = Some 0%nat ∧ ps_get (connectedPeers ex_g9.1) (ex_node 3) = None ∧
  nthreads ex_g9.1 !! 1%nat = Some (DSelect (ex_node 3) 0) ∧
  (Exists (serves (ex_node 3) 0) (nthreads ex_g9.1) ∨ is_Some (ps_get (connectingPeers ex_g9.1) (ex_node 3)) ∨ 0%nat ∈ halted ex_g9.1).
Proof.
  pose proof (network_dials_tracked ex_sha ex_ripemd (λ n, n) (λ _, true) ex_check head ex_pop ex_rnd ex_optimal ex_estimate 7 [] 1 10 true false
    (ex_node 1) ex_ripemd_length ex_rnd_ok ltac:(done) _ _ ex_reached9) as (Ht & _ & _ & Hs).
  assert (trackedIPs ex_g9.1 !! ex_node 3 = Some 0%nat) as E by (vm_compute; reflexivity).
  destruct (Ht _ _ E) as (_ & Hc & _). split; [exact E|]. split; [exact Hc|]. split; [vm_compute; reflexivity|].
  apply Hs; [vm_compute; reflexivity|exact E].
Defined.

Definition ex_close_step (st : ex_st * ipTracker) : ex_st * ipTracker := (StartClose st.1, st.2).
Definition ex_exit_step (st : ex_st * ipTracker) : ex_st * ipTracker :=
  match objs st.1 !! 0%nat with
  | Some o => (set_obj 0 (mkPobj (po_peer o) true true [MRead] (po_phase o)) st.1, st.2)
  | None => st
  end.

(** The peer of node 2 takes its six steps: it finishes the loop of [Track], ends, and runs
    the parts of [Disconnected]; meanwhile the network starts to close. *)
Definition ex_l0 : ex_st * ipTracker := ex_close_step ex_g9.
Definition ex_l1 : ex_st * ipTracker := ex_micro_step ex_l0.
Definition ex_l2 : ex_st * ipTracker := ex_exit_step ex_l1.
Definition ex_l3 : ex_st * ipTracker := ex_micro_step ex_l2.
Definition ex_l4 : ex_st * ipTracker := ex_micro_step ex_l3.
Definition ex_l5 : ex_st * ipTracker := ex_micro_step ex_l4.
Definition ex_l6 : ex_st * ipTracker := ex_micro_step ex_l5.

Lemma ex_gstep_close st : ex_gstep ByOther (ex_state st) (ex_state (ex_close_step st)).
Proof. apply gstep_net, step_close. Qed.

Lemma ex_gstep_micro st o m rest : objs st.1 !! 0%nat = Some o → po_todo o = m :: rest →
  exec_micro ex_sha ex_ripemd (λ n, n) ex_check ex_rnd ex_optimal ex_estimate [] 0 0 o m rest st.1 st.2 = Some (ex_micro_step st) →
  ex_gstep (ByPeer 0) (ex_state st) (ex_state (ex_micro_step st)).
Proof. intros Ho Et E. apply gstep_net. destruct (ex_micro_step st) as [s' i']. by eapply step_micro. Qed.

Lemma ex_gstep_exit st o : objs st.1 !! 0%nat = Some o → po_todo o = [] → po_left o = false →
  ex_gstep (ByPeer 0) (ex_state st) (ex_state (ex_exit_step st)).
Proof. intros Ho Et El. apply gstep_net. unfold ex_exit_step. rewrite Ho. cbn [fst snd]. by apply step_exit. Qed.

Lemma ex_gruns5 : ex_gruns 0%nat 5 (ex_state ex_g9) (ex_state ex_l5).
Proof.
  assert (ex_gruns 0%nat 0 (ex_state ex_g9) (ex_state ex_l0)) as H0.
  { apply (gruns_other _ _ _ _ _ _ _ _ _ _ _ _ _ _ _ _ _ _ 0%nat ByOther _ (ex_state ex_g9)); [apply gruns_refl| |done..].
    apply ex_gstep_close. }
  assert (ex_gruns 0%nat 1 (ex_state ex_g9) (ex_state ex_l1)) as H1.
  { eapply gruns_own; [exact H0|]. eapply ex_gstep_micro; [vm_compute; reflexivity..]. }
  assert (ex_gruns 0%nat 2 (ex_state ex_g9) (ex_state ex_l2)) as H2.
  { eapply gruns_own; [exact H1|]. eapply ex_gstep_exit; [vm_compute; reflexivity..]. }
  assert (ex_gruns 0%nat 3 (ex_state ex_g9) (ex_state ex_l3)) as H3.
  { eapply gruns_own; [exact H2|]. eapply ex_gstep_micro; [vm_compute; reflexivity..]. }
  assert (ex_gruns 0%nat 4 (ex_state ex_g9) (ex_state ex_l4)) as H4.
  { eapply gruns_own; [exact H3|]. eapply ex_gstep_micro; [vm_compute; reflexivity..]. }
  eapply gruns_own; [exact H4|]. eapply ex_gstep_micro; [vm_compute; reflexivity..].
Qed.

Lemma network_peer_leaves_witness :
  po_todo ex_o = [MTrack false []] ∧ remaining [] ex_o = 7%nat ∧ forgotten (po_id ex_o) (ex_state ex_l6).
Proof.
  split; [vm_compute; reflexivity|]. split; [vm_compute; reflexivity|].
  destruct (network_peer_leaves ex_sha ex_ripemd (λ n, n) (λ _, true) ex_check head ex_pop ex_rnd ex_optimal ex_estimate 7 [] 1 10 true false
    (ex_node 1) ex_ripemd_length ex_rnd_ok ltac:(done) _ _ 0%nat ex_o 5%nat (ex_state ex_l5) ex_reached9 ltac:(vm_compute; reflexivity) ex_gruns5)
    as (o' & _ & _ & _ & _ & _ & Hlast & _).
  eapply (Hlast (ex_state ex_l6)); [eapply ex_gstep_micro; [vm_compute; reflexivity..]|vm_compute; reflexivity|split; reflexivity].
Defined.
