(* ===== verification/NetworkSend.v ===== *)
(** * To whom the network sends

    [Send], [getPeers], [samplePeers], [Peers], [PeerInfo], [NodeUptime] and
    [pullGossipPeerLists] of src/utils/avalanche/network/network.go, over the set of the
    connected peers (PeerSet.v).  A peer is of any type with a node ID, the subnets it
    tracks, the uptime it observed of this node and the answer of its [Send]; what the
    functions ask of the validator manager are arguments.  The order in which a set is
    visited and the random numbers of the sampler are arguments too. *)

From S2P Require Import Prelude Sampler DrawLoop IndexedList Bloom VdrManager IpTracker PeerSet Float64.

Record SendConfig := mkSendConfig {
  cfg_NodeIDs : gset (list Z);
  cfg_Validators : Z;
  cfg_NonValidators : Z;
  cfg_Peers : Z;
}.

Section send.
Context {Peer : Type} (ID : Peer → list Z) (TrackedSubnets : Peer → gset (list Z)).
(** [Validators.GetValidator] finds a validator; [Validators.NumValidators]. *)
Variable isValidator : list Z → list Z → bool.
Variable numValidators : list Z → Z.

Fixpoint getPeers (order : list (list Z)) (allowed : list Z → bool → bool) (connected : peerSet (Peer := Peer)) : option (list Peer) :=
  match order with
  | [] => Some []
  | nodeID :: order =>
      p ← GetByID nodeID connected;
      rest ← getPeers order allowed connected;
      Some (match p with
            | None => rest
            | Some peer => if negb (allowed nodeID (isValidator PrimaryNetworkID nodeID)) then rest else peer :: rest
            end)
  end.

(** What the precondition of [samplePeers] changes: [config.Peers], [numValidatorsToSample]
    and [config.NonValidators]. *)
Record quotas := mkQuotas { q_Peers : Z; q_Validators : Z; q_NonValidators : Z }.

Section sample.
Variable (config : SendConfig) (subnetID : list Z) (allowed : list Z → bool → bool).

Definition sample_precondition (p : Peer) (q : quotas) : bool * quotas :=
  if negb (bool_decide (subnetID ∈ TrackedSubnets p)) then (false, q)
  else
    let peerID := ID p in
    if bool_decide (peerID ∈ cfg_NodeIDs config) then (false, q)
    else
      let areTheyAValidator := isValidator subnetID peerID in
      if negb (allowed peerID areTheyAValidator) then (false, q)
      else if bool_decide (0 < q_Peers q)%Z then (true, mkQuotas (wrapS 64 (q_Peers q - 1)) (q_Validators q) (q_NonValidators q))
      else if areTheyAValidator then
        let n := wrapS 64 (q_Validators q - 1) in (bool_decide (0 ≤ n)%Z, mkQuotas (q_Peers q) n (q_NonValidators q))
      else
        let n := wrapS 64 (q_NonValidators q - 1) in (bool_decide (0 ≤ n)%Z, mkQuotas (q_Peers q) (q_Validators q) n).

Definition numValidatorsToSample : Z := Z.min (cfg_Validators config) (numValidators subnetID).

Definition samplePeers (src : list Z) (connected : peerSet) : option (list Peer * list Z) :=
  '(peers, _, src) ←
    peerSet_Sample sample_precondition
      (wrapS 64 (wrapS 64 (numValidatorsToSample + cfg_NonValidators config) + cfg_Peers config))
      (mkQuotas (cfg_Peers config) numValidatorsToSample (cfg_NonValidators config)) src connected;
  Some (peers, src).
End sample.

(** [peer.Send]: whether the message was queued. *)
Variable peer_Send : Peer → bool.

(** The loop over the peers: the nodes it sent to, and what the fail rate calculator observed. *)
Fixpoint send_loop (peers : list Peer) (sentTo : gset (list Z)) (observed : list Z) : gset (list Z) * list Z :=
  match peers with
  | [] => (sentTo, observed)
  | peer :: rest =>
      if peer_Send peer then send_loop rest ({[ID peer]} ∪ sentTo) (observed ++ [0%Z])
      else send_loop rest sentTo (observed ++ [1%Z])
  end.

(** [order] is that in which [config.NodeIDs] is visited; the peers each message went
    through are returned with the result. *)
Definition network_Send (order : list (list Z)) (config : SendConfig) (subnetID : list Z) (allowed : list Z → bool → bool)
    (src : list Z) (connected : peerSet) : option (list Peer * list Peer * (gset (list Z) * list Z) * list Z) :=
  namedPeers ← getPeers order allowed connected;
  '(sampledPeers, src) ← samplePeers config subnetID allowed src connected;
  let '(sentTo, observed) := send_loop namedPeers ∅ [] in
  Some (namedPeers, sampledPeers, send_loop sampledPeers sentTo observed, src).

(** The peers told to ask for a peer list. *)
Definition pullGossipPeerLists (src : list Z) (connected : peerSet) : option (list Peer * list Z) :=
  samplePeers (mkSendConfig ∅ 1 0 0) PrimaryNetworkID (λ _ _, true) src connected.

Definition PeerInfo {Info} (info : Peer → Info) (nodeIDs : list (list Z)) (connected : peerSet) : option (list Info) :=
  if bool_decide (length nodeIDs = 0) then Some (AllInfo info connected) else peerSet_Info info nodeIDs connected.

(** ** The uptime of this node *)

Section uptime.
Context (ObservedUptime : Peer → Z) (getWeight : list Z → Z) (UptimeRequirement : float64).

Fixpoint uptime_loop (peers : list Peer) (totalWeightedPercent rewardingStake : float64) : float64 * float64 :=
  match peers with
  | [] => (totalWeightedPercent, rewardingStake)
  | peer :: rest =>
      let weight := getWeight (ID peer) in
      if bool_decide (weight = 0)%Z then uptime_loop rest totalWeightedPercent rewardingStake
      else
        let percent := f64_of_Z (ObservedUptime peer) in
        let weightFloat := f64_of_Z weight in
        uptime_loop rest (f64_add totalWeightedPercent (f64_mul percent weightFloat))
          (if f64_le UptimeRequirement (f64_div percent (f64_of_Z 100)) then f64_add rewardingStake weightFloat else rewardingStake)
  end.

(** [UptimeResult]: the weighted average percentage, and that of the rewarding stake. *)
Inductive uptime_err := errNotValidator | errTotalWeight (e : verr).

Definition NodeUptime (MyNodeID : list Z) (totalWeight : result verr Z) (connected : peerSet) : result uptime_err (float64 * float64) :=
  let myStake := getWeight MyNodeID in
  if bool_decide (myStake = 0)%Z then Prelude.Err errNotValidator
  else
    match totalWeight with
    | Prelude.Err e => Prelude.Err (errTotalWeight e)
    | Ok totalWeightInt =>
        let total := f64_of_Z totalWeightInt in
        let '(totalWeightedPercent, rewardingStake) :=
          uptime_loop (peersSlice connected) (f64_mul (f64_of_Z 100) (f64_of_Z myStake)) (f64_of_Z myStake) in
        Ok (f64_abs (f64_div totalWeightedPercent total), f64_abs (f64_div (f64_mul (f64_of_Z 100) rewardingStake) total))
    end.
End uptime.
End send.

(** ** What is gossiped to a peer that asks *)

(** [orderAll] and [orderTheirs] are the orders in which the tracker's subnets and those the
    peer tracks are visited. *)
Definition network_Peers (sha256 : list Z → list Z) (areWeAPrimaryNetworkValidator : bool) (PeerListNumValidatorIPs : Z)
    (peerID : list Z) (orderAll orderTheirs : list (list Z)) (requestAllPeers : bool)
    (knownPeers : ReadFilter) (salt : list Z) (src : list Z) (i : ipTracker) : option (list ClaimedIPPort * list Z) :=
  let allowedSubnets (subnetID : list Z) :=
    if areWeAPrimaryNetworkValidator then true
    else bool_decide (subnetID = PrimaryNetworkID) || bool_decide (subnetID ∈ it_trackedSubnets i) in
  let order := if areWeAPrimaryNetworkValidator && requestAllPeers then orderAll else orderTheirs in
  getGossipableIPs sha256 order allowedSubnets peerID knownPeers salt PeerListNumValidatorIPs src i.

(** ** The sample *)

Section sampling.
Context {Peer : Type} (ID : Peer → list Z) (TrackedSubnets : Peer → gset (list Z)).
Variable isValidator : list Z → list Z → bool.
Variable (config : SendConfig) (subnetID : list Z) (allowed : list Z → bool → bool).
Variable connected : peerSet (Peer := Peer).
Variable q0 : quotas.
Hypothesis Hps : ps_ok ID connected.
Hypothesis Hq0 : (0 ≤ q_Peers q0 < 2 ^ 62 ∧ 0 ≤ q_Validators q0 < 2 ^ 62 ∧ 0 ≤ q_NonValidators q0 < 2 ^ 62)%Z.
Hypothesis Hlen : (Z.of_nat (length (peersSlice connected)) < 2 ^ 62)%Z.

(** The peers that may be sampled. *)
Definition eligible (p : Peer) : Prop :=
  subnetID ∈ TrackedSubnets p ∧ ID p ∉ cfg_NodeIDs config ∧ allowed (ID p) (isValidator subnetID (ID p)) = true.

Definition quota_left (q : quotas) : Z := q_Peers q + Z.max (q_Validators q) 0 + Z.max (q_NonValidators q) 0.

Local Abbreviation pre := (sample_precondition ID TrackedSubnets isValidator config subnetID allowed).
Local Abbreviation body := (sample_body pre connected).

(** What holds of the sample after the indices [visited]. *)
Record sampled (visited : list Z) (st : list Peer * quotas) : Prop := {
  sa_low : (0 ≤ q_Peers st.2 ∧ - Z.of_nat (length visited) ≤ q_Validators st.2 ∧ - Z.of_nat (length visited) ≤ q_NonValidators st.2)%Z;
  sa_high : (q_Peers st.2 ≤ q_Peers q0 ∧ q_Validators st.2 ≤ q_Validators q0 ∧ q_NonValidators st.2 ≤ q_NonValidators q0)%Z;
  sa_count : (Z.of_nat (length st.1) + quota_left st.2 = quota_left q0)%Z;
  sa_nodup : NoDup (ID <$> st.1);
  sa_from : ∀ p, p ∈ st.1 → eligible p ∧ ∃ j, j ∈ visited ∧ peersSlice connected !! Z.to_nat j = Some p;
  sa_out : ∀ j p, j ∈ visited → peersSlice connected !! Z.to_nat j = Some p → eligible p → p ∉ st.1 →
    q_Peers st.2 = 0%Z ∧ ((if isValidator subnetID (ID p) then q_Validators st.2 else q_NonValidators st.2) < 0)%Z;
}.

(** The precondition refuses what is not eligible, and takes what is while a quota is left. *)
Lemma precondition_cases p q :
  (- 2 ^ 62 ≤ q_Peers q < 2 ^ 62 ∧ - 2 ^ 62 ≤ q_Validators q < 2 ^ 62 ∧ - 2 ^ 62 ≤ q_NonValidators q < 2 ^ 62)%Z →
  (¬ eligible p ∧ pre p q = (false, q)) ∨
  (eligible p ∧ (
    ((0 < q_Peers q)%Z ∧ pre p q = (true, mkQuotas (q_Peers q - 1) (q_Validators q) (q_NonValidators q))) ∨
    ((q_Peers q ≤ 0)%Z ∧ isValidator subnetID (ID p) = true ∧
      pre p q = (bool_decide (1 ≤ q_Validators q)%Z, mkQuotas (q_Peers q) (q_Validators q - 1) (q_NonValidators q))) ∨
    ((q_Peers q ≤ 0)%Z ∧ isValidator subnetID (ID p) = false ∧
      pre p q = (bool_decide (1 ≤ q_NonValidators q)%Z, mkQuotas (q_Peers q) (q_Validators q) (q_NonValidators q - 1))))).
Proof.
  intros Hb. unfold sample_precondition, eligible.
  case_bool_decide as H1; cbn [negb]; [|left; split; [by intros [? _]|done]].
  case_bool_decide as H2; [left; split; [by intros (_ & ? & _)|done]|].
  destruct (allowed _ _) eqn:H3; cbn [negb]; [|left; split; [by intros (_ & _ & ?)|done]].
  right. split; [done|]. rewrite !(wrapS_id 64) by (unfold inS; lia). case_bool_decide as H4; [by left|right].
  assert (∀ z, bool_decide (0 ≤ z - 1)%Z = bool_decide (1 ≤ z)%Z) as Hz by (intros z; apply bool_decide_ext; lia).
  rewrite !Hz. destruct (isValidator _ _); [left|right]; split_and!; try done; lia.
Qed.

Lemma lookup_ID j j' p p' : peersSlice connected !! Z.to_nat j = Some p → peersSlice connected !! Z.to_nat j' = Some p' →
  ID p = ID p' → Z.to_nat j = Z.to_nat j'.
Proof.
  intros Hj Hj' E. pose proof (indexed_item _ _ _ _ _ Hps Hj) as H1. pose proof (indexed_item _ _ _ _ _ Hps Hj') as H2. congruence.
Qed.

(** Refusing the peer at a new index. *)
Lemma sampled_skip visited j p peers q q' : sampled visited (peers, q) → peersSlice connected !! Z.to_nat j = Some p →
  (q_Peers q' = q_Peers q ∧ q_Validators q - 1 ≤ q_Validators q' ≤ q_Validators q ∧
   q_NonValidators q - 1 ≤ q_NonValidators q' ≤ q_NonValidators q)%Z →
  quota_left q' = quota_left q →
  (eligible p → q_Peers q' = 0 ∧ (if isValidator subnetID (ID p) then q_Validators q' else q_NonValidators q') < 0)%Z →
  sampled (visited ++ [j]) (peers, q').
Proof.
  intros [Hlow Hhigh Hc Hnd Hfrom Hout] Hj Hq Hleft Hel. cbn in *. split; cbn.
  - rewrite length_app. cbn. lia.
  - lia.
  - lia.
  - done.
  - intros p' Hp'. destruct (Hfrom p' Hp') as (He & j' & Hin & Hl). split; [done|]. exists j'. rewrite elem_of_app. auto.
  - intros j' p' Hin Hl He Hn. apply elem_of_app in Hin as [Hin|Hin].
    + destruct (Hout _ _ Hin Hl He Hn) as [H1 H2]. split; [lia|]. revert H2. destruct (isValidator subnetID (ID p')); lia.
    + apply list_elem_of_singleton in Hin as ->. replace p' with p in * by congruence. by apply Hel.
Qed.

(** Taking the peer at a new index. *)
Lemma sampled_take visited j p peers q q' : sampled visited (peers, q) → peersSlice connected !! Z.to_nat j = Some p →
  (∀ j', j' ∈ visited → Z.to_nat j' ≠ Z.to_nat j) → eligible p →
  (0 ≤ q_Peers q' ≤ q_Peers q ∧ q_Validators q - 1 ≤ q_Validators q' ≤ q_Validators q ∧
   q_NonValidators q - 1 ≤ q_NonValidators q' ≤ q_NonValidators q)%Z →
  (quota_left q' + 1 = quota_left q)%Z →
  sampled (visited ++ [j]) (peers ++ [p], q').
Proof.
  intros [Hlow Hhigh Hc Hnd Hfrom Hout] Hj Hnew Hel Hq Hleft. cbn in *. split; cbn.
  - rewrite length_app. cbn. lia.
  - lia.
  - rewrite length_app. cbn. lia.
  - rewrite fmap_app. apply NoDup_app. split_and!; [done| |apply NoDup_singleton].
    intros n (p' & -> & Hp')%list_elem_of_fmap Hn%list_elem_of_singleton.
    destruct (Hfrom p' Hp') as (_ & j' & Hin & Hl). apply (Hnew j' Hin). by eapply lookup_ID.
  - intros p' [Hp'|Hp']%elem_of_app.
    + destruct (Hfrom p' Hp') as (He & j' & Hin & Hl). split; [done|]. exists j'. rewrite elem_of_app. auto.
    + apply list_elem_of_singleton in Hp' as ->. split; [done|]. exists j. split; [|done]. rewrite elem_of_app. right. by left.
  - intros j' p' Hin Hl He Hn. rewrite elem_of_app in Hn. apply elem_of_app in Hin as [Hin|Hin].
    + destruct (Hout _ _ Hin Hl He) as [H1 H2]; [tauto|]. split; [lia|]. revert H2. destruct (isValidator subnetID (ID p')); lia.
    + apply list_elem_of_singleton in Hin as ->. destruct Hn. right. replace p' with p by congruence. by left.
Qed.

Lemma body_sampled visited j st st' : sampled visited st → (Z.of_nat (length visited) < 2 ^ 62)%Z →
  (∀ j', j' ∈ visited → Z.to_nat j' ≠ Z.to_nat j) → body j st = Some st' → sampled (visited ++ [j]) st'.
Proof.
  destruct st as [peers q]. intros Hs Hv Hnew. unfold sample_body.
  destruct (peersSlice connected !! Z.to_nat j) as [p|] eqn:Hj; [|done]. cbn [mbind option_bind].
  pose proof (sa_low _ _ Hs) as Hlow. pose proof (sa_high _ _ Hs) as Hhigh. cbn in Hlow, Hhigh.
  destruct (precondition_cases p q) as [[Hne ->]|[He [[Hq ->]|[(Hq & Hvd & ->)|(Hq & Hvd & ->)]]]]; [lia|..]; intros [= <-].
  - eapply sampled_skip; [done..|lia|done|]. by intros ?.
  - eapply sampled_take; [done..|cbn; lia|unfold quota_left; cbn; lia].
  - case_bool_decide; [eapply sampled_take|eapply sampled_skip]; try done; cbn; unfold quota_left; cbn; rewrite ?Hvd; lia.
  - case_bool_decide; [eapply sampled_take|eapply sampled_skip]; try done; cbn; unfold quota_left; cbn; rewrite ?Hvd; lia.
Qed.

Lemma order_sampled cont order visited st st' : sampled visited st → NoDup (Z.to_nat <$> (visited ++ order)) →
  (Z.of_nat (length (visited ++ order)) < 2 ^ 62)%Z →
  run_order cont body order st = Some st' → sampled (visited ++ order) st'.
Proof.
  revert visited st. induction order as [|j order IH]; intros visited st Hs Hnd Hl; cbn [run_order].
  { intros [= <-]. by rewrite app_nil_r. }
  destruct (cont st); [|done]. destruct (body j st) as [st1|] eqn:Hb; [|done]. cbn [mbind option_bind]. intros Hrun.
  rewrite (assoc_L (++) visited [j] order : visited ++ j :: order = _) in *. eapply IH; [|done..|exact Hrun].
  eapply body_sampled; [done| | |exact Hb].
  - rewrite !length_app in Hl. lia.
  - intros j' Hj' E. rewrite fmap_app, fmap_app in Hnd. apply NoDup_app in Hnd as [Hnd _].
    apply NoDup_app in Hnd as (_ & Hnd & _). apply (Hnd (Z.to_nat j')); [by apply list_elem_of_fmap_2|]. rewrite E. by left.
Qed.

Lemma sampled_start : sampled [] ([], q0).
Proof.
  split; cbn; try lia; [constructor|intros p Hp; by apply not_elem_of_nil in Hp|intros j p Hj; by apply not_elem_of_nil in Hj].
Qed.

(** The sample takes only eligible peers, each once, and leaves one out only when the
    quotas it counts towards are used up. *)
Lemma samplePeers_spec src peers q src' : Forall (inU 64) src →
  peerSet_Sample pre (quota_left q0) q0 src connected = Some (peers, q, src') →
  NoDup (ID <$> peers) ∧ (Z.of_nat (length peers) ≤ quota_left q0)%Z ∧
  (∀ p, p ∈ peers → p ∈ peersSlice connected ∧ eligible p) ∧
  (∀ p, p ∈ peersSlice connected → eligible p → p ∉ peers →
    (q_Peers q0 + (if isValidator subnetID (ID p) then q_Validators q0 else q_NonValidators q0) ≤ Z.of_nat (length peers))%Z).
Proof.
  intros Hsrc. unfold peerSet_Sample. case_bool_decide as Hn.
  { intros [= <- <- <-]. unfold quota_left in *. split_and!; [constructor|cbn; lia|intros p Hp; by apply not_elem_of_nil in Hp|].
    intros p _ _ _. cbn. destruct (isValidator subnetID (ID p)); lia. }
  intros Hrun. apply draw_loop_sound in Hrun as (order & rest & Hp & Ho & Hend); [|apply room_Initialize; lia|done].
  rewrite remaining_Initialize in Hp.
  assert (∀ j, j ∈ order → 0 ≤ j)%Z as Hpos.
  { intros j Hj. assert (j ∈ seqZ 0 (Z.of_nat (length (peersSlice connected)))) as Hin%elem_of_seqZ by (rewrite <-Hp, elem_of_app; by left). lia. }
  assert (NoDup order) as Hnd by (pose proof (NoDup_seqZ 0 (Z.of_nat (length (peersSlice connected)))) as H; rewrite <-Hp in H; by apply NoDup_app in H as [? _]).
  apply (order_sampled _ order []) in Ho as [Hlow Hhigh Hc Hndp Hfrom Hout]; [|apply sampled_start| |]; cbn [app fst snd] in *.
  2: { apply NoDup_fmap_2_strong; [|done]. intros x y Hx Hy E. pose proof (Hpos x Hx). pose proof (Hpos y Hy). lia. }
  2: { apply Permutation_length in Hp. rewrite length_app, length_seqZ in Hp. lia. }
  split_and!; [done|unfold quota_left in *; lia| |].
  - intros p Hp'. destruct (Hfrom p Hp') as (He & j & _ & Hl). split; [by eapply list_elem_of_lookup_2|done].
  - intros p [j Hj]%list_elem_of_lookup He Hnot. destruct Hend as [Hc'%bool_decide_eq_false| ->].
    { unfold quota_left in *. destruct (isValidator subnetID (ID p)); lia. }
    destruct (Hout (Z.of_nat j) p) as [H1 H2]; [|by rewrite Nat2Z.id|done|done|].
    { rewrite app_nil_r in Hp. rewrite Hp, elem_of_seqZ. apply lookup_lt_Some in Hj. lia. }
    unfold quota_left in *. revert H2. destruct (isValidator subnetID (ID p)); lia.
Qed.

Lemma samplePeers_total n src : Forall (inU 64) src →
  ∃ k, is_Some (peerSet_Sample pre n q0 (src ++ replicate k 0%Z) connected).
Proof.
  intros Hsrc. eexists. unfold peerSet_Sample. case_bool_decide; [done|].
  apply (draw_loop_total _ _ (λ _, True)); [apply room_Initialize; lia|done| |done|].
  { unfold draw_fuel. cbn. lia. }
  intros j [peers q] Hj _ _. rewrite remaining_Initialize in Hj. apply elem_of_seqZ in Hj.
  destruct (lookup_lt_is_Some_2 (peersSlice connected) (Z.to_nat j)) as [p Hp]; [lia|].
  unfold sample_body. rewrite Hp. cbn [mbind option_bind]. destruct (pre p q). eauto.
Qed.
End sampling.

(** ** What is sent *)

Section sending.
Context {Peer : Type} (ID : Peer → list Z) (TrackedSubnets : Peer → gset (list Z)).
Variable isValidator : list Z → list Z → bool.
Variable numValidators : list Z → Z.

Lemma getPeers_spec order allowed connected : ps_ok ID connected → NoDup order →
  ∃ peers, getPeers isValidator order allowed connected = Some peers ∧ NoDup (ID <$> peers) ∧
    ∀ p, p ∈ peers ↔ p ∈ peersSlice connected ∧ ID p ∈ order ∧ allowed (ID p) (isValidator PrimaryNetworkID (ID p)) = true.
Proof.
  intros Hps. induction 1 as [|n order Hn Hnd (rest & Hr & Hrd & Hin)]; cbn [getPeers].
  { exists []. split_and!; [done|constructor|]. intros p. split; [|intros (_ & Hp & _)]; by intros ?%not_elem_of_nil || by apply not_elem_of_nil in Hp. }
  rewrite (ps_GetByID ID), Hr by done. cbn [mbind option_bind]. eexists. split; [done|].
  destruct (ps_get connected n) as [p|] eqn:Hg.
  2: { split; [done|]. intros p. rewrite Hin, elem_of_cons. split; [tauto|]. intros (Hp & [<-|Ho] & Ha); [|tauto].
       apply (ps_get_elem ID) in Hp; [|done]. congruence. }
  pose proof (ps_get_ID ID _ _ _ Hps Hg) as <-. destruct (allowed _ _) eqn:Ha; cbn [negb].
  - split.
    + apply NoDup_cons. split; [|done]. intros (p' & E & Hp')%list_elem_of_fmap. apply Hin in Hp' as (_ & Ho & _). by rewrite <-E in Ho.
    + intros p'. rewrite !elem_of_cons, Hin. split.
      * intros [->|?]; [|tauto]. split_and!; [by apply (ps_get_elem ID)|by left|done].
      * intros (Hp & [E|Ho] & Ha'); [|tauto]. left. apply (ps_get_elem ID) in Hp; [|done]. congruence.
  - split; [done|]. intros p'. rewrite Hin, elem_of_cons. split; [tauto|]. intros (Hp & [E|Ho] & Ha'); [|tauto]. congruence.
Qed.

Lemma send_loop_spec peer_Send peers sentTo observed :
  let r := send_loop ID peer_Send peers sentTo observed in
  (∀ n, n ∈ r.1 ↔ n ∈ sentTo ∨ ∃ p, p ∈ peers ∧ ID p = n ∧ peer_Send p = true) ∧
  r.2 = observed ++ ((λ p, if peer_Send p : bool then 0%Z else 1%Z) <$> peers).
Proof.
  revert sentTo observed. induction peers as [|p peers IH]; intros sentTo observed; cbn.
  { rewrite app_nil_r. split; [|done]. intros n. split; [auto|]. intros [|(p & Hp & _)]; [done|by apply not_elem_of_nil in Hp]. }
  assert (∀ n, (∃ p', p' ∈ p :: peers ∧ ID p' = n ∧ peer_Send p' = true) ↔
    (ID p = n ∧ peer_Send p = true) ∨ ∃ p', p' ∈ peers ∧ ID p' = n ∧ peer_Send p' = true) as Hc.
  { intros n. split.
    - intros (p' & [->|Hp']%elem_of_cons & ?); [by left|right; eauto].
    - intros [?|(p' & Hp' & ?)]; [exists p|exists p']; rewrite elem_of_cons; auto. }
  destruct (peer_Send p) eqn:E.
  - destruct (IH ({[ID p]} ∪ sentTo) (observed ++ [0%Z])) as [H1 H2]. rewrite H2, <-app_assoc. split; [|done].
    intros n. rewrite H1, Hc, elem_of_union, elem_of_singleton. intuition.
  - destruct (IH sentTo (observed ++ [1%Z])) as [H1 H2]. rewrite H2, <-app_assoc. split; [|done].
    intros n. rewrite H1, Hc. intuition done.
Qed.

Section theorem.
Variable peer_Send : Peer → bool.
Variable (order : list (list Z)) (config : SendConfig) (subnetID : list Z) (allowed : list Z → bool → bool).
Variable (src : list Z) (connected : peerSet (Peer := Peer)).

(** C17: to whom a message is sent.  For the set of connected peers, a configuration whose
    counts are not negative, and any random numbers, [Send] returns as soon as the source
    has given enough numbers.  It sends the message to each node at most once: to the
    connected peers it names that are allowed, and to a sample of the others, which all
    track the subnet and are allowed; the sample is no larger than the counts asked for,
    and leaves out an eligible validator only when it has as many peers as the counts of
    peers and validators ask for, an eligible non-validator only when it has as many as
    those of peers and non-validators.  The result is the nodes whose queue took the
    message, and one outcome per peer is recorded. *)
Theorem send_reaches_peers :
  ps_ok ID connected → NoDup order → (∀ n, n ∈ order ↔ n ∈ cfg_NodeIDs config) →
  (0 ≤ cfg_Validators config < 2 ^ 61)%Z → (0 ≤ cfg_NonValidators config < 2 ^ 61)%Z → (0 ≤ cfg_Peers config < 2 ^ 61)%Z →
  (0 ≤ numValidators subnetID)%Z → (Z.of_nat (length (peersSlice connected)) < 2 ^ 62)%Z → Forall (inU 64) src →
  let run src := network_Send ID TrackedSubnets isValidator numValidators peer_Send order config subnetID allowed src connected in
  let may p := subnetID ∈ TrackedSubnets p ∧ ID p ∉ cfg_NodeIDs config ∧ allowed (ID p) (isValidator subnetID (ID p)) = true in
  let quota (p : Peer) := if isValidator subnetID (ID p) then Z.min (cfg_Validators config) (numValidators subnetID) else cfg_NonValidators config in
  (∃ k, is_Some (run (src ++ replicate k 0%Z))) ∧
  ∀ named sample sentTo observed src', run src = Some (named, sample, (sentTo, observed), src') →
    NoDup (ID <$> named ++ sample) ∧
    (∀ p, p ∈ named ↔ p ∈ peersSlice connected ∧ ID p ∈ cfg_NodeIDs config ∧
                      allowed (ID p) (isValidator PrimaryNetworkID (ID p)) = true) ∧
    (∀ p, p ∈ sample → p ∈ peersSlice connected ∧ may p) ∧
    (Z.of_nat (length sample) ≤ Z.min (cfg_Validators config) (numValidators subnetID) + cfg_NonValidators config + cfg_Peers config)%Z ∧
    (∀ p, p ∈ peersSlice connected → may p → p ∉ sample → (cfg_Peers config + quota p ≤ Z.of_nat (length sample))%Z) ∧
    (∀ n, n ∈ sentTo ↔ ∃ p, p ∈ named ++ sample ∧ ID p = n ∧ peer_Send p = true) ∧
    observed = (λ p, if peer_Send p : bool then 0%Z else 1%Z) <$> named ++ sample.
Proof.
  intros Hps Hnd Hord HV HN HP Hnum Hlen Hsrc run may quota. subst run may quota. cbv beta. unfold network_Send.
  destruct (getPeers_spec order allowed connected Hps Hnd) as (named & -> & Hnamed & Hin). cbn [mbind option_bind].
  unfold samplePeers. rewrite (wrapS_id 64 (_ + cfg_NonValidators config)), (wrapS_id 64) by (unfold inS, numValidatorsToSample; lia).
  set (q0 := mkQuotas (cfg_Peers config) (numValidatorsToSample numValidators config subnetID) (cfg_NonValidators config)).
  replace (_ + _ + _)%Z with (quota_left q0) by (unfold quota_left, q0, numValidatorsToSample; cbn; lia).
  split.
  { destruct (samplePeers_total ID TrackedSubnets isValidator config subnetID allowed connected q0 Hlen (quota_left q0) src Hsrc) as (k & [[peers q] src'] & E).
    exists k. rewrite E. cbn. by destruct (send_loop _ _ named _ _). }
  intros named' sample sentTo observed src'.
  destruct (peerSet_Sample _ _ _ _ _) as [[[peers q] src1]|] eqn:E; [|done]. cbn [mbind option_bind].
  apply samplePeers_spec in E as (Hsd & Hsl & Hfrom & Hout); [|done|unfold q0, numValidatorsToSample; cbn; lia|done..].
  destruct (send_loop_spec peer_Send named ∅ []) as [Hs1 Ho1].
  destruct (send_loop _ _ named _ _) as [sent1 obs1]. cbn in Hs1, Ho1.
  destruct (send_loop_spec peer_Send peers sent1 obs1) as [Hs2 Ho2]. intros [= <- <- Eq <-]. rewrite Eq in Hs2, Ho2. cbn in Hs2, Ho2.
  split_and!.
  - rewrite fmap_app. apply NoDup_app. split_and!; [done| |done].
    intros n (p & -> & Hp)%list_elem_of_fmap (p' & E' & Hp')%list_elem_of_fmap.
    apply Hin in Hp as (_ & Ho & _). apply Hord in Ho. apply Hfrom in Hp' as (_ & _ & Hno & _). by rewrite <-E' in Hno.
  - intros p. by rewrite Hin, Hord.
  - done.
  - unfold quota_left, q0, numValidatorsToSample in Hsl. cbn in Hsl. lia.
  - intros p Hp He Hno. specialize (Hout p Hp He Hno). done.
  - intros n. rewrite Hs2, Hs1, elem_of_empty. setoid_rewrite elem_of_app. clear. naive_solver.
  - by rewrite Ho2, Ho1, fmap_app.
Qed.
End theorem.
End sending.

(** Four connected peers: node 1 is named; 2 and 3 are validators, 4 is not. *)
Definition ex_connected : peerSet (Peer := Z) :=
  default NewSet (foldl (λ s p, s ← s; peerSet_Add (λ p, [p]) p s) (Some NewSet) [1; 2; 3; 4]%Z).
Definition ex_isValidator (_ n : list Z) : bool := bool_decide (n = [2%Z] ∨ n = [3%Z]).

Lemma ex_connected_ok : ps_ok (λ p, [p]) ex_connected.
Proof.
  unfold ex_connected. cbn [foldl mbind option_bind]. destruct (ps_empty (λ p : Z, [p])) as [H0 _].
  destruct (ps_Add _ 1%Z _ H0) as (s1 & -> & H1 & _). cbn [mbind option_bind].
  destruct (ps_Add _ 2%Z _ H1) as (s2 & -> & H2 & _). cbn [mbind option_bind].
  destruct (ps_Add _ 3%Z _ H2) as (s3 & -> & H3 & _). cbn [mbind option_bind].
  by destruct (ps_Add _ 4%Z _ H3) as (s4 & -> & H4 & _).
Qed.

Lemma send_reaches_peers_witness :
  let run src := network_Send (λ p, [p]) (λ _, {[ [9%Z] ]}) ex_isValidator (λ _, 2%Z) (λ p, bool_decide (p ≠ 4%Z))
                   [[1%Z]] (mkSendConfig {[ [1%Z] ]} 1 1 0) [9%Z] (λ _ _, true) src ex_connected in
  run [0; 0; 0; 0]%Z = Some ([1%Z], [2; 4]%Z, ({[ [1%Z]; [2%Z] ]}, [0; 0; 1]%Z), []) ∧
  ∃ k, is_Some (run ([] ++ replicate k 0%Z)).
Proof.
  split; [vm_compute; reflexivity|].
  refine (proj1 (send_reaches_peers (λ p, [p]) (λ _, {[ [9%Z] ]}) ex_isValidator (λ _, 2%Z) (λ p, bool_decide (p ≠ 4%Z))
    [[1%Z]] (mkSendConfig {[ [1%Z] ]} 1 1 0) [9%Z] (λ _ _, true) [] ex_connected _ _ _ _ _ _ _ _ _)); try (cbn; lia).
  - apply ex_connected_ok.
  - apply NoDup_singleton.
  - intros n. cbn. rewrite list_elem_of_singleton, elem_of_singleton. done.
  - vm_compute. reflexivity.
  - constructor.
Defined.
