(* ===== verification/Sender.v ===== *)
(** * How the node sends a request to other nodes

    [SendAppRequest] of src/utils/avalanche/networking/sender/sender.go, with what it
    calls: the timeout manager (src/utils/avalanche/networking/timeout/manager.go), the
    averager of src/utils/math/continuous_averager.go, the filter of
    src/utils/subnets/subnet.go, the builder of messages (Messages.v), the benchlist
    (Benchlist.v) and the [Send] of the network (NetworkSend.v).

    What is done is a list of events: a call of the router, a message given to the network.
    A computation returns the events it made and its result, [None] when it panicked, so
    that what was done before a panic is kept.  The order in which a set is visited is an
    argument.  Each node is looked up in the benchlist once and has its failure registered
    at one time, so both are functions of the node whatever the other goroutines do. *)

From Stdlib Require Import SpecFloat.
From S2P Require Import Prelude Packer VdrManager IpTracker PeerSet Float64 Benchlist Messages NetworkSend.

(** ** math/averager.go, math/continuous_averager.go *)

Class Averager (A : Type) := {
  Observe : float64 → Z → A → A;
  Read : A → float64;
}.

Record continuousAverager := mkAverager {
  halflife : float64;
  weightedSum : float64;
  normalizer : float64;
  lastUpdated : Z;
}.

(** [math.Ln2] *)
Definition Ln2 : float64 := SpecFloat.S754_finite false 6243314768165359 (-53).

Definition NewAverager (initialPrediction : float64) (halfLife currentTime : Z) : continuousAverager :=
  mkAverager (f64_div (f64_of_Z halfLife) Ln2) initialPrediction (f64_of_Z 1) currentTime.

(** [exp] is [math.Exp]. *)
Definition continuous_Observe (exp : float64 → float64) (value : float64) (currentTime : Z) (a : continuousAverager) : continuousAverager :=
  let delta := time_Sub (lastUpdated a) currentTime in
  if bool_decide (delta < 0)%Z then
    let newWeight := exp (f64_div (f64_of_Z delta) (halflife a)) in
    mkAverager (halflife a) (f64_add value (f64_mul newWeight (weightedSum a)))
      (f64_add (f64_of_Z 1) (f64_mul newWeight (normalizer a))) currentTime
  else if bool_decide (delta = 0)%Z then
    mkAverager (halflife a) (f64_add (weightedSum a) value) (f64_add (normalizer a) (f64_of_Z 1)) (lastUpdated a)
  else
    let newWeight := exp (f64_div (f64_of_Z (wrapS 64 (- delta))) (halflife a)) in
    mkAverager (halflife a) (f64_add (weightedSum a) (f64_mul newWeight value)) (f64_add (normalizer a) newWeight) (lastUpdated a).

Definition continuous_Read (a : continuousAverager) : float64 := f64_div (weightedSum a) (normalizer a).

Definition continuous_Averager (exp : float64 → float64) : Averager continuousAverager :=
  {| Observe := continuous_Observe exp; Read := continuous_Read |}.

(** ** timeout/manager.go *)

Section timeouts.
Context {A : Type} `{!Averager A}.

(** The averager and the gauges are interfaces: [None] is [nil]. *)
Record manager := mkManager {
  mg_averager : option A;
  currentTimeout : Z;
  minimumTimeout : Z;
  maximumTimeout : Z;
  timeoutCoefficient : float64;
  networkTimeoutMetric : option float64;
  avgLatencyMetric : option float64;
}.

Definition timeout_NewManager : manager := mkManager None 0 0 0 (f64_of_Z 0) None None.
Definition TimeoutDuration (m : manager) : Z := currentTimeout m.

(** [time.Duration(x)]; the language leaves open what a number outside the 64 bits becomes. *)
Variable unspecified : float64 → Z.
Definition to_Duration (x : float64) : Z :=
  match f64_trunc x with
  | Some z => if bool_decide (- 2 ^ 63 ≤ z < 2 ^ 63)%Z then z else unspecified x
  | None => unspecified x
  end.

Definition RegisterRequestToUnreachableValidator (now : Z) (m : manager) : option manager :=
  let latency := TimeoutDuration m in
  averager ← Observe (f64_of_Z latency) now <$> mg_averager m;
  let avgLatency := Read averager in
  let t := to_Duration (f64_mul (timeoutCoefficient m) avgLatency) in
  let t := if bool_decide (maximumTimeout m < t)%Z then maximumTimeout m
           else if bool_decide (t < minimumTimeout m)%Z then minimumTimeout m else t in
  _ ← networkTimeoutMetric m;
  _ ← avgLatencyMetric m;
  Some (mkManager (Some averager) t (minimumTimeout m) (maximumTimeout m) (timeoutCoefficient m)
          (Some (f64_of_Z t)) (Some avgLatency)).
End timeouts.
Arguments manager : clear implicits.

(** ** subnets/config.go, subnets/subnet.go *)

Record subnet := mkSubnet { ValidatorOnly : bool; AllowedNodes : gset (list Z); myNodeID : list Z }.

Inductive subnet_err := errAllowedNodesWhenNotValidatorOnly.

Definition config_Valid (s : subnet) : result subnet_err () :=
  if negb (ValidatorOnly s) && bool_decide (0 < size (AllowedNodes s)) then Prelude.Err errAllowedNodesWhenNotValidatorOnly else Ok ().

Definition subnet_IsAllowed (s : subnet) (nodeID : list Z) (isValidator : bool) : bool :=
  bool_decide (nodeID = myNodeID s) || negb (ValidatorOnly s) || isValidator || bool_decide (nodeID ∈ AllowedNodes s).

(** ** What was done, and the result unless it panicked *)

Inductive sevent :=
| ERegisterRequest (nodeID chainID : list Z) (requestID : Z) (op : Op) (timeoutMsg : inboundMessage)
| EHandleInbound (msg : inboundMessage)
| EFailedDueToBench (op : Op)
| ESend (msg : outboundMessage) (nodeIDs sentTo : gset (list Z)).

Definition traced (A : Type) : Type := list sevent * option A.
Definition tret {A} (a : A) : traced A := ([], Some a).
Definition tbind {A B} (f : A → traced B) (x : traced A) : traced B :=
  match x.2 with Some a => (x.1 ++ (f a).1, (f a).2) | None => (x.1, None) end.
Definition emit (e : sevent) : traced () := ([e], Some ()).
Definition may_panic {A} (o : option A) : traced A := ([], o).
Notation "x ⇠ c ; d" := (tbind (λ x, d) c) (at level 100, c at next level, right associativity).

(** ** sender.go *)

(** [common.ErrTimeout] *)
Definition ErrTimeout_Code : Z := -1.
Definition ErrTimeout_Message : list Z := [116; 105; 109; 101; 100; 32; 111; 117; 116]%Z.

Record P2PAppSender := mkSender { s_ChainID : list Z; s_SubnetID : list Z; s_NodeID : list Z; s_allower : subnet }.

Definition sender_New (chainID subnetID nodeID : list Z) (allowedNodes : gset (list Z)) : P2PAppSender :=
  mkSender chainID subnetID nodeID (mkSubnet true allowedNodes nodeID).

Section sender.
Context {A : Type} `{!Averager A, !Proto, !Zstd}.
Context (unspecified : float64 → Z) (t : compressionType).
(** The [Send] of the [ExternalSender]; [None] when it panics. *)
Variable external_Send : outboundMessage → SendConfig → list Z → (list Z → bool → bool) → option (gset (list Z)).
Variable isBenched : list Z → bool.
(** When the request to itself is made, and when the failure of a node is registered. *)
Variable (now : Z) (failed_at : list Z → Z).
Variable s : P2PAppSender.
Variable requestID : Z.

Definition timeout_error (nodeID : list Z) : inboundMessage :=
  InboundAppError nodeID (s_ChainID s) requestID ErrTimeout_Code ErrTimeout_Message.

Fixpoint register_loop (order : list (list Z)) : traced () :=
  match order with
  | [] => tret ()
  | nodeID :: rest =>
      _ ⇠ emit (ERegisterRequest nodeID (s_ChainID s) requestID AppResponseOp (timeout_error nodeID));
      register_loop rest
  end.

Fixpoint benched_loop (order : list (list Z)) (nodeIDs : gset (list Z)) (m : manager A) : traced (gset (list Z) * manager A) :=
  match order with
  | [] => tret (nodeIDs, m)
  | nodeID :: rest =>
      if isBenched nodeID then
        _ ⇠ emit (EFailedDueToBench AppRequestOp);
        m' ⇠ may_panic (RegisterRequestToUnreachableValidator unspecified (failed_at nodeID) m);
        _ ⇠ emit (EHandleInbound (timeout_error nodeID));
        benched_loop rest (nodeIDs ∖ {[nodeID]}) m'
      else benched_loop rest nodeIDs m
  end.

Fixpoint failed_loop (order : list (list Z)) (m : manager A) : traced (manager A) :=
  match order with
  | [] => tret m
  | nodeID :: rest =>
      m' ⇠ may_panic (RegisterRequestToUnreachableValidator unspecified (failed_at nodeID) m);
      _ ⇠ emit (EHandleInbound (timeout_error nodeID));
      failed_loop rest m'
  end.

(** [order1], [order2] and [order3] enumerate the set at each of the three loops.  The set
    of the caller is changed: it is returned with the manager. *)
Definition SendAppRequest (order1 order2 order3 : gset (list Z) → list (list Z)) (nodeIDs : gset (list Z)) (appRequestBytes : list Z)
    (m : manager A) : traced (gset (list Z) * manager A) :=
  _ ⇠ register_loop (order1 nodeIDs);
  let deadline := TimeoutDuration m in
  nodeIDs' ⇠ (if bool_decide (s_NodeID s ∈ nodeIDs) then
                _ ⇠ emit (EHandleInbound (InboundAppRequest (s_ChainID s) requestID deadline appRequestBytes (s_NodeID s) now));
                tret (nodeIDs ∖ {[s_NodeID s]})
              else tret nodeIDs);
  r ⇠ benched_loop (order2 nodeIDs') nodeIDs' m;
  _ ⇠ (match build_AppRequest t (s_ChainID s) requestID deadline appRequestBytes with
       | Ok outMsg =>
           sentTo ⇠ may_panic (external_Send outMsg (mkSendConfig r.1 0 0 0) (s_SubnetID s) (subnet_IsAllowed (s_allower s)));
           emit (ESend outMsg r.1 sentTo)
       | Prelude.Err _ => tret ()
       end);
  m' ⇠ failed_loop (order3 r.1) r.2;
  tret (r.1, m').
End sender.

(** ** What a request does *)

Definition registered (e : sevent) : option (list Z * inboundMessage) :=
  match e with ERegisterRequest n _ _ _ msg => Some (n, msg) | _ => None end.
Definition inbound (e : sevent) : option inboundMessage := match e with EHandleInbound msg => Some msg | _ => None end.
Definition sent (e : sevent) : option (outboundMessage * gset (list Z) * gset (list Z)) :=
  match e with ESend msg ns sentTo => Some (msg, ns, sentTo) | _ => None end.

Section manager.
Context {A : Type} `{!Averager A} (unspecified : float64 → Z).

(** The averager and the gauges are set. *)
Definition working (m : manager A) : Prop :=
  is_Some (mg_averager m) ∧ is_Some (networkTimeoutMetric m) ∧ is_Some (avgLatencyMetric m).
Definition clamped (m : manager A) : Prop := (minimumTimeout m ≤ currentTimeout m ≤ maximumTimeout m)%Z.

Definition bounds (m : manager A) : Z * Z := (minimumTimeout m, maximumTimeout m).

Lemma Register_working now m : working m →
  ∃ m', RegisterRequestToUnreachableValidator unspecified now m = Some m' ∧ working m' ∧ bounds m' = bounds m ∧
    ((minimumTimeout m ≤ maximumTimeout m)%Z → clamped m').
Proof.
  intros ([a Ha] & [g1 Hg1] & [g2 Hg2]). unfold RegisterRequestToUnreachableValidator. rewrite Ha, Hg1, Hg2. cbn.
  eexists. split; [done|]. split_and!; [by repeat split..|]. unfold clamped. cbn. repeat case_bool_decide; lia.
Qed.

(** [nil] is dereferenced. *)
Lemma Register_nil now m : ¬ working m → RegisterRequestToUnreachableValidator unspecified now m = None.
Proof.
  intros Hn. unfold RegisterRequestToUnreachableValidator, working in *. destruct (mg_averager m); [|done].
  destruct (networkTimeoutMetric m); [|done]. destruct (avgLatencyMetric m); [|done]. destruct Hn. by repeat split.
Qed.
End manager.

Section loops.
Context {A : Type} `{!Averager A}.
Context (unspecified : float64 → Z) (isBenched : list Z → bool) (failed_at : list Z → Z) (s : P2PAppSender) (requestID : Z).
Local Notation terr := (timeout_error s requestID).
Local Notation failure n := (EHandleInbound (terr n)).

Lemma request_register_spec order :
  register_loop s requestID order = ((λ n, ERegisterRequest n (s_ChainID s) requestID AppResponseOp (terr n)) <$> order, Some ()).
Proof. induction order as [|n order IH]; cbn; [done|]. unfold tbind. cbn. by rewrite IH. Qed.

(** What a loop makes of the manager: when it registers a failure at all, the timeout is
    then between its bounds. *)
Definition after (some_failed : Prop) (m m' : manager A) : Prop :=
  working m' ∧ bounds m' = bounds m ∧
  ((minimumTimeout m ≤ maximumTimeout m)%Z → some_failed ∨ clamped m → clamped m').

Lemma after_refl P m : working m → ¬ P → after P m m.
Proof. intros Hw Hn. split_and!; [done..|]. intros _ []; [by destruct Hn|done]. Qed.

Lemma after_step (P Q : Prop) now m m1 m2 : working m → RegisterRequestToUnreachableValidator unspecified now m = Some m1 →
  after Q m1 m2 → after P m m2.
Proof.
  intros Hw E (Hw2 & Hb2 & Hc2). destruct (Register_working unspecified now m Hw) as (m' & E' & _ & Hb & Hc). assert (m' = m1) as -> by congruence.
  unfold bounds in Hb. injection Hb as Hb1 Hb3. split_and!; [done|by rewrite Hb2; unfold bounds; rewrite Hb1, Hb3|].
  intros Hle _. apply Hc2; [by rewrite Hb1, Hb3|]. right. by apply Hc.
Qed.

Lemma benched_loop_spec order ids m : working m →
  ∃ m', benched_loop unspecified isBenched failed_at s requestID order ids m =
    (filter (λ n, isBenched n = true) order ≫= (λ n, [EFailedDueToBench AppRequestOp; failure n]),
     Some (ids ∖ list_to_set (filter (λ n, isBenched n = true) order), m')) ∧ after (filter (λ n, isBenched n = true) order ≠ []) m m'.
Proof.
  revert ids m. induction order as [|n order IH]; intros ids m Hw; cbn [benched_loop].
  { exists m. split; [|by apply after_refl; auto]. unfold tret. do 3 f_equal. cbn. set_solver. }
  rewrite filter_cons. destruct (isBenched n); [rewrite decide_True by done|rewrite decide_False by done; by apply IH].
  destruct (Register_working unspecified (failed_at n) m Hw) as (m1 & E & Hw1 & _).
  destruct (IH (ids ∖ {[n]}) m1 Hw1) as (m' & E' & Hm'). exists m'. split; [|by eapply after_step].
  unfold tbind, may_panic, emit. cbn. rewrite E. cbn. rewrite E'. cbn. do 3 f_equal. set_solver.
Qed.

Lemma failed_loop_spec order m : working m →
  ∃ m', failed_loop unspecified failed_at s requestID order m = ((λ n, failure n) <$> order, Some m') ∧ after (order ≠ []) m m'.
Proof.
  revert m. induction order as [|n order IH]; intros m Hw; cbn [failed_loop]; [exists m; split; [done|by apply after_refl; auto]|].
  destruct (Register_working unspecified (failed_at n) m Hw) as (m1 & E & Hw1 & _).
  destruct (IH m1 Hw1) as (m' & E' & Hm'). exists m'. split; [|by eapply after_step].
  unfold tbind, may_panic, emit. cbn. rewrite E. cbn. by rewrite E'.
Qed.

Lemma after_trans (P Q : Prop) m m1 m2 : after P m m1 → after Q m1 m2 → after (P ∨ Q) m m2.
Proof.
  intros (Hw1 & Hb1 & Hc1) (Hw2 & Hb2 & Hc2). unfold bounds in Hb1. injection Hb1 as E1 E2. rewrite E1, E2 in Hc2. split_and!; [done|by rewrite Hb2; unfold bounds; rewrite E1, E2|].
  intros Hle H. apply Hc2; [done|]. tauto.
Qed.

Lemma benched_loop_nil order ids m : ¬ working m →
  benched_loop unspecified isBenched failed_at s requestID order ids m =
    if bool_decide (Exists (λ n, isBenched n = true) order) then ([EFailedDueToBench AppRequestOp], None) else ([], Some (ids, m)).
Proof.
  intros Hm. induction order as [|n order IH]; cbn [benched_loop]; [done|]. destruct (isBenched n) eqn:E.
  - rewrite bool_decide_true by by apply Exists_cons_hd. unfold tbind, may_panic. cbn. by rewrite Register_nil.
  - rewrite IH, (bool_decide_ext (Exists _ (n :: order)) (Exists (λ n, isBenched n = true) order)); [done|].
    rewrite Exists_cons, E. intuition done.
Qed.

Lemma failed_loop_nil order m : ¬ working m →
  failed_loop unspecified failed_at s requestID order m = ([], match order with [] => Some m | _ => None end).
Proof. intros Hm. destruct order; cbn [failed_loop]; [done|]. unfold tbind, may_panic. cbn. by rewrite Register_nil. Qed.
End loops.

Section requests.
Context {A : Type} {averager : Averager A} {proto : Proto} {zstd : Zstd} {Peer : Type} (ID : Peer → list Z) (TrackedSubnets : Peer → gset (list Z)).
Context (isValidator : list Z → list Z → bool) (numValidators : list Z → Z) (peer_Send : outboundMessage → Peer → bool).
Context (order1 order2 order3 order4 : gset (list Z) → list (list Z)).
Context (unspecified : float64 → Z) (t : compressionType) (isBenched : list Z → bool) (now : Z) (failed_at : list Z → Z).
Context (src : list Z) (connected : peerSet (Peer := Peer)).
Context (s : P2PAppSender) (requestID : Z) (nodeIDs : gset (list Z)) (appRequestBytes : list Z) (m : manager A).

(** The network is the external sender. *)
Definition network_external (msg : outboundMessage) (config : SendConfig) (subnetID : list Z) (allowed : list Z → bool → bool) : option (gset (list Z)) :=
  (λ r, r.1.2.1) <$> network_Send ID TrackedSubnets isValidator numValidators (peer_Send msg) (order4 (cfg_NodeIDs config))
    config subnetID allowed src connected.

Definition send_request : traced (gset (list Z) * manager A) :=
  SendAppRequest unspecified t network_external isBenched now failed_at s requestID order1 order2 order3 nodeIDs appRequestBytes m.

Definition others : gset (list Z) := nodeIDs ∖ {[s_NodeID s]}.
Definition benched_nodes : gset (list Z) := filter (λ n, isBenched n = true) others.
Definition reachable_nodes : gset (list Z) := others ∖ benched_nodes.
Definition enumerates (order : gset (list Z) → list (list Z)) : Prop := ∀ S, order S ≡ₚ elements S.

(** The connected peer of the node takes the message, and the subnet allows the node. *)
Definition delivers (msg : outboundMessage) (n : list Z) : Prop :=
  subnet_IsAllowed (s_allower s) n (isValidator PrimaryNetworkID n) = true ∧
  ∃ p, p ∈ peersSlice connected ∧ ID p = n ∧ peer_Send msg p = true.

Lemma enumerates_elem order S n : enumerates order → n ∈ order S ↔ n ∈ S.
Proof. intros He. rewrite (He S). apply elem_of_elements. Qed.
Lemma enumerates_nodup order S : enumerates order → NoDup (order S).
Proof. intros He. rewrite (He S). apply NoDup_elements. Qed.

Lemma network_external_spec msg S : ps_ok ID connected → enumerates order4 → (0 ≤ numValidators (s_SubnetID s))%Z →
  ∃ sentTo, network_external msg (mkSendConfig S 0 0 0) (s_SubnetID s) (subnet_IsAllowed (s_allower s)) = Some sentTo ∧
    ∀ n, n ∈ sentTo ↔ n ∈ S ∧ delivers msg n.
Proof.
  intros Hps Ho Hn. unfold network_external, network_Send. cbn [cfg_NodeIDs].
  destruct (getPeers_spec ID TrackedSubnets isValidator numValidators (order4 S) (subnet_IsAllowed (s_allower s)) connected Hps) as (named & -> & _ & Hin);
    [by apply enumerates_nodup|]. cbn [mbind option_bind].
  unfold samplePeers, numValidatorsToSample, peerSet_Sample. cbn [cfg_Validators cfg_NonValidators cfg_Peers].
  rewrite Z.min_l, bool_decide_true by (done || lia). cbn [mbind option_bind].
  destruct (send_loop_spec ID TrackedSubnets isValidator numValidators (peer_Send msg) named ∅ []) as [Hs _]. destruct (send_loop _ _ named _ _) as [sentTo obs].
  eexists. split; [done|]. intros n. cbn in Hs |- *. rewrite Hs, elem_of_empty. unfold delivers. setoid_rewrite Hin.
  setoid_rewrite (enumerates_elem order4 S); [|done]. clear. split.
  - intros [[]|(p & (? & ? & ?) & <- & ?)]. eauto 6.
  - intros (? & ? & p & ? & <- & ?). right. eauto 7.
Qed.

Lemma tbind_run {X Y} (f : X → traced Y) l a l' o : f a = (l', o) → tbind f (l, Some a) = (l ++ l', o).
Proof. intros E. unfold tbind. cbn. by rewrite E. Qed.

Lemma omap_fmap_Some {X Y Z'} (f : X → Y) (g : Y → option Z') h (l : list X) : (∀ x, g (f x) = Some (h x)) → omap g (f <$> l) = h <$> l.
Proof. intros Hg. induction l as [|x l IH]; cbn; [done|]. by rewrite Hg, IH. Qed.
Lemma omap_fmap_None {X Y Z'} (f : X → Y) (g : Y → option Z') (l : list X) : (∀ x, g (f x) = None) → omap g (f <$> l) = [].
Proof. intros Hg. induction l as [|x l IH]; cbn; [done|]. by rewrite Hg. Qed.

Lemma benched_events_reg l : omap registered (l ≫= λ n, [EFailedDueToBench AppRequestOp; EHandleInbound (timeout_error s requestID n)]) = [].
Proof. by induction l. Qed.
Lemma benched_events_sent l : omap sent (l ≫= λ n, [EFailedDueToBench AppRequestOp; EHandleInbound (timeout_error s requestID n)]) = [].
Proof. by induction l. Qed.
Lemma benched_events_inbound l : omap inbound (l ≫= λ n, [EFailedDueToBench AppRequestOp; EHandleInbound (timeout_error s requestID n)]) =
  timeout_error s requestID <$> l.
Proof. induction l as [|n l IH]; cbn; [done|]. by rewrite IH. Qed.

Lemma benched_order : enumerates order2 → list_to_set (filter (λ n, isBenched n = true) (order2 others)) = benched_nodes.
Proof.
  intros He. apply set_eq. intros n. unfold benched_nodes. rewrite elem_of_list_to_set, list_elem_of_filter, elem_of_filter.
  by rewrite enumerates_elem.
Qed.

(** The nodes told to have failed: the benched ones and the others, each once. *)
Lemma failures_perm : enumerates order2 → enumerates order3 →
  filter (λ n, isBenched n = true) (order2 others) ++ order3 reachable_nodes ≡ₚ elements others.
Proof.
  intros H2 H3. apply NoDup_Permutation; [|apply NoDup_elements|].
  - apply NoDup_app. split_and!; [by apply NoDup_filter, enumerates_nodup| |by apply enumerates_nodup].
    intros n [Hb Hn]%list_elem_of_filter. rewrite enumerates_elem in Hn |- * by done.
    unfold reachable_nodes, benched_nodes. rewrite elem_of_difference, elem_of_filter. tauto.
  - intros n. rewrite elem_of_app, list_elem_of_filter, !enumerates_elem, elem_of_elements by done.
    unfold reachable_nodes, benched_nodes. rewrite elem_of_difference, elem_of_filter. destruct (isBenched n); intuition congruence.
Qed.

Definition self_request : list inboundMessage :=
  if bool_decide (s_NodeID s ∈ nodeIDs)
  then [InboundAppRequest (s_ChainID s) requestID (currentTimeout m) appRequestBytes (s_NodeID s) now] else [].

(** The call, once the set without this node is known. *)
Lemma send_request_unfold : send_request =
  (_ ⇠ register_loop s requestID (order1 nodeIDs);
   _ ⇠ (EHandleInbound <$> self_request, Some ());
   r ⇠ benched_loop unspecified isBenched failed_at s requestID (order2 others) others m;
   _ ⇠ (match build_AppRequest t (s_ChainID s) requestID (TimeoutDuration m) appRequestBytes with
        | Ok outMsg =>
            sentTo ⇠ may_panic (network_external outMsg (mkSendConfig r.1 0 0 0) (s_SubnetID s) (subnet_IsAllowed (s_allower s)));
            emit (ESend outMsg r.1 sentTo)
        | Prelude.Err _ => tret ()
        end);
   m' ⇠ failed_loop unspecified failed_at s requestID (order3 r.1) r.2;
   tret (r.1, m')).
Proof.
  unfold send_request, SendAppRequest, self_request. unfold tbind at 1 10. rewrite request_register_spec. cbn [fst snd].
  case_bool_decide as Hs.
  - done.
  - replace others with nodeIDs; [done|]. unfold others. set_solver.
Qed.

Definition middle_ok (mid : list sevent) : Prop :=
  omap registered mid = [] ∧ omap inbound mid = [] ∧
  match build_AppRequest t (s_ChainID s) requestID (currentTimeout m) appRequestBytes with
  | Ok outMsg => ∃ sentTo, omap sent mid = [(outMsg, reachable_nodes, sentTo)] ∧
                   ∀ n, n ∈ sentTo ↔ n ∈ reachable_nodes ∧ delivers outMsg n
  | Prelude.Err _ => omap sent mid = []
  end.

Lemma middle_spec : ps_ok ID connected → enumerates order4 → (0 ≤ numValidators (s_SubnetID s))%Z →
  ∃ mid, match build_AppRequest t (s_ChainID s) requestID (TimeoutDuration m) appRequestBytes with
         | Ok outMsg =>
             sentTo ⇠ may_panic (network_external outMsg (mkSendConfig reachable_nodes 0 0 0) (s_SubnetID s) (subnet_IsAllowed (s_allower s)));
             emit (ESend outMsg reachable_nodes sentTo)
         | Prelude.Err _ => tret ()
         end = (mid, Some ()) ∧ middle_ok mid.
Proof.
  intros Hps Ho Hn. unfold middle_ok, TimeoutDuration. destruct (build_AppRequest _ _ _ _ _) as [out|e].
  - destruct (network_external_spec out reachable_nodes Hps Ho Hn) as (sentTo & -> & Hs).
    exists [ESend out reachable_nodes sentTo]. split_and!; eauto.
  - exists []. done.
Qed.

(** The message is sent once, to [S], when it can be built. *)
Definition sent_to (S : gset (list Z)) (events : list sevent) : Prop :=
  match build_AppRequest t (s_ChainID s) requestID (currentTimeout m) appRequestBytes with
  | Ok outMsg => ∃ sentTo, omap sent events = [(outMsg, S, sentTo)] ∧ ∀ n, n ∈ sentTo ↔ n ∈ S ∧ delivers outMsg n
  | Prelude.Err _ => omap sent events = []
  end.

Context (Hps : ps_ok ID connected) (Hord : Forall enumerates [order1; order2; order3; order4]) (Hnum : (0 ≤ numValidators (s_SubnetID s))%Z).

Lemma request_working : working m →
  ∃ events m', send_request = (events, Some (reachable_nodes, m')) ∧ after (others ≠ ∅) m m' ∧
    omap registered events ≡ₚ (λ n, (n, timeout_error s requestID n)) <$> elements nodeIDs ∧
    omap inbound events ≡ₚ self_request ++ (timeout_error s requestID <$> elements others) ∧ sent_to reachable_nodes events.
Proof.
  intros Hw. rewrite !Forall_cons in Hord. destruct Hord as (Ho1 & Ho2 & Ho3 & Ho4 & _).
  rewrite send_request_unfold, request_register_spec.
  destruct (benched_loop_spec unspecified isBenched failed_at s requestID (order2 others) others m Hw) as (m1 & -> & H1).
  rewrite benched_order by done. fold reachable_nodes.
  destruct (failed_loop_spec unspecified failed_at s requestID (order3 reachable_nodes) m1 (proj1 H1)) as (m2 & E & H2).
  destruct (middle_spec Hps Ho4 Hnum) as (mid & Em & Hr & Hi & Hs).
  erewrite tbind_run; [|eapply tbind_run, tbind_run; cbn [fst snd]; rewrite Em; eapply tbind_run; rewrite E; by eapply tbind_run].
  eexists _, m2. split; [reflexivity|]. unfold sent_to. rewrite !omap_app, app_nil_r, Hr, Hi, benched_events_reg, benched_events_sent, benched_events_inbound.
  erewrite (omap_fmap_Some _ registered) by done. erewrite (omap_fmap_Some _ inbound _ self_request) by done.
  rewrite !(omap_fmap_None _ inbound), !(omap_fmap_None _ registered), !(omap_fmap_None _ sent) by done.
  split_and!.
  - destruct (after_trans _ _ _ _ _ H1 H2) as (Hw' & Hb & Hc). split_and!; [done..|]. intros Hle [Hne|?]; apply Hc; auto. left.
    destruct (filter _ (order2 others)) as [|n l] eqn:Ef; [right|by left]. intros E3. apply Hne.
    pose proof (failures_perm Ho2 Ho3) as Hp. rewrite Ef, E3 in Hp. apply Permutation_nil_l in Hp. by apply leibniz_equiv, elements_empty_inv.
  - cbn [app]. by rewrite (Ho1 nodeIDs), app_nil_r.
  - cbn [app]. rewrite (omap_fmap_Some _ inbound (timeout_error s requestID)) by done. cbn [omap list_omap]. by rewrite list_fmap_id, app_nil_r, <-fmap_app, failures_perm.
  - cbn [app]. destruct (build_AppRequest _ _ _ _ _); [destruct Hs as (sentTo & -> & Hs); eauto|by rewrite Hs].
Qed.
Lemma request_not_working : ¬ working m →
  ∃ events r, send_request = (events, r) ∧ (r = None ↔ others ≠ ∅) ∧
    omap registered events ≡ₚ (λ n, (n, timeout_error s requestID n)) <$> elements nodeIDs ∧
    omap inbound events = self_request ∧
    if bool_decide (benched_nodes = ∅) then sent_to others events else omap sent events = [].
Proof.
  intros Hw. rewrite !Forall_cons in Hord. destruct Hord as (Ho1 & Ho2 & Ho3 & Ho4 & _).
  rewrite send_request_unfold, request_register_spec, benched_loop_nil by done. case_bool_decide as Hb.
  { apply Exists_exists in Hb as (n & Hn & Hb). rewrite enumerates_elem in Hn by done.
    assert (n ∈ benched_nodes) as Hn' by by apply elem_of_filter. rewrite bool_decide_false by set_solver.
    erewrite tbind_run by by eapply tbind_run. eexists _, _. split; [reflexivity|]. rewrite !omap_app.
    erewrite (omap_fmap_Some _ registered), (omap_fmap_Some _ inbound _ self_request) by done.
    rewrite !(omap_fmap_None _ inbound), !(omap_fmap_None _ registered), !(omap_fmap_None _ sent) by done.
    split_and!; [set_solver| |by cbn; rewrite list_fmap_id, app_nil_r|done]. cbn. by rewrite (Ho1 nodeIDs), app_nil_r. }
  assert (benched_nodes = ∅) as Hbn.
  { apply set_eq. intros n. split; [|set_solver]. intros [E Hn]%elem_of_filter. destruct Hb. apply Exists_exists.
    exists n. by rewrite enumerates_elem. }
  assert (reachable_nodes = others) as Hrn by (unfold reachable_nodes; rewrite Hbn; set_solver).
  destruct (middle_spec Hps Ho4 Hnum) as (mid & Em & Hr & Hi & Hs). rewrite Hrn in Em, Hs.
  assert (order3 others = [] ↔ others = ∅) as H3.
  { rewrite <-leibniz_equiv_iff, <-elements_empty_iff, <-!Permutation_nil_r. by rewrite (Ho3 others). }
  erewrite tbind_run; [|eapply tbind_run, tbind_run; cbn [fst snd]; rewrite Em; eapply tbind_run; rewrite failed_loop_nil by done; apply surjective_pairing].
  rewrite bool_decide_true by done. eexists _, _. split; [reflexivity|]. unfold sent_to.
  assert (∀ x : option (manager A), (tbind (λ m', tret (others, m')) ([], x)).1 = []) as Ht by by intros [].
  rewrite !omap_app, Ht, Hr, Hi. erewrite (omap_fmap_Some _ registered), (omap_fmap_Some _ inbound _ self_request) by done.
  rewrite !(omap_fmap_None _ inbound), !(omap_fmap_None _ registered), !(omap_fmap_None _ sent) by done. split_and!.
  - destruct (order3 others) as [|n l]; cbn; [intuition done|]. split; [|done]. intros _ E. by apply H3 in E.
  - cbn. by rewrite (Ho1 nodeIDs), app_nil_r.
  - cbn. by rewrite list_fmap_id, app_nil_r.
  - cbn [app omap list_omap]. rewrite app_nil_r. exact Hs.
Qed.

(** C19: what a request to other nodes does, for every timeout manager.  For any set of nodes,
    any orders in which it is visited and the network as the external sender, the router is
    told to expect an answer of each node of the set exactly once.

    When the averager and the gauges of the manager are set, [SendAppRequest] returns: the
    request is given to the router when this node is in the set; the message is sent once,
    when it can be built, to the nodes of the set that are neither this node nor benched, and
    delivered exactly to those that the subnet allows and whose connected peer takes it; each
    other node of the set is reported to the router as failed exactly once, also one that the
    message was delivered to; the bounds of the timeout are kept, and when they are in order
    and a node failed the timeout is between them; and the set of the caller is left with
    the nodes the message was addressed to.

    When they are not set, as in the manager that [NewManager] makes, the call panics exactly
    when the set has another node than this one: no node is then reported as failed, and
    the message was sent before the panic exactly when no node of the set is benched. *)
Theorem app_request_outcomes :
  let events := send_request.1 in let result := send_request.2 in
  omap registered events ≡ₚ (λ n, (n, timeout_error s requestID n)) <$> elements nodeIDs ∧
  (working m →
     (∃ m', result = Some (reachable_nodes, m') ∧ working m' ∧ bounds m' = bounds m ∧
        ((minimumTimeout m ≤ maximumTimeout m)%Z → others ≠ ∅ ∨ clamped m → clamped m')) ∧
     omap inbound events ≡ₚ self_request ++ (timeout_error s requestID <$> elements others) ∧
     sent_to reachable_nodes events) ∧
  (¬ working m →
     (result = None ↔ others ≠ ∅) ∧ omap inbound events = self_request ∧
     if bool_decide (benched_nodes = ∅) then sent_to others events else omap sent events = []) ∧
  (m = timeout_NewManager → ¬ working m).
Proof.
  cbv zeta. assert (working m ∨ ¬ working m) as Hdec.
  { unfold working. destruct (mg_averager m), (networkTimeoutMetric m), (avgLatencyMetric m);
      try (right; intros ([] & [] & []); congruence). left. by repeat split. }
  assert (m = timeout_NewManager → ¬ working m) as Hnew by (intros -> ([] & _); done).
  destruct Hdec as [Hw|Hw].
  - destruct (request_working Hw) as (events & m' & E & Ha & H). rewrite E. cbn [fst snd]. split_and!; [apply H| |done|done].
    intros _. split; [|apply H]. by exists m'.
  - destruct (request_not_working Hw) as (events & r & E & Hn & Hreg & H). rewrite E. cbn [fst snd]. by split_and!.
Qed.
End requests.

(** Node 9 asks itself, 1, 2, 4 and 5: node 2 is benched, 4 is not allowed, 5 is not connected.
    Then node 9 asks node 1 with the manager of [NewManager]. *)
Definition ex_averager : Averager continuousAverager := continuous_Averager (λ _, f64_of_Z 1).
Definition ex_request_proto : Proto := {| proto_Marshal _ := Ok [1%Z]; proto_Unmarshal _ := Prelude.Err "malformed" |}.
Definition ex_request_zstd : Zstd := {| zstd_Compress b := Ok b; zstd_ReadAll c _ := Ok c |}.
Definition ex_manager : manager continuousAverager :=
  mkManager (Some (NewAverager (f64_of_Z 20) 10 100)) 20 10 50 (f64_of_Z 2) (Some (f64_of_Z 20)) (Some (f64_of_Z 20)).
Definition ex_sender : P2PAppSender := sender_New [3%Z] [8%Z] [9%Z] {[ [1%Z] ]}.
Definition ex_nodes : gset (list Z) := {[ [9%Z]; [1%Z]; [2%Z]; [4%Z]; [5%Z] ]}.
Definition ex_request_of (nodes : gset (list Z)) (m : manager continuousAverager) : traced (gset (list Z) * manager continuousAverager) :=
  send_request (averager := ex_averager) (proto := ex_request_proto) (zstd := ex_request_zstd) (λ p, [p]) (λ _, ∅) ex_isValidator (λ _, 2%Z) (λ _ _, true)
    elements elements elements elements (λ _, 0%Z) TypeNone (λ n, bool_decide (n = [2%Z])) 100 (λ _, 101%Z) [] ex_connected ex_sender 7 nodes [6%Z] m.
Definition ex_request := ex_request_of ex_nodes ex_manager.

Lemma app_request_outcomes_witness :
  (∃ m', ex_request.2 = Some ({[ [1%Z]; [4%Z]; [5%Z] ]}, m') ∧ clamped m') ∧
  (λ x, x.2) <$> omap sent ex_request.1 = [{[ [1%Z] ]}] ∧
  im_nodeID <$> omap inbound ex_request.1 = [[9%Z]; [2%Z]; [5%Z]; [1%Z]; [4%Z]] ∧
  currentTimeout <$> (snd <$> ex_request.2) = Some 50%Z ∧
  (ex_request_of {[ [1%Z] ]} timeout_NewManager).2 = None.
Proof.
  assert (Forall enumerates [elements; elements; elements; elements]) as Ho.
  { repeat (apply List.Forall_cons; [intros S; reflexivity|]). apply List.Forall_nil. }
  pose proof (λ nodes m, app_request_outcomes (averager := ex_averager) (proto := ex_request_proto) (zstd := ex_request_zstd) (λ p, [p]) (λ _, ∅) ex_isValidator (λ _, 2%Z) (λ _ _, true)
    elements elements elements elements (λ _, 0%Z) TypeNone (λ n, bool_decide (n = [2%Z])) 100 (λ _, 101%Z) [] ex_connected ex_sender 7 nodes [6%Z] m ex_connected_ok Ho ltac:(done)) as H.
  split; [|split; [vm_compute; reflexivity|split; [vm_compute; reflexivity|split; [vm_compute; reflexivity|]]]].
  - destruct (H ex_nodes ex_manager) as (_ & Hw & _). destruct Hw as [(m' & E & _ & _ & Hc) _]; [repeat split; eexists; reflexivity|].
    exists m'. split; [exact E|]. apply Hc; [vm_compute; discriminate|]. right. split; vm_compute; discriminate.
  - destruct (H {[ [1%Z] ]} timeout_NewManager) as (_ & _ & Hw & Hn). destruct (Hw (Hn eq_refl)) as [Hp _].
    apply Hp. intros E. assert ([1%Z] ∈ (∅ : gset (list Z))) as Hin; [|by apply elem_of_empty in Hin]. rewrite <-E. vm_compute. reflexivity.
Defined.
