(* ===== verification/PeerTracker.v ===== *)
(** * The peer tracker of the EVM package

    src/utils/evm/peer/peer_tracker.go.  The gauges are what they last were set to.  The
    order in which a map or a set is visited, the random numbers and [math.Exp] are
    arguments. *)

From Stdlib Require Import SpecFloat.
From S2P Require Import Prelude Float64 Version.

Definition desiredMinResponsivePeers : nat := 20.
(** The float64 nearest to 0.1 and to 0.2. *)
Definition newPeerConnectFactor : float64 := S754_finite false 7205759403792794 (-56).
Definition randomPeerProbability : float64 := S754_finite false 7205759403792794 (-55).

Record peerTracker := mkTracker {
  pt_peers : gmap (list Z) Application;
  numTrackedPeers : nat;
  trackedPeers : gset (list Z);
  numResponsivePeers : nat;
  responsivePeers : gset (list Z);
}.

Definition NewPeerTracker : peerTracker := mkTracker ∅ 0 ∅ 0 ∅.

Section any.
Context (exp : float64 → float64) (rnd1 rnd2 : float64).

Definition shouldTrackNewPeer (p : peerTracker) : bool :=
  let n := size (responsivePeers p) in
  if bool_decide (n < desiredMinResponsivePeers) then true
  else if bool_decide (size (pt_peers p) ≤ size (trackedPeers p)) then false
  else f64_lt rnd1 (exp (f64_mul (SFopp (f64_of_Z (Z.of_nat n))) newPeerConnectFactor)).

(** [set.Peek]: the first element visited. *)
Definition Peek (order : gset (list Z) → list (list Z)) (s : gset (list Z)) : option (list Z) := head (order s).

Fixpoint new_peer_loop (order : list (list Z)) (minVersion : option Application) (p : peerTracker) : option (list Z) :=
  match order with
  | [] => None
  | nodeID :: rest =>
      let old := match minVersion, pt_peers p !! nodeID with
                 | Some v, Some version => bool_decide (Application_Compare version v < 0)%Z
                 | _, _ => false
                 end in
      if old then new_peer_loop rest minVersion p
      else if bool_decide (nodeID ∈ trackedPeers p) then new_peer_loop rest minVersion p
      else Some nodeID
  end.

(** [None] is the result [false]. *)
Definition GetAnyPeer (peer_order : gset (list Z) → list (list Z)) (order1 order2 : gset (list Z) → list (list Z))
    (minVersion : option Application) (p : peerTracker) : option (list Z) :=
  match (if shouldTrackNewPeer p then new_peer_loop (peer_order (dom (pt_peers p))) minVersion p else None) with
  | Some nodeID => Some nodeID
  | None =>
      match (if f64_lt rnd2 randomPeerProbability then Peek order1 (responsivePeers p) else None) with
      | Some nodeID => Some nodeID
      | None => Peek order2 (trackedPeers p)
      end
  end.
End any.

Definition TrackPeer (nodeID : list Z) (p : peerTracker) : peerTracker :=
  let tracked := {[nodeID]} ∪ trackedPeers p in
  mkTracker (pt_peers p) (size tracked) tracked (numResponsivePeers p) (responsivePeers p).

Definition is_zero (x : float64) : bool := match x with S754_zero _ => true | _ => false end.

Definition TrackBandwidth (nodeID : list Z) (bandwidth : float64) (p : peerTracker) : peerTracker :=
  match pt_peers p !! nodeID with
  | None => p
  | Some _ =>
      let responsive := if is_zero bandwidth then responsivePeers p ∖ {[nodeID]} else {[nodeID]} ∪ responsivePeers p in
      mkTracker (pt_peers p) (numTrackedPeers p) (trackedPeers p) (size responsive) responsive
  end.

Definition tracker_Connected (nodeID : list Z) (nodeVersion : Application) (p : peerTracker) : peerTracker :=
  let add := mkTracker (<[nodeID := nodeVersion]> (pt_peers p)) (numTrackedPeers p) (trackedPeers p) (numResponsivePeers p) (responsivePeers p) in
  match pt_peers p !! nodeID with
  | Some version => if bool_decide (Application_Compare nodeVersion version ≠ 0)%Z then add else p
  | None => add
  end.

Definition tracker_Disconnected (nodeID : list Z) (p : peerTracker) : peerTracker :=
  let tracked := trackedPeers p ∖ {[nodeID]} in
  let responsive := responsivePeers p ∖ {[nodeID]} in
  mkTracker (delete nodeID (pt_peers p)) (size tracked) tracked (size responsive) responsive.

Definition tracker_Size (p : peerTracker) : nat := size (pt_peers p).

(** ** What it chooses *)

(** A request is sent to a peer that [GetAnyPeer] chose, which is then tracked. *)
Inductive tracker_step : peerTracker → peerTracker → Prop :=
| step_request exp rnd1 rnd2 peer_order order1 order2 minVersion n p :
    (∀ s, peer_order s ≡ₚ elements s) → (∀ s, order1 s ≡ₚ elements s) → (∀ s, order2 s ≡ₚ elements s) →
    GetAnyPeer exp rnd1 rnd2 peer_order order1 order2 minVersion p = Some n → tracker_step p (TrackPeer n p)
| step_bandwidth n b p : tracker_step p (TrackBandwidth n b p)
| step_connected n v p : tracker_step p (tracker_Connected n v p)
| step_disconnected n p : tracker_step p (tracker_Disconnected n p).

Record tracker_ok (p : peerTracker) : Prop := {
  tracked_connected : trackedPeers p ⊆ dom (pt_peers p);
  responsive_connected : responsivePeers p ⊆ dom (pt_peers p);
  tracked_gauge : numTrackedPeers p = size (trackedPeers p);
  responsive_gauge : numResponsivePeers p = size (responsivePeers p);
}.

Definition new_enough (minVersion : option Application) (n : list Z) (p : peerTracker) : Prop :=
  ∀ v version, minVersion = Some v → pt_peers p !! n = Some version → (0 ≤ Application_Compare version v)%Z.

Lemma new_peer_loop_spec order minVersion p :
  match new_peer_loop order minVersion p with
  | Some n => n ∈ order ∧ n ∉ trackedPeers p ∧ new_enough minVersion n p
  | None => ∀ n, n ∈ order → new_enough minVersion n p → n ∈ trackedPeers p
  end.
Proof.
  induction order as [|n order IH]; cbn [new_peer_loop]; [by intros n ?%not_elem_of_nil|].
  assert (new_enough minVersion n p ↔
    match minVersion, pt_peers p !! n with Some v, Some version => bool_decide (Application_Compare version v < 0)%Z | _, _ => false end = false) as Hne.
  { unfold new_enough. destruct minVersion as [v|], (pt_peers p !! n) as [w|]; try (split; [done|intros _; congruence]).
    rewrite bool_decide_eq_false. split; [intros Hv; specialize (Hv v w eq_refl eq_refl); lia|]. intros ? ? ? [= <-] [= <-]. lia. }
  destruct (match minVersion with Some _ => _ | None => _ end) eqn:Eold; [|case_bool_decide as Ht].
  - destruct (new_peer_loop order _ _) as [n'|]; [rewrite elem_of_cons; tauto|].
    intros n' [->|Hn']%elem_of_cons Hv; [|by apply IH]. by apply Hne in Hv.
  - destruct (new_peer_loop order _ _) as [n'|]; [rewrite elem_of_cons; tauto|].
    intros n' [->|Hn']%elem_of_cons Hv; [done|by apply IH].
  - rewrite elem_of_cons. split_and!; [by left|done|by apply Hne].
Qed.

Lemma setPeek_spec order s : (∀ s, order s ≡ₚ elements s) →
  match Peek order s with Some n => n ∈ s | None => s = ∅ end.
Proof.
  intros Ho. unfold Peek. pose proof (Ho s) as Hs. destruct (order s) as [|n l]; cbn.
  - apply leibniz_equiv, elements_empty_iff. by apply Permutation_nil_l in Hs.
  - apply elem_of_elements. rewrite <-Hs. by left.
Qed.

Section choice.
Context (exp : float64 → float64) (rnd1 rnd2 : float64) (peer_order order1 order2 : gset (list Z) → list (list Z)).
Hypothesis Hpeer : ∀ s, peer_order s ≡ₚ elements s.
Hypothesis Ho1 : ∀ s, order1 s ≡ₚ elements s.
Hypothesis Ho2 : ∀ s, order2 s ≡ₚ elements s.
Context (minVersion : option Application).
Local Notation choose p := (GetAnyPeer exp rnd1 rnd2 peer_order order1 order2 minVersion p).

(** A connected peer that no request was sent to and that has the version asked for. *)
Definition fresh (n : list Z) (p : peerTracker) : Prop := n ∈ dom (pt_peers p) ∧ n ∉ trackedPeers p ∧ new_enough minVersion n p.

Lemma GetAnyPeer_connected p n : tracker_ok p → choose p = Some n → n ∈ dom (pt_peers p).
Proof.
  intros Hp. unfold GetAnyPeer. pose proof (new_peer_loop_spec (peer_order (dom (pt_peers p))) minVersion p) as Hl.
  pose proof (setPeek_spec order1 (responsivePeers p) Ho1) as H1. pose proof (setPeek_spec order2 (trackedPeers p) Ho2) as H2.
  pose proof (tracked_connected p Hp). pose proof (responsive_connected p Hp).
  assert (choose' : ∀ o : option (list Z), o = Some n → match o with Some n => n ∈ trackedPeers p | None => trackedPeers p = ∅ end → n ∈ dom (pt_peers p))
    by (intros ? ->; set_solver).
  destruct (shouldTrackNewPeer _ _ p); [destruct (new_peer_loop _ _ _) as [n'|]|].
  - intros [= ->]. destruct Hl as [Hl _]. rewrite Hpeer in Hl. by apply elem_of_elements in Hl.
  - destruct (f64_lt _ _); [|eauto]. destruct (Peek order1 _); [intros [= ->]; set_solver|eauto].
  - destruct (f64_lt _ _); [|eauto]. destruct (Peek order1 _); [intros [= ->]; set_solver|eauto].
Qed.

Lemma GetAnyPeer_few p : size (responsivePeers p) < desiredMinResponsivePeers →
  match choose p with
  | Some n => (∃ n', fresh n' p) → fresh n p
  | None => trackedPeers p = ∅ ∧ ∀ n, ¬ fresh n p
  end.
Proof.
  intros Hfew. unfold GetAnyPeer, shouldTrackNewPeer. rewrite bool_decide_true by done.
  pose proof (new_peer_loop_spec (peer_order (dom (pt_peers p))) minVersion p) as Hl.
  destruct (new_peer_loop _ _ _) as [n|].
  { intros _. destruct Hl as (Hn & Ht & Hv). rewrite Hpeer in Hn. apply elem_of_elements in Hn. done. }
  assert (∀ n, ¬ fresh n p) as Hno.
  { intros n (Hn & Ht & Hv). apply Ht, Hl; [|done]. rewrite Hpeer. by apply elem_of_elements. }
  pose proof (setPeek_spec order2 (trackedPeers p) Ho2) as H2.
  destruct (if f64_lt _ _ then _ else _) as [n|]; [intros [n' Hf]; by destruct (Hno n')|].
  destruct (Peek order2 _); [intros [n' Hf]; by destruct (Hno n')|done].
Qed.
End choice.

Lemma tracker_step_ok p q : tracker_ok p → tracker_step p q → tracker_ok q.
Proof.
  intros Hp. pose proof Hp as [Ht Hr Gt Gr]. destruct 1 as [exp r1 r2 po o1 o2 v n p Hpo Ho1 Ho2 E|n b p|n v p|n p].
  - apply GetAnyPeer_connected in E; [|done..]. split; cbn; [set_solver|done..].
  - unfold TrackBandwidth. destruct (pt_peers p !! n) as [w|] eqn:E; [|done]. apply elem_of_dom_2 in E.
    split; cbn; [done| |done|done]. destruct (is_zero b); set_solver.
  - assert (∀ w, tracker_ok (mkTracker (<[n := w]> (pt_peers p)) (numTrackedPeers p) (trackedPeers p) (numResponsivePeers p) (responsivePeers p)))
      by (intros w; split; cbn; rewrite ?dom_insert_L; [set_solver|set_solver|done|done]).
    unfold tracker_Connected. destruct (pt_peers p !! n); [case_bool_decide|]; done.
  - split; cbn; rewrite ?dom_delete_L; [set_solver|set_solver|done|done].
Qed.

(** The peer tracker follows the peers: the peers it tracks and those that respond are connected,
    the gauges are their numbers, and the peer it chooses is connected.  While
    fewer than twenty peers respond it chooses a connected peer that no request was sent to and whose
    version is new enough, if there is one, and finds none only when it tracks none. *)
Theorem tracker_chooses_connected p : rtc tracker_step NewPeerTracker p →
  tracker_ok p ∧
  ∀ exp rnd1 rnd2 peer_order order1 order2 minVersion,
    (∀ s, peer_order s ≡ₚ elements s) → (∀ s, order1 s ≡ₚ elements s) → (∀ s, order2 s ≡ₚ elements s) →
    let r := GetAnyPeer exp rnd1 rnd2 peer_order order1 order2 minVersion p in
    (∀ n, r = Some n → n ∈ dom (pt_peers p)) ∧
    (size (responsivePeers p) < desiredMinResponsivePeers →
     match r with
     | Some n => (∃ n', fresh minVersion n' p) → fresh minVersion n p
     | None => trackedPeers p = ∅ ∧ ∀ n, ¬ fresh minVersion n p
     end).
Proof.
  intros Hreach. assert (tracker_ok p) as Hp.
  { assert (tracker_ok NewPeerTracker) as H0 by by split. induction Hreach; [done|eauto using tracker_step_ok]. }
  split; [done|]. intros. split; [intros n; by apply GetAnyPeer_connected|by apply GetAnyPeer_few].
Qed.

(** Two peers connect, one is asked and answers; with a version of at least 1.2.0 the next is the other. *)
Lemma tracker_chooses_connected_witness :
  let p := TrackBandwidth [1%Z] (f64_of_Z 5) (TrackPeer [1%Z] (tracker_Connected [2%Z] (mkApplication [] 1 3 0)
             (tracker_Connected [1%Z] (mkApplication [] 1 1 0) NewPeerTracker))) in
  GetAnyPeer id (f64_of_Z 0) (f64_of_Z 1) elements elements elements (Some (mkApplication [] 1 2 0)) p = Some [2%Z] ∧ tracker_ok p.
Proof.
  intros p. split; [vm_compute; reflexivity|]. apply (tracker_chooses_connected p).
  eapply rtc_l; [apply (step_connected [1%Z] (mkApplication [] 1 1 0))|].
  eapply rtc_l; [apply (step_connected [2%Z] (mkApplication [] 1 3 0))|].
  eapply rtc_l; [apply (step_request id (f64_of_Z 0) (f64_of_Z 1) elements elements elements None [1%Z]); [done..|vm_compute; reflexivity]|].
  eapply rtc_l; [apply (step_bandwidth [1%Z] (f64_of_Z 5))|]. apply rtc_refl.
Defined.
