(* ===== verification/AppRequests.v ===== *)
(** * Requests of the VM to other nodes

    src/utils/evm/peer: [network] (network.go), [client] (client.go) and
    [waitingResponseHandler] (waiting_handler.go).  A call of [client.SendAppRequest] takes a
    slot of a semaphore, registers its handler under a request ID and sends; the engine later
    calls [AppResponse] or [AppRequestFailed] with the ID, which removes the handler, frees
    the slot and calls the handler; the client waits for that, or for its context.

    Calls run concurrently: the system is a list of threads over a shared state, and a step
    is what a thread does under the lock, or one operation on the semaphore or on the channel
    of a handler.  [None] is a panic: a send on a closed channel, or closing it again. *)

From S2P Require Import Prelude SafeMath.

(** ** The handlers: a channel of capacity 1 *)

Record waiter := mkWaiter { w_chan : option (list Z); w_closed : bool; w_failed : bool }.
Definition newWaitingResponseHandler : waiter := mkWaiter None false false.

(** The channel has room: a handler gets one response (see [requests_answered_once]). *)
Definition OnResponse (response : list Z) (w : waiter) : option waiter :=
  if w_closed w then None
  else match w_chan w with
       | None => Some (mkWaiter (Some response) true (w_failed w))
       | Some _ => None
       end.
Definition OnFailure (w : waiter) : option waiter :=
  if w_closed w then None else Some (mkWaiter (w_chan w) true true).

Inductive req_err := ErrRequestFailed | ErrEmptyNode | ErrCtx | errAcquiringSemaphore | ErrSend.

(** The second case of the select of [WaitForResult]; [None] when it is not ready. *)
Definition receive_result (w : waiter) : option (result req_err (list Z)) :=
  match w_chan w, w_closed w with
  | Some response, _ => Some (if w_failed w then Err ErrRequestFailed else Ok response)
  | None, true => Some (if w_failed w then Err ErrRequestFailed else Ok [])
  | None, false => None
  end.

(** ** The network *)

Inductive answer := Response (bytes : list Z) | Failure.

Inductive thread :=
| TAcquire (node request : list Z) (h : nat)      (** before [activeAppRequests.Acquire] *)
| TSend (node request : list Z) (h : nat)         (** before [n.lock.Lock()] *)
| TWait (h : nat)                                 (** in [WaitForResult] *)
| TReturned (h : nat) (r : result req_err (list Z))
| TRelease (id : Z) (h : nat) (a : answer)        (** the handler was taken: before [Release] *)
| TDeliver (id : Z) (h : nat) (a : answer)        (** before [OnResponse] or [OnFailure] *)
| TForward (id : Z) (a : answer)                  (** not known: given to the p2p router *)
| TDone.

Record network := mkNetwork {
  requestIDGen : Z;
  outstandingRequestHandlers : gmap Z nat;
  activeAppRequests : Z;
  trackedPeers : gset (list Z);
  waiters : gmap nat waiter;
  threads : list thread;
  closed : bool;
  (** What was sent, with its handler, what the engine answered, and the handlers called. *)
  sent_requests : list (Z * list Z * list Z * nat);
  answers : list (Z * answer);
  delivered : list nat;
}.

Definition NewNetwork : network := mkNetwork 0 ∅ 0 ∅ ∅ [] false [] [] [].

Definition nextRequestID (n : network) : Z * Z := (requestIDGen n, wrapU 32 (requestIDGen n + 2)).

Definition EmptyNodeID : list Z := replicate 20 0%Z.

(** [client.SendAppRequest] and [network.SendAppRequest] up to the semaphore; [live]: the
    context has no error. *)
Definition SendAppRequest_start (node request : list Z) (live : bool) (n : network) : network :=
  let h := size (waiters n) in
  let t := if bool_decide (node = EmptyNodeID) then TReturned h (Err ErrEmptyNode)
           else if live then TAcquire node request h else TReturned h (Err ErrCtx) in
  mkNetwork (requestIDGen n) (outstandingRequestHandlers n) (activeAppRequests n) (trackedPeers n)
    (<[h := newWaitingResponseHandler]> (waiters n)) (threads n ++ [t]) (closed n) (sent_requests n) (answers n) (delivered n).

Definition set_thread (i : nat) (t : thread) (n : network) : network :=
  mkNetwork (requestIDGen n) (outstandingRequestHandlers n) (activeAppRequests n) (trackedPeers n)
    (waiters n) (<[i := t]> (threads n)) (closed n) (sent_requests n) (answers n) (delivered n).
Definition set_slots (z : Z) (n : network) : network :=
  mkNetwork (requestIDGen n) (outstandingRequestHandlers n) z (trackedPeers n)
    (waiters n) (threads n) (closed n) (sent_requests n) (answers n) (delivered n).

(** [sendAppRequest], under the lock; [live]: the context has no error; [ok]: the node's
    sender returns no error.  A closed network returns no error either. *)
Definition sendAppRequest (i : nat) (node request : list Z) (h : nat) (live ok : bool) (n : network) : network :=
  if closed n then set_thread i (TWait h) (set_slots (activeAppRequests n - 1)%Z n)
  else if negb live then set_thread i (TReturned h (Err ErrCtx)) (set_slots (activeAppRequests n - 1)%Z n)
  else
    let '(requestID, gen) := nextRequestID n in
    let tracked := trackedPeers n ∪ {[node]} in
    if ok then
      mkNetwork gen (<[requestID := h]> (outstandingRequestHandlers n)) (activeAppRequests n) tracked
        (waiters n) (<[i := TWait h]> (threads n)) (closed n) (sent_requests n ++ [(requestID, node, request, h)])
        (answers n) (delivered n)
    else
      mkNetwork gen (delete requestID (<[requestID := h]> (outstandingRequestHandlers n))) (activeAppRequests n - 1)%Z tracked
        (waiters n) (<[i := TReturned h (Err ErrSend)]> (threads n)) (closed n) (sent_requests n) (answers n) (delivered n).

(** [AppResponse] and [AppRequestFailed] up to [markRequestFulfilled]. *)
Definition markRequestFulfilled (id : Z) (a : answer) (n : network) : network :=
  match outstandingRequestHandlers n !! id with
  | None => mkNetwork (requestIDGen n) (outstandingRequestHandlers n) (activeAppRequests n) (trackedPeers n)
              (waiters n) (threads n ++ [TForward id a]) (closed n) (sent_requests n) (answers n ++ [(id, a)]) (delivered n)
  | Some h => mkNetwork (requestIDGen n) (delete id (outstandingRequestHandlers n)) (activeAppRequests n) (trackedPeers n)
              (waiters n) (threads n ++ [TRelease id h a]) (closed n) (sent_requests n) (answers n ++ [(id, a)]) (delivered n)
  end.

Definition deliver (i : nat) (h : nat) (a : answer) (n : network) : option network :=
  w ← waiters n !! h;
  w ← match a with Response bytes => OnResponse bytes w | Failure => OnFailure w end;
  Some (mkNetwork (requestIDGen n) (outstandingRequestHandlers n) (activeAppRequests n) (trackedPeers n)
          (<[h := w]> (waiters n)) (<[i := TDone]> (threads n)) (closed n) (sent_requests n) (answers n) (delivered n ++ [h])).

Section steps.
Variable maxActiveAppRequests : Z.

Inductive nstep : network → network → Prop :=
| step_call node request live n : nstep n (SendAppRequest_start node request live n)
| step_acquire i node request h n :
    threads n !! i = Some (TAcquire node request h) → (activeAppRequests n < maxActiveAppRequests)%Z →
    nstep n (set_thread i (TSend node request h) (set_slots (activeAppRequests n + 1)%Z n))
| step_acquire_cancelled i node request h n :
    threads n !! i = Some (TAcquire node request h) →
    nstep n (set_thread i (TReturned h (Err errAcquiringSemaphore)) n)
| step_send i node request h live ok n :
    threads n !! i = Some (TSend node request h) → nstep n (sendAppRequest i node request h live ok n)
| step_answer id a n : nstep n (markRequestFulfilled id a n)
| step_release i id h a n :
    threads n !! i = Some (TRelease id h a) →
    nstep n (set_thread i (TDeliver id h a) (set_slots (activeAppRequests n - 1)%Z n))
| step_deliver i id h a n n' :
    threads n !! i = Some (TDeliver id h a) → deliver i h a n = Some n' → nstep n n'
| step_result i h w r n :
    threads n !! i = Some (TWait h) → waiters n !! h = Some w → receive_result w = Some r →
    nstep n (set_thread i (TReturned h r) n)
| step_cancelled i h n :
    threads n !! i = Some (TWait h) → nstep n (set_thread i (TReturned h (Err ErrCtx)) n).

(** The runs, with the number of requests for which an ID was taken. *)
Inductive nreach : network → nat → Prop :=
| nreach_new : nreach NewNetwork 0
| nreach_step n n' k : nreach n k → nstep n n' →
    nreach n' (if bool_decide (requestIDGen n' = requestIDGen n) then k else S k).
End steps.

(** ** The invariant *)

Definition olist {A} (o : option A) : list A := match o with Some x => [x] | None => [] end.

Lemma omap_set {A B} (f : A → option B) l i t : l !! i = Some t →
  ∃ rest, omap f l ≡ₚ olist (f t) ++ rest ∧ ∀ t', omap f (<[i := t']> l) ≡ₚ olist (f t') ++ rest.
Proof.
  intros Hi. exists (omap f (take i l ++ drop (S i) l)).
  assert (∀ x, omap f (take i l ++ x :: drop (S i) l) ≡ₚ olist (f x) ++ omap f (take i l ++ drop (S i) l)) as Hx.
  { intros x. rewrite !omap_app. cbn. destruct (f x); cbn; [by rewrite <-Permutation_middle|done]. }
  split; [rewrite <-(take_drop_middle l i t Hi) at 1; apply Hx|]. intros t'.
  rewrite insert_take_drop by (by eapply lookup_lt_Some). apply Hx.
Qed.

Lemma omap_snoc {A B} (f : A → option B) l t : omap f (l ++ [t]) = omap f l ++ olist (f t).
Proof. rewrite omap_app. cbn. by destruct (f t). Qed.

(** The handler a thread alone can still register or call. *)
Definition owns (t : thread) : option nat :=
  match t with
  | TAcquire _ _ h | TSend _ _ h | TRelease _ h _ | TDeliver _ h _ => Some h
  | _ => None
  end.
Definition slots (t : thread) : Z := match t with TSend _ _ _ | TRelease _ _ _ => 1 | _ => 0 end.

(** Where a handler is: registered, with a thread, or called. *)
Definition places (n : network) : list nat :=
  (map_to_list (outstandingRequestHandlers n)).*2 ++ omap owns (threads n) ++ delivered n.

Definition sent_as (n : network) (id : Z) (h : nat) : Prop :=
  ∃ node request, (id, node, request, h) ∈ sent_requests n.

Definition result_of (a : answer) : result req_err (list Z) :=
  match a with Response bytes => Ok bytes | Failure => Err ErrRequestFailed end.

Definition answered (n : network) (h : nat) (a : answer) : Prop := ∃ id, sent_as n id h ∧ (id, a) ∈ answers n.

Definition thread_ok (n : network) (t : thread) : Prop :=
  match t with
  | TRelease id h a | TDeliver id h a => sent_as n id h ∧ (id, a) ∈ answers n
  | TReturned h (Ok bytes) => answered n h (Response bytes)
  | TReturned h (Err ErrRequestFailed) => answered n h Failure
  | _ => True
  end.

(** The thread that answers a request. *)
Definition carries (id : Z) (h : nat) (t : thread) : Prop :=
  match t with TRelease id' h' _ | TDeliver id' h' _ => id' = id ∧ h' = h | _ => False end.
Definition sent_id (s : Z * list Z * list Z * nat) : Z := let '(id, _, _, _) := s in id.

Lemma Exists_set {A} (P : A → Prop) l i t t' : l !! i = Some t → (P t → P t') → Exists P l → Exists P (<[i := t']> l).
Proof.
  intros Hi Ht (x & [j Hj]%list_elem_of_lookup & Hx)%list.Exists_exists. apply list.Exists_exists. destruct (decide (i = j)) as [<-|Hne].
  - simplify_eq. exists t'. split; [|auto]. apply (list_elem_of_lookup_2 _ i), list_lookup_insert_eq. by eapply lookup_lt_Some.
  - exists x. split; [|done]. apply (list_elem_of_lookup_2 _ j). by rewrite list_lookup_insert_ne.
Qed.

Record ninv (max : Z) (n : network) (k : nat) : Prop := {
  ni_gen : requestIDGen n = wrapU 32 (2 * Z.of_nat k);
  ni_ids : ∀ id h, sent_as n id h → ∃ j, (j < k)%nat ∧ id = (2 * Z.of_nat j)%Z;
  ni_out : ∀ id h, outstandingRequestHandlers n !! id = Some h → sent_as n id h;
  ni_slots : activeAppRequests n = (Z.of_nat (size (outstandingRequestHandlers n)) + sumZ (slots <$> threads n))%Z;
  ni_max : (activeAppRequests n ≤ max)%Z;
  ni_nodup : NoDup (places n);
  ni_fresh : ∀ h, h ∈ places n → (h < size (waiters n))%nat;
  ni_dom : ∀ h, is_Some (waiters n !! h) ↔ (h < size (waiters n))%nat;
  ni_waiters : ∀ h w, waiters n !! h = Some w →
    if bool_decide (h ∈ delivered n) then w_closed w = true ∧ ∃ a, answered n h a ∧ receive_result w = Some (result_of a)
    else w = newWaitingResponseHandler;
  ni_threads : ∀ t, t ∈ threads n → thread_ok n t;
  ni_once : NoDup (sent_id <$> sent_requests n);
  ni_kept : ∀ id h, sent_as n id h →
    outstandingRequestHandlers n !! id = Some h ∨ Exists (carries id h) (threads n) ∨ h ∈ delivered n;
}.

(** Logs only grow, so what was sent or answered stays so. *)
Definition grows (n n' : network) : Prop :=
  (∀ x, x ∈ sent_requests n → x ∈ sent_requests n') ∧ (∀ x, x ∈ answers n → x ∈ answers n').

Lemma thread_ok_grows n n' t : grows n n' → thread_ok n t → thread_ok n' t.
Proof.
  intros [Hs Ha]. assert (∀ id h, sent_as n id h → sent_as n' id h) as Hs' by (intros id h (a & b & ?); exists a, b; auto).
  assert (∀ h a, answered n h a → answered n' h a) as Ha' by (intros h a (id & ? & ?); exists id; auto).
  destruct t as [| | |h [b|[]]| | | |]; cbn; naive_solver.
Qed.

Lemma thread_set_ok n n' i t : grows n n' → (∀ x, x ∈ threads n → thread_ok n x) → threads n' = <[i := t]> (threads n) →
  thread_ok n' t → ∀ x, x ∈ threads n' → thread_ok n' x.
Proof.
  intros Hg Hn Et Ht x. rewrite Et. intros [j Hj]%list_elem_of_lookup. apply list_lookup_insert_Some in Hj.
  destruct Hj as [(_ & <- & _)|(_ & Hj)]; [done|]. apply list_elem_of_lookup_2 in Hj. by eapply thread_ok_grows, Hn.
Qed.

(** A thread that goes on, or stops, with no one else concerned. *)
Lemma ninv_thread max n k i t t' z : ninv max n k → threads n !! i = Some t →
  z = (activeAppRequests n + slots t' - slots t)%Z → (z ≤ max)%Z → thread_ok n t' →
  (owns t' = owns t ∨ owns t' = None) → (∀ id h, carries id h t → carries id h t') → ninv max (set_thread i t' (set_slots z n)) k.
Proof.
  intros [Hg Hi Ho Hs Hm Hn Hf Hd Hw Ht Hu Hk] Ei Hz Hzm Hok Hown Hc.
  destruct (omap_set owns (threads n) i t Ei) as (rest & Hp & Hp').
  assert (∃ extra, places n ≡ₚ extra ++ places (set_thread i t' (set_slots z n))) as [extra Hpl].
  { destruct Hown as [E|E]; [exists []|exists (olist (owns t))]; unfold places;
      cbn [outstandingRequestHandlers threads delivered set_thread set_slots]; rewrite Hp, (Hp' t'), E; [done|].
    cbn [olist app]. solve_Permutation. }
  rewrite Hpl in Hn. apply NoDup_app in Hn as (_ & _ & Hn). split; cbn; try done.
  - rewrite (sumZ_fmap_set _ _ _ t) by done. lia.
  - intros h Hh. apply Hf. rewrite Hpl. apply elem_of_app. by right.
  - by apply (thread_set_ok n (set_thread i t' (set_slots z n)) i t').
  - intros id h [?|[Hx|?]]%Hk; [by left| |by right; right]. right. left. eapply (Exists_set _ _ _ t); eauto.
Qed.

Lemma ninv_call max n k node request live : ninv max n k → ninv max (SendAppRequest_start node request live n) k.
Proof.
  intros [Hg Hi Ho Hs Hm Hn Hf Hd Hw Ht Hu Hk]. unfold SendAppRequest_start.
  set (t := if bool_decide _ then _ else _).
  assert (waiters n !! size (waiters n) = None) as Hnone.
  { apply eq_None_not_Some. rewrite Hd. lia. }
  assert (slots t = 0%Z ∧ thread_ok n t ∧ (owns t = Some (size (waiters n)) ∨ owns t = None)) as (Hst & Hokt & Hot).
  { unfold t. case_bool_decide; [cbn; auto|]. destruct live; cbn; auto. }
  assert (size (<[size (waiters n) := newWaitingResponseHandler]> (waiters n)) = S (size (waiters n))) as Hsz
    by (by rewrite map_size_insert_None).
  split; cbn [requestIDGen outstandingRequestHandlers activeAppRequests threads waiters]; try done.
  - rewrite sumZ_fmap_snoc. lia.
  - unfold places. cbn. rewrite omap_snoc, <-!app_assoc. fold (places n).
    assert (size (waiters n) ∉ places n) as Hnew by (intros ?%Hf; lia). unfold places in Hn, Hnew.
    destruct Hot as [->| ->]; cbn; [|done].
    rewrite <-!Permutation_middle. by constructor.
  - unfold places. cbn. intros h. rewrite omap_snoc, <-!app_assoc, Hsz. intros Hh.
    assert (h ∈ places n ∨ h = size (waiters n)) as [?%Hf| ->]; [|lia..]. unfold places.
    destruct Hot as [E|E]; rewrite E in Hh; cbn in Hh; set_solver.
  - intros h. rewrite Hsz. destruct (decide (h = size (waiters n))) as [->|Hne].
    + rewrite lookup_insert_eq. split; [lia|done].
    + rewrite lookup_insert_ne, Hd by done. lia.
  - intros h w. destruct (decide (h = size (waiters n))) as [->|Hne].
    + rewrite lookup_insert_eq. intros [= <-]. rewrite bool_decide_eq_false_2; [done|].
      intros Hin. assert (size (waiters n) ∈ places n) as ?%Hf; [|lia]. unfold places. set_solver.
    + rewrite lookup_insert_ne by done. apply Hw.
  - intros x [Hx|Hx%list_elem_of_singleton]%elem_of_app; [by apply (thread_ok_grows n), Ht|subst x].
    by apply (thread_ok_grows n).
  - intros id h [?|[?|?]]%Hk; [by left| |by right; right]. right. left. apply Exists_app. by left.
Qed.

Lemma ninv_answer max n k id a : ninv max n k → ninv max (markRequestFulfilled id a n) k.
Proof.
  intros [Hg Hi Ho Hs Hm Hn Hf Hd Hw Ht Hu Hk]. unfold markRequestFulfilled.
  destruct (outstandingRequestHandlers n !! id) as [h|] eqn:E.
  2: { split; cbn; try done.
    - rewrite sumZ_fmap_snoc. cbn. lia.
    - unfold places. cbn. rewrite omap_snoc. cbn. by rewrite app_nil_r.
    - unfold places. cbn. rewrite omap_snoc. cbn. by rewrite app_nil_r.
    - intros h w Hhw. specialize (Hw h w Hhw). case_bool_decide; [|done]. destruct Hw as (? & a' & (id' & ? & ?) & ?).
      split; [done|]. exists a'. split; [|done]. exists id'. split; [done|]. apply elem_of_app. by left.
    - intros x [Hx|Hx%list_elem_of_singleton]%elem_of_app; [|by subst x]. apply (thread_ok_grows n); [|by apply Ht].
      split; cbn; [done|]. intros y Hy. apply elem_of_app. by left.
    - intros id' h [?|[?|?]]%Hk; [by left| |by right; right]. right. left. apply Exists_app. by left. }
  pose proof (map_to_list_delete (outstandingRequestHandlers n) id h E) as Hdel.
  set (n' := mkNetwork _ _ _ _ _ _ _ _ _ _).
  assert (grows n n') as Hgr by (split; cbn; [done|]; intros y Hy; apply elem_of_app; by left).
  assert (places n' ≡ₚ places n) as Hpl.
  { unfold places, n'. cbn. rewrite omap_snoc. cbn. rewrite <-Hdel. cbn. rewrite <-!app_assoc. cbn.
    solve_Permutation. }
  split; cbn [n' requestIDGen activeAppRequests]; try done.
  - intros id' h' Hid. destruct (decide (id' = id)) as [->|]; cbn in Hid; [by rewrite lookup_delete_eq in Hid|].
    rewrite lookup_delete_ne in Hid by done. by apply Ho.
  - cbn. rewrite sumZ_fmap_snoc, map_size_delete, E. cbn.
    assert (size (outstandingRequestHandlers n) ≠ 0)%nat by (intros H0%map_size_empty_iff; by rewrite H0 in E). lia.
  - by rewrite Hpl.
  - intros h' Hh. apply Hf. by rewrite <-Hpl.
  - intros h' w Hhw. specialize (Hw h' w Hhw). cbn in *. case_bool_decide; [|done]. destruct Hw as (? & a' & (id' & ? & ?) & ?).
    split; [done|]. exists a'. split; [|done]. exists id'. split; [done|]. apply elem_of_app. by left.
  - cbn. intros x [Hx|Hx%list_elem_of_singleton]%elem_of_app; [by apply (thread_ok_grows n), Ht|subst x].
    split; [by apply Ho|]. apply elem_of_app. right. apply list_elem_of_singleton. done.
  - cbn. intros id' h' [Hid|[?|?]]%Hk; [|right; left; apply Exists_app; by left|by right; right].
    destruct (decide (id' = id)) as [->|]; [|left; by rewrite lookup_delete_ne].
    right. left. apply Exists_app. right. constructor. cbn. split; congruence.
Qed.

Lemma ninv_id max n k : ninv max n k → (Z.of_nat k < 2 ^ 31)%Z →
  requestIDGen n = (2 * Z.of_nat k)%Z ∧ outstandingRequestHandlers n !! (2 * Z.of_nat k)%Z = None ∧
  wrapU 32 (requestIDGen n + 2) = wrapU 32 (2 * Z.of_nat (S k)).
Proof.
  intros [Hg Hi Ho _ _ _ _ _ _ _ _ _] Hk. assert (requestIDGen n = (2 * Z.of_nat k)%Z) as Eg.
  { rewrite Hg. unfold wrapU. apply Z.mod_small. lia. }
  split; [done|]. split; [|rewrite Eg; f_equal; lia].
  apply eq_None_not_Some. intros [h (j & ? & ?)%Ho%Hi]. lia.
Qed.

Lemma ninv_take max n k tracked cl : ninv max n k → (Z.of_nat k < 2 ^ 31)%Z →
  ninv max (mkNetwork (wrapU 32 (requestIDGen n + 2)) (outstandingRequestHandlers n) (activeAppRequests n) tracked (waiters n)
              (threads n) cl (sent_requests n) (answers n) (delivered n)) (S k).
Proof.
  intros H Hk. pose proof (ninv_id _ _ _ H Hk) as (_ & _ & Eg). destruct H as [Hg Hi Ho Hs Hm Hn Hf Hd Hw Ht Hu Hkept].
  split; cbn; try done. intros id h (j & ? & ?)%Hi. exists j. split; [lia|done].
Qed.

(** The handler goes from the thread to the table. *)
Lemma ninv_sent max n k i node request h tracked cl : ninv max n k → (Z.of_nat k < 2 ^ 31)%Z →
  threads n !! i = Some (TSend node request h) →
  ninv max (mkNetwork (wrapU 32 (requestIDGen n + 2)) (<[requestIDGen n := h]> (outstandingRequestHandlers n)) (activeAppRequests n)
    tracked (waiters n) (<[i := TWait h]> (threads n)) cl (sent_requests n ++ [(requestIDGen n, node, request, h)])
    (answers n) (delivered n)) (S k).
Proof.
  intros H Hk Ei. pose proof (ninv_id _ _ _ H Hk) as (Eid & Enone & Eg). destruct H as [Hg Hi Ho Hs Hm Hn Hf Hd Hw Ht Hu Hkept].
  rewrite <-Eid in Enone. destruct (omap_set owns (threads n) i _ Ei) as (rest & Hp & Hp').
  set (n' := mkNetwork _ _ _ _ _ _ _ _ _ _).
  assert (grows n n') as Hgr by (split; cbn; [|done]; intros y Hy; apply elem_of_app; by left).
  assert (places n' ≡ₚ places n) as Hpl.
  { unfold places, n'. cbn [outstandingRequestHandlers threads delivered]. rewrite map_to_list_insert by done.
    rewrite Hp, (Hp' (TWait h)). cbn. solve_Permutation. }
  assert (∀ id h', sent_as n' id h' → sent_as n id h' ∨ (id = requestIDGen n ∧ h' = h)) as Hsent.
  { intros id h' (a & b & [Hx|Hx%list_elem_of_singleton]%elem_of_app); [left; by exists a, b|]. right. by injection Hx as -> _ _ ->. }
  assert (∀ id h', sent_as n id h' → sent_as n' id h') as Hsent' by (intros id h' (a & b & Hx); exists a, b; by apply Hgr).
  split; cbn [n' requestIDGen activeAppRequests waiters]; try done.
  - intros id h' [(j & ? & ?)%Hi|[-> ->]]%Hsent; [exists j|exists k]; split; lia.
  - intros id h' Hid. cbn in Hid. apply lookup_insert_Some in Hid as [[<- <-]|[_ Hid]]; [|by apply Hsent', Ho].
    exists node, request. apply elem_of_app. right. by apply list_elem_of_singleton.
  - cbn. rewrite (sumZ_fmap_set _ _ _ _ _ Ei), map_size_insert, Enone. cbn. lia.
  - by rewrite Hpl.
  - intros h' Hh. apply Hf. by rewrite <-Hpl.
  - intros h' w Hhw. specialize (Hw h' w Hhw). cbn. case_bool_decide; [|done]. destruct Hw as (? & a' & (id' & ? & ?) & ?).
    split; [done|]. exists a'. split; [|done]. exists id'. auto.
  - by apply (thread_set_ok n n' i (TWait h)).
  - cbn. rewrite fmap_app. cbn. apply NoDup_app. split; [done|]. split; [|apply NoDup_singleton].
    intros x Hx ->%list_elem_of_singleton. apply list_elem_of_fmap in Hx as ([[[id a] b] h'] & Ex & Hx). cbn in Ex.
    destruct (Hi id h') as (j & ? & ?); [by exists a, b|]. lia.
  - intros id h' Hid. cbn. destruct (Hsent id h' Hid) as [Hold|[-> ->]]; [|left; by rewrite lookup_insert_eq].
    destruct (Hkept id h' Hold) as [Hid'|[Hx|?]]; [| |by right; right].
    + left. rewrite lookup_insert_ne; [done|]. intros <-. congruence.
    + right. left. by eapply Exists_set.
Qed.

Lemma ninv_send max n k i node request h live ok (n' := sendAppRequest i node request h live ok n)
    (k' := if bool_decide (requestIDGen n' = requestIDGen n) then k else S k) : ninv max n k → (Z.of_nat k' ≤ 2 ^ 31)%Z →
  threads n !! i = Some (TSend node request h) → ninv max n' k'.
Proof.
  intros H Hk Ei. pose proof (ni_max _ _ _ H) as Hm.
  assert (∀ t', slots t' = 0%Z → owns t' = None → thread_ok n t' →
    ninv max (set_thread i t' (set_slots (activeAppRequests n - 1)%Z n)) k) as Hstop.
  { intros t' E0 En Hok. eapply ninv_thread; [done|done|cbn; lia|lia|done|by right|done]. }
  assert (wrapU 32 (requestIDGen n + 2) ≠ requestIDGen n) as Hne.
  { rewrite (ni_gen _ _ _ H). unfold wrapU. Z.to_euclidean_division_equations; lia. }
  subst k'. subst n'. unfold sendAppRequest in *.
  destruct (closed n); [rewrite bool_decide_eq_true_2 by done; by apply Hstop|].
  destruct live; cbn [negb] in *; [|rewrite bool_decide_eq_true_2 by done; by apply Hstop].
  cbn [nextRequestID] in *.
  destruct ok; cbn [requestIDGen] in *; rewrite bool_decide_eq_false_2 in Hk |- * by done; [apply ninv_sent; [done|lia|done]|].
  destruct (ninv_id _ _ _ H ltac:(lia)) as (Eid & Enone & _). rewrite delete_insert_id by (by rewrite Eid).
  apply (ninv_take max (set_thread i (TReturned h (Err ErrSend)) (set_slots (activeAppRequests n - 1)%Z n))); [by apply Hstop|lia].
Qed.

(** A handler that is still with its thread was not called. *)
Lemma deliver_ok max n k i id h a : ninv max n k → threads n !! i = Some (TDeliver id h a) →
  h ∉ delivered n ∧ waiters n !! h = Some newWaitingResponseHandler.
Proof.
  intros [_ _ _ _ _ Hn Hf Hd Hw _ _ _] Ei. destruct (omap_set owns (threads n) i _ Ei) as (rest & Hp & _).
  unfold places in Hn, Hf. rewrite Hp in Hn. cbn in Hn.
  assert (h ∉ delivered n) as Hnd.
  { intros Hin. apply NoDup_app in Hn as (_ & _ & Hn). apply NoDup_cons in Hn as [Hn _]. apply Hn, elem_of_app. by right. }
  split; [done|]. assert (h < size (waiters n))%nat as [w Ew]%Hd.
  { apply Hf. rewrite Hp. apply elem_of_app. right. by constructor. }
  pose proof (Hw h w Ew) as E. rewrite bool_decide_eq_false_2 in E by done. by subst w.
Qed.

Lemma ninv_deliver max n k i id h a n' : ninv max n k → threads n !! i = Some (TDeliver id h a) →
  deliver i h a n = Some n' → ninv max n' k.
Proof.
  intros H Ei Hdel. destruct (deliver_ok _ _ _ _ _ _ _ H Ei) as [Hnd Ew].
  assert (∃ w, n' = mkNetwork (requestIDGen n) (outstandingRequestHandlers n) (activeAppRequests n) (trackedPeers n)
          (<[h := w]> (waiters n)) (<[i := TDone]> (threads n)) (closed n) (sent_requests n) (answers n) (delivered n ++ [h]) ∧
     w_closed w = true ∧ receive_result w = Some (result_of a)) as (w & -> & Hc & Hr).
  { unfold deliver in Hdel. rewrite Ew in Hdel. cbn in Hdel. destruct a; cbn in Hdel; injection Hdel as <-; by eexists. }
  destruct H as [Hg Hi Ho Hs Hm Hn Hf Hd Hw Ht Hu Hk]. destruct (omap_set owns (threads n) i _ Ei) as (rest & Hp & Hp').
  clear Hdel. set (n' := mkNetwork _ _ _ _ _ _ _ _ _ _).
  assert (places n' ≡ₚ places n) as Hpl.
  { unfold places, n'. cbn [outstandingRequestHandlers threads delivered]. rewrite Hp, (Hp' TDone). cbn. solve_Permutation. }
  assert (size (<[h := w]> (waiters n)) = size (waiters n)) as Hsz by (rewrite map_size_insert, Ew; done).
  split; cbn [n' requestIDGen activeAppRequests waiters]; try done.
  - cbn. rewrite (sumZ_fmap_set _ _ _ _ _ Ei). cbn. lia.
  - by rewrite Hpl.
  - intros h' Hh. rewrite Hsz. apply Hf. by rewrite <-Hpl.
  - intros h'. rewrite Hsz, <-Hd. rewrite lookup_insert_is_Some'. split; [intros [<-|?]; [by rewrite Ew|done]|auto].
  - intros h' w' [[<- <-]|[Hne Hhw]]%lookup_insert_Some; cbn.
    + rewrite bool_decide_eq_true_2 by (apply elem_of_app; right; by apply list_elem_of_singleton).
      split; [done|]. exists a. split; [|done]. exists id. apply (Ht (TDeliver id h a)). by eapply list_elem_of_lookup_2.
    + specialize (Hw h' w' Hhw). rewrite (bool_decide_ext _ (h' ∈ delivered n)); [done|].
      rewrite elem_of_app, list_elem_of_singleton. split; [by intros [?| ->]|by left].
  - by apply (thread_set_ok n n' i TDone).
  - intros id' h' Hid. cbn. destruct (Hk id' h' Hid) as [?|[Hx|?]]; [by left| |right; right; apply elem_of_app; by left].
    right. apply list.Exists_exists in Hx as (x & [j Hj]%list_elem_of_lookup & Hx). destruct (decide (i = j)) as [<-|Hne].
    + right. simplify_eq. destruct Hx as [-> ->]. apply elem_of_app. right. by apply list_elem_of_singleton.
    + left. apply list.Exists_exists. exists x. split; [|done]. apply (list_elem_of_lookup_2 _ j). by rewrite list_lookup_insert_ne.
Qed.

Lemma ninv_new max : (0 ≤ max)%Z → ninv max NewNetwork 0.
Proof.
  intros. split; cbn; try done; try (by intros ? ?; inversion 1).
  - by intros id h (a & b & Hx%not_elem_of_nil).
  - constructor.
  - by intros h Hh%not_elem_of_nil.
  - intros h. rewrite lookup_empty. split; [by intros []|]. change (size _) with 0%nat. lia.
  - by intros t Hx%not_elem_of_nil.
  - constructor.
  - by intros id h (a & b & Hx%not_elem_of_nil).
Qed.

Lemma deliver_gen i h a n n' : deliver i h a n = Some n' → requestIDGen n' = requestIDGen n.
Proof.
  unfold deliver. intros (w & _ & (w' & _ & E)%bind_Some)%bind_Some. by injection E as <-.
Qed.

Lemma nreach_inv max n k : (0 ≤ max)%Z → nreach max n k → (Z.of_nat k ≤ 2 ^ 31)%Z → ninv max n k.
Proof.
  intros Hmax. induction 1 as [|n n' k Hr IH Hst]; intros Hk; [by apply ninv_new|].
  assert (Z.of_nat k ≤ 2 ^ 31)%Z as Hk' by (case_bool_decide; lia). specialize (IH Hk').
  pose proof (ni_max _ _ _ IH) as Hm. destruct Hst as [node request live n|i node request h n Ei Hlt|i node request h n Ei|
    i node request h live ok n Ei|id a n|i id h a n Ei|i id h a n n' Ei Hdel|i h w r n Ei Ew Er|i h n Ei].
  4: by apply ninv_send.
  all: rewrite bool_decide_eq_true_2 by first [done | unfold markRequestFulfilled; by destruct (outstandingRequestHandlers n !! id) | by eapply deliver_gen].
  - by apply ninv_call.
  - eapply ninv_thread; [done..|cbn; lia|lia|done|by left|done].
  - apply (ninv_thread _ n k i _ _ (activeAppRequests n) IH Ei); [cbn; lia|done|done|by right|done].
  - by apply ninv_answer.
  - eapply ninv_thread; [done..|cbn; lia|lia|exact (ni_threads _ _ _ IH _ (list_elem_of_lookup_2 _ _ _ Ei))|by left|done].
  - by eapply ninv_deliver.
  - apply (ninv_thread _ n k i _ _ (activeAppRequests n) IH Ei); [cbn; lia|done| |by right|done].
    pose proof (ni_waiters _ _ _ IH h w Ew) as Hw. case_bool_decide; [|subst w; done].
    destruct Hw as (_ & a & Ha & E). rewrite E in Er. injection Er as <-. by destruct a.
  - apply (ninv_thread _ n k i _ _ (activeAppRequests n) IH Ei); [cbn; lia|done|done|by right|done].
Qed.

(** An answer runs to the end: the handler is called and its client returns with the answer. *)
Lemma answer_completes max n k id h j a : ninv max n k → outstandingRequestHandlers n !! id = Some h →
  threads n !! j = Some (TWait h) →
  ∃ n', rtc (nstep max) n n' ∧ threads n' !! j = Some (TReturned h (result_of a)).
Proof.
  intros H Ho Hj. pose proof (ninv_answer _ _ _ id a H) as H1. set (n1 := markRequestFulfilled id a n) in *.
  assert (threads n1 = threads n ++ [TRelease id h a]) as Et by (unfold n1, markRequestFulfilled; by rewrite Ho).
  set (i := length (threads n)). assert (threads n1 !! i = Some (TRelease id h a)) as E1.
  { rewrite Et. by apply list_lookup_middle. }
  assert (j < i)%nat as Hji by (by eapply lookup_lt_Some).
  set (n2 := set_thread i (TDeliver id h a) (set_slots (activeAppRequests n1 - 1)%Z n1)).
  assert (i < length (threads n1))%nat as Hi1 by (by eapply lookup_lt_Some).
  assert (ninv max n2 k) as H2.
  { pose proof (ni_max _ _ _ H1). apply (ninv_thread _ _ _ _ _ _ _ H1 E1); [cbn; lia|lia| |by left|done].
    exact (ni_threads _ _ _ H1 _ (list_elem_of_lookup_2 _ _ _ E1)). }
  assert (threads n2 !! i = Some (TDeliver id h a)) as E2 by (by apply list_lookup_insert_eq).
  destruct (deliver_ok _ _ _ _ _ _ _ H2 E2) as [_ Ew].
  assert (∃ n3 w, deliver i h a n2 = Some n3 ∧ threads n3 = <[i := TDone]> (threads n2) ∧ waiters n3 !! h = Some w ∧
    receive_result w = Some (result_of a)) as (n3 & w & E3 & Et3 & Ew3 & Er).
  { unfold deliver. rewrite Ew. destruct a; cbn; do 2 eexists; (split; [done|]); cbn; rewrite lookup_insert_eq; done. }
  assert (threads n3 !! j = Some (TWait h)) as Hj3.
  { rewrite Et3. cbn. rewrite !list_lookup_insert_ne by lia. rewrite Et. by apply lookup_app_l_Some. }
  exists (set_thread j (TReturned h (result_of a)) n3). split.
  - eapply rtc_l; [apply (step_answer _ id a)|]. eapply rtc_l; [by eapply (step_release _ i id h a)|].
    eapply rtc_l; [by eapply (step_deliver _ i id h a)|]. by eapply rtc_once, step_result.
  - cbn. apply list_lookup_insert_eq. by eapply lookup_lt_Some.
Qed.

(** C26: The VM's requests to other nodes, in every interleaving of the clients, the engine's
    answers and timeouts, and cancelled contexts, as long as no more than [2 ^ 31] request IDs
    were taken.  The semaphore counts the requests that are registered or about to be, and its
    bound holds; the IDs of the requests sent are even and different; no handler is called
    twice, so that no channel is closed twice or written when closed; a request that was sent
    is registered, being answered or answered, so that none is lost; a call that returns bytes, or that
    returns [ErrRequestFailed], returns what the engine answered to the ID its request was sent
    with; and whatever the engine answers to a registered ID, the client that waits for it can
    return that answer. *)
Theorem requests_answered_once max n k : (0 ≤ max)%Z → nreach max n k → (Z.of_nat k ≤ 2 ^ 31)%Z →
  (activeAppRequests n = (Z.of_nat (size (outstandingRequestHandlers n)) + sumZ (slots <$> threads n))%Z ∧
   (activeAppRequests n ≤ max)%Z) ∧
  (NoDup (sent_id <$> sent_requests n) ∧ ∀ id h, sent_as n id h → Z.even id = true ∧ inU 32 id) ∧
  (NoDup (delivered n) ∧
   ∀ i id h a, threads n !! i = Some (TDeliver id h a) → is_Some (deliver i h a n)) ∧
  (∀ id h, sent_as n id h →
     outstandingRequestHandlers n !! id = Some h ∨ Exists (carries id h) (threads n) ∨
     ∃ w a, waiters n !! h = Some w ∧ answered n h a ∧ receive_result w = Some (result_of a)) ∧
  (∀ i h bytes, threads n !! i = Some (TReturned h (Ok bytes)) → answered n h (Response bytes)) ∧
  (∀ i h, threads n !! i = Some (TReturned h (Err ErrRequestFailed)) → answered n h Failure) ∧
  (∀ id h j a, outstandingRequestHandlers n !! id = Some h → threads n !! j = Some (TWait h) →
     ∃ n', rtc (nstep max) n n' ∧ threads n' !! j = Some (TReturned h (result_of a))).
Proof.
  intros Hmax Hr Hk. pose proof (nreach_inv _ _ _ Hmax Hr Hk) as H.
  split; [by split; [apply H|]; apply H|]. split.
  { split; [apply H|]. intros id h (j & Hj & ->)%(ni_ids _ _ _ H). split; [by rewrite Z.even_mul|unfold inU; lia]. }
  split.
  { split; [pose proof (ni_nodup _ _ _ H) as Hn; unfold places in Hn; apply NoDup_app in Hn as (_ & _ & Hn); by apply NoDup_app in Hn as (_ & _ & Hn)|].
    intros i id h a Hi. unfold deliver. destruct (deliver_ok _ _ _ _ _ _ _ H Hi) as [_ ->]. by destruct a. }
  split.
  { intros id h [?|[?|Hd]]%(ni_kept _ _ _ H); [by left|by right; left|]. right. right.
    assert (h < size (waiters n))%nat as [w Ew]%(ni_dom _ _ _ H).
    { apply (ni_fresh _ _ _ H). unfold places. rewrite !elem_of_app. by right; right. }
    pose proof (ni_waiters _ _ _ H h w Ew) as Hw. rewrite bool_decide_eq_true_2 in Hw by done. destruct Hw as (_ & a & ? & ?). by exists w, a. }
  split; [intros i h b Hi; apply (ni_threads _ _ _ H _ (list_elem_of_lookup_2 _ _ _ Hi))|].
  split; [intros i h Hi; apply (ni_threads _ _ _ H _ (list_elem_of_lookup_2 _ _ _ Hi))|].
  intros. by eapply answer_completes.
Qed.

(** Two calls with one slot: the first is answered while the second still waits for the slot. *)
Definition ex_n1 : network := SendAppRequest_start [1%Z] [7%Z] true NewNetwork.
Definition ex_n2 : network := SendAppRequest_start [2%Z] [8%Z] true ex_n1.
Definition ex_n3 : network := set_thread 0 (TSend [1%Z] [7%Z] 0) (set_slots 1 ex_n2).
Definition ex_n4 : network := sendAppRequest 0 [1%Z] [7%Z] 0 true true ex_n3.
Definition ex_n5 : network := markRequestFulfilled 0 (Response [9%Z]) ex_n4.

Lemma nreach_next max n n' k k' : nreach max n k → nstep max n n' →
  (if bool_decide (requestIDGen n' = requestIDGen n) then k else S k) = k' → nreach max n' k'.
Proof. intros H Hs <-. by eapply nreach_step. Qed.

Lemma ex_nreach : nreach 1 ex_n5 1.
Proof.
  eapply (nreach_next _ ex_n4 _ 1); [|apply step_answer|vm_compute; reflexivity].
  eapply (nreach_next _ ex_n3 _ 0); [|by apply step_send|vm_compute; reflexivity].
  eapply (nreach_next _ ex_n2 _ 0); [|by apply step_acquire|vm_compute; reflexivity].
  eapply (nreach_next _ ex_n1 _ 0); [|apply step_call|vm_compute; reflexivity].
  eapply (nreach_next _ NewNetwork _ 0); [constructor|apply step_call|vm_compute; reflexivity].
Qed.

Lemma requests_answered_once_witness : activeAppRequests ex_n5 = 1%Z ∧ threads ex_n5 =
    [TWait 0; TAcquire [2%Z] [8%Z] 1; TRelease 0 0 (Response [9%Z])] ∧ outstandingRequestHandlers ex_n5 !! 0%Z = None ∧
  Exists (carries 0 0) (threads ex_n5) ∧ (activeAppRequests ex_n5 ≤ 1)%Z.
Proof.
  pose proof (requests_answered_once 1 ex_n5 1 ltac:(lia) ex_nreach ltac:(lia)) as ([_ Hm] & _ & _ & Hk & _).
  split; [reflexivity|]. split; [reflexivity|]. split; [reflexivity|]. split; [|exact Hm].
  destruct (Hk 0%Z 0%nat) as [E|[E|(w & a & Ew & _ & Er)]].
  - exists [1%Z], [7%Z]. apply list_elem_of_singleton. reflexivity.
  - discriminate E.
  - exact E.
  - vm_compute in Ew. injection Ew as <-. discriminate Er.
Defined.
