(* ===== verification/WarpMessage.v ===== *)
(** * Warp messages (src/utils/avalanche/warp, src/utils/avalanche/warp/payload,
      src/utils/evm/warp/messages)

    An [UnsignedMessage] carries a payload from a chain of a network; a [Message]
    adds the signature.  Payloads are hashes (of blocks) or addressed calls, and an
    addressed call may carry a message of package messages.  All of them are
    encoded with the codec (Codec.v); the objects keep the bytes they were encoded
    to or decoded from.

    A type held by an interface is numbered per codec, in the order of registration:
    [*BitSetSignature] is 0 for package warp, [*Hash] and [*AddressedCall] are 0 and 1 for
    package payload, and package messages registers nothing, so there
    [*ValidatorUptime] is a type that is not in the registry.  Each package has one
    interface type, number 0.  SHA-256 is a parameter, as is the growth of slices
    ([grow]); [None] is a panic. *)

From S2P Require Import Prelude Packer Bimap Codec CodecValues.

Abbreviation ID := (list Z) (only parsing).

Definition MaxInt : Z := 2 ^ 63 - 1.

(** ** Unsigned messages *)

Record UnsignedMessage := mkUnsigned {
  NetworkID : Z;
  SourceChainID : ID;
  um_Payload : list Z;
  um_bytes : list Z;
  um_id : ID;
}.

Definition um_val (m : UnsignedMessage) : val :=
  VStruct [(tagged "NetworkID", VUint W32 (NetworkID m));
           (tagged "SourceChainID", bytes_val (SourceChainID m));
           (tagged "Payload", slice_val (um_Payload m));
           (untagged "bytes", slice_val (um_bytes m));
           (untagged "id", bytes_val (um_id m))].

Definition um_of_val (v : val) : option UnsignedMessage :=
  match v with
  | VStruct [(_, VUint _ n); (_, VArray _ c); (_, VSlice _ p); (_, VSlice _ b); (_, VArray _ i)] =>
      Some (mkUnsigned n (bytes_of c) (bytes_of p) (bytes_of b) (bytes_of i))
  | _ => None
  end.

(** ** Signatures and signed messages *)

Record BitSetSignature := mkBitSetSignature {
  Signers : list Z;
  Signature_ : list Z;
}.

(** [BLST_P2_COMPRESS_BYTES] *)
Definition SignatureLen : nat := 96.

Definition sig_val (s : BitSetSignature) : val :=
  VStruct [(tagged "Signers", slice_val (Signers s));
           (tagged "Signature", bytes_val (Signature_ s))].

Definition sig_of_val (v : val) : option BitSetSignature :=
  match v with
  | VStruct [(_, VSlice _ s); (_, VArray _ b)] => Some (mkBitSetSignature (bytes_of s) (bytes_of b))
  | _ => None
  end.

(** The [Signature] of a message is an interface; [None] is nil. *)
Record Message := mkMessage {
  m_Unsigned : UnsignedMessage;
  m_Signature : option BitSetSignature;
  m_bytes : list Z;
}.

Definition msg_val (m : Message) : val :=
  VStruct [(tagged "UnsignedMessage", um_val (m_Unsigned m));
           (tagged "Signature", match m_Signature m with
                                | Some s => VInterface 0 0 (VPtr (sig_val s))
                                | None => VNilInterface 0
                                end);
           (untagged "bytes", slice_val (m_bytes m))].

Definition msg_of_val (v : val) : option Message :=
  match v with
  | VStruct [(_, u); (_, VInterface _ _ (VPtr s)); (_, VSlice _ b)] =>
      u ← um_of_val u; s ← sig_of_val s; Some (mkMessage u (Some s) (bytes_of b))
  | VStruct [(_, u); (_, VNilInterface _); (_, VSlice _ b)] =>
      u ← um_of_val u; Some (mkMessage u None (bytes_of b))
  | _ => None
  end.

(** [init] of codec_manager.go *)
Definition warpCodec : linearCodec := (RegisterType 0 NewCodec).2.
Definition warp_types (rt : nat) : typ :=
  TPtr (TStruct [(tagged "Signers", TSlice (TUint W8));
                 (tagged "Signature", TArray SignatureLen (TUint W8))]).
Definition warp_implements (rt i : nat) : bool := Nat.eqb rt 0 && Nat.eqb i 0.

(** The zero values [Parse...] decode into. *)
Definition zero_um : UnsignedMessage := mkUnsigned 0 (replicate 32 0%Z) [] [] (replicate 32 0%Z).

Section messages.
Context (grow : nat → nat) (sha256 : list Z → ID).

Definition warp_Marshal (v : val) : option (result cerr (list Z)) :=
  Marshal grow DefaultTags warpCodec MaxInt (Some (VPtr v)).
Definition warp_Unmarshal (b : list Z) (dest : val) : option (result cerr val) :=
  Unmarshal warp_types warp_implements DefaultTags warpCodec MaxInt b (Some (VPtr dest)).

Definition Unsigned_Initialize (m : UnsignedMessage) : option (result cerr UnsignedMessage) :=
  match warp_Marshal (um_val m) with
  | None => None
  | Some (Prelude.Err e) => Some (Prelude.Err e)
  | Some (Ok b) =>
      Some (Ok (mkUnsigned (NetworkID m) (SourceChainID m) (um_Payload m) b (sha256 b)))
  end.

Definition NewUnsignedMessage (networkID : Z) (sourceChainID : ID) (payload : list Z)
    : option (result cerr UnsignedMessage) :=
  Unsigned_Initialize (mkUnsigned networkID sourceChainID payload [] (replicate 32 0%Z)).

Definition ParseUnsignedMessage (b : list Z) : option (result cerr UnsignedMessage) :=
  match warp_Unmarshal b (um_val (mkUnsigned 0 (replicate 32 0%Z) [] b (sha256 b))) with
  | None => None
  | Some (Prelude.Err e) => Some (Prelude.Err e)
  | Some (Ok v) => Ok <$> um_of_val v
  end.

Definition Message_Initialize (m : Message) : option (result cerr Message) :=
  match warp_Marshal (msg_val m) with
  | None => None
  | Some (Prelude.Err e) => Some (Prelude.Err e)
  | Some (Ok b) => Some (Ok (mkMessage (m_Unsigned m) (m_Signature m) b))
  end.

Definition NewMessage (unsignedMsg : UnsignedMessage) (signature : option BitSetSignature)
    : option (result cerr Message) :=
  Message_Initialize (mkMessage unsignedMsg signature []).

Definition ParseMessage (b : list Z) : option (result cerr Message) :=
  match warp_Unmarshal b (msg_val (mkMessage zero_um None b)) with
  | None => None
  | Some (Prelude.Err e) => Some (Prelude.Err e)
  | Some (Ok v) =>
      match msg_of_val v with
      | None => None
      | Some m =>
          match Unsigned_Initialize (m_Unsigned m) with
          | None => None
          | Some (Prelude.Err e) => Some (Prelude.Err e)
          | Some (Ok u) => Some (Ok (mkMessage u (m_Signature m) (m_bytes m)))
          end
      end
  end.
End messages.

(** ** Payloads (package payload) *)

(** [*Hash] and [*AddressedCall], with their [bytes]. *)
Inductive Payload :=
| PHash (hash : ID) (bytes : list Z)
| PAddressedCall (sourceAddress payload bytes : list Z).

Inductive perr := PCodec (e : cerr) | errWrongType.

Definition MaxMessageSize : Z := 24 * 1024.

Definition hash_val (hash : ID) (bytes : list Z) : val :=
  VStruct [(tagged "Hash", bytes_val hash); (untagged "bytes", slice_val bytes)].
Definition call_val (src payload bytes : list Z) : val :=
  VStruct [(tagged "SourceAddress", slice_val src); (tagged "Payload", slice_val payload);
           (untagged "bytes", slice_val bytes)].

(** A variable of type [Payload] that holds the payload. *)
Definition payload_val (p : Payload) : val :=
  match p with
  | PHash h b => VInterface 0 0 (VPtr (hash_val h b))
  | PAddressedCall s p b => VInterface 0 1 (VPtr (call_val s p b))
  end.

Definition payload_of_val (v : val) : option Payload :=
  match v with
  | VInterface _ _ (VPtr (VStruct [(_, VArray _ h); (_, VSlice _ b)])) =>
      Some (PHash (bytes_of h) (bytes_of b))
  | VInterface _ _ (VPtr (VStruct [(_, VSlice _ s); (_, VSlice _ p); (_, VSlice _ b)])) =>
      Some (PAddressedCall (bytes_of s) (bytes_of p) (bytes_of b))
  | _ => None
  end.

Definition payloadCodec : linearCodec := (RegisterType 1 (RegisterType 0 NewCodec).2).2.
Definition payload_types (rt : nat) : typ :=
  TPtr (typeof (match rt with O => hash_val (replicate 32 0%Z) [] | _ => call_val [] [] [] end)).
Definition payload_implements (rt i : nat) : bool := Nat.leb rt 1 && Nat.eqb i 0.

Definition payload_initialize (bytes : list Z) (p : Payload) : Payload :=
  match p with
  | PHash h _ => PHash h bytes
  | PAddressedCall s p _ => PAddressedCall s p bytes
  end.

Definition Payload_Bytes (p : Payload) : list Z :=
  match p with PHash _ b => b | PAddressedCall _ _ b => b end.

Definition payload_Parse (bytes : list Z) : option (result perr Payload) :=
  match Unmarshal payload_types payload_implements DefaultTags payloadCodec MaxMessageSize bytes
          (Some (VPtr (VNilInterface 0))) with
  | None => None
  | Some (Prelude.Err e) => Some (Prelude.Err (PCodec e))
  | Some (Ok v) => (λ p, Ok (payload_initialize bytes p)) <$> payload_of_val v
  end.

Section payload.
Context (grow : nat → nat).

Definition initialize (p : Payload) : option (result perr Payload) :=
  match Marshal grow DefaultTags payloadCodec MaxMessageSize (Some (VPtr (payload_val p))) with
  | None => None
  | Some (Prelude.Err e) => Some (Prelude.Err (PCodec e))
  | Some (Ok b) => Some (Ok (payload_initialize b p))
  end.

Definition NewHash (hash : ID) : option (result perr Payload) := initialize (PHash hash []).
Definition NewAddressedCall (sourceAddress payload : list Z) : option (result perr Payload) :=
  initialize (PAddressedCall sourceAddress payload []).
End payload.

Definition ParseHash (b : list Z) : option (result perr Payload) :=
  match payload_Parse b with
  | Some (Ok (PHash h b)) => Some (Ok (PHash h b))
  | Some (Ok _) => Some (Prelude.Err errWrongType)
  | r => r
  end.

Definition ParseAddressedCall (b : list Z) : option (result perr Payload) :=
  match payload_Parse b with
  | Some (Ok (PAddressedCall s p b)) => Some (Ok (PAddressedCall s p b))
  | Some (Ok _) => Some (Prelude.Err errWrongType)
  | r => r
  end.

(** ** Package messages *)

Record ValidatorUptime := mkValidatorUptime {
  vu_ValidationID : ID;
  TotalUptime : Z;
  vu_bytes : list Z;
}.

Definition vu_val (u : ValidatorUptime) : val :=
  VStruct [(tagged "ValidationID", bytes_val (vu_ValidationID u));
           (tagged "TotalUptime", VUint W64 (TotalUptime u));
           (untagged "bytes", slice_val (vu_bytes u))].

Definition vu_of_val (v : val) : option ValidatorUptime :=
  match v with
  | VInterface _ _ (VPtr (VStruct [(_, VArray _ i); (_, VUint _ t); (_, VSlice _ b)])) =>
      Some (mkValidatorUptime (bytes_of i) t (bytes_of b))
  | _ => None
  end.

(** [init] registers no type. *)
Definition messagesCodec : linearCodec := NewCodec.
Definition messages_types (rt : nat) : typ :=
  TPtr (typeof (vu_val (mkValidatorUptime (replicate 32 0%Z) 0 []))).
Definition messages_implements (rt i : nat) : bool := Nat.eqb rt 0 && Nat.eqb i 0.

Definition vu_initialize (bytes : list Z) (u : ValidatorUptime) : ValidatorUptime :=
  mkValidatorUptime (vu_ValidationID u) (TotalUptime u) bytes.

Definition messages_Parse (bytes : list Z) : option (result cerr ValidatorUptime) :=
  match Unmarshal messages_types messages_implements DefaultTags messagesCodec MaxMessageSize bytes
          (Some (VPtr (VNilInterface 0))) with
  | None => None
  | Some (Prelude.Err e) => Some (Prelude.Err e)
  | Some (Ok v) => (λ u, Ok (vu_initialize bytes u)) <$> vu_of_val v
  end.

Definition NewValidatorUptime (grow : nat → nat) (validationID : ID) (totalUptime : Z)
    : option (result cerr ValidatorUptime) :=
  let u := mkValidatorUptime validationID totalUptime [] in
  match Marshal grow DefaultTags messagesCodec MaxMessageSize
          (Some (VPtr (VInterface 0 0 (VPtr (vu_val u))))) with
  | None => None
  | Some (Prelude.Err e) => Some (Prelude.Err e)
  | Some (Ok b) => Some (Ok (vu_initialize b u))
  end.
