(* ===== verification/WarpMessageProps.v ===== *)
(** * Warp messages: encoding

    What the messages of WarpMessage.v look like on the wire, and that parsing
    inverts building. *)

From S2P Require Import Prelude Packer Bimap Codec CodecValues WarpMessage.

(** ** Well-formed fields *)

Definition id_ok (i : list Z) : Prop := bytes_ok i ∧ length i = 32.
Definition slice_ok (bs : list Z) : Prop := bytes_ok bs ∧ (Z.of_nat (length bs) ≤ MaxInt32)%Z.

(** The fields Go's types allow, with lengths the codec can write. *)
Record unsigned_ok (m : UnsignedMessage) : Prop := {
  uo_net : inU 32 (NetworkID m);
  uo_chain : id_ok (SourceChainID m);
  uo_payload : slice_ok (um_Payload m);
}.

Record sig_ok (s : BitSetSignature) : Prop := {
  so_signers : slice_ok (Signers s);
  so_sig : bytes_ok (Signature_ s);
  so_len : length (Signature_ s) = SignatureLen;
}.

Lemma zeros_ok n : bytes_ok (replicate n 0%Z).
Proof. by apply Forall_replicate. Qed.

Lemma zero_unsigned_ok b i : unsigned_ok (mkUnsigned 0 (replicate 32 0%Z) [] b i).
Proof. split; [done|split; [apply zeros_ok|done]|split; [constructor|done]]. Qed.

Lemma warpCodec_ok : registry_ok warpCodec.
Proof. apply registry_ok_Register, registry_ok_New. Qed.

(** ** Encodings *)

Definition um_enc (m : UnsignedMessage) : list Z :=
  be_encode 4 (NetworkID m) ++ SourceChainID m ++
  be_encode 4 (Z.of_nat (length (um_Payload m))) ++ um_Payload m.

Definition sig_enc (s : BitSetSignature) : list Z :=
  be_encode 4 (Z.of_nat (length (Signers s))) ++ Signers s ++ Signature_ s.

Lemma enc_um_val m :
  bytes_ok (SourceChainID m) → bytes_ok (um_Payload m) →
  enc DefaultTags warpCodec (um_val m) = um_enc m.
Proof.
  intros Hc Hp. unfold um_val. cbn [enc map].
  rewrite !captureField_tagged, !captureField_untagged, enc_bytes_val, enc_slice_val by done.
  cbn [concat]. by rewrite !app_nil_r.
Qed.

Lemma enc_sig_val s :
  bytes_ok (Signers s) → bytes_ok (Signature_ s) →
  enc DefaultTags warpCodec (sig_val s) = sig_enc s.
Proof.
  intros Hc Hp. unfold sig_val. cbn [enc map].
  rewrite !captureField_tagged, enc_bytes_val, enc_slice_val by done.
  cbn [concat]. unfold sig_enc. by rewrite !app_nil_r, app_assoc.
Qed.

Lemma enc_msg_val m s :
  unsigned_ok (m_Unsigned m) → sig_ok s → m_Signature m = Some s →
  enc DefaultTags warpCodec (msg_val m) = um_enc (m_Unsigned m) ++ be_encode 4 0 ++ sig_enc s.
Proof.
  intros [_ [Hc _] [Hp _]] [[Hs _] Hb _] Hm. unfold msg_val. rewrite Hm. cbn [enc map].
  rewrite !captureField_tagged, captureField_untagged, enc_um_val, enc_sig_val by done.
  cbn [concat]. rewrite !app_nil_r. done.
Qed.

Lemma um_enc_length m :
  id_ok (SourceChainID m) → length (um_enc m) = 40 + length (um_Payload m).
Proof. intros [_ Hl]. unfold um_enc. rewrite !length_app, !be_encode_length, Hl. lia. Qed.

Lemma um_enc_ok m : unsigned_ok m → bytes_ok (um_enc m).
Proof.
  intros [_ [Hc _] [Hp _]]. unfold um_enc, bytes_ok.
  rewrite !Forall_app. split_and!; try done; apply be_encode_ok.
Qed.

(** ** The values *)

Section types.
Context (type_of : nat → typ) (implements : nat → nat → bool).

Lemma um_val_ok m :
  unsigned_ok m → bytes_ok (um_bytes m) → bytes_ok (um_id m) → val_ok type_of implements (um_val m).
Proof.
  intros [Hn [Hc _] [Hp _]] Hb Hi. constructor. repeat (apply Forall_cons; split); simpl;
    try (by apply bytes_val_ok); try (by apply slice_val_ok); by constructor.
Qed.

Lemma sig_val_ok s : sig_ok s → val_ok type_of implements (sig_val s).
Proof.
  intros [[Hs _] Hb _]. constructor. repeat (apply Forall_cons; split); simpl;
    try (by apply bytes_val_ok); try (by apply slice_val_ok); by constructor.
Qed.
End types.

Lemma typeof_um_val m n k :
  length (SourceChainID m) = n → length (um_id m) = k →
  typeof (um_val m) = TStruct [(tagged "NetworkID", TUint W32);
    (tagged "SourceChainID", TArray n (TUint W8)); (tagged "Payload", TSlice (TUint W8));
    (untagged "bytes", TSlice (TUint W8)); (untagged "id", TArray k (TUint W8))].
Proof. intros <- <-. unfold um_val. cbn [typeof map]. by rewrite !typeof_bytes_val. Qed.

Lemma typeof_sig_val s : length (Signature_ s) = SignatureLen → TPtr (typeof (sig_val s)) = warp_types 0.
Proof. intros Hl. unfold sig_val. cbn [typeof map]. by rewrite typeof_bytes_val, Hl. Qed.

Lemma um_encodable st m :
  slice_ok (um_Payload m) → encodable DefaultTags warpCodec st (um_val m) = true.
Proof.
  intros [_ Hp]. unfold um_val. cbn [encodable forallb map fst].
  rewrite !encodable_bytes_val, !encodable_slice_val, !captureField_tagged, !captureField_untagged.
  rewrite (bool_decide_eq_true_2 _ Hp). done.
Qed.

Lemma sig_encodable st s : slice_ok (Signers s) → encodable DefaultTags warpCodec st (sig_val s) = true.
Proof.
  intros [_ Hp]. unfold sig_val. cbn [encodable forallb map fst].
  rewrite !encodable_bytes_val, !encodable_slice_val, !captureField_tagged.
  rewrite (bool_decide_eq_true_2 _ Hp). done.
Qed.

Lemma um_of_val_um m : um_of_val (um_val m) = Some m.
Proof. destruct m. simpl. by rewrite !bytes_of_fmap. Qed.

Lemma sig_of_val_sig s : sig_of_val (sig_val s) = Some s.
Proof. destruct s. simpl. by rewrite !bytes_of_fmap. Qed.

Lemma msg_of_val_msg m : msg_of_val (msg_val m) = Some m.
Proof.
  destruct m as [u s b]. unfold msg_val, msg_of_val, slice_val.
  cbn [m_Unsigned m_Signature m_bytes]. destruct s as [s|].
  - rewrite um_of_val_um, sig_of_val_sig. simpl. by rewrite bytes_of_fmap.
  - rewrite um_of_val_um. simpl. by rewrite bytes_of_fmap.
Qed.

Lemma refill_um (ty : nat → typ) m d :
  length (SourceChainID d) = length (SourceChainID m) →
  refill ty DefaultTags (um_val m) (um_val d) =
  um_val (mkUnsigned (NetworkID m) (SourceChainID m) (um_Payload m) (um_bytes d) (um_id d)).
Proof.
  intros Hl. unfold um_val. cbn [refill fields_of refill_fields].
  rewrite !captureField_tagged, !captureField_untagged, refill_bytes_val, refill_slice_val by done.
  done.
Qed.

Lemma refill_sig (ty : nat → typ) s d :
  length (Signature_ d) = length (Signature_ s) →
  refill ty DefaultTags (sig_val s) (sig_val d) = sig_val s.
Proof.
  intros Hl. unfold sig_val. cbn [refill fields_of refill_fields].
  rewrite !captureField_tagged, refill_bytes_val, refill_slice_val by done. done.
Qed.

Lemma msg_val_ok m s :
  m_Signature m = Some s → unsigned_ok (m_Unsigned m) → sig_ok s →
  bytes_ok (um_bytes (m_Unsigned m)) → bytes_ok (um_id (m_Unsigned m)) → bytes_ok (m_bytes m) →
  val_ok warp_types warp_implements (msg_val m).
Proof.
  intros Hm Hu Hs Hb Hi Hbs. unfold msg_val. rewrite Hm. constructor.
  repeat (apply Forall_cons; split); simpl; [by apply um_val_ok| |by apply slice_val_ok|by constructor].
  constructor; [|done|by apply ok_ptr, sig_val_ok]. exact (typeof_sig_val s (so_len s Hs)).
Qed.

Lemma msg_encodable m s :
  m_Signature m = Some s → slice_ok (um_Payload (m_Unsigned m)) → slice_ok (Signers s) →
  encodable DefaultTags warpCodec [] (msg_val m) = true.
Proof.
  intros Hm Hu Hs. unfold msg_val. rewrite Hm. cbn [encodable forallb map fst].
  rewrite um_encodable, sig_encodable, !captureField_tagged, captureField_untagged by done.
  vm_compute. reflexivity.
Qed.

Definition zero_sig : BitSetSignature := mkBitSetSignature [] (replicate SignatureLen 0%Z).

Lemma zero_sig_val : zero (warp_types 0) = VNilPtr (typeof (sig_val zero_sig)).
Proof. reflexivity. Qed.

Lemma zero_typeof_sig s : length (Signature_ s) = SignatureLen → zero (typeof (sig_val s)) = sig_val zero_sig.
Proof.
  intros Hl. assert (typeof (sig_val s) = typeof (sig_val zero_sig)) as ->; [|reflexivity].
  unfold sig_val. cbn [typeof map]. by rewrite !typeof_bytes_val, Hl.
Qed.

Lemma refill_msg m s d :
  m_Signature m = Some s → length (Signature_ s) = SignatureLen →
  length (SourceChainID (m_Unsigned d)) = length (SourceChainID (m_Unsigned m)) →
  refill warp_types DefaultTags (msg_val m) (msg_val d) =
  msg_val (mkMessage (mkUnsigned (NetworkID (m_Unsigned m)) (SourceChainID (m_Unsigned m))
                        (um_Payload (m_Unsigned m)) (um_bytes (m_Unsigned d)) (um_id (m_Unsigned d)))
             (Some s) (m_bytes d)).
Proof.
  intros Hm Hs Hl. unfold msg_val. rewrite Hm. cbn [refill fields_of refill_fields].
  rewrite !captureField_tagged, captureField_untagged, refill_um by done.
  rewrite zero_typeof_sig, refill_sig by done. done.
Qed.

(** *** Values of the types *)

Lemma um_val_inv (ty : nat → typ) (im : nat → nat → bool) v :
  val_ok ty im v →
  typeof v = typeof (um_val zero_um) →
  ∃ m, v = um_val m ∧ inU 32 (NetworkID m) ∧ id_ok (SourceChainID m) ∧
       bytes_ok (um_Payload m) ∧ bytes_ok (um_bytes m) ∧ id_ok (um_id m).
Proof.
  intros Hv Ht. rewrite (typeof_um_val zero_um 32 32) in Ht by done.
  destruct v as [| | | | | | | | | |l|]; try done. cbn [typeof] in Ht. injection Ht as Ht.
  destruct l as [|[? v1] [|[? v2] [|[? v3] [|[? v4] [|[? v5] [|]]]]]]; try done.
  injection Ht as -> H1 -> H2 -> H3 -> H4 -> H5. inversion Hv as [| | | | | | | | | |? Hl|]; subst.
  rewrite !Forall_cons in Hl. cbn [snd] in Hl. destruct Hl as (O1 & O2 & O3 & O4 & O5 & _).
  destruct (bytes_val_inv _ _ _ _ O2 H2) as (c & -> & ? & ?).
  destruct (slice_val_inv _ _ _ O3 H3) as (p & -> & ?).
  destruct (slice_val_inv _ _ _ O4 H4) as (b & -> & ?).
  destruct (bytes_val_inv _ _ _ _ O5 H5) as (i & -> & ? & ?).
  destruct v1; try done. injection H1 as ->. exists (mkUnsigned n c p b i).
  split; [done|]. split_and!; try done. simpl. by inversion O1.
Qed.

Lemma sig_val_inv (ty : nat → typ) (im : nat → nat → bool) v :
  val_ok ty im v → typeof v = typeof (sig_val zero_sig) →
  ∃ s, v = sig_val s ∧ bytes_ok (Signers s) ∧ bytes_ok (Signature_ s) ∧
       length (Signature_ s) = SignatureLen.
Proof.
  intros Hv Ht. change (typeof (sig_val zero_sig)) with
    (TStruct [(tagged "Signers", TSlice (TUint W8));
              (tagged "Signature", TArray SignatureLen (TUint W8))]) in Ht.
  destruct v as [| | | | | | | | | |l|]; try done. cbn [typeof] in Ht. injection Ht as Ht.
  destruct l as [|[? v1] [|[? v2] [|]]]; try done.
  injection Ht as -> H1 -> H2. inversion Hv as [| | | | | | | | | |? Hl|]; subst.
  rewrite !Forall_cons in Hl. cbn [snd] in Hl. destruct Hl as (O1 & O2 & _).
  destruct (slice_val_inv _ _ _ O1 H1) as (b & -> & ?).
  destruct (bytes_val_inv _ _ _ _ O2 H2) as (i & -> & ? & ?).
  by exists (mkBitSetSignature b i).
Qed.

Lemma um_encodable_inv st m :
  encodable DefaultTags warpCodec st (um_val m) = true →
  (Z.of_nat (length (um_Payload m)) ≤ MaxInt32)%Z.
Proof.
  unfold um_val. cbn [encodable forallb map fst].
  rewrite !encodable_bytes_val, !encodable_slice_val, !captureField_tagged, !captureField_untagged.
  cbn [implb]. rewrite !andb_true_iff, bool_decide_eq_true. tauto.
Qed.

Lemma sig_encodable_inv st s :
  encodable DefaultTags warpCodec st (sig_val s) = true →
  (Z.of_nat (length (Signers s)) ≤ MaxInt32)%Z.
Proof.
  unfold sig_val. cbn [encodable forallb map fst].
  rewrite !encodable_bytes_val, !encodable_slice_val, !captureField_tagged.
  cbn [implb]. rewrite !andb_true_iff, bool_decide_eq_true. tauto.
Qed.

(** What the codec accepts as a [Message] has a signature and fields in range. *)
Lemma msg_val_inv v b0 :
  val_ok warp_types warp_implements v → encodable DefaultTags warpCodec [] v = true →
  typeof v = typeof (msg_val (mkMessage zero_um None b0)) →
  ∃ m s, v = msg_val m ∧ m_Signature m = Some s ∧ unsigned_ok (m_Unsigned m) ∧ sig_ok s.
Proof.
  intros Hv He Ht. destruct v as [| | | | | | | | | |l|]; try done.
  unfold msg_val in Ht. cbn [typeof map] in Ht. injection Ht as Ht.
  destruct l as [|[? v1] [|[? v2] [|[? v3] [|]]]]; try done.
  injection Ht as -> H1 -> H2 -> H3. inversion Hv as [| | | | | | | | | |? Hl|]; subst.
  rewrite !Forall_cons in Hl. cbn [snd] in Hl. destruct Hl as (O1 & O2 & O3 & _).
  destruct (um_val_inv _ _ _ O1 H1) as (u & -> & Hn & Hc & Hp & _).
  destruct (slice_val_inv _ _ _ O3 H3) as (b & -> & _).
  cbn [encodable forallb map fst] in He.
  rewrite !captureField_tagged, captureField_untagged in He. cbn [implb] in He.
  rewrite !andb_true_iff in He. destruct He as (_ & Hu%um_encodable_inv & He2 & _).
  destruct v2 as [| | | | | | |j rt w| | | |]; try done. inversion O2 as [| | | | | | |? ? ? Hw Him Ow| | | |]; subst.
  unfold warp_implements in Him. apply andb_true_iff in Him as [->%Nat.eqb_eq ->%Nat.eqb_eq].
  destruct w as [| | | |t|w| | | | | |]; try done.
  inversion Ow; subst. assert (typeof w = typeof (sig_val zero_sig)) as Hw' by (by injection Hw).
  destruct (sig_val_inv _ _ _ ltac:(eassumption) Hw') as (s & -> & Hs1 & Hs2 & Hs3).
  cbn [encodable] in He2. apply andb_true_iff in He2 as [_ He2%sig_encodable_inv].
  by exists (mkMessage u (Some s) b), s.
Qed.

(** ** Building and parsing *)

Section messages.
Context (grow : nat → nat) (sha256 : list Z → list Z).
Context (Hsha : ∀ b, id_ok (sha256 b)).

(** The message with its bytes and its ID. *)
Definition initialized (m : UnsignedMessage) : UnsignedMessage :=
  let b := 0%Z :: 0%Z :: um_enc m in
  mkUnsigned (NetworkID m) (SourceChainID m) (um_Payload m) b (sha256 b).

Lemma initialized_ok m : unsigned_ok m → unsigned_ok (initialized m).
Proof. by intros []. Qed.

Lemma initialized_bytes_ok m :
  unsigned_ok m → bytes_ok (um_bytes (initialized m)) ∧ id_ok (um_id (initialized m)).
Proof. intros Hm. split; [|apply Hsha]. repeat (constructor; [done|]). by apply um_enc_ok. Qed.

Lemma Unsigned_Initialize_ok m :
  unsigned_ok m → bytes_ok (um_bytes m) → bytes_ok (um_id m) →
  Unsigned_Initialize grow sha256 m = Some (Ok (initialized m)).
Proof.
  intros Hm Hb Hi. pose proof Hm as [_ Hc [Hp Hl]]. unfold Unsigned_Initialize, warp_Marshal.
  rewrite (Marshal_ok warp_types warp_implements).
  - by rewrite enc_um_val by (done || apply Hc).
  - apply warpCodec_ok.
  - by apply um_val_ok.
  - by apply um_encodable.
  - rewrite enc_um_val, um_enc_length by (done || apply Hc). unfold MaxInt, MaxInt32 in *. lia.
Qed.

Lemma NewUnsignedMessage_ok net chain payload :
  inU 32 net → id_ok chain → slice_ok payload →
  NewUnsignedMessage grow sha256 net chain payload
    = Some (Ok (initialized (mkUnsigned net chain payload [] []))).
Proof.
  intros Hn Hc Hp. unfold NewUnsignedMessage. rewrite Unsigned_Initialize_ok; [done|done| |].
  - by constructor.
  - apply zeros_ok.
Qed.

Lemma um_refill_parse a b m :
  unsigned_ok m → bytes_ok (um_bytes m) → id_ok (um_id m) → byte_ok a → byte_ok b →
  ParseUnsignedMessage sha256 (a :: b :: um_enc m)
    = Some (Ok (mkUnsigned (NetworkID m) (SourceChainID m) (um_Payload m) (a :: b :: um_enc m)
                  (sha256 (a :: b :: um_enc m)))).
Proof.
  intros Hm Hb Hi Ha Hb'. pose proof Hm as [Hn [Hc Hcl] [Hp Hl]].
  set (bs := a :: b :: um_enc m). assert (bytes_ok bs) as Hbs
    by (repeat (constructor; [done|]); by apply um_enc_ok).
  unfold ParseUnsignedMessage, warp_Unmarshal. unfold bs at 1.
  rewrite <-(enc_um_val m Hc Hp), Unmarshal_enc.
  - rewrite refill_um by (by rewrite Hcl). by rewrite um_of_val_um.
  - apply warpCodec_ok.
  - apply um_val_ok; [done|done|apply Hi].
  - apply um_val_ok; [apply zero_unsigned_ok|done|apply Hsha].
  - rewrite (typeof_um_val m 32 32), (typeof_um_val _ 32 32); (done || apply Hi || apply Hsha).
  - by apply um_encodable.
  - rewrite enc_um_val, um_enc_length by done. unfold MaxInt, MaxInt32 in *. lia.
Qed.

Lemma msg_enc_length m s :
  id_ok (SourceChainID (m_Unsigned m)) → sig_ok s →
  (2 + Z.of_nat (length (um_enc (m_Unsigned m) ++ be_encode 4 0 ++ sig_enc s)) ≤
   200 + Z.of_nat (length (um_Payload (m_Unsigned m))) + Z.of_nat (length (Signers s)))%Z.
Proof.
  intros Hc [_ _ Hl]. unfold sig_enc.
  rewrite !length_app, um_enc_length, !be_encode_length, Hl by done. unfold SignatureLen. lia.
Qed.

Lemma NewMessage_ok m s :
  unsigned_ok m → bytes_ok (um_bytes m) → bytes_ok (um_id m) → sig_ok s →
  NewMessage grow m (Some s)
    = Some (Ok (mkMessage m (Some s) (0%Z :: 0%Z :: um_enc m ++ be_encode 4 0 ++ sig_enc s))).
Proof.
  intros Hm Hb Hi Hs. pose proof Hm as [_ Hc [Hp Hl]]. pose proof Hs as [[_ Hl'] _ _].
  unfold NewMessage, Message_Initialize, warp_Marshal.
  rewrite (Marshal_ok warp_types warp_implements).
  - by rewrite (enc_msg_val (mkMessage m (Some s) []) s Hm Hs eq_refl).
  - apply warpCodec_ok.
  - apply (msg_val_ok (mkMessage m (Some s) []) s); try done. constructor.
  - exact (msg_encodable (mkMessage m (Some s) []) s eq_refl (uo_payload _ Hm) (so_signers _ Hs)).
  - rewrite (enc_msg_val (mkMessage m (Some s) []) s Hm Hs eq_refl).
    eapply Z.le_trans; [by apply msg_enc_length|]. simpl m_Unsigned. unfold MaxInt, MaxInt32 in *. lia.
Qed.

Lemma ParseMessage_ok a b m s :
  unsigned_ok m → sig_ok s → byte_ok a → byte_ok b →
  let bs := a :: b :: um_enc m ++ be_encode 4 0 ++ sig_enc s in
  ParseMessage grow sha256 bs = Some (Ok (mkMessage (initialized m) (Some s) bs)).
Proof.
  intros Hm Hs Ha Hb bs. pose proof Hm as [Hn [Hc Hcl] [Hp Hl]]. pose proof Hs as [[Hs1 Hl'] Hs2 Hsl].
  assert (bytes_ok bs) as Hbs.
  { repeat (constructor; [done|]). unfold sig_enc, bytes_ok.
    rewrite !Forall_app. split_and!; try done; try apply be_encode_ok. by apply um_enc_ok. }
  set (x := mkMessage (initialized m) (Some s) bs).
  assert (enc DefaultTags warpCodec (msg_val x) = um_enc m ++ be_encode 4 0 ++ sig_enc s) as He
    by (by rewrite (enc_msg_val x s) by (done || by apply initialized_ok)).
  destruct (initialized_bytes_ok m Hm) as [Hib [Hii Hil]].
  unfold ParseMessage, warp_Unmarshal. unfold bs at 1. rewrite <-He, Unmarshal_enc.
  - rewrite (refill_msg x s) by (done || by simpl; rewrite Hcl).
    rewrite msg_of_val_msg. cbn [m_Unsigned x m_Signature m_bytes].
    rewrite Unsigned_Initialize_ok; [done|by split| |apply zeros_ok]. constructor.
  - apply warpCodec_ok.
  - by apply (msg_val_ok _ s); [|apply initialized_ok|..].
  - constructor. repeat (apply Forall_cons; split); simpl; [|constructor|by apply slice_val_ok|done].
    apply um_val_ok; [apply zero_unsigned_ok|constructor|apply zeros_ok].
  - unfold msg_val. cbn [typeof map m_Unsigned m_Signature m_bytes x].
    rewrite (typeof_um_val zero_um 32 32), (typeof_um_val _ 32 32); done.
  - exact (msg_encodable x s eq_refl (uo_payload _ Hm) (so_signers _ Hs)).
  - rewrite He. eapply Z.le_trans; [by apply (msg_enc_length x)|].
    cbn. unfold MaxInt, MaxInt32 in *. lia.
Qed.

(** [ParseMessage] returns on any bytes, and accepts only a version followed by
    the encoding of the message. *)
Lemma ParseMessage_sound bs :
  bytes_ok bs → ∃ r, ParseMessage grow sha256 bs = Some r ∧
    ∀ m, r = Ok m → ∃ u s a b,
      m = mkMessage (initialized u) (Some s) bs ∧ unsigned_ok u ∧ sig_ok s ∧
      bs = a :: b :: um_enc u ++ be_encode 4 0 ++ sig_enc s.
Proof.
  intros Hbs. set (dest := msg_val (mkMessage zero_um None bs)).
  assert (val_ok warp_types warp_implements dest) as Hd.
  { constructor. repeat (apply Forall_cons; split); simpl; [|constructor|by apply slice_val_ok|done].
    apply um_val_ok; [apply zero_unsigned_ok|constructor|apply zeros_ok]. }
  destruct (Unmarshal_total warp_types warp_implements DefaultTags warpCodec MaxInt bs dest
    warpCodec_ok Hbs Hd) as (r & Hu & _).
  destruct r as [v|e]; [|unfold ParseMessage, warp_Unmarshal; fold dest; rewrite Hu; by eexists].
  destruct (Unmarshal_sound warp_types warp_implements DefaultTags warpCodec MaxInt bs dest v
    warpCodec_ok Hbs Hd Hu) as (Hv & Ht & He & _ & a & b & Heq).
  destruct (msg_val_inv v bs Hv He Ht) as (m & s & -> & Hm & Hum & Hs).
  rewrite (enc_msg_val m s) in Heq by done.
  pose proof Hbs as Hab. rewrite Heq in Hab. apply Forall_cons in Hab as [Ha [Hb _]%Forall_cons].
  pose proof (ParseMessage_ok a b (m_Unsigned m) s Hum Hs Ha Hb) as Hp. rewrite <-Heq in Hp.
  eexists. split; [exact Hp|]. intros ? [= <-]. by exists (m_Unsigned m), s, a, b.
Qed.
Lemma ParseUnsigned_sound bs :
  bytes_ok bs → ∃ r, ParseUnsignedMessage sha256 bs = Some r ∧
    ∀ m, r = Ok m → um_bytes m = bs ∧ um_id m = sha256 bs ∧ unsigned_ok m ∧
      ∃ a b, bs = a :: b :: um_enc m.
Proof.
  intros Hbs. set (m0 := mkUnsigned 0 (replicate 32 0%Z) [] bs (sha256 bs)). set (dest := um_val m0).
  assert (val_ok warp_types warp_implements dest) as Hd.
  { apply um_val_ok; [apply zero_unsigned_ok|done|apply Hsha]. }
  destruct (Unmarshal_total warp_types warp_implements DefaultTags warpCodec MaxInt bs dest
    warpCodec_ok Hbs Hd) as (r & Hu & _).
  destruct r as [v|e].
  2: { unfold ParseUnsignedMessage, warp_Unmarshal. fold m0 dest. rewrite Hu. by eexists. }
  destruct (Unmarshal_sound warp_types warp_implements DefaultTags warpCodec MaxInt bs dest v
    warpCodec_ok Hbs Hd Hu) as (Hv & Ht & He & _ & a & b & Heq).
  destruct (um_val_inv _ _ v Hv) as (m & -> & Hn & Hc & Hp & Hb & Hi).
  { rewrite Ht. unfold dest. by rewrite !(typeof_um_val _ 32 32) by (done || apply Hsha). }
  assert (unsigned_ok m) as Hm by (split; [done..|]; split; [done|by eapply um_encodable_inv]).
  rewrite enc_um_val in Heq by (done || apply Hc).
  pose proof Hbs as Hab. rewrite Heq in Hab. apply Forall_cons in Hab as [Ha [Hb' _]%Forall_cons].
  pose proof (um_refill_parse a b m Hm Hb Hi Ha Hb') as Hparse. rewrite <-Heq in Hparse.
  eexists. split; [exact Hparse|]. intros ? [= <-]. split; [done|]. split; [done|].
  split; [by destruct Hm|]. by exists a, b.
Qed.
End messages.

(** ** Payloads *)

Definition payload_ok (p : Payload) : Prop :=
  match p with
  | PHash h b => id_ok h ∧ bytes_ok b
  | PAddressedCall s p b => slice_ok s ∧ slice_ok p ∧ bytes_ok b
  end.

Definition payload_enc (p : Payload) : list Z :=
  match p with
  | PHash h _ => be_encode 4 0 ++ h
  | PAddressedCall s p _ =>
      be_encode 4 1 ++ be_encode 4 (Z.of_nat (length s)) ++ s ++ be_encode 4 (Z.of_nat (length p)) ++ p
  end.

Lemma payloadCodec_ok : registry_ok payloadCodec.
Proof. do 2 apply registry_ok_Register. apply registry_ok_New. Qed.

Lemma payload_val_ok p : payload_ok p → val_ok payload_types payload_implements (payload_val p).
Proof.
  destruct p as [h b|s p b]; simpl.
  - intros [[Hh Hl] Hb]. constructor; [|done|apply ok_ptr].
    + unfold hash_val. cbn [typeof map]. rewrite typeof_bytes_val, Hl. done.
    + constructor. repeat (apply Forall_cons; split); simpl;
        [by apply bytes_val_ok|by apply slice_val_ok|done].
  - intros ([Hs _] & [Hp _] & Hb). constructor; [done|done|apply ok_ptr].
    constructor. repeat (apply Forall_cons; split); simpl; try done; by apply slice_val_ok.
Qed.

Lemma enc_payload_val p :
  payload_ok p → enc DefaultTags payloadCodec (payload_val p) = payload_enc p.
Proof.
  destruct p as [h b|s p b]; simpl payload_ok; unfold payload_val, hash_val, call_val; cbn [enc map].
  - intros [[Hh _] _]. rewrite captureField_tagged, captureField_untagged, enc_bytes_val by done.
    cbn [concat]. by rewrite !app_nil_r.
  - intros ([Hs _] & [Hp _] & _).
    rewrite !captureField_tagged, captureField_untagged, !enc_slice_val by done.
    cbn [concat]. by rewrite !app_nil_r, <-app_assoc.
Qed.

Lemma payload_encodable p :
  payload_ok p → encodable DefaultTags payloadCodec [] (payload_val p) = true.
Proof.
  destruct p as [h b|s p b]; simpl payload_ok; unfold payload_val, hash_val, call_val;
    cbn [encodable forallb map fst].
  - intros _. rewrite encodable_bytes_val, encodable_slice_val. reflexivity.
  - intros ([_ Hs] & [_ Hp] & _). rewrite !encodable_slice_val, !captureField_tagged, captureField_untagged.
    rewrite (bool_decide_eq_true_2 _ Hs), (bool_decide_eq_true_2 _ Hp). reflexivity.
Qed.

Lemma refill_payload p :
  payload_ok p →
  refill payload_types DefaultTags (payload_val p) (VNilInterface 0) =
  payload_val (payload_initialize [] p).
Proof.
  destruct p as [h b|s p b]; simpl payload_ok.
  - intros [[Hh Hl] _]. unfold payload_val, hash_val. cbn [payload_initialize refill].
    unfold slice_val at 2. cbn [typeof map zero fields_of refill_fields].
    rewrite captureField_tagged, captureField_untagged, typeof_bytes_val, Hl. cbn [zero].
    change (VArray (TUint W8) (replicate 32 (VUint W8 0))) with (bytes_val (replicate 32 0%Z)).
    by rewrite refill_bytes_val by (by rewrite Hl).
  - intros _. unfold payload_val, call_val. cbn [payload_initialize refill].
    cbn [typeof map zero fields_of refill_fields slice_val].
    rewrite !captureField_tagged, captureField_untagged.
    fold (slice_val s) (slice_val p). by rewrite !refill_slice_val.
Qed.

Lemma payload_of_val_payload p : payload_of_val (payload_val p) = Some p.
Proof. destruct p; simpl; by rewrite !bytes_of_fmap. Qed.

Lemma payload_initialize_twice a b p :
  payload_initialize a (payload_initialize b p) = payload_initialize a p.
Proof. by destruct p. Qed.

Lemma payload_Parse_enc a b p :
  payload_ok p → (2 + Z.of_nat (length (payload_enc p)) ≤ MaxMessageSize)%Z →
  let bs := a :: b :: payload_enc p in
  payload_Parse bs = Some (Ok (payload_initialize bs p)).
Proof.
  intros Hp Hl bs. unfold payload_Parse. unfold bs at 1. rewrite <-(enc_payload_val p Hp).
  rewrite Unmarshal_enc.
  - rewrite (refill_payload p Hp), payload_of_val_payload. cbn [fmap option_fmap option_map].
    by rewrite payload_initialize_twice.
  - apply payloadCodec_ok.
  - by apply payload_val_ok.
  - constructor.
  - by destruct p.
  - by apply payload_encodable.
  - by rewrite enc_payload_val.
Qed.

Lemma initialize_ok grow p :
  payload_ok p →
  ∃ r, initialize grow p = Some r ∧
    if bool_decide (2 + Z.of_nat (length (payload_enc p)) ≤ MaxMessageSize)%Z
    then r = Ok (payload_initialize (0%Z :: 0%Z :: payload_enc p) p) else ∃ e, r = Prelude.Err e.
Proof.
  intros Hp. unfold initialize.
  destruct (Marshal_spec grow payload_types payload_implements DefaultTags payloadCodec MaxMessageSize
    (VPtr (payload_val p)) payloadCodec_ok (ok_ptr _ _ _ (payload_val_ok p Hp))) as (r & -> & Hr).
  cbn [encodable enc] in Hr. rewrite payload_encodable, enc_payload_val in Hr by done.
  simpl andb in Hr. case_bool_decide.
  - rewrite Hr. eauto.
  - destruct Hr as [e ->]. eauto.
Qed.

(** *** Any bytes *)

Lemma payload_val_inv v :
  val_ok payload_types payload_implements v → encodable DefaultTags payloadCodec [] v = true →
  typeof v = TInterface 0 → ∃ p, v = payload_val p ∧ payload_ok p.
Proof.
  intros Hv He Ht. destruct v as [| | | | | | |j rt w| | | |]; try done. injection Ht as ->.
  inversion Hv as [| | | | | | |? ? ? Hw Him Ow| | | |]; subst.
  unfold payload_implements in Him. apply andb_true_iff in Him as [Hrt%Nat.leb_le _].
  destruct w as [| | | |t|w| | | | | |]; try done; [cbn in He; by rewrite andb_false_r in He|].
  injection Hw as Hw. inversion Ow as [| | | | |? Ow'| | | | | |]; subst.
  cbn [encodable] in He. apply andb_true_iff in He as [_ He].
  destruct w as [| | | | | | | | | |l|]; try (by destruct rt as [|[|]]; [..|lia]).
  inversion Ow' as [| | | | | | | | | |? Hl|]; subst.
  destruct rt as [|[|]]; [| |lia].
  - change (typeof (VStruct l)) with (TStruct (map (λ '(f, x), (f, typeof x)) l)) in Hw.
    destruct l as [|[? v1] [|[? v2] [|]]]; try done. injection Hw as -> H1 -> H2.
    rewrite !Forall_cons in Hl. cbn [snd] in Hl. destruct Hl as (O1 & O2 & _).
    destruct (bytes_val_inv _ _ 32 _ O1 H1) as (h & -> & Hh & Hhl).
    destruct (slice_val_inv _ _ _ O2 H2) as (b & -> & Hb).
    by exists (PHash h b).
  - change (typeof (VStruct l)) with (TStruct (map (λ '(f, x), (f, typeof x)) l)) in Hw.
    destruct l as [|[? v1] [|[? v2] [|[? v3] [|]]]]; try done. injection Hw as -> H1 -> H2 -> H3.
    rewrite !Forall_cons in Hl. cbn [snd] in Hl. destruct Hl as (O1 & O2 & O3 & _).
    destruct (slice_val_inv _ _ _ O1 H1) as (s & -> & Hs).
    destruct (slice_val_inv _ _ _ O2 H2) as (p & -> & Hp).
    destruct (slice_val_inv _ _ _ O3 H3) as (b & -> & Hb).
    cbn [encodable forallb map fst] in He.
    rewrite !encodable_slice_val, !captureField_tagged, captureField_untagged in He.
    cbn [implb] in He. rewrite !andb_true_iff, !bool_decide_eq_true in He.
    exists (PAddressedCall s p b). simpl. unfold slice_ok. naive_solver.
Qed.

Lemma payload_Parse_sound bs :
  bytes_ok bs → ∃ r, payload_Parse bs = Some r ∧
    ∀ q, r = Ok q → ∃ p a b, q = payload_initialize bs p ∧ payload_ok p ∧
      bs = a :: b :: payload_enc p ∧ (Z.of_nat (length bs) ≤ MaxMessageSize)%Z.
Proof.
  intros Hbs.
  destruct (Unmarshal_total payload_types payload_implements DefaultTags payloadCodec MaxMessageSize
    bs (VNilInterface 0) payloadCodec_ok Hbs (ok_niliface _ _ _)) as (r & Hu & _).
  unfold payload_Parse. rewrite Hu. destruct r as [v|e]; [|by eexists].
  destruct (Unmarshal_sound payload_types payload_implements DefaultTags payloadCodec MaxMessageSize
    bs (VNilInterface 0) v payloadCodec_ok Hbs (ok_niliface _ _ _) Hu)
    as (Hv & Ht & He & Hl & a & b & Heq).
  destruct (payload_val_inv v Hv He Ht) as (p & -> & Hp).
  rewrite payload_of_val_payload. eexists. split; [done|]. intros q [= <-].
  rewrite enc_payload_val in Heq by done. by exists p, a, b.
Qed.

(** The codec of package messages has no registered type, so nothing parses. *)
Lemma messages_Parse_fails bs : bytes_ok bs → ∃ e, messages_Parse bs = Some (Prelude.Err e).
Proof.
  intros Hbs.
  destruct (Unmarshal_total messages_types messages_implements DefaultTags messagesCodec MaxMessageSize
    bs (VNilInterface 0) registry_ok_New Hbs (ok_niliface _ _ _)) as (r & Hu & _).
  unfold messages_Parse. rewrite Hu. destruct r as [v|e]; [|by eexists].
  destruct (Unmarshal_sound messages_types messages_implements DefaultTags messagesCodec MaxMessageSize
    bs (VNilInterface 0) v registry_ok_New Hbs (ok_niliface _ _ _) Hu) as (_ & Ht & He & _).
  destruct v; try done.
Qed.

Lemma ParseHash_call bs s p b :
  payload_Parse bs = Some (Ok (PAddressedCall s p b)) → ParseHash bs = Some (Prelude.Err errWrongType).
Proof. unfold ParseHash. by intros ->. Qed.

(** ** Properties *)

(** C35: a warp message is read back as it was built.  For fields of the right sizes,
    [NewUnsignedMessage] and [NewMessage] succeed, the unsigned message's bytes are
    the version, the network, the chain and the payload with its length, its ID is
    their hash, and parsing the bytes of either gives the very message.  The
    version is not checked: the same bytes with another version parse to a
    message with the same fields, but with these bytes and another ID. *)
Theorem warp_message_roundtrip (grow : nat → nat) (sha256 : list Z → list Z)
    (net : Z) (chain payload : list Z) (s : BitSetSignature)
    (Hsha : ∀ b, id_ok (sha256 b)) (Hnet : inU 32 net) (Hchain : id_ok chain)
    (Hpayload : slice_ok payload) (Hs : sig_ok s) :
  ∃ u m, NewUnsignedMessage grow sha256 net chain payload = Some (Ok u) ∧
    um_bytes u = [0; 0]%Z ++ be_encode 4 net ++ chain ++
                 be_encode 4 (Z.of_nat (length payload)) ++ payload ∧
    um_id u = sha256 (um_bytes u) ∧
    ParseUnsignedMessage sha256 (um_bytes u) = Some (Ok u) ∧
    NewMessage grow u (Some s) = Some (Ok m) ∧
    ParseMessage grow sha256 (m_bytes m) = Some (Ok m) ∧
    ∀ a b, byte_ok a → byte_ok b →
      let bs := a :: b :: drop 2 (um_bytes u) in
      ParseUnsignedMessage sha256 bs = Some (Ok (mkUnsigned net chain payload bs (sha256 bs))).
Proof.
  set (m0 := mkUnsigned net chain payload [] []). assert (unsigned_ok m0) as Hm0 by done.
  destruct (initialized_bytes_ok sha256 Hsha m0 Hm0) as [Hb Hi].
  exists (initialized sha256 m0). eexists. split; [by apply NewUnsignedMessage_ok|].
  split; [done|]. split; [done|]. split; [|split; [|split]].
  - apply (um_refill_parse sha256 Hsha 0 0 (initialized sha256 m0)); done.
  - apply NewMessage_ok; [done|done|apply Hi|done].
  - apply (ParseMessage_ok grow sha256 Hsha 0 0 (initialized sha256 m0) s); done.
  - intros a b Ha Hb'. apply (um_refill_parse sha256 Hsha a b (initialized sha256 m0)); done.
Qed.

(** C36: parsing a signed message is canonical.  [ParseMessage] returns on any bytes;
    if it accepts them, the message has a signature, its [Bytes] are these bytes, its
    unsigned part is exactly what [NewUnsignedMessage] makes of its fields (so the
    bytes whose signature is checked depend on the fields only), and building the
    message again gives the same bytes up to the version. *)
Theorem warp_parse_canonical (grow : nat → nat) (sha256 : list Z → list Z) (bs : list Z)
    (Hsha : ∀ b, id_ok (sha256 b)) (Hbs : bytes_ok bs) :
  ∃ r, ParseMessage grow sha256 bs = Some r ∧
    ∀ m, r = Ok m →
      NewUnsignedMessage grow sha256 (NetworkID (m_Unsigned m)) (SourceChainID (m_Unsigned m))
        (um_Payload (m_Unsigned m)) = Some (Ok (m_Unsigned m)) ∧
      ∃ s, m_Signature m = Some s ∧ m_bytes m = bs ∧
        NewMessage grow (m_Unsigned m) (Some s)
          = Some (Ok (mkMessage (m_Unsigned m) (Some s) (0%Z :: 0%Z :: drop 2 bs))).
Proof.
  destruct (ParseMessage_sound grow sha256 Hsha bs Hbs) as (r & Hr & Hok).
  exists r. split; [done|]. intros m Hm. destruct (Hok m Hm) as (u & s & a & b & -> & Hu & Hs & Heq).
  destruct (initialized_bytes_ok sha256 Hsha u Hu) as [Hb Hi]. split.
  - by apply NewUnsignedMessage_ok; destruct Hu.
  - exists s. split; [done|]. split; [done|]. cbn [m_Unsigned].
    rewrite NewMessage_ok; [by rewrite Heq|by apply initialized_ok|done|apply Hi|done].
Qed.

(** Payloads are read back as they were built.  [NewHash] always succeeds,
    [NewAddressedCall] exactly when the encoding fits 24 KiB; [Parse] of the bytes
    gives the payload back, and the parser for the other kind returns
    [errWrongType].  [Parse] of any bytes returns, and keeps them in the payload. *)
Theorem payload_roundtrip (grow : nat → nat) (h src call bs : list Z)
    (Hh : id_ok h) (Hsrc : slice_ok src) (Hcall : slice_ok call) (Hbs : bytes_ok bs) :
  (∃ b, NewHash grow h = Some (Ok (PHash h b)) ∧ payload_Parse b = Some (Ok (PHash h b)) ∧
        ParseAddressedCall b = Some (Prelude.Err errWrongType)) ∧
  (∃ r, NewAddressedCall grow src call = Some r ∧
     ((∃ p, r = Ok p) ↔ (14 + Z.of_nat (length src) + Z.of_nat (length call) ≤ 24576)%Z) ∧
     ∀ p, r = Ok p → p = PAddressedCall src call (Payload_Bytes p) ∧
       payload_Parse (Payload_Bytes p) = Some (Ok p) ∧
       ParseHash (Payload_Bytes p) = Some (Prelude.Err errWrongType)) ∧
  ∃ r, payload_Parse bs = Some r ∧ ∀ p, r = Ok p → Payload_Bytes p = bs.
Proof.
  split; [|split].
  - destruct (initialize_ok grow (PHash h [])) as (r & Hi & Hr); [by split; [|constructor]|].
    assert (2 + Z.of_nat (length (payload_enc (PHash h []))) ≤ MaxMessageSize)%Z as Hl.
    { unfold payload_enc. rewrite length_app, be_encode_length, (proj2 Hh). done. }
    rewrite bool_decide_eq_true_2 in Hr by done. subst r. eexists. split; [exact Hi|].
    pose proof (payload_Parse_enc 0 0 (PHash h []) (conj Hh (Forall_nil_2 _)) Hl) as Hp.
    split; [exact Hp|]. unfold ParseAddressedCall. by rewrite Hp.
  - assert (payload_ok (PAddressedCall src call [])) as Hok by (split_and!; [done..|constructor]).
    destruct (initialize_ok grow (PAddressedCall src call []) Hok) as (r & Hi & Hr).
    exists r. split; [exact Hi|].
    assert (Z.of_nat (length (payload_enc (PAddressedCall src call []))) =
      12 + Z.of_nat (length src) + Z.of_nat (length call))%Z as Hl.
    { unfold payload_enc. rewrite !length_app, !be_encode_length. lia. }
    revert Hr. rewrite Hl. unfold MaxMessageSize. case_bool_decide as Hfit.
    + intros ->. split; [split; [lia|eauto]|]. intros p [= <-]. split; [done|].
      pose proof (payload_Parse_enc 0 0 (PAddressedCall src call []) Hok
        ltac:(rewrite Hl; unfold MaxMessageSize; lia)) as Hp.
      split; [exact Hp|exact (ParseHash_call _ _ _ _ Hp)].
    + intros [e ->]. split; [split; [by intros []|lia]|done].
  - destruct (payload_Parse_sound bs Hbs) as (r & Hr & Hp). exists r. split; [done|].
    intros q Hq. destruct (Hp q Hq) as (p & _ & _ & -> & _). by destruct p.
Qed.

(** ** Witnesses *)

(** Not a good hash, but of the right size. *)
Definition demo_sha256 (b : list Z) : list Z := be_encode 32 (be_decode b).
Definition demo_chain : list Z := replicate 32 7%Z.
Definition demo_signature : BitSetSignature := mkBitSetSignature [3%Z] (replicate 96 1%Z).
Definition demo_payload : list Z := [1; 2; 3]%Z.

Lemma demo_sha256_ok b : id_ok (demo_sha256 b).
Proof. split; [apply be_encode_ok|apply be_encode_length]. Qed.

Lemma replicate_byte_ok n z : byte_ok z → bytes_ok (replicate n z).
Proof. intros. by apply Forall_replicate. Qed.

Lemma demo_chain_ok : id_ok demo_chain.
Proof. split; [by apply replicate_byte_ok|done]. Qed.

Lemma demo_signature_ok : sig_ok demo_signature.
Proof. split; [split; [by repeat constructor|done]|by apply replicate_byte_ok|done]. Qed.

Lemma demo_net_ok : inU 32 10.
Proof. by split. Qed.

Lemma demo_payload_ok : slice_ok demo_payload.
Proof. split; [by repeat constructor|done]. Qed.

Lemma warp_message_roundtrip_witness :
  ∃ u m, NewUnsignedMessage (λ n, n) demo_sha256 10 demo_chain demo_payload = Some (Ok u) ∧
    NewMessage (λ n, n) u (Some demo_signature) = Some (Ok m) ∧
    ParseMessage (λ n, n) demo_sha256 (m_bytes m) = Some (Ok m).
Proof.
  destruct (warp_message_roundtrip (λ n, n) demo_sha256 10 demo_chain demo_payload demo_signature
    demo_sha256_ok demo_net_ok demo_chain_ok demo_payload_ok demo_signature_ok)
    as (u & m & Hu & _ & _ & _ & Hm & Hp & _).
  exists u, m. split; [exact Hu|]. split; [exact Hm|exact Hp].
Defined.

Definition demo_message_bytes : list Z :=
  [9; 9]%Z ++ be_encode 4 10 ++ demo_chain ++ be_encode 4 3 ++ demo_payload ++
  be_encode 4 0 ++ be_encode 4 1 ++ [3%Z] ++ replicate 96 1%Z.

Lemma demo_message_bytes_ok : bytes_ok demo_message_bytes.
Proof.
  unfold demo_message_bytes, bytes_ok. rewrite !Forall_app.
  split_and!; try apply be_encode_ok; try (by apply replicate_byte_ok); by repeat constructor.
Qed.

Lemma warp_parse_canonical_witness :
  ∃ r, ParseMessage (λ n, n) demo_sha256 demo_message_bytes = Some r ∧
    (∀ m, r = Ok m → NewUnsignedMessage (λ n, n) demo_sha256 (NetworkID (m_Unsigned m))
      (SourceChainID (m_Unsigned m)) (um_Payload (m_Unsigned m)) = Some (Ok (m_Unsigned m))) ∧
    is_ok r = true.
Proof.
  destruct (warp_parse_canonical (λ n, n) demo_sha256 demo_message_bytes demo_sha256_ok
    demo_message_bytes_ok) as (r & Hr & Hm).
  exists r. split; [exact Hr|]. split; [intros m Hok; exact (proj1 (Hm m Hok))|].
  assert (is_ok <$> ParseMessage (λ n, n) demo_sha256 demo_message_bytes = Some true) as Hok
    by (vm_compute; reflexivity).
  rewrite Hr in Hok. simpl in Hok. congruence.
Defined.

Lemma payload_roundtrip_witness :
  ∃ b, NewHash (λ n, n) demo_chain = Some (Ok (PHash demo_chain b)) ∧
       payload_Parse b = Some (Ok (PHash demo_chain b)).
Proof.
  destruct (payload_roundtrip (λ n, n) demo_chain demo_payload demo_payload demo_payload demo_chain_ok
    demo_payload_ok demo_payload_ok (proj1 demo_payload_ok)) as [(b & H1 & H2 & _) _].
  exists b. split; [exact H1|exact H2].
Defined.
