(* ===== verification/WarpSignature.v ===== *)
(** * Warp signatures (src/utils/avalanche/warp, src/utils/crypto/bls,
      src/utils/evm/warp/aggregator)

    The signature of a warp message is an aggregate BLS signature with the bit set
    of the validators that signed, as indices into the validator set in a canonical
    order ([FlattenValidatorSet]).  [Verify] checks that the signers have enough of
    the weight and that the aggregate of their keys verifies the signature;
    [AggregateSignatures] collects signatures from the validators until they have
    enough weight and puts such a signature together.

    BLS itself is the blst library: the class [Blst] has the functions of it that
    the code calls, [BlstLaws] what it documents of them.  Go visits the entries of a
    map in any order: a validator set is the list of its values in the order of the
    visit.  [None] is a panic. *)

From S2P Require Import Prelude SafeMath Codec Bits WarpMessage.

Abbreviation NodeID := (list Z) (only parsing).

(** ** blst *)

Class Blst := {
  PublicKey : Type;
  BLSSignature : Type;
  pk_Serialize : PublicKey → list Z;
  KeyValidate : PublicKey → bool;
  sig_Compress : BLSSignature → list Z;
  sig_Uncompress : list Z → option BLSSignature;
  SigValidate : BLSSignature → bool → bool;
  sig_Verify : BLSSignature → bool → PublicKey → bool → list Z → string → bool;
  (** [P1Aggregate.Aggregate] with [ToAffine], and the same for P2 *)
  pk_Aggregate : list PublicKey → bool → option PublicKey;
  sig_Aggregate : list BLSSignature → bool → option BLSSignature;
}.

Definition ciphersuiteSignature : string := "BLS_SIG_BLS12381G2_XMD:SHA-256_SSWU_RO_POP_".

(** Serialization is injective and, on valid signatures, invertible; aggregation
    of points that need no check succeeds, in any order; and the aggregate of
    signatures of one message verifies under the aggregate of the keys, unless that
    is not a valid key (the point at infinity). *)
Class BlstLaws `{!Blst} : Prop := {
  pk_Serialize_inj : ∀ k1 k2, pk_Serialize k1 = pk_Serialize k2 → k1 = k2;
  sig_Uncompress_Compress : ∀ s, SigValidate s false = true →
    sig_Uncompress (sig_Compress s) = Some s ∧ bytes_ok (sig_Compress s) ∧
    length (sig_Compress s) = SignatureLen;
  pk_Aggregate_total : ∀ ks, ks ≠ [] → is_Some (pk_Aggregate ks false);
  pk_Aggregate_perm : ∀ ks ks', ks ≡ₚ ks' → pk_Aggregate ks false = pk_Aggregate ks' false;
  sig_Aggregate_total : ∀ ss, ss ≠ [] → is_Some (sig_Aggregate ss false);
  sig_Aggregate_valid : ∀ ss s, Forall (λ s, SigValidate s false = true) ss →
    sig_Aggregate ss false = Some s → SigValidate s false = true;
  sig_Verify_aggregate : ∀ ks ss k s msg dst,
    Forall2 (λ k s, sig_Verify s false k false msg dst = true) ks ss →
    pk_Aggregate ks false = Some k → sig_Aggregate ss false = Some s →
    KeyValidate k = true → sig_Verify s false k false msg dst = true;
}.

(** ** Package bls *)

Inductive berr :=
| ErrNoPublicKeys | errFailedPublicKeyAggregation | ErrFailedSignatureDecompress
| errInvalidSignature | errNoSignatures | errFailedSignatureAggregation.

Inductive werr :=
| ErrInvalidBitSet | ErrInsufficientWeight | ErrInvalidSignature | ErrParseSignature (e : berr)
| ErrUnknownValidator | ErrWeightOverflow | ErrWrongNetworkID | ErrWrongSourceChainID
| EBls (e : berr) | EPChain (e : string) | EMessage (e : cerr).

Section bls.
Context `{!Blst}.

Definition bls_Verify (pk : PublicKey) (sig : BLSSignature) (msg : list Z) : bool :=
  sig_Verify sig false pk false msg ciphersuiteSignature.

Definition PublicKeyToUncompressedBytes (key : PublicKey) : list Z := pk_Serialize key.

Definition bls_AggregatePublicKeys (pks : list PublicKey) : result berr PublicKey :=
  if bool_decide (length pks = 0) then Err ErrNoPublicKeys
  else of_option errFailedPublicKeyAggregation (pk_Aggregate pks false).

Definition SignatureToBytes (sig : BLSSignature) : list Z := sig_Compress sig.

Definition SignatureFromBytes (sigBytes : list Z) : result berr BLSSignature :=
  match sig_Uncompress sigBytes with
  | None => Err ErrFailedSignatureDecompress
  | Some sig => if negb (SigValidate sig false) then Err errInvalidSignature else Ok sig
  end.

Definition bls_AggregateSignatures (sigs : list BLSSignature) : result berr BLSSignature :=
  if bool_decide (length sigs = 0) then Err errNoSignatures
  else of_option errFailedSignatureAggregation (sig_Aggregate sigs false).

(** ** Validator sets (validator.go) *)

Record GetValidatorOutput := mkGetValidatorOutput {
  gv_NodeID : NodeID;
  gv_PublicKey : option PublicKey;
  gv_Weight : Z;
}.

(** [warp.Validator] *)
Record WarpValidator := mkWarpValidator {
  wv_PublicKey : PublicKey;
  PublicKeyBytes : list Z;
  wv_Weight : Z;
  NodeIDs : list NodeID;
}.

(** [v.Compare(o) <= 0] *)
Definition Compare_le (v o : WarpValidator) : Prop :=
  bytes_compare (PublicKeyBytes v) (PublicKeyBytes o) ≠ Gt.

#[export] Instance Compare_le_dec : RelDecision Compare_le.
Proof. intros v o. unfold Compare_le. destruct (bytes_compare _ _); [left|left|right]; congruence. Defined.

Fixpoint FlattenValidatorSet_loop (vdrSet : list GetValidatorOutput)
    (vdrs : gmap (list Z) WarpValidator) (totalWeight : Z)
    : result werr (gmap (list Z) WarpValidator * Z) :=
  match vdrSet with
  | [] => Ok (vdrs, totalWeight)
  | vdr :: rest =>
      match SafeMath.Add 64 totalWeight (gv_Weight vdr) with
      | Err _ => Err ErrWeightOverflow
      | Ok totalWeight =>
          match gv_PublicKey vdr with
          | None => FlattenValidatorSet_loop rest vdrs totalWeight
          | Some pk =>
              let pkBytes := PublicKeyToUncompressedBytes pk in
              let uniqueVdr := default (mkWarpValidator pk pkBytes 0 []) (vdrs !! pkBytes) in
              let uniqueVdr := mkWarpValidator (wv_PublicKey uniqueVdr) (PublicKeyBytes uniqueVdr)
                (wrapU 64 (wv_Weight uniqueVdr + gv_Weight vdr))
                (NodeIDs uniqueVdr ++ [gv_NodeID vdr]) in
              FlattenValidatorSet_loop rest (<[pkBytes := uniqueVdr]> vdrs) totalWeight
          end
      end
  end.

(** [maps.Values] gives the values in any order, and [slices.SortFunc] sorts them;
    as the keys differ there is one sorted order ([Flatten_sort_unique]). *)
Definition FlattenValidatorSet (vdrSet : list GetValidatorOutput)
    : result werr (list WarpValidator * Z) :=
  match FlattenValidatorSet_loop vdrSet ∅ 0 with
  | Err e => Err e
  | Ok (vdrs, totalWeight) => Ok (merge_sort Compare_le (map_to_list vdrs).*2, totalWeight)
  end.

Fixpoint FilterValidators_loop (indices : Bits) (i : Z) (vdrs filteredVdrs : list WarpValidator)
    : option (list WarpValidator) :=
  match vdrs with
  | [] => Some filteredVdrs
  | vdr :: rest =>
      c ← Contains i indices;
      FilterValidators_loop indices (i + 1) rest
        (if c : bool then filteredVdrs ++ [vdr] else filteredVdrs)
  end.

Definition FilterValidators (indices : Bits) (vdrs : list WarpValidator)
    : option (result werr (list WarpValidator)) :=
  if bool_decide (Z.of_nat (length vdrs) < BitLen indices)%Z then Some (Err ErrUnknownValidator)
  else Ok <$> FilterValidators_loop indices 0 vdrs [].

Definition SumWeight (vdrs : list WarpValidator) : result werr Z :=
  foldl (λ acc vdr, acc ≫= λ weight,
           match SafeMath.Add 64 weight (wv_Weight vdr) with
           | Ok w => Ok w | Err _ => Err ErrWeightOverflow end) (Ok 0%Z) vdrs.

Definition AggregatePublicKeys (vdrs : list WarpValidator) : result berr PublicKey :=
  bls_AggregatePublicKeys (wv_PublicKey <$> vdrs).

(** ** Verification (signature.go) *)

Definition VerifyWeight (sigWeight totalWeight quorumNum quorumDen : Z) : result werr () :=
  let scaledTotalWeight := (totalWeight * quorumNum)%Z in
  let scaledSigWeight := (sigWeight * quorumDen)%Z in
  if bool_decide (scaledSigWeight < scaledTotalWeight)%Z then Err ErrInsufficientWeight else Ok ().

Definition NumSigners (s : BitSetSignature) : result werr Z :=
  let signerIndices := BitsFromBytes (Signers s) in
  if bool_decide (length (Bits_Bytes signerIndices) ≠ length (Signers s)) then Err ErrInvalidBitSet
  else Ok (Bits_Len signerIndices).

(** The P-chain, [validators.State]. *)
Record PChainState := mkPChainState {
  GetSubnetID : ID → result string ID;
  GetValidatorSet : Z → ID → result string (list GetValidatorOutput);
}.

Definition Verify (s : BitSetSignature) (msg : UnsignedMessage) (networkID : Z)
    (pChainState : PChainState) (pChainHeight quorumNum quorumDen : Z) : option (result werr ()) :=
  if bool_decide (NetworkID msg ≠ networkID) then Some (Err ErrWrongNetworkID) else
  match GetSubnetID pChainState (SourceChainID msg) with
  | Err e => Some (Err (EPChain e))
  | Ok subnetID =>
  match GetValidatorSet pChainState pChainHeight subnetID with
  | Err e => Some (Err (EPChain e))
  | Ok vdrSet =>
  match FlattenValidatorSet vdrSet with
  | Err e => Some (Err e)
  | Ok (vdrs, totalWeight) =>
  let signerIndices := BitsFromBytes (Signers s) in
  if bool_decide (length (Bits_Bytes signerIndices) ≠ length (Signers s))
  then Some (Err ErrInvalidBitSet) else
  match FilterValidators signerIndices vdrs with
  | None => None
  | Some (Err e) => Some (Err e)
  | Some (Ok signers) =>
  let sigWeight := match SumWeight signers with Ok w => w | Err _ => 0%Z end in
  match VerifyWeight sigWeight totalWeight quorumNum quorumDen with
  | Err e => Some (Err e)
  | Ok _ =>
  match SignatureFromBytes (Signature_ s) with
  | Err e => Some (Err (ErrParseSignature e))
  | Ok aggSig =>
  match AggregatePublicKeys signers with
  | Err e => Some (Err (EBls e))
  | Ok aggPubKey =>
      if negb (bls_Verify aggPubKey aggSig (um_bytes msg)) then Some (Err ErrInvalidSignature)
      else Some (Ok ())
  end end end end end end end.

(** ** Signing (signer.go); [sk] is the [Sign] of a [bls.Signer] *)

Definition signer_Sign (sk : list Z → BLSSignature) (networkID : Z) (chainID : ID)
    (msg : UnsignedMessage) : result werr (list Z) :=
  if bool_decide (SourceChainID msg ≠ chainID) then Err ErrWrongSourceChainID
  else if bool_decide (NetworkID msg ≠ networkID) then Err ErrWrongNetworkID
  else Ok (SignatureToBytes (sk (um_bytes msg))).

(** ** Aggregation (aggregator.go) *)

Definition WarpQuorumDenominator : Z := 100.

Record AggregateSignatureResult := mkAggregateSignatureResult {
  SignatureWeight : Z;
  TotalWeight : Z;
  ar_Message : Message;
}.

Record signatureFetchResult := mkFetchResult {
  fr_sig : BLSSignature;
  fr_index : nat;
  fr_weight : Z;
}.

Section aggregator.
(** What the client answers for a node; growth of slices. *)
Context (GetSignature : NodeID → UnsignedMessage → result string BLSSignature).
Context (grow : nat → nat).

(** The goroutine of one validator: what it sends on the channel. *)
Definition fetchSignature (i : nat) (validator : WarpValidator) (nodeID : NodeID)
    (unsignedMessage : UnsignedMessage) : option signatureFetchResult :=
  match GetSignature nodeID unsignedMessage with
  | Err _ => None
  | Ok signature =>
      if negb (bls_Verify (wv_PublicKey validator) signature (um_bytes unsignedMessage)) then None
      else Some (mkFetchResult signature i (wv_Weight validator))
  end.

(** The loop that starts the goroutines reads [validator.NodeIDs[0]]. *)
Fixpoint startFetch (i : nat) (validators : list WarpValidator) (unsignedMessage : UnsignedMessage)
    : option (list (option signatureFetchResult)) :=
  match validators with
  | [] => Some []
  | validator :: rest =>
      nodeID ← NodeIDs validator !! 0;
      results ← startFetch (S i) rest unsignedMessage;
      Some (fetchSignature i validator nodeID unsignedMessage :: results)
  end.

(** The loop that receives the results, in the order the goroutines send them; it
    stops when the weight is enough. *)
Fixpoint receive (results : list (option signatureFetchResult)) (totalWeight quorumNum : Z)
    (signatures : list BLSSignature) (signersBitset : Bits) (signaturesWeight : Z)
    : option (list BLSSignature * Bits * Z * bool) :=
  match results with
  | [] => Some (signatures, signersBitset, signaturesWeight, false)
  | None :: rest =>
      receive rest totalWeight quorumNum signatures signersBitset signaturesWeight
  | Some r :: rest =>
      signersBitset ← Bits_Add (Z.of_nat (fr_index r)) signersBitset;
      let signatures := signatures ++ [fr_sig r] in
      let signaturesWeight := wrapU 64 (signaturesWeight + fr_weight r) in
      match VerifyWeight signaturesWeight totalWeight quorumNum WarpQuorumDenominator with
      | Ok _ => Some (signatures, signersBitset, signaturesWeight, true)
      | Err _ => receive rest totalWeight quorumNum signatures signersBitset signaturesWeight
      end
  end.

(** Go's [copy] into an array of [n] zero bytes. *)
Definition copy_array (n : nat) (bs : list Z) : list Z := take n (bs ++ replicate n 0%Z).

(** [arrival] gives the order of the sends: a permutation of the indices. *)
Definition AggregateSignatures (validators : list WarpValidator) (totalWeight : Z)
    (arrival : list nat) (unsignedMessage : UnsignedMessage) (quorumNum : Z)
    : option (result werr AggregateSignatureResult) :=
  results ← startFetch 0 validators unsignedMessage;
  match receive (omap (λ i, results !! i) arrival) totalWeight quorumNum [] 0 0 with
  | None => None
  | Some (_, _, _, false) => Some (Err ErrInsufficientWeight)
  | Some (signatures, signersBitset, signaturesWeight, true) =>
      match bls_AggregateSignatures signatures with
      | Err e => Some (Err (EBls e))
      | Ok aggregateSignature =>
          let warpSignature := mkBitSetSignature (Bits_Bytes signersBitset)
            (copy_array SignatureLen (SignatureToBytes aggregateSignature)) in
          match NewMessage grow unsignedMessage (Some warpSignature) with
          | None => None
          | Some (Err e) => Some (Err (EMessage e))
          | Some (Ok msg) => Some (Ok (mkAggregateSignatureResult signaturesWeight totalWeight msg))
          end
      end
  end.
End aggregator.
End bls.
