(* ===== verification/WarpSignatureProps.v ===== *)
(** * Warp signatures: validator sets

    The canonical order of a validator set, the selection of the signers and their
    weight. *)

From S2P Require Import Prelude SafeMath Codec Bits WarpMessage WarpSignature.

(** ** The order of keys *)

#[export] Instance Compare_le_total `{!Blst} : Total Compare_le.
Proof. intros v o. apply bytes_le_total. Qed.
#[export] Instance Compare_le_trans `{!Blst} : Transitive Compare_le.
Proof. intros v o u. apply bytes_le_trans. Qed.

Section sets.
Context {BL : Blst}.

(** ** What a validator set is *)

Definition key_of (v : GetValidatorOutput) : option (list Z) := pk_Serialize <$> gv_PublicKey v.

(** The validators of a key, and their weight. *)
Definition holders (k : list Z) (l : list GetValidatorOutput) : list GetValidatorOutput :=
  filter (λ v, key_of v = Some k) l.
Definition total (l : list GetValidatorOutput) : Z := sumZ (gv_Weight <$> l).
Definition key_weight (l : list GetValidatorOutput) (k : list Z) : Z := total (holders k l).

(** The different keys, sorted. *)
Definition keys (l : list GetValidatorOutput) : list (list Z) :=
  merge_sort bytes_le (remove_dups (omap key_of l)).

Definition weights_ok (l : list GetValidatorOutput) : Prop := Forall (λ v, inU 64 (gv_Weight v)) l.

Lemma keys_NoDup l : NoDup (keys l).
Proof. unfold keys. rewrite merge_sort_Permutation. apply NoDup_remove_dups. Qed.

Lemma keys_sorted l : StronglySorted bytes_le (keys l).
Proof. apply StronglySorted_merge_sort; apply _. Qed.

Lemma elem_of_keys k l : k ∈ keys l ↔ holders k l ≠ [].
Proof.
  unfold keys. rewrite merge_sort_Permutation, elem_of_remove_dups, list_elem_of_omap.
  unfold holders. split.
  - intros (v & Hv & Hk) Hnil. eapply (not_elem_of_nil v). rewrite <-Hnil.
    by apply list_elem_of_filter.
  - intros Hne. destruct (filter _ l) as [|v l'] eqn:E; [done|].
    assert (v ∈ filter (λ v, key_of v = Some k) l) as [??]%list_elem_of_filter by (rewrite E; left).
    eauto.
Qed.

Lemma sorted_keys_unique ks l :
  StronglySorted bytes_le ks → NoDup ks → (∀ k, k ∈ ks ↔ holders k l ≠ []) → ks = keys l.
Proof.
  intros Hs Hn He. apply (StronglySorted_unique bytes_le); [done|apply keys_sorted|].
  apply NoDup_Permutation; [done|apply keys_NoDup|]. intros k. by rewrite He, elem_of_keys.
Qed.

Lemma holders_perm k l l' : l ≡ₚ l' → holders k l ≡ₚ holders k l'.
Proof. intros H. unfold holders. by rewrite H. Qed.

Lemma total_perm l l' : l ≡ₚ l' → total l = total l'.
Proof. intros H. unfold total. by rewrite H. Qed.

Lemma key_weight_perm k l l' : l ≡ₚ l' → key_weight l k = key_weight l' k.
Proof. intros H. by apply total_perm, holders_perm. Qed.

Lemma keys_perm l l' : l ≡ₚ l' → keys l = keys l'.
Proof.
  intros H. apply sorted_keys_unique; [apply keys_sorted|apply keys_NoDup|].
  intros k. rewrite elem_of_keys. pose proof (holders_perm k l l' H) as Hp.
  split; intros Hne Hnil; apply Hne; rewrite Hnil in Hp; [by apply Permutation_nil_r in Hp|].
  by apply Permutation_nil_l in Hp.
Qed.

Lemma set_total_nonneg l : weights_ok l → (0 ≤ total l)%Z.
Proof. intros H. apply sumZ_nonneg, Forall_fmap. eapply Forall_impl; [exact H|]. by intros ? []. Qed.

(** ** FlattenValidatorSet *)

(** A validator of the flattened set stands for the validators with its key. *)
Definition stands_for (l : list GetValidatorOutput) (k : list Z) (w : WarpValidator) : Prop :=
  holders k l ≠ [] ∧ pk_Serialize (wv_PublicKey w) = k ∧ PublicKeyBytes w = k ∧
  wv_Weight w = key_weight l k ∧ NodeIDs w = gv_NodeID <$> holders k l.

Definition flat (l : list GetValidatorOutput) (m : gmap (list Z) WarpValidator) : Prop :=
  ∀ k, match m !! k with Some w => stands_for l k w | None => holders k l = [] end.

Lemma key_weight_le l k : weights_ok l → (0 ≤ key_weight l k ≤ total l)%Z.
Proof.
  intros Hl. unfold key_weight. split.
  - apply set_total_nonneg, Forall_forall. unfold weights_ok in Hl. rewrite Forall_forall in Hl.
    intros v [_ Hv]%list_elem_of_filter. by apply Hl.
  - apply (sumZ_filter gv_Weight). eapply Forall_impl; [exact Hl|]. by intros ? [].
Qed.

Lemma holders_snoc k l v :
  holders k (l ++ [v]) = holders k l ++ (if decide (key_of v = Some k) then [v] else []).
Proof. unfold holders. rewrite filter_app, filter_cons. by case_decide. Qed.

Lemma flat_skip l m v : key_of v = None → flat l m → flat (l ++ [v]) m.
Proof.
  intros Hv Hf k. specialize (Hf k). unfold stands_for, key_weight in *.
  rewrite holders_snoc, Hv, decide_False, app_nil_r by done. done.
Qed.

Lemma flat_add l m v pk :
  gv_PublicKey v = Some pk → flat l m → weights_ok (l ++ [v]) → (total (l ++ [v]) < 2 ^ 64)%Z →
  let k := pk_Serialize pk in
  let u := default (mkWarpValidator pk k 0 []) (m !! k) in
  flat (l ++ [v])
    (<[k := mkWarpValidator (wv_PublicKey u) (PublicKeyBytes u) (wrapU 64 (wv_Weight u + gv_Weight v))
              (NodeIDs u ++ [gv_NodeID v])]> m).
Proof.
  intros Hpk Hf Hw Ht k u. assert (key_of v = Some k) as Hk by (unfold key_of; by rewrite Hpk).
  assert (u = u ∧ pk_Serialize (wv_PublicKey u) = k ∧ PublicKeyBytes u = k ∧
          wv_Weight u = key_weight l k ∧ NodeIDs u = gv_NodeID <$> holders k l)
    as (_ & Hu1 & Hu2 & Hu3 & Hu4).
  { specialize (Hf k). unfold u, key_weight. destruct (m !! k) as [w|]; simpl.
    - by destruct Hf as (_ & ? & ? & ? & ?).
    - by rewrite Hf. }
  assert (key_weight (l ++ [v]) k = key_weight l k + gv_Weight v)%Z as Hkw.
  { unfold key_weight. rewrite holders_snoc, decide_True by done.
    unfold total. rewrite fmap_app, sumZ_app. simpl. lia. }
  intros k'. destruct (decide (k' = k)) as [->|Hne].
  - rewrite lookup_insert_eq. unfold stands_for. simpl.
    rewrite Hkw, holders_snoc, decide_True, fmap_app by done. split_and!; try done.
    + by intros [_ ?]%app_nil.
    + rewrite Hu3, wrapU_id; [done|]. pose proof (key_weight_le (l ++ [v]) k Hw). unfold inU. lia.
    + by rewrite Hu4.
  - rewrite lookup_insert_ne by done. specialize (Hf k'). unfold stands_for, key_weight in *.
    rewrite holders_snoc, decide_False, app_nil_r by congruence. done.
Qed.

Lemma Flatten_loop_spec l0 l m :
  flat l0 m → weights_ok (l0 ++ l) → (total l0 < 2 ^ 64)%Z →
  if bool_decide (total (l0 ++ l) < 2 ^ 64)%Z
  then ∃ m', FlattenValidatorSet_loop l m (total l0) = Ok (m', total (l0 ++ l)) ∧ flat (l0 ++ l) m'
  else FlattenValidatorSet_loop l m (total l0) = Err ErrWeightOverflow.
Proof.
  revert l0 m. induction l as [|v l IH]; intros l0 m Hf Hw Ht; simpl.
  - rewrite app_nil_r, bool_decide_eq_true_2 by done. eauto.
  - assert (l0 ++ v :: l = (l0 ++ [v]) ++ l) as Hassoc by (by rewrite <-app_assoc).
    rewrite Hassoc in *. pose proof Hw as [Hw0 Hwl]%Forall_app.
    pose proof Hw0 as [Hwl0 [Hv _]%Forall_cons]%Forall_app.
    assert (total (l0 ++ [v]) = total l0 + gv_Weight v)%Z as Hadd
      by (unfold total; rewrite fmap_app, sumZ_app; simpl; lia).
    pose proof (set_total_nonneg l0 Hwl0). pose proof (set_total_nonneg l Hwl).
    rewrite Add_spec by (done || unfold inU; lia). rewrite <-Hadd.
    destruct (decide (inU 64 (total (l0 ++ [v])))) as [Hfit|Hfit].
    + rewrite (bool_decide_eq_true_2 (inU _ _)) by done. destruct Hfit as [_ Hfit]. destruct (gv_PublicKey v) as [pk|] eqn:Hpk.
      * apply IH; [by apply flat_add|done|done].
      * apply IH; [|done|done]. apply flat_skip; [unfold key_of; by rewrite Hpk|done].
    + rewrite !bool_decide_eq_false_2; [done|done|]. unfold inU in Hfit. destruct Hv.
      unfold total in *. rewrite fmap_app, sumZ_app. lia.
Qed.

(** Any sorted list of the values is the one [FlattenValidatorSet] returns. *)
Lemma flat_inj l m k1 k2 w1 w2 :
  flat l m → m !! k1 = Some w1 → m !! k2 = Some w2 → PublicKeyBytes w1 = PublicKeyBytes w2 → w1 = w2.
Proof.
  intros Hf H1 H2 He. pose proof (Hf k1) as Hk1. pose proof (Hf k2) as Hk2. rewrite H1 in Hk1.
  rewrite H2 in Hk2. destruct Hk1 as (_ & _ & <- & _), Hk2 as (_ & _ & <- & _). congruence.
Qed.

Lemma Flatten_sort_unique l m vs :
  flat l m → vs ≡ₚ (map_to_list m).*2 → StronglySorted Compare_le vs →
  vs = merge_sort Compare_le (map_to_list m).*2.
Proof.
  intros Hf Hp Hs. apply (StronglySorted_unique_strong Compare_le); [|done| |].
  - intros w1 w2 H1 H2 Hle Hge. rewrite Hp in H1. rewrite merge_sort_Permutation in H2.
    apply list_elem_of_fmap in H1 as ([k1 ?] & -> & H1%elem_of_map_to_list).
    apply list_elem_of_fmap in H2 as ([k2 ?] & -> & H2%elem_of_map_to_list).
    eapply flat_inj; [done..|]. by apply (anti_symm bytes_le).
  - apply StronglySorted_merge_sort; apply _.
  - by rewrite merge_sort_Permutation.
Qed.

Lemma StronglySorted_fmap {A B} (R : relation A) (S : relation B) (f : A → B) l :
  (∀ x y, R x y → S (f x) (f y)) → StronglySorted R l → StronglySorted S (f <$> l).
Proof.
  intros Hf. induction 1 as [|x l Hs IH Hall]; csimpl; constructor; [done|].
  apply Forall_fmap. eapply Forall_impl; [exact Hall|]. simpl. auto.
Qed.

(** [FlattenValidatorSet] returns one validator per key, in the order of the keys,
    with the weight of all the nodes of the key, and the total weight. *)
Lemma FlattenValidatorSet_spec l :
  weights_ok l →
  if bool_decide (total l < 2 ^ 64)%Z
  then ∃ vs, FlattenValidatorSet l = Ok (vs, total l) ∧ PublicKeyBytes <$> vs = keys l ∧
             Forall (λ v, stands_for l (PublicKeyBytes v) v) vs
  else FlattenValidatorSet l = Err ErrWeightOverflow.
Proof.
  intros Hw. unfold FlattenValidatorSet.
  pose proof (Flatten_loop_spec [] l ∅) as Hloop. simpl in Hloop. case_bool_decide as Ht.
  - destruct Hloop as (m & Hm & Hf); [intros k; by rewrite lookup_empty|done|done|].
    change (total []) with 0%Z in Hm. rewrite Hm. eexists. split; [done|].
    set (vs := merge_sort Compare_le (map_to_list m).*2).
    assert (∀ v, v ∈ vs → stands_for l (PublicKeyBytes v) v ∧ m !! PublicKeyBytes v = Some v) as Hvs.
    { intros v. unfold vs. rewrite merge_sort_Permutation, list_elem_of_fmap.
      intros ([k ?] & -> & Hk%elem_of_map_to_list). simpl. pose proof (Hf k) as Hs. rewrite Hk in Hs.
      assert (PublicKeyBytes w = k) as -> by apply Hs. done. }
    split; [|by apply Forall_forall; intros v Hv; apply Hvs].
    apply sorted_keys_unique.
    + apply (StronglySorted_fmap Compare_le); [done|]. apply StronglySorted_merge_sort; apply _.
    + apply NoDup_fmap_2_strong.
      * intros v1 v2 [_ H1]%Hvs [_ H2]%Hvs He. congruence.
      * unfold vs. rewrite merge_sort_Permutation. apply NoDup_fmap_2_strong;
          [|apply NoDup_map_to_list].
        intros [k1 v1] [k2 v2] H1%elem_of_map_to_list H2%elem_of_map_to_list. simpl. intros ->.
        pose proof (Hf k1) as Hk1. pose proof (Hf k2) as Hk2. rewrite H1 in Hk1. rewrite H2 in Hk2.
        destruct Hk1 as (_ & _ & <- & _), Hk2 as (_ & _ & <- & _). done.
    + intros k. rewrite list_elem_of_fmap. split.
      * intros (v & -> & Hv%Hvs). by destruct Hv as [[? _] _].
      * intros Hne. pose proof (Hf k) as Hk. destruct (m !! k) as [w|] eqn:E; [|done].
        exists w. split; [by destruct Hk as (_ & _ & -> & _)|]. unfold vs.
        rewrite merge_sort_Permutation. apply list_elem_of_fmap. exists (k, w).
        split; [done|]. by apply elem_of_map_to_list.
  - rewrite <-(app_nil_l l) in Ht at 1. apply Hloop in Hw; [|intros k; by rewrite lookup_empty|done].
    change (total []) with 0%Z in Hw. by rewrite Hw.
Qed.

(** The flattened set does not depend on the order of the visit, but for the order
    of the nodes of a key. *)
Definition same_validator (v v' : WarpValidator) : Prop :=
  wv_PublicKey v = wv_PublicKey v' ∧ PublicKeyBytes v = PublicKeyBytes v' ∧
  wv_Weight v = wv_Weight v' ∧ NodeIDs v ≡ₚ NodeIDs v'.

Lemma stands_for_same `{!BlstLaws} l l' vs vs' :
  l ≡ₚ l' → PublicKeyBytes <$> vs = PublicKeyBytes <$> vs' →
  Forall (λ v, stands_for l (PublicKeyBytes v) v) vs →
  Forall (λ v, stands_for l' (PublicKeyBytes v) v) vs' → Forall2 same_validator vs vs'.
Proof.
  intros Hp Hk Hvs Hvs'. apply Forall2_same_length_lookup_2.
  { by rewrite <-(length_fmap PublicKeyBytes vs), Hk, length_fmap. }
  intros i v v' Hv Hv'.
  assert (PublicKeyBytes v = PublicKeyBytes v') as He.
  { apply (inj Some). change (Some (PublicKeyBytes v)) with (PublicKeyBytes <$> Some v).
    rewrite <-Hv, <-list_lookup_fmap, Hk, list_lookup_fmap, Hv'. done. }
  rewrite Forall_lookup in Hvs, Hvs'. apply Hvs in Hv. apply Hvs' in Hv'.
  destruct Hv as (_ & H1 & _ & H2 & H3), Hv' as (_ & H1' & _ & H2' & H3').
  split_and!; [|done| |].
  - apply pk_Serialize_inj. congruence.
  - rewrite H2, H2', He. by apply key_weight_perm.
  - rewrite H3, H3', He. by apply Permutation_map, holders_perm.
Qed.

(** ** Selecting by a bit set *)

Fixpoint select {A} (b : Bits) (i : Z) (xs : list A) : list A :=
  match xs with
  | [] => []
  | x :: xs => if Z.testbit b i then x :: select b (i + 1) xs else select b (i + 1) xs
  end.

Lemma select_fmap {A B} (f : A → B) b i xs : select b i (f <$> xs) = f <$> select b i xs.
Proof.
  revert i. induction xs as [|x xs IH]; intros i; csimpl; [done|].
  destruct (Z.testbit b i); csimpl; by rewrite IH.
Qed.

Lemma select_sublist {A} b i (xs : list A) : sublist (select b i xs) xs.
Proof.
  revert i. induction xs as [|x xs IH]; intros i; simpl; [done|].
  destruct (Z.testbit b i); by constructor.
Qed.

Lemma select_pairs {A} b k (xs : list A) :
  select b (Z.of_nat k) xs =
  (filter (λ p, Z.testbit b (Z.of_nat p.1) = true) (zip (seq k (length xs)) xs)).*2.
Proof.
  revert k. induction xs as [|x xs IH]; intros k; [done|]. simpl seq. csimpl. rewrite filter_cons.
  replace (Z.of_nat k + 1)%Z with (Z.of_nat (S k)) by lia. rewrite IH. simpl.
  destruct (Z.testbit b (Z.of_nat k)); [by rewrite decide_True|by rewrite decide_False].
Qed.

Lemma elem_of_zip_seq {A} k (xs : list A) i x :
  (i, x) ∈ zip (seq k (length xs)) xs ↔ k ≤ i ∧ xs !! (i - k) = Some x.
Proof.
  revert k. induction xs as [|y xs IH]; intros k; csimpl; [rewrite elem_of_nil; naive_solver|].
  rewrite elem_of_cons, IH. split.
  - intros [[= -> ->]|[Hk Hx]]; [split; [lia|by rewrite Nat.sub_diag]|].
    split; [lia|]. by replace (i - k) with (S (i - S k)) by lia.
  - intros [Hk Hx]. destruct (decide (i = k)) as [->|Hne].
    + rewrite Nat.sub_diag in Hx. left. by injection Hx as ->.
    + right. split; [lia|]. by replace (i - k) with (S (i - S k)) in Hx by lia.
Qed.

(** Selecting the indices of a list of pairs gives its elements. *)
Lemma select_indices {A} b (xs : list A) (ps : list (nat * A)) :
  NoDup ps.*1 → (∀ i, Z.testbit b (Z.of_nat i) = true ↔ i ∈ ps.*1) →
  Forall (λ p, xs !! p.1 = Some p.2) ps → select b 0 xs ≡ₚ ps.*2.
Proof.
  intros Hn Hb Hps. change 0%Z with (Z.of_nat 0). rewrite select_pairs.
  apply Permutation_map, NoDup_Permutation.
  - apply NoDup_filter. apply (NoDup_fmap_1 fst). change (zip (seq 0 (length xs)) xs).*1 with
      (fst <$> zip (seq 0 (length xs)) xs). rewrite fst_zip by (by rewrite length_seq).
    apply NoDup_seq.
  - by apply (NoDup_fmap_1 fst).
  - rewrite Forall_forall in Hps. intros [i x].
    rewrite list_elem_of_filter, elem_of_zip_seq, Nat.sub_0_r. simpl. rewrite Hb. split.
    + intros (([j y] & -> & Hj)%list_elem_of_fmap & _ & Hx).
      pose proof (Hps _ Hj) as Hy. simpl in *. congruence.
    + intros Hi. split; [|split; [lia|exact (Hps _ Hi)]].
      apply list_elem_of_fmap. by exists (i, x).
Qed.

(** *** FilterValidators *)

Lemma FilterValidators_loop_spec b i vs acc :
  (0 ≤ i)%Z → FilterValidators_loop b i vs acc = Some (acc ++ select b i vs).
Proof.
  revert i acc. induction vs as [|v vs IH]; intros i acc Hi; simpl; [by rewrite app_nil_r|].
  unfold Contains. rewrite bool_decide_eq_false_2 by lia. simpl. rewrite IH by lia.
  destruct (Z.testbit b i); [by rewrite <-app_assoc|done].
Qed.

Lemma FilterValidators_spec b vs :
  FilterValidators b vs =
  Some (if bool_decide (Z.of_nat (length vs) < BitLen b)%Z then Err ErrUnknownValidator
        else Ok (select b 0 vs)).
Proof.
  unfold FilterValidators. case_bool_decide; [done|].
  by rewrite FilterValidators_loop_spec by lia.
Qed.

(** *** Weights *)

Lemma SumWeight_from vs a :
  inU 64 a → Forall (λ v, inU 64 (wv_Weight v)) vs →
  foldl (λ acc vdr, acc ≫= λ weight,
           match SafeMath.Add 64 weight (wv_Weight vdr) with
           | Ok w => Ok w | Err _ => Err ErrWeightOverflow end) (Ok a) vs =
  if bool_decide (a + sumZ (wv_Weight <$> vs) < 2 ^ 64)%Z
  then Ok (a + sumZ (wv_Weight <$> vs))%Z else Err ErrWeightOverflow.
Proof.
  intros Ha Hl. revert a Ha. induction Hl as [|v l Hv Hl IH]; intros a Ha.
  - simpl. rewrite Z.add_0_r, bool_decide_eq_true_2; [done|apply Ha].
  - assert (0 ≤ sumZ (wv_Weight <$> l))%Z.
    { apply sumZ_nonneg, Forall_fmap. eapply Forall_impl; [exact Hl|]. by intros ? []. }
    assert (sumZ (wv_Weight <$> v :: l) = wv_Weight v + sumZ (wv_Weight <$> l))%Z as -> by done.
    cbn [foldl mbind result_bind]. rewrite Add_spec by done. case_bool_decide as Hs.
    + rewrite IH by done. by rewrite Z.add_assoc.
    + rewrite bool_decide_eq_false_2 by (unfold inU in *; lia). clear. by induction l as [|y l IH].
Qed.

Lemma SumWeight_spec vs :
  Forall (λ v, inU 64 (wv_Weight v)) vs → (sumZ (wv_Weight <$> vs) < 2 ^ 64)%Z →
  SumWeight vs = Ok (sumZ (wv_Weight <$> vs)).
Proof.
  intros Hv Hs. unfold SumWeight. rewrite SumWeight_from by done.
  by rewrite bool_decide_eq_true_2 by lia.
Qed.
End sets.
