(* ===== verification/WarpVerify.v ===== *)
(** * Warp signatures: verification and aggregation

    What [Verify] accepts, and that it accepts what [AggregateSignatures] makes. *)

From S2P Require Import Prelude SafeMath Codec Bits WarpMessage WarpMessageProps WarpSignature WarpSignatureProps.

Section verify.
Context {BL : Blst}.

(** The weight of the nodes whose key is one of [ks]. *)
Definition signed_weight (l : list GetValidatorOutput) (ks : list (list Z)) : Z :=
  total (filter (λ v, Exists (λ k, key_of v = Some k) ks) l).

Lemma key_weight_cons v l k :
  key_weight (v :: l) k =
  ((if decide (key_of v = Some k) then gv_Weight v else 0) + key_weight l k)%Z.
Proof. unfold key_weight, holders. rewrite filter_cons. by case_decide. Qed.

Lemma sum_key_weights v l ks :
  NoDup ks →
  sumZ (key_weight (v :: l) <$> ks) =
  ((if decide (Exists (λ k, key_of v = Some k) ks) then gv_Weight v else 0) +
   sumZ (key_weight l <$> ks))%Z.
Proof.
  induction 1 as [|k ks Hk Hn IH]; [done|].
  change (sumZ (key_weight (v :: l) <$> k :: ks)) with
    (key_weight (v :: l) k + sumZ (key_weight (v :: l) <$> ks))%Z.
  change (sumZ (key_weight l <$> k :: ks)) with (key_weight l k + sumZ (key_weight l <$> ks))%Z.
  rewrite IH, key_weight_cons. destruct (decide (key_of v = Some k)) as [He|He].
  - rewrite (decide_True (P := Exists _ (k :: ks))) by (by left).
    rewrite decide_False; [lia|]. intros (k' & Hk' & Heq)%Exists_exists. congruence.
  - destruct (decide (Exists (λ k, key_of v = Some k) ks)) as [Hex|Hex].
    + rewrite decide_True by (by right). lia.
    + rewrite decide_False; [lia|]. by intros [|]%Exists_cons.
Qed.

Lemma signed_weight_sum l ks : NoDup ks → signed_weight l ks = sumZ (key_weight l <$> ks).
Proof.
  intros Hn. induction l as [|v l IH].
  - unfold signed_weight. simpl. clear. induction ks; csimpl; [done|]. rewrite <-IHks. done.
  - rewrite sum_key_weights, <-IH by done. unfold signed_weight. rewrite filter_cons.
    by case_decide.
Qed.

Lemma signed_weight_le l ks : weights_ok l → (0 ≤ signed_weight l ks ≤ total l)%Z.
Proof.
  intros Hl. split.
  - apply set_total_nonneg, Forall_forall. unfold weights_ok in Hl. rewrite Forall_forall in Hl.
    intros v [_ Hv]%list_elem_of_filter. by apply Hl.
  - apply (sumZ_filter gv_Weight). eapply Forall_impl; [exact Hl|]. by intros ? [].
Qed.

Lemma signed_weight_perm l l' ks : l ≡ₚ l' → signed_weight l ks = signed_weight l' ks.
Proof. intros Hp. unfold signed_weight. apply total_perm. by rewrite Hp. Qed.

(** The signers selected from the flattened set. *)
Lemma signers_spec l vs b :
  weights_ok l → (total l < 2 ^ 64)%Z → PublicKeyBytes <$> vs = keys l →
  Forall (λ v, stands_for l (PublicKeyBytes v) v) vs →
  let ks := select b 0 (keys l) in
  PublicKeyBytes <$> select b 0 vs = ks ∧
  pk_Serialize <$> (wv_PublicKey <$> select b 0 vs) = ks ∧
  sumZ (wv_Weight <$> select b 0 vs) = signed_weight l ks ∧
  SumWeight (select b 0 vs) = Ok (signed_weight l ks).
Proof.
  intros Hw Ht Hk Hvs ks. assert (PublicKeyBytes <$> select b 0 vs = ks) as Hs
    by (unfold ks; by rewrite <-Hk, select_fmap).
  assert (Forall (λ v, stands_for l (PublicKeyBytes v) v) (select b 0 vs)) as Hsel.
  { rewrite Forall_forall in Hvs |- *. intros v Hv. apply Hvs.
    eapply elem_of_sublist; [done|]. apply select_sublist. }
  assert (NoDup ks) as Hnd by (eapply sublist_NoDup; [apply keys_NoDup|apply select_sublist]).
  assert (wv_Weight <$> select b 0 vs = key_weight l <$> ks) as Hwt.
  { rewrite <-Hs, <-list_fmap_compose. apply Forall_fmap_ext_1.
    eapply Forall_impl; [exact Hsel|]. intros v (_ & _ & _ & Hv & _). exact Hv. }
  split; [done|]. split; [|split].
  - rewrite <-Hs, <-list_fmap_compose. apply Forall_fmap_ext_1.
    eapply Forall_impl; [exact Hsel|]. intros v (_ & Hv & _). exact Hv.
  - by rewrite Hwt, signed_weight_sum.
  - pose proof (signed_weight_le l ks Hw). rewrite SumWeight_spec.
    + by rewrite Hwt, signed_weight_sum.
    + eapply Forall_impl; [exact Hsel|]. intros v (_ & _ & _ & -> & _).
      pose proof (key_weight_le l (PublicKeyBytes v) Hw). unfold inU. lia.
    + rewrite Hwt, <-signed_weight_sum by done. lia.
Qed.

Lemma BitLen_le_iff b n :
  (0 ≤ b)%Z → (BitLen b ≤ Z.of_nat n)%Z ↔ ∀ i, Z.testbit b i = true → (i < Z.of_nat n)%Z.
Proof.
  intros Hb. split.
  - intros Hl i Hi. pose proof (testbit_BitLen b i Hb Hi). lia.
  - intros Hi. destruct (decide (b = 0%Z)) as [->|Hne];
      [unfold BitLen; rewrite bool_decide_eq_true_2 by done; lia|].
    pose proof (Hi (Z.log2 b) ltac:(apply Z.bit_log2; lia)).
    unfold BitLen. rewrite bool_decide_eq_false_2 by done. lia.
Qed.

Lemma pubkeys_unique `{!BlstLaws} (p1 p2 : list PublicKey) :
  pk_Serialize <$> p1 = pk_Serialize <$> p2 → p1 = p2.
Proof.
  intros He. assert (Inj (=) (=) pk_Serialize) by (intros ??; apply pk_Serialize_inj).
  by apply list_fmap_eq_inj in He.
Qed.

(** What [Verify] decides once the validator set is known. *)
Definition accepts (s : BitSetSignature) (msg : UnsignedMessage) (l : list GetValidatorOutput)
    (quorumNum quorumDen : Z) : Prop :=
  let b := BitsFromBytes (Signers s) in
  let ks := select b 0 (keys l) in
  (total l < 2 ^ 64)%Z ∧
  length (Bits_Bytes b) = length (Signers s) ∧
  (∀ i, Z.testbit b i = true → (i < Z.of_nat (length (keys l)))%Z) ∧
  (quorumNum * total l ≤ quorumDen * signed_weight l ks)%Z ∧
  ∃ sig pks pk, SignatureFromBytes (Signature_ s) = Ok sig ∧ pk_Serialize <$> pks = ks ∧ ks ≠ [] ∧
    pk_Aggregate pks false = Some pk ∧ bls_Verify pk sig (um_bytes msg) = true.

(** With the validator set [l], [Verify] accepts exactly then, and never panics. *)
Lemma Verify_set `{!BlstLaws} s msg net P h num den subnet l :
  bytes_ok (Signers s) → NetworkID msg = net → GetSubnetID P (SourceChainID msg) = Ok subnet →
  GetValidatorSet P h subnet = Ok l → weights_ok l →
  ∃ r, Verify s msg net P h num den = Some r ∧ (r = Ok () ↔ accepts s msg l num den).
Proof.
  intros Hok Hnet Hsub Hset Hw. unfold Verify, accepts.
  rewrite bool_decide_eq_false_2, Hsub, Hset by (by intros []).
  pose proof (FlattenValidatorSet_spec l Hw) as Hf. case_bool_decide as Ht.
  2: { rewrite Hf. eexists. split; [done|]. split; [done|]. tauto. }
  destruct Hf as (vs & -> & Hk & Hvs). set (b := BitsFromBytes (Signers s)).
  case_bool_decide as Hlen; [eexists; split; [done|]; split; [done|]; tauto|].
  rewrite FilterValidators_spec.
  assert (length vs = length (keys l)) as Hvl by (by rewrite <-Hk, length_fmap).
  pose proof (BitLen_le_iff b (length vs) (BitsFromBytes_nonneg _ Hok)) as Hbl. rewrite Hvl in *.
  case_bool_decide as Hlt.
  { eexists. split; [done|]. split; [done|]. intros (_ & _ & Hi & _). apply Hbl in Hi. lia. }
  destruct (signers_spec l vs b Hw Ht Hk Hvs) as (_ & Hpks & _ & ->). simpl.
  unfold VerifyWeight. case_bool_decide as Hq.
  { eexists. split; [done|]. split; [done|]. intros (_ & _ & _ & Hi & _). lia. }
  destruct (SignatureFromBytes (Signature_ s)) as [sig|e].
  2: { eexists. split; [done|]. split; [done|]. naive_solver. }
  set (pks := wv_PublicKey <$> select b 0 vs) in *. unfold AggregatePublicKeys. fold pks.
  assert (∀ pks', pk_Serialize <$> pks' = select b 0 (keys l) → pks' = pks) as Huniq.
  { intros pks' He. apply pubkeys_unique. by rewrite He, Hpks. }
  unfold bls_AggregatePublicKeys. case_bool_decide as Hnil.
  { eexists. split; [done|]. split; [done|]. intros (_ & _ & _ & _ & ? & ? & ? & _ & He & Hne & _).
    destruct Hne. apply Huniq in He. rewrite <-Hpks. by destruct pks. }
  destruct (pk_Aggregate pks false) as [pk|] eqn:Hagg; simpl.
  2: { eexists. split; [done|]. split; [done|].
       intros (_ & _ & _ & _ & ? & ? & ? & _ & <-%Huniq & _ & ? & _). congruence. }
  destruct (bls_Verify pk sig (um_bytes msg)) eqn:Hv; simpl; eexists; (split; [done|]).
  - split; [|done]. intros _. split_and!; [done|done|by apply Hbl; lia|lia|].
    exists sig, pks, pk. split_and!; try done. rewrite <-Hpks. by destruct pks.
  - split; [done|]. intros (_ & _ & _ & _ & ? & ? & ? & [= <-] & <-%Huniq & _ & ? & ?). congruence.
Qed.

(** ** Aggregation *)

Section aggregation.
Context (GetSignature : NodeID → UnsignedMessage → result string BLSSignature).

(** The node asked for a validator returns a signature that verifies. *)
Definition answered (msg : UnsignedMessage) (v : WarpValidator) : Prop :=
  match NodeIDs v !! 0 with
  | None => False
  | Some n => match GetSignature n msg with
              | Ok s => bls_Verify (wv_PublicKey v) s (um_bytes msg) = true
              | Err _ => False
              end
  end.

#[export] Instance answered_dec msg v : Decision (answered msg v).
Proof. unfold answered. repeat case_match; apply _. Defined.

(** What the goroutines send, by index. *)
Definition answers (k : nat) (vs : list WarpValidator) (msg : UnsignedMessage)
    : list (option signatureFetchResult) :=
  imap (λ i v, n ← NodeIDs v !! 0; fetchSignature GetSignature (k + i) v n msg) vs.

Lemma answers_cons k v vs msg :
  answers k (v :: vs) msg =
  (n ← NodeIDs v !! 0; fetchSignature GetSignature k v n msg) :: answers (S k) vs msg.
Proof.
  unfold answers. simpl. rewrite Nat.add_0_r. f_equal. apply imap_ext. intros i x _. simpl.
  by replace (k + S i) with (S (k + i)) by lia.
Qed.

Lemma startFetch_spec k vs msg :
  Forall (λ v, NodeIDs v ≠ []) vs → startFetch GetSignature k vs msg = Some (answers k vs msg).
Proof.
  intros Hvs. revert k. induction Hvs as [|v vs Hv _ IH]; intros k; [done|].
  rewrite answers_cons. simpl. destruct (NodeIDs v) as [|n ns]; [done|]. simpl. by rewrite IH.
Qed.

Lemma answers_lookup k vs msg i g :
  answers k vs msg !! i = Some (Some g) →
  ∃ v n, vs !! i = Some v ∧ NodeIDs v !! 0 = Some n ∧ GetSignature n msg = Ok (fr_sig g) ∧
    bls_Verify (wv_PublicKey v) (fr_sig g) (um_bytes msg) = true ∧
    fr_index g = k + i ∧ fr_weight g = wv_Weight v.
Proof.
  unfold answers. rewrite list_lookup_imap. destruct (vs !! i) as [v|] eqn:Hv; [|done]. simpl.
  destruct (NodeIDs v !! 0) as [n|] eqn:Hn; [|done]. simpl. unfold fetchSignature.
  destruct (GetSignature n msg) as [s|] eqn:Hs; [|done]. destruct (bls_Verify _ _ _) eqn:Hb; [|done].
  simpl. intros [= <-]. exists v, n. done.
Qed.

Lemma answers_weights k vs msg :
  fr_weight <$> omap id (answers k vs msg) = wv_Weight <$> filter (answered msg) vs.
Proof.
  revert k. induction vs as [|v vs IH]; intros k; [done|]. rewrite answers_cons, filter_cons.
  csimpl. unfold fetchSignature.
  destruct (decide (answered msg v)) as [Ha|Ha]; unfold answered in Ha;
    (destruct (NodeIDs v !! 0) as [n|]; simpl; [|try done; apply IH]);
    (destruct (GetSignature n msg) as [s|]; simpl; [|try done; apply IH]);
    (destruct (bls_Verify _ _ _); try done; csimpl; by rewrite IH).
Qed.

(** The receiving loop takes the results until their weight is enough. *)
Lemma receive_spec rs t num sigs b w :
  let gs := omap id rs in
  (0 ≤ b)%Z → (0 ≤ w)%Z → Forall (λ g, 0 ≤ fr_weight g)%Z gs →
  (w + sumZ (fr_weight <$> gs) < 2 ^ 64)%Z →
  ∃ pre suf b' flag, gs = pre ++ suf ∧
    receive rs t num sigs b w =
      Some (sigs ++ (fr_sig <$> pre), b', w + sumZ (fr_weight <$> pre), flag)%Z ∧ (0 ≤ b')%Z ∧
    (∀ j, Z.testbit b' j = true ↔ Z.testbit b j = true ∨ j ∈ (λ g, Z.of_nat (fr_index g)) <$> pre) ∧
    if flag then pre ≠ [] ∧ (num * t ≤ 100 * (w + sumZ (fr_weight <$> pre)))%Z
    else suf = [] ∧ (pre = [] ∨ (100 * (w + sumZ (fr_weight <$> pre)) < num * t)%Z).
Proof.
  simpl. revert sigs b w. induction rs as [|[r|] rs IH]; intros sigs b w Hb Hw Hgs Hsum; simpl.
  - exists [], [], b, false. csimpl. rewrite app_nil_r, Z.add_0_r. split_and!; try done; [|by left].
    intros j. rewrite elem_of_nil. tauto.
  - apply Forall_cons in Hgs as [Hr Hgs]. csimpl in *.
    assert (0 ≤ sumZ (fr_weight <$> omap id rs))%Z by (by apply sumZ_nonneg, Forall_fmap).
    destruct (Bits_Add_spec (Z.of_nat (fr_index r)) b) as (b1 & -> & Hb1 & Hbit); [lia|done|].
    simpl. rewrite wrapU_id by (unfold inU; lia). unfold VerifyWeight, WarpQuorumDenominator.
    case_bool_decide as Hq.
    + destruct (IH (sigs ++ [fr_sig r]) b1 (w + fr_weight r)%Z) as (pre & suf & b' & flag & Heq & Hrec
        & Hb' & Hbits & Hflag); [done|lia|done|lia|].
      exists (r :: pre), suf, b', flag. csimpl. rewrite Hrec, Heq, <-app_assoc. simpl.
      replace (w + fr_weight r + sumZ (fr_weight <$> pre))%Z with
        (w + (fr_weight r + sumZ (fr_weight <$> pre)))%Z in * by lia.
      split_and!; [done|done|done| |].
      * intros j. rewrite Hbits, Hbit, orb_true_iff, bool_decide_eq_true, elem_of_cons. tauto.
      * destruct flag; [naive_solver|]. destruct Hflag as [-> [->|Hlt]]; (split; [done|]); right; simpl; lia.
    + exists [r], (omap id rs), b1, true. csimpl. rewrite Z.add_0_r. split_and!; try done; [|lia].
      intros j. rewrite Hbit, orb_true_iff, bool_decide_eq_true, elem_of_cons, elem_of_nil. tauto.
  - by apply IH.
Qed.

Lemma omap_lookup_seq {A} (l : list A) : omap (λ i, l !! i) (seq 0 (length l)) = l.
Proof.
  induction l as [|x l IH]; [done|]. cbn [length seq]. csimpl. f_equal.
  rewrite <-IH at 2. rewrite <-fmap_S_seq. clear. induction (seq 0 (length l)) as [|i js IH]; [done|].
  csimpl. by rewrite IH.
Qed.

(** The results received, in whatever order, are the answers. *)
Lemma received_perm vs msg arrival :
  arrival ≡ₚ seq 0 (length vs) →
  omap id (omap (λ i, answers 0 vs msg !! i) arrival) ≡ₚ omap id (answers 0 vs msg).
Proof.
  intros ->. assert (length vs = length (answers 0 vs msg)) as -> by (unfold answers; by rewrite length_imap).
  by rewrite omap_lookup_seq.
Qed.

Lemma omap_index_sublist {A} (f : nat → option A) (idx : A → nat) js :
  (∀ i a, f i = Some a → idx a = i) → sublist (idx <$> omap f js) js.
Proof.
  intros Hf. induction js as [|i js IH]; [done|]. csimpl.
  destruct (f i) as [a|] eqn:E; csimpl; [rewrite (Hf i a E)|]; by constructor.
Qed.

Lemma Forall_choice {A B} (R : A → B → Prop) l :
  Forall (λ x, ∃ y, R x y) l → ∃ k, Forall2 R l k.
Proof.
  induction 1 as [|x l [y Hy] _ [k Hk]]; [by exists []|]. exists (y :: k). by constructor.
Qed.

(** Each result received names a validator, its weight and a signature that its key
    verifies; no validator is named twice. *)
Lemma received_spec vs msg arrival :
  arrival ≡ₚ seq 0 (length vs) →
  let gs := omap id (omap (λ i, answers 0 vs msg !! i) arrival) in
  NoDup (fr_index <$> gs) ∧
  Forall (λ g, ∃ v n, vs !! fr_index g = Some v ∧ fr_weight g = wv_Weight v ∧
                    GetSignature n msg = Ok (fr_sig g) ∧
                    bls_Verify (wv_PublicKey v) (fr_sig g) (um_bytes msg) = true) gs.
Proof.
  intros Harr gs. assert (gs = omap (λ i, mjoin (answers 0 vs msg !! i)) arrival) as Hgs.
  { unfold gs. clear. induction arrival as [|i js IH]; [done|]. csimpl.
    destruct (answers 0 vs msg !! i) as [[g|]|]; csimpl; by rewrite IH. }
  assert (∀ i g, mjoin (answers 0 vs msg !! i) = Some g → answers 0 vs msg !! i = Some (Some g)) as Hj.
  { intros i g. by destruct (answers 0 vs msg !! i) as [[]|]; simpl; intros [= ->]. }
  split.
  - rewrite Hgs. eapply sublist_NoDup; [|apply (omap_index_sublist _ fr_index)].
    + rewrite Harr. apply NoDup_seq.
    + intros i g (v & n & _ & _ & _ & _ & Hi & _)%Hj%answers_lookup. exact Hi.
  - rewrite Hgs. apply Forall_forall. intros g (i & _ & Hi)%list_elem_of_omap.
    apply Hj, answers_lookup in Hi as (v & n & Hv & _ & Hs & Hb & Hi & Hw). simpl in Hi. subst i.
    by exists v, n.
Qed.
End aggregation.

(** The keys of a flattened set are keys of its nodes. *)
Lemma flat_key `{!BlstLaws} l v :
  stands_for l (PublicKeyBytes v) v → wv_PublicKey v ∈ omap gv_PublicKey l.
Proof.
  intros (Hne & Hs & _). unfold holders in Hne. destruct (filter _ l) as [|x xs] eqn:E; [done|].
  assert (x ∈ filter (λ x, key_of x = Some (PublicKeyBytes v)) l) as [Hx Hl]%list_elem_of_filter
    by (rewrite E; left).
  apply list_elem_of_omap. exists x. split; [done|]. unfold key_of in Hx.
  destruct (gv_PublicKey x) as [pk|]; [|done]. simpl in Hx. f_equal. apply pk_Serialize_inj. congruence.
Qed.

(** Aggregates of the keys of a set are valid keys. *)
Definition aggregates_valid (l : list GetValidatorOutput) : Prop :=
  ∀ ks k, ks ≠ [] → ks ⊆ omap gv_PublicKey l → pk_Aggregate ks false = Some k → KeyValidate k = true.

(** The bit set of the results received selects their validators. *)
Lemma collected_select (vs : list WarpValidator) pre vsel b :
  NoDup (fr_index <$> pre) → Forall2 (λ g v, vs !! fr_index g = Some v) pre vsel → (0 ≤ b)%Z →
  (∀ j, Z.testbit b j = true ↔ j ∈ (λ g, Z.of_nat (fr_index g)) <$> pre) →
  select b 0 vs ≡ₚ vsel ∧ (BitLen b ≤ Z.of_nat (length vs))%Z.
Proof.
  intros Hnd Hsel Hb Hbits. assert (length (fr_index <$> pre) = length vsel) as Hlen
    by (rewrite length_fmap; by eapply Forall2_length).
  split.
  - rewrite <-(snd_zip (fr_index <$> pre) vsel) by lia. apply select_indices.
    + by rewrite fst_zip by lia.
    + intros k. rewrite fst_zip, Hbits, !list_elem_of_fmap by lia. split.
      * intros (g & Hg & Hin). exists g. split; [lia|done].
      * intros (g & -> & Hin). by exists g.
    + clear -Hsel. induction Hsel as [|g v pre vsel Hv _ IH]; csimpl; constructor; done.
  - apply BitLen_le_iff; [done|]. intros j Hj%Hbits. apply list_elem_of_fmap in Hj as (g & -> & Hg).
    apply list_elem_of_lookup in Hg as [k Hg].
    destruct (Forall2_lookup_l _ _ _ _ _ Hsel Hg) as (v & _ & Hv%lookup_lt_Some). lia.
Qed.

(** A signature put together from verified signatures of different validators with
    enough weight is accepted. *)
Lemma collected_accepts `{!BlstLaws} l vs msg num pre b :
  weights_ok l → (total l < 2 ^ 64)%Z → PublicKeyBytes <$> vs = keys l →
  Forall (λ v, stands_for l (PublicKeyBytes v) v) vs → aggregates_valid l →
  NoDup (fr_index <$> pre) → pre ≠ [] →
  Forall (λ g, ∃ v, vs !! fr_index g = Some v ∧ fr_weight g = wv_Weight v ∧
                    SigValidate (fr_sig g) false = true ∧
                    bls_Verify (wv_PublicKey v) (fr_sig g) (um_bytes msg) = true) pre →
  (0 ≤ b)%Z → (∀ j, Z.testbit b j = true ↔ j ∈ (λ g, Z.of_nat (fr_index g)) <$> pre) →
  (num * total l ≤ 100 * sumZ (fr_weight <$> pre))%Z →
  ∃ agg, bls_AggregateSignatures (fr_sig <$> pre) = Ok agg ∧ SigValidate agg false = true ∧
    (BitLen b ≤ Z.of_nat (length vs))%Z ∧
    accepts (mkBitSetSignature (Bits_Bytes b) (sig_Compress agg)) msg l num 100.
Proof.
  intros Hw Ht Hk Hvs Hagg Hnd Hne Hpre Hb Hbits Hq.
  apply Forall_choice in Hpre as [vsel Hsel].
  destruct (collected_select vs pre vsel b) as [Hperm Hbl]; [done| |done|done|].
  { eapply Forall2_impl; [exact Hsel|]. by intros g v [Hv _]. }
  assert (fr_sig <$> pre ≠ []) as Hsne by (by destruct pre).
  destruct (sig_Aggregate_total (fr_sig <$> pre) Hsne) as [agg Hags]. exists agg.
  assert (SigValidate agg false = true) as Hval.
  { eapply sig_Aggregate_valid; [|exact Hags]. apply Forall_fmap.
    clear -Hsel. induction Hsel as [|g v pre vsel (_ & _ & Hv & _) _ IH]; constructor; done. }
  destruct (sig_Uncompress_Compress agg Hval) as (Hunc & _ & _).
  destruct (signers_spec l vs b Hw Ht Hk Hvs) as (Hks & Hpks & Hwt & _).
  split. { unfold bls_AggregateSignatures. rewrite bool_decide_eq_false_2 by (by destruct pre). by rewrite Hags. }
  split; [done|]. split; [done|]. unfold accepts. cbn [Signers Signature_].
  rewrite BitsFromBytes_Bytes by done. split; [done|]. split; [done|]. split.
  { rewrite <-Hk, length_fmap. by apply BitLen_le_iff. }
  assert (wv_Weight <$> vsel = fr_weight <$> pre) as Hwsel.
  { clear -Hsel. induction Hsel as [|g v pre vsel (_ & Hv & _) _ IH]; csimpl; [done|]. by rewrite IH, Hv. }
  split. { rewrite <-Hwt, Hperm, Hwsel. done. }
  assert (wv_PublicKey <$> select b 0 vs ≠ []) as Hpne.
  { intros Hnil%fmap_nil_inv. rewrite Hnil in Hperm. apply Permutation_nil_l in Hperm. subst vsel.
    by destruct pre. }
  destruct (pk_Aggregate_total _ Hpne) as [pk Hpk]. exists agg, (wv_PublicKey <$> select b 0 vs), pk.
  split. { unfold SignatureFromBytes. by rewrite Hunc, Hval. }
  split; [done|]. split. { rewrite <-Hpks. by intros ?%fmap_nil_inv. }
  split; [done|]. unfold bls_Verify.
  eapply sig_Verify_aggregate; [|rewrite <-Hpk; by apply pk_Aggregate_perm, Permutation_map; symmetry
    |exact Hags|].
  - clear -Hsel. induction Hsel as [|g v pre vsel (_ & _ & _ & Hv) _ IH]; csimpl; constructor; done.
  - eapply Hagg; [exact Hpne| |exact Hpk]. intros k (v & -> & Hv)%list_elem_of_fmap.
    apply flat_key. rewrite Forall_forall in Hvs. apply Hvs.
    eapply elem_of_sublist; [done|]. apply select_sublist.
Qed.
End verify.

(** ** Properties *)

(** C10: what a warp signature proves.  [Verify] never panics, and accepts exactly if:
    the message is of the network; the P-chain gives a validator set with a total
    weight of 64 bits; the signers' bytes have no leading zeros and name no
    validator that does not exist; the nodes whose key is signed for have at
    least [quorumNum]/[quorumDen] of the total weight (as integers, without
    overflow); and the signature parses and verifies under the aggregate of these
    keys.  The keys are numbered by sorting the different keys of the set. *)
Theorem verify_accepts_iff `{!Blst, !BlstLaws} (s : BitSetSignature) (msg : UnsignedMessage)
    (net : Z) (P : PChainState) (h num den : Z)
    (Hok : bytes_ok (Signers s))
    (Hw : ∀ subnet l, GetValidatorSet P h subnet = Ok l → weights_ok l) :
  ∃ r, Verify s msg net P h num den = Some r ∧
    (r = Ok () ↔
       NetworkID msg = net ∧
       ∃ subnet l, GetSubnetID P (SourceChainID msg) = Ok subnet ∧
         GetValidatorSet P h subnet = Ok l ∧
         let b := BitsFromBytes (Signers s) in
         let ks := select b 0 (keys l) in
         (total l < 2 ^ 64)%Z ∧ length (Bits_Bytes b) = length (Signers s) ∧
         (∀ i, Z.testbit b i = true → (i < Z.of_nat (length (keys l)))%Z) ∧
         (num * total l ≤ den * signed_weight l ks)%Z ∧
         ∃ sig pks pk, SignatureFromBytes (Signature_ s) = Ok sig ∧
           pk_Serialize <$> pks = ks ∧ ks ≠ [] ∧ pk_Aggregate pks false = Some pk ∧
           bls_Verify pk sig (um_bytes msg) = true).
Proof.
  destruct (decide (NetworkID msg = net)) as [Hnet|Hnet].
  2: { eexists. split; [unfold Verify; by rewrite bool_decide_eq_true_2|]. split; [done|naive_solver]. }
  destruct (GetSubnetID P (SourceChainID msg)) as [subnet|e] eqn:Hsub.
  2: { eexists. split; [unfold Verify; by rewrite bool_decide_eq_false_2, Hsub by (by intros [])|].
       split; [done|naive_solver]. }
  destruct (GetValidatorSet P h subnet) as [l|e] eqn:Hset.
  2: { eexists. split; [unfold Verify; by rewrite bool_decide_eq_false_2, Hsub, Hset by (by intros [])|].
       split; [done|]. intros (_ & ? & ? & [= <-] & ? & _). congruence. }
  destruct (Verify_set s msg net P h num den subnet l Hok Hnet Hsub Hset (Hw _ _ Hset))
    as (r & Hr & Hiff).
  exists r. split; [exact Hr|]. rewrite Hiff. unfold accepts. split.
  - intros Ha. split; [done|]. by exists subnet, l.
  - intros (_ & ? & l' & [= <-] & Hset' & Ha). assert (l' = l) as -> by congruence. exact Ha.
Qed.

(** ** Collecting *)

Lemma length_omap_le {A B} (f : A → option B) l : length (omap f l) ≤ length l.
Proof. induction l as [|x l IH]; csimpl; [done|]. destruct (f x); csimpl; lia. Qed.

Lemma length_keys_le `{!Blst} l : length (keys l) ≤ length l.
Proof.
  etrans; [|apply (length_omap_le key_of)]. apply submseteq_length, NoDup_submseteq; [apply keys_NoDup|].
  intros k. unfold keys. by rewrite merge_sort_Permutation, elem_of_remove_dups.
Qed.

Lemma Bits_Bytes_slice b n : (BitLen b ≤ n ≤ MaxInt32)%Z → slice_ok (Bits_Bytes b).
Proof.
  intros Hn. split; [apply Bits_Bytes_ok|]. unfold Bits_Bytes. rewrite be_encode_length.
  pose proof (BitLen_nonneg b). rewrite Z2Nat.id by (apply Z.div_pos; lia).
  apply Z.div_le_upper_bound; [lia|]. unfold MaxInt32 in *. lia.
Qed.

Section collecting.
Context `{!Blst, !BlstLaws} (GetSignature : NodeID → UnsignedMessage → result string BLSSignature).
Context (l : list GetValidatorOutput) (vs : list WarpValidator) (arrival : list nat).
Context (msg : UnsignedMessage).
Context (Hw : weights_ok l) (Ht : (total l < 2 ^ 64)%Z).
Context (Hk : PublicKeyBytes <$> vs = keys l).
Context (Hvs : Forall (λ v, stands_for l (PublicKeyBytes v) v) vs).
Context (Harr : arrival ≡ₚ seq 0 (length vs)).

Let good : list WarpValidator := filter (answered GetSignature msg) vs.
Let received : list (option signatureFetchResult) :=
  omap (λ i, answers GetSignature 0 vs msg !! i) arrival.
Let gs : list signatureFetchResult := omap id received.

Lemma flat_weight v : v ∈ vs → inU 64 (wv_Weight v).
Proof.
  rewrite Forall_forall in Hvs. intros (_ & _ & _ & -> & _)%Hvs.
  pose proof (key_weight_le l (PublicKeyBytes v) Hw). unfold inU. lia.
Qed.

Lemma good_weight : (0 ≤ sumZ (wv_Weight <$> good) ≤ total l)%Z.
Proof.
  split.
  - apply sumZ_nonneg, Forall_fmap, Forall_forall. intros v [_ [Hv _]%flat_weight]%list_elem_of_filter.
    done.
  - etrans; [apply sumZ_filter, Forall_forall; by intros v [Hv _]%flat_weight|].
    pose proof (signed_weight_le l (keys l) Hw) as Hs. rewrite signed_weight_sum in Hs by apply keys_NoDup.
    replace (wv_Weight <$> vs) with (key_weight l <$> keys l); [lia|].
    rewrite <-Hk, <-list_fmap_compose. symmetry. apply Forall_fmap_ext_1.
    eapply Forall_impl; [exact Hvs|]. by intros v (_ & _ & _ & ? & _).
Qed.

Lemma received_weights : fr_weight <$> gs ≡ₚ wv_Weight <$> good.
Proof.
  unfold gs, good. rewrite <-(answers_weights GetSignature 0).
  by apply Permutation_map, received_perm.
Qed.

Lemma received_nil : gs = [] ↔ good = [].
Proof.
  pose proof received_weights as Hp. apply Permutation_length in Hp. rewrite !length_fmap in Hp.
  split; intros He; rewrite He in Hp; by apply nil_length_inv.
Qed.

Lemma received_pos : Forall (λ g, 0 ≤ fr_weight g)%Z gs.
Proof.
  destruct (received_spec GetSignature vs msg arrival Harr) as [_ Hgs].
  eapply Forall_impl; [exact Hgs|]. intros g (v & n & Hv%list_elem_of_lookup_2 & -> & _).
  by apply flat_weight in Hv as [? _].
Qed.

Lemma nodes_nonempty : Forall (λ v, NodeIDs v ≠ []) vs.
Proof.
  eapply Forall_impl; [exact Hvs|]. intros v (Hne & _ & _ & _ & ->). by intros ?%fmap_nil_inv.
Qed.

(** The results taken are a part of the good answers, of enough weight exactly if
    all of them have it. *)
Lemma collecting_spec num :
  ∃ pre b flag,
    receive received (total l) num [] 0 0 =
      Some (fr_sig <$> pre, b, sumZ (fr_weight <$> pre), flag) ∧
    (sumZ (fr_weight <$> pre) ≤ sumZ (wv_Weight <$> good))%Z ∧ (0 ≤ b)%Z ∧
    (∀ j, Z.testbit b j = true ↔ j ∈ (λ g, Z.of_nat (fr_index g)) <$> pre) ∧
    NoDup (fr_index <$> pre) ∧ (∀ g, g ∈ pre → g ∈ gs) ∧
    flag = bool_decide (good ≠ [] ∧ (num * total l ≤ 100 * sumZ (wv_Weight <$> good))%Z) ∧
    (flag = true → pre ≠ [] ∧ (num * total l ≤ 100 * sumZ (fr_weight <$> pre))%Z).
Proof.
  destruct (received_spec GetSignature vs msg arrival Harr) as [Hnd _].
  pose proof good_weight as Hgw. pose proof received_pos as Hpos.
  destruct (receive_spec received (total l) num [] 0 0)
    as (pre & suf & b & flag & Hpre & Hrec & Hb & Hbits & Hflag);
    [done|done|done|fold gs; rewrite received_weights; lia|].
  fold gs in Hpre. fold received gs in Hnd.
  assert (sumZ (wv_Weight <$> good) = sumZ (fr_weight <$> pre) + sumZ (fr_weight <$> suf))%Z
    as Hsplit by (by rewrite <-received_weights, Hpre, fmap_app, sumZ_app).
  pose proof received_nil as Hnil. rewrite Hpre in Hnil, Hnd, Hpos.
  apply Forall_app in Hpos as [_ Hpos]. rewrite fmap_app, NoDup_app in Hnd.
  assert (0 ≤ sumZ (fr_weight <$> suf))%Z by (by apply sumZ_nonneg, Forall_fmap).
  exists pre, b, flag. split_and!; [exact Hrec|lia|done| |apply Hnd| | |].
  - intros j. rewrite Hbits, Z.bits_0. naive_solver.
  - intros g Hg. rewrite Hpre. apply elem_of_app. by left.
  - symmetry. destruct flag; destruct Hflag as [Hne Hq].
    + apply bool_decide_eq_true. split; [|lia]. intros Hg%Hnil. by apply app_nil in Hg as [-> _].
    + apply bool_decide_eq_false. subst suf. rewrite app_nil_r in Hnil. intros [Hg Hle].
      simpl in Hsplit. destruct Hq as [->|Hlt]; [naive_solver|lia].
  - intros ->. destruct Hflag as [Hne Hq]. split; [done|lia].
Qed.

Lemma AggregateSignatures_spec grow num :
  (Z.of_nat (length l) ≤ MaxInt32)%Z → unsigned_ok msg → bytes_ok (um_bytes msg) →
  bytes_ok (um_id msg) → (∀ n s, GetSignature n msg = Ok s → SigValidate s false = true) →
  aggregates_valid l →
  ∃ r, AggregateSignatures GetSignature grow vs (total l) arrival msg num = Some r ∧
    if bool_decide (good ≠ [] ∧ (num * total l ≤ 100 * sumZ (wv_Weight <$> good))%Z)
    then ∃ s b w, r = Ok (mkAggregateSignatureResult w (total l) (mkMessage msg (Some s) b)) ∧
           (w ≤ sumZ (wv_Weight <$> good))%Z ∧ sig_ok s ∧
           b = 0%Z :: 0%Z :: um_enc msg ++ be_encode 4 0 ++ sig_enc s ∧ accepts s msg l num 100
    else r = Err ErrInsufficientWeight.
Proof.
  intros Hl Hm Hb Hi Hsig Hagg. unfold AggregateSignatures.
  rewrite startFetch_spec by apply nodes_nonempty. cbn [mbind option_bind]. fold received.
  destruct (collecting_spec num) as (pre & b & flag & -> & Hwle & Hb' & Hbits & Hnd & Hin & <- & Hq).
  destruct flag; [|by eexists]. destruct Hq as [Hne Hq]; [done|].
  destruct (received_spec GetSignature vs msg arrival Harr) as [_ Hgs]. fold received gs in Hgs.
  destruct (collected_accepts l vs msg num pre b) as (agg & Hags & Hval & Hbl & Hacc); try done.
  { rewrite Forall_forall in Hgs |- *. intros g Hg%Hin. apply Hgs in Hg as (v & n & ? & ? & Hs & ?).
    exists v. split_and!; try done. by eapply Hsig. }
  rewrite Hags. destruct (sig_Uncompress_Compress agg Hval) as (_ & Hcb & Hcl).
  assert (copy_array SignatureLen (SignatureToBytes agg) = sig_Compress agg) as ->.
  { unfold copy_array, SignatureToBytes. rewrite <-Hcl. by rewrite take_app_length. }
  assert (length vs ≤ length l) as Hvl by (rewrite <-(length_fmap PublicKeyBytes), Hk; apply length_keys_le).
  assert (sig_ok (mkBitSetSignature (Bits_Bytes b) (sig_Compress agg))) as Hsok
    by (split; [apply (Bits_Bytes_slice b (Z.of_nat (length vs))); lia|done..]).
  rewrite NewMessage_ok by done. eexists. split; [done|]. do 3 eexists. by split_and!.
Qed.
End collecting.

(** C11: what is aggregated is accepted.  For a validator set of a 64-bit total weight,
    whatever order the set is visited in and the answers arrive in,
    [AggregateSignatures] returns a message exactly if some validator answered with
    a signature its key verifies, and those that did have the quorum; otherwise
    it returns [ErrInsufficientWeight].  The signature of the message is then
    accepted by [Verify] for that message and quorum, with the same set visited in
    any order.  The client only returns valid signatures, and aggregates of the
    set's keys are valid keys. *)
Theorem aggregate_then_verify `{!Blst, !BlstLaws} (grow : nat → nat)
    (GetSignature : NodeID → UnsignedMessage → result string BLSSignature)
    (l : list GetValidatorOutput) (arrival : list nat) (msg : UnsignedMessage) (num : Z)
    (Hw : weights_ok l) (Ht : (total l < 2 ^ 64)%Z) (Hl : (Z.of_nat (length l) ≤ MaxInt32)%Z)
    (Harr : arrival ≡ₚ seq 0 (length (keys l)))
    (Hm : unsigned_ok msg) (Hb : bytes_ok (um_bytes msg)) (Hi : bytes_ok (um_id msg))
    (Hsig : ∀ n s, GetSignature n msg = Ok s → SigValidate s false = true)
    (Hkeys : aggregates_valid l) :
  ∃ vs r, FlattenValidatorSet l = Ok (vs, total l) ∧
    AggregateSignatures GetSignature grow vs (total l) arrival msg num = Some r ∧
    let good := filter (answered GetSignature msg) vs in
    ((∃ a, r = Ok a) ↔ good ≠ [] ∧ (num * total l ≤ 100 * sumZ (wv_Weight <$> good))%Z) ∧
    (∀ e, r = Err e → e = ErrInsufficientWeight) ∧
    ∀ a, r = Ok a → m_Unsigned (ar_Message a) = msg ∧
      ∃ s, m_Signature (ar_Message a) = Some s ∧
        ∀ P h subnet l', GetSubnetID P (SourceChainID msg) = Ok subnet →
          GetValidatorSet P h subnet = Ok l' → l' ≡ₚ l →
          Verify s msg (NetworkID msg) P h num WarpQuorumDenominator = Some (Ok ()).
Proof.
  pose proof (FlattenValidatorSet_spec l Hw) as Hf. rewrite bool_decide_eq_true_2 in Hf by done.
  destruct Hf as (vs & Hf & Hk & Hvs). rewrite <-Hk, length_fmap in Harr.
  destruct (AggregateSignatures_spec GetSignature l vs arrival msg Hw Ht Hk Hvs Harr grow num
    Hl Hm Hb Hi Hsig Hkeys) as (r & Hr & Hcase).
  exists vs, r. split; [done|]. split; [done|]. simpl. revert Hcase. case_bool_decide as Hq.
  2: { intros ->. split; [split; [by intros []|tauto]|]. split; [by intros e [= <-]|done]. }
  intros (s & b & w & -> & _ & [[Hs _] _ _] & _ & Hacc). split; [split; [tauto|eauto]|]. split; [done|].
  intros a [= <-]. split; [done|]. exists s. split; [done|]. intros P h subnet l' Hsub Hset Hp.
  assert (weights_ok l') as Hw' by (unfold weights_ok; by rewrite Hp).
  destruct (Verify_set s msg _ P h num 100 subnet l' Hs eq_refl Hsub Hset Hw') as (r & Hv & Hiff).
  change WarpQuorumDenominator with 100%Z. rewrite Hv. f_equal. apply Hiff. revert Hacc. unfold accepts.
  by rewrite (keys_perm l' l Hp), (total_perm l' l Hp), (signed_weight_perm l' l _ Hp).
Qed.

(** C12: the numbering of validators is canonical.  [FlattenValidatorSet] overflows
    exactly if the total weight does not fit 64 bits; otherwise it returns one
    validator per different key, sorted by key, with the weight of all nodes of the
    key, and the total weight (also of nodes without a key); and visiting the set in
    another order gives the same list, but for the order of the nodes of a key. *)
Theorem flatten_canonical `{!Blst, !BlstLaws} (l l' : list GetValidatorOutput)
    (Hw : weights_ok l) (Hp : l' ≡ₚ l) :
  if bool_decide (total l < 2 ^ 64)%Z
  then ∃ vs vs', FlattenValidatorSet l = Ok (vs, total l) ∧ PublicKeyBytes <$> vs = keys l ∧
         Forall (λ v, stands_for l (PublicKeyBytes v) v) vs ∧
         FlattenValidatorSet l' = Ok (vs', total l) ∧ Forall2 same_validator vs vs'
  else FlattenValidatorSet l = Err ErrWeightOverflow ∧ FlattenValidatorSet l' = Err ErrWeightOverflow.
Proof.
  assert (weights_ok l') as Hw' by (unfold weights_ok; by rewrite Hp).
  pose proof (FlattenValidatorSet_spec l Hw) as Hf. pose proof (FlattenValidatorSet_spec l' Hw') as Hf'.
  rewrite (total_perm l' l Hp), (keys_perm l' l Hp) in Hf'. case_bool_decide; [|done].
  destruct Hf as (vs & ? & Hk & Hvs), Hf' as (vs' & ? & Hk' & Hvs').
  exists vs, vs'. split_and!; try done.
  eapply stands_for_same; [by symmetry|congruence|done|done].
Qed.
