(* ===== verification/WarpConcrete.v ===== *)
(** * Warp signatures on concrete inputs

    A toy instance of [Blst] (keys are positive integers, the signature of a message
    is the key times the message modulo 2^768, aggregation is addition) that has
    the laws of [BlstLaws], and a validator set to evaluate the definitions on. *)

From S2P Require Import Prelude SafeMath Codec Bits WarpMessage WarpMessageProps WarpSignature WarpSignatureProps WarpVerify.

Definition toy_modulus : Z := 2 ^ 768.

#[export] Instance toy_Blst : Blst := {|
  PublicKey := Z;
  BLSSignature := Z;
  pk_Serialize k := [k];
  KeyValidate k := bool_decide (0 < k)%Z;
  sig_Compress s := be_encode 96 s;
  sig_Uncompress bs := if bool_decide (length bs = 96) then Some (be_decode bs) else None;
  SigValidate s _ := bool_decide (inU 768 s);
  sig_Verify s _ k _ msg _ :=
    bool_decide (s = (k * be_decode msg) `mod` toy_modulus)%Z && bool_decide (0 < k)%Z;
  pk_Aggregate ks _ := Some (sumZ ks);
  sig_Aggregate ss _ := Some (sumZ ss `mod` toy_modulus)%Z;
|}.

Lemma toy_aggregate ks ss h :
  Forall2 (λ k s : Z, s = (k * h) `mod` toy_modulus)%Z ks ss →
  (sumZ ss `mod` toy_modulus = (sumZ ks * h) `mod` toy_modulus)%Z.
Proof.
  induction 1 as [|k s ks ss -> _ IH]; [done|]. simpl.
  rewrite Z.mul_add_distr_r, Z.add_mod_idemp_l by done.
  by rewrite <-Z.add_mod_idemp_r, IH, Z.add_mod_idemp_r by done.
Qed.

Lemma toy_valid s : bool_decide (inU 768 s) = true ↔ (0 ≤ s < toy_modulus)%Z.
Proof. apply bool_decide_eq_true. Qed.

Lemma toy_mod_valid x : bool_decide (inU 768 (x `mod` toy_modulus)) = true.
Proof. apply toy_valid, Z.mod_pos_bound. unfold toy_modulus. apply Z.pow_pos_nonneg; lia. Qed.

Lemma toy_compress s :
  bool_decide (inU 768 s) = true →
  (if bool_decide (length (be_encode 96 s) = 96) then Some (be_decode (be_encode 96 s)) else None) = Some s ∧
  bytes_ok (be_encode 96 s) ∧ length (be_encode 96 s) = SignatureLen.
Proof.
  intros Hs%bool_decide_eq_true. rewrite be_encode_length, bool_decide_eq_true_2 by done.
  rewrite be_decode_encode by exact Hs. split_and!; [done|apply be_encode_ok|done].
Qed.

#[export] Instance toy_laws : BlstLaws.
Proof.
  split.
  - by intros k1 k2 [= ->].
  - exact toy_compress.
  - intros ks _. eexists. reflexivity.
  - intros ks ks' Hp. cbn [pk_Aggregate toy_Blst]. by rewrite Hp.
  - intros ss _. eexists. reflexivity.
  - intros ss s _ [= <-]. apply toy_mod_valid.
  - intros ks ss k s msg dst Hall [= <-] [= <-] Hk. cbn [sig_Verify KeyValidate toy_Blst] in *.
    rewrite Hk, andb_true_r. apply bool_decide_eq_true, toy_aggregate.
    eapply Forall2_impl; [exact Hall|]. by intros ? ? [?%bool_decide_eq_true _]%andb_true_iff.
Qed.

(** Four nodes: two share a key, one has none.  The first node of the shared key
    answers, the second key's node does not. *)
Definition wnode (i : Z) : NodeID := replicate 20 i.
Definition demo_set : list GetValidatorOutput :=
  [mkGetValidatorOutput (wnode 1) (Some 5%Z) 10; mkGetValidatorOutput (wnode 2) (Some 3%Z) 20;
   mkGetValidatorOutput (wnode 3) (Some 5%Z) 30; mkGetValidatorOutput (wnode 4) None 5].
Definition demo_msg : UnsignedMessage :=
  initialized demo_sha256 (mkUnsigned 10 demo_chain demo_payload [] []).
Definition demo_GetSignature (n : NodeID) (m : UnsignedMessage) : result string BLSSignature :=
  if bool_decide (n = wnode 1) then Ok ((5 * be_decode (um_bytes m)) `mod` toy_modulus)%Z
  else Err "no answer"%string.

Lemma demo_GetSignature_valid n m s : demo_GetSignature n m = Ok s → SigValidate s false = true.
Proof.
  unfold demo_GetSignature. case_bool_decide; [|done]. intros [= <-]. apply toy_mod_valid.
Qed.

Lemma demo_weights : weights_ok demo_set.
Proof. repeat constructor; done. Qed.

Lemma demo_msg_ok : unsigned_ok demo_msg ∧ bytes_ok (um_bytes demo_msg) ∧ bytes_ok (um_id demo_msg).
Proof.
  assert (unsigned_ok (mkUnsigned 10 demo_chain demo_payload [] [])) as Hu
    by (split; [exact demo_net_ok|exact demo_chain_ok|exact demo_payload_ok]).
  split; [by apply initialized_ok|]. destruct (initialized_bytes_ok demo_sha256 demo_sha256_ok _ Hu)
    as [Hb [Hi _]]. split; [exact Hb|exact Hi].
Qed.

Lemma demo_keys_valid : aggregates_valid demo_set.
Proof.
  intros ks k Hne Hsub [= <-]. apply bool_decide_eq_true.
  assert (Forall (λ x, 0 < x)%Z ks) as Hpos.
  { apply Forall_forall. intros x Hx%Hsub. simpl in Hx.
    repeat (apply elem_of_cons in Hx as [->|Hx]; [lia|]). by apply elem_of_nil in Hx. }
  destruct Hpos as [|x ks Hx Hpos]; [done|]. simpl.
  assert (0 ≤ sumZ ks)%Z by (apply sumZ_nonneg; eapply Forall_impl; [exact Hpos|]; simpl; lia). lia.
Qed.

Lemma aggregate_then_verify_witness :
  ∃ vs a, FlattenValidatorSet demo_set = Ok (vs, 65%Z) ∧
    AggregateSignatures demo_GetSignature (λ n, n) vs 65 [1; 0] demo_msg 60 = Some (Ok a) ∧
    ∃ s, m_Signature (ar_Message a) = Some s ∧
      Verify s demo_msg 10 (mkPChainState (λ c, Ok c) (λ _ _, Ok (rev demo_set))) 0 60 100 = Some (Ok ()).
Proof.
  destruct demo_msg_ok as (Hm & Hb & Hi).
  destruct (aggregate_then_verify (λ n, n) demo_GetSignature demo_set [1; 0] demo_msg 60 demo_weights
    ltac:(vm_compute; reflexivity) ltac:(vm_compute; discriminate)
    ltac:(vm_compute; apply Permutation_swap) Hm Hb Hi) as (vs & r & Hf & Hr & Hiff & _ & Hok).
  - intros n s. apply demo_GetSignature_valid.
  - exact demo_keys_valid.
  - change (total demo_set) with 65%Z in *. exists vs.
    assert (AggregateSignatures demo_GetSignature (λ n, n)
      (match FlattenValidatorSet demo_set with Ok p => p.1 | Err _ => [] end) 65 [1; 0] demo_msg 60
      ≫= (λ r, Some (is_ok r)) = Some true) as Hgood by (vm_compute; reflexivity).
    rewrite Hf in Hgood. simpl in Hgood. rewrite Hr in Hgood. simpl in Hgood.
    destruct r as [a|e]; [|done]. exists a. split; [exact Hf|]. split; [exact Hr|].
    destruct (Hok a eq_refl) as (_ & s & Hs & Hv). exists s. split; [exact Hs|].
    apply (Hv _ _ demo_chain (rev demo_set)); [done|done|]. symmetry. apply Permutation_rev.
Defined.

Lemma flatten_canonical_witness :
  ∃ vs vs', FlattenValidatorSet demo_set = Ok (vs, 65%Z) ∧
    FlattenValidatorSet (rev demo_set) = Ok (vs', 65%Z) ∧ Forall2 same_validator vs vs'.
Proof.
  pose proof (flatten_canonical demo_set (rev demo_set) demo_weights
    ltac:(symmetry; apply Permutation_rev)) as Hf.
  rewrite bool_decide_eq_true_2 in Hf by done.
  destruct Hf as (vs & vs' & H1 & _ & _ & H2 & H3). exists vs, vs'.
  split; [exact H1|]. split; [exact H2|exact H3].
Defined.

Lemma verify_accepts_iff_witness :
  ∃ r, Verify (mkBitSetSignature [2%Z] (be_encode 96 ((5 * be_decode (um_bytes demo_msg)) `mod` toy_modulus)))
         demo_msg 10 (mkPChainState (λ c, Ok c) (λ _ _, Ok demo_set)) 0 60 100 = Some r ∧ r = Ok ().
Proof.
  set (s := mkBitSetSignature _ _). set (P := mkPChainState _ _).
  destruct (verify_accepts_iff s demo_msg 10 P 0 60 100) as (r & Hr & _).
  - by repeat constructor.
  - intros subnet l [= <-]. exact demo_weights.
  - exists r. split; [exact Hr|].
    assert (Verify s demo_msg 10 P 0 60 100 = Some (Ok ())) as Hv by (vm_compute; reflexivity). congruence.
Defined.
