(* ===== verification/Database.v ===== *)
(** * The database client (src/database)

    [Database], [Batch] and [Iterator] speak to a remote key-value server.
    The server is a parameter: the class [DatabaseClient] for requests and
    responses, and for an iterator the batches of entries the server sends.
    The goroutine [fetch] hands these batches over an unbuffered channel, one
    per receive, and closes it after the last; the model keeps the batches
    not received yet. *)

From S2P Require Import Prelude.

Inductive db_err := ErrClosed | ErrNotFound.

#[export] Instance db_err_eq : EqDecision db_err.
Proof. solve_decision. Defined.

Inductive rpcError := ERROR_UNSPECIFIED | ERROR_CLOSED | ERROR_NOT_FOUND.

(** A missing key and a nil entry of the map both are a nil error. *)
Definition ErrEnumToError (e : rpcError) : option db_err :=
  match e with
  | ERROR_CLOSED => Some ErrClosed
  | ERROR_NOT_FOUND => None
  | ERROR_UNSPECIFIED => None
  end.

(** ** Batches *)

Record BatchOp := mkBatchOp { op_Key : list Z; op_Value : list Z; op_Delete : bool }.
Record Batch := mkBatch { Ops : list BatchOp; batch_size : Z }.
Record WriteBatchRequest := mkWriteBatchRequest {
  Puts : list (list Z * list Z);
  Deletes : list (list Z);
}.

Definition NewBatch : Batch := mkBatch [] 0.

Definition Batch_Set (key value : list Z) (b : Batch) : Batch :=
  mkBatch (Ops b ++ [mkBatchOp key value false])
    (batch_size b + Z.of_nat (length key + length value)).

Definition Batch_Delete (key : list Z) (b : Batch) : Batch :=
  mkBatch (Ops b ++ [mkBatchOp key [] true]) (batch_size b + Z.of_nat (length key)).

(** The loop of [Write], from the last operation to the first; [keySet] holds
    the keys already seen. *)
Fixpoint write_loop (ops : list BatchOp) (keySet : gset (list Z)) (req : WriteBatchRequest)
    : WriteBatchRequest :=
  match ops with
  | [] => req
  | op :: ops' =>
      if bool_decide (op_Key op ∈ keySet) then write_loop ops' keySet req
      else
        write_loop ops' ({[op_Key op]} ∪ keySet)
          (if op_Delete op
           then mkWriteBatchRequest (Puts req) (Deletes req ++ [op_Key op])
           else mkWriteBatchRequest (Puts req ++ [(op_Key op, op_Value op)]) (Deletes req))
  end.

Definition batch_request (b : Batch) : WriteBatchRequest :=
  write_loop (rev (Ops b)) ∅ (mkWriteBatchRequest [] []).

(** ** Requests *)

Class DatabaseClient (W : Type) := {
  client_Close : W → result string rpcError * W;
  client_Has : list Z → W → result string (bool * rpcError) * W;
  client_Get : list Z → W → result string (list Z * rpcError) * W;
  client_Put : list Z → list Z → W → result string rpcError * W;
  client_Delete : list Z → W → result string rpcError * W;
  client_WriteBatch : WriteBatchRequest → W → result string rpcError * W;
}.

(** An error of a call: of the transport, or of the database. *)
Inductive call_err := ERpc (s : string) | EDb (e : db_err).

Section database.
Context {W : Type} `{!DatabaseClient W}.

(** [if err != nil { return err }; return ErrEnumToError[resp.Err]] *)
Definition finish (r : result string rpcError) : result call_err () :=
  match r with
  | Err e => Err (ERpc e)
  | Ok e => match ErrEnumToError e with Some x => Err (EDb x) | None => Ok () end
  end.

(** [closed] is the flag of the client. *)
Definition Close (w : W) : result call_err () * bool * W :=
  let '(r, w) := client_Close w in (finish r, true, w).
Definition Set_ (key value : list Z) (w : W) : result call_err () * W :=
  let '(r, w) := client_Put key value w in (finish r, w).
Definition Delete (key : list Z) (w : W) : result call_err () * W :=
  let '(r, w) := client_Delete key w in (finish r, w).

(** [Has] and [Get] return the value together with the error. *)
Definition Has (key : list Z) (w : W) : (bool * option call_err) * W :=
  let '(r, w) := client_Has key w in
  (match r with
   | Err e => (false, Some (ERpc e))
   | Ok (b, e) => (b, EDb <$> ErrEnumToError e)
   end, w).
Definition Get (key : list Z) (w : W) : (list Z * option call_err) * W :=
  let '(r, w) := client_Get key w in
  (match r with
   | Err e => ([], Some (ERpc e))
   | Ok (v, e) => (v, EDb <$> ErrEnumToError e)
   end, w).
Definition SetSync := Set_.
Definition DeleteSync := Delete.

Definition Batch_Write (b : Batch) (w : W) : result call_err () * W :=
  let '(r, w) := client_WriteBatch (batch_request b) w in (finish r, w).
Definition WriteSync := Batch_Write.
End database.

(** ** Iterators *)

(** [it_pending] is the batches the channel still delivers: the server's up to
    the first empty one. *)
Record Iterator := mkIterator {
  it_data : list (list Z * list Z);
  it_pending : list (list (list Z * list Z));
  it_err : option db_err;
  it_start : list Z;
  it_end : list Z;
}.

Fixpoint fetched (responses : list (list (list Z * list Z)))
    : list (list (list Z * list Z)) :=
  match responses with
  | [] => []
  | [] :: _ => []
  | d :: rest => d :: fetched rest
  end.

Definition NewIterator (responses : list (list (list Z * list Z))) (start end_ : list Z)
    : Iterator :=
  mkIterator [] (fetched responses) None start end_.
Definition ReverseIterator := NewIterator.

Definition setError (e : db_err) (it : Iterator) : Iterator :=
  match it_err it with
  | Some _ => it
  | None => mkIterator (it_data it) (it_pending it) (Some e) (it_start it) (it_end it)
  end.

Definition Domain (it : Iterator) : list Z * list Z := (it_start it, it_end it).

Definition Key (it : Iterator) : list Z :=
  match it_data it with [] => [] | (k, _) :: _ => k end.
Definition Value (it : Iterator) : list Z :=
  match it_data it with [] => [] | (_, v) :: _ => v end.

(** A server without errors of its own. *)
Definition Valid (it : Iterator) : bool :=
  bool_decide (it_err it = None) && bool_decide (Key it ≠ []).

Definition Next (closed : bool) (it : Iterator) : Iterator :=
  let it := if closed
            then setError ErrClosed
                   (mkIterator [] (it_pending it) (it_err it) (it_start it) (it_end it))
            else it in
  let it := match it_data it with
            | _ :: (_ :: _) as rest =>
                mkIterator rest (it_pending it) (it_err it) (it_start it) (it_end it)
            | _ => it
            end in
  (* the receive: the next batch, nil once the channel is closed *)
  match it_pending it with
  | [] => mkIterator [] [] (it_err it) (it_start it) (it_end it)
  | d :: rest => mkIterator d rest (it_err it) (it_start it) (it_end it)
  end.

(** [for ; it.Valid(); it.Next() { ... it.Key(), it.Value() ... }] *)
Fixpoint iterate (fuel : nat) (it : Iterator) : list (list Z * list Z) :=
  match fuel with
  | O => []
  | S fuel' => if Valid it then (Key it, Value it) :: iterate fuel' (Next false it) else []
  end.

(** ** What a batch does

    The database as a map, and the effect of the operations one by one. *)

Definition apply_op (m : gmap (list Z) (list Z)) (op : BatchOp) : gmap (list Z) (list Z) :=
  if op_Delete op then delete (op_Key op) m else <[op_Key op := op_Value op]> m.
Definition apply_ops (ops : list BatchOp) (m : gmap (list Z) (list Z)) : gmap (list Z) (list Z) :=
  foldl apply_op m ops.

(** The effect of a request: puts, then deletes; for requests of this client the
    order does not matter. *)
Definition apply_request (req : WriteBatchRequest) (m : gmap (list Z) (list Z))
    : gmap (list Z) (list Z) :=
  foldl (λ m k, delete k m) (foldl (λ m p, <[p.1 := p.2]> m) m (Puts req)) (Deletes req).
Definition apply_request_rev (req : WriteBatchRequest) (m : gmap (list Z) (list Z))
    : gmap (list Z) (list Z) :=
  foldl (λ m p, <[p.1 := p.2]> m) (foldl (λ m k, delete k m) m (Deletes req)) (Puts req).

(** The last operation on a key, the first one from the end. *)
Definition last_op (k : list Z) (ops : list BatchOp) : option BatchOp :=
  snd <$> list_find (λ op, op_Key op = k) ops.

Lemma last_op_cons k op ops :
  last_op k (op :: ops) = if decide (op_Key op = k) then Some op else last_op k ops.
Proof.
  unfold last_op. simpl. case_decide; [done|]. by destruct (list_find _ ops) as [[]|].
Qed.

Definition op_result (o : option BatchOp) (d : option (list Z)) : option (list Z) :=
  match o with
  | None => d
  | Some op => if op_Delete op then None else Some (op_Value op)
  end.

Lemma apply_ops_lookup ops m k :
  apply_ops ops m !! k = op_result (last_op k (rev ops)) (m !! k).
Proof.
  unfold apply_ops. induction ops as [|op ops IH] using rev_ind; [done|].
  rewrite foldl_snoc, rev_app_distr. cbn [rev app]. rewrite last_op_cons.
  unfold apply_op at 1. destruct (op_Delete op) eqn:Hd.
  - rewrite lookup_delete. repeat case_decide; simpl; try congruence. by rewrite Hd.
  - rewrite lookup_insert. repeat case_decide; simpl; try congruence. by rewrite Hd.
Qed.

(** The requests [write_loop] builds: one operation per key, the last one. *)
Record request_of (ops : list BatchOp) (keySet : gset (list Z)) (req0 req : WriteBatchRequest)
    : Prop := {
  ro_puts k v : (k, v) ∈ Puts req ↔
    (k, v) ∈ Puts req0 ∨ k ∉ keySet ∧ ∃ op, last_op k ops = Some op ∧
                          op_Delete op = false ∧ op_Value op = v;
  ro_deletes k : k ∈ Deletes req ↔
    k ∈ Deletes req0 ∨ k ∉ keySet ∧ ∃ op, last_op k ops = Some op ∧ op_Delete op = true;
}.

Lemma write_loop_spec ops keySet req :
  request_of ops keySet req (write_loop ops keySet req).
Proof.
  revert keySet req. induction ops as [|op ops IH]; intros keySet req; simpl.
  - constructor; naive_solver.
  - case_bool_decide as Hin; [destruct (IH keySet req) as [Hp Hd]|destruct (IH
        ({[op_Key op]} ∪ keySet)
        (if op_Delete op then mkWriteBatchRequest (Puts req) (Deletes req ++ [op_Key op])
         else mkWriteBatchRequest (Puts req ++ [(op_Key op, op_Value op)]) (Deletes req)))
        as [Hp Hd]]; clear IH.
    + constructor.
      * intros k v. rewrite Hp, last_op_cons. clear Hp Hd.
        destruct (decide (op_Key op = k)) as [<-|]; naive_solver.
      * intros k. rewrite Hd, last_op_cons. clear Hp Hd.
        destruct (decide (op_Key op = k)) as [<-|]; naive_solver.
    + constructor.
      * intros k v. rewrite Hp, last_op_cons, not_elem_of_union, elem_of_singleton.
        clear Hp Hd. destruct (op_Delete op) eqn:Ho; simpl;
          rewrite ?elem_of_app, ?list_elem_of_singleton;
          destruct (decide (op_Key op = k)) as [<-|]; try naive_solver.
        split; [naive_solver|]. intros [?|(_ & ? & [= <-] & ?)]; [by left|naive_solver congruence].
      * intros k. rewrite Hd, last_op_cons, not_elem_of_union, elem_of_singleton.
        clear Hp Hd. destruct (op_Delete op) eqn:Ho; simpl;
          rewrite ?elem_of_app, ?list_elem_of_singleton;
          destruct (decide (op_Key op = k)) as [<-|]; try naive_solver.
        split; [naive_solver|]. intros [?|(_ & ? & [= <-] & ?)]; [by left|naive_solver congruence].
Qed.

Lemma foldl_insert_in (l : list (list Z * list Z)) (m : gmap (list Z) (list Z)) k v :
  (∀ v', (k, v') ∈ l → v' = v) → (k, v) ∈ l →
  foldl (λ m p, <[p.1 := p.2]> m) m l !! k = Some v.
Proof.
  induction l as [|[k' v'] l IH] using rev_ind; [by intros _ ?%elem_of_nil|].
  intros Hu Hin. rewrite foldl_snoc. simpl. rewrite lookup_insert.
  setoid_rewrite elem_of_app in Hu. rewrite elem_of_app, list_elem_of_singleton in Hin.
  case_decide; subst; [f_equal; apply Hu; right; by left|].
  apply IH; [intros; apply Hu; by left|]. naive_solver.
Qed.

Lemma foldl_insert_notin (l : list (list Z * list Z)) (m : gmap (list Z) (list Z)) k :
  (∀ v, (k, v) ∉ l) → foldl (λ m p, <[p.1 := p.2]> m) m l !! k = m !! k.
Proof.
  induction l as [|[k' v'] l IH] using rev_ind; [done|].
  intros Hu. rewrite foldl_snoc. simpl. rewrite lookup_insert.
  setoid_rewrite not_elem_of_app in Hu. case_decide; subst.
  - destruct (Hu v') as [_ Hn]. destruct Hn. by left.
  - apply IH. intros v. by apply Hu.
Qed.

Lemma foldl_delete_lookup (l : list (list Z)) (m : gmap (list Z) (list Z)) k :
  foldl (λ m k, delete k m) m l !! k = if decide (k ∈ l) then None else m !! k.
Proof.
  induction l as [|k' l IH] using rev_ind; [case_decide; set_solver|].
  rewrite foldl_snoc, lookup_delete, IH.
  repeat case_decide; subst; try done; exfalso; set_solver.
Qed.

Lemma batch_request_Puts b k v :
  (k, v) ∈ Puts (batch_request b) ↔
  ∃ op, last_op k (rev (Ops b)) = Some op ∧ op_Delete op = false ∧ op_Value op = v.
Proof.
  unfold batch_request. rewrite (ro_puts _ _ _ _ (write_loop_spec _ _ _)). simpl. split.
  - by intros [?%elem_of_nil|[_ ?]].
  - intros ?. right. split; [apply not_elem_of_empty|done].
Qed.

Lemma batch_request_Deletes b k :
  k ∈ Deletes (batch_request b) ↔
  ∃ op, last_op k (rev (Ops b)) = Some op ∧ op_Delete op = true.
Proof.
  unfold batch_request. rewrite (ro_deletes _ _ _ _ (write_loop_spec _ _ _)). simpl. split.
  - by intros [?%elem_of_nil|[_ ?]].
  - intros ?. right. split; [apply not_elem_of_empty|done].
Qed.

Lemma batch_request_lookup b m k :
  apply_request (batch_request b) m !! k = op_result (last_op k (rev (Ops b))) (m !! k) ∧
  apply_request_rev (batch_request b) m !! k = op_result (last_op k (rev (Ops b))) (m !! k).
Proof.
  pose proof (batch_request_Puts b k) as Hp. pose proof (batch_request_Deletes b k) as Hd.
  unfold apply_request, apply_request_rev. rewrite foldl_delete_lookup.
  destruct (last_op k (rev (Ops b))) as [op|]; [destruct (op_Delete op) eqn:Ho|]; simpl.
  - rewrite Ho, decide_True by (apply Hd; eauto).
    rewrite foldl_insert_notin by (intros v (? & [= <-] & ? & _)%Hp; congruence).
    rewrite foldl_delete_lookup, decide_True by (apply Hd; eauto). done.
  - rewrite Ho, decide_False by (intros (? & [= <-] & ?)%Hd; congruence).
    rewrite !(foldl_insert_in _ _ k (op_Value op)); [done|..]; try (apply Hp; eauto);
      intros v (? & [= <-] & _ & ?)%Hp; done.
  - rewrite decide_False by (by intros (? & ? & ?)%Hd).
    rewrite !foldl_insert_notin by (by intros v (? & ? & ?)%Hp).
    rewrite foldl_delete_lookup, decide_False by (by intros (? & ? & ?)%Hd). done.
Qed.

(** Writing a batch has the effect of its operations in order.  The request
    [Write] sends keeps only the last operation of each key; applied to any
    database, puts first or deletes first, it gives the same map as the sets and
    deletes of the batch applied one after the other. *)
Theorem batch_write_is_sequential (b : Batch) (m : gmap (list Z) (list Z)) :
  apply_request (batch_request b) m = apply_ops (Ops b) m ∧
  apply_request_rev (batch_request b) m = apply_ops (Ops b) m.
Proof.
  split; apply map_eq; intros k; rewrite apply_ops_lookup; apply batch_request_lookup.
Qed.

(** ** What an iterator visits *)

Lemma iterate_batches fuel it :
  it_err it = None → (length (it_pending it) < fuel)%nat →
  Forall (λ d, ∃ k v rest, d = (k, v) :: rest ∧ k ≠ []) (it_pending it) →
  iterate fuel (Next false it) = omap head (it_pending it).
Proof.
  revert it. induction fuel as [|fuel IH]; intros it He Hf Hall; [lia|].
  assert (Next false it = match it_pending it with
    | [] => mkIterator [] [] None (it_start it) (it_end it)
    | d :: rest => mkIterator d rest None (it_start it) (it_end it) end) as ->.
  { unfold Next. destruct (it_data it) as [|? [|? ?]]; simpl; rewrite ?He;
      by destruct (it_pending it). }
  destruct (it_pending it) as [|d rest] eqn:Hp; [done|].
  apply Forall_cons in Hall as [(k & v & tl & -> & Hk) Hall]. csimpl.
  unfold Valid, Key, Value. simpl. rewrite bool_decide_eq_true_2 by done. f_equal.
  apply (IH (mkIterator ((k, v) :: tl) rest None (it_start it) (it_end it))); simpl in *;
    [done|lia|done].
Qed.

(** The iterator does not visit the database.  A new iterator is not
    [Valid] whatever the server sends, so the usual loop
    [for ; it.Valid(); it.Next()] visits nothing; and a loop that calls [Next]
    first visits only the first entry of each batch the server sends, because
    [Next] replaces the rest of the batch by the next one. *)
Theorem iterator_skips_entries (responses : list (list (list Z * list Z)))
    (start end_ : list Z) (fuel : nat)
    (Hfuel : (length (fetched responses) < fuel)%nat)
    (Hkeys : Forall (λ d, ∃ k v rest, d = (k, v) :: rest ∧ k ≠ []) (fetched responses)) :
  iterate fuel (NewIterator responses start end_) = [] ∧
  iterate fuel (Next false (NewIterator responses start end_)) = omap head (fetched responses).
Proof.
  split; [by destruct fuel|]. by apply iterate_batches.
Qed.

Lemma iterator_skips_entries_witness :
  iterate 5 (Next false (NewIterator [[([1], [10]); ([2], [20])]; [([3], [30])]]%Z [] []))
    = [([1], [10]); ([3], [30])]%Z.
Proof.
  apply (iterator_skips_entries [[([1], [10]); ([2], [20])]; [([3], [30])]]%Z [] [] 5).
  - simpl. lia.
  - simpl. repeat constructor; do 3 eexists; split; done.
Defined.
