(* ===== verification/WarpBackend.v ===== *)
(** * The warp backend and its network requests (src/warp, src/utils/message,
      src/utils/evm/warp/handlers, src/utils/evm/warp/aggregator/signature_getter.go,
      src/vm/network_handler.go)

    [backend] stores unsigned warp messages in the database and has them signed;
    peers ask for the signatures of messages and of accepted blocks with requests
    that [networkHandler] answers, and [NetworkSignatureGetter] (or [apiFetcher],
    over RPC) is the asking side, used by the aggregator (WarpSignature.v).

    The world [W] holds the database ([DatabaseClient], Database.v) and what is
    behind the interfaces [BlockReceiver] (the VM) and [ValidatorReader] (the
    validator manager); the signer is a parameter.  Errors that wrap another are a
    constructor around it.  The counters of [verifierStats] and [handlerStats] and
    the logs are left out.  [None] is a panic. *)

From S2P Require Import Prelude Float64 Codec CodecValues Database WarpMessage WarpSignature.

(** Errors of the backend; [BErrNotFound] is [database.ErrNotFound] itself. *)
Inductive bkerr :=
| BErrNotFound
| BGet (e : call_err) | BParseMessage (e : cerr) | BPut (e : call_err) | BSign (e : string)
| BVerify (code : Z) | BValidate | BPayload (e : perr) | BMessage (e : cerr)
| BReceiver (e : string) | BReader (e : string).

#[export] Instance call_err_eq : EqDecision call_err.
Proof. solve_decision. Defined.
#[export] Instance packer_err_eq : EqDecision Packer.packer_err.
Proof. solve_decision. Defined.
#[export] Instance cerr_eq : EqDecision cerr.
Proof. solve_decision. Defined.
#[export] Instance perr_eq : EqDecision perr.
Proof. solve_decision. Defined.
#[export] Instance bkerr_eq : EqDecision bkerr.
Proof. solve_decision. Defined.

(** What the backend uses of [vmpb.GetBlockResponse]; a block that is not found is a
    response too, with height 0. *)
Record AcceptedBlock := mkAcceptedBlock { ab_Height : Z; ab_Bytes : list Z }.

Class BlockReceiver (W : Type) := {
  recv_GetBlock : list Z → W → option (result string AcceptedBlock * W);
  recv_GetBlockIDAtHeight : Z → W → option (result string (list Z) * W);
}.

(** [GetValidatorAndUptime]: the uptime, a duration in nanoseconds. *)
Class ValidatorReader (W : Type) := {
  reader_GetValidatorAndUptime : list Z → W → result string Z * W;
}.

(** ** A monad: state, errors and panics *)

Definition BM (W A : Type) : Type := W → option (result bkerr A * W).

#[export] Instance BM_ret {W} : MRet (BM W) := λ _ a w, Some (Ok a, w).
#[export] Instance BM_bind {W} : MBind (BM W) := λ _ _ f m w,
  match m w with
  | None => None
  | Some (Err e, w) => Some (Err e, w)
  | Some (Ok a, w) => f a w
  end.

Definition bfail {W A} (e : bkerr) : BM W A := λ w, Some (Err e, w).
(** The error as a value. *)
Definition btry {W A} (m : BM W A) : BM W (result bkerr A) := λ w,
  match m w with None => None | Some (r, w) => Some (Ok r, w) end.
(** A pure call that may panic, and calls of the world, with their errors wrapped. *)
Definition blift {W E A} (wrap : E → bkerr) (r : option (result E A)) : BM W A := λ w,
  match r with
  | None => None
  | Some (Ok a) => Some (Ok a, w)
  | Some (Err e) => Some (Err (wrap e), w)
  end.
Definition bcall_panic {W E A} (wrap : E → bkerr) (f : W → option (result E A * W)) : BM W A := λ w,
  match f w with
  | None => None
  | Some (r, w) => Some (match r with Ok a => Ok a | Err e => Err (wrap e) end, w)
  end.
Definition bcall {W E A} (wrap : E → bkerr) (f : W → result E A * W) : BM W A :=
  bcall_panic wrap (λ w, Some (f w)).

(** ** The backend *)

Definition ParseErrCode : Z := 1.
Definition VerifyErrCode : Z := 2.

Section backend.
Context {W : Type} `{!DatabaseClient W, !BlockReceiver W, !ValidatorReader W}.
Context (grow : nat → nat) (sha256 : list Z → ID).
Context (warpSigner_Sign : UnsignedMessage → result string (list Z)).
Context (networkID : Z) (sourceChainID : ID).

(** [blockStorageClient.GetAcceptedBlock] *)
Definition GetAcceptedBlock (blkID : ID) : BM W AcceptedBlock :=
  blkResp ← bcall_panic BReceiver (recv_GetBlock blkID);
  acceptedBlkID ← bcall_panic BReceiver (recv_GetBlockIDAtHeight (ab_Height blkResp));
  if bool_decide (acceptedBlkID ≠ blkID) then bfail BErrNotFound else mret blkResp.

Definition signMessage (unsignedMessage : UnsignedMessage) : BM W (list Z) :=
  blift BSign (Some (warpSigner_Sign unsignedMessage)).

Definition AddMessage (unsignedMessage : UnsignedMessage) : BM W () :=
  _ ← bcall BPut (Set_ (um_id unsignedMessage) (um_bytes unsignedMessage));
  _ ← signMessage unsignedMessage;
  mret ().

(** [b.db.Get], whose error comes with the value. *)
Definition db_Get (key : list Z) (w : W) : result call_err (list Z) * W :=
  let '((v, e), w) := Get key w in (match e with Some e => Err e | None => Ok v end, w).

Definition GetMessage (messageID : ID) : BM W UnsignedMessage :=
  unsignedMessageBytes ← bcall BGet (db_Get messageID);
  blift BParseMessage (ParseUnsignedMessage sha256 unsignedMessageBytes).

(** *** verifier_backend.go; an [AppError] is its code *)

Definition verifyBlockMessage (hash : ID) : BM W (option Z) :=
  r ← btry (GetAcceptedBlock hash);
  mret (match r with Err _ => Some VerifyErrCode | Ok _ => None end).

(** [uint64(currentUptime.Seconds())] of a duration in nanoseconds, with the floats of
    [Duration.Seconds]. *)
Definition verifyUptimeMessage (uptimeMsg : ValidatorUptime) : BM W (option Z) :=
  r ← btry (bcall BReader (reader_GetValidatorAndUptime (vu_ValidationID uptimeMsg)));
  mret (match r with
        | Err _ => Some VerifyErrCode
        | Ok currentUptime =>
            let currentUptimeSeconds := wrapU 64 (default 0%Z (f64_trunc (Seconds currentUptime))) in
            if bool_decide (currentUptimeSeconds < TotalUptime uptimeMsg)%Z
            then Some VerifyErrCode else None
        end).

Definition verifyOffchainAddressedCall (sourceAddress payload : list Z) : BM W (option Z) :=
  parsed ← btry (blift BMessage (messages_Parse payload));
  match parsed with
  | Err _ => mret (Some ParseErrCode)
  | Ok p =>
      if bool_decide (length sourceAddress ≠ 0) then mret (Some VerifyErrCode)
      else verifyUptimeMessage p
  end.

Definition backend_Verify (unsignedMessage : UnsignedMessage) : BM W (option Z) :=
  r ← btry (GetMessage (um_id unsignedMessage));
  match r with
  | Ok _ => mret None
  | Err err =>
      if bool_decide (err ≠ BErrNotFound) then mret (Some ParseErrCode)
      else
        parsed ← btry (blift BPayload (payload_Parse (um_Payload unsignedMessage)));
        match parsed with
        | Err _ => mret (Some ParseErrCode)
        | Ok (PAddressedCall sourceAddress payload _) =>
            verifyOffchainAddressedCall sourceAddress payload
        | Ok (PHash hash _) => verifyBlockMessage hash
        end
  end.

(** *** backend.go *)

(** The parsed message is a [*ValidatorUptime], which has no [VerifyMessage]: it is
    not [Signable]. *)
Definition ValidateMessage (unsignedMessage : UnsignedMessage) : BM W () :=
  r ← btry (GetMessage (um_id unsignedMessage));
  match r with
  | Ok _ => mret ()
  | Err _ =>
      call ← blift BPayload (ParseAddressedCall (um_Payload unsignedMessage));
      match call with
      | PAddressedCall _ payload _ =>
          _ ← blift BMessage (messages_Parse payload);
          bfail BValidate
      | PHash _ _ => bfail BValidate
      end
  end.

Definition GetMessageSignature (unsignedMessage : UnsignedMessage) : BM W (list Z) :=
  err ← backend_Verify unsignedMessage;
  match err with
  | Some code => bfail (BVerify code)
  | None =>
      _ ← ValidateMessage unsignedMessage;
      signMessage unsignedMessage
  end.

Definition GetBlockSignature (blockID : ID) : BM W (list Z) :=
  blockHashPayload ← blift BPayload (NewHash grow blockID);
  unsignedMessage ← blift BMessage
    (NewUnsignedMessage grow sha256 networkID sourceChainID (Payload_Bytes blockHashPayload));
  err ← verifyBlockMessage
    (match blockHashPayload with PHash h _ => h | PAddressedCall _ _ _ => [] end);
  match err with
  | Some code => bfail (BVerify code)
  | None => blift BSign (Some (warpSigner_Sign unsignedMessage))
  end.

(** ** Requests (src/utils/message) *)

Inductive Request :=
| MessageSignatureRequest (messageID : ID)
| BlockSignatureRequest (blockID : ID).

Definition maxMessageSize : Z := 2 * 1024 * 1024 - 64 * 1024.

(** A variable of type [Request]. *)
Definition request_val (r : Request) : val :=
  match r with
  | MessageSignatureRequest i => VInterface 0 1 (VStruct [(tagged "MessageID", bytes_val i)])
  | BlockSignatureRequest i => VInterface 0 2 (VStruct [(tagged "BlockID", bytes_val i)])
  end.

Definition request_of_val (v : val) : option Request :=
  match v with
  | VInterface _ 1 (VStruct [(_, VArray _ i)]) => Some (MessageSignatureRequest (bytes_of i))
  | VInterface _ 2 (VStruct [(_, VArray _ i)]) => Some (BlockSignatureRequest (bytes_of i))
  | _ => None
  end.

(** [init] of codec.go registers, from 0: [TxsGossip], the two requests and
    [SignatureResponse]; the requests implement [Request], interface 0. *)
Definition networkCodec : linearCodec :=
  (RegisterType 3 (RegisterType 2 (RegisterType 1 (RegisterType 0 NewCodec).2).2).2).2.
Definition network_types (rt : nat) : typ :=
  match rt with
  | 0 => TStruct [(tagged "Txs", TSlice (TUint W8))]
  | 1 => TStruct [(tagged "MessageID", TArray 32 (TUint W8))]
  | 2 => TStruct [(tagged "BlockID", TArray 32 (TUint W8))]
  | _ => TStruct [(tagged "Signature", TArray SignatureLen (TUint W8))]
  end.
Definition network_implements (rt i : nat) : bool := (Nat.eqb rt 1 || Nat.eqb rt 2) && Nat.eqb i 0.

Definition RequestToBytes (request : Request) : option (result cerr (list Z)) :=
  Marshal grow DefaultTags networkCodec maxMessageSize (Some (VPtr (request_val request))).

Definition BytesToRequest (requestBytes : list Z) : option (result cerr Request) :=
  match Unmarshal network_types network_implements DefaultTags networkCodec maxMessageSize
          requestBytes (Some (VPtr (VNilInterface 0))) with
  | None => None
  | Some (Err e) => Some (Err e)
  | Some (Ok v) => Ok <$> request_of_val v
  end.

Definition response_val (signature : list Z) : val :=
  VStruct [(tagged "Signature", bytes_val signature)].
Definition response_of_val (v : val) : option (list Z) :=
  match v with VStruct [(_, VArray _ s)] => Some (bytes_of s) | _ => None end.

(** ** The answering side (signature_request.go, network_handler.go) *)

(** [signature] is the array after the copy, or zeros; an error of the codec is
    logged and the response is nil. *)
Definition respond (signature : list Z) : BM W (list Z) :=
  r ← btry (blift BMessage
    (Marshal grow DefaultTags networkCodec maxMessageSize (Some (VPtr (response_val signature)))));
  mret (match r with Ok responseBytes => responseBytes | Err _ => [] end).

Definition OnMessageSignatureRequest (messageID : ID) : BM W (list Z) :=
  m ← btry (GetMessage messageID);
  signature ←
    match m with
    | Err _ => mret (replicate SignatureLen 0%Z)
    | Ok unsignedMessage =>
        sig ← btry (GetMessageSignature unsignedMessage);
        mret (match sig with
              | Err _ => replicate SignatureLen 0%Z
              | Ok sig => copy_array SignatureLen sig
              end)
    end;
  respond signature.

Definition OnBlockSignatureRequest (blockID : ID) : BM W (list Z) :=
  sig ← btry (GetBlockSignature blockID);
  respond (match sig with
           | Err _ => replicate SignatureLen 0%Z
           | Ok sig => copy_array SignatureLen sig
           end).

(** [request.Handle(ctx, nodeID, requestID, networkHandler)] *)
Definition Handle (request : Request) : BM W (list Z) :=
  match request with
  | MessageSignatureRequest messageID => OnMessageSignatureRequest messageID
  | BlockSignatureRequest blockID => OnBlockSignatureRequest blockID
  end.

(** ** The asking side (signature_getter.go) *)

Inductive geterr := GPayload (e : perr) | GCodec (e : cerr) | GEmpty | GBls (e : berr) | GCtx.

Section getter.
Context {BL : Blst}.

(** The request for a message. *)
Definition signatureRequest (unsignedWarpMessage : UnsignedMessage) : option (result geterr (list Z)) :=
  match payload_Parse (um_Payload unsignedWarpMessage) with
  | None => None
  | Some (Err e) => Some (Err (GPayload e))
  | Some (Ok p) =>
      match RequestToBytes (match p with
                            | PAddressedCall _ _ _ => MessageSignatureRequest (um_id unsignedWarpMessage)
                            | PHash h _ => BlockSignatureRequest h
                            end) with
      | None => None
      | Some (Err e) => Some (Err (GCodec e))
      | Some (Ok b) => Some (Ok b)
      end
  end.

Definition signatureResponse (signatureRes : list Z) : option (result geterr BLSSignature) :=
  match Unmarshal network_types network_implements DefaultTags networkCodec maxMessageSize
          signatureRes (Some (VPtr (response_val (replicate SignatureLen 0%Z)))) with
  | None => None
  | Some (Err e) => Some (Err (GCodec e))
  | Some (Ok v) =>
      match response_of_val v with
      | None => None
      | Some signature =>
          if bool_decide (signature = replicate SignatureLen 0%Z) then Some (Err GEmpty)
          else match SignatureFromBytes signature with
               | Err e => Some (Err (GBls e))
               | Ok blsSignature => Some (Ok blsSignature)
               end
      end
  end.

(** Delays in milliseconds. *)
Definition initialRetryFetchSignatureDelay : Z := 100.
Definition maxRetryFetchSignatureDelay : Z := 5000.
Definition retryBackoffFactor : Z := 2.

(** [time.Timer]: whether it runs, and whether its channel holds the time it fired. *)
Record Timer := mkTimer { tm_running : bool; tm_fired : bool }.
Definition NewTimer : Timer := mkTimer true false.
Definition expire (t : Timer) : Timer := if tm_running t then mkTimer false true else t.
Definition Stop (t : Timer) : bool * Timer := (tm_running t, mkTimer false (tm_fired t)).
Definition Timer_Reset (t : Timer) : Timer := mkTimer true (tm_fired t).
(** [<-timer.C]; [None] is a receive that blocks forever. *)
Definition receive_time (t : Timer) : option Timer :=
  if tm_fired t then Some (mkTimer (tm_running t) false)
  else if tm_running t then Some (mkTimer false false) else None.

(** One request: what [SendAppRequest] returns ([None] is an error), whether the timer
    expires during it, and whether the context is done before the delay passed. *)
Record attempt := mkAttempt { at_response : option (list Z); at_expires : bool; at_done : bool }.

(** [Waiting] is a call whose next request has not returned, [Blocked] one that waits
    for a timer that never fires. *)
Inductive outcome := Returned (r : result geterr BLSSignature) | Waiting | Blocked.

(** Returns also the delays waited, and [None] on a panic. *)
Fixpoint GetSignature_loop (attempts : list attempt) (timer : Timer) (delay : Z)
    : option (outcome * list Z) :=
  match attempts with
  | [] => Some (Waiting, [])
  | a :: rest =>
      let timer := if at_expires a then expire timer else timer in
      match at_response a with
      | Some signatureRes =>
          match signatureResponse signatureRes with None => None | Some r => Some (Returned r, []) end
      | None =>
          let '(stopped, timer) := Stop timer in
          match if stopped then Some timer else receive_time timer with
          | None => Some (Blocked, [])
          | Some timer =>
              let timer := Timer_Reset timer in
              if at_done a then Some (Returned (Err GCtx), [])
              else
                match receive_time timer with
                | None => Some (Blocked, [])
                | Some timer =>
                    let next := (delay * retryBackoffFactor)%Z in
                    let next := if bool_decide (maxRetryFetchSignatureDelay < next)%Z
                                then maxRetryFetchSignatureDelay else next in
                    match GetSignature_loop rest timer next with
                    | None => None
                    | Some (r, delays) => Some (r, delay :: delays)
                    end
                end
          end
      end
  end.

(** [SendAppRequest]: what happens to the requests for these bytes. *)
Definition Network_GetSignature (unsignedWarpMessage : UnsignedMessage)
    (SendAppRequest : list Z → list attempt) : option (outcome * list Z) :=
  match signatureRequest unsignedWarpMessage with
  | None => None
  | Some (Err e) => Some (Returned (Err e), [])
  | Some (Ok req) => GetSignature_loop (SendAppRequest req) NewTimer initialRetryFetchSignatureDelay
  end.
End getter.
End backend.
