(* ===== verification/WarpBackendProps.v ===== *)
(** * The warp backend: proofs

    Requests and responses on the wire, which messages the backend signs, and the
    way of a signature from the node that has the message to the one that asks. *)

From S2P Require Import Prelude Codec CodecValues Database WarpMessage WarpMessageProps WarpSignature WarpBackend.

(** ** Requests *)

Definition request_id (r : Request) : list Z :=
  match r with MessageSignatureRequest i => i | BlockSignatureRequest i => i end.
Definition request_enc (r : Request) : list Z :=
  be_encode 4 (match r with MessageSignatureRequest _ => 1 | BlockSignatureRequest _ => 2 end) ++
  request_id r.

Lemma networkCodec_ok : registry_ok networkCodec.
Proof. do 4 apply registry_ok_Register. apply registry_ok_New. Qed.

Lemma request_val_ok r :
  id_ok (request_id r) → val_ok network_types network_implements (request_val r).
Proof.
  destruct r as [i|i]; intros [Hb Hl]; simpl in Hb, Hl; constructor; try done.
  1,3: cbn [typeof map]; by rewrite typeof_bytes_val, Hl.
  all: constructor; apply Forall_cons; split; [by apply bytes_val_ok|done].
Qed.

Lemma enc_request_val r :
  bytes_ok (request_id r) → enc DefaultTags networkCodec (request_val r) = request_enc r.
Proof.
  destruct r as [i|i]; intros Hb; simpl in Hb; unfold request_val; cbn [enc map];
    rewrite captureField_tagged, enc_bytes_val by done; cbn [concat]; by rewrite app_nil_r.
Qed.

Lemma request_encodable r : encodable DefaultTags networkCodec [] (request_val r) = true.
Proof.
  destruct r as [i|i]; unfold request_val; cbn [encodable forallb map fst];
    rewrite encodable_bytes_val; reflexivity.
Qed.

Lemma refill_request r :
  length (request_id r) = 32 →
  refill network_types DefaultTags (request_val r) (VNilInterface 0) = request_val r.
Proof.
  destruct r as [i|i]; intros Hl; simpl in Hl; unfold request_val; cbn [refill network_types].
  all: cbn [zero map fields_of refill_fields]; rewrite captureField_tagged.
  all: change (VArray (TUint W8) (replicate 32 (VUint W8 0))) with (bytes_val (replicate 32 0%Z)).
  all: by rewrite refill_bytes_val by (by rewrite Hl).
Qed.

Lemma request_of_val_request r : request_of_val (request_val r) = Some r.
Proof. destruct r; simpl; by rewrite bytes_of_fmap. Qed.

Lemma request_enc_length r : length (request_id r) = 32 → length (request_enc r) = 36.
Proof. intros Hl. unfold request_enc. by rewrite length_app, be_encode_length, Hl. Qed.

Lemma RequestToBytes_ok grow r :
  id_ok (request_id r) → RequestToBytes grow r = Some (Ok (0%Z :: 0%Z :: request_enc r)).
Proof.
  intros Hr. unfold RequestToBytes. rewrite (Marshal_ok network_types network_implements).
  - by rewrite enc_request_val by apply Hr.
  - apply networkCodec_ok.
  - by apply request_val_ok.
  - apply request_encodable.
  - rewrite enc_request_val, request_enc_length by apply Hr. done.
Qed.

Lemma BytesToRequest_ok r a b :
  id_ok (request_id r) → BytesToRequest (a :: b :: request_enc r) = Some (Ok r).
Proof.
  intros Hr. unfold BytesToRequest. rewrite <-enc_request_val by apply Hr. rewrite Unmarshal_enc.
  - rewrite refill_request by apply Hr. by rewrite request_of_val_request.
  - apply networkCodec_ok.
  - by apply request_val_ok.
  - constructor.
  - by destruct r.
  - apply request_encodable.
  - rewrite enc_request_val, request_enc_length by apply Hr. done.
Qed.

(** ** Responses *)

Section responses.
Context {W : Type} (grow : nat → nat).

Definition response_bytes (sig : list Z) : list Z := 0%Z :: 0%Z :: sig.

Lemma response_val_ok sig : bytes_ok sig → val_ok network_types network_implements (response_val sig).
Proof. intros Hb. constructor. apply Forall_cons; split; [by apply bytes_val_ok|done]. Qed.

Lemma enc_response_val sig : bytes_ok sig → enc DefaultTags networkCodec (response_val sig) = sig.
Proof.
  intros Hb. unfold response_val. cbn [enc map]. rewrite captureField_tagged, enc_bytes_val by done.
  cbn [concat]. by rewrite app_nil_r.
Qed.

Lemma response_encodable sig : encodable DefaultTags networkCodec [] (response_val sig) = true.
Proof.
  unfold response_val. cbn [encodable forallb map fst]. rewrite encodable_bytes_val. reflexivity.
Qed.

Lemma respond_ok sig (w : W) :
  bytes_ok sig → length sig = SignatureLen → respond grow sig w = Some (Ok (response_bytes sig), w).
Proof.
  intros Hb Hl. unfold respond. rewrite (Marshal_ok network_types network_implements).
  - by rewrite enc_response_val.
  - apply networkCodec_ok.
  - by apply response_val_ok.
  - apply response_encodable.
  - rewrite enc_response_val, Hl by done. done.
Qed.

Lemma signatureResponse_ok `{!Blst} sig a b :
  bytes_ok sig → length sig = SignatureLen →
  signatureResponse (a :: b :: sig) =
  Some (if bool_decide (sig = replicate SignatureLen 0%Z) then Err GEmpty
        else match SignatureFromBytes sig with Err e => Err (GBls e) | Ok s => Ok s end).
Proof.
  intros Hb Hl. unfold signatureResponse. rewrite <-(enc_response_val sig Hb) at 1.
  rewrite Unmarshal_enc.
  - unfold response_val at 1 2. cbn [refill fields_of refill_fields]. rewrite captureField_tagged.
    rewrite refill_bytes_val by (by rewrite length_replicate). unfold response_of_val, bytes_val.
    rewrite bytes_of_fmap. case_bool_decide; [done|]. by destruct (SignatureFromBytes sig).
  - apply networkCodec_ok.
  - by apply response_val_ok.
  - apply response_val_ok, zeros_ok.
  - unfold response_val. cbn [typeof map]. by rewrite !typeof_bytes_val, length_replicate, Hl.
  - apply response_encodable.
  - rewrite enc_response_val, Hl by done. done.
Qed.
End responses.

Lemma SignatureFromBytes_valid `{!Blst} bs s :
  SignatureFromBytes bs = Ok s → SigValidate s false = true.
Proof.
  unfold SignatureFromBytes. destruct (sig_Uncompress bs) as [x|]; [|done].
  destruct (SigValidate x false) eqn:Hv; [|done]. simpl. by intros [= <-].
Qed.

(** Any response is handled, and a signature it gives is valid. *)
Lemma signatureResponse_total `{!Blst} bs :
  bytes_ok bs → ∃ r, signatureResponse bs = Some r ∧ ∀ s, r = Ok s → SigValidate s false = true.
Proof.
  intros Hbs. set (dest := response_val (replicate SignatureLen 0%Z)).
  assert (val_ok network_types network_implements dest) as Hd by (apply response_val_ok, zeros_ok).
  destruct (Unmarshal_total network_types network_implements DefaultTags networkCodec maxMessageSize
    bs dest networkCodec_ok Hbs Hd) as (r & Hu & _).
  destruct r as [v|e]; [|unfold signatureResponse; fold dest; rewrite Hu; by eexists].
  destruct (Unmarshal_sound network_types network_implements DefaultTags networkCodec maxMessageSize
    bs dest v networkCodec_ok Hbs Hd Hu) as (Hv & Ht & _ & _ & a & b & ->).
  destruct v as [| | | | | | | | | |l|]; try done. cbn [typeof] in Ht. injection Ht as Ht.
  destruct l as [|[? x] [|]]; try done. injection Ht as -> Hx.
  inversion Hv as [| | | | | | | | | |? Hl|]; subst.
  rewrite Forall_cons in Hl. cbn [snd] in Hl. destruct Hl as [Ox _].
  destruct (bytes_val_inv _ _ SignatureLen _ Ox Hx) as (sig & -> & Hb & Hlen).
  change (VStruct [(tagged "Signature", bytes_val sig)]) with (response_val sig).
  rewrite enc_response_val, signatureResponse_ok by done. eexists. split; [done|]. intros s.
  case_bool_decide; [done|]. destruct (SignatureFromBytes sig) as [x|] eqn:Hs; [|done].
  intros [= <-]. by eapply SignatureFromBytes_valid.
Qed.

(** ** The backend *)

(** A database that is a map: a key that was put is found, others are not. *)
Class DatabaseMap {W} `{!DatabaseClient W} (disk : W → gmap (list Z) (list Z)) : Prop := {
  put_law : ∀ k v w, ∃ w', client_Put k v w = (Ok ERROR_UNSPECIFIED, w') ∧ disk w' = <[k:=v]> (disk w);
  get_law : ∀ k w, client_Get k w =
    (Ok (match disk w !! k with Some v => (v, ERROR_UNSPECIFIED) | None => ([], ERROR_NOT_FOUND) end), w);
}.

Section backend.
Context {W : Type} `{!DatabaseClient W, !BlockReceiver W, !ValidatorReader W}.
Context (grow : nat → nat) (sha256 : list Z → list Z).
Context (sign : UnsignedMessage → result string (list Z)).

Lemma GetMessage_not_ErrNotFound id (w : W) w' : GetMessage sha256 id w ≠ Some (Err BErrNotFound, w').
Proof.
  unfold GetMessage, mbind, BM_bind, bcall, bcall_panic, blift. destruct (db_Get id w) as [[v|e] w1]; [|done].
  by destruct (ParseUnsignedMessage sha256 v) as [[]|].
Qed.

(** [Verify] only looks whether the message is stored. *)
Lemma backend_Verify_stored m (w : W) r w' :
  GetMessage sha256 (um_id m) w = Some (r, w') →
  backend_Verify sha256 m w = Some (Ok (match r with Ok _ => None | Err _ => Some ParseErrCode end), w').
Proof.
  intros Hg. unfold backend_Verify, mbind, BM_bind, btry. rewrite Hg. destruct r as [x|e]; [done|].
  rewrite bool_decide_eq_true_2; [done|]. intros ->. by eapply GetMessage_not_ErrNotFound.
Qed.

Lemma GetMessageSignature_stored m x (w w' : W) :
  GetMessage sha256 (um_id m) w = Some (Ok x, w') → GetMessage sha256 (um_id m) w' = Some (Ok x, w') →
  GetMessageSignature sha256 sign m w =
  Some (match sign m with Ok sig => Ok sig | Err e => Err (BSign e) end, w').
Proof.
  intros Hg Hg'. unfold GetMessageSignature, mbind, BM_bind.
  rewrite (backend_Verify_stored m w (Ok x) w' Hg). unfold ValidateMessage, mbind, BM_bind, btry.
  rewrite Hg'. cbn [mret BM_ret]. unfold signMessage, blift. by destruct (sign m).
Qed.

Lemma GetMessageSignature_unknown m e (w w' : W) :
  GetMessage sha256 (um_id m) w = Some (Err e, w') →
  GetMessageSignature sha256 sign m w = Some (Err (BVerify ParseErrCode), w').
Proof.
  intros Hg. unfold GetMessageSignature, mbind, BM_bind. by rewrite (backend_Verify_stored m w (Err e) w' Hg).
Qed.

Context (disk : W → gmap (list Z) (list Z)) `{!DatabaseMap disk}.

Lemma GetMessage_disk id w :
  GetMessage sha256 id w = blift BParseMessage (ParseUnsignedMessage sha256 (default [] (disk w !! id))) w.
Proof.
  unfold GetMessage, mbind, BM_bind, bcall, bcall_panic, db_Get, Get. rewrite get_law.
  by destruct (disk w !! id).
Qed.

Lemma ParseUnsignedMessage_nil : ParseUnsignedMessage sha256 [] = Some (Err ErrCantUnpackVersion).
Proof. unfold ParseUnsignedMessage, warp_Unmarshal. by rewrite Unmarshal_unfold. Qed.

Lemma AddMessage_disk m sig w :
  sign m = Ok sig → ∃ w', AddMessage sign m w = Some (Ok (), w') ∧ disk w' = <[um_id m := um_bytes m]> (disk w).
Proof.
  intros Hs. destruct (put_law (um_id m) (um_bytes m) w) as (w' & Hp & Hd). exists w'. split; [|done].
  unfold AddMessage, mbind, BM_bind, bcall, bcall_panic, Set_. rewrite Hp. cbn [finish ErrEnumToError].
  unfold signMessage, blift. by rewrite Hs.
Qed.
End backend.

(** ** Properties *)

(** A message's signature reaches the node that asks.  With a database that is a
    map and a signer that returns the bytes of a valid signature (not all zeros):
    after [AddMessage] of a message with an addressed call, the request a peer makes
    for it is decoded as it was made, and the answer of [networkHandler] gives
    the peer the signer's signature.  The answer for a message that was never
    added is the empty signature, which the peer reports as an error. *)
Theorem message_signature_served {W : Type} `{!DatabaseClient W, !BlockReceiver W, !ValidatorReader W, !Blst, !BlstLaws}
    (grow : nat → nat) (sha256 : list Z → list Z) (sign : UnsignedMessage → result string (list Z))
    (disk : W → gmap (list Z) (list Z)) (w : W) (u : UnsignedMessage)
    (call : list Z * list Z) (s : BLSSignature)
    (Hdisk : DatabaseMap disk) (Hsha : ∀ b, id_ok (sha256 b)) (Hu : unsigned_ok u)
    (Hcall : payload_Parse (um_Payload u) = Some (Ok (PAddressedCall call.1 call.2 (um_Payload u))))
    (Hs : SigValidate s false = true) (Hz : sig_Compress s ≠ replicate SignatureLen 0%Z)
    (Hsign : sign (initialized sha256 u) = Ok (sig_Compress s)) :
  let m := initialized sha256 u in
  (∃ w' req resp, AddMessage sign m w = Some (Ok (), w') ∧
    signatureRequest grow m = Some (Ok req) ∧
    BytesToRequest req = Some (Ok (MessageSignatureRequest (um_id m))) ∧
    Handle grow sha256 sign (NetworkID m) (SourceChainID m) (MessageSignatureRequest (um_id m)) w'
      = Some (Ok resp, w') ∧
    signatureResponse resp = Some (Ok s)) ∧
  (∀ id, disk w !! id = None → ∃ resp,
    Handle grow sha256 sign (NetworkID m) (SourceChainID m) (MessageSignatureRequest id) w
      = Some (Ok resp, w) ∧ signatureResponse resp = Some (Err GEmpty)).
Proof.
  intros m. destruct (initialized_bytes_ok sha256 Hsha u Hu) as [Hb Hi]. fold m in Hb, Hi, Hsign.
  destruct (sig_Uncompress_Compress s Hs) as (Hunc & Hsb & Hsl). split.
  - destruct (AddMessage_disk sign disk m _ w Hsign) as (w' & Hadd & Hd). exists w'.
    assert (GetMessage sha256 (um_id m) w' = Some (Ok m, w')) as Hg.
    { rewrite (GetMessage_disk sha256 disk), Hd, lookup_insert_eq. unfold blift.
      pose proof (um_refill_parse sha256 Hsha 0 0 m (initialized_ok sha256 u Hu) Hb Hi) as Hp.
      change (default [] (Some (um_bytes m))) with (0%Z :: 0%Z :: um_enc m). by rewrite Hp. }
    exists (0%Z :: 0%Z :: request_enc (MessageSignatureRequest (um_id m))), (response_bytes (sig_Compress s)).
    split_and!; [done| | | |].
    + unfold signatureRequest. change (um_Payload m) with (um_Payload u). rewrite Hcall.
      by rewrite RequestToBytes_ok.
    + by apply BytesToRequest_ok.
    + cbn [Handle]. unfold OnMessageSignatureRequest, mbind, BM_bind, btry. rewrite Hg.
      rewrite (GetMessageSignature_stored sha256 sign m m w' w' Hg Hg).
      rewrite Hsign. cbn [mret BM_ret]. unfold copy_array. rewrite <-Hsl at 1.
      rewrite take_app_length. by apply respond_ok.
    + unfold response_bytes. rewrite signatureResponse_ok, bool_decide_eq_false_2 by done.
      unfold SignatureFromBytes. by rewrite Hunc, Hs.
  - intros id Hid. exists (response_bytes (replicate SignatureLen 0%Z)). split.
    + cbn [Handle]. unfold OnMessageSignatureRequest, mbind, BM_bind, btry.
      rewrite (GetMessage_disk sha256 disk), Hid. simpl default. rewrite ParseUnsignedMessage_nil.
      cbn [blift mret BM_ret]. apply respond_ok; [apply zeros_ok|apply length_replicate].
    + unfold response_bytes.
      rewrite signatureResponse_ok, bool_decide_eq_true_2; [done|done|apply zeros_ok|apply length_replicate].
Qed.

(** Messages that are not stored are refused.  [Verify] means to look at the payload of
    an unknown message, but compares a wrapped error with [ErrNotFound]: whatever
    the payload (the hash of an accepted block, an uptime message), it answers
    [ParseErrCode], and [GetMessageSignature] fails.  Uptime messages could not be
    verified anyway: their codec has no registered type, so none can be built and
    no bytes parse. *)
Theorem unknown_messages_refused {W : Type} `{!DatabaseClient W, !BlockReceiver W, !ValidatorReader W}
    (grow : nat → nat) (sha256 : list Z → list Z) (sign : UnsignedMessage → result string (list Z))
    (m : UnsignedMessage) (e : bkerr) (src bs vID : list Z) (t : Z) (w w' : W)
    (Hunknown : GetMessage sha256 (um_id m) w = Some (Err e, w'))
    (Hbs : bytes_ok bs) (HvID : id_ok vID) (Ht : inU 64 t) :
  backend_Verify sha256 m w = Some (Ok (Some ParseErrCode), w') ∧
  GetMessageSignature sha256 sign m w = Some (Err (BVerify ParseErrCode), w') ∧
  verifyOffchainAddressedCall src bs w = Some (Ok (Some ParseErrCode), w) ∧
  ∃ x, NewValidatorUptime grow vID t = Some (Err x).
Proof.
  split; [exact (backend_Verify_stored sha256 m w (Err e) w' Hunknown)|].
  split; [exact (GetMessageSignature_unknown sha256 sign m e w w' Hunknown)|]. split.
  - unfold verifyOffchainAddressedCall, mbind, BM_bind, btry, blift.
    destruct (messages_Parse_fails bs Hbs) as [x ->]. done.
  - unfold NewValidatorUptime. set (v := VInterface 0 0 _).
    assert (val_ok messages_types messages_implements v) as Hv.
    { unfold v, vu_val. constructor; [|done|apply ok_ptr].
      - cbn [typeof map vu_ValidationID]. by rewrite typeof_bytes_val, (proj2 HvID).
      - constructor. repeat (apply Forall_cons; split); simpl;
          [apply bytes_val_ok, HvID|by constructor|apply slice_val_ok; constructor|done]. }
    destruct (Marshal_spec grow messages_types messages_implements DefaultTags messagesCodec
      MaxMessageSize (VPtr v) registry_ok_New (ok_ptr _ _ _ Hv)) as (r & -> & Hr).
    assert (encodable DefaultTags messagesCodec [] (VPtr v) = false) as He by reflexivity.
    rewrite He in Hr. simpl in Hr. destruct Hr as [x ->]. by exists x.
Qed.

(** A peer is asked for a signature at most twice.  [GetSignature] returns what the first
    answer holds; after one failed request it waits 100 ms, returns if the context
    ends meanwhile, and otherwise asks again.  When the second request fails too, it
    stops a timer that has fired and whose channel it has emptied already, and then
    receives from that channel: the call blocks forever, also when the context is
    cancelled, and neither the backoff nor a third request is reached. *)
Theorem signature_retry `{!Blst} (answer : list Z) (x y z : bool) (rest : list attempt)
    (Hanswer : bytes_ok answer) :
  let failed x := mkAttempt None x false in
  let loop l := GetSignature_loop l NewTimer initialRetryFetchSignatureDelay in
  (∃ r, signatureResponse answer = Some r ∧ (∀ s, r = Ok s → SigValidate s false = true) ∧
    loop (mkAttempt (Some answer) x z :: rest) = Some (Returned r, []) ∧
    loop (failed x :: mkAttempt (Some answer) y z :: rest) = Some (Returned r, [100%Z])) ∧
  loop (mkAttempt None x true :: rest) = Some (Returned (Err GCtx), []) ∧
  loop (failed x :: mkAttempt None y z :: rest) = Some (Blocked, [100%Z]).
Proof.
  intros failed loop. destruct (signatureResponse_total answer Hanswer) as (r & Hr & Hv).
  split; [exists r; split; [done|]; split; [done|]|]; unfold loop, failed;
    cbn [GetSignature_loop at_response at_expires at_done]; rewrite ?Hr;
    by destruct x, y.
Qed.
