(* ===== verification/WarpBackendConcrete.v ===== *)
(** * The warp backend on concrete inputs

    A database that is a map in memory, a VM without blocks, and a signer with a key of
    the toy signatures of WarpConcrete.v. *)

From S2P Require Import Prelude Codec CodecValues Database WarpMessage WarpMessageProps WarpSignature WarpConcrete WarpBackend WarpBackendProps.

Abbreviation Mem := (gmap (list Z) (list Z)) (only parsing).

#[export] Instance mem_db : DatabaseClient Mem := {|
  client_Close w := (Ok ERROR_UNSPECIFIED, w);
  client_Has k w := (Ok (bool_decide (is_Some (w !! k)), ERROR_UNSPECIFIED), w);
  client_Get k w := (Ok (match w !! k with
                         | Some v => (v, ERROR_UNSPECIFIED)
                         | None => ([], ERROR_NOT_FOUND)
                         end), w);
  client_Put k v w := (Ok ERROR_UNSPECIFIED, <[k:=v]> w);
  client_Delete k w := (Ok ERROR_UNSPECIFIED, delete k w);
  client_WriteBatch _ w := (Ok ERROR_UNSPECIFIED, w);
|}.
#[export] Instance no_blocks : BlockReceiver Mem := {|
  recv_GetBlock _ w := Some (Ok (mkAcceptedBlock 0 []), w);
  recv_GetBlockIDAtHeight _ w := Some (Ok [], w);
|}.
#[export] Instance no_validators : ValidatorReader Mem := {|
  reader_GetValidatorAndUptime _ w := (Err "unknown validator"%string, w);
|}.

Lemma mem_map : DatabaseMap (λ w : Mem, w).
Proof. split; [|done]. intros k v w. by exists (<[k:=v]> w). Qed.

(** The bytes of an addressed call. *)
Definition call_bytes : list Z :=
  [0; 0; 0; 0; 0; 1; 0; 0; 0; 1; 8; 0; 0; 0; 2; 6; 7]%Z.
Definition call_msg : UnsignedMessage := mkUnsigned 10 demo_chain call_bytes [] [].
Definition demo_bls : @BLSSignature toy_Blst := 7%Z.
Definition demo_sign (m : UnsignedMessage) : result string (list Z) := Ok (sig_Compress demo_bls).

Lemma call_msg_ok : unsigned_ok call_msg.
Proof. split; [exact demo_net_ok|exact demo_chain_ok|split; [by repeat constructor|done]]. Qed.

Lemma message_signature_served_witness :
  ∃ w' req resp,
    AddMessage demo_sign (initialized demo_sha256 call_msg) (∅ : Mem) = Some (Ok (), w') ∧
    signatureRequest (λ n, n) (initialized demo_sha256 call_msg) = Some (Ok req) ∧
    Handle (λ n, n) demo_sha256 demo_sign 10 demo_chain
      (MessageSignatureRequest (um_id (initialized demo_sha256 call_msg))) w' = Some (Ok resp, w') ∧
    signatureResponse resp = Some (Ok demo_bls).
Proof.
  destruct (message_signature_served (λ n, n) demo_sha256 demo_sign (λ w, w) (∅ : Mem) call_msg
    ([8]%Z, [6; 7]%Z) demo_bls mem_map demo_sha256_ok call_msg_ok ltac:(vm_compute; reflexivity)
    ltac:(vm_compute; reflexivity) ltac:(vm_compute; discriminate) eq_refl)
    as [(w' & req & resp & H1 & H2 & _ & H3 & H4) _].
  exists w', req, resp. split; [exact H1|]. split; [exact H2|]. split; [exact H3|exact H4].
Defined.

Lemma unknown_messages_refused_witness :
  ∃ e w', GetMessage demo_sha256 (um_id demo_msg) (∅ : Mem) = Some (Err e, w') ∧
    backend_Verify demo_sha256 demo_msg (∅ : Mem) = Some (Ok (Some ParseErrCode), w').
Proof.
  exists (BParseMessage ErrCantUnpackVersion), ∅.
  assert (GetMessage demo_sha256 (um_id demo_msg) (∅ : Mem)
    = Some (Err (BParseMessage ErrCantUnpackVersion), ∅)) as Hg by (vm_compute; reflexivity).
  split; [exact Hg|].
  exact (proj1 (unknown_messages_refused (λ n, n) demo_sha256 demo_sign demo_msg _ [] [] demo_chain 3
    ∅ ∅ Hg (Forall_nil_2 _) demo_chain_ok ltac:(by split))).
Defined.

Lemma signature_retry_witness :
  GetSignature_loop [mkAttempt None false false; mkAttempt None true true] NewTimer
    initialRetryFetchSignatureDelay = Some (Blocked, [100%Z]) ∧
  GetSignature_loop [mkAttempt None true false; mkAttempt (Some [1%Z]) false true] NewTimer
    initialRetryFetchSignatureDelay = Some (Returned (Err (GCodec ErrCantUnpackVersion)), [100%Z]).
Proof.
  assert (bytes_ok [1%Z]) as Hb by (by repeat constructor). split.
  - exact (proj2 (proj2 (signature_retry [1%Z] false true true [] Hb))).
  - destruct (signature_retry [1%Z] true false true [] Hb) as [(r & Hr & _ & _ & Hl) _].
    assert (signatureResponse [1%Z] = Some (Err (GCodec ErrCantUnpackVersion))) as He
      by (vm_compute; reflexivity).
    rewrite He in Hr. injection Hr as <-. exact Hl.
Defined.
