(* ===== verification/P2p.v ===== *)
(** * Application messages between nodes

    src/utils/avalanche/network/p2p (router.go, network.go, handler.go, client.go, error.go):
    a message starts with the number of the protocol it is for, as a varint; the router
    gives it to the protocol's handler and sends the answer back.
    src/utils/avalanche/network/acp118/p2p_handler.go is the one protocol of the VM, requests
    for signatures of warp messages.  src/utils/evm/peer/network.go ([AppRequest]) is in front
    of it: requests of the older protocol (WarpBackend.v) are answered there.

    The world [W] holds the node's sender ([AppSender]) and what handlers use.  An
    [AppError] is its code.  Sending and counting a message may fail; such an error is
    fatal.  [None] is a panic. *)

From S2P Require Import Prelude Codec CodecValues Database WarpMessage WarpSignature WarpBackend.

(** ** encoding/binary *)

Definition MaxVarintLen64 : Z := 10.

(** [binary.Uvarint]: the number and how many bytes it took; 0 when there are not enough
    bytes, negative when the number does not fit. *)
Fixpoint Uvarint_loop (i : Z) (x s : Z) (buf : list Z) : Z * Z :=
  match buf with
  | [] => (0, 0)%Z
  | b :: buf =>
      if bool_decide (i = MaxVarintLen64) then (0, - (i + 1))%Z
      else if bool_decide (b < 128)%Z then
        if bool_decide (i = MaxVarintLen64 - 1)%Z && bool_decide (1 < b)%Z then (0, - (i + 1))%Z
        else (Z.lor x (wrapU 64 (Z.shiftl b s)), i + 1)%Z
      else Uvarint_loop (i + 1) (Z.lor x (wrapU 64 (Z.shiftl (Z.land b 127) s))) (s + 7) buf
  end.
Definition Uvarint (buf : list Z) : Z * Z := Uvarint_loop 0 0 0 buf.

(** [binary.AppendUvarint(nil, x)]: a 64-bit number takes at most 10 bytes. *)
Fixpoint AppendUvarint (fuel : nat) (x : Z) : list Z :=
  match fuel with
  | O => []
  | S fuel => if bool_decide (x < 128)%Z then [x]
              else wrapU 8 (Z.lor x 128) :: AppendUvarint fuel (Z.shiftr x 7)
  end.

(** ** p2p/client.go, p2p/network.go *)

Definition ProtocolPrefix (handlerID : Z) : list Z := AppendUvarint 10 handlerID.
Definition PrefixMessage (prefix msg : list Z) : list Z := prefix ++ msg.
Definition ParseMessage (msg : list Z) : option (Z * list Z) :=
  let '(handlerID, bytesRead) := Uvarint msg in
  if bool_decide (bytesRead ≤ 0)%Z then None else Some (handlerID, drop (Z.to_nat bytesRead) msg).

(** ** p2p/error.go, p2p/handler.go *)

Definition ErrUnexpected : Z := -1.
Definition ErrUnregisteredHandler : Z := -2.
Definition ErrNotValidator : Z := -3.
Definition TxGossipHandlerID : Z := 0.
Definition AtomicTxGossipHandlerID : Z := 1.
Definition SignatureRequestHandlerID : Z := 2.

Inductive p2p_err := ErrExistingAppProtocol | ErrUnrequestedResponse | ESend (e : string) | EObserve (e : string).

Class AppSender (W : Type) := {
  SendAppRequest : list Z → Z → list Z → W → option string * W;
  SendAppResponse : list Z → Z → list Z → W → option string * W;
  SendAppError : list Z → Z → Z → W → option string * W;
}.

Section p2p.
Context {W : Type} `{!AppSender W}.

Record Handler := mkHandler {
  h_AppGossip : list Z → list Z → W → option W;
  h_AppRequest : list Z → Z → list Z → W → option (result Z (list Z) * W);
}.

Definition NoOpHandler : Handler := mkHandler (λ _ _ w, Some w) (λ _ _ _ w, Some (Ok [], w)).

(** [has]: whether the node is a validator. *)
Definition ValidatorHandler (handler : Handler) (has : list Z → W → bool * W) : Handler := mkHandler
  (λ nodeID gossipBytes w,
     let '(ok, w) := has nodeID w in
     if ok : bool then h_AppGossip handler nodeID gossipBytes w else Some w)
  (λ nodeID deadline requestBytes w,
     let '(ok, w) := has nodeID w in
     if ok : bool then h_AppRequest handler nodeID deadline requestBytes w else Some (Err ErrNotValidator, w)).

Definition sent (r : option string * W) : option p2p_err * W := (ESend <$> r.1, r.2).

Definition responder_AppRequest (handler : Handler) (nodeID : list Z) (requestID deadline : Z) (request : list Z)
    (w : W) : option (option p2p_err * W) :=
  '(r, w) ← h_AppRequest handler nodeID deadline request w;
  Some (match r with
        | Err code => sent (SendAppError nodeID requestID code w)
        | Ok appResponse => sent (SendAppResponse nodeID requestID appResponse w)
        end).

(** ** p2p/router.go *)

(** A callback gets the response, or the code of the error. *)
Definition callback : Type := list Z → result Z (list Z) → W → option W.

Record router := mkRouter {
  handlers : gmap Z Handler;
  pendingAppRequests : gmap Z callback;
  r_requestID : Z;
}.

Definition newRouter : router := mkRouter ∅ ∅ 1.

Definition addHandler (handlerID : Z) (handler : Handler) (r : router) : option p2p_err * router :=
  match handlers r !! handlerID with
  | Some _ => (Some ErrExistingAppProtocol, r)
  | None => (None, mkRouter (<[handlerID := handler]> (handlers r)) (pendingAppRequests r) (r_requestID r))
  end.

Definition router_parse (prefixedMsg : list Z) (r : router) : option (list Z * Handler * Z) :=
  '(handlerID, msg) ← ParseMessage prefixedMsg;
  handler ← handlers r !! handlerID;
  Some (msg, handler, handlerID).

Definition clearAppRequest (requestID : Z) (r : router) : option callback * router :=
  (pendingAppRequests r !! requestID,
   mkRouter (handlers r) (delete requestID (pendingAppRequests r)) (r_requestID r)).

(** [metrics.observe] with the label of the operation and of the handler. *)
Variable observe : string → Z → W → option string * W.
Definition observed (r : option string * W) : option p2p_err * W := (EObserve <$> r.1, r.2).

Definition router_AppRequest (nodeID : list Z) (requestID deadline : Z) (request : list Z) (r : router) (w : W)
    : option (option p2p_err * W) :=
  match router_parse request r with
  | None => Some (sent (SendAppError nodeID requestID ErrUnregisteredHandler w))
  | Some (parsedMsg, handler, handlerID) =>
      '(err, w) ← responder_AppRequest handler nodeID requestID deadline parsedMsg w;
      match err with
      | Some err => Some (Some err, w)
      | None => Some (observed (observe "app_request" handlerID w))
      end
  end.

Definition router_AppGossip (nodeID gossip : list Z) (r : router) (w : W) : option (option p2p_err * W) :=
  match router_parse gossip r with
  | None => Some (None, w)
  | Some (parsedMsg, handler, handlerID) =>
      w ← h_AppGossip handler nodeID parsedMsg w;
      Some (observed (observe "app_gossip" handlerID w))
  end.

(** The label is the handler's of the pending request; it is not needed below. *)
Definition router_answer (op : string) (nodeID : list Z) (requestID : Z) (answer : result Z (list Z)) (r : router) (w : W)
    : option (option p2p_err * router * W) :=
  let '(pending, r) := clearAppRequest requestID r in
  match pending with
  | None => Some (Some ErrUnrequestedResponse, r, w)
  | Some callback =>
      w ← callback nodeID answer w;
      let '(err, w) := observed (observe op 0%Z w) in Some (err, r, w)
  end.
Definition router_AppRequestFailed (nodeID : list Z) (requestID appErr : Z) :=
  router_answer "app_error" nodeID requestID (Err appErr).
Definition router_AppResponse (nodeID : list Z) (requestID : Z) (response : list Z) :=
  router_answer "app_response" nodeID requestID (Ok response).

End p2p.

(** ** Varints *)
#[local] Open Scope Z_scope.

Lemma lor_shift x b s : 0 ≤ s → 0 ≤ x < 2 ^ s → Z.lor x (b * 2 ^ s) = x + b * 2 ^ s.
Proof.
  intros Hs Hx. assert (Z.land x (b * 2 ^ s) = 0) as Hl.
  { rewrite <-(Z.mod_small x (2 ^ s)) by lia. rewrite <-Z.land_ones, <-Z.land_assoc, (Z.land_comm (Z.ones s)) by lia.
    rewrite Z.land_ones, Z.mod_mul by lia. apply Z.land_0_r. }
  rewrite Z.add_nocarry_lxor, Z.lxor_lor by done. done.
Qed.

(** The bytes with a continuation bit. *)
Lemma varint_byte v : 0 ≤ v →
  let b := wrapU 8 (Z.lor v 128) in 128 ≤ b ∧ Z.land b 127 = v `mod` 128.
Proof.
  intros Hv b. unfold b, wrapU. pose proof (Z.mod_pos_bound (Z.lor v 128) (2 ^ 8)). split.
  - assert (Z.testbit (Z.lor v 128 `mod` 2 ^ 8) 7 = true) as Ht.
    { rewrite Z.mod_pow2_bits_low, Z.lor_spec by lia. change (Z.testbit 128 7) with true. by rewrite orb_true_r. }
    destruct (decide (128 ≤ Z.lor v 128 `mod` 2 ^ 8)) as [|Hlt]; [done|]. exfalso.
    rewrite Z.testbit_eqb, Z.div_small in Ht by lia. done.
  - replace (v `mod` 128) with (Z.land v (Z.ones 7)) by (by rewrite Z.land_ones by lia).
    replace (Z.lor v 128 `mod` 2 ^ 8) with (Z.land (Z.lor v 128) (Z.ones 8)) by (by rewrite Z.land_ones by lia).
    change 127 with (Z.ones 7).
    rewrite <-Z.land_assoc. change (Z.land (Z.ones 8) (Z.ones 7)) with (Z.ones 7).
    rewrite Z.land_lor_distr_l. change (Z.land 128 (Z.ones 7)) with 0. apply Z.lor_0_r.
Qed.

Lemma Uvarint_append fuel i x v rest : (0 < fuel)%nat → 0 ≤ i → i + Z.of_nat fuel = 10 →
  0 ≤ v → v * 2 ^ (7 * i) < 2 ^ 64 → 0 ≤ x < 2 ^ (7 * i) →
  Uvarint_loop i x (7 * i) (AppendUvarint fuel v ++ rest) =
    (x + v * 2 ^ (7 * i), i + Z.of_nat (length (AppendUvarint fuel v))).
Proof.
  revert i x v. induction fuel as [|fuel IH]; intros i x v Hf Hi Hlen Hv Hfit Hx; [lia|]. cbn [AppendUvarint].
  assert (0 < 2 ^ (7 * i)) by (apply Z.pow_pos_nonneg; lia).
  assert (∀ b, 0 ≤ b ≤ v → Z.lor x (wrapU 64 (Z.shiftl b (7 * i))) = x + b * 2 ^ (7 * i)) as Hlor.
  { intros b Hb. rewrite Z.shiftl_mul_pow2 by lia. rewrite wrapU_id by (unfold inU; nia). by apply lor_shift; lia. }
  case_bool_decide as Hs; cbn [app Uvarint_loop length]; unfold MaxVarintLen64;
    rewrite (bool_decide_eq_false_2 (i = 10)) by lia.
  - rewrite (bool_decide_eq_true_2 (v < 128)) by done.
    destruct (bool_decide (i = 10 - 1) && bool_decide (1 < v)) eqn:E; [|rewrite Hlor by lia; f_equal; lia].
    apply andb_true_iff in E as [E1%bool_decide_eq_true E2%bool_decide_eq_true]. exfalso. subst i.
    change (2 ^ (7 * (10 - 1))) with (2 ^ 63) in Hfit. lia.
  - destruct (varint_byte v Hv) as [Hb Hl]. rewrite (bool_decide_eq_false_2 (_ < 128)) by lia.
    rewrite Hl. pose proof (Z.mod_pos_bound v 128). pose proof (Z.div_mod v 128).
    rewrite Hlor by (pose proof (Z.div_pos v 128); lia).
    destruct fuel as [|fuel].
    { exfalso. assert (i = 9) as -> by lia. change (2 ^ (7 * 9)) with (2 ^ 63) in Hfit. lia. }
    replace (7 * i + 7) with (7 * (i + 1)) by lia. rewrite Z.shiftr_div_pow2 by lia. change (2 ^ 7) with 128.
    assert (2 ^ (7 * (i + 1)) = 128 * 2 ^ (7 * i)) as Hp.
    { replace (7 * (i + 1)) with (7 + 7 * i) by lia. rewrite Z.pow_add_r by lia. done. }
    rewrite IH; [|lia|lia|lia|apply Z.div_pos; lia|rewrite Hp; nia|rewrite Hp; nia].
    f_equal; [rewrite Hp; nia|lia].
Qed.

(** A message is given back with the number of its protocol. *)
Lemma ParseMessage_prefix handlerID msg : inU 64 handlerID →
  ParseMessage (PrefixMessage (ProtocolPrefix handlerID) msg) = Some (handlerID, msg).
Proof.
  intros Hid. unfold inU in Hid. unfold ParseMessage, PrefixMessage, ProtocolPrefix, Uvarint.
  pose proof (Uvarint_append 10 0 0 handlerID msg) as E. rewrite Z.mul_0_r, Z.pow_0_r, Z.mul_1_r, !Z.add_0_l in E.
  rewrite E by lia. assert (length (AppendUvarint 10 handlerID) ≠ 0%nat) as Hne by (cbn [AppendUvarint]; by case_bool_decide).
  rewrite bool_decide_eq_false_2 by lia. by rewrite Nat2Z.id, drop_app_length.
Qed.
