(* ===== verification/AppHandlers.v ===== *)
(** * Requests of other nodes to the VM

    The two protocols for signatures behind the VM's [AppRequest]: the older one
    (src/utils/evm/peer/network.go, whose requests are those of WarpBackend.v), and, for what
    is not such a request, ACP-118 through the p2p router (P2p.v,
    src/utils/avalanche/network/acp118/p2p_handler.go).  src/vm/vm.go makes both of them over
    the warp backend. *)

From S2P Require Import Prelude Codec CodecValues Database WarpMessage WarpMessageProps WarpSignature WarpConcrete WarpBackend WarpBackendProps WarpBackendConcrete P2p.
#[local] Open Scope Z_scope.

Section handlers.
Context {W : Type} `{!AppSender W, !DatabaseClient W, !BlockReceiver W, !ValidatorReader W}.
Context (grow : nat → nat) (sha256 : list Z → list Z).
Context (warpSigner_Sign : UnsignedMessage → result string (list Z)).
Context (networkID : Z) (sourceChainID : list Z).

(** Package proto: the message and the justification of a request, and a response. *)
Context (proto_UnmarshalRequest : list Z → option (list Z * list Z)).
Context (proto_MarshalResponse : list Z → option (list Z)).

(** ** acp118/p2p_handler.go *)

(** The cache: what [Get] and [Put] do to the world. *)
Record cacher := mkCacher {
  cache_Get : list Z → W → option (list Z) * W;
  cache_Put : list Z → list Z → W → W;
}.
Definition cache_Empty : cacher := mkCacher (λ _ w, (None, w)) (λ _ _ w, w).

Definition signatureToResponse (signature : list Z) : result Z (list Z) :=
  match proto_MarshalResponse signature with Some bytes => Ok bytes | None => Err ErrUnexpected end.

(** [verifier.Verify(ctx, msg, justification)] *)
Definition acp118_AppRequest (signatureCache : cacher)
    (verify : UnsignedMessage → list Z → W → option (option Z * W)) (requestBytes : list Z) (w : W)
    : option (result Z (list Z) * W) :=
  match proto_UnmarshalRequest requestBytes with
  | None => Some (Err ErrUnexpected, w)
  | Some (message, justification) =>
      r ← ParseUnsignedMessage sha256 message;
      match r with
      | Err _ => Some (Err ErrUnexpected, w)
      | Ok msg =>
          let msgID := um_id msg in
          let '(cached, w) := cache_Get signatureCache msgID w in
          match cached with
          | Some signatureBytes => Some (signatureToResponse signatureBytes, w)
          | None =>
              '(err, w) ← verify msg justification w;
              match err with
              | Some code => Some (Err code, w)
              | None =>
                  match warpSigner_Sign msg with
                  | Err _ => Some (Err ErrUnexpected, w)
                  | Ok signature =>
                      Some (signatureToResponse signature, cache_Put signatureCache msgID signature w)
                  end
              end
          end
      end
  end.

(** The verifier of the VM is its warp backend, which returns no other error. *)
Definition backend_verifier (msg : UnsignedMessage) (_ : list Z) (w : W) : option (option Z * W) :=
  match backend_Verify sha256 msg w with
  | Some (Ok r, w) => Some (r, w)
  | _ => None
  end.

Definition NewCachedHandler (signatureCache : cacher) : Handler :=
  mkHandler (h_AppGossip NoOpHandler)
    (λ _ _ requestBytes, acp118_AppRequest signatureCache backend_verifier requestBytes).
Definition NewHandler : Handler := NewCachedHandler cache_Empty.

(** The router of src/vm/vm.go. *)
Definition vm_router : router := (addHandler SignatureRequestHandlerID NewHandler newRouter).2.

(** ** evm/peer/network.go *)

Definition minRequestHandlingDuration : Z := 100 * 10 ^ 6.

(** The three readings of the clock. *)
Definition calculateTimeUntilDeadline (deadline now1 now2 now3 : Z) : option Z :=
  let timeTillDeadline := deadline - now1 in
  let bufferedDeadline := now2 + Z.quot timeTillDeadline 2 in
  if bool_decide (bufferedDeadline - now3 < minRequestHandlingDuration) then None else Some bufferedDeadline.

Inductive net_err := NHandler (e : bkerr) | NSend (e : string) | NP2p (e : p2p_err).

Variable observe : string → Z → W → option string * W.

Definition network_AppRequest (closed : bool) (r : router) (nodeID : list Z) (requestID deadline : Z)
    (now1 now2 now3 : Z) (request : list Z) (w : W) : option (option net_err * W) :=
  if closed then Some (None, w)
  else
    match BytesToRequest request with
    | None => None
    | Some (Err _) =>
        '(err, w) ← router_AppRequest observe nodeID requestID deadline request r w;
        Some (NP2p <$> (err : option p2p_err), w)
    | Some (Ok req) =>
        match calculateTimeUntilDeadline deadline now1 now2 now3 with
        | None => Some (None, w)
        | Some _ =>
            match Handle grow sha256 warpSigner_Sign networkID sourceChainID req w with
            | None => None
            | Some (Err e, w) => Some (Some (NHandler e), w)
            | Some (Ok responseBytes, w) =>
                if bool_decide (responseBytes = []) then Some (None, w)
                else let '(err, w) := SendAppResponse nodeID requestID responseBytes w in Some (NSend <$> (err : option string), w)
            end
        end
    end.

(** ** Lemmas *)

(** A request of the older protocol has a zero in its third byte. *)
Lemma BytesToRequest_third bs req : bytes_ok bs → BytesToRequest bs = Some (Ok req) →
  ∃ a b rest, bs = a :: b :: 0 :: rest.
Proof.
  intros Hb E. unfold BytesToRequest in E.
  destruct (Unmarshal _ _ _ _ _ _ _) as [[v|]|] eqn:Eu; [|done..].
  apply Unmarshal_sound in Eu as (Hv & Ht & He & Hl & a & b & ->); [|apply networkCodec_ok|done|constructor].
  destruct (request_of_val v) as [r|] eqn:Er; [|done]. cbn in E.
  unfold request_of_val in Er. repeat case_match; simplify_eq; by eexists _, _, _.
Qed.

(** A struct of one array. *)
Lemma struct_of_array x name n : typeof x = TStruct [(name, TArray n (TUint W8))] →
  ∃ f l, x = VStruct [(f, VArray (TUint W8) l)].
Proof.
  destruct x as [| | | | | | | | | |fields|]; try done. cbn [typeof]. intros [= Ht].
  destruct fields as [|[f y] [|]]; [done| |by destruct p]. injection Ht as -> Hy.
  destruct y; try done. injection Hy as _ ->. eauto.
Qed.

Lemma BytesToRequest_total bs : bytes_ok bs → ∃ r, BytesToRequest bs = Some r.
Proof.
  intros Hb. unfold BytesToRequest.
  destruct (Unmarshal_total network_types network_implements DefaultTags networkCodec maxMessageSize
    bs (VNilInterface 0) networkCodec_ok Hb (ok_niliface _ _ 0)) as (r & Hu & _). rewrite Hu.
  destruct r as [v|e]; [|eauto].
  apply Unmarshal_sound in Hu as (Hv & Ht & He & _); [|apply networkCodec_ok|done|constructor].
  destruct v as [| | | | | |i|i rt x| | | |]; try done. inversion Hv as [| | | | | | |? ? ? Htx Hi Hx| | | |]; subst.
  destruct rt as [|[|[|rt]]]; try done; apply struct_of_array in Htx as (f & l & ->); by eexists.
Qed.

(** ** What a request for a signature is answered *)

Context (disk : W → gmap (list Z) (list Z)) `{!DatabaseMap disk} (Hsha : ∀ b, id_ok (sha256 b)).

Definition is_stored (d : gmap (list Z) (list Z)) (u : UnsignedMessage) : bool :=
  match ParseUnsignedMessage sha256 (default [] (d !! um_id u)) with Some (Ok _) => true | _ => false end.

Definition signature_answer (d : gmap (list Z) (list Z)) (request : list Z) : result Z (list Z) :=
  match proto_UnmarshalRequest request with
  | None => Err ErrUnexpected
  | Some (message, _) =>
      match ParseUnsignedMessage sha256 message with
      | Some (Ok u) =>
          if is_stored d u then
            match warpSigner_Sign u with Ok sig => signatureToResponse sig | Err _ => Err ErrUnexpected end
          else Err ParseErrCode
      | _ => Err ErrUnexpected
      end
  end.

Lemma acp118_answer request w :
  (∀ m j, proto_UnmarshalRequest request = Some (m, j) → bytes_ok m) →
  (∀ id bs, disk w !! id = Some bs → bytes_ok bs) →
  acp118_AppRequest cache_Empty backend_verifier request w = Some (signature_answer (disk w) request, w).
Proof.
  intros Hm Hd. unfold acp118_AppRequest, signature_answer.
  destruct (proto_UnmarshalRequest request) as [[m j]|]; [|done].
  destruct (ParseUnsigned_sound sha256 Hsha m) as (r & Hr & _); [by eapply Hm|]. rewrite Hr. cbn [mbind option_bind].
  destruct r as [u|]; [|done]. cbn [cache_Get cache_Empty].
  assert (bytes_ok (default [] (disk w !! um_id u))) as Hb.
  { destruct (disk w !! um_id u) as [bs|] eqn:E; [by eapply Hd|constructor]. }
  destruct (ParseUnsigned_sound sha256 Hsha _ Hb) as (r' & Hr' & _).
  assert (GetMessage sha256 (um_id u) w = Some (match r' with Ok x => Ok x | Err e => Err (BParseMessage e) end, w)) as Hg.
  { rewrite (GetMessage_disk sha256 disk). unfold blift. rewrite Hr'. by destruct r'. }
  unfold backend_verifier. rewrite (backend_Verify_stored _ _ _ _ _ Hg). unfold is_stored. rewrite Hr'.
  destruct r' as [x|e]; cbn; [|done]. by destruct (warpSigner_Sign u).
Qed.

(** C21: a peer's request for a signature is answered once, and a signature is given only for
    a message the backend has stored.  A request of the ACP-118 protocol (number 2, for a
    message that is not empty) is not taken for one of the older protocol, whatever its
    other bytes, and reaches the handler of the VM; exactly one answer is sent: the
    signature of the warp message when the message can be parsed, is in the database and is
    signed, and otherwise an error.  A request for no registered protocol gets the error of
    an unregistered handler. *)
Theorem signature_requests_answered nodeID requestID deadline now1 now2 now3 len request w :
  bytes_ok (10 :: len :: request) → len ≠ 0 →
  (∀ bs m j, proto_UnmarshalRequest bs = Some (m, j) → bytes_ok m) →
  (∀ id bs, disk w !! id = Some bs → bytes_ok bs) →
  let serve := network_AppRequest false vm_router nodeID requestID deadline now1 now2 now3 in
  (let '(err, w') := match signature_answer (disk w) (10 :: len :: request) with
                     | Ok response => SendAppResponse nodeID requestID response w
                     | Err code => SendAppError nodeID requestID code w
                     end in
   serve (PrefixMessage (ProtocolPrefix SignatureRequestHandlerID) (10 :: len :: request)) w =
     match err with
     | Some e => Some (Some (NP2p (ESend e)), w')
     | None => let '(e, w'') := observe "app_request" SignatureRequestHandlerID w' in Some (NP2p ∘ EObserve <$> e, w'')
     end) ∧
  (∀ bs, bytes_ok bs → (∀ r, BytesToRequest bs ≠ Some (Ok r)) →
    (∀ h msg, ParseMessage bs = Some (h, msg) → h ≠ SignatureRequestHandlerID) →
    serve bs w = let '(err, w') := SendAppError nodeID requestID ErrUnregisteredHandler w in Some (NP2p ∘ ESend <$> err, w')).
Proof.
  intros Hb Hlen Hm Hd serve. subst serve. cbv beta.
  assert (∀ bs, bytes_ok bs → (∀ r, BytesToRequest bs ≠ Some (Ok r)) → ∃ e, BytesToRequest bs = Some (Err e)) as Hlegacy.
  { intros bs Hbs Hn. destruct (BytesToRequest_total bs Hbs) as [[r|e] E]; [by apply Hn in E|eauto]. }
  split.
  - pose proof (ParseMessage_prefix SignatureRequestHandlerID (10 :: len :: request)) as Hp.
    change (PrefixMessage (ProtocolPrefix SignatureRequestHandlerID) (10 :: len :: request)) with (2 :: 10 :: len :: request) in *.
    unfold network_AppRequest. destruct (Hlegacy (2 :: 10 :: len :: request)) as [e ->].
    { constructor; [|done]. unfold byte_ok, inU. lia. }
    { intros r (a & b & rest & E)%BytesToRequest_third; [congruence|]. constructor; [|done]. unfold byte_ok, inU. lia. }
    unfold router_AppRequest, router_parse. rewrite Hp by (unfold inU, SignatureRequestHandlerID; lia). cbn [mbind option_bind].
    change (handlers vm_router !! SignatureRequestHandlerID) with (Some NewHandler). cbn [mbind option_bind].
    unfold responder_AppRequest. cbn [h_AppRequest NewHandler NewCachedHandler].
    rewrite acp118_answer by eauto. cbn [mbind option_bind].
    destruct (signature_answer _ _) as [resp|code]; cbn [sent].
    + destruct (SendAppResponse nodeID requestID resp w) as [[e'|] w1]; cbn; [done|].
      by destruct (observe _ _ w1) as [[]].
    + destruct (SendAppError nodeID requestID code w) as [[e'|] w1]; cbn; [done|].
      by destruct (observe _ _ w1) as [[]].
  - intros bs Hbs Hn Hp. unfold network_AppRequest. destruct (Hlegacy bs Hbs Hn) as [e ->].
    unfold router_AppRequest.
    assert (router_parse bs vm_router = None) as ->.
    { unfold router_parse. destruct (ParseMessage bs) as [[h msg]|]; [|done]. cbn [mbind option_bind].
      change (handlers vm_router) with (<[SignatureRequestHandlerID := NewHandler]> (∅ : gmap Z Handler)).
      rewrite lookup_insert_ne, lookup_empty; [done|]. intros <-. by eapply Hp. }
    cbn. by destruct (SendAppError _ _ _ _) as [[] ?].
Qed.
End handlers.

(** ** A request on concrete inputs

    A node's mailbox is the entry of the database with its ID as the key.  A protobuf message
    with one field of bytes is a tag, a length and the bytes. *)

#[local] Instance mem_sender : AppSender Mem := {|
  SendAppRequest n _ b w := (None, <[n := b]> w);
  SendAppResponse n _ b w := (None, <[n := b]> w);
  SendAppError n _ c w := (None, <[n := [c]]> w);
|}.
Definition ex_unmarshal (bs : list Z) : option (list Z * list Z) :=
  match bs with 10 :: len :: rest => Some (filter (λ b, byte_ok b) (take (Z.to_nat len) rest), []) | _ => None end.
Definition ex_marshal (sig : list Z) : option (list Z) := Some (10 :: Z.of_nat (length sig) :: sig).
Definition ex_stored : Mem := {[ um_id (initialized demo_sha256 call_msg) := um_bytes (initialized demo_sha256 call_msg) ]}.
Definition ex_request : list Z := um_bytes (initialized demo_sha256 call_msg).

Lemma signature_requests_answered_witness :
  let serve := network_AppRequest (λ n, n) demo_sha256 demo_sign 10 demo_chain (λ _ _ w, (None, w)) false
    (vm_router demo_sha256 demo_sign ex_unmarshal ex_marshal) [1] 4 5 0 0 0 in
  ∃ w', serve (2 :: 10 :: Z.of_nat (length ex_request) :: ex_request) ex_stored = Some (None, w') ∧
        w' !! [1] = ex_marshal (sig_Compress demo_bls).
Proof.
  assert (bytes_ok (10 :: Z.of_nat (length ex_request) :: ex_request)) as H1 by (vm_compute; repeat constructor; discriminate).
  assert (Z.of_nat (length ex_request) ≠ 0) as H2 by (vm_compute; discriminate).
  assert (∀ bs m j, ex_unmarshal bs = Some (m, j) → bytes_ok m) as H3.
  { intros bs m j E. unfold ex_unmarshal in E. repeat case_match; simplify_eq. apply Forall_forall.
    intros x [? _]%list_elem_of_filter. done. }
  assert (∀ id bs, ex_stored !! id = Some bs → bytes_ok bs) as H4.
  { intros id bs E. unfold ex_stored in E. apply lookup_singleton_Some in E as [_ <-]. vm_compute. repeat constructor; discriminate. }
  pose proof (signature_requests_answered (λ n, n) demo_sha256 demo_sign 10 demo_chain ex_unmarshal ex_marshal
    (λ _ _ w, (None, w)) (λ w, w) (DatabaseMap0 := mem_map) demo_sha256_ok [1] 4 5 0 0 0 (Z.of_nat (length ex_request)) ex_request ex_stored H1 H2 H3 H4) as [H _].
  assert (signature_answer demo_sha256 demo_sign ex_unmarshal ex_marshal ex_stored (10 :: Z.of_nat (length ex_request) :: ex_request)
    = Ok (default [] (ex_marshal (sig_Compress demo_bls)))) as E by (vm_compute; reflexivity).
  rewrite E in H. eexists. split; [exact H|]. vm_compute. reflexivity.
Defined.
