(* ===== verification/WarpService.v ===== *)
(** * The warp API of the VM (src/vm/warp_service.go, src/warp/fetcher.go,
      src/utils/evm/warp/validators/state.go)

    [API] answers requests of users: it stores messages in the backend
    (WarpBackend.v), hands out their signatures, and aggregates the signatures of the
    subnet's validators (WarpSignature.v) into a signed message.  IDs in requests are
    strings (Ids.v).  The validator state is behind [State], which replaces the
    primary network's validators by the subnet's own. *)

From S2P Require Import Prelude SafeMath Codec CodecValues Bits Ids WarpMessage WarpMessageProps WarpSignature WarpSignatureProps WarpVerify Database WarpBackend WarpBackendProps.

Inductive aerr :=
| AParseID (e : iderr) | AParseMessage (e : cerr) | ABackend (e : bkerr)
| AParseSubnetID | AState (e : string) | AWarp (e : werr) | errNoValidators | APayload (e : perr).

Definition PrimaryNetworkID : list Z := replicate 32 0%Z.
Definition PlatformChainID : list Z := replicate 32 0%Z.

Section service.
Context {BL : Blst} `{!Base58} {W : Type} `{!DatabaseClient W, !BlockReceiver W, !ValidatorReader W}.
Context (grow : nat → nat) (sha256 : list Z → list Z).
Context (warpSigner_Sign : UnsignedMessage → result string (list Z)).

(** ** state.go *)

Record State := mkState {
  st_State : PChainState;
  GetCurrentHeight : result string Z;
  mySubnetID : list Z;
  st_sourceChainID : list Z;
  requirePrimaryNetworkSigners : bool;
}.

Definition State_GetValidatorSet (s : State) (height : Z) (subnetID : list Z)
    : result string (list GetValidatorOutput) :=
  let usePrimary := requirePrimaryNetworkSigners s && bool_decide (st_sourceChainID s ≠ PlatformChainID) in
  if usePrimary || bool_decide (subnetID ≠ PrimaryNetworkID)
  then GetValidatorSet (st_State s) height subnetID
  else GetValidatorSet (st_State s) height (mySubnetID s).

(** The state that [Verify] sees through the wrapper. *)
Definition State_PChain (s : State) : PChainState :=
  mkPChainState (GetSubnetID (st_State s)) (State_GetValidatorSet s).

(** ** fetcher.go *)

(** The RPC clients of the nodes, and what they answer. *)
Record Client := mkClient {
  client_GetMessageSignature : list Z → result string (list Z);
  client_GetBlockSignature : list Z → result string (list Z);
}.

Definition apiFetcher_GetSignature (clients : NodeID → option Client) (nodeID : NodeID)
    (unsignedWarpMessage : UnsignedMessage) : option (result string BLSSignature) :=
  match clients nodeID with
  | None => Some (Err "no warp client for nodeID"%string)
  | Some client =>
      match payload_Parse (um_Payload unsignedWarpMessage) with
      | None => None
      | Some (Err _) => Some (Err "failed to parse unsigned message payload"%string)
      | Some (Ok p) =>
          match match p with
                | PAddressedCall _ _ _ => client_GetMessageSignature client (um_id unsignedWarpMessage)
                | PHash h _ => client_GetBlockSignature client h
                end with
          | Err e => Some (Err e)
          | Ok signatureBytes =>
              match SignatureFromBytes signatureBytes with
              | Err _ => Some (Err "failed to parse signature"%string)
              | Ok signature => Some (Ok signature)
              end
          end
      end
  end.

(** ** warp_service.go *)

Record API := mkAPI {
  api_networkID : Z;
  valState : State;
  sourceSubnetID : list Z;
  api_sourceChainID : list Z;
  (** The client that fetches signatures, and the order its answers arrive in. *)
  signatureGetter : NodeID → UnsignedMessage → result string BLSSignature;
  arrival : list nat;
}.

(** A call of the backend, with its error wrapped. *)
Definition backend_call {A B} (m : BM W A) (f : A → W → option (result aerr B * W)) (w : W)
    : option (result aerr B * W) :=
  match m w with
  | None => None
  | Some (Err e, w) => Some (Err (ABackend e), w)
  | Some (Ok a, w) => f a w
  end.

(** The ID of a request. *)
Definition with_id {B} (str : list Z) (f : list Z → W → option (result aerr B * W)) (w : W)
    : option (result aerr B * W) :=
  match FromString sha256 str with
  | (Some e, _) => Some (Err (AParseID e), w)
  | (None, id) => f id w
  end.

Definition API_AddMessage (message : list Z) (w : W) : option (result aerr (list Z) * W) :=
  match ParseUnsignedMessage sha256 message with
  | None => None
  | Some (Err e) => Some (Err (AParseMessage e), w)
  | Some (Ok msg) =>
      backend_call (AddMessage warpSigner_Sign msg)
        (λ _ w, Some (Ok (String_ sha256 (um_id msg)), w)) w
  end.

Definition API_GetMessage (messageID : list Z) : W → option (result aerr (list Z) * W) :=
  with_id messageID (λ msgID,
    backend_call (GetMessage sha256 msgID) (λ message w, Some (Ok (um_bytes message), w))).

Definition API_GetMessageSignature (messageID : list Z) : W → option (result aerr (list Z) * W) :=
  with_id messageID (λ msgID,
    backend_call (GetMessage sha256 msgID) (λ unsignedMessage,
      backend_call (GetMessageSignature sha256 warpSigner_Sign unsignedMessage)
        (λ signature w, Some (Ok signature, w)))).

Definition aggregateSignatures (a : API) (unsignedMessage : UnsignedMessage) (quorumNum : Z)
    (subnetIDStr : list Z) : option (result aerr (list Z)) :=
  match (if bool_decide (0 < length subnetIDStr)
         then match FromString sha256 subnetIDStr with (Some _, _) => None | (None, sid) => Some sid end
         else Some (sourceSubnetID a)) with
  | None => Some (Err AParseSubnetID)
  | Some subnetID =>
      match GetCurrentHeight (valState a) with
      | Err e => Some (Err (AState e))
      | Ok pChainHeight =>
          match State_GetValidatorSet (valState a) pChainHeight subnetID with
          | Err e => Some (Err (AState e))
          | Ok vdrSet =>
              match FlattenValidatorSet vdrSet with
              | Err e => Some (Err (AWarp e))
              | Ok (validators, totalWeight) =>
                  if bool_decide (length validators = 0) then Some (Err errNoValidators)
                  else
                    match AggregateSignatures (signatureGetter a) grow validators totalWeight (arrival a)
                            unsignedMessage quorumNum with
                    | None => None
                    | Some (Err e) => Some (Err (AWarp e))
                    | Some (Ok signatureResult) => Some (Ok (m_bytes (ar_Message signatureResult)))
                    end
              end
          end
      end
  end.

Definition GetMessageAggregateSignature (a : API) (messageID : list Z) (quorumNum : Z)
    (subnetIDStr : list Z) : W → option (result aerr (list Z) * W) :=
  backend_call (GetMessage sha256 messageID) (λ unsignedMessage w,
    match aggregateSignatures a unsignedMessage quorumNum subnetIDStr with
    | None => None
    | Some r => Some (r, w)
    end).

Definition API_GetBlockSignature (a : API) (blockID : list Z) : W → option (result aerr (list Z) * W) :=
  backend_call (GetBlockSignature grow sha256 warpSigner_Sign (api_networkID a) (api_sourceChainID a) blockID)
    (λ signature w, Some (Ok signature, w)).

Definition GetBlockAggregateSignature (a : API) (blockID : list Z) (quorumNum : Z)
    (subnetIDStr : list Z) : option (result aerr (list Z)) :=
  match NewHash grow blockID with
  | None => None
  | Some (Err e) => Some (Err (APayload e))
  | Some (Ok blockHashPayload) =>
      match NewUnsignedMessage grow sha256 (api_networkID a) (api_sourceChainID a)
              (Payload_Bytes blockHashPayload) with
      | None => None
      | Some (Err e) => Some (Err (AParseMessage e))
      | Some (Ok unsignedMessage) => aggregateSignatures a unsignedMessage quorumNum subnetIDStr
      end
  end.
End service.

(** ** Proofs *)

Section proofs.
Context {BL : Blst} `{!Base58, !Base58Laws} {W : Type} `{!DatabaseClient W, !BlockReceiver W, !ValidatorReader W}.
Context (sha256 : list Z → list Z) (Hsha : ∀ b, id_ok (sha256 b)).

Lemma with_id_String {B} id (f : list Z → W → option (result aerr B * W)) w :
  id_ok id → with_id sha256 (String_ sha256 id) f w = f id w.
Proof.
  intros [Hb Hl]. unfold with_id, FromString, String_. rewrite cb58_Encode_ok by lia.
  rewrite (cb58_roundtrip sha256 Hsha) by done. cbn [fromBytes]. by rewrite ToHash_ok.
Qed.
End proofs.

(** A message added through the API is served by it.  With a database that is a map,
    [AddMessage] of bytes that are a message (whatever their version) returns the
    cb58 string of its ID; [GetMessage] of that string then returns these bytes,
    and [GetMessageSignature] the signer's signature.  Bytes that are no message are
    refused and nothing is stored. *)
Theorem api_message_roundtrip `{!Base58, !Base58Laws} {W : Type}
    `{!DatabaseClient W, !BlockReceiver W, !ValidatorReader W}
    (sha256 : list Z → list Z) (sign : UnsignedMessage → result string (list Z))
    (disk : W → gmap (list Z) (list Z)) (message : list Z) (w : W)
    (Hdisk : DatabaseMap disk) (Hsha : ∀ b, id_ok (sha256 b)) (Hmsg : bytes_ok message) :
  ∃ r, ParseUnsignedMessage sha256 message = Some r ∧
    match r with
    | Err e => API_AddMessage sha256 sign message w = Some (Err (AParseMessage e), w)
    | Ok m =>
        let idStr := String_ sha256 (sha256 message) in
        ∀ sig, sign m = Ok sig → ∃ w',
          API_AddMessage sha256 sign message w = Some (Ok idStr, w') ∧
          disk w' = <[sha256 message := message]> (disk w) ∧
          API_GetMessage sha256 idStr w' = Some (Ok message, w') ∧
          API_GetMessageSignature sha256 sign idStr w' = Some (Ok sig, w')
    end.
Proof.
  destruct (ParseUnsigned_sound sha256 Hsha message Hmsg) as (r & Hr & Hok). exists r. split; [done|].
  unfold API_AddMessage. rewrite Hr. destruct r as [m|e]; [|done]. cbv beta iota. intros sig Hsign.
  destruct (Hok m eq_refl) as (Hb & Hi & _).
  destruct (AddMessage_disk sign disk m sig w Hsign) as (w' & Hadd & Hd). exists w'.
  rewrite Hb, Hi in Hd. unfold backend_call. rewrite Hadd, Hi. split; [done|]. split; [done|].
  assert (GetMessage sha256 (sha256 message) w' = Some (Ok m, w')) as Hg.
  { rewrite (GetMessage_disk sha256 disk), Hd, lookup_insert_eq. unfold blift. simpl. by rewrite Hr. }
  unfold API_GetMessage, API_GetMessageSignature. rewrite !(with_id_String sha256 Hsha) by done.
  unfold backend_call. rewrite Hg, Hb. split; [done|].
  rewrite (GetMessageSignature_stored sha256 sign m m w' w'); rewrite ?Hi; [by rewrite Hsign|done..].
Qed.

(** C14: the API returns messages that verify.  For a stored message and the validator set
    of the source subnet at the current height, [GetMessageAggregateSignature] returns
    bytes exactly if some validator answered with a signature that its key
    verifies and those that did have the quorum.  [ParseMessage] reads these bytes as
    the stored message with a signature, and [Verify] accepts it at that height,
    against the same state, when the state knows the source chain's subnet. *)
Theorem api_aggregate_accepted `{!Blst, !BlstLaws, !Base58} {W : Type}
    `{!DatabaseClient W} (grow : nat → nat) (sha256 : list Z → list Z) (a : API)
    (mid : list Z) (u : UnsignedMessage) (num h : Z) (l : list GetValidatorOutput) (w w' : W)
    (Hsha : ∀ b, id_ok (sha256 b)) (Hu : unsigned_ok u)
    (Hget : GetMessage sha256 mid w = Some (Ok (initialized sha256 u), w'))
    (Hheight : GetCurrentHeight (valState a) = Ok h)
    (Hset : State_GetValidatorSet (valState a) h (sourceSubnetID a) = Ok l)
    (Hw : weights_ok l) (Ht : (total l < 2 ^ 64)%Z) (Hl : (Z.of_nat (length l) ≤ MaxInt32)%Z)
    (Harr : arrival a ≡ₚ seq 0 (length (keys l)))
    (Hsig : ∀ n s, signatureGetter a n (initialized sha256 u) = Ok s → SigValidate s false = true)
    (Hkeys : aggregates_valid l) :
  let m := initialized sha256 u in
  ∃ vs r, FlattenValidatorSet l = Ok (vs, total l) ∧
    GetMessageAggregateSignature grow sha256 a mid num [] w = Some (r, w') ∧
    let good := filter (answered (signatureGetter a) m) vs in
    ((∃ bs, r = Ok bs) ↔ good ≠ [] ∧ (num * total l ≤ 100 * sumZ (wv_Weight <$> good))%Z) ∧
    ∀ bs, r = Ok bs → ∃ s, ParseMessage grow sha256 bs = Some (Ok (mkMessage m (Some s) bs)) ∧
      (GetSubnetID (st_State (valState a)) (SourceChainID m) = Ok (sourceSubnetID a) →
       Verify s m (NetworkID m) (State_PChain (valState a)) h num WarpQuorumDenominator = Some (Ok ())).
Proof.
  intros m. destruct (initialized_bytes_ok sha256 Hsha u Hu) as [Hb Hi].
  pose proof (initialized_ok sha256 u Hu) as Hm. fold m in Hb, Hi, Hm, Hget, Hsig.
  pose proof (FlattenValidatorSet_spec l Hw) as Hf. rewrite bool_decide_eq_true_2 in Hf by done.
  destruct Hf as (vs & Hf & Hk & Hvs). rewrite <-Hk, length_fmap in Harr.
  destruct (AggregateSignatures_spec (signatureGetter a) l vs (arrival a) m Hw Ht Hk Hvs Harr grow num
    Hl Hm Hb (proj1 Hi) Hsig Hkeys) as (r & Hr & Hcase).
  exists vs. unfold GetMessageAggregateSignature, backend_call. rewrite Hget.
  unfold aggregateSignatures. rewrite bool_decide_eq_false_2 by (simpl; lia).
  rewrite Hheight, Hset, Hf, Hr. destruct (decide (length vs = 0)) as [Hv0|Hv0];
    [rewrite bool_decide_eq_true_2 by done|rewrite bool_decide_eq_false_2 by done].
  { apply nil_length_inv in Hv0 as ->. eexists. split; [done|]. split; [done|]. simpl.
    split; [split; [by intros []|by intros []]|done]. }
  revert Hcase. case_bool_decide as Hq.
  2: { intros ->. eexists. split; [done|]. split; [done|]. split; [split; [by intros []|done]|done]. }
  intros (s & b & wt & -> & _ & Hs & -> & Hacc). eexists. split; [done|]. split; [done|].
  split; [split; [done|by eexists]|]. intros bs [= <-]. exists s.
  split; [by apply (ParseMessage_ok grow sha256 Hsha 0 0 u s)|]. intros Hsub.
  destruct (Verify_set s m (NetworkID m) (State_PChain (valState a)) h num 100 (sourceSubnetID a) l)
    as (r & Hver & Hiff); try done; [apply Hs|].
  change WarpQuorumDenominator with 100%Z. rewrite Hver. f_equal. by apply Hiff.
Qed.
