(* ===== verification/WarpServiceConcrete.v ===== *)
(** * The warp API on concrete inputs

    The database, keys and messages of WarpBackendConcrete.v and WarpConcrete.v, and
    the toy base58 of Ids.v. *)

From S2P Require Import Prelude SafeMath Codec CodecValues Bits Ids WarpMessage WarpMessageProps WarpSignature WarpSignatureProps WarpVerify WarpConcrete Database WarpBackend WarpBackendProps WarpBackendConcrete WarpService.

Definition call_bytes_msg : list Z := um_bytes (initialized demo_sha256 call_msg).

Lemma call_bytes_ok : bytes_ok call_bytes_msg.
Proof. apply (initialized_bytes_ok demo_sha256 demo_sha256_ok call_msg call_msg_ok). Qed.

Lemma api_message_roundtrip_witness :
  ∃ w' : Mem, API_AddMessage demo_sha256 demo_sign call_bytes_msg ∅
      = Some (Ok (String_ demo_sha256 (demo_sha256 call_bytes_msg)), w') ∧
    API_GetMessage demo_sha256 (String_ demo_sha256 (demo_sha256 call_bytes_msg)) w'
      = Some (Ok call_bytes_msg, w').
Proof.
  destruct (api_message_roundtrip demo_sha256 demo_sign (λ w, w) call_bytes_msg (∅ : Mem) mem_map
    demo_sha256_ok call_bytes_ok) as (r & Hr & Hcase).
  assert (ParseUnsignedMessage demo_sha256 call_bytes_msg = Some (Ok (initialized demo_sha256 call_msg)))
    as Hp by (vm_compute; reflexivity).
  rewrite Hp in Hr. injection Hr as <-.
  destruct (Hcase _ eq_refl) as (w' & H1 & _ & H2 & _). exists w'. split; [exact H1|exact H2].
Defined.

(** The source subnet has the set [demo_set]; the message of WarpConcrete.v is stored. *)
Definition demo_subnet : list Z := replicate 32 4%Z.
Definition demo_state : State :=
  mkState (mkPChainState (λ _, Ok demo_subnet) (λ _ _, Ok demo_set)) (Ok 12%Z) demo_subnet demo_chain false.
Definition demo_api : API := mkAPI 10 demo_state demo_subnet demo_chain demo_GetSignature [1; 0].
Definition demo_unsigned : UnsignedMessage := mkUnsigned 10 demo_chain demo_payload [] [].
Definition demo_store : Mem := {[um_id demo_msg := um_bytes demo_msg]}.

Lemma api_aggregate_accepted_witness :
  ∃ bs s, GetMessageAggregateSignature (λ n, n) demo_sha256 demo_api (um_id demo_msg) 60 [] demo_store
      = Some (Ok bs, demo_store) ∧
    ParseMessage (λ n, n) demo_sha256 bs = Some (Ok (mkMessage demo_msg (Some s) bs)) ∧
    Verify s demo_msg 10 (State_PChain demo_state) 12 60 100 = Some (Ok ()).
Proof.
  assert (unsigned_ok demo_unsigned) as Hu
    by (split; [exact demo_net_ok|exact demo_chain_ok|exact demo_payload_ok]).
  assert (is_ok <$> (fst <$> GetMessageAggregateSignature (λ n, n) demo_sha256 demo_api (um_id demo_msg) 60 []
    demo_store) = Some true) as Hgood by (vm_compute; reflexivity).
  destruct (api_aggregate_accepted (λ n, n) demo_sha256 demo_api (um_id demo_msg) demo_unsigned 60 12 demo_set
    demo_store demo_store demo_sha256_ok Hu) as (vs & r & _ & Hr & _ & Hok).
  - vm_compute. reflexivity.
  - reflexivity.
  - reflexivity.
  - exact demo_weights.
  - vm_compute. reflexivity.
  - vm_compute. discriminate.
  - vm_compute. apply Permutation_swap.
  - intros n s. apply demo_GetSignature_valid.
  - exact demo_keys_valid.
  - rewrite Hr in Hgood. destruct r as [bs|e]; [|discriminate Hgood].
    destruct (Hok bs eq_refl) as (s & Hp & Hv). exists bs, s. split; [exact Hr|]. split; [exact Hp|].
    apply Hv. reflexivity.
Defined.
