(* ===== verification/Uptime.v ===== *)
(** * Uptime tracking (src/utils/avalanche/uptime, src/utils/evm/validators/uptime)

    [manager] accumulates how long each validator was connected, over a store of
    uptimes it knows through the interface [uptime.State] (the class [UptimeState]
    here, with the laws of [UptimeStateLaws]).  [pausableManager] wraps it:
    inactive validators are paused and are not connected to the manager.

    Clock readings are an argument of each operation.  A [time.Time] of this code
    has whole seconds: it is the number of seconds since year 1, an int64, as in
    Go's [ext] field.  A [time.Duration] is an int64 number of nanoseconds.
    The methods of one object run one at a time (the callers hold a lock). *)

From S2P Require Import Prelude Codec Database.

(** ** Go's time package *)

Definition Second : Z := 1000000000.
Definition unixToInternal : Z := 62135596800.
Definition minDuration : Z := - 2 ^ 63.
Definition maxDuration : Z := 2 ^ 63 - 1.

(** [time.Unix(sec, 0)] and [t.Unix()] *)
Definition time_Unix (sec : Z) : Z := wrapS 64 (sec + unixToInternal).
Definition Unix (t : Z) : Z := wrapS 64 (t - unixToInternal).

Definition Before (t u : Z) : bool := bool_decide (t < u)%Z.

(** [addSec] saturates. *)
Definition addSec (t d : Z) : Z :=
  let sum := wrapS 64 (t + d) in
  if eqb (bool_decide (t < sum)%Z) (bool_decide (0 < d)%Z) then sum
  else if bool_decide (0 < d)%Z then (2 ^ 63 - 1)%Z else (- (2 ^ 63 - 1))%Z.

Definition Sub (t u : Z) : Z :=
  let d := wrapS 64 (wrapS 64 (t - u) * Second) in
  (* [u.Add(d).Equal(t)] *)
  if bool_decide (Z.rem d Second = 0)%Z && bool_decide (addSec u (Z.quot d Second) = t) then d
  else if Before t u then minDuration else maxDuration.

(** ** Errors *)

(** There are two values called [ErrNotFound]: of src/database, and of
    src/utils/avalanche/database. *)
Inductive uerr :=
| database_ErrNotFound | avalanche_ErrNotFound
| errAlreadyStartedTracking | errNotStartedTracking | errPausedDisconnect
| ErrAlreadyExists | ErrImmutableField
| EMarshal (e : cerr) | EDatabase (e : call_err) | EFetch (e : string).

(** ** uptime.State *)

Abbreviation NodeID := (list Z) (only parsing).

Class UptimeState (S : Type) := {
  GetUptime : NodeID → S → result uerr (Z * Z);
  SetUptime : NodeID → Z → Z → S → result uerr () * S;
  GetStartTime : NodeID → S → result uerr Z;
}.

(** What a well-formed store promises: a node has an uptime and a start time, or it
    has neither; setting the uptime works for a node that has one and changes
    nothing else. *)
Class UptimeStateLaws (S : Type) `{!UptimeState S} := {
  store_wf : S → Prop;
  SetUptime_ok n d t s : store_wf s → is_ok (GetUptime n s) = true → inS 64 t →
    ∃ s', SetUptime n d t s = (Ok (), s') ∧ store_wf s' ∧
      (∀ n', GetUptime n' s' = if decide (n' = n) then Ok (d, t) else GetUptime n' s) ∧
      (∀ n', GetStartTime n' s' = GetStartTime n' s);
  GetStartTime_ok n s : is_ok (GetStartTime n s) = is_ok (GetUptime n s);
}.

Record manager := mkManager {
  connections : gmap NodeID Z;
  startedTracking : bool;
}.

Definition NewManager : manager := mkManager ∅ false.

Section uptime_manager.
Context {S : Type} `{!UptimeState S}.

Definition Connect (now : Z) (nodeID : NodeID) (m : manager) : manager :=
  mkManager (<[nodeID := now]> (connections m)) (startedTracking m).

Definition IsConnected (nodeID : NodeID) (m : manager) : bool :=
  bool_decide (is_Some (connections m !! nodeID)).

Definition CalculateUptime (now : Z) (nodeID : NodeID) (m : manager) (s : S)
    : result uerr (Z * Z) :=
  match GetUptime nodeID s with
  | Err e => Err e
  | Ok (upDuration, lastUpdated) =>
      if Before now lastUpdated then Ok (upDuration, lastUpdated)
      else if negb (startedTracking m) then
        Ok (wrapS 64 (upDuration + Sub now lastUpdated), now)
      else
        match connections m !! nodeID with
        | None => Ok (upDuration, now)
        | Some timeConnected =>
            let timeConnected := if Before timeConnected lastUpdated then lastUpdated
                                 else timeConnected in
            if Before now timeConnected then Ok (upDuration, now)
            else Ok (wrapS 64 (upDuration + Sub now timeConnected), now)
        end
  end.

(** The quotient [float64(upDuration) / float64(bestPossibleUpDuration)], as a
    pair; the rounding of floats is left out. *)
Definition CalculateUptimePercentFrom (now : Z) (nodeID : NodeID) (startTime : Z)
    (m : manager) (s : S) : result uerr (Z * Z) :=
  match CalculateUptime now nodeID m s with
  | Err e => Err e
  | Ok (upDuration, now) =>
      let bestPossibleUpDuration := Sub now startTime in
      if bool_decide (bestPossibleUpDuration = 0)%Z then Ok (1, 1)%Z
      else Ok (upDuration, bestPossibleUpDuration)
  end.

Definition CalculateUptimePercent (now : Z) (nodeID : NodeID) (m : manager) (s : S)
    : result uerr (Z * Z) :=
  match GetStartTime nodeID s with
  | Err e => Err e
  | Ok startTime => CalculateUptimePercentFrom now nodeID startTime m s
  end.

Definition updateUptime (now : Z) (nodeID : NodeID) (m : manager) (s : S)
    : result uerr () * S :=
  match CalculateUptime now nodeID m s with
  | Err avalanche_ErrNotFound => (Ok (), s)
  | Err e => (Err e, s)
  | Ok (newDuration, newLastUpdated) => SetUptime nodeID newDuration newLastUpdated s
  end.

Fixpoint updateUptimes (now : Z) (nodeIDs : list NodeID) (m : manager) (s : S)
    : result uerr () * S :=
  match nodeIDs with
  | [] => (Ok (), s)
  | nodeID :: rest =>
      match updateUptime now nodeID m s with
      | (Err e, s) => (Err e, s)
      | (Ok _, s) => updateUptimes now rest m s
      end
  end.

Definition StartTracking (now : Z) (nodeIDs : list NodeID) (m : manager) (s : S)
    : result uerr () * manager * S :=
  if startedTracking m then (Err errAlreadyStartedTracking, m, s)
  else
    match updateUptimes now nodeIDs m s with
    | (Err e, s) => (Err e, m, s)
    | (Ok _, s) => (Ok (), mkManager (connections m) true, s)
    end.

Definition StopTracking (now : Z) (nodeIDs : list NodeID) (m : manager) (s : S)
    : result uerr () * manager * S :=
  if negb (startedTracking m) then (Err errNotStartedTracking, m, s)
  else
    match updateUptimes now nodeIDs m s with
    | (Err e, s) => (Err e, m, s)
    | (Ok _, s) => (Ok (), mkManager (connections m) false, s)
    end.

(** The deferred [delete] runs in every case, after the update. *)
Definition Disconnect (now : Z) (nodeID : NodeID) (m : manager) (s : S)
    : result uerr () * manager * S :=
  let m' := mkManager (delete nodeID (connections m)) (startedTracking m) in
  if negb (startedTracking m) then (Ok (), m', s)
  else let '(r, s) := updateUptime now nodeID m s in (r, m', s).
End uptime_manager.

(** ** pausableManager *)

Record pausableManager := mkPausable {
  pausedVdrs : gset NodeID;
  connectedVdrs : gset NodeID;
}.

Definition NewPausableManager : pausableManager := mkPausable ∅ ∅.

Definition IsPaused (nodeID : NodeID) (p : pausableManager) : bool :=
  bool_decide (nodeID ∈ pausedVdrs p).
Definition Pausable_IsConnected (nodeID : NodeID) (p : pausableManager) : bool :=
  bool_decide (nodeID ∈ connectedVdrs p).

(** The objects an operation of [pausableManager] touches: itself, its manager and
    the manager's store. *)
Record core (S : Type) := mkCore {
  pausable : pausableManager;
  mgr : manager;
  store : S;
}.
Arguments mkCore {S}.
Arguments pausable {S}.
Arguments mgr {S}.
Arguments store {S}.

Section pausable.
Context {S : Type} `{!UptimeState S}.

(** [p.Manager.Connect(nodeID)] and [p.Manager.Disconnect(nodeID)] *)
Definition Manager_Connect (now : Z) (nodeID : NodeID) (c : core S) : result uerr () * core S :=
  (Ok (), mkCore (pausable c) (Connect now nodeID (mgr c)) (store c)).
Definition Manager_Disconnect (now : Z) (nodeID : NodeID) (c : core S)
    : result uerr () * core S :=
  let '(r, m, s) := Disconnect now nodeID (mgr c) (store c) in (r, mkCore (pausable c) m s).

Definition Pausable_Connect (now : Z) (nodeID : NodeID) (c : core S) : result uerr () * core S :=
  let p := mkPausable (pausedVdrs (pausable c)) ({[nodeID]} ∪ connectedVdrs (pausable c)) in
  let c := mkCore p (mgr c) (store c) in
  if negb (IsPaused nodeID p) && negb (IsConnected nodeID (mgr c))
  then Manager_Connect now nodeID c else (Ok (), c).

Definition Pausable_Disconnect (now : Z) (nodeID : NodeID) (c : core S)
    : result uerr () * core S :=
  let p := mkPausable (pausedVdrs (pausable c)) (connectedVdrs (pausable c) ∖ {[nodeID]}) in
  let c := mkCore p (mgr c) (store c) in
  if IsConnected nodeID (mgr c) then
    if IsPaused nodeID p then (Err errPausedDisconnect, c)
    else Manager_Disconnect now nodeID c
  else (Ok (), c).

Definition pause (now : Z) (nodeID : NodeID) (c : core S) : result uerr () * core S :=
  let p := mkPausable ({[nodeID]} ∪ pausedVdrs (pausable c)) (connectedVdrs (pausable c)) in
  let c := mkCore p (mgr c) (store c) in
  if IsConnected nodeID (mgr c) then Manager_Disconnect now nodeID c else (Ok (), c).

Definition resume (now : Z) (nodeID : NodeID) (c : core S) : result uerr () * core S :=
  let p := mkPausable (pausedVdrs (pausable c) ∖ {[nodeID]}) (connectedVdrs (pausable c)) in
  let c := mkCore p (mgr c) (store c) in
  if Pausable_IsConnected nodeID p && negb (IsConnected nodeID (mgr c))
  then Manager_Connect now nodeID c else (Ok (), c).

(** [if err != nil { p.log.Error(...) }]: the logger of a [pausableManager] is never
    set, so logging is a nil dereference, a panic ([None]). *)
Definition logged (x : result uerr () * core S) : option (core S) :=
  match x with (Ok _, c) => Some c | (Err _, _) => None end.

Definition OnValidatorAdded (now : Z) (nodeID : NodeID) (isActive : bool) (c : core S)
    : option (core S) :=
  if isActive then Some c else logged (pause now nodeID c).

Definition OnValidatorRemoved (now : Z) (nodeID : NodeID) (c : core S) : option (core S) :=
  if IsPaused nodeID (pausable c) then logged (resume now nodeID c) else Some c.

Definition OnValidatorStatusUpdated (now : Z) (nodeID : NodeID) (isActive : bool) (c : core S)
    : option (core S) :=
  logged (if isActive then resume now nodeID c else pause now nodeID c).
End pausable.

(** ** Uptimes are bounded by the time passed *)

(** Times from 1970 to 2242, which durations between them do not overflow. *)
Definition time_ok (t : Z) : Prop := (unixToInternal ≤ t < unixToInternal + 2 ^ 33)%Z.

Lemma wrapS_small w z : (0 < w)%Z → (- 2 ^ (w - 1) ≤ z < 2 ^ (w - 1))%Z → wrapS w z = z.
Proof. intros. by apply wrapS_id. Qed.

Lemma Sub_small t u :
  time_ok t → time_ok u → Sub t u = ((t - u) * Second)%Z.
Proof.
  unfold time_ok, unixToInternal. intros Ht Hu. unfold Sub.
  rewrite (wrapS_small 64 (t - u)) by lia.
  rewrite (wrapS_small 64 ((t - u) * Second)) by (unfold Second; lia).
  assert (Z.rem ((t - u) * Second) Second = 0)%Z as -> by (apply Z.rem_mul; done).
  assert (Z.quot ((t - u) * Second) Second = (t - u)%Z) as -> by (apply Z.quot_mul; done).
  assert (addSec u (t - u) = t) as ->.
  { unfold addSec. rewrite (wrapS_small 64 (u + (t - u))) by lia.
    replace (u + (t - u))%Z with t by lia.
    destruct (decide (u < t)%Z).
    - rewrite !bool_decide_eq_true_2 by lia. done.
    - rewrite !bool_decide_eq_false_2 by lia. done. }
  by rewrite !bool_decide_eq_true_2.
Qed.

Lemma wrapS_mod z : (wrapS 64 z `mod` 2 ^ 64 = z `mod` 2 ^ 64)%Z.
Proof.
  unfold wrapS, wrapU. case_bool_decide; [by rewrite Z.mod_mod|].
  rewrite <-(Z.mod_add _ 1), Z.mul_1_l, Z.sub_add by lia. by rewrite Z.mod_mod.
Qed.

Lemma wrapS_cong a b : (a `mod` 2 ^ 64 = b `mod` 2 ^ 64)%Z → wrapS 64 a = wrapS 64 b.
Proof. unfold wrapS, wrapU. by intros ->. Qed.

Lemma time_Unix_Unix t : inS 64 t → time_Unix (wrapS 64 (wrapU 64 (Unix t))) = t.
Proof.
  intros Ht. unfold time_Unix. etrans; [|by apply (wrapS_id 64 t)]. apply wrapS_cong.
  rewrite Z.add_mod, wrapS_mod by lia. unfold wrapU, Unix.
  rewrite Z.mod_mod, wrapS_mod, <-Z.add_mod by lia. f_equal. lia.
Qed.

Section bounds.
Context {S : Type} `{!UptimeState S, !UptimeStateLaws S}.

(** The uptime of a node is at most the time from its start to its last update. *)
Definition uptime_within (n : NodeID) (s : S) : Prop :=
  ∀ up last start, GetUptime n s = Ok (up, last) → GetStartTime n s = Ok start →
  time_ok start ∧ time_ok last ∧ (start ≤ last)%Z ∧ (0 ≤ up ≤ (last - start) * Second)%Z.

(** The clock is read in [time_ok], as were the times of the connections. *)
Definition clock_ok (m : manager) : Prop := ∀ n t, connections m !! n = Some t → time_ok t.

Lemma calculate_bounds now n m s up last start up' last' :
  time_ok now → clock_ok m → uptime_within n s →
  GetUptime n s = Ok (up, last) → GetStartTime n s = Ok start →
  CalculateUptime now n m s = Ok (up', last') →
  time_ok last' ∧ last' = Z.max now last ∧ (up ≤ up')%Z ∧ (0 ≤ up' ≤ (last' - start) * Second)%Z ∧
  (up' - up ≤ (last' - last) * Second)%Z.
Proof.
  intros Hnow Hm Hw Hu Hs. destruct (Hw up last start Hu Hs) as (Hst & Hl & Hsl & Hup).
  unfold CalculateUptime. rewrite Hu. unfold Before.
  assert (∀ t, time_ok t → (last ≤ t ≤ now)%Z →
    wrapS 64 (up + Sub now t) = (up + (now - t) * Second)%Z) as Hsub.
  { intros t Ht Hlt. rewrite Sub_small by done. apply wrapS_small; [lia|].
    unfold time_ok, Second in *. lia. }
  case_bool_decide as H1; [intros [= <- <-]; unfold Second in *; split_and!; try done; lia|].
  destruct (startedTracking m); simpl.
  - destruct (connections m !! n) as [tc|] eqn:Htc;
      [|intros [= <- <-]; unfold Second in *; split_and!; try done; lia].
    apply Hm in Htc.
    assert (time_ok (if bool_decide (tc < last)%Z then last else tc) ∧
      (last ≤ (if bool_decide (tc < last)%Z then last else tc))%Z) as [Ht2 Hl2]
      by (case_bool_decide; split; done || lia).
    set (t2 := if bool_decide (tc < last)%Z then last else tc) in *. clearbody t2.
    case_bool_decide as H2; intros [= <- <-]; [unfold Second in *; split_and!; try done; lia|].
    rewrite Hsub by (done || lia). unfold Second in *. split_and!; try done; lia.
  - intros [= <- <-]. rewrite Hsub by (done || lia). unfold Second in *. split_and!; try done; lia.
Qed.

Lemma time_ok_inS t : time_ok t → inS 64 t.
Proof. unfold time_ok, inS, unixToInternal. lia. Qed.

(** [updateUptime] and its loop keep the bound and the start times. *)
Lemma updateUptime_within now n m s r s' :
  time_ok now → clock_ok m → store_wf s → (∀ n', uptime_within n' s) →
  updateUptime now n m s = (r, s') → store_wf s' ∧ (∀ n', uptime_within n' s').
Proof.
  intros Hnow Hm Hwf Hw. unfold updateUptime.
  destruct (CalculateUptime now n m s) as [[up' last']|e] eqn:Hc;
    [|destruct e; intros [= <- <-]; done].
  assert (∃ up last, GetUptime n s = Ok (up, last)) as (up & last & Hu).
  { unfold CalculateUptime in Hc. destruct (GetUptime n s) as [[up last]|]; [eauto|done]. }
  assert (∃ start, GetStartTime n s = Ok start) as (start & Hs).
  { pose proof (GetStartTime_ok n s) as Hok. rewrite Hu in Hok. apply is_ok_true in Hok. done. }
  destruct (calculate_bounds now n m s up last start up' last' Hnow Hm (Hw n) Hu Hs Hc)
    as (Ht & Hmax & _ & Hb & _).
  destruct (SetUptime_ok n up' last' s) as (s2 & Heq & Hwf2 & Hg & Hst);
    [done|by rewrite Hu|by apply time_ok_inS|]. rewrite Heq. intros [= <- <-].
  split; [done|]. intros n'. unfold uptime_within. rewrite Hg, Hst. case_decide as Hn.
  - subst n'. intros ? ? ? [= <- <-]. rewrite Hs. intros [= <-].
    destruct (Hw n up last start Hu Hs) as (? & ? & ? & ?). split_and!; try done; lia.
  - apply Hw.
Qed.

Lemma updateUptimes_within now ns m s r s' :
  time_ok now → clock_ok m → store_wf s → (∀ n', uptime_within n' s) →
  updateUptimes now ns m s = (r, s') → store_wf s' ∧ (∀ n', uptime_within n' s').
Proof.
  intros Hnow Hm. revert s. induction ns as [|n ns IH]; intros s Hwf Hw; simpl;
    [by intros [= <- <-]|].
  destruct (updateUptime now n m s) as [r1 s1] eqn:E.
  destruct (updateUptime_within _ _ _ _ _ _ Hnow Hm Hwf Hw E) as [Hwf1 Hw1].
  destruct r1; [|by intros [= <- <-]]. by apply IH.
Qed.

(** The bound for the objects of [pausableManager]. *)
Definition core_within (c : core S) : Prop :=
  store_wf (store c) ∧ (∀ n, uptime_within n (store c)) ∧ clock_ok (mgr c).

Lemma clock_ok_Connect now n m : time_ok now → clock_ok m → clock_ok (Connect now n m).
Proof. intros Hnow Hm n' t. simpl. rewrite lookup_insert. case_decide; [by intros [= <-]|apply Hm]. Qed.

Lemma clock_ok_delete n m b : clock_ok m → clock_ok (mkManager (delete n (connections m)) b).
Proof. intros Hm n' t. simpl. intros [_ Ht]%lookup_delete_Some. by eapply Hm. Qed.

Lemma within_Manager_Disconnect now n c r c' :
  time_ok now → core_within c → Manager_Disconnect now n c = (r, c') → core_within c'.
Proof.
  intros Hnow (Hwf & Hw & Hm). unfold Manager_Disconnect, Disconnect.
  destruct (startedTracking (mgr c)) eqn:Et; simpl.
  - destruct (updateUptime now n (mgr c) (store c)) as [r1 s1] eqn:E. intros [= <- <-].
    destruct (updateUptime_within _ _ _ _ _ _ Hnow Hm Hwf Hw E) as [Hwf1 Hw1].
    split_and!; [done|done|by apply clock_ok_delete].
  - intros [= <- <-]. split_and!; [done|done|by apply clock_ok_delete].
Qed.

(** Every operation of [pausableManager] keeps the bound. *)
Lemma within_pausable now n c :
  time_ok now → core_within c →
  core_within (Pausable_Connect now n c).2 ∧ core_within (Pausable_Disconnect now n c).2 ∧
  core_within (pause now n c).2 ∧ core_within (resume now n c).2.
Proof.
  intros Hnow Hc. split_and!.
  - unfold Pausable_Connect. case_match; [|done]. destruct Hc as (? & ? & ?). split_and!; [done|done|].
    by apply clock_ok_Connect.
  - unfold Pausable_Disconnect. case_match; [|done]. case_match; [done|].
    destruct (Manager_Disconnect _ _ _) as [r c'] eqn:E.
    refine (within_Manager_Disconnect _ _ _ _ _ Hnow _ E). by destruct Hc.
  - unfold pause. case_match; [|done].
    destruct (Manager_Disconnect _ _ _) as [r c'] eqn:E.
    refine (within_Manager_Disconnect _ _ _ _ _ Hnow _ E). by destruct Hc.
  - unfold resume. case_match; [|done]. destruct Hc as (? & ? & ?). split_and!; [done|done|].
    by apply clock_ok_Connect.
Qed.

Lemma within_logged (x : result uerr () * core S) c' :
  core_within x.2 → logged x = Some c' → core_within c'.
Proof. destruct x as [[]?]; [|done]. by intros ? [= <-]. Qed.

Lemma within_callbacks now n a c c' :
  time_ok now → core_within c →
  (OnValidatorAdded now n a c = Some c' ∨ OnValidatorRemoved now n c = Some c' ∨
   OnValidatorStatusUpdated now n a c = Some c') → core_within c'.
Proof.
  intros Hnow Hc. destruct (within_pausable now n c Hnow Hc) as (_ & _ & Hp & Hr).
  intros [H|[H|H]].
  - unfold OnValidatorAdded in H. destruct a; [by injection H as <-|by refine (within_logged _ _ _ H)].
  - unfold OnValidatorRemoved in H. destruct (IsPaused _ _);
      [by refine (within_logged _ _ _ H)|by injection H as <-].
  - unfold OnValidatorStatusUpdated in H. destruct a; by refine (within_logged _ _ _ H).
Qed.
End bounds.

(** ** Connected and paused nodes *)

Section connected.
Context {S : Type} `{!UptimeState S, !UptimeStateLaws S}.
(** A relation that setting an uptime respects. *)
Context (R : relation S) `{!PreOrder R}.
Context (HR : ∀ n d t s r s', SetUptime n d t s = (r, s') → R s s').

Lemma updateUptime_R now n m s : R s (updateUptime now n m s).2.
Proof.
  unfold updateUptime. destruct (CalculateUptime now n m s) as [[up last]|e]; [|by destruct e].
  destruct (SetUptime n up last s) as [r s'] eqn:E. by eapply HR.
Qed.

Lemma updateUptimes_R now ns m s : R s (updateUptimes now ns m s).2.
Proof.
  revert s. induction ns as [|n ns IH]; intros s; simpl; [done|].
  pose proof (updateUptime_R now n m s) as H1. destruct (updateUptime now n m s) as [[[]|e] s1].
  - simpl in H1. etrans; [exact H1|apply IH].
  - exact H1.
Qed.

(** A store that holds int64 times. *)
Definition times_ok (s : S) : Prop :=
  ∀ n d t, GetUptime n s = Ok (d, t) → inS 64 t.

Lemma CalculateUptime_ok now n m s d t :
  GetUptime n s = Ok (d, t) →
  ∃ d' t', CalculateUptime now n m s = Ok (d', t') ∧ (t' = now ∨ t' = t).
Proof.
  intros Hu. unfold CalculateUptime. rewrite Hu. repeat (case_match; simpl); eauto 10.
Qed.

Lemma updateUptime_ok now n m s :
  store_wf s → times_ok s → inS 64 now → is_ok (GetUptime n s) = true →
  (updateUptime now n m s).1 = Ok ().
Proof.
  intros Hwf Ht Hnow Hok. apply is_ok_true in Hok as [[d t] Hu]. unfold updateUptime.
  destruct (CalculateUptime_ok now n m s d t Hu) as (d' & t' & -> & Ht').
  destruct (SetUptime_ok n d' t' s) as (s' & -> & _); [done|by rewrite Hu| |done].
  destruct Ht' as [->| ->]; [done|by eapply Ht].
Qed.

(** The manager knows exactly the connected nodes that are not paused. *)
Definition conn_ok (c : core S) : Prop :=
  dom (connections (mgr c)) = connectedVdrs (pausable c) ∖ pausedVdrs (pausable c).

Lemma IsConnected_spec n m : IsConnected n m = bool_decide (n ∈ dom (connections m)).
Proof. unfold IsConnected. apply bool_decide_ext. by rewrite elem_of_dom. Qed.

Lemma Manager_Disconnect_spec now n c :
  let c' := (Manager_Disconnect now n c).2 in
  pausable c' = pausable c ∧ dom (connections (mgr c')) = dom (connections (mgr c)) ∖ {[n]} ∧
  R (store c) (store c') ∧
  (store_wf (store c) → times_ok (store c) → inS 64 now → is_ok (GetUptime n (store c)) = true →
   (Manager_Disconnect now n c).1 = Ok ()).
Proof.
  unfold Manager_Disconnect, Disconnect. destruct (startedTracking (mgr c)); simpl.
  - pose proof (updateUptime_R now n (mgr c) (store c)) as HR1.
    pose proof (updateUptime_ok now n (mgr c) (store c)) as Hok.
    destruct (updateUptime now n (mgr c) (store c)) as [r s']. simpl in *.
    split_and!; try done. apply dom_delete_L.
  - split_and!; try done. apply dom_delete_L.
Qed.

Lemma pause_spec now n c :
  conn_ok c →
  let c' := (pause now n c).2 in
  conn_ok c' ∧ pausedVdrs (pausable c') = {[n]} ∪ pausedVdrs (pausable c) ∧
  connectedVdrs (pausable c') = connectedVdrs (pausable c) ∧ R (store c) (store c') ∧
  (store_wf (store c) → times_ok (store c) → inS 64 now → is_ok (GetUptime n (store c)) = true →
   (pause now n c).1 = Ok ()).
Proof.
  unfold conn_ok. intros Hc. unfold pause. simpl. rewrite IsConnected_spec.
  case_bool_decide as Hin; simpl; [|split_and!; try done; set_solver].
  destruct (Manager_Disconnect_spec now n (mkCore (mkPausable ({[n]} ∪ pausedVdrs (pausable c))
    (connectedVdrs (pausable c))) (mgr c) (store c))) as (Hp & Hd & Hs & Hok).
  destruct (Manager_Disconnect _ _ _) as [r c']. simpl in *.
  rewrite Hp, Hd. split_and!; try done. rewrite Hc. simpl. set_solver.
Qed.

Lemma resume_spec now n c :
  conn_ok c →
  let c' := (resume now n c).2 in
  (resume now n c).1 = Ok () ∧
  conn_ok c' ∧ pausedVdrs (pausable c') = pausedVdrs (pausable c) ∖ {[n]} ∧
  connectedVdrs (pausable c') = connectedVdrs (pausable c) ∧ store c' = store c.
Proof.
  unfold conn_ok. intros Hc. unfold resume. simpl. rewrite IsConnected_spec, Hc.
  unfold Pausable_IsConnected. simpl. case_bool_decide as H1; simpl.
  - case_bool_decide as H2; simpl; split_and!; try done.
    + rewrite Hc. clear -H2. set_solver.
    + rewrite dom_insert_L, Hc. clear -H1. apply set_eq. intros x.
      destruct (decide (x = n)); set_solver.
  - split_and!; try done. rewrite Hc. clear -H1. set_solver.
Qed.

Lemma Pausable_Connect_spec now n c :
  conn_ok c →
  let c' := (Pausable_Connect now n c).2 in
  (Pausable_Connect now n c).1 = Ok () ∧ conn_ok c' ∧
  pausedVdrs (pausable c') = pausedVdrs (pausable c) ∧ store c' = store c.
Proof.
  unfold conn_ok. intros Hc. unfold Pausable_Connect, IsPaused. simpl. rewrite IsConnected_spec, Hc.
  case_bool_decide as H1; simpl.
  - split_and!; try done. rewrite Hc. clear -H1. set_solver.
  - case_bool_decide as H2; simpl; split_and!; try done.
    + rewrite Hc. clear -H2. set_solver.
    + rewrite dom_insert_L, Hc. clear -H1. set_solver.
Qed.

(** The case "we should never see" is not reached. *)
Lemma Pausable_Disconnect_spec now n c :
  conn_ok c →
  let c0 := mkCore (mkPausable (pausedVdrs (pausable c)) (connectedVdrs (pausable c) ∖ {[n]}))
              (mgr c) (store c) in
  let c' := (Pausable_Disconnect now n c).2 in
  Pausable_Disconnect now n c =
    (if IsConnected n (mgr c) then Manager_Disconnect now n c0 else (Ok (), c0)) ∧
  conn_ok c' ∧ pausedVdrs (pausable c') = pausedVdrs (pausable c) ∧ R (store c) (store c').
Proof.
  unfold conn_ok. intros Hc. cbv zeta. set (c0 := mkCore _ (mgr c) (store c)).
  unfold Pausable_Disconnect. fold c0.
  change (mgr c0) with (mgr c). rewrite IsConnected_spec. case_bool_decide as Hin.
  - assert (IsPaused n (pausable c0) = false) as Hnp.
    { apply bool_decide_eq_false_2. rewrite Hc in Hin. simpl. clear -Hin. set_solver. }
    simpl in Hnp. rewrite Hnp.
    destruct (Manager_Disconnect_spec now n c0) as (Hp & Hd & Hs & _). split; [done|].
    rewrite Hp, Hd. split_and!; try done. simpl. rewrite Hc. clear. set_solver.
  - split; [done|]. simpl. split_and!; try done. rewrite Hc in Hin |- *. clear -Hin. set_solver.
Qed.
End connected.
