(* ===== verification/Validators.v ===== *)
(** * Validators (src/utils/evm/validators)

    [state] is the set of validators with their uptimes, kept in memory, marked
    when changed and written to the database by [WriteState]; it implements
    [uptime.State] (Uptime.v) and calls its listeners, of which the program has
    one kind, the [pausableManager].  [manager] puts them together and [Sync]
    loads the current validator set.

    [sys] holds all the objects; an operation returns [None] for a panic.  The
    data of a validator is behind a pointer that only [state.data] holds, so it
    is a value of the map here.  Go visits the entries of a map in any order:
    the loops over maps take the order as an argument. *)

From S2P Require Import Prelude Packer Bimap Codec CodecValues Database Uptime.

Abbreviation ID := (list Z) (only parsing).

Record validatorData := mkValidatorData {
  UpDuration : Z;
  LastUpdated : Z;
  vd_NodeID : NodeID;
  Weight : Z;
  StartTime : Z;
  IsActive : bool;
  IsL1Validator : bool;
  validationID : ID;
}.

(** [interfaces.Validator] *)
Record Validator := mkValidator {
  v_ValidationID : ID;
  v_NodeID : NodeID;
  v_Weight : Z;
  v_StartTimestamp : Z;
  v_IsActive : bool;
  v_IsL1Validator : bool;
}.

Definition updatedStatus : bool := true.
Definition deletedStatus : bool := false.

Record state := mkState {
  data : gmap ID validatorData;
  index : gmap NodeID ID;
  updatedData : gmap ID bool;
}.

Definition set_data (f : gmap ID validatorData → gmap ID validatorData) (s : state) : state :=
  mkState (f (data s)) (index s) (updatedData s).
Definition mark (vID : ID) (status : bool) (s : state) : state :=
  mkState (data s) (index s) (<[vID := status]> (updatedData s)).

(** ** state: reading and uptimes *)

Definition setLastUpdated (t : Z) : Z := wrapU 64 (Unix t).
Definition getLastUpdated (v : validatorData) : Z := time_Unix (wrapS 64 (LastUpdated v)).
Definition getStartTime (v : validatorData) : Z := time_Unix (wrapS 64 (StartTime v)).

Definition getData (nodeID : NodeID) (s : state) : result uerr (ID * validatorData) :=
  match index s !! nodeID with
  | None => Prelude.Err database_ErrNotFound
  | Some vID =>
      match data s !! vID with
      | None => Prelude.Err database_ErrNotFound
      | Some d => Ok (vID, d)
      end
  end.

Definition state_GetUptime (nodeID : NodeID) (s : state) : result uerr (Z * Z) :=
  match getData nodeID s with
  | Prelude.Err e => Prelude.Err e
  | Ok (_, d) => Ok (UpDuration d, getLastUpdated d)
  end.

Definition state_SetUptime (nodeID : NodeID) (upDuration lastUpdated : Z) (s : state)
    : result uerr () * state :=
  match getData nodeID s with
  | Prelude.Err e => (Prelude.Err e, s)
  | Ok (vID, d) =>
      let d' := mkValidatorData upDuration (setLastUpdated lastUpdated) (vd_NodeID d) (Weight d)
                  (StartTime d) (IsActive d) (IsL1Validator d) (validationID d) in
      (Ok (), mark (validationID d) updatedStatus (set_data <[vID := d']> s))
  end.

Definition state_GetStartTime (nodeID : NodeID) (s : state) : result uerr Z :=
  match getData nodeID s with
  | Prelude.Err e => Prelude.Err e
  | Ok (_, d) => Ok (getStartTime d)
  end.

#[export] Instance state_UptimeState : UptimeState state := {
  GetUptime := state_GetUptime;
  SetUptime := state_SetUptime;
  GetStartTime := state_GetStartTime;
}.

Definition GetValidationIDs (s : state) : gset ID := dom (data s).
Definition GetNodeIDs (s : state) : gset NodeID := dom (index s).
Definition GetValidationID (nodeID : NodeID) (s : state) : result uerr ID :=
  of_option database_ErrNotFound (index s !! nodeID).

Definition GetValidator (vID : ID) (s : state) : result uerr Validator :=
  match data s !! vID with
  | None => Prelude.Err database_ErrNotFound
  | Some d => Ok (mkValidator (validationID d) (vd_NodeID d) (Weight d) (StartTime d) (IsActive d)
                    (IsL1Validator d))
  end.

(** ** state: the validators *)

Definition addData (vID : ID) (d : validatorData) (s : state) : result uerr state :=
  if bool_decide (is_Some (data s !! vID)) then Prelude.Err ErrAlreadyExists
  else if bool_decide (is_Some (index s !! vd_NodeID d)) then Prelude.Err ErrAlreadyExists
  else Ok (mkState (<[vID := d]> (data s)) (<[vd_NodeID d := vID]> (index s)) (updatedData s)).

Definition constantsAreUnmodified (v : validatorData) (u : Validator) : bool :=
  bool_decide (validationID v = v_ValidationID u) && bool_decide (vd_NodeID v = v_NodeID u) &&
  eqb (IsL1Validator v) (v_IsL1Validator u) && bool_decide (StartTime v = v_StartTimestamp u).

Inductive listener := ListenerPausableManager.

Record sys := mkSys {
  sys_core : core state;
  listeners : list listener;
}.

Definition vstate (y : sys) : state := store (sys_core y).
Definition with_state (s : state) (y : sys) : sys :=
  mkSys (mkCore (pausable (sys_core y)) (mgr (sys_core y)) s) (listeners y).

(** [for _, listener := range s.listeners { listener.OnX(...) }] *)
Definition notify (callback : core state → option (core state)) (y : sys) : option sys :=
  c ← foldl (λ oc (l : listener), oc ≫= callback) (Some (sys_core y)) (listeners y);
  Some (mkSys c (listeners y)).

Definition AddValidator (now : Z) (vdr : Validator) (y : sys) : option (result uerr () * sys) :=
  let d := mkValidatorData 0 (v_StartTimestamp vdr) (v_NodeID vdr) (v_Weight vdr)
             (v_StartTimestamp vdr) (v_IsActive vdr) (v_IsL1Validator vdr) (v_ValidationID vdr) in
  match addData (v_ValidationID vdr) d (vstate y) with
  | Prelude.Err e => Some (Prelude.Err e, y)
  | Ok s =>
      let y := with_state (mark (v_ValidationID vdr) updatedStatus s) y in
      y ← notify (OnValidatorAdded now (v_NodeID vdr) (v_IsActive vdr)) y; Some (Ok (), y)
  end.

Definition set_IsActive (a : bool) (d : validatorData) : validatorData :=
  mkValidatorData (UpDuration d) (LastUpdated d) (vd_NodeID d) (Weight d) (StartTime d) a
    (IsL1Validator d) (validationID d).
Definition set_Weight (w : Z) (d : validatorData) : validatorData :=
  mkValidatorData (UpDuration d) (LastUpdated d) (vd_NodeID d) w (StartTime d) (IsActive d)
    (IsL1Validator d) (validationID d).

Definition UpdateValidator (now : Z) (vdr : Validator) (y : sys)
    : option (result uerr () * sys) :=
  let vID := v_ValidationID vdr in
  match data (vstate y) !! vID with
  | None => Some (Prelude.Err database_ErrNotFound, y)
  | Some d =>
      if negb (constantsAreUnmodified d vdr) then Some (Prelude.Err ErrImmutableField, y)
      else
        let active := negb (eqb (IsActive d) (v_IsActive vdr)) in
        y ← (if active then
               notify (OnValidatorStatusUpdated now (vd_NodeID d) (v_IsActive vdr))
                 (with_state (set_data (alter (set_IsActive (v_IsActive vdr)) vID) (vstate y)) y)
             else Some y);
        let weight := negb (bool_decide (Weight d = v_Weight vdr)) in
        let y := if weight
                 then with_state (set_data (alter (set_Weight (v_Weight vdr)) vID) (vstate y)) y
                 else y in
        Some (Ok (), if active || weight
                     then with_state (mark vID updatedStatus (vstate y)) y else y)
  end.

Definition DeleteValidator (now : Z) (vID : ID) (y : sys) : option (result uerr () * sys) :=
  match data (vstate y) !! vID with
  | None => Some (Prelude.Err database_ErrNotFound, y)
  | Some d =>
      let s := vstate y in
      let s := mkState (delete (validationID d) (data s)) (delete (vd_NodeID d) (index s))
                 (updatedData s) in
      let y := with_state (mark (validationID d) deletedStatus s) y in
      y ← notify (OnValidatorRemoved now (vd_NodeID d)) y; Some (Ok (), y)
  end.

Definition SetStatus (now : Z) (vID : ID) (isActive : bool) (y : sys)
    : option (result uerr () * sys) :=
  match data (vstate y) !! vID with
  | None => Some (Prelude.Err database_ErrNotFound, y)
  | Some d =>
      let s := mark vID updatedStatus (set_data (alter (set_IsActive isActive) vID) (vstate y)) in
      y ← notify (OnValidatorStatusUpdated now (vd_NodeID d) isActive) (with_state s y);
      Some (Ok (), y)
  end.

(** The listener is told of the validators there are, in the order [order]. *)
Definition RegisterListener (now : Z) (order : list ID) (l : listener) (y : sys) : option sys :=
  let ls := listeners y ++ [l] in
  c ← foldl (λ oc vID, c ← oc;
               match data (store c) !! vID with
               | Some d => OnValidatorAdded now (vd_NodeID d) (IsActive d) c
               | None => Some c
               end) (Some (sys_core y)) order;
  Some (mkSys c ls).

(** ** The database form of a validator *)

Definition to_val (d : validatorData) : val :=
  VStruct [(tagged "UpDuration", VInt W64 (UpDuration d));
           (tagged "LastUpdated", VUint W64 (LastUpdated d));
           (tagged "NodeID", bytes_val (vd_NodeID d));
           (tagged "Weight", VUint W64 (Weight d));
           (tagged "StartTime", VUint W64 (StartTime d));
           (tagged "IsActive", VBool (IsActive d));
           (tagged "IsL1Validator", VBool (IsL1Validator d));
           (untagged "validationID", bytes_val (validationID d))].

Definition of_val (v : val) : option validatorData :=
  match v with
  | VStruct [(_, VInt _ up); (_, VUint _ last); (_, VArray _ node); (_, VUint _ w);
             (_, VUint _ start); (_, VBool active); (_, VBool l1); (_, VArray _ vid)] =>
      Some (mkValidatorData up last (bytes_of node) w start active l1 (bytes_of vid))
  | _ => None
  end.

Definition zero_vdr (vID : ID) : validatorData :=
  mkValidatorData 0 0 (replicate 20 0%Z) 0 0 false false vID.

Definition vdr_typ : typ := typeof (to_val (zero_vdr (replicate 32 0%Z))).

(** [init] of codec.go registers [validatorData], type 0. *)
Definition vdrCodec : linearCodec := (RegisterType 0 NewCodec).2.

(** No encoded type has an interface. *)
Definition vdr_types (rt : nat) : typ := vdr_typ.
Definition vdr_implements (rt i : nat) : bool := false.

Definition parseValidatorData (bytes : list Z) (d : validatorData)
    : option (result cerr validatorData) :=
  if bool_decide (length bytes = 0) then Some (Ok d)
  else
    match Unmarshal vdr_types vdr_implements DefaultTags vdrCodec MaxInt32 bytes
            (Some (VPtr (to_val d))) with
    | None => None
    | Some (Prelude.Err e) => Some (Prelude.Err e)
    | Some (Ok v) => match of_val v with Some d => Some (Ok d) | None => None end
    end.

(** The loop of [loadFromDisk] over the entries the iterator visits; [ids.ToID]
    wants 32 bytes. *)
Fixpoint loadFromDisk (entries : list (list Z * list Z)) (s : state)
    : option (result uerr state) :=
  match entries with
  | [] => Some (Ok s)
  | (vIDBytes, value) :: rest =>
      if bool_decide (length vIDBytes ≠ 32) then Some (Prelude.Err (EFetch "invalid hash length"))
      else
        match parseValidatorData value (zero_vdr vIDBytes) with
        | None => None
        | Some (Prelude.Err e) => Some (Prelude.Err (EMarshal e))
        | Some (Ok d) =>
            match addData vIDBytes d s with
            | Prelude.Err e => Some (Prelude.Err e)
            | Ok s => loadFromDisk rest s
            end
        end
  end.

Definition NewState (entries : list (list Z * list Z)) : option (result uerr state) :=
  loadFromDisk entries (mkState ∅ ∅ ∅).

Section write.
Context (grow : nat → nat) {W : Type} `{!DatabaseClient W}.

(** A validator that is not in the map is a nil pointer. *)
Definition vdr_Marshal (o : option validatorData) : option (result cerr (list Z)) :=
  Marshal grow DefaultTags vdrCodec MaxInt32
    (Some (match o with Some d => VPtr (to_val d) | None => VNilPtr vdr_typ end)).

Definition unmark (vID : ID) (s : state) : state :=
  mkState (data s) (index s) (delete vID (updatedData s)).

Fixpoint WriteState_loop (order : list ID) (s : state) (batch : Batch)
    : option (result uerr () * state * Batch) :=
  match order with
  | [] => Some (Ok (), s, batch)
  | vID :: rest =>
      match updatedData s !! vID with
      | None => WriteState_loop rest s batch
      | Some true =>
          match vdr_Marshal (data s !! vID) with
          | None => None
          | Some (Prelude.Err e) => Some (Prelude.Err (EMarshal e), s, batch)
          | Some (Ok dataBytes) =>
              WriteState_loop rest (unmark vID s) (Batch_Set vID dataBytes batch)
          end
      | Some false => WriteState_loop rest (unmark vID s) (Batch_Delete vID batch)
      end
  end.

Definition WriteState (order : list ID) (s : state) (w : W)
    : option (result uerr () * state * W) :=
  match WriteState_loop order s NewBatch with
  | None => None
  | Some (Prelude.Err e, s, _) => Some (Prelude.Err e, s, w)
  | Some (Ok _, s, batch) =>
      let '(r, w) := Batch_Write batch w in
      Some (match r with Ok _ => Ok () | Prelude.Err e => Prelude.Err (EDatabase e) end, s, w)
  end.

(** ** manager *)

Record GetCurrentValidatorOutput := mkOutput {
  o_NodeID : NodeID;
  o_Weight : Z;
  o_StartTime : Z;
  o_IsActive : bool;
  o_IsL1Validator : bool;
}.

(** The first loop of [loadValidators]; the error of [DeleteValidator] is dropped. *)
Fixpoint deleteValidators (now : Z) (order : list ID)
    (newValidators : gmap ID GetCurrentValidatorOutput) (y : sys) : option sys :=
  match order with
  | [] => Some y
  | vID :: rest =>
      match newValidators !! vID with
      | Some _ => deleteValidators now rest newValidators y
      | None =>
          r ← DeleteValidator now vID y;
          deleteValidators now rest newValidators r.2
      end
  end.

Definition validator_of (newVID : ID) (newVdr : GetCurrentValidatorOutput) : Validator :=
  mkValidator newVID (o_NodeID newVdr) (o_Weight newVdr) (o_StartTime newVdr) (o_IsActive newVdr)
    (o_IsL1Validator newVdr).

Fixpoint addValidators (now : Z) (order : list ID) (currentValidationIDs : gset ID)
    (newValidators : gmap ID GetCurrentValidatorOutput) (y : sys)
    : option (result uerr () * sys) :=
  match order with
  | [] => Some (Ok (), y)
  | newVID :: rest =>
      match newValidators !! newVID with
      | None => addValidators now rest currentValidationIDs newValidators y
      | Some newVdr =>
          let currentVdr := validator_of newVID newVdr in
          r ← (if bool_decide (newVID ∈ currentValidationIDs) then UpdateValidator now currentVdr y
               else AddValidator now currentVdr y);
          match r with
          | (Prelude.Err e, y) => Some (Prelude.Err e, y)
          | (Ok _, y) => addValidators now rest currentValidationIDs newValidators y
          end
      end
  end.

Definition loadValidators (now : Z) (delOrder newOrder : list ID)
    (newValidators : gmap ID GetCurrentValidatorOutput) (y : sys)
    : option (result uerr () * sys) :=
  let currentValidationIDs := GetValidationIDs (vstate y) in
  y ← deleteValidators now delOrder newValidators y;
  addValidators now newOrder currentValidationIDs newValidators y.

(** [log] tells whether the manager has a logger: without one the first line
    panics.  [fetched] is what [GetCurrentValidatorSet] returns. *)
Definition Sync (log : bool) (fetched : result string (gmap ID GetCurrentValidatorOutput))
    (now : Z) (delOrder newOrder writeOrder : list ID) (y : sys) (w : W)
    : option (result uerr () * sys * W) :=
  if negb log then None
  else
    match fetched with
    | Prelude.Err e => Some (Prelude.Err (EFetch e), y, w)
    | Ok currentValidatorSet =>
        match loadValidators now delOrder newOrder currentValidatorSet y with
        | None => None
        | Some (Prelude.Err e, y) => Some (Prelude.Err e, y, w)
        | Some (Ok _, y) =>
            match WriteState writeOrder (vstate y) w with
            | None => None
            | Some (r, s, w) => Some (r, with_state s y, w)
            end
        end
    end.
End write.

(** [NewManager]: the logger and the source of validators stay unset. *)
Definition validators_NewManager (now : Z) (entries : list (list Z * list Z)) (order : list ID)
    : option (result uerr sys) :=
  match NewState entries with
  | None => None
  | Some (Prelude.Err e) => Some (Prelude.Err e)
  | Some (Ok s) =>
      y ← RegisterListener now order ListenerPausableManager
            (mkSys (mkCore NewPausableManager NewManager s) []);
      Some (Ok y)
  end.

Definition GetValidatorAndUptime (now : Z) (vID : ID) (y : sys)
    : result uerr (Validator * Z * Z) :=
  match GetValidator vID (vstate y) with
  | Prelude.Err e => Prelude.Err e
  | Ok vdr =>
      match CalculateUptime now (v_NodeID vdr) (mgr (sys_core y)) (vstate y) with
      | Prelude.Err e => Prelude.Err e
      | Ok (uptime, lastUpdated) => Ok (vdr, uptime, lastUpdated)
      end
  end.
