(* ===== verification/ValidatorsProps.v ===== *)
(** * Validators: the proofs

    The invariant of the objects of Validators.v, what each operation does to the
    set of validators, and the properties of uptimes, of [loadValidators] and of
    the database. *)

From S2P Require Import Prelude Packer Bimap Codec CodecValues Database Uptime Validators.

(** ** The state *)

(** What a validator is apart from its uptime. *)
Definition vdr_of (d : validatorData) : Validator :=
  mkValidator (validationID d) (vd_NodeID d) (Weight d) (StartTime d) (IsActive d)
    (IsL1Validator d).

Definition vdrs (s : state) : gmap ID Validator := vdr_of <$> data s.

(** Validators as the P-chain gives them, starting before 2242. *)
Record vdr_ok (v : Validator) : Prop := {
  vo_id : bytes_ok (v_ValidationID v) ∧ length (v_ValidationID v) = 32;
  vo_node : bytes_ok (v_NodeID v) ∧ length (v_NodeID v) = 20;
  vo_weight : inU 64 (v_Weight v);
  vo_start : (0 ≤ v_StartTimestamp v < 2 ^ 33)%Z;
}.

(** [index] is the inverse of the node IDs in [data], and the key of an entry is its
    validation ID. *)
Record state_wf (s : state) : Prop := {
  wf_key vID d : data s !! vID = Some d → validationID d = vID;
  wf_index vID d : data s !! vID = Some d → index s !! vd_NodeID d = Some vID;
  wf_data n vID : index s !! n = Some vID → ∃ d, data s !! vID = Some d ∧ vd_NodeID d = n;
  wf_ok vID d : data s !! vID = Some d → vdr_ok (vdr_of d);
}.

(** Two states with the same validators, whatever their uptimes. *)
Definition same_vdrs (s s' : state) : Prop := index s' = index s ∧ vdrs s' = vdrs s.

#[export] Instance same_vdrs_equiv : Equivalence same_vdrs.
Proof. split; [done| |]; unfold same_vdrs; repeat intro; naive_solver congruence. Qed.

Lemma same_vdrs_lookup s s' vID d' :
  same_vdrs s s' → data s' !! vID = Some d' →
  ∃ d, data s !! vID = Some d ∧ vdr_of d = vdr_of d'.
Proof.
  intros [_ Hv] Hd. apply (f_equal (lookup vID)) in Hv. unfold vdrs in Hv.
  rewrite !lookup_fmap, Hd in Hv. simpl in Hv.
  destruct (data s !! vID) as [d|]; [|done]. apply (inj Some) in Hv. eauto.
Qed.

Lemma state_wf_same s s' : same_vdrs s s' → state_wf s → state_wf s'.
Proof.
  intros Hs [Hk Hi Hd Hok]. pose proof (proj1 Hs) as Hidx. constructor.
  - intros vID d' (d & Hl & [= Hv _ _ _ _])%(same_vdrs_lookup _ _ _ _ Hs). by rewrite <-Hv, (Hk vID).
  - intros vID d' (d & Hl & [= _ Hv _ _ _])%(same_vdrs_lookup _ _ _ _ Hs).
    rewrite Hidx, <-Hv. by apply Hi.
  - intros n vID Hn. rewrite Hidx in Hn. apply Hd in Hn as (d & Hl & Hn).
    apply same_vdrs_lookup with (s := s') in Hl as (d' & Hl & Hv); [|by symmetry].
    exists d'. split; [done|]. rewrite <-Hn. by injection Hv.
  - intros vID d' (d & Hl & <-)%(same_vdrs_lookup _ _ _ _ Hs). by eapply Hok.
Qed.

Lemma getData_ok s n vID d :
  getData n s = Ok (vID, d) → index s !! n = Some vID ∧ data s !! vID = Some d.
Proof. unfold getData. repeat case_match; naive_solver. Qed.

Lemma getData_of s vID d : state_wf s → data s !! vID = Some d → getData (vd_NodeID d) s = Ok (vID, d).
Proof. intros Hwf Hd. unfold getData. rewrite (wf_index _ Hwf _ _ Hd), Hd. done. Qed.

Lemma SetUptime_same n up t s r s' : state_SetUptime n up t s = (r, s') → same_vdrs s s'.
Proof.
  unfold state_SetUptime. destruct (getData n s) as [[vID d]|] eqn:E; intros [= <- <-]; [|done].
  apply getData_ok in E as [_ Hd]. split; [done|]. unfold vdrs. simpl.
  rewrite fmap_insert. apply insert_id. by rewrite lookup_fmap, Hd.
Qed.

Lemma getLastUpdated_time d : inS 64 (getLastUpdated d).
Proof.
  unfold getLastUpdated, time_Unix. unfold wrapS at 1. unfold wrapU, inS.
  pose proof (Z.mod_pos_bound (wrapS 64 (LastUpdated d) + unixToInternal) (2 ^ 64) eq_refl).
  case_bool_decide; lia.
Qed.

(** The times of last updates are 64-bit, and a mark says whether the validator is
    there. *)
Record aux_ok (s : state) : Prop := {
  aux_last : map_Forall (λ _ d, inU 64 (LastUpdated d)) (data s);
  aux_marks vID b : updatedData s !! vID = Some b → b = bool_decide (is_Some (data s !! vID));
}.

(** What is not marked in the end was not marked before and did not change. *)
Definition marked (s s' : state) : Prop :=
  ∀ vID, updatedData s' !! vID = None →
    updatedData s !! vID = None ∧ data s' !! vID = data s !! vID.

#[export] Instance marked_preorder : PreOrder marked.
Proof.
  split; [by intros s vID|]. intros s1 s2 s3 H12 H23 vID H3.
  destruct (H23 vID H3) as [H2 ->]. by apply H12.
Qed.

(** What the uptime managers do to the state. *)
Definition only_uptimes (s s' : state) : Prop :=
  same_vdrs s s' ∧ (state_wf s → marked s s' ∧ (aux_ok s → aux_ok s')).

#[export] Instance only_uptimes_preorder : PreOrder only_uptimes.
Proof.
  split; [by intros s|]. intros s1 s2 s3 [H1 L1] [H2 L2]. split; [by etrans|].
  intros Hwf. destruct (L1 Hwf) as [M1 A1].
  destruct (L2 (state_wf_same _ _ H1 Hwf)) as [M2 A2]. split; [by etrans|auto].
Qed.

Lemma SetUptime_R n up t (s : state) r s' : SetUptime n up t s = (r, s') → only_uptimes s s'.
Proof.
  intros Hs. split; [by eapply SetUptime_same|]. simpl in Hs. unfold state_SetUptime in Hs.
  destruct (getData n s) as [[vID d]|] eqn:E; injection Hs as <- <-; [|done].
  intros Hwf. apply getData_ok in E as [_ Hd]. rewrite (wf_key _ Hwf _ _ Hd). split.
  - intros x. simpl. rewrite !lookup_insert. by case_decide.
  - intros [Hl Hm]. constructor; simpl.
    + apply map_Forall_insert_2; [by apply wrapU_range|done].
    + intros x b. rewrite !lookup_insert. case_decide; [|apply Hm].
      intros [= <-]. by rewrite bool_decide_eq_true_2.
Qed.

(** ** The state is a store of uptimes *)

#[export] Program Instance state_UptimeStateLaws : UptimeStateLaws state :=
  {| store_wf := state_wf |}.
Next Obligation.
  intros n up t s Hwf Hok Ht. simpl in *. unfold state_GetUptime in Hok.
  destruct (getData n s) as [[vID d]|] eqn:E; [|done].
  pose proof (getData_ok _ _ _ _ E) as [Hi Hd].
  destruct (state_SetUptime n up t s) as [r s'] eqn:Es.
  pose proof (SetUptime_same _ _ _ _ _ _ Es) as Hsame.
  pose proof (state_wf_same _ _ Hsame Hwf) as Hwf'.
  unfold state_SetUptime in Es. rewrite E in Es. injection Es as <- <-.
  eexists. split; [done|]. split; [done|].
  unfold state_GetUptime, state_GetStartTime, getData. simpl. split; intros n'.
  - destruct (index s !! n') as [vID'|] eqn:Hn'.
    + rewrite lookup_insert. destruct (decide (vID = vID')) as [<-|Hne].
      * apply (wf_data _ Hwf) in Hn' as (d' & Hd' & <-).
        rewrite decide_True; [|apply (wf_data _ Hwf) in Hi as (d2 & Hd2 & <-); congruence].
        unfold getLastUpdated, setLastUpdated. simpl. by rewrite time_Unix_Unix.
      * rewrite decide_False; [done|]. intros ->. congruence.
    + rewrite decide_False; [done|]. intros ->. congruence.
  - destruct (index s !! n') as [vID'|] eqn:Hn'; [|done]. rewrite lookup_insert.
    case_decide as Heq; [|done]. subst vID'. by rewrite Hd.
Qed.
Next Obligation.
  intros n s. simpl. unfold state_GetStartTime, state_GetUptime. by destruct (getData n s) as [[]|].
Qed.

Lemma state_times_ok s : times_ok s.
Proof.
  intros n d t. simpl. unfold state_GetUptime. destruct (getData n s) as [[vID v]|]; [|done].
  intros [= _ <-]. apply getLastUpdated_time.
Qed.

(** The bound of Uptime.v, validator by validator. *)
Definition data_within (d : validatorData) : Prop :=
  time_ok (getStartTime d) ∧ time_ok (getLastUpdated d) ∧ (getStartTime d ≤ getLastUpdated d)%Z ∧
  (0 ≤ UpDuration d ≤ (getLastUpdated d - getStartTime d) * Second)%Z.

Lemma within_iff s :
  state_wf s → (∀ n, uptime_within n s) ↔ map_Forall (λ _, data_within) (data s).
Proof.
  intros Hwf. split.
  - intros Hw vID d Hd. specialize (Hw (vd_NodeID d)). unfold uptime_within in Hw.
    simpl in Hw. unfold state_GetUptime, state_GetStartTime in Hw.
    rewrite (getData_of _ _ _ Hwf Hd) in Hw. by apply Hw.
  - intros Hall n up last start. simpl. unfold state_GetUptime, state_GetStartTime.
    destruct (getData n s) as [[vID d]|] eqn:E; [|done]. apply getData_ok in E as [_ Hd].
    intros [= <- <-] [= <-]. by apply (Hall vID d).
Qed.

(** ** The invariant *)

(** A node is inactive when its validator is. *)
Definition inactive (s : state) (n : NodeID) : Prop :=
  ∃ vID d, data s !! vID = Some d ∧ vd_NodeID d = n ∧ IsActive d = false.

Lemma inactive_same s s' n : same_vdrs s s' → inactive s n ↔ inactive s' n.
Proof.
  assert (∀ s s', same_vdrs s s' → inactive s n → inactive s' n) as H; [|split; apply H; by symmetry || done].
  clear. intros s s' Hs (vID & d & Hd & Hn & Ha).
  apply same_vdrs_lookup with (s := s') in Hd as (d' & Hd' & Hv); [|by symmetry].
  exists vID, d'. injection Hv as ? ? ? ? ? ?. split_and!; congruence.
Qed.

Record core_inv (c : core state) : Prop := {
  ci_conn : conn_ok c;
  ci_wf : state_wf (store c);
  ci_paused n : n ∈ pausedVdrs (pausable c) ↔ inactive (store c) n;
  ci_within : core_within c;
  ci_aux : aux_ok (store c);
}.

Record sys_inv (y : sys) : Prop := {
  si_listeners : listeners y = [ListenerPausableManager];
  si_core : core_inv (sys_core y);
}.

(** The pieces of the invariant while the set of validators is being changed: the
    paused nodes still are those of the old state. *)
Record core_mid (paused : NodeID → Prop) (c : core state) : Prop := {
  cm_conn : conn_ok c;
  cm_wf : state_wf (store c);
  cm_paused n : n ∈ pausedVdrs (pausable c) ↔ paused n;
  cm_within : core_within c;
  cm_aux : aux_ok (store c);
}.

Lemma node_known s vID d : state_wf s → data s !! vID = Some d → is_ok (state_GetUptime (vd_NodeID d) s) = true.
Proof. intros Hwf Hd. unfold state_GetUptime. by rewrite (getData_of _ _ _ Hwf Hd). Qed.

Lemma pause_mid now n paused c :
  time_ok now → core_mid paused c → is_ok (state_GetUptime n (store c)) = true →
  ∃ c', logged (pause now n c) = Some c' ∧ core_mid (λ x, x = n ∨ paused x) c' ∧
        only_uptimes (store c) (store c').
Proof.
  intros Hnow [Hc Hwf Hp Hw Hlast] Hk.
  destruct (pause_spec only_uptimes SetUptime_R now n c Hc) as (Hc' & Hp' & _ & Hs & Hok).
  specialize (Hok Hwf (state_times_ok _) (time_ok_inS _ Hnow) Hk).
  pose proof (within_pausable now n c Hnow Hw) as (_ & _ & Hw' & _).
  destruct (pause now n c) as [r c']. simpl in *. subst r.
  exists c'. split; [done|]. split; [|done]. pose proof Hs as [Hs1 Hs2].
  constructor; [done| | |done|by apply Hs2].
  - by eapply state_wf_same.
  - intros x. rewrite Hp', elem_of_union, elem_of_singleton, Hp. done.
Qed.

Lemma resume_mid now n paused c :
  time_ok now → core_mid paused c →
  ∃ c', logged (resume now n c) = Some c' ∧ core_mid (λ x, x ≠ n ∧ paused x) c' ∧
        store c' = store c.
Proof.
  intros Hnow [Hc Hwf Hp Hw Hlast].
  destruct (resume_spec now n c Hc) as (Hok & Hc' & Hp' & _ & Hs).
  pose proof (within_pausable now n c Hnow Hw) as (_ & _ & _ & Hw').
  destruct (resume now n c) as [r c']. simpl in *. subst r.
  exists c'. split; [done|]. split; [|done]. constructor; [done| | |done|by rewrite Hs].
  - by rewrite Hs.
  - intros x. rewrite Hp', elem_of_difference, elem_of_singleton, Hp. clear. tauto.
Qed.

Lemma core_mid_inv c : core_mid (inactive (store c)) c ↔ core_inv c.
Proof. split; intros []; by constructor. Qed.

Lemma core_mid_ext P Q c : (∀ x, P x ↔ Q x) → core_mid P c → core_mid Q c.
Proof. intros HPQ []. constructor; try done. intros x. by rewrite <-HPQ. Qed.

(** Changing the state under the manager. *)
Lemma core_mid_state c s :
  core_inv c → state_wf s → map_Forall (λ _, data_within) (data s) → aux_ok s →
  core_mid (inactive (store c)) (mkCore (pausable c) (mgr c) s).
Proof.
  intros [Hc Hwf Hp (_ & _ & Hm) _] Hwf' Hw Hlast. constructor; try done.
  split_and!; [done| |done]. by apply within_iff.
Qed.

Lemma core_inv_within c : core_inv c → map_Forall (λ _, data_within) (data (store c)).
Proof. intros [_ Hwf _ (_ & Hw & _) _]. by apply within_iff. Qed.

Lemma notify_one f y c' :
  listeners y = [ListenerPausableManager] → f (sys_core y) = Some c' →
  notify f y = Some (mkSys c' [ListenerPausableManager]).
Proof. intros Hl Hf. unfold notify. rewrite Hl. simpl. by rewrite Hf. Qed.

Lemma vdrs_lookup s vID : vdrs s !! vID = vdr_of <$> data s !! vID.
Proof. apply lookup_fmap. Qed.

(** ** What each operation does to the set of validators *)

Definition node_used (s : state) (n : NodeID) : Prop :=
  ∃ vID v, vdrs s !! vID = Some v ∧ v_NodeID v = n.

Lemma node_used_index s n : state_wf s → node_used s n ↔ is_Some (index s !! n).
Proof.
  intros Hwf. split.
  - intros (vID & v & Hv & <-). rewrite vdrs_lookup in Hv.
    apply fmap_Some in Hv as (d & Hd & ->). exists vID. by apply (wf_index _ Hwf).
  - intros [vID Hi]. apply (wf_data _ Hwf) in Hi as (d & Hd & <-).
    exists vID, (vdr_of d). by rewrite vdrs_lookup, Hd.
Qed.

Lemma start_time_ok z : (0 ≤ z < 2 ^ 33)%Z → time_Unix (wrapS 64 z) = (z + unixToInternal)%Z.
Proof.
  intros Hz. unfold time_Unix. rewrite (wrapS_small 64 z) by lia.
  apply wrapS_small; unfold unixToInternal; lia.
Qed.

Definition new_data (vdr : Validator) : validatorData :=
  mkValidatorData 0 (v_StartTimestamp vdr) (v_NodeID vdr) (v_Weight vdr)
    (v_StartTimestamp vdr) (v_IsActive vdr) (v_IsL1Validator vdr) (v_ValidationID vdr).

Lemma new_data_within vdr : vdr_ok vdr → data_within (new_data vdr).
Proof.
  intros Hv. unfold data_within, getStartTime, getLastUpdated. simpl.
  rewrite start_time_ok by apply Hv. pose proof (vo_start _ Hv).
  unfold time_ok in *. split_and!; lia.
Qed.

Lemma state_wf_add s vdr :
  state_wf s → vdr_ok vdr → data s !! v_ValidationID vdr = None →
  index s !! v_NodeID vdr = None →
  state_wf (mkState (<[v_ValidationID vdr := new_data vdr]> (data s))
              (<[v_NodeID vdr := v_ValidationID vdr]> (index s)) (updatedData s)).
Proof.
  intros Hwf Hv Hd Hi. constructor; simpl.
  - intros vID d [[<- <-]|[_ H]]%lookup_insert_Some; [done|by apply (wf_key _ Hwf)].
  - intros vID d [[<- <-]|[_ H]]%lookup_insert_Some; [apply lookup_insert_eq|].
    apply (wf_index _ Hwf) in H. rewrite lookup_insert_ne; [done|]. intros Heq. congruence.
  - intros n vID [[<- <-]|[_ H]]%lookup_insert_Some;
      [exists (new_data vdr); by rewrite lookup_insert_eq|].
    apply (wf_data _ Hwf) in H as (d & Hl & <-). exists d. split; [|done].
    rewrite lookup_insert_ne; [done|]. intros Heq. congruence.
  - intros vID d [[<- <-]|[_ H]]%lookup_insert_Some; [by destruct vdr|by eapply (wf_ok _ Hwf)].
Qed.

Lemma inactive_add s vdr x :
  data s !! v_ValidationID vdr = None →
  inactive (mkState (<[v_ValidationID vdr := new_data vdr]> (data s))
              (<[v_NodeID vdr := v_ValidationID vdr]> (index s)) (updatedData s)) x ↔
  (x = v_NodeID vdr ∧ v_IsActive vdr = false) ∨ inactive s x.
Proof.
  intros Hd. unfold inactive. simpl. split.
  - intros (vID & d & [[<- <-]|[_ H]]%lookup_insert_Some & <- & Ha); [by left|right; eauto].
  - intros [[-> Ha]|(vID & d & H & <- & Ha)].
    + exists (v_ValidationID vdr), (new_data vdr). by rewrite lookup_insert_eq.
    + exists vID, d. split; [|done]. rewrite lookup_insert_ne; [done|congruence].
Qed.

(** The callback after a validator was added. *)
Lemma added_callback now vdr y s :
  time_ok now → core_mid (inactive (vstate y)) (sys_core (with_state s y)) →
  is_ok (state_GetUptime (v_NodeID vdr) s) = true →
  (∀ x, inactive s x ↔ (x = v_NodeID vdr ∧ v_IsActive vdr = false) ∨ inactive (vstate y) x) →
  ∃ c', OnValidatorAdded now (v_NodeID vdr) (v_IsActive vdr) (sys_core (with_state s y)) = Some c' ∧
    core_inv c' ∧ only_uptimes s (store c').
Proof.
  intros Hnow Hmid Hk Hin. unfold OnValidatorAdded. destruct (v_IsActive vdr) eqn:Ea.
  - eexists. split; [done|]. split; [|done]. apply core_mid_inv. eapply core_mid_ext; [|exact Hmid].
    intros x. simpl. rewrite Hin. clear. naive_solver.
  - destruct (pause_mid now (v_NodeID vdr) _ _ Hnow Hmid Hk) as (c' & Hp & Hm & Hs).
    exists c'. split; [done|]. split; [|done]. apply core_mid_inv. eapply core_mid_ext; [|exact Hm].
    intros x. pose proof Hs as [Hs1 _]. rewrite <-(inactive_same _ _ x Hs1). simpl. rewrite Hin.
    clear. naive_solver.
Qed.

Lemma AddValidator_spec now vdr y :
  time_ok now → vdr_ok vdr → sys_inv y →
  ∃ r y', AddValidator now vdr y = Some (r, y') ∧ sys_inv y' ∧
    marked (vstate y) (vstate y') ∧
    ((is_Some (vdrs (vstate y) !! v_ValidationID vdr) ∨ node_used (vstate y) (v_NodeID vdr)) ∧
       r = Prelude.Err ErrAlreadyExists ∧ y' = y ∨
     vdrs (vstate y) !! v_ValidationID vdr = None ∧ ¬ node_used (vstate y) (v_NodeID vdr) ∧
       r = Ok () ∧ vdrs (vstate y') = <[v_ValidationID vdr := vdr]> (vdrs (vstate y))).
Proof.
  intros Hnow Hv [Hl Hc]. pose proof (ci_wf _ Hc) as Hwf. fold (vstate y) in Hwf.
  unfold AddValidator. fold (new_data vdr). unfold addData.
  pose proof (node_used_index _ (v_NodeID vdr) Hwf) as Hnu. rewrite vdrs_lookup.
  case_bool_decide as H1.
  { do 2 eexists. do 3 (split; [done|]). left. split; [|done]. left. by apply fmap_is_Some. }
  case_bool_decide as H2; simpl in H2.
  { do 2 eexists. do 3 (split; [done|]). left. split; [right; by apply Hnu|done]. }
  apply eq_None_not_Some in H1. apply eq_None_not_Some in H2. simpl.
  set (s1 := mkState _ _ _). pose proof (state_wf_add _ vdr Hwf Hv H1 H2 : state_wf s1) as Hwf1.
  assert (map_Forall (λ _, data_within) (data s1)) as Hw1.
  { apply map_Forall_insert_2; [by apply new_data_within|by apply core_inv_within]. }
  assert (state_wf (mark (v_ValidationID vdr) updatedStatus s1)) as Hwf1' by (by destruct Hwf1).
  set (s2 := mark (v_ValidationID vdr) updatedStatus s1) in *.
  assert (aux_ok s2) as Haux.
  { pose proof (ci_aux _ Hc) as [Hal Ham]. constructor; simpl.
    - apply map_Forall_insert_2; [|done]. pose proof (vo_start _ Hv). unfold inU. simpl. lia.
    - intros x b. rewrite !lookup_insert. case_decide; [|apply Ham].
      intros [= <-]. by rewrite bool_decide_eq_true_2. }
  assert (marked (vstate y) s2) as Hmk.
  { intros x. simpl. rewrite !lookup_insert. by case_decide. }
  pose proof (core_mid_state _ _ Hc Hwf1' Hw1 Haux) as Hmid.
  assert (vdrs s2 = <[v_ValidationID vdr := vdr]> (vdrs (vstate y))) as Hs1.
  { unfold vdrs. simpl. rewrite fmap_insert. by destruct vdr. }
  destruct (added_callback now vdr y s2) as (c' & Hcb & Hi & Hs); try done.
  { apply (node_known _ (v_ValidationID vdr) (new_data vdr) Hwf1'). apply lookup_insert_eq. }
  { intros x. apply (inactive_add (vstate y) vdr x H1). }
  rewrite (notify_one _ (with_state _ y) c' Hl Hcb). simpl. do 2 eexists. split; [done|].
  split; [by constructor|]. destruct Hs as [[_ Hs] Hm]. split.
  { etrans; [exact Hmk|]. by apply Hm. }
  right. split_and!; try done.
  - by rewrite H1.
  - rewrite Hnu, H2. by intros [].
  - unfold vstate at 1. simpl. by rewrite Hs.
Qed.

Lemma state_wf_mark s vID b : state_wf s ↔ state_wf (mark vID b s).
Proof. split; intros []; by constructor. Qed.

Lemma state_wf_alter f vID s :
  (∀ d, validationID (f d) = validationID d ∧ vd_NodeID (f d) = vd_NodeID d) →
  (∀ d, vdr_ok (vdr_of d) → vdr_ok (vdr_of (f d))) →
  state_wf s → state_wf (set_data (alter f vID) s).
Proof.
  intros Hf Hok Hwf. constructor; simpl.
  - intros v d. rewrite lookup_alter. case_decide as Hv; [|by apply (wf_key _ Hwf)].
    intros (d0 & Hd & ->)%fmap_Some. rewrite (proj1 (Hf d0)). subst v. by apply (wf_key _ Hwf).
  - intros v d. rewrite lookup_alter. case_decide as Hv; [|by apply (wf_index _ Hwf)].
    intros (d0 & Hd & ->)%fmap_Some. rewrite (proj2 (Hf d0)). subst v. by apply (wf_index _ Hwf).
  - intros n v Hn. apply (wf_data _ Hwf) in Hn as (d & Hd & Hn).
    rewrite lookup_alter. case_decide as Hv; [|eauto]. subst v. rewrite Hd. simpl.
    eexists. split; [done|]. by rewrite (proj2 (Hf d)).
  - intros v d. rewrite lookup_alter. case_decide as Hv; [|by apply (wf_ok _ Hwf)].
    intros (d0 & Hd & ->)%fmap_Some. by eapply Hok, (wf_ok _ Hwf).
Qed.

Lemma vdr_ok_status a d : vdr_ok (vdr_of d) → vdr_ok (vdr_of (set_IsActive a d)).
Proof. intros []. by constructor. Qed.

Lemma state_wf_status a vID s :
  state_wf s → state_wf (set_data (alter (set_IsActive a) vID) s).
Proof. apply state_wf_alter; [done|apply vdr_ok_status]. Qed.

Lemma aux_ok_alter (f : validatorData → validatorData) (vID : ID) s :
  (∀ d, LastUpdated (f d) = LastUpdated d) → aux_ok s → aux_ok (set_data (alter f vID) s).
Proof.
  intros Hf [Hl Hm]. constructor; simpl.
  - intros v d. rewrite lookup_alter. case_decide; [|apply Hl].
    intros (d0 & Hd & ->)%fmap_Some. rewrite Hf. by eapply Hl.
  - intros v b Hb. rewrite (Hm v b Hb). apply bool_decide_ext. rewrite lookup_alter.
    case_decide; [|done]. subst. by rewrite fmap_is_Some.
Qed.

Lemma aux_ok_mark vID s :
  is_Some (data s !! vID) → aux_ok s → aux_ok (mark vID updatedStatus s).
Proof.
  intros Hd [Hl Hm]. constructor; [done|]. intros v b. simpl. rewrite lookup_insert.
  case_decide; [|apply Hm]. intros [= <-]. subst. by rewrite bool_decide_eq_true_2.
Qed.

(** [marked], but for one validator that is still to be marked. *)
Definition marked_but (vID : ID) (s s' : state) : Prop :=
  ∀ x, x ≠ vID → updatedData s' !! x = None →
    updatedData s !! x = None ∧ data s' !! x = data s !! x.

Lemma marked_but_mark vID s s' : marked_but vID s s' → marked s (mark vID updatedStatus s').
Proof.
  intros H x. simpl. rewrite lookup_insert. case_decide; [done|]. by apply H.
Qed.

Lemma marked_but_trans vID s1 s2 s3 :
  marked_but vID s1 s2 → marked_but vID s2 s3 → marked_but vID s1 s3.
Proof. intros H12 H23 x Hx H3. destruct (H23 x Hx H3) as [H2 ->]. by apply H12. Qed.

Lemma marked_but_weaken vID s s' : marked s s' → marked_but vID s s'.
Proof. intros H x _. apply H. Qed.

Lemma marked_but_alter (f : validatorData → validatorData) (vID : ID) s :
  marked_but vID s (set_data (alter f vID) s).
Proof. intros x Hx. simpl. rewrite lookup_alter_ne by done. done. Qed.

Lemma within_alter (f : validatorData → validatorData) (vID : ID) (m : gmap ID validatorData) :
  (∀ d, data_within d → data_within (f d)) → map_Forall (λ _, data_within) m →
  map_Forall (λ _, data_within) (alter f vID m).
Proof.
  intros Hf Hm v d. rewrite lookup_alter. case_decide; [|apply Hm].
  intros (d0 & Hd & ->)%fmap_Some. by eapply Hf, Hm.
Qed.

(** Only the validator of a node decides whether the node is inactive. *)
Lemma inactive_iff s vID d :
  state_wf s → data s !! vID = Some d → inactive s (vd_NodeID d) ↔ IsActive d = false.
Proof.
  intros Hwf Hd. split; [|by exists vID, d]. intros (v & d' & Hd' & Hn & Ha).
  pose proof (wf_index _ Hwf _ _ Hd) as H1. pose proof (wf_index _ Hwf _ _ Hd') as H2.
  rewrite Hn in H2. congruence.
Qed.

Lemma inactive_status s vID d a x :
  state_wf s → data s !! vID = Some d →
  inactive (set_data (alter (set_IsActive a) vID) s) x ↔
  (x = vd_NodeID d ∧ a = false) ∨ (x ≠ vd_NodeID d ∧ inactive s x).
Proof.
  intros Hwf Hd. assert (state_wf (set_data (alter (set_IsActive a) vID) s)) as Hwf'
    by (by apply state_wf_status).
  destruct (decide (x = vd_NodeID d)) as [->|Hne].
  - rewrite (inactive_iff _ vID (set_IsActive a d) Hwf'); [simpl; naive_solver|].
    simpl. by rewrite lookup_alter_eq, Hd.
  - split.
    + intros (v & d' & Hd' & Hn & Ha). right. split; [done|]. simpl in Hd'.
      rewrite lookup_alter in Hd'. case_decide; [|exists v, d'; done].
      subst v. rewrite Hd in Hd'. simpl in Hd'. injection Hd' as <-. by destruct Hne.
    + intros [[? _]|[_ (v & d' & Hd' & Hn & Ha)]]; [done|]. exists v, d'. simpl.
      rewrite lookup_alter_ne; [done|]. intros <-. congruence.
Qed.

(** The callback after a change of status. *)
Lemma notify_status now n a s y :
  time_ok now → sys_inv y → state_wf s → map_Forall (λ _, data_within) (data s) → aux_ok s →
  is_ok (state_GetUptime n s) = true →
  (∀ x, inactive s x ↔ (x = n ∧ a = false) ∨ (x ≠ n ∧ inactive (vstate y) x)) →
  ∃ y', notify (OnValidatorStatusUpdated now n a) (with_state s y) = Some y' ∧ sys_inv y' ∧
        only_uptimes s (vstate y').
Proof.
  intros Hnow [Hl Hc] Hwf Hw Haux Hk Hin.
  pose proof (core_mid_state _ _ Hc Hwf Hw Haux) as Hmid.
  unfold OnValidatorStatusUpdated. destruct a.
  - destruct (resume_mid now n _ _ Hnow Hmid) as (c' & Hr & Hm & Hs).
    exists (mkSys c' [ListenerPausableManager]).
    split; [by apply (notify_one _ (with_state s y))|].
    assert (only_uptimes s (store c')) as Hsame by (by rewrite Hs).
    split; [|done]. constructor; [done|]. apply core_mid_inv. eapply core_mid_ext; [|exact Hm].
    intros x. unfold vstate. simpl. rewrite Hs. simpl. rewrite Hin. clear. naive_solver.
  - destruct (pause_mid now n _ _ Hnow Hmid Hk) as (c' & Hr & Hm & Hs).
    exists (mkSys c' [ListenerPausableManager]).
    split; [by apply (notify_one _ (with_state s y))|].
    split; [|done]. constructor; [done|]. apply core_mid_inv. eapply core_mid_ext; [|exact Hm].
    intros x. rewrite <-(inactive_same _ _ x (proj1 Hs)), Hin. unfold vstate. simpl. clear.
    destruct (decide (x = n)); naive_solver.
Qed.

Lemma set_IsActive_keeps a d :
  validationID (set_IsActive a d) = validationID d ∧ vd_NodeID (set_IsActive a d) = vd_NodeID d.
Proof. done. Qed.

Lemma vdrs_status s vID d a :
  data s !! vID = Some d →
  vdrs (set_data (alter (set_IsActive a) vID) s) = <[vID := vdr_of (set_IsActive a d)]> (vdrs s).
Proof.
  intros Hd. apply map_eq. intros v. rewrite vdrs_lookup, lookup_insert, vdrs_lookup. simpl.
  rewrite lookup_alter. case_decide; subst; [by rewrite Hd|done].
Qed.

Lemma SetStatus_spec now vID a y :
  time_ok now → sys_inv y →
  ∃ r y', SetStatus now vID a y = Some (r, y') ∧ sys_inv y' ∧ marked (vstate y) (vstate y') ∧
    match data (vstate y) !! vID with
    | None => r = Prelude.Err database_ErrNotFound ∧ y' = y
    | Some d => r = Ok () ∧
        vdrs (vstate y') = <[vID := vdr_of (set_IsActive a d)]> (vdrs (vstate y))
    end.
Proof.
  intros Hnow Hy. pose proof (ci_wf _ (si_core _ Hy) : state_wf (vstate y)) as Hwf.
  unfold SetStatus. destruct (data (vstate y) !! vID) as [d|] eqn:Hd; [|by do 2 eexists].
  set (s1 := set_data (alter (set_IsActive a) vID) (vstate y)).
  assert (state_wf s1) as Hwf1 by (by apply state_wf_status).
  assert (data s1 !! vID = Some (set_IsActive a d)) as Hd1
    by (simpl; by rewrite lookup_alter_eq, Hd).
  destruct (notify_status now (vd_NodeID d) a (mark vID updatedStatus s1) y Hnow Hy)
    as (y' & Hn & Hy' & Hs).
  - by apply state_wf_mark.
  - by apply within_alter; [|apply core_inv_within, Hy].
  - apply aux_ok_mark; [by rewrite Hd1|].
    by apply aux_ok_alter; [|apply (ci_aux _ (si_core _ Hy))].
  - apply (node_known _ vID (set_IsActive a d)); [by apply state_wf_mark|done].
  - intros x. by apply inactive_status.
  - rewrite Hn. simpl. do 2 eexists. split; [done|]. split; [done|].
    destruct Hs as [[_ Hs] Hm]. destruct Hm as [Hm _]; [by apply state_wf_mark|].
    split; [etrans; [|exact Hm]; apply marked_but_mark, marked_but_alter|].
    split; [done|]. rewrite Hs. by apply vdrs_status.
Qed.

(** A change of the state that listeners are not told of. *)
Lemma with_state_inv s y :
  sys_inv y → state_wf s → map_Forall (λ _, data_within) (data s) → aux_ok s →
  (∀ x, inactive s x ↔ inactive (vstate y) x) → sys_inv (with_state s y).
Proof.
  intros [Hl Hc] Hwf Hw Haux Hin. constructor; [done|]. apply core_mid_inv.
  eapply core_mid_ext; [|exact (core_mid_state _ _ Hc Hwf Hw Haux)]. intros x. simpl. by rewrite Hin.
Qed.

Lemma mark_inv vID y :
  is_Some (data (vstate y) !! vID) → sys_inv y →
  sys_inv (with_state (mark vID updatedStatus (vstate y)) y).
Proof.
  intros Hd Hy. apply with_state_inv; [done| | | |done].
  - apply state_wf_mark, (ci_wf _ (si_core _ Hy)).
  - apply (core_inv_within _ (si_core _ Hy)).
  - apply aux_ok_mark; [done|]. apply (ci_aux _ (si_core _ Hy)).
Qed.

Lemma weight_inv vID w y :
  sys_inv y → inU 64 w →
  sys_inv (with_state (set_data (alter (set_Weight w) vID) (vstate y)) y).
Proof.
  intros Hy Hw. apply with_state_inv; [done| | | |].
  - apply state_wf_alter; [done| |apply (ci_wf _ (si_core _ Hy))]. intros d []. by constructor.
  - apply within_alter; [done|]. apply (core_inv_within _ (si_core _ Hy)).
  - apply aux_ok_alter; [done|]. apply (ci_aux _ (si_core _ Hy)).
  - intros x. unfold inactive. simpl. split.
    + intros (v & d & Hd & <- & Ha). rewrite lookup_alter in Hd. case_decide; [|eauto].
      apply fmap_Some in Hd as (d0 & Hd0 & ->). subst. eauto.
    + intros (v & d & Hd & <- & Ha). destruct (decide (vID = v)) as [->|].
      * exists v, (set_Weight w d). by rewrite lookup_alter_eq, Hd.
      * exists v, d. by rewrite lookup_alter_ne.
Qed.

Lemma vdrs_weight s vID w v :
  vdrs s !! vID = Some v →
  vdrs (set_data (alter (set_Weight w) vID) s) =
    <[vID := mkValidator (v_ValidationID v) (v_NodeID v) w (v_StartTimestamp v) (v_IsActive v)
               (v_IsL1Validator v)]> (vdrs s).
Proof.
  rewrite vdrs_lookup. intros (d & Hd & ->)%fmap_Some.
  apply map_eq. intros x. rewrite vdrs_lookup, lookup_insert, vdrs_lookup. simpl.
  rewrite lookup_alter. case_decide; subst; [by rewrite Hd|done].
Qed.

(** The constant fields of a validator and of its update agree. *)
Definition same_constants (v u : Validator) : Prop :=
  v_ValidationID v = v_ValidationID u ∧ v_NodeID v = v_NodeID u ∧
  v_IsL1Validator v = v_IsL1Validator u ∧ v_StartTimestamp v = v_StartTimestamp u.

Lemma constantsAreUnmodified_spec d u :
  constantsAreUnmodified d u = true ↔ same_constants (vdr_of d) u.
Proof.
  unfold constantsAreUnmodified, same_constants.
  rewrite !andb_true_iff, !bool_decide_eq_true, eqb_true_iff. simpl. tauto.
Qed.

Lemma UpdateValidator_active now vdr d y :
  time_ok now → sys_inv y → data (vstate y) !! v_ValidationID vdr = Some d →
  ∃ y1, (if negb (eqb (IsActive d) (v_IsActive vdr)) then
           notify (OnValidatorStatusUpdated now (vd_NodeID d) (v_IsActive vdr))
             (with_state (set_data (alter (set_IsActive (v_IsActive vdr)) (v_ValidationID vdr))
                            (vstate y)) y)
         else Some y) = Some y1 ∧ sys_inv y1 ∧
    (if eqb (IsActive d) (v_IsActive vdr) then y1 = y
     else marked_but (v_ValidationID vdr) (vstate y) (vstate y1)) ∧
    vdrs (vstate y1) = <[v_ValidationID vdr := vdr_of (set_IsActive (v_IsActive vdr) d)]> (vdrs (vstate y)).
Proof.
  intros Hnow Hy Hd. pose proof (ci_wf _ (si_core _ Hy) : state_wf (vstate y)) as Hwf.
  destruct (eqb (IsActive d) (v_IsActive vdr)) eqn:Ea; simpl.
  - exists y. do 3 (split; [done|]). symmetry. apply insert_id.
    rewrite vdrs_lookup, Hd. simpl. f_equal. apply eqb_prop in Ea.
    unfold vdr_of. simpl. by rewrite Ea.
  - set (s1 := set_data (alter (set_IsActive (v_IsActive vdr)) (v_ValidationID vdr)) (vstate y)).
    assert (state_wf s1) as Hwf1 by (by apply state_wf_status).
    destruct (notify_status now (vd_NodeID d) (v_IsActive vdr) s1 y Hnow Hy Hwf1) as (y1 & Hn & Hy1 & Hs).
    + by apply within_alter; [|apply core_inv_within, Hy].
    + by apply aux_ok_alter; [|apply (ci_aux _ (si_core _ Hy))].
    + apply (node_known _ (v_ValidationID vdr) (set_IsActive (v_IsActive vdr) d)); [done|].
      simpl. by rewrite lookup_alter_eq, Hd.
    + intros x. by apply inactive_status.
    + exists y1. split; [done|]. split; [done|]. destruct Hs as [[_ Hs] Hm]. split.
      * eapply marked_but_trans; [apply marked_but_alter|]. by apply marked_but_weaken, Hm.
      * rewrite Hs. by apply vdrs_status.
Qed.

Lemma UpdateValidator_spec now vdr y :
  time_ok now → vdr_ok vdr → sys_inv y →
  ∃ r y', UpdateValidator now vdr y = Some (r, y') ∧ sys_inv y' ∧
    marked (vstate y) (vstate y') ∧
    match vdrs (vstate y) !! v_ValidationID vdr with
    | None => r = Prelude.Err database_ErrNotFound ∧ y' = y
    | Some v =>
        same_constants v vdr ∧ r = Ok () ∧
          vdrs (vstate y') = <[v_ValidationID vdr := vdr]> (vdrs (vstate y)) ∨
        ¬ same_constants v vdr ∧ r = Prelude.Err ErrImmutableField ∧ y' = y
    end.
Proof.
  intros Hnow Hvdr Hy. unfold UpdateValidator. rewrite vdrs_lookup.
  destruct (data (vstate y) !! v_ValidationID vdr) as [d|] eqn:Hd; [|by do 2 eexists]. simpl.
  destruct (constantsAreUnmodified d vdr) eqn:Hcst; simpl.
  2: { do 2 eexists. do 3 (split; [done|]). right. split; [|done].
       rewrite <-constantsAreUnmodified_spec, Hcst. done. }
  apply constantsAreUnmodified_spec in Hcst. pose proof Hcst as (Hc1 & Hc2 & Hc3 & Hc4).
  destruct (UpdateValidator_active now vdr d y Hnow Hy Hd) as (y1 & -> & Hy1 & Hm1 & Hv1). simpl.
  set (y2 := if negb (bool_decide (Weight d = v_Weight vdr)) then _ else y1).
  assert (sys_inv y2 ∧ vdrs (vstate y2) = <[v_ValidationID vdr := vdr]> (vdrs (vstate y))) as [Hy2 Hv2].
  { subst y2. case_bool_decide as Hw; simpl.
    - split; [done|]. rewrite Hv1. f_equal. unfold vdr_of. simpl in *. rewrite Hc1, Hc2, Hc3, Hc4, Hw.
      by destruct vdr.
    - split; [apply weight_inv; [done|apply Hvdr]|]. unfold vstate at 1. simpl.
      erewrite vdrs_weight; [|rewrite Hv1; apply lookup_insert_eq].
      rewrite Hv1, insert_insert_eq. f_equal. simpl in *. rewrite Hc1, Hc2, Hc3, Hc4.
      by destruct vdr. }
  assert (is_Some (data (vstate y2) !! v_ValidationID vdr)) as Hd2.
  { apply (f_equal (lookup (v_ValidationID vdr))) in Hv2.
    rewrite vdrs_lookup, lookup_insert_eq in Hv2. by apply fmap_Some in Hv2 as (? & -> & _). }
  do 2 eexists. split; [done|]. split; [destruct (_ || _); [by apply mark_inv|done]|].
  split; [|left; split; [done|]; split; [done|]; destruct (_ || _); exact Hv2].
  assert (marked_but (v_ValidationID vdr) (vstate y) (vstate y2)) as Hmb.
  { eapply (marked_but_trans _ _ (vstate y1)).
    - destruct (eqb _ _); [by rewrite Hm1; apply marked_but_weaken|done].
    - subst y2. case_match; [apply marked_but_alter|by apply marked_but_weaken]. }
  destruct (_ || _) eqn:Eor; [by apply marked_but_mark|].
  apply orb_false_iff in Eor as [Ea Ew]. apply negb_false_iff in Ea.
  rewrite Ea in Hm1. subst y2. rewrite Ew, Hm1. done.
Qed.

Lemma state_wf_delete s vID d b :
  state_wf s → data s !! vID = Some d →
  state_wf (mark vID b (mkState (delete vID (data s)) (delete (vd_NodeID d) (index s)) (updatedData s))).
Proof.
  intros Hwf Hd. constructor; simpl.
  - intros v d' [_ H]%lookup_delete_Some. by apply (wf_key _ Hwf).
  - intros v d' [Hne H]%lookup_delete_Some. pose proof (wf_index _ Hwf _ _ H) as Hi.
    rewrite lookup_delete_ne; [done|]. intros Heq. apply Hne.
    pose proof (wf_index _ Hwf _ _ Hd). congruence.
  - intros n v [Hne H]%lookup_delete_Some. apply (wf_data _ Hwf) in H as (d' & Hd' & <-).
    exists d'. split; [|done]. rewrite lookup_delete_ne; [done|]. intros ->. congruence.
  - intros v d' [_ H]%lookup_delete_Some. by eapply (wf_ok _ Hwf).
Qed.

Lemma DeleteValidator_spec now vID y :
  time_ok now → sys_inv y →
  ∃ r y', DeleteValidator now vID y = Some (r, y') ∧ sys_inv y' ∧
    marked (vstate y) (vstate y') ∧
    vdrs (vstate y') = delete vID (vdrs (vstate y)) ∧
    r = match vdrs (vstate y) !! vID with
        | None => Prelude.Err database_ErrNotFound
        | Some _ => Ok ()
        end.
Proof.
  intros Hnow Hy. pose proof (ci_wf _ (si_core _ Hy) : state_wf (vstate y)) as Hwf.
  unfold DeleteValidator. rewrite vdrs_lookup.
  destruct (data (vstate y) !! vID) as [d|] eqn:Hd; simpl.
  2: { do 2 eexists. do 3 (split; [done|]). split; [|done].
       rewrite delete_id; [done|]. by rewrite vdrs_lookup, Hd. }
  rewrite (wf_key _ Hwf _ _ Hd). pose proof (state_wf_delete _ _ _ deletedStatus Hwf Hd) as Hwf1.
  set (s1 := mark vID deletedStatus _) in *.
  assert (∀ x, inactive s1 x ↔ x ≠ vd_NodeID d ∧ inactive (vstate y) x) as Hin.
  { intros x. split.
    - intros (v & d' & H & <- & Ha). simpl in H. apply lookup_delete_Some in H as [Hne H].
      split; [|by exists v, d'].
      intros Heq. pose proof (wf_index _ Hwf _ _ H). pose proof (wf_index _ Hwf _ _ Hd). congruence.
    - intros [Hne (v & d' & H & <- & Ha)]. exists v, d'. split; [|done]. simpl.
      rewrite lookup_delete_ne; [done|]. intros ->. congruence. }
  pose proof Hy as [Hl Hc].
  assert (map_Forall (λ _, data_within) (data s1)) as Hw1
    by (apply map_Forall_delete, (core_inv_within _ Hc)).
  assert (aux_ok s1) as Haux1.
  { pose proof (ci_aux _ Hc) as [Hal Ham]. constructor; simpl; [by apply map_Forall_delete|].
    intros v b. rewrite lookup_insert, lookup_delete. case_decide; [|apply Ham].
    intros [= <-]. by rewrite bool_decide_eq_false_2 by (by intros []). }
  pose proof (core_mid_state _ _ Hc Hwf1 Hw1 Haux1) as Hmid.
  assert (∃ c', OnValidatorRemoved now (vd_NodeID d) (sys_core (with_state s1 y)) = Some c' ∧
    core_inv c' ∧ store c' = s1) as (c' & Hcb & Hi & Hs).
  { unfold OnValidatorRemoved, IsPaused. simpl. case_bool_decide as Hp.
    - destruct (resume_mid now (vd_NodeID d) _ _ Hnow Hmid) as (c' & Hr & Hm & Hs).
      exists c'. split; [done|]. split; [|done]. apply core_mid_inv.
      eapply core_mid_ext; [|exact Hm]. intros x. rewrite Hs. simpl. rewrite Hin. done.
    - eexists. split; [done|]. split; [|done]. apply core_mid_inv.
      eapply core_mid_ext; [|exact Hmid]. intros x. simpl. rewrite Hin.
      rewrite (ci_paused _ Hc) in Hp. unfold vstate. split; [|by intros [_ ?]].
      intros Hx. split; [|done]. by intros ->. }
  rewrite (notify_one _ (with_state _ y) c' Hl Hcb). simpl. do 2 eexists. split; [done|].
  split; [by constructor|]. unfold vstate at 2 3. simpl. rewrite Hs. split.
  { intros x. simpl. rewrite lookup_insert, lookup_delete. by case_decide. }
  split; [|done]. unfold vdrs, s1. simpl. apply fmap_delete.
Qed.

(** ** The database form *)

Record data_ok (d : validatorData) : Prop := {
  do_vdr : vdr_ok (vdr_of d);
  do_last : inU 64 (LastUpdated d);
  do_up : inS 64 (UpDuration d);
}.

(** The bytes of a validator on disk. *)
Definition vdr_bytes (d : validatorData) : list Z :=
  0%Z :: 0%Z :: enc DefaultTags vdrCodec (to_val d).

Lemma vdrCodec_ok : registry_ok vdrCodec.
Proof. apply registry_ok_Register, registry_ok_New. Qed.

Lemma to_val_ok d : data_ok d → val_ok vdr_types vdr_implements (to_val d).
Proof.
  intros [[[Hi _] [Hn _] Hw Hs] Hl Hu]. constructor. unfold inU in Hs, Hl, Hw |- *. simpl in *.
  repeat (apply Forall_cons; split); simpl; try by apply bytes_val_ok.
  all: try (constructor; unfold wbits; simpl; unfold inU; lia). all: try by constructor.
Qed.

Lemma zero_vdr_ok vID : bytes_ok vID → length vID = 32 → data_ok (zero_vdr vID).
Proof.
  intros Hb Hl. constructor; [constructor; simpl| |]; try done; try lia.
  split; [repeat constructor; done|done].
Qed.

Lemma to_val_encodable d : encodable DefaultTags vdrCodec [] (to_val d) = true.
Proof.
  cbn [to_val encodable forallb map fst]. rewrite !encodable_bytes_val. vm_compute. reflexivity.
Qed.

Lemma enc_to_val d :
  data_ok d →
  enc DefaultTags vdrCodec (to_val d) =
    be_encode 8 (wrapU 64 (UpDuration d)) ++ be_encode 8 (LastUpdated d) ++ vd_NodeID d ++
    be_encode 8 (Weight d) ++ be_encode 8 (StartTime d) ++
    [if IsActive d then 1%Z else 0%Z] ++ [if IsL1Validator d then 1%Z else 0%Z].
Proof.
  intros [[_ [Hn _] _ _] _ _]. simpl in Hn. unfold to_val. cbn [enc map].
  rewrite !captureField_tagged, captureField_untagged, (enc_bytes_val _ _ _ Hn). done.
Qed.

Lemma to_val_size d : data_ok d → length (enc DefaultTags vdrCodec (to_val d)) = 54.
Proof.
  intros Hd. rewrite enc_to_val by done. destruct Hd as [[_ [_ Hn] _ _] _ _]. simpl in Hn.
  rewrite !length_app, !be_encode_length, Hn. done.
Qed.

Lemma vdr_Marshal_ok grow d : data_ok d → vdr_Marshal grow (Some d) = Some (Ok (vdr_bytes d)).
Proof.
  intros Hd. unfold vdr_Marshal.
  destruct (Marshal_spec grow vdr_types vdr_implements DefaultTags vdrCodec MaxInt32 (VPtr (to_val d))
    vdrCodec_ok (ok_ptr _ _ _ (to_val_ok d Hd))) as (r & -> & Hr).
  cbn [encodable enc] in Hr. rewrite to_val_encodable, (to_val_size d Hd) in Hr. by rewrite Hr.
Qed.

Lemma of_val_to_val d : of_val (to_val d) = Some d.
Proof. destruct d. simpl. by rewrite !bytes_of_fmap. Qed.

Lemma refill_to_val d :
  length (vd_NodeID d) = 20 →
  refill vdr_types DefaultTags (to_val d) (to_val (zero_vdr (validationID d))) = to_val d.
Proof.
  intros Hn. unfold to_val. cbn [refill fields_of refill_fields].
  rewrite !captureField_tagged, captureField_untagged, refill_bytes_val by done. done.
Qed.

(** What is written is read back. *)
Lemma parse_vdr_bytes d :
  data_ok d → parseValidatorData (vdr_bytes d) (zero_vdr (validationID d)) = Some (Ok d).
Proof.
  intros Hd. unfold parseValidatorData. rewrite bool_decide_eq_false_2 by done.
  pose proof (do_vdr _ Hd) as [[Hi Hil] [Hn Hnl] _ _].
  cbn [vdr_of v_ValidationID v_NodeID] in *. unfold vdr_bytes. rewrite Unmarshal_enc.
  - rewrite refill_to_val by done. by rewrite of_val_to_val.
  - apply vdrCodec_ok.
  - by apply to_val_ok.
  - by apply to_val_ok, zero_vdr_ok.
  - unfold to_val, bytes_val. cbn [typeof map]. rewrite !length_fmap.
    cbn [vd_NodeID validationID zero_vdr]. by rewrite Hnl.
  - apply to_val_encodable.
  - rewrite (to_val_size d Hd). unfold MaxInt32. lia.
Qed.

Lemma core_inv_data_ok c vID d :
  core_inv c → data (store c) !! vID = Some d → data_ok d.
Proof.
  intros Hc Hd. constructor.
  - by eapply (wf_ok _ (ci_wf _ Hc)).
  - by eapply (aux_last _ (ci_aux _ Hc)).
  - pose proof (core_inv_within _ Hc _ _ Hd) as (H1 & H2 & H3 & H4).
    unfold time_ok, Second, inS in *. lia.
Qed.

(** ** Writing the state *)

Section write_state.
Context (grow : nat → nat).

(** Every marked validator in [order] is written or deleted, and its mark removed. *)
Lemma WriteState_loop_spec order s b :
  (∀ vID d, data s !! vID = Some d → data_ok d) →
  (∀ vID m, updatedData s !! vID = Some m → m = bool_decide (is_Some (data s !! vID))) →
  ∃ s' b', WriteState_loop grow order s b = Some (Ok (), s', b') ∧
    data s' = data s ∧ index s' = index s ∧
    (∀ k, updatedData s' !! k = if decide (k ∈ order) then None else updatedData s !! k) ∧
    ∀ disk (k : ID), apply_ops (Ops b') disk !! k =
      if decide (k ∈ order ∧ is_Some (updatedData s !! k)) then vdr_bytes <$> data s !! k
      else apply_ops (Ops b) disk !! k.
Proof.
  revert s b. induction order as [|vID order IH]; intros s b Hok Hm; simpl.
  { exists s, b. do 3 (split; [done|]). split.
    - done.
    - done. }
  destruct (updatedData s !! vID) as [mk|] eqn:Emk.
  - pose proof (Hm vID mk Emk) as ->.
    set (op := mkBatchOp vID (default [] (vdr_bytes <$> data s !! vID))
                 (negb (bool_decide (is_Some (data s !! vID))))).
    assert (∃ b1, (if bool_decide (is_Some (data s !! vID)) then
        match vdr_Marshal grow (data s !! vID) with
        | None => None
        | Some (Prelude.Err e) => Some (Prelude.Err (EMarshal e), s, b)
        | Some (Ok dataBytes) => WriteState_loop grow order (unmark vID s) (Batch_Set vID dataBytes b)
        end
      else WriteState_loop grow order (unmark vID s) (Batch_Delete vID b)) =
      WriteState_loop grow order (unmark vID s) b1 ∧ Ops b1 = Ops b ++ [op]) as (b1 & Hb & Hops).
    { subst op. destruct (data s !! vID) as [d|] eqn:Ed.
      - rewrite bool_decide_eq_true_2 by done. rewrite vdr_Marshal_ok by (by eapply Hok). by eexists.
      - rewrite bool_decide_eq_false_2 by (by intros []). by eexists. }
    rewrite Hb. clear Hb.
    destruct (IH (unmark vID s) b1) as (s' & b' & -> & Hd & Hi & Hu & Ha); [done| |].
    { intros x m. simpl. intros [_ H]%lookup_delete_Some. by apply Hm. }
    exists s', b'. split; [done|]. split; [done|]. split; [done|]. split.
    + intros k. rewrite Hu. simpl. rewrite lookup_delete.
      repeat case_decide; try done; set_solver.
    + intros disk k. rewrite Ha. simpl. rewrite Hops.
      unfold apply_ops. rewrite foldl_snoc. unfold apply_op at 1. simpl.
      destruct (decide (vID = k)) as [->|Hne].
      * rewrite lookup_delete_eq, decide_False by (by intros [_ [? ?]]).
        case_decide as Hdec; [|destruct Hdec; split; [left|eauto]].
        destruct (data s !! k) as [d|].
        -- rewrite bool_decide_eq_true_2 by done. cbn [negb]. by rewrite lookup_insert_eq.
        -- rewrite bool_decide_eq_false_2 by (by intros []). cbn [negb]. by rewrite lookup_delete_eq.
      * rewrite lookup_delete_ne by done. assert ((if negb (bool_decide (is_Some (data s !! vID))) then delete vID (foldl apply_op disk (Ops b))
          else <[vID:=default [] (vdr_bytes <$> data s !! vID)]> (foldl apply_op disk (Ops b))) !! k
          = foldl apply_op disk (Ops b) !! k) as ->.
        { case_match; [by rewrite lookup_delete_ne|by rewrite lookup_insert_ne]. }
        repeat case_decide; try done; set_solver.
  - destruct (IH s b Hok Hm) as (s' & b' & -> & Hd & Hi & Hu & Ha).
    exists s', b'. split; [done|]. split; [done|]. split; [done|]. split.
    + intros k. rewrite Hu. repeat case_decide; try done; set_solver.
    + intros disk k. rewrite Ha. destruct (decide (k = vID)) as [->|Hne].
      * rewrite Emk. rewrite !decide_False; [done|by intros [_ []]|by intros [_ []]].
      * repeat case_decide; try done; set_solver.
Qed.
End write_state.

(** ** Runs of the system *)

Inductive op :=
| OpAdd (vdr : Validator) | OpUpdate (vdr : Validator) | OpDelete (vID : ID)
| OpSetStatus (vID : ID) (isActive : bool)
| OpConnect (n : NodeID) | OpDisconnect (n : NodeID)
| OpStartTracking (ns : list NodeID) | OpStopTracking (ns : list NodeID)
| OpWrite (order : list ID).

Definition op_ok (o : op) : Prop :=
  match o with OpAdd vdr | OpUpdate vdr => vdr_ok vdr | _ => True end.

Definition with_core (y : sys) (x : result uerr () * core state) : result uerr () * sys :=
  (x.1, mkSys x.2 (listeners y)).

Section system.
Context (grow : nat → nat) {W : Type} `{!DatabaseClient W}.

Definition exec (now : Z) (o : op) (y : sys) (w : W) : option (result uerr () * sys * W) :=
  match o with
  | OpAdd vdr => r ← AddValidator now vdr y; Some (r, w)
  | OpUpdate vdr => r ← UpdateValidator now vdr y; Some (r, w)
  | OpDelete vID => r ← DeleteValidator now vID y; Some (r, w)
  | OpSetStatus vID a => r ← SetStatus now vID a y; Some (r, w)
  | OpConnect n => Some (with_core y (Pausable_Connect now n (sys_core y)), w)
  | OpDisconnect n => Some (with_core y (Pausable_Disconnect now n (sys_core y)), w)
  | OpStartTracking ns =>
      let '(r, m, s) := StartTracking now ns (mgr (sys_core y)) (vstate y) in
      Some (with_core y (r, mkCore (pausable (sys_core y)) m s), w)
  | OpStopTracking ns =>
      let '(r, m, s) := StopTracking now ns (mgr (sys_core y)) (vstate y) in
      Some (with_core y (r, mkCore (pausable (sys_core y)) m s), w)
  | OpWrite order =>
      match WriteState grow order (vstate y) w with
      | None => None
      | Some (r, s, w) => Some (r, with_state s y, w)
      end
  end.

(** Operations in sequence, each with its reading of the clock; the results are
    collected. *)
Fixpoint run (ops : list (Z * op)) (y : sys) (w : W) : option (list (result uerr ()) * sys * W) :=
  match ops with
  | [] => Some ([], y, w)
  | (now, o) :: rest =>
      match exec now o y w with
      | None => None
      | Some (r, y, w) =>
          match run rest y w with
          | None => None
          | Some (rs, y, w) => Some (r :: rs, y, w)
          end
      end
  end.

(** The manager changed its tracking and some uptimes. *)
Lemma tracking_inv c m s :
  core_inv c → connections m = connections (mgr c) → only_uptimes (store c) s →
  (∀ n, uptime_within n s) → core_inv (mkCore (pausable c) m s).
Proof.
  intros [Hc Hwf Hp (_ & _ & Hm) Ha] Hconn [Hs Hr] Hw. destruct (Hr Hwf) as [_ Haux].
  pose proof (state_wf_same _ _ Hs Hwf) as Hwf'. constructor; simpl; auto.
  - unfold conn_ok in *. simpl. by rewrite Hconn.
  - intros n. by rewrite Hp, (inactive_same _ _ n Hs).
  - split_and!; [done|done|]. intros n t. simpl. rewrite Hconn. apply Hm.
Qed.

Lemma updateUptimes_errors now ns m (s : state) e :
  (updateUptimes now ns m s).1 = Prelude.Err e → e = database_ErrNotFound.
Proof.
  assert (∀ n s e, (updateUptime now n m s).1 = Prelude.Err e → e = database_ErrNotFound) as H1.
  { clear. intros n s e. unfold updateUptime. destruct (CalculateUptime now n m s) as [[d t]|e'] eqn:E.
    - simpl. unfold state_SetUptime, getData. repeat case_match; simpl; naive_solver.
    - assert (e' = database_ErrNotFound) as ->; [|by intros [= <-]]. revert E. clear.
      unfold CalculateUptime. simpl. unfold state_GetUptime, getData.
      repeat case_match; naive_solver. }
  revert s. induction ns as [|n ns IH]; intros s; simpl; [done|].
  specialize (H1 n s). destruct (updateUptime now n m s) as [[[]|e1] s1]; [apply IH|].
  simpl. intros [= <-]. by apply H1.
Qed.

Lemma tracking_spec now ns m (s : state) x :
  x = StartTracking now ns m s ∨ x = StopTracking now ns m s →
  connections x.1.2 = connections m ∧ x.1.1 ≠ Prelude.Err errPausedDisconnect ∧
  (x.2 = s ∨ x.2 = (updateUptimes now ns m s).2).
Proof.
  pose proof (updateUptimes_errors now ns m s) as He. unfold StartTracking, StopTracking.
  destruct (updateUptimes now ns m s) as [[[]|e] s']; simpl in He;
    intros [-> | ->]; destruct (startedTracking m); simpl; split_and!; auto.
  all: intros [= ->]; by specialize (He _ eq_refl).
Qed.

Lemma tracking_exec now ns y (x : result uerr () * manager * state) :
  time_ok now → sys_inv y →
  x = StartTracking now ns (mgr (sys_core y)) (vstate y) ∨
  x = StopTracking now ns (mgr (sys_core y)) (vstate y) →
  let y' := mkSys (mkCore (pausable (sys_core y)) x.1.2 x.2) (listeners y) in
  sys_inv y' ∧ marked (vstate y) (vstate y') ∧ x.1.1 ≠ Prelude.Err errPausedDisconnect.
Proof.
  intros Hnow [Hl Hc] Hx. destruct (tracking_spec _ _ _ _ _ Hx) as (Hconn & He & Hs).
  pose proof (ci_within _ Hc) as (Hwf & Hw & Hm).
  assert (only_uptimes (vstate y) x.2 ∧ ∀ n, uptime_within n x.2) as [Hu Hw'].
  { destruct Hs as [-> | ->]; [done|]. split; [apply updateUptimes_R; [apply _|apply SetUptime_R]|].
    destruct (updateUptimes now ns (mgr (sys_core y)) (vstate y)) as [r s'] eqn:E.
    by destruct (updateUptimes_within _ _ _ _ _ _ Hnow Hm Hwf Hw E). }
  split_and!; [constructor; [done|by apply tracking_inv]| |done].
  by apply Hu, (ci_wf _ Hc).
Qed.

Lemma connect_exec now n y :
  time_ok now → sys_inv y →
  let x := with_core y (Pausable_Connect now n (sys_core y)) in
  x.1 = Ok () ∧ sys_inv x.2 ∧ vstate x.2 = vstate y.
Proof.
  intros Hnow [Hl [Hc Hwf Hp Hw Ha]].
  destruct (Pausable_Connect_spec now n _ Hc) as (Hr & Hc' & Hp' & Hs).
  destruct (within_pausable now n _ Hnow Hw) as [Hw' _]. simpl.
  split; [done|]. split; [|done]. constructor; [done|]. simpl.
  constructor; [done|by rewrite Hs| |done|by rewrite Hs]. intros x. by rewrite Hp', Hs.
Qed.

Lemma disconnect_exec now n y :
  time_ok now → sys_inv y →
  let x := with_core y (Pausable_Disconnect now n (sys_core y)) in
  x.1 ≠ Prelude.Err errPausedDisconnect ∧ sys_inv x.2 ∧ marked (vstate y) (vstate x.2).
Proof.
  intros Hnow [Hl [Hc Hwf Hp Hw Ha]].
  destruct (Pausable_Disconnect_spec only_uptimes SetUptime_R now n _ Hc) as (Heq & Hc' & Hp' & Hs).
  destruct (within_pausable now n _ Hnow Hw) as (_ & Hw' & _). simpl.
  pose proof Hs as [Hs1 Hs2]. destruct (Hs2 Hwf) as [Hm Ha']. split_and!; [|constructor; [done|]|done].
  - rewrite Heq. destruct (IsConnected _ _); [|done]. unfold Manager_Disconnect, Disconnect. simpl.
    pose proof (updateUptimes_errors now [n] (mgr (sys_core y)) (vstate y)) as He.
    simpl in He. unfold vstate in He. destruct (startedTracking _); simpl; [|done].
    destruct (updateUptime now n (mgr (sys_core y)) (store (sys_core y))) as [[[]|e] s]; [done|].
    simpl. intros [= ->]. by specialize (He _ eq_refl).
  - simpl. constructor; [done|by eapply state_wf_same| |done|auto].
    intros x. by rewrite Hp', Hp, (inactive_same _ _ x Hs1).
Qed.

(** The state after a successful or failed [WriteState]. *)
Lemma write_exec order y (w : W) :
  sys_inv y →
  ∃ s b, WriteState grow order (vstate y) w =
      Some (match (Batch_Write b w).1 with Ok _ => Ok () | Prelude.Err e => Prelude.Err (EDatabase e) end,
            s, (Batch_Write b w).2) ∧
    sys_inv (with_state s y) ∧ data s = data (vstate y) ∧ index s = index (vstate y) ∧
    (∀ k, updatedData s !! k = if decide (k ∈ order) then None else updatedData (vstate y) !! k) ∧
    ∀ disk k, apply_ops (Ops b) disk !! k =
      if decide (k ∈ order ∧ is_Some (updatedData (vstate y) !! k))
      then vdr_bytes <$> data (vstate y) !! k else disk !! k.
Proof.
  intros Hy. pose proof (si_core _ Hy) as Hc. pose proof (ci_aux _ Hc) as [Hal Ham].
  destruct (WriteState_loop_spec grow order (vstate y) NewBatch) as (s & b & Hs & Hd & Hi & Hu & Ha);
    [intros; by eapply core_inv_data_ok|done|].
  exists s, b. unfold WriteState. rewrite Hs. split; [by destruct (Batch_Write b w)|].
  split_and!; try done. apply with_state_inv; [done| | | |].
  - destruct (ci_wf _ Hc) as [H1 H2 H3 H4]. constructor; rewrite ?Hd, ?Hi; done.
  - rewrite Hd. by apply core_inv_within.
  - constructor; rewrite Hd; [done|]. intros k m. rewrite Hu. case_decide; [done|]. apply Ham.
  - intros x. unfold inactive. by rewrite Hd.
Qed.

Lemma exec_spec now o y (w : W) :
  time_ok now → op_ok o → sys_inv y →
  ∃ r y' w', exec now o y w = Some (r, y', w') ∧ sys_inv y' ∧
    r ≠ Prelude.Err errPausedDisconnect ∧
    (marked (vstate y) (vstate y') ∧ w' = w ∨ ∃ order, o = OpWrite order).
Proof.
  intros Hnow Ho Hy. destruct o as [vdr|vdr|vID|vID a|n|n|ns|ns|order]; simpl in *.
  - destruct (AddValidator_spec now vdr y Hnow Ho Hy) as (r & y' & -> & Hy' & Hm & Hr).
    do 3 eexists. split; [done|]. split; [done|]. split; [naive_solver|auto].
  - destruct (UpdateValidator_spec now vdr y Hnow Ho Hy) as (r & y' & -> & Hy' & Hm & Hr).
    do 3 eexists. split; [done|]. split; [done|]. split; [case_match; naive_solver|auto].
  - destruct (DeleteValidator_spec now vID y Hnow Hy) as (r & y' & -> & Hy' & Hm & _ & Hr).
    do 3 eexists. split; [done|]. split; [done|]. split; [case_match; naive_solver|auto].
  - destruct (SetStatus_spec now vID a y Hnow Hy) as (r & y' & -> & Hy' & Hm & Hr).
    do 3 eexists. split; [done|]. split; [done|]. split; [case_match; naive_solver|auto].
  - destruct (connect_exec now n y Hnow Hy) as (Hr & Hy' & Hs). do 3 eexists. split; [done|].
    split; [done|]. split; [simpl in *; by rewrite Hr|]. left. split; [|done].
    unfold vstate in *. simpl in *. by rewrite Hs.
  - destruct (disconnect_exec now n y Hnow Hy) as (Hr & Hy' & Hs). do 3 eexists. split; [done|]. auto.
  - destruct (tracking_exec now ns y _ Hnow Hy (or_introl eq_refl)) as (Hy' & Hm & Hr).
    destruct (StartTracking _ _ _ _) as [[r m] s]. do 3 eexists. split; [done|]. auto.
  - destruct (tracking_exec now ns y _ Hnow Hy (or_intror eq_refl)) as (Hy' & Hm & Hr).
    destruct (StopTracking _ _ _ _) as [[r m] s]. do 3 eexists. split; [done|]. auto.
  - destruct (write_exec order y w Hy) as (s & b & -> & Hy' & _). do 3 eexists. split; [done|].
    split; [done|]. split; [by destruct (Batch_Write b w).1|eauto].
Qed.

Definition ops_ok (ops : list (Z * op)) : Prop := Forall (λ x, time_ok x.1 ∧ op_ok x.2) ops.

Lemma vdr_run_spec ops y (w : W) :
  ops_ok ops → sys_inv y →
  ∃ rs y' w', run ops y w = Some (rs, y', w') ∧ sys_inv y' ∧ Prelude.Err errPausedDisconnect ∉ rs.
Proof.
  intros Hops. revert y w. induction Hops as [|[now o] ops [Hnow Ho] _ IH]; intros y w Hy; simpl.
  - do 3 eexists. split; [done|]. split; [done|]. apply not_elem_of_nil.
  - destruct (exec_spec now o y w Hnow Ho Hy) as (r & y1 & w1 & -> & Hy1 & Hr & _).
    destruct (IH y1 w1 Hy1) as (rs & y' & w' & -> & Hy' & Hrs). do 3 eexists. split; [done|].
    split; [done|]. apply not_elem_of_cons. auto.
Qed.
End system.

(** ** Loading the validator set *)

Lemma deleteValidators_spec now order newV y :
  time_ok now → sys_inv y →
  ∃ y', deleteValidators now order newV y = Some y' ∧ sys_inv y' ∧
    ∀ k, vdrs (vstate y') !! k =
      if decide (k ∈ order ∧ newV !! k = None) then None else vdrs (vstate y) !! k.
Proof.
  intros Hnow. revert y. induction order as [|vID order IH]; intros y Hy.
  { exists y. split; [done|]. split; [done|]. intros k. rewrite decide_False; [done|].
    intros [Hk _]. by apply elem_of_nil in Hk. }
  cbn [deleteValidators]. destruct (newV !! vID) as [o|] eqn:E.
  - destruct (IH y Hy) as (y' & -> & Hy' & Hk). exists y'. split; [done|]. split; [done|].
    intros k. rewrite Hk. destruct (decide (k = vID)) as [->|];
      [rewrite !decide_False by naive_solver; done|].
    apply decide_ext. rewrite elem_of_cons. naive_solver.
  - destruct (DeleteValidator_spec now vID y Hnow Hy) as (r & y1 & -> & Hy1 & _ & Hv & _).
    cbn [mbind option_bind snd]. destruct (IH y1 Hy1) as (y' & -> & Hy' & Hk).
    exists y'. split; [done|]. split; [done|]. intros k. rewrite Hk, Hv, lookup_delete.
    destruct (decide (vID = k)) as [<-|Hne].
    + rewrite (decide_True (P := vID ∈ vID :: order ∧ _)) by (split; [left|done]). by case_decide.
    + apply decide_ext. rewrite elem_of_cons. naive_solver.
Qed.

Section load.
Context (now : Z) (newV : gmap ID GetCurrentValidatorOutput) (cur : gset ID).
Context (Hnow : time_ok now).
Context (Hok : ∀ k o, newV !! k = Some o → vdr_ok (validator_of k o)).
Context (Hnodes : ∀ k1 k2 o1 o2, newV !! k1 = Some o1 → newV !! k2 = Some o2 →
                                 o_NodeID o1 = o_NodeID o2 → k1 = k2).

(** The validators there are keep the constants of the new set. *)
Definition compatible (m : gmap ID Validator) : Prop :=
  ∀ k v, m !! k = Some v → ∃ o, newV !! k = Some o ∧ same_constants v (validator_of k o).

Lemma compatible_insert m k o :
  compatible m → newV !! k = Some o → compatible (<[k := validator_of k o]> m).
Proof.
  intros Hm Ho x v [[<- <-]|[_ Hv]]%lookup_insert_Some; [|by apply Hm]. by exists o.
Qed.

(** One validator of the new set. *)
Lemma load_one k o y :
  sys_inv y → compatible (vdrs (vstate y)) → newV !! k = Some o →
  (k ∈ cur ↔ is_Some (vdrs (vstate y) !! k)) →
  ∃ y', (if bool_decide (k ∈ cur) then UpdateValidator now (validator_of k o) y
         else AddValidator now (validator_of k o) y) = Some (Ok (), y') ∧ sys_inv y' ∧
    vdrs (vstate y') = <[k := validator_of k o]> (vdrs (vstate y)).
Proof.
  intros Hy Hc Ho Hcur. pose proof (Hok _ _ Ho) as Hv. case_bool_decide as Hin.
  - apply Hcur in Hin as [v Hk]. destruct (Hc k v Hk) as (o' & Ho' & Hs).
    assert (o' = o) as -> by congruence.
    destruct (UpdateValidator_spec now (validator_of k o) y Hnow Hv Hy) as (r & y' & -> & Hy' & _ & Hr).
    simpl in Hr. rewrite Hk in Hr. destruct Hr as [(_ & -> & Hr)|(? & _)]; [|done]. eauto.
  - destruct (AddValidator_spec now (validator_of k o) y Hnow Hv Hy) as (r & y' & -> & Hy' & _ & Hr).
    simpl in Hr. destruct Hr as [([Hs|Hu] & _)|(_ & _ & -> & Hr)]; [by apply Hcur in Hs| |eauto].
    destruct Hu as (k' & v & Hk' & Hn). destruct (Hc k' v Hk') as (o' & Ho' & (_ & Hn' & _)).
    simpl in Hn'. assert (k' = k) as -> by (eapply Hnodes; [done|done|congruence]).
    destruct Hin. apply Hcur. eauto.
Qed.

Lemma addValidators_spec order y :
  sys_inv y → compatible (vdrs (vstate y)) → NoDup order →
  (∀ k, k ∈ order → is_Some (newV !! k)) →
  (∀ k, k ∈ order → k ∈ cur ↔ is_Some (vdrs (vstate y) !! k)) →
  ∃ y', addValidators now order cur newV y = Some (Ok (), y') ∧ sys_inv y' ∧
    ∀ k, vdrs (vstate y') !! k =
      if decide (k ∈ order) then validator_of k <$> newV !! k else vdrs (vstate y) !! k.
Proof.
  revert y. induction order as [|x order IH]; intros y Hy Hc Hnd Hin Hcur.
  { exists y. split; [done|]. split; [done|]. intros k.
    by rewrite decide_False by apply not_elem_of_nil. }
  apply NoDup_cons in Hnd as [Hx Hnd]. cbn [addValidators].
  destruct (Hin x) as [o Ho]; [left|]. rewrite Ho.
  destruct (load_one x o y Hy Hc Ho) as (y1 & -> & Hy1 & Hv1); [apply Hcur; left|].
  cbn [mbind option_bind]. destruct (IH y1) as (y' & -> & Hy' & Hk); try done.
  - rewrite Hv1. by apply compatible_insert.
  - intros k Hk. apply Hin. by right.
  - intros k Hk. rewrite Hv1, lookup_insert_ne by (intros ->; done). apply Hcur. by right.
  - exists y'. split; [done|]. split; [done|]. intros k. rewrite Hk, Hv1, lookup_insert.
    destruct (decide (x = k)) as [<-|Hne].
    + rewrite decide_False by done. rewrite decide_True by left. by rewrite Ho.
    + apply decide_ext. rewrite elem_of_cons. naive_solver.
Qed.
End load.
