(* ===== verification/ValidatorsTheorems.v ===== *)
(** * Validators: the properties

    The properties of src/utils/evm/validators and src/utils/avalanche/uptime, on
    the model of Uptime.v and Validators.v, with their witnesses. *)

From S2P Require Import Prelude Packer Bimap Codec CodecValues Database Uptime Validators ValidatorsProps.

(** The manager [NewManager] makes for an empty database. *)
Definition fresh : sys :=
  mkSys (mkCore NewPausableManager NewManager (mkState ∅ ∅ ∅)) [ListenerPausableManager].

Lemma NewManager_fresh now : validators_NewManager now [] [] = Some (Ok fresh).
Proof. done. Qed.

Lemma fresh_inv : sys_inv fresh.
Proof.
  assert (state_wf (mkState ∅ ∅ ∅)) as Hwf.
  { constructor; simpl; intros *; rewrite lookup_empty; done. }
  constructor; [done|]. constructor; simpl.
  - unfold conn_ok. simpl. rewrite dom_empty_L. set_solver.
  - done.
  - intros n. split; [set_solver|]. intros (vID & d & Hd & _). simpl in Hd. by rewrite lookup_empty in Hd.
  - split_and!; [done| |intros n t; simpl; by rewrite lookup_empty].
    apply within_iff; [done|]. simpl. apply map_Forall_empty.
  - constructor; simpl; [apply map_Forall_empty|]. intros *. by rewrite lookup_empty.
Qed.

Section reachable.
Context (grow : nat → nat) {W : Type} `{!DatabaseClient W}.

Lemma run_inv ops (w : W) rs y w' :
  ops_ok ops → run grow ops fresh w = Some (rs, y, w') → sys_inv y.
Proof.
  intros Hops Hrun. destruct (vdr_run_spec grow ops fresh w Hops fresh_inv) as (? & ? & ? & Hr & Hy & _).
  congruence.
Qed.

(** What is on disk agrees with the memory but for marked validators. *)
Definition persisted (disk : gmap (list Z) (list Z)) (s : state) : Prop :=
  ∀ vID, updatedData s !! vID = None → disk !! vID = vdr_bytes <$> data s !! vID.

Context (disk : W → gmap (list Z) (list Z)).
(** A database that accepts every batch and applies it. *)
Definition working_database : Prop :=
  ∀ req w, ∃ w', client_WriteBatch req w = (Ok ERROR_UNSPECIFIED, w') ∧
                 disk w' = apply_request req (disk w).

Lemma Batch_Write_works b w :
  working_database → ∃ w', Batch_Write b w = (Ok (), w') ∧ disk w' = apply_ops (Ops b) (disk w).
Proof.
  intros Hdb. destruct (Hdb (batch_request b) w) as (w' & Hw & Hd). exists w'.
  unfold Batch_Write. rewrite Hw. split; [done|]. rewrite Hd. apply map_eq. intros k.
  rewrite apply_ops_lookup. apply batch_request_lookup.
Qed.

Lemma write_persisted order y w :
  working_database → sys_inv y → persisted (disk w) (vstate y) →
  ∃ s w', WriteState grow order (vstate y) w = Some (Ok (), s, w') ∧
    sys_inv (with_state s y) ∧ data s = data (vstate y) ∧
    (∀ k, updatedData s !! k = if decide (k ∈ order) then None else updatedData (vstate y) !! k) ∧
    persisted (disk w') s.
Proof.
  intros Hdb Hy Hp. destruct (write_exec grow order y w Hy) as (s & b & Hws & Hy' & Hd & _ & Hu & Ha).
  destruct (Batch_Write_works b w Hdb) as (w' & Hw & Hdisk). rewrite Hw in Hws. simpl in Hws.
  exists s, w'. split_and!; try done. intros vID. rewrite Hu, Hdisk, Ha, Hd.
  destruct (decide (vID ∈ order)) as [Hin|Hin].
  - intros _. case_decide as H; [done|]. apply Hp. apply eq_None_not_Some. intros Hs. by destruct H.
  - intros Hn. rewrite decide_False by (by intros []). by apply Hp.
Qed.

Lemma run_persisted ops y w rs y' w' :
  working_database → ops_ok ops → sys_inv y → persisted (disk w) (vstate y) →
  run grow ops y w = Some (rs, y', w') → persisted (disk w') (vstate y').
Proof.
  intros Hdb Hops. revert y w rs. induction Hops as [|[now o] ops [Hnow Ho] _ IH]; intros y w rs Hy Hp;
    cbn [run]; [by intros [= <- <- <-]|].
  destruct (exec_spec grow now o y w Hnow Ho Hy) as (r & y1 & w1 & He & Hy1 & _ & Hm). rewrite He.
  assert (persisted (disk w1) (vstate y1)) as Hp1.
  { destruct Hm as [[Hm ->]|[order ->]].
    - intros vID Hn. destruct (Hm vID Hn) as [Hn' ->]. by apply Hp.
    - destruct (write_persisted order y w Hdb Hy Hp) as (s & w2 & Hws & _ & _ & _ & Hp').
      cbn [exec] in He. rewrite Hws in He. by injection He as <- <- <-. }
  destruct (run grow ops y1 w1) as [[[rs1 y2] w2]|] eqn:Er; [|done]. intros [= <- <- <-].
  by eapply IH.
Qed.
End reachable.

(** ** Loading from disk *)

Definition index_ok (s : state) : Prop :=
  ∀ n k, index s !! n = Some k ↔ ∃ d, data s !! k = Some d ∧ vd_NodeID d = n.

Lemma index_ok_wf s : state_wf s → index_ok s.
Proof.
  intros Hwf n k. split; [apply (wf_data _ Hwf)|]. intros (d & Hd & <-). by apply (wf_index _ Hwf).
Qed.

Lemma index_ok_eq s s' : index_ok s → index_ok s' → data s = data s' → index s = index s'.
Proof.
  intros H H' Heq. apply map_eq. intros n. apply option_eq. intros k. by rewrite (H n k), (H' n k), Heq.
Qed.

Lemma loadFromDisk_spec s0 (l : list (ID * validatorData)) s :
  state_wf s0 → (∀ k d, data s0 !! k = Some d → data_ok d) →
  NoDup l.*1 → (∀ k d, (k, d) ∈ l → data s0 !! k = Some d ∧ data s !! k = None) →
  data s ⊆ data s0 → index_ok s →
  ∃ s', loadFromDisk (prod_map id vdr_bytes <$> l) s = Some (Ok s') ∧
    data s' = list_to_map l ∪ data s ∧ index_ok s' ∧ updatedData s' = updatedData s.
Proof.
  intros Hwf Hok. revert s. induction l as [|[k d] l IH]; intros s Hnd Hl Hsub Hidx.
  { exists s. split; [done|]. split; [by rewrite list_to_map_nil, map_empty_union|done]. }
  destruct (Hl k d) as [Hk0 Hk]; [left|]. rewrite fmap_cons. cbn [prod_map id loadFromDisk fst snd].
  pose proof (Hok _ _ Hk0) as Hd. pose proof (do_vdr _ Hd) as [[_ Hlen] _ _ _].
  cbn [vdr_of v_ValidationID] in Hlen. pose proof (wf_key _ Hwf _ _ Hk0) as Hkey.
  rewrite bool_decide_eq_false_2 by (rewrite <-Hkey, Hlen; auto).
  rewrite <-Hkey, (parse_vdr_bytes d Hd), Hkey.
  assert (index s !! vd_NodeID d = None) as Hi.
  { apply eq_None_not_Some. intros [k' Hk']. apply Hidx in Hk' as (d' & Hd' & Hn).
    pose proof (lookup_weaken _ _ _ _ Hd' Hsub) as Hd0.
    pose proof (wf_index _ Hwf _ _ Hd0) as H1. pose proof (wf_index _ Hwf _ _ Hk0) as H2.
    rewrite Hn in H1. congruence. }
  unfold addData. rewrite Hk, Hi. rewrite !bool_decide_eq_false_2 by (by intros []).
  cbn [fst] in Hnd. apply NoDup_cons in Hnd as [Hnk Hnd].
  destruct (IH (mkState (<[k := d]> (data s)) (<[vd_NodeID d := k]> (index s)) (updatedData s)))
    as (s' & Hload & Hds & Hidx' & Hu); [done| | | |].
  - intros k' d' Hin. destruct (Hl k' d') as [H1 H2]; [by right|]. split; [done|]. cbn [data].
    rewrite lookup_insert_ne; [done|]. intros <-. apply Hnk. apply list_elem_of_fmap.
    by exists (k, d').
  - cbn [data]. by apply insert_subseteq_l.
  - intros n k'. cbn [index data]. rewrite lookup_insert_Some. split.
    + intros [[<- <-]|[Hne Hn]]; [exists d; by rewrite lookup_insert_eq|].
      apply Hidx in Hn as (d' & Hd' & <-). exists d'. split; [|done].
      rewrite lookup_insert_ne; [done|congruence].
    + intros (d' & [[<- <-]|[Hne Hd']]%lookup_insert_Some & <-); [by left|].
      right. assert (index s !! vd_NodeID d' = Some k') as Hn by (apply Hidx; eauto).
      split; [congruence|done].
  - exists s'. split; [exact Hload|]. split; [|done]. rewrite Hds. cbn [data list_to_map foldr fst snd].
    rewrite <-insert_union_l, insert_union_r; [done|]. by apply not_elem_of_list_to_map_1.
Qed.

(** ** The properties *)

(** C33: the uptime managers and the validator state agree.  After any sequence of
    adding, updating, deleting and (de)activating validators, connecting and
    disconnecting nodes, starting and stopping the tracking and writing the state,
    with any clock, answers of the database and orders of map iteration: nothing
    has panicked (the pausable manager has no logger, so an error in a callback
    would); no call returned [errPausedDisconnect], the case the code says it should
    never see; the paused nodes are the inactive validators; the inner manager
    counts as connected exactly the connected nodes that are not paused; and [index]
    is the inverse of the node IDs in [data]. *)
Theorem validators_invariant (grow : nat → nat) {W : Type} `{!DatabaseClient W}
    (ops : list (Z * op)) (w : W) (Hops : ops_ok ops) :
  ∃ rs y w', run grow ops fresh w = Some (rs, y, w') ∧
    Prelude.Err errPausedDisconnect ∉ rs ∧
    (∀ n, IsPaused n (pausable (sys_core y)) = true ↔ inactive (vstate y) n) ∧
    (∀ n, IsConnected n (mgr (sys_core y)) =
          Pausable_IsConnected n (pausable (sys_core y)) && negb (IsPaused n (pausable (sys_core y)))) ∧
    state_wf (vstate y).
Proof.
  destruct (vdr_run_spec grow ops fresh w Hops fresh_inv) as (rs & y & w' & Hr & Hy & He).
  exists rs, y, w'. destruct Hy as [_ [Hc Hwf Hp _ _]]. split_and!; try done.
  - intros n. rewrite <-Hp. apply bool_decide_eq_true.
  - intros n. rewrite IsConnected_spec, Hc. unfold Pausable_IsConnected, IsPaused.
    rewrite <-bool_decide_not, <-bool_decide_and. apply bool_decide_ext. apply elem_of_difference.
Qed.

(** C34: uptimes are bounded by time.  In every state reached as above, at any time
    (from 1970 to 2242), the uptime calculated for a validator is at least the one
    stored, grows by no more than the time since its last update (no time is
    counted twice, also if the clock was set back), and is at most the time since
    the validator started; so the uptime fraction is between 0 and 1. *)
Theorem uptime_bounded (grow : nat → nat) {W : Type} `{!DatabaseClient W}
    (ops : list (Z * op)) (w w' : W) (rs : list (result uerr ())) (y : sys)
    (now : Z) (vID : ID) (d : validatorData)
    (Hops : ops_ok ops) (Hrun : run grow ops fresh w = Some (rs, y, w'))
    (Hnow : time_ok now) (Hd : data (vstate y) !! vID = Some d) :
  ∃ up last a b,
    CalculateUptime now (vd_NodeID d) (mgr (sys_core y)) (vstate y) = Ok (up, last) ∧
    last = Z.max now (getLastUpdated d) ∧
    (0 ≤ UpDuration d ≤ up)%Z ∧ (up ≤ (last - getStartTime d) * Second)%Z ∧
    (up - UpDuration d ≤ (last - getLastUpdated d) * Second)%Z ∧
    CalculateUptimePercent now (vd_NodeID d) (mgr (sys_core y)) (vstate y) = Ok (a, b) ∧
    (0 ≤ a ≤ b)%Z ∧ (0 < b)%Z.
Proof.
  pose proof (si_core _ (run_inv grow _ _ _ _ _ Hops Hrun)) as Hc.
  pose proof (ci_wf _ Hc : state_wf (vstate y)) as Hwf.
  pose proof (core_inv_within _ Hc _ _ Hd) as (Hst & Hla & Hsl & Hup).
  pose proof (ci_within _ Hc) as (_ & Hw & Hm).
  assert (GetUptime (vd_NodeID d) (vstate y) = Ok (UpDuration d, getLastUpdated d)) as Hu.
  { simpl. unfold state_GetUptime. by rewrite (getData_of _ _ _ Hwf Hd). }
  assert (GetStartTime (vd_NodeID d) (vstate y) = Ok (getStartTime d)) as Hs.
  { simpl. unfold state_GetStartTime. by rewrite (getData_of _ _ _ Hwf Hd). }
  destruct (CalculateUptime_ok now (vd_NodeID d) (mgr (sys_core y)) (vstate y) _ _ Hu)
    as (up & last & Hcalc & _).
  destruct (calculate_bounds now _ _ _ _ _ _ _ _ Hnow Hm (Hw _) Hu Hs Hcalc)
    as (Hlt & Hlast & Hge & Hb & Hdiff).
  unfold CalculateUptimePercent, CalculateUptimePercentFrom. rewrite Hs, Hcalc, Sub_small by done.
  case_bool_decide as H0.
  - exists up, last, 1%Z, 1%Z. split_and!; try done; lia.
  - exists up, last, up, ((last - getStartTime d) * Second)%Z. split_and!; try done; lia.
Qed.

(** What is written is read back.  With a database that accepts every batch, in
    every state reached as above a [WriteState] that visits all the marked
    validators succeeds and leaves on disk exactly the encodings of the validators
    in memory; and [NewState] on the entries of that disk, in any order, restores
    the validators with their uptimes, and the index, with nothing marked. *)
Theorem write_then_load (grow : nat → nat) {W : Type} `{!DatabaseClient W}
    (disk : W → gmap (list Z) (list Z)) (ops : list (Z * op)) (w w1 : W)
    (rs : list (result uerr ())) (y : sys) (order : list ID)
    (Hdb : working_database disk) (Hempty : disk w = ∅) (Hops : ops_ok ops)
    (Hrun : run grow ops fresh w = Some (rs, y, w1))
    (Horder : ∀ k, is_Some (updatedData (vstate y) !! k) → k ∈ order) :
  ∃ s w2, WriteState grow order (vstate y) w1 = Some (Ok (), s, w2) ∧
    disk w2 = vdr_bytes <$> data (vstate y) ∧
    ∀ entries, entries ≡ₚ map_to_list (disk w2) →
      ∃ s', NewState entries = Some (Ok s') ∧ data s' = data (vstate y) ∧
            index s' = index (vstate y) ∧ updatedData s' = ∅.
Proof.
  pose proof (run_inv grow _ _ _ _ _ Hops Hrun) as Hy.
  assert (persisted (disk w1) (vstate y)) as Hp.
  { eapply (run_persisted grow disk ops fresh w); try done; [apply fresh_inv|].
    intros vID _. rewrite Hempty. simpl. by rewrite !lookup_empty. }
  destruct (write_persisted grow disk order y w1 Hdb Hy Hp) as (s & w2 & Hws & _ & Hd & Hu & Hp2).
  assert (disk w2 = vdr_bytes <$> data (vstate y)) as Hdisk.
  { apply map_eq. intros k. rewrite lookup_fmap, <-Hd. apply Hp2. rewrite Hu.
    case_decide as Hk; [done|]. apply eq_None_not_Some. intros Hs. by apply Hk, Horder. }
  exists s, w2. split; [done|]. split; [done|]. intros entries. rewrite Hdisk, map_to_list_fmap.
  intros Hperm. apply Permutation_map_inv in Hperm as (l & -> & Hl).
  pose proof (si_core _ Hy) as Hc. pose proof (ci_wf _ Hc : state_wf (vstate y)) as Hwf.
  destruct (loadFromDisk_spec (vstate y) l (mkState ∅ ∅ ∅)) as (s' & Hload & Hds & Hidx & Hud); simpl.
  - done.
  - intros. by eapply core_inv_data_ok.
  - rewrite <-Hl. apply NoDup_fst_map_to_list.
  - intros k d Hin. rewrite <-Hl in Hin. by apply elem_of_map_to_list in Hin.
  - apply map_empty_subseteq.
  - intros n k. simpl. rewrite !lookup_empty. naive_solver.
  - exists s'. simpl in Hds. rewrite map_union_empty in Hds.
    assert (data s' = data (vstate y)) as Heq.
    { rewrite Hds, <-(list_to_map_to_list (data (vstate y))). symmetry.
      apply list_to_map_proper; [apply NoDup_fst_map_to_list|done]. }
    split; [exact Hload|]. split; [done|]. split; [|done].
    apply index_ok_eq; [done|by apply index_ok_wf|done].
Qed.

Lemma WriteState_loop_unmarked grow order s b :
  updatedData s = ∅ → WriteState_loop grow order s b = Some (Ok (), s, b).
Proof.
  intros Hs. induction order as [|k order IH]; [done|]. cbn [WriteState_loop].
  by rewrite Hs, lookup_empty.
Qed.

(** A failed write forgets the changes.  If the database does not accept the
    batch, [WriteState] returns the error, but the marks are gone: the memory is as
    before, nothing is marked, and the next [WriteState] sends an empty batch, so
    the changes never reach the disk (unless a validator changes again). *)
Theorem failed_write_forgets (grow : nat → nat) {W : Type} `{!DatabaseClient W}
    (ops : list (Z * op)) (w w1 : W) (rs : list (result uerr ())) (y : sys) (order : list ID)
    (Hops : ops_ok ops) (Hrun : run grow ops fresh w = Some (rs, y, w1))
    (Horder : ∀ k, is_Some (updatedData (vstate y) !! k) → k ∈ order)
    (Hfail : ∀ req, ∃ e w2, client_WriteBatch req w1 = (Prelude.Err e, w2)) :
  ∃ e s w2, WriteState grow order (vstate y) w1 = Some (Prelude.Err (EDatabase e), s, w2) ∧
    data s = data (vstate y) ∧ updatedData s = ∅ ∧
    ∀ order' w3, ∃ r, WriteState grow order' s w3 =
      Some (r, s, (client_WriteBatch (mkWriteBatchRequest [] []) w3).2).
Proof.
  pose proof (run_inv grow _ _ _ _ _ Hops Hrun) as Hy.
  destruct (write_exec grow order y w1 Hy) as (s & b & Hws & _ & Hd & _ & Hu & _).
  assert (updatedData s = ∅) as Hempty.
  { apply map_eq. intros k. rewrite Hu, lookup_empty. case_decide as Hk; [done|].
    apply eq_None_not_Some. intros Hs. by apply Hk, Horder. }
  destruct (Hfail (batch_request b)) as (e & w2 & Hf). unfold Batch_Write in Hws.
  rewrite Hf in Hws. simpl in Hws. exists (ERpc e), s, w2. split_and!; try done.
  intros order' w3. unfold WriteState. rewrite WriteState_loop_unmarked by done.
  unfold Batch_Write. simpl. change (batch_request NewBatch) with (mkWriteBatchRequest [] []).
  destruct (client_WriteBatch _ w3) as [r w4]. by eexists.
Qed.

(** Loading the current validator set makes the state that set.  From every
    state reached as above, for a set of validators with distinct nodes in which the
    validators already known keep their constant fields, [loadValidators] succeeds,
    in whatever order Go visits the maps, and the validators in the state
    are then exactly those of the set: others are deleted, new ones are added (also
    on a node whose old validation ended), changed weights and statuses updated. *)
Theorem load_validators_sync (grow : nat → nat) {W : Type} `{!DatabaseClient W}
    (ops : list (Z * op)) (w w1 : W) (rs : list (result uerr ())) (y : sys)
    (now : Z) (newV : gmap ID GetCurrentValidatorOutput) (delOrder newOrder : list ID)
    (Hops : ops_ok ops) (Hrun : run grow ops fresh w = Some (rs, y, w1)) (Hnow : time_ok now)
    (Hok : ∀ k o, newV !! k = Some o → vdr_ok (validator_of k o))
    (Hnodes : ∀ k1 k2 o1 o2, newV !! k1 = Some o1 → newV !! k2 = Some o2 →
                             o_NodeID o1 = o_NodeID o2 → k1 = k2)
    (Hconst : ∀ k o v, newV !! k = Some o → vdrs (vstate y) !! k = Some v →
                       same_constants v (validator_of k o))
    (Hdel : delOrder ≡ₚ elements (GetValidationIDs (vstate y)))
    (Hnew : newOrder ≡ₚ (map_to_list newV).*1) :
  ∃ y', loadValidators now delOrder newOrder newV y = Some (Ok (), y') ∧
    ∀ k, vdrs (vstate y') !! k = validator_of k <$> newV !! k.
Proof.
  pose proof (run_inv grow _ _ _ _ _ Hops Hrun) as Hy. unfold loadValidators.
  destruct (deleteValidators_spec now delOrder newV y Hnow Hy) as (y1 & -> & Hy1 & Hv1).
  assert (∀ k, k ∈ delOrder ↔ is_Some (vdrs (vstate y) !! k)) as Hcur.
  { intros k. rewrite Hdel, elem_of_elements. unfold GetValidationIDs.
    by rewrite elem_of_dom, vdrs_lookup, fmap_is_Some. }
  assert (∀ k, k ∈ newOrder ↔ is_Some (newV !! k)) as Hin.
  { intros k. rewrite Hnew, list_elem_of_fmap. split.
    - intros ([k' o] & -> & Ho%elem_of_map_to_list). by exists o.
    - intros [o Ho]. exists (k, o). split; [done|]. by apply elem_of_map_to_list. }
  destruct (addValidators_spec now newV (GetValidationIDs (vstate y)) Hnow Hok Hnodes newOrder y1 Hy1)
    as (y' & Hadd & _ & Hv').
  - intros k v. rewrite Hv1. case_decide as Hk; [done|]. intros Hv.
    destruct (newV !! k) as [o|] eqn:Ho; [eauto|]. destruct Hk. split; [apply Hcur; eauto|done].
  - rewrite Hnew. apply NoDup_fst_map_to_list.
  - intros k. apply Hin.
  - intros k Hk. apply Hin in Hk as [o Ho]. rewrite Hv1, decide_False by naive_solver.
    unfold GetValidationIDs. by rewrite elem_of_dom, vdrs_lookup, fmap_is_Some.
  - exists y'. split; [exact Hadd|]. intros k. rewrite Hv', Hv1.
    destruct (decide (k ∈ newOrder)) as [|Hk]; [done|]. rewrite Hin in Hk.
    apply eq_None_not_Some in Hk. rewrite Hk. simpl. case_decide as H; [done|].
    apply eq_None_not_Some. intros Hs. apply H. by split; [apply Hcur|].
Qed.

(** Uptimes of nodes that are not validators are errors.  [updateUptime] means to
    skip them, but compares with the [ErrNotFound] of another package than the state
    returns: so disconnecting a connected node that is not a validator returns an
    error while tracking, and [StartTracking] with such a node in its list
    fails and leaves the tracking off. *)
Theorem nonvalidator_uptime_errors (now : Z) (n : NodeID) (ns : list NodeID) (m : manager) (s : state)
    (Hn : index s !! n = None) :
  updateUptime now n m s = (Prelude.Err database_ErrNotFound, s) ∧
  Disconnect now n (mkManager (connections m) true) s =
    (Prelude.Err database_ErrNotFound, mkManager (delete n (connections m)) true, s) ∧
  StartTracking now (n :: ns) (mkManager (connections m) false) s =
    (Prelude.Err database_ErrNotFound, mkManager (connections m) false, s).
Proof.
  assert (∀ m, updateUptime now n m s = (Prelude.Err database_ErrNotFound, s)) as H.
  { intros m'. unfold updateUptime, CalculateUptime. simpl. unfold state_GetUptime, getData.
    by rewrite Hn. }
  split_and!; [apply H| |].
  - unfold Disconnect. simpl. by rewrite H.
  - unfold StartTracking. cbn [startedTracking updateUptimes]. by rewrite H.
Qed.

(** ** Witnesses

    Two validators, one of them inactive, connected for a while; the database is a
    map. *)

Definition map_db : DatabaseClient (gmap (list Z) (list Z)) := {|
  client_Close w := (Ok ERROR_UNSPECIFIED, w);
  client_Has k w := (Ok (bool_decide (is_Some (w !! k)), ERROR_UNSPECIFIED), w);
  client_Get k w := (Ok (default [] (w !! k), ERROR_UNSPECIFIED), w);
  client_Put k v w := (Ok ERROR_UNSPECIFIED, <[k := v]> w);
  client_Delete k w := (Ok ERROR_UNSPECIFIED, delete k w);
  client_WriteBatch req w := (Ok ERROR_UNSPECIFIED, apply_request req w);
|}.

(** A database that is down. *)
Definition down_db : DatabaseClient (gmap (list Z) (list Z)) := {|
  client_Close w := (Prelude.Err "down"%string, w);
  client_Has k w := (Prelude.Err "down"%string, w);
  client_Get k w := (Prelude.Err "down"%string, w);
  client_Put k v w := (Prelude.Err "down"%string, w);
  client_Delete k w := (Prelude.Err "down"%string, w);
  client_WriteBatch req w := (Prelude.Err "down"%string, w);
|}.

Definition id1 : ID := replicate 32 1%Z.
Definition id2 : ID := replicate 32 2%Z.
Definition node1 : NodeID := replicate 20 1%Z.
Definition node2 : NodeID := replicate 20 2%Z.
Definition node3 : NodeID := replicate 20 3%Z.
Definition vdr1 : Validator := mkValidator id1 node1 10 900 true true.
Definition vdr2 : Validator := mkValidator id2 node2 20 950 false true.
Definition at_ (z : Z) : Z := (unixToInternal + z)%Z.

Definition demo_ops : list (Z * op) :=
  [(at_ 1000, OpAdd vdr1); (at_ 1000, OpAdd vdr2); (at_ 1000, OpStartTracking [node1; node2]);
   (at_ 1010, OpConnect node1); (at_ 1020, OpConnect node2); (at_ 1050, OpSetStatus id1 false)].

Lemma vdr1_ok : vdr_ok vdr1.
Proof.
  constructor; simpl; [split; [repeat constructor; done|done]..| |]; unfold inU; lia.
Qed.
Lemma vdr2_ok : vdr_ok vdr2.
Proof.
  constructor; simpl; [split; [repeat constructor; done|done]..| |]; unfold inU; lia.
Qed.

Lemma demo_ops_ok : ops_ok demo_ops.
Proof.
  unfold demo_ops, ops_ok. repeat (apply Forall_cons; split); [..|constructor];
    split; simpl; try done; try apply vdr1_ok; try apply vdr2_ok; unfold time_ok, at_; lia.
Qed.

Definition demo_run (db : DatabaseClient (gmap (list Z) (list Z))) :
    list (result uerr ()) * sys * gmap (list Z) (list Z) :=
  default ([], fresh, ∅) (run (DatabaseClient0:=db) (λ n, n) demo_ops fresh ∅).
Definition demo_sys : sys := (demo_run map_db).1.2.

Lemma demo_run_eq db :
  run (DatabaseClient0:=db) (λ n, n) demo_ops fresh ∅ =
    Some ((demo_run db).1.1, (demo_run db).1.2, (demo_run db).2).
Proof. vm_compute. reflexivity. Qed.

Lemma demo_run_sys db : (demo_run db).1.2 = demo_sys.
Proof. vm_compute. reflexivity. Qed.

Lemma validators_invariant_witness :
  ∃ rs y w', run (DatabaseClient0:=map_db) (λ n, n) demo_ops fresh ∅ = Some (rs, y, w') ∧
    Prelude.Err errPausedDisconnect ∉ rs.
Proof.
  destruct (validators_invariant (DatabaseClient0:=map_db) (λ n, n) demo_ops ∅ demo_ops_ok)
    as (rs & y & w' & Hr & He & _). exists rs, y, w'. split; [exact Hr|exact He].
Defined.

Definition demo_vdr1 : validatorData := default (zero_vdr []) (data (vstate demo_sys) !! id1).

Lemma demo_vdr1_eq : data (vstate demo_sys) !! id1 = Some demo_vdr1.
Proof. vm_compute. reflexivity. Qed.

Lemma uptime_bounded_witness :
  UpDuration demo_vdr1 = (140 * Second)%Z ∧
  ∃ up last, CalculateUptime (at_ 1060) (vd_NodeID demo_vdr1) (mgr (sys_core demo_sys))
               (vstate demo_sys) = Ok (up, last) ∧ (up ≤ (last - getStartTime demo_vdr1) * Second)%Z.
Proof.
  split; [vm_compute; reflexivity|].
  assert (time_ok (at_ 1060)) as Hnow by (unfold time_ok, at_; lia).
  destruct (uptime_bounded (DatabaseClient0:=map_db) (λ n, n) demo_ops ∅ (demo_run map_db).2
    (demo_run map_db).1.1 demo_sys (at_ 1060) id1 demo_vdr1 demo_ops_ok (demo_run_eq map_db) Hnow
    demo_vdr1_eq) as (up & last & a & b & Hc & _ & _ & Hb & _).
  exists up, last. split; [exact Hc|exact Hb].
Defined.

Lemma demo_marks k : is_Some (updatedData (vstate demo_sys) !! k) → k ∈ [id1; id2].
Proof.
  assert (dom (updatedData (vstate demo_sys)) = {[id1; id2]}) as Hd by (vm_compute; reflexivity).
  rewrite <-elem_of_dom, Hd. set_solver.
Qed.

Lemma map_db_works : working_database (DatabaseClient0:=map_db) (λ w, w).
Proof. intros req w. exists (apply_request req w). split; reflexivity. Qed.

Lemma write_then_load_witness :
  ∃ s w2, WriteState (DatabaseClient0:=map_db) (λ n, n) [id1; id2] (vstate demo_sys)
            (demo_run map_db).2 = Some (Ok (), s, w2) ∧
    w2 = vdr_bytes <$> data (vstate demo_sys).
Proof.
  destruct (write_then_load (DatabaseClient0:=map_db) (λ n, n) (λ w, w) demo_ops ∅ (demo_run map_db).2
    (demo_run map_db).1.1 demo_sys [id1; id2] map_db_works eq_refl demo_ops_ok (demo_run_eq map_db)
    demo_marks) as (s & w2 & Hw & Hd & _).
  exists s, w2. split; [exact Hw|exact Hd].
Defined.

Lemma failed_write_forgets_witness :
  ∃ e s w2, WriteState (DatabaseClient0:=down_db) (λ n, n) [id1; id2] (vstate demo_sys)
              (demo_run down_db).2 = Some (Prelude.Err (EDatabase e), s, w2) ∧
    updatedData s = ∅.
Proof.
  assert (∀ req, ∃ e w2, client_WriteBatch (DatabaseClient:=down_db) req (demo_run down_db).2
    = (Prelude.Err e, w2)) as Hf by (intros req; do 2 eexists; reflexivity).
  pose proof (demo_run_eq down_db) as Hrun. rewrite (demo_run_sys down_db) in Hrun.
  destruct (failed_write_forgets (DatabaseClient0:=down_db) (λ n, n) demo_ops ∅ (demo_run down_db).2
    (demo_run down_db).1.1 demo_sys [id1; id2] demo_ops_ok Hrun demo_marks Hf)
    as (e & s & w2 & Hw & _ & Hu & _).
  exists e, s, w2. split; [exact Hw|exact Hu].
Defined.

(** The first validator is gone, its node validates under a new ID, and the second one
    is active now. *)
Definition id3 : ID := replicate 32 3%Z.
Definition out2 : GetCurrentValidatorOutput := mkOutput node2 20 950 true true.
Definition out3 : GetCurrentValidatorOutput := mkOutput node1 5 1055 true true.
Definition demo_set : gmap ID GetCurrentValidatorOutput := {[id2 := out2; id3 := out3]}.

Lemma demo_set_lookup k o : demo_set !! k = Some o → (k = id2 ∧ o = out2) ∨ (k = id3 ∧ o = out3).
Proof.
  unfold demo_set. intros [[<- <-]|[_ [<- <-]%lookup_singleton_Some]]%lookup_insert_Some; auto.
Qed.

Lemma load_validators_sync_witness :
  ∃ y', loadValidators (at_ 1060) [id1; id2] [id3; id2] demo_set demo_sys = Some (Ok (), y') ∧
    vdrs (vstate y') !! id3 = Some (validator_of id3 out3) ∧ vdrs (vstate y') !! id1 = None.
Proof.
  assert (time_ok (at_ 1060)) as Hnow by (unfold time_ok, at_; lia).
  destruct (load_validators_sync (DatabaseClient0:=map_db) (λ n, n) demo_ops ∅ (demo_run map_db).2
    (demo_run map_db).1.1 demo_sys (at_ 1060) demo_set [id1; id2] [id3; id2] demo_ops_ok
    (demo_run_eq map_db) Hnow) as (y' & Hl & Hv).
  - intros k o [[-> ->]|[-> ->]]%demo_set_lookup;
      (constructor; simpl; [split; [repeat constructor; done|done]..| |]; unfold inU; lia).
  - intros k1 k2 o1 o2 [[-> ->]|[-> ->]]%demo_set_lookup [[-> ->]|[-> ->]]%demo_set_lookup; done.
  - assert (vdrs (vstate demo_sys) !! id2 = Some vdr2) as H2 by (vm_compute; reflexivity).
    assert (vdrs (vstate demo_sys) !! id3 = None) as H3 by (vm_compute; reflexivity).
    intros k o v [[-> ->]|[-> ->]]%demo_set_lookup; [|congruence].
    rewrite H2. intros [= <-]. repeat split.
  - apply NoDup_Permutation; [|apply NoDup_elements|].
    + repeat constructor; set_solver.
    + assert (dom (data (vstate demo_sys)) = {[id1; id2]}) as Hd by (vm_compute; reflexivity).
      intros x. unfold GetValidationIDs. rewrite elem_of_elements, Hd. set_solver.
  - assert ((map_to_list demo_set).*1 = [id2; id3] ∨ (map_to_list demo_set).*1 = [id3; id2])
      as [-> | ->] by (first [left; vm_compute; reflexivity|right; vm_compute; reflexivity]).
    + apply Permutation_swap.
    + reflexivity.
  - exists y'. split; [exact Hl|]. rewrite !Hv. split; vm_compute; reflexivity.
Defined.

Lemma nonvalidator_uptime_errors_witness :
  index (vstate demo_sys) !! node3 = None ∧
  updateUptime (at_ 1060) node3 (mgr (sys_core demo_sys)) (vstate demo_sys)
    = (Prelude.Err database_ErrNotFound, vstate demo_sys).
Proof.
  assert (index (vstate demo_sys) !! node3 = None) as Hn by (vm_compute; reflexivity).
  split; [exact Hn|].
  exact (proj1 (nonvalidator_uptime_errors (at_ 1060) node3 [] (mgr (sys_core demo_sys))
                  (vstate demo_sys) Hn)).
Defined.
