(* ===== verification/CometBFT.v ===== *)
(** * What the code uses of CometBFT

    The consensus data types (blocks, commits, validator sets, the chain state)
    as records of the fields the sources under src/vm read or write, and the
    library functions and services they call as the classes [CometBFT] (pure
    functions) and [Services] (calls with effects on the application, the
    stores, the mempool and the event bus).  CometBFT itself is not part of
    the repository: these classes are arguments of every definition that
    uses them.

    Values the code only passes through (evidence, transaction results, ABCI
    events, public keys in protobuf form) are byte strings.  A nil slice is
    the empty list.  Times are nanoseconds. *)

From S2P Require Import Prelude.

(** ** Data *)

Record PartSetHeader := mkPartSetHeader { psh_Total : Z; psh_Hash : list Z }.
Record BlockID := mkBlockID { bid_Hash : list Z; bid_PartSetHeader : PartSetHeader }.
Definition nilBlockID : BlockID := mkBlockID [] (mkPartSetHeader 0 []).

(** [types.BlockIDFlag]: which block, if any, a validator signed. *)
Inductive BlockIDFlag := BlockIDFlagAbsent | BlockIDFlagCommit | BlockIDFlagNil.

Record CommitSig := mkCommitSig {
  cs_BlockIDFlag : BlockIDFlag;
  cs_ValidatorAddress : list Z;
  cs_Timestamp : Z;
  cs_Signature : list Z;
}.
Record Commit := mkCommit {
  c_Height : Z; c_Round : Z; c_BlockID : BlockID; c_Signatures : list CommitSig;
}.
Record ExtendedCommitSig := mkExtendedCommitSig {
  ecs_CommitSig : CommitSig; ecs_Extension : list Z; ecs_ExtensionSignature : list Z;
}.
Record ExtendedCommit := mkExtendedCommit {
  ec_Height : Z; ec_Round : Z; ec_BlockID : BlockID;
  ec_ExtendedSignatures : list ExtendedCommitSig;
}.

Record Validator := mkValidator {
  v_Address : list Z; v_PubKey : list Z; v_VotingPower : Z; v_ProposerPriority : Z;
}.
Record ValidatorSet := mkValidatorSet { vs_Validators : list Validator }.

Record Consensus := mkConsensus { cv_Block : Z; cv_App : Z }.

Record Header := mkHeader {
  h_Version : Consensus;
  h_ChainID : string;
  h_Height : Z;
  h_Time : Z;
  h_LastBlockID : BlockID;
  h_LastCommitHash : list Z;
  h_DataHash : list Z;
  h_ValidatorsHash : list Z;
  h_NextValidatorsHash : list Z;
  h_ConsensusHash : list Z;
  h_AppHash : list Z;
  h_LastResultsHash : list Z;
  h_EvidenceHash : list Z;
  h_ProposerAddress : list Z;
}.

(** [LastCommit] is a pointer, [None] when nil. *)
Record Block := mkBlock {
  b_Header : Header;
  b_Txs : list (list Z);
  b_Evidence : list (list Z);
  b_LastCommit : option Commit;
}.

Record ConsensusParams := mkConsensusParams {
  cp_Block_MaxBytes : Z;
  cp_Block_MaxGas : Z;
  cp_Evidence_MaxBytes : Z;
  cp_Validator_PubKeyTypes : list string;
  cp_Version_App : Z;
  cp_ABCI_VoteExtensionsEnableHeight : Z;
}.

Record State := mkState {
  s_Version_Consensus : Consensus;
  s_ChainID : string;
  s_InitialHeight : Z;
  s_LastBlockHeight : Z;
  s_LastBlockID : BlockID;
  s_LastBlockTime : Z;
  s_NextValidators : ValidatorSet;
  s_Validators : ValidatorSet;
  s_LastValidators : ValidatorSet;
  s_LastHeightValidatorsChanged : Z;
  s_ConsensusParams : ConsensusParams;
  s_LastHeightConsensusParamsChanged : Z;
  s_LastResultsHash : list Z;
  s_AppHash : list Z;
}.

(** ABCI messages. *)
Record ValidatorUpdate := mkValidatorUpdate { vu_PubKey : list Z; vu_Power : Z }.
Record abciValidator := mkAbciValidator { av_Address : list Z; av_Power : Z }.
Record VoteInfo := mkVoteInfo { vi_Validator : abciValidator; vi_BlockIdFlag : BlockIDFlag }.
Record CommitInfo := mkCommitInfo { ci_Round : Z; ci_Votes : list VoteInfo }.
Record ExtendedVoteInfo := mkExtendedVoteInfo {
  evi_Validator : abciValidator; evi_BlockIdFlag : BlockIDFlag;
  evi_VoteExtension : list Z; evi_ExtensionSignature : list Z;
}.
Record ExtendedCommitInfo := mkExtendedCommitInfo {
  eci_Round : Z; eci_Votes : list ExtendedVoteInfo;
}.

Record ResponseFinalizeBlock := mkResponseFinalizeBlock {
  r_Events : list (list Z);
  r_TxResults : list (list Z);
  r_ValidatorUpdates : list ValidatorUpdate;
  r_ConsensusParamUpdates : option (list Z);
  r_AppHash : list Z;
}.

(** The fields common to [RequestFinalizeBlock], [RequestProcessProposal] and
    [RequestExtendVote]. *)
Record BlockRequest := mkBlockRequest {
  q_Hash : list Z;
  q_Height : Z;
  q_Time : Z;
  q_Txs : list (list Z);
  q_LastCommit : CommitInfo;
  q_Misbehavior : list (list Z);
  q_NextValidatorsHash : list Z;
  q_ProposerAddress : list Z;
}.
Record PrepareRequest := mkPrepareRequest {
  pq_MaxTxBytes : Z;
  pq_Txs : list (list Z);
  pq_LocalLastCommit : ExtendedCommitInfo;
  pq_Misbehavior : list (list Z);
  pq_Height : Z;
  pq_Time : Z;
  pq_NextValidatorsHash : list Z;
  pq_ProposerAddress : list Z;
}.
Record VoteExtRequest := mkVoteExtRequest {
  ve_Hash : list Z; ve_ValidatorAddress : list Z; ve_Height : Z; ve_VoteExtension : list Z;
}.
Record Vote := mkVote {
  vt_Height : Z; vt_BlockID : BlockID; vt_ValidatorAddress : list Z; vt_Extension : list Z;
}.
Inductive ProposalStatus := StatusUnknown | StatusAccept | StatusReject.

#[export] Instance PartSetHeader_eq : EqDecision PartSetHeader.
Proof. solve_decision. Defined.
#[export] Instance BlockID_eq : EqDecision BlockID.
Proof. solve_decision. Defined.
#[export] Instance BlockIDFlag_eq : EqDecision BlockIDFlag.
Proof. solve_decision. Defined.
#[export] Instance CommitSig_eq : EqDecision CommitSig.
Proof. solve_decision. Defined.
#[export] Instance Commit_eq : EqDecision Commit.
Proof. solve_decision. Defined.
#[export] Instance Validator_eq : EqDecision Validator.
Proof. solve_decision. Defined.
#[export] Instance ValidatorSet_eq : EqDecision ValidatorSet.
Proof. solve_decision. Defined.
#[export] Instance Consensus_eq : EqDecision Consensus.
Proof. solve_decision. Defined.

(** ** Errors

    Error values keep the sentinel or the fixed part of the message; [EPanic]
    is a Go panic, which is not an error value and cannot be handled by the
    callers of the code below. *)
Inductive gerr :=
| EString (s : string)
| EWrap (s : string) (e : gerr)
| EExt (s : string)             (* an error of a service or library *)
| ErrInvalidBlock (e : gerr)
| ErrInvalidVoteExtension
| ErrNotFound
| ErrUnknownState
| EPanic (s : string).

#[export] Instance gerr_eq : EqDecision gerr.
Proof. solve_decision. Defined.

Fixpoint is_panic (e : gerr) : bool :=
  match e with EPanic _ => true | EWrap _ e | ErrInvalidBlock e => is_panic e | _ => false end.

(** ** Library functions *)

Class CometBFT := {
  Block_ValidateBasic : Block → option string;
  Block_Hash : Block → list Z;
  Header_Hash : Header → list Z;
  Block_HashesTo : Block → list Z → bool;
  BlockID_Equals : BlockID → BlockID → bool;
  Params_Hash : ConsensusParams → list Z;
  Params_Update : ConsensusParams → list Z → ConsensusParams;
  Params_ValidateBasic : ConsensusParams → option string;
  Params_ValidateUpdate : ConsensusParams → list Z → Z → option string;
  ValidatorSet_Hash : ValidatorSet → list Z;
  GetByAddress : ValidatorSet → list Z → option Validator;
  UpdateWithChangeSet : ValidatorSet → list Validator → result string ValidatorSet;
  IncrementProposerPriority : ValidatorSet → Z → ValidatorSet;
  WeightedMedian : list (option (Z * Z)) → Z → Z;
  Evidence_ByteSize : list (list Z) → Z;
  Evidence_ToABCI : list (list Z) → list (list Z);
  TxResultsHash : list (list Z) → list Z;
  PubKeyFromProto : list Z → result string (list Z);
  PubKey_Type : list Z → string;
  IsValidPubkeyType : list string → string → bool;
  PB2TM_ValidatorUpdates : list ValidatorUpdate → result string (list Validator);
  TM2PB_Validator : Validator → abciValidator;
  EnsureExtension : ExtendedCommitSig → bool → option string;
  VoteExtensionsEnabled : Z → Z → bool;
  ToCommit : ExtendedCommit → Commit;
  State_MakeBlock : State → Z → list (list Z) → Commit → list (list Z) → list Z → Block;
  MaxDataBytes : Z → Z → Z → option Z;             (* None: panic *)
  MaxDataBytesNoEvidence : Z → Z → option Z;       (* None: panic *)
  Txs_Validate : list (list Z) → Z → option string;
  MakePartSet : Block → result string PartSetHeader;
  MaxBlockSizeBytes : Z;
  AddressSize : Z;
}.

(** ** Effects

    Code that calls services runs in a monad with a state [St], which persists
    when an error is returned, and a log of the calls made, in order. *)

Definition GoM (Ev St A : Type) : Type := St → result gerr A * St * list Ev.

Section monad.
Context {Ev St : Type}.

#[export] Instance GoM_ret : MRet (GoM Ev St) := λ _ a s, (Ok a, s, []).
#[export] Instance GoM_bind : MBind (GoM Ev St) := λ _ _ f m s,
  match m s with
  | (Ok a, s1, t1) => let '(r, s2, t2) := f a s1 in (r, s2, t1 ++ t2)
  | (Err e, s1, t1) => (Err e, s1, t1)
  end.

Definition throw {A} (e : gerr) : GoM Ev St A := λ s, (Err e, s, []).
Definition ofR {A} (r : result gerr A) : GoM Ev St A := λ s, (r, s, []).
Definition get_st : GoM Ev St St := λ s, (Ok s, s, []).
Definition put_st (s' : St) : GoM Ev St () := λ _, (Ok (), s', []).

(** A service call: logged, with its error wrapped as the caller does. *)
Definition call {A} (ev : Ev) (f : St → result string A * St) : GoM Ev St A := λ s,
  let '(r, s') := f s in
  (match r with Ok a => Ok a | Err e => Err (EExt e) end, s', [ev]).

(** [if err != nil { return ..., wrap(err) }]; a panic passes through. *)
Definition wrap_err {A} (w : gerr → gerr) (m : GoM Ev St A) : GoM Ev St A := λ s,
  match m s with
  | (Err e, s1, t1) => (Err (if is_panic e then e else w e), s1, t1)
  | x => x
  end.

(** The error is logged and dropped; a panic passes through. *)
Definition ignore_err {A} (m : GoM Ev St A) : GoM Ev St () := λ s,
  match m s with
  | (Ok _, s1, t1) => (Ok (), s1, t1)
  | (Err e, s1, t1) => (if is_panic e then Err e else Ok (), s1, t1)
  end.

(** [defer u()]: [u] runs whatever the result. *)
Definition finally {A} (m : GoM Ev St A) (u : GoM Ev St ()) : GoM Ev St A := λ s,
  let '(r, s1, t1) := m s in
  let '(_, s2, t2) := u s1 in (r, s2, t1 ++ t2).

Definition whenM (b : bool) (m : GoM Ev St ()) : GoM Ev St () :=
  if b then m else mret ().

Fixpoint forM {A} (l : list A) (f : A → GoM Ev St ()) : GoM Ev St () :=
  match l with [] => mret () | x :: l' => f x ≫= λ _, forM l' f end.

Lemma bindM_Ok {A B} (m : GoM Ev St A) (f : A → GoM Ev St B) s b s' t :
  (m ≫= f) s = (Ok b, s', t) ↔
  ∃ a s1 t1 t2, m s = (Ok a, s1, t1) ∧ f a s1 = (Ok b, s', t2) ∧ t = t1 ++ t2.
Proof.
  unfold mbind, GoM_bind. destruct (m s) as [[[a|e] s1] t1].
  - destruct (f a s1) as [[r s2] t2] eqn:E. split.
    + intros [= -> -> <-]. exists a, s1, t1, t2. done.
    + intros (a' & s1' & t1' & t2' & Hm & Hf & ->). simplify_eq. congruence.
  - split; [done|]. intros (a' & s1' & t1' & t2' & Hm & Hf & ->). simplify_eq.
Qed.

Lemma bindM_Err {A B} (m : GoM Ev St A) (f : A → GoM Ev St B) s e s' t :
  (m ≫= f) s = (Err e, s', t) ↔
  m s = (Err e, s', t) ∨
  ∃ a s1 t1 t2, m s = (Ok a, s1, t1) ∧ f a s1 = (Err e, s', t2) ∧ t = t1 ++ t2.
Proof.
  unfold mbind, GoM_bind. destruct (m s) as [[[a|e'] s1] t1].
  - destruct (f a s1) as [[r s2] t2] eqn:E. split.
    + intros [= -> -> <-]. right. exists a, s1, t1, t2. done.
    + intros [?|(a' & s1' & t1' & t2' & Hm & Hf & ->)]; simplify_eq. congruence.
  - split; [intros [= -> -> ->]; by left|].
    intros [?|(a' & s1' & t1' & t2' & Hm & Hf & ->)]; by simplify_eq.
Qed.

(** Either the first computation fails, or the second runs after it. *)
Lemma bindM_cases {A B} (m : GoM Ev St A) (f : A → GoM Ev St B) s r s' t :
  (m ≫= f) s = (r, s', t) →
  (∃ e, m s = (Err e, s', t) ∧ r = Err e) ∨
  (∃ a s1 t1 t2, m s = (Ok a, s1, t1) ∧ f a s1 = (r, s', t2) ∧ t = t1 ++ t2).
Proof.
  unfold mbind, GoM_bind. destruct (m s) as [[[a|e] s1] t1].
  - destruct (f a s1) as [[r2 s2] t2] eqn:E. intros [= -> -> <-].
    right. by exists a, s1, t1, t2.
  - intros [= <- -> ->]. left. by exists e.
Qed.

Lemma call_inv {A} ev (f : St → result string A * St) s r s' t :
  call ev f s = (r, s', t) →
  t = [ev] ∧ match r with
             | Ok a => f s = (Ok a, s')
             | Err e => ∃ x, e = EExt x ∧ f s = (Err x, s')
             end.
Proof.
  unfold call. destruct (f s) as [[a|e] s1]; intros [= <- <- <-]; eauto.
Qed.

Lemma ofR_inv {A} (x : result gerr A) s r s' t :
  ofR x s = (r, s', t) → r = x ∧ s' = s ∧ t = [].
Proof. unfold ofR. naive_solver. Qed.

Lemma wrap_err_inv {A} w (m : GoM Ev St A) s r s' t :
  wrap_err w m s = (r, s', t) →
  match r with
  | Ok a => m s = (Ok a, s', t)
  | Err e => ∃ e0, m s = (Err e0, s', t) ∧ e = if is_panic e0 then e0 else w e0
  end.
Proof.
  unfold wrap_err. destruct (m s) as [[[a|e] s1] t1]; intros [= <- <- <-]; eauto.
Qed.

Lemma ignore_err_inv {A} (m : GoM Ev St A) s r s' t :
  ignore_err m s = (r, s', t) → ∃ r0, m s = (r0, s', t).
Proof. unfold ignore_err. destruct (m s) as [[[a|e] s1] t1]; naive_solver. Qed.

Lemma bindM_step {A B} (m : GoM Ev St A) (f : A → GoM Ev St B) s a s1 t1 :
  m s = (Ok a, s1, t1) →
  (m ≫= f) s = let '(r, s2, t2) := f a s1 in (r, s2, t1 ++ t2).
Proof. intros E. unfold mbind, GoM_bind. by rewrite E. Qed.
End monad.

(** [go_step H] splits an execution [H : (m ≫= f) s = (r, s', t)] into the case
    where [m] fails and the case where [f] runs; [go_prim H] inverts an
    execution of a primitive. *)
Ltac go_step H :=
  let e := fresh "e" in let a := fresh "a" in
  let s1 := fresh "s1" in let t1 := fresh "t1" in let t2 := fresh "t2" in
  let Hm := fresh "Hm" in
  apply bindM_cases in H as [(e & Hm & ->)|(a & s1 & t1 & t2 & Hm & H & ->)].

(** The same for an execution known to return [Ok]. *)
Ltac go_next H :=
  let a := fresh "a" in let s1 := fresh "s1" in
  let t1 := fresh "t1" in let t2 := fresh "t2" in let Hm := fresh "Hm" in
  apply bindM_Ok in H as (a & s1 & t1 & t2 & Hm & H & ->).

(** The same for an execution known to fail. *)
Ltac go_fail H :=
  let a := fresh "a" in let s1 := fresh "s1" in
  let t1 := fresh "t1" in let t2 := fresh "t2" in let Hm := fresh "Hm" in
  apply bindM_Err in H as [Hm|(a & s1 & t1 & t2 & Hm & H & ->)].

Ltac go_prim H :=
  first
  [ apply call_inv in H as [-> H]
  | apply ofR_inv in H as (H & -> & ->)
  | unfold mret, GoM_ret in H; simplify_eq H; intros; subst
  | unfold throw in H; simplify_eq H; intros; subst ].

(** Splits hypotheses that say how a computation in [GoM] returned [Ok]. *)
Ltac go_inv :=
  repeat match goal with
  | H : (_ ≫= _) _ = (Ok _, _, _) |- _ =>
      apply bindM_Ok in H as (?&?&?&?&?&?&?)
  | H : mret _ _ = (_, _, _) |- _ => unfold mret, GoM_ret in H; simplify_eq
  | H : ofR _ _ = (_, _, _) |- _ => unfold ofR in H; simplify_eq
  | H : throw _ _ = (_, _, _) |- _ => unfold throw in H; simplify_eq
  | H : call _ _ _ = (Ok _, _, _) |- _ => apply call_inv in H as [? H]; simplify_eq
  | H : wrap_err _ _ _ = (Ok _, _, _) |- _ => apply wrap_err_inv in H; simpl in H
  | H : get_st _ = (_, _, _) |- _ => unfold get_st in H; simplify_eq
  | H : put_st _ _ = (_, _, _) |- _ => unfold put_st in H; simplify_eq
  end; simplify_eq.
