(* ===== verification/Executor.v ===== *)
(** * Block validation and execution (src/vm/types/state, src/vm/types/commit)

    [ValidateBlock] and [MedianTime] (utils.go), the block executor
    (executor.go), the mempool filters (tx_filter.go) and [MakeCommit]
    (commit.go).  The application, the state and block stores, the mempool and
    the event bus are the class [Services]; every call is logged in the order
    it is made, so that theorems can speak of the order of effects. *)

From S2P Require Import Prelude CometBFT.

(** ** The services of the executor *)

Inductive bus_event :=
| EvNewBlock (b : Block) (id : BlockID) (r : ResponseFinalizeBlock)
| EvNewBlockHeader (h : Header)
| EvNewBlockEvents (height : Z) (events : list (list Z)) (numTxs : Z)
| EvNewEvidence (ev : list Z) (height : Z)
| EvTx (height index : Z) (tx result : list Z)
| EvValidatorSetUpdates (vals : list Validator).

Inductive call_ev :=
| CallPrepareProposal (q : PrepareRequest)
| CallProcessProposal (q : BlockRequest)
| CallFinalizeBlock (q : BlockRequest)
| CallExtendVote (q : BlockRequest)
| CallVerifyVoteExtension (q : VoteExtRequest)
| CallAppCommit
| CallSaveResponse (height : Z) (r : ResponseFinalizeBlock)
| CallSaveState (s : State)
| CallLoadValidators (height : Z)
| CallPruneStates (from to evidence : Z)
| CallBase
| CallPruneBlocks (height : Z) (s : State)
| CallMempoolLock
| CallMempoolUnlock
| CallFlushAppConn
| CallMempoolUpdate (height : Z) (txs results : list (list Z)) (maxBytes maxGas : Z)
| CallReap (maxBytes maxGas : Z)
| CallPublish (e : bus_event)
| CallSaveBlock (b : Block) (h : PartSetHeader) (c : Commit)
| CallLoadBlock (height : Z)
| CallLoadBlockByHash (hash : list Z).

Class Services (W : Type) := {
  app_PrepareProposal : PrepareRequest → W → result string (list (list Z)) * W;
  app_ProcessProposal : BlockRequest → W → result string ProposalStatus * W;
  app_FinalizeBlock : BlockRequest → W → result string ResponseFinalizeBlock * W;
  app_ExtendVote : BlockRequest → W → result string (list Z) * W;
  app_VerifyVoteExtension : VoteExtRequest → W → result string ProposalStatus * W;
  app_Commit : W → result string Z * W;                         (* RetainHeight *)
  store_SaveFinalizeBlockResponse : Z → ResponseFinalizeBlock → W → result string () * W;
  store_Save : State → W → result string () * W;
  store_LoadValidators : Z → W → result string ValidatorSet * W;
  store_PruneStates : Z → Z → Z → W → result string () * W;
  bs_Base : W → Z;
  bs_PruneBlocks : Z → State → W → result string (Z * Z) * W;   (* pruned, header height *)
  bs_SaveBlock : Block → PartSetHeader → Commit → W → W;
  bs_LoadBlock : Z → W → option Block;
  bs_LoadBlockByHash : list Z → W → option Block;
  mp_FlushAppConn : W → result string () * W;
  mp_Update : Z → list (list Z) → list (list Z) → Z → Z → W → result string () * W;
  mp_ReapMaxBytesMaxGas : Z → Z → W → list (list Z);
  bus_Publish : bus_event → W → result string () * W;
}.

(** int64 addition. *)
Definition add64 (a b : Z) : Z := wrapS 64 (a + b).

(** ** MakeCommit *)

Definition MakeCommit (height timestamp : Z) (validators : ValidatorSet) (blockID : BlockID)
    : Commit :=
  let commitSigs :=
    if bool_decide (1 < height)%Z then
      (λ v, mkCommitSig BlockIDFlagCommit (v_Address v) timestamp [0%Z])
        <$> vs_Validators validators
    else [] in
  mkCommit height 0 blockID commitSigs.

Section executor.
Context `{CometBFT}.

(** ** Validation (utils.go) *)

Definition weightedTime (validators : ValidatorSet) (commitSig : CommitSig)
    : option (Z * Z) :=
  match cs_BlockIDFlag commitSig with
  | BlockIDFlagAbsent => None
  | _ => match GetByAddress validators (cs_ValidatorAddress commitSig) with
         | Some validator => Some (cs_Timestamp commitSig, v_VotingPower validator)
         | None => None
         end
  end.

Definition MedianTime (commit : Commit) (validators : ValidatorSet) : Z :=
  let weightedTimes := weightedTime validators <$> c_Signatures commit in
  let totalVotingPower :=
    foldl (λ acc wt, match wt with Some (_, p) => add64 acc p | None => acc end)
      0%Z weightedTimes in
  WeightedMedian weightedTimes totalVotingPower.

(** [if !cond { return errors.New(msg) }] *)
Definition check (cond : bool) (msg : string) : result gerr () :=
  if cond then Ok () else Err (EString msg).

Definition of_lib {A} (r : result string A) : result gerr A :=
  match r with Ok a => Ok a | Err e => Err (EExt e) end.
Definition of_opt (o : option string) : result gerr () :=
  match o with None => Ok () | Some e => Err (EExt e) end.

(** [block.LastCommit] dereferenced: a panic when nil. *)
Definition LastCommit (block : Block) : result gerr Commit :=
  of_option (EPanic "nil pointer dereference") (b_LastCommit block).

Definition validate_time (state : State) (block : Block) : result gerr () :=
  let h := b_Header block in
  if bool_decide (s_InitialHeight state < h_Height h)%Z then
    check (bool_decide (s_LastBlockTime state ≤ h_Time h)%Z)
      "block time not greater than or equal to last block time" ≫= λ _,
    LastCommit block ≫= λ lastCommit,
    check (bool_decide (h_Time h = MedianTime lastCommit (s_LastValidators state)))
      "invalid block time"
  else if bool_decide (h_Height h = s_InitialHeight state) then
    check (bool_decide (h_Time h = s_LastBlockTime state))
      "block time is not equal to genesis time"
  else Err (EString "block height lower than initial height").

Definition ValidateBlock (state : State) (block : Block) : result gerr () :=
  let h := b_Header block in
  of_opt (Block_ValidateBasic block) ≫= λ _,
  check (bool_decide (cv_App (h_Version h) = cv_App (s_Version_Consensus state)) &&
         bool_decide (cv_Block (h_Version h) = cv_Block (s_Version_Consensus state)))
    "wrong Block.Header.Version" ≫= λ _,
  check (bool_decide (h_ChainID h = s_ChainID state)) "wrong Block.Header.ChainID" ≫= λ _,
  check (negb (bool_decide (s_LastBlockHeight state = 0%Z) &&
               negb (bool_decide (h_Height h = s_InitialHeight state))))
    "wrong Block.Header.Height for initial block" ≫= λ _,
  check (negb (bool_decide (0 < s_LastBlockHeight state)%Z &&
               negb (bool_decide (h_Height h = add64 (s_LastBlockHeight state) 1))))
    "wrong Block.Header.Height" ≫= λ _,
  check (BlockID_Equals (h_LastBlockID h) (s_LastBlockID state))
    "wrong Block.Header.LastBlockID" ≫= λ _,
  check (bool_decide (h_AppHash h = s_AppHash state)) "wrong Block.Header.AppHash" ≫= λ _,
  check (bool_decide (h_ConsensusHash h = Params_Hash (s_ConsensusParams state)))
    "wrong Block.Header.ConsensusHash" ≫= λ _,
  check (bool_decide (h_LastResultsHash h = s_LastResultsHash state))
    "wrong Block.Header.LastResultsHash" ≫= λ _,
  check (bool_decide (h_ValidatorsHash h = ValidatorSet_Hash (s_Validators state)))
    "wrong Block.Header.ValidatorsHash" ≫= λ _,
  check (bool_decide (h_NextValidatorsHash h = ValidatorSet_Hash (s_NextValidators state)))
    "wrong Block.Header.NextValidatorsHash" ≫= λ _,
  (if bool_decide (h_Height h = s_InitialHeight state) then
     LastCommit block ≫= λ lastCommit,
     check (bool_decide (length (c_Signatures lastCommit) = 0%nat))
       "initial block can't have LastCommit signatures"
   else Ok ()) ≫= λ _,
  check (bool_decide (Z.of_nat (length (h_ProposerAddress h)) = AddressSize))
    "expected ProposerAddress size" ≫= λ _,
  validate_time state block ≫= λ _,
  check (bool_decide (Evidence_ByteSize (b_Evidence block)
                        ≤ cp_Evidence_MaxBytes (s_ConsensusParams state))%Z)
    "evidence overflow".

(** ** Mempool filters (tx_filter.go)

    The limits given to [mempl.PreCheckMaxBytes] and [mempl.PostCheckMaxGas]. *)

Definition TxPreCheck (state : State) : result gerr Z :=
  let maxBytes := cp_Block_MaxBytes (s_ConsensusParams state) in
  let maxBytes := if bool_decide (maxBytes = -1)%Z then MaxBlockSizeBytes else maxBytes in
  of_option (EPanic "negative MaxDataBytesNoEvidence")
    (MaxDataBytesNoEvidence maxBytes
       (Z.of_nat (length (vs_Validators (s_Validators state))))).

Definition TxPostCheck (state : State) : Z := cp_Block_MaxGas (s_ConsensusParams state).

(** ** Commit information for the application *)

Definition BuildLastCommitInfo (block : Block) (lastValSet : ValidatorSet)
    (initialHeight : Z) : result gerr CommitInfo :=
  if bool_decide (h_Height (b_Header block) = initialHeight) then Ok (mkCommitInfo 0 [])
  else
    LastCommit block ≫= λ lastCommit,
    if bool_decide (length (c_Signatures lastCommit) = length (vs_Validators lastValSet)) then
      Ok (mkCommitInfo (c_Round lastCommit)
            (zip_with (λ val commitSig,
               mkVoteInfo (TM2PB_Validator val) (cs_BlockIDFlag commitSig))
             (vs_Validators lastValSet) (c_Signatures lastCommit)))
    else Err (EPanic "commit size doesn't match validator set length").

(** One iteration of the loop of [BuildExtendedCommitInfo]. *)
Definition extendedVote (ecHeight : Z) (enableHeight : Z) (val : Validator)
    (ecs : ExtendedCommitSig) : result gerr ExtendedVoteInfo :=
  let cs := ecs_CommitSig ecs in
  if negb (bool_decide (cs_BlockIDFlag cs = BlockIDFlagAbsent)) &&
     negb (bool_decide (cs_ValidatorAddress cs = v_Address val))
  then Err (EPanic "validator address does not match")
  else match EnsureExtension ecs (VoteExtensionsEnabled enableHeight ecHeight) with
       | Some e => Err (EPanic e)
       | None => Ok (mkExtendedVoteInfo (TM2PB_Validator val) (cs_BlockIDFlag cs)
                       (ecs_Extension ecs) (ecs_ExtensionSignature ecs))
       end.

Fixpoint extendedVotes (ecHeight enableHeight : Z) (vals : list Validator)
    (sigs : list ExtendedCommitSig) : result gerr (list ExtendedVoteInfo) :=
  match vals, sigs with
  | val :: vals', ecs :: sigs' =>
      extendedVote ecHeight enableHeight val ecs ≫= λ v,
      extendedVotes ecHeight enableHeight vals' sigs' ≫= λ vs, Ok (v :: vs)
  | _, _ => Ok []
  end.

Definition BuildExtendedCommitInfo (ec : ExtendedCommit) (valSet : ValidatorSet)
    (initialHeight enableHeight : Z) : result gerr ExtendedCommitInfo :=
  if bool_decide (ec_Height ec < initialHeight)%Z then Ok (mkExtendedCommitInfo 0 [])
  else if bool_decide (length (ec_ExtendedSignatures ec) = length (vs_Validators valSet)) then
    extendedVotes (ec_Height ec) enableHeight (vs_Validators valSet)
      (ec_ExtendedSignatures ec) ≫= λ votes,
    Ok (mkExtendedCommitInfo (ec_Round ec) votes)
  else Err (EPanic "extended commit size does not match validator set length").

(** ** Validator updates and the state update *)

Fixpoint validateValidatorUpdates (abciUpdates : list ValidatorUpdate)
    (pubKeyTypes : list string) : result gerr () :=
  match abciUpdates with
  | [] => Ok ()
  | valUpdate :: rest =>
      if bool_decide (vu_Power valUpdate < 0)%Z then
        Err (EString "voting power can't be negative")
      else if bool_decide (vu_Power valUpdate = 0%Z) then
        validateValidatorUpdates rest pubKeyTypes
      else
        of_lib (PubKeyFromProto (vu_PubKey valUpdate)) ≫= λ pk,
        if IsValidPubkeyType pubKeyTypes (PubKey_Type pk) then
          validateValidatorUpdates rest pubKeyTypes
        else Err (EString "unsupported pubkey type")
  end.

Definition updateState (state : State) (blockID : BlockID) (header : Header)
    (abciResponse : ResponseFinalizeBlock) (validatorUpdates : list Validator)
    : result gerr State :=
  match validatorUpdates with
  | [] => Ok (s_NextValidators state, s_LastHeightValidatorsChanged state)
  | _ => match UpdateWithChangeSet (s_NextValidators state) validatorUpdates with
         | Ok vs => Ok (vs, add64 (add64 (h_Height header) 1) 1)
         | Err e => Err (EWrap "changing validator set" (EExt e))
         end
  end ≫= λ '(nValSet, lastHeightValsChanged),
  let nValSet := IncrementProposerPriority nValSet 1 in
  match r_ConsensusParamUpdates abciResponse with
  | None => Ok (s_ConsensusParams state, s_LastHeightConsensusParamsChanged state,
                s_Version_Consensus state)
  | Some updates =>
      let nextParams := Params_Update (s_ConsensusParams state) updates in
      match Params_ValidateBasic nextParams with
      | Some e => Err (EWrap "validating new consensus params" (EExt e))
      | None =>
          match Params_ValidateUpdate (s_ConsensusParams state) updates (h_Height header) with
          | Some e => Err (EWrap "updating consensus params" (EExt e))
          | None => Ok (nextParams, add64 (h_Height header) 1,
                        mkConsensus (cv_Block (s_Version_Consensus state))
                          (cp_Version_App nextParams))
          end
      end
  end ≫= λ '(nextParams, lastHeightParamsChanged, nextVersion),
  Ok {| s_Version_Consensus := nextVersion;
        s_ChainID := s_ChainID state;
        s_InitialHeight := s_InitialHeight state;
        s_LastBlockHeight := h_Height header;
        s_LastBlockID := blockID;
        s_LastBlockTime := h_Time header;
        s_NextValidators := nValSet;
        s_Validators := s_NextValidators state;
        s_LastValidators := s_Validators state;
        s_LastHeightValidatorsChanged := lastHeightValsChanged;
        s_ConsensusParams := nextParams;
        s_LastHeightConsensusParamsChanged := lastHeightParamsChanged;
        s_LastResultsHash := TxResultsHash (r_TxResults abciResponse);
        s_AppHash := [] |}.

Definition set_AppHash (state : State) (h : list Z) : State :=
  {| s_Version_Consensus := s_Version_Consensus state;
     s_ChainID := s_ChainID state;
     s_InitialHeight := s_InitialHeight state;
     s_LastBlockHeight := s_LastBlockHeight state;
     s_LastBlockID := s_LastBlockID state;
     s_LastBlockTime := s_LastBlockTime state;
     s_NextValidators := s_NextValidators state;
     s_Validators := s_Validators state;
     s_LastValidators := s_LastValidators state;
     s_LastHeightValidatorsChanged := s_LastHeightValidatorsChanged state;
     s_ConsensusParams := s_ConsensusParams state;
     s_LastHeightConsensusParamsChanged := s_LastHeightConsensusParamsChanged state;
     s_LastResultsHash := s_LastResultsHash state;
     s_AppHash := h |}.
End executor.

(** ** The block executor (executor.go) *)

(** [eventBus] is whether [SetEventBus] was called; the default bus ignores
    every event. *)
Record BlockExecutor := mkBlockExecutor {
  eventBus : bool;
  blockMaxBytes : Z;
  blockMaxGas : Z;
  evidenceMaxBytes : Z;
}.

Definition NewBlockExecutor (blockMaxBytes blockMaxGas evidenceMaxBytes : Z) : BlockExecutor :=
  mkBlockExecutor false blockMaxBytes blockMaxGas evidenceMaxBytes.

Definition SetEventBus (blockExec : BlockExecutor) : BlockExecutor :=
  mkBlockExecutor true (blockMaxBytes blockExec) (blockMaxGas blockExec)
    (evidenceMaxBytes blockExec).

Section run.
Context `{CometBFT} {W : Type} `{!Services W}.

#[local] Notation M := (GoM call_ev W).

Definition LoadValidators (height : Z) : M ValidatorSet :=
  call (CallLoadValidators height) (store_LoadValidators height).

Definition buildLastCommitInfoFromStore (block : Block) (initialHeight : Z) : M CommitInfo :=
  if bool_decide (h_Height (b_Header block) = initialHeight) then mret (mkCommitInfo 0 [])
  else
    let height := add64 (h_Height (b_Header block)) (-1) in
    wrap_err (λ _, EPanic "failed to load validator set") (LoadValidators height)
      ≫= λ lastValSet,
    ofR (BuildLastCommitInfo block lastValSet initialHeight).

Definition buildExtendedCommitInfoFromStore (ec : ExtendedCommit)
    (initialHeight enableHeight : Z) : M ExtendedCommitInfo :=
  if bool_decide (ec_Height ec < initialHeight)%Z then mret (mkExtendedCommitInfo 0 [])
  else
    wrap_err (λ _, EPanic "failed to load validator set") (LoadValidators (ec_Height ec))
      ≫= λ valSet,
    ofR (BuildExtendedCommitInfo ec valSet initialHeight enableHeight).

Definition CreateProposalBlock (blockExec : BlockExecutor) (height : Z) (state : State)
    (lastExtCommit : ExtendedCommit) (proposerAddr : list Z) : M Block :=
  let emptyMaxBytes := bool_decide (blockMaxBytes blockExec = -1)%Z in
  let maxBytes := if emptyMaxBytes then MaxBlockSizeBytes else blockMaxBytes blockExec in
  let maxGas := blockMaxGas blockExec in
  ofR (of_option (EPanic "negative MaxDataBytes")
         (MaxDataBytes maxBytes (evidenceMaxBytes blockExec)
            (Z.of_nat (length (vs_Validators (s_Validators state)))))) ≫= λ maxDataBytes,
  let maxReapBytes := if emptyMaxBytes then (-1)%Z else maxDataBytes in
  call (CallReap maxReapBytes maxGas)
    (λ w, (Ok (mp_ReapMaxBytesMaxGas maxReapBytes maxGas w), w)) ≫= λ txs,
  let commit := ToCommit lastExtCommit in
  let block := State_MakeBlock state height txs commit [] proposerAddr in
  let h := b_Header block in
  buildExtendedCommitInfoFromStore lastExtCommit (s_InitialHeight state)
    (cp_ABCI_VoteExtensionsEnableHeight (s_ConsensusParams state)) ≫= λ localLastCommit,
  let req := {| pq_MaxTxBytes := maxDataBytes; pq_Txs := b_Txs block;
                pq_LocalLastCommit := localLastCommit;
                pq_Misbehavior := Evidence_ToABCI (b_Evidence block);
                pq_Height := h_Height h; pq_Time := h_Time h;
                pq_NextValidatorsHash := h_NextValidatorsHash h;
                pq_ProposerAddress := h_ProposerAddress h |} in
  call (CallPrepareProposal req) (app_PrepareProposal req) ≫= λ txl,
  ofR (of_opt (Txs_Validate txl maxDataBytes)) ≫= λ _,
  mret (State_MakeBlock state height txl commit [] proposerAddr).

(** The request built from a block for [FinalizeBlock] and [ProcessProposal]. *)
Definition blockRequest (block : Block) (hash : list Z) (info : CommitInfo) : BlockRequest :=
  let h := b_Header block in
  {| q_Hash := hash; q_Height := h_Height h; q_Time := h_Time h; q_Txs := b_Txs block;
     q_LastCommit := info; q_Misbehavior := Evidence_ToABCI (b_Evidence block);
     q_NextValidatorsHash := h_NextValidatorsHash h;
     q_ProposerAddress := h_ProposerAddress h |}.

Definition ProcessProposal (block : Block) (state : State) : M bool :=
  buildLastCommitInfoFromStore block (s_InitialHeight state) ≫= λ info,
  let req := blockRequest block (Header_Hash (b_Header block)) info in
  call (CallProcessProposal req) (app_ProcessProposal req) ≫= λ status,
  match status with
  | StatusUnknown => throw (EPanic "ProcessProposal responded with status UNKNOWN")
  | StatusAccept => mret true
  | StatusReject => mret false
  end.

Definition ExtendVote (vote : Vote) (block : Block) (state : State) : M (list Z) :=
  if negb (Block_HashesTo block (bid_Hash (vt_BlockID vote))) then
    throw (EPanic "vote's hash does not match the block it is referring to")
  else if negb (bool_decide (vt_Height vote = h_Height (b_Header block))) then
    throw (EPanic "vote's and block's heights do not match")
  else
    buildLastCommitInfoFromStore block (s_InitialHeight state) ≫= λ info,
    let req := blockRequest block (bid_Hash (vt_BlockID vote)) info in
    wrap_err (λ _, EPanic "ExtendVote call failed")
      (call (CallExtendVote req) (app_ExtendVote req)).

Definition VerifyVoteExtension (vote : Vote) : M () :=
  let req := {| ve_Hash := bid_Hash (vt_BlockID vote);
                ve_ValidatorAddress := vt_ValidatorAddress vote;
                ve_Height := vt_Height vote; ve_VoteExtension := vt_Extension vote |} in
  wrap_err (λ _, EPanic "VerifyVoteExtension call failed")
    (call (CallVerifyVoteExtension req) (app_VerifyVoteExtension req)) ≫= λ status,
  match status with
  | StatusUnknown => throw (EPanic "VerifyVoteExtension responded with status UNKNOWN")
  | StatusAccept => mret ()
  | StatusReject => throw ErrInvalidVoteExtension
  end.

(** Runs with the mempool locked; the lock is released on every path. *)
Definition Commit_locked (state : State) (block : Block)
    (abciResponse : ResponseFinalizeBlock) : M Z :=
  call CallFlushAppConn mp_FlushAppConn ≫= λ _,
  call CallAppCommit app_Commit ≫= λ retainHeight,
  ofR (TxPreCheck state) ≫= λ maxBytes,
  let h := h_Height (b_Header block) in
  call (CallMempoolUpdate h (b_Txs block) (r_TxResults abciResponse) maxBytes
          (TxPostCheck state))
    (mp_Update h (b_Txs block) (r_TxResults abciResponse) maxBytes (TxPostCheck state))
    ≫= λ _, mret retainHeight.

Definition BlockExecutor_Commit (state : State) (block : Block) (abciResponse : ResponseFinalizeBlock)
    : M Z :=
  call CallMempoolLock (λ w, (Ok (), w)) ≫= λ _,
  finally (Commit_locked state block abciResponse)
    (call CallMempoolUnlock (λ w, (Ok (), w))).

Definition pruneBlocks (retainHeight : Z) (state : State) : M Z :=
  call CallBase (λ w, (Ok (bs_Base w), w)) ≫= λ base,
  if bool_decide (retainHeight ≤ base)%Z then mret 0%Z
  else
    wrap_err (EWrap "failed to prune block store")
      (call (CallPruneBlocks retainHeight state) (bs_PruneBlocks retainHeight state))
      ≫= λ '(amountPruned, prunedHeaderHeight),
    wrap_err (EWrap "failed to prune state store")
      (call (CallPruneStates base retainHeight prunedHeaderHeight)
         (store_PruneStates base retainHeight prunedHeaderHeight)) ≫= λ _,
    mret amountPruned.

(** Publishing errors are logged only. *)
Definition publish (blockExec : BlockExecutor) (e : bus_event) : M () :=
  if eventBus blockExec then ignore_err (call (CallPublish e) (bus_Publish e)) else mret ().

Fixpoint publishTxs (blockExec : BlockExecutor) (height : Z) (i : nat)
    (txs : list (list Z)) (results : list (list Z)) : M () :=
  match txs with
  | [] => mret ()
  | tx :: txs' =>
      match results !! i with
      | None => throw (EPanic "index out of range")
      | Some result =>
          publish blockExec (EvTx height (wrapU 32 (Z.of_nat i)) tx result) ≫= λ _,
          publishTxs blockExec height (S i) txs' results
      end
  end.

Definition fireEvents (blockExec : BlockExecutor) (block : Block) (blockID : BlockID)
    (abciResponse : ResponseFinalizeBlock) (validatorUpdates : list Validator) : M () :=
  let height := h_Height (b_Header block) in
  publish blockExec (EvNewBlock block blockID abciResponse) ≫= λ _,
  publish blockExec (EvNewBlockHeader (b_Header block)) ≫= λ _,
  publish blockExec (EvNewBlockEvents height (r_Events abciResponse)
                       (Z.of_nat (length (b_Txs block)))) ≫= λ _,
  forM (b_Evidence block) (λ ev, publish blockExec (EvNewEvidence ev height)) ≫= λ _,
  publishTxs blockExec height 0 (b_Txs block) (r_TxResults abciResponse) ≫= λ _,
  whenM (bool_decide (validatorUpdates ≠ []))
    (publish blockExec (EvValidatorSetUpdates validatorUpdates)).

Definition ApplyBlock (blockExec : BlockExecutor) (state : State) (blockID : BlockID)
    (block : Block) : M State :=
  wrap_err ErrInvalidBlock (ofR (ValidateBlock state block)) ≫= λ _,
  buildLastCommitInfoFromStore block (s_InitialHeight state) ≫= λ info,
  let req := blockRequest block (Block_Hash block) info in
  call (CallFinalizeBlock req) (app_FinalizeBlock req) ≫= λ abciResponse,
  ofR (check (bool_decide (length (b_Txs block) = length (r_TxResults abciResponse)))
         "expected tx results length to match size of transactions in block") ≫= λ _,
  call (CallSaveResponse (h_Height (b_Header block)) abciResponse)
    (store_SaveFinalizeBlockResponse (h_Height (b_Header block)) abciResponse) ≫= λ _,
  wrap_err (EWrap "error in validator updates")
    (ofR (validateValidatorUpdates (r_ValidatorUpdates abciResponse)
            (cp_Validator_PubKeyTypes (s_ConsensusParams state)))) ≫= λ _,
  ofR (of_lib (PB2TM_ValidatorUpdates (r_ValidatorUpdates abciResponse)))
    ≫= λ validatorUpdates,
  wrap_err (EWrap "commit failed for application")
    (ofR (updateState state blockID (b_Header block) abciResponse validatorUpdates))
    ≫= λ state1,
  wrap_err (EWrap "commit failed for application") (BlockExecutor_Commit state1 block abciResponse)
    ≫= λ retainHeight,
  let state2 := set_AppHash state1 (r_AppHash abciResponse) in
  call (CallSaveState state2) (store_Save state2) ≫= λ _,
  whenM (bool_decide (0 < retainHeight)%Z) (ignore_err (pruneBlocks retainHeight state2))
    ≫= λ _,
  fireEvents blockExec block blockID abciResponse validatorUpdates ≫= λ _,
  mret state2.

(** [ExecCommitBlock]: executes and commits without validating or updating the
    state. *)
Definition ExecCommitBlock (block : Block) (initialHeight : Z) : M (list Z) :=
  buildLastCommitInfoFromStore block initialHeight ≫= λ info,
  let req := blockRequest block (Block_Hash block) info in
  call (CallFinalizeBlock req) (app_FinalizeBlock req) ≫= λ resp,
  ofR (check (bool_decide (length (b_Txs block) = length (r_TxResults resp)))
         "expected tx results length to match size of transactions in block") ≫= λ _,
  call CallAppCommit app_Commit ≫= λ _,
  mret (r_AppHash resp).
End run.

(** ** Validation is what it says

    The conditions under which a block extends a chain state. *)


Lemma check_Ok c m : check c m = Ok () ↔ c = true.
Proof. unfold check. by destruct c. Qed.

Lemma bind_check {A} c m (f : () → result gerr A) a :
  check c m ≫= f = Ok a ↔ c = true ∧ f () = Ok a.
Proof. unfold check. destruct c; simpl; naive_solver. Qed.

Section validation.
Context `{CometBFT}.

Lemma validate_time_Ok s b :
  validate_time s b = Ok () ↔
  (h_Height (b_Header b) = s_InitialHeight s ∧ h_Time (b_Header b) = s_LastBlockTime s) ∨
  ((s_InitialHeight s < h_Height (b_Header b))%Z ∧
   (s_LastBlockTime s ≤ h_Time (b_Header b))%Z ∧
   ∃ c, b_LastCommit b = Some c ∧ h_Time (b_Header b) = MedianTime c (s_LastValidators s)).
Proof.
  unfold validate_time, LastCommit. case_bool_decide.
  - rewrite bind_check, bool_decide_eq_true. destruct (b_LastCommit b) as [c|]; simpl.
    + rewrite check_Ok, bool_decide_eq_true. naive_solver lia.
    + naive_solver lia.
  - case_bool_decide; [|naive_solver lia].
    rewrite check_Ok, bool_decide_eq_true. naive_solver lia.
Qed.


(** What follows from validity alone. *)
Lemma ValidateBlock_facts s b :
  ValidateBlock s b = Ok () →
  ((0 < s_LastBlockHeight s)%Z → h_Height (b_Header b) = add64 (s_LastBlockHeight s) 1) ∧
  BlockID_Equals (h_LastBlockID (b_Header b)) (s_LastBlockID s) = true ∧
  (s_LastBlockTime s ≤ h_Time (b_Header b))%Z.
Proof.
  unfold ValidateBlock. intros Hv. apply bind_Ok_inv in Hv as ([] & _ & Hv).
  rewrite !bind_check in Hv. destruct Hv as (_ & _ & _ & Hn & Hl & _ & _ & _ & _ & _ & Hv).
  apply bind_Ok_inv in Hv as ([] & _ & Hv). apply bind_check in Hv as [_ Hv].
  apply bind_Ok_inv in Hv as ([] & Ht & _). apply validate_time_Ok in Ht.
  split_and!; [|done|naive_solver lia].
  intros Hpos. rewrite (bool_decide_eq_true_2 _ Hpos) in Hn. simpl in Hn.
  by apply negb_true_iff, negb_false_iff, bool_decide_eq_true in Hn.
Qed.

Lemma ValidateBlock_first s b :
  ValidateBlock s b = Ok () → s_LastBlockHeight s = 0%Z →
  s_InitialHeight s = h_Height (b_Header b).
Proof.
  unfold ValidateBlock. intros Hv Hz. apply bind_Ok_inv in Hv as ([] & _ & Hv).
  rewrite !bind_check in Hv. destruct Hv as (_ & _ & Hf & _).
  rewrite (bool_decide_eq_true_2 _ Hz) in Hf. simpl in Hf.
  by apply negb_true_iff, negb_false_iff, bool_decide_eq_true in Hf.
Qed.

End validation.

(** ** The protocol of [ApplyBlock]

    The order in which block execution may call its services: an automaton
    over the call log.  [PUnlocked true] is reached when the application has
    committed and the mempool has been updated. *)

Inductive phase :=
| PStart | PLoaded | PFinalized | PResponseSaved | PLocked | PFlushed | PCommitted
| PUpdated | PUnlocked (updated : bool) | PStateSaved | PPublishing.

Definition next_phase (p : phase) (e : call_ev) : option phase :=
  match p, e with
  | PStart, CallLoadValidators _ => Some PLoaded
  | (PStart | PLoaded), CallFinalizeBlock _ => Some PFinalized
  | PFinalized, CallSaveResponse _ _ => Some PResponseSaved
  | PResponseSaved, CallMempoolLock => Some PLocked
  | PLocked, CallFlushAppConn => Some PFlushed
  | PFlushed, CallAppCommit => Some PCommitted
  | PCommitted, CallMempoolUpdate _ _ _ _ _ => Some PUpdated
  | (PFlushed | PCommitted), CallMempoolUnlock => Some (PUnlocked false)
  | PUpdated, CallMempoolUnlock => Some (PUnlocked true)
  | PUnlocked true, CallSaveState _ => Some PStateSaved
  | PStateSaved, (CallBase | CallPruneBlocks _ _ | CallPruneStates _ _ _) => Some PStateSaved
  | (PStateSaved | PPublishing), CallPublish _ => Some PPublishing
  | _, _ => None
  end.

Fixpoint run_phase (p : phase) (t : list call_ev) : option phase :=
  match t with
  | [] => Some p
  | e :: t' => match next_phase p e with Some p' => run_phase p' t' | None => None end
  end.

Lemma run_phase_app p t1 t2 :
  run_phase p (t1 ++ t2) =
  match run_phase p t1 with Some p' => run_phase p' t2 | None => None end.
Proof.
  revert p. induction t1 as [|e t1 IH]; intros p; [done|]. simpl.
  by destruct (next_phase p e).
Qed.

(** The events published for an executed block, in order. *)
Definition tx_events (height : Z) (i : nat) (txs results : list (list Z)) : list bus_event :=
  zip_with (λ j p, EvTx height (wrapU 32 (Z.of_nat j)) p.1 p.2)
    (seq i (length txs)) (zip txs (drop i results)).

Definition block_events (block : Block) (blockID : BlockID) (r : ResponseFinalizeBlock)
    (vals : list Validator) : list bus_event :=
  let height := h_Height (b_Header block) in
  [EvNewBlock block blockID r; EvNewBlockHeader (b_Header block);
   EvNewBlockEvents height (r_Events r) (Z.of_nat (length (b_Txs block)))] ++
  ((λ ev, EvNewEvidence ev height) <$> b_Evidence block) ++
  tx_events height 0 (b_Txs block) (r_TxResults r) ++
  (if bool_decide (vals = []) then [] else [EvValidatorSetUpdates vals]).

Definition published (ex : BlockExecutor) (l : list bus_event) : list call_ev :=
  if eventBus ex then CallPublish <$> l else [].

Section execution.
Context `{CometBFT} {W : Type} `{!Services W}.

Lemma publish_inv ex e (w : W) r w' t :
  publish ex e w = (r, w', t) → r = Ok () ∧ t = published ex [e].
Proof.
  unfold publish, published. destruct (eventBus ex); [|by intros [= <- <- <-]].
  unfold ignore_err, call. destruct (bus_Publish e w) as [[[]|x] w1];
    by intros [= <- <- <-].
Qed.

Lemma published_app ex l1 l2 : published ex (l1 ++ l2) = published ex l1 ++ published ex l2.
Proof. unfold published. destruct (eventBus ex); [apply fmap_app|done]. Qed.

Lemma published_nil ex : published ex [] = [].
Proof. unfold published. by destruct (eventBus ex). Qed.

Lemma forM_publish {A} ex (l : list A) (f : A → bus_event) (w : W) r w' t :
  forM l (λ x, publish ex (f x)) w = (r, w', t) → r = Ok () ∧ t = published ex (f <$> l).
Proof.
  revert w r t. induction l as [|x l IH]; intros w r t Hf; simpl in Hf.
  - unfold mret, GoM_ret in Hf. simplify_eq. by rewrite published_nil.
  - go_step Hf; apply publish_inv in Hm as [? ->]; [done|].
    apply IH in Hf as [-> ->]. split; [done|].
    by rewrite fmap_cons, <-published_app.
Qed.

Lemma publishTxs_inv ex h i txs results (w : W) r w' t :
  (i + length txs ≤ length results)%nat →
  publishTxs ex h i txs results w = (r, w', t) →
  r = Ok () ∧ t = published ex (tx_events h i txs results).
Proof.
  revert i w r t. induction txs as [|tx txs IH]; intros i w r t Hlen Hf; simpl in *.
  - unfold mret, GoM_ret in Hf. simplify_eq. by rewrite published_nil.
  - destruct (results !! i) as [x|] eqn:Ex.
    + go_step Hf; apply publish_inv in Hm as [? ->]; [done|].
      apply IH in Hf as [-> ->]; [|lia]. split; [done|]. rewrite <-published_app.
      f_equal. unfold tx_events. simpl. by rewrite (drop_S results x i Ex).
    + apply lookup_ge_None in Ex. lia.
Qed.

Lemma fireEvents_inv ex b id resp vals (w : W) r w' t :
  length (b_Txs b) = length (r_TxResults resp) →
  fireEvents ex b id resp vals w = (r, w', t) →
  r = Ok () ∧ t = published ex (block_events b id resp vals).
Proof.
  intros Hlen Hf. unfold fireEvents in Hf.
  go_step Hf; apply publish_inv in Hm as [? ->]; [done|].
  go_step Hf; apply publish_inv in Hm as [? ->]; [done|].
  go_step Hf; apply publish_inv in Hm as [? ->]; [done|].
  go_step Hf; apply forM_publish in Hm as [? ->]; [done|].
  go_step Hf; apply publishTxs_inv in Hm as [? ->]; [done|lia| |lia].
  unfold block_events. rewrite !published_app.
  change ([EvNewBlock b id resp; EvNewBlockHeader (b_Header b);
    EvNewBlockEvents (h_Height (b_Header b)) (r_Events resp) (Z.of_nat (length (b_Txs b)))])
    with ([EvNewBlock b id resp] ++ [EvNewBlockHeader (b_Header b)] ++
    [EvNewBlockEvents (h_Height (b_Header b)) (r_Events resp) (Z.of_nat (length (b_Txs b)))]).
  rewrite !published_app, <-!app_assoc. unfold whenM in Hf.
  destruct vals as [|v vals].
  - rewrite bool_decide_eq_false_2 in Hf by tauto. unfold mret, GoM_ret in Hf. simplify_eq.
    split; [done|]. rewrite bool_decide_eq_true_2 by done.
    by rewrite published_nil.
  - rewrite bool_decide_eq_true_2 in Hf by done. apply publish_inv in Hf as [-> ->].
    done.
Qed.

Lemma updateState_Ok s id h resp vals s1 :
  updateState s id h resp vals = Ok s1 →
  s_LastBlockHeight s1 = h_Height h ∧ s_LastBlockTime s1 = h_Time h ∧
  s_LastBlockID s1 = id ∧ s_Validators s1 = s_NextValidators s ∧
  s_LastValidators s1 = s_Validators s ∧ s_ChainID s1 = s_ChainID s ∧
  s_InitialHeight s1 = s_InitialHeight s ∧
  s_LastResultsHash s1 = TxResultsHash (r_TxResults resp).
Proof.
  unfold updateState. intros Hu.
  apply bind_Ok_inv in Hu as ([nv lh] & _ & Hu).
  apply bind_Ok_inv in Hu as ([[np lp] nver] & _ & Hu). simplify_eq. done.
Qed.

(** *** Traces of the parts *)

Lemma buildLastCommitInfoFromStore_inv b ih (w : W) r w' t :
  buildLastCommitInfoFromStore b ih w = (r, w', t) →
  (t = [] ∧ h_Height (b_Header b) = ih ∧ r = Ok (mkCommitInfo 0 []) ∧ w' = w) ∨
  (t = [CallLoadValidators (add64 (h_Height (b_Header b)) (-1))] ∧
   h_Height (b_Header b) ≠ ih ∧
   ∀ info, r = Ok info →
     ∃ vals, store_LoadValidators (add64 (h_Height (b_Header b)) (-1)) w = (Ok vals, w') ∧
             BuildLastCommitInfo b vals ih = Ok info).
Proof.
  unfold buildLastCommitInfoFromStore. case_bool_decide.
  - intros Hf. left. unfold mret, GoM_ret in Hf. by simplify_eq.
  - intros Hf. right. go_step Hf; apply wrap_err_inv in Hm; simpl in Hm.
    + destruct Hm as (e0 & Hm & _). apply call_inv in Hm as [-> _]. done.
    + apply call_inv in Hm as [-> Hm]. apply ofR_inv in Hf as (-> & -> & ->).
      split_and!; [done|done|]. eauto.
Qed.

Lemma Commit_inv s b resp (w : W) r w' t :
  BlockExecutor_Commit s b resp w = (r, w', t) →
  match r with
  | Ok _ =>
      ∃ maxBytes, TxPreCheck s = Ok maxBytes ∧
      t = [CallMempoolLock; CallFlushAppConn; CallAppCommit;
           CallMempoolUpdate (h_Height (b_Header b)) (b_Txs b) (r_TxResults resp) maxBytes
             (TxPostCheck s); CallMempoolUnlock]
  | Err _ => ∃ u, run_phase PResponseSaved t = Some (PUnlocked u)
  end.
Proof.
  unfold BlockExecutor_Commit. intros Hf. go_step Hf; apply call_inv in Hm as [-> Hm];
    [destruct Hm as (? & ? & ?); congruence|].
  unfold finally in Hf. destruct (Commit_locked s b resp s1) as [[r1 s2] t1] eqn:Hc.
  unfold call at 1 in Hf. simplify_eq. unfold Commit_locked in Hc.
  go_step Hc; apply call_inv in Hm as [-> _]; [by exists false|].
  go_step Hc; apply call_inv in Hm as [-> _]; [by exists false|].
  go_step Hc; apply ofR_inv in Hm as (Hpre & -> & ->); [by exists false|].
  go_step Hc; apply call_inv in Hm as [-> _]; [by exists true|].
  unfold mret, GoM_ret in Hc. simplify_eq. by eexists.
Qed.

Definition is_prune (e : call_ev) : bool :=
  match e with CallBase | CallPruneBlocks _ _ | CallPruneStates _ _ _ => true | _ => false end.

Lemma pruneBlocks_inv h s (w : W) r w' t :
  pruneBlocks h s w = (r, w', t) →
  Forall (λ e, is_prune e = true) t ∧ (∀ e, r = Err e → is_panic e = false) ∧
  ((h ≤ bs_Base w)%Z → r = Ok 0%Z ∧ w' = w ∧ t = [CallBase]).
Proof.
  unfold pruneBlocks. intros Hf. go_step Hf; apply call_inv in Hm as [-> Hm];
    [destruct Hm as (? & ? & ?); congruence|]. simplify_eq.
  case_bool_decide.
  { unfold mret, GoM_ret in Hf. simplify_eq. repeat constructor; done. }
  go_step Hf; apply wrap_err_inv in Hm; simpl in Hm.
  { destruct Hm as (e0 & Hm & ->). apply call_inv in Hm as [-> (x & -> & _)].
    split_and!; [by repeat constructor|naive_solver|lia]. }
  destruct a as [n ph]. apply call_inv in Hm as [-> _].
  go_step Hf; apply wrap_err_inv in Hm; simpl in Hm.
  { destruct Hm as (e0 & Hm & ->). apply call_inv in Hm as [-> (x & -> & _)].
    split_and!; [by repeat constructor|naive_solver|lia]. }
  apply call_inv in Hm as [-> _]. unfold mret, GoM_ret in Hf. simplify_eq.
  split_and!; [by repeat constructor|naive_solver|lia].
Qed.

Lemma prune_step_inv (b : bool) h s (w : W) r w' t :
  whenM b (ignore_err (pruneBlocks h s)) w = (r, w', t) →
  r = Ok () ∧ Forall (λ e, is_prune e = true) t.
Proof.
  unfold whenM. destruct b; [|by intros [= <- <- <-]]. unfold ignore_err.
  destruct (pruneBlocks h s w) as [[r1 w1] t1] eqn:Hp.
  apply pruneBlocks_inv in Hp as (Ht & Hr & _).
  destruct r1 as [x|e]; [by intros [= <- <- <-]|].
  rewrite (Hr e eq_refl). by intros [= <- <- <-].
Qed.

Lemma run_phase_prune t :
  Forall (λ e, is_prune e = true) t → run_phase PStateSaved t = Some PStateSaved.
Proof. induction 1 as [|e t He Ht IH]; [done|]. by destruct e. Qed.

Lemma run_phase_published ex l :
  ∃ p, run_phase PStateSaved (published ex l) = Some p ∧ (p = PStateSaved ∨ p = PPublishing).
Proof.
  unfold published. destruct (eventBus ex); [|by exists PStateSaved; auto].
  destruct l as [|e l]; [by exists PStateSaved; auto|]. exists PPublishing. simpl.
  split; [|by right]. induction l; [done|]. done.
Qed.

(** After a successful [BlockExecutor_Commit]: saving, pruning and events. *)
Lemma apply_tail_phase ex s id b resp vals retain (w : W) r w' t :
  length (b_Txs b) = length (r_TxResults resp) →
  (call (CallSaveState s) (store_Save s) ≫= λ _,
   whenM (bool_decide (0 < retain)%Z) (ignore_err (pruneBlocks retain s)) ≫= λ _,
   fireEvents ex b id resp vals ≫= λ _, mret s) w = (r, w', t) →
  ∃ p, run_phase (PUnlocked true) t = Some p ∧ (p = PStateSaved ∨ p = PPublishing).
Proof.
  intros Hlen Hf. go_step Hf; apply call_inv in Hm as [-> Hm]; [exists PStateSaved; auto|].
  go_step Hf; apply prune_step_inv in Hm0 as [? Hp]; [done|].
  go_step Hf; apply fireEvents_inv in Hm0 as [? ->]; try done.
  unfold mret, GoM_ret in Hf. simplify_eq. simpl.
  rewrite app_nil_r, run_phase_app, run_phase_prune by done. apply run_phase_published.
Qed.

Lemma apply_phase ex s id b (w : W) r w' t :
  ApplyBlock ex s id b w = (r, w', t) →
  ∃ p, run_phase PStart t = Some p ∧ (is_ok r = true → p = PStateSaved ∨ p = PPublishing).
Proof.
  unfold ApplyBlock. intros Hf. go_step Hf; apply wrap_err_inv in Hm; simpl in Hm.
  { destruct Hm as (e0 & Hm & _). apply ofR_inv in Hm as (_ & -> & ->). by exists PStart. }
  apply ofR_inv in Hm as (_ & -> & ->). simpl.
  go_step Hf; apply buildLastCommitInfoFromStore_inv in Hm as Hload.
  { destruct Hload as [(-> & _)|(-> & _)]; [by exists PStart|by exists PLoaded]. }
  assert (∀ x t, next_phase PStart x = Some PFinalized →
    run_phase PStart (t1 ++ x :: t) = run_phase PFinalized t) as Hstart.
  { intros x t Hx. by destruct Hload as [(-> & _)|(-> & _)]; destruct x. }
  clear Hload Hm.
  go_step Hf; apply call_inv in Hm as [-> _]; [exists PFinalized; by rewrite Hstart|].
  simpl. rewrite Hstart by done. clear Hstart.
  go_step Hf; apply ofR_inv in Hm as (Hlen & -> & ->); [by exists PFinalized|].
  symmetry in Hlen. destruct a2. rewrite check_Ok, bool_decide_eq_true in Hlen. simpl.
  go_step Hf; apply call_inv in Hm as [-> _]; [by exists PResponseSaved|]. simpl.
  go_step Hf; apply wrap_err_inv in Hm; simpl in Hm.
  { destruct Hm as (e0 & Hm & _). apply ofR_inv in Hm as (_ & -> & ->).
    by exists PResponseSaved. }
  apply ofR_inv in Hm as (_ & -> & ->). simpl.
  go_step Hf; apply ofR_inv in Hm as (_ & -> & ->); [by exists PResponseSaved|]. simpl.
  go_step Hf; apply wrap_err_inv in Hm; simpl in Hm.
  { destruct Hm as (e0 & Hm & _). apply ofR_inv in Hm as (_ & -> & ->).
    by exists PResponseSaved. }
  apply ofR_inv in Hm as (_ & -> & ->). simpl.
  go_step Hf; apply wrap_err_inv in Hm; simpl in Hm.
  { destruct Hm as (e0 & Hm & _). apply Commit_inv in Hm as [u Hu]. by exists (PUnlocked u). }
  apply Commit_inv in Hm as (mb & _ & ->). simpl.
  apply apply_tail_phase in Hf as (p & Hp & Hok); [|done]. exists p. by rewrite Hp.
Qed.

(** What a run of [ApplyBlock] that returns a state did. *)
Record applied (ex : BlockExecutor) (s : State) (id : BlockID) (b : Block)
    (s' : State) (t : list call_ev) (resp : ResponseFinalizeBlock) (vals : list Validator)
    (load prune : list call_ev) (info : CommitInfo) (maxBytes : Z) (s1 : State) : Prop := {
  ap_valid : ValidateBlock s b = Ok ();
  ap_length : length (b_Txs b) = length (r_TxResults resp);
  ap_updates : validateValidatorUpdates (r_ValidatorUpdates resp)
                 (cp_Validator_PubKeyTypes (s_ConsensusParams s)) = Ok ();
  ap_vals : PB2TM_ValidatorUpdates (r_ValidatorUpdates resp) = Ok vals;
  ap_update : updateState s id (b_Header b) resp vals = Ok s1;
  ap_state : s' = set_AppHash s1 (r_AppHash resp);
  ap_load : load = (if bool_decide (h_Height (b_Header b) = s_InitialHeight s) then []
                    else [CallLoadValidators (add64 (h_Height (b_Header b)) (-1))]);
  ap_prune : Forall (λ e, is_prune e = true) prune;
  ap_trace : t = load ++
    [CallFinalizeBlock (blockRequest b (Block_Hash b) info);
     CallSaveResponse (h_Height (b_Header b)) resp;
     CallMempoolLock; CallFlushAppConn; CallAppCommit;
     CallMempoolUpdate (h_Height (b_Header b)) (b_Txs b) (r_TxResults resp) maxBytes
       (TxPostCheck s1);
     CallMempoolUnlock; CallSaveState s'] ++
    prune ++ published ex (block_events b id resp vals);
}.

Lemma apply_Ok ex s id b (w : W) s' w' t :
  ApplyBlock ex s id b w = (Ok s', w', t) →
  ∃ resp vals load prune info maxBytes s1,
    applied ex s id b s' t resp vals load prune info maxBytes s1.
Proof.
  unfold ApplyBlock. intros Hf. go_inv.
  repeat match goal with u : () |- _ => destruct u end.
  match goal with Hc : BlockExecutor_Commit _ _ _ _ = _ |- _ => apply Commit_inv in Hc as (mb & _ & ->) end.
  match goal with Hp : whenM _ _ _ = _ |- _ => apply prune_step_inv in Hp as [_ Hp] end.
  match goal with Hl : buildLastCommitInfoFromStore _ _ _ = _ |- _ =>
    apply buildLastCommitInfoFromStore_inv in Hl end.
  match goal with Hl : check _ _ = _ |- _ => rewrite check_Ok, bool_decide_eq_true in Hl end.
  match goal with Hl : fireEvents _ _ _ _ _ _ = _ |- _ =>
    apply fireEvents_inv in Hl as [_ ->]; [|done] end.
  match goal with Hl : of_lib ?x = Ok _ |- _ =>
    destruct x as [vals|] eqn:Hvals; simpl in Hl; [simplify_eq|done] end.
  do 7 eexists. constructor.
  9: { simpl. rewrite app_nil_r. reflexivity. }
  7: { case_bool_decide; naive_solver. }
  all: done.
Qed.

(** C3: every run of [ApplyBlock], whether it succeeds, fails at any point or
    panics, follows the protocol of [next_phase]: the block is executed before
    its results are saved, they are saved before the application commits,
    the application commits only under the mempool lock and after the flush,
    the lock is always released, the new state is saved only after the
    application committed and the mempool was updated, pruning and events come
    last.  A run on an invalid block has no effect at all. *)
Theorem apply_block_protocol (ex : BlockExecutor) (s : State) (id : BlockID) (b : Block)
    (w w' : W) (r : result gerr State) (t : list call_ev)
    (Hrun : ApplyBlock ex s id b w = (r, w', t)) :
  (∃ p, run_phase PStart t = Some p ∧
        (is_ok r = true → p = PStateSaved ∨ p = PPublishing)) ∧
  (is_ok (ValidateBlock s b) = false → t = [] ∧ w' = w ∧ is_ok r = false).
Proof.
  split; [by eapply apply_phase|]. intros Hv. unfold ApplyBlock in Hrun.
  go_step Hrun; apply wrap_err_inv in Hm; simpl in Hm.
  - destruct Hm as (e0 & Hm & _). by apply ofR_inv in Hm as (_ & -> & ->).
  - apply ofR_inv in Hm as (Hok & _). by rewrite <-Hok in Hv.
Qed.

(** C4: when [ApplyBlock] returns a state, the block was valid and the calls
    were exactly these: load the last validators (unless it is the initial
    block), execute the block, save its results, lock, flush, commit, update
    the mempool with the block's transactions and results, unlock, save the
    returned state, prune, publish the block's events in order.  The
    returned state has the block's height, time and ID, the validator sets
    moved on by one, and the application hash of the response. *)
Theorem apply_block_effects (ex : BlockExecutor) (s : State) (id : BlockID) (b : Block)
    (w w' : W) (s' : State) (t : list call_ev)
    (Hrun : ApplyBlock ex s id b w = (Ok s', w', t)) :
  (∃ resp vals load prune info maxBytes s1,
     applied ex s id b s' t resp vals load prune info maxBytes s1 ∧
     s_AppHash s' = r_AppHash resp ∧
     s_LastResultsHash s' = TxResultsHash (r_TxResults resp)) ∧
  s_LastBlockHeight s' = h_Height (b_Header b) ∧
  s_LastBlockTime s' = h_Time (b_Header b) ∧
  s_LastBlockID s' = id ∧
  s_Validators s' = s_NextValidators s ∧
  s_LastValidators s' = s_Validators s ∧
  s_ChainID s' = s_ChainID s ∧ s_InitialHeight s' = s_InitialHeight s.
Proof.
  apply apply_Ok in Hrun as (resp & vals & load & prune & info & mb & s1 & Ha).
  pose proof (updateState_Ok _ _ _ _ _ _ (ap_update _ _ _ _ _ _ _ _ _ _ _ _ _ Ha))
    as (? & ? & ? & ? & ? & ? & ? & ?).
  pose proof (ap_state _ _ _ _ _ _ _ _ _ _ _ _ _ Ha) as ->.
  split; [|done]. by do 8 eexists.
Qed.
End execution.

(** ** Proposals *)

(** What [State.MakeBlock] of CometBFT documents: the header is filled from the
    state, its time is the genesis time at the initial height and the median
    time of the last commit otherwise. *)
Record MakeBlock_law `{CometBFT} : Prop := {
  mb_law s h txs c ev addr :
    let b := State_MakeBlock s h txs c ev addr in
    let hd := b_Header b in
    b_Txs b = txs ∧ b_Evidence b = ev ∧ b_LastCommit b = Some c ∧
    h_Version hd = s_Version_Consensus s ∧ h_ChainID hd = s_ChainID s ∧ h_Height hd = h ∧
    h_LastBlockID hd = s_LastBlockID s ∧ h_AppHash hd = s_AppHash s ∧
    h_ConsensusHash hd = Params_Hash (s_ConsensusParams s) ∧
    h_LastResultsHash hd = s_LastResultsHash s ∧
    h_ValidatorsHash hd = ValidatorSet_Hash (s_Validators s) ∧
    h_NextValidatorsHash hd = ValidatorSet_Hash (s_NextValidators s) ∧
    h_ProposerAddress hd = addr ∧
    h_Time hd = (if bool_decide (h = s_InitialHeight s) then s_LastBlockTime s
                 else MedianTime c (s_LastValidators s));
}.

Section proposals.
Context `{CometBFT} {W : Type} `{!Services W}.

Lemma CreateProposalBlock_Ok ex h s ec addr (w : W) b w' t :
  CreateProposalBlock ex h s ec addr w = (Ok b, w', t) →
  ∃ txs max, b = State_MakeBlock s h txs (ToCommit ec) [] addr ∧
    MaxDataBytes (if bool_decide (blockMaxBytes ex = -1)%Z then MaxBlockSizeBytes
                  else blockMaxBytes ex) (evidenceMaxBytes ex)
      (Z.of_nat (length (vs_Validators (s_Validators s)))) = Some max ∧
    Txs_Validate txs max = None.
Proof.
  unfold CreateProposalBlock. intros Hf. go_inv.
  match goal with Hl : of_option _ ?x = Ok _ |- _ =>
    destruct x as [max|] eqn:Hmax; simpl in Hl; [simplify_eq|done] end.
  match goal with Hl : of_opt ?x = Ok _ |- _ => destruct x eqn:Hval; [done|] end.
  eauto.
Qed.
End proposals.

(** ** Information given to the application *)

Section info.
Context `{CometBFT}.

(** [BuildLastCommitInfo] pairs the [i]-th validator of the last set with
    the flag of the [i]-th signature of the last commit, for every [i], and
    panics rather than truncate when the two lengths differ; the initial block
    has no commit information. *)
Theorem commit_info_pairs_votes (b : Block) (c : Commit) (vals : ValidatorSet) (ih : Z)
    (Hc : b_LastCommit b = Some c) (Hh : h_Height (b_Header b) ≠ ih) :
  match BuildLastCommitInfo b vals ih with
  | Ok info =>
      length (ci_Votes info) = length (vs_Validators vals) ∧
      length (c_Signatures c) = length (vs_Validators vals) ∧
      ci_Round info = c_Round c ∧
      ∀ i v sg, vs_Validators vals !! i = Some v → c_Signatures c !! i = Some sg →
        ci_Votes info !! i = Some (mkVoteInfo (TM2PB_Validator v) (cs_BlockIDFlag sg))
  | Err e => is_panic e = true ∧ length (c_Signatures c) ≠ length (vs_Validators vals)
  end.
Proof.
  unfold BuildLastCommitInfo, LastCommit. rewrite bool_decide_eq_false_2 by done.
  rewrite Hc. simpl. case_bool_decide; [|done]. simpl. split_and!; [|done|done|].
  - rewrite length_zip_with. lia.
  - intros i v sg Hv Hs. by rewrite lookup_zip_with, Hv, Hs.
Qed.

(** [validateValidatorUpdates] accepts exactly the lists in which no power
    is negative and every update that is not a removal has a public key of a
    type the consensus parameters allow. *)
Theorem validator_updates_checked (ups : list ValidatorUpdate) (types : list string) :
  validateValidatorUpdates ups types = Ok () ↔
  ∀ u, u ∈ ups →
    (0 ≤ vu_Power u)%Z ∧
    (vu_Power u ≠ 0%Z → ∃ pk, PubKeyFromProto (vu_PubKey u) = Ok pk ∧
                           IsValidPubkeyType types (PubKey_Type pk) = true).
Proof.
  induction ups as [|u ups IH]; simpl; [split; [by intros _ ? ?%elem_of_nil|done]|].
  setoid_rewrite elem_of_cons. case_bool_decide as Hneg.
  { split; [done|]. intros Hall. destruct (Hall u (or_introl eq_refl)). lia. }
  case_bool_decide as Hz.
  { rewrite IH. split; [intros Hall x [->|Hx]; [|by apply Hall]|naive_solver].
    split; [lia|done]. }
  destruct (PubKeyFromProto (vu_PubKey u)) as [pk|e] eqn:Hpk; simpl.
  - destruct (IsValidPubkeyType types (PubKey_Type pk)) eqn:Hv.
    + rewrite IH. split; [intros Hall x [->|Hx]; [|by apply Hall]|naive_solver].
      split; [lia|]. eauto.
    + split; [done|]. intros Hall. destruct (Hall u (or_introl eq_refl)) as [_ Hk].
      destruct (Hk Hz) as (pk' & Hpk' & Hv'). congruence.
  - split; [done|]. intros Hall. destruct (Hall u (or_introl eq_refl)) as [_ Hk].
    destruct (Hk Hz) as (pk' & Hpk' & Hv'). congruence.
Qed.
End info.
