(* ===== verification/Concrete.v ===== *)
(** * A concrete environment

    Simple executable instances of [CometBFT] and [Services] that satisfy the
    documented behaviour the theorems assume.  The witnesses evaluate the
    model on them: the hypotheses of the theorems of [Executor] and of the
    later files are satisfiable. *)

From S2P Require Import Prelude CometBFT Executor.

Definition cMedian (l : list (option (Z * Z))) : Z :=
  match omap id l with [] => 0%Z | (t, _) :: _ => t end.

Definition cGetByAddress (vs : ValidatorSet) (a : list Z) : option Validator :=
  snd <$> list_find (λ v, v_Address v = a) (vs_Validators vs).

Definition cHash (b : Block) : list Z :=
  be_encode 32 (h_Height (b_Header b) * 1000 + Z.of_nat (length (b_Txs b))).

Definition cToCommit (ec : ExtendedCommit) : Commit :=
  mkCommit (ec_Height ec) (ec_Round ec) (ec_BlockID ec)
    (ecs_CommitSig <$> ec_ExtendedSignatures ec).

Definition cParamsHash (p : ConsensusParams) : list Z := be_encode 8 (cp_Block_MaxBytes p).
Definition cValsHash (vs : ValidatorSet) : list Z := concat (v_Address <$> vs_Validators vs).

(** The last commit's time: the first counted signature's. *)
Definition cTime (s : State) (h : Z) (c : Commit) : Z :=
  if bool_decide (h = s_InitialHeight s) then s_LastBlockTime s
  else cMedian ((λ sg, match cs_BlockIDFlag sg with
    | BlockIDFlagAbsent => None
    | _ => match cGetByAddress (s_LastValidators s) (cs_ValidatorAddress sg) with
           | Some v => Some (cs_Timestamp sg, v_VotingPower v)
           | None => None
           end
    end) <$> c_Signatures c).

Definition cMakeBlock (s : State) (h : Z) (txs : list (list Z)) (c : Commit)
    (ev : list (list Z)) (addr : list Z) : Block :=
  mkBlock {| h_Version := s_Version_Consensus s; h_ChainID := s_ChainID s; h_Height := h;
             h_Time := cTime s h c; h_LastBlockID := s_LastBlockID s;
             h_LastCommitHash := []; h_DataHash := [];
             h_ValidatorsHash := cValsHash (s_Validators s);
             h_NextValidatorsHash := cValsHash (s_NextValidators s);
             h_ConsensusHash := cParamsHash (s_ConsensusParams s);
             h_AppHash := s_AppHash s; h_LastResultsHash := s_LastResultsHash s;
             h_EvidenceHash := []; h_ProposerAddress := addr |}
    txs ev (Some c).

#[export] Instance cBFT : CometBFT := {|
  Block_ValidateBasic b := match b_LastCommit b with None => Some "nil LastCommit"
                           | Some _ => None end;
  Block_Hash := cHash;
  Header_Hash h := be_encode 32 (h_Height h);
  Block_HashesTo b h := bool_decide (cHash b = h);
  BlockID_Equals i j := bool_decide (i = j);
  Params_Hash := cParamsHash;
  Params_Update p _ := p;
  Params_ValidateBasic _ := None;
  Params_ValidateUpdate _ _ _ := None;
  ValidatorSet_Hash := cValsHash;
  GetByAddress := cGetByAddress;
  UpdateWithChangeSet vs ups := Ok (mkValidatorSet (vs_Validators vs ++ ups));
  IncrementProposerPriority vs _ := vs;
  WeightedMedian l _ := cMedian l;
  Evidence_ByteSize l := Z.of_nat (length (concat l));
  Evidence_ToABCI l := l;
  TxResultsHash l := concat l;
  PubKeyFromProto pk := Ok pk;
  PubKey_Type _ := "ed25519";
  IsValidPubkeyType l t := bool_decide (t ∈ l);
  PB2TM_ValidatorUpdates l :=
    Ok ((λ u, mkValidator (vu_PubKey u) (vu_PubKey u) (vu_Power u) 0) <$> l);
  TM2PB_Validator v := mkAbciValidator (v_Address v) (v_VotingPower v);
  EnsureExtension _ _ := None;
  VoteExtensionsEnabled e h := bool_decide (0 < e ≤ h)%Z;
  ToCommit := cToCommit;
  State_MakeBlock := cMakeBlock;
  MaxDataBytes m e n := if bool_decide (m - e - n < 0)%Z then None else Some (m - e - n)%Z;
  MaxDataBytesNoEvidence m n := if bool_decide (m - n < 0)%Z then None else Some (m - n)%Z;
  Txs_Validate txs m := if bool_decide (m < Z.of_nat (length (concat txs)))%Z
                        then Some "too many bytes" else None;
  MakePartSet b := Ok (mkPartSetHeader 1 (cHash b));
  MaxBlockSizeBytes := 104857600;
  AddressSize := 20;
|}.

Lemma cMakeBlock_law : MakeBlock_law.
Proof.
  constructor. intros. simpl. unfold cTime, MedianTime, weightedTime. simpl.
  repeat split.
Qed.

(** A world: the saved state, the blocks saved, and the transactions waiting. *)
Record cWorld := mkWorld {
  cw_state : option State;
  cw_blocks : list Block;
  cw_mempool : list (list Z);
  cw_vals : ValidatorSet;
}.

#[export] Instance cServices : Services cWorld := {|
  app_PrepareProposal q w := (Ok (pq_Txs q), w);
  app_ProcessProposal q w := (Ok StatusAccept, w);
  app_FinalizeBlock q w :=
    (Ok (mkResponseFinalizeBlock [] (q_Txs q) [] None (be_encode 8 (q_Height q))), w);
  app_ExtendVote q w := (Ok [], w);
  app_VerifyVoteExtension q w := (Ok StatusAccept, w);
  app_Commit w := (Ok 0%Z, w);
  store_SaveFinalizeBlockResponse _ _ w := (Ok (), w);
  store_Save s w := (Ok (), mkWorld (Some s) (cw_blocks w) (cw_mempool w) (cw_vals w));
  store_LoadValidators _ w := (Ok (cw_vals w), w);
  store_PruneStates _ _ _ w := (Ok (), w);
  bs_Base w := 0%Z;
  bs_PruneBlocks _ _ w := (Ok (0%Z, 0%Z), w);
  bs_SaveBlock b _ _ w := mkWorld (cw_state w) (b :: cw_blocks w) (cw_mempool w) (cw_vals w);
  bs_LoadBlock h w := snd <$> list_find (λ b, h_Height (b_Header b) = h) (cw_blocks w);
  bs_LoadBlockByHash h w := snd <$> list_find (λ b, cHash b = h) (cw_blocks w);
  mp_FlushAppConn w := (Ok (), w);
  mp_Update _ txs _ _ _ w := (Ok (), mkWorld (cw_state w) (cw_blocks w)
                                (filter (λ tx, tx ∉ txs) (cw_mempool w)) (cw_vals w));
  mp_ReapMaxBytesMaxGas _ _ w := cw_mempool w;
  bus_Publish _ w := (Ok (), w);
|}.

Definition cVal : Validator := mkValidator (replicate 20 1%Z) [1%Z] 10 0.
Definition cVals : ValidatorSet := mkValidatorSet [cVal].
Definition cParams : ConsensusParams := mkConsensusParams 1000 1000 100 ["ed25519"] 0 0.
Definition cState0 : State :=
  mkState (mkConsensus 11 0) "demo" 1 0 nilBlockID 5 cVals cVals (mkValidatorSet []) 1
    cParams 1 [] [].
Definition cWorld0 : cWorld := mkWorld None [] [[7%Z]; [8%Z]] cVals.
Definition cExec : BlockExecutor := SetEventBus (NewBlockExecutor 1000 1000 100).
Definition cAddr : list Z := replicate 20 0%Z.
Definition cEmptyCommit : ExtendedCommit := mkExtendedCommit 0 0 nilBlockID [].

Definition cRes {A B C} (x : result gerr A * B * C) (d : A) : A :=
  match x with (Ok a, _, _) => a | _ => d end.
Definition cWld {A B C} (x : A * B * C) : B := x.1.2.

(** The first block of the chain, proposed and applied. *)
Definition cBlock1 : Block :=
  cRes (CreateProposalBlock cExec 1 cState0 cEmptyCommit cAddr cWorld0)
    (mkBlock (mkHeader (mkConsensus 0 0) "" 0 0 nilBlockID [] [] [] [] [] [] [] [] []) [] [] None).
Definition cID1 : BlockID := mkBlockID (cHash cBlock1) (mkPartSetHeader 1 (cHash cBlock1)).
Definition cRun1 := ApplyBlock cExec cState0 cID1 cBlock1 cWorld0.
Definition cState1 : State := cRes cRun1 cState0.
Definition cWorld1 : cWorld := cWld cRun1.

(** ** Witnesses for [Executor] *)


Lemma apply_block_protocol_witness :
  ∃ p, run_phase PStart cRun1.2 = Some p ∧ (p = PStateSaved ∨ p = PPublishing).
Proof.
  destruct (apply_block_protocol cExec cState0 cID1 cBlock1 cWorld0 cRun1.1.2 cRun1.1.1
    cRun1.2) as [(p & Hp & Hok) _].
  - vm_compute. reflexivity.
  - exists p. split; [exact Hp|]. apply Hok. vm_compute. reflexivity.
Defined.

Lemma apply_block_effects_witness :
  s_LastBlockHeight cState1 = 1%Z ∧ s_LastBlockID cState1 = cID1.
Proof.
  destruct (apply_block_effects cExec cState0 cID1 cBlock1 cWorld0 cRun1.1.2 cState1
    cRun1.2) as (_ & Hh & _ & Hid & _).
  - vm_compute. reflexivity.
  - split; [rewrite Hh; vm_compute; reflexivity|exact Hid].
Defined.

Definition cCommit1 : Commit :=
  mkCommit 1 0 cID1 [mkCommitSig BlockIDFlagCommit (v_Address cVal) 6 [0%Z]].

Definition cBlock2 : Block := cMakeBlock cState1 2 [] cCommit1 [] cAddr.

Lemma commit_info_pairs_votes_witness :
  match BuildLastCommitInfo cBlock2 cVals 1 with
  | Ok info => ci_Votes info = [mkVoteInfo (TM2PB_Validator cVal) BlockIDFlagCommit]
  | Err _ => False
  end.
Proof.
  pose proof (commit_info_pairs_votes cBlock2 cCommit1 cVals 1 eq_refl ltac:(done)) as Hw.
  vm_compute in Hw |- *. destruct Hw as (_ & _ & _ & Hw).
  exact (f_equal (λ x, match x with Some v => [v] | None => [] end)
    (Hw 0%nat cVal (mkCommitSig BlockIDFlagCommit (v_Address cVal) 6 [0%Z]) eq_refl eq_refl)).
Defined.
