(* ===== verification/WrappedBlocks.v ===== *)
(** * Blocks held by the VM (src/vm/types)

    Encoding of blocks with their status (state/utils.go), the block caches
    [WrappedBlocksStorage] (state/wrapped_block.go), [ParentHash]
    (block/block.go), the VM's configuration (config.go) and block IDs
    ([ids.ToID], src/utils/ids/id.go).

    The caches hold pointers to [WrappedBlock] objects, and [BlockReject]
    changes the status of an object that several caches may share.  The model
    has a heap [objs] of these objects; the caches map IDs to addresses. *)

From S2P Require Import Prelude LinkedHashmap Caches CometBFT.

(** ** IDs *)

Definition IDLen : nat := 32.

Definition ToID (bytes : list Z) : result gerr (list Z) :=
  if bool_decide (length bytes = IDLen) then Ok bytes
  else Err (EString "invalid hash length").

Lemma ToID_Ok bs id : ToID bs = Ok id ↔ id = bs ∧ length bs = IDLen.
Proof. unfold ToID. case_bool_decide; naive_solver. Qed.

(** ** Statuses and encodings *)

Inductive Status :=
| STATUS_UNSPECIFIED | STATUS_PROCESSING | STATUS_REJECTED | STATUS_ACCEPTED.

#[export] Instance Status_eq : EqDecision Status.
Proof. solve_decision. Defined.

(** Protobuf and JSON, as used on blocks. *)
Class Codecs := {
  protoBlock : Type;
  Block_ToProto : Block → result string protoBlock;
  proto_Marshal : protoBlock → result string (list Z);
  proto_Unmarshal : list Z → result string protoBlock;
  BlockFromProto : protoBlock → result string Block;
  json_Marshal : list Z * Status → result string (list Z);   (* of a vm.Block *)
  json_Unmarshal : list Z → result string (list Z * Status);
}.

Section encoding.
Context `{Codecs}.

Definition lib_err {A} (r : result string A) : result gerr A :=
  match r with Ok a => Ok a | Err e => Err (EExt e) end.

Definition EncodeBlock (block : Block) : result gerr (list Z) :=
  lib_err (Block_ToProto block) ≫= λ proto, lib_err (proto_Marshal proto).

Definition DecodeBlock (data : list Z) : result gerr Block :=
  lib_err (proto_Unmarshal data) ≫= λ protoBlock, lib_err (BlockFromProto protoBlock).

Definition EncodeBlockWithStatus (blk : Block) (status : Status) : result gerr (list Z) :=
  EncodeBlock blk ≫= λ blockBytes, lib_err (json_Marshal (blockBytes, status)).

Definition DecodeBlockWithStatus (data : list Z) : result gerr (Block * Status) :=
  lib_err (json_Unmarshal data) ≫= λ '(bytes, status),
  DecodeBlock bytes ≫= λ blk, Ok (blk, status).

(** What the two libraries promise: they read back what they wrote. *)
Record Codecs_law : Prop := {
  proto_roundtrip b pb bs :
    Block_ToProto b = Ok pb → proto_Marshal pb = Ok bs →
    ∃ pb', proto_Unmarshal bs = Ok pb' ∧ BlockFromProto pb' = Ok b;
  json_roundtrip x bs : json_Marshal x = Ok bs → json_Unmarshal bs = Ok x;
}.

(** A block and its status survive encoding: whatever
    [EncodeBlockWithStatus] returns without an error,
    [DecodeBlockWithStatus] reads back as the same block and status. *)
Theorem block_encoding_roundtrip (b : Block) (st : Status) (bs : list Z)
    (Hlaw : Codecs_law) (Henc : EncodeBlockWithStatus b st = Ok bs) :
  DecodeBlockWithStatus bs = Ok (b, st).
Proof.
  unfold EncodeBlockWithStatus, EncodeBlock in Henc.
  apply bind_Ok_inv in Henc as (data & Hb & Hj).
  apply bind_Ok_inv in Hb as (pb & Hp & Hm).
  destruct (Block_ToProto b) as [pb0|] eqn:E1; simpl in Hp; [|done]. simplify_eq.
  destruct (proto_Marshal pb) as [d|] eqn:E2; simpl in Hm; [|done]. simplify_eq.
  destruct (json_Marshal (data, st)) as [j|] eqn:E3; simpl in Hj; [|done]. simplify_eq.
  destruct (proto_roundtrip Hlaw b pb data E1 E2) as (pb' & Hu & Hf).
  unfold DecodeBlockWithStatus, DecodeBlock.
  rewrite (json_roundtrip Hlaw _ _ E3). simpl. rewrite Hu. simpl. by rewrite Hf.
Qed.
End encoding.

(** ** [ParentHash]

    The conversion to an array panics on a non-nil hash shorter than 32 bytes.  A slice is
    the list of its bytes, so an empty hash counts as nil, as it is after decoding. *)
Definition ParentHash (block : Block) : result gerr (list Z) :=
  let h := bid_Hash (h_LastBlockID (b_Header block)) in
  match h with
  | [] => Ok (replicate 32 0%Z)
  | _ => if bool_decide (length h < 32)%nat then Err (EPanic "slice too short")
         else Ok (take 32 h)
  end.

(** ** Configuration (config.go) *)

Record VMConfig := mkVMConfig {
  NetworkName : string;
  TimeoutBroadcastTxCommit : Z;
  Block_MaxBytes : Z;
  Block_MaxGas : Z;
  Evidence_MaxBytes : Z;
  MaxSubscriptionClients : Z;
  MaxSubscriptionsPerClient : Z;
}.

Definition defaultMaxBytes : Z := 100 * 1024 * 1024.
Definition defaultMaxGas : Z := 10000000.

Definition SetDefaults (c : VMConfig) : VMConfig :=
  mkVMConfig "landslide-test" 30 defaultMaxBytes defaultMaxGas 1000 100 5.

Section config.
Context `{CometBFT}.

Definition cfg_check (cond : bool) (msg : string) : result gerr () :=
  if cond then Err (EString msg) else Ok ().

Definition ConsensusParams_Validate (c : VMConfig) : result gerr () :=
  cfg_check (bool_decide (Block_MaxBytes c = 0%Z)) "block.MaxBytes cannot be 0" ≫= λ _,
  cfg_check (bool_decide (Block_MaxBytes c < -1)%Z)
    "block.MaxBytes must be -1 or greater than 0" ≫= λ _,
  cfg_check (bool_decide (MaxBlockSizeBytes < Block_MaxBytes c)%Z)
    "block.MaxBytes is too big" ≫= λ _,
  cfg_check (bool_decide (Block_MaxGas c < -1)%Z)
    "block.MaxGas must be greater or equal to -1" ≫= λ _,
  let maxBytes := if bool_decide (Block_MaxBytes c = -1)%Z then MaxBlockSizeBytes
                  else Block_MaxBytes c in
  cfg_check (bool_decide (maxBytes < Evidence_MaxBytes c)%Z)
    "evidence.MaxBytes is greater than upper bound" ≫= λ _,
  cfg_check (bool_decide (Evidence_MaxBytes c < 0)%Z)
    "evidence.MaxBytes must be non negative".

Definition Validate (c : VMConfig) : result gerr () :=
  cfg_check (bool_decide (NetworkName c = "")) "network_name can't be empty" ≫= λ _,
  match ConsensusParams_Validate c with
  | Err e => Err (EWrap "consensus_params is invalid" e)
  | Ok _ =>
      cfg_check (bool_decide (MaxSubscriptionsPerClient c < 0)%Z)
        "max_subscriptions_per_client must be positive" ≫= λ _,
      cfg_check (bool_decide (MaxSubscriptionClients c < 0)%Z)
        "max_subscription_clients must be positive"
  end.

Lemma bind_cfg_check {A} c m (f : () → result gerr A) a :
  cfg_check c m ≫= f = Ok a ↔ c = false ∧ f () = Ok a.
Proof. unfold cfg_check. destruct c; simpl; naive_solver. Qed.

Lemma cfg_check_Ok c m : cfg_check c m = Ok () ↔ c = false.
Proof. unfold cfg_check. by destruct c. Qed.

Lemma Validate_Ok (c : VMConfig) :
  Validate c = Ok () ↔
  NetworkName c ≠ "" ∧
  (Block_MaxBytes c = -1 ∨ 0 < Block_MaxBytes c ≤ MaxBlockSizeBytes)%Z ∧
  (Block_MaxBytes c ≤ MaxBlockSizeBytes)%Z ∧
  (-1 ≤ Block_MaxGas c)%Z ∧
  (0 ≤ Evidence_MaxBytes c ≤ if bool_decide (Block_MaxBytes c = -1)%Z
                             then MaxBlockSizeBytes else Block_MaxBytes c)%Z ∧
  (0 ≤ MaxSubscriptionsPerClient c)%Z ∧ (0 ≤ MaxSubscriptionClients c)%Z.
Proof.
  unfold Validate. rewrite bind_cfg_check, bool_decide_eq_false.
  assert (ConsensusParams_Validate c = Ok () ↔
    (Block_MaxBytes c = -1 ∨ 0 < Block_MaxBytes c ≤ MaxBlockSizeBytes)%Z ∧
    (Block_MaxBytes c ≤ MaxBlockSizeBytes)%Z ∧ (-1 ≤ Block_MaxGas c)%Z ∧
    (0 ≤ Evidence_MaxBytes c ≤ if bool_decide (Block_MaxBytes c = -1)%Z
                               then MaxBlockSizeBytes else Block_MaxBytes c)%Z) as Hc.
  { unfold ConsensusParams_Validate. rewrite !bind_cfg_check, cfg_check_Ok,
      !bool_decide_eq_false. case_bool_decide; naive_solver lia. }
  destruct (ConsensusParams_Validate c) as [[]|e] eqn:E.
  - rewrite bind_cfg_check, cfg_check_Ok, !bool_decide_eq_false. naive_solver lia.
  - naive_solver.
Qed.
End config.

(** ** [WrappedBlocksStorage] *)

Record WrappedBlock := mkWrappedBlock { wb_Block : Block; wb_Status : Status }.

Notation blockCache := (sizedLRU.t (linkedHashmap.t (list Z) nat)).
Notation missingCache := (LRU.t (linkedHashmap.t (list Z) ())).
Notation bytesCache := (sizedLRU.t (linkedHashmap.t (list Z) (list Z))).

Record Storage := mkStorage {
  objs : gmap nat WrappedBlock;          (* the heap of WrappedBlock objects *)
  fresh_obj : nat;                       (* the next address *)
  VerifiedBlocks : gmap (list Z) nat;
  DecidedBlocks : blockCache;
  UnverifiedBlocks : blockCache;
  MissingBlocks : missingCache;
  BytesToIDCache : bytesCache;
}.

Definition decidedCacheSize : Z := 10000.
Definition missingCacheSize : Z := 10000.
Definition unverifiedCacheSize : Z := 10000.
Definition bytesToIDCacheSize : Z := 10000.
Definition pointerOverhead : Z := 8.

Definition NewWrappedBlocksStorage : Storage :=
  {| objs := ∅; fresh_obj := 0; VerifiedBlocks := ∅;
     DecidedBlocks := sizedLRU.NewSizedLRU decidedCacheSize;
     UnverifiedBlocks := sizedLRU.NewSizedLRU unverifiedCacheSize;
     MissingBlocks := LRU.mk None missingCacheSize;
     BytesToIDCache := sizedLRU.NewSizedLRU bytesToIDCacheSize |}.

Section storage.
(** The length of [json.Marshal] of a wrapped block (0 on an error). *)
Context (json_len : WrappedBlock → Z).

Definition cachedBlockSize (heap : gmap nat WrappedBlock) (_ : list Z) (p : nat) : Z :=
  let len := match heap !! p with Some bw => json_len bw | None => 0%Z end in
  (Z.of_nat IDLen + len + 2 * pointerOverhead)%Z.

Definition cachedBlockBytesSize (blockBytes _ : list Z) : Z :=
  (Z.of_nat (length blockBytes) + Z.of_nat IDLen)%Z.

(** Field updates. *)
Definition set_objs (f : gmap nat WrappedBlock → gmap nat WrappedBlock) (s : Storage) : Storage :=
  mkStorage (f (objs s)) (fresh_obj s) (VerifiedBlocks s) (DecidedBlocks s)
    (UnverifiedBlocks s) (MissingBlocks s) (BytesToIDCache s).
Definition set_verified (f : gmap (list Z) nat → gmap (list Z) nat) (s : Storage) : Storage :=
  mkStorage (objs s) (fresh_obj s) (f (VerifiedBlocks s)) (DecidedBlocks s)
    (UnverifiedBlocks s) (MissingBlocks s) (BytesToIDCache s).
Definition set_decided (c : blockCache) (s : Storage) : Storage :=
  mkStorage (objs s) (fresh_obj s) (VerifiedBlocks s) c
    (UnverifiedBlocks s) (MissingBlocks s) (BytesToIDCache s).
Definition set_unverified (c : blockCache) (s : Storage) : Storage :=
  mkStorage (objs s) (fresh_obj s) (VerifiedBlocks s) (DecidedBlocks s)
    c (MissingBlocks s) (BytesToIDCache s).
Definition set_missing (c : missingCache) (s : Storage) : Storage :=
  mkStorage (objs s) (fresh_obj s) (VerifiedBlocks s) (DecidedBlocks s)
    (UnverifiedBlocks s) c (BytesToIDCache s).
Definition set_bytes (c : bytesCache) (s : Storage) : Storage :=
  mkStorage (objs s) (fresh_obj s) (VerifiedBlocks s) (DecidedBlocks s)
    (UnverifiedBlocks s) (MissingBlocks s) c.

(** [&WrappedBlock{...}] *)
Definition alloc (wb : WrappedBlock) (s : Storage) : nat * Storage :=
  (fresh_obj s,
   mkStorage (<[fresh_obj s := wb]> (objs s)) (S (fresh_obj s)) (VerifiedBlocks s)
     (DecidedBlocks s) (UnverifiedBlocks s) (MissingBlocks s) (BytesToIDCache s)).

Definition put_decided (id : list Z) (p : nat) (s : Storage) : Storage :=
  set_decided (sizedLRU.Put (cachedBlockSize (objs s)) id p (DecidedBlocks s)) s.
Definition put_unverified (id : list Z) (p : nat) (s : Storage) : Storage :=
  set_unverified (sizedLRU.Put (cachedBlockSize (objs s)) id p (UnverifiedBlocks s)) s.
Definition evict_unverified (id : list Z) (s : Storage) : Storage :=
  set_unverified (sizedLRU.Evict (cachedBlockSize (objs s)) id (UnverifiedBlocks s)) s.
Definition evict_missing (id : list Z) (s : Storage) : Storage :=
  set_missing (LRU.Evict id (MissingBlocks s)) s.
Definition put_missing (id : list Z) (s : Storage) : Storage :=
  set_missing (LRU.Put id () (MissingBlocks s)) s.
Definition get_missing (id : list Z) (s : Storage) : bool * Storage :=
  let '(r, c) := LRU.Get id (MissingBlocks s) in
  (bool_decide (is_Some r), set_missing c s).
Definition get_bytes (bs : list Z) (s : Storage) : option (list Z) * Storage :=
  let '(r, c) := sizedLRU.Get bs (BytesToIDCache s) in (r, set_bytes c s).
Definition put_bytes (bs id : list Z) (s : Storage) : Storage :=
  set_bytes (sizedLRU.Put cachedBlockBytesSize bs id (BytesToIDCache s)) s.

Definition Flush (s : Storage) : Storage :=
  set_bytes (sizedLRU.Flush (BytesToIDCache s))
    (set_unverified (sizedLRU.Flush (UnverifiedBlocks s))
       (set_missing (LRU.Flush (MissingBlocks s))
          (set_decided (sizedLRU.Flush (DecidedBlocks s)) s))).

Definition GetCachedBlock (blkID : list Z) (s : Storage) : option nat * Storage :=
  match VerifiedBlocks s !! blkID with
  | Some p => (Some p, s)
  | None =>
      let '(r, c) := sizedLRU.Get blkID (DecidedBlocks s) in
      let s := set_decided c s in
      match r with
      | Some p => (Some p, s)
      | None =>
          let '(r, c) := sizedLRU.Get blkID (UnverifiedBlocks s) in
          (r, set_unverified c s)
      end
  end.
End storage.

(** ** The storage invariant

    [hash] is the block hash and [decode] the decoding of block bytes. *)

Definition cmap {V} (c : sizedLRU.t (linkedHashmap.t (list Z) V)) : gmap (list Z) V :=
  list_to_map (sizedLRU.abs c).
Definition mmap (c : missingCache) : gmap (list Z) () := list_to_map (LRU.abs c).

Definition decided_status (st : Status) : Prop :=
  st = STATUS_ACCEPTED ∨ st = STATUS_REJECTED.

Record storage_inv (hash : Block → list Z) (decode : list Z → result gerr (Block * Status))
    (s : Storage) : Prop := {
  si_decided_wf : sizedLRU.inv (K := list Z) (V := nat) (DecidedBlocks s);
  si_unverified_wf : sizedLRU.inv (K := list Z) (V := nat) (UnverifiedBlocks s);
  si_missing_wf : LRU.inv (K := list Z) (V := ()) (MissingBlocks s);
  si_bytes_wf : sizedLRU.inv (K := list Z) (V := list Z) (BytesToIDCache s);
  si_fresh p : is_Some (objs s !! p) → (p < fresh_obj s)%nat;
  si_verified id p : VerifiedBlocks s !! id = Some p →
    ∃ wb, objs s !! p = Some wb ∧ hash (wb_Block wb) = id;
  si_decided id p : cmap (DecidedBlocks s) !! id = Some p →
    ∃ wb, objs s !! p = Some wb ∧ hash (wb_Block wb) = id ∧ decided_status (wb_Status wb);
  si_unverified id p : cmap (UnverifiedBlocks s) !! id = Some p →
    ∃ wb, objs s !! p = Some wb ∧ hash (wb_Block wb) = id;
  si_bytes bs id : cmap (BytesToIDCache s) !! bs = Some id →
    ∃ b st, decode bs = Ok (b, st) ∧ hash b = id;
}.

Section cmap.
Context {V : Type}.
Implicit Types c : sizedLRU.t (linkedHashmap.t (list Z) V).
#[local] Notation inv := (sizedLRU.inv (K := list Z) (V := V) (H := linkedHashmap.t (list Z) V)).

Lemma cmap_Put size k v c :
  inv c → inv (sizedLRU.Put size k v c) ∧ cmap (sizedLRU.Put size k v c) ⊆ <[k := v]> (cmap c).
Proof.
  exact (@c_Put_spec _ _ (sizedLRU.t (linkedHashmap.t (list Z) V)) _ _ _
    (sizedLRU.cacher size) k v c).
Qed.

Lemma cmap_Get k c :
  inv c → inv (sizedLRU.Get k c).2 ∧ (sizedLRU.Get k c).1 = cmap c !! k ∧
          cmap (sizedLRU.Get k c).2 = cmap c.
Proof.
  exact (@c_Get_spec _ _ (sizedLRU.t (linkedHashmap.t (list Z) V)) _ _ _
    (sizedLRU.cacher (λ _ _, 0%Z)) k c).
Qed.

Lemma cmap_Evict size k c :
  inv c → inv (sizedLRU.Evict size k c) ∧ cmap (sizedLRU.Evict size k c) = delete k (cmap c).
Proof.
  exact (@c_Evict_spec _ _ (sizedLRU.t (linkedHashmap.t (list Z) V)) _ _ _
    (sizedLRU.cacher size) k c).
Qed.
End cmap.

Lemma mmap_Put k c :
  LRU.inv (K := list Z) (V := ()) c →
  LRU.inv (K := list Z) (V := ()) (LRU.Put k () c) ∧ mmap (LRU.Put k () c) ⊆ <[k := ()]> (mmap c).
Proof. exact (c_Put_spec (C := missingCache) k () c). Qed.

Lemma mmap_Get k c :
  LRU.inv (K := list Z) (V := ()) c →
  LRU.inv (K := list Z) (V := ()) (LRU.Get k c).2 ∧ (LRU.Get k c).1 = mmap c !! k ∧
  mmap (LRU.Get k c).2 = mmap c.
Proof. exact (c_Get_spec (C := missingCache) k c). Qed.

Lemma mmap_Evict k c :
  LRU.inv (K := list Z) (V := ()) c →
  LRU.inv (K := list Z) (V := ()) (LRU.Evict k c) ∧ mmap (LRU.Evict k c) = delete k (mmap c).
Proof. exact (c_Evict_spec (C := missingCache) k c). Qed.

Section storage_inv.
Context (json_len : WrappedBlock → Z) (hash : Block → list Z)
        (decode : list Z → result gerr (Block * Status)).
#[local] Notation inv := (storage_inv hash decode).

Lemma New_storage_inv : inv NewWrappedBlocksStorage.
Proof.
  constructor; try apply linkedHashmap.wf_New; try done.
  - by intros p [x Hx].
Qed.

Lemma alloc_inv wb s :
  inv s → inv (alloc wb s).2 ∧ objs (alloc wb s).2 !! (alloc wb s).1 = Some wb ∧
  (∀ p wb', objs s !! p = Some wb' → objs (alloc wb s).2 !! p = Some wb').
Proof.
  intros [Hd Hu Hm Hb Hf Hvp Hdp Hup Hbp].
  assert (∀ p wb', objs s !! p = Some wb' → <[fresh_obj s:=wb]> (objs s) !! p = Some wb')
    as Hmono.
  { intros p wb' Hp. rewrite lookup_insert_ne; [done|]. intros <-.
    pose proof (Hf _ (ex_intro _ _ Hp)). lia. }
  simpl. split_and!; [|by rewrite lookup_insert_eq|done].
  constructor; simpl; try done.
  - intros p. rewrite lookup_insert. case_decide; [lia|]. intros Hp%Hf. lia.
  - intros id p Hp. destruct (Hvp id p Hp) as (w & ? & ?). eauto.
  - intros id p Hp. destruct (Hdp id p Hp) as (w & ? & ? & ?). eauto.
  - intros id p Hp. destruct (Hup id p Hp) as (w & ? & ?). eauto.
Qed.

Lemma put_decided_inv id p wb s :
  inv s → objs s !! p = Some wb → hash (wb_Block wb) = id → decided_status (wb_Status wb) →
  inv (put_decided json_len id p s).
Proof.
  intros [Hd Hu Hm Hb Hf Hvp Hdp Hup Hbp] Hp Hh Hst.
  destruct (cmap_Put (cachedBlockSize json_len (objs s)) id p _ Hd) as [Hd' Hsub].
  constructor; simpl; try done. intros id' p' Hl.
  eapply lookup_weaken in Hl; [|exact Hsub]. rewrite lookup_insert in Hl.
  case_decide; simplify_eq; eauto.
Qed.

Lemma put_unverified_inv id p wb s :
  inv s → objs s !! p = Some wb → hash (wb_Block wb) = id →
  inv (put_unverified json_len id p s).
Proof.
  intros [Hd Hu Hm Hb Hf Hvp Hdp Hup Hbp] Hp Hh.
  destruct (cmap_Put (cachedBlockSize json_len (objs s)) id p _ Hu) as [Hu' Hsub].
  constructor; simpl; try done. intros id' p' Hl.
  eapply lookup_weaken in Hl; [|exact Hsub]. rewrite lookup_insert in Hl.
  case_decide; simplify_eq; eauto.
Qed.

Lemma evict_unverified_inv id s : inv s → inv (evict_unverified json_len id s).
Proof.
  intros [Hd Hu Hm Hb Hf Hvp Hdp Hup Hbp].
  destruct (cmap_Evict (cachedBlockSize json_len (objs s)) id _ Hu) as [Hu' Heq].
  constructor; simpl; try done. intros id' p' Hl. rewrite Heq in Hl.
  apply lookup_delete_Some in Hl as [_ Hl]. eauto.
Qed.

Lemma evict_missing_inv id s : inv s → inv (evict_missing id s).
Proof. intros []. constructor; simpl; try done. by apply mmap_Evict. Qed.

Lemma put_missing_inv id s : inv s → inv (put_missing id s).
Proof. intros []. constructor; simpl; try done. by apply mmap_Put. Qed.

Lemma get_missing_inv id s :
  inv s → inv (get_missing id s).2 ∧
  ((get_missing id s).1 = true ↔ is_Some (mmap (MissingBlocks s) !! id)).
Proof.
  intros Hi. destruct (mmap_Get id _ (si_missing_wf _ _ _ Hi)) as (Hm & Hg & _).
  unfold get_missing. destruct (LRU.Get id (MissingBlocks s)) as [r c]. simpl in *. subst r.
  split; [|apply bool_decide_eq_true]. destruct Hi. by constructor.
Qed.

Lemma get_bytes_inv bs s :
  inv s → inv (get_bytes bs s).2 ∧ (get_bytes bs s).1 = cmap (BytesToIDCache s) !! bs.
Proof.
  intros Hi. destruct (cmap_Get bs _ (si_bytes_wf _ _ _ Hi)) as (Hm & Hg & Hc).
  unfold get_bytes. destruct (sizedLRU.Get bs (BytesToIDCache s)) as [r c]. simpl in *.
  split; [|done]. destruct Hi. constructor; simpl; try done. by rewrite Hc.
Qed.

Lemma put_bytes_inv bs id b st s :
  inv s → decode bs = Ok (b, st) → hash b = id → inv (put_bytes bs id s).
Proof.
  intros [Hd Hu Hm Hb Hf Hvp Hdp Hup Hbp] Hdec Hh.
  destruct (cmap_Put cachedBlockBytesSize bs id _ Hb) as [Hb' Hsub].
  constructor; simpl; try done. intros bs' id' Hl.
  eapply lookup_weaken in Hl; [|exact Hsub]. rewrite lookup_insert in Hl.
  case_decide; simplify_eq; eauto.
Qed.

Lemma insert_verified_inv id p wb s :
  inv s → objs s !! p = Some wb → hash (wb_Block wb) = id →
  inv (set_verified (insert id p) s).
Proof.
  intros [Hd Hu Hm Hb Hf Hvp Hdp Hup Hbp] Hp Hh. constructor; simpl; try done.
  intros id' p'. rewrite lookup_insert. case_decide; [|eauto]. intros [= <-].
  subst. eauto.
Qed.

Lemma delete_verified_inv id s : inv s → inv (set_verified (delete id) s).
Proof.
  intros [Hd Hu Hm Hb Hf Hvp Hdp Hup Hbp]. constructor; simpl; try done.
  intros id' p' [_ Hl]%lookup_delete_Some. eauto.
Qed.

(** Rejecting an object in place keeps every reference to it consistent. *)
Lemma reject_inv p wb s :
  inv s → objs s !! p = Some wb →
  inv (set_objs (insert p (mkWrappedBlock (wb_Block wb) STATUS_REJECTED)) s).
Proof.
  intros [Hd Hu Hm Hb Hf Hvp Hdp Hup Hbp] Hp.
  assert (∀ p' wb', objs s !! p' = Some wb' → ∃ wb'',
    <[p:=mkWrappedBlock (wb_Block wb) STATUS_REJECTED]> (objs s) !! p' = Some wb'' ∧
    wb_Block wb'' = wb_Block wb' ∧
    (decided_status (wb_Status wb') → decided_status (wb_Status wb''))) as Hup'.
  { intros p' wb' Hp'. rewrite lookup_insert. case_decide; [|eauto].
    subst. rewrite Hp in Hp'. simplify_eq. eexists. split_and!; [done|done|].
    intros _. by right. }
  constructor; simpl; try done.
  - intros p'. rewrite lookup_insert. case_decide; [subst; eauto|apply Hf].
  - intros id p' Hl. destruct (Hvp _ _ Hl) as (w & Hw & <-).
    destruct (Hup' _ _ Hw) as (w' & ? & <- & _). eauto.
  - intros id p' Hl. destruct (Hdp _ _ Hl) as (w & Hw & <- & ?).
    destruct (Hup' _ _ Hw) as (w' & ? & <- & ?). eauto.
  - intros id p' Hl. destruct (Hup _ _ Hl) as (w & Hw & <-).
    destruct (Hup' _ _ Hw) as (w' & ? & <- & _). eauto.
Qed.

(** What [GetCachedBlock] finds, by priority. *)
Definition cached (id : list Z) (s : Storage) : option nat :=
  match VerifiedBlocks s !! id with
  | Some p => Some p
  | None => match cmap (DecidedBlocks s) !! id with
            | Some p => Some p
            | None => cmap (UnverifiedBlocks s) !! id
            end
  end.

Lemma GetCachedBlock_spec id s :
  inv s →
  let '(r, s') := GetCachedBlock id s in
  inv s' ∧ r = cached id s ∧ objs s' = objs s ∧ fresh_obj s' = fresh_obj s ∧
  VerifiedBlocks s' = VerifiedBlocks s ∧
  cmap (DecidedBlocks s') = cmap (DecidedBlocks s) ∧
  cmap (UnverifiedBlocks s') = cmap (UnverifiedBlocks s) ∧
  MissingBlocks s' = MissingBlocks s ∧ BytesToIDCache s' = BytesToIDCache s ∧
  (∀ p, r = Some p → ∃ wb, objs s !! p = Some wb ∧ hash (wb_Block wb) = id).
Proof.
  intros Hi. pose proof Hi as [Hd Hu Hm Hb Hf Hvp Hdp Hup Hbp].
  unfold GetCachedBlock, cached.
  destruct (VerifiedBlocks s !! id) as [p|] eqn:Hv.
  { split_and!; try done. intros p' [= <-]. eauto. }
  destruct (cmap_Get id _ Hd) as (Hd' & Hg & Hc).
  destruct (sizedLRU.Get id (DecidedBlocks s)) as [r c]. simpl in *. subst r.
  destruct (cmap (DecidedBlocks s) !! id) as [p|] eqn:Hl.
  { split_and!; try done.
    - constructor; simpl; try done. by rewrite Hc.
    - intros p' [= <-]. destruct (Hdp _ _ Hl) as (w & ? & ? & ?). eauto. }
  destruct (cmap_Get id _ Hu) as (Hu' & Hg & Hc').
  destruct (sizedLRU.Get id (UnverifiedBlocks s)) as [r c']. simpl in *. subst r.
  split_and!; try done; [|by apply Hup].
  constructor; simpl; try done; [by rewrite Hc|by rewrite Hc'].
Qed.
End storage_inv.
