(* ===== verification/VM.v ===== *)
(** * The VM (src/vm/vm.go)

    The handlers of [LandslideVM] as transitions on the VM's own state (the
    chain state it holds in memory, the block caches, its flags) and the world
    of its services (application, stores, mempool, event bus).  State changes
    made before an error is returned persist, as in the source.

    Not modelled: the wiring of [Initialize] (metrics, gRPC connections,
    goroutines, indexers, the CometBFT handshake), the HTTP server, peer
    messages and the handlers that only return a fixed error. *)

From S2P Require Import Prelude LinkedHashmap Caches CometBFT Executor WrappedBlocks.

(** [vmpb.State] *)
Inductive VState :=
| STATE_UNSPECIFIED | STATE_STATE_SYNCING | STATE_BOOTSTRAPPING | STATE_NORMAL_OP.

Record VM := mkVM {
  vm_state : State;
  vm_blocks : Storage;
  vm_preferred : list Z;
  vm_bootstrapped : bool;
  vm_vmstate : VState;
  vm_vmconnected : bool;
  vm_vmenabled : bool;
  vm_allowShutdown : bool;
  vm_closed : option bool;       (* the channel [closed]: nil, open or closed *)
  vm_config : VMConfig;
}.

Definition set_state (s : State) (vm : VM) : VM :=
  mkVM s (vm_blocks vm) (vm_preferred vm) (vm_bootstrapped vm) (vm_vmstate vm)
    (vm_vmconnected vm) (vm_vmenabled vm) (vm_allowShutdown vm) (vm_closed vm) (vm_config vm).
Definition set_blocks (b : Storage) (vm : VM) : VM :=
  mkVM (vm_state vm) b (vm_preferred vm) (vm_bootstrapped vm) (vm_vmstate vm)
    (vm_vmconnected vm) (vm_vmenabled vm) (vm_allowShutdown vm) (vm_closed vm) (vm_config vm).
Definition set_preferred (p : list Z) (vm : VM) : VM :=
  mkVM (vm_state vm) (vm_blocks vm) p (vm_bootstrapped vm) (vm_vmstate vm)
    (vm_vmconnected vm) (vm_vmenabled vm) (vm_allowShutdown vm) (vm_closed vm) (vm_config vm).
Definition set_bootstrapped (b : bool) (vm : VM) : VM :=
  mkVM (vm_state vm) (vm_blocks vm) (vm_preferred vm) b (vm_vmstate vm)
    (vm_vmconnected vm) (vm_vmenabled vm) (vm_allowShutdown vm) (vm_closed vm) (vm_config vm).
Definition set_vmstate (s : VState) (vm : VM) : VM :=
  mkVM (vm_state vm) (vm_blocks vm) (vm_preferred vm) (vm_bootstrapped vm) s
    (vm_vmconnected vm) (vm_vmenabled vm) (vm_allowShutdown vm) (vm_closed vm) (vm_config vm).
Definition set_connected (b : bool) (vm : VM) : VM :=
  mkVM (vm_state vm) (vm_blocks vm) (vm_preferred vm) (vm_bootstrapped vm) (vm_vmstate vm)
    b (vm_vmenabled vm) (vm_allowShutdown vm) (vm_closed vm) (vm_config vm).
Definition set_shutdown (c : option bool) (vm : VM) : VM :=
  mkVM (vm_state vm) (vm_blocks vm) (vm_preferred vm) (vm_bootstrapped vm) (vm_vmstate vm)
    (vm_vmconnected vm) (vm_vmenabled vm) true c (vm_config vm).

(** Responses; heights are converted to uint64. *)
Record BuildBlockResponse := mkBuildBlockResponse {
  bb_Id : list Z; bb_ParentId : list Z; bb_Bytes : list Z; bb_Height : Z; bb_Timestamp : Z;
}.
Record ParseBlockResponse := mkParseBlockResponse {
  pb_Id : list Z; pb_ParentId : list Z; pb_Status : Status; pb_Height : Z; pb_Timestamp : Z;
}.
Inductive GetBlockResponse :=
| GetBlockNotFound
| GetBlockFound (parentId bytes : list Z) (status : Status) (height timestamp : Z).
Record SetStateResponse := mkSetStateResponse {
  ss_LastAcceptedId : list Z; ss_LastAcceptedParentId : list Z; ss_Height : Z;
  ss_Bytes : list Z; ss_Timestamp : Z;
}.

Definition proposerAddress : list Z := replicate 20 0%Z.

(** [NewViaDB] before [Initialize] fills in the chain state. *)
Definition NewViaDB (s : State) (cfg : VMConfig) : VM :=
  {| vm_state := s; vm_blocks := NewWrappedBlocksStorage; vm_preferred := replicate 32 0%Z;
     vm_bootstrapped := false; vm_vmstate := STATE_UNSPECIFIED; vm_vmconnected := false;
     vm_vmenabled := false; vm_allowShutdown := false; vm_closed := None; vm_config := cfg |}.

(** Genesis chunks: slices of at most [n] bytes, in order. *)
Fixpoint chunk_loop (fuel : nat) (n : nat) (l : list Z) : list (list Z) :=
  match fuel, l with
  | _, [] => []
  | O, _ => []
  | S fuel', _ => take n l :: chunk_loop fuel' n (drop n l)
  end.
Definition genesisChunkSize : nat := Z.to_nat (16 * 1024 * 1024).
Definition genesis_chunks (genesis : list Z) : list (list Z) :=
  chunk_loop (length genesis) genesisChunkSize genesis.

Section handlers.
Context `{CometBFT} {W : Type} `{!Services W} `{!Codecs}.
(** The JSON length of a wrapped block and [State.Bytes]. *)
Context (json_len : WrappedBlock → Z) (State_Bytes : State → list Z).

#[local] Notation M := (GoM call_ev (VM * W)).

Definition lift {A} (m : GoM call_ev W A) : M A := λ '(vm, w),
  let '(r, w', t) := m w in (r, (vm, w'), t).
Definition gets {A} (f : VM → A) : M A := λ '(vm, w), (Ok (f vm), (vm, w), []).
Definition modify (f : VM → VM) : M () := λ '(vm, w), (Ok (), (f vm, w), []).
Definition on_blocks (f : Storage → Storage) : M () :=
  modify (λ vm, set_blocks (f (vm_blocks vm)) vm).
Definition blocks_op {A} (f : Storage → A * Storage) : M A := λ '(vm, w),
  let '(a, b) := f (vm_blocks vm) in (Ok a, (set_blocks b vm, w), []).
(** A pointer dereferenced. *)
Definition deref (p : nat) : M WrappedBlock := λ '(vm, w),
  match objs (vm_blocks vm) !! p with
  | Some wb => (Ok wb, (vm, w), [])
  | None => (Err (EPanic "nil pointer dereference"), (vm, w), [])
  end.

Definition executor (vm : VM) : BlockExecutor :=
  let c := vm_config vm in
  SetEventBus (NewBlockExecutor (Block_MaxBytes c) (Block_MaxGas c) (Evidence_MaxBytes c)).

Definition LoadBlock (height : Z) : M (option Block) :=
  lift (call (CallLoadBlock height) (λ w, (Ok (bs_LoadBlock height w), w))).

Definition uint64 (z : Z) : Z := wrapU 64 z.

Definition SetState (req : VState) : M SetStateResponse :=
  match req with
  | STATE_BOOTSTRAPPING => modify (set_bootstrapped false)
  | STATE_NORMAL_OP => modify (set_bootstrapped true)
  | _ => throw ErrUnknownState
  end ≫= λ _,
  gets vm_state ≫= λ state,
  LoadBlock (s_LastBlockHeight state) ≫= λ blk,
  match blk with
  | None => throw ErrNotFound
  | Some blk =>
      ofR (ParentHash blk) ≫= λ parentHash,
      modify (set_vmstate req) ≫= λ _,
      mret (mkSetStateResponse (Block_Hash blk) parentHash (uint64 (h_Height (b_Header blk)))
              (State_Bytes state) (h_Time (b_Header blk)))
  end.

Definition Connected : M () := modify (set_connected true).
Definition Disconnected : M () := modify (set_connected false).
Definition CanShutdown : M bool := gets vm_allowShutdown.
Definition StateSyncEnabled : M bool := gets vm_vmenabled.

(** The stops of the services run whatever their errors, which are joined. *)
Definition Shutdown (stops : list (option string)) : M () :=
  gets vm_closed ≫= λ closed,
  match closed with
  | Some true => modify (set_shutdown (Some true)) ≫= λ _, throw (EPanic "close of closed channel")
  | Some false => modify (set_shutdown (Some true))
  | None => modify (set_shutdown None)
  end ≫= λ _,
  match omap id stops with
  | [] => mret ()
  | e :: _ => throw (EExt e)
  end.

(** Signatures of the last commit of a proposal: the clock and random bytes
    are read once per validator. *)
Definition proposalSignatures (now : nat → Z) (rnd : nat → list Z) (vals : list Validator)
    : list ExtendedCommitSig :=
  imap (λ i v, mkExtendedCommitSig
          (mkCommitSig BlockIDFlagNil (v_Address v) (now i) (rnd i)) [] []) vals.

Definition BuildBlock (now : nat → Z) (rnd : nat → list Z) : M BuildBlockResponse :=
  gets id ≫= λ vm,
  let state := vm_state vm in
  let lastComm := mkExtendedCommit (s_LastBlockHeight state) 0 (s_LastBlockID state)
                    (proposalSignatures now rnd (vs_Validators (s_Validators state))) in
  lift (CreateProposalBlock (executor vm) (add64 (s_LastBlockHeight state) 1) state lastComm
          proposerAddress) ≫= λ blk,
  ofR (EncodeBlockWithStatus blk STATUS_PROCESSING) ≫= λ blkBytes,
  ofR (ToID (Block_Hash blk)) ≫= λ blkID,
  blocks_op (alloc (mkWrappedBlock blk STATUS_PROCESSING)) ≫= λ p,
  on_blocks (put_unverified json_len blkID p) ≫= λ _,
  on_blocks (evict_missing blkID) ≫= λ _,
  mret (mkBuildBlockResponse (Block_Hash blk) (bid_Hash (h_LastBlockID (b_Header blk)))
          blkBytes (uint64 (h_Height (b_Header blk))) (h_Time (b_Header blk))).

(** Puts a new object in the cache its status calls for. *)
Definition cache_by_status (blkID : list Z) (p : nat) (st : Status) : M () :=
  match st with
  | STATUS_ACCEPTED | STATUS_REJECTED => on_blocks (put_decided json_len blkID p)
  | STATUS_PROCESSING => on_blocks (put_unverified json_len blkID p)
  | STATUS_UNSPECIFIED => throw (EString "found unexpected status for blk")
  end.

(** The ID of the bytes, from the cache or by decoding them; the block and
    status are known only in the second case. *)
Definition parse_id (bytes : list Z) : M (list Z * option (Block * Status)) :=
  blocks_op (get_bytes bytes) ≫= λ cachedID,
  match cachedID with
  | Some blkID => mret (blkID, None)
  | None =>
      ofR (DecodeBlockWithStatus bytes) ≫= λ '(blk, blkStatus),
      ofR (ToID (Block_Hash blk)) ≫= λ blkID,
      on_blocks (put_bytes bytes blkID) ≫= λ _,
      mret (blkID, Some (blk, blkStatus))
  end.

Definition ParseBlock (bytes : list Z) : M ParseBlockResponse :=
  parse_id bytes ≫= λ '(blkID, decoded),
  blocks_op (GetCachedBlock blkID) ≫= λ wblk,
  match wblk with
  | Some p => deref p
  | None =>
      match decoded with
      | Some (blk, blkStatus) =>
          blocks_op (alloc (mkWrappedBlock blk blkStatus)) ≫= λ p,
          cache_by_status blkID p blkStatus ≫= λ _,
          on_blocks (evict_missing blkID) ≫= λ _,
          mret (mkWrappedBlock blk blkStatus)
      | None => (* blkStatus still is the zero value *)
          throw (EString "found unexpected status for blk")
      end
  end ≫= λ wb,
  let blk := wb_Block wb in
  mret (mkParseBlockResponse (Block_Hash blk) (bid_Hash (h_LastBlockID (b_Header blk)))
          (wb_Status wb) (uint64 (h_Height (b_Header blk))) (h_Time (b_Header blk))).

Fixpoint BatchedParseBlock (reqs : list (list Z)) : M (list ParseBlockResponse) :=
  match reqs with
  | [] => mret []
  | bytes :: reqs' =>
      ParseBlock bytes ≫= λ r, BatchedParseBlock reqs' ≫= λ rs, mret (r :: rs)
  end.

(** [wblk] is nil in the source when the block is not found. *)
Definition find_block (reqId blkID : list Z) : M (option nat) :=
  blocks_op (GetCachedBlock blkID) ≫= λ wblk,
  match wblk with
  | Some p => mret (Some p)
  | None =>
      blocks_op (get_missing blkID) ≫= λ missing,
      if (missing : bool) then mret None
      else
        lift (call (CallLoadBlockByHash reqId) (λ w, (Ok (bs_LoadBlockByHash reqId w), w)))
          ≫= λ blk,
        match blk with
        | None => on_blocks (put_missing blkID) ≫= λ _, mret None
        | Some blk =>
            blocks_op (alloc (mkWrappedBlock blk STATUS_ACCEPTED)) ≫= λ p, mret (Some p)
        end
  end.

Definition GetBlock (reqId : list Z) : M GetBlockResponse :=
  ofR (ToID reqId) ≫= λ blkID,
  find_block reqId blkID ≫= λ found,
  match found with
  | None => mret GetBlockNotFound
  | Some p =>
      deref p ≫= λ wb,
      let blk := wb_Block wb in
      cache_by_status blkID p (wb_Status wb) ≫= λ _,
      ofR (EncodeBlockWithStatus blk (wb_Status wb)) ≫= λ blockBytes,
      mret (GetBlockFound (bid_Hash (h_LastBlockID (b_Header blk))) blockBytes (wb_Status wb)
              (uint64 (h_Height (b_Header blk))) (h_Time (b_Header blk)))
  end.

Definition SetPreference (reqId : list Z) : M () :=
  if bool_decide (length reqId < 32)%nat then throw (EPanic "slice too short")
  else modify (set_preferred (take 32 reqId)).

Definition GetBlockIDAtHeight (height : Z) : M (option (list Z)) :=
  LoadBlock (wrapS 64 height) ≫= λ blk, mret (Block_Hash <$> blk).

Definition BlockVerify (bytes : list Z) : M Z :=
  ofR (DecodeBlockWithStatus bytes) ≫= λ '(blk, blkStatus),
  gets vm_state ≫= λ state,
  ofR (ValidateBlock state blk) ≫= λ _,
  ofR (ToID (Block_Hash blk)) ≫= λ blkID,
  on_blocks (evict_unverified json_len blkID) ≫= λ _,
  blocks_op (alloc (mkWrappedBlock blk blkStatus)) ≫= λ p,
  on_blocks (set_verified (insert blkID p)) ≫= λ _,
  mret (h_Time (b_Header blk)).

(** The ID under which an accepted block is applied and stored. *)
Definition accept_id (blk : Block) : result gerr BlockID :=
  of_lib (MakePartSet blk) ≫= λ header, Ok (mkBlockID (Block_Hash blk) header).

Definition BlockAccept (reqId : list Z) : M () :=
  ofR (ToID reqId) ≫= λ blkID,
  blocks_op (GetCachedBlock blkID) ≫= λ wblk,
  match wblk with
  | None => throw ErrNotFound
  | Some p =>
      deref p ≫= λ wb,
      let blk := wb_Block wb in
      gets id ≫= λ vm,
      ofR (accept_id blk) ≫= λ blockID,
      lift (ApplyBlock (executor vm) (vm_state vm) blockID blk) ≫= λ newstate,
      let c := MakeCommit (h_Height (b_Header blk)) (h_Time (b_Header blk))
                 (s_Validators (vm_state vm)) blockID in
      lift (call (CallSaveBlock blk (bid_PartSetHeader blockID) c)
              (λ w, (Ok (), bs_SaveBlock blk (bid_PartSetHeader blockID) c w))) ≫= λ _,
      lift (call (CallSaveState newstate) (store_Save newstate)) ≫= λ _,
      modify (set_state newstate) ≫= λ _,
      on_blocks (set_verified (delete blkID)) ≫= λ _,
      on_blocks (evict_missing blkID) ≫= λ _,
      on_blocks (evict_unverified json_len blkID) ≫= λ _,
      blocks_op (alloc (mkWrappedBlock blk STATUS_ACCEPTED)) ≫= λ q,
      on_blocks (put_decided json_len blkID q)
  end.

Definition BlockReject (reqId : list Z) : M () :=
  ofR (ToID reqId) ≫= λ blkID,
  blocks_op (GetCachedBlock blkID) ≫= λ wblk,
  match wblk with
  | None => throw ErrNotFound
  | Some p =>
      deref p ≫= λ wb,
      on_blocks (set_objs (insert p (mkWrappedBlock (wb_Block wb) STATUS_REJECTED))) ≫= λ _,
      on_blocks (set_verified (delete blkID)) ≫= λ _,
      on_blocks (put_decided json_len blkID p)
  end.
(** ** Initialization

    [Initialize_config]: the defaults, overridden by the configuration bytes
    if there are any ([unmarshal]), then validated. *)
Definition Initialize_config (zero : VMConfig)
    (unmarshal : option (VMConfig → result string VMConfig)) : M VMConfig :=
  let cfg := SetDefaults zero in
  match unmarshal with
  | None => mret cfg
  | Some f => match f cfg with
              | Ok cfg => mret cfg
              | Err e => throw (EWrap "failed to unmarshal config" (EExt e))
              end
  end ≫= λ cfg,
  ofR (Validate cfg) ≫= λ _, mret cfg.

Record InitializeResponse := mkInitializeResponse {
  ir_LastAcceptedId : list Z; ir_LastAcceptedParentId : list Z; ir_Height : Z;
  ir_Bytes : list Z; ir_Timestamp : Z;
}.

(** The last block of the chain: loaded, or created, applied and stored when
    the chain has none. *)
Definition Initialize_block : M Block :=
  gets id ≫= λ vm,
  let state := vm_state vm in
  if bool_decide (0 < s_LastBlockHeight state)%Z then
    LoadBlock (s_LastBlockHeight state) ≫= λ blk,
    match blk with Some blk => mret blk | None => throw (EWrap "failed to encode block with status ACCEPTED" (EExt "nil Block")) end
  else
    lift (CreateProposalBlock (executor vm) (add64 (s_LastBlockHeight state) 1) state
            (mkExtendedCommit 0 0 nilBlockID []) proposerAddress) ≫= λ blk,
    ofR (accept_id blk) ≫= λ blockID,
    lift (ApplyBlock (executor vm) state blockID blk) ≫= λ newstate,
    let c := MakeCommit (h_Height (b_Header blk)) (h_Time (b_Header blk))
               (s_Validators state) blockID in
    lift (call (CallSaveBlock blk (bid_PartSetHeader blockID) c)
            (λ w, (Ok (), bs_SaveBlock blk (bid_PartSetHeader blockID) c w))) ≫= λ _,
    lift (call (CallSaveState newstate) (store_Save newstate)) ≫= λ _,
    modify (set_state newstate) ≫= λ _,
    mret blk.

(** The last block, then the checks of the request's IDs and the response. *)
Definition Initialize_chain (chainId subnetId : list Z) : M InitializeResponse :=
  Initialize_block ≫= λ blk,
  wrap_err (EWrap "failed to encode block with status ACCEPTED")
    (ofR (EncodeBlockWithStatus blk STATUS_ACCEPTED)) ≫= λ blockBytes,
  ofR (ParentHash blk) ≫= λ parentHash,
  wrap_err (EWrap "failed to parse chain ID") (ofR (ToID chainId)) ≫= λ _,
  wrap_err (EWrap "failed to parse subnet ID") (ofR (ToID subnetId)) ≫= λ _,
  mret (mkInitializeResponse (Block_Hash blk) parentHash (uint64 (h_Height (b_Header blk)))
          blockBytes (h_Time (b_Header blk))).

(** ** Requests

    What the consensus engine may ask for, in any order. *)
Inductive request :=
| RSetState (st : VState)
| RConnected
| RDisconnected
| RShutdown (stops : list (option string))
| RBuildBlock (now : nat → Z) (rnd : nat → list Z)
| RParseBlock (bytes : list Z)
| RBatchedParseBlock (reqs : list (list Z))
| RGetBlock (id : list Z)
| RSetPreference (id : list Z)
| RGetBlockIDAtHeight (height : Z)
| RBlockVerify (bytes : list Z)
| RBlockAccept (id : list Z)
| RBlockReject (id : list Z).

Definition handle (r : request) : M () :=
  match r with
  | RSetState st => SetState st ≫= λ _, mret ()
  | RConnected => Connected
  | RDisconnected => Disconnected
  | RShutdown stops => Shutdown stops
  | RBuildBlock now rnd => BuildBlock now rnd ≫= λ _, mret ()
  | RParseBlock bytes => ParseBlock bytes ≫= λ _, mret ()
  | RBatchedParseBlock reqs => BatchedParseBlock reqs ≫= λ _, mret ()
  | RGetBlock id => GetBlock id ≫= λ _, mret ()
  | RSetPreference id => SetPreference id
  | RGetBlockIDAtHeight h => GetBlockIDAtHeight h ≫= λ _, mret ()
  | RBlockVerify bytes => BlockVerify bytes ≫= λ _, mret ()
  | RBlockAccept id => BlockAccept id
  | RBlockReject id => BlockReject id
  end.

(** A run: each request is handled in the state the previous one left, whether
    it succeeded or not. *)
Fixpoint run (rs : list request) (st : VM * W)
    : list (request * result gerr () * list call_ev) * (VM * W) :=
  match rs with
  | [] => ([], st)
  | r :: rs' =>
      let '(res, st1, t) := handle r st in
      let '(l, st2) := run rs' st1 in ((r, res, t) :: l, st2)
  end.

(** The blocks stored by the accepts of a run that succeeded. *)
Definition saved_block (e : call_ev) : option Block :=
  match e with CallSaveBlock b _ _ => Some b | _ => None end.

Definition accepted_by (step : request * result gerr () * list call_ev) : list Block :=
  match step with
  | (RBlockAccept _, Ok _, t) => omap saved_block t
  | _ => []
  end.

Definition accepted (l : list (request * result gerr () * list call_ev)) : list Block :=
  concat (accepted_by <$> l).
End handlers.
