(* ===== verification/VMProps.v ===== *)
(** * Theorems about the VM

    A small program logic for the handlers of [VM] (triples on the VM's own
    state), the invariant of the block caches, the chain of accepted blocks,
    and what the individual handlers do. *)

From S2P Require Import Prelude LinkedHashmap Caches CometBFT Executor WrappedBlocks VM.

Section logic.
Context {W : Type}.
#[local] Notation M := (GoM call_ev (VM * W)).

(** From a VM satisfying [P], [m] ends in one satisfying [Q] of its result, or
    [E] if it fails. *)
Definition triple {A} (P : VM → Prop) (m : M A) (Q : A → VM → Prop) (E : VM → Prop) : Prop :=
  ∀ vm w, P vm →
    match m (vm, w) with
    | (Ok a, (vm', _), _) => Q a vm'
    | (Err _, (vm', _), _) => E vm'
    end.

Lemma t_conseq {A} (P P' : VM → Prop) (m : M A) (Q Q' : A → VM → Prop) (E E' : VM → Prop) :
  triple P m Q E → (∀ vm, P' vm → P vm) → (∀ a vm, Q a vm → Q' a vm) →
  (∀ vm, E vm → E' vm) → triple P' m Q' E'.
Proof.
  intros Ht HP HQ HE vm w Hvm. specialize (Ht vm w (HP _ Hvm)).
  destruct (m (vm, w)) as [[[a|e] [vm' w']] t]; auto.
Qed.

Lemma t_bind {A B} P (m : M A) Q (f : A → M B) R E :
  triple P m Q E → (∀ a, triple (Q a) (f a) R E) → triple P (m ≫= f) R E.
Proof.
  intros Hm Hf vm w Hvm. specialize (Hm vm w Hvm).
  unfold mbind, GoM_bind. destruct (m (vm, w)) as [[[a|e] [vm1 w1]] t1]; [|done].
  specialize (Hf a vm1 w1 Hm). by destruct (f a (vm1, w1)) as [[[b|e] [vm2 w2]] t2].
Qed.

Lemma t_ret {A} (a : A) (P : VM → Prop) E : triple P (mret a) (λ a' vm, a' = a ∧ P vm) E.
Proof. by intros vm w Hvm. Qed.

Lemma t_throw {A} e (P : VM → Prop) (Q : A → VM → Prop) : triple P (throw e) Q P.
Proof. by intros vm w Hvm. Qed.

Lemma t_ofR {A} (r : result gerr A) (P : VM → Prop) :
  triple P (ofR r) (λ a vm, r = Ok a ∧ P vm) P.
Proof. intros vm w Hvm. by destruct r. Qed.

Lemma t_lift {A} (m : GoM call_ev W A) (P : VM → Prop) :
  triple P (lift m) (λ a vm, (∃ w w' t, m w = (Ok a, w', t)) ∧ P vm) P.
Proof.
  intros vm w Hvm. unfold lift. destruct (m w) as [[[a|e] w'] t] eqn:E; [|done]. eauto.
Qed.

Lemma t_gets {A} (f : VM → A) (P : VM → Prop) E :
  triple P (gets f) (λ a vm, a = f vm ∧ P vm) E.
Proof. by intros vm w Hvm. Qed.

Lemma t_modify f (P Q : VM → Prop) E :
  (∀ vm, P vm → Q (f vm)) → triple P (modify f) (λ _, Q) E.
Proof. intros Hf vm w Hvm. simpl. auto. Qed.

Lemma t_blocks_op {A} (f : Storage → A * Storage) (P : VM → Prop) (Q : A → VM → Prop) E :
  (∀ vm, P vm → Q (f (vm_blocks vm)).1 (set_blocks (f (vm_blocks vm)).2 vm)) →
  triple P (blocks_op f) Q E.
Proof.
  intros Hf vm w Hvm. specialize (Hf vm Hvm). unfold blocks_op.
  by destruct (f (vm_blocks vm)).
Qed.

Lemma t_deref p (P : VM → Prop) :
  triple P (deref p) (λ wb vm, objs (vm_blocks vm) !! p = Some wb ∧ P vm) P.
Proof.
  intros vm w Hvm. unfold deref. by destruct (objs (vm_blocks vm) !! p) eqn:E.
Qed.

Lemma t_pure {A} (φ : Prop) P (m : M A) Q E :
  (φ → triple P m Q E) → triple (λ vm, φ ∧ P vm) m Q E.
Proof. intros Hm vm w [Hφ Hvm]. by apply Hm. Qed.

Lemma t_frame {A} (φ : Prop) P (m : M A) Q E :
  triple P m Q E → triple (λ vm, P vm ∧ φ) m (λ a vm, Q a vm ∧ φ) E.
Proof.
  intros Hm vm w [Hvm Hφ]. specialize (Hm vm w Hvm).
  by destruct (m (vm, w)) as [[[a|e] [vm' w']] t].
Qed.

Lemma t_done {A} (a : A) (P : VM → Prop) (Q : A → VM → Prop) E :
  (∀ vm, P vm → Q a vm) → triple P (mret a) Q E.
Proof. intros HQ vm w Hvm. by apply HQ. Qed.

Lemma t_fail {A} e (P : VM → Prop) (Q : A → VM → Prop) (E : VM → Prop) :
  (∀ vm, P vm → E vm) → triple P (throw e) Q E.
Proof. intros HE vm w Hvm. by apply HE. Qed.

Lemma t_whenever {A} P P' (m : M A) Q E :
  triple P' m Q E → (∀ vm, P vm → P' vm) → triple P m Q E.
Proof. intros. by eapply t_conseq. Qed.
End logic.

Section invariant.
Context `{CometBFT} {W : Type} `{!Services W} `{!Codecs}.
Context (json_len : WrappedBlock → Z).
#[local] Notation M := (GoM call_ev (VM * W)).

(** The caches are well formed, every cached pointer is to a live object
    holding the block of that ID, decided blocks have a decided status, and
    cached IDs of byte strings are right. *)
Definition vm_inv (vm : VM) : Prop :=
  storage_inv Block_Hash DecodeBlockWithStatus (vm_blocks vm).

(** [vm_inv], with the chain state [s]. *)
Definition vm_at (s : State) (vm : VM) : Prop := vm_inv vm ∧ vm_state vm = s.

(** A documented property of the block store. *)
Definition LoadByHash_law : Prop :=
  ∀ h (w : W) b, bs_LoadBlockByHash h w = Some b → Block_Hash b = h.

Lemma t_on_blocks (f : Storage → Storage) s (P : VM → Prop) E :
  (∀ vm, P vm → vm_at s vm) →
  (∀ vm, P vm → storage_inv Block_Hash DecodeBlockWithStatus (f (vm_blocks vm))) →
  triple (W := W) P (on_blocks f) (λ _, vm_at s) E.
Proof.
  intros Hat Hf. apply t_modify. intros vm Hvm. destruct (Hat vm Hvm) as [_ Hs].
  split; [by apply Hf|done].
Qed.

Lemma t_alloc wb s E :
  triple (W := W) (vm_at s) (blocks_op (alloc wb))
    (λ p vm, vm_at s vm ∧ objs (vm_blocks vm) !! p = Some wb) E.
Proof.
  apply t_blocks_op. intros vm [Hi Hs].
  destruct (alloc_inv Block_Hash DecodeBlockWithStatus wb _ Hi) as (? & ? & _). done.
Qed.

Lemma t_GetCachedBlock id s E :
  triple (W := W) (vm_at s) (blocks_op (GetCachedBlock id))
    (λ r vm, vm_at s vm ∧ ∀ p, r = Some p →
       ∃ wb, objs (vm_blocks vm) !! p = Some wb ∧ Block_Hash (wb_Block wb) = id) E.
Proof.
  apply t_blocks_op. intros vm [Hi Hs].
  pose proof (GetCachedBlock_spec Block_Hash DecodeBlockWithStatus id _ Hi) as Hg.
  destruct (GetCachedBlock id (vm_blocks vm)) as [r b].
  destruct Hg as (Hi' & _ & Ho & _ & _ & _ & _ & _ & _ & Hp). simpl. rewrite Ho. done.
Qed.

(** Caching an object by its status keeps the invariant. *)
Lemma t_cache_by_status id p wb s :
  Block_Hash (wb_Block wb) = id →
  triple (W := W) (λ vm, vm_at s vm ∧ objs (vm_blocks vm) !! p = Some wb)
    (cache_by_status json_len id p (wb_Status wb)) (λ _, vm_at s) (vm_at s).
Proof.
  intros Hh. unfold cache_by_status. destruct (wb_Status wb) eqn:Hst.
  - eapply t_whenever; [apply t_throw|by intros ? []].
  - apply t_on_blocks; [by intros ? []|]. intros vm [[Hi _] Hp].
    by eapply put_unverified_inv.
  - apply t_on_blocks; [by intros ? []|]. intros vm [[Hi _] Hp].
    eapply put_decided_inv; [done..|]. rewrite Hst. by right.
  - apply t_on_blocks; [by intros ? []|]. intros vm [[Hi _] Hp].
    eapply put_decided_inv; [done..|]. rewrite Hst. by left.
Qed.

Lemma t_evict_missing id s E :
  triple (W := W) (vm_at s) (on_blocks (evict_missing id)) (λ _, vm_at s) E.
Proof.
  apply t_on_blocks; [done|]. intros vm [Hi _]. by apply evict_missing_inv.
Qed.
(** *** Every handler keeps the invariant *)

Lemma t_parse_id bytes s :
  triple (W := W) (vm_at s) (parse_id bytes)
    (λ r vm, vm_at s vm ∧
       ∀ b st, r.2 = Some (b, st) → Block_Hash b = r.1) (vm_at s).
Proof.
  unfold parse_id. eapply (t_bind _ _ (λ _, vm_at s)).
  { apply t_blocks_op. intros vm [Hi Hs].
    destruct (get_bytes_inv Block_Hash DecodeBlockWithStatus bytes _ Hi). done. }
  intros [id|]; [by apply t_done|].
  eapply t_bind; [apply t_ofR|]. intros [b st]. apply t_pure. intros Hdec.
  eapply t_bind; [apply t_ofR|]. intros id. apply t_pure. intros [-> _]%ToID_Ok.
  eapply (t_bind _ _ (λ _, vm_at s)); [|intros _; apply t_done; naive_solver].
  apply t_on_blocks; [done|]. intros vm [Hi Hs]. by eapply put_bytes_inv.
Qed.

Lemma t_ParseBlock bytes s :
  triple (W := W) (vm_at s) (ParseBlock json_len bytes) (λ _, vm_at s) (vm_at s).
Proof.
  unfold ParseBlock. eapply t_bind; [apply t_parse_id|]. intros [id dec]. simpl.
  eapply t_bind; [apply t_frame, t_GetCachedBlock|]. intros wblk.
  eapply (t_bind _ _ (λ _, vm_at s)); [|by intros wb; apply t_done].
  destruct wblk as [p|].
  { eapply t_conseq; [apply t_deref|exact (λ _ x, x)|by intros ? ? (_ & [? _] & _)|by intros ? [[] _]]. }
  destruct dec as [[b st]|]; [|apply t_fail; by intros ? [[] _]].
  intros vm w [[Hat _] Hd]. revert vm w Hat. specialize (Hd b st eq_refl).
  enough (triple (W := W) (vm_at s) (blocks_op (alloc (mkWrappedBlock b st)) ≫= λ p,
    cache_by_status json_len id p st ≫= λ _, on_blocks (evict_missing id) ≫= λ _,
    mret (mkWrappedBlock b st)) (λ _, vm_at s) (vm_at s)) as Ht by exact Ht.
  eapply t_bind; [apply t_alloc|]. intros p.
  eapply t_bind; [by apply (t_cache_by_status id p (mkWrappedBlock b st) s)|]. intros [].
  eapply t_bind; [apply t_evict_missing|]. intros []. by apply t_done.
Qed.

Lemma t_BatchedParseBlock reqs s :
  triple (W := W) (vm_at s) (BatchedParseBlock json_len reqs) (λ _, vm_at s) (vm_at s).
Proof.
  induction reqs as [|bs reqs IH]; simpl; [by apply t_done|].
  eapply t_bind; [apply t_ParseBlock|]. intros r.
  eapply t_bind; [apply IH|]. intros rs. by apply t_done.
Qed.

Lemma t_find_block id s :
  LoadByHash_law →
  triple (W := W) (vm_at s) (find_block id id)
    (λ r vm, vm_at s vm ∧ ∀ p, r = Some p →
       ∃ wb, objs (vm_blocks vm) !! p = Some wb ∧ Block_Hash (wb_Block wb) = id) (vm_at s).
Proof.
  intros Hlaw. unfold find_block. eapply t_bind; [apply t_GetCachedBlock|].
  intros [p|]; [by apply t_done|].
  eapply (t_bind _ _ (λ _, vm_at s)).
  { apply t_blocks_op. intros vm [[Hi Hs] _].
    by destruct (get_missing_inv Block_Hash DecodeBlockWithStatus id _ Hi). }
  intros [|]; [apply t_done; naive_solver|].
  eapply t_bind; [apply t_lift|]. intros [b|]; apply t_pure.
  - intros (w0 & w1 & t0 & Hcall). apply call_inv in Hcall as [_ [= Hl _]].
    apply Hlaw in Hl. eapply t_bind; [apply t_alloc|]. intros p. apply t_done. naive_solver.
  - intros _. eapply (t_bind _ _ (λ _, vm_at s)); [|intros _; apply t_done; naive_solver].
    apply t_on_blocks; [done|]. intros vm [Hi _]. by apply put_missing_inv.
Qed.

(** Dereferencing a pointer known to be consistent. *)
Lemma t_deref_at p id s :
  triple (W := W)
    (λ vm, vm_at s vm ∧ ∃ wb, objs (vm_blocks vm) !! p = Some wb ∧ Block_Hash (wb_Block wb) = id)
    (deref p)
    (λ wb vm, Block_Hash (wb_Block wb) = id ∧ vm_at s vm ∧ objs (vm_blocks vm) !! p = Some wb)
    (vm_at s).
Proof.
  eapply t_conseq; [apply t_deref|exact (λ _ x, x)| |by intros ? []].
  intros wb vm (Hp & Hat & wb' & Hp' & Hh). naive_solver.
Qed.

Lemma t_GetBlock rid s :
  LoadByHash_law →
  triple (W := W) (vm_at s) (GetBlock json_len rid) (λ _, vm_at s) (vm_at s).
Proof.
  intros Hlaw. unfold GetBlock. eapply t_bind; [apply t_ofR|]. intros id.
  apply t_pure. intros [-> _]%ToID_Ok.
  eapply t_bind; [by apply t_find_block|]. intros [p|]; [|apply t_done; naive_solver].
  eapply t_bind; [eapply t_whenever; [apply (t_deref_at p rid s)|naive_solver]|].
  intros wb. apply t_pure. intros Hh.
  eapply t_bind; [by apply t_cache_by_status|]. intros [].
  eapply t_bind; [apply t_ofR|]. intros bs. apply t_done. naive_solver.
Qed.

Lemma t_BuildBlock now rnd s :
  triple (W := W) (vm_at s) (BuildBlock json_len now rnd) (λ _, vm_at s) (vm_at s).
Proof.
  unfold BuildBlock. eapply t_bind; [apply t_gets|]. intros vm.
  apply (t_whenever _ (vm_at s)); [|by intros ? []].
  eapply t_bind; [apply t_lift|]. intros blk. apply t_pure. intros _.
  eapply t_bind; [apply t_ofR|]. intros bytes. apply t_pure. intros _.
  eapply t_bind; [apply t_ofR|]. intros id. apply t_pure. intros [-> _]%ToID_Ok.
  eapply t_bind; [apply t_alloc|]. intros p.
  eapply t_bind; [by apply (t_cache_by_status _ p (mkWrappedBlock blk STATUS_PROCESSING) s)|].
  intros []. eapply t_bind; [apply t_evict_missing|]. intros []. by apply t_done.
Qed.

Lemma t_BlockVerify bytes s :
  triple (W := W) (vm_at s) (BlockVerify json_len bytes) (λ _, vm_at s) (vm_at s).
Proof.
  unfold BlockVerify. eapply t_bind; [apply t_ofR|]. intros [blk st]. apply t_pure. intros _.
  eapply t_bind; [apply t_gets|]. intros state.
  apply (t_whenever _ (vm_at s)); [|by intros ? []].
  eapply t_bind; [apply t_ofR|]. intros u. apply t_pure. intros _.
  eapply t_bind; [apply t_ofR|]. intros id. apply t_pure. intros [-> _]%ToID_Ok.
  eapply (t_bind _ _ (λ _, vm_at s)).
  { apply t_on_blocks; [done|]. intros vm [Hi _]. by apply evict_unverified_inv. }
  intros _. eapply t_bind; [apply t_alloc|]. intros p.
  eapply (t_bind _ _ (λ _, vm_at s)); [|intros _; by apply t_done].
  apply t_on_blocks; [by intros ? []|]. intros vm [[Hi _] Hp].
  by eapply insert_verified_inv.
Qed.

Lemma t_BlockReject rid s :
  triple (W := W) (vm_at s) (BlockReject json_len rid) (λ _, vm_at s) (vm_at s).
Proof.
  unfold BlockReject. eapply t_bind; [apply t_ofR|]. intros id.
  apply t_pure. intros [-> _]%ToID_Ok.
  eapply t_bind; [apply t_GetCachedBlock|]. intros [p|]; [|apply t_fail; naive_solver].
  eapply t_bind; [eapply t_whenever; [apply (t_deref_at p rid s)|naive_solver]|].
  intros wb. apply t_pure. intros Hh.
  set (wb' := mkWrappedBlock (wb_Block wb) STATUS_REJECTED).
  eapply (t_bind _ _ (λ _ vm, vm_at s vm ∧ objs (vm_blocks vm) !! p = Some wb')).
  { apply t_modify. intros vm [[Hi Hs] Hp]. split.
    - split; [by apply reject_inv|done].
    - simpl. by rewrite lookup_insert_eq. }
  intros _. eapply (t_bind _ _ (λ _ vm, vm_at s vm ∧ objs (vm_blocks vm) !! p = Some wb')).
  { apply t_modify. intros vm [[Hi Hs] Hp]. split; [|done].
    split; [by apply delete_verified_inv|done]. }
  intros _. by apply (t_cache_by_status rid p wb' s).
Qed.

(** A failing accept leaves the chain state as it was. *)
Lemma t_BlockAccept rid s :
  triple (W := W) (vm_at s) (BlockAccept json_len rid) (λ _, vm_inv) (vm_at s).
Proof.
  unfold BlockAccept. eapply t_bind; [apply t_ofR|]. intros id.
  apply t_pure. intros [-> _]%ToID_Ok.
  eapply t_bind; [apply t_GetCachedBlock|]. intros [p|]; [|apply t_fail; naive_solver].
  eapply t_bind; [eapply t_whenever; [apply (t_deref_at p rid s)|naive_solver]|].
  intros wb. apply t_pure. intros Hh. apply (t_whenever _ (vm_at s)); [|by intros ? []].
  eapply t_bind; [apply t_gets|]. intros vm.
  apply (t_whenever _ (vm_at s)); [|by intros ? []].
  eapply t_bind; [apply t_ofR|]. intros bid. apply t_pure. intros _.
  eapply t_bind; [apply t_lift|]. intros s'. apply t_pure. intros _.
  eapply t_bind; [apply t_lift|]. intros u1. apply t_pure. intros _.
  eapply t_bind; [apply t_lift|]. intros u2. apply t_pure. intros _.
  eapply (t_bind _ _ (λ _, vm_at s')); [apply t_modify; by intros ? []|]. intros _.
  eapply (t_bind _ _ (λ _, vm_at s')).
  { apply t_on_blocks; [done|]. intros ? [Hi _]. by apply delete_verified_inv. }
  intros _. eapply t_bind; [apply t_evict_missing|]. intros [].
  eapply (t_bind _ _ (λ _, vm_at s')).
  { apply t_on_blocks; [done|]. intros ? [Hi _]. by apply evict_unverified_inv. }
  intros _. eapply t_bind; [apply t_alloc|]. intros q.
  apply t_modify. intros vm' [[Hi _] Hp].
  eapply put_decided_inv; [done|done|done|]. by left.
Qed.

Context (State_Bytes : State → list Z).

Lemma t_SetState st s :
  triple (W := W) (vm_at s) (SetState State_Bytes st) (λ _, vm_at s) (vm_at s).
Proof.
  unfold SetState. eapply (t_bind _ _ (λ _, vm_at s)).
  { destruct st; first [by apply t_modify|by apply t_fail]. }
  intros _. eapply t_bind; [apply t_gets|]. intros state.
  apply (t_whenever _ (vm_at s)); [|by intros ? []].
  eapply t_bind; [apply t_lift|]. intros [blk|]; apply t_pure; intros _; [|by apply t_fail].
  eapply t_bind; [apply t_ofR|]. intros ph. apply t_pure. intros _.
  eapply (t_bind _ _ (λ _, vm_at s)); [by apply t_modify|]. intros _. by apply t_done.
Qed.

Lemma t_Shutdown stops s :
  triple (W := W) (vm_at s) (Shutdown stops) (λ _, vm_at s) (vm_at s).
Proof.
  unfold Shutdown. eapply t_bind; [apply t_gets|]. intros closed.
  apply (t_whenever _ (vm_at s)); [|by intros ? []].
  eapply (t_bind _ _ (λ _, vm_at s)).
  { destruct closed as [[|]|]; [|by apply t_modify|by apply t_modify].
    eapply (t_bind _ _ (λ _, vm_at s)); [by apply t_modify|]. intros _. by apply t_fail. }
  intros _. destruct (omap id stops); [by apply t_done|by apply t_fail].
Qed.

Lemma t_unit {A} (m : M A) s :
  triple (vm_at s) m (λ _, vm_at s) (vm_at s) →
  triple (vm_at s) (m ≫= λ _, mret ()) (λ _, vm_at s) (vm_at s).
Proof. intros Hm. eapply t_bind; [done|]. intros a. by apply t_done. Qed.

(** Only an accept changes the chain state, and only when it succeeds. *)
Lemma handle_at r s :
  LoadByHash_law →
  (∀ id, r ≠ RBlockAccept id) →
  triple (W := W) (vm_at s) (handle json_len State_Bytes r) (λ _, vm_at s) (vm_at s).
Proof.
  intros Hlaw Hna. destruct r; simpl.
  - apply t_unit, t_SetState.
  - by apply t_modify.
  - by apply t_modify.
  - apply t_Shutdown.
  - apply t_unit, t_BuildBlock.
  - apply t_unit, t_ParseBlock.
  - apply t_unit, t_BatchedParseBlock.
  - by apply t_unit, t_GetBlock.
  - unfold SetPreference. case_bool_decide; [by apply t_fail|by apply t_modify].
  - apply t_unit. unfold GetBlockIDAtHeight, LoadBlock.
    eapply t_bind; [apply t_lift|]. intros blk. apply t_pure. intros _. by apply t_done.
  - apply t_unit, t_BlockVerify.
  - by destruct (Hna id).
  - apply t_BlockReject.
Qed.

Lemma handle_inv r vm w res vm' w' t :
  LoadByHash_law → vm_inv vm →
  handle json_len State_Bytes r (vm, w) = (res, (vm', w'), t) →
  vm_inv vm' ∧
  (vm_state vm' = vm_state vm ∨ ∃ id, r = RBlockAccept id ∧ res = Ok ()).
Proof.
  intros Hlaw Hi Hrun. assert ((∃ id, r = RBlockAccept id) ∨ ¬ ∃ id, r = RBlockAccept id) as [[id ->]|Hna]
    by (destruct r; naive_solver).
  - pose proof (t_BlockAccept id (vm_state vm) vm w (conj Hi eq_refl)) as Ht.
    simpl in Hrun. rewrite Hrun in Ht. destruct res as [[]|e]; [eauto|].
    destruct Ht. auto.
  - assert (∀ id, r ≠ RBlockAccept id) as Hna' by naive_solver.
    pose proof (handle_at r (vm_state vm) Hlaw Hna' vm w (conj Hi eq_refl)) as Ht.
    rewrite Hrun in Ht. destruct res as [[]|e]; destruct Ht; auto.
Qed.

(** *** A successful accept *)

Lemma lift_inv {A} (m : GoM call_ev W A) vm w r vm' w' t :
  lift m (vm, w) = (r, (vm', w'), t) → vm' = vm ∧ m w = (r, w', t).
Proof. unfold lift. destruct (m w) as [[r1 w1] t1]. naive_solver. Qed.

(** No block is saved by the executor itself. *)
Lemma run_phase_no_save p t p' : run_phase p t = Some p' → omap saved_block t = [].
Proof.
  revert p. induction t as [|e t IH]; intros p Hr; [done|]. simpl in Hr.
  destruct (next_phase p e) as [p1|] eqn:E; [|done]. csimpl.
  destruct e; try (by eapply IH). by destruct p as [| | | | | | | |[]| |].
Qed.

(** The caches after a successful accept of [blk]. *)
Definition after_accept (rid : list Z) (blk : Block) (b : Storage) : Storage :=
  let b := evict_unverified json_len rid (evict_missing rid (set_verified (delete rid) b)) in
  let '(q, b) := alloc (mkWrappedBlock blk STATUS_ACCEPTED) b in
  put_decided json_len rid q b.

Lemma BlockAccept_Ok rid vm w vm' w' t :
  vm_inv vm →
  BlockAccept json_len rid (vm, w) = (Ok (), (vm', w'), t) →
  ∃ p wb blockID w1 t1 c,
    cached rid (vm_blocks vm) = Some p ∧ objs (vm_blocks vm) !! p = Some wb ∧
    Block_Hash (wb_Block wb) = rid ∧ accept_id (wb_Block wb) = Ok blockID ∧
    ApplyBlock (executor vm) (vm_state vm) blockID (wb_Block wb) w
      = (Ok (vm_state vm'), w1, t1) ∧
    t = t1 ++ [CallSaveBlock (wb_Block wb) (bid_PartSetHeader blockID) c;
               CallSaveState (vm_state vm')] ∧
    store_Save (vm_state vm') (bs_SaveBlock (wb_Block wb) (bid_PartSetHeader blockID) c w1)
      = (Ok (), w') ∧
    vm_blocks vm' = after_accept rid (wb_Block wb) (GetCachedBlock rid (vm_blocks vm)).2.
Proof.
  intros Hi Hrun. unfold BlockAccept in Hrun.
  go_next Hrun. apply ofR_inv in Hm as (Hid & -> & ->). symmetry in Hid.
  apply ToID_Ok in Hid as [-> _].
  go_next Hrun.
  pose proof (GetCachedBlock_spec Block_Hash DecodeBlockWithStatus rid _ Hi) as Hg.
  unfold blocks_op in Hm. destruct (GetCachedBlock rid (vm_blocks vm)) as [r b].
  destruct Hg as (_ & Hr & Ho & _ & _ & _ & _ & _ & _ & Hp). simplify_eq.
  destruct (cached rid (vm_blocks vm)) as [p|] eqn:Hc; [|done].
  destruct (Hp p eq_refl) as (wb & Hwb & Hh).
  go_next Hrun. unfold deref in Hm. simpl in Hm. rewrite Ho, Hwb in Hm. simplify_eq.
  go_next Hrun. unfold gets in Hm. simplify_eq.
  go_next Hrun. apply ofR_inv in Hm as (Haid & -> & ->). symmetry in Haid.
  go_next Hrun. destruct s1 as [vm1 w1]. apply lift_inv in Hm as [-> Happ].
  go_next Hrun. destruct s1 as [vm2 w2]. apply lift_inv in Hm as [-> Hsb].
  apply call_inv in Hsb as [-> Hsb].
  go_next Hrun. destruct s1 as [vm3 w3]. apply lift_inv in Hm as [-> Hss].
  apply call_inv in Hss as [-> Hss]. simplify_eq.
  unfold on_blocks, modify, blocks_op in Hrun.
  do 5 (go_next Hrun; simpl in Hm; simplify_eq). simpl in *.
  destruct a3. by do 7 eexists.
Qed.

(** ** Runs *)

Lemma New_vm_inv s cfg : vm_inv (NewViaDB s cfg).
Proof. apply New_storage_inv. Qed.

(** From chain state [s], the blocks [l] lead to [s']: each was valid in the
    state before it, which moved to the block's height, time and ID. *)
Inductive chain : State → list Block → State → Prop :=
| chain_nil s : chain s [] s
| chain_cons s b id s1 l s2 :
    ValidateBlock s b = Ok () → accept_id b = Ok id →
    s_LastBlockHeight s1 = h_Height (b_Header b) →
    s_LastBlockTime s1 = h_Time (b_Header b) → s_LastBlockID s1 = id →
    s_InitialHeight s1 = s_InitialHeight s → s_ChainID s1 = s_ChainID s →
    s_Validators s1 = s_NextValidators s →
    chain s1 l s2 → chain s (b :: l) s2.

Lemma accept_chain rid vm w vm' w' t :
  vm_inv vm →
  BlockAccept json_len rid (vm, w) = (Ok (), (vm', w'), t) →
  ∃ b, omap saved_block t = [b] ∧ Block_Hash b = rid ∧
       ∀ l s2, chain (vm_state vm') l s2 → chain (vm_state vm) (b :: l) s2.
Proof.
  intros Hi Hrun. destruct (BlockAccept_Ok _ _ _ _ _ _ Hi Hrun)
    as (p & wb & bid & w1 & t1 & c & _ & _ & Hh & Hid & Happ & -> & _).
  exists (wb_Block wb). split_and!; [|done|].
  - rewrite omap_app. csimpl. apply apply_phase in Happ as (ph & Hph & _).
    by rewrite (run_phase_no_save _ _ _ Hph).
  - intros l s2 Hl. apply apply_Ok in Happ as (resp & vals & ? & ? & ? & ? & s1 & Ha).
    destruct Ha. destruct (updateState_Ok _ _ _ _ _ _ ap_update)
      as (? & ? & ? & ? & ? & ? & ? & ?).
    eapply (chain_cons _ _ bid); [done|done| | | | | | |exact Hl]; by rewrite ap_state.
Qed.

Lemma run_spec rs vm w :
  LoadByHash_law → vm_inv vm →
  let '(l, (vm', _)) := run json_len State_Bytes rs (vm, w) in
  vm_inv vm' ∧ chain (vm_state vm) (accepted l) (vm_state vm').
Proof.
  intros Hlaw. revert vm w. induction rs as [|r rs IH]; intros vm w Hi; simpl.
  { split; [done|constructor]. }
  destruct (handle json_len State_Bytes r (vm, w)) as [[res [vm1 w1]] t] eqn:Hh.
  destruct (handle_inv _ _ _ _ _ _ _ Hlaw Hi Hh) as [Hi1 Hs].
  specialize (IH vm1 w1 Hi1).
  destruct (run json_len State_Bytes rs (vm1, w1)) as [l [vm2 w2]].
  destruct IH as [Hi2 Hch]. split; [done|]. unfold accepted. csimpl.
  assert (vm_state vm1 = vm_state vm → accepted_by (r, res, t) = [] →
    chain (vm_state vm) (accepted_by (r, res, t) ++ concat (accepted_by <$> l)) (vm_state vm2))
    as Hsame by (intros <- ->; done).
  destruct r; simpl in Hs |- *;
    try (apply Hsame; [destruct Hs as [?|(? & ? & ?)]; done|done]).
  destruct res as [[]|e]; [|apply Hsame; [destruct Hs as [?|(? & ? & ?)]; done|done]].
  destruct (accept_chain _ _ _ _ _ _ Hi Hh) as (b & -> & _ & Hcons).
  by apply Hcons.
Qed.

(** Consecutive blocks of a chain are linked. *)
Lemma chain_linked s l s' i b b' :
  chain s l s' → l !! i = Some b → l !! S i = Some b' →
  (0 < h_Height (b_Header b))%Z →
  ∃ id, accept_id b = Ok id ∧ BlockID_Equals (h_LastBlockID (b_Header b')) id = true ∧
    h_Height (b_Header b') = add64 (h_Height (b_Header b)) 1 ∧
    (h_Time (b_Header b) ≤ h_Time (b_Header b'))%Z.
Proof.
  intros Hc. revert i. induction Hc as [|s b0 id s1 l s2 Hv Hid Hh Ht Hl Hi Hch Hvs Hc IH];
    [done|]. intros [|i] Hb Hb' Hpos; [|by eapply IH].
  simpl in Hb, Hb'. simplify_eq.
  destruct Hc as [|s1 b1 id1 s2 l s3 Hv1 _ _ _ _ _ _ _ _]; [done|]. simpl in Hb'. simplify_eq.
  exists (s_LastBlockID s1). destruct (ValidateBlock_facts _ _ Hv1) as (Hn & Hlast & Htm).
  rewrite <-Hh, <-Ht. split_and!; [by rewrite Hid|done|apply Hn; lia|done].
Qed.

(** C1: the blocks a VM accepts form one chain.  Whatever sequence of requests
    it gets (builds, parses, verifications, accepts, rejections, in any order,
    failing or not), the blocks stored by its successful accepts are linked:
    each next block names its predecessor's ID, has the next height and a
    time not before it; and the VM's chain state is the one the last accepted
    block led to. *)
Theorem accepted_blocks_form_chain (s : State) (cfg : VMConfig) (w : W)
    (rs : list request) (Hlaw : LoadByHash_law) :
  let '(l, (vm', _)) := run json_len State_Bytes rs (NewViaDB s cfg, w) in
  chain s (accepted l) (vm_state vm') ∧
  (∀ i b b', accepted l !! i = Some b → accepted l !! S i = Some b' →
     (0 < h_Height (b_Header b))%Z →
     ∃ id, accept_id b = Ok id ∧ BlockID_Equals (h_LastBlockID (b_Header b')) id = true ∧
       h_Height (b_Header b') = add64 (h_Height (b_Header b)) 1 ∧
       (h_Time (b_Header b) ≤ h_Time (b_Header b'))%Z).
Proof.
  pose proof (run_spec rs (NewViaDB s cfg) w Hlaw (New_vm_inv s cfg)) as Hrun.
  destruct (run json_len State_Bytes rs (NewViaDB s cfg, w)) as [l [vm' w']].
  destruct Hrun as [_ Hc]. split; [done|]. intros. by eapply chain_linked.
Qed.

(** C2: the block caches stay consistent.  After any sequence of requests, every
    cached pointer is to a live object that holds the block with that very
    hash, blocks in the decided cache are accepted or rejected, the cached ID
    of a byte string is the hash of the block it decodes to, and all caches
    are well formed. *)
Theorem caches_stay_consistent (s : State) (cfg : VMConfig) (w : W) (rs : list request)
    (Hlaw : LoadByHash_law) :
  storage_inv Block_Hash DecodeBlockWithStatus
    (vm_blocks (run json_len State_Bytes rs (NewViaDB s cfg, w)).2.1).
Proof.
  pose proof (run_spec rs (NewViaDB s cfg) w Hlaw (New_vm_inv s cfg)) as Hrun.
  destruct (run json_len State_Bytes rs (NewViaDB s cfg, w)) as [l [vm' w']].
  by destruct Hrun.
Qed.

(** ** Individual handlers *)

(** C8: [BlockVerify] calls no service and does not change the chain state; it
    succeeds only on bytes that decode to a block valid in the current chain
    state, and then the block is the one [GetCachedBlock] returns for its
    hash, so that the next accept of that ID applies exactly it. *)
Theorem verify_caches_valid_block (bytes : list Z) (vm vm' : VM) (w w' : W) (time : Z)
    (t : list call_ev) (Hi : vm_inv vm)
    (Hrun : BlockVerify json_len bytes (vm, w) = (Ok time, (vm', w'), t)) :
  t = [] ∧ w' = w ∧ vm_state vm' = vm_state vm ∧
  ∃ blk st p,
    DecodeBlockWithStatus bytes = Ok (blk, st) ∧
    ValidateBlock (vm_state vm) blk = Ok () ∧ time = h_Time (b_Header blk) ∧
    cached (Block_Hash blk) (vm_blocks vm') = Some p ∧
    objs (vm_blocks vm') !! p = Some (mkWrappedBlock blk st).
Proof.
  unfold BlockVerify in Hrun. go_next Hrun. apply ofR_inv in Hm as (Hdec & -> & ->).
  destruct a as [blk st]. go_next Hrun. unfold gets in Hm. simplify_eq.
  go_next Hrun. apply ofR_inv in Hm as (Hval & -> & ->). destruct a.
  go_next Hrun. apply ofR_inv in Hm as (Hid & -> & ->). symmetry in Hid.
  apply ToID_Ok in Hid as [-> _]. unfold on_blocks, modify, blocks_op in Hrun.
  do 3 (go_next Hrun; simpl in Hm; simplify_eq). unfold mret, GoM_ret in Hrun. simplify_eq.
  split_and!; try done. exists blk, st, (fresh_obj (vm_blocks vm)).
  unfold cached. simpl. rewrite !lookup_insert_eq. done.
Qed.

(** C7: a failed [BlockAccept] leaves the VM as it was: the chain state, the
    objects and what every ID resolves to are unchanged, at whatever point
    the execution or one of the stores failed. *)
Theorem accept_error_keeps_vm (rid : list Z) (vm vm' : VM) (w w' : W) (e : gerr)
    (t : list call_ev) (Hi : vm_inv vm)
    (Hrun : BlockAccept json_len rid (vm, w) = (Err e, (vm', w'), t)) :
  vm_state vm' = vm_state vm ∧ objs (vm_blocks vm') = objs (vm_blocks vm) ∧
  ∀ id, cached id (vm_blocks vm') = cached id (vm_blocks vm).
Proof.
  unfold BlockAccept in Hrun. go_fail Hrun.
  { by apply ofR_inv in Hm as (_ & [= -> ->] & _). }
  apply ofR_inv in Hm as (_ & -> & _).
  assert (∀ vm1 w1 t1 r, blocks_op (GetCachedBlock a) (vm, w) = (r, (vm1, w1), t1) →
    w1 = w ∧ t1 = [] ∧ vm_state vm1 = vm_state vm ∧ objs (vm_blocks vm1) = objs (vm_blocks vm) ∧
    ∀ id, cached id (vm_blocks vm1) = cached id (vm_blocks vm)) as Hget.
  { intros vm1 w1 t3 r Hb. unfold blocks_op in Hb.
    pose proof (GetCachedBlock_spec Block_Hash DecodeBlockWithStatus a _ Hi) as Hg.
    destruct (GetCachedBlock a (vm_blocks vm)) as [r1 b]. simplify_eq.
    destruct Hg as (_ & _ & Ho & _ & Hv & Hd & Hu & _). simpl.
    split_and!; try done. intros id. unfold cached. by rewrite Hv, Hd, Hu. }
  go_fail Hrun; [by destruct (Hget _ _ _ _ Hm) as (_ & _ & ?)|].
  destruct s1 as [vm1 w1]. destruct (Hget _ _ _ _ Hm) as (-> & -> & Hs & Ho & Hc).
  clear Hget Hm. enough (vm' = vm1) as -> by done.
  destruct a0 as [p|]; [|by unfold throw in Hrun; simplify_eq].
  go_fail Hrun; unfold deref in Hm; destruct (objs (vm_blocks vm1) !! p);
    simplify_eq; [done|].
  go_fail Hrun; unfold gets in Hm; simplify_eq.
  go_fail Hrun; [by apply ofR_inv in Hm as (_ & [= -> ->] & _)|].
  apply ofR_inv in Hm as (_ & -> & _).
  go_fail Hrun; [by apply lift_inv in Hm as [-> _]|].
  destruct s1 as [vm2 w2]. apply lift_inv in Hm as [-> _].
  go_fail Hrun; [by apply lift_inv in Hm as [-> _]|].
  destruct s1 as [vm3 w3]. apply lift_inv in Hm as [-> _].
  go_fail Hrun; [by apply lift_inv in Hm as [-> _]|].
  destruct s1 as [vm4 w4]. apply lift_inv in Hm as [-> _].
  unfold on_blocks, modify, blocks_op in Hrun.
  do 5 (go_fail Hrun; [by simpl in Hm; simplify_eq|simpl in Hm; simplify_eq]).
Qed.

(** *** [GetBlock] *)

Definition found (blk : Block) (bs : list Z) (st : Status) : GetBlockResponse :=
  GetBlockFound (bid_Hash (h_LastBlockID (b_Header blk))) bs st
    (uint64 (h_Height (b_Header blk))) (h_Time (b_Header blk)).

(** The part of [GetBlock] after the block was found. *)
Lemma GetBlock_found rid vm w vm1 w1 t1 p wb bs :
  length rid = IDLen →
  find_block rid rid (vm, w) = (Ok (Some p), (vm1, w1), t1) →
  objs (vm_blocks vm1) !! p = Some wb → wb_Status wb ≠ STATUS_UNSPECIFIED →
  EncodeBlockWithStatus (wb_Block wb) (wb_Status wb) = Ok bs →
  ∃ st2, GetBlock json_len rid (vm, w) = (Ok (found (wb_Block wb) bs (wb_Status wb)), st2, t1).
Proof.
  intros Hlen Hfind Hp Hst Henc. unfold GetBlock, ToID. rewrite bool_decide_eq_true_2 by done.
  unfold mbind, GoM_bind, ofR. rewrite Hfind. unfold deref. rewrite Hp. simpl.
  unfold cache_by_status, on_blocks, modify.
  destruct (wb_Status wb) eqn:E; [done|..]; rewrite Henc; eexists; by rewrite app_nil_r.
Qed.

Lemma find_block_cached rid vm w p :
  vm_inv vm → cached rid (vm_blocks vm) = Some p →
  ∃ vm1, find_block rid rid (vm, w) = (Ok (Some p), (vm1, w), []) ∧
         objs (vm_blocks vm1) = objs (vm_blocks vm).
Proof.
  intros Hi Hc. pose proof (GetCachedBlock_spec Block_Hash DecodeBlockWithStatus rid _ Hi) as Hg.
  unfold find_block, mbind, GoM_bind, blocks_op.
  destruct (GetCachedBlock rid (vm_blocks vm)) as [r b].
  destruct Hg as (_ & -> & Ho & _). rewrite Hc. eexists. by split.
Qed.

Lemma find_block_stored rid vm w b :
  vm_inv vm → cached rid (vm_blocks vm) = None → mmap (MissingBlocks (vm_blocks vm)) !! rid = None →
  bs_LoadBlockByHash rid w = Some b →
  ∃ vm1 p t, find_block rid rid (vm, w) = (Ok (Some p), (vm1, w), t) ∧
             objs (vm_blocks vm1) !! p = Some (mkWrappedBlock b STATUS_ACCEPTED).
Proof.
  intros Hi Hc Hmiss Hl.
  pose proof (GetCachedBlock_spec Block_Hash DecodeBlockWithStatus rid _ Hi) as Hg.
  unfold find_block. unfold mbind, GoM_bind, blocks_op at 1.
  destruct (GetCachedBlock rid (vm_blocks vm)) as [r s1].
  destruct Hg as (Hi1 & -> & _ & _ & _ & _ & _ & Hm & _). rewrite Hc.
  destruct (get_missing_inv Block_Hash DecodeBlockWithStatus rid s1 Hi1) as [_ Hmi].
  rewrite Hm, Hmiss in Hmi. unfold blocks_op at 1. simpl.
  destruct (get_missing rid s1) as [m s2]. simpl in Hmi.
  destruct m; [by destruct (proj1 Hmi eq_refl)|].
  unfold lift, call. rewrite Hl. simpl. do 3 eexists. split; [done|]. simpl.
  by rewrite lookup_insert_eq.
Qed.

(** C6: [GetBlock] is sound in every state the VM can reach: what it returns for
    an ID is the encoding, parent, height and time of a block whose hash is
    that ID, with a status that is never unspecified. *)
Theorem get_block_sound (s : State) (cfg : VMConfig) (w0 : W) (rs : list request)
    (rid : list Z) (vm vm' : VM) (w w' : W) (parent bs : list Z) (st : Status)
    (height time : Z) (t : list call_ev) (Hlaw : LoadByHash_law)
    (Hreach : (run json_len State_Bytes rs (NewViaDB s cfg, w0)).2 = (vm, w))
    (Hrun : GetBlock json_len rid (vm, w)
              = (Ok (GetBlockFound parent bs st height time), (vm', w'), t)) :
  ∃ blk, Block_Hash blk = rid ∧ EncodeBlockWithStatus blk st = Ok bs ∧
         st ≠ STATUS_UNSPECIFIED ∧ parent = bid_Hash (h_LastBlockID (b_Header blk)) ∧
         height = uint64 (h_Height (b_Header blk)) ∧ time = h_Time (b_Header blk).
Proof.
  pose proof (run_spec rs (NewViaDB s cfg) w0 Hlaw (New_vm_inv s cfg)) as Hi.
  destruct (run json_len State_Bytes rs (NewViaDB s cfg, w0)) as [l [vm0 wx]].
  simpl in Hreach. simplify_eq. destruct Hi as [Hi _].
  unfold GetBlock in Hrun. go_next Hrun. apply ofR_inv in Hm as (Hid & -> & ->).
  symmetry in Hid. apply ToID_Ok in Hid as [-> _].
  go_next Hrun. destruct s1 as [vm1 w1].
  pose proof (t_find_block rid (vm_state vm) Hlaw vm w (conj Hi eq_refl)) as Ht.
  rewrite Hm in Ht. destruct Ht as [_ Hobj]. destruct a as [p|]; [|by go_inv].
  destruct (Hobj p eq_refl) as (wb & Hp & Hh).
  go_next Hrun. unfold deref in Hm0. rewrite Hp in Hm0. simplify_eq.
  go_next Hrun. assert (wb_Status a ≠ STATUS_UNSPECIFIED) as Hst.
  { intros E. by rewrite E in Hm0. }
  go_next Hrun. apply ofR_inv in Hm1 as (Henc & -> & ->). symmetry in Henc.
  unfold mret, GoM_ret in Hrun. simplify_eq. by exists (wb_Block a).
Qed.

(** What the block store documents: a block that was saved is found under its
    hash, also after the state is saved. *)
Definition SaveBlock_law : Prop :=
  ∀ b h c s (w w' : W), store_Save s (bs_SaveBlock b h c w) = (Ok (), w') →
    bs_LoadBlockByHash (Block_Hash b) w' = Some b.

(** What an ID resolves to after it was accepted. *)
Lemma after_accept_cached rid blk b vm' :
  vm_inv vm' → storage_inv Block_Hash DecodeBlockWithStatus b →
  vm_blocks vm' = after_accept rid blk b →
  (∃ q, cached rid (vm_blocks vm') = Some q ∧
        objs (vm_blocks vm') !! q = Some (mkWrappedBlock blk STATUS_ACCEPTED)) ∨
  (cached rid (vm_blocks vm') = None ∧ mmap (MissingBlocks (vm_blocks vm')) !! rid = None).
Proof.
  intros _ Hi ->. unfold after_accept, cached. simpl. rewrite lookup_delete_eq.
  destruct (cmap_Put (cachedBlockSize json_len
    (<[fresh_obj b:=mkWrappedBlock blk STATUS_ACCEPTED]> (objs b))) rid (fresh_obj b) _
    (si_decided_wf _ _ _ Hi)) as [_ Hsub].
  destruct (cmap_Evict (cachedBlockSize json_len (objs b)) rid _ (si_unverified_wf _ _ _ Hi))
    as [_ Hu].
  destruct (mmap_Evict rid _ (si_missing_wf _ _ _ Hi)) as [_ Hm].
  destruct (cmap (sizedLRU.Put _ rid (fresh_obj b) (DecidedBlocks b)) !! rid) as [q|] eqn:E.
  - left. exists q. split; [done|]. eapply lookup_weaken in E; [|exact Hsub].
    rewrite lookup_insert_eq in E. simplify_eq. by rewrite lookup_insert_eq.
  - right. rewrite Hu, Hm, !lookup_delete_eq. done.
Qed.

Lemma accept_get (rid : list Z) (vm vm' : VM) (w w' : W) (t : list call_ev)
    (Hi : vm_inv vm) (Hlaw : SaveBlock_law)
    (Hrun : BlockAccept json_len rid (vm, w) = (Ok (), (vm', w'), t)) :
  ∃ blk, Block_Hash blk = rid ∧ s_LastBlockHeight (vm_state vm') = h_Height (b_Header blk) ∧
    omap saved_block t = [blk] ∧
    (∃ h c s w1, store_Save s (bs_SaveBlock blk h c w1) = (Ok (), w')) ∧
    ∀ bs, EncodeBlockWithStatus blk STATUS_ACCEPTED = Ok bs →
      ∃ st2 t2, GetBlock json_len rid (vm', w') = (Ok (found blk bs STATUS_ACCEPTED), st2, t2).
Proof.
  clear State_Bytes.
  destruct (accept_chain _ _ _ _ _ _ Hi Hrun) as (b & Hsaved & Hbh & _).
  pose proof (t_BlockAccept rid (vm_state vm) vm w (conj Hi eq_refl)) as Hi'.
  rewrite Hrun in Hi'.
  destruct (BlockAccept_Ok _ _ _ _ _ _ Hi Hrun)
    as (p & wb & bid & w1 & t1 & c & _ & _ & Hh & Hid & Happ & Ht & Hsave & Hb).
  pose proof Happ as Happ'.
  apply apply_phase in Happ' as (ph & Hph & _). rewrite Ht, omap_app in Hsaved. csimpl in Hsaved.
  rewrite (run_phase_no_save _ _ _ Hph) in Hsaved. simpl in Hsaved. simplify_eq.
  exists (wb_Block wb). split_and!; [done| |by rewrite omap_app, (run_phase_no_save _ _ _ Hph)|by eauto|].
  { apply apply_Ok in Happ as (resp & vals & ? & ? & ? & ? & s1 & []). rewrite ap_state.
    by destruct (updateState_Ok _ _ _ _ _ _ ap_update). }
  assert (length (Block_Hash (wb_Block wb)) = IDLen) as Hlen.
  { unfold BlockAccept in Hrun. apply bindM_Ok in Hrun as (? & ? & ? & ? & Hm & _).
    apply ofR_inv in Hm as (E & _).
    symmetry in E. by apply ToID_Ok in E as [_ ?]. }
  pose proof (GetCachedBlock_spec Block_Hash DecodeBlockWithStatus (Block_Hash (wb_Block wb))
    _ Hi) as Hib. destruct (GetCachedBlock _ (vm_blocks vm)) as [r0 b0]. destruct Hib as [Hib _].
  intros bs Henc. destruct (after_accept_cached _ (wb_Block wb) _ _ Hi' Hib Hb)
    as [(q & Hq & Hobj)|(Hn & Hmiss)].
  - destruct (find_block_cached _ vm' w' q Hi' Hq) as (vm1 & Hf & Ho).
    destruct (GetBlock_found _ _ _ _ _ _ _ (mkWrappedBlock (wb_Block wb) STATUS_ACCEPTED) bs
      Hlen Hf) as [st2 Hg]; [by rewrite Ho|done|done|]. eauto.
  - destruct (find_block_stored _ vm' w' (wb_Block wb) Hi' Hn Hmiss) as (vm1 & q & t2 & Hf & Ho).
    { by eapply Hlaw. }
    destruct (GetBlock_found _ _ _ _ _ _ _ (mkWrappedBlock (wb_Block wb) STATUS_ACCEPTED) bs
      Hlen Hf) as [st2 Hg]; [done|done|done|]. eauto.
Qed.

(** C5: an accepted block is served as accepted.  After a successful
    [BlockAccept] of an ID, [GetBlock] of that ID returns the accepted block
    with status ACCEPTED, whether it still is in the decided cache or was too
    large for it and is read back from the block store. *)
Theorem accept_then_get (rid : list Z) (vm vm' : VM) (w w' : W) (t : list call_ev)
    (Hi : vm_inv vm) (Hlaw : SaveBlock_law)
    (Hrun : BlockAccept json_len rid (vm, w) = (Ok (), (vm', w'), t)) :
  ∃ blk, Block_Hash blk = rid ∧ s_LastBlockHeight (vm_state vm') = h_Height (b_Header blk) ∧
    omap saved_block t = [blk] ∧
    ∀ bs, EncodeBlockWithStatus blk STATUS_ACCEPTED = Ok bs →
      ∃ st2 t2, GetBlock json_len rid (vm', w') = (Ok (found blk bs STATUS_ACCEPTED), st2, t2).
Proof.
  clear State_Bytes. destruct (accept_get rid vm vm' w w' t Hi Hlaw Hrun) as (blk & ? & ? & ? & _ & ?). by exists blk.
Qed.

(** *** Parsing the same bytes twice *)

(** A parse that hits the cache of IDs but none of the block caches fails. *)
Lemma ParseBlock_forgotten bytes id vm (w : W) :
  vm_inv vm → cmap (BytesToIDCache (vm_blocks vm)) !! bytes = Some id →
  cached id (vm_blocks vm) = None →
  ∃ vm', ParseBlock json_len bytes (vm, w) =
    (Err (EString "found unexpected status for blk"), (vm', w), []).
Proof.
  intros Hi Hb Hc. unfold ParseBlock, parse_id, mbind, GoM_bind.
  unfold blocks_op at 1.
  destruct (get_bytes_inv Block_Hash DecodeBlockWithStatus bytes _ Hi) as [Hi1 Hg].
  assert (cached id (get_bytes bytes (vm_blocks vm)).2 = None) as Hc1.
  { rewrite <-Hc. unfold get_bytes. by destruct (sizedLRU.Get bytes _). }
  rewrite Hb in Hg. destruct (get_bytes bytes (vm_blocks vm)) as [r s1]. simpl in *. subst r.
  unfold mret at 1, GoM_ret at 1. unfold blocks_op. simpl.
  pose proof (GetCachedBlock_spec Block_Hash DecodeBlockWithStatus id _ Hi1) as Hgc.
  destruct (GetCachedBlock id s1) as [r s2]. destruct Hgc as (_ & -> & _). rewrite Hc1.
  unfold throw. by eexists.
Qed.

(** [ParseBlock] is not idempotent.  When a processing block is too large for
    the block cache (10000 bytes of JSON, all entries together) while its bytes
    fit the cache of byte strings, the first parse of its bytes succeeds
    and the next one fails with an unexpected status: the ID is cached, the
    block is not, and it is not decoded again. *)
Theorem parse_twice_fails (s : State) (cfg : VMConfig) (w : W) (bytes : list Z) (blk : Block)
    (Hdec : DecodeBlockWithStatus bytes = Ok (blk, STATUS_PROCESSING))
    (Hid : length (Block_Hash blk) = IDLen)
    (Hbig : (unverifiedCacheSize < Z.of_nat IDLen
               + json_len (mkWrappedBlock blk STATUS_PROCESSING) + 2 * pointerOverhead)%Z)
    (Hsmall : (cachedBlockBytesSize bytes (Block_Hash blk) ≤ bytesToIDCacheSize)%Z) :
  ∃ r vm1, ParseBlock json_len bytes (NewViaDB s cfg, w) = (Ok r, (vm1, w), []) ∧
    pb_Id r = Block_Hash blk ∧
    ∃ e vm2, ParseBlock json_len bytes (vm1, w) = (Err e, (vm2, w), []).
Proof.
  pose proof (t_ParseBlock bytes s (NewViaDB s cfg) w (conj (New_vm_inv s cfg) eq_refl)) as Ht.
  destruct (ParseBlock json_len bytes (NewViaDB s cfg, w)) as [[res [vm1 w1]] t] eqn:E.
  assert (∃ r, res = Ok r ∧ w1 = w ∧ t = [] ∧ pb_Id r = Block_Hash blk ∧
    cmap (BytesToIDCache (vm_blocks vm1)) =
      cmap (sizedLRU.Put cachedBlockBytesSize bytes (Block_Hash blk)
        (sizedLRU.NewSizedLRU bytesToIDCacheSize)) ∧
    VerifiedBlocks (vm_blocks vm1) = ∅ ∧ cmap (DecidedBlocks (vm_blocks vm1)) = ∅ ∧
    UnverifiedBlocks (vm_blocks vm1) =
      sizedLRU.Put (cachedBlockSize json_len {[0%nat := mkWrappedBlock blk STATUS_PROCESSING]})
        (Block_Hash blk) 0%nat (sizedLRU.NewSizedLRU unverifiedCacheSize))
    as (r & -> & -> & -> & Hr & Hb & Hv & Hd & Hu).
  { unfold ParseBlock, parse_id in E. unfold mbind, GoM_bind, blocks_op, ofR, on_blocks,
      modify, mret, GoM_ret, ToID in E. simpl in E. rewrite Hdec in E.
    rewrite bool_decide_eq_true_2 in E by done.
    change (get_bytes bytes NewWrappedBlocksStorage)
      with (@None (list Z), NewWrappedBlocksStorage) in E. simpl in E.
    change (GetCachedBlock (Block_Hash blk) (put_bytes bytes (Block_Hash blk)
      NewWrappedBlocksStorage)) with (@None nat, put_bytes bytes (Block_Hash blk)
      NewWrappedBlocksStorage) in E. simpl in E. simplify_eq. by eexists. }
  do 2 eexists. split; [done|]. split; [done|]. eexists.
  apply (ParseBlock_forgotten bytes (Block_Hash blk)); [by destruct Ht| |].
  - rewrite Hb. unfold cmap. rewrite <-Spec_get_map.
    apply sizedLRU.put_fits; [apply linkedHashmap.wf_New|done].
  - unfold cached. rewrite Hv, Hd, Hu, !lookup_empty. unfold cmap.
    rewrite sizedLRU.put_too_big; [done|]. unfold cachedBlockSize.
    by rewrite lookup_singleton_eq.
Qed.

(** ** Initialization *)

Lemma Initialize_block_fresh vm w r vm' w' t :
  (s_LastBlockHeight (vm_state vm) ≤ 0)%Z →
  Initialize_block (vm, w) = (r, (vm', w'), t) →
  (is_ok r = false ∧ vm' = vm) ∨
  (∃ blk id w0 w1 t1 txs s', r = Ok blk ∧ accept_id blk = Ok id ∧ vm' = set_state s' vm ∧
     blk = State_MakeBlock (vm_state vm) (add64 (s_LastBlockHeight (vm_state vm)) 1) txs
             (ToCommit (mkExtendedCommit 0 0 nilBlockID [])) [] proposerAddress ∧
     ApplyBlock (executor vm) (vm_state vm) id blk w0 = (Ok s', w1, t1)).
Proof.
  intros Hz Hrun. unfold Initialize_block in Hrun. go_step Hrun; unfold gets in Hm; simplify_eq.
  simpl in Hrun. rewrite bool_decide_eq_false_2 in Hrun by lia.
  go_step Hrun; [by apply lift_inv in Hm as [-> _]; left|].
  destruct s1 as [vm1 w1]. apply lift_inv in Hm as [-> Hprop].
  apply CreateProposalBlock_Ok in Hprop as (txs & max & -> & _).
  go_step Hrun; [apply ofR_inv in Hm as (_ & [= -> ->] & _); by left|].
  apply ofR_inv in Hm as (Hid & -> & ->). symmetry in Hid.
  go_step Hrun; [by apply lift_inv in Hm as [-> _]; left|].
  destruct s1 as [vm2 w2]. apply lift_inv in Hm as [-> Happ].
  go_step Hrun; [by apply lift_inv in Hm as [-> _]; left|].
  destruct s1 as [vm3 w3]. apply lift_inv in Hm as [-> _].
  go_step Hrun; [by apply lift_inv in Hm as [-> _]; left|].
  destruct s1 as [vm4 w4]. apply lift_inv in Hm as [-> _].
  go_step Hrun; unfold modify in Hm; simplify_eq. unfold mret, GoM_ret in Hrun. simplify_eq.
  right. do 7 eexists. split_and!; done.
Qed.

(** Initialization of a chain without blocks proposes, applies and stores
    one block at height 1, valid in the genesis state, and moves the chain
    state to it; on any error the VM keeps the genesis state. *)
Theorem initialize_first_block (vm vm' : VM) (w w' : W) (r : result gerr Block)
    (t : list call_ev) (Hfresh : s_LastBlockHeight (vm_state vm) = 0%Z) (Hmb : MakeBlock_law)
    (Hrun : Initialize_block (vm, w) = (r, (vm', w'), t)) :
  match r with
  | Ok blk => chain (vm_state vm) [blk] (vm_state vm') ∧
              s_LastBlockHeight (vm_state vm') = 1%Z ∧ vm_blocks vm' = vm_blocks vm
  | Err _ => vm' = vm
  end.
Proof.
  destruct (Initialize_block_fresh vm w r vm' w' t ltac:(lia) Hrun)
    as [[Hr ->]|(blk & id & w0 & w1 & t1 & txs & s' & -> & Hid & -> & Hb & Happ)];
    [by destruct r|].
  apply apply_Ok in Happ as (resp & vals & ? & ? & ? & ? & s1 & []).
  destruct (updateState_Ok _ _ _ _ _ _ ap_update) as (Hh & ? & ? & ? & ? & ? & ? & ?).
  assert (h_Height (b_Header blk) = 1%Z) as Hone.
  { subst blk. destruct (mb_law Hmb (vm_state vm) (add64 (s_LastBlockHeight (vm_state vm)) 1) txs
      (ToCommit (mkExtendedCommit 0 0 nilBlockID [])) [] proposerAddress)
      as (_ & _ & _ & _ & _ & -> & _). by rewrite Hfresh. }
  subst s'. simpl. split_and!; [|by rewrite Hh|done].
  eapply (chain_cons _ _ id); [done|done| | | | | | |constructor]; done.
Qed.

(** A genesis whose initial height is not 1 cannot be started: the first
    block is always proposed at height 1 ([LastBlockHeight + 1]), which
    [ValidateBlock] refuses, so initialization fails and the VM keeps the
    genesis state. *)
Theorem initialize_needs_initial_height_one (vm vm' : VM) (w w' : W) (r : result gerr Block)
    (t : list call_ev) (Hfresh : s_LastBlockHeight (vm_state vm) = 0%Z)
    (Hinit : s_InitialHeight (vm_state vm) ≠ 1%Z) (Hmb : MakeBlock_law)
    (Hrun : Initialize_block (vm, w) = (r, (vm', w'), t)) :
  is_ok r = false ∧ vm' = vm.
Proof.
  destruct (Initialize_block_fresh vm w r vm' w' t ltac:(lia) Hrun)
    as [?|(blk & id & w0 & w1 & t1 & txs & s' & -> & Hid & -> & Hb & Happ)]; [done|].
  exfalso. apply apply_Ok in Happ as (resp & vals & ? & ? & ? & ? & s1 & []).
  pose proof (ValidateBlock_first _ _ ap_valid Hfresh) as Hf.
  destruct (mb_law Hmb (vm_state vm) (add64 (s_LastBlockHeight (vm_state vm)) 1) txs
    (ToCommit (mkExtendedCommit 0 0 nilBlockID [])) [] proposerAddress)
    as (_ & _ & _ & _ & _ & Hh & _). apply Hinit. by rewrite Hf, Hb, Hh, Hfresh.
Qed.
End invariant.

(** ** Configuration and genesis chunks *)

(** The configuration [Initialize] ends up with is within bounds: the block
    size is -1 or positive and at most CometBFT's maximum, the gas limit at
    least -1, the evidence size non-negative and at most the block size, the
    subscription limits non-negative, the network name non-empty; without
    configuration bytes it is the default one, which is valid when the
    maximum block size is at least 100 MiB. *)
Theorem config_within_bounds `{CometBFT} {W : Type} (zero : VMConfig)
    (unmarshal : option (VMConfig → result string VMConfig)) (vm vm' : VM) (w w' : W)
    (r : result gerr VMConfig) (t : list call_ev)
    (Hrun : Initialize_config zero unmarshal (vm, w) = (r, (vm', w'), t)) :
  (∀ c, r = Ok c →
    NetworkName c ≠ "" ∧
    (Block_MaxBytes c = -1 ∨ 0 < Block_MaxBytes c ≤ MaxBlockSizeBytes)%Z ∧
    (-1 ≤ Block_MaxGas c)%Z ∧
    (0 ≤ Evidence_MaxBytes c ≤ if bool_decide (Block_MaxBytes c = -1)%Z
                               then MaxBlockSizeBytes else Block_MaxBytes c)%Z ∧
    (0 ≤ MaxSubscriptionsPerClient c)%Z ∧ (0 ≤ MaxSubscriptionClients c)%Z) ∧
  (unmarshal = None → (defaultMaxBytes ≤ MaxBlockSizeBytes)%Z → r = Ok (SetDefaults zero)).
Proof.
  unfold Initialize_config in Hrun. split.
  - intros c ->. go_next Hrun. clear Hm. go_next Hrun.
    apply ofR_inv in Hm as (Hv & -> & ->). destruct a0. symmetry in Hv.
    apply Validate_Ok in Hv. unfold mret, GoM_ret in Hrun. simplify_eq. naive_solver.
  - intros -> Hmax. unfold mbind, GoM_bind, mret, GoM_ret, ofR in Hrun. simpl in Hrun.
    assert (Validate (SetDefaults zero) = Ok ()) as Hv.
    { apply Validate_Ok. unfold SetDefaults, defaultMaxBytes, defaultMaxGas in *. simpl in *.
      split_and!; done || lia. }
    rewrite Hv in Hrun. by simplify_eq.
Qed.

Lemma chunk_loop_spec fuel n l :
  (0 < n)%nat → (length l ≤ fuel)%nat →
  concat (chunk_loop fuel n l) = l ∧
  Forall (λ c, (0 < length c ≤ n)%nat) (chunk_loop fuel n l).
Proof.
  intros Hn. revert l. induction fuel as [|fuel IH]; intros l Hl.
  - destruct l; simpl in *; [done|lia].
  - destruct l as [|x l]; [done|]. simpl chunk_loop.
    destruct (IH (drop n (x :: l))) as [Hc Hf]; [rewrite length_drop; simpl in *; lia|].
    split; [rewrite concat_cons, Hc; apply take_drop|].
    constructor; [|done]. rewrite length_take. simpl. lia.
Qed.

(** The chunks of the genesis document put together are the genesis
    document, and each is non-empty and at most 16 MiB long. *)
Theorem genesis_chunks_cover (genesis : list Z) :
  concat (genesis_chunks genesis) = genesis ∧
  Forall (λ c, (0 < Z.of_nat (length c) ≤ 16 * 1024 * 1024)%Z) (genesis_chunks genesis).
Proof.
  destruct (chunk_loop_spec (length genesis) genesisChunkSize genesis) as [Hc Hf];
    [unfold genesisChunkSize; lia|done|]. split; [done|].
  eapply Forall_impl; [exact Hf|]. simpl. unfold genesisChunkSize. lia.
Qed.
