(* ===== verification/WarpVM.v ===== *)
(** * The warp backend of the VM

    The VM is the [BlockReceiver] of its backend (src/vm/vm.go passes itself to
    [warp.NewBackend]): signatures of blocks go through [GetBlock] and
    [GetBlockIDAtHeight] of VM.v. *)

From S2P Require Import Prelude CometBFT Executor WrappedBlocks VM VMProps Codec CodecValues Database WarpMessage WarpMessageProps WarpBackend WarpBackendProps.

Section warp_vm.
Context `{CometBFT} {W : Type} `{!Services W} `{!Codecs}.
Context (json_len : WrappedBlock → Z).

(** An answer of the VM; the log of its calls is dropped. *)
Definition answer {A B} (f : A → B) (x : result gerr A * (VM * W) * list call_ev)
    : option (result string B * (VM * W)) :=
  match x with
  | (Ok a, st, _) => Some (Ok (f a), st)
  | (Err e, st, _) => if is_panic e then None else Some (Err "VM"%string, st)
  end.

(** The fields of [GetBlockResponse] the backend reads: those of a block that was not
    found are zero. *)
Definition accepted_block (r : GetBlockResponse) : AcceptedBlock :=
  match r with
  | GetBlockFound _ bytes _ height _ => mkAcceptedBlock height bytes
  | GetBlockNotFound => mkAcceptedBlock 0 []
  end.

#[export] Instance vm_receiver : BlockReceiver (VM * W) := {|
  recv_GetBlock id st := answer accepted_block (GetBlock json_len id st);
  recv_GetBlockIDAtHeight h st := answer (default []) (GetBlockIDAtHeight h st);
|}.

(** ** Requests that only read the block store *)

Definition reads {A} (m : GoM call_ev (VM * W) A) : Prop := ∀ vm w, (m (vm, w)).1.2.2 = w.

Lemma reads_bind {A B} (m : GoM call_ev (VM * W) A) (f : A → GoM call_ev (VM * W) B) :
  reads m → (∀ a, reads (f a)) → reads (m ≫= f).
Proof.
  intros Hm Hf vm w. specialize (Hm vm w). unfold mbind, GoM_bind.
  destruct (m (vm, w)) as [[[a|e] [vm1 w1]] t]; simpl in Hm; subst; [|done].
  specialize (Hf a vm1 w). by destruct (f a (vm1, w)) as [[? ?] ?].
Qed.

Lemma reads_blocks_op {A} (f : Storage → A * Storage) : reads (blocks_op f).
Proof. intros vm w. unfold blocks_op. by destruct (f (vm_blocks vm)). Qed.

Lemma reads_GetBlock id : reads (GetBlock json_len id).
Proof.
  unfold GetBlock, find_block. apply reads_bind; [done|]. intros blkID.
  apply reads_bind; [apply reads_bind; [apply reads_blocks_op|]|].
  - intros [p|]; [done|]. apply reads_bind; [apply reads_blocks_op|]. intros []; [done|].
    apply reads_bind; [done|]. by intros [b|]; apply reads_bind.
  - intros [p|]; [|done]. apply reads_bind.
    { intros vm w. unfold deref. by destruct (_ !! p). }
    intros wb. apply reads_bind; [by destruct (wb_Status wb)|]. intros _. by apply reads_bind.
Qed.

(** ** Accepted blocks *)

(** A saved block is found under its height. *)
Definition SaveHeight_law : Prop :=
  ∀ b h c s (w w' : W), store_Save s (bs_SaveBlock b h c w) = (Ok (), w') →
    bs_LoadBlock (h_Height (b_Header b)) w' = Some b.

Lemma GetAcceptedBlock_stored id blk vm (w : W) st :
  length id = 32 → GetAcceptedBlock id (vm, w) = Some (Ok blk, st) →
  ∃ stored, bs_LoadBlock (wrapS 64 (ab_Height blk)) w = Some stored ∧ Block_Hash stored = id.
Proof.
  intros Hid. unfold GetAcceptedBlock, mbind, BM_bind, bcall_panic. cbn [recv_GetBlock vm_receiver].
  pose proof (reads_GetBlock id vm w) as Hr.
  destruct (GetBlock json_len id (vm, w)) as [[[r|e] [vm1 w1]] t]; unfold answer at 1;
    [|by destruct (is_panic e)].
  simpl in Hr. subst w1. cbn [recv_GetBlockIDAtHeight vm_receiver].
  unfold GetBlockIDAtHeight, LoadBlock, lift, call, mbind, GoM_bind. simpl.
  destruct (bs_LoadBlock _ w) as [stored|] eqn:E; simpl; case_bool_decide as Hne; [done| |done|].
  - intros [= <- <-]. exists stored. by split.
  - subst id. simpl in Hid. lia.
Qed.

Lemma GetAcceptedBlock_accepted blk bs vm w vm' t :
  inS 64 (h_Height (b_Header blk)) →
  GetBlock json_len (Block_Hash blk) (vm, w) = (Ok (found blk bs STATUS_ACCEPTED), (vm', w), t) →
  bs_LoadBlock (h_Height (b_Header blk)) w = Some blk →
  GetAcceptedBlock (Block_Hash blk) (vm, w) = Some (Ok (mkAcceptedBlock (uint64 (h_Height (b_Header blk))) bs), (vm', w)).
Proof.
  intros Hh Hg Hl. unfold GetAcceptedBlock, mbind, BM_bind, bcall_panic. cbn [recv_GetBlock vm_receiver].
  rewrite Hg. cbn [answer accepted_block found ab_Height recv_GetBlockIDAtHeight vm_receiver].
  unfold GetBlockIDAtHeight, LoadBlock, lift, call, mbind, GoM_bind.
  assert (wrapS 64 (uint64 (h_Height (b_Header blk))) = h_Height (b_Header blk)) as ->.
  { rewrite <-(wrapS_id 64 _ ltac:(lia) Hh) at 2. unfold uint64, wrapS, wrapU. by rewrite Zmod_mod. }
  rewrite Hl. simpl. rewrite bool_decide_eq_false_2; [done|]. intros Hne. by apply Hne.
Qed.

Context (grow : nat → nat) (sha256 : list Z → list Z) (sign : UnsignedMessage → result string (list Z)).
Context (net : Z) (chainID : list Z) (Hnet : inU 32 net) (Hchain : id_ok chainID).
Context (Hsha : ∀ b, id_ok (sha256 b)).

(** The message a block's signature is for: the hash payload of its ID. *)
Definition block_message (id : list Z) : UnsignedMessage :=
  initialized sha256 (mkUnsigned net chainID ([0%Z; 0%Z] ++ payload_enc (PHash id [])) [] []).

Lemma GetBlockSignature_ok id (st : VM * W) :
  id_ok id → GetBlockSignature grow sha256 sign net chainID id st =
  match GetAcceptedBlock id st with
  | None => None
  | Some (Err e, st') => Some (Err (BVerify VerifyErrCode), st')
  | Some (Ok _, st') =>
      Some (match sign (block_message id) with Ok sig => Ok sig | Err e => Err (BSign e) end, st')
  end.
Proof.
  intros Hid. unfold GetBlockSignature, NewHash.
  destruct (initialize_ok grow (PHash id [])) as (r & Hi & Hr); [by split; [|constructor]|].
  assert (2 + Z.of_nat (length (payload_enc (PHash id []))) ≤ MaxMessageSize)%Z as Hl.
  { unfold payload_enc. rewrite length_app, be_encode_length, (proj2 Hid). done. }
  rewrite bool_decide_eq_true_2 in Hr by done. subst r. rewrite Hi.
  unfold mbind, BM_bind, blift at 1. cbn [Payload_Bytes].
  rewrite NewUnsignedMessage_ok; [|done|done|].
  - unfold blift at 1, verifyBlockMessage, mbind, BM_bind, btry. cbn [payload_initialize].
    destruct (GetAcceptedBlock id st) as [[[b|e] st']|]; [|done..].
    cbn [mret BM_ret]. unfold blift, block_message. cbn [app payload_enc payload_initialize].
    by destruct (sign _).
  - cbn [payload_initialize payload_enc]. split.
    + do 2 (constructor; [done|]). apply Forall_app. split; [apply be_encode_ok|apply Hid].
    + cbn [length Payload_Bytes]. rewrite length_app, be_encode_length, (proj2 Hid). done.
Qed.

(** C13: the backend signs accepted blocks only, and all of them.  After a successful
    [BlockAccept], [GetBlockSignature] of the ID asks the signer for the message with the
    block's hash on this network and chain, and returns its answer.  In any state,
    when [GetBlockSignature] returns a signature, the block store has a block with that
    ID at some height, and the signature is the signer's for that block's message. *)
Theorem accepted_blocks_signed (rid : list Z) (vm vm' : VM) (w w' : W) (t : list call_ev)
    (Hi : vm_inv vm) (Hlaw : SaveBlock_law) (Hheight : SaveHeight_law)
    (Hrun : BlockAccept json_len rid (vm, w) = (Ok (), (vm', w'), t))
    (Hrid : id_ok rid) (Hrange : inS 64 (s_LastBlockHeight (vm_state vm'))) :
  (∃ blk, Block_Hash blk = rid ∧ omap saved_block t = [blk] ∧
    ∀ bs, EncodeBlockWithStatus blk STATUS_ACCEPTED = Ok bs →
      ∃ vm2, GetBlockSignature grow sha256 sign net chainID rid (vm', w') =
        Some (match sign (block_message rid) with Ok sig => Ok sig | Err e => Err (BSign e) end, (vm2, w'))) ∧
  ∀ id vm0 w0 sig st, id_ok id →
    GetBlockSignature grow sha256 sign net chainID id (vm0, w0) = Some (Ok sig, st) →
    ∃ h stored, bs_LoadBlock h w0 = Some stored ∧ Block_Hash stored = id ∧
      sign (block_message id) = Ok sig.
Proof.
  split.
  - destruct (accept_get json_len rid vm vm' w w' t Hi Hlaw Hrun)
      as (blk & Hh & Hl & Hs & (h & c & s & w1 & Hsave) & Hg).
    exists blk. split; [done|]. split; [done|]. intros bs Henc. subst rid.
    destruct (Hg bs Henc) as ([vm2 w2] & t2 & Hget). exists vm2.
    pose proof (reads_GetBlock (Block_Hash blk) vm' w') as Hw. rewrite Hget in Hw. simpl in Hw. subst w2.
    rewrite GetBlockSignature_ok by done.
    rewrite (GetAcceptedBlock_accepted blk bs vm' w' vm2 t2); [done| |done|by eapply Hheight].
    by rewrite <-Hl.
  - intros id vm0 w0 sig st Hid. rewrite GetBlockSignature_ok by done.
    destruct (GetAcceptedBlock id (vm0, w0)) as [[[b|e] st']|] eqn:E; [|done..].
    destruct (GetAcceptedBlock_stored id b vm0 w0 st' (proj2 Hid) E) as (stored & Hl & Hh).
    destruct (sign (block_message id)) eqn:Es; intros [= -> ->]. eauto 10.
Qed.
End warp_vm.
