(* ===== verification/VMConcrete.v ===== *)
(** * The VM on concrete inputs

    A concrete codec and a run of the VM: build a block, verify it, accept it
    and read it back.  The witnesses show that the hypotheses of the theorems
    of [WrappedBlocks] and [VMProps] hold on it. *)

From S2P Require Import Prelude LinkedHashmap Caches CometBFT Executor Concrete WrappedBlocks VM VMProps.

#[export] Instance Header_eq : EqDecision Header.
Proof. solve_decision. Defined.
#[export] Instance Block_eq : EqDecision Block.
Proof. solve_decision. Defined.

Definition cConfig : VMConfig := mkVMConfig "demo" 30 1000 1000 100 100 5.
Definition cVM0 : VM := NewViaDB cState0 cConfig.
Definition cVM1 : VM := NewViaDB cState1 cConfig.

(** The block [BuildBlock] makes on top of the first one. *)
Definition cNow (_ : nat) : Z := 6.
Definition cRnd (_ : nat) : list Z := [9%Z].
Definition cBuilt : Block :=
  cRes (CreateProposalBlock (executor cVM1) 2 cState1
          (mkExtendedCommit 1 0 (s_LastBlockID cState1)
             (proposalSignatures cNow cRnd [cVal])) proposerAddress cWorld1) cBlock1.

(** A codec that knows two blocks: a block is encoded as its index. *)
Definition cTable : list Block := [cBlock1; cBuilt].
Definition cIndex (b : Block) : option nat := fst <$> list_find (λ b', b = b') cTable.

Definition status_code (st : Status) : Z :=
  match st with STATUS_UNSPECIFIED => 0 | STATUS_PROCESSING => 1
  | STATUS_REJECTED => 2 | STATUS_ACCEPTED => 3 end.
Definition code_status (z : Z) : Status :=
  if bool_decide (z = 1)%Z then STATUS_PROCESSING
  else if bool_decide (z = 2)%Z then STATUS_REJECTED
  else if bool_decide (z = 3)%Z then STATUS_ACCEPTED else STATUS_UNSPECIFIED.

#[export] Instance cCodecs : Codecs := {|
  protoBlock := Block;
  Block_ToProto b := Ok b;
  proto_Marshal b := match cIndex b with Some i => Ok [Z.of_nat i] | None => Err "unknown" end;
  proto_Unmarshal bs := match bs with
    | [i] => match cTable !! Z.to_nat i with Some b => Ok b | None => Err "unknown" end
    | _ => Err "unknown" end;
  BlockFromProto b := Ok b;
  json_Marshal x := Ok (status_code x.2 :: x.1);
  json_Unmarshal bs := match bs with st :: data => Ok (data, code_status st)
                       | [] => Err "unexpected end" end;
|}.

Lemma cCodecs_law : Codecs_law.
Proof.
  constructor.
  - intros b pb bs [= ->] Hm. unfold proto_Marshal in Hm. simpl in Hm.
    destruct (cIndex pb) as [i|] eqn:Hi; [|done]. injection Hm as <-.
    unfold cIndex in Hi. destruct (list_find _ cTable) as [[j b']|] eqn:Hf; [|done].
    injection Hi as <-. apply list_find_Some in Hf as (Hl & -> & _).
    exists b'. cbn [proto_Unmarshal cCodecs]. rewrite Nat2Z.id, Hl. done.
  - intros [data st] bs [= <-]. simpl. by destruct st.
Qed.

Definition cJson (_ : WrappedBlock) : Z := 100.
Definition cStateBytes (_ : State) : list Z := [].

Lemma cLoadByHash_law : LoadByHash_law (W := cWorld).
Proof.
  intros h w b Hl. simpl in Hl.
  destruct (list_find _ (cw_blocks w)) as [[i b']|] eqn:Hf; [|done].
  simpl in Hl. simplify_eq. by apply list_find_Some in Hf as (_ & ? & _).
Qed.

Lemma cSaveBlock_law : SaveBlock_law (W := cWorld).
Proof.
  intros b h c s w w' [= <-]. simpl. by rewrite decide_True.
Qed.

(** Build, verify, accept, read back. *)
Definition cBytes : list Z :=
  match EncodeBlockWithStatus cBuilt STATUS_PROCESSING with Ok bs => bs | Err _ => [] end.
Definition cRequests : list request :=
  [RBuildBlock cNow cRnd; RBlockVerify cBytes; RBlockAccept (cHash cBuilt);
   RGetBlock (cHash cBuilt)].
Definition cRun := run cJson cStateBytes cRequests (cVM1, cWorld1).

Lemma block_encoding_roundtrip_witness :
  DecodeBlockWithStatus [1%Z; 1%Z] = Ok (cBuilt, STATUS_PROCESSING).
Proof.
  apply (block_encoding_roundtrip cBuilt STATUS_PROCESSING [1%Z; 1%Z] cCodecs_law).
  vm_compute. reflexivity.
Defined.

Lemma accepted_blocks_form_chain_witness :
  (let '(l, (vm', _)) := cRun in chain cState1 (accepted l) (vm_state vm')) ∧
  accepted cRun.1 = [cBuilt].
Proof.
  split; [|vm_compute; reflexivity]. unfold cRun, cVM1.
  pose proof (accepted_blocks_form_chain cJson cStateBytes cState1 cConfig cWorld1 cRequests
    cLoadByHash_law) as Hw.
  destruct (run cJson cStateBytes cRequests (NewViaDB cState1 cConfig, cWorld1)) as [l [vm' w']].
  exact (proj1 Hw).
Defined.

Lemma caches_stay_consistent_witness :
  storage_inv Block_Hash DecodeBlockWithStatus (vm_blocks cRun.2.1).
Proof.
  unfold cRun, cVM1. apply (caches_stay_consistent cJson cStateBytes cState1 cConfig cWorld1
    cRequests cLoadByHash_law).
Defined.

(** The states along the run. *)
Definition cAfterBuild := cWld (BuildBlock cJson cNow cRnd (cVM1, cWorld1)).
Definition cVerify := BlockVerify cJson cBytes cAfterBuild.
Definition cAfterVerify := cWld cVerify.
Definition cAccept := BlockAccept cJson (cHash cBuilt) cAfterVerify.
Definition cAfterAccept := cWld cAccept.

Lemma cAfterBuild_inv : vm_inv cAfterBuild.1.
Proof.
  pose proof (t_BuildBlock (W := cWorld) cJson cNow cRnd cState1 cVM1 cWorld1
    (conj (New_vm_inv cState1 cConfig) eq_refl)) as Ht.
  unfold cAfterBuild. revert Ht.
  by destruct (BuildBlock cJson cNow cRnd (cVM1, cWorld1)) as [[[r|e] [vm' w']] t]; intros [].
Qed.

Lemma cAfterVerify_inv : vm_inv cAfterVerify.1.
Proof.
  pose proof (t_BlockVerify (W := cWorld) cJson cBytes (vm_state cAfterBuild.1)
    cAfterBuild.1 cAfterBuild.2 (conj cAfterBuild_inv eq_refl)) as Ht.
  unfold cAfterVerify, cVerify. rewrite <-surjective_pairing in Ht. revert Ht.
  by destruct (BlockVerify cJson cBytes cAfterBuild) as [[[r|e] [vm' w']] t]; intros [].
Qed.

Lemma verify_caches_valid_block_witness :
  ∃ blk st p, ValidateBlock (vm_state cAfterBuild.1) blk = Ok () ∧
    cached (Block_Hash blk) (vm_blocks cAfterVerify.1) = Some p ∧
    objs (vm_blocks cAfterVerify.1) !! p = Some (mkWrappedBlock blk st).
Proof.
  destruct (verify_caches_valid_block cJson cBytes cAfterBuild.1 cAfterVerify.1 cAfterBuild.2
    cAfterVerify.2 6 cVerify.2 cAfterBuild_inv)
    as (_ & _ & _ & blk & st & p & _ & Hv & _ & Hc & Ho).
  - vm_compute. reflexivity.
  - exists blk, st, p. split; [exact Hv|]. split; [exact Hc|exact Ho].
Defined.

Lemma accept_then_get_witness :
  ∃ blk, Block_Hash blk = cHash cBuilt ∧ omap saved_block cAccept.2 = [blk].
Proof.
  destruct (accept_then_get cJson (cHash cBuilt) cAfterVerify.1 cAfterAccept.1 cAfterVerify.2
    cAfterAccept.2 cAccept.2 cAfterVerify_inv cSaveBlock_law) as (blk & Hh & _ & Hs & _).
  - vm_compute. reflexivity.
  - exists blk. split; [exact Hh|exact Hs].
Defined.

(** Accepting an ID that is nowhere cached. *)
Lemma accept_error_keeps_vm_witness :
  let r := BlockAccept cJson (replicate 32 5%Z) (cVM1, cWorld1) in
  vm_state r.1.2.1 = cState1 ∧ r.1.1 = Err ErrNotFound.
Proof.
  pose (r := BlockAccept cJson (replicate 32 5%Z) (cVM1, cWorld1)).
  destruct (accept_error_keeps_vm cJson (replicate 32 5%Z) cVM1 r.1.2.1 cWorld1 r.1.2.2
    ErrNotFound r.2 (New_vm_inv cState1 cConfig)) as [Hs _].
  - vm_compute. reflexivity.
  - split; [exact Hs|vm_compute; reflexivity].
Defined.

Lemma get_block_sound_witness :
  ∃ blk, Block_Hash blk = cHash cBuilt ∧ EncodeBlockWithStatus blk STATUS_ACCEPTED = Ok [3%Z; 1%Z].
Proof.
  pose (st := (run cJson cStateBytes [RBuildBlock cNow cRnd; RBlockVerify cBytes;
    RBlockAccept (cHash cBuilt)] (cVM1, cWorld1)).2).
  pose (r := GetBlock cJson (cHash cBuilt) st).
  destruct (get_block_sound cJson cStateBytes cState1 cConfig cWorld1
    [RBuildBlock cNow cRnd; RBlockVerify cBytes; RBlockAccept (cHash cBuilt)]
    (cHash cBuilt) st.1 r.1.2.1 st.2 r.1.2.2 (cHash cBlock1) [3%Z; 1%Z] STATUS_ACCEPTED 2 6 r.2
    cLoadByHash_law) as (blk & Hh & He & _).
  - vm_compute. reflexivity.
  - vm_compute. reflexivity.
  - exists blk. split; [exact Hh|exact He].
Defined.

Definition cBigJson (_ : WrappedBlock) : Z := 20000.

Lemma parse_twice_fails_witness :
  ∃ r vm1, ParseBlock cBigJson cBytes (cVM1, cWorld1) = (Ok r, (vm1, cWorld1), []) ∧
    ∃ e vm2, ParseBlock cBigJson cBytes (vm1, cWorld1) = (Err e, (vm2, cWorld1), []).
Proof.
  destruct (parse_twice_fails cBigJson cState1 cConfig cWorld1 cBytes cBuilt)
    as (r & vm1 & H1 & _ & H2).
  - vm_compute. reflexivity.
  - vm_compute. reflexivity.
  - vm_compute. reflexivity.
  - vm_compute. discriminate.
  - exists r, vm1. split; [exact H1|exact H2].
Defined.

Definition cInit := Initialize_block (cVM0, cWorld0).

Lemma initialize_first_block_witness : s_LastBlockHeight (vm_state cInit.1.2.1) = 1%Z.
Proof.
  assert (Hr : Initialize_block (cVM0, cWorld0) =
    (Ok cBlock1, (cInit.1.2.1, cInit.1.2.2), cInit.2)) by (vm_compute; reflexivity).
  pose proof (initialize_first_block cVM0 cInit.1.2.1 cWorld0 cInit.1.2.2 (Ok cBlock1) cInit.2
    eq_refl cMakeBlock_law Hr) as Hw.
  exact (proj1 (proj2 Hw)).
Defined.

(** A genesis with initial height 5. *)
Definition cState5 : State :=
  mkState (mkConsensus 11 0) "demo" 5 0 nilBlockID 5 cVals cVals (mkValidatorSet []) 1
    cParams 1 [] [].
Definition cInit5 := Initialize_block (NewViaDB cState5 cConfig, cWorld0).

Lemma initialize_needs_initial_height_one_witness : is_ok cInit5.1.1 = false.
Proof.
  apply (initialize_needs_initial_height_one (NewViaDB cState5 cConfig) cInit5.1.2.1 cWorld0
    cInit5.1.2.2 cInit5.1.1 cInit5.2 eq_refl).
  - vm_compute. discriminate.
  - exact cMakeBlock_law.
  - vm_compute. reflexivity.
Defined.

Lemma config_within_bounds_witness :
  (Initialize_config (W := cWorld) cConfig None (cVM0, cWorld0)).1.1 = Ok (SetDefaults cConfig).
Proof.
  pose (r := Initialize_config (W := cWorld) cConfig None (cVM0, cWorld0)).
  apply (config_within_bounds cConfig None cVM0 r.1.2.1 cWorld0 r.1.2.2 r.1.1 r.2).
  - vm_compute. reflexivity.
  - reflexivity.
  - vm_compute. discriminate.
Defined.
