(* ===== verification/WarpVMConcrete.v ===== *)
(** * Signatures of blocks on a concrete chain

    The run of VMConcrete.v, with the network, chain and signer of
    WarpBackendConcrete.v: the accepted block is signed. *)

From S2P Require Import Prelude LinkedHashmap Caches CometBFT Executor Concrete WrappedBlocks VM VMProps VMConcrete Codec WarpMessage WarpMessageProps WarpSignature WarpConcrete WarpBackend WarpBackendProps WarpBackendConcrete WarpVM.

Lemma cSaveHeight_law : SaveHeight_law (W := cWorld).
Proof. intros b h c s w w' [= <-]. simpl. by rewrite decide_True. Qed.

Lemma cBuilt_id_ok : id_ok (cHash cBuilt).
Proof. split; [|vm_compute; reflexivity]. apply (bool_decide_eq_true_1 (bytes_ok (cHash cBuilt))). vm_compute. reflexivity. Qed.

Lemma accepted_blocks_signed_witness :
  ∃ blk, Block_Hash blk = cHash cBuilt ∧ omap saved_block cAccept.2 = [blk].
Proof.
  destruct (accepted_blocks_signed cJson (λ n, n) demo_sha256 demo_sign 10 demo_chain demo_net_ok
    demo_chain_ok (cHash cBuilt) cAfterVerify.1 cAfterAccept.1 cAfterVerify.2
    cAfterAccept.2 cAccept.2 cAfterVerify_inv cSaveBlock_law cSaveHeight_law)
    as [(blk & Hh & Hs & _) _].
  - vm_compute. reflexivity.
  - exact cBuilt_id_ok.
  - vm_compute. split; [discriminate|reflexivity].
  - exists blk. split; [exact Hh|exact Hs].
Defined.
