(* ===== verification/Rpc.v ===== *)
(** * The JSON-RPC handlers (src/vm/rpc.go)

    Each handler of [RPC] as a function of its arguments and of what it reads: the block
    store, the state store, the indexers, the mempool and the application of the VM, which
    are CometBFT's and are fields of the classes below.  A handler reads one state of the
    stores: a block accepted between two of its reads is not modelled.  Panics are the error
    [RPanic]; the texts of errors are constructors of [rpc_err]. *)

From S2P Require Import Prelude Ids.

Inductive rpc_err :=
| RPanic
| RLib (e : string)                                   (* returned by CometBFT *)
| RNegativeHeights | RMinAboveMax (min max : Z)
| RGenesisLarge | RChunksNil | RChunksEmpty | RChunkInvalid (last id : Z)
| RHeightNotPositive (height : Z) | RHeightAbove (height current : Z) | RHeightBelow (height base : Z)
| RPerPage (perPage : Z) | RPage (pages page : Z)
| RTxNotFound | RIndexOverflow | ROrderBy
| RChainID (e : iderr)
| RMaxClients (max : Z) | RMaxSubscriptions (max : Z) | RSubscribe (e : string) | RCheckTx (e : string)
| RNotConfirmed (e : string) | RNotEventDataTx | RSubCanceled (reason : string) | RTimedOut.

Abbreviation R := (result rpc_err).

(** ** Pages and windows *)

Definition MinInt64 (a b : Z) : Z := if bool_decide (a < b)%Z then a else b.
Definition MaxInt64 (a b : Z) : Z := if bool_decide (b < a)%Z then a else b.

Definition filterMinMax (base height min max limit : Z) : R (Z * Z) :=
  if bool_decide (min < 0)%Z || bool_decide (max < 0)%Z then Err RNegativeHeights
  else
    let min := if bool_decide (min = 0)%Z then 1%Z else min in
    let max := if bool_decide (max = 0)%Z then height else max in
    let max := MinInt64 height max in
    let min := MaxInt64 base min in
    let min := MaxInt64 min (wrapS 64 (wrapS 64 (max - limit) + 1)) in
    if bool_decide (max < min)%Z then Err (RMinAboveMax min max) else Ok (min, max).

Definition defaultPerPage : Z := 30.
Definition maxPerPage : Z := 100.

Definition validatePerPage (perPagePtr : option Z) : Z :=
  match perPagePtr with
  | None => defaultPerPage
  | Some perPage =>
      if bool_decide (perPage < 1)%Z then defaultPerPage
      else if bool_decide (maxPerPage < perPage)%Z then maxPerPage else perPage
  end.

Definition validatePage (pagePtr : option Z) (perPage totalCount : Z) : R Z :=
  if bool_decide (perPage < 1)%Z then Err (RPerPage perPage)
  else
    match pagePtr with
    | None => Ok 1%Z
    | Some page =>
        let pages := wrapS 64 (Z.quot (wrapS 64 (totalCount - 1)) perPage + 1) in
        let pages := if bool_decide (pages = 0)%Z then 1%Z else pages in
        if bool_decide (page ≤ 0)%Z || bool_decide (pages < page)%Z then Err (RPage pages page) else Ok page
    end.

Definition validateSkipCount (page perPage : Z) : Z :=
  let skipCount := wrapS 64 (wrapS 64 (page - 1) * perPage) in
  if bool_decide (skipCount < 0)%Z then 0%Z else skipCount.

(** The bounds [skipCount] and [pageSize] every paginated handler works out. *)
Definition page_bounds (pagePtr perPagePtr : option Z) (totalCount : Z) : R (Z * Z) :=
  let perPage := validatePerPage perPagePtr in
  page ← validatePage pagePtr perPage totalCount;
  let skipCount := validateSkipCount page perPage in
  Ok (skipCount, MinInt64 perPage (wrapS 64 (totalCount - skipCount))).

(** [l[lo : hi]] *)
Definition slice {A} (lo hi : Z) (l : list A) : R (list A) :=
  if bool_decide (0 ≤ lo ≤ hi ∧ hi ≤ Z.of_nat (length l))%Z
  then Ok (take (Z.to_nat (hi - lo)) (drop (Z.to_nat lo) l)) else Err RPanic.

Definition index {A} (i : Z) (l : list A) : R A :=
  match (if bool_decide (i < 0)%Z then None else l !! Z.to_nat i) with Some x => Ok x | None => Err RPanic end.

(** [for i := i; i < i+n; i++], the body adding to a list. *)
Fixpoint collect {A B} (body : A → R (list B)) (n : nat) (i : Z) (l : list A) : R (list B) :=
  match n with
  | O => Ok []
  | S n => x ← index i l; ys ← body x; rest ← collect body n (i + 1) l; Ok (ys ++ rest)
  end.

(** [make([]T, 0, pageSize)] and the loop over the page. *)
Definition collect_page {A B} (body : A → R (list B)) (skipCount pageSize : Z) (l : list A) : R (list B) :=
  if bool_decide (pageSize < 0)%Z then Err RPanic else collect body (Z.to_nat pageSize) skipCount l.

(** ** [sort.Slice]: some order of the elements in which none is less than one before it *)

Class SortSlice := {
  sort_Slice : ∀ {A}, (A → A → bool) → list A → list A;
  sort_perm : ∀ {A} (less : A → A → bool) l, sort_Slice less l ≡ₚ l;
  sort_sorted : ∀ {A} (less : A → A → bool) l,
    (∀ x y, less x y = true → less y x = false) →
    (∀ x y z, less x y = false → less y z = false → less x z = false) →
    StronglySorted (λ x y, less y x = false) (sort_Slice less l);
}.

(** ** What the handlers read *)

Class Stores (Block BlockID Header Commit : Type) := {
  bs_Base : Z;
  bs_Height : Z;
  bs_LoadBlock : Z → option Block;
  bs_LoadBlockByHash : list Z → option Block;
  bs_LoadBlockMeta : Z → option (BlockID * Header);
  bs_LoadBaseMeta : option (BlockID * Header);
  bs_LoadSeenCommit : Z → option Commit;
  bs_LoadBlockCommit : Z → option Commit;
  block_Height : Block → Z;
}.

Section handlers.
Context {Block BlockID Header Commit : Type} `{!Stores Block BlockID Header Commit} `{!SortSlice}.

(** ** Blocks by height *)

Definition getHeight (heightPtr : option Z) : R Z :=
  match heightPtr with
  | None => Ok bs_Height
  | Some height =>
      if bool_decide (height ≤ 0)%Z then Err (RHeightNotPositive height)
      else if bool_decide (bs_Height < height)%Z then Err (RHeightAbove height bs_Height)
      else if bool_decide (height < bs_Base)%Z then Err (RHeightBelow height bs_Base)
      else Ok height
  end.

(** [for height := maxHeight; height >= minHeight; height--]; the fuel bounds the number of
    turns, and [wrapS] is the decrement of an [int64]. *)
Fixpoint metas_loop (fuel : nat) (minHeight height : Z) : list (BlockID * Header) :=
  match fuel with
  | O => []
  | S fuel =>
      if bool_decide (minHeight ≤ height)%Z then
        match bs_LoadBlockMeta height with
        | Some blockMeta => blockMeta :: metas_loop fuel minHeight (wrapS 64 (height - 1))
        | None => metas_loop fuel minHeight (wrapS 64 (height - 1))
        end
      else []
  end.

Definition BlockchainInfo_limit : Z := 20.

Definition BlockchainInfo (minHeight maxHeight : Z) : R (Z * list (BlockID * Header)) :=
  '(minHeight, maxHeight) ← filterMinMax bs_Base bs_Height minHeight maxHeight BlockchainInfo_limit;
  Ok (bs_Height, metas_loop (S (Z.to_nat BlockchainInfo_limit)) minHeight maxHeight).

(** A zero block ID is [None]. *)
Definition rpc_Block (heightPtr : option Z) : R (option BlockID * option Block) :=
  height ← getHeight heightPtr;
  let block := bs_LoadBlock height in
  match bs_LoadBlockMeta height with
  | None => Ok (None, block)
  | Some (id, _) => Ok (Some id, block)
  end.

Definition rpc_BlockByHash (hash : list Z) : R (option BlockID * option Block) :=
  match bs_LoadBlockByHash hash with
  | None => Ok (None, None)
  | Some block =>
      match bs_LoadBlockMeta (block_Height block) with
      | Some (id, _) => Ok (Some id, Some block)
      | None => Err RPanic
      end
  end.

(** The fields of the finalize-block response are handed on as they are. *)
Definition rpc_BlockResults {Res} (LoadFinalizeBlockResponse : Z → result string Res) (heightPtr : option Z) : R (Z * Res) :=
  height ← getHeight heightPtr;
  match LoadFinalizeBlockResponse height with
  | Err e => Err (RLib e)
  | Ok results => Ok (height, results)
  end.

(** The header, the commit and whether it is canonical; [None] is a nil response. *)
Definition rpc_Commit (heightPtr : option Z) : R (option (Header * option Commit * bool)) :=
  height ← getHeight heightPtr;
  match bs_LoadBlockMeta height with
  | None => Ok None
  | Some (_, header) =>
      let commit := if bool_decide (height = bs_Height) then bs_LoadSeenCommit height else bs_LoadBlockCommit height in
      Ok (Some (header, commit, negb (bool_decide (height = bs_Height))))
  end.

(** ** Validators *)

(** Height, validators, count and total. *)
Definition rpc_Validators {V} (LoadValidators : Z → result string (list V))
    (heightPtr pagePtr perPagePtr : option Z) : R (Z * list V * Z * Z) :=
  height ← getHeight heightPtr;
  match LoadValidators height with
  | Err e => Err (RLib e)
  | Ok validators =>
      let totalCount := Z.of_nat (length validators) in
      '(skipCount, pageSize) ← page_bounds pagePtr perPagePtr totalCount;
      v ← slice skipCount (wrapS 64 (skipCount + pageSize)) validators;
      Ok (height, v, Z.of_nat (length v), totalCount)
  end.

(** ** Transactions *)

Record TxResult := mkTxResult { tr_Height : Z; tr_Index : Z; tr_Tx : list Z; tr_Result : list Z }.
Record ResultTx {Proof : Type} := mkResultTx {
  rt_Hash : list Z; rt_Height : Z; rt_Index : Z; rt_TxResult : list Z; rt_Tx : list Z; rt_Proof : option Proof;
}.
#[global] Arguments ResultTx : clear implicits.
#[global] Arguments mkResultTx {Proof}.

(** [block.Data.Txs.Proof(int(index))], which panics outside the block's transactions. *)
Context {Proof : Type} (Txs_Proof : Block → Z → option Proof).
Variable tx_Hash : list Z → list Z.

Definition MaxInt32 : Z := 2 ^ 31 - 1.

(** The zero proof is [None]. *)
Definition tx_proof (prove : bool) (r : TxResult) : R (option Proof) :=
  if prove then
    let block := bs_LoadBlock (tr_Height r) in
    if bool_decide (MaxInt32 < tr_Index r)%Z then Err RIndexOverflow
    else
      match block ≫= λ b, Txs_Proof b (tr_Index r) with
      | Some proof => Ok (Some proof)
      | None => Err RPanic
      end
  else Ok None.

Definition rpc_Tx (Indexer_Get : list Z → result string (option TxResult)) (hash : list Z) (prove : bool) : R (ResultTx Proof) :=
  match Indexer_Get hash with
  | Err e => Err (RLib e)
  | Ok None => Err RTxNotFound
  | Ok (Some r) =>
      proof ← tx_proof prove r;
      Ok (mkResultTx hash (tr_Height r) (tr_Index r) (tr_Result r) (tr_Tx r) proof)
  end.

Definition tx_desc (x y : TxResult) : bool :=
  if bool_decide (tr_Height x = tr_Height y) then bool_decide (tr_Index y < tr_Index x)%Z else bool_decide (tr_Height y < tr_Height x)%Z.
Definition tx_asc (x y : TxResult) : bool :=
  if bool_decide (tr_Height x = tr_Height y) then bool_decide (tr_Index x < tr_Index y)%Z else bool_decide (tr_Height x < tr_Height y)%Z.

Definition sort_txs (orderBy : string) (results : list TxResult) : R (list TxResult) :=
  if bool_decide (orderBy = "desc") then Ok (sort_Slice tx_desc results)
  else if bool_decide (orderBy = "asc" ∨ orderBy = "") then Ok (sort_Slice tx_asc results)
  else Err ROrderBy.

Definition resultTx (prove : bool) (r : TxResult) : R (list (ResultTx Proof)) :=
  proof ← tx_proof prove r;
  Ok [mkResultTx (tx_Hash (tr_Tx r)) (tr_Height r) (tr_Index r) (tr_Result r) (tr_Tx r) proof].

Definition rpc_TxSearch {Q} (query_New : string → result string Q) (Search : Q → result string (list TxResult))
    (query : string) (prove : bool) (pagePtr perPagePtr : option Z) (orderBy : string) : R (list (ResultTx Proof) * Z) :=
  match query_New query with
  | Err e => Err (RLib e)
  | Ok q =>
      match Search q with
      | Err e => Err (RLib e)
      | Ok results =>
          results ← sort_txs orderBy results;
          let totalCount := Z.of_nat (length results) in
          '(skipCount, pageSize) ← page_bounds pagePtr perPagePtr totalCount;
          apiResults ← collect_page (resultTx prove) skipCount pageSize results;
          Ok (apiResults, totalCount)
      end
  end.

Definition height_desc (x y : Z) : bool := bool_decide (y < x)%Z.
Definition height_asc (x y : Z) : bool := bool_decide (x < y)%Z.

Definition sort_heights (orderBy : string) (results : list Z) : R (list Z) :=
  if bool_decide (orderBy = "desc" ∨ orderBy = "") then Ok (sort_Slice height_desc results)
  else if bool_decide (orderBy = "asc") then Ok (sort_Slice height_asc results)
  else Err ROrderBy.

Definition resultBlock (height : Z) : R (list (Block * BlockID)) :=
  Ok (match bs_LoadBlock height with
      | None => []
      | Some block =>
          match bs_LoadBlockMeta (block_Height block) with
          | None => []
          | Some (id, _) => [(block, id)]
          end
      end).

Definition rpc_BlockSearch {Q} (query_New : string → result string Q) (Search : Q → result string (list Z))
    (query : string) (pagePtr perPagePtr : option Z) (orderBy : string) : R (list (Block * BlockID) * Z) :=
  match query_New query with
  | Err e => Err (RLib e)
  | Ok q =>
      match Search q with
      | Err e => Err (RLib e)
      | Ok results =>
          results ← sort_heights orderBy results;
          let totalCount := Z.of_nat (length results) in
          '(skipCount, pageSize) ← page_bounds pagePtr perPagePtr totalCount;
          apiResults ← collect_page resultBlock skipCount pageSize results;
          Ok (apiResults, totalCount)
      end
  end.

(** ** Genesis and status *)

Definition rpc_Genesis {G} (genChunks : option (list (list Z))) (genesis : G) : R G :=
  if bool_decide (1 < length (default [] genChunks)) then Err RGenesisLarge else Ok genesis.

(** Total, number and data; [None] is the nil slice. *)
Definition rpc_GenesisChunked (genChunks : option (list (list Z))) (chunk : Z) : R (Z * Z * list Z) :=
  match genChunks with
  | None => Err RChunksNil
  | Some chunks =>
      let n := Z.of_nat (length chunks) in
      if bool_decide (n = 0)%Z then Err RChunksEmpty
      else
        let id := wrapS 64 chunk in
        if bool_decide (id < 0)%Z || bool_decide (n - 1 < id)%Z then Err (RChunkInvalid (n - 1) id)
        else data ← index id chunks; Ok (n, id, data)
  end.

Definition rpc_ConsensusParams {P} (genesisParams : option P) (heightPtr : option Z) : R (Z * P) :=
  match genesisParams with Some p => Ok (bs_Height, p) | None => Err RPanic end.

(** What [Status] reports of the blocks: hash, application hash, height and time; a missing
    block has empty hashes, height and time 0. *)
Record SyncInfo := mkSyncInfo {
  LatestBlockHash : list Z; LatestAppHash : list Z; LatestBlockHeight : Z; LatestBlockTimeNano : Z;
  EarliestBlockHash : list Z; EarliestAppHash : list Z; EarliestBlockHeight : Z; EarliestBlockTimeNano : Z;
}.

Definition rpc_Status (hd_Height : Header → Z) (hd_AppHash : Header → list Z) (hd_UnixNano : Header → Z) (id_Hash : BlockID → list Z)
    (ChainID : option (list Z)) : R (list Z * SyncInfo) :=
  let '(eHash, eApp, eHeight, eTime) :=
    match bs_LoadBaseMeta with
    | Some (id, header) => (id_Hash id, hd_AppHash header, hd_Height header, hd_UnixNano header)
    | None => ([], [], 0%Z, 0%Z)
    end in
  let '(lHash, lApp, lTime) :=
    if bool_decide (bs_Height ≠ 0)%Z then
      match bs_LoadBlockMeta bs_Height with
      | Some (id, header) => (id_Hash id, hd_AppHash header, hd_UnixNano header)
      | None => ([], [], 0%Z)
      end
    else ([], [], 0%Z) in
  chainID ← (match ChainID with
             | None => Ok (replicate 32 0%Z)
             | Some bs => match ToHash256 bs with (Some e, _) => Err (RChainID e) | (None, id) => Ok id end
             end);
  Ok (chainID, mkSyncInfo lHash lApp bs_Height lTime eHash eApp eHeight eTime).
End handlers.

(** ** The mempool and the application *)

Section mempool.
Context {Mem : Type} (ReapMaxTxs : Z → Mem → list (list Z)) (Mempool_Size SizeBytes : Mem → Z).

(** Count, total, total bytes and transactions. *)
Definition UnconfirmedTxs (limitPtr : option Z) (m : Mem) : Z * Z * Z * list (list Z) :=
  let limit := validatePerPage limitPtr in
  let txs := ReapMaxTxs limit m in
  (Z.of_nat (length txs), Mempool_Size m, SizeBytes m, txs).

Definition NumUnconfirmedTxs (m : Mem) : Z * Z * Z := (Mempool_Size m, Mempool_Size m, SizeBytes m).
End mempool.

(** [CheckTx], [ABCIInfo] and [ABCIQuery] hand the application's answer on. *)
Definition of_app {A B} (request : A → result string B) (a : A) : R B :=
  match request a with Ok b => Ok b | Err e => Err (RLib e) end.

Record RequestQuery := mkRequestQuery { rq_Path : string; rq_Data : list Z; rq_Height : Z; rq_Prove : bool }.
Definition rpc_ABCIQuery {B} (Query : RequestQuery → result string B) (path : string) (data : list Z) (height : Z) (prove : bool) : R B :=
  of_app Query (mkRequestQuery path data height prove).

(** ** Broadcasting a transaction *)

Record ResponseCheckTx := mkResponseCheckTx { ck_Code : Z; ck_Data : list Z; ck_Log : list Z; ck_Codespace : list Z }.
Definition CodeTypeOK : Z := 0.

(** The event bus of CometBFT, by the subscriptions it holds. *)
Class EventBus (Bus Client Query : Type) := {
  NumClients : Bus → Z;
  NumClientSubscriptions : Client → Bus → Z;
  Subscribe : Client → Query → Bus → result string Bus;
  Unsubscribe : Client → Query → Bus → option string * Bus;
  subscribed : Client → Query → Bus → bool;
}.

(** A client subscribes to a query at most once; the two calls change that subscription only. *)
Class EventBusLaws `{!EventBus Bus Client Query, !EqDecision Client, !EqDecision Query} : Prop := {
  Subscribe_new : ∀ c q b b', Subscribe c q b = Ok b' → subscribed c q b = false;
  Subscribe_sub : ∀ c q b b' c' q', Subscribe c q b = Ok b' →
    subscribed c' q' b' = if bool_decide (c' = c ∧ q' = q) then true else subscribed c' q' b;
  Unsubscribe_sub : ∀ c q b c' q', subscribed c' q' (Unsubscribe c q b).2 =
    if bool_decide (c' = c ∧ q' = q) then false else subscribed c' q' b;
}.

(** What ends the wait for the transaction: its event (with the data of an [EventDataTx], or
    of another type), the end of the subscription, or the timeout. *)
Inductive deliver_wait :=
| TxIncluded (data : option (list Z * Z))
| SubCanceled (err : option string)
| TimedOut.

(** What ends the wait for the answer of the mempool. *)
Inductive check_wait :=
| CtxDone (err : string)
| Checked (res : ResponseCheckTx) (w : deliver_wait).

Record ResultBroadcastTxCommit := mkBroadcastCommit {
  bc_CheckTx : ResponseCheckTx; bc_TxResult : option (list Z); bc_Hash : list Z; bc_Height : Z;
}.

Section broadcast.
Context `{!EventBus Bus Client Query}.
Variable tx_Hash : list Z → list Z.

Definition broadcast_wait (tx : list Z) (w : check_wait) : option ResultBroadcastTxCommit * option rpc_err :=
  match w with
  | CtxDone e => (None, Some (RNotConfirmed e))
  | Checked res w =>
      let failed := mkBroadcastCommit res None (tx_Hash tx) 0 in
      if bool_decide (ck_Code res ≠ CodeTypeOK) then (Some failed, None)
      else
        match w with
        | TxIncluded None => (None, Some RNotEventDataTx)
        | TxIncluded (Some (r, height)) => (Some (mkBroadcastCommit res (Some r) (tx_Hash tx) height), None)
        | SubCanceled e => (Some failed, Some (RSubCanceled (default "CometBFT exited" e)))
        | TimedOut => (Some failed, Some RTimedOut)
        end
  end.

(** [others] is what other clients do to the bus while the call waits; the deferred
    [Unsubscribe] runs on every return after the subscription. *)
Definition BroadcastTxCommit (MaxSubscriptionClients MaxSubscriptionsPerClient : Z) (EventQueryTxFor : list Z → Query)
    (subscriber : Client) (tx : list Z) (checkTx : result string ()) (w : check_wait) (others : Bus → Bus) (bus : Bus)
    : option ResultBroadcastTxCommit * option rpc_err * Bus :=
  if bool_decide (MaxSubscriptionClients ≤ NumClients bus)%Z then (None, Some (RMaxClients MaxSubscriptionClients), bus)
  else if bool_decide (MaxSubscriptionsPerClient ≤ NumClientSubscriptions subscriber bus)%Z
  then (None, Some (RMaxSubscriptions MaxSubscriptionsPerClient), bus)
  else
    let q := EventQueryTxFor tx in
    match Subscribe subscriber q bus with
    | Err e => (None, Some (RSubscribe e), bus)
    | Ok bus =>
        let r := match checkTx with
                 | Err e => (None, Some (RCheckTx e))
                 | Ok _ => broadcast_wait tx w
                 end in
        (r, (Unsubscribe subscriber q (others bus)).2)
    end.

Definition BroadcastTxAsync (tx : list Z) (checkTx : result string ()) : R (list Z) :=
  match checkTx with Err e => Err (RLib e) | Ok _ => Ok (tx_Hash tx) end.

(** The answer of the mempool, or the end of the request's context; the response and the hash. *)
Definition BroadcastTxSync (tx : list Z) (checkTx : result string ()) (w : result string ResponseCheckTx) : R (ResponseCheckTx * list Z) :=
  match checkTx with
  | Err e => Err (RLib e)
  | Ok _ => match w with Err e => Err (RNotConfirmed e) | Ok res => Ok (res, tx_Hash tx) end
  end.
End broadcast.

(** ** Windows *)

Lemma filterMinMax_spec base height min max limit lo hi :
  (0 ≤ base)%Z → (0 ≤ height < 2 ^ 62)%Z → (0 < limit < 2 ^ 62)%Z →
  filterMinMax base height min max limit = Ok (lo, hi) →
  (0 ≤ min ∧ 0 ≤ max)%Z ∧ (lo ≤ hi ∧ hi - lo < limit ∧ 1 ≤ lo ∧ base ≤ lo ∧ hi ≤ height ∧ min ≤ lo ∧ (max = 0 ∨ hi ≤ max))%Z ∧
  hi = Z.min height (if bool_decide (max = 0)%Z then height else max) ∧ lo = Z.max (Z.max (Z.max base 1) min) (hi - limit + 1).
Proof.
  intros Hb Hh Hl. unfold filterMinMax, MinInt64, MaxInt64.
  destruct (_ || _) eqn:E0; [done|]. apply orb_false_iff in E0 as [?%bool_decide_eq_false ?%bool_decide_eq_false].
  set (mx := if bool_decide (height < _)%Z then _ else _).
  assert (mx = Z.min height (if bool_decide (max = 0)%Z then height else max)) as Hmx.
  { subst mx. repeat case_bool_decide; lia. }
  clearbody mx. rewrite (wrapS_id 64 (mx - limit)), (wrapS_id 64) by (try unfold inS; try (case_bool_decide; lia); lia).
  repeat case_bool_decide; try done; intros [= <- <-]; repeat split; try lia.
Qed.

Section theorems.
Context {Block BlockID Header Commit : Type} `{!Stores Block BlockID Header Commit}.

Lemma metas_loop_spec fuel lo hi : (- 2 ^ 62 ≤ lo)%Z → (hi < 2 ^ 62)%Z → (hi - lo + 1 < Z.of_nat fuel)%Z →
  metas_loop fuel lo hi = omap bs_LoadBlockMeta (reverse (seqZ lo (hi - lo + 1))).
Proof.
  intros Hlo. revert hi. induction fuel as [|fuel IH]; intros hi Hhi Hf; cbn [metas_loop].
  { by rewrite seqZ_nil by lia. }
  case_bool_decide as Hle; [|by rewrite seqZ_nil by lia].
  rewrite (wrapS_id 64) by (unfold inS; lia). rewrite IH by lia.
  replace (hi - lo + 1)%Z with ((hi - 1 - lo + 1) + 1)%Z by lia. rewrite (seqZ_app lo (hi - 1 - lo + 1) 1) by lia.
  rewrite (seqZ_cons _ 1), (seqZ_nil _ (Z.pred 1)) by lia. rewrite reverse_app. cbn.
  replace (lo + (hi - 1 - lo + 1))%Z with hi by lia. by destruct (bs_LoadBlockMeta hi).
Qed.

(** The window of [blockchain].  For a block store whose heights are below [2 ^ 62],
    [BlockchainInfo] refuses negative heights and an empty window, and else returns the
    block metas the store has from the highest to the lowest height of the window: at most
    20 heights, the last ones that are between the heights asked for (0 stands for the
    lowest and the highest) and that the store can have. *)
Theorem blockchain_info_window minHeight maxHeight :
  (0 ≤ bs_Base)%Z → (0 ≤ bs_Height < 2 ^ 62)%Z →
  let hi := if bool_decide (maxHeight = 0)%Z then bs_Height else Z.min bs_Height maxHeight in
  let lo := Z.max (Z.max (Z.max bs_Base 1) minHeight) (hi - 19) in
  BlockchainInfo minHeight maxHeight =
    if bool_decide (minHeight < 0 ∨ maxHeight < 0)%Z then Err RNegativeHeights
    else if bool_decide (hi < lo)%Z then Err (RMinAboveMax lo hi)
    else Ok (bs_Height, omap bs_LoadBlockMeta (reverse (seqZ lo (hi - lo + 1)))).
Proof.
  intros Hb Hh hi lo. unfold BlockchainInfo. destruct (filterMinMax _ _ _ _ _) as [[lo' hi']|e] eqn:E.
  - apply filterMinMax_spec in E as ([Hmin Hmax] & Hr & Ehi & Elo); [|done|done|done].
    assert (hi' = hi) as -> by (subst hi hi'; case_bool_decide; lia).
    assert (lo' = lo) as -> by (subst lo lo'; unfold BlockchainInfo_limit; lia).
    rewrite bool_decide_eq_false_2, (bool_decide_eq_false_2 (hi < lo)%Z) by lia. cbn [mbind result_bind].
    unfold BlockchainInfo_limit in *. by rewrite metas_loop_spec by lia.
  - cbn [mbind result_bind]. revert E. unfold filterMinMax.
    destruct (_ || _) eqn:E0.
    { intros [= <-]. rewrite bool_decide_eq_true_2; [done|]. apply orb_true_iff in E0 as [?%bool_decide_eq_true|?%bool_decide_eq_true]; auto. }
    apply orb_false_iff in E0 as [?%bool_decide_eq_false ?%bool_decide_eq_false].
    rewrite (bool_decide_eq_false_2 (minHeight < 0 ∨ maxHeight < 0)%Z) by lia.
    replace (MinInt64 bs_Height _) with hi by (subst hi; unfold MinInt64; destruct (bool_decide_reflect (maxHeight = 0)%Z); case_bool_decide; lia).
    assert (0 ≤ hi < 2 ^ 62)%Z as Hhi by (subst hi; case_bool_decide; lia).
    rewrite (wrapS_id 64 (hi - _)) by (unfold inS, BlockchainInfo_limit; lia). rewrite (wrapS_id 64) by (unfold inS, BlockchainInfo_limit; lia).
    replace (MaxInt64 (MaxInt64 _ _) _) with lo by (subst lo; unfold MaxInt64, BlockchainInfo_limit; repeat case_bool_decide; lia).
    case_bool_decide; [by intros [= <-]|done].
Qed.
End theorems.

(** ** Pages *)

(** Page [p] of [l], and how many there are. *)
Definition chunk {A} (perPage p : Z) (l : list A) : list A := take (Z.to_nat perPage) (drop (Z.to_nat ((p - 1) * perPage)) l).
Definition num_pages (perPage total : Z) : Z := Z.max 1 ((total + perPage - 1) / perPage).

Lemma validatePerPage_range perPagePtr : (1 ≤ validatePerPage perPagePtr ≤ 100)%Z.
Proof. unfold validatePerPage, defaultPerPage, maxPerPage. destruct perPagePtr; [|lia]. repeat case_bool_decide; lia. Qed.

Lemma num_pages_bounds perPage total : (1 ≤ perPage)%Z → (0 ≤ total)%Z →
  (total ≤ num_pages perPage total * perPage ∧ (num_pages perPage total - 1) * perPage ≤ Z.max 0 (total - 1))%Z.
Proof.
  intros Hp Ht. unfold num_pages. pose proof (Z.div_mod (total + perPage - 1) perPage ltac:(lia)) as E.
  pose proof (Z.mod_pos_bound (total + perPage - 1) perPage ltac:(lia)). nia.
Qed.

Lemma quot_pages perPage total : (1 ≤ perPage)%Z → (0 ≤ total < 2 ^ 62)%Z →
  (let pages := Z.quot (total - 1) perPage + 1 in if bool_decide (pages = 0) then 1 else pages)%Z = num_pages perPage total.
Proof.
  intros Hp Ht. cbv zeta. unfold num_pages. destruct (decide (total = 0)%Z) as [->|Hne].
  - assert ((0 + perPage - 1) / perPage = 0)%Z as -> by (apply Z.div_small; lia).
    destruct (decide (perPage = 1)%Z) as [->|]; [done|]. rewrite (Z.quot_opp_l 1) by lia. rewrite Z.quot_small by lia. done.
  - rewrite Z.quot_div_nonneg by lia. replace (total + perPage - 1)%Z with (total - 1 + 1 * perPage)%Z by lia.
    rewrite Z.div_add by lia. pose proof (Z.div_pos (total - 1) perPage ltac:(lia) ltac:(lia)). case_bool_decide; lia.
Qed.

Lemma page_bounds_spec pagePtr perPagePtr total :
  (0 ≤ total < 2 ^ 60)%Z →
  let perPage := validatePerPage perPagePtr in
  let p := default 1%Z pagePtr in
  page_bounds pagePtr perPagePtr total =
    if bool_decide (1 ≤ p ≤ num_pages perPage total)%Z then Ok ((p - 1) * perPage, Z.min perPage (total - (p - 1) * perPage))%Z
    else Err (RPage (num_pages perPage total) p).
Proof.
  intros Ht perPage p. pose proof (validatePerPage_range perPagePtr) as Hp. fold perPage in Hp.
  pose proof (num_pages_bounds perPage total ltac:(lia) ltac:(lia)) as Hn.
  assert (1 ≤ num_pages perPage total)%Z as H1 by (unfold num_pages; lia).
  assert (validatePage pagePtr perPage total = if bool_decide (1 ≤ p ≤ num_pages perPage total)%Z then Ok p else Err (RPage (num_pages perPage total) p)) as Hv.
  { unfold validatePage. rewrite (bool_decide_eq_false_2 (perPage < 1)%Z) by lia. subst p. destruct pagePtr as [p|]; cbn [default from_option id].
    2: { by rewrite bool_decide_eq_true_2 by lia. }
    assert (- 2 ^ 61 ≤ (total - 1) ÷ perPage ≤ 2 ^ 61)%Z as Hq.
    { pose proof (Z.quot_abs (total - 1) perPage ltac:(lia)). pose proof (Z.quot_le_upper_bound (Z.abs (total - 1)) (Z.abs perPage) (2 ^ 61) ltac:(lia)). nia. }
    rewrite (wrapS_id 64 (total - 1)), (wrapS_id 64) by (unfold inS; lia). pose proof (quot_pages perPage total ltac:(lia) ltac:(lia)) as Eq. cbv zeta in Eq. rewrite Eq.
    destruct (bool_decide_reflect (1 ≤ p ≤ num_pages perPage total)%Z) as [Hc|Hc].
    - by rewrite (bool_decide_eq_false_2 (p ≤ 0)%Z), (bool_decide_eq_false_2 (_ < p)%Z) by lia.
    - destruct (decide (p ≤ 0)%Z); [by rewrite (bool_decide_eq_true_2 (p ≤ 0)%Z) by done|].
      by rewrite (bool_decide_eq_false_2 (p ≤ 0)%Z), (bool_decide_eq_true_2 (_ < p)%Z) by lia. }
  unfold page_bounds. fold perPage. rewrite Hv. case_bool_decide as Hc; [|done]. cbn [mbind result_bind].
  assert (0 ≤ (p - 1) * perPage ≤ total)%Z as Hs by nia.
  unfold validateSkipCount, MinInt64. rewrite (wrapS_id 64 (p - 1)), (wrapS_id 64 (_ * _)) by (unfold inS; nia).
  rewrite (bool_decide_eq_false_2 (_ < 0)%Z) by lia. rewrite (wrapS_id 64) by (unfold inS; lia).
  do 2 f_equal. case_bool_decide; lia.
Qed.

Lemma list_bind_assoc' {A B C} (f : A → list B) (g : B → list C) l : l ≫= (λ x, f x ≫= g) = (l ≫= f) ≫= g.
Proof. induction l as [|x l IH]; [done|]. cbn. by rewrite bind_app, IH. Qed.

Lemma list_bind_singleton {A B} (f : A → B) l : l ≫= (λ x, [f x]) = f <$> l.
Proof. induction l as [|x l IH]; [done|]. cbn. by rewrite IH. Qed.

(** The first [n] pages are the first elements of the list. *)
Lemma chunks_take {A} perPage n (l : list A) : (1 ≤ perPage)%Z → (0 ≤ n)%Z →
  seqZ 1 n ≫= (λ p, chunk perPage p l) = take (Z.to_nat (n * perPage)) l.
Proof.
  intros Hp Hn. revert n Hn. apply natlike_ind; [done|]. intros n Hn IH. unfold Z.succ. rewrite seqZ_app, bind_app, IH by lia.
  rewrite (seqZ_cons _ 1), (seqZ_nil _ (Z.pred 1)) by lia. cbn. rewrite app_nil_r. unfold chunk.
  replace (Z.to_nat ((n + 1) * perPage)) with (Z.to_nat (n * perPage) + Z.to_nat perPage) by nia.
  replace (1 + n - 1)%Z with n by lia. by rewrite take_take_drop.
Qed.

Lemma chunks_all {A} perPage (l : list A) : (1 ≤ perPage)%Z →
  seqZ 1 (num_pages perPage (Z.of_nat (length l))) ≫= (λ p, chunk perPage p l) = l.
Proof.
  intros Hp. pose proof (num_pages_bounds perPage (Z.of_nat (length l)) Hp ltac:(lia)) as [Hn _].
  rewrite chunks_take by (unfold num_pages; lia). apply take_ge. lia.
Qed.

Lemma chunk_slice {A} perPage p (l : list A) : (1 ≤ perPage)%Z →
  (1 ≤ p ≤ num_pages perPage (Z.of_nat (length l)))%Z → (Z.of_nat (length l) < 2 ^ 60)%Z →
  let skip := ((p - 1) * perPage)%Z in
  slice skip (wrapS 64 (skip + Z.min perPage (Z.of_nat (length l) - skip))) l = Ok (chunk perPage p l).
Proof.
  intros Hp Hr Hl skip. pose proof (num_pages_bounds perPage (Z.of_nat (length l)) Hp ltac:(lia)) as [_ Hn].
  assert (0 ≤ skip ≤ Z.of_nat (length l))%Z as Hs by (subst skip; nia).
  rewrite (wrapS_id 64) by (unfold inS; lia). unfold slice, chunk. rewrite bool_decide_eq_true_2 by lia. fold skip. f_equal.
  destruct (decide (perPage ≤ Z.of_nat (length l) - skip)%Z); [f_equal; lia|].
  rewrite !take_ge; [done| |]; rewrite length_drop; lia.
Qed.

Lemma collect_spec {A B} (body : A → R (list B)) f n i (l : list A) :
  (∀ x, x ∈ l → body x = Ok (f x)) → (0 ≤ i)%Z → (i + Z.of_nat n ≤ Z.of_nat (length l))%Z →
  collect body n i l = Ok (take n (drop (Z.to_nat i) l) ≫= f).
Proof.
  intros Hb. revert i. induction n as [|n IH]; intros i Hi Hn; cbn [collect]; [by rewrite take_0|].
  destruct (lookup_lt_is_Some_2 l (Z.to_nat i)) as [x Hx]; [lia|].
  unfold index. rewrite bool_decide_eq_false_2, Hx by lia. cbn [mbind result_bind].
  rewrite Hb by (by eapply list_elem_of_lookup_2). rewrite IH by lia. cbn [mbind result_bind].
  rewrite (drop_S _ _ _ Hx). replace (Z.to_nat (i + 1)) with (S (Z.to_nat i)) by lia. done.
Qed.

Lemma chunk_collect {A B} (body : A → R (list B)) f perPage p (l : list A) : (1 ≤ perPage)%Z →
  (1 ≤ p ≤ num_pages perPage (Z.of_nat (length l)))%Z → (∀ x, x ∈ l → body x = Ok (f x)) →
  let skip := ((p - 1) * perPage)%Z in
  collect_page body skip (Z.min perPage (Z.of_nat (length l) - skip)) l = Ok (chunk perPage p l ≫= f).
Proof.
  intros Hp Hr Hb skip. pose proof (num_pages_bounds perPage (Z.of_nat (length l)) Hp ltac:(lia)) as [_ Hn].
  assert (0 ≤ skip ≤ Z.of_nat (length l))%Z as Hs by (subst skip; nia).
  unfold collect_page. rewrite bool_decide_eq_false_2 by lia. rewrite (collect_spec _ f) by (done || lia). unfold chunk. fold skip. do 2 f_equal.
  destruct (decide (perPage ≤ Z.of_nat (length l) - skip)%Z); [f_equal; lia|].
  rewrite !take_ge; [done| |]; rewrite length_drop; lia.
Qed.

Section sorting.
Context `{!SortSlice}.

(** The order asked for, by height and then by index in the block. *)
Definition tx_ordered (desc : bool) (x y : TxResult) : Prop :=
  (if desc then (tr_Height y < tr_Height x ∨ tr_Height y = tr_Height x ∧ tr_Index y ≤ tr_Index x)
   else (tr_Height x < tr_Height y ∨ tr_Height x = tr_Height y ∧ tr_Index x ≤ tr_Index y))%Z.

Lemma StronglySorted_impl {A} (R1 R2 : A → A → Prop) l : (∀ x y, R1 x y → R2 x y) → StronglySorted R1 l → StronglySorted R2 l.
Proof. intros HR. induction 1 as [|x l Hl IH Hx]; constructor; [done|]. eapply Forall_impl; [done|]. auto. Qed.

Lemma sort_txs_spec orderBy results : (orderBy = "desc" ∨ orderBy = "asc" ∨ orderBy = "") →
  ∃ sorted, sort_txs orderBy results = Ok sorted ∧ sorted ≡ₚ results ∧
    StronglySorted (tx_ordered (bool_decide (orderBy = "desc"))) sorted.
Proof.
  intros Ho. unfold sort_txs. case_bool_decide as Hd.
  - eexists. split_and!; [done|apply sort_perm|]. eapply StronglySorted_impl, sort_sorted; unfold tx_desc, tx_ordered;
      intros *; repeat case_bool_decide; try done; lia.
  - rewrite bool_decide_eq_true_2 by tauto. eexists. split_and!; [done|apply sort_perm|].
    eapply StronglySorted_impl, sort_sorted; unfold tx_asc, tx_ordered; intros *; repeat case_bool_decide; try done; lia.
Qed.

Lemma sort_heights_spec orderBy results : (orderBy = "desc" ∨ orderBy = "asc" ∨ orderBy = "") →
  ∃ sorted, sort_heights orderBy results = Ok sorted ∧ sorted ≡ₚ results ∧
    StronglySorted (λ x y, if bool_decide (orderBy = "asc") then x ≤ y else y ≤ x)%Z sorted.
Proof.
  intros Ho. unfold sort_heights. destruct (bool_decide_reflect (orderBy = "asc")) as [->|Hn].
  - rewrite bool_decide_eq_false_2 by naive_solver. eexists. split_and!; [done|apply sort_perm|].
    eapply StronglySorted_impl, sort_sorted; unfold height_asc; intros *; repeat case_bool_decide; try done; lia.
  - rewrite bool_decide_eq_true_2 by naive_solver. eexists. split_and!; [done|apply sort_perm|].
    eapply StronglySorted_impl, sort_sorted; unfold height_desc; intros *; repeat case_bool_decide; try done; lia.
Qed.
End sorting.

Section search.
Context {Block BlockID Header Commit : Type} `{!Stores Block BlockID Header Commit} `{!SortSlice}.
Context {Proof : Type} (Txs_Proof : Block → Z → option Proof).
Variable tx_Hash : list Z → list Z.
Context {Q : Type} (query_New : string → result string Q).

(** C28: the pages of a search are a partition of its results.  When the query is parsed and
    the indexer answers, [TxSearch] with an order it knows works on one arrangement of the
    results, sorted by height and index, and the pages [1 .. pages] it returns for a page
    size make up that arrangement, one after the other: nothing is lost, repeated or out
    of order, no page is longer than the page size (30 when none is given, at most 100),
    and no access is out of range.  The page not given is the first; any other page is an
    error that says how many there are, and an unknown order is refused. *)
Theorem tx_search_pages Search query q prove results perPagePtr orderBy proofs :
  query_New query = Ok q → Search q = Ok results → (Z.of_nat (length results) < 2 ^ 60)%Z →
  (∀ r, r ∈ results → tx_proof Txs_Proof prove r = Ok (proofs r)) →
  let run pagePtr := rpc_TxSearch Txs_Proof tx_Hash query_New Search query prove pagePtr perPagePtr orderBy in
  let perPage := validatePerPage perPagePtr in
  let pages := num_pages perPage (Z.of_nat (length results)) in
  let answer r := mkResultTx (tx_Hash (tr_Tx r)) (tr_Height r) (tr_Index r) (tr_Result r) (tr_Tx r) (proofs r) in
  if bool_decide (orderBy = "desc" ∨ orderBy = "asc" ∨ orderBy = "") then
    ∃ sorted page, sorted ≡ₚ results ∧ StronglySorted (tx_ordered (bool_decide (orderBy = "desc"))) sorted ∧
      seqZ 1 pages ≫= page = answer <$> sorted ∧
      (∀ p, Z.of_nat (length (page p)) ≤ perPage)%Z ∧
      ∀ pagePtr, run pagePtr =
        let p := default 1%Z pagePtr in
        if bool_decide (1 ≤ p ≤ pages)%Z then Ok (page p, Z.of_nat (length results)) else Err (RPage pages p)
  else ∀ pagePtr, run pagePtr = Err ROrderBy.
Proof.
  intros Hq Hs Hl Hpf run perPage pages answer. subst run. cbv beta. unfold rpc_TxSearch. rewrite Hq, Hs.
  pose proof (validatePerPage_range perPagePtr) as Hp. fold perPage in Hp.
  case_bool_decide as Ho.
  2: { intros pagePtr. unfold sort_txs. by rewrite !bool_decide_eq_false_2 by tauto. }
  destruct (sort_txs_spec orderBy results Ho) as (sorted & -> & Hperm & Hsort). cbn [mbind result_bind].
  assert (length sorted = length results) as Hlen by by apply Permutation_length.
  assert (∀ r, r ∈ sorted → resultTx Txs_Proof tx_Hash prove r = Ok [answer r]) as Hbody.
  { intros r Hr. rewrite Hperm in Hr. unfold resultTx. by rewrite Hpf by done. }
  exists sorted, (λ p, chunk perPage p sorted ≫= λ r, [answer r]). split_and!; [done|done| | |].
  - rewrite list_bind_assoc'. unfold pages. rewrite <-Hlen, chunks_all by lia. apply list_bind_singleton.
  - intros p. rewrite list_bind_singleton, length_fmap. unfold chunk. rewrite length_take. lia.
  - intros pagePtr. rewrite page_bounds_spec by lia. fold perPage. rewrite Hlen. fold pages. cbv zeta.
    clear Hsort. case_bool_decide as Hr; [|reflexivity]. cbn [mbind result_bind]. rewrite <-Hlen.
    by rewrite (chunk_collect _ (λ r, [answer r])) by (done || subst pages; rewrite ?Hlen; lia).
Qed.
End search.

Section pages.
Context {Block BlockID Header Commit : Type} `{!Stores Block BlockID Header Commit} `{!SortSlice}.
Context {Q : Type} (query_New : string → result string Q).

Lemma resultBlock_spec height : ∃ l, resultBlock height = Ok l ∧ length l ≤ 1.
Proof.
  unfold resultBlock. eexists. split; [done|]. destruct (bs_LoadBlock height) as [b|]; [|cbn; lia].
  destruct (bs_LoadBlockMeta (block_Height b)) as [[id h]|]; cbn; lia.
Qed.

(** The same for [BlockSearch], whose pages leave out the blocks that the store has no
    block or block meta of, and whose order is descending unless it is asked otherwise. *)
Theorem block_search_pages Search query q results perPagePtr orderBy :
  query_New query = Ok q → Search q = Ok results → (Z.of_nat (length results) < 2 ^ 60)%Z →
  (orderBy = "desc" ∨ orderBy = "asc" ∨ orderBy = "") →
  let perPage := validatePerPage perPagePtr in
  let pages := num_pages perPage (Z.of_nat (length results)) in
  let found height := match resultBlock height with Ok l => l | Err _ => [] end in
  ∃ sorted page, sorted ≡ₚ results ∧ StronglySorted (λ x y, if bool_decide (orderBy = "asc") then x ≤ y else y ≤ x)%Z sorted ∧
    seqZ 1 pages ≫= page = sorted ≫= found ∧
    ∀ pagePtr, rpc_BlockSearch query_New Search query pagePtr perPagePtr orderBy =
      let p := default 1%Z pagePtr in
      if bool_decide (1 ≤ p ≤ pages)%Z then Ok (page p, Z.of_nat (length results)) else Err (RPage pages p).
Proof.
  intros Hq Hs Hl Ho perPage pages found. unfold rpc_BlockSearch. rewrite Hq, Hs.
  pose proof (validatePerPage_range perPagePtr) as Hp. fold perPage in Hp.
  destruct (sort_heights_spec orderBy results Ho) as (sorted & -> & Hperm & Hsort). cbn [mbind result_bind].
  assert (length sorted = length results) as Hlen by by apply Permutation_length.
  exists sorted, (λ p, chunk perPage p sorted ≫= found). split_and!; [done|done| |].
  - rewrite list_bind_assoc'. unfold pages. by rewrite <-Hlen, chunks_all by lia.
  - intros pagePtr. rewrite page_bounds_spec by lia. fold perPage. rewrite Hlen. fold pages. cbv zeta.
    clear Hsort. case_bool_decide as Hr; [|reflexivity]. cbn [mbind result_bind]. rewrite <-Hlen.
    rewrite (chunk_collect _ found); [done|lia|subst pages; by rewrite Hlen|]. intros h _. by destruct (resultBlock_spec h) as (l & E & _).
Qed.

(** The pages of [Validators] at a height the store has. *)
Theorem validators_pages {V} (LoadValidators : Z → result string (list V)) heightPtr height vals perPagePtr :
  getHeight heightPtr = Ok height → LoadValidators height = Ok vals → (Z.of_nat (length vals) < 2 ^ 60)%Z →
  let perPage := validatePerPage perPagePtr in
  let total := Z.of_nat (length vals) in
  let pages := num_pages perPage total in
  ∃ page, seqZ 1 pages ≫= page = vals ∧ (∀ p, Z.of_nat (length (page p)) ≤ perPage)%Z ∧
    ∀ pagePtr, rpc_Validators LoadValidators heightPtr pagePtr perPagePtr =
      let p := default 1%Z pagePtr in
      if bool_decide (1 ≤ p ≤ pages)%Z then Ok (height, page p, Z.of_nat (length (page p)), total) else Err (RPage pages p).
Proof.
  intros Hh Hv Hl perPage total pages. pose proof (validatePerPage_range perPagePtr) as Hp. fold perPage in Hp.
  exists (λ p, chunk perPage p vals). split_and!; [apply chunks_all; lia| |].
  { intros p. unfold chunk. rewrite length_take. lia. }
  intros pagePtr. unfold rpc_Validators. rewrite Hh. cbn [mbind result_bind]. rewrite Hv, page_bounds_spec by lia.
  fold perPage total pages. cbv zeta. case_bool_decide as Hr; [|reflexivity]. cbn [mbind result_bind].
  subst total. rewrite chunk_slice by (lia || done). done.
Qed.
End pages.

(** ** Subscriptions *)

Section subscriptions.
Context `{!EqDecision Client, !EqDecision Query, !EventBus Bus Client Query, !EventBusLaws}.

(** C29: [BroadcastTxCommit] leaves no subscription behind.  Whatever the mempool, the
    context, the block and the timeout do, after the call every client is subscribed to
    the queries it was subscribed to before, given that the other clients changed none
    while it waited; and the call reports a result with a height only for a transaction
    the mempool accepted and whose event arrived. *)
Theorem broadcast_commit_unsubscribes (tx_Hash : list Z → list Z) maxClients maxPerClient (queryFor : list Z → Query)
    (subscriber : Client) tx checkTx w others (bus : Bus) :
  (∀ b c q, subscribed c q (others b) = subscribed c q b) →
  let '(r, e, bus') := BroadcastTxCommit tx_Hash maxClients maxPerClient queryFor subscriber tx checkTx w others bus in
  (∀ c q, subscribed c q bus' = subscribed c q bus) ∧
  (∀ res, r = Some res → bc_Hash res = tx_Hash tx ∧ checkTx = Ok () ∧
    ((bc_TxResult res = None ∧ bc_Height res = 0%Z) ∨
     ∃ txr, w = Checked (bc_CheckTx res) (TxIncluded (Some (txr, bc_Height res))) ∧ ck_Code (bc_CheckTx res) = CodeTypeOK ∧
       bc_TxResult res = Some txr ∧ e = None)) ∧
  (r = None → is_Some e).
Proof.
  intros Hothers. unfold BroadcastTxCommit. case_bool_decide; [split_and!; done|]. case_bool_decide; [split_and!; done|].
  destruct (Subscribe _ _ bus) as [bus'|e] eqn:Es; [|split_and!; done].
  assert (∀ c q, subscribed c q (Unsubscribe subscriber (queryFor tx) (others bus')).2 = subscribed c q bus) as Hsub.
  { intros c q. rewrite Unsubscribe_sub, Hothers, (Subscribe_sub _ _ _ _ c q Es). case_bool_decide as Ec; [|done].
    destruct Ec as [-> ->]. by rewrite (Subscribe_new _ _ _ _ Es). }
  destruct checkTx as [[]|e]; [|split_and!; done]. unfold broadcast_wait. destruct w as [e|res w]; [by split_and!|].
  case_bool_decide as Hc.
  { split; [exact Hsub|]. split; [|done]. intros res' [= <-]. split_and!; try done. by left. }
  destruct w as [[[txr h]|]|e|]; (split; [exact Hsub|]); (split; [|done]);
    intros res' [= <-]; split_and!; try done; [|by left..].
  right. by exists txr.
Qed.
End subscriptions.

(** ** Examples *)

(** [sort.Slice] as a merge sort. *)
#[local] Instance less_dec {A} (less : A → A → bool) : RelDecision (λ x y, less y x = false) := λ x y, bool_eq_dec (less y x) false.
Definition ex_sort {A} (less : A → A → bool) (l : list A) : list A := merge_sort (λ x y, less y x = false) l.

Lemma ex_sort_sorted {A} (less : A → A → bool) l :
  (∀ x y, less x y = true → less y x = false) → (∀ x y z, less x y = false → less y z = false → less x z = false) →
  StronglySorted (λ x y, less y x = false) (ex_sort less l).
Proof.
  intros Hasym Htrans. apply StronglySorted_merge_sort.
  - intros x y z Hxy Hyz. by apply (Htrans z y x).
  - intros x y. destruct (less y x) eqn:E; [right; by apply Hasym|by left].
Qed.

#[local] Instance ex_SortSlice : SortSlice := {|
  sort_Slice := @ex_sort;
  sort_perm _ less l := merge_sort_Permutation _ l;
  sort_sorted := @ex_sort_sorted;
|}.

(** A block store with the blocks 3 to 40; a block is its height. *)
Definition ex_stores : Stores Z Z Z Z := {|
  bs_Base := 3; bs_Height := 40;
  bs_LoadBlock h := if bool_decide (3 ≤ h ≤ 40)%Z then Some h else None;
  bs_LoadBlockByHash _ := None;
  bs_LoadBlockMeta h := if bool_decide (3 ≤ h ≤ 40)%Z then Some (h, h) else None;
  bs_LoadBaseMeta := Some (3, 3)%Z;
  bs_LoadSeenCommit := Some; bs_LoadBlockCommit := Some; block_Height := id;
|}.

Lemma blockchain_info_window_witness :
  @BlockchainInfo _ _ _ _ ex_stores 1 7 = Ok (40, [(7, 7); (6, 6); (5, 5); (4, 4); (3, 3)])%Z.
Proof. rewrite (@blockchain_info_window _ _ _ _ ex_stores 1 7); [reflexivity|cbn; lia|cbn; lia]. Defined.

Definition ex_results : list TxResult := [mkTxResult 5 1 [1%Z] []; mkTxResult 4 0 [2%Z] []; mkTxResult 5 0 [3%Z] []].
Definition ex_search (page : option Z) : R (list (ResultTx Z) * Z) :=
  @rpc_TxSearch Z Z Z Z ex_stores _ Z (λ b i, Some i) id _ (λ s, Ok s) (λ _, Ok ex_results) "q" false page (Some 2%Z) "desc".

Lemma tx_search_pages_witness :
  match ex_search None with Ok (txs, n) => (rt_Tx <$> txs, n) = ([[1%Z]; [3%Z]], 3%Z) | Err _ => False end ∧
  ex_search (Some 3%Z) = Err (RPage 2 3) ∧
  ∃ sorted, sorted ≡ₚ ex_results ∧ StronglySorted (tx_ordered true) sorted.
Proof.
  split; [vm_compute; reflexivity|]. split; [vm_compute; reflexivity|].
  assert (∀ r, r ∈ ex_results → @tx_proof Z Z Z Z ex_stores Z (λ b i, Some i) false r = Ok None) as Hp by done.
  pose proof (@tx_search_pages Z Z Z Z ex_stores _ Z (λ b i, Some i) id _ (λ s, Ok s) (λ _, Ok ex_results) "q" _ false
    ex_results (Some 2%Z) "desc" (λ _, None) eq_refl eq_refl eq_refl Hp) as H. cbv zeta in H.
  rewrite bool_decide_eq_true_2 in H by auto. destruct H as (sorted & page & Hperm & Hsort & _). by exists sorted.
Defined.

(** An event bus as the list of its subscriptions. *)
#[local] Instance ex_bus : EventBus (list (Z * Z)) Z Z := {|
  NumClients b := Z.of_nat (length b);
  NumClientSubscriptions c b := Z.of_nat (length (filter (λ s, s.1 = c) b));
  Subscribe c q b := if bool_decide ((c, q) ∈ b) then Err "already subscribed" else Ok ((c, q) :: b);
  Unsubscribe c q b := (None, filter (λ s, s ≠ (c, q)) b);
  subscribed c q b := bool_decide ((c, q) ∈ b);
|}.

#[local] Instance ex_bus_laws : EventBusLaws (Bus := list (Z * Z)) (Client := Z) (Query := Z).
Proof.
  split; cbn.
  - intros c q b b'. by case_bool_decide.
  - intros c q b b' c' q'. case_bool_decide; [done|]. intros [= <-]. case_bool_decide as E; case_bool_decide as E'; try done.
    + apply elem_of_cons in E as [[= -> ->]|E]; [by destruct E'|]. by rewrite bool_decide_eq_true_2.
    + destruct E. destruct E' as [-> ->]. by left.
    + rewrite bool_decide_eq_false_2; [done|]. intros Hin. apply E. by right.
  - intros c q b c' q'. case_bool_decide as E; rewrite list_elem_of_filter in E; case_bool_decide as E'; try done.
    + destruct E as [E _]. by destruct E' as [-> ->].
    + destruct E as [_ E]. by rewrite bool_decide_eq_true_2.
    + rewrite bool_decide_eq_false_2; [done|]. intros Hin. apply E. split; [|done]. intros [= -> ->]. by apply E'.
Qed.

Lemma broadcast_commit_unsubscribes_witness :
  let run w := BroadcastTxCommit id 10 5 (λ tx, Z.of_nat (length tx)) 7%Z [1; 2]%Z (Ok ()) w id [(7, 1)]%Z in
  let ok := mkResponseCheckTx 0 [] [] [] in
  run (Checked ok (TxIncluded (Some ([9], 4)))%Z) = (Some (mkBroadcastCommit ok (Some [9]) [1; 2] 4)%Z, None, [(7, 1)]%Z) ∧
  ∀ c q, subscribed c q (run (Checked ok TimedOut)).2 = subscribed c q [(7, 1)]%Z.
Proof.
  split; [vm_compute; reflexivity|].
  exact (proj1 (broadcast_commit_unsubscribes id 10 5 (λ tx, Z.of_nat (length tx)) 7%Z [1; 2]%Z (Ok ())
    (Checked (mkResponseCheckTx 0 [] [] []) TimedOut) id [(7, 1)]%Z (λ _ _ _, eq_refl))).
Defined.
